(* ===== verification/_CoqProject ===== *)
-Q . S2P
Prelude.v
Text.v
Float64.v
Value.v
QoqLike.v
QoqAst.v
QoqLexer.v
QoqCompare.v
QoqTable.v
QoqJoin.v
QoqFunctions.v
QoqOps.v
QoqEval.v
QoqOpsFacts.v
QoqCompiled.v
QoqColumns.v
QoqExec.v
QoqNames.v
QoqParser.v
Instances.v
QoqHashJoin.v
QoqEvalFacts.v
QoqRunFacts.v
QoqParallel.v
QoqColumnsFacts.v
QoqResults.v
QoqNamesFacts.v
QoqParserFacts.v
Witnesses.v
GcHeap.v
GcPass.v
GcPassFacts.v
GcSafety.v
GcReclaim.v
GcState.v
GcStateFacts.v
GcWitnesses.v
AsyncPool.v
AsyncPoolFacts.v
AsyncFuture.v
AsyncSchedule.v
AsyncScheduleFacts.v
AsyncWitnesses.v
Bytes.v
Keys.v
ValueMap.v
ObjCodec.v
ObjCodecFacts.v
CommonWitnesses.v
Stringify.v
StringifyFacts.v
Equality.v
EqualityFacts.v
GraphWitnesses.v
SessionStore.v
SessionStoreFacts.v
SessionScope.v
SessionCalls.v
SessionFacts.v
SessionWitnesses.v
CfmlLexer.v
CfmlLexerFacts.v
CfmlRoundtrip.v
CfmlNames.v
CfmlNamesFacts.v
CfmlAst.v
CfmlParser.v
CfmlParserFacts.v
CfmlParserTotal.v
CfmlExpr.v
CfmlWritten.v
CfmlReading.v
CfmlPrecedence.v
CfmlWitnesses.v
Bytecode.v
Codegen.v
CodegenEval.v
CodegenFacts.v
CodegenCorrect.v
CodegenWitnesses.v
