(* ===== verification/Prelude.v ===== *)
(** * RustCFML: verification of its core components

    RustCFML runs CFML programs in Rust.  This library verifies seven of
    its parts: the crate [src/crates/cfml-qoq], the SQL engine behind
    [queryExecute] with [dbtype="query"], which answers a SELECT over query
    values the program already holds; the cycle collector of
    [src/crates/cfml-common], which frees the reference cycles among CFML
    containers that reference counting leaves behind; the async kernel of
    [src/crates/cfml-vm], the thread pool, futures and timer behind CFML's
    executors and schedules; the keys, ordered maps and binary codec of
    [src/crates/cfml-common] that structs and [objectSave] rest on; the string
    form and the deep equality of values that share and contain each other;
    the sessions of [src/crates/cfml-vm], the store, the session scope of a
    request and the reaper of expired sessions; and the front end of the CFML
    language in [src/crates/cfml-compiler], its tokenizer, the names its parser
    reads and its expression grammar, and the compilation of expressions to
    bytecode in [src/crates/cfml-codegen].

    ** How the program fits together

    A source text becomes tokens with their places ([lexer.rs]): words, numbers,
    operators, and strings whose [#...#] interpolations are kept as text for a
    nested parse.  A keyword carries no text; where the parser ([parser.rs]) wants
    a name it recovers the spelling from a side table of the tokenizer.  Expressions
    are read by recursive descent through seventeen levels of precedence into the
    tree of [ast.rs], with a limit on nesting and one on the operands of a chain.
    The compiler ([compiler.rs]) turns the tree into the instructions of a stack
    machine ([cfml-vm]).

    CFML values ([dynamic.rs]) are shared by reference counting.  While a
    request or a [cfthread] body runs, each new struct, array, query, captured
    scope and component instance enters the thread's log ([cycle_gc.rs]).  When
    the log has grown, and when the request ends, a pass over the logged
    containers that are still alive counts the handles they hold to each other,
    takes those with more owners than that as roots, marks what the roots reach
    and clears the rest.  Live survivors are carried on to later passes; the log
    of a request whose threads still run is deferred; a large graph displaced
    from an application-wide variable is entered again
    ([CfmlValue::relog_cycle_nodes]) and swept soon after.

    The VM hands a closure to run elsewhere to an executor pool or to the
    scheduler ([async_kernel.rs], [schedule_wheel.rs]) as a seed with a channel
    and a cancel flag; a worker, a runner or the submitting thread runs the body
    on a thread of its own and sends the result; the program holds a future that
    resolves from the channel.

    A CFML struct is a [ValueMap]: an [IndexMap] keyed by [Key], which compares
    and hashes ignoring ASCII case and keeps the casing first written
    ([key.rs]).  [objectSave] walks a value's shared containers and writes tagged
    bytes, [objectLoad] builds new containers from them ([objcodec.rs]).  The
    string form ([as_string], [to_string_sorted]) walks the same graph with the
    path of open containers and a memo of finished ones; deep equality
    ([equality.rs]) walks two graphs in step with the set of pairs it has seen.

    A request of an application with sessions starts by looking its cookie's id
    up in the store ([session_store.rs]), under the application's name; it
    continues that session, creates one, or leaves that to the first write
    ([execute_with_lifecycle]).  All requests of a session share one struct,
    which the record in the store refers to; the end of a request writes it
    back and delivers the [onSessionEnd] calls that the reaper ([lib.rs] of the
    command line) has queued for the application.

    For a query of queries, the VM hands a SQL text to [parser.rs], which pulls
    tokens from [lexer.rs] and builds the tree of [ast.rs].  It asks [base_table_names] which query
    variables to fetch and calls [execute] with those queries, the bind
    parameters, the registry of SQL functions and a callback into the VM.
    [execute] decides from the statement alone whether row work may run on
    several threads, then runs the statement: each SELECT core resolves its
    tables ([table.rs]), builds the join combinations ([intersection.rs], or a
    hash join), filters them by the bound and compiled WHERE clause
    ([compiled.rs]), projects or groups them, removes duplicates and applies
    TOP; the statement appends UNION arms, sorts, and cuts by LIMIT.  Values
    compare and group by [compare.rs]; LIKE is [like.rs]; scalar functions are
    [functions.rs] and the registry [function.rs].

    ** The files

    Shared:
    - [Prelude]: [outcome] (a Rust [Result] that may also panic), the state and
      failure monad [ST] with its equivalence [meq], list lemmas, tactics.
    - [Text]: Rust [char]/[String]; the Unicode tables are the class [Unicode].
    - [Float64]: [f64] at binary64 precision, with parsing and printing.
    - [Value]: [CfmlValue] with its string form, truth and numeric coercions,
      [CfmlError], [CfmlQueryData] (cfml-common: [dynamic.rs], [numeric.rs],
      [vm.rs], [datetime/mod.rs]); the date parser is the class [DateLib].

    Models, one per source file or stage, names as in the source:
    - [CfmlLexer] ([lexer.rs], [token.rs], [position.rs]): the text still to be
      read with line and column, the tokens pushed so far and the side tables;
    - [CfmlNames] ([parser.rs]): the token cursor and every name slot;
    - [CfmlAst] ([ast.rs], expressions) and [CfmlParser] ([parser.rs],
      [parse_expression] with all it calls but [parse_block] and the nested parse
      of an interpolation, which are parameters);
    - [QoqLexer] ([lexer.rs]), [QoqAst] ([ast.rs]), [QoqParser] ([parser.rs]);
    - [QoqLike] ([like.rs]; the [regex] crate is the class [RegexCrate]);
    - [QoqCompare] ([compare.rs]);
    - [QoqTable] ([table.rs], storage of [intersection.rs]), [QoqJoin]
      ([build_intersections]);
    - [QoqFunctions] ([functions.rs], [function.rs]; the C library's functions
      are the class [Libm]);
    - [QoqOps], [QoqEval], [QoqCompiled], [QoqColumns], [QoqExec], [QoqNames]:
      [execution.rs] (operators and aggregates; [Engine::eval]; [bind_expr] and
      [eval_compiled] with [compiled.rs]; the column-major helpers, where the
      thread pool and the unspecified cases of [sort_by] are the class
      [Platform]; the pipeline from [resolve_tables] to [execute];
      [base_table_names]).

    - [GcHeap]: the blocks behind CFML's containers, functions, columns, native
      objects, class blueprints and method tables, the handles between them,
      strong counts and freeing ([dynamic.rs], [component.rs]);
    - [GcPass]: one pass, [collect_from_log_carrying] with [classify],
      [for_each_child_node], [blueprint_values] and [clear]; the locks a phase
      could not take are a set per phase;
    - [GcState]: the logs, generations, carried survivors, deferred logs and the
      displacement sweep of [cycle_gc.rs], and [relog_cycle_nodes];
    - [AsyncPool] ([ExecutorPoolNative], [ScheduledPermits]), [AsyncFuture]
      ([FutureNative], [CompletionQueueNative]), [AsyncSchedule]
      ([schedule_wheel.rs]): the state under a mutex together with the threads
      that use it, one operation per critical section;
    - [Bytes]: little-endian words, [f64] bit patterns, LEB128 lengths, UTF-8;
    - [Keys] ([key.rs]): the folded hash, keys, their order, the interner;
    - [ValueMap] ([ValueMap], [IntoKey], [ProbeKey]; the [indexmap] crate is the
      class [IndexMap]);
    - [ObjCodec] ([objcodec.rs], [fn_object_save], [object_load_bytes]): the
      encoder on a heap of containers, the decoder on the unread bytes;
    - [Stringify] ([as_string_memo], [to_string_sorted_memo],
      [java_shim_string], the XML printer) and [Equality] ([equality.rs]), on
      the same heap;
    - [SessionStore] ([MemoryStore], the pending [onSessionEnd] queue, the
      reaper): the map and the heap of the structs its records share;
    - [SessionScope] ([attach_session_scope], [lazy_init_session_if_pending],
      [sync_session_scope_to_store], the session functions, steps 5b and 8 of
      [execute_with_lifecycle]): the fields of a request's VM and the world that
      all requests share;
    - [SessionCalls]: the same operations as programs of calls to the store and to
      the structs, each of which takes a lock of its own; run without
      interruption, a program is the operation of [SessionScope];
    - [Bytecode]: the instructions ([BytecodeOp]), the table [stack_effect] of the
      VM, and its loop as far as the operand stack, jumps and [try] handlers go;
      what an instruction does to values and variables is the class [Vm];
    - [Codegen] ([compile_expression] of [compiler.rs] with all it calls):
      instructions are appended to a buffer and jumps patched in place.

    State: an [engine] record holds the sources, parameters, registry, callback
    and the parallel flag; the world around the engine (the VM the callback
    reaches) is the state [W] of [ST].  The parser's state is the record
    [parser].  An error of the source is [Err]; a panic (index out of range,
    [expect], integer overflow of [%]) is [Panic].

    Facts:
    - lexing and parsing ([QoqLexer], [QoqParserFacts]): rendered tokens read
      back; the parser is total, its trees are well formed and its [?]
      parameters numbered in text order; parsed WHERE clauses compile
      faithfully; the nesting limit does not bound runs of signs;
    - values ([QoqLike], [QoqCompare], [QoqOpsFacts]): LIKE decides its
      specification; the comparator's order laws and the ASCII fast path; group
      keys identify equal rows; Kleene logic, IN, arithmetic and its one panic,
      MIN/MAX, text functions, registry;
    - joins ([QoqTable], [QoqJoin], [QoqHashJoin]): the flat vector implements a
      list of rows; the builder computes the relational meaning of a join
      chain; the hash join equals the nested loop on comparable keys, and not
      otherwise;
    - result columns ([QoqColumnsFacts]): DISTINCT, ORDER BY, LIMIT, transposes
      and output names against their specifications;
    - evaluation ([QoqCompiled], [QoqEvalFacts]): binding and compiling change
      nothing; pure expressions are functions of the row;
    - the run ([QoqRunFacts], [QoqParallel], [QoqResults], [QoqNamesFacts]):
      the bounded recursion satisfies the source's recursive equation, the
      parallel path gives the sequential result, every returned query is well
      formed, GROUP BY partitions the rows, only the reported tables are read.
    - the collector's pass ([GcPassFacts], [GcSafety], [GcReclaim]):
      what is reachable from outside is untouched when the survivors alone own
      the carriers a pass looks through, and counterexamples where they do not;
      the containers of unreachable cycles are emptied, and freed when every
      cycle goes through one of them; a pass returns when carriers are not
      nested without end;
    - the collector's bookkeeping ([GcStateFacts]), proved against the classes
      [PassSpec] and [PassTotal], which the pass implements, and for passes of a
      given depth ([passes]): entry lists without
      repetition under every interleaving ([gc_step]), live containers stay
      tracked when carrying is on, deferred logs are collected, displacement
      sweeps give up;
    - the async kernel ([AsyncPoolFacts], [AsyncFuture], [AsyncScheduleFacts]),
      for every interleaving ([pool_step], [sched_step]): every future has
      exactly one result, pending or sent, and the pool drains; a schedule is in
      exactly one place, is not run before its deadline and its timer never
      sleeps past one, and a cancellation wakes it; a future's answer is stable;
      a due schedule may wait behind the body of another;
    - keys, maps and codec ([Keys], [ValueMap], [ObjCodecFacts]): keys are names up
      to case under every interleaving of the interner ([key_step]), which is
      bounded; a value map refines an ordered case-insensitive map; what is saved
      is what is loaded, and what is nested too deeply is refused; the decoder
      is safe on any bytes;
    - the CFML front end ([CfmlLexerFacts], [CfmlRoundtrip], [CfmlNamesFacts]):
      every token's place spells it, the tokenizer returns on every text and
      reads back what is written, with strings nested in interpolations to any
      depth; names keep the spelling of their keywords, but for the tag attribute
      [null];
    - CFML expressions ([CfmlParserFacts] with rules for runs of the parser,
      [CfmlParserTotal], [CfmlExpr]): on every source that does
      not stop behind an open brace the parser returns, inside its tokens and
      within a bound, when the parser of statements returns on the function
      bodies and interpolated texts of that source; behind an open brace no
      bound is enough, and an interpolated text can end in one although the
      source does not;
    - precedence ([CfmlWritten] with a reference grammar of expressions,
      [CfmlReading] with rules for parsers on the tokens ahead,
      [CfmlPrecedence]): an expression written in a source,
      with parentheses exactly where its levels ask for them, is read as the tree
      it stands for; closures, interpolated and named arguments and assignments
      are outside that grammar;
    - the compiler of expressions ([CodegenEval] with the direct evaluation of
      expressions, [CodegenFacts] with rules for compiled code and the code with
      jumps, [CodegenCorrect]): the code of an expression does on the
      machine what the evaluation does, exceptions included, and leaves its value;
      an assignment that is a statement stores and leaves the stack empty.
      Assignments inside other expressions, postfix operators on what cannot be
      stored to, and functions are outside ([valued]);
    - graphs ([StringifyFacts], [EqualityFacts]): the memo and the cycle marks
      change nothing of the string form, the sorted form depends only on the
      content, and where the guard does not reach the form does not exist; deep
      equality is bisimilarity and returns; without component scopes it is an
      equivalence relation, with them the answer may depend on the side;
    - sessions ([SessionStoreFacts], [SessionFacts]), for every interleaving of
      the calls of requests, of their threads and of the reaper ([session_step],
      [shared_step]): the store is a map from application and id with exact
      expiry, the reaper is punctual up to what a sleep overruns; no
      session's struct reaches a request of another application while requests
      stay with theirs, requests of one unexpired session keep each other's
      writes, an id that no application holds is not adopted; an invalidated
      session may come back, and a session rotated while another request ends
      is left under two ids with one struct;
    - [GcWitnesses], [AsyncWitnesses], [CommonWitnesses], [GraphWitnesses],
      [SessionWitnesses], [CfmlWitnesses], [CodegenWitnesses] apply these theorems to a concrete
      heap, pool, scheduler, map, graph, session, source text and machine;
    - [Instances] gives concrete instances of the classes; [Witnesses] applies
      the theorems to concrete inputs under them.

    ** Bounds

    - [run_statement] recurses through subqueries; the fuel is the nesting depth
      of the statement plus one, and [run_statement_unfold] shows it is always
      enough.
    - The parser's knot is unrolled one level above [MAX_NESTING_DEPTH] and its
      loops get the length of the unread text; [parse_correct] shows neither
      runs out.
    - [skip_trivia], [unique_name] and the text replacements carry a count that
      their progress lemmas show sufficient.
    - A pass's [pe_fuel] is the depth of [classify]'s recursion through values
      that are not containers, [None] a stack overflow; [collect_returns] gives
      the condition under which a depth is enough.  Its mark loop gets one round
      per survivor, which is always enough.
    - The codec's recursion is bounded by its own limit [MAX_DEPTH]; a length takes
      at most ten groups.
    - The CFML tokenizer's loops get the length of the unread text;
      [cf_lex_total] shows that more changes nothing.  Its bracket depth, an [i32],
      is an integer here: a text would need more than 2^31 brackets.
    - The CFML parser's knot ([unroll]) gets a number of native calls; its loops one
      round more than there are tokens.  [cf_expression_returns] shows that 200 for
      each token left and 2 for each level of nesting left are enough, and that more
      changes nothing.
    - [compile_expression] and [evaluate] get the depth of the recursion; more than
      the height of the expression is enough ([compile_expression_correct]), and
      more changes nothing ([evaluate_returns]).
    - The walks of [Stringify] get a recursion depth, [Equality] the number of
      nested containers the native stack has room for; [string_form_correct]
      (for graphs in layers, with cycles inside a layer) and
      [deep_equal_correct] (more room than pairs of containers) show how much is
      enough.  The data-only check of a session gets a recursion depth too; it
      has no guard, and [validate_overflows] shows a graph on which none is
      enough.
    - [usize] and [i64] quantities are [Z] (or [nat] for row numbers) with
      saturation, wrap-around and range checks written out where the source has
      them; a release build has no overflow checks, so [-i] and [abs] wrap.

    ** Not modelled

    Error texts of the parser are kept as constructors, not rendered.  The
    chunk-level scheduling of rayon is abstracted to: results in order, some
    failing item reported.  Mutable sharing of query cells is not modelled,
    since the engine only reads them.  In the collector, the census, reports,
    sampling and spare buffers are left out (the one report that changes what a
    pass does, retention attribution, is modelled), and no other thread changes
    the heap in the middle of a pass.  In the async kernel, what a body returns,
    how long it runs and whether a thread starts are choices of the environment,
    condition variables may wake a thread at any time, and what the objects
    report to the collector and to the diagnostics is left out.  Format 1 of the
    codec (JSON) is a parameter, and all NaNs are one.  In sessions, new ids,
    the clock and what [onSessionStart] does to the session are arguments, a
    store that serialises is represented by its two flags, and a server state is
    always present; components are printed by their members, without their
    method tables.  Of the CFML grammar, statements, declarations and
    tags are left out: the expression grammar has their parser as a parameter.  Of the
    compiler, statements, function and component bodies and the passes over finished
    code (slots, fused instructions) are left out; the body of a closure is a
    parameter.  Of the VM, only the stack, jumps and handlers are modelled.  The
    standard library, configuration and the command line are not modelled. *)

From stdpp Require Import base list list_numbers numbers relations.
From Stdlib Require Import Sorting.Sorted Sorting.Permutation.

Scheme All for list.
Scheme All for prod.
Scheme All for option.

(** ** Outcomes

    Rust code that returns [Result<T, E>] and may also panic.  [Panic] is kept
    apart from [Err]: an [Err] is catchable CFML-level behaviour, a panic
    unwinds the request thread. *)
Inductive outcome (E A : Type) : Type :=
  | Ok (a : A)
  | Err (e : E)
  | Panic.
Arguments Ok {E A} a.
Arguments Err {E A} e.
Arguments Panic {E A}.

Definition obind {E A B} (m : outcome E A) (k : A -> outcome E B) : outcome E B :=
  match m with
  | Ok a => k a
  | Err e => Err e
  | Panic => Panic
  end.

Definition omapo {E A B} (f : A -> B) (m : outcome E A) : outcome E B :=
  obind m (fun a => Ok (f a)).

Declare Scope outcome_scope.
Delimit Scope outcome_scope with outcome.
Notation "'let?' x := m 'in' k" := (obind m (fun x => k))
  (at level 10, x pattern, m at level 100, k at level 200)
  : outcome_scope.

(** [Option::ok_or] *)
Definition ok_or {E A} (o : option A) (e : E) : outcome E A :=
  match o with Some a => Ok a | None => Err e end.

(** Indexing that panics out of range: [v[i]]. *)
Definition index_or_panic {E A} (l : list A) (i : nat) : outcome E A :=
  match l !! i with Some a => Ok a | None => Panic end.

(** ** Tactics *)

(** Case analysis on the scrutinee of the outermost [match] of a hypothesis or
    of the goal, recording the equation. *)
Ltac case_in H :=
  match type of H with
  | context [match ?x with _ => _ end] => destruct x eqn:?; simplify_eq/=
  end.

Ltac case_goal :=
  match goal with
  | |- context [match ?x with _ => _ end] => destruct x eqn:?; simplify_eq/=
  end.

(** Unpack a successful chain of [let?]. *)
Ltac ok_inv H :=
  repeat match type of H with
  | obind ?m _ = Ok _ => destruct m eqn:?; simpl in H; try discriminate H
  end.

Create HintDb cfml discriminated.

(** ** Monadic traversals of [outcome] *)

Section Traverse.
Context {E A B : Type}.

(** A [for] loop that pushes [f x] for every element and stops at the first
    failure ([collect::<Result<Vec<_>, _>>()] has the same result). *)
Fixpoint omapM (f : A -> outcome E B) (l : list A) : outcome E (list B) :=
  match l with
  | [] => Ok []
  | x :: l => obind (f x) (fun y => obind (omapM f l) (fun ys => Ok (y :: ys)))
  end.

Lemma omapM_length f l ys : omapM f l = Ok ys -> length ys = length l.
Proof.
  revert ys; induction l as [|x l IH]; simpl; intros ys H; [by simplify_eq|].
  ok_inv H. simplify_eq/=. by rewrite (IH _ eq_refl).
Qed.

Lemma omapM_ok f g l :
  (forall x, x ∈ l -> f x = Ok (g x)) -> omapM f l = Ok (map g l).
Proof.
  induction l as [|x l IH]; intros H; simpl; [done|].
  rewrite H by left. simpl. rewrite IH; [done|]. intros y Hy; apply H; by right.
Qed.

Lemma omapM_lookup f l ys i x :
  omapM f l = Ok ys -> l !! i = Some x -> exists y, f x = Ok y /\ ys !! i = Some y.
Proof.
  revert ys i; induction l as [|a l IH]; simpl; intros ys i H Hi; [done|].
  ok_inv H. simplify_eq/=. destruct i as [|i]; simpl in *; [naive_solver|eauto].
Qed.

Lemma omapM_ext f g l :
  (forall x, x ∈ l -> f x = g x) -> omapM f l = omapM g l.
Proof.
  induction l as [|x l IH]; intros H; simpl; [done|].
  rewrite H by left. rewrite IH; [done|]. intros y Hy; apply H; by right.
Qed.
End Traverse.

Lemma omapM_app {E A B} (f : A -> outcome E B) l1 l2 :
  omapM f (l1 ++ l2)
  = obind (omapM f l1) (fun y1 => obind (omapM f l2) (fun y2 => Ok (y1 ++ y2))).
Proof.
  induction l1 as [|x l1 IH]; simpl.
  - by destruct (omapM f l2).
  - destruct (f x); simpl; [|done..]. rewrite IH.
    destruct (omapM f l1); simpl; [|done..]. by destruct (omapM f l2).
Qed.

(** ** State and failure

    Code that threads a state [S] and returns an [outcome].  The state reached
    is kept on every result, so that effects performed before a failure are
    visible.  Two computations are equivalent ([meq]) when they agree on every
    state. *)
Definition ST (S E A : Type) : Type := S -> S * outcome E A.

Section StateOutcome.
Context {S E : Type}.

Definition st_ret {A} (a : A) : ST S E A := fun s => (s, Ok a).
Definition st_err {A} (e : E) : ST S E A := fun s => (s, Err e).
Definition st_panic {A} : ST S E A := fun s => (s, Panic).
Definition st_lift {A} (o : outcome E A) : ST S E A := fun s => (s, o).
Definition st_bind {A B} (m : ST S E A) (k : A -> ST S E B) : ST S E B :=
  fun s => match m s with
           | (s', Ok a) => k a s'
           | (s', Err e) => (s', Err e)
           | (s', Panic) => (s', Panic)
           end.

Definition meq {A} (m1 m2 : ST S E A) : Prop := forall s, m1 s = m2 s.

#[global] Instance meq_equiv {A} : Equivalence (@meq A).
Proof.
  split; [by intros m s|by intros m1 m2 H s|].
  intros m1 m2 m3 H1 H2 s. by rewrite H1.
Qed.

#[global] Instance st_bind_proper {A B} :
  Proper (meq ==> pointwise_relation _ meq ==> meq) (@st_bind A B).
Proof.
  intros m1 m2 Hm k1 k2 Hk s. unfold st_bind. rewrite Hm.
  destruct (m2 s) as [s' []]; [apply Hk|done..].
Qed.

Lemma st_bind_cong {A B} (m1 m2 : ST S E A) (k1 k2 : A -> ST S E B) :
  meq m1 m2 -> (forall a, meq (k1 a) (k2 a)) -> meq (st_bind m1 k1) (st_bind m2 k2).
Proof. intros Hm Hk. by apply st_bind_proper. Qed.

Lemma st_bind_ret_l {A B} (a : A) (k : A -> ST S E B) : meq (st_bind (st_ret a) k) (k a).
Proof. by intros s. Qed.
Lemma st_bind_ret_r {A} (m : ST S E A) : meq (st_bind m st_ret) m.
Proof. intros s. unfold st_bind, st_ret. by destruct (m s) as [s' []]. Qed.
Lemma st_bind_assoc {A B C} (m : ST S E A) (k : A -> ST S E B) (h : B -> ST S E C) :
  meq (st_bind (st_bind m k) h) (st_bind m (fun a => st_bind (k a) h)).
Proof. intros s. unfold st_bind. by destruct (m s) as [s' []]. Qed.
Lemma st_bind_lift {A B} (o : outcome E A) (k : A -> ST S E B) :
  meq (st_bind (st_lift o) k)
      (match o with Ok a => k a | Err e => st_err e | Panic => st_panic end).
Proof. intros s. by destruct o. Qed.
Lemma st_bind_lift_lift {A B} (o : outcome E A) (k : A -> outcome E B) :
  meq (st_bind (st_lift o) (fun a => st_lift (k a))) (st_lift (obind o k)).
Proof. intros s. by destruct o. Qed.

(** [for x in l { out.push(f(x)?) }] *)
Fixpoint st_mapM {A B} (f : A -> ST S E B) (l : list A) : ST S E (list B) :=
  match l with
  | [] => st_ret []
  | x :: l => st_bind (f x) (fun y => st_bind (st_mapM f l) (fun ys => st_ret (y :: ys)))
  end.

(** [for x in l { acc = f(acc, x)? }] *)
Fixpoint st_foldM {A B} (f : B -> A -> ST S E B) (acc : B) (l : list A) : ST S E B :=
  match l with
  | [] => st_ret acc
  | x :: l => st_bind (f acc x) (fun acc' => st_foldM f acc' l)
  end.

Lemma st_mapM_cong {A B} (f g : A -> ST S E B) l :
  Forall (fun x => meq (f x) (g x)) l -> meq (st_mapM f l) (st_mapM g l).
Proof.
  induction 1 as [|x l Hx _ IH]; simpl; [done|].
  apply st_bind_cong; [done|intros y]. apply st_bind_cong; [done|by intros].
Qed.

Lemma st_foldM_cong {A B} (f g : B -> A -> ST S E B) acc l :
  Forall (fun x => forall b, meq (f b x) (g b x)) l ->
  meq (st_foldM f acc l) (st_foldM g acc l).
Proof.
  intros H. revert acc. induction H as [|x l Hx _ IH]; intros acc; simpl; [done|].
  apply st_bind_cong; [done|intros y]. apply IH.
Qed.

Lemma st_mapM_lift {A B} (f : A -> outcome E B) l :
  meq (st_mapM (fun x => st_lift (f x)) l) (st_lift (omapM f l)).
Proof.
  induction l as [|x l IH]; simpl; [done|]. rewrite st_bind_lift.
  destruct (f x) as [y| |]; simpl; [|done..]. rewrite IH.
  exact (st_bind_lift_lift _ (fun ys => Ok (y :: ys))).
Qed.

Lemma st_mapM_map {A B C} (f : B -> ST S E C) (h : A -> B) l :
  st_mapM f (map h l) = st_mapM (fun x => f (h x)) l.
Proof. induction l; simpl; [done|]. by rewrite IHl. Qed.

(** Successful runs have one result per input. *)
Lemma st_mapM_ok_length {A B} (f : A -> ST S E B) l s s' ys :
  st_mapM f l s = (s', Ok ys) -> length ys = length l.
Proof.
  revert s ys; induction l as [|x l IH]; simpl; intros s ys; unfold st_bind, st_ret.
  - by intros [= <- <-].
  - destruct (f x s) as [s1 []]; try done.
    destruct (st_mapM f l s1) as [s2 []] eqn:Hm; try done.
    intros [= <- <-]. simpl. by rewrite (IH _ _ Hm).
Qed.
End StateOutcome.

Declare Scope st_scope.
Delimit Scope st_scope with st.
Notation "'let!' x := m 'in' k" := (st_bind m (fun x => k))
  (at level 10, x pattern, m at level 100, k at level 200)
  : st_scope.
Arguments st_ret : simpl never.
Arguments st_bind : simpl never.
Arguments st_lift : simpl never.
Arguments st_err : simpl never.
Arguments st_panic : simpl never.

(** Split a successful run of a chain of [let!]. *)
Ltac st_inv H :=
  repeat match type of H with
  | st_bind ?m _ ?s = (_, Ok _) =>
      let r := fresh "r" in let s' := fresh "s" in
      unfold st_bind at 1 in H; destruct (m s) as [s' r] eqn:?; destruct r;
      [| discriminate H | discriminate H]
  end.

(** ** Lists *)

(** [Vec::first] position satisfying a predicate: [iter().position(p)]. *)
Fixpoint position {A} (p : A -> bool) (l : list A) : option nat :=
  match l with
  | [] => None
  | x :: l => if p x then Some 0 else S <$> position p l
  end.

Lemma position_Some {A} (p : A -> bool) l i :
  position p l = Some i ->
  exists x, l !! i = Some x /\ p x = true.
Proof.
  revert i; induction l as [|x l IH]; intros i; simpl; [done|].
  destruct (p x) eqn:Hp; [naive_solver|].
  destruct (position p l); simpl; intros; simplify_eq. naive_solver.
Qed.

Lemma position_lt {A} (p : A -> bool) l i : position p l = Some i -> i < length l.
Proof. intros (x & Hx & _)%position_Some. by eapply lookup_lt_Some. Qed.
#[export] Hint Resolve position_lt : cfml.

(** Lexicographic comparison of lists ([Ord] for slices). *)
Section ListCompare.
Context {A : Type} (cmp : A -> A -> comparison).

Fixpoint list_compare (l1 l2 : list A) : comparison :=
  match l1, l2 with
  | [], [] => Eq
  | [], _ :: _ => Lt
  | _ :: _, [] => Gt
  | x :: l1, y :: l2 =>
      match cmp x y with Eq => list_compare l1 l2 | c => c end
  end.

Context (cmp_antisym : forall x y, cmp y x = CompOpp (cmp x y)).
Context (cmp_eq : forall x y, cmp x y = Eq <-> x = y).
Context (cmp_trans : forall x y z, cmp x y = Lt -> cmp y z = Lt -> cmp x z = Lt).

Lemma list_compare_antisym l1 l2 :
  list_compare l2 l1 = CompOpp (list_compare l1 l2).
Proof.
  revert l2; induction l1 as [|x l1 IH]; intros [|y l2]; simpl; try done.
  rewrite cmp_antisym. destruct (cmp x y); simpl; [apply IH|done..].
Qed.

Lemma list_compare_eq l1 l2 : list_compare l1 l2 = Eq <-> l1 = l2.
Proof.
  revert l2; induction l1 as [|x l1 IH]; intros [|y l2]; simpl; try done.
  destruct (cmp x y) eqn:Hc.
  - apply cmp_eq in Hc as ->. rewrite IH. split; congruence.
  - split; [done|]. intros H; simplify_eq.
    by rewrite (proj2 (cmp_eq y y) eq_refl) in Hc.
  - split; [done|]. intros H; simplify_eq.
    by rewrite (proj2 (cmp_eq y y) eq_refl) in Hc.
Qed.

Lemma list_compare_trans l1 l2 l3 :
  list_compare l1 l2 = Lt -> list_compare l2 l3 = Lt -> list_compare l1 l3 = Lt.
Proof.
  revert l2 l3; induction l1 as [|x l1 IH]; intros [|y l2] [|z l3]; simpl; try done.
  destruct (cmp x y) eqn:H1, (cmp y z) eqn:H2; try done.
  - apply cmp_eq in H1 as ->. rewrite H2. eauto.
  - apply cmp_eq in H1 as ->. by rewrite H2.
  - apply cmp_eq in H2 as ->. by rewrite H1.
  - by rewrite (cmp_trans _ _ _ H1 H2).
Qed.
End ListCompare.

(** [chunks_exact(w)] of a flat vector, for [w > 0]: the complete rows, in
    order; an incomplete tail is dropped. *)
Fixpoint chunks_exact_go {A} (fuel w : nat) (l : list A) : list (list A) :=
  match fuel with
  | 0 => []
  | S fuel =>
      if length l <? w then []
      else take w l :: chunks_exact_go fuel w (drop w l)
  end.

Definition chunks_exact {A} (w : nat) (l : list A) : list (list A) :=
  chunks_exact_go (length l) w l.

Lemma chunks_exact_go_concat {A} fuel w (rows : list (list A)) :
  0 < w -> Forall (fun r => length r = w) rows -> length rows <= fuel ->
  chunks_exact_go fuel w (concat rows) = rows.
Proof.
  intros Hw. revert fuel. induction rows as [|r rows IH]; intros fuel Hall Hf; simpl.
  - destruct fuel; simpl; [done|]. destruct w; [lia|done].
  - destruct fuel as [|fuel]; simpl in *; [lia|].
    apply Forall_cons_1 in Hall as [Hr Hall].
    rewrite length_app, Hr.
    destruct (Nat.ltb_spec (w + length (concat rows)) w); [lia|].
    rewrite take_app_length', drop_app_length' by done. f_equal. apply IH; [done|lia].
Qed.

Lemma concat_width {A} w (rows : list (list A)) :
  Forall (fun r => length r = w) rows -> length (concat rows) = w * length rows.
Proof.
  induction 1 as [|r rows Hr _ IH]; simpl; [lia|]. rewrite length_app, IH. lia.
Qed.

Lemma chunks_exact_concat {A} w (rows : list (list A)) :
  0 < w -> Forall (fun r => length r = w) rows ->
  chunks_exact w (concat rows) = rows.
Proof.
  intros Hw Hall. apply chunks_exact_go_concat; [done..|].
  rewrite (concat_width w) by done. nia.
Qed.

(** [chunks(n)], for [n > 0]: like [chunks_exact] with the incomplete tail kept. *)
Fixpoint chunks_go {A} (fuel n : nat) (l : list A) : list (list A) :=
  match fuel, l with
  | _, [] => []
  | 0, _ => []
  | S fuel, _ => take n l :: chunks_go fuel n (drop n l)
  end.

Definition chunks {A} (n : nat) (l : list A) : list (list A) := chunks_go (length l) n l.

Lemma chunks_go_concat {A} fuel n (l : list A) :
  0 < n -> length l <= fuel -> concat (chunks_go fuel n l) = l.
Proof.
  intros Hn. revert l. induction fuel as [|fuel IH]; intros l Hl.
  - by destruct l; [|simpl in Hl; lia].
  - destruct l as [|x l]; [done|]. cbn [chunks_go concat].
    rewrite IH; [by rewrite take_drop|]. rewrite length_drop. simpl in *. lia.
Qed.

Lemma chunks_concat {A} n (l : list A) : 0 < n -> concat (chunks n l) = l.
Proof. intros. by apply chunks_go_concat. Qed.

Lemma chunks_go_fuel {A} f1 f2 n (l : list A) :
  0 < n -> length l <= f1 -> length l <= f2 -> chunks_go f1 n l = chunks_go f2 n l.
Proof.
  intros Hn. revert f2 l. induction f1 as [|f1 IH]; intros [|f2] [|x l]; simpl; try done; try lia.
  intros H1 H2. f_equal. apply IH; rewrite length_drop; simpl; lia.
Qed.

Lemma take_concat_width {A} w n (rows : list (list A)) :
  Forall (fun r => length r = w) rows -> take (n * w) (concat rows) = concat (take n rows).
Proof.
  intros H; revert n. induction H as [|r rows Hr _ IH]; intros [|n]; simpl; try done.
  - by rewrite take_nil.
  - rewrite take_app_ge by lia. rewrite <- IH. do 2 f_equal. lia.
Qed.

Lemma drop_concat_width {A} w n (rows : list (list A)) :
  Forall (fun r => length r = w) rows -> drop (n * w) (concat rows) = concat (drop n rows).
Proof.
  intros H; revert n. induction H as [|r rows Hr _ IH]; intros [|n]; simpl; try done.
  - by rewrite drop_nil.
  - rewrite drop_app_ge by lia. rewrite <- IH. f_equal. lia.
Qed.

(** Chunking the flat storage of rows cuts at row boundaries. *)
Lemma chunks_rows {A} w n (rows : list (list A)) :
  0 < w -> 0 < n -> Forall (fun r => length r = w) rows ->
  chunks (n * w) (concat rows) = map (@concat _) (chunks n rows).
Proof.
  intros Hw Hn H. unfold chunks. rewrite (concat_width w) by done.
  assert (Hf : length rows <= w * length rows) by nia.
  revert Hf. generalize (w * length rows) as f. intros f Hf.
  rewrite (chunks_go_fuel (length rows) f n) by (done || lia).
  revert rows H Hf. induction f as [|f IH]; intros rows H Hf.
  - by destruct rows; simpl in *; [|lia].
  - destruct rows as [|r rows]; [done|].
    assert (Hr : length r = w) by (by apply Forall_cons_1 in H as [? _]).
    cbn [chunks_go map]. rewrite <- (take_concat_width w) by done.
    rewrite <- IH; [|by apply Forall_drop|rewrite length_drop; simpl in *; lia].
    rewrite <- (drop_concat_width w) by done.
    destruct (concat (r :: rows)) eqn:Hc; [|done].
    simpl in Hc. apply (f_equal length) in Hc. rewrite length_app in Hc. simpl in Hc. lia.
Qed.

(** The [All] predicate of nested induction principles, as [Forall]. *)
Lemma list_all_Forall {A} (P : A -> Prop) l : list_all A P l -> Forall P l.
Proof. induction 1; constructor; auto. Qed.

(** Non-strict transitivity of a lexicographic comparison. *)
Lemma list_compare_le_trans {A} (cmp : A -> A -> comparison) l1 l2 l3 :
  (forall x y, cmp y x = CompOpp (cmp x y)) ->
  (forall x y, cmp x y = Eq <-> x = y) ->
  (forall x y z, cmp x y = Lt -> cmp y z = Lt -> cmp x z = Lt) ->
  list_compare cmp l1 l2 <> Gt -> list_compare cmp l2 l3 <> Gt ->
  list_compare cmp l1 l3 <> Gt.
Proof.
  intros Ha He Ht. destruct (list_compare cmp l1 l2) eqn:H1; [|intros _|done].
  - apply list_compare_eq in H1 as ->; [done|done].
  - destruct (list_compare cmp l2 l3) eqn:H2; [|intros _|done].
    + apply list_compare_eq in H2 as ->; [by rewrite H1|done].
    + by rewrite (list_compare_trans cmp He Ht _ _ _ H1 H2).
Qed.

(** Two texts ended by a separator they do not contain. *)
Lemma sep_app_inj {A} (sep : A) x y r1 r2 :
  sep ∉ x -> sep ∉ y -> x ++ sep :: r1 = y ++ sep :: r2 -> x = y /\ r1 = r2.
Proof.
  revert y; induction x as [|a x IH]; intros [|b y] Hx Hy; simpl; intros H; simplify_eq/=.
  - done.
  - exfalso. apply Hy. left.
  - exfalso. apply Hx. left.
  - rewrite not_elem_of_cons in Hx, Hy.
    destruct (IH y) as [-> ->]; naive_solver.
Qed.

(** ** Reachable states *)

(** What every step preserves holds of every reachable state. *)
Lemma rtc_preserves {A} (R : relation A) (P : A -> Prop) x y :
  (forall a b, R a b -> P a -> P b) -> rtc R x y -> P x -> P y.
Proof. intros HR Hr. induction Hr as [|a b c Hab _ IH]; eauto. Qed.

(** Steps that decrease a measure end in a state that has none left. *)
Lemma rtc_terminates {A} (R : relation A) (m : A -> nat) (done : A -> Prop) x :
  (forall a b, R a b -> m b < m a) -> (forall a, rtc R x a -> done a \/ exists b, R a b) ->
  exists y, rtc R x y /\ done y.
Proof.
  intros Hm. remember (m x) as k eqn:Hk. revert x Hk.
  induction k as [k IH] using lt_wf_ind; intros x -> Hd.
  destruct (Hd x) as [|[b Hb]]; [by apply rtc_refl|by exists x; split; [apply rtc_refl|]|].
  destruct (IH (m b) (Hm _ _ Hb) b) as (y & Hy & Hdy); [done| |].
  - intros a Ha. apply Hd. by eapply rtc_l.
  - exists y. split; [by eapply rtc_l|done].
Qed.

Lemma nsteps_measure {A} (R : relation A) (m : A -> nat) n x y :
  (forall a b, R a b -> m b < m a) -> nsteps R n x y -> n + m y <= m x.
Proof.
  intros Hm Hn. induction Hn as [|n a b c Hab _ IH]; [lia|]. specialize (Hm _ _ Hab). lia.
Qed.
