(* ===== verification/Text.v ===== *)
(** * Text: Rust [char] and [String]

    A [char] is its Unicode scalar value and a string the list of its scalar
    values ([str::chars]).  The byte view ([as_bytes]) is the UTF-8 encoding.
    The Unicode tables of the Rust standard library (case mappings, property
    tables) are the interface [Unicode]: the functions the source calls, with
    the laws the code relies on (their behaviour on ASCII, where Rust documents
    agreement with the [ascii_*] functions). *)

From stdpp Require Import base list numbers strings pretty.
From S2P Require Import Prelude.

Local Open Scope N_scope.

Abbreviation char := N (only parsing).
Abbreviation str := (list N) (only parsing).

(** A Rust string literal. *)
Definition lit (s : string) : str := map Ascii.N_of_ascii (String.list_ascii_of_string s).
(** A Rust character literal, and tests against one. *)
Definition chr (a : Ascii.ascii) : char := Ascii.N_of_ascii a.
Arguments chr a%_char_scope.
Definition ch_is (a : Ascii.ascii) (c : char) : bool := c =? chr a.
Arguments ch_is a%_char_scope c.
Definition peek_is (a : Ascii.ascii) (s : str) : bool :=
  match s with c :: _ => ch_is a c | [] => false end.
Arguments peek_is a%_char_scope s.

Lemma lit_app s1 s2 : lit (s1 +:+ s2) = lit s1 ++ lit s2.
Proof. unfold lit. induction s1; simpl; f_equal; auto. Qed.

Lemma lit_inj s1 s2 : lit s1 = lit s2 -> s1 = s2.
Proof.
  unfold lit. revert s2; induction s1 as [|a s1 IH]; intros [|b s2]; simpl; try done.
  intros H. injection H as Hab H. f_equal; [|by apply IH].
  rewrite <- (Ascii.ascii_N_embedding a), <- (Ascii.ascii_N_embedding b). by rewrite Hab.
Qed.

(** ** ASCII *)

Definition is_ascii (c : char) : bool := c <? 128.
Definition str_is_ascii (s : str) : bool := forallb is_ascii s.

(** [to_ascii_lowercase] / [to_ascii_uppercase] *)
Definition ascii_lower (c : char) : char :=
  if (65 <=? c) && (c <=? 90) then c + 32 else c.
Definition ascii_upper (c : char) : char :=
  if (97 <=? c) && (c <=? 122) then c - 32 else c.

Definition is_ascii_digit (c : char) : bool := (48 <=? c) && (c <=? 57).
Definition is_ascii_alpha (c : char) : bool :=
  (65 <=? c) && (c <=? 90) || (97 <=? c) && (c <=? 122).
(** [char::is_ascii_whitespace]: space, tab, LF, FF, CR (not VT). *)
Definition is_ascii_whitespace (c : char) : bool :=
  (c =? 32) || (c =? 9) || (c =? 10) || (c =? 12) || (c =? 13).

(** [eq_ignore_ascii_case]: bytes compared after [to_ascii_lowercase]; bytes of
    a non-ASCII scalar are unchanged by it, so the comparison is per scalar. *)
Definition char_eq_ignore_ascii_case (a b : char) : bool := ascii_lower a =? ascii_lower b.
Fixpoint eq_ignore_ascii_case (a b : str) : bool :=
  match a, b with
  | [], [] => true
  | x :: a, y :: b => char_eq_ignore_ascii_case x y && eq_ignore_ascii_case a b
  | _, _ => false
  end.

Ltac ascii_cases :=
  unfold char_eq_ignore_ascii_case, ascii_lower, ascii_upper, is_ascii, is_ascii_digit,
    is_ascii_alpha, is_ascii_whitespace in *;
  repeat match goal with
  | |- context [?a <=? ?b] => destruct (N.leb_spec a b)
  | H : context [?a <=? ?b] |- _ => destruct (N.leb_spec a b)
  | |- context [?a <? ?b] => destruct (N.ltb_spec a b)
  | H : context [?a <? ?b] |- _ => destruct (N.ltb_spec a b)
  | |- context [?a =? ?b] => destruct (N.eqb_spec a b)
  | H : context [?a =? ?b] |- _ => destruct (N.eqb_spec a b)
  end; simpl in *; try done; try lia.

Lemma ascii_lower_idem c : ascii_lower (ascii_lower c) = ascii_lower c.
Proof. ascii_cases. Qed.

Lemma ascii_lower_ascii c : is_ascii (ascii_lower c) = is_ascii c.
Proof. ascii_cases. Qed.

Lemma eq_ignore_ascii_case_spec a b :
  eq_ignore_ascii_case a b = true <-> map ascii_lower a = map ascii_lower b.
Proof.
  revert b; induction a as [|x a IH]; intros [|y b]; simpl; try done.
  unfold char_eq_ignore_ascii_case. rewrite andb_true_iff, IH, N.eqb_eq.
  split; [intros [-> ->]; done|]. intros H; by simplify_eq.
Qed.

Lemma eq_ignore_ascii_case_refl a : eq_ignore_ascii_case a a = true.
Proof. by apply eq_ignore_ascii_case_spec. Qed.
#[export] Hint Resolve eq_ignore_ascii_case_refl : cfml.

(** ** The Unicode tables *)

Class Unicode := {
  (** [char::to_lowercase] / [char::to_uppercase]: one to three scalars. *)
  uc_lower : char -> list char;
  uc_upper : char -> list char;
  uc_alphabetic : char -> bool;
  uc_numeric : char -> bool;
  (** [char::is_whitespace] (the White_Space property). *)
  uc_whitespace : char -> bool;
  (** The Cased and Case_Ignorable properties ([str::to_lowercase] reads them
      to place a final sigma). *)
  uc_cased : char -> bool;
  uc_case_ignorable : char -> bool;
  uc_lower_ascii : forall c, is_ascii c = true -> uc_lower c = [ascii_lower c];
  uc_upper_ascii : forall c, is_ascii c = true -> uc_upper c = [ascii_upper c];
  uc_alphabetic_ascii : forall c, is_ascii c = true -> uc_alphabetic c = is_ascii_alpha c;
  uc_numeric_ascii : forall c, is_ascii c = true -> uc_numeric c = is_ascii_digit c;
  uc_whitespace_ascii : forall c, is_ascii c = true ->
    uc_whitespace c = (c =? 32) || (9 <=? c) && (c <=? 13);
  (** A lowercase mapping consists of characters that map to themselves, and so
      do the two small sigmas. *)
  uc_lower_fixed : forall c d, d ∈ uc_lower c -> uc_lower d = [d] /\ d <> 931;
  uc_lower_sigma : uc_lower 962 = [962] /\ uc_lower 963 = [963];
}.

Section UnicodeText.
Context {U : Unicode}.

Definition is_alphanumeric (c : char) : bool := uc_alphabetic c || uc_numeric c.

(** [case_ignorable_then_cased]: skip Case_Ignorable, then test Cased. *)
Fixpoint case_ignorable_then_cased (s : str) : bool :=
  match s with
  | [] => false
  | c :: s => if uc_case_ignorable c then case_ignorable_then_cased s else uc_cased c
  end.

Definition map_uppercase_sigma (before_rev after : str) : char :=
  if case_ignorable_then_cased before_rev && negb (case_ignorable_then_cased after)
  then 962 else 963.

(** [str::to_lowercase]: per scalar, with the contextual rule for capital
    sigma (U+03A3). [before_rev] is the text already consumed, reversed. *)
Fixpoint lower_go (before_rev s : str) : str :=
  match s with
  | [] => []
  | c :: s =>
      (if c =? 931 then [map_uppercase_sigma before_rev s] else uc_lower c)
      ++ lower_go (c :: before_rev) s
  end.
Definition to_lowercase (s : str) : str := lower_go [] s.
Definition to_uppercase (s : str) : str := concat (map uc_upper s).

Lemma lower_go_ascii_prefix p b r :
  str_is_ascii p = true ->
  lower_go b (p ++ r) = map ascii_lower p ++ lower_go (rev p ++ b) r.
Proof.
  revert b; induction p as [|c p IH]; intros b; simpl; [done|].
  rewrite andb_true_iff. intros [Hc Hp].
  destruct (N.eqb_spec c 931) as [->|_]; [done|].
  rewrite uc_lower_ascii by done. simpl. rewrite IH by done.
  by rewrite <- app_assoc.
Qed.

Lemma to_lowercase_ascii s :
  str_is_ascii s = true -> to_lowercase s = map ascii_lower s.
Proof.
  intros H. unfold to_lowercase. rewrite <- (app_nil_r s) at 1.
  rewrite lower_go_ascii_prefix by done. apply app_nil_r.
Qed.

Lemma lower_go_fixed b s :
  (forall d, d ∈ s -> uc_lower d = [d] /\ d <> 931) -> lower_go b s = s.
Proof.
  revert b; induction s as [|c s IH]; intros b H; simpl; [done|].
  destruct (H c) as [Hc Hn]; [left|]. destruct (N.eqb_spec c 931); [done|].
  rewrite Hc, IH; [done|]. intros; apply H. by right.
Qed.

Lemma lower_go_chars b s d :
  d ∈ lower_go b s -> uc_lower d = [d] /\ d <> 931.
Proof.
  revert b; induction s as [|c s IH]; intros b; simpl; [by intros ?%not_elem_of_nil|].
  rewrite elem_of_app. intros [Hd|Hd]; [|eauto].
  destruct (N.eqb_spec c 931) as [->|_]; [|by eapply uc_lower_fixed].
  apply list_elem_of_singleton in Hd as ->. unfold map_uppercase_sigma.
  destruct uc_lower_sigma, (_ && _); by split.
Qed.

Lemma to_lowercase_idem s : to_lowercase (to_lowercase s) = to_lowercase s.
Proof. apply lower_go_fixed. intros d. apply lower_go_chars. Qed.

Lemma to_uppercase_ascii s :
  str_is_ascii s = true -> to_uppercase s = map ascii_upper s.
Proof.
  unfold to_uppercase. induction s as [|c s IH]; simpl; [done|].
  rewrite andb_true_iff. intros [Hc Hs].
  rewrite uc_upper_ascii by done. simpl. by rewrite IH.
Qed.

(** [str::trim_start] / [trim_end] / [trim] *)
Fixpoint trim_start (s : str) : str :=
  match s with
  | [] => []
  | c :: s' => if uc_whitespace c then trim_start s' else s
  end.
Definition trim_end (s : str) : str := rev (trim_start (rev s)).
Definition trim (s : str) : str := trim_end (trim_start s).

Lemma trim_start_digits s : forallb is_ascii_digit s = true -> trim_start s = s.
Proof.
  destruct s as [|c s]; simpl; [done|]. rewrite andb_true_iff. intros [Hc _].
  assert (Hasc : is_ascii c = true) by ascii_cases.
  rewrite uc_whitespace_ascii by done. by destruct (_ || _) eqn:E; [ascii_cases|].
Qed.

Lemma trim_digits s : forallb is_ascii_digit s = true -> trim s = s.
Proof.
  intros Hs. unfold trim, trim_end. rewrite (trim_start_digits s) by done.
  rewrite trim_start_digits; [apply rev_involutive|].
  rewrite forallb_forall in *. intros x Hx. apply Hs. by apply in_rev.
Qed.
End UnicodeText.

(** ** UTF-8 *)

Definition utf8_char (c : char) : list N :=
  if c <? 128 then [c]
  else if c <? 2048 then [192 + c / 64; 128 + c mod 64]
  else if c <? 65536 then [224 + c / 4096; 128 + c / 64 mod 64; 128 + c mod 64]
  else [240 + c / 262144; 128 + c / 4096 mod 64; 128 + c / 64 mod 64; 128 + c mod 64].

(** [str::as_bytes] *)
Definition as_bytes (s : str) : list N := concat (map utf8_char s).

(** The base-64 digits of a scalar value, as linear equations for [lia]. *)
Lemma base64_split c :
  c = 64 * (c / 64) + c mod 64 /\ c mod 64 < 64 /\
  c / 64 = 64 * (c / 4096) + c / 64 mod 64 /\ c / 64 mod 64 < 64 /\
  c / 4096 = 64 * (c / 262144) + c / 4096 mod 64 /\ c / 4096 mod 64 < 64.
Proof.
  change 262144 with (4096 * 64). change 4096 with (64 * 64).
  rewrite <- !N.Div0.div_div.
  repeat split; (apply N.div_mod' || (apply N.mod_upper_bound; lia)).
Qed.

(** UTF-8 is a prefix code: the first byte fixes the length of a sequence. *)
Lemma utf8_char_app_inj c1 c2 r1 r2 :
  utf8_char c1 ++ r1 = utf8_char c2 ++ r2 -> c1 = c2 /\ r1 = r2.
Proof.
  pose proof (base64_split c1). pose proof (base64_split c2). unfold utf8_char.
  destruct (N.ltb_spec c1 128), (N.ltb_spec c2 128); simpl;
    try (intros ?; by simplify_eq);
  destruct (N.ltb_spec c1 2048), (N.ltb_spec c2 2048); simpl;
  destruct (N.ltb_spec c1 65536), (N.ltb_spec c2 65536); simpl;
    try (exfalso; lia); intros Heq; injection Heq; clear Heq; intros; subst;
    first [exfalso; lia | split; [lia | done]].
Qed.

Lemma as_bytes_inj s1 s2 : as_bytes s1 = as_bytes s2 -> s1 = s2.
Proof.
  assert (Hne : forall c, exists b bs, utf8_char c = b :: bs).
  { intros c. unfold utf8_char. repeat case_match; eauto. }
  revert s2; induction s1 as [|c s1 IH]; intros [|c' s2]; cbn; try done.
  - destruct (Hne c') as (? & ? & ->). done.
  - destruct (Hne c) as (? & ? & ->). done.
  - intros [-> H]%utf8_char_app_inj. f_equal. by apply IH.
Qed.

Lemma as_bytes_app s1 s2 : as_bytes (s1 ++ s2) = as_bytes s1 ++ as_bytes s2.
Proof. unfold as_bytes. by rewrite map_app, concat_app. Qed.

Lemma as_bytes_ascii s : str_is_ascii s = true -> as_bytes s = s.
Proof.
  unfold as_bytes, str_is_ascii, is_ascii. induction s as [|c s IH]; simpl; [done|].
  rewrite andb_true_iff. intros [Hc Hs]. unfold utf8_char at 1. rewrite Hc. simpl.
  f_equal. by apply IH.
Qed.

(** ** Integers as text *)

(** [i64::to_string] (also [i128], [usize]). *)
Definition Z_to_str (z : Z) : str := lit (pretty z).

(** The characters of a printed integer: digits and a sign. *)
Definition number_char (c : char) : Prop := c = 45 \/ (48 <= c /\ c <= 57).

Lemma Z_to_str_inj z1 z2 : Z_to_str z1 = Z_to_str z2 -> z1 = z2.
Proof. intros H%lit_inj. by apply (inj pretty) in H. Qed.

Lemma pretty_N_go_chars x s :
  Forall number_char (lit s) -> Forall number_char (lit (pretty_N_go x s)).
Proof.
  revert s. induction (N.lt_wf_0 x) as [x _ IH]; intros s Hs.
  destruct (decide (x = 0)) as [->|Hx]; [by rewrite pretty_N_go_0|].
  rewrite pretty_N_go_step by lia. apply IH.
  - apply N.div_lt; lia.
  - cbn. apply Forall_cons; split; [|done]. right.
    assert (Hd : (x `mod` 10 < 10)%N) by (apply N.mod_upper_bound; lia).
    revert Hd. generalize (x `mod` 10)%N. intros d Hd. unfold pretty_N_char.
    repeat case_match; cbn; lia.
Qed.

Lemma pretty_N_chars (n : N) : Forall number_char (lit (pretty n)).
Proof.
  unfold pretty, pretty_N. case_decide.
  - cbn. apply Forall_cons; split; [right; lia|done].
  - by apply pretty_N_go_chars.
Qed.

Lemma Z_to_str_chars z : Forall number_char (Z_to_str z).
Proof.
  unfold Z_to_str. destruct z as [|p|p].
  - cbn. apply Forall_cons; split; [right; lia|done].
  - apply (pretty_N_chars (Npos p)).
  - change (pretty (Z.neg p)) with ("-" +:+ pretty (Npos p)).
    rewrite lit_app. apply Forall_app; split; [|apply pretty_N_chars].
    cbn. apply Forall_cons; split; [by left|done].
Qed.
#[export] Hint Resolve Z_to_str_chars : cfml.

(** Decimal digits to a number; [None] at the first non-digit. *)
Fixpoint parse_digits (acc : Z) (s : str) : option Z :=
  match s with
  | [] => Some acc
  | c :: s =>
      if is_ascii_digit c then parse_digits (10 * acc + Z.of_N (c - 48))%Z s else None
  end.

Definition parse_digits1 (s : str) : option Z :=
  match s with [] => None | _ => parse_digits 0 s end.

Definition i64_min : Z := (- 2 ^ 63)%Z.
Definition i64_max : Z := (2 ^ 63 - 1)%Z.
Definition in_i64 (z : Z) : bool := ((i64_min <=? z) && (z <=? i64_max))%Z.
Definition usize_max : Z := (2 ^ 64 - 1)%Z.

(** Two's-complement wrap-around of release-mode [i64] arithmetic. *)
Definition wrap_i64 (z : Z) : Z := ((z + 2 ^ 63) `mod` 2 ^ 64 - 2 ^ 63)%Z.

Lemma wrap_i64_in z : in_i64 (wrap_i64 z) = true.
Proof.
  unfold in_i64, wrap_i64, i64_min, i64_max. apply andb_true_iff.
  pose proof (Z.mod_pos_bound (z + 2 ^ 63) (2 ^ 64) ltac:(lia)).
  rewrite !Z.leb_le. lia.
Qed.

Lemma wrap_i64_id z : in_i64 z = true -> wrap_i64 z = z.
Proof.
  unfold in_i64, wrap_i64, i64_min, i64_max. rewrite andb_true_iff, !Z.leb_le.
  intros. rewrite Z.mod_small; lia.
Qed.

(** [str::parse::<i64>] *)
Definition parse_i64 (s : str) : option Z :=
  let v := match s with
           | 43 :: s' => parse_digits1 s'
           | 45 :: s' => Z.opp <$> parse_digits1 s'
           | _ => parse_digits1 s
           end in
  z ← v; if in_i64 z then Some z else None.

(** [str::parse::<usize>] on a 64-bit target *)
Definition parse_usize (s : str) : option Z :=
  let v := match s with
           | 43 :: s' => parse_digits1 s'
           | _ => parse_digits1 s
           end in
  z ← v; if (z <=? usize_max)%Z then Some z else None.

Lemma parse_digits_app acc s t :
  parse_digits acc (s ++ t) = (a ← parse_digits acc s; parse_digits a t).
Proof.
  revert acc; induction s as [|c s IH]; intros acc; simpl; [done|].
  destruct (is_ascii_digit c); [apply IH|done].
Qed.
