(* ===== verification/Float64.v ===== *)
(** * Float64: the Rust [f64] operations the engine uses

    An [f64] is a [spec_float] of the Standard Library at precision 53 and
    maximal exponent 1024, so every operation below is the correctly rounded
    binary64 operation and evaluates in the kernel.  [spec_float] has one NaN;
    it is given the bits of the canonical quiet NaN. *)

From stdpp Require Import base list numbers strings.
From Stdlib Require Import Floats.SpecFloat.
From S2P Require Import Prelude Text.

Local Open Scope Z_scope.

Abbreviation f64 := spec_float (only parsing).

Definition f64_prec : Z := 53.
Definition f64_emax : Z := 1024.

#[global] Instance spec_float_eq_dec : EqDecision spec_float.
Proof. solve_decision. Defined.

(** ** Arithmetic *)

Definition f64_add : f64 -> f64 -> f64 := SFadd f64_prec f64_emax.
Definition f64_sub : f64 -> f64 -> f64 := SFsub f64_prec f64_emax.
Definition f64_mul : f64 -> f64 -> f64 := SFmul f64_prec f64_emax.
Definition f64_div : f64 -> f64 -> f64 := SFdiv f64_prec f64_emax.
Definition f64_sqrt : f64 -> f64 := SFsqrt f64_prec f64_emax.
Definition f64_neg : f64 -> f64 := SFopp.
Definition f64_abs : f64 -> f64 := SFabs.
(** [==] and [<] of Rust: false on NaN, zeros of either sign equal. *)
Definition f64_eqb : f64 -> f64 -> bool := SFeqb.
Definition f64_ltb : f64 -> f64 -> bool := SFltb.

Definition f64_zero : f64 := S754_zero false.

(** [z as f64] (round to nearest even). *)
Definition f64_of_Z (z : Z) : f64 := binary_normalize f64_prec f64_emax z 0 false.
Definition f64_one : f64 := f64_of_Z 1.

Definition f64_is_finite (x : f64) : bool :=
  match x with S754_zero _ | S754_finite _ _ _ => true | _ => false end.
Definition f64_is_nan (x : f64) : bool := match x with S754_nan => true | _ => false end.
Definition f64_is_infinite (x : f64) : bool :=
  match x with S754_infinity _ => true | _ => false end.

(** ** Total order: [f64::total_cmp] *)

Definition f64_to_bits (x : f64) : Z :=
  match x with
  | S754_zero s => if s then 2 ^ 63 else 0
  | S754_infinity s => (if s then 2 ^ 63 else 0) + 2047 * 2 ^ 52
  | S754_nan => 2047 * 2 ^ 52 + 2 ^ 51
  | S754_finite s m e =>
      (if s then 2 ^ 63 else 0)
      + (if Z.pos (digits2_pos m) =? f64_prec
         then (e + 1075) * 2 ^ 52 + (Z.pos m - 2 ^ 52)
         else Z.pos m)
  end.

(** [left ^= (((left >> 63) as u64) >> 1) as i64]: the sign-magnitude bits read
    as a two's-complement integer that orders the floats. *)
Definition total_key (x : f64) : Z :=
  let b := f64_to_bits x in
  if b <? 2 ^ 63 then b else 2 ^ 63 - 1 - b.

Definition f64_total_cmp (a b : f64) : comparison := total_key a ?= total_key b.

Lemma f64_total_cmp_antisym a b : f64_total_cmp b a = CompOpp (f64_total_cmp a b).
Proof. apply Z.compare_antisym. Qed.

Lemma f64_total_cmp_refl a : f64_total_cmp a a = Eq.
Proof. apply Z.compare_refl. Qed.

Lemma f64_total_cmp_trans a b c :
  f64_total_cmp a b <> Gt -> f64_total_cmp b c <> Gt -> f64_total_cmp a c <> Gt.
Proof. unfold f64_total_cmp. rewrite !Z.compare_le_iff. lia. Qed.

(** ** Integer parts *)

(** [x.fract() == 0.0]: finite with no fractional bit. *)
Definition f64_fract_is_zero (x : f64) : bool :=
  match x with
  | S754_zero _ => true
  | S754_finite _ m e => if 0 <=? e then true else Z.pos m mod 2 ^ (- e) =? 0
  | _ => false
  end.

(** Truncated value of a finite float. *)
Definition f64_trunc_Z (x : f64) : Z :=
  match x with
  | S754_finite s m e =>
      cond_Zopp s (if 0 <=? e then Z.pos m * 2 ^ e else Z.pos m / 2 ^ (- e))
  | _ => 0
  end.

(** [x as i64]: saturating, NaN to 0. *)
Definition f64_as_i64 (x : f64) : Z :=
  match x with
  | S754_nan => 0
  | S754_infinity s => if s then i64_min else i64_max
  | _ => Z.max i64_min (Z.min i64_max (f64_trunc_Z x))
  end.

Definition f64_of_Z_signed (s : bool) (z : Z) : f64 :=
  binary_normalize f64_prec f64_emax z 0 s.

Definition f64_floor (x : f64) : f64 :=
  match x with
  | S754_finite s m e =>
      if f64_fract_is_zero x then x
      else let q := Z.pos m / 2 ^ (- e) in
           if s then f64_of_Z (- (q + 1)) else f64_of_Z q
  | _ => x
  end.

Definition f64_ceil (x : f64) : f64 :=
  match x with
  | S754_finite s m e =>
      if f64_fract_is_zero x then x
      else let q := Z.pos m / 2 ^ (- e) in
           if s then f64_of_Z_signed true (- q) else f64_of_Z (q + 1)
  | _ => x
  end.

(** [f64::round]: half away from zero. *)
Definition f64_round (x : f64) : f64 :=
  match x with
  | S754_finite s m e =>
      if f64_fract_is_zero x then x
      else let d := 2 ^ (- e) in
           f64_of_Z_signed s (cond_Zopp s ((2 * Z.pos m + d) / (2 * d)))
  | _ => x
  end.

(** [a % b]: the exact C [fmod]; the sign is that of the dividend. *)
Definition f64_rem (x y : f64) : f64 :=
  match x, y with
  | S754_nan, _ | _, S754_nan => S754_nan
  | S754_infinity _, _ => S754_nan
  | _, S754_zero _ => S754_nan
  | _, S754_infinity _ => x
  | S754_zero _, _ => x
  | S754_finite sx mx ex, S754_finite _ my ey =>
      let e := Z.min ex ey in
      let r := (Z.pos mx * 2 ^ (ex - e)) mod (Z.pos my * 2 ^ (ey - e)) in
      binary_normalize f64_prec f64_emax (cond_Zopp sx r) e sx
  end.

(** ** Decimal text *)

(** The binary64 nearest to [d * 10 ^ e10], for [d >= 0]. *)
Definition f64_of_decimal (s : bool) (d e10 : Z) : f64 :=
  match d with
  | Z.pos _ =>
      if 0 <=? e10 then binary_normalize f64_prec f64_emax (cond_Zopp s (d * 10 ^ e10)) 0 s
      else let '(q, e, l) := SFdiv_core_binary f64_prec f64_emax d 0 (10 ^ (- e10)) 0 in
           binary_round_aux f64_prec f64_emax s q e l
  | _ => S754_zero s
  end.

(** Leading digits of [s]: their value (continuing [acc]), how many there are
    and the rest. *)
Fixpoint take_digits (acc : Z) (n : Z) (s : str) : Z * Z * str :=
  match s with
  | c :: s' =>
      if is_ascii_digit c then take_digits (10 * acc + Z.of_N (c - 48)) (n + 1) s'
      else (acc, n, s)
  | [] => (acc, n, [])
  end.

(** [e[+-]digits] or nothing; [None] when the text is not a number. *)
Definition parse_exponent (s : str) : option Z :=
  match s with
  | [] => Some 0
  | c :: s' =>
      if (ascii_lower c =? 101)%N then
        match s' with
        | 43%N :: t => parse_digits1 t
        | 45%N :: t => Z.opp <$> parse_digits1 t
        | t => parse_digits1 t
        end
      else None
  end.

Definition parse_f64_number (neg : bool) (s : str) : option f64 :=
  let '(d1, n1, r1) := take_digits 0 0 s in
  let '(d2, n2, r2) := match r1 with
                       | 46%N :: r => take_digits d1 0 r
                       | _ => (d1, 0, r1)
                       end in
  if (n1 + n2 =? 0) then None
  else e ← parse_exponent r2; Some (f64_of_decimal neg d2 (e - n2)).

Definition parse_inf_nan (neg : bool) (s : str) : option f64 :=
  if eq_ignore_ascii_case s (lit "nan") then Some S754_nan
  else if eq_ignore_ascii_case s (lit "inf") || eq_ignore_ascii_case s (lit "infinity")
  then Some (S754_infinity neg)
  else None.

(** [str::parse::<f64>] (no trimming). *)
Definition parse_f64 (s : str) : option f64 :=
  let go neg t := match t with
                  | [] => None
                  | _ => match parse_f64_number neg t with
                         | Some x => Some x
                         | None => parse_inf_nan neg t
                         end
                  end in
  match s with
  | 43%N :: t => go false t
  | 45%N :: t => go true t
  | _ => go false s
  end.

(** *** Printing *)

(** A positive finite float as a fraction. *)
Definition f64_num_den (m : positive) (e : Z) : Z * Z :=
  if 0 <=? e then (Z.pos m * 2 ^ e, 1) else (Z.pos m, 2 ^ (- e)).

(** [num/den < 10^k], and [num/den * 10^k] as a fraction. *)
Definition frac_lt_pow10 (num den k : Z) : bool :=
  if 0 <=? k then num <? den * 10 ^ k else num * 10 ^ (- k) <? den.
Definition scale10 (num den k : Z) : Z * Z :=
  if 0 <=? k then (num * 10 ^ k, den) else (num, den * 10 ^ (- k)).

(** The decimal exponent: [10^(k-1) <= num/den < 10^k]. The estimate from the
    binary exponent is off by at most one in either direction. *)
Definition decimal_exponent (m : positive) (e : Z) : Z :=
  let '(num, den) := f64_num_den m e in
  let k0 := (Z.pos (digits2_pos m) + e - 1) * 30103 / 100000 in
  if frac_lt_pow10 num den k0 then k0
  else if frac_lt_pow10 num den (k0 + 1) then k0 + 1
  else k0 + 2.

(** Shortest digits that read back as the same float, nearest to the true value
    among them (Rust's [flt2dec] shortest mode), with the decimal exponent. *)
Fixpoint shortest_digits (fuel : nat) (n : Z) (m : positive) (e k : Z) : Z * Z :=
  let '(num, den) := f64_num_den m e in
  let '(a, b) := scale10 num den (n - k) in
  let lo := a / b in
  let ok d := bool_decide (f64_of_decimal false d (k - n) = S754_finite false m e) in
  let nearest := if 2 * (a - lo * b) <=? b then lo else lo + 1 in
  match fuel with
  | O => (nearest, n)
  | S fuel =>
      if ok lo && ok (lo + 1) then (nearest, n)
      else if ok lo then (lo, n)
      else if ok (lo + 1) then (lo + 1, n)
      else shortest_digits fuel (n + 1) m e k
  end.

Definition zeros (n : Z) : str := replicate (Z.to_nat n) 48%N.

(** Place the decimal point of [0.digits * 10^k]. *)
Definition place_point (digits : str) (k : Z) : str :=
  let n := Z.of_nat (length digits) in
  if k <=? 0 then lit "0." ++ zeros (- k) ++ digits
  else if n <=? k then digits ++ zeros (k - n)
  else take (Z.to_nat k) digits ++ lit "." ++ drop (Z.to_nat k) digits.

Definition minus_sign (s : bool) : str := if s then lit "-" else [].

(** [f64::to_string] (the [Display] form: never an exponent). *)
Definition f64_to_string (x : f64) : str :=
  match x with
  | S754_nan => lit "NaN"
  | S754_infinity s => minus_sign s ++ lit "inf"
  | S754_zero s => minus_sign s ++ lit "0"
  | S754_finite s m e =>
      let k := decimal_exponent m e in
      let '(d, n) := shortest_digits 16 1 m e k in
      let ds := Z_to_str d in
      (* a carry to [10^n] adds a trailing zero and moves the point *)
      minus_sign s ++ place_point (take (Z.to_nat n) ds) (k + (Z.of_nat (length ds) - n))
  end.

(** Round half to even of [a / b]. *)
Definition round_half_even (a b : Z) : Z :=
  let q := a / b in
  let r := a - q * b in
  if 2 * r <? b then q else if b <? 2 * r then q + 1
  else if Z.even q then q else q + 1.

(** [format!("{:.P}", x)] for a finite [x]. *)
Definition f64_to_fixed (p : Z) (x : f64) : str :=
  match x with
  | S754_finite s m e =>
      let '(num, den) := f64_num_den m e in
      let q := round_half_even (num * 10 ^ p) den in
      let ds := Z_to_str q in
      let padded := zeros (p + 1 - Z.of_nat (length ds)) ++ ds in
      let ip := Z.to_nat (Z.of_nat (length padded) - p) in
      minus_sign s ++ (if p =? 0 then padded
                       else take ip padded ++ lit "." ++ drop ip padded)
  | S754_zero s => minus_sign s ++ lit "0" ++ (if p =? 0 then [] else lit "." ++ zeros p)
  | _ => f64_to_string x
  end.
