(* ===== verification/Value.v ===== *)
(** * Value: the CFML value, its string form, truth and numeric coercions

    [CfmlValue] of [cfml-common/src/dynamic.rs].  Arrays, structs and queries
    are shared mutable handles in the source; query cells are only read by the
    engine, so they are modelled by the contents read at that point (an acyclic
    snapshot).  [VStruct] is a struct without the internal tags that make the
    source treat it as a Java shim, a component backing or an XML node. *)

From stdpp Require Import base list numbers strings.
From Stdlib Require Import Floats.SpecFloat.
From S2P Require Import Prelude Text Float64.

(** ** Dates: [CfmlDate] of [datetime/mod.rs] *)

Inductive date_kind := KDateTime | KDate | KTime.

Record cfml_date := mk_date {
  date_secs : Z;
  date_nanos : Z;
  date_class : date_kind;
}.

Definition epoch_nanos (d : cfml_date) : Z := (date_secs d * 1000000000 + date_nanos d)%Z.

(** The date routines that read the request time zone through [chrono] and
    [chrono_tz]: the string form, the numeric date and the date parser. *)
Class DateLib := {
  to_cfml_string : cfml_date -> str;
  from_numeric : f64 -> option cfml_date;
  parse_date : str -> option cfml_date;
}.

(** ** Values *)

Inductive value :=
  | VNull
  | VBool (b : bool)
  | VInt (i : Z)
  | VDouble (d : f64)
  | VTimeSpan (d : f64)
  | VDateTime (d : cfml_date)
  | VString (s : str)
  | VArray (l : list value)
  | VQueryColumn (l : list value) (row : nat)
  | VStruct (fields : list (str * value))
  | VClosure
  | VComponent
  | VFunction (name : str)
  | VQuery (columns : list str) (data : list (list value))
  | VBinary (bytes : list N)
  | VNativeObject (class_name : str)
  | VInstance.

Definition is_null (v : value) : bool := match v with VNull => true | _ => false end.

Lemma is_null_spec v : is_null v = true <-> v = VNull.
Proof. destruct v; naive_solver. Qed.

(** [format_double]: the Lucee string form of a double. *)
Definition format_double (d : f64) : str :=
  if f64_is_nan d then lit "NaN"
  else if f64_is_infinite d then (if f64_ltb f64_zero d then lit "Infinity" else lit "-Infinity")
  else if f64_fract_is_zero d then
    if f64_ltb (f64_abs d) (f64_of_Z (10 ^ 15)) then Z_to_str (f64_as_i64 d)
    else f64_to_fixed 0 d
  else
    let short := f64_to_string d in
    let frac_len := match position (N.eqb 46) short with
                    | Some dot => Some (length short - dot - 1)
                    | None => None
                    end in
    let long :=
      let trimmed := rev ((fix strip (s : str) : str :=
                             match s with 48%N :: s' => strip s' | _ => s end)
                            (rev (f64_to_fixed 12 d))) in
      let no_dot := match rev trimmed with 46%N :: s' => rev s' | _ => trimmed end in
      if bool_decide (no_dot = lit "-0") then lit "0" else no_dot in
    match frac_len with
    | Some n => if n <=? 12 then short else long
    | None => long
    end.

Definition join (sep : str) (items : list str) : str :=
  match items with
  | [] => []
  | s :: rest => s ++ concat (map (fun t => sep ++ t) rest)
  end.

(** The arguments scope's bookkeeping keys, hidden from every string form. *)
Definition is_internal_arguments_key (k : str) : bool :=
  bool_decide (k = lit "__arguments_scope") || bool_decide (k = lit "__arguments_params").

Section ValueOps.
Context {U : Unicode} {D : DateLib}.

(** [as_string] ([as_string_memo]) on an acyclic value. *)
Fixpoint as_string (v : value) : str :=
  match v with
  | VNull => []
  | VBool b => if b then lit "true" else lit "false"
  | VInt i => Z_to_str i
  | VDouble d | VTimeSpan d => format_double d
  | VDateTime d => to_cfml_string d
  | VString s => s
  | VArray l => lit "[" ++ join (lit ", ") (map as_string l) ++ lit "]"
  | VQueryColumn l row =>
      from_option id [] (match map as_string l !! row with
                         | Some s => Some s
                         | None => head (map as_string l)
                         end)
  | VStruct fields =>
      lit "{" ++ join (lit ", ")
        (concat (map (fun '(k, w) => if is_internal_arguments_key k then []
                                     else [k ++ lit ": " ++ as_string w]) fields))
        ++ lit "}"
  | VClosure => lit "<Closure>"
  | VComponent => lit "<Component>"
  | VFunction name => name
  | VQuery _ _ => lit "<Query>"
  | VBinary _ => lit "<Binary>"
  | VNativeObject c => lit "<NativeObject:" ++ c ++ lit ">"
  | VInstance => lit "<Component>"
  end.

(** [numeric_string_value] of [numeric.rs]. *)
Definition numeric_string_value (s : str) : option f64 :=
  x ← parse_f64 (trim s); if f64_is_finite x then Some x else None.

Definition is_numeric_string (s : str) : bool :=
  match numeric_string_value s with Some _ => true | None => false end.

(** Truth of a string, the [String] arm of [is_true]. *)
Definition string_is_true (s : str) : bool :=
  let trimmed := trim s in
  if bool_decide (trimmed = []) then false
  else let l := to_lowercase trimmed in
       if bool_decide (l = lit "false") || bool_decide (l = lit "no")
          || bool_decide (l = lit "0")
       then false
       else match numeric_string_value trimmed with
            | Some n => negb (f64_eqb n f64_zero)
            | None => true
            end.

Fixpoint is_true (v : value) : bool :=
  match v with
  | VNull => false
  | VBool b => b
  | VInt i => negb (i =? 0)%Z
  | VDouble d | VTimeSpan d => negb (f64_eqb d f64_zero)
  | VDateTime _ => true
  | VString s => string_is_true s
  | VArray l => negb (length l =? 0)%nat
  | VQueryColumn l row =>
      from_option id false (match map is_true l !! row with
                            | Some b => Some b
                            | None => head (map is_true l)
                            end)
  | VStruct fields => negb (length fields =? 0)%nat
  | VQuery _ data => match data with [] => false | c :: _ => negb (length c =? 0)%nat end
  | VBinary b => negb (length b =? 0)%nat
  | VClosure | VComponent | VFunction _ | VNativeObject _ | VInstance => true
  end.

(** [to_f64] / [to_i64] of [cfml-qoq/src/functions.rs]. *)
Definition to_f64 (v : value) : option f64 :=
  match v with
  | VInt i => Some (f64_of_Z i)
  | VDouble d => Some d
  | VBool b => Some (if b then f64_one else f64_zero)
  | VString s => parse_f64 (trim s)
  | _ => None
  end.

Definition to_i64 (v : value) : option Z :=
  match v with
  | VInt i => Some i
  | VDouble d => Some (f64_as_i64 d)
  | VBool b => Some (if b then 1 else 0)%Z
  | VString s =>
      match parse_i64 (trim s) with
      | Some i => Some i
      | None => f64_as_i64 <$> parse_f64 (trim s)
      end
  | _ => None
  end.
End ValueOps.

(** ** Errors: [CfmlError] of [vm.rs]

    The stack trace and the extra members are filled by the VM and never read
    by the query engine. *)
Inductive cfml_error_type :=
  | ERuntime | ECompile | EExpression | ETemplate | EApplication | ECustom (name : str).

Record cfml_error := CfmlError { err_message : str; err_type : cfml_error_type }.

Definition runtime (message : str) : cfml_error := CfmlError message ERuntime.

(** ** Query data: [CfmlQueryData], column-major *)

Record query_data := mk_query {
  q_columns : list str;
  q_data : list (list value);
}.

(** [row_count]: the length of the first column. *)
Definition row_count (q : query_data) : nat :=
  match q_data q with [] => 0 | c :: _ => length c end.

(** The invariant the source documents: one data vector per column name, all of
    the same length. *)
Definition rectangular (n : nat) (data : list (list value)) : Prop :=
  Forall (fun c => length c = n) data.

Definition query_wf (q : query_data) : Prop :=
  length (q_data q) = length (q_columns q) /\ rectangular (row_count q) (q_data q).
