(* ===== verification/QoqLike.v ===== *)
(** * QoqLike: SQL [LIKE] ([cfml-qoq/src/like.rs])

    A pattern is compiled to elements and then to the cheapest matcher: an
    ASCII byte comparison for [lit], [lit%], [%lit] and [%lit%], a regular
    expression otherwise.  The [regex] crate is the interface [RegexCrate].
    The specification is the relation [like_rel] on the elements; [like_match]
    decides it on every text, whichever matcher was chosen. *)

From stdpp Require Import base list numbers strings.
From S2P Require Import Prelude Text.

(** ** Patterns *)

Inductive elem :=
  | EAny          (* % *)
  | EOne          (* _ *)
  | ELit (c : char).

#[global] Instance elem_eq_dec : EqDecision elem.
Proof. solve_decision. Defined.

(** [Inner]: the matcher chosen for a pattern; a regex is its pattern text. *)
Inductive like_inner :=
  | IEquals (n : str)
  | IStartsWith (n : str)
  | IEndsWith (n : str)
  | IContains (n : str)
  | IRegex (pattern : str).

(** ** The specification

    [like_rel eqc es t]: the elements [es] consume the whole text [t]; [eqc d c]
    says that the literal [d] matches the character [c]. *)
Inductive like_rel (eqc : char -> char -> bool) : list elem -> str -> Prop :=
  | LR_nil : like_rel eqc [] []
  | LR_any_skip es t : like_rel eqc es t -> like_rel eqc (EAny :: es) t
  | LR_any_take es c t : like_rel eqc (EAny :: es) t -> like_rel eqc (EAny :: es) (c :: t)
  | LR_one es c t : like_rel eqc es t -> like_rel eqc (EOne :: es) (c :: t)
  | LR_lit es d c t : eqc d c = true -> like_rel eqc es t -> like_rel eqc (ELit d :: es) (c :: t).

Create HintDb like discriminated.
#[export] Hint Constructors like_rel : like.

(** ** The [regex] crate

    [regex::escape], [Regex::is_match] and the simple case folding of [(?i)].
    The laws are its documented behaviour on the patterns [like.rs] emits:
    escaping is per character; an empty pattern matches everywhere; a pattern
    [(?is)^body$] (anchors optional) of escaped literals, [.] and [.*] finds a
    match when some infix of the text, at the anchored edges, is matched by the
    body. *)
Definition emit_elem (escape : str -> str) (e : elem) : str :=
  match e with
  | EAny => lit ".*"
  | EOne => lit "."
  | ELit c => escape [c]
  end.

Definition emit_regex (escape : str -> str) (anchor_start : bool) (body : list elem)
    (anchor_end : bool) : str :=
  lit "(?is)" ++ (if anchor_start then lit "^" else [])
    ++ concat (map (emit_elem escape) body) ++ (if anchor_end then lit "$" else []).

Class RegexCrate := {
  regex_escape : str -> str;
  regex_is_match : str -> str -> bool;
  simple_fold_eq : char -> char -> bool;
  regex_escape_chars : forall s, regex_escape s = concat (map (fun c => regex_escape [c]) s);
  simple_fold_ascii : forall a b, is_ascii a = true -> is_ascii b = true ->
    simple_fold_eq a b = char_eq_ignore_ascii_case a b;
  regex_empty : forall t, regex_is_match [] t = true;
  regex_emitted : forall a1 body a2 t,
    regex_is_match (emit_regex regex_escape a1 body a2) t = true <->
    exists pre mid post, t = pre ++ mid ++ post
      /\ (a1 = true -> pre = []) /\ (a2 = true -> post = [])
      /\ like_rel simple_fold_eq body mid;
}.

(** ** ASCII byte matchers *)

(** [a.iter().zip(b).all(eq_ignore_ascii_case)] *)
Definition zip_ci (a b : list N) : bool :=
  forallb (fun '(x, y) => char_eq_ignore_ascii_case x y) (combine a b).

Definition ascii_ci_equals (haystack needle : list N) : bool :=
  (length haystack =? length needle) && zip_ci haystack needle.

Definition ascii_ci_starts_with (haystack needle : list N) : bool :=
  (length needle <=? length haystack) && zip_ci (take (length needle) haystack) needle.

Definition ascii_ci_ends_with (haystack needle : list N) : bool :=
  (length needle <=? length haystack)
  && zip_ci (drop (length haystack - length needle) haystack) needle.

(** One step of the scan: the first byte, then the inner loop over the rest. *)
Definition ci_match_at (haystack : list N) (first : N) (rest : list N) (i : nat) : bool :=
  match drop i haystack with
  | [] => false
  | h :: t =>
      char_eq_ignore_ascii_case h first
      && zip_ci (take (length rest) t) rest
  end.

Definition ascii_ci_contains (haystack needle : list N) : bool :=
  match needle with
  | [] => true
  | first :: rest =>
      if length haystack <? length needle then false
      else existsb (ci_match_at haystack first rest)
             (seq 0 (S (length haystack - length needle)))
  end.

(** ** Compilation and matching *)

Section Like.
Context {U : Unicode} {R : RegexCrate}.

(** [lower]: the first scalar of the lower-case mapping. *)
Definition lower (c : char) : char :=
  match uc_lower c with c' :: _ => c' | [] => c end.

(** The loop of [compile] over the pattern's characters. *)
Fixpoint pattern_elems (esc : option char) (p : str) : list elem :=
  match p with
  | [] => []
  | c :: p' =>
      if bool_decide (Some (lower c) = esc) then
        match p' with
        | next :: p'' => ELit (lower next) :: pattern_elems esc p''
        | [] => [ELit (lower c)]
        end
      else
        (if (c =? 37)%N then EAny else if (c =? 95)%N then EOne else ELit (lower c))
        :: pattern_elems esc p'
  end.

(** [lit_run_ascii]: the text of an all-literal, all-ASCII run. *)
Fixpoint lit_run_ascii (es : list elem) : option str :=
  match es with
  | [] => Some []
  | ELit c :: es => if is_ascii c then cons c <$> lit_run_ascii es else None
  | _ => None
  end.

Definition starts_pct (es : list elem) : bool :=
  match head es with Some EAny => true | _ => false end.
Definition ends_pct (es : list elem) : bool :=
  match last es with Some EAny => true | _ => false end.

Definition build_regex (es : list elem) : str :=
  let n := length es in
  match starts_pct es, ends_pct es with
  | false, false => emit_regex regex_escape true es true
  | true, false => emit_regex regex_escape false (drop 1 es) true
  | false, true => emit_regex regex_escape true (take (n - 1) es) false
  | true, true =>
      if 2 <=? n then emit_regex regex_escape false (take (n - 2) (drop 1 es)) false
      else []
  end.

Definition build_inner (es : list elem) : like_inner :=
  let n := length es in
  let attempt (o : option str) (k : str -> like_inner) :=
    match o with Some l => k l | None => IRegex (build_regex es) end in
  match starts_pct es, ends_pct es with
  | false, false => attempt (lit_run_ascii es) IEquals
  | false, true => attempt (lit_run_ascii (take (n - 1) es)) IStartsWith
  | true, false => attempt (lit_run_ascii (drop 1 es)) IEndsWith
  | true, true =>
      if 2 <=? n then attempt (lit_run_ascii (take (n - 2) (drop 1 es))) IContains
      else IRegex (build_regex es)
  end.

Definition like_compile (pattern : str) (escape : option char) : like_inner :=
  build_inner (pattern_elems (ascii_lower <$> escape) pattern).

Definition regex_for_literal (n : str) (anchor_start anchor_end : bool) : str :=
  lit "(?is)" ++ (if anchor_start then lit "^" else []) ++ regex_escape n
    ++ (if anchor_end then lit "$" else []).

Definition like_matches (c : like_inner) (text : str) : bool :=
  match c with
  | IEquals n =>
      if str_is_ascii text then ascii_ci_equals (as_bytes text) (as_bytes n)
      else regex_is_match (regex_for_literal n true true) text
  | IStartsWith n =>
      if str_is_ascii text then ascii_ci_starts_with (as_bytes text) (as_bytes n)
      else regex_is_match (regex_for_literal n true false) text
  | IEndsWith n =>
      if str_is_ascii text then ascii_ci_ends_with (as_bytes text) (as_bytes n)
      else regex_is_match (regex_for_literal n false true) text
  | IContains n =>
      if str_is_ascii text then ascii_ci_contains (as_bytes text) (as_bytes n)
      else regex_is_match (regex_for_literal n false false) text
  | IRegex r => regex_is_match r text
  end.

Definition like_match (text pattern : str) (escape : option char) : bool :=
  like_matches (like_compile pattern escape) text.
End Like.

(** ** Facts about the specification *)

Section LikeRel.
Context (eqc : char -> char -> bool).

Lemma like_rel_lits l t :
  like_rel eqc (map ELit l) t <-> Forall2 (fun d c => eqc d c = true) l t.
Proof.
  split.
  - revert t; induction l as [|d l IH]; simpl; intros t H; inv H; constructor; auto.
  - induction 1; simpl; auto with like.
Qed.

Lemma like_rel_any es t :
  like_rel eqc (EAny :: es) t <-> exists pre mid, t = pre ++ mid /\ like_rel eqc es mid.
Proof.
  split.
  - intros H. remember (EAny :: es) as l eqn:Hl.
    induction H as [|es' t H _|es' c t H IH|es' c t H _|es' d c t Hc H _];
      simplify_eq/=.
    + by exists [], t.
    + destruct IH as (pre & mid & -> & Hm); [done|]. by exists (c :: pre), mid.
  - intros (pre & mid & -> & H). induction pre; simpl; auto with like.
Qed.

Lemma like_rel_app es1 es2 t :
  like_rel eqc (es1 ++ es2) t <->
  exists t1 t2, t = t1 ++ t2 /\ like_rel eqc es1 t1 /\ like_rel eqc es2 t2.
Proof.
  split.
  - revert t; induction es1 as [|e es1 IH]; simpl; intros t H; [exists [], t; auto with like|].
    destruct e as [| |d].
    + apply like_rel_any in H as (pre & mid & -> & (t1 & t2 & -> & H1 & H2)%IH).
      exists (pre ++ t1), t2. rewrite app_assoc. repeat split; [|done].
      apply like_rel_any. eauto.
    + inversion H as [| | |? c u Hu|]; subst. apply IH in Hu as (t1 & t2 & -> & H1 & H2).
      exists (c :: t1), t2. auto with like.
    + inversion H as [| | | |? ? c u Hc Hu]; subst.
      apply IH in Hu as (t1 & t2 & -> & H1 & H2).
      exists (c :: t1), t2. auto with like.
  - intros (t1 & t2 & -> & H1 & H2).
    induction H1; simpl; auto with like.
Qed.

(** A pattern with an optional [%] at each edge, as an infix match. *)
Definition edge (anchored : bool) : list elem := if anchored then [] else [EAny].

Lemma like_rel_edges a1 body a2 t :
  like_rel eqc (edge a1 ++ body ++ edge a2) t <->
  exists pre mid post, t = pre ++ mid ++ post
    /\ (a1 = true -> pre = []) /\ (a2 = true -> post = []) /\ like_rel eqc body mid.
Proof.
  assert (Hedge : forall a u, like_rel eqc (edge a) u <-> (a = true -> u = [])).
  { intros [] u; simpl; split.
    - intros H _. by inv H.
    - intros ->; auto with like.
    - done.
    - intros _. apply like_rel_any. exists u, []. rewrite app_nil_r. auto with like. }
  rewrite like_rel_app. setoid_rewrite like_rel_app. setoid_rewrite Hedge.
  split.
  - intros (t1 & t2 & -> & H1 & t3 & t4 & -> & H2 & H3). by exists t1, t3, t4.
  - intros (pre & mid & post & -> & H1 & H2 & H3). exists pre, (mid ++ post).
    split; [done|]. split; [done|]. by exists mid, post.
Qed.
End LikeRel.

(** ** The pattern's edges *)

Lemma last_split {A} (l : list A) x : last l = Some x -> l = take (length l - 1) l ++ [x].
Proof.
  intros H. apply last_Some in H as [l' ->].
  rewrite length_app. simpl. rewrite Nat.add_sub. by rewrite take_app_length.
Qed.

Lemma ends_pct_split es : ends_pct es = true -> es = take (length es - 1) es ++ [EAny].
Proof.
  unfold ends_pct. intros H. destruct (last es) as [[]|] eqn:Hl; try done.
  by apply last_split.
Qed.

Lemma starts_pct_split es : starts_pct es = true -> es = EAny :: drop 1 es.
Proof. destruct es as [|[] es]; try done. Qed.

(** The two trailing and leading [%] of a pattern of at least two elements. *)
Lemma both_pct_split es :
  starts_pct es = true -> ends_pct es = true -> 2 <= length es ->
  es = EAny :: take (length es - 2) (drop 1 es) ++ [EAny].
Proof.
  intros H1 H2 Hn. destruct es as [|e1 [|e2 es]]; simpl in *; try lia.
  destruct e1; try done. simpl. f_equal.
  apply (ends_pct_split (e2 :: es)).
  revert H2. unfold ends_pct. by rewrite last_cons_cons.
Qed.

Lemma single_pct es :
  starts_pct es = true -> ~ 2 <= length es -> es = [EAny].
Proof. destruct es as [|[] [|? ?]]; simpl; try done; lia. Qed.

Lemma lit_run_ascii_Some es l :
  lit_run_ascii es = Some l -> es = map ELit l /\ str_is_ascii l = true.
Proof.
  revert l; induction es as [|[| |c] es IH]; simpl; intros l H; try done.
  - by simplify_eq.
  - destruct (is_ascii c) eqn:Hc; [|done].
    apply fmap_Some in H as (l' & Hl' & ->).
    destruct (IH _ Hl') as [-> Ha]. unfold str_is_ascii in *. simpl. by rewrite Hc.
Qed.

(** ** The ASCII matchers decide infix equality *)

Definition ci_eq (d c : char) : Prop := char_eq_ignore_ascii_case d c = true.

Lemma zip_ci_Forall2 a b :
  length a = length b -> zip_ci a b = true <-> Forall2 ci_eq b a.
Proof.
  unfold zip_ci, ci_eq. revert b; induction a as [|x a IH]; intros [|y b]; simpl; try done.
  intros [= H]. rewrite andb_true_iff, IH by done. rewrite Forall2_cons.
  unfold char_eq_ignore_ascii_case. rewrite (N.eqb_sym (ascii_lower x)). done.
Qed.

(** An infix match of the literal [n] at the anchored edges. *)
Definition infix_match (a1 a2 : bool) (P : char -> char -> Prop) (n t : str) : Prop :=
  exists pre mid post, t = pre ++ mid ++ post
    /\ (a1 = true -> pre = []) /\ (a2 = true -> post = []) /\ Forall2 P n mid.

Lemma ascii_ci_equals_spec t n :
  ascii_ci_equals t n = true <-> infix_match true true ci_eq n t.
Proof.
  unfold ascii_ci_equals, infix_match. rewrite andb_true_iff, Nat.eqb_eq. split.
  - intros [Hl H]. exists [], t, []. rewrite app_nil_r. rewrite zip_ci_Forall2 in H by done.
    naive_solver.
  - intros (pre & mid & post & -> & H1 & H2 & H). rewrite H1, H2, app_nil_r by done. simpl.
    assert (length mid = length n) by (symmetry; by eapply Forall2_length).
    split; [done|]. by apply zip_ci_Forall2.
Qed.

Lemma ascii_ci_starts_with_spec t n :
  ascii_ci_starts_with t n = true <-> infix_match true false ci_eq n t.
Proof.
  unfold ascii_ci_starts_with, infix_match. rewrite andb_true_iff, Nat.leb_le. split.
  - intros [Hl H]. exists [], (take (length n) t), (drop (length n) t).
    rewrite take_drop. rewrite zip_ci_Forall2 in H by (rewrite length_take; lia). naive_solver.
  - intros (pre & mid & post & -> & H1 & H2 & H). rewrite H1 by done. simpl.
    assert (length mid = length n) as Hl by (symmetry; by eapply Forall2_length).
    rewrite length_app. split; [lia|]. rewrite <- Hl, take_app_length.
    by apply zip_ci_Forall2.
Qed.

Lemma ascii_ci_ends_with_spec t n :
  ascii_ci_ends_with t n = true <-> infix_match false true ci_eq n t.
Proof.
  unfold ascii_ci_ends_with, infix_match. rewrite andb_true_iff, Nat.leb_le. split.
  - intros [Hl H]. set (k := length t - length n) in *.
    exists (take k t), (drop k t), []. rewrite app_nil_r, take_drop.
    rewrite zip_ci_Forall2 in H by (rewrite length_drop; lia). naive_solver.
  - intros (pre & mid & post & -> & H1 & H2 & H). rewrite H2, app_nil_r by done.
    assert (length mid = length n) as Hl by (symmetry; by eapply Forall2_length).
    rewrite length_app. split; [lia|]. rewrite drop_app_length' by lia.
    by apply zip_ci_Forall2.
Qed.

Lemma ascii_ci_contains_spec t n :
  ascii_ci_contains t n = true <-> infix_match false false ci_eq n t.
Proof.
  unfold ascii_ci_contains, infix_match. destruct n as [|f rest].
  { split; [|done]. intros _. exists [], [], t. naive_solver. }
  destruct (Nat.ltb_spec (length t) (length (f :: rest))) as [Hlt|Hge].
  - split; [done|]. intros (pre & mid & post & -> & _ & _ & H%Forall2_length).
    rewrite !length_app in Hlt. lia.
  - cbn [length] in *. rewrite existsb_exists. setoid_rewrite <- list_elem_of_In. setoid_rewrite elem_of_seq.
    unfold ci_match_at. split.
    + intros (i & Hi & Hm). destruct (drop i t) as [|h u] eqn:Hd; [done|].
      apply andb_true_iff in Hm as [Hh Hz].
      assert (Hlen : length (drop i t) = S (length u)) by by rewrite Hd.
      rewrite length_drop in Hlen.
      rewrite zip_ci_Forall2 in Hz by (rewrite length_take; lia).
      exists (take i t), (h :: take (length rest) u), (drop (length rest) u).
      simpl. rewrite take_drop, <- Hd, take_drop. repeat split; try done.
      constructor; [|done]. unfold ci_eq, char_eq_ignore_ascii_case in *. by rewrite N.eqb_sym.
    + intros (pre & mid & post & -> & _ & _ & H). inv H.
      match goal with H : Forall2 _ rest ?m |- _ => rename m into mid end.
      assert (length mid = length rest) as Hl by (symmetry; by eapply Forall2_length).
      exists (length pre). rewrite drop_app_length. split.
      { revert Hge. rewrite !length_app. cbn [length app]. rewrite ?length_app. lia. }
      simpl. rewrite <- Hl, take_app_length. apply andb_true_iff; split.
      * unfold ci_eq, char_eq_ignore_ascii_case in *. by rewrite N.eqb_sym.
      * by apply zip_ci_Forall2.
Qed.

Section LikeCorrect.
Context {U : Unicode} {R : RegexCrate}.

Lemma infix_match_fold a1 a2 n t :
  str_is_ascii n = true -> str_is_ascii t = true ->
  infix_match a1 a2 (fun d c => simple_fold_eq d c = true) n t <->
  infix_match a1 a2 ci_eq n t.
Proof.
  intros Hn Ht.
  assert (Hmid : forall pre mid post, t = pre ++ mid ++ post ->
    Forall2 (fun d c => simple_fold_eq d c = true) n mid <-> Forall2 ci_eq n mid).
  { intros pre mid post ->. unfold str_is_ascii in Ht. rewrite !forallb_app in Ht.
    apply andb_true_iff in Ht as [_ [Ht _]%andb_true_iff].
    revert n Hn; induction mid as [|c mid IH]; intros [|d n]; simpl; intros Hn;
      try by split; intros H; inv H.
    unfold str_is_ascii in Hn. simpl in *. apply andb_true_iff in Ht as [Hc Ht].
    apply andb_true_iff in Hn as [Hd Hn]. rewrite !Forall2_cons, IH by done.
    unfold ci_eq. by rewrite simple_fold_ascii. }
  unfold infix_match. split; intros (pre & mid & post & E & H1 & H2 & H);
    exists pre, mid, post; (split; [done|split; [done|split; [done|by eapply Hmid]]]).
Qed.

Lemma regex_for_literal_emit n a1 a2 :
  regex_for_literal n a1 a2 = emit_regex regex_escape a1 (map ELit n) a2.
Proof.
  unfold regex_for_literal, emit_regex. rewrite regex_escape_chars, map_map. done.
Qed.

(** The literal matchers: fast path and regex fallback agree with the
    pattern they stand for. *)
Lemma literal_matcher_spec a1 a2 n t (fast : list N -> list N -> bool) :
  str_is_ascii n = true ->
  (forall h m, fast h m = true <-> infix_match a1 a2 ci_eq m h) ->
  (if str_is_ascii t then fast (as_bytes t) (as_bytes n)
   else regex_is_match (regex_for_literal n a1 a2) t) = true <->
  like_rel simple_fold_eq (edge a1 ++ map ELit n ++ edge a2) t.
Proof.
  intros Hn Hfast. rewrite like_rel_edges. setoid_rewrite like_rel_lits.
  destruct (str_is_ascii t) eqn:Ht.
  - rewrite !as_bytes_ascii by done. rewrite Hfast. by apply symmetry, infix_match_fold.
  - rewrite regex_for_literal_emit, regex_emitted. by setoid_rewrite like_rel_lits.
Qed.

Lemma build_regex_spec es t :
  regex_is_match (build_regex es) t = true <-> like_rel simple_fold_eq es t.
Proof.
  unfold build_regex. destruct (starts_pct es) eqn:H1, (ends_pct es) eqn:H2.
  - destruct (Nat.leb_spec 2 (length es)) as [Hn|Hn].
    + rewrite regex_emitted, <- like_rel_edges. simpl.
      by rewrite <- both_pct_split.
    + rewrite (single_pct es) by (done || lia). rewrite regex_empty. split; [|done].
      intros _. apply like_rel_any. exists t, []. rewrite app_nil_r. auto with like.
  - rewrite regex_emitted, <- like_rel_edges. simpl. rewrite app_nil_r.
    by rewrite <- starts_pct_split.
  - rewrite regex_emitted, <- like_rel_edges. simpl.
    by rewrite <- ends_pct_split.
  - rewrite regex_emitted, <- like_rel_edges. simpl. by rewrite app_nil_r.
Qed.

Lemma build_inner_spec es t :
  like_matches (build_inner es) t = true <-> like_rel simple_fold_eq es t.
Proof.
  unfold build_inner. destruct (starts_pct es) eqn:H1, (ends_pct es) eqn:H2.
  - destruct (Nat.leb_spec 2 (length es)) as [Hn|Hn]; [|apply build_regex_spec].
    destruct (lit_run_ascii _) as [l|] eqn:Hl; [|apply build_regex_spec].
    apply lit_run_ascii_Some in Hl as [Hl Ha]. simpl.
    rewrite (literal_matcher_spec false false) by auto using ascii_ci_contains_spec.
    rewrite <- Hl. simpl. by rewrite <- both_pct_split.
  - destruct (lit_run_ascii _) as [l|] eqn:Hl; [|apply build_regex_spec].
    apply lit_run_ascii_Some in Hl as [Hl Ha]. simpl.
    rewrite (literal_matcher_spec false true) by auto using ascii_ci_ends_with_spec.
    rewrite <- Hl. simpl. rewrite app_nil_r. by rewrite <- starts_pct_split.
  - destruct (lit_run_ascii _) as [l|] eqn:Hl; [|apply build_regex_spec].
    apply lit_run_ascii_Some in Hl as [Hl Ha]. simpl.
    rewrite (literal_matcher_spec true false) by auto using ascii_ci_starts_with_spec.
    rewrite <- Hl. simpl. by rewrite <- ends_pct_split.
  - destruct (lit_run_ascii _) as [l|] eqn:Hl; [|apply build_regex_spec].
    apply lit_run_ascii_Some in Hl as [Hl Ha]. simpl.
    rewrite (literal_matcher_spec true true) by auto using ascii_ci_equals_spec.
    rewrite <- Hl. simpl. by rewrite app_nil_r.
Qed.
End LikeCorrect.

(** [LIKE] decides its specification: whichever matcher the pattern compiles
    to (ASCII byte comparison, its regex fallback on non-ASCII text, or a regex
    without the edge [%]s), a text matches when the pattern's elements, [%] for
    any run, [_] for any one character, literals (escaped ones included) up to
    simple case folding, consume the whole text. *)
Theorem like_match_correct `{U : Unicode} `{R : RegexCrate} text pattern escape :
  like_match text pattern escape = true <->
  like_rel simple_fold_eq (pattern_elems (ascii_lower <$> escape) pattern) text.
Proof. apply build_inner_spec. Qed.
