(* ===== verification/QoqAst.v ===== *)
(** * QoqAst: the SQL syntax tree ([cfml-qoq/src/ast.rs])

    The statement types are records over the expression and table-reference
    types; [expr] and [table_ref] tie the knot (a subquery is a statement, a
    derived table holds one). *)

From stdpp Require Import base list numbers strings.
From S2P Require Import Prelude Text Value QoqLike.

Inductive join_type := Inner | Left | Right | Full | Cross.
Inductive sort_direction := Asc | Desc.

#[global] Instance join_type_eq_dec : EqDecision join_type.
Proof. solve_decision. Defined.
#[global] Instance sort_direction_eq_dec : EqDecision sort_direction.
Proof. solve_decision. Defined.

Inductive binary_op :=
  | BEq | BNeq | BLt | BLte | BGt | BGte | BAnd | BOr
  | BAdd | BSub | BMul | BDiv | BMod | BConcat | BBitAnd | BBitOr | BBitXor.
Inductive unary_op := UNot | UNeg | UPlus.

#[global] Instance binary_op_eq_dec : EqDecision binary_op.
Proof. solve_decision. Defined.
#[global] Instance unary_op_eq_dec : EqDecision unary_op.
Proof. solve_decision. Defined.

(** A [?] parameter (0-based order of appearance) or a [:name] parameter. *)
Inductive param_ref := PPositional (i : nat) | PNamed (name : str).

(** [LIMIT]: [usize] counts. *)
Record limit_clause := LimitClause { lim_offset : Z; lim_count : Z }.

Record when_then_ (E : Type) := WhenThen { wt_when : E; wt_then : E }.
Record select_column_ (E : Type) := SelectColumn { sc_expr : E; sc_alias : option str }.
Record order_by_ (E : Type) := OrderByExpr { ob_expr : E; ob_direction : sort_direction }.
Record join_clause_ (E T : Type) := JoinClause {
  jn_type : join_type;
  jn_table : T;
  jn_on : option E;
}.
Record select_core_ (E T : Type) := SelectCore {
  co_distinct : bool;
  co_top : option Z;
  co_columns : list (select_column_ E);
  co_from : option T;
  co_joins : list (join_clause_ E T);
  co_where : option E;
  co_group_by : list E;
  co_having : option E;
}.
Record union_ (E T : Type) := Union { un_all : bool; un_select : select_core_ E T }.
Record select_statement_ (E T : Type) := SelectStatement {
  ss_body : select_core_ E T;
  ss_unions : list (union_ E T);
  ss_order_by : list (order_by_ E);
  ss_limit : option limit_clause;
}.

Arguments WhenThen {E}. Arguments wt_when {E}. Arguments wt_then {E}.
Arguments SelectColumn {E}. Arguments sc_expr {E}. Arguments sc_alias {E}.
Arguments OrderByExpr {E}. Arguments ob_expr {E}. Arguments ob_direction {E}.
Arguments JoinClause {E T}. Arguments jn_type {E T}. Arguments jn_table {E T}.
Arguments jn_on {E T}.
Arguments SelectCore {E T}. Arguments co_distinct {E T}. Arguments co_top {E T}.
Arguments co_columns {E T}. Arguments co_from {E T}. Arguments co_joins {E T}.
Arguments co_where {E T}. Arguments co_group_by {E T}. Arguments co_having {E T}.
Arguments Union {E T}. Arguments un_all {E T}. Arguments un_select {E T}.
Arguments SelectStatement {E T}. Arguments ss_body {E T}. Arguments ss_unions {E T}.
Arguments ss_order_by {E T}. Arguments ss_limit {E T}.

Scheme All for when_then_.
Scheme All for select_column_.
Scheme All for order_by_.
Scheme All for join_clause_.
Scheme All for select_core_.
Scheme All for union_.
Scheme All for select_statement_.

Inductive expr :=
  | XStar (table : option str)
  | XColumn (table : option str) (name : str)
  | XResolvedColumn (ti ci : nat) (name : str)
  | XLiteral (v : value)
  | XBinary (left : expr) (op : binary_op) (right : expr)
  | XUnary (op : unary_op) (e : expr)
  | XFunction (name : str) (args : list expr) (distinct : bool)
  | XCase (operand : option expr) (whens : list (when_then_ expr)) (else_expr : option expr)
  | XCast (e : expr) (ty : str)
  | XIsNull (e : expr) (negated : bool)
  | XInList (e : expr) (negated : bool) (items : list expr)
  | XInSubquery (e : expr) (negated : bool) (select : select_statement_ expr table_ref)
  | XBetween (e : expr) (negated : bool) (low high : expr)
  | XLike (e : expr) (negated : bool) (pattern : expr) (escape : option expr)
      (compiled : option like_inner)
  | XScalarSubquery (select : select_statement_ expr table_ref)
  | XParam (p : param_ref)
with table_ref :=
  | TNamed (name : str) (alias : option str)
  | TDerived (select : select_statement_ expr table_ref) (alias : str).

Abbreviation when_then := (when_then_ expr).
Abbreviation select_column := (select_column_ expr).
Abbreviation order_by_expr := (order_by_ expr).
Abbreviation join_clause := (join_clause_ expr table_ref).
Abbreviation select_core := (select_core_ expr table_ref).
Abbreviation union_arm := (union_ expr table_ref).
Abbreviation select_statement := (select_statement_ expr table_ref).

(** Induction on an expression with subqueries as opaque leaves: the engine
    evaluates a subquery through a separate run of the whole pipeline. *)
Section ExprInd.
Context (P : expr -> Prop).
Context (Hstar : forall t, P (XStar t)) (Hcol : forall t n, P (XColumn t n))
  (Hres : forall ti ci n, P (XResolvedColumn ti ci n)) (Hlit : forall v, P (XLiteral v))
  (Hbin : forall l op r, P l -> P r -> P (XBinary l op r))
  (Hun : forall op e, P e -> P (XUnary op e))
  (Hfun : forall n args d, Forall P args -> P (XFunction n args d))
  (Hcase : forall o ws el, option_Forall P o ->
     Forall (fun w => P (wt_when w) /\ P (wt_then w)) ws ->
     option_Forall P el -> P (XCase o ws el))
  (Hcast : forall e ty, P e -> P (XCast e ty))
  (Hnull : forall e n, P e -> P (XIsNull e n))
  (Hin : forall e n l, P e -> Forall P l -> P (XInList e n l))
  (Hinq : forall e n s, P e -> P (XInSubquery e n s))
  (Hbtw : forall e n lo hi, P e -> P lo -> P hi -> P (XBetween e n lo hi))
  (Hlike : forall e n p es c, P e -> P p -> option_Forall P es -> P (XLike e n p es c))
  (Hsub : forall s, P (XScalarSubquery s)) (Hpar : forall p, P (XParam p)).

Fixpoint expr_ind' (e : expr) : P e :=
  let fix go_list (l : list expr) : Forall P l :=
    match l with
    | [] => Forall_nil_2 P
    | x :: l => Forall_cons_2 P x l (expr_ind' x) (go_list l)
    end in
  let fix go_whens (l : list when_then) :
      Forall (fun w => P (wt_when w) /\ P (wt_then w)) l :=
    match l with
    | [] => Forall_nil_2 _
    | WhenThen a b :: l =>
        Forall_cons_2 _ (WhenThen a b) l (conj (expr_ind' a) (expr_ind' b)) (go_whens l)
    end in
  let go_opt (o : option expr) : option_Forall P o :=
    match o with Some x => Forall_Some P x (expr_ind' x) | None => Forall_None P end in
  match e with
  | XStar t => Hstar t
  | XColumn t n => Hcol t n
  | XResolvedColumn ti ci n => Hres ti ci n
  | XLiteral v => Hlit v
  | XBinary l op r => Hbin l op r (expr_ind' l) (expr_ind' r)
  | XUnary op e => Hun op e (expr_ind' e)
  | XFunction n args d => Hfun n args d (go_list args)
  | XCase o ws el => Hcase o ws el (go_opt o) (go_whens ws) (go_opt el)
  | XCast e ty => Hcast e ty (expr_ind' e)
  | XIsNull e n => Hnull e n (expr_ind' e)
  | XInList e n l => Hin e n l (expr_ind' e) (go_list l)
  | XInSubquery e n s => Hinq e n s (expr_ind' e)
  | XBetween e n lo hi => Hbtw e n lo hi (expr_ind' e) (expr_ind' lo) (expr_ind' hi)
  | XLike e n p es c => Hlike e n p es c (expr_ind' e) (expr_ind' p) (go_opt es)
  | XScalarSubquery s => Hsub s
  | XParam p => Hpar p
  end.
End ExprInd.

(** ** Collecting from left to right

    What a core or a statement holds, given what its expressions and its table
    references hold, in the order of the text. *)

Definition opt_list {A B} (f : A -> list B) (o : option A) : list B :=
  match o with Some a => f a | None => [] end.

Section Collect.
Context {B : Type} (fe : expr -> list B) (ft : table_ref -> list B).

Definition core_collect (c : select_core_ expr table_ref) : list B :=
  match c with
  | SelectCore _ _ columns from joins where_ group_by having =>
      concat (map (fun sc => match sc with SelectColumn e _ => fe e end) columns)
      ++ opt_list ft from
      ++ concat (map (fun j => match j with
                               | JoinClause _ t on => ft t ++ opt_list fe on
                               end) joins)
      ++ opt_list fe where_ ++ concat (map fe group_by) ++ opt_list fe having
  end.

Definition statement_collect (s : select_statement_ expr table_ref) : list B :=
  match s with
  | SelectStatement body unions order_by _ =>
      core_collect body
      ++ concat (map (fun u => match u with Union _ c => core_collect c end) unions)
      ++ concat (map (fun ob => match ob with OrderByExpr e _ => fe e end) order_by)
  end.
End Collect.
