(* ===== verification/QoqLexer.v ===== *)
(** * QoqLexer: the SQL tokenizer ([cfml-qoq/src/lexer.rs])

    The lexer's [chars]/[pos] pair is represented by the suffix that is still to
    be read; [peek], [peek_at] and [advance] are pattern matches on it. *)

From Stdlib Require Import Strings.Ascii.
From stdpp Require Import base list numbers strings.
From S2P Require Import Prelude Text.

Inductive token :=
  | TSelect | TFrom | TWhere | TAnd | TOr | TNot | TIn | TBetween | TLike | TEscape
  | TIs | TNull | TTrue | TFalse | TAs | TOn | TOrder | TBy | TAsc | TDesc | TGroup
  | THaving | TLimit | TOffset | TTop | TDistinct | TCase | TWhen | TThen | TElse
  | TEnd | TExists | TCast | TConvert
  | TJoin | TInner | TLeft | TRight | TFull | TOuter | TCross | TUnion | TAll
  | TIdentifier (s : str)
  | TString (s : str)
  | TNumber (s : str)
  | TNamedParam (s : str)
  | TEq | TNeq | TNeq2 | TLt | TLte | TGt | TGte | TPlus | TMinus | TStar | TSlash
  | TMod | TConcat | TAmp | TPipe | TCaret | TLParen | TRParen | TComma | TDot
  | TParam
  | TEof
  | TError (msg : str).

#[global] Instance token_eq_dec : EqDecision token.
Proof. solve_decision. Defined.

(** The keyword table of [read_identifier_or_keyword], by upper-cased text. *)
Definition keywords : list (string * token) :=
  [("SELECT", TSelect); ("FROM", TFrom); ("WHERE", TWhere); ("AND", TAnd); ("OR", TOr);
   ("NOT", TNot); ("IN", TIn); ("BETWEEN", TBetween); ("LIKE", TLike);
   ("ESCAPE", TEscape); ("IS", TIs); ("NULL", TNull); ("TRUE", TTrue);
   ("FALSE", TFalse); ("AS", TAs); ("ON", TOn); ("ORDER", TOrder); ("BY", TBy);
   ("ASC", TAsc); ("DESC", TDesc); ("GROUP", TGroup); ("HAVING", THaving);
   ("LIMIT", TLimit); ("OFFSET", TOffset); ("TOP", TTop); ("DISTINCT", TDistinct);
   ("CASE", TCase); ("WHEN", TWhen); ("THEN", TThen); ("ELSE", TElse); ("END", TEnd);
   ("EXISTS", TExists); ("CAST", TCast); ("CONVERT", TConvert); ("JOIN", TJoin);
   ("INNER", TInner); ("LEFT", TLeft); ("RIGHT", TRight); ("FULL", TFull);
   ("OUTER", TOuter); ("CROSS", TCross); ("UNION", TUnion); ("ALL", TAll)]%string.

Definition lookup_keyword (upper : str) : option token :=
  snd <$> find (fun '(k, _) => bool_decide (lit k = upper)) keywords.

(** ** Scanning loops *)

(** To the end of a line comment, the newline included. *)
Fixpoint skip_line (s : str) : str :=
  match s with
  | [] => []
  | c :: s => if (c =? 10)%N then s else skip_line s
  end.

(** To the end of a block comment (entered after its opening). *)
Fixpoint skip_block (s : str) : str :=
  match s with
  | [] => []
  | c :: s' => if ch_is "*" c && peek_is "/" s' then drop 1 s' else skip_block s'
  end.

(** The loop of [skip_trivia]; every iteration consumes a character, so the
    length of the text is enough fuel. *)
Fixpoint skip_trivia_go (fuel : nat) (s : str) : str :=
  match fuel, s with
  | S fuel, c :: s' =>
      if is_ascii_whitespace c then skip_trivia_go fuel s'
      else if ch_is "-" c && peek_is "-" s' then skip_trivia_go fuel (skip_line s)
      else if ch_is "/" c && peek_is "*" s' then skip_trivia_go fuel (skip_block (drop 1 s'))
      else s
  | _, _ => s
  end.
Definition skip_trivia (s : str) : str := skip_trivia_go (length s) s.

(** [read_number] after its first character: the rest of the digits with at
    most one dot overall. *)
Fixpoint read_number (seen_dot : bool) (s : str) : str * str :=
  match s with
  | c :: s' =>
      if is_ascii_digit c then let '(d, r) := read_number seen_dot s' in (c :: d, r)
      else if (c =? 46)%N && negb seen_dot then
        let '(d, r) := read_number true s' in (c :: d, r)
      else ([], s)
  | [] => ([], [])
  end.

(** The loop shared by [read_string] and [read_quoted_ident]: up to [close], a
    doubled [close] standing for one; [None] when the text ends first. *)
Fixpoint read_delimited (close : char) (s : str) : option (str * str) :=
  match s with
  | [] => None
  | c :: s' =>
      if (c =? close)%N then
        match s' with
        | c' :: s'' =>
            if (c' =? close)%N then
              '(t, r) ← read_delimited close s''; Some (close :: t, r)
            else Some ([], s')
        | [] => Some ([], [])
        end
      else '(t, r) ← read_delimited close s'; Some (c :: t, r)
  end.

(** The longest prefix of characters satisfying [p], and the rest. *)
Fixpoint span (p : char -> bool) (s : str) : str * str :=
  match s with
  | c :: s' => if p c then let '(a, r) := span p s' in (c :: a, r) else ([], s)
  | [] => ([], [])
  end.

Section Lexer.
Context {U : Unicode}.

Definition ident_char (c : char) : bool :=
  is_alphanumeric c || (c =? 95)%N || (c =? 36)%N.
Definition param_char (c : char) : bool := is_alphanumeric c || (c =? 95)%N.
Definition ident_start (c : char) : bool := uc_alphabetic c || (c =? 95)%N.

Definition read_string (s : str) : token * str :=
  match read_delimited 39 s with
  | Some (t, r) => (TString t, r)
  | None => (TError (lit "unterminated string literal"), [])
  end.

Definition read_quoted_ident (close : char) (s : str) : token * str :=
  match read_delimited close s with
  | Some (t, r) => (TIdentifier t, r)
  | None => (TError (lit "unterminated quoted identifier"), [])
  end.

Definition read_identifier_or_keyword (first : char) (s : str) : token * str :=
  let '(t, r) := span ident_char s in
  match lookup_keyword (to_uppercase (first :: t)) with
  | Some k => (k, r)
  | None => (TIdentifier (first :: t), r)
  end.

Definition read_named_param (s : str) : token * str :=
  match span param_char s with
  | ([], r) => (TError (lit "expected name after ':'"), r)
  | (name, r) => (TNamedParam name, r)
  end.

Definition number_token (first : char) (s : str) : token * str :=
  let '(d, r) := read_number (first =? 46)%N s in (TNumber (first :: d), r).

(** [next_token] after [skip_trivia], from its first character. *)
Definition lex_token (c : char) (s : str) : token * str :=
  if ch_is "=" c then (TEq, s)
  else if ch_is "<" c then
    if peek_is ">" s then (TNeq, drop 1 s)
    else if peek_is "=" s then (TLte, drop 1 s) else (TLt, s)
  else if ch_is ">" c then
    if peek_is "=" s then (TGte, drop 1 s) else (TGt, s)
  else if ch_is "!" c then
    if peek_is "=" s then (TNeq2, drop 1 s) else (TError (lit "unexpected '!'"), s)
  else if ch_is "+" c then (TPlus, s)
  else if ch_is "-" c then (TMinus, s)
  else if ch_is "*" c then (TStar, s)
  else if ch_is "/" c then (TSlash, s)
  else if ch_is "%" c then (TMod, s)
  else if ch_is "|" c then
    if peek_is "|" s then (TConcat, drop 1 s) else (TPipe, s)
  else if ch_is "&" c then (TAmp, s)
  else if ch_is "^" c then (TCaret, s)
  else if ch_is "(" c then (TLParen, s)
  else if ch_is ")" c then (TRParen, s)
  else if ch_is "," c then (TComma, s)
  else if ch_is "." c then
    match s with
    | c' :: _ => if is_ascii_digit c' then number_token c s else (TDot, s)
    | [] => (TDot, s)
    end
  else if ch_is "?" c then (TParam, s)
  else if ch_is ":" c then read_named_param s
  else if ch_is "'" c then read_string s
  else if (c =? 34)%N then read_quoted_ident 34 s
  else if ch_is "`" c then read_quoted_ident (chr "`") s
  else if ch_is "[" c then read_quoted_ident (chr "]") s
  else if is_ascii_digit c then number_token c s
  else if ident_start c then read_identifier_or_keyword c s
  else (TError (lit "unexpected character '" ++ [c] ++ lit "'"), s).

Definition next_token (s : str) : token * str :=
  match skip_trivia s with
  | [] => (TEof, [])
  | c :: s' => lex_token c s'
  end.
End Lexer.

(** ** Progress: every token but the end of input consumes text *)

Lemma skip_line_length s : length (skip_line s) <= length s.
Proof. induction s as [|c s IH]; simpl; [done|]. case_match; lia. Qed.

Lemma skip_block_length s : length (skip_block s) <= length s.
Proof.
  induction s as [|c s IH]; simpl; [done|]. case_match; [|lia].
  rewrite length_drop. lia.
Qed.

Lemma skip_trivia_go_length fuel s : length (skip_trivia_go fuel s) <= length s.
Proof.
  revert s; induction fuel as [|fuel IH]; intros [|c s]; try done. cbn [skip_trivia_go].
  case_match; [rewrite IH; simpl; lia|].
  case_match; [rewrite IH, skip_line_length; done|].
  case_match; [rewrite IH, skip_block_length, length_drop; simpl; lia|done].
Qed.

Lemma read_number_length b s : length (read_number b s).2 <= length s.
Proof.
  revert b; induction s as [|c s IH]; intros b; simpl; [done|].
  case_match; [specialize (IH b); destruct (read_number b s); simpl in *; lia|].
  case_match; [specialize (IH true); destruct (read_number true s); simpl in *; lia|done].
Qed.

Lemma span_length p s : length (span p s).2 <= length s.
Proof.
  induction s as [|c s IH]; simpl; [done|].
  case_match; [destruct (span p s); simpl in *; lia|done].
Qed.

Lemma read_delimited_length close s t r :
  read_delimited close s = Some (t, r) -> length r <= length s.
Proof.
  revert t r. induction s as [s IH] using (induction_ltof1 _ (@length char)).
  unfold ltof in IH. destruct s as [|c s]; simpl; [done|]. intros t r H.
  destruct (c =? close)%N.
  - destruct s as [|c' s]; simplify_eq/=; [lia|].
    destruct (c' =? close)%N; simplify_eq/=; [|lia].
    destruct (read_delimited close s) as [[t' r']|] eqn:E; simplify_eq/=.
    apply IH in E; lia.
  - destruct (read_delimited close s) as [[t' r']|] eqn:E; simplify_eq/=.
    apply IH in E; simpl; lia.
Qed.

Section LexerProgress.
Context {U : Unicode}.

Lemma keyword_not_eof u t : lookup_keyword u = Some t -> t <> TEof.
Proof.
  unfold lookup_keyword. intros H.
  assert (Hall : forallb (fun '(_, t) => bool_decide (t <> TEof)) keywords = true)
    by reflexivity.
  apply fmap_Some in H as ([k t'] & Hf & ->).
  apply find_some in Hf as [Hin _]. rewrite forallb_forall in Hall.
  specialize (Hall _ Hin). by apply bool_decide_eq_true in Hall.
Qed.

Lemma lex_token_progress c s :
  (lex_token c s).1 <> TEof /\ length (lex_token c s).2 <= length s.
Proof.
  assert (Hnum : (number_token c s).1 <> TEof /\ length (number_token c s).2 <= length s).
  { unfold number_token. pose proof (read_number_length (c =? 46)%N s).
    destruct (read_number _ s); simpl in *. done. }
  assert (Hq : forall close, (read_quoted_ident close s).1 <> TEof
                             /\ length (read_quoted_ident close s).2 <= length s).
  { intros close. unfold read_quoted_ident.
    destruct (read_delimited close s) as [[t r]|] eqn:E; simpl; [|split; [done|lia]].
    split; [done|]. by eapply read_delimited_length. }
  unfold lex_token.
  repeat first [apply Hnum | apply Hq
    | match goal with |- context [if ?b then _ else _] => destruct b end
    | progress simpl; split; [done|rewrite ?length_drop; lia] ].
  - destruct s as [|c' s']; [done|]. case_match; [apply Hnum|done].
  - unfold read_named_param. pose proof (span_length param_char s).
    destruct (span param_char s) as [[] r]; simpl in *; done.
  - unfold read_string.
    destruct (read_delimited 39 s) as [[t r]|] eqn:E; simpl; [|split; [done|lia]].
    split; [done|]. by eapply read_delimited_length.
  - unfold read_identifier_or_keyword. pose proof (span_length ident_char s).
    destruct (span ident_char s) as [t r]; simpl in *.
    case_match eqn:E; simpl; [|done]. split; [by eapply keyword_not_eof|done].
Qed.

(** Each call of [next_token] either reports the end of the input, with
    nothing left, or consumes at least one character. *)
Lemma next_token_progress s :
  let '(t, r) := next_token s in
  (t = TEof /\ r = []) \/ (t <> TEof /\ length r < length s).
Proof.
  unfold next_token. pose proof (skip_trivia_go_length (length s) s) as Hs.
  unfold skip_trivia. destruct (skip_trivia_go _ s) as [|c s']; [by left|].
  destruct (lex_token c s') as [t r] eqn:E. right.
  pose proof (lex_token_progress c s') as [H1 H2]. rewrite E in *. simpl in *.
  split; [done|lia].
Qed.
End LexerProgress.

(** ** Printing tokens

    A reference printer, used to state that the lexer reads back what was
    written: keywords in upper case, plain identifiers bare and all others
    quoted, strings with doubled quotes, one space after every token. *)

Fixpoint double_char (q : char) (s : str) : str :=
  match s with
  | [] => []
  | c :: s => if (c =? q)%N then q :: q :: double_char q s else c :: double_char q s
  end.

Definition quote_with (q : char) (s : str) : str := q :: double_char q s ++ [q].

Definition keyword_text (t : token) : option str :=
  (fun '(k, _) => lit k) <$> find (fun '(_, t') => bool_decide (t = t')) keywords.

Definition symbol_text (t : token) : string :=
  match t with
  | TEq => "=" | TNeq => "<>" | TNeq2 => "!=" | TLt => "<" | TLte => "<=" | TGt => ">"
  | TGte => ">=" | TPlus => "+" | TMinus => "-" | TStar => "*" | TSlash => "/"
  | TMod => "%" | TConcat => "||" | TAmp => "&" | TPipe => "|" | TCaret => "^"
  | TLParen => "(" | TRParen => ")" | TComma => "," | TDot => "." | TParam => "?"
  | _ => ""
  end.

Section Printer.
Context {U : Unicode}.

(** An identifier that needs no quotes. *)
Definition plain_ident (s : str) : bool :=
  match s with
  | [] => false
  | c :: s' =>
      is_ascii_alpha c && forallb (fun c => is_ascii c && ident_char c) s'
      && match lookup_keyword (to_uppercase s) with Some _ => false | None => true end
  end.

Definition token_text (t : token) : str :=
  match t with
  | TIdentifier s => if plain_ident s then s else quote_with 34 s
  | TString s => quote_with 39 s
  | TNumber s => s
  | TNamedParam s => chr ":" :: s
  | _ => match keyword_text t with Some k => k | None => lit (symbol_text t) end
  end.

Definition render (ts : list token) : str :=
  concat (map (fun t => token_text t ++ lit " ") ts).

(** Digits with at most one dot; a leading dot is followed by a digit. *)
Definition number_text (s : str) : bool :=
  match s with
  | c :: s' =>
      (is_ascii_digit c || ch_is "." c && match s' with d :: _ => is_ascii_digit d | [] => false end)
      && bool_decide ((read_number (c =? 46)%N s').2 = [])
  | [] => false
  end.

(** The tokens a printer can write: not the end marker, not a lex error. *)
Definition printable (t : token) : bool :=
  match t with
  | TEof | TError _ => false
  | TNumber s => number_text s
  | TNamedParam s =>
      match s with [] => false | _ => forallb (fun c => is_ascii c && param_char c) s end
  | _ => true
  end.

(** All tokens of a text, up to the end marker. *)
Fixpoint tokenize_go (fuel : nat) (s : str) : list token :=
  match fuel with
  | 0 => []
  | S fuel =>
      match next_token s with
      | (TEof, _) => []
      | (t, r) => t :: tokenize_go fuel r
      end
  end.
Definition tokenize (s : str) : list token := tokenize_go (S (length s)) s.
End Printer.

(** ** Reading back what was printed *)

Lemma skip_trivia_go_fuel fuel s :
  length s <= fuel -> skip_trivia_go fuel s = skip_trivia s.
Proof.
  revert fuel. induction s as [s IH] using (induction_ltof1 _ (@length char)).
  unfold ltof in IH. intros fuel Hf. unfold skip_trivia.
  destruct s as [|c s]; [by destruct fuel|]. simpl in Hf.
  destruct fuel as [|fuel]; [lia|]. cbn [skip_trivia_go length].
  assert (Hrec : forall u, length u <= length s ->
    skip_trivia_go fuel u = skip_trivia_go (length s) u).
  { intros u Hu. rewrite !IH by (simpl; lia). done. }
  case_match; [by apply Hrec|].
  case_match eqn:E2; [apply Hrec|].
  { apply andb_true_iff in E2 as [E2 _]. unfold ch_is in E2. apply N.eqb_eq in E2 as ->.
    simpl. apply skip_line_length. }
  case_match; [|done]. apply Hrec. rewrite skip_block_length, length_drop. lia.
Qed.

Lemma skip_trivia_space s : skip_trivia (32%N :: s) = skip_trivia s.
Proof. unfold skip_trivia at 1. simpl. by apply skip_trivia_go_fuel. Qed.

(** Text whose first character cannot start trivia. *)
Definition solid (c : char) (s : str) : Prop :=
  is_ascii_whitespace c = false /\ (ch_is "-" c && peek_is "-" s = false)
  /\ (ch_is "/" c && peek_is "*" s = false).

Lemma next_token_solid `{Unicode} c s : solid c s -> next_token (c :: s) = lex_token c s.
Proof.
  intros (H1 & H2 & H3). unfold next_token, skip_trivia. cbn [length skip_trivia_go].
  by rewrite H1, H2, H3.
Qed.

Lemma next_token_space `{Unicode} s : next_token (32%N :: s) = next_token s.
Proof. unfold next_token. by rewrite skip_trivia_space. Qed.

Lemma span_stop p s c r :
  forallb p s = true -> p c = false -> span p (s ++ c :: r) = (s, c :: r).
Proof.
  intros Hs Hc. induction s as [|d s IH]; simpl in *; [by rewrite Hc|].
  apply andb_true_iff in Hs as [-> Hs]. by rewrite IH.
Qed.

Lemma read_delimited_double q s r :
  match r with c :: _ => c <> q | [] => True end ->
  read_delimited q (double_char q s ++ q :: r) = Some (s, r).
Proof.
  intros Hr. induction s as [|c s IH]; simpl.
  - rewrite N.eqb_refl. destruct r as [|c r]; [done|]. by apply N.eqb_neq in Hr as ->.
  - destruct (N.eqb_spec c q) as [->|Hne]; simpl.
    + rewrite N.eqb_refl. by rewrite IH.
    + apply N.eqb_neq in Hne as ->. by rewrite IH.
Qed.

Lemma read_number_stop b s r :
  (read_number b s).2 = [] -> read_number b (s ++ 32%N :: r) = (s, 32%N :: r).
Proof.
  revert b; induction s as [|c s IH]; intros b; simpl; [done|].
  destruct (is_ascii_digit c) eqn:Hd; simpl.
  - specialize (IH b). destruct (read_number b s); simpl. intros ->. by rewrite IH.
  - destruct ((c =? 46)%N && negb b); simpl; [|done].
    specialize (IH true). destruct (read_number true s); simpl. intros ->. by rewrite IH.
Qed.

(** Evaluate the character literals of the lexer. *)
Ltac eval_chars :=
  unfold ch_is, peek_is, chr in *;
  repeat match goal with
  | |- context [Ascii.N_of_ascii ?a] =>
      let n := eval vm_compute in (Ascii.N_of_ascii a) in
      change (Ascii.N_of_ascii a) with n
  end.

(** Discharge the character tests of the lexer for a character in a range. *)
Ltac skip_chars :=
  eval_chars;
  repeat match goal with
  | |- context [(?c =? ?k)%N] => destruct (N.eqb_spec c k); [exfalso; lia|]
  end; simpl.

Lemma is_ascii_alpha_range c :
  is_ascii_alpha c = true <-> (65 <= c /\ c <= 90)%N \/ (97 <= c /\ c <= 122)%N.
Proof. unfold is_ascii_alpha. rewrite orb_true_iff, !andb_true_iff, !N.leb_le. done. Qed.

Lemma is_ascii_digit_range c : is_ascii_digit c = true <-> (48 <= c /\ c <= 57)%N.
Proof. unfold is_ascii_digit. by rewrite andb_true_iff, !N.leb_le. Qed.

Section RoundTrip.
Context {U : Unicode}.

Lemma alpha_ascii c : is_ascii_alpha c = true -> is_ascii c = true.
Proof. rewrite is_ascii_alpha_range. intros. apply N.ltb_lt. lia. Qed.

Lemma lex_word c s :
  is_ascii_alpha c = true ->
  solid c s /\ lex_token c s = read_identifier_or_keyword c s.
Proof.
  intros Ha. assert (Hs : ident_start c = true).
  { unfold ident_start. by rewrite uc_alphabetic_ascii, Ha by by apply alpha_ascii. }
  assert (Hd : is_ascii_digit c = false).
  { apply not_true_is_false. rewrite is_ascii_digit_range.
    rewrite is_ascii_alpha_range in Ha. lia. }
  apply is_ascii_alpha_range in Ha. split.
  - unfold solid, is_ascii_whitespace. by skip_chars.
  - unfold lex_token. skip_chars. by rewrite Hd, Hs.
Qed.

Lemma ident_char_space : ident_char 32 = false.
Proof.
  unfold ident_char, is_alphanumeric.
  by rewrite uc_alphabetic_ascii, uc_numeric_ascii by done.
Qed.

Lemma param_char_space : param_char 32 = false.
Proof.
  unfold param_char, is_alphanumeric.
  by rewrite uc_alphabetic_ascii, uc_numeric_ascii by done.
Qed.

Lemma ident_char_ascii_alpha c : is_ascii_alpha c = true -> ident_char c = true.
Proof.
  intros H. unfold ident_char, is_alphanumeric.
  by rewrite uc_alphabetic_ascii, H by by apply alpha_ascii.
Qed.

(** A bare word, read up to the following space. *)
Lemma next_word c s r :
  is_ascii_alpha c = true -> forallb ident_char s = true ->
  next_token (c :: s ++ 32%N :: r)
  = (match lookup_keyword (to_uppercase (c :: s)) with
     | Some k => k
     | None => TIdentifier (c :: s)
     end, 32%N :: r).
Proof.
  intros Hc Hs. destruct (lex_word c (s ++ 32%N :: r) Hc) as [Hsol Hlex].
  rewrite next_token_solid, Hlex by done. unfold read_identifier_or_keyword.
  rewrite span_stop by (done || apply ident_char_space). by case_match.
Qed.

(** The keywords are upper-case ASCII words that look themselves up. *)
Definition keyword_ok (kt : string * token) : bool :=
  let '(k, t) := kt in
  forallb is_ascii_alpha (lit k) && bool_decide (lit k <> [])
  && bool_decide (map ascii_upper (lit k) = lit k)
  && bool_decide (lookup_keyword (lit k) = Some t).

Lemma keywords_ok : forallb keyword_ok keywords = true.
Proof. vm_compute. reflexivity. Qed.

Lemma next_keyword t k r :
  keyword_text t = Some k -> next_token (k ++ 32%N :: r) = (t, 32%N :: r).
Proof.
  unfold keyword_text. intros H. apply fmap_Some in H as ([k' t'] & Hf & ->).
  apply find_some in Hf as [Hin Ht]. apply bool_decide_eq_true in Ht as <-.
  pose proof keywords_ok as Hok. rewrite forallb_forall in Hok.
  specialize (Hok _ Hin). simpl in Hok. rewrite !andb_true_iff, !bool_decide_eq_true in Hok.
  destruct Hok as [[[Ha Hne] Hup] Hl]. destruct (lit k') as [|c s] eqn:E; [done|].
  cbn [forallb] in Ha. apply andb_true_iff in Ha as [Hc Hs].
  assert (Hs' : forallb ident_char s = true).
  { rewrite forallb_forall in *. eauto using ident_char_ascii_alpha. }
  simpl app. rewrite next_word by done.
  assert (Hasc : str_is_ascii (c :: s) = true).
  { unfold str_is_ascii. cbn [forallb]. rewrite (alpha_ascii c) by done. simpl.
    rewrite forallb_forall in *. eauto using alpha_ascii. }
  rewrite to_uppercase_ascii, Hup, Hl by done. done.
Qed.

Lemma next_number s r :
  number_text s = true -> next_token (s ++ 32%N :: r) = (TNumber s, 32%N :: r).
Proof.
  destruct s as [|c s]; simpl; [done|]. rewrite andb_true_iff, orb_true_iff, bool_decide_eq_true.
  intros [Hc Hr].
  assert (Hnum : number_token c (s ++ 32%N :: r) = (TNumber (c :: s), 32%N :: r)).
  { unfold number_token. by rewrite read_number_stop. }
  destruct Hc as [Hd|Hc].
  - assert (Hd' := Hd). apply is_ascii_digit_range in Hd.
    rewrite next_token_solid by (unfold solid, is_ascii_whitespace; by skip_chars).
    unfold lex_token. skip_chars. by rewrite Hd'.
  - apply andb_true_iff in Hc as [Hdot Hd]. unfold ch_is, chr in Hdot.
    apply N.eqb_eq in Hdot. change (c = 46%N) in Hdot. subst c.
    rewrite next_token_solid by done. destruct s as [|d s]; [done|].
    unfold lex_token. eval_chars. simpl. rewrite Hd. done.
Qed.

Lemma next_printable t r :
  printable t = true -> next_token (token_text t ++ 32%N :: r) = (t, 32%N :: r).
Proof.
  intros Hp.
  destruct (keyword_text t) as [k|] eqn:Hk.
  { assert (token_text t = k) as ->.
    { unfold token_text. rewrite Hk. by destruct t. }
    by apply next_keyword. }
  destruct t; try (vm_compute in Hk; discriminate Hk); try discriminate Hp;
    unfold token_text; try rewrite Hk.
  all: try solve [match goal with
       | |- context [lit ?t] => let l := eval vm_compute in (lit t) in change (lit t) with l
       end; cbn [app]; rewrite next_token_solid by done; reflexivity].
  - (* identifiers *)
    destruct (plain_ident s) eqn:Hs.
    + destruct s as [|c s]; [done|]. simpl in Hs. rewrite !andb_true_iff in Hs.
      destruct Hs as [[Hc Hs] Hkw]. simpl app. rewrite next_word; [|done|].
      * unfold to_uppercase in *. simpl in *. by destruct (lookup_keyword _).
      * rewrite forallb_forall in *. intros x Hx. specialize (Hs x Hx).
        by apply andb_true_iff in Hs as [_ ?].
    + unfold quote_with. simpl app. rewrite next_token_solid by done.
      change (lex_token 34 ?u) with (read_quoted_ident 34 u).
      unfold read_quoted_ident. rewrite <- app_assoc. simpl app.
      by rewrite read_delimited_double.
  - (* strings *)
    unfold quote_with. simpl app. rewrite next_token_solid by done.
    change (lex_token 39 ?u) with (read_string u).
    unfold read_string. rewrite <- app_assoc. simpl app. by rewrite read_delimited_double.
  - by apply next_number.
  - (* named parameters *)
    simpl in Hp. destruct s as [|c s]; [done|]. change (chr ":") with 58%N.
    rewrite <- (app_comm_cons (c :: s)). rewrite next_token_solid by done.
    change (lex_token 58 ?u) with (read_named_param u).
    unfold read_named_param. rewrite span_stop; [done| |apply param_char_space].
    rewrite forallb_forall in *. intros x Hx. specialize (Hp x Hx).
    by apply andb_true_iff in Hp as [_ ?].
Qed.

Lemma tokenize_go_render fuel ts :
  forallb printable ts = true -> length ts < fuel ->
  tokenize_go fuel (render ts) = ts /\ tokenize_go fuel (32%N :: render ts) = ts.
Proof.
  revert fuel; induction ts as [|t ts IH]; intros [|fuel] Hp Hf; try (simpl in *; lia).
  - done.
  - cbn [forallb length] in *. apply andb_true_iff in Hp as [Ht Hp].
    destruct (IH fuel) as [_ IH2]; [done|lia|].
    assert (Hn : next_token (render (t :: ts)) = (t, 32%N :: render ts)).
    { unfold render. cbn [map concat]. rewrite <- app_assoc. by apply next_printable. }
    cbn [tokenize_go]. rewrite next_token_space, Hn.
    destruct t; try discriminate Ht; split; exact (f_equal (cons _) IH2).
Qed.
End RoundTrip.

(** *)
Theorem tokenize_render `{Unicode} ts :
  forallb printable ts = true -> tokenize (render ts) = ts.
Proof.
  intros Hp. unfold tokenize. apply tokenize_go_render; [done|].
  assert (Hlen : length ts <= length (render ts)); [|lia].
  clear Hp. unfold render. induction ts as [|t ts IH]; simpl; [lia|].
  rewrite !length_app. simpl. lia.
Qed.
