(* ===== verification/QoqCompare.v ===== *)
(** * QoqCompare: the comparator and the group key ([cfml-qoq/src/compare.rs])

    One comparator serves the comparison operators, ORDER BY and MIN/MAX; the
    group key serves DISTINCT, GROUP BY, UNION and the hash join. *)

From Stdlib Require Import Strings.Ascii.
From stdpp Require Import base list numbers strings.
From Stdlib Require Import Floats.SpecFloat.
From S2P Require Import Prelude Text Float64 Value.

(** [Ord::cmp] on strings: lexicographic on the UTF-8 bytes. *)
Definition bytes_cmp (a b : str) : comparison :=
  list_compare N.compare (as_bytes a) (as_bytes b).

(** The byte loop of [str_cmp]; [None] when a non-ASCII byte sends it to the
    [to_lowercase] path. *)
Fixpoint str_cmp_ascii (ab bb : list N) : option comparison :=
  match ab, bb with
  | x :: ab', y :: bb' =>
      if ((128 <=? x) || (128 <=? y))%N then None
      else let cx := ascii_lower x in
           let cy := ascii_lower y in
           if (cx =? cy)%N then str_cmp_ascii ab' bb' else Some (cx ?= cy)%N
  | _, _ =>
      let tail := match ab with [] => bb | _ => ab end in
      if existsb (fun t => (128 <=? t)%N) tail then None
      else Some (length ab ?= length bb)
  end.

Section Compare.
Context {U : Unicode} {D : DateLib}.

Definition str_cmp (a b : str) : comparison :=
  match str_cmp_ascii (as_bytes a) (as_bytes b) with
  | Some c => c
  | None => bytes_cmp (to_lowercase a) (to_lowercase b)
  end.

Inductive cmp_class := CNum (d : f64) | CStr (s : str).

Definition classify (v : value) : option cmp_class :=
  match v with
  | VNull => None
  | VInt i => Some (CNum (f64_of_Z i))
  | VDouble d => Some (CNum d)
  | VBool b => Some (CNum (if b then f64_one else f64_zero))
  | VString s => Some (CStr s)
  | other => Some (CStr (as_string other))
  end.

Definition parse_num (s : str) : option f64 :=
  let t := trim s in
  if bool_decide (t = []) then None else parse_f64 t.

(** [fmt_num]: no trailing [.0]. *)
Definition fmt_num (n : f64) : str :=
  if f64_fract_is_zero n && f64_ltb (f64_abs n) (f64_of_Z (10 ^ 15))
  then Z_to_str (f64_as_i64 n)
  else f64_to_string n.

Definition date_vs (d : cfml_date) (other : value) : comparison :=
  let as_date := match other with
                 | VInt i => from_numeric (f64_of_Z i)
                 | VDouble f => from_numeric f
                 | VString s => parse_date (trim s)
                 | _ => None
                 end in
  match as_date with
  | Some o => (epoch_nanos d ?= epoch_nanos o)%Z
  | None => str_cmp (to_cfml_string d) (as_string other)
  end.

Definition bool_cmp (a b : bool) : comparison :=
  match a, b with false, true => Lt | true, false => Gt | _, _ => Eq end.
Definition bool_Z (b : bool) : Z := if b then 1%Z else 0%Z.

Definition compare_class (ca cb : cmp_class) : comparison :=
  match ca, cb with
  | CNum x, CNum y => f64_total_cmp x y
  | CStr x, CStr y => str_cmp x y
  | CNum x, CStr y =>
      match parse_num y with
      | Some yn => f64_total_cmp x yn
      | None => str_cmp (fmt_num x) y
      end
  | CStr x, CNum y =>
      match parse_num x with
      | Some xn => f64_total_cmp xn y
      | None => str_cmp x (fmt_num y)
      end
  end.

(** [compare_sql]: [None] is SQL's unknown (a NULL operand). *)
Definition compare_sql (a b : value) : option comparison :=
  if is_null a || is_null b then None
  else match a, b with
  | VString sa, VString sb => Some (str_cmp sa sb)
  | VInt ia, VInt ib => Some (ia ?= ib)%Z
  | VDouble da, VDouble db => Some (f64_total_cmp da db)
  | VBool ba, VBool bb => Some (bool_cmp ba bb)
  | VBool ba, VInt ib => Some (bool_Z ba ?= ib)%Z
  | VInt ia, VBool bb => Some (ia ?= bool_Z bb)%Z
  | VDateTime da, VDateTime db => Some (epoch_nanos da ?= epoch_nanos db)%Z
  | VDateTime d, other => Some (date_vs d other)
  | other, VDateTime d => Some (CompOpp (date_vs d other))
  | _, _ =>
      ca ← classify a; cb ← classify b; Some (compare_class ca cb)
  end.

Definition compare_total (a b : value) : comparison :=
  match is_null a, is_null b with
  | true, true => Eq
  | true, false => Lt
  | false, true => Gt
  | false, false => from_option id Eq (compare_sql a b)
  end.

Definition sql_equal (a b : value) : option bool :=
  (fun o => match o with Eq => true | _ => false end) <$> compare_sql a b.

(** ** Group keys *)

(** The separator, U+0001. *)
Definition key_sep : char := 1%N.

(** [append_group_key]: what one value adds to the key. *)
Definition cell_key (v : value) : str :=
  match v with
  | VNull => lit "N" ++ [key_sep]
  | VBool b => lit "B" ++ (if b then lit "T" else lit "F") ++ [key_sep]
  | VInt i => lit "#" ++ Z_to_str i ++ [key_sep]
  | VDouble d => lit "#" ++ fmt_num d ++ [key_sep]
  | VString s => lit "S" ++ to_lowercase s ++ [key_sep]
  | VDateTime d => lit "D" ++ Z_to_str (epoch_nanos d) ++ [key_sep]
  | other => lit "S" ++ to_lowercase (as_string other) ++ [key_sep]
  end.

Definition append_group_key (key : str) (v : value) : str := key ++ cell_key v.

Definition group_key (values : list value) : str :=
  fold_left append_group_key values [].
End Compare.

(** ** The ASCII fast path *)

Section CompareFacts.
Context {U : Unicode} {D : DateLib}.

Lemma utf8_char_head c :
  (is_ascii c = true /\ utf8_char c = [c]) \/
  exists b bs, utf8_char c = b :: bs /\ (128 <= b)%N /\ is_ascii c = false.
Proof.
  unfold utf8_char, is_ascii. destruct (N.ltb_spec c 128); [by left|right].
  repeat case_match; do 2 eexists; 
    (split; [done|split; [etrans; [|apply N.le_add_r]; done|done]]).
Qed.

Lemma str_cmp_ascii_tail a :
  existsb (fun t => (128 <=? t)%N) (as_bytes a) = false -> str_is_ascii a = true.
Proof.
  unfold as_bytes. induction a as [|c a IH]; [done|]. cbn [map concat].
  rewrite existsb_app. rewrite orb_false_iff. intros [Hc Ha].
  unfold str_is_ascii in *. cbn [forallb]. rewrite IH by done.
  destruct (utf8_char_head c) as [[-> _]|(b & bs & Hb & Hge & _)]; [done|].
  rewrite Hb in Hc. cbn [existsb] in Hc. apply orb_false_iff in Hc as [Hc _].
  apply N.leb_gt in Hc. lia.
Qed.

Lemma lower_go_ascii b s :
  str_is_ascii s = true -> lower_go b s = map ascii_lower s.
Proof.
  intros H. rewrite <- (app_nil_r s) at 1. rewrite lower_go_ascii_prefix by done.
  simpl. apply app_nil_r.
Qed.

Lemma str_is_ascii_lower s : str_is_ascii s = true -> str_is_ascii (map ascii_lower s) = true.
Proof.
  unfold str_is_ascii. induction s; simpl; [done|]. rewrite ascii_lower_ascii.
  rewrite !andb_true_iff. naive_solver.
Qed.

(** One step of both sides on a pair of ASCII characters. *)
Lemma compare_lower_cons pa pb c d a b :
  is_ascii c = true -> is_ascii d = true ->
  list_compare N.compare (as_bytes (lower_go pa (c :: a))) (as_bytes (lower_go pb (d :: b)))
  = match (ascii_lower c ?= ascii_lower d)%N with
    | Eq => list_compare N.compare (as_bytes (lower_go (c :: pa) a))
              (as_bytes (lower_go (d :: pb) b))
    | r => r
    end.
Proof.
  assert (Hstep : forall p c a, is_ascii c = true ->
    as_bytes (lower_go p (c :: a)) = ascii_lower c :: as_bytes (lower_go (c :: p) a)).
  { intros p c' a' Hc. change (c' :: a') with ([c'] ++ a').
    rewrite lower_go_ascii_prefix by (unfold str_is_ascii; simpl; by rewrite Hc).
    rewrite as_bytes_app. rewrite as_bytes_ascii; [done|].
    apply str_is_ascii_lower. unfold str_is_ascii. simpl. by rewrite Hc. }
  intros Hc Hd. rewrite !Hstep by done. done.
Qed.

Lemma as_bytes_lower_nonempty p c a :
  str_is_ascii (c :: a) = true ->
  exists x l, as_bytes (lower_go p (c :: a)) = x :: l.
Proof.
  intros H. rewrite lower_go_ascii by done.
  rewrite as_bytes_ascii by by apply str_is_ascii_lower. simpl. eauto.
Qed.

Lemma as_bytes_cons_nonempty c a : exists x l, as_bytes (c :: a) = x :: l.
Proof.
  unfold as_bytes. simpl.
  destruct (utf8_char_head c) as [[_ ->]|(b & bs & -> & _)]; simpl; eauto.
Qed.

Lemma str_cmp_ascii_sound a b pa pb r :
  str_cmp_ascii (as_bytes a) (as_bytes b) = Some r ->
  list_compare N.compare (as_bytes (lower_go pa a)) (as_bytes (lower_go pb b)) = r.
Proof.
  revert b pa pb; induction a as [|c a IH]; intros b pa pb.
  - destruct b as [|d b]; [simpl; intros; by simplify_eq|].
    destruct (as_bytes_cons_nonempty d b) as (x & l & E).
    change (as_bytes []) with (@nil N). cbn [str_cmp_ascii].
    destruct (existsb _ _) eqn:Ht; [done|]. apply str_cmp_ascii_tail in Ht.
    rewrite E. simpl length. intros; simplify_eq/=.
    destruct (as_bytes_lower_nonempty pb d b Ht) as (? & ? & E'). simpl lower_go in *.
    by rewrite E'.
  - destruct b as [|d b].
    + destruct (as_bytes_cons_nonempty c a) as (x & l & E). rewrite E.
      cbn [str_cmp_ascii as_bytes map concat]. rewrite <- E.
      destruct (existsb _ _) eqn:Ht; [done|]. apply str_cmp_ascii_tail in Ht.
      rewrite E. simpl length. intros; simplify_eq/=.
      destruct (as_bytes_lower_nonempty pa c a Ht) as (? & ? & E'). simpl lower_go in *.
      by rewrite E'.
    + destruct (utf8_char_head c) as [[Hc Ec]|(x & xs & Ec & Hx & _)];
      destruct (utf8_char_head d) as [[Hd Ed]|(y & ys & Ed & Hy & _)].
      * unfold as_bytes at 1 2. cbn [map concat]. rewrite Ec, Ed. cbn [app str_cmp_ascii].
        fold (as_bytes a) (as_bytes b).
        unfold is_ascii in Hc, Hd. apply N.ltb_lt in Hc as Hc'. apply N.ltb_lt in Hd as Hd'.
        destruct (N.leb_spec 128 c); [lia|]. destruct (N.leb_spec 128 d); [lia|]. cbn [orb].
        rewrite compare_lower_cons by done.
        destruct (N.eqb_spec (ascii_lower c) (ascii_lower d)) as [E|E].
        -- rewrite E, N.compare_refl. apply IH.
        -- intros; simplify_eq. destruct (N.compare_spec (ascii_lower c) (ascii_lower d)); done.
      * unfold as_bytes at 1 2. cbn [map concat]. rewrite Ec, Ed. cbn [app str_cmp_ascii].
        destruct (N.leb_spec 128 y); [|lia]. by rewrite orb_true_r.
      * unfold as_bytes at 1 2. cbn [map concat]. rewrite Ec, Ed. cbn [app str_cmp_ascii].
        destruct (N.leb_spec 128 x); [|lia]. done.
      * unfold as_bytes at 1 2. cbn [map concat]. rewrite Ec, Ed. cbn [app str_cmp_ascii].
        destruct (N.leb_spec 128 x); [|lia]. done.
Qed.

(** The fast path is invisible: [str_cmp] is the comparison of the lower-cased
    strings. *)
Lemma str_cmp_lower a b : str_cmp a b = bytes_cmp (to_lowercase a) (to_lowercase b).
Proof.
  unfold str_cmp, bytes_cmp, to_lowercase.
  destruct (str_cmp_ascii _ _) as [r|] eqn:E; [|done].
  symmetry. by apply str_cmp_ascii_sound.
Qed.
End CompareFacts.

(** ** Order laws *)

Section OrderLaws.
Context {U : Unicode} {D : DateLib}.

Lemma N_compare_trans x y z : (x ?= y)%N = Lt -> (y ?= z)%N = Lt -> (x ?= z)%N = Lt.
Proof. rewrite !N.compare_lt_iff. lia. Qed.

Lemma str_cmp_antisym a b : str_cmp b a = CompOpp (str_cmp a b).
Proof.
  rewrite !str_cmp_lower. apply list_compare_antisym. intros; apply N.compare_antisym.
Qed.

(** Equality of the comparator is equality of the lower-cased strings. *)
Lemma str_cmp_eq a b : str_cmp a b = Eq <-> to_lowercase a = to_lowercase b.
Proof.
  rewrite str_cmp_lower. unfold bytes_cmp.
  rewrite list_compare_eq by apply N.compare_eq_iff.
  split; [apply as_bytes_inj|by intros ->].
Qed.

Lemma str_cmp_trans a b c : str_cmp a b <> Gt -> str_cmp b c <> Gt -> str_cmp a c <> Gt.
Proof.
  rewrite !str_cmp_lower. apply list_compare_le_trans.
  - intros; apply N.compare_antisym.
  - apply N.compare_eq_iff.
  - apply N_compare_trans.
Qed.

Lemma compare_class_antisym x y : compare_class y x = CompOpp (compare_class x y).
Proof.
  destruct x as [x|x], y as [y|y]; simpl;
    repeat case_match; auto using f64_total_cmp_antisym, str_cmp_antisym.
Qed.

Lemma bool_cmp_antisym a b : bool_cmp b a = CompOpp (bool_cmp a b).
Proof. by destruct a, b. Qed.

Lemma compare_sql_null_l b : compare_sql VNull b = None.
Proof. done. Qed.
Lemma compare_sql_null_r a : compare_sql a VNull = None.
Proof. unfold compare_sql. by rewrite orb_true_r. Qed.

Lemma compare_sql_some a b :
  is_null a = false -> is_null b = false -> exists c, compare_sql a b = Some c.
Proof.
  intros Ha Hb. unfold compare_sql. rewrite Ha, Hb.
  destruct a; try discriminate Ha; destruct b; try discriminate Hb; simpl; eauto.
Qed.

(** Swapping the operands reverses the result, on every pair of values. *)
Lemma compare_sql_antisym a b : compare_sql b a = CompOpp <$> compare_sql a b.
Proof.
  destruct (is_null a) eqn:Ha.
  { apply is_null_spec in Ha as ->. by rewrite compare_sql_null_r. }
  destruct (is_null b) eqn:Hb.
  { apply is_null_spec in Hb as ->. by rewrite compare_sql_null_r. }
  unfold compare_sql. rewrite Ha, Hb. cbn [orb].
  destruct a; try discriminate Ha; destruct b; try discriminate Hb; cbn [fmap option_fmap
    option_map classify mbind option_bind]; f_equal;
    auto using str_cmp_antisym, f64_total_cmp_antisym, bool_cmp_antisym,
      compare_class_antisym, Z.compare_antisym.
  all: by rewrite CompOpp_involutive.
Qed.

Lemma compare_total_antisym a b : compare_total b a = CompOpp (compare_total a b).
Proof.
  unfold compare_total. destruct (is_null a) eqn:Ha, (is_null b) eqn:Hb; try done.
  rewrite compare_sql_antisym.
  destruct (compare_sql_some a b) as [c ->]; done.
Qed.

(** Values of one kind (or NULL): what a typed column holds. *)
Inductive kind := KInt | KDouble | KBool | KString | KDate.

Definition has_kind (k : kind) (v : value) : bool :=
  match k, v with
  | _, VNull => true
  | KInt, VInt _ | KDouble, VDouble _ | KBool, VBool _ | KString, VString _
  | KDate, VDateTime _ => true
  | _, _ => false
  end.

Lemma Z_compare_le_trans (x y z : Z) :
  (x ?= y)%Z <> Gt -> (y ?= z)%Z <> Gt -> (x ?= z)%Z <> Gt.
Proof. rewrite !Z.compare_le_iff. lia. Qed.

(** On a column of one kind the comparator is transitive, hence a total
    preorder: what the sort behind ORDER BY needs. *)
Lemma compare_total_kind_trans k a b c :
  has_kind k a = true -> has_kind k b = true -> has_kind k c = true ->
  compare_total a b <> Gt -> compare_total b c <> Gt -> compare_total a c <> Gt.
Proof.
  destruct k, a; try discriminate; destruct b; try discriminate; destruct c; try discriminate;
    intros _ _ _; unfold compare_total; simpl; try done;
    eauto using Z_compare_le_trans, f64_total_cmp_trans, str_cmp_trans.
  destruct b0, b, b1; done.
Qed.
End OrderLaws.

(** The ASCII fast path of the string comparison is invisible: on every two
    strings [str_cmp], which compares bytes up to ASCII case and falls back at
    the first non-ASCII byte, gives the comparison of the lower-cased strings. *)
Theorem str_cmp_correct `{U : Unicode} a b :
  str_cmp a b = bytes_cmp (to_lowercase a) (to_lowercase b).
Proof. apply str_cmp_lower. Qed.

(** On values of one kind (NULL belongs to every kind) the comparator is a
    total preorder with NULL first: swapping the operands swaps the result, on
    any values at all, and it is transitive. *)
Theorem compare_order `{U : Unicode} `{D : DateLib} k a b c :
  has_kind k a = true -> has_kind k b = true -> has_kind k c = true ->
  compare_total b a = CompOpp (compare_total a b)
  /\ (compare_total a b <> Gt -> compare_total b c <> Gt -> compare_total a c <> Gt)
  /\ compare_total VNull a <> Gt.
Proof.
  intros Ha Hb Hc. split_and!; [apply compare_total_antisym|by apply (compare_total_kind_trans k)|].
  unfold compare_total. simpl. by destruct (is_null a).
Qed.

(** The comparator behind ORDER BY, MIN and MAX is not a total order across
    kinds: the strings 10 and 9 compare as text, each compares with the number 9
    as a number, so 10 < 9 as text, 9 = 9, and yet 9 < 10. *)
Theorem compare_total_mixed_cycle `{U : Unicode} `{D : DateLib} :
  let nine := VInt 9 in
  let s9 := VString (lit "9") in
  let s10 := VString (lit "10") in
  compare_total s10 s9 = Lt /\ compare_total s9 nine = Eq /\ compare_total nine s10 = Lt.
Proof.
  assert (Hnum : parse_num (lit "9") = Some (f64_of_Z 9) /\
                 parse_num (lit "10") = Some (f64_of_Z 10)).
  { unfold parse_num. by rewrite !trim_digits by done. }
  destruct Hnum as [H9 H10]. intros nine s9 s10.
  change (compare_total s10 s9) with (str_cmp (lit "10") (lit "9")).
  change (compare_total s9 nine) with (compare_class (CStr (lit "9")) (CNum (f64_of_Z 9))).
  change (compare_total nine s10) with (compare_class (CNum (f64_of_Z 9)) (CStr (lit "10"))).
  unfold compare_class. rewrite H9, H10.
  rewrite str_cmp_lower, !to_lowercase_ascii by done. done.
Qed.

(** ** Group keys *)

Section GroupKeys.
Context {U : Unicode} {D : DateLib}.

(** A cell's key without its terminator. *)
Definition cell_body (v : value) : str :=
  match v with
  | VNull => lit "N"
  | VBool b => lit "B" ++ (if b then lit "T" else lit "F")
  | VInt i => lit "#" ++ Z_to_str i
  | VDouble d => lit "#" ++ fmt_num d
  | VString s => lit "S" ++ to_lowercase s
  | VDateTime d => lit "D" ++ Z_to_str (epoch_nanos d)
  | other => lit "S" ++ to_lowercase (as_string other)
  end.

(** A value whose key text does not hold the separator. *)
Definition key_clean (v : value) : Prop := key_sep ∉ cell_body v.

Lemma cell_key_body v : cell_key v = cell_body v ++ [key_sep].
Proof. destruct v; simpl; rewrite <- ?app_assoc; done. Qed.

Lemma group_key_go vs k : fold_left append_group_key vs k = k ++ concat (map cell_key vs).
Proof.
  revert k; induction vs as [|v vs IH]; intros k; simpl; [by rewrite app_nil_r|].
  rewrite IH. unfold append_group_key. by rewrite app_assoc.
Qed.

Lemma group_key_concat vs : group_key vs = concat (map cell_key vs).
Proof. apply group_key_go. Qed.

Lemma group_key_cons v vs : group_key (v :: vs) = cell_body v ++ key_sep :: group_key vs.
Proof. rewrite !group_key_concat. simpl. by rewrite cell_key_body, <- app_assoc. Qed.

(** Rows of separator-free cells have the same key only cell by cell. *)
Lemma group_key_inj vs ws :
  Forall key_clean vs -> Forall key_clean ws ->
  group_key vs = group_key ws <-> Forall2 (fun v w => cell_key v = cell_key w) vs ws.
Proof.
  intros Hvs. revert ws. induction Hvs as [|v vs Hv Hvs IH]; intros ws Hws.
  - split; [|intros H; by inv H].
    destruct ws as [|w ws]; [done|]. rewrite group_key_cons. change (group_key []) with (@nil N).
    intros H. symmetry in H. by apply app_nil in H as [_ ?].
  - destruct Hws as [|w ws Hw Hws].
    + rewrite group_key_cons. change (group_key []) with (@nil N). split.
      * intros H. by apply app_nil in H as [_ ?].
      * intros H; inv H.
    + rewrite !group_key_cons, Forall2_cons, !cell_key_body, <- IH by done. split.
      * intros [-> ->]%sep_app_inj; done.
      * by intros [->%app_inv_tail ->].
Qed.

Lemma number_char_not_sep l : Forall number_char l -> key_sep ∉ l.
Proof.
  intros H Hin. eapply Forall_forall in Hin; [|exact H].
  unfold number_char, key_sep in Hin. lia.
Qed.

Lemma tag_not_sep a l : chr a <> key_sep -> key_sep ∉ l -> key_sep ∉ chr a :: l.
Proof. intros Ha Hl. apply not_elem_of_cons. done. Qed.

(** Integers, booleans, dates and NULL are always clean. *)
Lemma key_clean_scalar v :
  match v with VNull | VBool _ | VInt _ | VDateTime _ => true | _ => false end = true ->
  key_clean v.
Proof.
  unfold key_clean. destruct v; try discriminate; intros _; simpl cell_body.
  - apply (tag_not_sep "N"%char); [done|apply not_elem_of_nil].
  - apply (tag_not_sep "B"%char); [done|]. destruct b; apply not_elem_of_cons;
      (split; [done|apply not_elem_of_nil]).
  - apply (tag_not_sep "#"%char); [done|]. apply number_char_not_sep, Z_to_str_chars.
  - apply (tag_not_sep "D"%char); [done|]. apply number_char_not_sep, Z_to_str_chars.
Qed.

(** Within a kind other than doubles, sharing a group key is SQL equality. *)
Lemma cell_key_equal k v w :
  k <> KDouble -> has_kind k v = true -> has_kind k w = true ->
  is_null v = false -> is_null w = false ->
  cell_key v = cell_key w <-> sql_equal v w = Some true.
Proof.
  intros Hk Hv Hw Hnv Hnw. rewrite !cell_key_body.
  assert (Htail : forall x y : str, x ++ [key_sep] = y ++ [key_sep] <-> x = y).
  { intros x y. split; [apply app_inv_tail|by intros ->]. }
  rewrite Htail.
  destruct k; try done; destruct v; try discriminate; destruct w; try discriminate;
    unfold sql_equal, compare_sql; cbn [is_null orb cell_body fmap option_fmap option_map].
  - split.
    + intros H%app_inv_head%Z_to_str_inj. subst. by rewrite Z.compare_refl.
    + destruct (Z.compare_spec i i0); intros; simplify_eq; done.
  - by destruct b, b0.
  - split.
    + intros H%app_inv_head. apply str_cmp_eq in H. by rewrite H.
    + destruct (str_cmp s s0) eqn:E; intros; simplify_eq. apply str_cmp_eq in E. by rewrite E.
  - split.
    + intros H%app_inv_head%Z_to_str_inj. rewrite H. by rewrite Z.compare_refl.
    + destruct (Z.compare_spec (epoch_nanos d) (epoch_nanos d0)) as [E| |];
        intros; simplify_eq. by rewrite E.
Qed.
End GroupKeys.

(** Two rows of separator-free, non-NULL cells whose columns are of one kind
    (not double) share a group key exactly when they are SQL-equal cell by cell:
    DISTINCT, GROUP BY and UNION identify equal rows and no others. *)
Theorem group_key_correct `{U : Unicode} `{D : DateLib} ks vs ws :
  Forall key_clean vs -> Forall key_clean ws ->
  Forall2 (fun k v => k <> KDouble /\ has_kind k v = true /\ is_null v = false) ks vs ->
  Forall2 (fun k w => has_kind k w = true /\ is_null w = false) ks ws ->
  group_key vs = group_key ws <-> Forall2 (fun v w => sql_equal v w = Some true) vs ws.
Proof.
  intros Hv Hw Hkv Hkw. rewrite group_key_inj by done. clear Hv Hw. revert ws Hkw.
  induction Hkv as [|k v ks vs (Hk & Hkv & Hnv) _ IH]; intros ws Hkw; inv Hkw.
  - by split; constructor.
  - rewrite !Forall2_cons, IH by done. destruct_and!. rewrite (cell_key_equal k) by done. done.
Qed.

(** Without the separator condition two rows with unequal cells can share a
    group key: a string may hold the separator and the tag of a number. *)
Theorem group_key_collision `{U : Unicode} `{D : DateLib} :
  let a1 := VString (lit "a" ++ [key_sep] ++ lit "#1") in
  let b1 := VString (lit "b" ++ [key_sep] ++ lit "#1") in
  group_key [a1; VString (lit "b"); VInt 1] = group_key [VString (lit "a"); VInt 1; b1]
  /\ sql_equal a1 (VString (lit "a")) = Some false.
Proof.
  intros a1 b1. unfold a1, b1. split.
  - rewrite !group_key_concat. cbn [map concat cell_key].
    rewrite !to_lowercase_ascii by reflexivity. reflexivity.
  - unfold sql_equal, compare_sql. cbn [is_null orb].
    rewrite str_cmp_lower, !to_lowercase_ascii by reflexivity. reflexivity.
Qed.
