(* ===== verification/QoqTable.v ===== *)
(** * QoqTable: source tables and join intersections

    [cfml-qoq/src/table.rs] (tables, column resolution, cell access) and the
    storage half of [cfml-qoq/src/intersection.rs]: an intersection is one
    1-based row number per table, 0 standing for the missing side of an outer
    join; a set of intersections is one flat vector of [width * len] numbers.
    The storage theorem says that this vector implements a list of rows. *)

From stdpp Require Import base list numbers strings.
From S2P Require Import Prelude Text Value.

(** ** Tables *)

Record qoq_table := QoQTable {
  tb_name : str;
  tb_columns : list str;
  tb_data : list (list value);
  tb_row_count : nat;
}.

Definition from_query_data (name : str) (q : query_data) : qoq_table :=
  QoQTable name (q_columns q) (q_data q) (row_count q).

Definition column_index (t : qoq_table) (name : str) : option nat :=
  position (fun c => eq_ignore_ascii_case c name) (tb_columns t).

(** [get]: row 0 is the NULL sentinel; a missing cell reads as NULL. *)
Definition get (t : qoq_table) (row col : nat) : value :=
  match row with
  | 0 => VNull
  | S r => from_option id VNull (c ← tb_data t !! col; c !! r)
  end.

Abbreviation table_set := (list qoq_table).

Definition row_counts (ts : table_set) : list nat := map tb_row_count ts.

(** With a table hint only the first table of that name is consulted; without
    one the first table that has the column wins. *)
Fixpoint resolve_hinted (hint column : str) (ti : nat) (ts : table_set) : option (nat * nat) :=
  match ts with
  | [] => None
  | t :: ts =>
      if eq_ignore_ascii_case (tb_name t) hint
      then (fun ci => (ti, ci)) <$> column_index t column
      else resolve_hinted hint column (S ti) ts
  end.

Fixpoint resolve_first (column : str) (ti : nat) (ts : table_set) : option (nat * nat) :=
  match ts with
  | [] => None
  | t :: ts =>
      match column_index t column with
      | Some ci => Some (ti, ci)
      | None => resolve_first column (S ti) ts
      end
  end.

Definition resolve_column (ts : table_set) (hint : option str) (column : str)
    : option (nat * nat) :=
  match hint with
  | Some h => resolve_hinted h column 0 ts
  | None => resolve_first column 0 ts
  end.

(** [value]: a missing intersection entry reads as row 0; an unknown table
    index panics. *)
Definition value_at {E} (ts : table_set) (inter : list nat) (ti ci : nat) : outcome E value :=
  let row := from_option id 0 (inter !! ti) in
  match ts !! ti with
  | Some t => Ok (get t row ci)
  | None => Panic
  end.

(** What a resolved reference denotes: a column, of the hinted table if there
    is a hint, whose name is the reference's up to ASCII case. *)
Definition column_named (ts : table_set) (hint : option str) (column : str)
    (ti ci : nat) : Prop :=
  exists t c, ts !! ti = Some t /\ tb_columns t !! ci = Some c
    /\ eq_ignore_ascii_case c column = true
    /\ (forall h, hint = Some h -> eq_ignore_ascii_case (tb_name t) h = true).

Lemma column_index_Some t name ci :
  column_index t name = Some ci ->
  exists c, tb_columns t !! ci = Some c /\ eq_ignore_ascii_case c name = true.
Proof. apply position_Some. Qed.

Lemma resolve_hinted_Some hint column ti0 ts ti ci :
  resolve_hinted hint column ti0 ts = Some (ti, ci) ->
  exists i, ti = ti0 + i /\ column_named ts (Some hint) column i ci.
Proof.
  revert ti0; induction ts as [|t ts IH]; intros ti0; simpl; [done|].
  destruct (eq_ignore_ascii_case (tb_name t) hint) eqn:Hn.
  - destruct (column_index t column) as [c|] eqn:Hc; simpl; intros; simplify_eq.
    apply column_index_Some in Hc as (c' & Hc & He).
    exists 0. split; [lia|]. exists t, c'. naive_solver.
  - intros (i & -> & t' & c & H)%IH. exists (S i). split; [lia|]. by exists t', c.
Qed.

Lemma resolve_first_Some column ti0 ts ti ci :
  resolve_first column ti0 ts = Some (ti, ci) ->
  exists i, ti = ti0 + i /\ column_named ts None column i ci.
Proof.
  revert ti0; induction ts as [|t ts IH]; intros ti0; simpl; [done|].
  destruct (column_index t column) as [c|] eqn:Hc.
  - intros; simplify_eq. apply column_index_Some in Hc as (c' & Hc & He).
    exists 0. split; [lia|]. exists t, c'. naive_solver.
  - intros (i & -> & t' & c & H)%IH. exists (S i). split; [lia|]. by exists t', c.
Qed.

Lemma resolve_column_Some ts hint column ti ci :
  resolve_column ts hint column = Some (ti, ci) -> column_named ts hint column ti ci.
Proof.
  destruct hint as [h|]; simpl.
  - by intros (i & -> & H)%resolve_hinted_Some.
  - by intros (i & -> & H)%resolve_first_Some.
Qed.

Lemma resolve_column_lt ts hint column ti ci :
  resolve_column ts hint column = Some (ti, ci) -> ti < length ts.
Proof.
  intros (t & c & Ht & _)%resolve_column_Some. by eapply lookup_lt_Some.
Qed.

Lemma value_at_ok {E} ts inter ti ci :
  ti < length ts -> exists v, @value_at E ts inter ti ci = Ok v.
Proof.
  intros H. unfold value_at. destruct (ts !! ti) eqn:Ht; [eauto|].
  apply lookup_ge_None in Ht. lia.
Qed.

(** ** Intersections *)

Record intersections := Intersections { in_width : nat; in_flat : list nat }.

Definition in_new (width : nat) : intersections := Intersections width [].

Definition in_len (i : intersections) : nat :=
  if in_width i =? 0 then 0 else length (in_flat i) / in_width i.

Definition in_is_empty (i : intersections) : bool :=
  match in_flat i with [] => true | _ => false end.

(** [&flat[i*w .. (i+1)*w]] *)
Definition in_row {E} (x : intersections) (i : nat) : outcome E (list nat) :=
  let w := in_width x in
  if (i + 1) * w <=? length (in_flat x) then Ok (take w (drop (i * w) (in_flat x)))
  else Panic.

Definition push_row (x : intersections) (row : list nat) : intersections :=
  Intersections (in_width x) (in_flat x ++ row).

Definition in_iter (x : intersections) : list (list nat) :=
  if in_width x =? 0 then [] else chunks_exact (in_width x) (in_flat x).

(** [par_chunks_rows]: slices of [rows_per_chunk] rows, each an [InterChunk]
    of the same width. *)
Definition par_chunks_rows (rows_per_chunk : nat) (x : intersections) : list intersections :=
  let w := in_width x `max` 1 in
  let cs := (rows_per_chunk `max` 1) * w in
  map (Intersections (in_width x)) (chunks cs (in_flat x)).

(** The flat storage of a list of rows. *)
Definition of_rows (w : nat) (rows : list (list nat)) : intersections :=
  Intersections w (concat rows).

Definition row_width (w : nat) (rows : list (list nat)) : Prop :=
  Forall (fun r => length r = w) rows.

Section Storage.
Context (w : nat) (Hw : 0 < w).

Lemma in_iter_of_rows rows : row_width w rows -> in_iter (of_rows w rows) = rows.
Proof.
  intros H. unfold in_iter. simpl. destruct (Nat.eqb_spec w 0); [lia|].
  by apply chunks_exact_concat.
Qed.

Lemma in_len_of_rows rows : row_width w rows -> in_len (of_rows w rows) = length rows.
Proof.
  intros H. unfold in_len. simpl. destruct (Nat.eqb_spec w 0); [lia|].
  rewrite (concat_width w) by done. rewrite Nat.mul_comm. apply Nat.div_mul. lia.
Qed.

Lemma in_row_of_rows {E} rows i r :
  row_width w rows -> rows !! i = Some r -> @in_row E (of_rows w rows) i = Ok r.
Proof.
  intros H Hi. unfold in_row. simpl. rewrite (concat_width w) by done.
  assert (i < length rows) by (by eapply lookup_lt_Some).
  destruct (Nat.leb_spec ((i + 1) * w) (w * length rows)); [|nia].
  rewrite (drop_concat_width w) by done. f_equal.
  rewrite (drop_S _ _ _ Hi). simpl. apply take_app_length'.
  eapply (Forall_lookup_1 (fun r => length r = w)) in H; [|done]. done.
Qed.

Lemma push_row_of_rows rows r :
  push_row (of_rows w rows) r = of_rows w (rows ++ [r]).
Proof. unfold push_row, of_rows. by rewrite concat_app, (app_nil_r r : concat [r] = r). Qed.

Lemma par_chunks_of_rows n rows :
  row_width w rows ->
  map in_iter (par_chunks_rows n (of_rows w rows)) = chunks (n `max` 1) rows.
Proof.
  intros H. unfold par_chunks_rows. simpl. rewrite (Nat.max_l w 1) by lia.
  rewrite chunks_rows by (done || lia). rewrite !map_map.
  assert (Hall : Forall (row_width w) (chunks (n `max` 1) rows)).
  { apply Forall_concat. by rewrite chunks_concat by lia. }
  clear H. induction Hall as [|c cs Hc _ IH]; simpl; [done|].
  rewrite IH. f_equal. by apply in_iter_of_rows.
Qed.

Lemma in_is_empty_of_rows rows :
  row_width w rows -> in_is_empty (of_rows w rows) = true <-> rows = [].
Proof.
  intros H. destruct H as [|r rows Hr H]; [done|]. unfold in_is_empty. simpl.
  destruct r; [simpl in *; lia|]. done.
Qed.
End Storage.

(** The flat vector implements a list of rows: for rows of the table count
    [w > 0] iteration, length, emptiness, indexing (a panic exactly past the
    end), appending a row and the slices handed to the parallel workers are
    those of the list. *)
Theorem storage_correct {E} w rows r n :
  0 < w -> row_width w rows -> length r = w ->
  in_iter (of_rows w rows) = rows
  /\ in_len (of_rows w rows) = length rows
  /\ (in_is_empty (of_rows w rows) = true <-> rows = [])
  /\ (forall i, in_row (E := E) (of_rows w rows) i
                = match rows !! i with Some x => Ok x | None => Panic end)
  /\ in_iter (push_row (of_rows w rows) r) = rows ++ [r]
  /\ map in_iter (par_chunks_rows n (of_rows w rows)) = chunks (n `max` 1) rows.
Proof.
  intros Hw Hr Hl. split_and!.
  - by apply in_iter_of_rows.
  - by apply in_len_of_rows.
  - by apply in_is_empty_of_rows.
  - intros i. destruct (rows !! i) as [x|] eqn:Hi; [by apply in_row_of_rows|].
    apply lookup_ge_None in Hi. unfold in_row. simpl. rewrite (concat_width w) by done.
    destruct (Nat.leb_spec ((i + 1) * w) (w * length rows)); [nia|done].
  - rewrite push_row_of_rows. apply in_iter_of_rows; [done|]. apply Forall_app. by repeat constructor.
  - by apply par_chunks_of_rows.
Qed.

(** Column resolution: a found reference names, up to ASCII case, a column of
    a table in scope, the hinted one if there is a hint, and reading it on any
    row never panics; an unhinted reference fails exactly when no table in scope
    has the column. *)
Theorem resolve_column_correct {E} ts hint column :
  (forall ti ci, resolve_column ts hint column = Some (ti, ci) ->
     column_named ts hint column ti ci /\ forall inter, value_at (E := E) ts inter ti ci <> Panic)
  /\ (resolve_column ts None column = None <-> Forall (fun t => column_index t column = None) ts).
Proof.
  split.
  - intros ti ci H. split; [by apply resolve_column_Some|]. intros inter.
    apply resolve_column_lt in H. destruct (value_at_ok (E := E) ts inter ti ci H) as [v ->]. done.
  - simpl. generalize 0 as ti. induction ts as [|t ts IH]; intros ti; simpl; [done|].
    rewrite Forall_cons. destruct (column_index t column); [naive_solver|].
    rewrite IH. naive_solver.
Qed.
