(* ===== verification/QoqJoin.v ===== *)
(** * QoqJoin: the join builder ([build_intersections] of
    [cfml-qoq/src/intersection.rs])

    The builder seeds the intersections with the rows of the first table and
    folds each JOIN in turn.  The [ON] predicate is a closure with its own state
    ([FnMut]), here a computation of [ST].  [joined] is the relational meaning
    of a chain of INNER/CROSS/LEFT/RIGHT/FULL joins, and the builder computes
    exactly that set, each row once. *)

From stdpp Require Import base list numbers strings sets.
From S2P Require Import Prelude Text Value QoqAst QoqTable.
#[local] Open Scope st_scope.

(** Saturating [usize] product. *)
Definition saturating_mul (a b : nat) : Z := (Z.of_nat a * Z.of_nat b) `min` usize_max.

Section Builder.
Context {S : Type} (eval_on : nat -> list nat -> ST S Z bool).

(** The inner loop [for r in 1..=right_rows] over one left intersection; the
    accumulator is the output vector and the [matched] flag. *)
Definition probe_right (k : nat) (inter : list nat) (right_rows : nat) (flat : list nat)
    : ST S Z (list nat * bool) :=
  st_foldM (fun '(flat, matched) r =>
              let scratch := inter ++ [r] in
              let! hit := eval_on k scratch in
              st_ret (if hit : bool then (flat ++ scratch, true) else (flat, matched)))
    (flat, false) (seq 1 right_rows).

Definition join_inner (k : nat) (inters : intersections) (right_rows : nat)
    : ST S Z (list nat) :=
  st_foldM (fun flat inter =>
              let! r := probe_right k inter right_rows flat in
              st_ret r.1)
    [] (in_iter inters).

Definition join_left (k : nat) (inters : intersections) (right_rows : nat)
    : ST S Z (list nat) :=
  st_foldM (fun flat inter =>
              let! r := probe_right k inter right_rows flat in
              st_ret (if r.2 then r.1 else r.1 ++ inter ++ [0]))
    [] (in_iter inters).

Definition join_right (k : nat) (inters : intersections) (right_rows width : nat)
    : ST S Z (list nat) :=
  st_foldM (fun flat r =>
              let! acc :=
                st_foldM (fun '(flat, matched) inter =>
                            let scratch := inter ++ [r] in
                            let! hit := eval_on k scratch in
                            st_ret (if hit : bool then (flat ++ scratch, true)
                                    else (flat, matched)))
                  (flat, false) (in_iter inters) in
              st_ret (if acc.2 then acc.1 else acc.1 ++ replicate width 0 ++ [r]))
    [] (seq 1 right_rows).

(** FULL also keeps [right_matched], a flag per right row. *)
Definition join_full (k : nat) (inters : intersections) (right_rows width : nat)
    : ST S Z (list nat) :=
  let! acc :=
    st_foldM (fun '(flat, right_matched) inter =>
                let! r :=
                  st_foldM (fun '(flat, right_matched, matched) r =>
                              let scratch := inter ++ [r] in
                              let! hit := eval_on k scratch in
                              st_ret (if hit : bool
                                      then (flat ++ scratch, <[r := true]> right_matched, true)
                                      else (flat, right_matched, matched)))
                    (flat, right_matched, false) (seq 1 right_rows) in
                st_ret (let '(flat, right_matched, matched) := r in
                        (if matched : bool then flat else flat ++ inter ++ [0], right_matched)))
      ([], replicate (right_rows + 1) false) (in_iter inters) in
  st_ret (fold_left (fun flat r =>
                       if from_option id false (acc.2 !! r) then flat
                       else flat ++ replicate width 0 ++ [r])
            (seq 1 right_rows) acc.1).

Definition join_step (jt : join_type) (k : nat) (inters : intersections) (right_rows : nat)
    : ST S Z intersections :=
  let width := k + 1 in
  let! flat := match jt with
               | Inner | Cross => join_inner k inters right_rows
               | Left => join_left k inters right_rows
               | Right => join_right k inters right_rows width
               | Full => join_full k inters right_rows width
               end in
  st_ret (Intersections (width + 1) flat).

(** The fold over the join types; [table_rows[k + 1]] panics out of range. *)
Fixpoint join_all (table_rows : list nat) (max_size : Z) (k : nat)
    (join_types : list join_type) (inters : intersections) : ST S Z intersections :=
  match join_types with
  | [] => st_ret inters
  | jt :: rest =>
      match table_rows !! (k + 1) with
      | None => st_panic
      | Some right_rows =>
          let upper_bound := saturating_mul (in_len inters) right_rows in
          if (max_size <? upper_bound)%Z then st_err upper_bound
          else let! next := join_step jt k inters right_rows in
               join_all table_rows max_size (k + 1) rest next
      end
  end.

Definition build_intersections (table_rows : list nat) (join_types : list join_type)
    (max_size : Z) : ST S Z intersections :=
  match table_rows with
  | [] => st_ret (in_new 0)
  | rows0 :: _ =>
      join_all table_rows max_size 0 join_types (Intersections 1 (seq 1 rows0))
  end.
End Builder.

(** ** The same joins on lists of rows, for a predicate without effects *)

Section RowJoins.
Context (p : nat -> list nat -> bool).

Definition right_matches (k rr : nat) (i : list nat) : list (list nat) :=
  map (fun r => i ++ [r]) (List.filter (fun r => p k (i ++ [r])) (seq 1 rr)).

Definition left_matches (k r : nat) (L : list (list nat)) : list (list nat) :=
  map (fun i => i ++ [r]) (List.filter (fun i => p k (i ++ [r])) L).

Definition or_else (l : list (list nat)) (d : list nat) : list (list nat) :=
  match l with [] => [d] | _ => l end.

Definition unmatched_right (k rr : nat) (L : list (list nat)) : list nat :=
  List.filter (fun r => forallb (fun i => negb (p k (i ++ [r]))) L) (seq 1 rr).

Definition join_rows (jt : join_type) (k rr : nat) (L : list (list nat)) : list (list nat) :=
  match jt with
  | Inner | Cross => concat (map (right_matches k rr) L)
  | Left => concat (map (fun i => or_else (right_matches k rr i) (i ++ [0])) L)
  | Right => concat (map (fun r => or_else (left_matches k r L) (replicate (k + 1) 0 ++ [r]))
                       (seq 1 rr))
  | Full => concat (map (fun i => or_else (right_matches k rr i) (i ++ [0])) L)
              ++ map (fun r => replicate (k + 1) 0 ++ [r]) (unmatched_right k rr L)
  end.

(** The relational meaning of one join on a set of left rows. *)
Definition left_outer (jt : join_type) : bool :=
  match jt with Left | Full => true | _ => false end.
Definition right_outer (jt : join_type) : bool :=
  match jt with Right | Full => true | _ => false end.

Definition join_sem (jt : join_type) (k rr : nat) (P : list nat -> Prop) (row : list nat) : Prop :=
  (exists i r, row = i ++ [r] /\ P i /\ 1 <= r <= rr /\ p k row = true)
  \/ (left_outer jt = true /\ exists i, row = i ++ [0] /\ P i /\
        forall r, 1 <= r <= rr -> p k (i ++ [r]) = false)
  \/ (right_outer jt = true /\ exists r, row = replicate (k + 1) 0 ++ [r] /\ 1 <= r <= rr /\
        forall i, P i -> p k (i ++ [r]) = false).

Fixpoint joined_from (k : nat) (joins : list (join_type * nat)) (P : list nat -> Prop)
    : list nat -> Prop :=
  match joins with
  | [] => P
  | (jt, rr) :: rest => joined_from (k + 1) rest (join_sem jt k rr P)
  end.

(** The rows of [T0 JOIN T1 ... JOIN Tn], for the row count of the first
    table and the join type and row count of each following one. *)
Definition joined (rows0 : nat) (joins : list (join_type * nat)) : list nat -> Prop :=
  joined_from 0 joins (fun row => exists r, row = [r] /\ 1 <= r <= rows0).
End RowJoins.

(** ** The builder computes [join_rows] *)

Lemma fold_hits {A} (q : A -> bool) (g : A -> list nat) l flat (m : bool) :
  fold_left (fun '(flat, m) x => if q x then (flat ++ g x, true) else (flat, m)) l (flat, m)
  = (flat ++ concat (map g (List.filter q l)), m || existsb q l).
Proof.
  revert flat m; induction l as [|x l IH]; intros flat m; simpl.
  - by rewrite app_nil_r, orb_false_r.
  - destruct (q x); rewrite IH; simpl; [|done].
    by rewrite <- app_assoc, orb_true_r.
Qed.

Lemma fold_append {A} (g : A -> list nat) l flat :
  fold_left (fun flat x => flat ++ g x) l flat = flat ++ concat (map g l).
Proof.
  revert flat; induction l as [|x l IH]; intros flat; simpl; [by rewrite app_nil_r|].
  by rewrite IH, <- app_assoc.
Qed.

Lemma fold_left_ext {A B} (f g : B -> A -> B) l b :
  (forall b x, x ∈ l -> f b x = g b x) -> fold_left f l b = fold_left g l b.
Proof.
  revert b; induction l as [|x l IH]; intros b H; simpl; [done|].
  rewrite H by left. apply IH. intros; apply H. by right.
Qed.

Lemma st_foldM_pure {S E A B} (f : B -> A -> B) acc l :
  @meq S E _ (st_foldM (fun b a => st_ret (f b a)) acc l) (st_ret (fold_left f l acc)).
Proof.
  revert acc; induction l as [|x l IH]; intros acc; simpl; [done|].
  rewrite st_bind_ret_l. apply IH.
Qed.

Lemma st_foldM_ret {S E A B} (g : B -> A -> ST S E B) (f : B -> A -> B) acc l :
  (forall b x, meq (g b x) (st_ret (f b x))) ->
  meq (st_foldM g acc l) (st_ret (fold_left f l acc)).
Proof.
  intros H. etrans; [|apply st_foldM_pure]. apply st_foldM_cong.
  apply Forall_true. intros x b. apply H.
Qed.

Lemma matches_nil {A} (q : A -> bool) (g : A -> list nat) l :
  existsb q l = match map g (List.filter q l) with [] => false | _ => true end.
Proof.
  induction l as [|x l IH]; simpl; [done|]. by destruct (q x).
Qed.

Lemma or_else_concat l d :
  concat (or_else l d) = match l with [] => d | _ => concat l end.
Proof. destruct l; simpl; [apply app_nil_r|done]. Qed.

Lemma concat_concat_map {A} (g : A -> list (list nat)) l :
  concat (concat (map g l)) = concat (map (fun x => concat (g x)) l).
Proof. induction l; simpl; [done|]. by rewrite concat_app, IHl. Qed.

(** The [right_matched] flags. *)
Definition mark (q : nat -> bool) (l : list nat) (rm : list bool) : list bool :=
  fold_left (fun rm r => if q r then <[r := true]> rm else rm) l rm.

Lemma mark_length q l rm : length (mark q l rm) = length rm.
Proof.
  unfold mark. revert rm; induction l as [|x l IH]; intros rm; simpl; [done|].
  rewrite IH. destruct (q x); [apply length_insert|done].
Qed.

Lemma mark_lookup q l rm r (b : bool) :
  rm !! r = Some b ->
  mark q l rm !! r = Some (b || existsb (fun x => (x =? r) && q x) l).
Proof.
  unfold mark. revert rm b; induction l as [|x l IH]; intros rm b Hb; simpl.
  - by rewrite orb_false_r.
  - assert (r < length rm) by (by eapply lookup_lt_Some).
    destruct (q x).
    + rewrite (IH _ (b || (x =? r))).
      * f_equal. by rewrite andb_true_r, orb_assoc.
      * destruct (Nat.eqb_spec x r) as [->|Hx].
        { rewrite list_lookup_insert_eq by done. by rewrite orb_true_r. }
        rewrite list_lookup_insert_ne by done. by rewrite orb_false_r.
    + rewrite (IH _ b) by done. by rewrite andb_false_r.
Qed.

Lemma fold_mark {A} (q : A -> nat -> bool) rr (L : list A) rm r b :
  1 <= r <= rr -> rm !! r = Some b ->
  fold_left (fun rm i => mark (q i) (seq 1 rr) rm) L rm !! r
  = Some (b || existsb (fun i => q i r) L).
Proof.
  intros Hr. revert rm b; induction L as [|i L IH]; intros rm b Hb; simpl.
  - by rewrite orb_false_r.
  - rewrite (IH _ (b || q i r)); [by rewrite orb_assoc|].
    rewrite (mark_lookup _ _ _ _ b) by done. do 2 f_equal.
    destruct (q i r) eqn:Hq.
    + apply existsb_exists. exists r. split; [apply in_seq; lia|].
      by rewrite Hq, Nat.eqb_refl.
    + apply not_true_iff_false. intros (x & _ & H)%existsb_exists.
      apply andb_true_iff in H as [->%Nat.eqb_eq H]. congruence.
Qed.

Lemma fold_hits_mark (q : nat -> bool) (g : nat -> list nat) l flat rm (m : bool) :
  fold_left (fun '(flat, rm, m) r =>
               if q r then (flat ++ g r, <[r := true]> rm, true) else (flat, rm, m))
    l (flat, rm, m)
  = (flat ++ concat (map g (List.filter q l)), mark q l rm, m || existsb q l).
Proof.
  revert flat rm m; induction l as [|x l IH]; intros flat rm m; simpl.
  - by rewrite app_nil_r, orb_false_r.
  - unfold mark; simpl. fold (mark q l). destruct (q x); rewrite IH; simpl; [|done].
    by rewrite <- app_assoc, orb_true_r.
Qed.

Lemma fold_pair {A B C} (f : B -> A -> B) (g : C -> A -> C) l b c :
  fold_left (fun '(b, c) x => (f b x, g c x)) l (b, c) = (fold_left f l b, fold_left g l c).
Proof. revert b c; induction l; intros; simpl; auto. Qed.

Lemma fold_filter {A} (q : A -> bool) (g : A -> list nat) l flat :
  fold_left (fun flat x => if q x then flat else flat ++ g x) l flat
  = flat ++ concat (map g (List.filter (fun x => negb (q x)) l)).
Proof.
  revert flat; induction l as [|x l IH]; intros flat; simpl; [by rewrite app_nil_r|].
  rewrite IH. destruct (q x); simpl; [done|]. by rewrite <- app_assoc.
Qed.

Lemma existsb_forallb_negb {A} (q : A -> bool) l :
  negb (existsb q l) = forallb (fun x => negb (q x)) l.
Proof. induction l; simpl; [done|]. by rewrite negb_orb, IHl. Qed.

Section BuilderPure.
Context {S : Type} (p : nat -> list nat -> bool).
Let ev : nat -> list nat -> ST S Z bool := fun k c => st_ret (p k c).

Lemma probe_right_pure k i rr flat :
  meq (probe_right ev k i rr flat)
      (st_ret (flat ++ concat (right_matches p k rr i),
               match right_matches p k rr i with [] => false | _ => true end)).
Proof.
  unfold probe_right. etrans.
  { apply (st_foldM_ret _ (fun '(flat, m) r =>
      if p k (i ++ [r]) then (flat ++ i ++ [r], true) else (flat, m))).
    intros [f m] r. unfold ev. by rewrite st_bind_ret_l. }
  rewrite (fold_hits (fun r => p k (i ++ [r])) (fun r => i ++ [r])).
  by rewrite (matches_nil _ (fun r => i ++ [r])).
Qed.

Lemma join_inner_pure k I rr :
  meq (join_inner ev k I rr) (st_ret (concat (join_rows p Inner k rr (in_iter I)))).
Proof.
  unfold join_inner. etrans.
  { apply (st_foldM_ret _ (fun flat i => flat ++ concat (right_matches p k rr i))).
    intros f i. by rewrite probe_right_pure, st_bind_ret_l. }
  rewrite fold_append. simpl. by rewrite concat_concat_map.
Qed.

Lemma join_left_pure k I rr :
  meq (join_left ev k I rr) (st_ret (concat (join_rows p Left k rr (in_iter I)))).
Proof.
  unfold join_left. etrans.
  { apply (st_foldM_ret _ (fun flat i =>
      flat ++ concat (or_else (right_matches p k rr i) (i ++ [0])))).
    intros f i. rewrite probe_right_pure, st_bind_ret_l, or_else_concat.
    destruct (right_matches p k rr i); simpl; [|done]. by rewrite app_nil_r. }
  rewrite fold_append. simpl. by rewrite concat_concat_map.
Qed.

Lemma join_right_pure k I rr :
  meq (join_right ev k I rr (k + 1)) (st_ret (concat (join_rows p Right k rr (in_iter I)))).
Proof.
  unfold join_right. etrans.
  { apply (st_foldM_ret _ (fun flat r =>
      flat ++ concat (or_else (left_matches p k r (in_iter I)) (replicate (k + 1) 0 ++ [r])))).
    intros f r. rewrite (st_foldM_ret _ (fun '(flat, m) i =>
        if p k (i ++ [r]) then (flat ++ i ++ [r], true) else (flat, m))).
    2:{ intros [f' m] i. unfold ev. by rewrite st_bind_ret_l. }
    rewrite (fold_hits (fun i => p k (i ++ [r])) (fun i => i ++ [r])), st_bind_ret_l.
    rewrite or_else_concat, (matches_nil _ (fun i => i ++ [r])). unfold left_matches. simpl.
    destruct (map _ _); simpl; [|done]. by rewrite app_nil_r. }
  rewrite fold_append. simpl. by rewrite concat_concat_map.
Qed.

(** One left row of a FULL join. *)
Lemma full_row_pure k i rr flat rm :
  meq (st_foldM (fun '(flat, rm, m) r =>
                   let! hit := ev k (i ++ [r]) in
                   st_ret (if hit : bool then (flat ++ i ++ [r], <[r := true]> rm, true)
                           else (flat, rm, m)))
         (flat, rm, false) (seq 1 rr))
      (st_ret (flat ++ concat (right_matches p k rr i),
               mark (fun r => p k (i ++ [r])) (seq 1 rr) rm,
               match right_matches p k rr i with [] => false | _ => true end)).
Proof.
  etrans.
  { apply (st_foldM_ret _ (fun '(flat, rm, m) r =>
      if p k (i ++ [r]) then (flat ++ i ++ [r], <[r := true]> rm, true) else (flat, rm, m))).
    intros [[f rm'] m] r. unfold ev. by rewrite st_bind_ret_l. }
  rewrite (fold_hits_mark (fun r => p k (i ++ [r])) (fun r => i ++ [r])).
  by rewrite (matches_nil _ (fun r => i ++ [r])).
Qed.

Lemma join_full_pure k I rr :
  meq (join_full ev k I rr (k + 1)) (st_ret (concat (join_rows p Full k rr (in_iter I)))).
Proof.
  unfold join_full. rewrite (st_foldM_ret _ (fun '(flat, rm) i =>
    (flat ++ concat (or_else (right_matches p k rr i) (i ++ [0])),
     mark (fun r => p k (i ++ [r])) (seq 1 rr) rm))).
  2:{ intros [f rm] i. rewrite full_row_pure, st_bind_ret_l, or_else_concat.
      destruct (right_matches p k rr i); simpl; [|done]. by rewrite app_nil_r. }
  rewrite fold_pair, st_bind_ret_l. unfold fst, snd. rewrite fold_append.
  rewrite (fold_left_ext _ (fun flat r =>
    if existsb (fun i => p k (i ++ [r])) (in_iter I) then flat
    else flat ++ replicate (k + 1) 0 ++ [r])).
  2:{ intros b r Hr%list_elem_of_In%in_seq.
      rewrite (fold_mark (fun i r => p k (i ++ [r])) _ _ _ _ false) by
        (lia || (apply lookup_replicate; lia)). done. }
  rewrite fold_filter. simpl. rewrite concat_app, concat_concat_map.
  unfold unmatched_right. erewrite (List.filter_ext _ _); [reflexivity|].
  intros r. apply existsb_forallb_negb.
Qed.

Lemma join_step_pure jt k I rr :
  meq (join_step ev jt k I rr)
      (st_ret (of_rows (k + 1 + 1) (join_rows p jt k rr (in_iter I)))).
Proof.
  unfold join_step.
  destruct jt;
    rewrite ?join_inner_pure, ?join_left_pure, ?join_right_pure, ?join_full_pure;
    by rewrite st_bind_ret_l.
Qed.
End BuilderPure.

(** ** [join_rows] computes [join_sem], without duplicates *)

Lemma elem_of_or_else l d row :
  row ∈ or_else l d <-> row ∈ l \/ (l = [] /\ row = d).
Proof. destruct l; simpl; set_solver. Qed.

Lemma elem_of_concat_map {A B} (f : A -> list B) l y :
  y ∈ concat (map f l) <-> exists x, x ∈ l /\ y ∈ f x.
Proof.
  induction l as [|x l IH]; simpl; [set_solver|].
  rewrite elem_of_app, IH. set_solver.
Qed.

Lemma elem_of_filterb {A} (q : A -> bool) l x :
  x ∈ List.filter q l <-> x ∈ l /\ q x = true.
Proof. rewrite !list_elem_of_In. apply filter_In. Qed.

Lemma elem_of_seq1 r rr : r ∈ seq 1 rr <-> 1 <= r <= rr.
Proof. rewrite list_elem_of_In, in_seq. lia. Qed.

Lemma NoDup_concat_map {A B} (f : A -> list B) l :
  NoDup l -> (forall x, x ∈ l -> NoDup (f x)) ->
  (forall x1 x2 y, x1 ∈ l -> x2 ∈ l -> y ∈ f x1 -> y ∈ f x2 -> x1 = x2) ->
  NoDup (concat (map f l)).
Proof.
  induction 1 as [|x l Hx Hl IH]; intros Hf Hd; simpl; [constructor|].
  apply NoDup_app. split; [apply Hf; left|]. split.
  - intros y Hy1 (x' & Hx' & Hy2)%elem_of_concat_map.
    apply Hx. by rewrite (Hd x x' y) by (done || by constructor).
  - apply IH; intros; [apply Hf|eapply Hd]; (by constructor) || done.
Qed.

Lemma NoDup_filterb {A} (q : A -> bool) (l : list A) : NoDup l -> NoDup (List.filter q l).
Proof.
  induction 1; simpl; [constructor|]. destruct (q x); [|done].
  constructor; [|done]. rewrite elem_of_filterb. naive_solver.
Qed.

Lemma NoDup_seq1 rr : NoDup (seq 1 rr).
Proof. apply NoDup_ListNoDup, seq_NoDup. Qed.

Section RowJoinFacts.
Context (p : nat -> list nat -> bool).

Lemma elem_of_right_matches k rr i row :
  row ∈ right_matches p k rr i <-> exists r, row = i ++ [r] /\ 1 <= r <= rr /\ p k row = true.
Proof.
  unfold right_matches. rewrite list_elem_of_In, in_map_iff.
  setoid_rewrite <- list_elem_of_In. setoid_rewrite elem_of_filterb.
  setoid_rewrite elem_of_seq1. naive_solver.
Qed.

Lemma elem_of_left_matches k r L row :
  row ∈ left_matches p k r L <-> exists i, row = i ++ [r] /\ i ∈ L /\ p k row = true.
Proof.
  unfold left_matches. rewrite list_elem_of_In, in_map_iff.
  setoid_rewrite <- list_elem_of_In. setoid_rewrite elem_of_filterb. naive_solver.
Qed.

Lemma right_matches_nil k rr i :
  right_matches p k rr i = [] <-> forall r, 1 <= r <= rr -> p k (i ++ [r]) = false.
Proof.
  split.
  - intros Hn r Hr. apply not_true_iff_false. intros Hp.
    apply (not_elem_of_nil (i ++ [r])). rewrite <- Hn. apply elem_of_right_matches. eauto.
  - intros H. destruct (right_matches p k rr i) as [|row l] eqn:Hl; [done|].
    assert (row ∈ right_matches p k rr i) as (r & -> & Hr & Hp)%elem_of_right_matches
      by (rewrite Hl; left). rewrite H in Hp; done.
Qed.

Lemma left_matches_nil k r L :
  left_matches p k r L = [] <-> forall i, i ∈ L -> p k (i ++ [r]) = false.
Proof.
  split.
  - intros Hn i Hi. apply not_true_iff_false. intros Hp.
    apply (not_elem_of_nil (i ++ [r])). rewrite <- Hn. apply elem_of_left_matches. eauto.
  - intros H. destruct (left_matches p k r L) as [|row l] eqn:Hl; [done|].
    assert (row ∈ left_matches p k r L) as (i & -> & Hr & Hp)%elem_of_left_matches
      by (rewrite Hl; left). rewrite H in Hp; done.
Qed.

Lemma elem_of_unmatched_right k rr L r :
  r ∈ unmatched_right p k rr L <->
  1 <= r <= rr /\ forall i, i ∈ L -> p k (i ++ [r]) = false.
Proof.
  unfold unmatched_right. rewrite elem_of_filterb, elem_of_seq1, forallb_forall.
  setoid_rewrite list_elem_of_In. setoid_rewrite negb_true_iff. done.
Qed.

Lemma elem_of_left_part k rr L row :
  row ∈ concat (map (fun i => or_else (right_matches p k rr i) (i ++ [0])) L) <->
  (exists i r, row = i ++ [r] /\ i ∈ L /\ 1 <= r <= rr /\ p k row = true)
  \/ (exists i, row = i ++ [0] /\ i ∈ L /\ forall r, 1 <= r <= rr -> p k (i ++ [r]) = false).
Proof.
  rewrite elem_of_concat_map. setoid_rewrite elem_of_or_else.
  setoid_rewrite elem_of_right_matches. setoid_rewrite right_matches_nil. naive_solver.
Qed.

Lemma join_rows_sem jt k rr L row :
  row ∈ join_rows p jt k rr L <-> join_sem p jt k rr (fun i => i ∈ L) row.
Proof.
  unfold join_sem. destruct jt; simpl.
  1, 5: rewrite elem_of_concat_map; setoid_rewrite elem_of_right_matches; naive_solver.
  - rewrite elem_of_left_part. naive_solver.
  - rewrite elem_of_concat_map. setoid_rewrite elem_of_or_else.
    setoid_rewrite elem_of_left_matches. setoid_rewrite left_matches_nil.
    setoid_rewrite elem_of_seq1. naive_solver.
  - rewrite elem_of_app, elem_of_left_part, (list_elem_of_In (map _ _) row), in_map_iff.
    setoid_rewrite <- list_elem_of_In. setoid_rewrite elem_of_unmatched_right. naive_solver.
Qed.

Lemma NoDup_right_matches k rr i : NoDup (right_matches p k rr i).
Proof.
  unfold right_matches. apply NoDup_fmap_2_strong; [by intros x y _ _ [_ ?]%app_inj_tail|].
  apply NoDup_filterb, NoDup_seq1.
Qed.

Lemma NoDup_left_part k rr L :
  NoDup L -> NoDup (concat (map (fun i => or_else (right_matches p k rr i) (i ++ [0])) L)).
Proof.
  intros HL. apply NoDup_concat_map; [done| |].
  - intros i _. generalize (NoDup_right_matches k rr i).
    destruct (right_matches p k rr i); simpl; [intros; apply NoDup_singleton|done].
  - intros i1 i2 row _ _ H1 H2.
    assert (Hpre : forall i, row ∈ or_else (right_matches p k rr i) (i ++ [0]) ->
              exists r, row = i ++ [r]).
    { intros i [(r & -> & _)%elem_of_right_matches|[_ ->]]%elem_of_or_else; eauto. }
    apply Hpre in H1 as [r1 ->]. apply Hpre in H2 as [r2 H2].
    by apply app_inj_tail in H2 as [-> _].
Qed.

Lemma NoDup_join_rows jt k rr L : NoDup L -> NoDup (join_rows p jt k rr L).
Proof.
  intros HL. destruct jt; simpl.
  1, 5: apply NoDup_concat_map; [done|intros; apply NoDup_right_matches|];
    intros i1 i2 row _ _ (r1 & -> & _)%elem_of_right_matches (r2 & H & _)%elem_of_right_matches;
    by apply app_inj_tail in H as [-> _].
  - by apply NoDup_left_part.
  - apply NoDup_concat_map; [apply NoDup_seq1| |].
    + intros r _. assert (H : NoDup (left_matches p k r L)).
      { unfold left_matches. apply NoDup_fmap_2_strong; [by intros x y _ _ [? _]%app_inj_tail|].
        by apply NoDup_filterb. }
      destruct (left_matches p k r L); simpl; [apply NoDup_singleton|done].
    + intros r1 r2 row _ _ H1 H2.
      assert (Hl : forall r, row ∈ or_else (left_matches p k r L) (replicate (k + 1) 0 ++ [r]) ->
                exists i, row = i ++ [r]).
      { intros r [(i & -> & _)%elem_of_left_matches|[_ ->]]%elem_of_or_else; eauto. }
      apply Hl in H1 as [i1 ->]. apply Hl in H2 as [i2 H2].
      by apply app_inj_tail in H2 as [_ ->].
  - apply NoDup_app. split; [by apply NoDup_left_part|]. split.
    + intros row Hrow (r & <- & Hr)%list_elem_of_In%in_map_iff.
      apply list_elem_of_In, elem_of_unmatched_right in Hr as [Hr Hn].
      apply elem_of_left_part in Hrow as [(i & r' & He & Hi & _ & Hp)|(i & He & _)].
      * apply app_inj_tail in He as [<- <-]. rewrite Hn in Hp; done.
      * apply app_inj_tail in He as [_ ->]. lia.
    + apply NoDup_fmap_2_strong; [by intros x y _ _ [_ ?]%app_inj_tail|].
      apply NoDup_filterb, NoDup_seq1.
Qed.

Lemma join_rows_width jt k rr L :
  row_width (k + 1) L -> row_width (k + 1 + 1) (join_rows p jt k rr L).
Proof.
  unfold row_width. rewrite !Forall_forall. intros HL row Hr.
  apply join_rows_sem in Hr as [(i & r & -> & Hi & _)|[(_ & i & -> & Hi & _)|(_ & r & -> & _)]];
    rewrite length_app; simpl; rewrite ?length_replicate, ?HL by done; done.
Qed.

#[global] Instance join_sem_proper jt k rr :
  Proper (pointwise_relation _ iff ==> eq ==> iff) (join_sem p jt k rr).
Proof. intros P Q H row ? <-. unfold join_sem. by setoid_rewrite H. Qed.

#[global] Instance joined_from_proper k joins :
  Proper (pointwise_relation _ iff ==> eq ==> iff) (joined_from p k joins).
Proof.
  revert k; induction joins as [|[jt rr] joins IH]; intros k P Q H row ? <-; simpl; [apply H|].
  apply IH; [|done]. intros r. by rewrite H.
Qed.
End RowJoinFacts.

(** ** The whole chain *)

Lemma concat_singletons {A} (l : list A) : concat (map (fun x => [x]) l) = l.
Proof. induction l; simpl; by f_equal. Qed.

Section Chain.
Context {S : Type} (p : nat -> list nat -> bool).
Let ev : nat -> list nat -> ST S Z bool := fun k c => st_ret (p k c).

(** What [join_all] returns from [L]. *)
Definition chain_post (k : nat) (joins : list (join_type * nat)) (L : list (list nat))
    (max_size : Z) (o : outcome Z intersections) : Prop :=
  match o with
  | Ok out => exists L', out = of_rows (k + 1 + length joins) L'
      /\ row_width (k + 1 + length joins) L' /\ NoDup L'
      /\ forall row, row ∈ L' <-> joined_from p k joins (fun i => i ∈ L) row
  | Err b => (max_size < b)%Z
  | Panic => False
  end.

Lemma join_all_spec counts max_size k jts L s :
  row_width (k + 1) L -> NoDup L -> k + length jts < length counts ->
  exists o, join_all ev counts max_size k jts (of_rows (k + 1) L) s = (s, o)
    /\ chain_post k (zip jts (drop (k + 1) counts)) L max_size o.
Proof.
  revert k L; induction jts as [|jt jts IH]; intros k L HL HN Hlen; simpl in *.
  { exists (Ok (of_rows (k + 1) L)). split; [done|]. simpl.
    exists L. rewrite Nat.add_0_r. done. }
  destruct (lookup_lt_is_Some_2 counts (k + 1)) as [rr Hrr]; [lia|].
  rewrite Hrr. rewrite (drop_S _ _ _ Hrr).
  destruct (Z.ltb_spec max_size (saturating_mul (in_len (of_rows (k + 1) L)) rr)).
  { by eexists. }
  rewrite (st_bind_cong _ _ _ _ (join_step_pure p jt k _ rr) (fun a => reflexivity _) s).
  rewrite st_bind_ret_l, in_iter_of_rows by (done || lia).
  destruct (IH (k + 1) (join_rows p jt k rr L)) as (o & Ho & Hpost);
    [by apply join_rows_width|by apply NoDup_join_rows|lia|].
  rewrite Ho. exists o. split; [done|].
  replace (Datatypes.S (k + 1)) with (k + 1 + 1) by lia.
  destruct o as [out| |]; simpl in *; [|done..].
  destruct Hpost as (L' & -> & Hw & HN' & Hsem).
  exists L'. replace (k + 1 + Datatypes.S (length (zip jts (drop (k + 1 + 1) counts))))
    with (k + 1 + 1 + length (zip jts (drop (k + 1 + 1) counts))) by lia.
  split_and!; [done..|]. intros row. rewrite Hsem.
  apply joined_from_proper; [|done]. intros r. apply join_rows_sem.
Qed.

Lemma zip_length_le {A B} (l : list A) (l' : list B) :
  length l <= length l' -> length (zip l l') = length l.
Proof. revert l'; induction l; intros [|]; simpl; intros; auto with lia. Qed.

Lemma build_intersections_spec rows0 counts jts max_size s :
  length jts = length counts ->
  exists o, build_intersections ev (rows0 :: counts) jts max_size s = (s, o)
    /\ match o with
       | Ok out => in_width out = length (rows0 :: counts)
           /\ out = of_rows (in_width out) (in_iter out)
           /\ NoDup (in_iter out)
           /\ forall row, row ∈ in_iter out <-> joined p rows0 (zip jts counts) row
       | Err b => (max_size < b)%Z
       | Panic => False
       end.
Proof.
  intros Hlen. unfold build_intersections.
  assert (Hseed : Intersections 1 (seq 1 rows0) = of_rows (0 + 1) (map (fun r => [r]) (seq 1 rows0))).
  { unfold of_rows. by rewrite concat_singletons. }
  rewrite Hseed.
  destruct (join_all_spec (rows0 :: counts) max_size 0 jts (map (fun r => [r]) (seq 1 rows0)) s)
    as (o & Ho & Hpost).
  - apply Forall_forall. intros r (x & <- & _)%list_elem_of_In%in_map_iff. done.
  - apply NoDup_fmap_2_strong; [by intros x y _ _ [= ?]|apply NoDup_seq1].
  - simpl. lia.
  - rewrite Ho. exists o. split; [done|]. destruct o as [out| |]; simpl in *; [|done..].
    destruct Hpost as (L' & -> & Hw & HN & Hsem).
    rewrite drop_0 in *. rewrite zip_length_le in * by lia.
    change (in_iter _) with (in_iter (of_rows (0 + 1 + length jts) L')).
    rewrite in_iter_of_rows by (done || lia). simpl.
    split_and!; [lia|done|done|]. intros row. rewrite Hsem. unfold joined.
    apply joined_from_proper; [|done]. intros r. rewrite list_elem_of_In, in_map_iff.
    setoid_rewrite <- list_elem_of_In. setoid_rewrite elem_of_seq1. naive_solver.
Qed.
End Chain.

(** C19. For any chain of joins whose [ON] predicates are decided by [p], the
    builder returns the rows of the relational meaning of the chain, each
    exactly once, in flat storage of the width of the FROM list; otherwise it
    refuses with a size above the limit.  It never panics and performs no other
    effect. *)
Theorem build_intersections_correct {S} (p : nat -> list nat -> bool) rows0 counts jts
    max_size (s : S) :
  length jts = length counts ->
  exists o,
    build_intersections (fun k c => st_ret (p k c)) (rows0 :: counts) jts max_size s = (s, o)
    /\ match o with
       | Ok out => in_width out = length (rows0 :: counts)
           /\ out = of_rows (in_width out) (in_iter out)
           /\ NoDup (in_iter out)
           /\ forall row, row ∈ in_iter out <-> joined p rows0 (zip jts counts) row
       | Err b => (max_size < b)%Z
       | Panic => False
       end.
Proof. apply build_intersections_spec. Qed.

(** The size guard of a two-table join is exact: the join is built when the
    product of the row counts is at most the limit and refused otherwise,
    whatever the join type and predicate. *)
Theorem two_table_guard {S} (p : nat -> list nat -> bool) rows0 rows1 jt max_size (s : S) :
  (0 <= max_size < usize_max)%Z ->
  (exists out, build_intersections (fun k c => st_ret (p k c)) [rows0; rows1] [jt] max_size s
             = (s, Ok out))
  <-> (Z.of_nat rows0 * Z.of_nat rows1 <= max_size)%Z.
Proof.
  intros Hmax. unfold build_intersections, join_all. simpl.
  assert (Hl : in_len (Intersections 1 (seq 1 rows0)) = rows0).
  { unfold in_len. simpl. rewrite length_seq. apply Nat.div_1_r. }
  rewrite Hl. unfold saturating_mul.
  destruct (Z.ltb_spec max_size ((Z.of_nat rows0 * Z.of_nat rows1) `min` usize_max)).
  - split; [by intros [out [=]]|lia].
  - split; [lia|]. intros _. eexists.
    rewrite (st_bind_cong _ _ _ _ (join_step_pure p jt 0 _ rows1) (fun a => reflexivity _) s).
    by rewrite st_bind_ret_l.
Qed.
