(* ===== verification/QoqFunctions.v ===== *)
(** * QoqFunctions: scalar functions, CAST and the function registry

    [cfml-qoq/src/functions.rs] and [cfml-qoq/src/function.rs].  The
    transcendental functions of the platform's C library are the parameter
    [Libm]; registered functions are values of the registry. *)

From stdpp Require Import base list numbers strings gmap.
From Stdlib Require Import Floats.SpecFloat.
From S2P Require Import Prelude Text Float64 Value QoqCompare.

(** The functions [std] forwards to the platform. *)
Class Libm := {
  f64_exp : f64 -> f64;
  f64_sin : f64 -> f64;
  f64_cos : f64 -> f64;
  f64_tan : f64 -> f64;
  f64_powf : f64 -> f64 -> f64;
  f64_powi : f64 -> Z -> f64;
}.

Definition f64_pi : f64 := S754_finite false 7074237752028440 (-51).

(** [as i32] *)
Definition wrap_i32 (z : Z) : Z := ((z + 2 ^ 31) `mod` 2 ^ 32 - 2 ^ 31)%Z.

(** [n as usize] positions used to cut a text of characters. *)
Definition clamp (n : Z) (s : str) : nat :=
  Z.to_nat ((n `max` 0) `min` Z.of_nat (length s))%Z.

Definition nine_e15 : f64 := f64_of_Z 9000000000000000.

(** ** Text functions *)

Definition str_left (s : str) (n : Z) : value := VString (take (clamp n s) s).

Definition str_right (s : str) (n : Z) : value :=
  VString (drop (length s - clamp n s) s).

Definition str_mid (s : str) (start : Z) (len : option Z) : value :=
  let start0 := if (start <? 1)%Z then 0%Z else (start - 1)%Z in
  if (Z.of_nat (length s) <=? start0)%Z then VString []
  else let rest := drop (Z.to_nat start0) s in
       VString (match len with
                | Some l => if (0 <=? l)%Z then take (clamp l rest) rest else rest
                | None => rest
                end).

(** [str::starts_with] on characters. *)
Fixpoint strip_prefix (pre s : str) : option str :=
  match pre, s with
  | [], _ => Some s
  | a :: pre, b :: s => if (a =? b)%N then strip_prefix pre s else None
  | _ :: _, [] => None
  end.

(** [str::replace]: left to right, matches do not overlap; an empty needle
    matches at every boundary. *)
Fixpoint replace_go (fuel : nat) (from to s : str) : str :=
  match fuel with
  | 0 => s
  | S fuel =>
      match strip_prefix from s, s with
      | Some rest, _ => to ++ replace_go fuel from to rest
      | None, c :: s' => c :: replace_go fuel from to s'
      | None, [] => []
      end
  end.

Definition str_replace (s from to : str) : str :=
  match from with
  | [] => to ++ concat (map (fun c => c :: to) s)
  | _ => replace_go (length s) from to s
  end.

Section Functions.
Context {U : Unicode} {D : DateLib} {L : Libm}.

Definition char_ci_eq (a b : char) : bool :=
  (a =? b)%N || bool_decide (uc_lower a = uc_lower b).

(** [(0..fc.len()).all(|k| char_ci_eq(sc[i + k], fc[k]))] at the head of [s],
    within bounds; the rest of [s] after the match. *)
Fixpoint strip_prefix_ci (pre s : str) : option str :=
  match pre, s with
  | [], _ => Some s
  | a :: pre, b :: s => if char_ci_eq b a then strip_prefix_ci pre s else None
  | _ :: _, [] => None
  end.

Fixpoint replace_nocase_go (fuel : nat) (from to s : str) : str :=
  match fuel with
  | 0 => []
  | S fuel =>
      match s with
      | [] => []
      | c :: s' =>
          match strip_prefix_ci from s with
          | Some rest => to ++ replace_nocase_go fuel from to rest
          | None => c :: replace_nocase_go fuel from to s'
          end
      end
  end.

Definition replace_nocase (s from to : str) : str :=
  match from with
  | [] => s
  | _ => replace_nocase_go (length s) from to s
  end.

(** ** Numeric functions *)

Definition num_result (n : f64) : value :=
  if f64_is_finite n && f64_fract_is_zero n && f64_ltb (f64_abs n) nine_e15
  then VInt (f64_as_i64 n) else VDouble n.

Definition sign (n : f64) : Z :=
  if f64_ltb f64_zero n then 1%Z else if f64_ltb n f64_zero then (-1)%Z else 0%Z.

Definition round (n : f64) (places : Z) : value :=
  let factor := f64_powi (f64_of_Z 10) (wrap_i32 places) in
  let r := f64_div (f64_round (f64_mul n factor)) factor in
  if (places <=? 0)%Z then num_result r else VDouble r.

(** [x % y] on [i64]: the remainder of [i64::MIN] by [-1] overflows and
    panics in every build profile. *)
Definition i64_rem {E} (x y : Z) : outcome E Z :=
  if (x =? i64_min)%Z && (y =? -1)%Z then Panic else Ok (Z.rem x y).

Definition modulo (a b : value) : outcome cfml_error value :=
  match a, b with
  | VInt x, VInt y =>
      if (y =? 0)%Z then Err (runtime (lit "QoQ: modulo by zero"))
      else omapo VInt (i64_rem x y)
  | _, _ =>
      let x := from_option id f64_zero (to_f64 a) in
      let y := from_option id f64_zero (to_f64 b) in
      if f64_eqb y f64_zero then Err (runtime (lit "QoQ: modulo by zero"))
      else Ok (num_result (f64_rem x y))
  end.

Definition arg_str (args : list value) (i : nat) : str :=
  from_option as_string [] (args !! i).
Definition arg_f64 (args : list value) (i : nat) : f64 :=
  from_option id f64_zero (v ← args !! i; to_f64 v).
Definition arg_i64 (args : list value) (i : nat) : option Z := v ← args !! i; to_i64 v.

Definition or_null (o : option value) : value := from_option id VNull o.

(** ** Dispatch *)

Definition one_of (names : list string) (n : str) : bool :=
  existsb (fun k => bool_decide (n = lit k)) names.

(** [call_scalar]: [None] when the name is not a built-in. *)
Definition call_scalar (name : str) (args : list value)
    : option (outcome cfml_error value) :=
  let n := to_lowercase name in
  let nm k := one_of k n in
  let a0 := arg_str args 0 in
  if nm ["upper"; "ucase"] then Some (Ok (VString (to_uppercase a0)))
  else if nm ["lower"; "lcase"] then Some (Ok (VString (to_lowercase a0)))
  else if nm ["trim"] then Some (Ok (VString (trim a0)))
  else if nm ["ltrim"] then Some (Ok (VString (trim_start a0)))
  else if nm ["rtrim"] then Some (Ok (VString (trim_end a0)))
  else if nm ["len"; "length"] then Some (Ok (VInt (Z.of_nat (length a0))))
  else if nm ["left"] then Some (Ok (str_left a0 (from_option id 0%Z (arg_i64 args 1))))
  else if nm ["right"] then Some (Ok (str_right a0 (from_option id 0%Z (arg_i64 args 1))))
  else if nm ["mid"; "substring"; "substr"] then
    Some (Ok (str_mid a0 (from_option id 1%Z (arg_i64 args 1)) (arg_i64 args 2)))
  else if nm ["replace"] then
    Some (Ok (VString (str_replace a0 (arg_str args 1) (arg_str args 2))))
  else if nm ["replacenocase"] then
    Some (Ok (VString (replace_nocase a0 (arg_str args 1) (arg_str args 2))))
  else if nm ["concat"] then
    Some (Ok (VString (concat (map as_string (List.filter (fun v => negb (is_null v)) args)))))
  else if nm ["abs"] then
    Some (Ok (match args with
              | VInt i :: _ => VInt (wrap_i64 (Z.abs i))
              | v :: _ => num_result (f64_abs (from_option id f64_zero (to_f64 v)))
              | [] => VNull
              end))
  else if nm ["ceiling"; "ceil"] then Some (Ok (num_result (f64_ceil (arg_f64 args 0))))
  else if nm ["floor"] then Some (Ok (num_result (f64_floor (arg_f64 args 0))))
  else if nm ["sign"; "sgn"] then Some (Ok (VInt (sign (arg_f64 args 0))))
  else if nm ["round"] then
    Some (Ok (round (arg_f64 args 0) (from_option id 0%Z (arg_i64 args 1))))
  else if nm ["mod"] then
    Some (match args with a :: b :: _ => modulo a b | _ => Ok VNull end)
  else if nm ["sqrt"] then Some (Ok (VDouble (f64_sqrt (arg_f64 args 0))))
  else if nm ["exp"] then Some (Ok (VDouble (f64_exp (arg_f64 args 0))))
  else if nm ["sin"] then Some (Ok (VDouble (f64_sin (arg_f64 args 0))))
  else if nm ["cos"] then Some (Ok (VDouble (f64_cos (arg_f64 args 0))))
  else if nm ["tan"] then Some (Ok (VDouble (f64_tan (arg_f64 args 0))))
  else if nm ["power"; "pow"] then
    Some (Ok (VDouble (f64_powf (arg_f64 args 0) (arg_f64 args 1))))
  else if nm ["pi"] then Some (Ok (VDouble f64_pi))
  else if nm ["coalesce"] then
    Some (Ok (or_null (head (List.filter (fun v => negb (is_null v)) args))))
  else if nm ["isnull"] then
    Some (Ok (match args with
              | [] | VNull :: _ => or_null (args !! 1)
              | v :: _ => v
              end))
  else if nm ["nullif"] then
    Some (Ok (match args with
              | a :: b :: _ =>
                  if bool_decide (sql_equal a b = Some true) then VNull else a
              | [a] => a
              | [] => VNull
              end))
  else if nm ["iif"] then
    Some (Ok (if from_option is_true false (head args) then or_null (args !! 1)
              else or_null (args !! 2)))
  else None.

(** [cast_value]; [ty] is already lower case. *)
Definition cast_value (v : value) (ty : str) : outcome cfml_error value :=
  let nm k := one_of k ty in
  let cannot := runtime (lit "QoQ: cannot CAST '" ++ as_string v ++ lit "' to " ++ ty) in
  if is_null v then Ok VNull
  else if nm ["int"; "integer"; "bigint"; "smallint"; "tinyint"] then
    match to_i64 v with Some i => Ok (VInt i) | None => Err cannot end
  else if nm ["double"; "float"; "real"; "decimal"; "numeric"; "number"; "money"] then
    match to_f64 v with Some f => Ok (VDouble f) | None => Err cannot end
  else if nm ["bit"; "boolean"; "bool"] then Ok (VBool (is_true v))
  else if nm ["varchar"; "char"; "nvarchar"; "nchar"; "string"; "text"; "clob"] then
    Ok (VString (as_string v))
  else Ok v.
End Functions.

(** ** The registry *)

Inductive qoq_fn_kind := Scalar | Aggregate.

#[global] Instance qoq_fn_kind_eq_dec : EqDecision qoq_fn_kind.
Proof. solve_decision. Defined.

(** [W] is the state of the program around the engine: an extension's function
    may read or change it, a native [fn] pointer is given its arguments only. *)
Section Registry.
Context {U : Unicode} {W : Type}.

Definition qoq_fn : Type := list value -> outcome cfml_error value.
Definition dynamic_qoq_fn : Type := list value -> ST W cfml_error value.

Record registry := QoQFunctionRegistry {
  rg_scalars : gmap str qoq_fn;
  rg_aggregates : gmap str qoq_fn;
  rg_customs : gmap str (value * qoq_fn_kind);
  rg_dynamics : gmap str (dynamic_qoq_fn * qoq_fn_kind);
}.

Definition registry_new : registry := QoQFunctionRegistry ∅ ∅ ∅ ∅.

Definition register_native (r : registry) (name : str) (f : qoq_fn) (kind : qoq_fn_kind)
    : registry :=
  let key := to_lowercase name in
  match kind with
  | Scalar => QoQFunctionRegistry (<[key := f]> (rg_scalars r)) (rg_aggregates r)
                (rg_customs r) (rg_dynamics r)
  | Aggregate => QoQFunctionRegistry (rg_scalars r) (<[key := f]> (rg_aggregates r))
                   (rg_customs r) (rg_dynamics r)
  end.

Definition register_dynamic (r : registry) (name : str) (f : dynamic_qoq_fn)
    (kind : qoq_fn_kind) : registry :=
  QoQFunctionRegistry (rg_scalars r) (rg_aggregates r) (rg_customs r)
    (<[to_lowercase name := (f, kind)]> (rg_dynamics r)).

Definition register_custom (r : registry) (name : str) (f : value) (kind : qoq_fn_kind)
    : registry :=
  QoQFunctionRegistry (rg_scalars r) (rg_aggregates r)
    (<[to_lowercase name := (f, kind)]> (rg_customs r)) (rg_dynamics r).

Definition get_dynamic (r : registry) (name : str) (kind : qoq_fn_kind)
    : option dynamic_qoq_fn :=
  match rg_dynamics r !! to_lowercase name with
  | Some (f, k) => if decide (k = kind) then Some f else None
  | None => None
  end.

Definition get_native (r : registry) (name : str) : option (qoq_fn_kind * qoq_fn) :=
  let key := to_lowercase name in
  match rg_scalars r !! key with
  | Some f => Some (Scalar, f)
  | None => (fun f => (Aggregate, f)) <$> rg_aggregates r !! key
  end.

Definition get_custom (r : registry) (name : str) : option (value * qoq_fn_kind) :=
  rg_customs r !! to_lowercase name.

Definition has_key {A} (m : gmap str A) (k : str) : bool :=
  match m !! k with Some _ => true | None => false end.

Definition reg_is_aggregate (r : registry) (name : str) : bool :=
  let key := to_lowercase name in
  has_key (rg_aggregates r) key
  || match rg_customs r !! key with Some (_, Aggregate) => true | _ => false end
  || match rg_dynamics r !! key with Some (_, Aggregate) => true | _ => false end.

Definition reg_contains (r : registry) (name : str) : bool :=
  let key := to_lowercase name in
  has_key (rg_scalars r) key || has_key (rg_aggregates r) key
  || has_key (rg_customs r) key || has_key (rg_dynamics r) key.
End Registry.
Arguments registry : clear implicits.
Arguments dynamic_qoq_fn : clear implicits.
