(* ===== verification/QoqOps.v ===== *)
(** * QoqOps: three-valued logic, operators and aggregates

    The value-level helpers of [cfml-qoq/src/execution.rs]: [tri], [and3],
    [or3], [membership_result], [apply_unary], [apply_binary], [arith], the
    numeric aggregates and the duplicate filter.  Their laws
    are in [QoqOpsFacts]. *)

From stdpp Require Import base list numbers strings gmap.
From Stdlib Require Import Floats.SpecFloat.
From S2P Require Import Prelude Text Float64 Value QoqAst QoqCompare QoqFunctions.

(** ** Duplicate filter: [HashSet::insert] in a [retain] *)

(** [keep[i] = seen.insert(key_i)] *)
Fixpoint first_seen (seen : gset str) (keys : list str) : list bool :=
  match keys with
  | [] => []
  | k :: keys =>
      bool_decide (k ∉ seen) :: first_seen ({[k]} ∪ seen) keys
  end.

Fixpoint mask {A} (keep : list bool) (l : list A) : list A :=
  match keep, l with
  | b :: keep, x :: l => if b then x :: mask keep l else mask keep l
  | _, _ => []
  end.

(** ** Three-valued logic *)

Section Tri.
Context {U : Unicode}.

Definition tri (v : value) : option bool :=
  match v with
  | VNull => None
  | VBool b => Some b
  | other => Some (is_true other)
  end.

Definition is_truthy (v : value) : bool := bool_decide (tri v = Some true).
End Tri.

Definition and3 (l r : option bool) : value :=
  match l, r with
  | Some false, _ | _, Some false => VBool false
  | Some true, Some true => VBool true
  | _, _ => VNull
  end.

Definition or3 (l r : option bool) : value :=
  match l, r with
  | Some true, _ | _, Some true => VBool true
  | Some false, Some false => VBool false
  | _, _ => VNull
  end.

Definition membership_result (found_true found_null negated : bool) : value :=
  let base := if found_true then Some true else if found_null then None else Some false in
  match base with
  | Some b => VBool (xorb b negated)
  | None => VNull
  end.

(** [BinaryOp] comparisons as tests on an ordering. *)
Definition cmp_test (op : binary_op) (o : comparison) : bool :=
  match op, o with
  | BEq, Eq => true | BEq, _ => false
  | BNeq, Eq => false | BNeq, _ => true
  | BLt, Lt => true | BLt, _ => false
  | BLte, Gt => false | BLte, _ => true
  | BGt, Gt => true | BGt, _ => false
  | BGte, Lt => false | BGte, _ => true
  | _, _ => false
  end.

Section Operators.
Context {U : Unicode} {D : DateLib}.

Definition dedup_values (l : list value) : list value :=
  mask (first_seen ∅ (map (fun v => group_key [v]) l)) l.

(** [-i] wraps at [i64::MIN] in a release build. *)
Definition apply_unary (op : unary_op) (v : value) : outcome cfml_error value :=
  match op with
  | UNot => Ok (match tri v with Some b => VBool (negb b) | None => VNull end)
  | UNeg =>
      match v with
      | VNull => Ok VNull
      | VInt i => Ok (VInt (wrap_i64 (- i)))
      | _ => match to_f64 v with
             | Some n => Ok (VDouble (f64_neg n))
             | None => Err (runtime (lit "Query of Queries: cannot negate a non-numeric value"))
             end
      end
  | UPlus => Ok v
  end.

Definition integral_or_double (n : f64) : value :=
  if f64_fract_is_zero n && f64_ltb (f64_abs n) nine_e15 then VInt (f64_as_i64 n)
  else VDouble n.

Definition non_numeric (v : value) : cfml_error :=
  runtime (lit "Query of Queries: '" ++ as_string v
           ++ lit "' is not numeric in an arithmetic expression").

(** [checked_add] and the like. *)
Definition checked (z : Z) : option Z := if in_i64 z then Some z else None.

Definition modulo_by_zero : cfml_error := runtime (lit "Query of Queries: modulo by zero").
Definition division_by_zero : cfml_error := runtime (lit "Query of Queries: division by zero").

Definition arith_float (l : value) (op : binary_op) (r : value) : outcome cfml_error value :=
  (let? a := ok_or (to_f64 l) (non_numeric l) in
   let? b := ok_or (to_f64 r) (non_numeric r) in
   match op with
   | BSub => Ok (integral_or_double (f64_sub a b))
   | BMul => Ok (integral_or_double (f64_mul a b))
   | BDiv => if f64_eqb b f64_zero then Err division_by_zero else Ok (VDouble (f64_div a b))
   | BMod => if f64_eqb b f64_zero then Err modulo_by_zero
             else Ok (integral_or_double (f64_rem a b))
   | _ => Panic
   end)%outcome.

Definition arith (l : value) (op : binary_op) (r : value) : outcome cfml_error value :=
  if is_null l || is_null r then Ok VNull
  else match op with
  | BAdd =>
      match to_f64 l, to_f64 r with
      | Some a, Some b =>
          match l, r with
          | VInt x, VInt y =>
              match checked (x + y) with
              | Some v => Ok (VInt v)
              | None => Ok (integral_or_double (f64_add a b))
              end
          | _, _ => Ok (integral_or_double (f64_add a b))
          end
      | _, _ => Ok (VString (as_string l ++ as_string r))
      end
  | _ =>
      match l, r, op with
      | VInt a, VInt b, BSub =>
          match checked (a - b) with Some v => Ok (VInt v) | None => arith_float l op r end
      | VInt a, VInt b, BMul =>
          match checked (a * b) with Some v => Ok (VInt v) | None => arith_float l op r end
      | VInt a, VInt b, BMod =>
          if (b =? 0)%Z then Err modulo_by_zero else omapo VInt (i64_rem a b)
      | _, _, _ => arith_float l op r
      end
  end.

Definition apply_binary (l : value) (op : binary_op) (r : value) : outcome cfml_error value :=
  match op with
  | BEq | BNeq | BLt | BLte | BGt | BGte =>
      Ok (match compare_sql l r with None => VNull | Some o => VBool (cmp_test op o) end)
  | BAnd => Ok (and3 (tri l) (tri r))
  | BOr => Ok (or3 (tri l) (tri r))
  | BConcat =>
      Ok (if is_null l || is_null r then VNull else VString (as_string l ++ as_string r))
  | BAdd | BSub | BMul | BDiv | BMod => arith l op r
  | BBitAnd | BBitOr | BBitXor =>
      if is_null l || is_null r then Ok VNull
      else let a := from_option id 0%Z (to_i64 l) in
           let b := from_option id 0%Z (to_i64 r) in
           Ok (VInt (match op with
                     | BBitAnd => Z.land a b
                     | BBitOr => Z.lor a b
                     | _ => Z.lxor a b
                     end))
  end.

(** ** Aggregates *)

Definition is_int (v : value) : bool := match v with VInt _ => true | _ => false end.

(** SUM: the accumulator is [(sum, all_int, any)]. *)
Definition sum_step (acc : f64 * bool * bool) (v : value) : f64 * bool * bool :=
  let '(sum, all_int, any) := acc in
  if is_null v then acc
  else match to_f64 v with
       | Some n => (f64_add sum n, all_int && is_int v, true)
       | None => acc
       end.

Definition avg_step (acc : f64 * Z) (v : value) : f64 * Z :=
  match to_f64 v with
  | Some n => if is_null v then acc else (f64_add acc.1 n, (acc.2 + 1)%Z)
  | None => acc
  end.

Definition best_step (want_min : bool) (best : option value) (v : value) : option value :=
  if is_null v then best
  else match best with
       | None => Some v
       | Some cur =>
           match want_min, compare_total v cur with
           | true, Lt | false, Gt => Some v
           | _, _ => Some cur
           end
       end.

Definition aggregate_numeric (name : str) (col : list value) : value :=
  if bool_decide (name = lit "sum") then
    let '(sum, all_int, any) := fold_left sum_step col (f64_zero, true, false) in
    if negb any then VNull
    else if all_int && f64_fract_is_zero sum && f64_ltb (f64_abs sum) nine_e15
         then VInt (f64_as_i64 sum) else VDouble sum
  else if bool_decide (name = lit "avg") then
    let '(sum, count) := fold_left avg_step col (f64_zero, 0%Z) in
    if (count =? 0)%Z then VNull else VDouble (f64_div sum (f64_of_Z count))
  else if bool_decide (name = lit "min") || bool_decide (name = lit "max") then
    or_null (fold_left (best_step (bool_decide (name = lit "min"))) col None)
  else VNull.

Definition is_builtin_aggregate (name : str) : bool :=
  one_of ["count"; "sum"; "avg"; "min"; "max"; "group_concat"; "string_agg"]
    (to_lowercase name).

Context {W : Type} (reg : registry W).

Definition is_aggregate (name : str) : bool :=
  is_builtin_aggregate name || reg_is_aggregate reg name.

Definition opt_test {A} (f : A -> bool) (d : bool) (o : option A) : bool :=
  match o with Some a => f a | None => d end.

Fixpoint expr_has_aggregate (e : expr) : bool :=
  match e with
  | XFunction name args _ => is_aggregate name || existsb expr_has_aggregate args
  | XBinary l _ r => expr_has_aggregate l || expr_has_aggregate r
  | XUnary _ e | XCast e _ | XIsNull e _ => expr_has_aggregate e
  | XCase o ws el =>
      opt_test expr_has_aggregate false o
      || existsb (fun w => match w with
                           | WhenThen a b => expr_has_aggregate a || expr_has_aggregate b
                           end) ws
      || opt_test expr_has_aggregate false el
  | XInList e _ l => expr_has_aggregate e || existsb expr_has_aggregate l
  | XBetween e _ lo hi =>
      expr_has_aggregate e || expr_has_aggregate lo || expr_has_aggregate hi
  | XLike e _ p _ _ => expr_has_aggregate e || expr_has_aggregate p
  | _ => false
  end.
End Operators.
