(* ===== verification/QoqEval.v ===== *)
(** * QoqEval: expression evaluation ([Engine::eval] of
    [cfml-qoq/src/execution.rs])

    One evaluator serves rows and groups.  A subquery is run by [run_sub], which
    the statement level ties back to the whole pipeline; a custom function goes
    through [en_invoke], the only effect on the world besides an extension's
    function. *)

From stdpp Require Import base list numbers strings gmap.
From Stdlib Require Import Floats.SpecFloat.
From S2P Require Import Prelude Text Float64 Value QoqLike QoqAst QoqCompare QoqTable QoqFunctions QoqOps.
#[local] Open Scope st_scope.

(** [QoQParams]; named parameters are a [ValueMap], keyed up to ASCII case. *)
Record qoq_params := QoQParams {
  pr_positional : list value;
  pr_named : list (str * value);
}.

Definition lookup_named (ps : qoq_params) (name : str) : option value :=
  snd <$> head (List.filter (fun kv => eq_ignore_ascii_case kv.1 name) (pr_named ps)).

(** [RowCtx] *)
Inductive row_ctx := CtxRow (inter : list nat) | CtxGroup (part : intersections).

(** What one run of the engine is given.  [en_invoke] is the [Invoker]. *)
Record engine (W : Type) := Engine {
  en_sources : list (str * query_data);
  en_params : qoq_params;
  en_registry : registry W;
  en_invoke : value -> list value -> ST W cfml_error value;
  en_parallel : bool;
}.
Arguments Engine {W}. Arguments en_sources {W}. Arguments en_params {W}.
Arguments en_registry {W}. Arguments en_invoke {W}. Arguments en_parallel {W}.

Definition qoq_err (parts : list str) : cfml_error :=
  runtime (lit "Query of Queries: " ++ concat parts).

(** ** Loops of the evaluator, over the evaluation of a subexpression *)

Section Loops.
Context {U : Unicode} {D : DateLib} {W : Type} (ev : expr -> ST W cfml_error value).

(** The membership scan: [inl] is a hit, [inr] carries [found_null]. *)
Fixpoint scan_equal (target : value) (found_null : bool) (vs : list value) : unit + bool :=
  match vs with
  | [] => inr found_null
  | v :: vs =>
      match sql_equal target v with
      | Some true => inl ()
      | Some false => scan_equal target found_null vs
      | None => scan_equal target true vs
      end
  end.

(** An array element of an IN list stands for its elements. *)
Definition in_candidates (v : value) : list value :=
  match v with VArray l => l | _ => [v] end.

Fixpoint in_list_loop (target : value) (negated found_null : bool) (items : list expr)
    : ST W cfml_error value :=
  match items with
  | [] => st_ret (membership_result false found_null negated)
  | item :: items =>
      let! v := ev item in
      match scan_equal target found_null (in_candidates v) with
      | inl _ => st_ret (VBool (negb negated))
      | inr found_null => in_list_loop target negated found_null items
      end
  end.

Fixpoint case_loop (operand : option value) (whens : list when_then)
    (else_ : ST W cfml_error value) : ST W cfml_error value :=
  match whens with
  | [] => else_
  | WhenThen w t :: whens =>
      let! wv := ev w in
      let matched := match operand with
                     | Some ov => bool_decide (sql_equal ov wv = Some true)
                     | None => is_truthy wv
                     end in
      if matched then ev t else case_loop operand whens else_
  end.

Definition opt_eval (o : option expr) : ST W cfml_error value :=
  match o with Some e => ev e | None => st_ret VNull end.
End Loops.

Section Eval.
Context {U : Unicode} {D : DateLib} {R : RegexCrate} {L : Libm} {W : Type}.
Context (en : engine W) (run_sub : select_statement -> ST W cfml_error query_data).
Context (tables : table_set).

Abbreviation M := (ST W cfml_error).

(** ** Columns and parameters *)

Definition eval_resolved_column (ti ci : nat) (ctx : row_ctx) : M value :=
  match ctx with
  | CtxRow inter => st_lift (value_at tables inter ti ci)
  | CtxGroup part =>
      if in_is_empty part then st_ret VNull
      else let! inter := st_lift (in_row part 0) in st_lift (value_at tables inter ti ci)
  end.

Definition column_value (table : option str) (name : str) (inter : list nat) : M value :=
  match resolve_column tables table name with
  | Some (ti, ci) => st_lift (value_at tables inter ti ci)
  | None => st_err (qoq_err [lit "column '"; from_option (fun t => t ++ lit ".") [] table;
                             name; lit "' not found"])
  end.

Definition eval_column (table : option str) (name : str) (ctx : row_ctx) : M value :=
  match ctx with
  | CtxRow inter => column_value table name inter
  | CtxGroup part =>
      if in_is_empty part then st_ret VNull
      else let! inter := st_lift (in_row part 0) in column_value table name inter
  end.

Definition eval_param (p : param_ref) : M value :=
  st_lift (match p with
           | PPositional i =>
               ok_or (pr_positional (en_params en) !! i)
                 (qoq_err [lit "positional parameter #"; Z_to_str (Z.of_nat (i + 1));
                           lit " has no value"])
           | PNamed n =>
               ok_or (lookup_named (en_params en) n)
                 (qoq_err [lit "named parameter ':"; n; lit "' has no value"])
           end).

(** ** Functions *)

Definition call_scalar_fn (name : str) (args : list value) : M value :=
  let custom :=
    match get_custom (en_registry en) name with
    | Some (f, Scalar) => en_invoke en f args
    | _ => st_err (qoq_err [lit "unknown function '"; name; lit "'"])
    end in
  let dynamic :=
    match get_dynamic (en_registry en) name Scalar with
    | Some f => f args
    | None => custom
    end in
  match call_scalar name args with
  | Some r => st_lift r
  | None =>
      match get_native (en_registry en) name with
      | Some (Scalar, f) => st_lift (f args)
      | _ => dynamic
      end
  end.

Definition call_aggregate_fn (name lname : str) (arrays : list value) : M value :=
  let custom :=
    match get_custom (en_registry en) lname with
    | Some (f, Aggregate) => en_invoke en f arrays
    | _ => st_err (qoq_err [lit "unknown aggregate function '"; name; lit "'"])
    end in
  let dynamic :=
    match get_dynamic (en_registry en) lname Aggregate with
    | Some f => f arrays
    | None => custom
    end in
  match get_native (en_registry en) lname with
  | Some (Aggregate, f) => st_lift (f arrays)
  | _ => dynamic
  end.

(** The partition an aggregate ranges over; a row is a partition of one. *)
Definition ctx_partition (ctx : row_ctx) : intersections :=
  match ctx with
  | CtxGroup p => p
  | CtxRow r => Intersections (length r) r
  end.

Definition is_star_arg (args : list expr) : bool :=
  match args with [] | XStar _ :: _ => true | _ => false end.

Definition not_null (v : value) : bool := negb (is_null v).

Definition distinct_values (distinct : bool) (col : list value) : list value :=
  if distinct then dedup_values (List.filter not_null col) else col.

Definition concat_values (sep : str) (col : list value) : value :=
  match map as_string (List.filter not_null col) with
  | [] => VNull
  | parts => VString (join sep parts)
  end.

Definition group_concat_name (lname : str) : bool := one_of ["group_concat"; "string_agg"] lname.

(** [eval_aggregate_call], over the evaluation of an argument on a row. *)
Definition eval_aggregate_call (ev_row : list nat -> expr -> M value) (name : str)
    (args : list expr) (distinct : bool) (ctx : row_ctx) : M value :=
  let partition := ctx_partition ctx in
  let collect_arg (a : expr) : M (list value) :=
    st_mapM (fun inter => ev_row inter a) (in_iter partition) in
  let lname := to_lowercase name in
  if bool_decide (lname = lit "count") then
    if is_star_arg args then st_ret (VInt (Z.of_nat (in_len partition)))
    else match args with
         | a0 :: _ =>
             let! vals := collect_arg a0 in
             let vals := List.filter not_null vals in
             st_ret (VInt (Z.of_nat (length (if distinct then dedup_values vals else vals))))
         | [] => st_panic
         end
  else if is_builtin_aggregate lname then
    match args with
    | [] => st_err (qoq_err [lname; lit " requires an argument"])
    | a0 :: rest =>
        let! col := collect_arg a0 in
        let col := distinct_values distinct col in
        if group_concat_name lname then
          let! sep :=
            (if in_is_empty partition then st_ret (lit ",")
             else match rest with
                  | e :: _ =>
                      let! inter := st_lift (in_row partition 0) in
                      let! v := ev_row inter e in
                      st_ret (as_string v)
                  | [] => st_ret (lit ",")
                  end) in
          st_ret (concat_values sep col)
        else st_ret (aggregate_numeric lname col)
    end
  else
    let! arrays := st_mapM (fun a => let! col := collect_arg a in st_ret (VArray col)) args in
    call_aggregate_fn name lname arrays.

(** ** Operators on evaluated operands *)

Definition eval_between_values (v lo hi : value) (negated : bool) : value :=
  match compare_sql v lo, compare_sql v hi with
  | Some c_lo, Some c_hi =>
      let in_range := match c_lo, c_hi with Lt, _ | _, Gt => false | _, _ => true end in
      VBool (xorb in_range negated)
  | _, _ => VNull
  end.

Definition in_subquery_result (target : value) (negated : bool) (values : list value) : value :=
  match scan_equal target false values with
  | inl _ => VBool (negb negated)
  | inr found_null => membership_result false found_null negated
  end.

(** The subquery's first column, and its first cell. *)
Definition first_column (q : query_data) : list value := from_option id [] (head (q_data q)).
Definition first_cell (q : query_data) : value := or_null (head (first_column q)).

(** ** The evaluator *)

Fixpoint eval (e : expr) (ctx : row_ctx) {struct e} : M value :=
  match e with
  | XLiteral v => st_ret v
  | XStar _ => st_err (qoq_err [lit "'*' is only valid in a SELECT list"])
  | XColumn table name => eval_column table name ctx
  | XResolvedColumn ti ci _ => eval_resolved_column ti ci ctx
  | XParam p => eval_param p
  | XFunction name args distinct =>
      if is_aggregate (en_registry en) name then
        eval_aggregate_call (fun inter a => eval a (CtxRow inter)) name args distinct ctx
      else let! evaled := st_mapM (fun a => eval a ctx) args in
           call_scalar_fn name evaled
  | XCast e ty => let! v := eval e ctx in st_lift (cast_value v ty)
  | XUnary op e => let! v := eval e ctx in st_lift (apply_unary op v)
  | XBinary lhs op rhs =>
      match op with
      | BAnd =>
          let! l := eval lhs ctx in
          if bool_decide (tri l = Some false) then st_ret (VBool false)
          else let! r := eval rhs ctx in st_ret (and3 (tri l) (tri r))
      | BOr =>
          let! l := eval lhs ctx in
          if bool_decide (tri l = Some true) then st_ret (VBool true)
          else let! r := eval rhs ctx in st_ret (or3 (tri l) (tri r))
      | _ =>
          let! l := eval lhs ctx in
          let! r := eval rhs ctx in
          st_lift (apply_binary l op r)
      end
  | XCase operand whens else_expr =>
      let! operand_val := match operand with
                          | Some o => let! v := eval o ctx in st_ret (Some v)
                          | None => st_ret None
                          end in
      case_loop (fun a => eval a ctx) operand_val whens
        (opt_eval (fun a => eval a ctx) else_expr)
  | XIsNull e negated =>
      let! v := eval e ctx in st_ret (VBool (xorb (is_null v) negated))
  | XInList e negated items =>
      let! target := eval e ctx in
      if is_null target then st_ret VNull
      else in_list_loop (fun a => eval a ctx) target negated false items
  | XInSubquery e negated select =>
      let! target := eval e ctx in
      if is_null target then st_ret VNull
      else let! q := run_sub select in
           st_ret (in_subquery_result target negated (first_column q))
  | XBetween e negated low high =>
      let! v := eval e ctx in
      let! lo := eval low ctx in
      let! hi := eval high ctx in
      st_ret (eval_between_values v lo hi negated)
  | XLike e negated pattern escape compiled =>
      let! v := eval e ctx in
      if is_null v then st_ret VNull
      else match compiled with
      | Some c => st_ret (VBool (xorb (like_matches c (as_string v)) negated))
      | None =>
          let! p := eval pattern ctx in
          if is_null p then st_ret VNull
          else let! esc := match escape with
                           | Some e => let! v := eval e ctx in st_ret (head (as_string v))
                           | None => st_ret None
                           end in
               st_ret (VBool (xorb (like_match (as_string v) (as_string p) esc) negated))
      end
  | XScalarSubquery select => let! q := run_sub select in st_ret (first_cell q)
  end.
End Eval.
