(* ===== verification/QoqOpsFacts.v ===== *)
(** * QoqOpsFacts: laws of the operators, the aggregates and the functions

    The connectives, IN and their short-circuit evaluation against Kleene's
    three-valued logic; when arithmetic is exact, when it fails and when it
    panics; what MIN and MAX return; the text functions. *)

From stdpp Require Import base list numbers strings gmap.
From S2P Require Import Prelude Text Float64 Value QoqLike QoqAst QoqCompare QoqTable QoqFunctions QoqOps QoqEval.
#[local] Open Scope st_scope.

(** ** Kleene's logic *)

(** Truth values in the order false, unknown, true: AND is the minimum, OR the
    maximum, NOT the reflection. *)
Definition rank (b : option bool) : nat :=
  match b with Some false => 0 | None => 1 | Some true => 2 end.
Definition unrank (n : nat) : option bool :=
  match n with 0 => Some false | 1 => None | _ => Some true end.
Definition kand (a b : option bool) : option bool := unrank (rank a `min` rank b).
Definition kor (a b : option bool) : option bool := unrank (rank a `max` rank b).
Definition knot (a : option bool) : option bool := unrank (2 - rank a).

(** A truth value as a cell. *)
Definition of_tri (b : option bool) : value := match b with Some b => VBool b | None => VNull end.

Lemma and3_kand a b : and3 a b = of_tri (kand a b).
Proof. by destruct a as [[]|], b as [[]|]. Qed.
Lemma or3_kor a b : or3 a b = of_tri (kor a b).
Proof. by destruct a as [[]|], b as [[]|]. Qed.
Lemma kor_assoc a b c : kor a (kor b c) = kor (kor a b) c.
Proof. by destruct a as [[]|], b as [[]|], c as [[]|]. Qed.

Section Kleene.
Context {U : Unicode} {D : DateLib} {R : RegexCrate} {L : Libm} {W : Type}.
Context (en : engine W) (run_sub : select_statement -> ST W cfml_error query_data).
Context (tables : table_set).
Let ev := eval en run_sub tables.

Lemma tri_of_tri b : tri (of_tri b) = b.
Proof. by destruct b. Qed.

(** [target = v1 OR target = v2 OR ...] *)
Definition any_equal (target : value) (vs : list value) : option bool :=
  fold_right (fun v acc => kor (sql_equal target v) acc) (Some false) vs.

Lemma any_equal_app target vs ws :
  any_equal target (vs ++ ws) = kor (any_equal target vs) (any_equal target ws).
Proof.
  induction vs as [|v vs IH]; simpl; [by destruct (any_equal target ws) as [[]|]|].
  by rewrite IH, kor_assoc.
Qed.

Definition scan_start (found_null : bool) : option bool := if found_null then None else Some false.

Lemma scan_equal_spec target found_null vs :
  kor (scan_start found_null) (any_equal target vs)
  = match scan_equal target found_null vs with
    | inl _ => Some true
    | inr found_null => scan_start found_null
    end.
Proof.
  revert found_null. induction vs as [|v vs IH]; intros fn; simpl; [by destruct fn|].
  rewrite kor_assoc. destruct (sql_equal target v) as [[]|] eqn:He.
  - by destruct fn, (any_equal target vs) as [[]|].
  - rewrite <- IH. by destruct fn.
  - rewrite <- IH. by destruct fn.
Qed.

(** NOT when [negated]. *)
Definition negate_if (negated : bool) (b : option bool) : option bool :=
  if negated then knot b else b.

Lemma in_list_loop_spec (f : expr -> ST W cfml_error value) target negated found_null items s s' vs :
  st_mapM f items s = (s', Ok vs) ->
  exists s1, in_list_loop f target negated found_null items s
    = (s1, Ok (of_tri (negate_if negated
                 (kor (scan_start found_null) (any_equal target (concat (map in_candidates vs))))))).
Proof.
  revert found_null s vs. induction items as [|e items IH]; intros fn s vs; simpl.
  - intros [= <- <-]. exists s. simpl. by destruct fn, negated.
  - unfold st_bind. destruct (f e s) as [s1 [v| |]] eqn:He; [|done..].
    destruct (st_mapM f items s1) as [s2 [ws| |]] eqn:Hws; [|done..]. intros [= <- <-]. simpl.
    rewrite any_equal_app, kor_assoc, scan_equal_spec.
    destruct (scan_equal target fn (in_candidates v)) as [[]|fn'].
    + exists s1. unfold st_ret. do 2 f_equal.
      by destruct negated, (any_equal target (concat (map in_candidates ws))) as [[]|].
    + eapply IH. exact Hws.
Qed.
End Kleene.

(** AND and OR are Kleene's strong connectives, and their short cut does not
    change the value: when both operands evaluate, the result is the minimum
    (maximum) of their truth values in the order false, unknown, true.  A false
    left operand of AND (a true one of OR) decides the result whatever the right
    operand does, its errors included. *)
Theorem connectives_correct `{U : Unicode} `{D : DateLib} `{R : RegexCrate} `{L : Libm} {W}
    (en : engine W) run_sub tables l r ctx s s1 s2 vl vr :
  eval en run_sub tables l ctx s = (s1, Ok vl) ->
  eval en run_sub tables r ctx s1 = (s2, Ok vr) ->
  (eval en run_sub tables (XBinary l BAnd r) ctx s).2 = Ok (of_tri (kand (tri vl) (tri vr)))
  /\ (eval en run_sub tables (XBinary l BOr r) ctx s).2 = Ok (of_tri (kor (tri vl) (tri vr)))
  /\ (forall r', tri vl = Some false ->
        eval en run_sub tables (XBinary l BAnd r') ctx s = (s1, Ok (VBool false)))
  /\ (forall r', tri vl = Some true ->
        eval en run_sub tables (XBinary l BOr r') ctx s = (s1, Ok (VBool true))).
Proof.
  intros Hl Hr. rewrite <- and3_kand, <- or3_kor. split_and!; intros; cbn [eval]; unfold st_bind;
    rewrite Hl.
  - case_bool_decide as Ht; [by rewrite Ht|]. by rewrite Hr.
  - case_bool_decide as Ht; [by rewrite Ht|]. by rewrite Hr.
  - by rewrite bool_decide_eq_true_2.
  - by rewrite bool_decide_eq_true_2.
Qed.

(** IN and NOT IN with a non-NULL left side are the three-valued disjunction
    (its negation) of the equalities with the list's values, an array in the
    list standing for its elements; evaluation may stop early but the value is
    the same.  So NOT IN over a list with a NULL is never true. *)
Theorem in_list_correct `{U : Unicode} `{D : DateLib} `{R : RegexCrate} `{L : Libm} {W}
    (en : engine W) run_sub tables e items negated ctx s s1 s2 target vs :
  eval en run_sub tables e ctx s = (s1, Ok target) -> is_null target = false ->
  st_mapM (fun i => eval en run_sub tables i ctx) items s1 = (s2, Ok vs) ->
  (eval en run_sub tables (XInList e negated items) ctx s).2
  = Ok (of_tri (negate_if negated (any_equal target (concat (map in_candidates vs))))).
Proof.
  intros He Hn Hvs. cbn [eval]. unfold st_bind. rewrite He, Hn.
  destruct (in_list_loop_spec _ target negated false items s1 s2 vs Hvs) as [s3 ->]. simpl.
  by destruct (any_equal target _) as [[]|].
Qed.

(** ** Arithmetic *)

Lemma in_i64_spec z : in_i64 z = true <-> (- 2 ^ 63 <= z < 2 ^ 63)%Z.
Proof. unfold in_i64, i64_min, i64_max. rewrite andb_true_iff, !Z.leb_le. lia. Qed.

Lemma f64_as_i64_in x : in_i64 (f64_as_i64 x) = true.
Proof.
  unfold f64_as_i64. rewrite in_i64_spec. unfold i64_min, i64_max. repeat case_match; lia.
Qed.

Lemma Z_rem_in x y : in_i64 x = true -> y <> 0%Z -> in_i64 (Z.rem x y) = true.
Proof.
  rewrite !in_i64_spec. intros Hx Hy.
  pose proof (Z.rem_bound_abs x y Hy). pose proof (Z.rem_sign_mul x y Hy).
  pose proof (Z.quot_rem' x y). pose proof (Z.rem_le (Z.abs x) (Z.abs y)) as Hle.
  rewrite Z.rem_abs in Hle by done.
  assert (Z.abs (Z.rem x y) <= Z.abs x)%Z by lia.
  generalize dependent (Z.rem x y). intros z. intros. nia.
Qed.

Lemma in_i64_shiftr z : in_i64 z = true <-> Z.shiftr z 63 = 0%Z \/ Z.shiftr z 63 = (-1)%Z.
Proof.
  rewrite in_i64_spec, Z.shiftr_div_pow2 by lia.
  pose proof (Z.div_mod z (2 ^ 63) ltac:(lia)). pose proof (Z.mod_pos_bound z (2 ^ 63) ltac:(lia)).
  split; [|intros [Hz|Hz]; rewrite Hz in *; lia].
  intros Hz. set (q := (z / 2 ^ 63)%Z) in *. nia.
Qed.

Lemma bits_in (f : Z -> Z -> Z) a b :
  (forall n, Z.shiftr (f a b) n = f (Z.shiftr a n) (Z.shiftr b n)) ->
  (forall x y, x = 0%Z \/ x = (-1)%Z -> y = 0%Z \/ y = (-1)%Z -> f x y = 0%Z \/ f x y = (-1)%Z) ->
  in_i64 a = true -> in_i64 b = true -> in_i64 (f a b) = true.
Proof. rewrite !in_i64_shiftr. intros Hs Hf Ha Hb. rewrite Hs. auto. Qed.

Definition int_ok (v : value) : Prop := match v with VInt n => in_i64 n = true | _ => True end.

Lemma integral_or_double_ok n : int_ok (integral_or_double n).
Proof. unfold integral_or_double. case_match; simpl; [apply f64_as_i64_in|done]. Qed.

Section Arith.
Context {U : Unicode} {D : DateLib}.

Lemma parse_i64_in s n : parse_i64 s = Some n -> in_i64 n = true.
Proof.
  unfold parse_i64. intros (z & _ & Hz)%bind_Some. case_match; simplify_eq. done.
Qed.

Lemma to_i64_in v n : int_ok v -> to_i64 v = Some n -> in_i64 n = true.
Proof.
  intros Hv. unfold to_i64. destruct v; simpl in *; intros H; simplify_eq; try done;
    try apply f64_as_i64_in.
  - by destruct b.
  - destruct (parse_i64 (trim s)) eqn:Hp; [simplify_eq; by eapply parse_i64_in|].
    apply fmap_Some in H as (d & _ & ->). apply f64_as_i64_in.
Qed.

Definition is_arith (op : binary_op) : bool :=
  match op with BAdd | BSub | BMul | BDiv | BMod => true | _ => false end.

Lemma checked_Some z n : checked z = Some n <-> n = z /\ in_i64 z = true.
Proof. unfold checked. case_match; naive_solver. Qed.

Lemma arith_float_ok l op r n :
  arith_float l op r = Ok (VInt n) -> in_i64 n = true.
Proof.
  unfold arith_float. intros H. ok_inv H.
  assert (Hi : forall x, Ok (E := cfml_error) (integral_or_double x) = Ok (VInt n) -> in_i64 n = true).
  { intros x [= Hx]. pose proof (integral_or_double_ok x) as Hok. by rewrite Hx in Hok. }
  destruct op; try done; try (by eapply Hi); case_match; try done; by eapply Hi.
Qed.

Lemma arith_float_no_panic l op r :
  is_arith op = true -> op <> BAdd -> arith_float l op r <> Panic.
Proof.
  intros Ho Hn. unfold arith_float, ok_or. repeat case_match; simpl; try done.
  all: destruct op; simpl in *; try done; repeat case_match; done.
Qed.

Lemma arith_panic l op r :
  is_arith op = true ->
  arith l op r = Panic <-> op = BMod /\ l = VInt i64_min /\ r = VInt (-1).
Proof.
  intros Ho. split.
  - unfold arith. destruct (is_null l || is_null r); [done|].
    assert (Hf : op <> BAdd -> arith_float l op r = Panic -> False)
      by (intros; by eapply arith_float_no_panic).
    destruct op; simpl in Ho; try done.
    + intros H. exfalso. repeat case_match; done.
    + intros H. exfalso. repeat case_match; try done; by apply Hf.
    + intros H. exfalso. repeat case_match; try done; by apply Hf.
    + intros H. exfalso. repeat case_match; try done; by apply Hf.
    + destruct l, r; try (intros H; exfalso; by apply Hf).
      case_match; [done|]. unfold i64_rem. case_match; [|done].
      match goal with H : _ && _ = true |- _ => apply andb_true_iff in H as [->%Z.eqb_eq ->%Z.eqb_eq] end.
      done.
  - by intros (-> & -> & ->).
Qed.

Lemma arith_range l op r n :
  int_ok l -> int_ok r -> arith l op r = Ok (VInt n) -> in_i64 n = true.
Proof.
  intros Hl Hr. unfold arith. destruct (is_null l || is_null r); [done|].
  assert (Hf : arith_float l op r = Ok (VInt n) -> in_i64 n = true) by apply arith_float_ok.
  assert (Hi : forall x, Ok (E := cfml_error) (integral_or_double x) = Ok (VInt n) -> in_i64 n = true).
  { intros x [= Hx]. pose proof (integral_or_double_ok x) as Hok. by rewrite Hx in Hok. }
  assert (Hc : forall z m, checked z = Some m -> Ok (E := cfml_error) (VInt m) = Ok (VInt n) ->
    in_i64 n = true) by (intros z m [-> Hz]%checked_Some [= <-]; done).
  destruct op; try (destruct l, r; exact Hf).
  - repeat case_match; try done; eauto.
  - repeat case_match; eauto.
  - repeat case_match; eauto.
  - destruct l, r; try exact Hf. case_match; [done|]. unfold i64_rem.
    case_match; [done|]. intros [= <-]. apply Z_rem_in; [done|lia].
Qed.

(** The exact result of an integer operation, where the integers have one. *)
Definition exact_int (op : binary_op) (x y : Z) : option Z :=
  match op with
  | BAdd => Some (x + y)%Z
  | BSub => Some (x - y)%Z
  | BMul => Some (x * y)%Z
  | BMod => if (y =? 0)%Z then None else Some (Z.rem x y)
  | _ => None
  end.

Lemma arith_exact op x y z :
  exact_int op x y = Some z -> in_i64 z = true -> arith (VInt x) op (VInt y) <> Panic ->
  arith (VInt x) op (VInt y) = Ok (VInt z).
Proof.
  intros He Hz. assert (Hc : checked z = Some z) by (by apply checked_Some).
  destruct op; try discriminate He; unfold exact_int in He; simplify_eq; unfold arith; simpl.
  - by rewrite Hc.
  - by rewrite Hc.
  - by rewrite Hc.
  - case_match; [done|]. simplify_eq. unfold i64_rem. by case_match; [intros []|].
Qed.
End Arith.

(** Arithmetic on two cells whose integers are [i64]s: an integer result is
    again an [i64]; two integers whose exact sum, difference, product or
    remainder is an [i64] give exactly that; and the one case in which the
    operators abort the program instead of returning a value or an error is
    [i64::MIN % -1]. *)
Theorem arith_correct `{U : Unicode} `{D : DateLib} l op r :
  is_arith op = true -> int_ok l -> int_ok r ->
  (forall n, apply_binary l op r = Ok (VInt n) -> in_i64 n = true)
  /\ (forall x y z, l = VInt x -> r = VInt y -> exact_int op x y = Some z -> in_i64 z = true ->
        (op, x, y) <> (BMod, i64_min, (-1)%Z) -> apply_binary l op r = Ok (VInt z))
  /\ (apply_binary l op r = Panic <-> op = BMod /\ l = VInt i64_min /\ r = VInt (-1)).
Proof.
  intros Ho Hl Hr. assert (Heq : apply_binary l op r = arith l op r) by (by destruct op).
  rewrite !Heq. split_and!.
  - intros n. by apply arith_range.
  - intros x y z -> -> He Hz Hp. apply arith_exact; [done..|]. rewrite arith_panic by done.
    intros (-> & [= ->] & [= ->]). by apply Hp.
  - by apply arith_panic.
Qed.

(** The bit operators on any two non-NULL cells whose integers are [i64]s
    return an [i64]: a text that is a number counts as that number, saturated;
    any other cell counts as 0. *)
Theorem bit_operators_range `{U : Unicode} `{D : DateLib} l op r :
  op = BBitAnd \/ op = BBitOr \/ op = BBitXor -> int_ok l -> int_ok r ->
  is_null l = false -> is_null r = false ->
  exists n, apply_binary l op r = Ok (VInt n) /\ in_i64 n = true.
Proof.
  intros Hop Hl Hr Hnl Hnr.
  assert (Ha : forall v, int_ok v -> in_i64 (from_option id 0%Z (to_i64 v)) = true).
  { intros v Hv. destruct (to_i64 v) as [n|] eqn:Hn; simpl; [by eapply to_i64_in|done]. }
  unfold apply_binary. rewrite Hnl, Hnr. simpl.
  assert (Hb : forall f : Z -> Z -> Z,
    (forall a b n, Z.shiftr (f a b) n = f (Z.shiftr a n) (Z.shiftr b n)) ->
    (forall x y, x = 0%Z \/ x = (-1)%Z -> y = 0%Z \/ y = (-1)%Z -> f x y = 0%Z \/ f x y = (-1)%Z) ->
    in_i64 (f (from_option id 0%Z (to_i64 l)) (from_option id 0%Z (to_i64 r))) = true).
  { intros f Hs Hf. apply bits_in; auto. }
  destruct Hop as [->|[->| ->]]; eexists; (split; [done|]).
  - apply (Hb Z.land); [intros; apply Z.shiftr_land|intros ? ? [->| ->] [->| ->]; auto].
  - apply (Hb Z.lor); [intros; apply Z.shiftr_lor|intros ? ? [->| ->] [->| ->]; auto].
  - apply (Hb Z.lxor); [intros; apply Z.shiftr_lxor|intros ? ? [->| ->] [->| ->]; auto].
Qed.

(** ** MIN and MAX *)

Section Extremes.
Context {U : Unicode} {D : DateLib}.

(** [v] comes no later ([min]) or no earlier ([max]) than [w]. *)
Definition no_worse (want_min : bool) (v w : value) : Prop :=
  if want_min then compare_total v w <> Gt else compare_total v w <> Lt.

Lemma no_worse_refl b v : no_worse b v v.
Proof.
  assert (H : compare_total v v = CompOpp (compare_total v v)) by apply compare_total_antisym.
  unfold no_worse. by destruct b, (compare_total v v).
Qed.

Lemma not_lt_trans k a b c :
  has_kind k a = true -> has_kind k b = true -> has_kind k c = true ->
  compare_total a b <> Lt -> compare_total b c <> Lt -> compare_total a c <> Lt.
Proof.
  rewrite (compare_total_antisym b a), (compare_total_antisym c b), (compare_total_antisym c a).
  intros Ha Hb Hc. pose proof (compare_total_kind_trans k c b a Hc Hb Ha).
  destruct (compare_total b a), (compare_total c b), (compare_total c a); simpl in *; naive_solver.
Qed.

Lemma no_worse_trans k want a b c :
  has_kind k a = true -> has_kind k b = true -> has_kind k c = true ->
  no_worse want a b -> no_worse want b c -> no_worse want a c.
Proof.
  destruct want; simpl; [apply compare_total_kind_trans|apply not_lt_trans].
Qed.

(** What the loop has found after some cells. *)
Definition best_of (want : bool) (seen : list value) (best : option value) : Prop :=
  match best with
  | None => Forall (fun v => is_null v = true) seen
  | Some v => v ∈ seen /\ is_null v = false
      /\ forall w, w ∈ seen -> is_null w = false -> no_worse want v w
  end.

Lemma best_step_spec k want seen best v :
  Forall (fun v => has_kind k v = true) (seen ++ [v]) -> best_of want seen best ->
  best_of want (seen ++ [v]) (best_step want best v).
Proof.
  intros Hk Hb. rewrite Forall_forall in Hk. unfold best_step.
  destruct (is_null v) eqn:Hv.
  - destruct best as [b|]; simpl in *.
    + destruct Hb as (Hb & Hn & Hw). split_and!; [apply elem_of_app; by left|done|].
      intros w [Hin| ->%list_elem_of_singleton]%elem_of_app Hnw; [auto|congruence].
    + apply Forall_app. split; [done|by repeat constructor].
  - destruct best as [b|]; simpl in *.
    + destruct Hb as (Hb & Hn & Hw).
      assert (Hkb : has_kind k b = true) by (apply Hk, elem_of_app; by left).
      assert (Hkv : has_kind k v = true) by (apply Hk, elem_of_app; right; by apply list_elem_of_singleton).
      assert (Hcase : (exists o, o = (if want then Lt else Gt) /\ compare_total v b = o)
        \/ no_worse want b v).
      { unfold no_worse. rewrite (compare_total_antisym v b).
        destruct want, (compare_total v b); simpl; eauto. }
      assert (Hnew : compare_total v b = (if want then Lt else Gt) ->
        best_of want (seen ++ [v]) (Some v)).
      { intros Hc. simpl. split_and!; [apply elem_of_app; right; by apply list_elem_of_singleton|done|].
        intros w [Hin| ->%list_elem_of_singleton]%elem_of_app Hnw; [|apply no_worse_refl].
        apply (no_worse_trans k want v b w); auto; [apply Hk, elem_of_app; by left|].
        unfold no_worse. by destruct want; rewrite Hc. }
      assert (Hold : no_worse want b v -> best_of want (seen ++ [v]) (Some b)).
      { intros Hc. simpl. split_and!; [apply elem_of_app; by left|done|].
        intros w [Hin| ->%list_elem_of_singleton]%elem_of_app Hnw; auto. }
      unfold no_worse in Hold. rewrite (compare_total_antisym v b) in Hold.
      destruct want, (compare_total v b); simpl in Hold; first [apply Hnew; done|apply Hold; done].
    + split_and!; [apply elem_of_app; right; by apply list_elem_of_singleton|done|].
      rewrite Forall_forall in Hb.
      intros w [Hin| ->%list_elem_of_singleton]%elem_of_app Hnw; [|apply no_worse_refl].
      rewrite (Hb w Hin) in Hnw. done.
Qed.

Lemma best_fold k want col :
  Forall (fun v => has_kind k v = true) col ->
  best_of want col (fold_left (best_step want) col None).
Proof.
  induction col as [|v col IH] using rev_ind; intros Hk; [by constructor|].
  rewrite fold_left_app. simpl. apply (best_step_spec k); [done|]. apply IH.
  by apply Forall_app in Hk as [Hk _].
Qed.
End Extremes.

(** MIN (MAX) of a column of values of one kind and NULLs is NULL when every
    cell is NULL; otherwise it is a non-NULL cell of the column that no non-NULL
    cell precedes (follows) in the engine's order. *)
Theorem min_max_correct `{U : Unicode} `{D : DateLib} k (want_min : bool) col :
  Forall (fun v => has_kind k v = true) col ->
  let v := aggregate_numeric (if want_min then lit "min" else lit "max") col in
  (v = VNull /\ Forall (fun v => is_null v = true) col)
  \/ (v ∈ col /\ is_null v = false
      /\ forall w, w ∈ col -> is_null w = false -> no_worse want_min v w).
Proof.
  intros Hk. cbv zeta.
  assert (Hv : aggregate_numeric (if want_min then lit "min" else lit "max") col
    = or_null (fold_left (best_step want_min) col None)) by (by destruct want_min).
  rewrite Hv. pose proof (best_fold k want_min col Hk) as Hb.
  destruct (fold_left _ col None) as [b|]; simpl in *; [by right|by left].
Qed.

(** ** Text functions *)

(** LEFT, RIGHT and MID cut a text by characters and never fail: for
    [n >= 0] LEFT(s, n) followed by MID(s, n + 1) is [s], RIGHT(s, n) is the
    end of [s] of the length of LEFT(s, n), MID with a length is the start of
    MID without one, and a negative count cuts nothing off to the left. *)
Theorem text_cuts_correct s n m :
  (0 <= n)%Z -> (0 <= m)%Z ->
  exists a b c, str_left s n = VString a /\ str_mid s (n + 1) None = VString b
    /\ str_right s n = VString c
    /\ a ++ b = s /\ Z.of_nat (length a) = (n `min` Z.of_nat (length s))%Z
    /\ length c = length a /\ (exists p, p ++ c = s)
    /\ str_mid s (n + 1) (Some m) = VString (take (Z.to_nat (m `min` Z.of_nat (length s))) b)
    /\ str_left s (- n - 1) = VString [] /\ str_right s (- n - 1) = VString [].
Proof.
  intros Hn Hm. unfold str_left, str_mid, str_right.
  destruct (Z.ltb_spec (n + 1) 1); [lia|]. replace (n + 1 - 1)%Z with n by lia.
  exists (take (clamp n s) s), (drop (clamp n s) s), (drop (length s - clamp n s) s).
  assert (Hc : Z.of_nat (clamp n s) = (n `min` Z.of_nat (length s))%Z) by (unfold clamp; lia).
  assert (Hz : clamp (- n - 1) s = 0) by (unfold clamp; lia). rewrite Hz.
  split_and!; [done| |done|apply take_drop|rewrite length_take; lia
    |rewrite length_take, length_drop; lia|exists (take (length s - clamp n s) s); apply take_drop| |done|].
  - destruct (Z.leb_spec (Z.of_nat (length s)) n).
    + by rewrite drop_ge by lia.
    + by replace (Z.to_nat n) with (clamp n s) by lia.
  - destruct (Z.leb_spec (Z.of_nat (length s)) n).
    + rewrite drop_ge by lia. by rewrite take_nil.
    + destruct (Z.leb_spec 0 m); [|lia]. replace (Z.to_nat n) with (clamp n s) by lia.
      f_equal. unfold clamp at 1. rewrite length_drop.
      destruct (decide (Z.of_nat (length s - clamp n s) <= m)%Z).
      * rewrite !take_ge by (rewrite length_drop; lia). done.
      * f_equal. lia.
  - by rewrite Nat.sub_0_r, drop_ge.
Qed.

(** ** The registry *)

(** Registered functions are found under any spelling of their name, the last
    registration wins, and other names are untouched; but a built-in scalar
    function always takes precedence over whatever is registered under its
    name. *)
Theorem registry_correct `{U : Unicode} `{D : DateLib} `{L : Libm} {W} (r : registry W) name f g k :
  (forall n, get_custom (register_custom r name f k) n
             = if decide (to_lowercase n = to_lowercase name) then Some (f, k) else get_custom r n)
  /\ (forall n k', get_dynamic (register_dynamic r name g k) n k'
             = if decide (to_lowercase n = to_lowercase name)
               then if decide (k = k') then Some g else None
               else get_dynamic r n k')
  /\ (forall n, to_lowercase n = to_lowercase name ->
        reg_contains (register_custom r name f k) n = true
        /\ (k = Aggregate -> reg_is_aggregate (register_custom r name f k) n = true))
  /\ (forall (en : engine W) n args res, call_scalar n args = Some res ->
        call_scalar_fn en n args = st_lift res).
Proof.
  split_and!.
  - intros n. unfold get_custom, register_custom. simpl.
    destruct (decide _) as [->|Hne]; [by rewrite lookup_insert_eq|by rewrite lookup_insert_ne].
  - intros n k'. unfold get_dynamic, register_dynamic. simpl.
    destruct (decide _) as [->|Hne]; [by rewrite lookup_insert_eq|by rewrite lookup_insert_ne].
  - intros n Hn. unfold reg_contains, reg_is_aggregate, has_key, register_custom. simpl.
    rewrite Hn, lookup_insert_eq. split; [by rewrite orb_true_r|].
    intros ->. by rewrite orb_true_r.
  - intros en n args res Hc. unfold call_scalar_fn. by rewrite Hc.
Qed.

(** ** The replacement loops consume their text *)

Lemma strip_prefix_length pre s rest :
  strip_prefix pre s = Some rest -> length s = length pre + length rest.
Proof.
  revert s. induction pre as [|a pre IH]; intros [|b s]; simpl; try (by intros [= <-]).
  case_match; [|done]. intros Hs%IH. lia.
Qed.

(** Any count from the length of the text on gives the same replacement. *)
Lemma replace_go_fuel from to s f1 f2 :
  from <> [] -> length s <= f1 -> length s <= f2 ->
  replace_go f1 from to s = replace_go f2 from to s.
Proof.
  intros Hn. revert s f2. induction f1 as [|f1 IH]; intros [|c s] [|f2] H1 H2; simpl in *; try lia;
    try done; try (by destruct from).
  destruct (strip_prefix from (c :: s)) as [rest|] eqn:Hp.
  - f_equal. apply strip_prefix_length in Hp. destruct from; [done|]. simpl in Hp. apply IH; lia.
  - f_equal. apply IH; lia.
Qed.

Section ReplaceNocase.
Context {U : Unicode}.

Lemma strip_prefix_ci_length pre s rest :
  strip_prefix_ci pre s = Some rest -> length s = length pre + length rest.
Proof.
  revert s. induction pre as [|a pre IH]; intros [|b s]; simpl; try (by intros [= <-]).
  case_match; [|done]. intros Hs%IH. lia.
Qed.

Lemma replace_nocase_go_fuel from to s f1 f2 :
  from <> [] -> length s <= f1 -> length s <= f2 ->
  replace_nocase_go f1 from to s = replace_nocase_go f2 from to s.
Proof.
  intros Hn. revert s f2. induction f1 as [|f1 IH]; intros [|c s] [|f2] H1 H2;
    cbn [length replace_nocase_go] in *; try lia; try done.
  destruct (strip_prefix_ci from (c :: s)) as [rest|] eqn:Hp.
  - f_equal. apply strip_prefix_ci_length in Hp. destruct from; [done|]. simpl in Hp. apply IH; lia.
  - f_equal. apply IH; lia.
Qed.
End ReplaceNocase.
