(* ===== verification/QoqCompiled.v ===== *)
(** * QoqCompiled: column binding and the compiled WHERE form

    [bind_expr] of [cfml-qoq/src/execution.rs] (column references resolved once
    per query, constant LIKE patterns compiled once) and
    [cfml-qoq/src/compiled.rs] with [Engine::eval_compiled].  Both are
    optimisations: the theorems say that neither changes the result or the
    effects of evaluating an expression. *)

From stdpp Require Import base list numbers strings gmap.
From S2P Require Import Prelude Text Float64 Value QoqLike QoqAst QoqCompare QoqTable QoqFunctions QoqOps QoqEval.
#[local] Open Scope st_scope.

(** ** Binding *)

Section Bind.
Context {U : Unicode} {D : DateLib} {R : RegexCrate} (tables : table_set).

(** The escape character known at bind time: [Some None] without an ESCAPE
    clause, [None] when the escape is not a literal. *)
Definition constant_escape (escape : option expr) : option (option char) :=
  match escape with
  | None => Some None
  | Some (XLiteral ev) => Some (head (as_string ev))
  | Some _ => None
  end.

Definition precompile (pattern : expr) (escape : option expr) : option like_inner :=
  match pattern with
  | XLiteral pv =>
      if is_null pv then None
      else match constant_escape escape with
           | Some esc => Some (like_compile (as_string pv) esc)
           | None => None
           end
  | _ => None
  end.

Fixpoint bind_expr (e : expr) : expr :=
  match e with
  | XColumn table name =>
      match resolve_column tables table name with
      | Some (ti, ci) => XResolvedColumn ti ci name
      | None => e
      end
  | XResolvedColumn _ _ _ => e
  | XBinary l op r => XBinary (bind_expr l) op (bind_expr r)
  | XUnary op e => XUnary op (bind_expr e)
  | XCast e ty => XCast (bind_expr e) ty
  | XIsNull e n => XIsNull (bind_expr e) n
  | XFunction name args d => XFunction name (map bind_expr args) d
  | XCase o ws el =>
      XCase (option_map bind_expr o)
        (map (fun w => match w with WhenThen a b => WhenThen (bind_expr a) (bind_expr b) end) ws)
        (option_map bind_expr el)
  | XInList e n l => XInList (bind_expr e) n (map bind_expr l)
  | XBetween e n lo hi => XBetween (bind_expr e) n (bind_expr lo) (bind_expr hi)
  | XLike e n p es c =>
      let p' := bind_expr p in
      let es' := option_map bind_expr es in
      XLike (bind_expr e) n p' es'
        (match c with Some _ => c | None => precompile p' es' end)
  | XInSubquery e n s => XInSubquery (bind_expr e) n s
  | XScalarSubquery _ | XStar _ | XLiteral _ | XParam _ => e
  end.
End Bind.

(** ** The compiled form *)

Inductive cmp_op := OEq | ONeq | OLt | OLte | OGt | OGte.

Inductive compiled_expr :=
  | CNull
  | CLitBool (b : bool)
  | CLitInt (i : Z)
  | CLitDouble (d : f64)
  | CLitString (s : str)
  | CColumn (ti ci : nat)
  | CAnd (parts : list compiled_expr)
  | COr (parts : list compiled_expr)
  | CNot (e : compiled_expr)
  | CIsNull (e : compiled_expr) (negated : bool)
  | CColCmpLit (ti ci : nat) (op : cmp_op) (rhs : value)
  | CCmp (lhs : compiled_expr) (op : cmp_op) (rhs : compiled_expr)
  | CColInLits (ti ci : nat) (negated : bool) (lits : list value)
  | CLikeConst (lhs : compiled_expr) (negated : bool) (compiled : like_inner)
  | CGeneric (e : expr).

Definition bin_to_cmp (op : binary_op) : option cmp_op :=
  match op with
  | BEq => Some OEq | BNeq => Some ONeq | BLt => Some OLt
  | BLte => Some OLte | BGt => Some OGt | BGte => Some OGte
  | _ => None
  end.

Definition reverse_cmp (op : cmp_op) : cmp_op :=
  match op with OEq => OEq | ONeq => ONeq | OLt => OGt | OGt => OLt | OLte => OGte | OGte => OLte end.

Definition literal_of (e : expr) : option value :=
  match e with XLiteral v => Some v | _ => None end.

(** [collect::<Option<Vec<_>>>()] *)
Fixpoint all_literals (l : list expr) : option (list value) :=
  match l with
  | [] => Some []
  | e :: l => v ← literal_of e; vs ← all_literals l; Some (v :: vs)
  end.

(** What the mutually recursive [compile], [push_and] and [push_or] give for an
    expression. *)
Record compilation := Compilation {
  cp_compile : compiled_expr;
  cp_and : list compiled_expr;
  cp_or : list compiled_expr;
}.

Definition compile_literal (e : expr) (v : value) : compiled_expr :=
  match v with
  | VNull => CNull
  | VBool b => CLitBool b
  | VInt i => CLitInt i
  | VDouble d => CLitDouble d
  | VString s => CLitString s
  | _ => CGeneric e
  end.

Fixpoint compile_all (e : expr) : compilation :=
  let leaf c := Compilation c [c] [c] in
  match e with
  | XLiteral v => leaf (compile_literal e v)
  | XResolvedColumn ti ci _ => leaf (CColumn ti ci)
  | XIsNull inner negated => leaf (CIsNull (cp_compile (compile_all inner)) negated)
  | XUnary UNot inner => leaf (CNot (cp_compile (compile_all inner)))
  | XBinary l op r =>
      let cl := compile_all l in
      let cr := compile_all r in
      match op with
      | BAnd => let parts := cp_and cl ++ cp_and cr in
                Compilation (CAnd parts) parts [CAnd parts]
      | BOr => let parts := cp_or cl ++ cp_or cr in
               Compilation (COr parts) [COr parts] parts
      | _ =>
          leaf (match bin_to_cmp op with
                | Some cmp =>
                    match l, r with
                    | XResolvedColumn ti ci _, XLiteral v => CColCmpLit ti ci cmp v
                    | XLiteral v, XResolvedColumn ti ci _ => CColCmpLit ti ci (reverse_cmp cmp) v
                    | _, _ => CCmp (cp_compile cl) cmp (cp_compile cr)
                    end
                | None => CGeneric e
                end)
      end
  | XInList lhs negated items =>
      leaf (match lhs, all_literals items with
            | XResolvedColumn ti ci _, Some lits => CColInLits ti ci negated lits
            | _, _ => CGeneric e
            end)
  | XLike lhs negated _ _ (Some c) =>
      leaf (CLikeConst (cp_compile (compile_all lhs)) negated c)
  | _ => leaf (CGeneric e)
  end.

Definition compile (e : expr) : compiled_expr := cp_compile (compile_all e).
Definition push_and (e : expr) : list compiled_expr := cp_and (compile_all e).
Definition push_or (e : expr) : list compiled_expr := cp_or (compile_all e).

Definition cmp_op_test (op : cmp_op) (o : comparison) : bool :=
  match op, o with
  | OEq, Eq => true | OEq, _ => false
  | ONeq, Eq => false | ONeq, _ => true
  | OLt, Lt => true | OLt, _ => false
  | OLte, Gt => false | OLte, _ => true
  | OGt, Gt => true | OGt, _ => false
  | OGte, Lt => false | OGte, _ => true
  end.

Section EvalCompiled.
Context {U : Unicode} {D : DateLib} {R : RegexCrate} {L : Libm} {W : Type}.
Context (en : engine W) (run_sub : select_statement -> ST W cfml_error query_data).
Context (tables : table_set).

Definition cmp_to_bool_value (l : value) (op : cmp_op) (r : value) : value :=
  match compare_sql l r with None => VNull | Some o => VBool (cmp_op_test op o) end.

Section Parts.
Context (ev : compiled_expr -> ST W cfml_error value).

Fixpoint and_loop (any_unknown : bool) (parts : list compiled_expr) : ST W cfml_error value :=
  match parts with
  | [] => st_ret (if any_unknown then VNull else VBool true)
  | p :: parts =>
      let! v := ev p in
      match tri v with
      | Some false => st_ret (VBool false)
      | None => and_loop true parts
      | Some true => and_loop any_unknown parts
      end
  end.

Fixpoint or_loop (any_unknown : bool) (parts : list compiled_expr) : ST W cfml_error value :=
  match parts with
  | [] => st_ret (if any_unknown then VNull else VBool false)
  | p :: parts =>
      let! v := ev p in
      match tri v with
      | Some true => st_ret (VBool true)
      | None => or_loop true parts
      | Some false => or_loop any_unknown parts
      end
  end.
End Parts.

Fixpoint eval_compiled (ce : compiled_expr) (ctx : row_ctx) {struct ce}
    : ST W cfml_error value :=
  match ce with
  | CNull => st_ret VNull
  | CLitBool b => st_ret (VBool b)
  | CLitInt i => st_ret (VInt i)
  | CLitDouble d => st_ret (VDouble d)
  | CLitString s => st_ret (VString s)
  | CColumn ti ci => eval_resolved_column tables ti ci ctx
  | CAnd parts => and_loop (fun p => eval_compiled p ctx) false parts
  | COr parts => or_loop (fun p => eval_compiled p ctx) false parts
  | CNot inner =>
      let! v := eval_compiled inner ctx in
      st_ret (match tri v with Some b => VBool (negb b) | None => VNull end)
  | CIsNull inner negated =>
      let! v := eval_compiled inner ctx in st_ret (VBool (xorb (is_null v) negated))
  | CColCmpLit ti ci op rhs =>
      let! v := eval_resolved_column tables ti ci ctx in
      st_ret (cmp_to_bool_value v op rhs)
  | CCmp lhs op rhs =>
      let! l := eval_compiled lhs ctx in
      let! r := eval_compiled rhs ctx in
      st_ret (cmp_to_bool_value l op r)
  | CColInLits ti ci negated lits =>
      let! v := eval_resolved_column tables ti ci ctx in
      if is_null v then st_ret VNull
      else st_ret (in_subquery_result v negated lits)
  | CLikeConst lhs negated c =>
      let! v := eval_compiled lhs ctx in
      if is_null v then st_ret VNull
      else st_ret (VBool (xorb (like_matches c (as_string v)) negated))
  | CGeneric e => eval en run_sub tables e ctx
  end.
End EvalCompiled.

(** ** Binding preserves evaluation *)

Section BindCorrect.
Context {U : Unicode} {D : DateLib} {R : RegexCrate} {L : Libm} {W : Type}.
Context (en : engine W) (run_sub : select_statement -> ST W cfml_error query_data).
Context (tables : table_set).
Abbreviation ev := (eval en run_sub tables).

Lemma eval_bound_column table name ti ci ctx :
  resolve_column tables table name = Some (ti, ci) ->
  eval_resolved_column (W:=W) tables ti ci ctx = eval_column tables table name ctx.
Proof.
  intros H. unfold eval_resolved_column, eval_column, column_value. by rewrite H.
Qed.

(** Loops over a mapped list of expressions. *)
Lemma in_list_loop_map (f g : expr -> ST W cfml_error value) (h : expr -> expr) t n fn l :
  Forall (fun e => meq (f (h e)) (g e)) l ->
  meq (in_list_loop f t n fn (map h l)) (in_list_loop g t n fn l).
Proof.
  intros H. revert fn. induction H as [|e l He _ IH]; intros fn; simpl; [done|].
  apply st_bind_cong; [done|]. intros v. case_match; [done|apply IH].
Qed.

Lemma case_loop_map (f g : expr -> ST W cfml_error value) (h : expr -> expr) ov ws e1 e2 :
  Forall (fun w => meq (f (h (wt_when w))) (g (wt_when w))
                /\ meq (f (h (wt_then w))) (g (wt_then w))) ws ->
  meq e1 e2 ->
  meq (case_loop f ov (map (fun w => match w with
                                     | WhenThen a b => WhenThen (h a) (h b) end) ws) e1)
      (case_loop g ov ws e2).
Proof.
  intros H He. induction H as [|[a b] ws [Ha Hb] _ IH]; simpl in *; [done|].
  apply st_bind_cong; [done|]. intros v. by case_match.
Qed.

Lemma eval_aggregate_call_map (f g : list nat -> expr -> ST W cfml_error value)
    (h : expr -> expr) name args d ctx :
  (forall t, h (XStar t) = XStar t) ->
  (forall e, match e with XStar _ => True | _ => is_star_arg [h e] = false end) ->
  Forall (fun e => forall inter, meq (f inter (h e)) (g inter e)) args ->
  meq (eval_aggregate_call en f name (map h args) d ctx)
      (eval_aggregate_call en g name args d ctx).
Proof.
  intros Hstar Hns H.
  assert (Hcol : Forall (fun e => meq (st_mapM (fun i => f i (h e)) (in_iter (ctx_partition ctx)))
             (st_mapM (fun i => g i e) (in_iter (ctx_partition ctx)))) args).
  { eapply Forall_impl; [exact H|]. intros e He. apply st_mapM_cong.
    apply Forall_true. intros. apply He. }
  assert (Hs : is_star_arg (map h args) = is_star_arg args).
  { destruct args as [|a args]; [done|]. specialize (Hns a). simpl.
    destruct a; try (by rewrite Hstar);
      simpl in *; by destruct (h _). }
  unfold eval_aggregate_call. rewrite Hs. case_match; [case_match; [done|]|case_match].
  - destruct Hcol as [|a args Ha _]; [done|]. simpl. by apply st_bind_cong.
  - destruct Hcol as [|a args Ha _]; [done|]. cbn [map].
    apply st_bind_cong; [done|]. intros col. case_match; [|done].
    apply st_bind_cong; [|done]. case_match; [done|].
    apply Forall_cons_1 in H as [_ H]. destruct H as [|b args Hb _]; [done|]. cbn [map].
    apply st_bind_cong; [done|]. intros i. by apply st_bind_cong.
  - apply st_bind_cong; [|done]. rewrite st_mapM_map. apply st_mapM_cong.
    eapply Forall_impl; [exact Hcol|]. intros e He. by apply st_bind_cong.
Qed.

Lemma bind_like_compiled p es c v negated ctx :
  (forall ctx, meq (ev (bind_expr tables p) ctx) (ev p ctx)) ->
  option_Forall (fun e => forall ctx, meq (ev (bind_expr tables e) ctx) (ev e ctx)) es ->
  let p' := bind_expr tables p in
  let es' := option_map (bind_expr tables) es in
  meq (ev (XLike (XLiteral v) negated p' es'
             (match c with Some _ => c | None => precompile p' es' end)) ctx)
      (ev (XLike (XLiteral v) negated p es c) ctx).
Proof.
  intros Hp Hes. simpl. rewrite !st_bind_ret_l. case_match; [done|].
  destruct c as [c|]; [done|].
  assert (Hslow : meq (let! p := ev (bind_expr tables p) ctx in
      if is_null p then st_ret VNull
      else let! esc := match option_map (bind_expr tables) es with
                       | Some e => let! v := ev e ctx in st_ret (head (as_string v))
                       | None => st_ret None
                       end in
           st_ret (VBool (xorb (like_match (as_string v) (as_string p) esc) negated)))
    (let! p := ev p ctx in
      if is_null p then st_ret VNull
      else let! esc := match es with
                       | Some e => let! v := ev e ctx in st_ret (head (as_string v))
                       | None => st_ret None
                       end in
           st_ret (VBool (xorb (like_match (as_string v) (as_string p) esc) negated)))).
  { apply st_bind_cong; [apply Hp|]. intros pv. case_match; [done|].
    apply st_bind_cong; [|done]. destruct Hes as [|e He]; [done|]. simpl.
    by apply st_bind_cong. }
  destruct (precompile _ _) as [c|] eqn:Hc; [|exact Hslow].
  rewrite <- Hslow. unfold precompile in Hc.
  destruct (bind_expr tables p) as [| | |pv| | | | | | | | | | | |]; try discriminate.
  destruct (is_null pv) eqn:Hn; [discriminate|].
  destruct (constant_escape _) as [esc|] eqn:He; [|discriminate]. simplify_eq.
  simpl. rewrite st_bind_ret_l, Hn.
  unfold constant_escape in He.
  destruct (option_map (bind_expr tables) es) as [[| | |evv| | | | | | | | | | | |]|];
    simplify_eq; simpl; by rewrite ?st_bind_ret_l.
Qed.

Lemma eval_bind_expr e ctx : meq (ev (bind_expr tables e) ctx) (ev e ctx).
Proof.
  revert ctx. induction e as [| | | |l op r IHl IHr|op e IHe|n args d IH|o ws el IHo IHw IHe
    |e ty IHe|e n IHe|e n l IHe IHl|e n s IHe|e n lo hi IHe IHlo IHhi|e n p es c IHe IHp IHes
    | |] using expr_ind'; intros ctx; try done.
  - simpl. destruct (resolve_column tables t n) as [[ti ci]|] eqn:Hr; [|done].
    simpl. by rewrite (eval_bound_column _ _ _ _ _ Hr).
  - simpl. destruct op; (apply st_bind_cong; [apply IHl|]); intros vl; try case_match; try done;
      (apply st_bind_cong; [apply IHr|done]).
  - simpl. by apply st_bind_cong.
  - simpl. case_match.
    + apply eval_aggregate_call_map; [done| |].
      * intros []; simpl; try done; by repeat case_match.
      * eapply Forall_impl; [exact IH|]. auto.
    + apply st_bind_cong; [|done]. rewrite st_mapM_map. apply st_mapM_cong.
      eapply Forall_impl; [exact IH|]. auto.
  - simpl. apply st_bind_cong.
    + destruct IHo as [|o IHo]; [done|]. simpl. by apply st_bind_cong.
    + intros ov. apply case_loop_map.
      * eapply Forall_impl; [exact IHw|]. intros w [H1 H2]. auto.
      * destruct IHe as [|el IHe]; [done|]. simpl. apply IHe.
  - simpl. by apply st_bind_cong.
  - simpl. by apply st_bind_cong.
  - simpl. apply st_bind_cong; [done|]. intros v. case_match; [done|].
    apply in_list_loop_map. eapply Forall_impl; [exact IHl|]. auto.
  - simpl. apply st_bind_cong; [done|]. by intros v.
  - simpl. apply st_bind_cong; [done|]. intros v. apply st_bind_cong; [done|]. intros w.
    by apply st_bind_cong.
  - cbn [bind_expr]. simpl. apply st_bind_cong; [done|]. intros v.
    pose proof (bind_like_compiled p es c v n ctx IHp IHes) as H. simpl in H.
    by rewrite !st_bind_ret_l in H.
Qed.
End BindCorrect.

(** ** Compilation preserves evaluation *)

(** The literals of an IN list are scalars.  The parser produces no other
    literal; an array literal would be expanded by [eval] and not by the
    compiled form. *)
Definition scalar_item (e : expr) : bool :=
  match e with XLiteral (VArray _) => false | _ => true end.

Fixpoint scalar_in_lists (e : expr) : bool :=
  match e with
  | XBinary l _ r => scalar_in_lists l && scalar_in_lists r
  | XUnary _ e | XIsNull e _ | XLike e _ _ _ _ => scalar_in_lists e
  | XInList _ _ items => forallb scalar_item items
  | _ => true
  end.

Section CompileCorrect.
Context {U : Unicode} {D : DateLib} {R : RegexCrate} {L : Libm} {W : Type}.
Context (en : engine W) (run_sub : select_statement -> ST W cfml_error query_data).
Context (tables : table_set).
Abbreviation ev := (eval en run_sub tables).
Abbreviation evc := (eval_compiled en run_sub tables).

Lemma all_literals_Some l vs : all_literals l = Some vs -> l = map XLiteral vs.
Proof.
  revert vs; induction l as [|e l IH]; intros vs; simpl; [naive_solver|].
  destruct e; simpl; try done. destruct (all_literals l); simpl; [|done].
  intros [= <-]. simpl. by rewrite (IH _ eq_refl).
Qed.

Lemma in_list_loop_literals target negated fn vs ctx :
  forallb scalar_item (map XLiteral vs) = true ->
  meq (in_list_loop (fun a => ev a ctx) target negated fn (map XLiteral vs))
      (st_ret (match scan_equal target fn vs with
               | inl _ => VBool (negb negated)
               | inr fn => membership_result false fn negated
               end)).
Proof.
  revert fn; induction vs as [|v vs IH]; intros fn; simpl; [done|].
  rewrite andb_true_iff. intros [Hv Hvs]. rewrite st_bind_ret_l.
  assert (in_candidates v = [v]) as -> by (by destruct v). simpl.
  destruct (sql_equal target v) as [[]|]; [done|by apply IH..].
Qed.

Lemma cmp_op_test_bin op cmp o : bin_to_cmp op = Some cmp -> cmp_op_test cmp o = cmp_test op o.
Proof. destruct op, o; simpl; intros; by simplify_eq. Qed.

Lemma cmp_to_bool_value_binary l op cmp r :
  bin_to_cmp op = Some cmp -> apply_binary l op r = Ok (cmp_to_bool_value l cmp r).
Proof.
  intros H. unfold cmp_to_bool_value.
  assert (Hb : apply_binary l op r = Ok (match compare_sql l r with
      None => VNull | Some o => VBool (cmp_test op o) end)) by (by destruct op).
  rewrite Hb. destruct (compare_sql l r); [|done]. by rewrite (cmp_op_test_bin op).
Qed.

Lemma cmp_to_bool_value_reverse l cmp r :
  cmp_to_bool_value r (reverse_cmp cmp) l = cmp_to_bool_value l cmp r.
Proof.
  unfold cmp_to_bool_value. rewrite compare_sql_antisym.
  destruct (compare_sql l r) as [o|]; simpl; [|done]. by destruct cmp, o.
Qed.

Definition and_spec (e : expr) (ctx : row_ctx) : Prop :=
  forall u rest, meq (and_loop (fun p => evc p ctx) u (push_and e ++ rest))
    (let! v := ev e ctx in
     match tri v with
     | Some false => st_ret (VBool false)
     | None => and_loop (fun p => evc p ctx) true rest
     | Some true => and_loop (fun p => evc p ctx) u rest
     end).

Definition or_spec (e : expr) (ctx : row_ctx) : Prop :=
  forall u rest, meq (or_loop (fun p => evc p ctx) u (push_or e ++ rest))
    (let! v := ev e ctx in
     match tri v with
     | Some true => st_ret (VBool true)
     | None => or_loop (fun p => evc p ctx) true rest
     | Some false => or_loop (fun p => evc p ctx) u rest
     end).

Definition compile_spec (e : expr) : Prop :=
  forall ctx, meq (evc (compile e) ctx) (ev e ctx) /\ and_spec e ctx /\ or_spec e ctx.

(** Every shape but AND and OR is a part of its own. *)
Lemma compile_leaf e :
  push_and e = [compile e] -> push_or e = [compile e] ->
  (forall ctx, meq (evc (compile e) ctx) (ev e ctx)) -> compile_spec e.
Proof.
  intros Ha Ho H ctx. split; [apply H|]. split; intros u rest.
  - rewrite Ha. simpl. apply st_bind_cong; [apply H|]. by intros v.
  - rewrite Ho. simpl. apply st_bind_cong; [apply H|]. by intros v.
Qed.

Lemma tri_and3 a b : tri (and3 a b) = match a, b with
  | Some false, _ | _, Some false => Some false | Some true, Some true => Some true
  | _, _ => None end.
Proof. by destruct a as [[]|], b as [[]|]. Qed.

Lemma tri_or3 a b : tri (or3 a b) = match a, b with
  | Some true, _ | _, Some true => Some true | Some false, Some false => Some false
  | _, _ => None end.
Proof. by destruct a as [[]|], b as [[]|]. Qed.

(** A logical operator returns a boolean or NULL, which its own truth value
    determines. *)
Lemma and_value l r ctx :
  meq (let! v := ev (XBinary l BAnd r) ctx in
       match tri v with
       | Some false => st_ret (VBool false)
       | None => st_ret VNull
       | Some true => st_ret (VBool true)
       end) (ev (XBinary l BAnd r) ctx).
Proof.
  simpl. rewrite st_bind_assoc. apply st_bind_cong; [done|]. intros vl.
  case_bool_decide as Hv; [by rewrite st_bind_ret_l|].
  rewrite st_bind_assoc. apply st_bind_cong; [done|]. intros vr.
  rewrite st_bind_ret_l, tri_and3. by destruct (tri vl) as [[]|], (tri vr) as [[]|].
Qed.

Lemma or_value l r ctx :
  meq (let! v := ev (XBinary l BOr r) ctx in
       match tri v with
       | Some true => st_ret (VBool true)
       | None => st_ret VNull
       | Some false => st_ret (VBool false)
       end) (ev (XBinary l BOr r) ctx).
Proof.
  simpl. rewrite st_bind_assoc. apply st_bind_cong; [done|]. intros vl.
  case_bool_decide as Hv; [by rewrite st_bind_ret_l|].
  rewrite st_bind_assoc. apply st_bind_cong; [done|]. intros vr.
  rewrite st_bind_ret_l, tri_or3. by destruct (tri vl) as [[]|], (tri vr) as [[]|].
Qed.

Lemma compile_and l r : compile_spec l -> compile_spec r -> compile_spec (XBinary l BAnd r).
Proof.
  intros Hl Hr ctx. destruct (Hl ctx) as (_ & Hla & _), (Hr ctx) as (_ & Hra & _).
  unfold and_spec in Hla, Hra.
  assert (Ha : and_spec (XBinary l BAnd r) ctx).
  { intros u rest. change (push_and (XBinary l BAnd r)) with (push_and l ++ push_and r).
    rewrite <- app_assoc, Hla. simpl. rewrite st_bind_assoc.
    apply st_bind_cong; [done|]. intros vl.
    destruct (tri vl) as [[]|]; simpl; rewrite ?st_bind_ret_l, ?Hra, ?st_bind_assoc; try done;
      (apply st_bind_cong; [done|]); intros vr; rewrite st_bind_ret_l;
      by destruct (tri vr) as [[]|]. }
  assert (Hv : meq (evc (compile (XBinary l BAnd r)) ctx) (ev (XBinary l BAnd r) ctx)).
  { rewrite <- (and_value l r ctx). rewrite <- (Ha false []), app_nil_r. done. }
  split; [done|]. split; [done|]. intros u rest.
  change (push_or (XBinary l BAnd r)) with [compile (XBinary l BAnd r)].
  cbn [app or_loop]. by apply st_bind_cong.
Qed.

Lemma compile_or l r : compile_spec l -> compile_spec r -> compile_spec (XBinary l BOr r).
Proof.
  intros Hl Hr ctx. destruct (Hl ctx) as (_ & _ & Hlo), (Hr ctx) as (_ & _ & Hro).
  unfold or_spec in Hlo, Hro.
  assert (Ho : or_spec (XBinary l BOr r) ctx).
  { intros u rest. change (push_or (XBinary l BOr r)) with (push_or l ++ push_or r).
    rewrite <- app_assoc, Hlo. simpl. rewrite st_bind_assoc.
    apply st_bind_cong; [done|]. intros vl.
    destruct (tri vl) as [[]|]; simpl; rewrite ?st_bind_ret_l, ?Hro, ?st_bind_assoc; try done;
      (apply st_bind_cong; [done|]); intros vr; rewrite st_bind_ret_l;
      by destruct (tri vr) as [[]|]. }
  assert (Hv : meq (evc (compile (XBinary l BOr r)) ctx) (ev (XBinary l BOr r) ctx)).
  { rewrite <- (or_value l r ctx). rewrite <- (Ho false []), app_nil_r. done. }
  split; [done|]. split; [|done]. intros u rest.
  change (push_and (XBinary l BOr r)) with [compile (XBinary l BOr r)].
  cbn [app and_loop]. by apply st_bind_cong.
Qed.

Lemma compile_cmp l op r cmp :
  bin_to_cmp op = Some cmp -> compile_spec l -> compile_spec r -> compile_spec (XBinary l op r).
Proof.
  intros Hop Hl Hr.
  assert (Hev : forall ctx, meq (ev (XBinary l op r) ctx)
    (let! vl := ev l ctx in let! vr := ev r ctx in st_ret (cmp_to_bool_value vl cmp vr))).
  { intros ctx. transitivity (let! vl := ev l ctx in let! vr := ev r ctx in
      (st_lift (apply_binary vl op vr))); [by destruct op; try discriminate Hop|].
    apply st_bind_cong; [done|]. intros vl. apply st_bind_cong; [done|]. intros vr.
    by rewrite (cmp_to_bool_value_binary _ _ _ _ Hop). }
  assert (Hc : compile (XBinary l op r) =
    match l, r with
    | XResolvedColumn ti ci _, XLiteral v => CColCmpLit ti ci cmp v
    | XLiteral v, XResolvedColumn ti ci _ => CColCmpLit ti ci (reverse_cmp cmp) v
    | _, _ => CCmp (compile l) cmp (compile r)
    end) by (destruct op; simpl in Hop; simplify_eq; done).
  apply compile_leaf; [by destruct op; try discriminate Hop..|]. intros ctx. rewrite Hev, Hc.
  assert (Hdef : meq (evc (CCmp (compile l) cmp (compile r)) ctx)
    (let! vl := ev l ctx in let! vr := ev r ctx in st_ret (cmp_to_bool_value vl cmp vr))).
  { simpl. apply st_bind_cong; [apply Hl|]. intros vl. apply st_bind_cong; [apply Hr|done]. }
  destruct l, r; try exact Hdef; simpl.
  - apply st_bind_cong; [done|]. intros vl. by rewrite st_bind_ret_l.
  - rewrite st_bind_ret_l. apply st_bind_cong; [done|]. intros vr.
    by rewrite cmp_to_bool_value_reverse.
Qed.

Lemma compile_correct_aux e : scalar_in_lists e = true -> compile_spec e.
Proof.
  induction e as [| | |v|l op r IHl IHr|op e IHe|n args d _|o ws el _ _ _
    |e ty _|e n IHe|e n l _ _|e n s _|e n lo hi _ _ _|e n p es c IHe _ _
    | |] using expr_ind'; simpl; intros Hs; try (by apply compile_leaf).
  - apply compile_leaf; [done..|]. intros ctx. by destruct v.
  - apply andb_true_iff in Hs as [Hl Hr].
    destruct (bin_to_cmp op) as [cmp|] eqn:Hop; [eapply compile_cmp; eauto|].
    destruct op; try discriminate; try (by apply compile_leaf).
    + apply compile_and; auto.
    + apply compile_or; auto.
  - destruct op; try (by apply compile_leaf). apply compile_leaf; [done..|]. intros ctx.
    simpl. apply st_bind_cong; [by apply IHe|]. intros v. by destruct (tri v).
  - apply compile_leaf; [done..|]. intros ctx. simpl.
    apply st_bind_cong; [by apply IHe|done].
  - apply compile_leaf; [done..|]. intros ctx. unfold compile. simpl.
    destruct e; try done. destruct (all_literals l) as [vs|] eqn:Hl; [|done].
    apply all_literals_Some in Hl as ->. simpl. apply st_bind_cong; [done|]. intros v.
    case_match; [done|]. by rewrite in_list_loop_literals.
  - destruct c as [c|]; [|by apply compile_leaf]. apply compile_leaf; [done..|]. intros ctx.
    simpl. apply st_bind_cong; [by apply IHe|done].
Qed.
End CompileCorrect.

(** C33. The compiled WHERE form evaluates to the same result, with the same
    effects and in every row or group context, as the bound expression it was
    compiled from: flattening AND/OR chains, swapping a literal to the right of
    a comparison and testing literal lists directly change nothing.  The
    expression is one whose IN lists hold no array value as a literal
    ([scalar_in_lists]); SQL text has no way to write one, so every parsed
    statement satisfies this ([parsed_where_correct]). *)
Theorem compile_correct `{U : Unicode} `{D : DateLib} `{R : RegexCrate} `{L : Libm} {W}
    (en : engine W) run_sub tables e ctx :
  scalar_in_lists e = true ->
  meq (eval_compiled en run_sub tables (compile e) ctx) (eval en run_sub tables e ctx).
Proof. intros H. by apply compile_correct_aux. Qed.

(** Binding column references and constant LIKE patterns against the
    tables in scope does not change the evaluation of any expression. *)
Theorem bind_expr_correct `{U : Unicode} `{D : DateLib} `{R : RegexCrate} `{L : Libm} {W}
    (en : engine W) run_sub tables e ctx :
  meq (eval en run_sub tables (bind_expr tables e) ctx) (eval en run_sub tables e ctx).
Proof. apply eval_bind_expr. Qed.
