(* ===== verification/QoqColumns.v ===== *)
(** * QoqColumns: column-major result helpers

    The free functions of [cfml-qoq/src/execution.rs] that work on the
    column-major output: DISTINCT masks, ORDER BY, LIMIT, the row/column
    transpose and the output column names.  Each panic of the source (an index
    out of range, the [expect] of the sort) is an outcome. *)

From stdpp Require Import base list numbers strings gmap.
From Stdlib Require Import Sorting.Permutation.
From S2P Require Import Prelude Text Value QoqAst QoqCompare QoqTable QoqFunctions QoqOps.
#[local] Open Scope outcome_scope.

(** ** What [std] and [rayon] leave open

    [sort_by] with a comparator that is not a total order returns the elements
    in an unspecified order or panics; a parallel [collect] of results reports
    some failing item, not necessarily the first. *)
Class Platform := {
  num_threads : nat;
  sort_unordered : (nat -> nat -> comparison) -> list nat -> option (list nat);
  rayon_pick : list bool -> nat;
  sort_unordered_perm : forall cmp l l', sort_unordered cmp l = Some l' -> Permutation l l';
  rayon_pick_fails : forall fails, existsb id fails = true ->
    fails !! rayon_pick fails = Some true;
}.

(** ** Stable sorting *)

Definition is_le (c : comparison) : bool := match c with Gt => false | _ => true end.

Section SortBy.
Context {P : Platform} (cmp : nat -> nat -> comparison).

(** Whether the comparator is a total preorder on the elements. *)
Definition total_order_on (l : list nat) : bool :=
  forallb (fun a => forallb (fun b => bool_decide (cmp b a = CompOpp (cmp a b))) l) l
  && forallb (fun a => forallb (fun b => forallb (fun c =>
       implb (is_le (cmp a b) && is_le (cmp b c)) (is_le (cmp a c))) l) l) l.

Fixpoint sort_insert (x : nat) (l : list nat) : list nat :=
  match l with
  | [] => [x]
  | y :: l' => if is_le (cmp x y) then x :: l else y :: sort_insert x l'
  end.

Definition stable_sort (l : list nat) : list nat := foldr sort_insert [] l.

(** [slice::sort_by] (and rayon's [par_sort_by], also stable). *)
Definition sort_by {E} (l : list nat) : outcome E (list nat) :=
  if total_order_on l then Ok (stable_sort l)
  else match sort_unordered cmp l with Some l' => Ok l' | None => Panic end.
End SortBy.

Section Columns.
Context {U : Unicode} {D : DateLib} {P : Platform}.
Context {E : Type}.

Abbreviation columns := (list (list value)).

(** ** DISTINCT *)

Definition row_key (data : columns) (i : nat) : outcome E str :=
  let? cells := omapM (fun col => index_or_panic col i) data in
  Ok (fold_left append_group_key cells []).

Definition dedup_keep_mask (data : columns) (row_count : nat) : outcome E (list bool) :=
  let? keys := omapM (row_key data) (seq 0 row_count) in
  Ok (first_seen ∅ keys).

Definition count_kept (keep : list bool) : nat := length (List.filter id keep).

(** [retain] with [keep[i]]. *)
Definition apply_keep_mask (data : columns) (keep : list bool) : outcome E (columns * nat) :=
  let? data' := omapM (fun col : list value =>
                         if length col <=? length keep then Ok (mask keep col) else Panic) data in
  Ok (data', count_kept keep).

Definition dedup_cols (data : columns) (row_count : nat) : outcome E (columns * nat) :=
  let? keep := dedup_keep_mask data row_count in
  apply_keep_mask data keep.

Definition dedup_cols_and_keys (data keys : columns) (row_count : nat)
    : outcome E (columns * columns * nat) :=
  let? keep := dedup_keep_mask data row_count in
  let? r := apply_keep_mask data keep in
  let? k := apply_keep_mask keys keep in
  Ok (r.1, k.1, k.2).

Definition truncate_cols (data : columns) (n : nat) : columns := map (take n) data.

(** ** ORDER BY *)

Definition key_cell (keys : columns) (c i : nat) : value := or_null (col ← keys !! c; col !! i).

Fixpoint order_cmp (keys : columns) (c : nat) (dirs : list sort_direction) (a b : nat)
    : comparison :=
  match dirs with
  | [] => Eq
  | dir :: dirs =>
      let o := compare_total (key_cell keys c a) (key_cell keys c b) in
      let o := match dir with Desc => CompOpp o | Asc => o end in
      match o with Eq => order_cmp keys (S c) dirs a b | Lt => Lt | Gt => Gt end
  end.

(** [taken[i].take().expect(..)] *)
Fixpoint take_cells (taken : list (option value)) (idx : list nat) : outcome E (list value) :=
  match idx with
  | [] => Ok []
  | i :: idx =>
      match taken !! i with
      | Some (Some v) => let? rest := take_cells (<[i := None]> taken) idx in Ok (v :: rest)
      | _ => Panic
      end
  end.

Definition sort_cols (data keys : columns) (order_by : list order_by_expr) (row_count : nat)
    : outcome E columns :=
  if (length order_by =? 0) || (row_count <? 2) then Ok data
  else
    let dirs := map ob_direction order_by in
    let? idx := sort_by (order_cmp keys 0 dirs) (seq 0 row_count) in
    omapM (fun col => take_cells (map Some col) idx) data.

(** ** LIMIT / OFFSET *)

Definition usize_sat_add (a b : Z) : Z := (a + b) `min` usize_max.

Definition apply_limit_cols (data : columns) (limit : option limit_clause) (row_count : nat)
    : outcome E (columns * nat) :=
  match limit with
  | None => Ok (data, row_count)
  | Some l =>
      let start := Z.to_nat (lim_offset l `min` Z.of_nat row_count) in
      let end_ := Z.to_nat (usize_sat_add (lim_offset l) (lim_count l) `min` Z.of_nat row_count) in
      let? data' :=
        omapM (fun col : list value =>
                 if start =? 0 then Ok (take end_ col)
                 else if (start <=? end_) && (end_ <=? length col)
                      then Ok (take (end_ - start) (drop start col)) else Panic) data in
      Ok (data', end_ - start)
  end.

Definition build_query (columns : list str) (data : list (list value)) : query_data :=
  mk_query columns data.
End Columns.

(** ** Rows to columns *)

Definition cell_or_null (row : list value) (ci : nat) : value := or_null (row !! ci).

Definition rows_to_cols_seq (rows : list (list value)) (col_count : nat) : list (list value) :=
  map (fun ci => map (fun row => cell_or_null row ci) rows) (seq 0 col_count).

(** The parallel transpose: rows are padded or cut to [col_count] cells in one
    flat buffer, from which worker [ci] reads the cells at
    [r * col_count + ci].  A read outside the buffer would be undefined
    behaviour. *)
Definition flatten_rows (rows : list (list value)) (col_count : nat) : list value :=
  concat (map (fun row => take col_count (row ++ replicate (col_count - length row) VNull)) rows).

Definition rows_to_cols_parallel {E} (rows : list (list value)) (col_count : nat)
    : outcome E (list (list value)) :=
  let flat := flatten_rows rows col_count in
  omapM (fun ci => omapM (fun r => index_or_panic flat (r * col_count + ci)) (seq 0 (length rows)))
    (seq 0 col_count).

Definition parallel_build_threshold : Z := 5000.

Definition rows_to_cols {E} (rows : list (list value)) (col_count : nat)
    : outcome E (list (list value)) :=
  if (col_count =? 0) || (length rows =? 0) then Ok (replicate col_count [])
  else if (parallel_build_threshold <=? Z.of_nat (length rows))%Z && (2 <=? col_count)
       then rows_to_cols_parallel rows col_count
       else Ok (rows_to_cols_seq rows col_count).

(** ** Output column names *)

Section Names.
Context {U : Unicode}.

Definition base_name (i : nat) (sc : select_column) : str :=
  match sc_alias sc, sc_expr sc with
  | Some a, _ => a
  | None, XColumn _ name | None, XResolvedColumn _ _ name | None, XFunction name _ _ => name
  | None, _ => lit "column_" ++ Z_to_str (Z.of_nat i)
  end.

Definition suffixed (base : str) (n : nat) : str := base ++ lit "_" ++ Z_to_str (Z.of_nat n).

(** [while !seen.insert(name.to_lowercase()) { n += 1; ... }]: one try per
    element of [seen] and one more always suffice. *)
Fixpoint unique_name (fuel n : nat) (base name : str) (seen : gset str) : str :=
  match fuel with
  | 0 => name
  | S fuel =>
      if bool_decide (to_lowercase name ∈ seen)
      then unique_name fuel (n + 1) base (suffixed base (n + 1)) seen
      else name
  end.

Fixpoint derive_names (i : nat) (seen : gset str) (cols : list select_column) : list str :=
  match cols with
  | [] => []
  | sc :: cols =>
      let base := base_name i sc in
      let name := unique_name (S (size seen)) 1 base base seen in
      name :: derive_names (S i) ({[to_lowercase name]} ∪ seen) cols
  end.

Definition derive_column_names (cols : list select_column) : list str := derive_names 0 ∅ cols.
End Names.

(** ** [*] in the SELECT list *)

Definition star_columns (t : qoq_table) : list select_column :=
  map (fun col => SelectColumn (XColumn (Some (tb_name t)) col) (Some col)) (tb_columns t).

Definition expand_column (tables : table_set) (sc : select_column)
    : outcome cfml_error (list select_column) :=
  match sc_expr sc with
  | XStar None => Ok (concat (map star_columns tables))
  | XStar (Some tn) =>
      match head (List.filter (fun t => eq_ignore_ascii_case (tb_name t) tn) tables) with
      | Some t => Ok (star_columns t)
      | None => Err (runtime (lit "Query of Queries: unknown table '" ++ tn ++ lit "' in "
                              ++ tn ++ lit ".*"))
      end
  | _ => Ok [sc]
  end.

Definition expand_columns (columns : list select_column) (tables : table_set)
    : outcome cfml_error (list select_column) :=
  omapo (@concat _) (omapM (expand_column tables) columns).

(** One passthrough cell: row 0 is NULL. *)
Definition passthrough_cell (src : list value) (r : nat) : value :=
  match r with 0 => VNull | S r => or_null (src !! r) end.
