(* ===== verification/QoqExec.v ===== *)
(** * QoqExec: the SELECT pipeline ([cfml-qoq/src/execution.rs])

    resolve tables, build the join intersections (hash join where it applies),
    WHERE, GROUP BY/HAVING or projection, DISTINCT, UNION, ORDER BY, LIMIT.
    [run_sub] runs a nested statement for a given engine; [run_statement] ties
    the knot with a bound on the nesting depth. *)

From stdpp Require Import base list numbers strings gmap.
From S2P Require Import Prelude Text Float64 Value QoqLike QoqAst QoqCompare QoqTable QoqJoin QoqFunctions QoqOps QoqEval QoqCompiled QoqColumns.
#[local] Open Scope st_scope.

Definition max_intersections : Z := 30000000.
Definition parallel_row_threshold : Z := 1000.

Definition above (threshold : Z) (n : nat) : bool := (threshold <=? Z.of_nat n)%Z.

(** ** Purity: [expr_is_pure], [core_is_pure], [select_is_pure] *)

Section Purity.
Context {U : Unicode} {W : Type} (reg : registry W).

Fixpoint expr_is_pure (e : expr) : bool :=
  match e with
  | XFunction name args _ =>
      negb (has_key (rg_customs reg) (to_lowercase name))
      && negb (has_key (rg_dynamics reg) (to_lowercase name))
      && forallb expr_is_pure args
  | XScalarSubquery _ | XInSubquery _ _ _ => false
  | XBinary l _ r => expr_is_pure l && expr_is_pure r
  | XUnary _ e | XCast e _ | XIsNull e _ => expr_is_pure e
  | XCase o ws el =>
      opt_test expr_is_pure true o
      && forallb (fun w => match w with
                           | WhenThen a b => expr_is_pure a && expr_is_pure b
                           end) ws
      && opt_test expr_is_pure true el
  | XInList e _ l => expr_is_pure e && forallb expr_is_pure l
  | XBetween e _ lo hi => expr_is_pure e && expr_is_pure lo && expr_is_pure hi
  | XLike e _ p es _ => expr_is_pure e && expr_is_pure p && opt_test expr_is_pure true es
  | XStar _ | XColumn _ _ | XResolvedColumn _ _ _ | XLiteral _ | XParam _ => true
  end.

Definition tableref_is_pure (t : table_ref) : bool :=
  match t with TNamed _ _ => true | TDerived _ _ => false end.

Definition core_is_pure (c : select_core) : bool :=
  opt_test tableref_is_pure true (co_from c)
  && forallb (fun j => tableref_is_pure (jn_table j) && opt_test expr_is_pure true (jn_on j))
       (co_joins c)
  && opt_test expr_is_pure true (co_where c)
  && forallb expr_is_pure (co_group_by c)
  && opt_test expr_is_pure true (co_having c)
  && forallb (fun sc => expr_is_pure (sc_expr sc)) (co_columns c).

Definition select_is_pure (s : select_statement) : bool :=
  core_is_pure (ss_body s)
  && forallb (fun u => core_is_pure (un_select u)) (ss_unions s)
  && forallb (fun ob => expr_is_pure (ob_expr ob)) (ss_order_by s).
End Purity.

(** ** Join-key detection *)

Definition equi_pair (e : expr) : option (nat * nat * nat * nat) :=
  match e with
  | XBinary (XResolvedColumn lt lc _) BEq (XResolvedColumn rt rc _) =>
      if lt =? rt then None else Some (lt, lc, rt, rc)
  | _ => None
  end.

Fixpoint equi_conjuncts (e : expr) : list (nat * nat * nat * nat) :=
  match e with
  | XBinary l BAnd r => equi_conjuncts l ++ equi_conjuncts r
  | _ => match equi_pair e with Some p => [p] | None => [] end
  end.

Definition collect_equi_conjuncts (e : option expr) : list (nat * nat * nat * nat) :=
  match e with Some e => equi_conjuncts e | None => [] end.

(** The probe of table [k + 1]: one side is that table, the other an earlier one. *)
Definition orient (k : nat) (p : nat * nat * nat * nat) : option (nat * nat * nat * nat) :=
  let '(lt, lc, rt, rc) := p in
  let new_ti := k + 1 in
  if (lt =? new_ti) && (rt <=? k) then Some (rt, rc, lt, lc)
  else if (rt =? new_ti) && (lt <=? k) then Some (lt, lc, rt, rc)
  else None.

(** Pattern 1: every ON is an equi pair. *)
Fixpoint on_probes (k : nat) (joins : list join_clause) : option (list (nat * nat * nat * nat)) :=
  match joins with
  | [] => Some []
  | j :: joins =>
      on ← jn_on j; p ← equi_pair on; probe ← orient k p;
      probes ← on_probes (k + 1) joins; Some (probe :: probes)
  end.

(** The first unused conjunct that links table [k + 1], and the others. *)
Fixpoint pick_probe (k : nat) (eqs : list (nat * nat * nat * nat))
    : option ((nat * nat * nat * nat) * list (nat * nat * nat * nat)) :=
  match eqs with
  | [] => None
  | p :: eqs =>
      match orient k p with
      | Some probe => Some (probe, eqs)
      | None => r ← pick_probe k eqs; Some (r.1, p :: r.2)
      end
  end.

(** Pattern 2: comma joins, keys out of the WHERE clause. *)
Fixpoint where_probes (k n : nat) (eqs : list (nat * nat * nat * nat))
    : option (list (nat * nat * nat * nat)) :=
  match n with
  | 0 => Some []
  | S n => r ← pick_probe k eqs; probes ← where_probes (k + 1) n r.2; Some (r.1 :: probes)
  end.

Definition hash_probes (core : select_core) : option (list (nat * nat * nat * nat)) :=
  let joins := co_joins core in
  let pattern2 :=
    if forallb (fun j => bool_decide (jn_type j = Cross)
                         && match jn_on j with None => true | Some _ => false end) joins
    then match collect_equi_conjuncts (co_where core) with
         | [] => None
         | eqs => where_probes 0 (length joins) eqs
         end
    else None in
  match joins with
  | [] => None
  | _ =>
      if forallb (fun j => bool_decide (jn_type j = Inner)
                           && match jn_on j with Some _ => true | None => false end) joins
      then match on_probes 0 joins with Some ps => Some ps | None => pattern2 end
      else pattern2
  end.

(** ** The hash join *)

Section HashJoin.
Context {U : Unicode} {D : DateLib} {E : Type} (tables : table_set).

(** [idx.entry(key).or_default().push(r)] for every right row. *)
Definition hash_index (t : qoq_table) (rc : nat) : gmap str (list nat) :=
  fold_left (fun idx r =>
               let key := group_key [get t r rc] in
               <[key := from_option id [] (idx !! key) ++ [r]]> idx)
    (seq 1 (tb_row_count t)) ∅.

Definition hash_join_step (k : nat) (probe : nat * nat * nat * nat) (inters : intersections)
    : outcome E intersections :=
  let '(lt, lc, rt, rc) := probe in
  (let? right_tbl := index_or_panic tables rt in
   let idx := hash_index right_tbl rc in
   let? flats :=
     omapM (fun inter =>
              let? v := value_at tables inter lt lc in
              Ok (concat (map (fun r => inter ++ [r])
                            (from_option id [] (idx !! group_key [v]))))) (in_iter inters) in
   Ok (Intersections (k + 2) (concat flats)))%outcome.

Fixpoint hash_join_go (k : nat) (probes : list (nat * nat * nat * nat)) (inters : intersections)
    : outcome E intersections :=
  match probes with
  | [] => Ok inters
  | p :: probes =>
      (let? next := hash_join_step k p inters in hash_join_go (k + 1) probes next)%outcome
  end.

Definition hash_join_chain (probes : list (nat * nat * nat * nat)) : outcome E intersections :=
  (let? t0 := index_or_panic tables 0 in
   hash_join_go 0 probes (Intersections 1 (seq 1 (tb_row_count t0))))%outcome.
End HashJoin.

(** ** Grouping: an [IndexMap] keeps the order of first insertion *)

Fixpoint group_push (width : nat) (key : str) (row : list nat)
    (groups : list (str * intersections)) : list (str * intersections) :=
  match groups with
  | [] => [(key, push_row (in_new width) row)]
  | (k, g) :: groups =>
      if bool_decide (k = key) then (k, push_row g row) :: groups
      else (k, g) :: group_push width key row groups
  end.

Definition group_rows (width : nat) (keyed : list (str * list nat)) : list intersections :=
  map snd (fold_left (fun gs kr => group_push width kr.1 kr.2 gs) keyed []).

(** ** Rayon's [collect] of per-item results

    Items run on the state of the caller and leave it unchanged: the parallel
    path is taken for pure statements only. *)
Definition failed {E A} (o : outcome E A) : bool := match o with Ok _ => false | _ => true end.

Definition par_collect `{Platform} {E A} (l : list (outcome E A)) : outcome E (list A) :=
  let fails := map failed l in
  if existsb id fails then
    match l !! rayon_pick fails with
    | Some (Err e) => Err e
    | _ => Panic
    end
  else omapM id l.

Definition par_mapM `{Platform} {S E A B} (f : A -> ST S E B) (l : list A) : ST S E (list B) :=
  fun s => (s, par_collect (map (fun x => (f x s).2) l)).

(** ** Stages *)

Record core_result := CoreResult {
  cr_columns : list str;
  cr_row_count : nat;
  cr_data : list (list value);
  cr_sort_keys : list (list value);
}.

(** [n - 1] on [i64], clamped at 0, as a column position. *)
Definition alias_index (n : Z) : Z := wrap_i64 (n - 1) `max` 0.
Definition nth_Z {A} (l : list A) (i : Z) : option A :=
  if (i <? Z.of_nat (length l))%Z then l !! Z.to_nat i else None.

(** [ORDER BY 1]: the position a bare integer literal names. *)
Definition int_alias (ob : order_by_expr) : option Z :=
  match ob_expr ob with XLiteral (VInt n) => Some (alias_index n) | _ => None end.

Section Stages.
Context {U : Unicode} {D : DateLib} {R : RegexCrate} {L : Libm} {P : Platform} {W : Type}.
Abbreviation M := (ST W cfml_error).
Abbreviation cols := (list (list value)).

(** [rows_per_chunk] / [chunk_size] *)
Definition chunk_rows (n_rows : nat) : nat :=
  (n_rows / ((num_threads `max` 1) * 4)) `max` 1024.

(** Keep the intersections on which the predicate is true. *)
Definition keep_rows (ev : list nat -> M value) (rows : list (list nat)) : M (list nat) :=
  st_foldM (fun keep inter =>
              let! v := ev inter in
              st_ret (if is_truthy v then keep ++ inter else keep)) [] rows.

(** [ev] is this engine's evaluator, [pev] the pure engine's. *)
Definition filter_where_with (parallel : bool) (ev pev : list nat -> M value)
    (inters : intersections) : M intersections :=
  let width := in_width inters in
  if parallel && above parallel_row_threshold (in_len inters) then
    let! kept := par_mapM (fun chunk => keep_rows pev (in_iter chunk))
                   (par_chunks_rows (chunk_rows (in_len inters)) inters) in
    st_ret (Intersections width (concat kept))
  else
    let! kept := keep_rows ev (in_iter inters) in
    st_ret (Intersections width kept).

Definition push_cells (cs : cols) (row : list value) : cols :=
  zip_with (fun c v => c ++ [v]) cs row.
Definition extend_cols (cs cs' : cols) : cols := zip_with app cs cs'.
Definition empty_cols (n : nat) : cols := replicate n [].

(** Project every row and its sort keys. *)
Definition project_rows (ev : expr -> row_ctx -> M value) (select : list select_column)
    (order_by : list order_by_expr) (rows : list (list nat)) : M (cols * cols) :=
  st_foldM (fun '(data, keys) inter =>
              let ctx := CtxRow inter in
              let! row := st_mapM (fun sc => ev (sc_expr sc) ctx) select in
              let data := push_cells data row in
              let! key := st_mapM (fun ob =>
                            match int_alias ob with
                            | Some idx => st_ret (or_null (c ← nth_Z data idx; last c))
                            | None => ev (ob_expr ob) ctx
                            end) order_by in
              st_ret (data, push_cells keys key))
    (empty_cols (length select), empty_cols (length order_by)) rows.

Definition exec_simple (parallel : bool) (ev pev : expr -> row_ctx -> M value)
    (select : list select_column) (inters : intersections) (order_by : list order_by_expr)
    : M (cols * cols * nat) :=
  let n_rows := in_len inters in
  if parallel && above parallel_row_threshold n_rows then
    let! parts := par_mapM (fun chunk => project_rows pev select order_by (in_iter chunk))
                    (par_chunks_rows (chunk_rows n_rows) inters) in
    let '(data, keys) :=
      fold_left (fun '(data, keys) '(cd, ck) => (extend_cols data cd, extend_cols keys ck))
        parts (empty_cols (length select), empty_cols (length order_by)) in
    st_ret (data, keys, n_rows)
  else
    let! r := project_rows ev select order_by (in_iter inters) in
    st_ret (r.1, r.2, n_rows).

(** *** The single-table path *)

Definition is_resolved (e : expr) : bool :=
  match e with XResolvedColumn _ _ _ => true | _ => false end.

(** Put the evaluated columns in the slots left open by the passthrough ones. *)
Fixpoint fill_slots (slots : list (option (list value))) (built : cols) : cols :=
  match slots with
  | [] => []
  | Some c :: slots => c :: fill_slots slots built
  | None :: slots => from_option id [] (head built) :: fill_slots slots (tail built)
  end.

Definition passthrough (tables : table_set) (survivors : list nat) (e : expr)
    : outcome cfml_error (option (list value)) :=
  match e with
  | XResolvedColumn ti ci _ =>
      (let? t := index_or_panic tables ti in
       let? src := index_or_panic (tb_data t) ci in
       Ok (Some (map (passthrough_cell src) survivors)))%outcome
  | _ => Ok None
  end.

Definition build_cols_for_exprs (parallel : bool) (ev pev : expr -> row_ctx -> M value)
    (tables : table_set) (survivors : list nat) (exprs : list expr) : M cols :=
  let n_surv := length survivors in
  let! slots := st_lift (omapM (passthrough tables survivors) exprs) in
  let needs := List.filter (fun e => negb (is_resolved e)) exprs in
  let! built :=
    match needs with
    | [] => st_ret []
    | _ =>
        if parallel && above parallel_row_threshold n_surv then
          let! parts :=
            par_mapM (fun chunk =>
               st_foldM (fun cs r =>
                           let! row := st_mapM (fun e => pev e (CtxRow [r])) needs in
                           st_ret (push_cells cs row))
                 (empty_cols (length needs)) chunk)
              (chunks (chunk_rows n_surv) survivors) in
          st_ret (fold_left extend_cols parts (empty_cols (length needs)))
        else st_mapM (fun e => st_mapM (fun r => ev e (CtxRow [r])) survivors) needs
    end in
  st_ret (fill_slots slots built).

Definition alias_column (data : cols) (n_rows : nat) (idx : Z) : list value :=
  from_option id (replicate n_rows VNull) (nth_Z data idx).

Definition exec_no_join_fused (parallel : bool) (ev pev : expr -> row_ctx -> M value)
    (where_ : option (row_ctx -> M value) * option (row_ctx -> M value))
    (tables : table_set) (select : list select_column) (order_by : list order_by_expr)
    : M (cols * cols * nat) :=
  let! t0 := st_lift (index_or_panic tables 0) in
  let rows := seq 1 (tb_row_count t0) in
  let! survivors :=
    match where_ with
    | (Some w, Some pw) =>
        if parallel && above parallel_row_threshold (tb_row_count t0) then
          let! kept := par_mapM (fun r => let! v := pw (CtxRow [r]) in
                                          st_ret (if is_truthy v then Some r else None)) rows in
          st_ret (omap id kept)
        else st_foldM (fun out r => let! v := w (CtxRow [r]) in
                                    st_ret (if is_truthy v then out ++ [r] else out)) [] rows
    | _ => st_ret rows
    end in
  let build := build_cols_for_exprs parallel ev pev tables survivors in
  let n_surv := length survivors in
  let! data := build (map sc_expr select) in
  let slots := map (fun ob => alias_column data n_surv <$> int_alias ob) order_by in
  let to_eval := List.filter (fun ob => bool_decide (int_alias ob = None)) order_by in
  let! built := match to_eval with
                | [] => st_ret []
                | _ => build (map ob_expr to_eval)
                end in
  st_ret (data, fill_slots slots built, n_surv).

(** *** Grouping *)

Definition row_group_key (ev : expr -> row_ctx -> M value) (group_by : list expr)
    (inter : list nat) : M str :=
  let! key_vals := st_mapM (fun g => ev g (CtxRow inter)) group_by in
  st_ret (group_key key_vals).

Definition partition (parallel : bool) (ev pev : expr -> row_ctx -> M value)
    (inters : intersections) (group_by : list expr) : M (list intersections) :=
  let width := in_width inters in
  if parallel && above parallel_row_threshold (in_len inters) then
    let! rows := st_lift (omapM (in_row inters) (seq 0 (in_len inters))) in
    let! keys := par_mapM (row_group_key pev group_by) rows in
    st_ret (group_rows width (zip keys rows))
  else
    let! keyed := st_mapM (fun inter => let! k := row_group_key ev group_by inter in
                                        st_ret (k, inter)) (in_iter inters) in
    st_ret (group_rows width keyed).

Definition order_key (ev : expr -> row_ctx -> M value) (ob : order_by_expr) (ctx : row_ctx)
    (projected_row : list value) : M value :=
  match int_alias ob with
  | Some idx => st_ret (or_null (nth_Z projected_row idx))
  | None => ev (ob_expr ob) ctx
  end.

Definition exec_aggregate (parallel : bool) (ev pev : expr -> row_ctx -> M value)
    (core : select_core) (select : list select_column) (inters : intersections)
    (order_by : list order_by_expr) : M (cols * cols * nat) :=
  let! partitions := match co_group_by core with
                     | [] => st_ret [inters]
                     | group_by => partition parallel ev pev inters group_by
                     end in
  let! rows :=
    st_foldM (fun rows part =>
                let ctx := CtxGroup part in
                let! pass := match co_having core with
                             | Some h => let! v := ev h ctx in st_ret (is_truthy v)
                             | None => st_ret true
                             end in
                if negb pass then st_ret rows
                else
                  let! row := st_mapM (fun sc => ev (sc_expr sc) ctx) select in
                  let! key := st_mapM (fun ob => order_key ev ob ctx row) order_by in
                  st_ret (rows ++ [(row, key)])) [] partitions in
  let! data := st_lift (rows_to_cols (map fst rows) (length select)) in
  let! keys := st_lift (rows_to_cols (map snd rows) (length order_by)) in
  st_ret (data, keys, length rows).

(** *** ORDER BY of a UNION, on the output columns *)

Definition output_alias (columns : list str) (ob : order_by_expr) : option Z :=
  match ob_expr ob with
  | XLiteral (VInt n) => Some (alias_index n)
  | XColumn None name | XResolvedColumn _ _ name =>
      Z.of_nat <$> position (fun c => eq_ignore_ascii_case c name) columns
  | _ => None
  end.

(** The synthetic one-row table of output row [i]. *)
Definition synth_table (columns : list str) (data : cols) (i : nat)
    : outcome cfml_error qoq_table :=
  (let? cells := omapM (fun col => index_or_panic col i) data in
   Ok (QoQTable [] columns (map (fun v => [v]) cells) 1))%outcome.

Definition build_output_sort_keys (ev : table_set -> expr -> row_ctx -> M value)
    (data : cols) (row_count : nat) (columns : list str) (order_by : list order_by_expr)
    : M cols :=
  if (length order_by =? 0) || (row_count <? 2) then st_ret []
  else
    let aliases := map (output_alias columns) order_by in
    let cols0 := map (fun a => match a with
                               | Some idx => alias_column data row_count idx
                               | None => []
                               end) aliases in
    if existsb (fun a => bool_decide (a = None)) aliases then
      st_foldM (fun cs i =>
                  let! t := st_lift (synth_table columns data i) in
                  let! row :=
                    st_mapM (fun ob =>
                               match output_alias columns ob with
                               | Some _ => st_ret None
                               | None => let! v := order_key (ev [t]) ob (CtxRow [1]) [] in
                                         st_ret (Some v)
                               end) order_by in
                  st_ret (zip_with (fun c ov => match ov with
                                                | Some v => c ++ [v]
                                                | None => c
                                                end) cs row)) cols0 (seq 0 row_count)
    else st_ret cols0.

(** *** Tables and joins *)

Definition table_not_found (name : str) : cfml_error :=
  qoq_err [lit "table '"; name; lit "' not found (no such query variable)"].

Definition resolve_table_ref (sources : list (str * query_data))
    (run_sub : select_statement -> M query_data) (t : table_ref) : M qoq_table :=
  match t with
  | TNamed name alias =>
      match head (List.filter (fun nq => eq_ignore_ascii_case nq.1 name) sources) with
      | Some (_, q) => st_ret (from_query_data (from_option id name alias) q)
      | None => st_err (table_not_found name)
      end
  | TDerived select alias =>
      let! q := run_sub select in st_ret (from_query_data alias q)
  end.

Definition resolve_tables (sources : list (str * query_data))
    (run_sub : select_statement -> M query_data) (core : select_core) : M table_set :=
  match co_from core with
  | None => st_ret []
  | Some from =>
      let! t := resolve_table_ref sources run_sub from in
      let! ts := st_mapM (fun j => resolve_table_ref sources run_sub (jn_table j))
                   (co_joins core) in
      st_ret (t :: ts)
  end.

Definition join_too_big (size : Z) : cfml_error :=
  qoq_err [lit "join would materialise "; Z_to_str size;
           lit " row combinations, exceeding the limit of "; Z_to_str max_intersections;
           lit ". Add an explicit `JOIN ... ON` (filtered as it builds) or reduce the data."].

(** The ON closure: its state is the world and the first error. *)
Definition on_closure (ev : expr -> row_ctx -> M value) (joins : list join_clause)
    (k : nat) (cand : list nat) : ST (W * option cfml_error) Z bool :=
  fun '(w, on_err) =>
    match on_err with
    | Some _ => ((w, on_err), Ok false)
    | None =>
        match joins !! k with
        | None => ((w, on_err), Panic)
        | Some j =>
            match jn_on j with
            | None => ((w, on_err), Ok true)
            | Some e =>
                match ev e (CtxRow cand) w with
                | (w', Ok v) => ((w', None), Ok (is_truthy v))
                | (w', Err e) => ((w', Some e), Ok false)
                | (w', Panic) => ((w', None), Panic)
                end
            end
        end
    end.

Definition nested_loop_join (ev : expr -> row_ctx -> M value) (core : select_core)
    (tables : table_set) : M intersections :=
  fun w =>
    match build_intersections (on_closure ev (co_joins core)) (row_counts tables)
            (map jn_type (co_joins core)) max_intersections (w, None) with
    | ((w', Some e), Panic) => (w', Panic)
    | ((w', Some e), _) => (w', Err e)
    | ((w', None), Ok i) => (w', Ok i)
    | ((w', None), Err size) => (w', Err (join_too_big size))
    | ((w', None), Panic) => (w', Panic)
    end.

Definition build_core_intersections (ev : expr -> row_ctx -> M value) (core : select_core)
    (tables : table_set) : M intersections :=
  match hash_probes core with
  | Some probes => st_lift (hash_join_chain tables probes)
  | None => nested_loop_join ev core tables
  end.
End Stages.

(** ** One SELECT core and the whole statement *)

Section Bind.
Context {U : Unicode} {D : DateLib} {R : RegexCrate} (tables : table_set).
Let bind := bind_expr tables.

(** [bind_core] on the cloned core, the expanded columns and the ORDER BY. *)
Definition bind_core (core : select_core) : select_core :=
  SelectCore (co_distinct core) (co_top core) (co_columns core) (co_from core)
    (map (fun j => JoinClause (jn_type j) (jn_table j) (option_map bind (jn_on j)))
       (co_joins core))
    (option_map bind (co_where core)) (map bind (co_group_by core))
    (option_map bind (co_having core)).

Definition bind_columns (scs : list select_column) : list select_column :=
  map (fun sc => SelectColumn (bind (sc_expr sc)) (sc_alias sc)) scs.

Definition bind_order_by (obs : list order_by_expr) : list order_by_expr :=
  map (fun ob => OrderByExpr (bind (ob_expr ob)) (ob_direction ob)) obs.
End Bind.

Definition is_star (e : expr) : bool := match e with XStar _ => true | _ => false end.

Section Run.
Context {U : Unicode} {D : DateLib} {R : RegexCrate} {L : Libm} {P : Platform} {W : Type}.
Abbreviation M := (ST W cfml_error).

(** [PureInvoker] and [pure_engine]. *)
Definition pure_invoke (f : value) (args : list value) : M value :=
  st_err (qoq_err [lit "custom function reached the parallel path (internal error)"]).

Definition pure_engine (en : engine W) : engine W :=
  Engine (en_sources en) (en_params en) (en_registry en) pure_invoke false.

(** The engine runs nested statements with [run_sub]. *)
Context (run_sub : engine W -> select_statement -> M query_data).

Section WithEngine.
Context (en : engine W).
Let reg := en_registry en.
Let par := en_parallel en.
Let ev (tables : table_set) := eval en (run_sub en) tables.
Let pev (tables : table_set) := eval (pure_engine en) (run_sub (pure_engine en)) tables.
Let evc (tables : table_set) := eval_compiled en (run_sub en) tables.
Let pevc (tables : table_set) :=
  eval_compiled (pure_engine en) (run_sub (pure_engine en)) tables.

Definition run_no_from (core : select_core) (order_by : list order_by_expr) : M core_result :=
  let ctx := CtxRow [] in
  let! row := st_mapM (fun sc =>
                 if is_star (sc_expr sc)
                 then st_err (qoq_err [lit "'*' requires a FROM clause"])
                 else ev [] (sc_expr sc) ctx) (co_columns core) in
  let columns := derive_column_names (co_columns core) in
  let! key := st_mapM (fun ob => order_key (ev []) ob ctx row) order_by in
  st_ret (CoreResult columns 1 (map (fun v => [v]) row) (map (fun v => [v]) key)).

Definition has_agg (core : select_core) (select : list select_column) : bool :=
  existsb (fun sc => expr_has_aggregate reg (sc_expr sc)) select
  || opt_test (expr_has_aggregate reg) false (co_having core).

Definition can_fused (core : select_core) (select : list select_column) (tables : table_set)
    : bool :=
  negb (has_agg core select)
  && match co_group_by core with [] => true | _ => false end
  && match co_having core with None => true | _ => false end
  && match co_joins core with [] => true | _ => false end
  && (length tables =? 1).

Definition filter_where (inters : intersections) (w : option compiled_expr)
    (tables : table_set) : M intersections :=
  match w with
  | None => st_ret inters
  | Some ce => filter_where_with par (fun i => evc tables ce (CtxRow i))
                 (fun i => pevc tables ce (CtxRow i)) inters
  end.

(** The rows of a bound core, before DISTINCT and TOP. *)
Definition core_rows (core : select_core) (select : list select_column)
    (order_by : list order_by_expr) (tables : table_set)
    : M (list (list value) * list (list value) * nat) :=
  let cw := compile <$> co_where core in
  if can_fused core select tables then
    exec_no_join_fused par (ev tables) (pev tables)
      (evc tables <$> cw, pevc tables <$> cw) tables select order_by
  else
    let! inters := build_core_intersections (ev tables) core tables in
    let! filtered := filter_where inters cw tables in
    if has_agg core select || negb (match co_group_by core with [] => true | _ => false end)
    then exec_aggregate par (ev tables) (pev tables) core select filtered order_by
    else exec_simple par (ev tables) (pev tables) select filtered order_by.

Definition finish_core (core : select_core) (columns : list str)
    (r : list (list value) * list (list value) * nat) : M core_result :=
  let '(data, keys, n) := r in
  let! d := if co_distinct core then st_lift (dedup_cols_and_keys data keys n)
            else st_ret (data, keys, n) in
  let '(data, keys, n) := d in
  st_ret (match co_top core with
          | Some t =>
              if (t <? Z.of_nat n)%Z
              then CoreResult columns (Z.to_nat t) (truncate_cols data (Z.to_nat t))
                     (truncate_cols keys (Z.to_nat t))
              else CoreResult columns n data keys
          | None => CoreResult columns n data keys
          end).

Definition run_core (core_in : select_core) (order_by_in : list order_by_expr)
    : M core_result :=
  let! tables := resolve_tables (en_sources en) (run_sub en) core_in in
  match tables with
  | [] => run_no_from core_in order_by_in
  | _ =>
      let! expanded := st_lift (expand_columns (co_columns core_in) tables) in
      let core := bind_core tables core_in in
      let select := bind_columns tables expanded in
      let order_by := bind_order_by tables order_by_in in
      let columns := derive_column_names select in
      let! rows := core_rows core select order_by tables in
      finish_core core columns rows
  end.

Definition union_mismatch (n m : nat) : cfml_error :=
  qoq_err [lit "UNION column count mismatch ("; Z_to_str (Z.of_nat n); lit " vs ";
           Z_to_str (Z.of_nat m); lit ")"].

(** The loop over the UNION arms. *)
Definition union_arms (columns : list str) (unions : list union_arm)
    (data : list (list value)) (n : nat) : M (list (list value) * nat) :=
  st_foldM (fun '(data, n) u =>
              let! arm := run_core (un_select u) [] in
              if negb (length (cr_columns arm) =? length columns)
              then st_err (union_mismatch (length columns) (length (cr_columns arm)))
              else st_ret (extend_cols data (cr_data arm), n + cr_row_count arm))
    (data, n) unions.

Definition run_statement_body (stmt : select_statement) : M query_data :=
  match ss_unions stmt with
  | [] =>
      let! body := run_core (ss_body stmt) (ss_order_by stmt) in
      let! data := st_lift (sort_cols (cr_data body) (cr_sort_keys body) (ss_order_by stmt)
                              (cr_row_count body)) in
      let! r := st_lift (apply_limit_cols data (ss_limit stmt) (cr_row_count body)) in
      st_ret (build_query (cr_columns body) r.1)
  | unions =>
      let! body := run_core (ss_body stmt) [] in
      let columns := cr_columns body in
      let! acc := union_arms columns unions (cr_data body) (cr_row_count body) in
      let! acc := if existsb (fun u => negb (un_all u)) unions
                  then st_lift (dedup_cols acc.1 acc.2) else st_ret acc in
      let! keys := build_output_sort_keys ev acc.1 acc.2 columns (ss_order_by stmt) in
      let! data := st_lift (sort_cols acc.1 keys (ss_order_by stmt) acc.2) in
      let! r := st_lift (apply_limit_cols data (ss_limit stmt) acc.2) in
      st_ret (build_query columns r.1)
  end.
End WithEngine.
End Run.

(** ** Nesting depth of statements *)

Fixpoint max_list (l : list nat) : nat := match l with [] => 0 | x :: l => x `max` max_list l end.

Section Depth.
Context (de : expr -> nat) (dt : table_ref -> nat).

Definition opt_depth {A} (f : A -> nat) (o : option A) : nat :=
  match o with Some a => f a | None => 0 end.

Definition core_depth (c : select_core_ expr table_ref) : nat :=
  match c with
  | SelectCore _ _ columns from joins where_ group_by having =>
      max_list (map (fun sc => match sc with SelectColumn e _ => de e end) columns)
      `max` opt_depth dt from
      `max` max_list (map (fun j => match j with
                                    | JoinClause _ t on => dt t `max` opt_depth de on
                                    end) joins)
      `max` opt_depth de where_ `max` max_list (map de group_by) `max` opt_depth de having
  end.

Definition statement_depth (s : select_statement_ expr table_ref) : nat :=
  match s with
  | SelectStatement body unions order_by _ =>
      core_depth body
      `max` max_list (map (fun u => match u with Union _ c => core_depth c end) unions)
      `max` max_list (map (fun ob => match ob with OrderByExpr e _ => de e end) order_by)
  end.
End Depth.

(** Subqueries nested in an expression or a table reference; a statement counts
    one. *)
Fixpoint expr_depth (e : expr) : nat :=
  match e with
  | XStar _ | XColumn _ _ | XResolvedColumn _ _ _ | XLiteral _ | XParam _ => 0
  | XBinary l _ r => expr_depth l `max` expr_depth r
  | XUnary _ e | XCast e _ | XIsNull e _ => expr_depth e
  | XFunction _ args _ => max_list (map expr_depth args)
  | XCase o ws el =>
      opt_depth expr_depth o
      `max` max_list (map (fun w => match w with
                                    | WhenThen a b => expr_depth a `max` expr_depth b
                                    end) ws)
      `max` opt_depth expr_depth el
  | XInList e _ l => expr_depth e `max` max_list (map expr_depth l)
  | XInSubquery e _ s => expr_depth e `max` S (statement_depth expr_depth table_depth s)
  | XBetween e _ lo hi => expr_depth e `max` expr_depth lo `max` expr_depth hi
  | XLike e _ p es _ => expr_depth e `max` expr_depth p `max` opt_depth expr_depth es
  | XScalarSubquery s => S (statement_depth expr_depth table_depth s)
  end
with table_depth (t : table_ref) : nat :=
  match t with
  | TNamed _ _ => 0
  | TDerived s _ => S (statement_depth expr_depth table_depth s)
  end.

Definition stmt_depth (s : select_statement) : nat := statement_depth expr_depth table_depth s.

(** ** [execute] *)

Section Execute.
Context {U : Unicode} {D : DateLib} {R : RegexCrate} {L : Libm} {P : Platform} {W : Type}.

(** The recursion through subqueries, bounded by [fuel]. *)
Fixpoint run_fuel (fuel : nat) (en : engine W) (s : select_statement)
    : ST W cfml_error query_data :=
  match fuel with
  | 0 => st_panic
  | S fuel => run_statement_body (run_fuel fuel) en s
  end.

(** The depth of the statement is enough. *)
Definition run_statement (en : engine W) (s : select_statement) : ST W cfml_error query_data :=
  run_fuel (S (stmt_depth s)) en s.

Definition execute (stmt : select_statement) (sources : list (str * query_data))
    (params : qoq_params) (reg : registry W)
    (udf : value -> list value -> ST W cfml_error value) : ST W cfml_error query_data :=
  let parallel := select_is_pure reg stmt in
  run_statement (Engine sources params reg udf parallel) stmt.
End Execute.
