(* ===== verification/QoqNames.v ===== *)
(** * QoqNames: the tables a statement reads ([base_table_names])

    The VM calls [base_table_names] to resolve query variables from the CFML
    scopes before the statement runs.  The walk carries the names found and the
    set of their lower-case forms. *)

From stdpp Require Import base list numbers strings gmap sets.
From S2P Require Import Prelude Text Value QoqAst.

(** [(out, seen)] *)
Abbreviation walk_state := (list str * gset str)%type.

Section Walk.
Context {U : Unicode}.

Definition visit (name : str) (acc : walk_state) : walk_state :=
  if bool_decide (to_lowercase name ∈ acc.2) then acc
  else (acc.1 ++ [name], {[to_lowercase name]} ∪ acc.2).

Section Walkers.
Context (we : expr -> walk_state -> walk_state) (wt : table_ref -> walk_state -> walk_state).

Definition walk_opt {A} (f : A -> walk_state -> walk_state) (o : option A) (acc : walk_state)
    : walk_state :=
  match o with Some a => f a acc | None => acc end.

Definition walk_list {A} (f : A -> walk_state -> walk_state) :=
  fix go (l : list A) (acc : walk_state) : walk_state :=
    match l with [] => acc | a :: l => go l (f a acc) end.

Definition walk_core (c : select_core_ expr table_ref) (acc : walk_state) : walk_state :=
  match c with
  | SelectCore _ _ columns from joins where_ group_by having =>
      let acc := walk_opt wt from acc in
      let acc := walk_list (fun j acc => match j with
                                         | JoinClause _ t on => walk_opt we on (wt t acc)
                                         end) joins acc in
      let acc := walk_opt we where_ acc in
      let acc := walk_list we group_by acc in
      let acc := walk_opt we having acc in
      walk_list (fun sc acc => match sc with SelectColumn e _ => we e acc end) columns acc
  end.

Definition walk_select (s : select_statement_ expr table_ref) (acc : walk_state) : walk_state :=
  match s with
  | SelectStatement body unions order_by _ =>
      let acc := walk_core body acc in
      let acc := walk_list (fun u acc => match u with Union _ c => walk_core c acc end)
                   unions acc in
      walk_list (fun ob acc => match ob with OrderByExpr e _ => we e acc end) order_by acc
  end.
End Walkers.

Fixpoint walk_expr (e : expr) (acc : walk_state) {struct e} : walk_state :=
  match e with
  | XBinary l _ r => walk_expr r (walk_expr l acc)
  | XUnary _ e | XCast e _ | XIsNull e _ => walk_expr e acc
  | XFunction _ args _ => walk_list walk_expr args acc
  | XCase o ws el =>
      let acc := walk_opt walk_expr o acc in
      let acc := walk_list (fun w acc => match w with
                                         | WhenThen a b => walk_expr b (walk_expr a acc)
                                         end) ws acc in
      walk_opt walk_expr el acc
  | XInList e _ l => walk_list walk_expr l (walk_expr e acc)
  | XInSubquery e _ s => walk_select walk_expr walk_tableref s (walk_expr e acc)
  | XBetween e _ lo hi => walk_expr hi (walk_expr lo (walk_expr e acc))
  | XLike e _ p es _ => walk_opt walk_expr es (walk_expr p (walk_expr e acc))
  | XScalarSubquery s => walk_select walk_expr walk_tableref s acc
  | XStar _ | XColumn _ _ | XResolvedColumn _ _ _ | XLiteral _ | XParam _ => acc
  end
with walk_tableref (t : table_ref) (acc : walk_state) {struct t} : walk_state :=
  match t with
  | TNamed name _ => visit name acc
  | TDerived s _ => walk_select walk_expr walk_tableref s acc
  end.

Definition base_table_names (s : select_statement) : list str :=
  (walk_select walk_expr walk_tableref s ([], ∅)).1.
End Walk.
