(* ===== verification/QoqParser.v ===== *)
(** * QoqParser: the SQL parser ([cfml-qoq/src/parser.rs])

    Recursive descent with one token of lookahead.  The state is the lexer's
    unread text, the current token, the counter of positional parameters and
    the nesting depth.  [parse_expr] and [parse_select_statement] recurse
    through the depth counter, so the levels left under [MAX_NESTING_DEPTH]
    bound that recursion; loops and the recursion of [parse_unary] are bounded
    by the unread text, which each round shortens.  Running out of either bound
    would show as [Panic].

    An error is the [Err] of the source without its rendering to text. *)

From stdpp Require Import base list numbers strings.
From S2P Require Import Prelude Text Float64 Value QoqLike QoqAst QoqLexer.
#[local] Open Scope st_scope.

Record parser := Parser {
  ps_rest : str;
  ps_current : token;
  ps_param_index : nat;
  ps_depth : nat;
}.

Inductive parse_error :=
  | PExpected (want got : token)
  | PExpectedIdent (got : token)
  | PBadUint (text : str)
  | PExpectedInt (got : token)
  | PTooDeep
  | PExpectedSelect (got : token)
  | PLexError (msg : str)
  | PTrailing (got : token)
  | PAfterNot (got : token)
  | PUnexpected (got : token)
  | PNoWhen
  | PInvalidNumber (text : str).

Definition max_nesting_depth : nat := Z.to_nat 512.

Abbreviation P := (ST parser parse_error).

(** What is left to read: [advance] shortens it until the end of input. *)
Definition mu (s : parser) : nat :=
  length (ps_rest s) + match ps_current s with TEof => 0 | _ => 1 end.

(** ** Loops *)

Section Loop.
Context {A : Type} (step : A -> P (option A)).

(** [loop { ... break ... }]: [step] returns [None] to leave. *)
Fixpoint loop_fuel (fuel : nat) (acc : A) : P A :=
  match fuel with
  | 0 => st_panic
  | S fuel =>
      let! r := step acc in
      match r with Some acc' => loop_fuel fuel acc' | None => st_ret acc end
  end.

Definition loop (acc : A) : P A := fun s => loop_fuel (S (mu s)) acc s.
End Loop.

Section Parser.
Context {U : Unicode}.

Definition new_parser (input : str) : parser :=
  let '(t, r) := next_token input in Parser r t 0 0.

Definition advance_state (s : parser) : parser :=
  let '(t, r) := next_token (ps_rest s) in Parser r t (ps_param_index s) (ps_depth s).

Definition advance : P unit := fun s => (advance_state s, Ok ()).
Definition current : P token := fun s => (s, Ok (ps_current s)).
Definition at_ (tok : token) : P bool := fun s => (s, Ok (bool_decide (ps_current s = tok))).

Definition eat (tok : token) : P bool :=
  let! b := at_ tok in if b : bool then let! _ := advance in st_ret true else st_ret false.

Definition expect (tok : token) : P unit :=
  let! c := current in if bool_decide (c = tok) then advance else st_err (PExpected tok c).

Definition next_param : P nat :=
  fun s => (Parser (ps_rest s) (ps_current s) (S (ps_param_index s)) (ps_depth s),
            Ok (ps_param_index s)).

(** [enter_depth()?; let r = m; self.depth -= 1; r] *)
Definition nested {A} (m : P A) : P A :=
  fun s =>
    if max_nesting_depth <=? ps_depth s then (s, Err PTooDeep)
    else let '(s', r) := m (Parser (ps_rest s) (ps_current s) (ps_param_index s) (S (ps_depth s))) in
         (Parser (ps_rest s') (ps_current s') (ps_param_index s') (ps_depth s' - 1), r).

Definition parse_ident : P str :=
  let! c := current in
  match c with
  | TIdentifier s => let! _ := advance in st_ret s
  | other => st_err (PExpectedIdent other)
  end.

Definition parse_uint : P Z :=
  let! c := current in
  match c with
  | TNumber s =>
      match parse_usize s with
      | Some v => let! _ := advance in st_ret v
      | None => st_err (PBadUint s)
      end
  | other => st_err (PExpectedInt other)
  end.

(** [let _ = m;]: the result is dropped, an error too. *)
Definition ignore {A} (m : P A) : P unit :=
  fun s => match m s with
           | (s', Panic) => (s', Panic)
           | (s', _) => (s', Ok ())
           end.

(** [vec![item()?]; while self.eat(sep) { v.push(item()?) }] *)
Definition more {A} (sep : token) (item : P A) (acc : list A) : P (list A) :=
  loop (fun acc =>
          let! b := eat sep in
          if b : bool then let! x := item in st_ret (Some (acc ++ [x])) else st_ret None) acc.

Definition sep_by {A} (sep : token) (item : P A) : P (list A) :=
  let! x := item in more sep item [x].

Definition opt_clause {A} (tok : token) (m : P A) : P (option A) :=
  let! b := eat tok in if b : bool then let! x := m in st_ret (Some x) else st_ret None.

(** [[AS] identifier], or a bare identifier. *)
Definition parse_optional_alias : P (option str) :=
  let! b := eat TAs in
  if b : bool then let! a := parse_ident in st_ret (Some a)
  else let! c := current in
       match c with
       | TIdentifier _ => let! a := parse_ident in st_ret (Some a)
       | _ => st_ret None
       end.

Definition number_literal (s : str) : outcome parse_error value :=
  let as_double := ok_or (VDouble <$> parse_f64 s) (PInvalidNumber s) in
  if existsb (fun c => (c =? 46)%N) s then as_double
  else match parse_i64 s with
       | Some n => Ok (VInt n)
       | None => as_double
       end.

(** An identifier and an optional [(n[, m])]. *)
Definition parse_type_name : P str :=
  let! name := parse_ident in
  let! b := eat TLParen in
  let! _ := if b : bool then
              let! _ := ignore parse_uint in
              let! c := eat TComma in
              let! _ := if c : bool then ignore parse_uint else st_ret () in
              expect TRParen
            else st_ret () in
  st_ret (to_lowercase name).

Definition parse_limit : P limit_clause :=
  let! first := parse_uint in
  let! comma := eat TComma in
  if comma : bool then let! count := parse_uint in st_ret (LimitClause first count)
  else let! off := eat TOffset in
       if off : bool then let! offset := parse_uint in st_ret (LimitClause offset first)
       else st_ret (LimitClause 0 first).

(** ** Expressions, over the nested parsers *)

Section Expr.
Context (parse_expr : P expr) (parse_select_statement : P select_statement).

Definition parse_expr_list : P (list expr) := sep_by TComma parse_expr.

(** [while let Some(op) = op_of(current) { advance; right = next()?; left = bin }] *)
Definition left_assoc (op_of : token -> option binary_op) (next : P expr) : P expr :=
  let! lhs := next in
  loop (fun lhs =>
          let! c := current in
          match op_of c with
          | Some op => let! _ := advance in
                       let! rhs := next in
                       st_ret (Some (XBinary lhs op rhs))
          | None => st_ret None
          end) lhs.

Definition parse_function_args : P (list expr * bool) :=
  let! distinct := eat TDistinct in
  let! empty := at_ TRParen in
  if empty : bool then st_ret ([], distinct)
  else let! args := sep_by TComma parse_expr in st_ret (args, distinct).

Definition parse_call (name : str) : P expr :=
  let! a := parse_function_args in
  let! _ := expect TRParen in
  st_ret (XFunction name a.1 a.2).

Definition parse_case : P expr :=
  let! _ := expect TCase in
  let! w := at_ TWhen in
  let! operand := if w : bool then st_ret None
                  else let! e := parse_expr in st_ret (Some e) in
  let! whens :=
    loop (fun acc =>
            let! b := eat TWhen in
            if b : bool then
              let! when_ := parse_expr in
              let! _ := expect TThen in
              let! then_ := parse_expr in
              st_ret (Some (acc ++ [WhenThen when_ then_]))
            else st_ret None) [] in
  match whens with
  | [] => st_err PNoWhen
  | _ =>
      let! else_expr := opt_clause TElse parse_expr in
      let! _ := expect TEnd in
      st_ret (XCase operand whens else_expr)
  end.

Definition parse_cast : P expr :=
  let! _ := expect TCast in
  let! _ := expect TLParen in
  let! e := parse_expr in
  let! _ := expect TAs in
  let! ty := parse_type_name in
  let! _ := expect TRParen in
  st_ret (XCast e ty).

Definition parse_convert : P expr :=
  let! _ := expect TConvert in
  let! _ := expect TLParen in
  let! e := parse_expr in
  let! _ := expect TComma in
  let! ty := parse_type_name in
  let! _ := expect TRParen in
  st_ret (XCast e ty).

Definition parse_paren : P expr :=
  let! _ := advance in
  let! sub := at_ TSelect in
  if sub : bool then
    let! select := parse_select_statement in
    let! _ := expect TRParen in
    st_ret (XScalarSubquery select)
  else
    let! e := parse_expr in
    let! _ := expect TRParen in
    st_ret e.

(** [LEFT(...)] and [RIGHT(...)] *)
Definition parse_edge_call (name : str) : P expr :=
  let! _ := advance in
  let! _ := expect TLParen in
  parse_call name.

Definition parse_named (name : str) : P expr :=
  let! _ := advance in
  let! call := eat TLParen in
  if call : bool then parse_call name
  else let! dot := eat TDot in
       if dot : bool then
         let! star := eat TStar in
         if star : bool then st_ret (XStar (Some name))
         else let! col := parse_ident in st_ret (XColumn (Some name) col)
       else st_ret (XColumn None name).

Definition literal (v : value) : P expr := let! _ := advance in st_ret (XLiteral v).

Definition parse_primary : P expr :=
  let! c := current in
  match c with
  | TNumber s => let! _ := advance in
                 let! v := st_lift (number_literal s) in st_ret (XLiteral v)
  | TString s => literal (VString s)
  | TNull => literal VNull
  | TTrue => literal (VBool true)
  | TFalse => literal (VBool false)
  | TStar => let! _ := advance in st_ret (XStar None)
  | TParam => let! _ := advance in
              let! i := next_param in st_ret (XParam (PPositional i))
  | TNamedParam name => let! _ := advance in st_ret (XParam (PNamed name))
  | TCase => parse_case
  | TCast => parse_cast
  | TConvert => parse_convert
  | TLParen => parse_paren
  | TLeft => parse_edge_call (lit "left")
  | TRight => parse_edge_call (lit "right")
  | TIdentifier name => parse_named name
  | other => st_err (PUnexpected other)
  end.

(** [parse_unary] calls itself on every sign. *)
Fixpoint unary_fuel (fuel : nat) : P expr :=
  match fuel with
  | 0 => st_panic
  | S fuel =>
      let! minus := eat TMinus in
      if minus : bool then let! e := unary_fuel fuel in st_ret (XUnary UNeg e)
      else let! plus := eat TPlus in
           if plus : bool then let! e := unary_fuel fuel in st_ret (XUnary UPlus e)
           else parse_primary
  end.

Definition parse_unary : P expr := fun s => unary_fuel (S (mu s)) s.

Definition term_op (t : token) : option binary_op :=
  match t with
  | TStar => Some BMul | TSlash => Some BDiv | TMod => Some BMod | TAmp => Some BBitAnd
  | _ => None
  end.
Definition parse_term : P expr := left_assoc term_op parse_unary.

Definition additive_op (t : token) : option binary_op :=
  match t with
  | TPlus => Some BAdd | TMinus => Some BSub | TPipe => Some BBitOr | TCaret => Some BBitXor
  | _ => None
  end.
Definition parse_additive : P expr := left_assoc additive_op parse_term.

Definition concat_op (t : token) : option binary_op :=
  match t with TConcat => Some BConcat | _ => None end.
Definition parse_concat : P expr := left_assoc concat_op parse_additive.

Definition parse_in (left : expr) (negated : bool) : P expr :=
  let! _ := expect TIn in
  let! _ := expect TLParen in
  let! sub := at_ TSelect in
  if sub : bool then
    let! select := parse_select_statement in
    let! _ := expect TRParen in
    st_ret (XInSubquery left negated select)
  else
    let! items := parse_expr_list in
    let! _ := expect TRParen in
    st_ret (XInList left negated items).

Definition parse_between (left : expr) (negated : bool) : P expr :=
  let! _ := expect TBetween in
  let! low := parse_concat in
  let! _ := expect TAnd in
  let! high := parse_concat in
  st_ret (XBetween left negated low high).

Definition parse_like (left : expr) (negated : bool) : P expr :=
  let! _ := expect TLike in
  let! pattern := parse_concat in
  let! escape := opt_clause TEscape parse_concat in
  st_ret (XLike left negated pattern escape None).

Definition comparison_op (t : token) : option binary_op :=
  match t with
  | TEq => Some BEq | TNeq | TNeq2 => Some BNeq | TLt => Some BLt | TLte => Some BLte
  | TGt => Some BGt | TGte => Some BGte
  | _ => None
  end.

Definition parse_predicate : P expr :=
  let! lhs := parse_concat in
  let! c := current in
  match comparison_op c with
  | Some op => let! _ := advance in
               let! rhs := parse_concat in
               st_ret (XBinary lhs op rhs)
  | None =>
      match c with
      | TIs => let! _ := advance in
               let! negated := eat TNot in
               let! _ := expect TNull in
               st_ret (XIsNull lhs negated)
      | TIn => parse_in lhs false
      | TBetween => parse_between lhs false
      | TLike => parse_like lhs false
      | TNot =>
          let! _ := advance in
          let! c := current in
          match c with
          | TIn => parse_in lhs true
          | TBetween => parse_between lhs true
          | TLike => parse_like lhs true
          | other => st_err (PAfterNot other)
          end
      | _ => st_ret lhs
      end
  end.

Definition parse_not : P expr :=
  let! b := eat TNot in
  if b : bool then let! e := parse_predicate in st_ret (XUnary UNot e) else parse_predicate.

Definition and_op (t : token) : option binary_op :=
  match t with TAnd => Some BAnd | _ => None end.
Definition parse_and : P expr := left_assoc and_op parse_not.

Definition or_op (t : token) : option binary_op :=
  match t with TOr => Some BOr | _ => None end.
Definition parse_or : P expr := left_assoc or_op parse_and.
End Expr.

(** ** Statements *)

Section Select.
Context (parse_expr : P expr) (parse_select_statement : P select_statement).

Definition parse_select_column : P select_column :=
  let! e := parse_expr in
  let! alias := parse_optional_alias in
  st_ret (SelectColumn e alias).

Definition parse_select_columns : P (list select_column) := sep_by TComma parse_select_column.

(** [.segment]s are part of the name. *)
Definition parse_dotted (name : str) : P str :=
  loop (fun name =>
          let! b := eat TDot in
          if b : bool then let! seg := parse_ident in st_ret (Some (name ++ lit "." ++ seg))
          else st_ret None) name.

Definition parse_table_ref : P table_ref :=
  let! paren := eat TLParen in
  if paren : bool then
    let! select := parse_select_statement in
    let! _ := expect TRParen in
    let! _ := eat TAs in
    let! alias := parse_ident in
    st_ret (TDerived select alias)
  else
    let! first := parse_ident in
    let! name := parse_dotted first in
    let! alias := parse_optional_alias in
    st_ret (TNamed name alias).

Definition parse_join_with_on (jt : join_type) : P join_clause :=
  let! table := parse_table_ref in
  let! _ := expect TOn in
  let! on := parse_expr in
  st_ret (JoinClause jt table (Some on)).

Definition parse_outer_join (jt : join_type) : P join_clause :=
  let! _ := advance in
  let! _ := eat TOuter in
  let! _ := expect TJoin in
  parse_join_with_on jt.

(** One round of the join loop; [None] leaves it. *)
Definition parse_join : P (option join_clause) :=
  let! c := current in
  let some (m : P join_clause) : P (option join_clause) := let! j := m in st_ret (Some j) in
  match c with
  | TComma => some (let! _ := advance in
                    let! t := parse_table_ref in st_ret (JoinClause Cross t None))
  | TCross => some (let! _ := advance in
                    let! _ := expect TJoin in
                    let! t := parse_table_ref in st_ret (JoinClause Cross t None))
  | TJoin | TInner => some (let! _ := eat TInner in
                            let! _ := expect TJoin in
                            parse_join_with_on Inner)
  | TLeft => some (parse_outer_join Left)
  | TRight => some (parse_outer_join Right)
  | TFull => some (parse_outer_join Full)
  | _ => st_ret None
  end.

Definition parse_from : P (option table_ref * list join_clause) :=
  let! seed := parse_table_ref in
  let! joins := loop (fun acc =>
                        let! j := parse_join in
                        st_ret (match j with Some j => Some (acc ++ [j]) | None => None end)) [] in
  st_ret (Some seed, joins).

Definition parse_select_core : P select_core :=
  let! _ := expect TSelect in
  let! distinct := eat TDistinct in
  let! top := opt_clause TTop parse_uint in
  let! columns := parse_select_columns in
  let! has_from := eat TFrom in
  let! from := if has_from : bool then parse_from else st_ret (None, []) in
  let! where_ := opt_clause TWhere parse_expr in
  let! grouped := eat TGroup in
  let! group_by := if grouped : bool
                   then let! _ := expect TBy in parse_expr_list parse_expr
                   else st_ret [] in
  let! having := opt_clause THaving parse_expr in
  st_ret (SelectCore distinct top columns from.1 from.2 where_ group_by having).

Definition parse_order_by_item : P order_by_expr :=
  let! e := parse_expr in
  let! asc := eat TAsc in
  if asc : bool then st_ret (OrderByExpr e Asc)
  else let! desc := eat TDesc in
       st_ret (OrderByExpr e (if desc : bool then Desc else Asc)).

Definition parse_order_by : P (list order_by_expr) := sep_by TComma parse_order_by_item.

Definition parse_union : P union_arm :=
  let! all := eat TAll in
  let! _ := if all : bool then st_ret false else eat TDistinct in
  let! select := parse_select_core in
  st_ret (Union all select).

(** [TOP] of the body becomes the statement's [LIMIT] when there is none. *)
Definition lift_top (body : select_core) (limit : option limit_clause)
    : select_core * option limit_clause :=
  match limit, co_top body with
  | None, Some n =>
      (SelectCore (co_distinct body) None (co_columns body) (co_from body) (co_joins body)
         (co_where body) (co_group_by body) (co_having body),
       Some (LimitClause 0 n))
  | _, _ => (body, limit)
  end.

Definition parse_select_statement_inner : P select_statement :=
  let! body := parse_select_core in
  let! unions := more TUnion parse_union [] in
  let! ordered := eat TOrder in
  let! order_by := if ordered : bool then let! _ := expect TBy in parse_order_by
                   else st_ret [] in
  let! limit := opt_clause TLimit parse_limit in
  let bl := lift_top body limit in
  st_ret (SelectStatement bl.1 unions order_by bl.2).
End Select.

(** ** The knot *)

(** [levels] nesting levels may still be entered. *)
Fixpoint parsers (levels : nat) : P expr * P select_statement :=
  match levels with
  | 0 => (st_panic, st_panic)
  | S levels =>
      let inner := parsers levels in
      (nested (parse_or inner.1 inner.2),
       nested (parse_select_statement_inner inner.1 inner.2))
  end.

(** One level above the limit: the innermost call only refuses. *)
Definition parse_expr : P expr := (parsers (S max_nesting_depth)).1.
Definition parse_select_statement : P select_statement := (parsers (S max_nesting_depth)).2.

Definition parse_statement : P select_statement :=
  let! c := current in
  if bool_decide (c = TSelect) then
    let! stmt := parse_select_statement in
    let! c := current in
    match c with
    | TError e => st_err (PLexError e)
    | TEof => st_ret stmt
    | other => st_err (PTrailing other)
    end
  else st_err (PExpectedSelect c).

Definition parse (sql : str) : outcome parse_error select_statement :=
  (parse_statement (new_parser sql)).2.
End Parser.
