(* ===== verification/Instances.v ===== *)
(** * Instances: concrete parameters for evaluation

    Small executable instances of the interfaces of the development: character
    tables for ASCII, Latin-1 and Greek sigma, a matcher for the regular
    expressions that [like.rs] emits, a date library without a time zone, a
    platform and a C library.  They show that the laws of each interface can be
    met and let concrete statements be evaluated. *)

From Stdlib Require Import Strings.Ascii.
From stdpp Require Import base list numbers strings.
From S2P Require Import Prelude Text Float64 Value QoqLike QoqFunctions QoqColumns.

(** ** Characters *)

Definition latin_lower (c : char) : char :=
  if ((65 <=? c) && (c <=? 90))%N then (c + 32)%N
  else if ((192 <=? c) && (c <=? 222) && negb (c =? 215))%N then (c + 32)%N
  else if (c =? 931)%N then 963%N else c.

Definition latin_upper (c : char) : char :=
  if ((97 <=? c) && (c <=? 122))%N then (c - 32)%N
  else if ((224 <=? c) && (c <=? 254) && negb (c =? 247))%N then (c - 32)%N
  else if ((c =? 962) || (c =? 963))%N then 931%N else c.

Definition latin_alpha (c : char) : bool :=
  is_ascii_alpha c || ((192 <=? c) && (c <=? 255) && negb (c =? 215) && negb (c =? 247))%N
  || (c =? 931)%N || (c =? 962)%N || (c =? 963)%N.

Ltac latin_cases :=
  unfold is_ascii, latin_lower, latin_upper, latin_alpha, ascii_lower, ascii_upper, is_ascii_alpha, is_ascii_digit in *;
  repeat match goal with
  | H : context [N.leb ?a ?b] |- _ => destruct (N.leb_spec a b); simpl in *
  | H : context [N.ltb ?a ?b] |- _ => destruct (N.ltb_spec a b); simpl in *
  | H : context [N.eqb ?a ?b] |- _ => destruct (N.eqb_spec a b); simpl in *
  | |- context [N.leb ?a ?b] => destruct (N.leb_spec a b); simpl in *
  | |- context [N.ltb ?a ?b] => destruct (N.ltb_spec a b); simpl in *
  | |- context [N.eqb ?a ?b] => destruct (N.eqb_spec a b); simpl in *
  end; try done; try lia.

#[global] Program Instance latin : Unicode := {|
  uc_lower c := [latin_lower c];
  uc_upper c := [latin_upper c];
  uc_alphabetic := latin_alpha;
  uc_numeric := is_ascii_digit;
  uc_whitespace c := ((c =? 32) || (9 <=? c) && (c <=? 13) || (c =? 133) || (c =? 160))%N;
  uc_cased := latin_alpha;
  uc_case_ignorable c := ((c =? 39) || (c =? 46) || (c =? 58))%N;
|}.
Next Obligation. intros c H. f_equal. latin_cases. Qed.
Next Obligation. intros c H. f_equal. latin_cases. Qed.
Next Obligation. intros c H. simpl. latin_cases. Qed.
Next Obligation. done. Qed.
Next Obligation. intros c H. simpl. latin_cases. Qed.
Next Obligation.
  intros c d ->%list_elem_of_singleton. split; [f_equal|]; latin_cases.
Qed.
Next Obligation. done. Qed.

(** ** A matcher for the emitted regular expressions *)

Section LikeDecide.
Context (eqc : char -> char -> bool).

Fixpoint like_b (es : list elem) (t : str) {struct es} : bool :=
  match es with
  | [] => match t with [] => true | _ => false end
  | EAny :: es =>
      (fix go (t : str) : bool :=
         like_b es t || match t with [] => false | _ :: t => go t end) t
  | EOne :: es => match t with [] => false | _ :: t => like_b es t end
  | ELit d :: es => match t with [] => false | c :: t => eqc d c && like_b es t end
  end.

Lemma like_b_spec es t : like_b es t = true <-> like_rel eqc es t.
Proof.
  revert t; induction es as [|[| |d] es IH]; intros t.
  - destruct t; simpl; split; intros H; try done; [constructor|inv H].
  - rewrite like_rel_any. split.
    + induction t as [|c t IHt]; simpl; rewrite orb_true_iff, IH; intros [H|H];
        [by exists [], []| done| by exists [], (c :: t)|].
      destruct (IHt H) as (pre & mid & -> & Hm). by exists (c :: pre), mid.
    + intros (pre & mid & -> & H%IH).
      induction pre as [|c pre IHp]; simpl.
      * destruct mid; simpl; by rewrite H.
      * apply orb_true_iff. by right.
  - destruct t; simpl; [split; [done|intros H; inv H]|].
    rewrite IH. split; intros H; [by constructor|by inv H].
  - destruct t; simpl; [split; [done|intros H; inv H]|].
    rewrite andb_true_iff, IH. split; intros H; [by destruct H; constructor|by inv H].
Qed.
End LikeDecide.

(** [\ . + * ? ( ) | [ ] { } ^ $ # & - ~] *)
Definition regex_meta (c : char) : bool :=
  existsb (N.eqb c) (lit "\.+*?()|[]{}^$#&-~").

Definition mini_escape (s : str) : str :=
  concat (map (fun c => if regex_meta c then lit "\" ++ [c] else [c]) s).

(** The body of a pattern: [.*], [.], an escaped or a plain character, and a
    final [$]. *)
Fixpoint mini_body (s : str) : list elem * bool :=
  match s with
  | [] => ([], false)
  | c :: s' =>
      if ch_is "."%char c then
        match s' with
        | c2 :: s'' => if ch_is "*"%char c2 then let r := mini_body s'' in (EAny :: r.1, r.2)
                       else let r := mini_body s' in (EOne :: r.1, r.2)
        | [] => ([EOne], false)
        end
      else if ch_is "\"%char c then
        match s' with
        | c2 :: s'' => let r := mini_body s'' in (ELit c2 :: r.1, r.2)
        | [] => ([ELit c], false)
        end
      else if ch_is "$"%char c then ([], true)
      else let r := mini_body s' in (ELit c :: r.1, r.2)
  end.

Definition mini_is_match (p t : str) : bool :=
  let s := drop 5 p in
  let '(a1, s) := match s with
                  | c :: s' => if ch_is "^"%char c then (true, s') else (false, s)
                  | [] => (false, s)
                  end in
  let '(body, a2) := mini_body s in
  like_b char_eq_ignore_ascii_case (edge a1 ++ body ++ edge a2) t.

Lemma emit_lit d :
  emit_elem mini_escape (ELit d) = if regex_meta d then lit "\" ++ [d] else [d].
Proof. unfold emit_elem, mini_escape. simpl. apply app_nil_r. Qed.

Lemma mini_body_emit body (a2 : bool) :
  mini_body (concat (map (emit_elem mini_escape) body) ++ (if a2 then lit "$" else []))
  = (body, a2).
Proof.
  assert (Hstar : forall body (rest : str), match rest with c :: _ => ch_is "*"%char c = false | [] => True end ->
    match concat (map (emit_elem mini_escape) body) ++ rest with
    | c :: _ => ch_is "*"%char c = false | [] => True end).
  { intros [|[| |d] b] rest Hr; simpl; try done.
    unfold mini_escape. simpl. destruct (regex_meta d) eqn:Hd; simpl; [done|].
    unfold ch_is. apply N.eqb_neq. intros ->. done. }
  induction body as [|[| |d] body IH]; [by destruct a2|..]; cbn [map concat]; rewrite <- app_assoc.
  - simpl. by rewrite IH.
  - change (emit_elem mini_escape EOne) with (lit "."). simpl.
    specialize (Hstar body (if a2 then lit "$" else [])).
    destruct (concat _ ++ _) as [|c s] eqn:Hs.
    + simpl in IH. by injection IH as <- <-.
    + rewrite Hstar by (by destruct a2). by rewrite IH.
  - rewrite emit_lit. destruct (regex_meta d) eqn:Hd; simpl.
    + by rewrite IH.
    + assert (Hn : forall a, regex_meta (chr a) = true -> ch_is a d = false).
      { intros a Ha. unfold ch_is. apply N.eqb_neq. intros ->. congruence. }
      rewrite !Hn by done. by rewrite IH.
Qed.

#[global] Program Instance mini_regex : RegexCrate := {|
  regex_escape := mini_escape;
  regex_is_match := mini_is_match;
  simple_fold_eq := char_eq_ignore_ascii_case;
|}.
Next Obligation.
  intros s. unfold mini_escape. f_equal. apply map_ext. intros c. simpl.
  by rewrite app_nil_r.
Qed.
Next Obligation. done. Qed.
Next Obligation.
  intros t. change (like_b char_eq_ignore_ascii_case [EAny; EAny] t = true).
  apply like_b_spec, like_rel_any. exists t, []. split; [by rewrite app_nil_r|repeat constructor].
Qed.
Next Obligation.
  intros a1 body a2 t. rewrite <- like_rel_edges, <- like_b_spec.
  unfold mini_is_match, emit_regex. destruct a1.
  - change (drop 5 _) with (lit "^" ++ concat (map (emit_elem mini_escape) body)
      ++ (if a2 then lit "$" else [])). simpl. by rewrite mini_body_emit.
  - change (drop 5 _) with (concat (map (emit_elem mini_escape) body)
      ++ (if a2 then lit "$" else [])).
    assert (Hc : forall rest : str,
      match rest with c :: _ => ch_is "^"%char c = false | [] => True end ->
      match concat (map (emit_elem mini_escape) body) ++ rest with
      | c :: s' => if ch_is "^"%char c then (true, s') else
          (false, concat (map (emit_elem mini_escape) body) ++ rest)
      | [] => (false, concat (map (emit_elem mini_escape) body) ++ rest) end
      = (false, concat (map (emit_elem mini_escape) body) ++ rest)).
    { destruct body as [|[| |d] b]; intros rest Hr; simpl; try done.
      - by destruct rest; [|rewrite Hr].
      - unfold mini_escape. simpl. destruct (regex_meta d) eqn:Hd; simpl; [done|].
        assert (ch_is "^"%char d = false) as ->; [|done].
        unfold ch_is. apply N.eqb_neq. intros ->. done. }
    rewrite Hc by (by destruct a2). by rewrite mini_body_emit.
Qed.

(** ** Dates, platform and C library *)

(** Seconds since the epoch, without calendar or time zone. *)
#[global] Instance epoch_dates : DateLib := {|
  to_cfml_string d := lit "{ts '" ++ Z_to_str (date_secs d) ++ lit "'}";
  from_numeric _ := None;
  parse_date _ := None;
|}.

Fixpoint first_true (l : list bool) : nat :=
  match l with [] => 0 | true :: _ => 0 | false :: l => S (first_true l) end.

#[global] Program Instance one_core : Platform := {|
  num_threads := 1;
  sort_unordered cmp l := Some (stable_sort cmp l);
  rayon_pick := first_true;
|}.
Next Obligation.
  intros cmp l l' [= <-]. unfold stable_sort.
  assert (Hins : forall x k, Permutation (x :: k) (sort_insert cmp x k)).
  { intros x k; induction k as [|y k IH]; simpl; [done|]. destruct (is_le _); [done|].
    rewrite <- IH. apply Permutation_swap. }
  induction l as [|x l IH]; simpl; [done|]. rewrite <- Hins. by constructor.
Qed.
Next Obligation.
  induction fails as [|[] l IH]; simpl in *; [discriminate|reflexivity|by apply IH].
Qed.

(** Functions that agree with the C library at 0, and [powi] at base 10. *)
#[global] Instance zero_libm : Libm := {|
  f64_exp _ := f64_one;
  f64_sin x := x;
  f64_cos _ := f64_one;
  f64_tan x := x;
  f64_powf _ _ := f64_one;
  f64_powi x n := f64_of_Z (Z.pow 10 n);
|}.
