(* ===== verification/QoqHashJoin.v ===== *)
(** * QoqHashJoin: the hash join against the nested loop

    A chain of INNER joins whose ON clauses are equalities of two columns is
    answered by a hash join on group keys.  On key columns that hold non-NULL
    values of one kind (not doubles) it builds the very vector the nested loop
    over the ON clauses would; on NULL keys and on keys of different kinds it
    does not. *)

From stdpp Require Import base list numbers strings gmap.
From S2P Require Import Prelude Text Float64 Value QoqLike QoqAst QoqCompare QoqTable QoqJoin QoqFunctions QoqOps QoqEval QoqCompiled QoqColumns QoqExec Instances.
#[local] Open Scope st_scope.

(** ** The index *)

Section Index.
Context {U : Unicode} {D : DateLib}.

Lemma hash_index_lookup t rc key :
  from_option id [] (hash_index t rc !! key)
  = List.filter (fun r => bool_decide (group_key [get t r rc] = key)) (seq 1 (tb_row_count t)).
Proof.
  unfold hash_index. induction (seq 1 (tb_row_count t)) as [|r rows IH] using rev_ind; [done|].
  rewrite fold_left_app, List.filter_app. simpl. rewrite <- IH.
  case_bool_decide as Hk; [subst key; by rewrite lookup_insert_eq|].
  rewrite lookup_insert_ne by done. by rewrite app_nil_r.
Qed.

(** The cell a resolved reference denotes on an intersection. *)
Definition cell (tables : table_set) (i : list nat) (ti ci : nat) : value :=
  from_option (fun t => get t (from_option id 0 (i !! ti)) ci) VNull (tables !! ti).

Lemma value_at_cell {E} tables i ti ci :
  ti < length tables -> value_at (E := E) tables i ti ci = Ok (cell tables i ti ci).
Proof. intros [t Ht]%lookup_lt_is_Some. unfold value_at, cell. by rewrite Ht. Qed.

(** The right rows that share the key of a left row. *)
Definition key_matches (tables : table_set) (t : qoq_table) (lt lc rc : nat) (i : list nat)
    : list (list nat) :=
  map (fun r => i ++ [r])
    (List.filter (fun r => bool_decide (group_key [get t r rc] = group_key [cell tables i lt lc]))
       (seq 1 (tb_row_count t))).

Lemma hash_join_step_rows {E} tables k lt lc rt rc t L :
  tables !! rt = Some t -> lt < length tables -> row_width (k + 1) L ->
  hash_join_step (E := E) tables k (lt, lc, rt, rc) (of_rows (k + 1) L)
  = Ok (of_rows (k + 2) (concat (map (key_matches tables t lt lc rc) L))).
Proof.
  intros Ht Hlt Hw. unfold hash_join_step, index_or_panic. rewrite Ht. simpl.
  rewrite in_iter_of_rows by (done || lia).
  rewrite (omapM_ok _ (fun i => concat (key_matches tables t lt lc rc i))).
  - simpl. unfold of_rows. by rewrite concat_concat_map.
  - intros i _. rewrite value_at_cell by done. simpl. by rewrite hash_index_lookup.
Qed.
End Index.

(** ** The nested loop at a state its closure leaves alone *)

Section At.
Context {S E : Type} (s : S).

Lemma st_foldM_at {A B} (f : B -> A -> ST S E B) (g : B -> A -> B) acc l :
  (forall b x, x ∈ l -> f b x s = (s, Ok (g b x))) ->
  st_foldM f acc l s = (s, Ok (fold_left g l acc)).
Proof.
  revert acc. induction l as [|x l IH]; intros acc Hf; simpl; [done|].
  unfold st_bind. rewrite Hf by left. apply IH. intros b y Hy. apply Hf. by right.
Qed.
End At.

Lemma join_inner_at {S} (f : nat -> list nat -> ST S Z bool) p k L rr (s : S) :
  row_width (k + 1) L ->
  (forall i r, i ∈ L -> 1 <= r <= rr -> f k (i ++ [r]) s = (s, Ok (p k (i ++ [r])))) ->
  join_step f Inner k (of_rows (k + 1) L) rr s
  = (s, Ok (of_rows (k + 2) (concat (map (right_matches p k rr) L)))).
Proof.
  intros Hw Hf. unfold join_step, join_inner. unfold st_bind at 1.
  rewrite in_iter_of_rows by (done || lia).
  rewrite (st_foldM_at s _ (fun flat i => flat ++ concat (right_matches p k rr i))).
  - simpl. rewrite fold_append. simpl. unfold of_rows. rewrite concat_concat_map.
    by replace (k + 1 + 1) with (k + 2) by lia.
  - intros flat i Hi. unfold st_bind, probe_right.
    rewrite (st_foldM_at s _ (fun '(flat, m) r =>
      if p k (i ++ [r]) then (flat ++ i ++ [r], true) else (flat, m))).
    + by rewrite (fold_hits (fun r => p k (i ++ [r])) (fun r => i ++ [r])).
    + intros [fl m] r Hr%list_elem_of_In%in_seq. unfold st_bind.
      rewrite Hf by (done || lia). by destruct (p k (i ++ [r])).
Qed.

(** ** Comparable key columns *)

Section Comparable.
Context {U : Unicode} {D : DateLib}.

Definition all_kinds : list kind := [KInt; KBool; KString; KDate].

(** Every cell of the column is a non-NULL value of the kind. *)
Definition column_kind (k : kind) (t : qoq_table) (c : nat) : bool :=
  forallb (fun r => has_kind k (get t r c) && negb (is_null (get t r c)))
    (seq 1 (tb_row_count t)).

(** Both key columns of a probe hold non-NULL values of one kind, doubles
    excepted. *)
Definition comparable_probe (tables : table_set) (probe : nat * nat * nat * nat) : bool :=
  let '(lt, lc, rt, rc) := probe in
  match tables !! lt, tables !! rt with
  | Some l, Some r => existsb (fun k => column_kind k l lc && column_kind k r rc) all_kinds
  | _, _ => false
  end.

(** Rows of existing row numbers. *)
Definition valid_row (tables : table_set) (i : list nat) : Prop :=
  forall ti n, i !! ti = Some n -> exists t, tables !! ti = Some t /\ 1 <= n <= tb_row_count t.

Lemma column_kind_cell k t c r :
  column_kind k t c = true -> 1 <= r <= tb_row_count t ->
  has_kind k (get t r c) = true /\ is_null (get t r c) = false.
Proof.
  unfold column_kind. rewrite forallb_forall. intros H Hr.
  specialize (H r). rewrite in_seq, andb_true_iff, negb_true_iff in H. apply H. lia.
Qed.

(** On comparable keys sharing the group key is the truth of [=]. *)
Lemma comparable_keys tables lt lc rt rc t i r :
  comparable_probe tables (lt, lc, rt, rc) = true -> tables !! rt = Some t ->
  valid_row tables i -> lt < length i -> 1 <= r <= tb_row_count t ->
  bool_decide (group_key [get t r rc] = group_key [cell tables i lt lc])
  = bool_decide (sql_equal (cell tables i lt lc) (get t r rc) = Some true).
Proof.
  intros Hc Ht Hi Hlt Hr. unfold comparable_probe in Hc. rewrite Ht in Hc.
  destruct (lookup_lt_is_Some_2 i lt Hlt) as [n Hn].
  destruct (Hi lt n Hn) as (l & Hl & Hn'). rewrite Hl in Hc.
  apply existsb_exists in Hc as (k & Hk & [Hkl Hkr]%andb_true_iff).
  unfold cell. rewrite Hl, Hn. simpl.
  destruct (column_kind_cell _ _ _ _ Hkl Hn') as [Hv Hnv].
  destruct (column_kind_cell _ _ _ _ Hkr Hr) as [Hw Hnw].
  apply bool_decide_ext. rewrite <- (cell_key_equal k); [|by destruct Hk as [<-|[<-|[<-|[<-|[]]]]]|done..].
  unfold group_key, append_group_key. simpl. naive_solver.
Qed.
End Comparable.

(** ** The chain *)

Section Chain.
Context {U : Unicode} {D : DateLib} {R : RegexCrate} {Lm : Libm} {P : Platform} {W : Type}.
Context (en : engine W) (run_sub : select_statement -> ST W cfml_error query_data).
Context (tables : table_set).
Let ev := eval en run_sub tables.

Definition probe_true (probe : nat * nat * nat * nat) (cand : list nat) : bool :=
  let '(lt, lc, rt, rc) := probe in
  bool_decide (sql_equal (cell tables cand lt lc) (cell tables cand rt rc) = Some true).

Lemma sql_equal_sym a b : sql_equal a b = sql_equal b a.
Proof.
  unfold sql_equal. rewrite (compare_sql_antisym b a).
  by destruct (compare_sql b a) as [[]|].
Qed.

Lemma equality_truthy a b :
  is_truthy (match compare_sql a b with None => VNull | Some o => VBool (cmp_test BEq o) end)
  = bool_decide (sql_equal a b = Some true).
Proof. unfold sql_equal. by destruct (compare_sql a b) as [[]|]. Qed.

Lemma orient_spec k p lt lc rt rc :
  orient k p = Some (lt, lc, rt, rc) ->
  rt = k + 1 /\ lt <= k /\ (p = (lt, lc, rt, rc) \/ p = (rt, rc, lt, lc)).
Proof.
  destruct p as [[[a b] c] d]. simpl.
  destruct (Nat.eqb_spec a (k + 1)), (Nat.leb_spec c k); simpl;
    try (intros; simplify_eq; naive_solver lia);
    destruct (Nat.eqb_spec c (k + 1)), (Nat.leb_spec a k); simpl;
    intros; simplify_eq; naive_solver lia.
Qed.

(** The ON closure of an equality of columns decides the probe. *)
Lemma on_closure_probe joins k j on probe cand w :
  joins !! k = Some j -> jn_on j = Some on ->
  (p ← equi_pair on; orient k p) = Some probe -> k + 1 < length tables ->
  on_closure ev joins k cand (w, None) = ((w, None), Ok (probe_true probe cand)).
Proof.
  intros Hj Hon Hp Hk. destruct probe as [[[lt lc] rt] rc].
  destruct (equi_pair on) as [p|] eqn:He; [|done]. simpl in Hp.
  apply orient_spec in Hp as (-> & Hlt & Hor).
  assert (Hon' : exists a b c d n1 n2, p = (a, b, c, d)
    /\ on = XBinary (XResolvedColumn a b n1) BEq (XResolvedColumn c d n2)).
  { unfold equi_pair in He. repeat case_match; simplify_eq; naive_solver. }
  destruct Hon' as (a & b & c & d & n1 & n2 & -> & ->).
  unfold on_closure. rewrite Hj, Hon. unfold ev. cbn [eval eval_resolved_column].
  unfold st_bind, st_lift. rewrite !value_at_cell by (destruct Hor; simplify_eq; lia).
  cbn [apply_binary]. rewrite equality_truthy. do 2 f_equal. unfold probe_true.
  destruct Hor; simplify_eq; [done|]. by rewrite sql_equal_sym.
Qed.

Lemma cell_snoc_left i r ti ci : ti < length i -> cell tables (i ++ [r]) ti ci = cell tables i ti ci.
Proof. intros H. unfold cell. by rewrite lookup_app_l. Qed.

Lemma cell_snoc_right i r ci t :
  tables !! length i = Some t -> cell tables (i ++ [r]) (length i) ci = get t r ci.
Proof. intros Ht. unfold cell. rewrite Ht. by rewrite lookup_app_r, Nat.sub_diag by lia. Qed.

(** One step: the rows that share the key are those on which ON is true. *)
Lemma step_matches probe k t L :
  (exists lt lc rc, probe = (lt, lc, k + 1, rc) /\ lt <= k) ->
  comparable_probe tables probe = true -> tables !! (k + 1) = Some t ->
  row_width (k + 1) L -> Forall (valid_row tables) L ->
  let '(lt, lc, _, rc) := probe in
  map (key_matches tables t lt lc rc) L
  = map (right_matches (fun _ => probe_true probe) k (tb_row_count t)) L.
Proof.
  intros (lt & lc & rc & -> & Hlt) Hc Ht Hw Hv. apply map_ext_in. intros i Hi%list_elem_of_In.
  unfold row_width in Hw. rewrite Forall_forall in Hw, Hv. specialize (Hw i Hi).
  unfold key_matches, right_matches. f_equal.
  apply List.filter_ext_in. intros r Hr%in_seq.
  rewrite (comparable_keys tables lt lc (k + 1) rc t) by (done || auto || lia).
  unfold probe_true. rewrite cell_snoc_left by lia. rewrite <- Hw in Ht |- *. by rewrite (cell_snoc_right _ _ _ t).
Qed.

Lemma matches_valid p k t L :
  tables !! (k + 1) = Some t -> row_width (k + 1) L -> Forall (valid_row tables) L ->
  let L' := concat (map (right_matches p k (tb_row_count t)) L) in
  row_width (k + 1 + 1) L' /\ Forall (valid_row tables) L'.
Proof.
  intros Ht Hw Hv. unfold row_width in *. rewrite !Forall_forall in *.
  assert (Hin : forall x, x ∈ concat (map (right_matches p k (tb_row_count t)) L) ->
    exists i r, x = i ++ [r] /\ i ∈ L /\ 1 <= r <= tb_row_count t).
  { intros x (l & (i & <- & Hi)%in_map_iff & Hx)%list_elem_of_In%in_concat.
    unfold right_matches in Hx. apply in_map_iff in Hx as (r & <- & [Hr _]%filter_In).
    apply in_seq in Hr. exists i, r. rewrite list_elem_of_In. naive_solver lia. }
  split; intros x (i & r & -> & Hi & Hr)%Hin.
  - rewrite length_app. simpl. rewrite Hw by done. lia.
  - intros ti n Hn. specialize (Hw i Hi). destruct (decide (ti < length i)).
    + rewrite lookup_app_l in Hn by done. by eapply Hv.
    + rewrite lookup_app_r in Hn by lia.
      destruct (ti - length i) as [|m] eqn:Hm; [|done]. simpl in Hn. simplify_eq.
      replace ti with (k + 1) by lia. eauto.
Qed.

Lemma chain_agrees joins rest k probes L w :
  (forall n j, rest !! n = Some j -> joins !! (k + n) = Some j) ->
  forallb (fun j => bool_decide (jn_type j = Inner)) rest = true ->
  on_probes k rest = Some probes -> length tables = k + 1 + length rest ->
  forallb (comparable_probe tables) probes = true ->
  row_width (k + 1) L -> Forall (valid_row tables) L ->
  exists x, hash_join_go (E := cfml_error) tables k probes (of_rows (k + 1) L) = Ok x
    /\ (join_all (on_closure ev joins) (row_counts tables) max_intersections k (map jn_type rest)
          (of_rows (k + 1) L) (w, None) = ((w, None), Ok x)
        \/ exists size, join_all (on_closure ev joins) (row_counts tables) max_intersections k
             (map jn_type rest) (of_rows (k + 1) L) (w, None) = ((w, None), Err size)).
Proof.
  revert k probes L. induction rest as [|j rest IH]; intros k probes L Hj Hin Hp Hlen Hc Hw Hv.
  { simplify_eq/=. eauto. }
  simpl in *. apply andb_true_iff in Hin as [Hjt%bool_decide_eq_true Hin].
  destruct (jn_on j) as [on|] eqn:Hon; [|done]. simpl in Hp.
  destruct (equi_pair on) as [p|] eqn:He; [|done]. simpl in Hp.
  destruct (orient k p) as [probe|] eqn:Ho; [|done]. simpl in Hp.
  destruct (on_probes (k + 1) rest) as [probes'|] eqn:Hr; [|done]. simpl in Hp. simplify_eq.
  simpl in Hc. apply andb_true_iff in Hc as [Hc Hcs].
  destruct (lookup_lt_is_Some_2 tables (k + 1)) as [t Ht]; [lia|].
  destruct probe as [[[lt lc] rt] rc]. destruct (orient_spec _ _ _ _ _ _ Ho) as (-> & Hlt & _).
  assert (Hstep := step_matches (lt, lc, k + 1, rc) k t L ltac:(eauto 10) Hc Ht Hw Hv).
  cbn beta iota in Hstep.
  destruct (matches_valid (fun _ => probe_true (lt, lc, k + 1, rc)) k t L Ht Hw Hv) as [Hw' Hv'].
  edestruct (IH (k + 1) probes') as (x & Hx & Hn); [|done|done|lia|done|exact Hw'|exact Hv'|].
  { intros n j' Hj'. replace (k + 1 + n) with (k + S n) by lia. by apply Hj. }
  exists x. cbn [hash_join_go]. rewrite (hash_join_step_rows _ _ _ _ _ _ t) by (done || lia).
  simpl. rewrite Hstep. replace (k + 2) with (k + 1 + 1) by lia. split; [done|].
  unfold row_counts at 1 3. rewrite list_lookup_fmap, Ht. simpl.
  destruct (max_intersections <? _)%Z; [right; by eexists|].
  rewrite Hjt. unfold st_bind.
  rewrite (join_inner_at _ (fun _ => probe_true (lt, lc, k + 1, rc))).
  - by replace (k + 2) with (k + 1 + 1) by lia.
  - done.
  - intros i r Hi Hr'. eapply on_closure_probe; [rewrite <- (Nat.add_0_r k); by apply Hj|done| |lia].
    by rewrite He.
Qed.
End Chain.

(** C25. A chain of INNER joins whose ON clauses are equalities of two columns,
    over key columns that hold non-NULL values of one kind other than double:
    the hash join always succeeds, and it builds, row for row and in the same
    order, what the nested loop over the ON clauses builds, unless the nested
    loop refuses the size. *)
Theorem hash_join_correct `{U : Unicode} `{D : DateLib} `{R : RegexCrate} `{Lm : Libm} {W}
    (en : engine W) run_sub tables core probes w :
  forallb (fun j => bool_decide (jn_type j = Inner)) (co_joins core) = true ->
  on_probes 0 (co_joins core) = Some probes ->
  length tables = 1 + length (co_joins core) ->
  forallb (comparable_probe tables) probes = true ->
  exists x, hash_join_chain (E := cfml_error) tables probes = Ok x
    /\ (nested_loop_join (eval en run_sub tables) core tables w = (w, Ok x)
        \/ exists size,
             nested_loop_join (eval en run_sub tables) core tables w = (w, Err (join_too_big size))).
Proof.
  intros Hin Hp Hlen Hc. destruct tables as [|t0 tables]; [done|].
  set (rows := map (fun r => [r]) (seq 1 (tb_row_count t0))).
  assert (Hf : Intersections 1 (seq 1 (tb_row_count t0)) = of_rows (0 + 1) rows).
  { unfold of_rows, rows. f_equal. induction (seq 1 _); simpl; by f_equal. }
  destruct (chain_agrees en run_sub (t0 :: tables) (co_joins core) (co_joins core) 0 probes rows w)
    as (x & Hx & Hn); try done.
  - unfold row_width. apply Forall_fmap, Forall_true. done.
  - apply Forall_fmap, Forall_forall. intros r Hr%list_elem_of_In%in_seq. intros [|ti] n Hn; [|done].
    simpl in Hn. simplify_eq. exists t0. split; [done|lia].
  - exists x. split.
    + unfold hash_join_chain, index_or_panic. simpl. by rewrite Hf.
    + unfold nested_loop_join, build_intersections.
      change (row_counts (t0 :: tables)) with (tb_row_count t0 :: row_counts tables) in *.
      cbn beta iota. rewrite Hf. destruct Hn as [Hn|[size Hn]]; rewrite Hn; eauto.
Qed.

(** ** Where the two differ *)

Section Divergence.
Context {W : Type} (en : engine W) (run_sub : select_statement -> ST W cfml_error query_data).

(** [t JOIN u ON t.k = u.k], bound. *)
Definition join_on_k : select_core :=
  SelectCore false None [] (Some (TNamed (lit "t") None))
    [JoinClause Inner (TNamed (lit "u") None)
       (Some (XBinary (XResolvedColumn 0 0 (lit "k")) BEq (XResolvedColumn 1 0 (lit "k"))))]
    None [] None.

(** Two tables of one row, with the given keys. *)
Definition one_row (k1 k2 : value) : table_set :=
  [QoQTable (lit "t") [lit "k"] [[k1]] 1; QoQTable (lit "u") [lit "k"] [[k2]] 1].

Definition hash_result (k1 k2 : value) : option (outcome cfml_error intersections) :=
  hash_join_chain (one_row k1 k2) <$> hash_probes join_on_k.

Definition loop_result (k1 k2 : value) (w : W) : W * outcome cfml_error intersections :=
  nested_loop_join (eval en run_sub (one_row k1 k2)) join_on_k (one_row k1 k2) w.
End Divergence.

(** The hash join is not the nested loop on other keys: it pairs a NULL key
    with a NULL key, on which the ON clause is unknown, and it misses the number
    1 against the string 1, on which the ON clause is true. *)
Theorem hash_join_divergence {W} (en : engine W) run_sub w :
  hash_result VNull VNull = Some (Ok (of_rows 2 [[1; 1]]))
  /\ loop_result en run_sub VNull VNull w = (w, Ok (of_rows 2 []))
  /\ hash_result (VInt 1) (VString (lit "1")) = Some (Ok (of_rows 2 []))
  /\ loop_result en run_sub (VInt 1) (VString (lit "1")) w = (w, Ok (of_rows 2 [[1; 1]])).
Proof. split_and!; vm_compute; reflexivity. Qed.
