(* ===== verification/QoqEvalFacts.v ===== *)
(** * QoqEvalFacts: what an expression's evaluation depends on

    [expr_all] collects the subqueries and the function names of an expression.
    Two engines whose nested runs and custom functions agree on them evaluate
    the expression alike, and an expression with none is a pure function of the
    row: it neither reads nor changes the world. *)

From stdpp Require Import base list numbers strings gmap.
From S2P Require Import Prelude Text Float64 Value QoqLike QoqAst QoqCompare QoqTable QoqFunctions QoqOps QoqEval QoqCompiled QoqExec.
#[local] Open Scope st_scope.

Definition all_list {A} (f : A -> Prop) : list A -> Prop :=
  fix go l := match l with [] => True | a :: l => f a /\ go l end.
Definition all_opt {A} (f : A -> Prop) (o : option A) : Prop :=
  match o with Some a => f a | None => True end.

Lemma all_list_Forall {A} (f : A -> Prop) l : all_list f l <-> Forall f l.
Proof. induction l; simpl; [done|]. rewrite Forall_cons. by rewrite IHl. Qed.

(** Every subquery satisfies [Ps] and every called function name [Pc]. *)
Fixpoint expr_all (Ps : select_statement -> Prop) (Pc : str -> Prop) (e : expr) : Prop :=
  match e with
  | XStar _ | XColumn _ _ | XResolvedColumn _ _ _ | XLiteral _ | XParam _ => True
  | XBinary l _ r => expr_all Ps Pc l /\ expr_all Ps Pc r
  | XUnary _ e | XCast e _ | XIsNull e _ => expr_all Ps Pc e
  | XFunction n args _ => Pc n /\ all_list (expr_all Ps Pc) args
  | XCase o ws el =>
      all_opt (expr_all Ps Pc) o
      /\ all_list (fun w => match w with
                            | WhenThen a b => expr_all Ps Pc a /\ expr_all Ps Pc b end) ws
      /\ all_opt (expr_all Ps Pc) el
  | XInList e _ l => expr_all Ps Pc e /\ all_list (expr_all Ps Pc) l
  | XInSubquery e _ s => expr_all Ps Pc e /\ Ps s
  | XBetween e _ lo hi => expr_all Ps Pc e /\ expr_all Ps Pc lo /\ expr_all Ps Pc hi
  | XLike e _ p es _ =>
      expr_all Ps Pc e /\ expr_all Ps Pc p /\ all_opt (expr_all Ps Pc) es
  | XScalarSubquery s => Ps s
  end.

(** The expressions a compiled form still evaluates. *)
Fixpoint compiled_all (P : expr -> Prop) (ce : compiled_expr) : Prop :=
  match ce with
  | CAnd parts | COr parts => all_list (compiled_all P) parts
  | CNot e | CIsNull e _ | CLikeConst e _ _ => compiled_all P e
  | CCmp l _ r => compiled_all P l /\ compiled_all P r
  | CGeneric e => P e
  | _ => True
  end.

Lemma all_list_app {A} (f : A -> Prop) l1 l2 :
  all_list f (l1 ++ l2) <-> all_list f l1 /\ all_list f l2.
Proof. rewrite !all_list_Forall. apply Forall_app. Qed.

Lemma all_list_impl {A} (f g : A -> Prop) l :
  Forall (fun x => f x -> g x) l -> all_list f l -> all_list g l.
Proof. induction 1; simpl; [done|]. naive_solver. Qed.

Section ExprAll.
Context (Ps : select_statement -> Prop) (Pc : str -> Prop).
Abbreviation ok := (expr_all Ps Pc).

Lemma compile_all_ok e :
  ok e -> compiled_all ok (compile e) /\ all_list (compiled_all ok) (push_and e)
    /\ all_list (compiled_all ok) (push_or e).
Proof.
  assert (Hleaf : forall e, push_and e = [compile e] -> push_or e = [compile e] ->
    compiled_all ok (compile e) -> compiled_all ok (compile e)
    /\ all_list (compiled_all ok) (push_and e) /\ all_list (compiled_all ok) (push_or e)).
  { intros e' Ha Ho H. rewrite Ha, Ho. simpl. tauto. }
  induction e as [| | |v|l op r IHl IHr|op e IHe|n args d _|o ws el _ _ _
    |e ty _|e n IHe|e n l _ _|e n s _|e n lo hi _ _ _|e n p es c IHe _ _
    | |] using expr_ind'; intros H; try (by apply Hleaf).
  - apply Hleaf; [done..|]. by destruct v.
  - destruct H as [Hl Hr].
    destruct (IHl Hl) as (H1 & H2 & H3), (IHr Hr) as (H4 & H5 & H6).
    destruct (bin_to_cmp op) as [cmp|] eqn:Hop.
    + apply Hleaf; [by destruct op; try discriminate Hop..|].
      assert (Hd : compiled_all ok (CCmp (compile l) cmp (compile r))) by done.
      destruct op; simpl in Hop; simplify_eq; unfold compile in *; simpl;
        destruct l, r; try exact Hd; exact I.
    + destruct op; try discriminate Hop; try (by apply Hleaf).
      * assert (all_list (compiled_all ok) (push_and l ++ push_and r)) by (by apply all_list_app).
        simpl. naive_solver.
      * assert (all_list (compiled_all ok) (push_or l ++ push_or r)) by (by apply all_list_app).
        simpl. naive_solver.
  - destruct op; try (by apply Hleaf). apply Hleaf; [done..|]. by apply IHe.
  - apply Hleaf; [done..|]. by apply IHe.
  - apply Hleaf; [done..|]. unfold compile. simpl.
    destruct e; try done. by destruct (all_literals l).
  - destruct c; [|by apply Hleaf]. apply Hleaf; [done..|]. apply IHe. by destruct H.
Qed.

Lemma compile_ok e : ok e -> compiled_all ok (compile e).
Proof. intros H. by apply compile_all_ok. Qed.

Lemma bind_ok `{Unicode, DateLib, RegexCrate} tables e : ok e -> ok (bind_expr tables e).
Proof.
  induction e as [| | |v|l op r IHl IHr|op e IHe|n args d IH|o ws el IHo IHw IHe
    |e ty IHe|e n IHe|e n l IHe IHl|e n s IHe|e n lo hi IHe IHlo IHhi|e n p es c IHe IHp IHes
    | |] using expr_ind'; try done; simpl.
  - intros _. by destruct (resolve_column tables t n) as [[]|].
  - naive_solver.
  - intros [Hn Ha]. split; [done|]. rewrite all_list_Forall, Forall_fmap in *.
    eapply Forall_impl; [apply Forall_and; split; [exact IH|exact Ha]|].
    simpl. intros x [Hx Hy]. auto.
  - intros (Ho & Hw & He). repeat split.
    + destruct IHo; simpl in *; auto.
    + clear Ho He IHo IHe. induction IHw as [|[a b] ws [Ha Hb] _ IH]; simpl in *; [done|].
      naive_solver.
    + destruct IHe; simpl in *; auto.
  - intros [He Ha]. split; [auto|]. rewrite all_list_Forall, Forall_fmap in *.
    eapply Forall_impl; [apply Forall_and; split; [exact IHl|exact Ha]|].
    simpl. intros x [Hx Hy]. auto.
  - naive_solver.
  - naive_solver.
  - intros (He & Hp & Hes). split; [auto|]. split; [auto|]. destruct IHes; simpl in *; auto.
Qed.
End ExprAll.

Lemma expr_all_impl (Ps Ps' : select_statement -> Prop) (Pc Pc' : str -> Prop) e :
  (forall s, Ps s -> Ps' s) -> (forall n, Pc n -> Pc' n) ->
  expr_all Ps Pc e -> expr_all Ps' Pc' e.
Proof.
  intros HS HC.
  induction e as [| | |v|l op r IHl IHr|op e IHe|n args d IH|o ws el IHo IHw IHe
    |e ty IHe|e n IHe|e n l IHe IHl|e n s IHe|e n lo hi IHe IHlo IHhi|e n p es c IHe IHp IHes
    | |] using expr_ind'; try done; simpl; try naive_solver.
  - intros [Hn Ha]. split; [auto|]. by eapply all_list_impl.
  - intros (Ho & Hw & He). repeat split.
    + destruct IHo; simpl in *; auto.
    + eapply all_list_impl; [|exact Hw]. eapply Forall_impl; [exact IHw|].
      intros [a b]; simpl. tauto.
    + destruct IHe; simpl in *; auto.
  - intros [He Ha]. split; [auto|]. by eapply all_list_impl.
  - intros (He & Hp & Hes). split; [auto|]. split; [auto|]. destruct IHes; simpl in *; auto.
Qed.

(** ** Agreement of two engines *)

Section Agree.
Context {U : Unicode} {D : DateLib} {R : RegexCrate} {L : Libm} {W : Type}.
Context (en1 en2 : engine W) (rs1 rs2 : select_statement -> ST W cfml_error query_data).
Context (tables : table_set).
Context (Hparams : en_params en1 = en_params en2).
Context (Hreg : en_registry en1 = en_registry en2).

Definition sub_agrees (s : select_statement) : Prop := meq (rs1 s) (rs2 s).
Definition call_agrees (n : str) : Prop :=
  has_key (rg_customs (en_registry en1)) (to_lowercase n) = true ->
  forall f args, meq (en_invoke en1 f args) (en_invoke en2 f args).

Abbreviation ok := (expr_all sub_agrees call_agrees).
Abbreviation ev1 := (eval en1 rs1 tables).
Abbreviation ev2 := (eval en2 rs2 tables).

Lemma in_list_loop_cong (f g : expr -> ST W cfml_error value) t n fn l :
  Forall (fun e => meq (f e) (g e)) l -> meq (in_list_loop f t n fn l) (in_list_loop g t n fn l).
Proof.
  intros H. revert fn. induction H as [|e l He _ IH]; intros fn; simpl; [done|].
  apply st_bind_cong; [done|]. intros v. case_match; [done|apply IH].
Qed.

Lemma case_loop_cong (f g : expr -> ST W cfml_error value) ov ws e1 e2 :
  Forall (fun w => meq (f (wt_when w)) (g (wt_when w)) /\ meq (f (wt_then w)) (g (wt_then w))) ws ->
  meq e1 e2 -> meq (case_loop f ov ws e1) (case_loop g ov ws e2).
Proof.
  intros H He. induction H as [|[a b] ws [Ha Hb] _ IH]; simpl in *; [done|].
  apply st_bind_cong; [done|]. intros v. by case_match.
Qed.

Lemma custom_agrees n f k :
  call_agrees n -> get_custom (en_registry en1) n = Some (f, k) ->
  forall args, meq (en_invoke en1 f args) (en_invoke en2 f args).
Proof.
  intros Hn Hg args. apply Hn. unfold has_key, get_custom in *. by rewrite Hg.
Qed.

Lemma call_agrees_lower n : call_agrees n -> call_agrees (to_lowercase n).
Proof. unfold call_agrees. by rewrite to_lowercase_idem. Qed.

Lemma call_scalar_fn_cong n args :
  call_agrees n -> meq (call_scalar_fn en1 n args) (call_scalar_fn en2 n args).
Proof.
  intros Hn. unfold call_scalar_fn. rewrite <- Hreg.
  destruct (call_scalar n args); [done|].
  destruct (get_native _ n) as [[[] f]|]; [done| |];
    (destruct (get_dynamic _ n Scalar); [done|]);
    (destruct (get_custom _ n) as [[f' []]|] eqn:Hg; [|done..]); by eapply custom_agrees.
Qed.

Lemma call_aggregate_fn_cong n arrays :
  call_agrees n ->
  meq (call_aggregate_fn en1 n (to_lowercase n) arrays)
      (call_aggregate_fn en2 n (to_lowercase n) arrays).
Proof.
  intros Hn%call_agrees_lower. unfold call_aggregate_fn. rewrite <- Hreg.
  destruct (get_native _ _) as [[[] f]|]; [|done|];
    (destruct (get_dynamic _ _ Aggregate); [done|]);
    (destruct (get_custom _ _) as [[f' []]|] eqn:Hg; [done| |done]); by eapply custom_agrees.
Qed.

Lemma eval_aggregate_call_cong (f g : list nat -> expr -> ST W cfml_error value) n args d ctx :
  call_agrees n -> Forall (fun e => forall i, meq (f i e) (g i e)) args ->
  meq (eval_aggregate_call en1 f n args d ctx) (eval_aggregate_call en2 g n args d ctx).
Proof.
  intros Hn H.
  assert (Hcol : Forall (fun e => meq (st_mapM (fun i => f i e) (in_iter (ctx_partition ctx)))
             (st_mapM (fun i => g i e) (in_iter (ctx_partition ctx)))) args).
  { eapply Forall_impl; [exact H|]. intros e He. apply st_mapM_cong.
    apply Forall_true. intros. apply He. }
  unfold eval_aggregate_call. case_match; [case_match; [done|]|case_match].
  - destruct Hcol as [|a args Ha _]; [done|]. by apply st_bind_cong.
  - destruct Hcol as [|a args Ha _]; [done|].
    apply st_bind_cong; [done|]. intros col. case_match; [|done].
    apply st_bind_cong; [|done]. case_match; [done|].
    apply Forall_cons_1 in H as [_ H]. destruct H as [|b args Hb _]; [done|].
    apply st_bind_cong; [done|]. intros i. by apply st_bind_cong.
  - apply st_bind_cong; [|intros; by apply call_aggregate_fn_cong]. apply st_mapM_cong.
    eapply Forall_impl; [exact Hcol|]. intros e He. by apply st_bind_cong.
Qed.

Lemma Forall_ok {A} (P Q : A -> Prop) l :
  Forall (fun x => P x -> Q x) l -> all_list P l -> Forall Q l.
Proof. rewrite all_list_Forall. induction 1; intros H1; inv H1; constructor; auto. Qed.

Lemma eval_agree e ctx : ok e -> meq (ev1 e ctx) (ev2 e ctx).
Proof.
  revert ctx.
  induction e as [| | |v|l op r IHl IHr|op e IHe|n args d IH|o ws el IHo IHw IHe
    |e ty IHe|e n IHe|e n l IHe IHl|e n s IHe|e n lo hi IHe IHlo IHhi|e n p es c IHe IHp IHes
    |s|p] using expr_ind'; intros ctx; simpl; try done.
  - intros [Hl Hr]. destruct op; (apply st_bind_cong; [by apply IHl|]); intros vl;
      try case_match; try done; (apply st_bind_cong; [by apply IHr|done]).
  - intros H. apply st_bind_cong; [by apply IHe|done].
  - intros [Hn Ha]. rewrite <- Hreg. case_match.
    + apply eval_aggregate_call_cong; [done|]. eapply Forall_ok; [|exact Ha].
      eapply Forall_impl; [exact IH|]. auto.
    + apply st_bind_cong; [|intros; by apply call_scalar_fn_cong]. apply st_mapM_cong.
      eapply Forall_ok; [|exact Ha]. eapply Forall_impl; [exact IH|]. auto.
  - intros (Ho & Hw & He). apply st_bind_cong.
    + destruct IHo as [|o IHo]; [done|]. apply st_bind_cong; [by apply IHo|done].
    + intros ov. apply case_loop_cong.
      * eapply Forall_ok; [|exact Hw]. eapply Forall_impl; [exact IHw|].
        intros [a b] [H1 H2] [H3 H4]. simpl in *. auto.
      * destruct IHe as [|el IHe]; [done|]. by apply IHe.
  - intros H. apply st_bind_cong; [by apply IHe|done].
  - intros H. apply st_bind_cong; [by apply IHe|done].
  - intros [He Ha]. apply st_bind_cong; [by apply IHe|]. intros v. case_match; [done|].
    apply in_list_loop_cong. eapply Forall_ok; [|exact Ha]. eapply Forall_impl; [exact IHl|]. auto.
  - intros [He Hs]. apply st_bind_cong; [by apply IHe|]. intros v. case_match; [done|].
    apply st_bind_cong; [apply Hs|done].
  - intros (He & Hlo & Hhi). apply st_bind_cong; [by apply IHe|]. intros v.
    apply st_bind_cong; [by apply IHlo|]. intros w. apply st_bind_cong; [by apply IHhi|done].
  - intros (He & Hp & Hes). apply st_bind_cong; [by apply IHe|]. intros v.
    case_match; [done|]. destruct c; [done|].
    apply st_bind_cong; [by apply IHp|]. intros pv. case_match; [done|].
    apply st_bind_cong; [|done]. destruct IHes as [|es IHes]; [done|].
    apply st_bind_cong; [by apply IHes|done].
  - intros Hs. apply st_bind_cong; [apply Hs|done].
  - intros _. unfold eval_param. by rewrite Hparams.
Qed.

Lemma and_loop_cong (f g : compiled_expr -> ST W cfml_error value) u l :
  Forall (fun e => meq (f e) (g e)) l -> meq (and_loop f u l) (and_loop g u l).
Proof.
  intros H. revert u. induction H as [|e l He _ IH]; intros u; simpl; [done|].
  apply st_bind_cong; [done|]. intros v. by destruct (tri v) as [[]|].
Qed.

Lemma or_loop_cong (f g : compiled_expr -> ST W cfml_error value) u l :
  Forall (fun e => meq (f e) (g e)) l -> meq (or_loop f u l) (or_loop g u l).
Proof.
  intros H. revert u. induction H as [|e l He _ IH]; intros u; simpl; [done|].
  apply st_bind_cong; [done|]. intros v. by destruct (tri v) as [[]|].
Qed.
End Agree.

(** Induction on compiled expressions, through the lists of AND and OR. *)
Section CompiledInd.
Context (P : compiled_expr -> Prop).
Context (Hand : forall l, Forall P l -> P (CAnd l)) (Hor : forall l, Forall P l -> P (COr l))
  (Hnot : forall e, P e -> P (CNot e)) (Hnull : forall e n, P e -> P (CIsNull e n))
  (Hcmp : forall l op r, P l -> P r -> P (CCmp l op r))
  (Hlike : forall e n c, P e -> P (CLikeConst e n c))
  (Hgen : forall e, P (CGeneric e))
  (Hleaf : forall e, match e with
     | CAnd _ | COr _ | CNot _ | CIsNull _ _ | CCmp _ _ _ | CLikeConst _ _ _ | CGeneric _ => True
     | _ => P e end).

Fixpoint compiled_ind' (e : compiled_expr) : P e :=
  let fix go (l : list compiled_expr) : Forall P l :=
    match l with
    | [] => Forall_nil_2 P
    | x :: l => Forall_cons_2 P x l (compiled_ind' x) (go l)
    end in
  match e with
  | CAnd l => Hand l (go l)
  | COr l => Hor l (go l)
  | CNot e => Hnot e (compiled_ind' e)
  | CIsNull e n => Hnull e n (compiled_ind' e)
  | CCmp l op r => Hcmp l op r (compiled_ind' l) (compiled_ind' r)
  | CLikeConst e n c => Hlike e n c (compiled_ind' e)
  | CGeneric e => Hgen e
  | CNull => Hleaf CNull
  | CLitBool b => Hleaf (CLitBool b)
  | CLitInt i => Hleaf (CLitInt i)
  | CLitDouble d => Hleaf (CLitDouble d)
  | CLitString s => Hleaf (CLitString s)
  | CColumn ti ci => Hleaf (CColumn ti ci)
  | CColCmpLit ti ci op r => Hleaf (CColCmpLit ti ci op r)
  | CColInLits ti ci n l => Hleaf (CColInLits ti ci n l)
  end.
End CompiledInd.

Section AgreeCompiled.
Context {U : Unicode} {D : DateLib} {R : RegexCrate} {L : Libm} {W : Type}.
Context (en1 en2 : engine W) (rs1 rs2 : select_statement -> ST W cfml_error query_data).
Context (tables : table_set).

Lemma eval_compiled_agree ce ctx :
  compiled_all (fun e => forall ctx, meq (eval en1 rs1 tables e ctx) (eval en2 rs2 tables e ctx)) ce ->
  meq (eval_compiled en1 rs1 tables ce ctx) (eval_compiled en2 rs2 tables ce ctx).
Proof.
  pattern ce. apply compiled_ind'; simpl; clear ce.
  - intros l IH Hce. apply and_loop_cong. by eapply Forall_ok.
  - intros l IH Hce. apply or_loop_cong. by eapply Forall_ok.
  - intros e IH Hce. apply st_bind_cong; [by apply IH|done].
  - intros e n IH Hce. apply st_bind_cong; [by apply IH|done].
  - intros l op r IHl IHr [Hl Hr]. apply st_bind_cong; [by apply IHl|]. intros v.
    apply st_bind_cong; [by apply IHr|done].
  - intros e n c IH Hce. apply st_bind_cong; [by apply IH|done].
  - intros e He. apply He.
  - by intros [].
Qed.
End AgreeCompiled.

(** ** Pure computations *)

(** The result does not depend on the state, and the state is unchanged. *)
Definition st_pure {S E A} (m : ST S E A) : Prop := exists o, meq m (st_lift o).

Section Pure.
Context {S E : Type}.

#[global] Instance st_pure_proper {A} : Proper (meq ==> iff) (@st_pure S E A).
Proof. intros m1 m2 H. unfold st_pure. by setoid_rewrite H. Qed.

Lemma st_pure_lift {A} (o : outcome E A) : st_pure (S := S) (st_lift o).
Proof. by exists o. Qed.
Lemma st_pure_ret {A} (a : A) : st_pure (S := S) (E := E) (st_ret a).
Proof. by exists (Ok a). Qed.
Lemma st_pure_err {A} (e : E) : st_pure (S := S) (A := A) (st_err e).
Proof. by exists (Err e). Qed.
Lemma st_pure_panic {A} : st_pure (S := S) (E := E) (A := A) st_panic.
Proof. by exists Panic. Qed.

Lemma st_pure_bind {A B} (m : ST S E A) (k : A -> ST S E B) :
  st_pure m -> (forall a, st_pure (k a)) -> st_pure (st_bind m k).
Proof.
  intros [o Ho] Hk. rewrite Ho, st_bind_lift.
  destruct o; [apply Hk|apply st_pure_err|apply st_pure_panic].
Qed.

Lemma st_pure_mapM {A B} (f : A -> ST S E B) l :
  Forall (fun x => st_pure (f x)) l -> st_pure (st_mapM f l).
Proof.
  induction 1 as [|x l Hx _ IH]; simpl; [apply st_pure_ret|].
  apply st_pure_bind; [done|]. intros y. apply st_pure_bind; [done|]. intros. apply st_pure_ret.
Qed.

Lemma st_pure_foldM {A B} (f : B -> A -> ST S E B) acc l :
  Forall (fun x => forall b, st_pure (f b x)) l -> st_pure (st_foldM f acc l).
Proof.
  intros H. revert acc. induction H as [|x l Hx _ IH]; intros acc; simpl; [apply st_pure_ret|].
  apply st_pure_bind; [done|]. intros y. apply IH.
Qed.
End Pure.

Create HintDb pure discriminated.
#[export] Hint Resolve st_pure_lift st_pure_ret st_pure_err st_pure_panic st_pure_bind : pure.

(** Close a purity goal by cases on the [match]es of the computation. *)
Ltac pure_cases := repeat (first [ progress auto with pure | case_match ]).

Section EvalPure.
Context {U : Unicode} {D : DateLib} {R : RegexCrate} {L : Libm} {W : Type}.
Context (en : engine W) (rs : select_statement -> ST W cfml_error query_data).
Context (tables : table_set).

(** The function is neither a custom CFML function nor an extension's. *)
Definition call_pure (n : str) : Prop :=
  has_key (rg_customs (en_registry en)) (to_lowercase n) = false
  /\ has_key (rg_dynamics (en_registry en)) (to_lowercase n) = false.

Abbreviation ok := (expr_all (fun _ => False) call_pure).

Lemma has_key_false {A} (m : gmap str A) k : has_key m k = false -> m !! k = None.
Proof. unfold has_key. by destruct (m !! k). Qed.

Lemma call_scalar_fn_pure n args : call_pure n -> st_pure (call_scalar_fn en n args).
Proof.
  intros [Hc%has_key_false Hd%has_key_false]. unfold call_scalar_fn, get_custom, get_dynamic.
  rewrite Hc, Hd. pure_cases.
Qed.

Lemma call_aggregate_fn_pure n arrays :
  call_pure n -> st_pure (call_aggregate_fn en n (to_lowercase n) arrays).
Proof.
  intros [Hc%has_key_false Hd%has_key_false].
  unfold call_aggregate_fn, get_custom, get_dynamic. rewrite to_lowercase_idem, Hc, Hd.
  pure_cases.
Qed.

Lemma eval_aggregate_call_pure f n args d ctx :
  call_pure n -> Forall (fun e => forall i, st_pure (f i e)) args ->
  st_pure (eval_aggregate_call en f n args d ctx).
Proof.
  intros Hn H.
  assert (Hcol : Forall (fun e => st_pure (st_mapM (fun i => f i e)
    (in_iter (ctx_partition ctx)))) args).
  { eapply Forall_impl; [exact H|]. intros e He. apply st_pure_mapM.
    apply Forall_true. intros. apply He. }
  unfold eval_aggregate_call. case_match; [case_match; [auto with pure|]|case_match].
  - destruct Hcol; auto with pure.
  - destruct Hcol as [|a args Ha _]; [auto with pure|].
    apply st_pure_bind; [done|]. intros col. case_match; [|auto with pure].
    apply st_pure_bind; [|auto with pure]. case_match; [auto with pure|].
    apply Forall_cons_1 in H as [_ H]. destruct H as [|b args Hb _]; [auto with pure|].
    apply st_pure_bind; [auto with pure|]. intros i. apply st_pure_bind; auto with pure.
  - apply st_pure_bind; [|intros; by apply call_aggregate_fn_pure]. apply st_pure_mapM.
    eapply Forall_impl; [exact Hcol|]. intros e He. apply st_pure_bind; auto with pure.
Qed.

Lemma in_list_loop_pure (f : expr -> ST W cfml_error value) t n fn l :
  Forall (fun e => st_pure (f e)) l -> st_pure (in_list_loop f t n fn l).
Proof.
  intros H. revert fn. induction H as [|e l He _ IH]; intros fn; simpl; [auto with pure|].
  apply st_pure_bind; [done|]. intros v. case_match; [auto with pure|apply IH].
Qed.

Lemma case_loop_pure (f : expr -> ST W cfml_error value) ov ws e :
  Forall (fun w => st_pure (f (wt_when w)) /\ st_pure (f (wt_then w))) ws -> st_pure e ->
  st_pure (case_loop f ov ws e).
Proof.
  intros H He. induction H as [|[a b] ws [Ha Hb] _ IH]; simpl in *; [done|].
  apply st_pure_bind; [done|]. intros v. by case_match.
Qed.

Lemma eval_resolved_column_pure ti ci ctx :
  st_pure (eval_resolved_column (W := W) tables ti ci ctx).
Proof. unfold eval_resolved_column. pure_cases. Qed.

Lemma eval_column_pure t n ctx : st_pure (eval_column (W := W) tables t n ctx).
Proof. unfold eval_column, column_value. pure_cases. Qed.

Lemma eval_pure e ctx : ok e -> st_pure (eval en rs tables e ctx).
Proof.
  revert ctx.
  induction e as [| | |v|l op r IHl IHr|op e IHe|n args d IH|o ws el IHo IHw IHe
    |e ty IHe|e n IHe|e n l IHe IHl|e n s IHe|e n lo hi IHe IHlo IHhi|e n p es c IHe IHp IHes
    |s|p] using expr_ind'; intros ctx; simpl; auto with pure.
  - intros _. apply eval_column_pure.
  - intros _. apply eval_resolved_column_pure.
  - intros [Hl Hr]. destruct op; apply st_pure_bind; auto; intros v; repeat case_match;
      auto with pure.
  - intros [Hn Ha]. case_match.
    + apply eval_aggregate_call_pure; [done|]. eapply Forall_ok; [|exact Ha].
      eapply Forall_impl; [exact IH|]. auto.
    + apply st_pure_bind; [|intros; by apply call_scalar_fn_pure]. apply st_pure_mapM.
      eapply Forall_ok; [|exact Ha]. eapply Forall_impl; [exact IH|]. auto.
  - intros (Ho & Hw & He). apply st_pure_bind.
    + destruct IHo as [|o IHo]; [auto with pure|]. apply st_pure_bind; auto with pure.
    + intros ov. apply case_loop_pure.
      * eapply Forall_ok; [|exact Hw]. eapply Forall_impl; [exact IHw|].
        intros [a b] [H1 H2] [H3 H4]. simpl in *. auto.
      * destruct IHe as [|el IHe]; simpl; auto with pure.
  - intros [He Ha]. apply st_pure_bind; [by apply IHe|]. intros v. case_match; [auto with pure|].
    apply in_list_loop_pure. eapply Forall_ok; [|exact Ha]. eapply Forall_impl; [exact IHl|]. auto.
  - by intros [_ []].
  - intros (He & Hlo & Hhi). auto with pure.
  - intros (He & Hp & Hes). apply st_pure_bind; [by apply IHe|]. intros v.
    case_match; [auto with pure|]. destruct c; [auto with pure|].
    apply st_pure_bind; [by apply IHp|]. intros pv. case_match; [auto with pure|].
    apply st_pure_bind; [|auto with pure]. destruct IHes as [|es IHes]; [auto with pure|].
    apply st_pure_bind; [by apply IHes|auto with pure].
  - done.
  - intros _. unfold eval_param. auto with pure.
Qed.
End EvalPure.

(** ** The purity check is sound *)

Lemma forallb_all_list {A} (f : A -> bool) (P : A -> Prop) l :
  Forall (fun x => f x = true -> P x) l -> forallb f l = true -> all_list P l.
Proof. induction 1; simpl; [done|]. rewrite andb_true_iff. naive_solver. Qed.

Section PureCheck.
Context {U : Unicode} {D : DateLib} {R : RegexCrate} {L : Libm} {W : Type}.

Lemma expr_is_pure_all (en : engine W) e :
  expr_is_pure (en_registry en) e = true -> expr_all (fun _ => False) (call_pure en) e.
Proof.
  induction e as [| | |v|l op r IHl IHr|op e IHe|n args d IH|o ws el IHo IHw IHe
    |e ty IHe|e n IHe|e n l IHe IHl|e n s IHe|e n lo hi IHe IHlo IHhi|e n p es c IHe IHp IHes
    |s|p] using expr_ind'; simpl; try done; rewrite ?andb_true_iff; try naive_solver.
  - intros [[Hc%negb_true_iff Hd%negb_true_iff] Ha]. split; [done|].
    by eapply forallb_all_list.
  - intros [[Ho Hw] He]. repeat split.
    + destruct IHo; simpl in *; auto.
    + eapply forallb_all_list; [|exact Hw]. eapply Forall_impl; [exact IHw|].
      intros [a b]; simpl. rewrite andb_true_iff. tauto.
    + destruct IHe; simpl in *; auto.
  - intros [He Ha]. split; [auto|]. by eapply forallb_all_list.
  - intros [[He Hp] Hes]. split; [auto|]. split; [auto|]. destruct IHes; simpl in *; auto.
Qed.

(** Replacing the invoker. *)
Definition with_invoke (en : engine W) inv par : engine W :=
  Engine (en_sources en) (en_params en) (en_registry en) inv par.

Lemma call_pure_agrees (en1 en2 : engine W) (n : str) : call_pure en1 n -> call_agrees en1 en2 n.
Proof. intros [H _] H'. congruence. Qed.

Lemma eval_pure_agree (en1 en2 : engine W) rs1 rs2 tables e ctx :
  en_params en1 = en_params en2 -> en_registry en1 = en_registry en2 ->
  expr_all (fun _ => False) (call_pure en1) e ->
  meq (eval en1 rs1 tables e ctx) (eval en2 rs2 tables e ctx).
Proof.
  intros Hp Hr H. apply eval_agree; [done..|].
  eapply expr_all_impl; [| |exact H]; [done|]. apply call_pure_agrees.
Qed.

Lemma eval_compiled_pure (en : engine W) rs tables ce ctx :
  compiled_all (expr_all (fun _ => False) (call_pure en)) ce ->
  st_pure (eval_compiled en rs tables ce ctx).
Proof.
  pattern ce. apply compiled_ind'; simpl; clear ce.
  - intros l IH Hl%(Forall_ok _ _ _ IH). generalize false as u.
    clear IH. induction Hl as [|x l Hx _ IH]; intros u; simpl; [auto with pure|].
    apply st_pure_bind; [done|]. intros v.
    destruct (tri v) as [[]|]; [apply IH|apply st_pure_ret|apply IH].
  - intros l IH Hl%(Forall_ok _ _ _ IH). generalize false as u.
    clear IH. induction Hl as [|x l Hx _ IH]; intros u; simpl; [auto with pure|].
    apply st_pure_bind; [done|]. intros v.
    destruct (tri v) as [[]|]; [apply st_pure_ret|apply IH|apply IH].
  - intros e IH He. apply st_pure_bind; [by apply IH|auto with pure].
  - intros e n IH He. apply st_pure_bind; [by apply IH|auto with pure].
  - intros l op r IHl IHr [Hl Hr]. apply st_pure_bind; [by apply IHl|]. intros v.
    apply st_pure_bind; [by apply IHr|auto with pure].
  - intros e n c IH He. apply st_pure_bind; [auto|]. intros v. case_match; auto with pure.
  - intros e He. by apply eval_pure.
  - intros []; simpl; try done; intros _; auto with pure;
      try (apply st_pure_bind; [|intros v; try case_match; auto with pure]);
      apply eval_resolved_column_pure.
Qed.

Lemma eval_compiled_pure_agree (en1 en2 : engine W) rs1 rs2 tables ce ctx :
  en_params en1 = en_params en2 -> en_registry en1 = en_registry en2 ->
  compiled_all (expr_all (fun _ => False) (call_pure en1)) ce ->
  meq (eval_compiled en1 rs1 tables ce ctx) (eval_compiled en2 rs2 tables ce ctx).
Proof.
  intros Hp Hr H. apply eval_compiled_agree. revert H.
  pattern ce. apply compiled_ind'; simpl; clear ce; auto.
  - intros l IH. by apply all_list_impl.
  - intros l IH. by apply all_list_impl.
  - tauto.
  - intros e He ctx'. by apply eval_pure_agree.
  - by intros [].
Qed.
End PureCheck.

(** The purity check that admits a statement to the parallel path is sound:
    a pure expression evaluates, on any row or group, to one outcome that does
    not depend on the world, on the function callback or on how subqueries
    would be run, and it leaves the world unchanged. *)
Theorem pure_expr_correct `{U : Unicode} `{D : DateLib} `{R : RegexCrate} `{L : Libm} {W}
    (en : engine W) tables e ctx :
  expr_is_pure (en_registry en) e = true ->
  exists o, forall inv par rs w, eval (with_invoke en inv par) rs tables e ctx w = (w, o).
Proof.
  intros H%expr_is_pure_all.
  destruct (eval_pure en (fun _ => st_panic) tables e ctx H) as [o Ho].
  exists o. intros inv par rs w. rewrite <- (eval_pure_agree en _ (fun _ => st_panic)); [apply Ho|done..].
Qed.
