(* ===== verification/QoqRunFacts.v ===== *)
(** * QoqRunFacts: the pipeline depends on its evaluator pointwise

    Congruence of every stage: two evaluators that agree on the expressions of
    a statement give the same run.  The recursion through subqueries therefore
    never needs more than the nesting depth of the statement ([run_statement]
    satisfies the source's recursive equation), and a pure statement gives the
    same result whatever the callback. *)

From stdpp Require Import base list numbers strings gmap.
From S2P Require Import Prelude Text Float64 Value QoqLike QoqAst QoqCompare QoqTable QoqJoin QoqFunctions QoqOps QoqEval QoqCompiled QoqColumns QoqExec QoqEvalFacts.
#[local] Open Scope st_scope.

(** ** The join builder *)

Section JoinCong.
Context {S : Type} (f g : nat -> list nat -> ST S Z bool).
Context (Hfg : forall k c, meq (f k c) (g k c)).

Lemma probe_right_cong k i rr flat : meq (probe_right f k i rr flat) (probe_right g k i rr flat).
Proof.
  apply st_foldM_cong, Forall_true. intros r [? ?]. by apply st_bind_cong.
Qed.

Lemma join_step_cong jt k x rr : meq (join_step f jt k x rr) (join_step g jt k x rr).
Proof.
  unfold join_step. apply st_bind_cong; [|done].
  assert (Hi : meq (join_inner f k x rr) (join_inner g k x rr)).
  { apply st_foldM_cong, Forall_true. intros i b.
    apply st_bind_cong; [apply probe_right_cong|done]. }
  destruct jt; [done| | | |done].
  - apply st_foldM_cong, Forall_true. intros i b.
    apply st_bind_cong; [apply probe_right_cong|done].
  - apply st_foldM_cong, Forall_true. intros r b. apply st_bind_cong; [|done].
    apply st_foldM_cong, Forall_true. intros i [? ?]. by apply st_bind_cong.
  - apply st_bind_cong; [|done]. apply st_foldM_cong, Forall_true. intros i [? ?].
    apply st_bind_cong; [|done]. apply st_foldM_cong, Forall_true. intros r [[? ?] ?].
    by apply st_bind_cong.
Qed.

Lemma build_intersections_cong rows jts max_size :
  meq (build_intersections f rows jts max_size) (build_intersections g rows jts max_size).
Proof.
  unfold build_intersections. destruct rows as [|r rows]; [done|].
  generalize (Intersections 1 (seq 1 r)) as x. generalize (r :: rows) as l.
  generalize 0 as k. induction jts as [|jt jts IH]; intros k l x; simpl; [done|].
  case_match; [|done]. case_match; [done|].
  apply st_bind_cong; [apply join_step_cong|]. intros y. apply IH.
Qed.
End JoinCong.

(** ** The stages *)

Lemma par_mapM_cong `{Platform} {S E A B} (f g : A -> ST S E B) l :
  (forall x, meq (f x) (g x)) -> meq (par_mapM f l) (par_mapM g l).
Proof.
  intros Hfg s. unfold par_mapM. do 2 f_equal. apply map_ext. intros x. by rewrite Hfg.
Qed.

Section StageCong.
Context {U : Unicode} {D : DateLib} {P : Platform} {W : Type}.
Abbreviation M := (ST W cfml_error).

Lemma keep_rows_cong (f g : list nat -> M value) rows :
  (forall i, meq (f i) (g i)) -> meq (keep_rows f rows) (keep_rows g rows).
Proof.
  intros H. apply st_foldM_cong, Forall_true. intros i b. by apply st_bind_cong.
Qed.

Lemma filter_where_cong par (f g pf pg : list nat -> M value) x :
  (forall i, meq (f i) (g i)) -> (forall i, meq (pf i) (pg i)) ->
  meq (filter_where_with par f pf x) (filter_where_with par g pg x).
Proof.
  intros H Hp. unfold filter_where_with. case_match; (apply st_bind_cong; [|done]).
  - apply par_mapM_cong. intros c. by apply keep_rows_cong.
  - by apply keep_rows_cong.
Qed.

Context (Q : expr -> Prop) (ev1 ev2 pev1 pev2 : expr -> row_ctx -> M value).
Context (Hev : forall e ctx, Q e -> meq (ev1 e ctx) (ev2 e ctx)).
Context (Hpev : forall e ctx, Q e -> meq (pev1 e ctx) (pev2 e ctx)).

Definition select_ok (l : list select_column) : Prop := Forall (fun sc => Q (sc_expr sc)) l.
Definition order_ok (l : list order_by_expr) : Prop := Forall (fun ob => Q (ob_expr ob)) l.

Lemma order_key_cong ob ctx row :
  Q (ob_expr ob) -> meq (order_key ev1 ob ctx row) (order_key ev2 ob ctx row).
Proof. intros H. unfold order_key. case_match; [done|by apply Hev]. Qed.

Lemma project_rows_cong_gen (f g : expr -> row_ctx -> M value) select order_by rows :
  (forall e ctx, Q e -> meq (f e ctx) (g e ctx)) -> select_ok select -> order_ok order_by ->
  meq (project_rows f select order_by rows) (project_rows g select order_by rows).
Proof.
  intros Hfg Hs Ho. apply st_foldM_cong, Forall_true. intros i [data keys].
  apply st_bind_cong; [|intros row; apply st_bind_cong; [|done]]; apply st_mapM_cong.
  - eapply Forall_impl; [exact Hs|]. simpl. auto.
  - eapply Forall_impl; [exact Ho|]. simpl. intros ob Hob. case_match; [done|auto].
Qed.

Lemma exec_simple_cong par select x order_by :
  select_ok select -> order_ok order_by ->
  meq (exec_simple par ev1 pev1 select x order_by) (exec_simple par ev2 pev2 select x order_by).
Proof.
  intros Hs Ho. unfold exec_simple. case_match; (apply st_bind_cong; [|done]).
  - apply par_mapM_cong. intros c. by apply project_rows_cong_gen.
  - by apply project_rows_cong_gen.
Qed.

Lemma build_cols_cong par tables surv exprs :
  Forall Q exprs ->
  meq (build_cols_for_exprs par ev1 pev1 tables surv exprs)
      (build_cols_for_exprs par ev2 pev2 tables surv exprs).
Proof.
  intros HQ. unfold build_cols_for_exprs. apply st_bind_cong; [done|]. intros slots.
  apply st_bind_cong; [|done].
  assert (Hn : Forall Q (List.filter (fun e => negb (is_resolved e)) exprs)).
  { rewrite Forall_forall in *. intros e [He _]%elem_of_filterb. auto. }
  destruct (List.filter _ exprs) as [|e0 needs] eqn:Hf; [done|].
  case_match; [apply st_bind_cong; [|done]; apply par_mapM_cong; intros c;
    apply st_foldM_cong, Forall_true; intros r b; apply st_bind_cong; [|done]|];
    apply st_mapM_cong; (eapply Forall_impl; [exact Hn|]); simpl; auto.
  intros e He. apply st_mapM_cong, Forall_true. auto.
Qed.

Lemma exec_no_join_fused_cong par w1 w2 tables select order_by :
  select_ok select -> order_ok order_by ->
  option_Forall2 (fun f g => forall ctx, meq (f ctx) (g ctx)) (fst w1) (fst w2) ->
  option_Forall2 (fun f g => forall ctx, meq (f ctx) (g ctx)) (snd w1) (snd w2) ->
  meq (exec_no_join_fused par ev1 pev1 w1 tables select order_by)
      (exec_no_join_fused par ev2 pev2 w2 tables select order_by).
Proof.
  intros Hs Ho Hw Hpw. unfold exec_no_join_fused. apply st_bind_cong; [done|]. intros t0.
  destruct w1 as [w1 pw1], w2 as [w2 pw2]. simpl in *.
  apply st_bind_cong; [|intros surv; apply st_bind_cong;
    [|intros data; apply st_bind_cong; [|done]]].
  - destruct Hw as [f g Hfg|], Hpw as [pf pg Hpfg|]; try done. case_match.
    + apply st_bind_cong; [|done]. apply par_mapM_cong. intros r. by apply st_bind_cong.
    + apply st_foldM_cong, Forall_true. intros r b. by apply st_bind_cong.
  - apply build_cols_cong. rewrite Forall_fmap. exact Hs.
  - destruct (List.filter _ order_by) as [|ob0 obs] eqn:Hf; [done|].
    apply build_cols_cong. rewrite <- Hf, Forall_fmap. unfold order_ok in Ho.
    rewrite Forall_forall in *. intros ob [Hob _]%elem_of_filterb. by apply Ho.
Qed.

Lemma row_group_key_cong_gen (f g : expr -> row_ctx -> M value) gb i :
  (forall e ctx, Q e -> meq (f e ctx) (g e ctx)) -> Forall Q gb ->
  meq (row_group_key f gb i) (row_group_key g gb i).
Proof.
  intros Hfg HQ. apply st_bind_cong; [|done]. apply st_mapM_cong.
  eapply Forall_impl; [exact HQ|]. auto.
Qed.

Lemma partition_cong par x gb :
  Forall Q gb -> meq (partition par ev1 pev1 x gb) (partition par ev2 pev2 x gb).
Proof.
  intros HQ. unfold partition. case_match; apply st_bind_cong; try done.
  - intros rows. apply st_bind_cong; [|done]. apply par_mapM_cong. intros i.
    by apply row_group_key_cong_gen.
  - apply st_mapM_cong, Forall_true. intros i. apply st_bind_cong; [|done].
    by apply row_group_key_cong_gen.
Qed.

Lemma exec_aggregate_cong par core select x order_by :
  Forall Q (co_group_by core) -> option_Forall Q (co_having core) ->
  select_ok select -> order_ok order_by ->
  meq (exec_aggregate par ev1 pev1 core select x order_by)
      (exec_aggregate par ev2 pev2 core select x order_by).
Proof.
  intros Hg Hh Hs Ho. unfold exec_aggregate. apply st_bind_cong.
  { destruct (co_group_by core); [done|]. by apply partition_cong. }
  intros parts. apply st_bind_cong; [|done]. apply st_foldM_cong, Forall_true.
  intros part rows. apply st_bind_cong.
  { destruct Hh; [done|]. apply st_bind_cong; [by apply Hev|done]. }
  intros pass. case_match; [done|]. apply st_bind_cong.
  { apply st_mapM_cong. eapply Forall_impl; [exact Hs|]. simpl. auto. }
  intros row. apply st_bind_cong; [|done]. apply st_mapM_cong.
  eapply Forall_impl; [exact Ho|]. intros ob Hob. by apply order_key_cong.
Qed.

Lemma on_closure_cong joins k c :
  Forall (fun j => option_Forall Q (jn_on j)) joins ->
  meq (on_closure ev1 joins k c) (on_closure ev2 joins k c).
Proof.
  intros HQ [w [e|]]; [done|]. unfold on_closure.
  destruct (joins !! k) as [j|] eqn:Hj; [|done].
  eapply Forall_lookup_1 in HQ; [|exact Hj]. destruct HQ; [done|].
  by rewrite (Hev _ (CtxRow c)).
Qed.

Lemma build_core_intersections_cong core tables :
  Forall (fun j => option_Forall Q (jn_on j)) (co_joins core) ->
  meq (build_core_intersections ev1 core tables) (build_core_intersections ev2 core tables).
Proof.
  intros HQ. unfold build_core_intersections. case_match; [done|]. intros w.
  unfold nested_loop_join.
  rewrite (build_intersections_cong _ (on_closure ev2 (co_joins core))); [done|].
  intros k c. by apply on_closure_cong.
Qed.
End StageCong.

Lemma build_output_sort_keys_cong {W} (Q : expr -> Prop)
    (ev1 ev2 : table_set -> expr -> row_ctx -> ST W cfml_error value)
    data n columns order_by :
  (forall ts e ctx, Q e -> meq (ev1 ts e ctx) (ev2 ts e ctx)) ->
  Forall (fun ob => Q (ob_expr ob)) order_by ->
  meq (build_output_sort_keys ev1 data n columns order_by)
      (build_output_sort_keys ev2 data n columns order_by).
Proof.
  intros Hev HQ. unfold build_output_sort_keys. case_match; [done|]. case_match; [|done].
  apply st_foldM_cong, Forall_true. intros i cs. apply st_bind_cong; [done|]. intros t.
  apply st_bind_cong; [|done]. apply st_mapM_cong. eapply Forall_impl; [exact HQ|].
  intros ob Hob. case_match; [done|]. apply st_bind_cong; [|done].
  apply (order_key_cong Q); [|done]. intros e ctx. apply Hev.
Qed.

Lemma resolve_tables_cong {W} src (rs1 rs2 : select_statement -> ST W cfml_error query_data)
    (core : select_core) :
  all_opt (fun t => match t with TDerived s _ => meq (rs1 s) (rs2 s) | _ => True end) (co_from core) ->
  Forall (fun j => match jn_table j with TDerived s _ => meq (rs1 s) (rs2 s) | _ => True end)
    (co_joins core) ->
  meq (resolve_tables src rs1 core) (resolve_tables src rs2 core).
Proof.
  intros Hf Hj. unfold resolve_tables. destruct (co_from core) as [t|]; [|done]. simpl in Hf.
  apply st_bind_cong.
  { destruct t; [done|]. by apply st_bind_cong. }
  intros t0. apply st_bind_cong; [|done]. apply st_mapM_cong.
  eapply Forall_impl; [exact Hj|]. intros j. cbn beta. destruct (jn_table j); [done|].
  intros Hjt. by apply st_bind_cong.
Qed.

(** ** Cores and statements *)

(** All expressions of a core satisfy [Q] and all its table references [T]. *)
Definition core_all (Q : expr -> Prop) (T : table_ref -> Prop) (c : select_core) : Prop :=
  Forall (fun sc => Q (sc_expr sc)) (co_columns c)
  /\ option_Forall T (co_from c)
  /\ Forall (fun j => T (jn_table j) /\ option_Forall Q (jn_on j)) (co_joins c)
  /\ option_Forall Q (co_where c) /\ Forall Q (co_group_by c) /\ option_Forall Q (co_having c).

Definition stmt_all (Q : expr -> Prop) (T : table_ref -> Prop) (s : select_statement) : Prop :=
  core_all Q T (ss_body s)
  /\ Forall (fun u => core_all Q T (un_select u)) (ss_unions s)
  /\ Forall (fun ob => Q (ob_expr ob)) (ss_order_by s).

Lemma option_Forall_fmap {A B} (P : B -> Prop) (f : A -> B) o :
  option_Forall (fun a => P (f a)) o -> option_Forall P (option_map f o).
Proof. destruct 1; by constructor. Qed.

Section BindAll.
Context {U : Unicode} {D : DateLib} {R : RegexCrate} (tables : table_set).
Context (Ps : select_statement -> Prop) (Pc : str -> Prop) (T : table_ref -> Prop).
Abbreviation Q := (expr_all Ps Pc).

Lemma Forall_bind l : Forall Q l -> Forall Q (map (bind_expr tables) l).
Proof. rewrite Forall_fmap. intros H. eapply Forall_impl; [exact H|]. intros e. apply bind_ok. Qed.

Lemma option_Forall_bind o : option_Forall Q o -> option_Forall Q (option_map (bind_expr tables) o).
Proof. destruct 1; constructor. by apply bind_ok. Qed.

Lemma bind_core_all c : core_all Q T c -> core_all Q T (bind_core tables c).
Proof.
  intros (Hc & Hf & Hj & Hw & Hg & Hh). repeat split; simpl; try done;
    auto using Forall_bind, option_Forall_bind.
  rewrite Forall_fmap. eapply Forall_impl; [exact Hj|]. simpl.
  intros j [Ht Ho]. split; [done|]. by apply option_Forall_bind.
Qed.

Lemma bind_columns_all l :
  Forall (fun sc => Q (sc_expr sc)) l ->
  Forall (fun sc => Q (sc_expr sc)) (bind_columns tables l).
Proof.
  unfold bind_columns. rewrite Forall_fmap. intros H. eapply Forall_impl; [exact H|].
  intros sc. apply bind_ok.
Qed.

Lemma bind_order_by_all l :
  Forall (fun ob => Q (ob_expr ob)) l ->
  Forall (fun ob => Q (ob_expr ob)) (bind_order_by tables l).
Proof.
  unfold bind_order_by. rewrite Forall_fmap. intros H. eapply Forall_impl; [exact H|].
  intros ob. apply bind_ok.
Qed.

Lemma expand_columns_all cols expanded :
  expand_columns cols tables = Ok expanded ->
  Forall (fun sc => Q (sc_expr sc)) cols -> Forall (fun sc => Q (sc_expr sc)) expanded.
Proof.
  unfold expand_columns, omapo. intros H Hc. ok_inv H. simplify_eq.
  revert a Heqo. induction Hc as [|sc cols Hsc _ IH]; simpl; intros a Ha.
  { simplify_eq. constructor. }
  ok_inv Ha. simplify_eq. simpl. apply Forall_app. split; [|by apply IH].
  assert (Hstar : forall t, Forall (fun sc => Q (sc_expr sc)) (star_columns t)).
  { intros t. unfold star_columns. rewrite Forall_fmap. by apply Forall_true. }
  unfold expand_column in *. destruct (sc_expr sc) as [[tn|]| | | | | | | | | | | | | | |] eqn:He;
    simplify_eq; try (by rewrite Forall_singleton, He).
  - case_match; [|done]. simplify_eq. apply Hstar.
  - apply Forall_concat. rewrite Forall_fmap. by apply Forall_true.
Qed.
End BindAll.

Section RunCong.
Context {U : Unicode} {D : DateLib} {R : RegexCrate} {L : Libm} {P : Platform} {W : Type}.
Context (rs1 rs2 : engine W -> select_statement -> ST W cfml_error query_data) (en : engine W).

(** The nested runs of the engine and of its pure companion agree. *)
Definition runs_agree (s : select_statement) : Prop :=
  meq (rs1 en s) (rs2 en s) /\ meq (rs1 (pure_engine en) s) (rs2 (pure_engine en) s).
Definition table_agree (t : table_ref) : Prop :=
  match t with TDerived s _ => runs_agree s | TNamed _ _ => True end.
Abbreviation Q := (expr_all runs_agree (fun _ => True)).

Lemma eval_runs_agree ts e ctx :
  Q e -> meq (eval en (rs1 en) ts e ctx) (eval en (rs2 en) ts e ctx).
Proof.
  intros H. apply eval_agree; [done..|]. eapply expr_all_impl; [| |exact H].
  - by intros s [H1 _].
  - by intros n _ _ f args.
Qed.

Lemma eval_pure_runs_agree ts e ctx :
  Q e -> meq (eval (pure_engine en) (rs1 (pure_engine en)) ts e ctx)
             (eval (pure_engine en) (rs2 (pure_engine en)) ts e ctx).
Proof.
  intros H. apply eval_agree; [done..|]. eapply expr_all_impl; [| |exact H].
  - by intros s [_ H1].
  - by intros n _ _ f args.
Qed.

Lemma compiled_all_impl (P1 P2 : expr -> Prop) ce :
  (forall e, P1 e -> P2 e) -> compiled_all P1 ce -> compiled_all P2 ce.
Proof.
  intros HP. pattern ce. apply compiled_ind'; simpl; clear ce; auto.
  - intros l IH. by apply all_list_impl.
  - intros l IH. by apply all_list_impl.
  - tauto.
  - by intros [].
Qed.

Lemma eval_compiled_runs_agree ts e ctx :
  Q e -> meq (eval_compiled en (rs1 en) ts (compile e) ctx)
             (eval_compiled en (rs2 en) ts (compile e) ctx)
      /\ meq (eval_compiled (pure_engine en) (rs1 (pure_engine en)) ts (compile e) ctx)
             (eval_compiled (pure_engine en) (rs2 (pure_engine en)) ts (compile e) ctx).
Proof.
  intros H%compile_ok. split; apply eval_compiled_agree;
    (eapply compiled_all_impl; [|exact H]); intros e' He' ctx'.
  - by apply eval_runs_agree.
  - by apply eval_pure_runs_agree.
Qed.

Lemma run_no_from_cong core order_by :
  Forall (fun sc => Q (sc_expr sc)) (co_columns core) ->
  Forall (fun ob => Q (ob_expr ob)) order_by ->
  meq (run_no_from rs1 en core order_by) (run_no_from rs2 en core order_by).
Proof.
  intros Hc Ho. unfold run_no_from. apply st_bind_cong.
  { apply st_mapM_cong. eapply Forall_impl; [exact Hc|]. simpl. intros sc Hsc.
    case_match; [done|]. by apply eval_runs_agree. }
  intros row. apply st_bind_cong; [|done]. apply st_mapM_cong.
  eapply Forall_impl; [exact Ho|]. intros ob Hob. apply (order_key_cong Q); [|done].
  intros e ctx. apply eval_runs_agree.
Qed.

Lemma filter_where_cong_run x w ts :
  option_Forall Q w ->
  meq (filter_where rs1 en x (compile <$> w) ts) (filter_where rs2 en x (compile <$> w) ts).
Proof.
  intros Hw. destruct Hw as [|e He]; simpl; [done|].
  apply filter_where_cong; intros i; by apply eval_compiled_runs_agree.
Qed.

Lemma core_rows_cong core select order_by ts :
  core_all Q table_agree core -> Forall (fun sc => Q (sc_expr sc)) select ->
  Forall (fun ob => Q (ob_expr ob)) order_by ->
  meq (core_rows rs1 en core select order_by ts) (core_rows rs2 en core select order_by ts).
Proof.
  intros (Hc & Hf & Hj & Hw & Hg & Hh) Hs Ho. unfold core_rows.
  pose proof eval_runs_agree as He. pose proof eval_pure_runs_agree as Hp.
  case_match.
  { apply (exec_no_join_fused_cong Q); auto.
    all: destruct Hw; simpl; constructor; intros ctx; by apply eval_compiled_runs_agree. }
  apply st_bind_cong.
  { apply (build_core_intersections_cong Q); [auto|]. eapply Forall_impl; [exact Hj|]. by intros j [_ ?]. }
  intros x. apply st_bind_cong; [by apply filter_where_cong_run|]. intros y. case_match.
  - apply (exec_aggregate_cong Q); auto.
  - apply (exec_simple_cong Q); auto.
Qed.

Lemma run_core_cong core order_by :
  core_all Q table_agree core -> Forall (fun ob => Q (ob_expr ob)) order_by ->
  meq (run_core rs1 en core order_by) (run_core rs2 en core order_by).
Proof.
  intros Hc Ho. unfold run_core. apply st_bind_cong.
  { destruct Hc as (_ & Hf & Hj & _). apply resolve_tables_cong.
    - destruct Hf as [|t Ht]; simpl; [done|]. destruct t; [done|]. apply Ht.
    - eapply Forall_impl; [exact Hj|]. intros j [Ht _]. destruct (jn_table j); [done|]. apply Ht. }
  intros ts. case_match; [apply run_no_from_cong; [apply Hc|done]|].
  destruct (expand_columns (co_columns core) _) as [expanded|e|] eqn:He;
    rewrite !st_bind_lift; [|done..].
  apply st_bind_cong; [|done]. apply core_rows_cong.
  - by apply bind_core_all.
  - apply bind_columns_all. eapply expand_columns_all; [exact He|apply Hc].
  - by apply bind_order_by_all.
Qed.

Lemma run_statement_body_cong s :
  stmt_all Q table_agree s ->
  meq (run_statement_body rs1 en s) (run_statement_body rs2 en s).
Proof.
  intros (Hb & Hu & Ho). unfold run_statement_body.
  destruct (ss_unions s) as [|u us].
  { apply st_bind_cong; [by apply run_core_cong|done]. }
  apply st_bind_cong; [apply run_core_cong; [done|constructor]|]. intros body.
  apply st_bind_cong.
  { apply st_foldM_cong. eapply Forall_impl; [exact Hu|]. intros a Ha [data n].
    apply st_bind_cong; [apply run_core_cong; [done|constructor]|done]. }
  intros acc. apply st_bind_cong; [done|]. intros acc'. apply st_bind_cong; [|done].
  apply (build_output_sort_keys_cong Q); [|done]. intros ts e ctx. apply eval_runs_agree.
Qed.
End RunCong.

(** ** Enough fuel *)

Lemma max_list_le {A} (f : A -> nat) l d :
  max_list (map f l) <= d <-> Forall (fun x => f x <= d) l.
Proof.
  induction l as [|x l IH]; simpl; [split; [constructor|lia]|].
  rewrite Forall_cons, <- IH. lia.
Qed.

Lemma opt_depth_le {A} (f : A -> nat) o d :
  opt_depth f o <= d <-> option_Forall (fun x => f x <= d) o.
Proof.
  destruct o; simpl; split; intros H; try constructor; try done; try lia. by inv H.
Qed.

Definition sub_within (d : nat) (s : select_statement) : Prop := S (stmt_depth s) <= d.
Definition table_within (d : nat) (t : table_ref) : Prop :=
  match t with TDerived s _ => sub_within d s | TNamed _ _ => True end.

Lemma table_depth_within t d : table_depth t <= d -> table_within d t.
Proof. by destruct t. Qed.

Lemma expr_depth_within e d :
  expr_depth e <= d -> expr_all (sub_within d) (fun _ => True) e.
Proof.
  induction e as [| | |v|l op r IHl IHr|op e IHe|n args a IH|o ws el IHo IHw IHe
    |e ty IHe|e n IHe|e n l IHe IHl|e n s IHe|e n lo hi IHe IHlo IHhi|e n p es c IHe IHp IHes
    |s|p] using expr_ind'; cbn [expr_depth expr_all]; try done; try (intros; repeat split; auto with lia).
  - rewrite all_list_Forall. apply max_list_le in H. rewrite Forall_forall in *. auto.
  - destruct IHo; simpl in *; auto with lia.
  - assert (Hw : max_list (map (fun w => match w with
      | WhenThen a b => expr_depth a `max` expr_depth b end) ws) <= d) by lia.
    apply max_list_le in Hw. apply all_list_Forall. rewrite Forall_forall in *.
    intros [a b] Hab. destruct (IHw _ Hab). specialize (Hw _ Hab). simpl in *.
    split; auto with lia.
  - destruct IHe; simpl in *; auto with lia.
  - rewrite all_list_Forall. assert (Hm : max_list (map expr_depth l) <= d) by lia.
    apply max_list_le in Hm. rewrite Forall_forall in *. auto.
  - unfold sub_within, stmt_depth. lia.
  - destruct IHes; simpl in *; auto with lia.
Qed.

Lemma core_depth_within c d :
  core_depth expr_depth table_depth c <= d ->
  core_all (expr_all (sub_within d) (fun _ => True)) (table_within d) c.
Proof.
  destruct c as [dst top cols from joins w g h]. simpl. intros H.
  assert (H1 : max_list (map (fun sc => match sc with SelectColumn e _ => expr_depth e end) cols) <= d) by lia.
  assert (H2 : opt_depth table_depth from <= d) by lia.
  assert (H3 : max_list (map (fun j => match j with
      JoinClause _ t on => table_depth t `max` opt_depth expr_depth on end) joins) <= d) by lia.
  assert (H4 : opt_depth expr_depth w <= d) by lia.
  assert (H5 : max_list (map expr_depth g) <= d) by lia.
  assert (H6 : opt_depth expr_depth h <= d) by lia.
  clear H. apply max_list_le in H1, H3, H5. apply opt_depth_le in H2, H4, H6.
  repeat split; simpl.
  - eapply Forall_impl; [exact H1|]. intros []; simpl. apply expr_depth_within.
  - destruct H2; constructor. by apply table_depth_within.
  - eapply Forall_impl; [exact H3|]. intros [jt t on]; simpl. intros Hj.
    split; [apply table_depth_within; lia|].
    destruct on; constructor. apply expr_depth_within. simpl in Hj. lia.
  - destruct H4; constructor. by apply expr_depth_within.
  - eapply Forall_impl; [exact H5|]. intros e. apply expr_depth_within.
  - destruct H6; constructor. by apply expr_depth_within.
Qed.

Lemma stmt_depth_within s d :
  stmt_depth s <= d -> stmt_all (expr_all (sub_within d) (fun _ => True)) (table_within d) s.
Proof.
  destruct s as [body unions order_by lim]. unfold stmt_depth. cbn [statement_depth]. intros H.
  assert (H1 : max_list (map (fun u => match u with
    Union _ c => core_depth expr_depth table_depth c end) unions) <= d) by lia.
  assert (H2 : max_list (map (fun ob => match ob with
    OrderByExpr e _ => expr_depth e end) order_by) <= d) by lia.
  apply max_list_le in H1, H2. repeat split; simpl.
  1-6: apply core_depth_within; lia.
  - eapply Forall_impl; [exact H1|]. intros [al c]; simpl. apply core_depth_within.
  - eapply Forall_impl; [exact H2|]. intros [e dir]; simpl. apply expr_depth_within.
Qed.

Lemma core_all_impl (Q Q' : expr -> Prop) (T T' : table_ref -> Prop) c :
  (forall e, Q e -> Q' e) -> (forall t, T t -> T' t) -> core_all Q T c -> core_all Q' T' c.
Proof.
  intros HQ HT (Hc & Hf & Hj & Hw & Hg & Hh). repeat split.
  - eapply Forall_impl; [exact Hc|]. auto.
  - destruct Hf; constructor; auto.
  - eapply Forall_impl; [exact Hj|]. intros j [Ht Ho]. split; [auto|]. destruct Ho; constructor; auto.
  - destruct Hw; constructor; auto.
  - eapply Forall_impl; [exact Hg|]. auto.
  - destruct Hh; constructor; auto.
Qed.

Lemma stmt_all_impl (Q Q' : expr -> Prop) (T T' : table_ref -> Prop) s :
  (forall e, Q e -> Q' e) -> (forall t, T t -> T' t) -> stmt_all Q T s -> stmt_all Q' T' s.
Proof.
  intros HQ HT (Hb & Hu & Ho). repeat split; try (by eapply core_all_impl).
  - eapply Forall_impl; [exact Hu|]. intros u Hc. by eapply core_all_impl.
  - eapply Forall_impl; [exact Ho|]. auto.
Qed.

Section Fuel.
Context {U : Unicode} {D : DateLib} {R : RegexCrate} {L : Libm} {P : Platform} {W : Type}.

Lemma run_fuel_enough f1 f2 (en : engine W) s :
  stmt_depth s < f1 -> stmt_depth s < f2 -> meq (run_fuel f1 en s) (run_fuel f2 en s).
Proof.
  revert f2 en s. induction f1 as [|f1 IH]; intros f2 en s H1 H2; [lia|].
  destruct f2 as [|f2]; [lia|]. simpl. apply run_statement_body_cong.
  assert (Hs : stmt_depth s <= f1 `min` f2) by lia. apply stmt_depth_within in Hs.
  assert (Hsub : forall s', sub_within (f1 `min` f2) s' ->
    runs_agree (run_fuel f1) (run_fuel f2) en s').
  { intros s' Hs'. unfold sub_within in Hs'. split; apply IH; lia. }
  eapply stmt_all_impl; [| |exact Hs].
  - intros e. by apply expr_all_impl.
  - intros [|s' a]; [done|]. apply Hsub.
Qed.
End Fuel.

(** Running a statement terminates without ever exhausting the bound on
    nested subqueries: the bounded recursion satisfies the engine's own
    recursive equation, in which every nested statement is run by a complete
    run of the engine. *)
Theorem run_statement_unfold `{U : Unicode} `{D : DateLib} `{R : RegexCrate} `{L : Libm}
    `{P : Platform} {W} (en : engine W) s :
  meq (run_statement en s) (run_statement_body run_statement en s).
Proof.
  unfold run_statement at 1. simpl. apply run_statement_body_cong.
  eapply stmt_all_impl; [| |exact (stmt_depth_within s _ (le_n _))].
  - intros e. apply expr_all_impl; [|done]. intros s' Hs'. unfold sub_within in Hs'.
    split; apply run_fuel_enough; lia.
  - intros [|s' a]; [done|]. intros Hs'. unfold table_within, sub_within in Hs'.
    split; apply run_fuel_enough; lia.
Qed.
