(* ===== verification/QoqParallel.v ===== *)
(** * QoqParallel: the parallel path computes the sequential result

    A pure statement over many rows is filtered, projected and grouped by
    chunks on several threads.  [sim] relates two computations that leave the
    state unchanged and return the same value whenever one of them returns a
    value (which of several failing rows is reported may differ).  Every
    parallel stage is related to its sequential counterpart, and so is the whole
    run. *)

From stdpp Require Import base list numbers strings gmap.
From S2P Require Import Prelude Text Float64 Value QoqLike QoqAst QoqCompare QoqTable QoqJoin QoqFunctions QoqOps QoqEval QoqCompiled QoqColumns QoqExec QoqEvalFacts QoqRunFacts.
#[local] Open Scope st_scope.

(** ** Same value or both fail *)

Definition same_ok {E A} (o1 o2 : outcome E A) : Prop := forall a, o1 = Ok a <-> o2 = Ok a.

#[global] Instance same_ok_equiv {E A} : Equivalence (@same_ok E A).
Proof.
  split; [done| |].
  - intros o1 o2 H a. by rewrite (H a).
  - intros o1 o2 o3 H1 H2 a. by rewrite (H1 a), (H2 a).
Qed.

(** Neither changes the state, and they return the same value if any. *)
Definition sim {S E A} (m1 m2 : ST S E A) : Prop :=
  forall s, (m1 s).1 = s /\ (m2 s).1 = s /\ same_ok (m1 s).2 (m2 s).2.

Section Sim.
Context {S E : Type}.

#[global] Instance sim_proper {A} : Proper (meq ==> meq ==> iff) (@sim S E A).
Proof.
  intros m1 m1' H1 m2 m2' H2. unfold sim. split; intros H s; specialize (H s);
    by rewrite H1, H2 in * || rewrite <- H1, <- H2 in *.
Qed.

Lemma st_pure_state {A} (m : ST S E A) s : st_pure m -> (m s).1 = s.
Proof. intros [o Ho]. by rewrite Ho. Qed.

Lemma sim_refl {A} (m : ST S E A) : st_pure m -> sim m m.
Proof. intros H s. by rewrite !st_pure_state. Qed.

Lemma sim_meq_r {A} (m1 m2 m3 : ST S E A) : meq m2 m3 -> sim m1 m3 -> sim m1 m2.
Proof. intros H. by rewrite H. Qed.

Lemma sim_trans {A} (m1 m2 m3 : ST S E A) : sim m1 m2 -> sim m2 m3 -> sim m1 m3.
Proof.
  intros H12 H23 s. destruct (H12 s) as (E1 & E2 & H), (H23 s) as (E2' & E3 & H').
  split_and!; [done..|]. by etrans.
Qed.

Lemma sim_bind {A B} (m1 m2 : ST S E A) (k1 k2 : A -> ST S E B) :
  sim m1 m2 -> (forall a, sim (k1 a) (k2 a)) -> sim (st_bind m1 k1) (st_bind m2 k2).
Proof.
  intros Hm Hk s. specialize (Hm s). unfold st_bind.
  destruct (m1 s) as [s1 o1], (m2 s) as [s2 o2]. simpl in Hm. destruct Hm as (-> & -> & H).
  destruct o1 as [a|e1|].
  - assert (o2 = Ok a) as -> by (by apply H). apply Hk.
  - destruct o2 as [b|e2|]; [by assert (Err e1 = Ok b) by (by apply H)|done..].
  - destruct o2 as [b|e2|]; [by assert (Panic = Ok b) by (by apply H)|done..].
Qed.
End Sim.

(** ** Successful traversals *)

Lemma omapM_Ok_iff {E A B} (f : A -> outcome E B) l ys :
  omapM f l = Ok ys <-> Forall2 (fun x y => f x = Ok y) l ys.
Proof.
  split.
  - revert ys; induction l as [|x l IH]; simpl; intros ys H; [simplify_eq; constructor|].
    ok_inv H. simplify_eq. constructor; auto.
  - induction 1 as [|x y l ys Hx _ IH]; simpl; [done|]. by rewrite Hx, IH.
Qed.

Lemma par_collect_same `{Platform} {E A} (l : list (outcome E A)) :
  same_ok (par_collect l) (omapM id l).
Proof.
  unfold par_collect. destruct (existsb id (map failed l)) eqn:Hf; [|done].
  intros ys. split.
  - apply rayon_pick_fails in Hf. rewrite list_lookup_fmap in Hf.
    destruct (l !! _) as [[]|]; simpl in *; done.
  - intros Hys%omapM_Ok_iff. exfalso. revert Hf. apply not_true_iff_false.
    induction Hys as [|x y l ys Hx _ IH]; simpl; [done|]. unfold id in Hx. subst x. apply IH.
Qed.

Lemma omapM_map {E A B C} (f : B -> outcome E C) (h : A -> B) l :
  omapM f (map h l) = omapM (fun x => f (h x)) l.
Proof. induction l; simpl; [done|]. by rewrite IHl. Qed.

(** A traversal of items that keep the state, at a given state. *)
Lemma st_mapM_at {S E A B} (f : A -> ST S E B) l s :
  Forall (fun x => (f x s).1 = s) l -> st_mapM f l s = (s, omapM (fun x => (f x s).2) l).
Proof.
  induction 1 as [|x l Hf _ IH]; simpl; [done|]. unfold st_bind. destruct (f x s) as [s' [y|e|]]; simpl in *; subst; [|done..].
  rewrite IH. by destruct (omapM _ l).
Qed.

Lemma par_mapM_sim `{Platform} {S E A B} (f : A -> ST S E B) l :
  (forall x, st_pure (f x)) -> sim (par_mapM f l) (st_mapM f l).
Proof.
  intros Hf s. rewrite st_mapM_at by (apply Forall_true; intros; by apply st_pure_state). simpl.
  split_and!; [done..|]. rewrite <- (omapM_map id (fun x => (f x s).2)). apply par_collect_same.
Qed.

(** ** Chunks of intersections *)

Lemma chunks_exact_nil {A} w : chunks_exact w ([] : list A) = [].
Proof. done. Qed.

Lemma chunks_exact_go_fuel {A} f1 f2 w (l : list A) :
  0 < w -> length l <= f1 -> length l <= f2 -> chunks_exact_go f1 w l = chunks_exact_go f2 w l.
Proof.
  intros Hw. revert f2 l. induction f1 as [|f1 IH]; intros f2 l H1 H2.
  - destruct l; simpl in *; [|lia]. destruct f2; simpl; [done|].
    destruct (Nat.ltb_spec 0 w); [done|lia].
  - destruct f2 as [|f2].
    + destruct l; simpl in *; [|lia]. destruct (Nat.ltb_spec 0 w); [done|lia].
    + simpl. destruct (Nat.ltb_spec (length l) w); [done|]. f_equal.
      apply IH; rewrite length_drop; lia.
Qed.

Lemma chunks_exact_cons {A} w (l : list A) :
  0 < w -> w <= length l -> chunks_exact w l = take w l :: chunks_exact w (drop w l).
Proof.
  intros Hw Hl. unfold chunks_exact. destruct l as [|x l]; [simpl in *; lia|].
  cbn [length chunks_exact_go]. destruct (Nat.ltb_spec (S (length l)) w); [simpl in *; lia|].
  f_equal. apply chunks_exact_go_fuel; [done| |]; rewrite length_drop; simpl; lia.
Qed.

Lemma chunks_exact_short {A} w (l : list A) : length l < w -> chunks_exact w l = [].
Proof.
  intros H. unfold chunks_exact. destruct (length l) eqn:Hl; [done|]. cbn [chunks_exact_go].
  destruct (Nat.ltb_spec (length l) w); [done|lia].
Qed.

Lemma chunks_exact_split {A} w n (l : list A) :
  0 < w -> chunks_exact w l = chunks_exact w (take (n * w) l) ++ chunks_exact w (drop (n * w) l).
Proof.
  intros Hw. revert l. induction n as [|n IH]; intros l; simpl; [done|].
  destruct (decide (w <= length l)) as [Hl|Hl].
  - rewrite (chunks_exact_cons w l), (chunks_exact_cons w (take _ l)); try done.
    + rewrite take_take, Nat.min_l by lia. simpl. f_equal.
      rewrite (IH (drop w l)). rewrite take_drop_commute, drop_drop.
      do 3 f_equal; lia.
    + rewrite length_take. lia.
  - rewrite take_ge by lia. rewrite drop_ge by lia. by rewrite chunks_exact_nil, app_nil_r.
Qed.

Lemma chunks_exact_chunks {A} w n (l : list A) :
  0 < w -> 0 < n -> concat (map (chunks_exact w) (chunks (n * w) l)) = chunks_exact w l.
Proof.
  intros Hw Hn. unfold chunks. assert (Hf : length l <= length l) by lia. revert Hf.
  generalize (length l) at 2 3 as f. intros f. revert l. induction f as [|f IH]; intros l Hf.
  - destruct l; simpl in *; [done|lia].
  - destruct l as [|x l]; [done|]. cbn [chunks_go map concat].
    rewrite IH by (rewrite length_drop; simpl in *; nia). symmetry. by apply chunks_exact_split.
Qed.

Lemma par_chunks_iter n x : concat (map in_iter (par_chunks_rows n x)) = in_iter x.
Proof.
  unfold par_chunks_rows, in_iter. destruct x as [w flat]. simpl. rewrite map_map. simpl.
  destruct (Nat.eqb_spec w 0) as [->|Hw].
  - induction (chunks _ flat); simpl; auto.
  - rewrite (Nat.max_l w 1) by lia. apply chunks_exact_chunks; lia.
Qed.

Lemma chunks_exact_length {A} w (l : list A) : 0 < w -> length (chunks_exact w l) = length l / w.
Proof.
  intros Hw. remember (length l) as n eqn:Hn. revert l Hn.
  induction n as [n IH] using lt_wf_ind; intros l ->.
  destruct (decide (w <= length l)) as [Hl|Hl].
  - rewrite chunks_exact_cons by done. simpl.
    rewrite (IH (length l - w)); [|lia|by rewrite length_drop].
    replace (length l) with (length l - w + 1 * w) at 2 by lia.
    rewrite Nat.div_add by lia. lia.
  - rewrite chunks_exact_short by lia. by rewrite Nat.div_small by lia.
Qed.

Lemma in_row_cons {E} w flat i :
  w <= length flat ->
  @in_row E (Intersections w flat) (S i) = in_row (Intersections w (drop w flat)) i.
Proof.
  intros H. unfold in_row. simpl. rewrite length_drop, drop_drop.
  destruct (Nat.leb_spec (w + (i + 1) * w) (length flat)),
    (Nat.leb_spec ((i + 1) * w) (length flat - w)); done || lia.
Qed.

(** Reading the rows by index gives the rows of the iterator. *)
Lemma in_rows_iter {E} x : omapM (@in_row E x) (seq 0 (in_len x)) = Ok (in_iter x).
Proof.
  destruct x as [w flat]. unfold in_iter, in_len. simpl.
  destruct (Nat.eqb_spec w 0) as [->|Hw]; [done|].
  remember (length flat) as n eqn:Hn. revert flat Hn.
  induction n as [n IH] using lt_wf_ind; intros flat ->.
  destruct (decide (w <= length flat)) as [Hl|Hl].
  - rewrite chunks_exact_cons by lia.
    replace (length flat / w) with (S ((length flat - w) / w)).
    2:{ replace (length flat) with (length flat - w + 1 * w) at 2 by lia.
        rewrite Nat.div_add by lia. lia. }
    simpl. unfold in_row at 1. simpl. rewrite Nat.add_0_r.
    destruct (Nat.leb_spec w (length flat)); [|lia]. simpl. rewrite drop_0.
    rewrite <- seq_shift, omapM_map.
    rewrite (omapM_ext _ (in_row (Intersections w (drop w flat)))).
    + rewrite (IH (length flat - w)); [done|lia|by rewrite length_drop].
    + intros i _. by apply in_row_cons.
  - rewrite chunks_exact_short by lia. by rewrite Nat.div_small by lia.
Qed.

(** ** Loops as traversals *)

Section Traversals.
Context {S E : Type}.

(** Continuations need to agree on reachable results only. *)
Lemma st_bind_cong_ok {A B} (m : ST S E A) (k1 k2 : A -> ST S E B) :
  (forall a s s', m s = (s', Ok a) -> meq (k1 a) (k2 a)) -> meq (st_bind m k1) (st_bind m k2).
Proof.
  intros H s. unfold st_bind. destruct (m s) as [s' [a|e|]] eqn:Hm; [|done..]. by eapply H.
Qed.

(** A loop that pushes [h x]'s result with [step]. *)
Lemma st_foldM_mapM {A B C} (F : A -> ST S E B) (step : C -> B -> C) acc l :
  meq (st_foldM (fun c x => let! b := F x in st_ret (step c b)) acc l)
      (let! bs := st_mapM F l in st_ret (fold_left step bs acc)).
Proof.
  revert acc; induction l as [|x l IH]; intros acc; simpl; [by rewrite st_bind_ret_l|].
  rewrite !st_bind_assoc. apply st_bind_cong; [done|]. intros b.
  rewrite st_bind_ret_l, IH, st_bind_assoc. apply st_bind_cong; [done|]. intros bs.
  by rewrite st_bind_ret_l.
Qed.

Lemma st_mapM_app {A B} (F : A -> ST S E B) l1 l2 :
  meq (st_mapM F (l1 ++ l2))
      (let! b1 := st_mapM F l1 in let! b2 := st_mapM F l2 in st_ret (b1 ++ b2)).
Proof.
  induction l1 as [|x l1 IH]; simpl.
  - rewrite st_bind_ret_l. etrans; [symmetry; apply st_bind_ret_r|]. by apply st_bind_cong.
  - rewrite !st_bind_assoc. apply st_bind_cong; [done|]. intros b.
    rewrite IH, !st_bind_assoc. apply st_bind_cong; [done|]. intros b1.
    rewrite st_bind_ret_l, !st_bind_assoc. apply st_bind_cong; [done|]. intros b2.
    by rewrite st_bind_ret_l.
Qed.

Lemma st_mapM_concat {A B C} (F : A -> ST S E B) (g : C -> list A) cs :
  meq (let! bss := st_mapM (fun c => st_mapM F (g c)) cs in st_ret (concat bss))
      (st_mapM F (concat (map g cs))).
Proof.
  induction cs as [|c cs IH]; simpl; [by rewrite st_bind_ret_l|].
  rewrite st_mapM_app, !st_bind_assoc. apply st_bind_cong; [done|]. intros b.
  rewrite <- IH, !st_bind_assoc. apply st_bind_cong; [done|]. intros bs.
  by rewrite !st_bind_ret_l.
Qed.

Lemma st_mapM_post {A B C} (F : A -> ST S E B) (h : B -> C) l :
  meq (st_mapM (fun x => let! b := F x in st_ret (h b)) l)
      (let! bs := st_mapM F l in st_ret (map h bs)).
Proof.
  induction l as [|x l IH]; simpl; [by rewrite st_bind_ret_l|].
  rewrite !st_bind_assoc. apply st_bind_cong; [done|]. intros b.
  rewrite st_bind_ret_l, IH, !st_bind_assoc. apply st_bind_cong; [done|]. intros bs.
  by rewrite !st_bind_ret_l.
Qed.

(** Processing chunks and combining is processing everything, when [comb]
    combines the summaries [h] of the chunks. *)
Lemma chunked_mapM {A B C D X} (F : A -> ST S E B) (h : list B -> C) (comb : list C -> D)
    (h' : list B -> D) (g : X -> list A) cs :
  (forall bss, comb (map h bss) = h' (concat bss)) ->
  meq (let! ps := st_mapM (fun c => let! bs := st_mapM F (g c) in st_ret (h bs)) cs in
       st_ret (comb ps))
      (let! bs := st_mapM F (concat (map g cs)) in st_ret (h' bs)).
Proof.
  intros Hc. rewrite st_mapM_post, st_bind_assoc, <- st_mapM_concat, st_bind_assoc.
  apply st_bind_cong; [done|]. intros bss. by rewrite !st_bind_ret_l, Hc.
Qed.
End Traversals.

Lemma fold_left_app_concat {A} (ls : list (list A)) acc :
  fold_left (fun keep l => keep ++ l) ls acc = acc ++ concat ls.
Proof.
  revert acc; induction ls as [|l ls IH]; intros acc; simpl; [by rewrite app_nil_r|].
  by rewrite IH, app_assoc.
Qed.

(** ** Columns built row by row *)

Abbreviation vcols := (list (list value)).

Definition cols_of (n : nat) (rows : list (list value)) : vcols :=
  fold_left push_cells rows (empty_cols n).

Lemma extend_push (d c : vcols) row :
  extend_cols d (push_cells c row) = push_cells (extend_cols d c) row.
Proof.
  unfold extend_cols, push_cells. revert c row.
  induction d as [|x d IH]; intros [|y c] [|v row]; simpl; try done.
  by rewrite app_assoc, IH.
Qed.

Lemma push_cells_length c row : length (push_cells c row) = length c `min` length row.
Proof. apply length_zip_with. Qed.

Lemma fold_push_extend rows (d c : vcols) :
  fold_left push_cells rows (extend_cols d c) = extend_cols d (fold_left push_cells rows c).
Proof.
  revert c; induction rows as [|r rows IH]; intros c; simpl; [done|].
  by rewrite <- extend_push, IH.
Qed.

(** Extending by chunk columns is pushing all rows. *)
Lemma cols_of_concat n rowss :
  fold_left extend_cols (map (cols_of n) rowss) (empty_cols n) = cols_of n (concat rowss).
Proof.
  unfold cols_of.
  assert (H : forall d, length d <= n ->
    fold_left extend_cols (map (fun rows => fold_left push_cells rows (empty_cols n)) rowss) d
    = fold_left push_cells (concat rowss) d).
  { induction rowss as [|rows rowss IH]; intros d Hd; simpl; [done|].
    assert (Hx : extend_cols d (fold_left push_cells rows (empty_cols n))
                 = fold_left push_cells rows d).
    { rewrite <- fold_push_extend. f_equal. clear -Hd. unfold extend_cols, empty_cols.
      revert n Hd. induction d as [|x d IH]; intros [|n] Hd; simpl in *; try done; try lia.
      rewrite app_nil_r, IH; [done|lia]. }
    rewrite Hx, fold_left_app. apply IH. clear -Hd.
    revert d Hd. induction rows as [|r rows IH]; intros d Hd; simpl; [done|].
    apply IH. rewrite push_cells_length. lia. }
  apply H. unfold empty_cols. by rewrite length_replicate.
Qed.

(** A matrix by rows, as columns. *)
Lemma cols_of_matrix {A B} (h : A -> B -> value) (es : list A) (rs : list B) :
  cols_of (length es) (map (fun r => map (fun e => h e r) es) rs)
  = map (fun e => map (fun r => h e r) rs) es.
Proof.
  unfold cols_of. induction rs as [|r rs IH] using rev_ind; simpl.
  - induction es as [|e es IHe]; simpl; [done|]. unfold empty_cols in *. simpl. by rewrite IHe.
  - rewrite map_app, fold_left_app, IH. simpl. unfold push_cells. clear IH.
    induction es as [|e es IHe]; simpl; [done|]. by rewrite map_app, IHe.
Qed.

(** The value of a successful outcome. *)
Definition value_of {E} (o : outcome E value) : value := match o with Ok v => v | _ => VNull end.
Definition is_ok {E A} (o : outcome E A) : Prop := exists a, o = Ok a.

Lemma omapM_value {E A} (f : A -> outcome E value) l vs :
  omapM f l = Ok vs <-> Forall (fun x => is_ok (f x)) l /\ vs = map (fun x => value_of (f x)) l.
Proof.
  rewrite omapM_Ok_iff. split.
  - induction 1 as [|x v l vs Hx _ [IH1 IH2]]; [done|].
    split; [constructor; [by exists v|done]|]. simpl. by rewrite Hx, IH2.
  - intros [H ->]. induction H as [|x l [v Hv] _ IH]; simpl; constructor; [by rewrite Hv|done].
Qed.

Lemma matrix_cols_ok {E A B} (o : A -> B -> outcome E value) es rs cols :
  omapM (fun e => omapM (o e) rs) es = Ok cols <->
  (forall e r, e ∈ es -> r ∈ rs -> is_ok (o e r))
  /\ cols = map (fun e => map (fun r => value_of (o e r)) rs) es.
Proof.
  rewrite omapM_Ok_iff. split.
  - induction 1 as [|e c es cs Hc _ [IH1 IH2]]; [split; [by intros ? ? ?%not_elem_of_nil|done]|].
    apply omapM_value in Hc as [Hc ->]. rewrite Forall_forall in Hc. split; [|simpl; by f_equal].
    intros e' r [->|He]%elem_of_cons Hr; auto.
  - intros [H ->]. induction es as [|e es IH]; simpl; constructor.
    + apply omapM_value. split; [|done]. apply Forall_forall. intros r Hr. apply H; [left|done].
    + apply IH. intros e' r He. apply H. by right.
Qed.

Lemma matrix_rows_ok {E A B} (o : A -> B -> outcome E value) es rs rows :
  omapM (fun r => omapM (fun e => o e r) es) rs = Ok rows <->
  (forall e r, e ∈ es -> r ∈ rs -> is_ok (o e r))
  /\ rows = map (fun r => map (fun e => value_of (o e r)) es) rs.
Proof.
  rewrite (matrix_cols_ok (fun r e => o e r) rs es rows). naive_solver.
Qed.

(** Row by row or column by column, the cells are the same. *)
Lemma matrix_same {E A B} (o : A -> B -> outcome E value) es rs :
  same_ok (omapo (cols_of (length es)) (omapM (fun r => omapM (fun e => o e r) es) rs))
    (omapM (fun e => omapM (o e) rs) es).
Proof.
  intros cols. rewrite matrix_cols_ok. unfold omapo. split.
  - intros H. ok_inv H. apply matrix_rows_ok in Heqo0 as [Hok ->]. simplify_eq.
    split; [done|]. apply cols_of_matrix.
  - intros [Hok ->]. destruct (omapM _ rs) as [rows|e|] eqn:Hr; simpl.
    + apply matrix_rows_ok in Hr as [_ ->]. f_equal. apply cols_of_matrix.
    + assert (Herr : omapM (fun r => omapM (fun e => o e r) es) rs = Ok
        (map (fun r => map (fun e => value_of (o e r)) es) rs)) by (by apply matrix_rows_ok).
      congruence.
    + assert (Herr : omapM (fun r => omapM (fun e => o e r) es) rs = Ok
        (map (fun r => map (fun e => value_of (o e r)) es) rs)) by (by apply matrix_rows_ok).
      congruence.
Qed.

(** ** Stages *)

Section StageSim.
Context {U : Unicode} {D : DateLib} {P : Platform} {W : Type}.
Abbreviation M := (ST W cfml_error).

(** WHERE: the loop as a traversal. *)
Definition kept_row (f : list nat -> M value) (i : list nat) : M (list nat) :=
  let! v := f i in st_ret (if is_truthy v then i else []).

Lemma keep_rows_mapM (f : list nat -> M value) rows :
  meq (keep_rows f rows) (let! ks := st_mapM (kept_row f) rows in st_ret (concat ks)).
Proof.
  unfold keep_rows. etrans.
  { apply st_foldM_cong. apply Forall_true. intros i b.
    instantiate (1 := fun b i => let! k := kept_row f i in st_ret (b ++ k)).
    unfold kept_row. rewrite st_bind_assoc. apply st_bind_cong; [done|]. intros v.
    rewrite st_bind_ret_l. case_match; [done|by rewrite app_nil_r]. }
  rewrite (st_foldM_mapM (kept_row f) (fun keep l => keep ++ l)).
  apply st_bind_cong; [done|]. intros ks. by rewrite fold_left_app_concat.
Qed.

Lemma kept_row_pure (f : list nat -> M value) i : (forall i, st_pure (f i)) -> st_pure (kept_row f i).
Proof. intros H. apply st_pure_bind; auto with pure. Qed.

Lemma keep_rows_pure (f : list nat -> M value) rows : (forall i, st_pure (f i)) -> st_pure (keep_rows f rows).
Proof.
  intros H. rewrite keep_rows_mapM. apply st_pure_bind; [|auto with pure].
  apply st_pure_mapM, Forall_true. intros. by apply kept_row_pure.
Qed.

Lemma keep_rows_chunks (f : list nat -> M value) n x :
  meq (let! kept := st_mapM (fun c => keep_rows f (in_iter c)) (par_chunks_rows n x) in
       st_ret (Intersections (in_width x) (concat kept)))
      (let! kept := keep_rows f (in_iter x) in st_ret (Intersections (in_width x) kept)).
Proof.
  rewrite (st_mapM_cong _ (fun c => let! bs := st_mapM (kept_row f) (in_iter c) in
                                    st_ret (concat bs))).
  2:{ apply Forall_true. intros c. apply keep_rows_mapM. }
  rewrite (chunked_mapM (kept_row f) (@concat _)
             (fun kept => Intersections (in_width x) (concat kept))
             (fun bs => Intersections (in_width x) (concat bs))).
  - rewrite par_chunks_iter, keep_rows_mapM, st_bind_assoc.
    apply st_bind_cong; [done|]. intros ks. by rewrite st_bind_ret_l.
  - intros bss. f_equal. symmetry. etrans; [|apply (concat_concat_map id)]. by rewrite map_id.
Qed.

Lemma filter_where_sim par (f g : list nat -> M value) x :
  (forall i, st_pure (f i)) -> (forall i, meq (f i) (g i)) ->
  sim (filter_where_with par f g x) (filter_where_with false f g x).
Proof.
  intros Hf Hfg. unfold filter_where_with at 2. rewrite andb_false_l.
  unfold filter_where_with. case_match.
  - rewrite <- (keep_rows_chunks f (chunk_rows (in_len x)) x).
    rewrite (par_mapM_cong _ (fun c => keep_rows f (in_iter c))).
    2:{ intros c. symmetry. by apply keep_rows_cong. }
    apply sim_bind; [|intros; apply sim_refl; auto with pure].
    apply par_mapM_sim. intros c. by apply keep_rows_pure.
  - apply sim_bind; [apply sim_refl; by apply keep_rows_pure|].
    intros; apply sim_refl; auto with pure.
Qed.

(** Projection: the loop as a traversal of rows. *)
Definition project_row (ev : expr -> row_ctx -> M value) (select : list select_column)
    (order_by : list order_by_expr) (inter : list nat) : M (list value * list value) :=
  let! row := st_mapM (fun sc => ev (sc_expr sc) (CtxRow inter)) select in
  let! key := st_mapM (fun ob => order_key ev ob (CtxRow inter) row) order_by in
  st_ret (row, key).

Lemma nth_Z_push data (row : list value) idx :
  length data = length row ->
  (c ← nth_Z (push_cells data row) idx; last c) = nth_Z row idx.
Proof.
  intros Hl. unfold nth_Z. rewrite push_cells_length, Hl, Nat.min_id.
  destruct (Z.ltb_spec idx (Z.of_nat (length row))); [|done]. unfold push_cells.
  generalize (Z.to_nat idx) as i. clear H. revert row Hl.
  induction data as [|c data IH]; intros [|v row] Hl [|i]; simpl in *; try done.
  - apply last_snoc.
  - apply IH. by injection Hl.
Qed.

Lemma fold_push_pair rs (data keys : vcols) :
  fold_left (fun '(d, k) '(row, key) => (push_cells d row, push_cells k key)) rs (data, keys)
  = (fold_left push_cells (map fst rs) data, fold_left push_cells (map snd rs) keys).
Proof. revert data keys; induction rs as [|[r k] rs IH]; intros; simpl; auto. Qed.

Lemma project_rows_mapM (ev : expr -> row_ctx -> M value) select order_by rows :
  meq (project_rows ev select order_by rows)
      (let! rs := st_mapM (project_row ev select order_by) rows in
       st_ret (cols_of (length select) (map fst rs), cols_of (length order_by) (map snd rs))).
Proof.
  unfold project_rows, cols_of.
  assert (H : forall data keys, length data = length select ->
    meq (st_foldM (fun '(data, keys) inter =>
           let! row := st_mapM (fun sc => ev (sc_expr sc) (CtxRow inter)) select in
           let! key := st_mapM (fun ob => match int_alias ob with
             | Some idx => st_ret (or_null (c ← nth_Z (push_cells data row) idx; last c))
             | None => ev (ob_expr ob) (CtxRow inter) end) order_by in
           st_ret (push_cells data row, push_cells keys key)) (data, keys) rows)
      (let! rs := st_mapM (project_row ev select order_by) rows in
       st_ret (fold_left push_cells (map fst rs) data, fold_left push_cells (map snd rs) keys))).
  2:{ apply H. apply length_replicate. }
  induction rows as [|i rows IH]; intros data keys Hd; simpl; [by rewrite st_bind_ret_l|].
  unfold project_row at 1. rewrite !st_bind_assoc. apply st_bind_cong_ok. intros row s s' Hrow.
  apply st_mapM_ok_length in Hrow. rewrite !st_bind_assoc. apply st_bind_cong.
  { apply st_mapM_cong, Forall_true. intros ob. unfold order_key. case_match; [|done].
    rewrite nth_Z_push by congruence. done. }
  intros key. rewrite !st_bind_ret_l, IH by (rewrite push_cells_length; lia).
  rewrite st_bind_assoc. apply st_bind_cong; [done|]. intros rs. by rewrite st_bind_ret_l.
Qed.

Context (Q : expr -> Prop) (ev pev : expr -> row_ctx -> M value).
Context (Hpure : forall e ctx, Q e -> st_pure (ev e ctx)).
Context (Hsame : forall e ctx, Q e -> meq (pev e ctx) (ev e ctx)).

Lemma order_key_pure ob ctx row : Q (ob_expr ob) -> st_pure (order_key ev ob ctx row).
Proof. intros H. unfold order_key. case_match; auto with pure. Qed.

Lemma project_row_pure select order_by i :
  select_ok Q select -> order_ok Q order_by -> st_pure (project_row ev select order_by i).
Proof.
  intros Hs Ho. apply st_pure_bind.
  { apply st_pure_mapM. eapply Forall_impl; [exact Hs|]. simpl. auto. }
  intros row. apply st_pure_bind; [|auto with pure]. apply st_pure_mapM.
  eapply Forall_impl; [exact Ho|]. intros ob Hob. by apply order_key_pure.
Qed.

Lemma project_rows_pure select order_by rows :
  select_ok Q select -> order_ok Q order_by -> st_pure (project_rows ev select order_by rows).
Proof.
  intros Hs Ho. rewrite project_rows_mapM. apply st_pure_bind; [|auto with pure].
  apply st_pure_mapM, Forall_true. intros i. by apply project_row_pure.
Qed.

Lemma fold_extend_pair (parts : list (vcols * vcols)) d k :
  fold_left (fun '(data, keys) '(cd, ck) => (extend_cols data cd, extend_cols keys ck)) parts (d, k)
  = (fold_left extend_cols (map fst parts) d, fold_left extend_cols (map snd parts) k).
Proof. revert d k; induction parts as [|[a b] parts IH]; intros; simpl; auto. Qed.

Lemma project_rows_chunks select order_by n x :
  meq (let! parts := st_mapM (fun c => project_rows ev select order_by (in_iter c))
                       (par_chunks_rows n x) in
       st_ret (fold_left (fun '(data, keys) '(cd, ck) =>
                            (extend_cols data cd, extend_cols keys ck)) parts
                 (empty_cols (length select), empty_cols (length order_by))))
      (project_rows ev select order_by (in_iter x)).
Proof.
  set (h := fun rs : list (list value * list value) =>
    (cols_of (length select) (map fst rs), cols_of (length order_by) (map snd rs))).
  rewrite (st_mapM_cong _ (fun c => let! bs := st_mapM (project_row ev select order_by) (in_iter c)
                                    in st_ret (h bs))).
  2:{ apply Forall_true. intros c. apply project_rows_mapM. }
  rewrite (chunked_mapM (project_row ev select order_by) h _ h).
  - by rewrite par_chunks_iter, project_rows_mapM.
  - intros bss. rewrite fold_extend_pair. unfold h. rewrite !map_map. simpl.
    rewrite !concat_map. rewrite <- !cols_of_concat, !map_map. done.
Qed.

Lemma exec_simple_sim par select x order_by :
  select_ok Q select -> order_ok Q order_by ->
  sim (exec_simple par ev pev select x order_by) (exec_simple false ev pev select x order_by).
Proof.
  intros Hs Ho. unfold exec_simple at 2. rewrite andb_false_l. unfold exec_simple.
  assert (Hret : forall r : vcols * vcols, sim (S := W) (E := cfml_error)
    (st_ret (r.1, r.2, in_len x)) (st_ret (r.1, r.2, in_len x)))
    by (intros; apply sim_refl; auto with pure).
  case_match.
  - rewrite <- (project_rows_chunks select order_by (chunk_rows (in_len x)) x), st_bind_assoc.
    rewrite (par_mapM_cong _ (fun c => project_rows ev select order_by (in_iter c))).
    2:{ intros c. by apply (project_rows_cong_gen Q). }
    apply sim_bind.
    + apply par_mapM_sim. intros c. by apply project_rows_pure.
    + intros parts. rewrite st_bind_ret_l. destruct (fold_left _ _ _). apply (Hret (_, _)).
  - apply sim_bind; [apply sim_refl; by apply project_rows_pure|]. intros r. apply Hret.
Qed.

(** Sequential columns against rows cut into chunks: a matrix of cells. *)
Definition cells_by_row (es : list expr) (survivors : list nat) : M vcols :=
  let! rows := st_mapM (fun r => st_mapM (fun e => ev e (CtxRow [r])) es) survivors in
  st_ret (cols_of (length es) rows).

Definition cells_by_col (es : list expr) (survivors : list nat) : M vcols :=
  st_mapM (fun e => st_mapM (fun r => ev e (CtxRow [r])) survivors) es.

Lemma cells_sim es survivors :
  Forall Q es -> sim (cells_by_row es survivors) (cells_by_col es survivors).
Proof.
  intros HQ s. unfold cells_by_row, cells_by_col, st_bind.
  assert (Hcell : forall r, Forall (fun e => (ev e (CtxRow [r]) s).1 = s) es).
  { intros r. eapply Forall_impl; [exact HQ|]. intros e He. apply st_pure_state. auto. }
  set (o := fun e r => (ev e (CtxRow [r]) s).2).
  assert (Hrow : forall r, st_mapM (fun e => ev e (CtxRow [r])) es s = (s, omapM (fun e => o e r) es)).
  { intros r. by apply st_mapM_at. }
  assert (Hcol : Forall (fun e => st_mapM (fun r => ev e (CtxRow [r])) survivors s
                                  = (s, omapM (o e) survivors)) es).
  { eapply Forall_impl; [exact HQ|]. intros e He. apply st_mapM_at, Forall_true.
    intros r. apply st_pure_state. auto. }
  rewrite (st_mapM_at _ survivors) by (apply Forall_true; intros r; by rewrite Hrow).
  rewrite (st_mapM_at _ es) by (eapply Forall_impl; [exact Hcol|]; intros e He; by rewrite He).
  rewrite (omapM_ext _ (fun r => omapM (fun e => o e r) es)) by (intros r _; by rewrite Hrow).
  rewrite (omapM_ext _ (fun e => omapM (o e) survivors) es).
  2:{ intros e He. rewrite Forall_forall in Hcol. by rewrite Hcol. }
  assert (Hs : same_ok (omapo (cols_of (length es)) (omapM (fun r => omapM (fun e => o e r) es) survivors))
                 (omapM (fun e => omapM (o e) survivors) es)) by apply matrix_same.
  split_and!; [by case_match|done|]. simpl in *. by destruct (omapM _ survivors).
Qed.

Lemma cells_chunks es n survivors :
  0 < n ->
  meq (let! parts := st_mapM (fun chunk =>
           st_foldM (fun cs r => let! row := st_mapM (fun e => ev e (CtxRow [r])) es in
                                 st_ret (push_cells cs row)) (empty_cols (length es)) chunk)
         (chunks n survivors) in
       st_ret (fold_left extend_cols parts (empty_cols (length es))))
      (cells_by_row es survivors).
Proof.
  intros Hn. rewrite (st_mapM_cong _ (fun c =>
    let! rows := st_mapM (fun r => st_mapM (fun e => ev e (CtxRow [r])) es) c in
    st_ret (cols_of (length es) rows))).
  2:{ apply Forall_true. intros c. apply st_foldM_mapM. }
  rewrite (chunked_mapM (fun r => st_mapM (fun e => ev e (CtxRow [r])) es) _ _
             (cols_of (length es)) (fun c => c)).
  - by rewrite map_id, chunks_concat.
  - intros bss. apply cols_of_concat.
Qed.

Lemma build_cols_sim par tables survivors exprs :
  Forall Q exprs ->
  sim (build_cols_for_exprs par ev pev tables survivors exprs)
      (build_cols_for_exprs false ev pev tables survivors exprs).
Proof.
  intros HQ. unfold build_cols_for_exprs. apply sim_bind; [apply sim_refl; auto with pure|].
  intros slots. apply sim_bind; [|intros; apply sim_refl; auto with pure].
  assert (Hn : Forall Q (List.filter (fun e => negb (is_resolved e)) exprs)).
  { rewrite Forall_forall in *. intros e [He _]%elem_of_filterb. auto. }
  destruct (List.filter _ exprs) as [|e0 needs]; [apply sim_refl; auto with pure|].
  rewrite andb_false_l. remember (e0 :: needs) as es.
  assert (Hseq : sim (cells_by_col es survivors) (cells_by_col es survivors)).
  { apply sim_refl, st_pure_mapM. eapply Forall_impl; [exact Hn|]. intros e He.
    apply st_pure_mapM, Forall_true. auto. }
  case_match; [|exact Hseq].
  eapply sim_trans; [|apply cells_sim; exact Hn].
  rewrite <- (cells_chunks es (chunk_rows (length survivors))).
  2:{ unfold chunk_rows. lia. }
  apply sim_bind; [|intros; apply sim_refl; auto with pure].
  rewrite (par_mapM_cong _ (fun chunk =>
    st_foldM (fun cs r => let! row := st_mapM (fun e => ev e (CtxRow [r])) es in
                          st_ret (push_cells cs row)) (empty_cols (length es)) chunk)).
  - apply par_mapM_sim. intros c. apply st_pure_foldM, Forall_true. intros r b.
    apply st_pure_bind; [|auto with pure]. apply st_pure_mapM.
    eapply Forall_impl; [exact Hn|]. auto.
  - intros c. apply st_foldM_cong, Forall_true. intros r b. apply st_bind_cong; [|done].
    apply st_mapM_cong. eapply Forall_impl; [exact Hn|]. auto.
Qed.

(** The surviving rows of the single-table path. *)
Lemma survivors_seq (w : row_ctx -> M value) rows :
  meq (st_foldM (fun out r => let! v := w (CtxRow [r]) in
                              st_ret (if is_truthy v then out ++ [r] else out)) [] rows)
      (let! kept := st_mapM (fun r => let! v := w (CtxRow [r]) in
                                      st_ret (if is_truthy v then Some r else None)) rows in
       st_ret (omap id kept)).
Proof.
  etrans.
  { apply st_foldM_cong, Forall_true. intros r b.
    instantiate (1 := fun b r => let! k := (let! v := w (CtxRow [r]) in
      st_ret (if is_truthy v then Some r else None)) in st_ret (b ++ omap id [k])).
    rewrite st_bind_assoc. apply st_bind_cong; [done|]. intros v. rewrite st_bind_ret_l.
    case_match; [done|]. by rewrite app_nil_r. }
  rewrite (st_foldM_mapM _ (fun b k => b ++ omap id [k])). apply st_bind_cong; [done|].
  intros kept. assert (H : forall acc,
    fold_left (fun b k => b ++ omap id [k]) kept acc = acc ++ omap id kept).
  { induction kept as [|[k|] kept IH]; intros acc; simpl; [by rewrite app_nil_r|..];
      rewrite IH; [by rewrite <- app_assoc|by rewrite app_nil_r]. }
  by rewrite H.
Qed.

Lemma exec_no_join_fused_sim par (w pw : option (row_ctx -> M value)) tables select order_by :
  select_ok Q select -> order_ok Q order_by ->
  option_Forall2 (fun f g => forall ctx, st_pure (f ctx) /\ meq (g ctx) (f ctx)) w pw ->
  sim (exec_no_join_fused par ev pev (w, pw) tables select order_by)
      (exec_no_join_fused false ev pev (w, pw) tables select order_by).
Proof.
  intros Hs Ho Hw. unfold exec_no_join_fused.
  apply sim_bind; [apply sim_refl; auto with pure|]. intros t0. apply sim_bind.
  { destruct Hw as [f g Hfg|]; [|apply sim_refl; auto with pure]. rewrite andb_false_l.
    assert (Hp : forall r, st_pure (let! v := f (CtxRow [r]) in
        st_ret (if is_truthy v then Some r else None))).
    { intros r. apply st_pure_bind; [apply Hfg|auto with pure]. }
    case_match; rewrite (survivors_seq f).
    - apply sim_bind; [|intros; apply sim_refl; auto with pure].
      rewrite (par_mapM_cong _ (fun r => let! v := f (CtxRow [r]) in
        st_ret (if is_truthy v then Some r else None))).
      + by apply par_mapM_sim.
      + intros r. apply st_bind_cong; [apply Hfg|done].
    - apply sim_refl, st_pure_bind; [|auto with pure].
      by apply st_pure_mapM, Forall_true. }
  intros survivors. apply sim_bind; [apply build_cols_sim; rewrite Forall_fmap; exact Hs|].
  intros data. apply sim_bind; [|intros; apply sim_refl; auto with pure].
  destruct (List.filter _ order_by) as [|ob0 obs] eqn:Hf; [apply sim_refl; auto with pure|].
  apply build_cols_sim. rewrite <- Hf, Forall_fmap. unfold order_ok in Ho.
  rewrite Forall_forall in *. intros ob [Hob _]%elem_of_filterb. by apply Ho.
Qed.

Lemma row_group_key_pure gb i : Forall Q gb -> st_pure (row_group_key ev gb i).
Proof.
  intros HQ. apply st_pure_bind; [|auto with pure]. apply st_pure_mapM.
  eapply Forall_impl; [exact HQ|]. auto.
Qed.

Lemma partition_sim par x gb :
  Forall Q gb -> sim (partition par ev pev x gb) (partition false ev pev x gb).
Proof.
  intros HQ. unfold partition. rewrite andb_false_l.
  assert (Hseq : meq (st_mapM (fun inter => let! k := row_group_key ev gb inter in
                               st_ret (k, inter)) (in_iter x))
    (let! keys := st_mapM (row_group_key ev gb) (in_iter x) in st_ret (zip keys (in_iter x)))).
  { induction (in_iter x) as [|i l IH]; simpl; [by rewrite st_bind_ret_l|].
    rewrite !st_bind_assoc. apply st_bind_cong; [done|]. intros k.
    rewrite st_bind_ret_l, IH, !st_bind_assoc. apply st_bind_cong; [done|]. intros ks.
    by rewrite !st_bind_ret_l. }
  assert (Hk : st_pure (st_mapM (row_group_key ev gb) (in_iter x))).
  { apply st_pure_mapM, Forall_true. intros. by apply row_group_key_pure. }
  case_match; rewrite Hseq, st_bind_assoc.
  - rewrite in_rows_iter, st_bind_lift. apply sim_bind.
    + rewrite (par_mapM_cong _ (row_group_key ev gb)).
      * apply par_mapM_sim. intros. by apply row_group_key_pure.
      * intros i. by apply (row_group_key_cong_gen Q).
    + intros keys. rewrite st_bind_ret_l. apply sim_refl; auto with pure.
  - apply sim_refl, st_pure_bind; [done|]. intros keys. auto with pure.
Qed.

Lemma exec_aggregate_sim par core select x order_by :
  Forall Q (co_group_by core) -> option_Forall Q (co_having core) ->
  select_ok Q select -> order_ok Q order_by ->
  sim (exec_aggregate par ev pev core select x order_by)
      (exec_aggregate false ev pev core select x order_by).
Proof.
  intros Hg Hh Hs Ho. unfold exec_aggregate. apply sim_bind.
  { destruct (co_group_by core); [apply sim_refl; auto with pure|]. by apply partition_sim. }
  intros parts. apply sim_refl. apply st_pure_bind; [|auto with pure].
  apply st_pure_foldM, Forall_true. intros part rows. apply st_pure_bind.
  { destruct Hh; auto with pure. }
  intros pass. case_match; [auto with pure|]. apply st_pure_bind.
  { apply st_pure_mapM. eapply Forall_impl; [exact Hs|]. simpl. auto. }
  intros row. apply st_pure_bind; [|auto with pure]. apply st_pure_mapM.
  eapply Forall_impl; [exact Ho|]. intros ob Hob. by apply order_key_pure.
Qed.
End StageSim.

(** ** Joins leave the world alone *)

Lemma sim_still {S E A} (m : ST S E A) : (forall s, (m s).1 = s) -> sim m m.
Proof. intros H s. by rewrite H. Qed.

Lemma st_foldM_proj {S E A B X} (pi : S -> X) (f : B -> A -> ST S E B) acc l s :
  (forall b a s, pi (f b a s).1 = pi s) -> pi (st_foldM f acc l s).1 = pi s.
Proof.
  intros H. revert acc s. induction l as [|x l IH]; intros acc s; simpl; [done|].
  unfold st_bind. specialize (H acc x s). destruct (f acc x s) as [s' [b|e|]]; simpl in *; [|done..].
  by rewrite IH.
Qed.

Lemma st_bind_proj {S E A B X} (pi : S -> X) (m : ST S E A) (k : A -> ST S E B) s :
  (forall s, pi (m s).1 = pi s) -> (forall a s, pi (k a s).1 = pi s) ->
  pi (st_bind m k s).1 = pi s.
Proof.
  intros Hm Hk. unfold st_bind. specialize (Hm s).
  destruct (m s) as [s' [a|e|]]; simpl in *; [|done..]. by rewrite Hk.
Qed.

Section JoinProj.
Context {S X : Type} (pi : S -> X) (f : nat -> list nat -> ST S Z bool).
Context (Hf : forall k c s, pi (f k c s).1 = pi s).

Lemma hit_proj {B} k c (h : bool -> B) s :
  pi ((let! b := f k c in st_ret (h b)) s).1 = pi s.
Proof. by apply st_bind_proj. Qed.

Lemma join_step_proj jt k x rr s : pi (join_step f jt k x rr s).1 = pi s.
Proof.
  unfold join_step. apply st_bind_proj; [|done]. clear s. intros s.
  assert (Hp : forall k i rr flat s, pi (probe_right f k i rr flat s).1 = pi s).
  { intros. apply st_foldM_proj. intros [? ?] r s'. apply hit_proj. }
  destruct jt; try (apply st_foldM_proj; intros b i s'; apply st_bind_proj; [apply Hp|done]).
  - apply st_foldM_proj. intros b r s'. apply st_bind_proj; [|done]. intros s''.
    apply st_foldM_proj. intros [? ?] i s3. apply hit_proj.
  - apply st_bind_proj; [|done]. intros s'. apply st_foldM_proj. intros [? ?] i s''.
    apply st_bind_proj; [|done]. intros s3. apply st_foldM_proj. intros [[? ?] ?] r s4.
    apply hit_proj.
Qed.

Lemma build_intersections_proj rows jts max_size s :
  pi (build_intersections f rows jts max_size s).1 = pi s.
Proof.
  unfold build_intersections. destruct rows as [|r rows]; [done|].
  generalize (Intersections 1 (seq 1 r)) as x. generalize (r :: rows) as l.
  generalize 0 as k. revert s. induction jts as [|jt jts IH]; intros s k l x; simpl; [done|].
  case_match; [|done]. case_match; [done|].
  apply st_bind_proj; [apply join_step_proj|]. intros y s'. apply IH.
Qed.
End JoinProj.

Lemma nested_loop_join_still `{Unicode} {W} (ev : expr -> row_ctx -> ST W cfml_error value)
    (core : select_core) tables w :
  Forall (fun j => option_Forall (fun e => forall ctx w, (ev e ctx w).1 = w) (jn_on j))
    (co_joins core) ->
  (nested_loop_join ev core tables w).1 = w.
Proof.
  intros HQ. unfold nested_loop_join.
  pose proof (build_intersections_proj fst (on_closure ev (co_joins core))) as Hp.
  assert (Hc : forall k c s, (on_closure ev (co_joins core) k c s).1.1 = s.1).
  { intros k c [w' [e|]]; [done|]. unfold on_closure.
    destruct (co_joins core !! k) as [j|] eqn:Hj; [|done].
    eapply Forall_lookup_1 in HQ; [|exact Hj]. destruct HQ as [|e He]; [done|].
    specialize (He (CtxRow c) w'). by destruct (ev e (CtxRow c) w') as [w'' []]. }
  specialize (Hp Hc (row_counts tables) (map jn_type (co_joins core)) max_intersections (w, None)).
  destruct (build_intersections _ _ _ _ _) as [[w' [e|]] []]; simpl in *; done.
Qed.

(** ** The whole run *)

Lemma sim_foldM {S E A B} (f g : B -> A -> ST S E B) acc l :
  Forall (fun x => forall b, sim (f b x) (g b x)) l -> sim (st_foldM f acc l) (st_foldM g acc l).
Proof.
  intros H. revert acc. induction H as [|x l Hx _ IH]; intros acc; simpl.
  - apply sim_refl; auto with pure.
  - apply sim_bind; [apply Hx|]. intros b. apply IH.
Qed.

Section RunSim.
Context {U : Unicode} {D : DateLib} {R : RegexCrate} {L : Libm} {P : Platform} {W : Type}.
Context (sources : list (str * query_data)) (params : qoq_params) (reg : registry W).
Context (udf : value -> list value -> ST W cfml_error value).
Context (rs : engine W -> select_statement -> ST W cfml_error query_data).

Let en (par : bool) : engine W := Engine sources params reg udf par.
Abbreviation Q := (expr_all (fun _ => False) (call_pure (en true))).
Definition named (t : table_ref) : Prop := match t with TNamed _ _ => True | _ => False end.

Lemma ev_pure par ts e ctx : Q e -> st_pure (eval (en par) (rs (en par)) ts e ctx).
Proof. intros H. apply eval_pure. by eapply expr_all_impl; [| |exact H]. Qed.

Lemma ev_agree par ts e ctx :
  Q e -> meq (eval (en par) (rs (en par)) ts e ctx) (eval (en true) (rs (en true)) ts e ctx).
Proof.
  intros H. apply eval_pure_agree; [done..|]. by eapply expr_all_impl; [| |exact H].
Qed.

Lemma pev_agree par ts e ctx :
  Q e -> meq (eval (pure_engine (en par)) (rs (pure_engine (en par))) ts e ctx)
             (eval (en true) (rs (en true)) ts e ctx).
Proof.
  intros H. apply eval_pure_agree; [done..|]. by eapply expr_all_impl; [| |exact H].
Qed.

Lemma evc_pure ts e ctx : Q e -> st_pure (eval_compiled (en true) (rs (en true)) ts (compile e) ctx).
Proof. intros H%compile_ok. by apply eval_compiled_pure. Qed.

Lemma evc_agree en' ts e ctx :
  en_params en' = params -> en_registry en' = reg -> Q e ->
  meq (eval_compiled en' (rs en') ts (compile e) ctx)
      (eval_compiled (en true) (rs (en true)) ts (compile e) ctx).
Proof.
  intros H1 H2 H%compile_ok. symmetry. by apply eval_compiled_pure_agree.
Qed.

Lemma resolve_tables_sim core :
  core_all Q named core ->
  sim (resolve_tables sources (rs (en true)) core) (resolve_tables sources (rs (en false)) core).
Proof.
  intros (_ & Hf & Hj & _).
  assert (Ht : forall par t, named t -> st_pure (resolve_table_ref sources (rs (en par)) t)).
  { intros par []; [intros _|done]. unfold resolve_table_ref. pure_cases. }
  rewrite (resolve_tables_cong _ (rs (en false)) (rs (en true))).
  - apply sim_refl. unfold resolve_tables. destruct Hf as [|t Hn]; [auto with pure|].
    apply st_pure_bind; [by apply Ht|]. intros t0. apply st_pure_bind; [|auto with pure].
    apply st_pure_mapM. eapply Forall_impl; [exact Hj|]. intros j [Hn' _]. by apply Ht.
  - destruct Hf as [|t Hn]; simpl; [done|]. by destruct t.
  - eapply Forall_impl; [exact Hj|]. intros j [Hn _]. by destruct (jn_table j).
Qed.

Lemma run_no_from_sim core order_by :
  core_all Q named core -> Forall (fun ob => Q (ob_expr ob)) order_by ->
  sim (run_no_from rs (en true) core order_by) (run_no_from rs (en false) core order_by).
Proof.
  intros Hc Ho. unfold run_no_from. apply sim_bind.
  - rewrite (st_mapM_cong (fun sc => if is_star (sc_expr sc) then _ else
      eval (en false) _ _ _ _) (fun sc => if is_star (sc_expr sc)
      then st_err (qoq_err [lit "'*' requires a FROM clause"])
      else eval (en true) (rs (en true)) [] (sc_expr sc) (CtxRow []))).
    + apply sim_refl, st_pure_mapM. destruct Hc as [Hc _]. eapply Forall_impl; [exact Hc|].
      simpl. intros sc Hsc. case_match; [auto with pure|]. by apply ev_pure.
    + destruct Hc as [Hc _]. eapply Forall_impl; [exact Hc|]. simpl. intros sc Hsc.
      case_match; [done|]. by apply ev_agree.
  - intros row. apply sim_bind; [|intros; apply sim_refl; auto with pure].
    rewrite (st_mapM_cong (fun ob => order_key (eval (en false) _ _) ob _ row)
      (fun ob => order_key (eval (en true) (rs (en true)) []) ob (CtxRow []) row)).
    + apply sim_refl, st_pure_mapM. eapply Forall_impl; [exact Ho|]. intros ob Hob.
      apply (order_key_pure Q); [|done]. intros e ctx. apply ev_pure.
    + eapply Forall_impl; [exact Ho|]. intros ob Hob. apply (order_key_cong Q); [|done].
      intros e ctx. apply ev_agree.
Qed.

Lemma filter_where_run_sim x w ts :
  option_Forall Q w ->
  sim (filter_where rs (en true) x (compile <$> w) ts)
      (filter_where rs (en false) x (compile <$> w) ts).
Proof.
  intros [|e He]; simpl; [apply sim_refl; auto with pure|].
  rewrite (filter_where_cong false _
    (fun i => eval_compiled (en true) (rs (en true)) ts (compile e) (CtxRow i)) _
    (fun i => eval_compiled (pure_engine (en true)) (rs (pure_engine (en true))) ts
       (compile e) (CtxRow i))).
  - apply filter_where_sim; intros i; [by apply evc_pure|]. symmetry. by apply evc_agree.
  - intros i. by apply evc_agree.
  - intros i. done.
Qed.

Lemma core_rows_sim core select order_by ts :
  core_all Q named core -> Forall (fun sc => Q (sc_expr sc)) select ->
  Forall (fun ob => Q (ob_expr ob)) order_by ->
  sim (core_rows rs (en true) core select order_by ts)
      (core_rows rs (en false) core select order_by ts).
Proof.
  intros (Hc & Hf & Hj & Hw & Hg & Hh) Hs Ho. unfold core_rows. cbn [en_registry en_parallel en].
  change (can_fused (en false) core select ts) with (can_fused (en true) core select ts).
  change (has_agg (en false) core select) with (has_agg (en true) core select).
  pose proof (fun e ctx => ev_pure true ts e ctx) as Hpure.
  pose proof (fun e ctx => ev_agree false ts e ctx) as Hev.
  pose proof (fun e ctx => pev_agree true ts e ctx) as Hpev.
  assert (Hpp : forall e ctx, Q e ->
    meq (eval (pure_engine (en false)) (rs (pure_engine (en false))) ts e ctx)
        (eval (pure_engine (en true)) (rs (pure_engine (en true))) ts e ctx)) by done.
  case_match.
  { rewrite (exec_no_join_fused_cong Q _ _ _ _ Hev Hpp false _
      (eval_compiled (en true) (rs (en true)) ts <$> (compile <$> co_where core),
       eval_compiled (pure_engine (en true)) (rs (pure_engine (en true))) ts
         <$> (compile <$> co_where core))).
    - apply (exec_no_join_fused_sim Q); try done.
      destruct Hw; simpl; constructor. intros ctx. split; [by apply evc_pure|by apply evc_agree].
    - done.
    - done.
    - destruct Hw; simpl; constructor. intros ctx. by apply evc_agree.
    - destruct Hw; simpl; by constructor. }
  apply sim_bind.
  { rewrite (build_core_intersections_cong Q _ _ Hev).
    - apply sim_still. intros w. unfold build_core_intersections. case_match; [done|].
      apply nested_loop_join_still. eapply Forall_impl; [exact Hj|]. intros j [_ Hon].
      destruct Hon; constructor. intros. apply st_pure_state. by apply Hpure.
    - eapply Forall_impl; [exact Hj|]. by intros j [_ ?]. }
  intros x. apply sim_bind; [by apply filter_where_run_sim|]. intros y. case_match.
  - rewrite (exec_aggregate_cong Q _ _ _ _ Hev Hpp) by done.
    by apply (exec_aggregate_sim Q).
  - rewrite (exec_simple_cong Q _ _ _ _ Hev Hpp) by done. by apply (exec_simple_sim Q).
Qed.

Lemma finish_core_pure core columns r : st_pure (finish_core (W := W) core columns r).
Proof.
  destruct r as [[data keys] n]. unfold finish_core. apply st_pure_bind; [pure_cases|].
  intros [[d k] m]. auto with pure.
Qed.

Lemma run_core_sim core order_by :
  core_all Q named core -> Forall (fun ob => Q (ob_expr ob)) order_by ->
  sim (run_core rs (en true) core order_by) (run_core rs (en false) core order_by).
Proof.
  intros Hc Ho. unfold run_core. apply sim_bind; [by apply resolve_tables_sim|].
  intros ts. destruct ts as [|t ts]; [by apply run_no_from_sim|].
  destruct (expand_columns (co_columns core) _) as [expanded|e|] eqn:He; rewrite !st_bind_lift;
    [|apply sim_refl; auto with pure..].
  apply sim_bind; [|intros r; apply sim_refl, finish_core_pure]. apply core_rows_sim.
  - by apply bind_core_all.
  - apply bind_columns_all. eapply expand_columns_all; [exact He|apply Hc].
  - by apply bind_order_by_all.
Qed.

Lemma build_output_sort_keys_pure (ev : table_set -> expr -> row_ctx -> ST W cfml_error value)
    data n columns order_by :
  (forall ts e ctx, Q e -> st_pure (ev ts e ctx)) -> Forall (fun ob => Q (ob_expr ob)) order_by ->
  st_pure (build_output_sort_keys ev data n columns order_by).
Proof.
  intros Hev HQ. unfold build_output_sort_keys. case_match; [auto with pure|].
  case_match; [|auto with pure]. apply st_pure_foldM, Forall_true. intros i cs.
  apply st_pure_bind; [auto with pure|]. intros t. apply st_pure_bind; [|auto with pure].
  apply st_pure_mapM. eapply Forall_impl; [exact HQ|]. intros ob Hob.
  case_match; [auto with pure|]. apply st_pure_bind; [|auto with pure].
  apply (order_key_pure Q); [|done]. intros e ctx. apply Hev.
Qed.

Lemma run_statement_body_sim s :
  stmt_all Q named s ->
  sim (run_statement_body rs (en true) s) (run_statement_body rs (en false) s).
Proof.
  intros (Hb & Hu & Ho). unfold run_statement_body. destruct (ss_unions s) as [|u us].
  { apply sim_bind; [by apply run_core_sim|]. intros body. apply sim_refl. pure_cases. }
  apply sim_bind; [apply run_core_sim; [done|constructor]|]. intros body.
  apply sim_bind.
  { apply sim_foldM. eapply Forall_impl; [exact Hu|]. intros a Ha [data n].
    apply sim_bind; [apply run_core_sim; [done|constructor]|].
    intros arm. apply sim_refl. pure_cases. }
  intros acc. apply sim_bind; [apply sim_refl; pure_cases|]. intros acc'.
  apply sim_bind; [|intros keys; apply sim_refl; pure_cases].
  eapply sim_meq_r.
  - apply (build_output_sort_keys_cong Q _ (fun ts => eval (en true) (rs (en true)) ts)); [|done].
    intros ts e ctx. apply ev_agree.
  - apply sim_refl, build_output_sort_keys_pure; [|done]. intros ts e ctx. apply ev_pure.
Qed.
End RunSim.

Section PureStatement.
Context {U : Unicode} {W : Type} (en : engine W).
Abbreviation Q := (expr_all (fun _ => False) (call_pure en)).

Lemma opt_test_Forall {A} (f : A -> bool) (P : A -> Prop) o :
  (forall a, f a = true -> P a) -> opt_test f true o = true -> option_Forall P o.
Proof. intros H. destruct o; simpl; constructor. auto. Qed.

Lemma forallb_Forall {A} (f : A -> bool) (P : A -> Prop) l :
  (forall a, f a = true -> P a) -> forallb f l = true -> Forall P l.
Proof. intros H. induction l; simpl; [constructor|]. rewrite andb_true_iff. intros []. auto. Qed.

Lemma core_is_pure_all c : core_is_pure (en_registry en) c = true -> core_all Q named c.
Proof.
  unfold core_is_pure. rewrite !andb_true_iff. intros [[[[[Hf Hj] Hw] Hg] Hh] Hc].
  assert (He : forall e, expr_is_pure (en_registry en) e = true -> Q e)
    by apply expr_is_pure_all.
  repeat split.
  - eapply forallb_Forall; [|exact Hc]. simpl. auto.
  - eapply opt_test_Forall; [|exact Hf]. by intros [].
  - eapply forallb_Forall; [|exact Hj]. intros j. simpl. rewrite andb_true_iff. intros [Ht Hon].
    split; [by destruct (jn_table j)|]. eapply opt_test_Forall; [|exact Hon]. auto.
  - eapply opt_test_Forall; [|exact Hw]. auto.
  - eapply forallb_Forall; [|exact Hg]. auto.
  - eapply opt_test_Forall; [|exact Hh]. auto.
Qed.

Lemma select_is_pure_all s : select_is_pure (en_registry en) s = true -> stmt_all Q named s.
Proof.
  unfold select_is_pure. rewrite !andb_true_iff. intros [[Hb Hu] Ho].
  repeat split; try (by apply core_is_pure_all).
  - eapply forallb_Forall; [|exact Hu]. intros u. apply core_is_pure_all.
  - eapply forallb_Forall; [|exact Ho]. intros ob. apply expr_is_pure_all.
Qed.
End PureStatement.

(** C16. The parallel path is transparent: for a statement that the purity check
    admits, [execute] (which then fans row work out over threads, in chunks,
    above the row thresholds) leaves the world unchanged and returns exactly the
    result set that a purely sequential run returns, whatever the number of
    threads; if one of them fails, so does the other. *)
Theorem parallel_run_correct `{U : Unicode} `{D : DateLib} `{R : RegexCrate} `{L : Libm}
    `{P : Platform} {W} stmt sources params (reg : registry W) udf w :
  select_is_pure reg stmt = true ->
  let seq_run := run_statement (Engine sources params reg udf false) stmt in
  let run := execute stmt sources params reg udf in
  (run w).1 = w /\ (seq_run w).1 = w /\ forall q, (run w).2 = Ok q <-> (seq_run w).2 = Ok q.
Proof.
  intros Hp seq_run run. unfold run, seq_run, execute, run_statement. rewrite Hp. simpl.
  apply run_statement_body_sim.
  by apply (select_is_pure_all (Engine sources params reg udf true)).
Qed.
