(* ===== verification/QoqColumnsFacts.v ===== *)
(** * QoqColumnsFacts: DISTINCT, ORDER BY, LIMIT, names and transposes

    Each helper of [QoqColumns] against its specification: a result is a
    selection of the input's row numbers, applied to every column alike. *)

From stdpp Require Import base list numbers strings gmap.
From Stdlib Require Import Sorting.Permutation Sorting.Sorted.
From S2P Require Import Prelude Text Value QoqAst QoqCompare QoqTable QoqFunctions QoqOps QoqColumns.

(** The rows of a column with the given numbers, in that order. *)
Definition select_rows (idx : list nat) (col : list value) : list value :=
  omap (fun i => col !! i) idx.

(** Row [i] of column-major data. *)
Definition row_at (data : list (list value)) (i : nat) : list value :=
  omap (fun col : list value => col !! i) data.

Lemma omapM_index {E A} (data : list (list A)) n i :
  Forall (fun c => length c = n) data -> i < n ->
  omapM (fun col => @index_or_panic E A col i) data = Ok (omap (fun col : list A => col !! i) data).
Proof.
  intros H Hi. induction H as [|c data Hc _ IH]; simpl; [done|].
  unfold index_or_panic at 1. destruct (c !! i) eqn:Hci; [simpl; by rewrite IH|].
  apply lookup_ge_None in Hci. lia.
Qed.

Lemma select_rows_seq col n : length col = n -> select_rows (seq 0 n) col = col.
Proof.
  unfold select_rows. revert n. induction col as [|v col IH] using rev_ind; intros n Hn.
  - by destruct n.
  - rewrite length_app in Hn. simpl in Hn. replace n with (length col + 1) by lia.
    rewrite seq_app, omap_app. simpl. rewrite lookup_app_r, Nat.sub_diag by lia. simpl.
    f_equal. rewrite <- (IH (length col)) at 2 by done. clear. 
    assert (H : forall l, Forall (fun i => i < length col) l ->
      omap (fun i => (col ++ [v]) !! i) l = omap (fun i => col !! i) l).
    { induction 1 as [|i l Hi _ IHl]; simpl in *; [done|]. rewrite lookup_app_l by done.
      destruct (col !! i); [f_equal|]; exact IHl. }
    apply H, Forall_forall. intros i Hi%list_elem_of_In%in_seq. lia.
Qed.

Lemma select_rows_length idx col :
  Forall (fun i => i < length col) idx -> length (select_rows idx col) = length idx.
Proof.
  unfold select_rows. induction 1 as [|i idx Hi _ IH]; simpl; [done|].
  destruct (lookup_lt_is_Some_2 col i Hi) as [v ->]. simpl. f_equal. exact IH.
Qed.

(** ** LIMIT *)

(** LIMIT/OFFSET on a rectangular result keeps, in every column, the rows
    from the offset on, at most the count of them; it reports their number and
    never panics, for any [usize] offset and count. *)
Theorem apply_limit_correct {E} (data : list (list value)) n l :
  rectangular n data -> (0 <= lim_offset l)%Z -> (0 <= lim_count l)%Z -> (Z.of_nat n <= usize_max)%Z ->
  apply_limit_cols (E := E) data (Some l) n
  = Ok (map (fun col => take (Z.to_nat (lim_count l `min` Z.of_nat n))
                          (drop (Z.to_nat (lim_offset l `min` Z.of_nat n)) col)) data,
        Z.to_nat (0 `max` (lim_count l `min` (Z.of_nat n - lim_offset l)))).
Proof.
  intros Hr Ho Hc Hn. unfold apply_limit_cols, usize_sat_add.
  set (start := Z.to_nat (lim_offset l `min` Z.of_nat n)).
  set (end_ := Z.to_nat (((lim_offset l + lim_count l) `min` usize_max) `min` Z.of_nat n)).
  assert (Hse : start <= end_) by lia. assert (Hen : end_ <= n) by lia.
  rewrite (omapM_ok _ (fun col => take (Z.to_nat (lim_count l `min` Z.of_nat n)) (drop start col))).
  - simpl. do 2 f_equal. lia.
  - intros col Hcol. unfold rectangular in Hr. rewrite Forall_forall in Hr.
    specialize (Hr _ Hcol).
    assert (Ht : take (end_ - start) (drop start col)
                 = take (Z.to_nat (lim_count l `min` Z.of_nat n)) (drop start col)).
    { destruct (decide (end_ - start = Z.to_nat (lim_count l `min` Z.of_nat n))) as [->|Hne]; [done|].
      rewrite !take_ge; [done|rewrite length_drop; lia..]. }
    destruct (Nat.eqb_spec start 0) as [Hz|_].
    + rewrite <- Ht, Hz, drop_0, Nat.sub_0_r. done.
    + destruct (Nat.leb_spec start end_), (Nat.leb_spec end_ (length col)); try lia.
      simpl. by rewrite Ht.
Qed.

(** ** Rows to columns *)

Lemma flatten_rows_lookup rows cc r ci row :
  rows !! r = Some row -> ci < cc ->
  flatten_rows rows cc !! (r * cc + ci) = Some (cell_or_null row ci).
Proof.
  unfold flatten_rows. revert r. induction rows as [|row0 rows IH]; intros r Hr Hci; [done|].
  cbn [map concat].
  assert (Hlen : length (take cc (row0 ++ replicate (cc - length row0) VNull)) = cc).
  { rewrite length_take, length_app, length_replicate. lia. }
  destruct r as [|r]; simpl in Hr.
  - simplify_eq. change (0 * cc + ci) with ci. rewrite lookup_app_l by lia. rewrite lookup_take_lt by lia.
    unfold cell_or_null, or_null. destruct (decide (ci < length row)) as [H|H].
    + rewrite lookup_app_l by done. by destruct (lookup_lt_is_Some_2 row ci H) as [v ->].
    + rewrite lookup_app_r by lia. rewrite lookup_replicate_2 by lia.
      by rewrite (lookup_ge_None_2 row) by lia.
  - rewrite lookup_app_r by lia. rewrite Hlen.
    replace (S r * cc + ci - cc) with (r * cc + ci) by lia. by apply IH.
Qed.

(** The parallel transpose never reads outside the buffer. *)
Lemma rows_to_cols_parallel_ok {E} rows col_count :
  rows_to_cols_parallel (E := E) rows col_count = Ok (rows_to_cols_seq rows col_count).
Proof.
  unfold rows_to_cols_parallel, rows_to_cols_seq. apply omapM_ok.
  intros ci Hci%list_elem_of_In%in_seq.
  assert (Hg : forall k rs, rs = drop k rows ->
    omapM (fun r => @index_or_panic E _ (flatten_rows rows col_count) (r * col_count + ci))
      (seq k (length rs)) = Ok (map (fun row => cell_or_null row ci) rs)).
  { intros k rs. revert k. induction rs as [|row rs IH]; intros k Hk; simpl; [done|].
    assert (Hrow : rows !! k = Some row) by (by rewrite <- (Nat.add_0_r k), <- lookup_drop, <- Hk).
    unfold index_or_panic at 1. rewrite (flatten_rows_lookup _ _ _ _ _ Hrow) by lia. simpl.
    rewrite (IH (S k)); [done|]. rewrite (drop_S _ _ _ Hrow) in Hk. by simplify_eq. }
  apply (Hg 0 rows). by rewrite drop_0.
Qed.

Lemma rows_to_cols_ok {E} rows col_count :
  rows_to_cols (E := E) rows col_count = Ok (rows_to_cols_seq rows col_count).
Proof.
  unfold rows_to_cols. destruct (Nat.eqb_spec col_count 0) as [->|_]; [done|].
  destruct (Nat.eqb_spec (length rows) 0) as [Hr|_]; simpl.
  - destruct rows; [|done]. f_equal. unfold rows_to_cols_seq. simpl.
    generalize 0. induction col_count as [|n IH]; intros k; simpl; [done|]. f_equal. apply IH.
  - case_match; [apply rows_to_cols_parallel_ok|done].
Qed.

(** The parallel transpose (one flat buffer read by worker [ci] at
    [r * col_count + ci], cell by cell) reads inside the buffer only and gives
    the sequential transpose, for rows of any length, including short rows
    padded with NULL and long rows cut; so does the routine that chooses
    between the two by the number of rows. *)
Theorem rows_to_cols_correct {E} rows col_count :
  rows_to_cols_parallel (E := E) rows col_count = Ok (rows_to_cols_seq rows col_count)
  /\ rows_to_cols (E := E) rows col_count = Ok (rows_to_cols_seq rows col_count).
Proof. split; [apply rows_to_cols_parallel_ok|apply rows_to_cols_ok]. Qed.

(** ** DISTINCT *)

(** The positions whose key was not met before. *)
Fixpoint first_positions (i : nat) (seen : gset str) (keys : list str) : list nat :=
  match keys with
  | [] => []
  | k :: keys =>
      (if bool_decide (k ∉ seen) then [i] else [])
        ++ first_positions (S i) ({[k]} ∪ seen) keys
  end.

Lemma mask_first_positions seen keys i (pre col : list value) :
  length pre = i -> length col = length keys ->
  mask (first_seen seen keys) col = select_rows (first_positions i seen keys) (pre ++ col).
Proof.
  revert seen i pre col. induction keys as [|k keys IH]; intros seen i pre [|v col] Hi Hl;
    simpl in *; try lia; [done|].
  unfold select_rows in *. rewrite omap_app.
  rewrite (IH _ (S i) (pre ++ [v])); [|rewrite length_app; simpl; lia|lia].
  rewrite <- app_assoc. case_bool_decide; simpl; [|done].
  by rewrite lookup_app_r, Hi, Nat.sub_diag by lia.
Qed.

Lemma count_first_positions seen keys i :
  count_kept (first_seen seen keys) = length (first_positions i seen keys).
Proof.
  unfold count_kept. revert seen i. induction keys as [|k keys IH]; intros seen i; simpl; [done|].
  rewrite length_app. case_bool_decide; simpl; by rewrite (IH _ (S i)).
Qed.

Lemma first_seen_length seen keys : length (first_seen seen keys) = length keys.
Proof. revert seen. induction keys; intros; simpl; auto. Qed.

Lemma first_positions_spec i0 seen keys i :
  i ∈ first_positions i0 seen keys <->
  exists k, i0 <= i /\ keys !! (i - i0) = Some k /\ k ∉ seen
    /\ forall j, i0 <= j < i -> keys !! (j - i0) <> Some k.
Proof.
  revert i0 seen. induction keys as [|k keys IH]; intros i0 seen; simpl.
  { split; [by intros ?%not_elem_of_nil|]. by intros (k & _ & H & _). }
  rewrite elem_of_app, IH. split.
  - intros [Hi|(k' & Hle & Hk & Hns & Hj)].
    + case_bool_decide; [|by apply not_elem_of_nil in Hi]. apply list_elem_of_singleton in Hi as ->.
      exists k. rewrite Nat.sub_diag. split_and!; [lia|done|done|lia].
    + exists k'. rewrite not_elem_of_union, not_elem_of_singleton in Hns.
      split; [lia|]. replace (i - i0) with (S (i - S i0)) by lia. simpl.
      split; [done|]. split; [naive_solver|]. intros j Hj'.
      destruct (decide (j = i0)) as [->|]; [rewrite Nat.sub_diag; simpl; naive_solver|].
      replace (j - i0) with (S (j - S i0)) by lia. simpl. apply Hj. lia.
  - intros (k' & Hle & Hk & Hns & Hj).
    destruct (decide (i = i0)) as [->|Hne].
    + left. rewrite Nat.sub_diag in Hk. simpl in Hk. simplify_eq.
      rewrite bool_decide_eq_true_2 by done. left.
    + right. exists k'. split; [lia|].
      replace (i - i0) with (S (i - S i0)) in Hk by lia. split; [done|]. split.
      * rewrite not_elem_of_union, not_elem_of_singleton. split; [|done]. intros ->.
        apply (Hj i0); [lia|]. by rewrite Nat.sub_diag.
      * intros j Hj'. specialize (Hj j). replace (j - i0) with (S (j - S i0)) in Hj by lia.
        apply Hj. lia.
Qed.

Lemma first_positions_lt i0 seen keys :
  StronglySorted lt (first_positions i0 seen keys)
  /\ Forall (fun i => i0 <= i < i0 + length keys) (first_positions i0 seen keys).
Proof.
  revert i0 seen. induction keys as [|k keys IH]; intros i0 seen; simpl; [split; constructor|].
  destruct (IH (S i0) ({[k]} ∪ seen)) as [Hs Hb].
  assert (Hb' : Forall (fun i => i0 <= i < i0 + S (length keys))
    (first_positions (S i0) ({[k]} ∪ seen) keys)).
  { eapply Forall_impl; [exact Hb|]. simpl. lia. }
  case_bool_decide; simpl; [|done]. split; constructor; try done; try lia.
  apply List.Forall_forall. rewrite Forall_forall in Hb. intros x Hx%list_elem_of_In%Hb. lia.
Qed.

Section Distinct.
Context {U : Unicode} {D : DateLib} {E : Type}.

(** The group key of a row of a rectangular result. *)
Definition row_group (data : list (list value)) (i : nat) : str := group_key (row_at data i).

Lemma row_keys_ok data n :
  rectangular n data ->
  omapM (row_key (E := E) data) (seq 0 n) = Ok (map (row_group data) (seq 0 n)).
Proof.
  intros H. apply omapM_ok. intros i Hi%list_elem_of_In%in_seq.
  unfold row_key. rewrite (omapM_index data n) by (done || lia). done.
Qed.

Lemma dedup_keep_mask_ok data n :
  rectangular n data ->
  dedup_keep_mask (E := E) data n = Ok (first_seen ∅ (map (row_group data) (seq 0 n))).
Proof. intros H. unfold dedup_keep_mask. by rewrite row_keys_ok. Qed.

Lemma apply_keep_mask_ok data n keys :
  rectangular n data -> length keys = n ->
  apply_keep_mask (E := E) data (first_seen ∅ keys)
  = Ok (map (select_rows (first_positions 0 ∅ keys)) data,
        length (first_positions 0 ∅ keys)).
Proof.
  intros H Hk. unfold apply_keep_mask.
  rewrite (omapM_ok _ (select_rows (first_positions 0 ∅ keys))).
  - simpl. by rewrite (count_first_positions _ _ 0).
  - intros col Hc. unfold rectangular in H. rewrite Forall_forall in H. specialize (H _ Hc).
    rewrite first_seen_length. destruct (Nat.leb_spec (length col) (length keys)); [|lia].
    f_equal. rewrite (mask_first_positions _ _ 0 []) by (done || lia). done.
Qed.
End Distinct.

(** DISTINCT on a rectangular result keeps the first row of every group key
    and only it: the result is the selection, in the original order and in
    every column alike, of the row numbers whose key is not the key of an
    earlier row. *)
Theorem dedup_cols_correct `{U : Unicode} `{D : DateLib} {E} data n :
  rectangular n data ->
  exists kept, dedup_cols (E := E) data n = Ok (map (select_rows kept) data, length kept)
    /\ StronglySorted lt kept
    /\ forall i, i ∈ kept <->
         i < n /\ forall j, j < i -> row_group data j <> row_group data i.
Proof.
  intros H. set (keys := map (row_group data) (seq 0 n)).
  assert (Hlen : length keys = n) by (unfold keys; by rewrite length_map, length_seq).
  assert (Hlk : forall i, i < n -> keys !! i = Some (row_group data i)).
  { intros i Hi. unfold keys. rewrite list_lookup_fmap, lookup_seq_lt by done. done. }
  exists (first_positions 0 ∅ keys). unfold dedup_cols. rewrite dedup_keep_mask_ok by done. simpl.
  rewrite (apply_keep_mask_ok data n keys) by done.
  split; [done|]. split; [apply first_positions_lt|]. intros i. rewrite first_positions_spec.
  rewrite Nat.sub_0_r. split.
  - intros (k & _ & Hk & _ & Hj). assert (Hi : i < n) by (rewrite <- Hlen; by eapply lookup_lt_Some).
    split; [done|]. intros j Hji He. apply (Hj j); [lia|]. rewrite Nat.sub_0_r.
    rewrite Hlk in Hk by done. rewrite Hlk by lia. congruence.
  - intros [Hi Hj]. exists (row_group data i). split_and!; [lia|by apply Hlk|set_solver|].
    intros j [_ Hji]. rewrite Nat.sub_0_r, Hlk by lia. intros [= He]. by apply (Hj j).
Qed.

(** ** ORDER BY *)

(** The order a stable sort produces: smaller first, ties by position. *)
Definition before (cmp : nat -> nat -> comparison) (i j : nat) : Prop :=
  cmp i j = Lt \/ (cmp i j = Eq /\ i < j).

Section StableSort.
Context (cmp : nat -> nat -> comparison).

Lemma sort_insert_perm x l : Permutation (x :: l) (sort_insert cmp x l).
Proof.
  induction l as [|y l IH]; simpl; [done|]. destruct (is_le _); [done|].
  rewrite <- IH. apply Permutation_swap.
Qed.

Lemma stable_sort_perm l : Permutation l (stable_sort cmp l).
Proof.
  unfold stable_sort. induction l as [|x l IH]; simpl; [done|].
  rewrite <- sort_insert_perm. by constructor.
Qed.

Context (Hanti : forall i j, cmp j i = CompOpp (cmp i j)).
Context (Htrans : forall i j k, cmp i j <> Gt -> cmp j k <> Gt -> cmp i k <> Gt).

Lemma sort_insert_before x l :
  Forall (fun y => x < y) l -> StronglySorted (before cmp) l ->
  StronglySorted (before cmp) (sort_insert cmp x l).
Proof.
  intros Hx. induction 1 as [|y l Hs IH Hy]; simpl.
  { repeat constructor. }
  apply Forall_cons_1 in Hx as [Hxy Hx]. destruct (is_le (cmp x y)) eqn:Hle.
  - assert (Hle' : cmp x y <> Gt) by (by destruct (cmp x y)).
    constructor; [by constructor|]. constructor.
    + unfold before. destruct (cmp x y); [by right|by left|done].
    + apply List.Forall_forall. intros z Hz. rewrite List.Forall_forall in Hy.
      specialize (Hy z Hz). apply list_elem_of_In in Hz. rewrite Forall_forall in Hx.
      specialize (Hx z Hz). assert (cmp x z <> Gt).
      { eapply Htrans; [exact Hle'|]. destruct Hy as [->|[-> _]]; done. }
      unfold before. destruct (cmp x z); [by right|by left|done].
  - constructor; [by apply IH|]. apply List.Forall_forall. intros z Hz%list_elem_of_In.
    rewrite <- sort_insert_perm in Hz. rewrite List.Forall_forall in Hy.
    apply elem_of_cons in Hz as [->|Hz]; [|by apply Hy, list_elem_of_In].
    left. rewrite Hanti. by destruct (cmp x y).
Qed.

Lemma stable_sort_before s n :
  StronglySorted (before cmp) (stable_sort cmp (seq s n)).
Proof.
  unfold stable_sort. revert s. induction n as [|n IH]; intros s; simpl; [constructor|].
  apply sort_insert_before; [|apply IH]. apply Forall_forall. intros y Hy.
  rewrite <- (stable_sort_perm (seq (S s) n)) in Hy.
  apply list_elem_of_In, in_seq in Hy. lia.
Qed.

Lemma total_order_on_true l : total_order_on cmp l = true.
Proof.
  unfold total_order_on. apply andb_true_iff. split; apply forallb_forall; intros a _;
    apply forallb_forall; intros b _.
  - apply bool_decide_eq_true_2, Hanti.
  - apply forallb_forall. intros c _. apply implb_true_iff. rewrite andb_true_iff.
    intros [H1 H2]. specialize (Htrans a b c).
    destruct (cmp a b), (cmp b c), (cmp a c); simpl in *; try done; exfalso; by apply Htrans.
Qed.
End StableSort.

Lemma sort_by_perm `{Platform} {E} cmp l l' : sort_by (E := E) cmp l = Ok l' -> Permutation l l'.
Proof.
  unfold sort_by. case_match; [intros [= <-]; apply stable_sort_perm|].
  destruct (sort_unordered cmp l) eqn:Hs; [intros [= <-]|done]. by eapply sort_unordered_perm.
Qed.

(** Lexicographic comparison by two total preorders. *)
Lemma lex_trans {A} (c1 c2 : A -> A -> comparison) a b c :
  (forall x y, c1 y x = CompOpp (c1 x y)) ->
  (forall x y z, c1 x y <> Gt -> c1 y z <> Gt -> c1 x z <> Gt) ->
  (forall x y z, c2 x y <> Gt -> c2 y z <> Gt -> c2 x z <> Gt) ->
  match c1 a b with Eq => c2 a b | o => o end <> Gt ->
  match c1 b c with Eq => c2 b c | o => o end <> Gt ->
  match c1 a c with Eq => c2 a c | o => o end <> Gt.
Proof.
  intros Ha H1 H2 Hab Hbc.
  assert (Lab : c1 a b <> Gt) by (by destruct (c1 a b)).
  assert (Lbc : c1 b c <> Gt) by (by destruct (c1 b c)).
  pose proof (H1 _ _ _ Lab Lbc) as Lac. destruct (c1 a c) eqn:Eac; [|done|done].
  assert (Lca : c1 c a <> Gt) by (by rewrite Ha, Eac).
  pose proof (H1 _ _ _ Lbc Lca) as Lba. rewrite Ha in Lba.
  pose proof (H1 _ _ _ Lca Lab) as Lcb. rewrite Ha in Lcb.
  destruct (c1 a b), (c1 b c); try done. eauto.
Qed.

Section OrderBy.
Context {U : Unicode} {D : DateLib}.

(** Every sort key column holds values of one kind, and NULLs. *)
Definition keys_uniform (keys : list (list value)) : Prop :=
  Forall (fun col => exists k, Forall (fun v => has_kind k v = true) col) keys.

Lemma key_cell_kind keys c :
  keys_uniform keys -> exists k, forall i, has_kind k (key_cell keys c i) = true.
Proof.
  intros H. unfold key_cell. destruct (keys !! c) as [col|] eqn:Hc; simpl; [|by exists KInt].
  eapply Forall_lookup_1 in H; [|exact Hc]. destruct H as [k Hk]. exists k. intros i.
  destruct (col !! i) eqn:Hi; simpl; [|by destruct k].
  by eapply (Forall_lookup_1 _ _ _ _ Hk) in Hi.
Qed.

Lemma order_cmp_antisym keys c dirs i j :
  order_cmp keys c dirs j i = CompOpp (order_cmp keys c dirs i j).
Proof.
  revert c. induction dirs as [|dir dirs IH]; intros c; simpl; [done|].
  rewrite compare_total_antisym.
  destruct dir; destruct (compare_total _ _); simpl; auto.
Qed.

Lemma order_cmp_trans keys c dirs i j k :
  keys_uniform keys ->
  order_cmp keys c dirs i j <> Gt -> order_cmp keys c dirs j k <> Gt ->
  order_cmp keys c dirs i k <> Gt.
Proof.
  intros Hu. revert c i j k. induction dirs as [|dir dirs IH]; intros c i j k; [done|].
  destruct (key_cell_kind keys c Hu) as [kd Hkd]. cbn [order_cmp].
  apply (lex_trans (fun a b => match dir with
      | Desc => CompOpp (compare_total (key_cell keys c a) (key_cell keys c b))
      | Asc => compare_total (key_cell keys c a) (key_cell keys c b) end)
    (order_cmp keys (S c) dirs)); [| |apply IH].
  - intros x y. rewrite compare_total_antisym. by destruct dir.
  - intros x y z. destruct dir.
    + by apply (compare_total_kind_trans kd).
    + rewrite <- !compare_total_antisym. intros H1 H2.
      by apply (compare_total_kind_trans kd _ (key_cell keys c y)).
Qed.
End OrderBy.

Lemma take_cells_ok {E} (col : list value) taken idx :
  NoDup idx -> (forall i, i ∈ idx -> exists v, col !! i = Some v /\ taken !! i = Some (Some v)) ->
  take_cells (E := E) taken idx = Ok (select_rows idx col).
Proof.
  intros Hn. revert taken. induction Hn as [|i idx Hi _ IH]; intros taken H; simpl; [done|].
  destruct (H i) as (v & Hv & Ht); [left|]. rewrite Ht, Hv.
  rewrite IH; [done|]. intros j Hj. destruct (H j) as (w & Hw & Htw); [by right|].
  exists w. split; [done|]. rewrite list_lookup_insert_ne; [done|]. intros ->. done.
Qed.

Lemma sort_take_cells {E} data n idx :
  rectangular n data -> Permutation (seq 0 n) idx ->
  omapM (fun col => take_cells (E := E) (map Some col) idx) data
  = Ok (map (select_rows idx) data).
Proof.
  intros Hr Hp. apply omapM_ok. intros col Hc. unfold rectangular in Hr.
  rewrite Forall_forall in Hr. specialize (Hr _ Hc). apply take_cells_ok.
  - rewrite <- Hp. apply NoDup_ListNoDup, seq_NoDup.
  - intros i Hi. rewrite <- Hp in Hi. apply list_elem_of_In, in_seq in Hi.
    destruct (lookup_lt_is_Some_2 col i) as [v Hv]; [lia|]. exists v. split; [done|].
    by rewrite list_lookup_fmap, Hv.
Qed.

(** The order ORDER BY asks for, from its words: row [i] comes before row [j] when
    at the first sort key on which they differ, the key of [i] is smaller under
    ASC and larger under DESC; rows that differ in no key stay in their order. *)
Section RowOrder.
Context {U : Unicode} {D : DateLib} (keys : list (list value)).

Definition same_key (c i j : nat) : Prop := compare_total (key_cell keys c i) (key_cell keys c j) = Eq.
Definition first_in (dir : sort_direction) (c i j : nat) : Prop :=
  compare_total (key_cell keys c i) (key_cell keys c j)
  = match dir with Asc => Lt | Desc => Gt end.

Definition row_before (dirs : list sort_direction) (i j : nat) : Prop :=
  (exists c dir, dirs !! c = Some dir /\ (forall c', c' < c -> same_key c' i j) /\ first_in dir c i j)
  \/ ((forall c, c < length dirs -> same_key c i j) /\ i < j).

Lemma order_cmp_lt c dirs i j :
  order_cmp keys c dirs i j = Lt ->
  exists k dir, dirs !! k = Some dir /\ (forall k', k' < k -> same_key (c + k') i j)
    /\ first_in dir (c + k) i j.
Proof.
  revert c. induction dirs as [|dir dirs IH]; intros c; simpl; [done|].
  destruct (compare_total (key_cell keys c i) (key_cell keys c j)) eqn:Hc.
  - assert (Hd : match dir with Asc => Eq | Desc => CompOpp Eq end = Eq) by (by destruct dir).
    rewrite Hd. intros (k & dir' & Hk & Hs & Hf)%IH. exists (S k), dir'.
    split_and!; [done| |by rewrite Nat.add_succ_r].
    intros [|k'] Hk'; [by rewrite Nat.add_0_r|]. rewrite Nat.add_succ_r. apply (Hs k'). lia.
  - destruct dir; simpl; [|done]. intros _. exists 0, Asc.
    rewrite Nat.add_0_r. split_and!; [done|lia|exact Hc].
  - destruct dir; simpl; [done|]. intros _. exists 0, Desc.
    rewrite Nat.add_0_r. split_and!; [done|lia|exact Hc].
Qed.

Lemma order_cmp_eq c dirs i j :
  order_cmp keys c dirs i j = Eq -> forall k, k < length dirs -> same_key (c + k) i j.
Proof.
  revert c. induction dirs as [|dir dirs IH]; intros c; simpl; [lia|].
  destruct (compare_total (key_cell keys c i) (key_cell keys c j)) eqn:Hc;
    [|by destruct dir..].
  assert (Hd : match dir with Asc => Eq | Desc => CompOpp Eq end = Eq) by (by destruct dir).
  rewrite Hd. intros H [|k] Hk; [by rewrite Nat.add_0_r|].
  rewrite Nat.add_succ_r. apply (IH (S c) H). lia.
Qed.

Lemma before_row_before dirs i j : before (order_cmp keys 0 dirs) i j -> row_before dirs i j.
Proof.
  intros [H|[H Hij]].
  - left. apply (order_cmp_lt 0 dirs i j H).
  - right. split; [|done]. apply (order_cmp_eq 0 dirs i j H).
Qed.
End RowOrder.

(** ORDER BY on a rectangular result whose key columns hold values of one
    kind each (and NULLs) permutes the rows, in every column alike, into the
    order its words ask for: at the first key on which two rows differ the
    smaller comes first under ASC and the larger under DESC, and rows with equal
    keys keep their order.  The permutation is applied without panicking. *)
Theorem sort_cols_correct `{U : Unicode} `{D : DateLib} `{P : Platform} {E} data keys order_by n :
  rectangular n data -> keys_uniform keys -> order_by <> [] ->
  exists idx, sort_cols (E := E) data keys order_by n = Ok (map (select_rows idx) data)
    /\ Permutation (seq 0 n) idx
    /\ StronglySorted (row_before keys (map ob_direction order_by)) idx.
Proof.
  intros Hr Hu Ho. set (cmp := order_cmp keys 0 (map ob_direction order_by)).
  assert (Ha : forall i j, cmp j i = CompOpp (cmp i j)) by (intros; apply order_cmp_antisym).
  assert (Ht : forall i j k, cmp i j <> Gt -> cmp j k <> Gt -> cmp i k <> Gt)
    by (intros; by eapply order_cmp_trans).
  unfold sort_cols. destruct order_by as [|ob obs]; [done|]. simpl orb.
  destruct (Nat.ltb_spec n 2).
  - exists (seq 0 n). split_and!; [|done|].
    + f_equal. symmetry. transitivity (map id data); [|apply map_id].
      apply map_ext_in. intros col Hc%list_elem_of_In. unfold rectangular in Hr.
      rewrite Forall_forall in Hr. by apply select_rows_seq, Hr.
    + destruct n as [|[|]]; [constructor|repeat constructor|lia].
  - exists (stable_sort cmp (seq 0 n)). split_and!.
    + unfold sort_by. fold cmp. rewrite (total_order_on_true cmp Ha Ht). simpl.
      apply (sort_take_cells data n); [done|apply stable_sort_perm].
    + apply stable_sort_perm.
    + assert (Hs := stable_sort_before cmp Ha Ht 0 n).
      induction Hs as [|x l Hl IH Hx]; constructor; [done|].
      eapply Forall_impl; [exact Hx|]. intros y. apply before_row_before.
Qed.

(** Whatever the keys, a sort that returns has permuted the rows. *)
Lemma sort_cols_perm `{U : Unicode} `{D : DateLib} `{P : Platform} {E} data keys order_by n data' :
  rectangular n data -> sort_cols (E := E) data keys order_by n = Ok data' ->
  exists idx, Permutation (seq 0 n) idx /\ data' = map (select_rows idx) data.
Proof.
  intros Hr. unfold sort_cols. case_match.
  - intros [= <-]. exists (seq 0 n). split; [done|]. symmetry.
    transitivity (map id data); [|apply map_id]. apply map_ext_in.
    intros col Hc%list_elem_of_In. unfold rectangular in Hr. rewrite Forall_forall in Hr.
    by apply select_rows_seq, Hr.
  - intros Hs. ok_inv Hs. apply sort_by_perm in Heqo. exists a. split; [done|].
    rewrite (sort_take_cells data n) in Hs by done. by simplify_eq.
Qed.

(** ** Output column names *)

Section Names.
Context {U : Unicode}.

(** The lower-case form of a prefix has a length that does not depend on what
    follows. *)
Fixpoint lower_width (s : str) : nat :=
  match s with
  | [] => 0
  | c :: s => (if (c =? 931)%N then 1 else length (uc_lower c)) + lower_width s
  end.

Lemma lower_go_app b p r :
  exists q, length q = lower_width p /\ lower_go b (p ++ r) = q ++ lower_go (rev p ++ b) r.
Proof.
  revert b. induction p as [|c p IH]; intros b; simpl; [by exists []|].
  destruct (IH (c :: b)) as (q & Hq & ->).
  exists ((if (c =? 931)%N then [map_uppercase_sigma b (p ++ r)] else uc_lower c) ++ q). split.
  - rewrite length_app, Hq. by case_match.
  - by rewrite <- !app_assoc.
Qed.

Lemma suffix_ascii n : str_is_ascii (lit "_" ++ Z_to_str (Z.of_nat n)) = true.
Proof.
  unfold str_is_ascii. simpl. apply forallb_forall. intros c Hc%list_elem_of_In.
  pose proof (Z_to_str_chars (Z.of_nat n)) as H. rewrite Forall_forall in H.
  apply H in Hc. unfold is_ascii. apply N.ltb_lt. unfold number_char in Hc. lia.
Qed.

Lemma suffix_lower n :
  map ascii_lower (lit "_" ++ Z_to_str (Z.of_nat n)) = lit "_" ++ Z_to_str (Z.of_nat n).
Proof.
  simpl. f_equal. pose proof (Z_to_str_chars (Z.of_nat n)) as H.
  induction H as [|c s Hc _ IH]; simpl; [done|]. f_equal; [|done].
  unfold ascii_lower, number_char in *. destruct (N.leb_spec 65 c); simpl; [|done].
  destruct (N.leb_spec c 90); lia.
Qed.

(** Lower-case forms of the candidates are pairwise different. *)
Definition candidate (base : str) (n : nat) : str :=
  if n =? 1 then base else suffixed base n.

Lemma candidate_lower base n :
  exists q, length q = lower_width base /\
    to_lowercase (candidate base n) = q ++ (if n =? 1 then [] else lit "_" ++ Z_to_str (Z.of_nat n)).
Proof.
  unfold candidate, to_lowercase. destruct (n =? 1).
  - destruct (lower_go_app [] base []) as (q & Hq & He). rewrite app_nil_r in He.
    rewrite He. by exists q.
  - unfold suffixed. destruct (lower_go_app [] base (lit "_" ++ Z_to_str (Z.of_nat n)))
      as (q & Hq & ->). exists q. split; [done|]. f_equal.
    rewrite lower_go_ascii by apply suffix_ascii. apply suffix_lower.
Qed.

Lemma candidate_inj base n m :
  to_lowercase (candidate base n) = to_lowercase (candidate base m) -> n = m.
Proof.
  destruct (candidate_lower base n) as (q1 & H1 & ->), (candidate_lower base m) as (q2 & H2 & ->).
  intros [_ He]%app_inj_1; [|congruence].
  destruct (Nat.eqb_spec n 1), (Nat.eqb_spec m 1); try done; [congruence|].
  simpl in He. injection He as He. apply Z_to_str_inj in He. lia.
Qed.

(** The loop leaves with the first candidate that is free. *)
Lemma unique_name_spec fuel n base seen :
  1 <= n ->
  (exists m, n <= m < n + fuel /\ unique_name fuel n base (candidate base n) seen = candidate base m
     /\ to_lowercase (candidate base m) ∉ seen
     /\ forall k, n <= k < m -> to_lowercase (candidate base k) ∈ seen)
  \/ (forall k, n <= k < n + fuel -> to_lowercase (candidate base k) ∈ seen).
Proof.
  revert n. induction fuel as [|fuel IH]; intros n Hn; simpl; [right; lia|].
  case_bool_decide as Hin.
  - assert (Hc : suffixed base (n + 1) = candidate base (n + 1)).
    { unfold candidate. destruct (Nat.eqb_spec (n + 1) 1); [lia|done]. }
    rewrite Hc. destruct (IH (n + 1)) as [(m & Hm & He & Hns & Hk)|Hall]; [lia| |].
    + left. exists m. split; [lia|]. split; [done|]. split; [done|]. intros k Hk'.
      destruct (decide (k = n)) as [->|]; [done|]. apply Hk. lia.
    + right. intros k Hk. destruct (decide (k = n)) as [->|]; [done|]. apply Hall. lia.
  - left. exists n. split_and!; [lia|lia|done|done|lia].
Qed.

Lemma candidates_exceed (base : str) (seen : gset str) :
  ~ (forall k, 1 <= k < 1 + S (size seen) -> to_lowercase (candidate base k) ∈ seen).
Proof.
  intros H. set (l := map (fun k => to_lowercase (candidate base k)) (seq 1 (S (size seen)))).
  assert (Hn : NoDup l).
  { apply NoDup_fmap_2_strong; [|apply NoDup_ListNoDup, seq_NoDup].
    intros x y _ _. apply candidate_inj. }
  assert (Hsub : (list_to_set l : gset str) ⊆ seen).
  { intros x Hx%elem_of_list_to_set. unfold l in Hx.
    apply list_elem_of_In, in_map_iff in Hx as (k & <- & Hk%in_seq). apply H. lia. }
  apply subseteq_size in Hsub. rewrite size_list_to_set in Hsub by done.
  unfold l in Hsub. rewrite length_map, length_seq in Hsub. lia.
Qed.

Lemma unique_name_fresh (base : str) (seen : gset str) :
  exists m, unique_name (S (size seen)) 1 base base seen = candidate base m
    /\ to_lowercase (candidate base m) ∉ seen
    /\ forall k, 1 <= k < m -> to_lowercase (candidate base k) ∈ seen.
Proof.
  destruct (unique_name_spec (S (size seen)) 1 base seen) as [(m & _ & He & Hns & Hk)|Hall]; [lia| |].
  - by exists m.
  - by apply candidates_exceed in Hall.
Qed.

Lemma derive_names_spec i seen cols :
  length (derive_names i seen cols) = length cols
  /\ NoDup (map to_lowercase (derive_names i seen cols))
  /\ Forall (fun n => to_lowercase n ∉ seen) (derive_names i seen cols)
  /\ forall j sc name, cols !! j = Some sc -> derive_names i seen cols !! j = Some name ->
       exists m, name = candidate (base_name (i + j) sc) m.
Proof.
  revert i seen. induction cols as [|sc cols IH]; intros i seen; [repeat constructor; done|].
  cbn [derive_names]. set (name := unique_name (S (size seen)) 1 (base_name i sc) (base_name i sc) seen).
  destruct (unique_name_fresh (base_name i sc) seen) as (m & Hm & Hns & _). fold name in Hm.
  destruct (IH (S i) ({[to_lowercase name]} ∪ seen)) as (Hl & Hn & Hf & Hc).
  assert (Hf1 : Forall (fun n => to_lowercase n ∉ seen /\ to_lowercase n <> to_lowercase name)
    (derive_names (S i) ({[to_lowercase name]} ∪ seen) cols)).
  { eapply Forall_impl; [exact Hf|]. set_solver. }
  split_and!.
  - cbn [length]. f_equal. exact Hl.
  - cbn [map]. constructor; [|exact Hn]. intros Hin. apply list_elem_of_In, in_map_iff in Hin as (x & Hx & Hin).
    rewrite Forall_forall in Hf1. apply list_elem_of_In in Hin. by apply Hf1 in Hin as [_ ?].
  - constructor; [by rewrite Hm|]. eapply Forall_impl; [exact Hf1|]. naive_solver.
  - intros [|j] sc' name' H1 H2; simpl in *; simplify_eq.
    + exists m. by rewrite Nat.add_0_r.
    + destruct (Hc _ _ _ H1 H2) as [m' ->]. exists m'. f_equal. f_equal. lia.
Qed.
End Names.

(** The output column names are one per column and pairwise different up
    to (Unicode) case, and each is its column's own name or that name with a
    numeric suffix; the search for a free name always ends. *)
Theorem derive_column_names_correct `{U : Unicode} cols :
  length (derive_column_names cols) = length cols
  /\ NoDup (map to_lowercase (derive_column_names cols))
  /\ forall i sc name, cols !! i = Some sc -> derive_column_names cols !! i = Some name ->
       name = base_name i sc \/ exists n, name = suffixed (base_name i sc) n.
Proof.
  destruct (derive_names_spec 0 ∅ cols) as (Hl & Hn & _ & Hc).
  split; [done|]. split; [done|]. intros i sc name Hi Hname.
  destruct (Hc _ _ _ Hi Hname) as [m ->]. simpl. unfold candidate.
  case_match; [by left|right; eauto].
Qed.
