(* ===== verification/QoqResults.v ===== *)
(** * QoqResults: what a run returns

    Postconditions of the stages and the invariant of the whole engine: a
    statement that returns, returns a rectangular query with one data vector per
    column name and names that differ up to case.  GROUP BY partitions the rows
    by group key. *)

From stdpp Require Import base list numbers strings gmap.
From Stdlib Require Import Sorting.Permutation.
From S2P Require Import Prelude Text Float64 Value QoqLike QoqAst QoqCompare QoqTable QoqJoin QoqFunctions QoqOps QoqEval QoqCompiled QoqColumns QoqExec QoqEvalFacts QoqRunFacts QoqParallel QoqColumnsFacts.
#[local] Open Scope st_scope.

(** ** Postconditions *)

Definition st_post {S E A} (m : ST S E A) (Phi : A -> Prop) : Prop :=
  forall s s' a, m s = (s', Ok a) -> Phi a.

Section Post.
Context {S E : Type}.

#[global] Instance st_post_proper {A} : Proper (meq ==> eq ==> iff) (@st_post S E A).
Proof. 
  intros m1 m2 H Phi ? <-.
  split; intros Hp s s' a Ha; apply (Hp s s' a); by rewrite ?H || rewrite <- ?H.
Qed.

Lemma post_ret {A} (a : A) (Phi : A -> Prop) : Phi a -> st_post (S := S) (E := E) (st_ret a) Phi.
Proof. intros H s s' a' [= <- <-]. done. Qed.

Lemma post_err {A} e (Phi : A -> Prop) : st_post (S := S) (E := E) (st_err e) Phi.
Proof. by intros s s' a. Qed.

Lemma post_panic {A} (Phi : A -> Prop) : st_post (S := S) (E := E) st_panic Phi.
Proof. by intros s s' a. Qed.

Lemma post_lift {A} (o : outcome E A) (Phi : A -> Prop) :
  (forall a, o = Ok a -> Phi a) -> st_post (S := S) (st_lift o) Phi.
Proof. intros H s s' a [= _ ->]. by apply H. Qed.

Lemma post_bind {A B} (m : ST S E A) (k : A -> ST S E B) (Psi : A -> Prop) (Phi : B -> Prop) :
  st_post m Psi -> (forall a, Psi a -> st_post (k a) Phi) -> st_post (st_bind m k) Phi.
Proof.
  intros Hm Hk s s' b. unfold st_bind. destruct (m s) as [s1 [a|e|]] eqn:Hms; [|done..].
  apply Hk. by eapply Hm.
Qed.

Lemma post_any {A} (m : ST S E A) : st_post m (fun _ => True).
Proof. done. Qed.

Lemma post_mapM {A B} (f : A -> ST S E B) l (Psi : B -> Prop) :
  (forall x, st_post (f x) Psi) ->
  st_post (st_mapM f l) (fun ys => length ys = length l /\ Forall Psi ys).
Proof.
  intros Hf. induction l as [|x l IH]; simpl; [by apply post_ret|].
  eapply post_bind; [apply Hf|]. intros y Hy. eapply post_bind; [apply IH|].
  intros ys [Hl Hys]. apply post_ret. simpl. split; [by f_equal|by constructor].
Qed.

Lemma post_foldM {A B} (f : B -> A -> ST S E B) acc l (I : B -> Prop) :
  I acc -> (forall b x, I b -> st_post (f b x) I) -> st_post (st_foldM f acc l) I.
Proof.
  intros Hi Hf. revert acc Hi. induction l as [|x l IH]; intros acc Hi; simpl.
  - by apply post_ret.
  - eapply post_bind; [by apply Hf|]. auto.
Qed.

Lemma post_par_mapM `{Platform} {A B} (f : A -> ST S E B) l (Psi : B -> Prop) :
  (forall x, st_post (f x) Psi) ->
  st_post (par_mapM f l) (fun ys => length ys = length l /\ Forall Psi ys).
Proof.
  intros Hf s s' ys Hs. unfold par_mapM in Hs. injection Hs as _ Hs.
  apply par_collect_same, omapM_Ok_iff in Hs.
  apply Forall2_fmap_l in Hs. split; [symmetry; by eapply Forall2_length|].
  induction Hs as [|x y l ys Hx _ IH]; constructor; [|done].
  unfold id in Hx. simpl in Hx. destruct (f x s) as [s1 o] eqn:Hfx. simpl in Hx. subst o.
  by eapply Hf.
Qed.

Lemma post_impl {A} (m : ST S E A) (Phi Psi : A -> Prop) :
  (forall a, Phi a -> Psi a) -> st_post m Phi -> st_post m Psi.
Proof. intros H Hm s s' a Ha. apply H. by eapply Hm. Qed.
End Post.

(** ** Rectangular stages *)

(** [n] columns of [rows] cells. *)
Definition rect (n rows : nat) (data : list (list value)) : Prop :=
  length data = n /\ rectangular rows data.

Lemma rect_empty n : rect n 0 (empty_cols n).
Proof.
  unfold rect, empty_cols. rewrite length_replicate. split; [done|].
  unfold rectangular. by apply Forall_replicate.
Qed.

Lemma rect_push n rows data row :
  rect n rows data -> length row = n -> rect n (rows + 1) (push_cells data row).
Proof.
  intros [Hl Hr] Hrow. split; [rewrite push_cells_length; lia|].
  unfold rectangular, push_cells in *. subst n. revert row Hrow.
  induction Hr as [|c data Hc _ IH]; intros [|v row] Hrow; simpl in *; constructor; try lia.
  - rewrite length_app. simpl. lia.
  - apply IH. lia.
Qed.

Lemma rect_extend n r1 r2 d1 d2 :
  rect n r1 d1 -> rect n r2 d2 -> rect n (r1 + r2) (extend_cols d1 d2).
Proof.
  intros [Hl1 H1] [Hl2 H2]. unfold extend_cols. split; [rewrite length_zip_with; lia|].
  unfold rectangular in *. subst n. revert d2 Hl2 H2.
  induction H1 as [|c d1 Hc _ IH]; intros [|c2 d2] Hl H2; simpl in *; constructor; try lia.
  - rewrite length_app. apply Forall_cons_1 in H2 as [H2 _]. lia.
  - apply Forall_cons_1 in H2 as [_ H2]. apply IH; [lia|done].
Qed.

Lemma rect_cols_of n rows :
  Forall (fun r => length r = n) rows -> rect n (length rows) (cols_of n rows).
Proof.
  unfold cols_of. intros H.
  assert (Hg : forall k d, rect n k d -> rect n (k + length rows) (fold_left push_cells rows d)).
  { induction H as [|r rows Hr _ IH]; intros k d Hd; simpl; [by rewrite Nat.add_0_r|].
    replace (k + S (length rows)) with (k + 1 + length rows) by lia. apply IH. by apply rect_push. }
  apply (Hg 0), rect_empty.
Qed.

Lemma rect_singletons (row : list value) : rect (length row) 1 (map (fun v => [v]) row).
Proof.
  split; [apply length_map|]. unfold rectangular. rewrite Forall_fmap. by apply Forall_true.
Qed.

Lemma rect_select n rows data idx :
  rect n rows data -> Forall (fun i => i < rows) idx ->
  rect n (length idx) (map (select_rows idx) data).
Proof.
  intros [Hl Hr] Hi. split; [by rewrite length_map|]. unfold rectangular in *.
  rewrite Forall_fmap. eapply Forall_impl; [exact Hr|]. intros c Hc. simpl.
  rewrite select_rows_length; [done|]. by rewrite Hc.
Qed.

Lemma rect_truncate n rows data k :
  rect n rows data -> k <= rows -> rect n k (truncate_cols data k).
Proof.
  intros [Hl Hr] Hk. split; [unfold truncate_cols; by rewrite length_map|].
  unfold rectangular, truncate_cols in *. rewrite Forall_fmap. eapply Forall_impl; [exact Hr|].
  intros c Hc. simpl in *. rewrite length_take. lia.
Qed.

Section StagePost.
Context {U : Unicode} {D : DateLib} {P : Platform} {W : Type}.
Abbreviation M := (ST W cfml_error).

Lemma in_iter_length x : length (in_iter x) = in_len x.
Proof.
  unfold in_iter, in_len. destruct (Nat.eqb_spec (in_width x) 0); [done|].
  apply chunks_exact_length. lia.
Qed.

Lemma chunk_sizes n x :
  sum_list (map (fun c => length (in_iter c)) (par_chunks_rows n x)) = in_len x.
Proof.
  rewrite <- in_iter_length, <- (par_chunks_iter n x).
  induction (par_chunks_rows n x); simpl; [done|]. rewrite length_app. lia.
Qed.

Definition out_rect (nc nk : nat) (r : list (list value) * list (list value) * nat) : Prop :=
  rect nc r.2 r.1.1 /\ rect nk r.2 r.1.2.

Lemma project_rows_post (ev : expr -> row_ctx -> M value) select order_by rows :
  st_post (project_rows ev select order_by rows)
    (fun r => rect (length select) (length rows) r.1 /\ rect (length order_by) (length rows) r.2).
Proof.
  rewrite project_rows_mapM. apply (post_bind _ _
    (fun rs => length rs = length rows /\ Forall (fun rk => length rk.1 = length select
                 /\ length rk.2 = length order_by) rs)).
  - apply post_mapM. intros i. eapply post_bind; [apply (post_mapM _ _ (fun _ => True)); done|].
    intros row [Hrow _]. eapply post_bind; [apply (post_mapM _ _ (fun _ => True)); done|].
    intros key [Hkey _]. by apply post_ret.
  - intros rs [Hl Hrs]. apply post_ret. simpl. rewrite <- Hl.
    rewrite <- (length_map fst rs) at 1. rewrite <- (length_map snd rs).
    split; apply rect_cols_of; rewrite Forall_fmap; (eapply Forall_impl; [exact Hrs|]);
      simpl; naive_solver.
Qed.

Lemma exec_simple_post par (ev pev : expr -> row_ctx -> M value) select x order_by :
  st_post (exec_simple par ev pev select x order_by)
    (out_rect (length select) (length order_by)).
Proof.
  unfold exec_simple. case_match.
  - (* the chunks' columns, concatenated *)
    apply (post_bind _ _ (fun parts =>
      exists sizes, sum_list sizes = in_len x /\ Forall2 (fun n p =>
        rect (length select) n p.1 /\ rect (length order_by) n p.2) sizes parts)).
    + intros s1 s2 parts Hp. unfold par_mapM in Hp. injection Hp as _ Hp.
      apply par_collect_same, omapM_Ok_iff, Forall2_fmap_l in Hp.
      exists (map (fun c => length (in_iter c)) (par_chunks_rows (chunk_rows (in_len x)) x)).
      split.
      * apply chunk_sizes.
      * apply Forall2_fmap_l. eapply Forall2_impl; [exact Hp|]. simpl. intros c p Hc.
        unfold id in Hc. destruct (project_rows pev select order_by (in_iter c) s1) as [s3 o] eqn:He.
        simpl in Hc. subst o. by eapply project_rows_post.
    + intros parts (sizes & Hsum & Hf).
      assert (Hg : forall n0 d k, rect (length select) n0 d -> rect (length order_by) n0 k ->
        let dk := fold_left (fun '(data, keys) '(cd, ck) =>
          (extend_cols data cd, extend_cols keys ck)) parts (d, k) in
        rect (length select) (n0 + sum_list sizes) dk.1
        /\ rect (length order_by) (n0 + sum_list sizes) dk.2).
      { clear Hsum. induction Hf as [|n [cd ck] sizes parts [H1 H2] _ IH]; intros n0 d k Hd Hk; simpl.
        - by rewrite Nat.add_0_r.
        - rewrite Nat.add_assoc. apply IH; by apply rect_extend. }
      specialize (Hg 0 _ _ (rect_empty _) (rect_empty _)). rewrite Hsum in Hg. simpl in Hg.
      destruct (fold_left _ _ _) as [d k]. by apply post_ret.
  - eapply post_bind; [apply project_rows_post|]. intros [d k] H1. apply post_ret.
    rewrite <- in_iter_length. exact H1.
Qed.

(** Slots: the open ones are as many as the columns to fill in. *)
Definition slot_ok (n : nat) (s : option (list value)) : Prop :=
  match s with Some c => length c = n | None => True end.

Definition open_slots (slots : list (option (list value))) : nat :=
  length (List.filter (fun s => match s with None => true | Some _ => false end) slots).

Lemma fill_slots_rect n slots built :
  Forall (slot_ok n) slots -> rect (open_slots slots) n built ->
  rect (length slots) n (fill_slots slots built).
Proof.
  intros Hs. revert built. induction Hs as [|[c|] slots Hc _ IH]; intros built Hb; simpl.
  - by split; [|constructor].
  - destruct (IH built Hb) as [Hl Hr]. split; [simpl; by f_equal|by constructor].
  - destruct Hb as [Hl Hr]. unfold open_slots in *. simpl in Hl.
    destruct built as [|b built]; [done|]. simpl in *. apply Forall_cons_1 in Hr as [Hb Hr].
    destruct (IH built) as [Hl' Hr']; [split; [lia|done]|].
    split; [simpl; by f_equal|by constructor].
Qed.

Lemma passthrough_slots tables survivors exprs slots :
  omapM (passthrough tables survivors) exprs = Ok slots ->
  length slots = length exprs /\ Forall (slot_ok (length survivors)) slots
  /\ open_slots slots = length (List.filter (fun e => negb (is_resolved e)) exprs).
Proof.
  intros H%omapM_Ok_iff. induction H as [|e s exprs slots He _ (IH1 & IH2 & IH3)]; [done|].
  assert (Hs : slot_ok (length survivors) s /\
    match s with Some _ => is_resolved e = true | None => is_resolved e = false end).
  { unfold passthrough in He. destruct e; try (by simplify_eq).
    ok_inv He. simplify_eq. simpl. by rewrite length_map. }
  destruct Hs as [Hs1 Hs2]. split_and!; [simpl; by f_equal|by constructor|].
  unfold open_slots in *. destruct s; simpl; rewrite Hs2; simpl; by rewrite IH3.
Qed.

Lemma cells_post (ev : expr -> row_ctx -> M value) es survivors :
  st_post (st_mapM (fun e => st_mapM (fun r => ev e (CtxRow [r])) survivors) es)
    (rect (length es) (length survivors)).
Proof.
  eapply post_impl; [|apply (post_mapM _ _ (fun c => length c = length survivors))].
  - by intros cols [Hl Hr].
  - intros e. eapply post_impl; [|apply (post_mapM _ _ (fun _ => True)); done]. by intros c [Hl _].
Qed.

Lemma chunks_total {A} k (l : list A) :
  0 < k -> sum_list (map length (chunks k l)) = length l.
Proof.
  intros Hk. rewrite <- (chunks_concat k l Hk) at 2. generalize (chunks k l). intros cs.
  induction cs as [|c cs IH]; simpl; [done|]. rewrite length_app. by rewrite IH.
Qed.

Lemma row_cells_post (ev : expr -> row_ctx -> M value) es chunk :
  st_post (st_foldM (fun cs r => let! row := st_mapM (fun e => ev e (CtxRow [r])) es in
                                 st_ret (push_cells cs row)) (empty_cols (length es)) chunk)
    (rect (length es) (length chunk)).
Proof.
  rewrite st_foldM_mapM. eapply (post_bind _ _ (fun rows => length rows = length chunk
    /\ Forall (fun r => length r = length es) rows)).
  - apply post_mapM. intros r. eapply post_impl; [|apply (post_mapM _ _ (fun _ => True)); done].
    by intros c [Hl _].
  - intros rows [Hl Hr]. apply post_ret. rewrite <- Hl. by apply rect_cols_of.
Qed.

Lemma fold_extend_rect n sizes parts k d :
  Forall2 (fun m p => rect n m p) sizes parts -> rect n k d ->
  rect n (k + sum_list sizes) (fold_left extend_cols parts d).
Proof.
  intros Hf. revert k d. induction Hf as [|m p sizes parts Hp _ IH]; intros k d Hd; simpl.
  - by rewrite Nat.add_0_r.
  - rewrite Nat.add_assoc. by apply IH, rect_extend.
Qed.

Lemma build_cols_post par (ev pev : expr -> row_ctx -> M value) tables survivors exprs :
  st_post (build_cols_for_exprs par ev pev tables survivors exprs)
    (rect (length exprs) (length survivors)).
Proof.
  unfold build_cols_for_exprs. eapply post_bind; [apply post_lift; intros slots Hs; exact Hs|].
  intros slots (Hl & Hs & Ho)%passthrough_slots. cbn beta. rewrite <- Hl.
  apply (post_bind _ _ (rect (open_slots slots) (length survivors))).
  2:{ intros built Hb. apply post_ret. by apply fill_slots_rect. }
  rewrite Ho. destruct (List.filter _ exprs) as [|e0 needs].
  { apply post_ret. by split; [|constructor]. }
  remember (e0 :: needs) as es. case_match; [|apply cells_post].
  apply (post_bind _ _ (fun parts => exists sizes, sum_list sizes = length survivors
    /\ Forall2 (fun m p => rect (length es) m p) sizes parts)).
  - intros s1 s2 parts Hp. unfold par_mapM in Hp. injection Hp as _ Hp.
    apply par_collect_same, omapM_Ok_iff, Forall2_fmap_l in Hp.
    exists (map (@length nat) (chunks (chunk_rows (length survivors)) survivors)). split.
    + apply chunks_total. unfold chunk_rows. lia.
    + apply Forall2_fmap_l. eapply Forall2_impl; [exact Hp|]. cbn beta. intros c p Hc.
      unfold id in Hc.
      simpl in Hc |- *.
      match type of Hc with (?m s1).2 = _ => destruct (m s1) as [s3 o] eqn:He end.
      simpl in Hc. subst o. by eapply row_cells_post.
  - intros parts (sizes & <- & Hf). apply post_ret.
    apply (fold_extend_rect _ _ _ 0); [done|apply rect_empty].
Qed.

Lemma fused_post par (ev pev : expr -> row_ctx -> M value) w tables select order_by :
  st_post (exec_no_join_fused par ev pev w tables select order_by)
    (out_rect (length select) (length order_by)).
Proof.
  unfold exec_no_join_fused. eapply post_bind; [apply post_any|]. intros t0 _.
  eapply post_bind; [apply post_any|]. intros survivors _.
  eapply post_bind; [apply build_cols_post|]. intros data Hd. rewrite length_map in Hd.
  set (n := length survivors) in *.
  set (slots := map (fun ob => alias_column data n <$> int_alias ob) order_by).
  assert (Hslots : Forall (slot_ok n) slots).
  { unfold slots. rewrite Forall_fmap. apply Forall_true. intros ob. simpl.
    destruct (int_alias ob) as [idx|]; simpl; [|done]. unfold alias_column, nth_Z.
    case_match; simpl; [|apply length_replicate].
    destruct (data !! Z.to_nat idx) as [c|] eqn:Hc; simpl; [|apply length_replicate].
    destruct Hd as [_ Hd]. by eapply Forall_lookup_1 in Hd. }
  assert (Ho : open_slots slots
    = length (List.filter (fun ob => bool_decide (int_alias ob = None)) order_by)).
  { unfold slots, open_slots. clear. induction order_by as [|ob obs IH]; simpl; [done|].
    destruct (int_alias ob); simpl; by rewrite IH. }
  apply (post_bind _ _ (rect (open_slots slots) n)).
  - rewrite Ho. destruct (List.filter _ order_by) as [|ob0 obs]; [apply post_ret; by split; [|constructor]|].
    eapply post_impl; [|apply build_cols_post]. intros b. by rewrite length_map.
  - intros built Hb. apply post_ret. split; [done|]. simpl.
    rewrite <- (length_map (fun ob => alias_column data n <$> int_alias ob) order_by).
    by apply fill_slots_rect.
Qed.

Lemma rows_to_cols_seq_rect rows n : rect n (length rows) (rows_to_cols_seq rows n).
Proof.
  unfold rows_to_cols_seq. split; [by rewrite length_map, length_seq|].
  unfold rectangular. rewrite Forall_fmap. apply Forall_true. intros ci. simpl. apply length_map.
Qed.

Lemma aggregate_post par (ev pev : expr -> row_ctx -> M value) core select x order_by :
  st_post (exec_aggregate par ev pev core select x order_by)
    (out_rect (length select) (length order_by)).
Proof.
  unfold exec_aggregate. eapply post_bind; [apply post_any|]. intros parts _.
  eapply post_bind; [apply post_any|]. intros rows _.
  rewrite (rows_to_cols_ok (E := cfml_error) (map fst rows)), st_bind_lift.
  rewrite (rows_to_cols_ok (E := cfml_error) (map snd rows)), st_bind_lift.
  apply post_ret. split; simpl.
  - rewrite <- (length_map fst rows). apply rows_to_cols_seq_rect.
  - rewrite <- (length_map snd rows). apply rows_to_cols_seq_rect.
Qed.
End StagePost.

(** ** The invariant of a core and of a statement *)

Section Invariant.
Context {U : Unicode} {D : DateLib} {R : RegexCrate} {L : Libm} {P : Platform} {W : Type}.
Abbreviation M := (ST W cfml_error).

(** One data column per name, all of [cr_row_count] cells; names differ up to
    case. *)
Definition core_ok (r : core_result) : Prop :=
  rect (length (cr_columns r)) (cr_row_count r) (cr_data r)
  /\ NoDup (map to_lowercase (cr_columns r)).

Definition query_ok (q : query_data) : Prop :=
  query_wf q /\ NoDup (map to_lowercase (q_columns q)).

Lemma rect_query columns rows data :
  rect (length columns) rows data -> NoDup (map to_lowercase columns) ->
  query_ok (build_query columns data).
Proof.
  intros [Hl Hr] Hn. split; [|done]. split; [done|]. unfold row_count. simpl in *.
  destruct Hr as [|c data Hc Hr]; [by constructor|]. simpl. subst rows. by constructor.
Qed.

Lemma dedup_rect {E} nc data n data' n' :
  rect nc n data -> dedup_cols (E := E) data n = Ok (data', n') -> rect nc n' data'.
Proof.
  intros [Hl Hr]. unfold dedup_cols. rewrite dedup_keep_mask_ok by done. simpl.
  rewrite (apply_keep_mask_ok data n) by (done || by rewrite length_map, length_seq).
  intros [= <- <-]. apply rect_select with n; [by split|]. apply Forall_forall. intros i Hi.
  apply first_positions_spec in Hi as (k & _ & Hk & _).
  apply lookup_lt_Some in Hk. rewrite length_map, length_seq in Hk. lia.
Qed.

Lemma dedup_keys_data {E} data keys n r :
  dedup_cols_and_keys (E := E) data keys n = Ok r -> dedup_cols (E := E) data n = Ok (r.1.1, r.2).
Proof.
  unfold dedup_cols_and_keys, dedup_cols. intros H. ok_inv H. simplify_eq. simpl.
  unfold apply_keep_mask in *. ok_inv Heqo0. ok_inv Heqo1. by simplify_eq.
Qed.

Lemma limit_rect {E} nc data n l r :
  rect nc n data -> apply_limit_cols (E := E) data l n = Ok r -> exists m, rect nc m r.1.
Proof.
  intros [Hl Hr]. unfold apply_limit_cols. destruct l as [l|]; [|intros [= <-]; by exists n].
  set (start := Z.to_nat (lim_offset l `min` Z.of_nat n)). intros H. ok_inv H. simplify_eq/=.
  apply omapM_Ok_iff in Heqo.
  set (stop := Z.to_nat (usize_sat_add (lim_offset l) (lim_count l) `min` Z.of_nat n)) in *.
  exists (if start =? 0 then stop `min` n else stop - start).
  split; [symmetry; by eapply Forall2_length|].
  unfold rectangular in *. induction Heqo as [|c c' data data' Hc _ IH]; [by constructor|].
  apply Forall_cons_1 in Hr as [Hn Hr]. constructor; [|by apply IH].
  destruct (start =? 0); [simplify_eq; by rewrite length_take|].
  destruct (Nat.leb_spec start stop), (Nat.leb_spec stop (length c)); simplify_eq/=.
  rewrite length_take, length_drop. lia.
Qed.

Lemma sort_rect {E} nc data keys obs n data' :
  rect nc n data -> sort_cols (E := E) data keys obs n = Ok data' -> rect nc n data'.
Proof.
  intros Hr H. destruct (sort_cols_perm _ _ _ _ _ (proj2 Hr) H) as (idx & Hp & ->).
  rewrite <- (length_seq n 0), (Permutation_length Hp).
  apply rect_select with n; [done|]. apply Forall_forall. intros i Hi%list_elem_of_In.
  apply (Permutation_in i (Permutation_sym Hp)), in_seq in Hi. lia.
Qed.

Context (run_sub : engine W -> select_statement -> M query_data) (en : engine W).

Lemma core_rows_post core select order_by tables :
  st_post (core_rows run_sub en core select order_by tables)
    (fun r => rect (length select) r.2 r.1.1).
Proof.
  unfold core_rows. case_match.
  - eapply post_impl; [|apply fused_post]. by intros r [H1 _].
  - eapply post_bind; [apply post_any|]. intros inters _.
    eapply post_bind; [apply post_any|]. intros filtered _. case_match.
    + eapply post_impl; [|apply aggregate_post]. by intros r [H1 _].
    + eapply post_impl; [|apply exec_simple_post]. by intros r [H1 _].
Qed.

Lemma finish_core_post core columns r :
  rect (length columns) r.2 r.1.1 -> NoDup (map to_lowercase columns) ->
  st_post (S := W) (finish_core core columns r) core_ok.
Proof.
  destruct r as [[data keys] n]. simpl. intros Hr Hn.
  apply (post_bind _ _ (fun r => rect (length columns) r.2 r.1.1)).
  - case_match; [|by apply post_ret]. apply post_lift. intros r Hd%dedup_keys_data.
    by eapply dedup_rect.
  - intros [[d k] m] Hd. simpl in Hd. apply post_ret. unfold core_ok.
    destruct (co_top core) as [t|]; simpl; [|done].
    destruct (Z.ltb_spec t (Z.of_nat m)); simpl; [|done].
    split; [|done]. apply rect_truncate with m; [done|lia].
Qed.

Lemma run_core_post core order_by : st_post (run_core run_sub en core order_by) core_ok.
Proof.
  unfold run_core. eapply post_bind; [apply post_any|]. intros tables _.
  destruct tables as [|t0 tables].
  - eapply post_bind; [apply (post_mapM _ _ (fun _ => True)); done|]. intros row [Hrow _].
    eapply post_bind; [apply post_any|]. intros key _. apply post_ret. split; simpl.
    + destruct (derive_names_spec 0 ∅ (co_columns core)) as (Hl & _).
      unfold derive_column_names. rewrite Hl, <- Hrow. apply rect_singletons.
    + by destruct (derive_names_spec 0 ∅ (co_columns core)) as (_ & Hn & _).
  - eapply post_bind; [apply post_any|]. intros expanded _.
    eapply post_bind; [apply core_rows_post|]. intros r Hr.
    destruct (derive_names_spec 0 ∅ (bind_columns (t0 :: tables) expanded)) as (Hl & Hn & _).
    apply finish_core_post; [|done]. unfold derive_column_names. by rewrite Hl.
Qed.

Lemma union_arms_post columns unions data n :
  rect (length columns) n data ->
  st_post (union_arms run_sub en columns unions data n)
    (fun r => rect (length columns) r.2 r.1).
Proof.
  intros Hr. apply post_foldM; [done|]. intros [d m] u Hd.
  eapply post_bind; [apply run_core_post|]. intros arm [Ha _].
  destruct (Nat.eqb_spec (length (cr_columns arm)) (length columns)) as [He|]; simpl;
    [|apply post_err].
  apply post_ret. simpl. apply rect_extend; [done|by rewrite <- He].
Qed.

Lemma finish_query_post columns data keys obs l n :
  rect (length columns) n data -> NoDup (map to_lowercase columns) ->
  st_post (S := W) (E := cfml_error)
    (let! d := st_lift (sort_cols data keys obs n) in
     let! r := st_lift (apply_limit_cols d l n) in
     st_ret (build_query columns r.1)) query_ok.
Proof.
  intros Hr Hn. eapply post_bind; [apply post_lift; intros d Hd; exact (sort_rect _ _ _ _ _ _ Hr Hd)|].
  intros d Hd. cbn beta in Hd.
  eapply post_bind; [apply post_lift; intros r Hl; exact (limit_rect _ _ _ _ _ Hd Hl)|].
  intros r [m Hm]. apply post_ret. by eapply rect_query.
Qed.

Lemma run_statement_body_post stmt : st_post (run_statement_body run_sub en stmt) query_ok.
Proof.
  unfold run_statement_body. destruct (ss_unions stmt) as [|u us].
  - eapply post_bind; [apply run_core_post|]. intros body [Hr Hn]. by apply finish_query_post.
  - remember (u :: us) as unions.
    eapply post_bind; [apply run_core_post|]. intros body [Hr Hn].
    eapply post_bind; [by apply union_arms_post|]. intros [d n] Hd. simpl in Hd.
    apply (post_bind _ _ (fun r => rect (length (cr_columns body)) r.2 r.1)).
    + case_match; [|by apply post_ret]. apply post_lift. intros [d' n'] H'. by eapply dedup_rect.
    + intros [d' n'] Hd'. eapply post_bind; [apply post_any|]. intros keys _.
      by apply finish_query_post.
Qed.
End Invariant.

(** C1. Whatever statement, sources (rectangular or not), parameters, registered
    functions and world it runs in, a query of queries that returns, returns a
    well-formed query: one data vector per column name, all of the same length,
    and column names that are pairwise different up to case. *)
Theorem execute_well_formed `{U : Unicode} `{D : DateLib} `{R : RegexCrate} `{L : Libm}
    `{P : Platform} {W} stmt sources params (reg : registry W) udf w w' q :
  execute stmt sources params reg udf w = (w', Ok q) ->
  query_wf q /\ NoDup (map to_lowercase (q_columns q)).
Proof. apply run_statement_body_post. Qed.

(** ** GROUP BY *)

(** The different elements of a list, in the order of their first occurrence. *)
Fixpoint distinct (l : list str) : list str :=
  match l with
  | [] => []
  | x :: l => x :: List.filter (fun y => negb (bool_decide (y = x))) (distinct l)
  end.

Definition rows_of (keyed : list (str * list nat)) (k : str) : list (list nat) :=
  map snd (List.filter (fun kr => bool_decide (kr.1 = k)) keyed).

(** One group per key, in the order in which the keys appear; in each, the rows
    of that key in their order. *)
Definition groups_of (keyed : list (str * list nat)) : list (list (list nat)) :=
  map (rows_of keyed) (distinct (map fst keyed)).

Lemma filter_ne_id (l : list str) x :
  x ∉ l -> List.filter (fun y => negb (bool_decide (y = x))) l = l.
Proof.
  induction l as [|y l IH]; simpl; [done|]. intros [Hn Hl]%not_elem_of_cons.
  rewrite bool_decide_eq_false_2 by congruence. simpl. by rewrite IH.
Qed.

Lemma elem_of_distinct x l : x ∈ distinct l <-> x ∈ l.
Proof.
  induction l as [|y l IH]; simpl; [done|]. rewrite !elem_of_cons.
  rewrite list_elem_of_In, filter_In, <- list_elem_of_In, IH, negb_true_iff, bool_decide_eq_false.
  destruct (decide (x = y)); naive_solver.
Qed.

Lemma NoDup_distinct l : NoDup (distinct l).
Proof.
  induction l as [|x l IH]; simpl; [constructor|]. constructor.
  - rewrite list_elem_of_In, filter_In, negb_true_iff, bool_decide_eq_false. naive_solver.
  - apply NoDup_ListNoDup, List.NoDup_filter, NoDup_ListNoDup, IH.
Qed.

Lemma distinct_snoc l x :
  distinct (l ++ [x]) = if bool_decide (x ∈ l) then distinct l else distinct l ++ [x].
Proof.
  induction l as [|y l IH]; simpl; [done|]. rewrite IH.
  destruct (decide (x = y)) as [->|Hne].
  - rewrite (bool_decide_eq_true_2 (y ∈ y :: l)) by left. destruct (bool_decide (y ∈ l)); [done|].
    rewrite List.filter_app. simpl. rewrite bool_decide_eq_true_2 by done. simpl. by rewrite app_nil_r.
  - assert (Hb : bool_decide (x ∈ y :: l) = bool_decide (x ∈ l)).
    { apply bool_decide_ext. rewrite elem_of_cons. naive_solver. }
    rewrite Hb. destruct (bool_decide (x ∈ l)); [done|]. rewrite List.filter_app. simpl.
    by rewrite bool_decide_eq_false_2.
Qed.

Lemma rows_of_snoc keyed k r k' :
  rows_of (keyed ++ [(k, r)]) k'
  = if bool_decide (k = k') then rows_of keyed k' ++ [r] else rows_of keyed k'.
Proof.
  unfold rows_of. rewrite List.filter_app, map_app. simpl. case_bool_decide; simpl; [done|].
  by rewrite app_nil_r.
Qed.

Lemma group_push_spec w (rows : str -> list (list nat)) k r ks :
  NoDup ks -> rows k = [] \/ k ∈ ks ->
  group_push w k r (map (fun k' => (k', of_rows w (rows k'))) ks)
  = map (fun k' => (k', of_rows w (if bool_decide (k = k') then rows k' ++ [r] else rows k')))
      (if bool_decide (k ∈ ks) then ks else ks ++ [k]).
Proof.
  induction 1 as [|k0 ks Hk0 Hks IH]; intros Hr; simpl.
  - destruct Hr as [Hr|[]%elem_of_nil]. rewrite bool_decide_eq_true_2 by done. rewrite Hr. simpl.
    unfold of_rows. simpl. by rewrite app_nil_r.
  - destruct (decide (k0 = k)) as [->|Hne].
    + rewrite !bool_decide_eq_true_2 by (done || left). simpl.
      rewrite bool_decide_eq_true_2 by done. rewrite push_row_of_rows. f_equal.
      apply map_ext_in. intros k' Hk'%list_elem_of_In.
      rewrite bool_decide_eq_false_2; [done|congruence].
    + rewrite bool_decide_eq_false_2 by done. rewrite IH by (set_unfold; naive_solver).
      assert (Hb : bool_decide (k ∈ k0 :: ks) = bool_decide (k ∈ ks))
        by (apply bool_decide_ext; set_solver).
      rewrite Hb. destruct (bool_decide (k ∈ ks)); simpl; by rewrite (bool_decide_eq_false_2 (k = k0)) by congruence.
Qed.

Lemma group_rows_spec w keyed : group_rows w keyed = map (of_rows w) (groups_of keyed).
Proof.
  unfold group_rows, groups_of.
  assert (H : fold_left (fun gs kr => group_push w kr.1 kr.2 gs) keyed []
    = map (fun k => (k, of_rows w (rows_of keyed k))) (distinct (map fst keyed))).
  { induction keyed as [|[k r] keyed IH] using rev_ind; [done|].
    rewrite fold_left_app, IH, map_app. simpl.
    rewrite group_push_spec, distinct_snoc.
    - rewrite (bool_decide_ext _ _ (elem_of_distinct k (map fst keyed))).
      apply map_ext. intros k'. by rewrite rows_of_snoc.
    - apply NoDup_distinct.
    - rewrite elem_of_distinct. destruct (decide (k ∈ map fst keyed)) as [|Hn]; [by right|left].
      unfold rows_of. clear IH. induction keyed as [|[k' r'] keyed IH]; simpl in *; [done|].
      apply not_elem_of_cons in Hn as [Hne Hn].
      rewrite bool_decide_eq_false_2 by congruence. auto. }
  rewrite H, !map_map. done.
Qed.

Lemma groups_cover keyed ks :
  NoDup ks -> (forall kr, kr ∈ keyed -> kr.1 ∈ ks) ->
  Permutation (concat (map (rows_of keyed) ks)) (map snd keyed).
Proof.
  intros Hn. induction keyed as [|[k r] keyed IH]; intros Hc; simpl.
  - clear Hc Hn. by induction ks.
  - assert (Hk : k ∈ ks) by (apply (Hc (k, r)); left).
    rewrite <- IH by (intros kr ?; apply Hc; by right). clear IH Hc.
    assert (Hother : forall ks', k ∉ ks' ->
      map (rows_of ((k, r) :: keyed)) ks' = map (rows_of keyed) ks').
    { intros ks' Hk'. apply map_ext_in. intros k' Hin%list_elem_of_In. unfold rows_of. simpl.
      rewrite bool_decide_eq_false_2; [done|congruence]. }
    apply list_elem_of_split in Hk as (a & b & ->).
    apply NoDup_app in Hn as (_ & Ha & [Hb _]%NoDup_cons).
    rewrite !map_app. simpl. rewrite !Hother by set_solver.
    rewrite !concat_app. simpl. unfold rows_of at 2. simpl.
    rewrite bool_decide_eq_true_2 by done. simpl. symmetry. apply Permutation_middle.
Qed.

Lemma groups_of_perm keyed : Permutation (concat (groups_of keyed)) (map snd keyed).
Proof.
  apply groups_cover; [apply NoDup_distinct|]. intros kr Hkr. rewrite elem_of_distinct.
  apply list_elem_of_fmap. eauto.
Qed.

Lemma st_mapM_zip {S E A B} (f : A -> ST S E B) l :
  meq (st_mapM (fun x => let! k := f x in st_ret (k, x)) l)
    (let! ks := st_mapM f l in st_ret (zip ks l)).
Proof.
  induction l as [|x l IH]; simpl; [by rewrite st_bind_ret_l|].
  rewrite !st_bind_assoc. apply st_bind_cong; [done|]. intros k.
  rewrite st_bind_ret_l, IH, !st_bind_assoc. apply st_bind_cong; [done|]. intros ks.
  by rewrite !st_bind_ret_l.
Qed.

(** GROUP BY: the groups a core aggregates over are, for the group keys its
    rows evaluate to, one group per different key in the order of first
    appearance, each holding the rows of that key in their order; together they
    hold every row exactly once.  An error of a key expression is the error of
    the grouping. *)
Theorem partition_correct `{U : Unicode} `{D : DateLib} `{P : Platform} {W}
    (ev pev : expr -> row_ctx -> ST W cfml_error value) x group_by :
  meq (partition false ev pev x group_by)
    (let! keys := st_mapM (row_group_key ev group_by) (in_iter x) in
     st_ret (map (of_rows (in_width x)) (groups_of (zip keys (in_iter x)))))
  /\ forall keys : list str, length keys = length (in_iter x) ->
       Permutation (concat (groups_of (zip keys (in_iter x)))) (in_iter x).
Proof.
  split.
  - unfold partition. simpl. rewrite st_mapM_zip, st_bind_assoc. apply st_bind_cong; [done|].
    intros keys. rewrite st_bind_ret_l. by rewrite group_rows_spec.
  - intros keys Hl. rewrite groups_of_perm. by rewrite snd_zip by lia.
Qed.

(** ** HAVING without groups *)

Definition set_having (c : select_core) (h : option expr) : select_core :=
  SelectCore (co_distinct c) (co_top c) (co_columns c) (co_from c) (co_joins c) (co_where c)
    (co_group_by c) h.

(** In a core with neither GROUP BY nor an aggregate the HAVING clause is
    never evaluated: whatever two conditions it holds, the rows are the same. *)
Theorem having_ignored `{U : Unicode} `{D : DateLib} `{R : RegexCrate} `{L : Libm} `{P : Platform}
    {W} run_sub (en : engine W) core select order_by tables h1 h2 :
  co_group_by core = [] ->
  has_agg en (set_having core (Some h1)) select = false ->
  has_agg en (set_having core (Some h2)) select = false ->
  meq (core_rows run_sub en (set_having core (Some h1)) select order_by tables)
      (core_rows run_sub en (set_having core (Some h2)) select order_by tables).
Proof.
  intros Hg H1 H2. unfold core_rows, can_fused. rewrite H1, H2.
  change (co_group_by (set_having core (Some h1))) with (co_group_by core).
  change (co_group_by (set_having core (Some h2))) with (co_group_by core). by rewrite Hg.
Qed.
