(* ===== verification/QoqNamesFacts.v ===== *)
(** * QoqNamesFacts: the tables a statement needs

    [base_table_names] reports every table name of the statement once, and the
    result of a run depends on no other source. *)

From stdpp Require Import base list numbers strings gmap sets.
From S2P Require Import Prelude Text Float64 Value QoqLike QoqAst QoqCompare QoqTable QoqJoin QoqFunctions QoqOps QoqEval QoqCompiled QoqColumns QoqExec QoqNames QoqEvalFacts QoqRunFacts.
#[local] Open Scope st_scope.

(** ** The names of a statement *)

Fixpoint expr_names (e : expr) : list str :=
  match e with
  | XStar _ | XColumn _ _ | XResolvedColumn _ _ _ | XLiteral _ | XParam _ => []
  | XBinary l _ r => expr_names l ++ expr_names r
  | XUnary _ e | XCast e _ | XIsNull e _ => expr_names e
  | XFunction _ args _ => concat (map expr_names args)
  | XCase o ws el =>
      opt_list expr_names o
      ++ concat (map (fun w => match w with
                               | WhenThen a b => expr_names a ++ expr_names b
                               end) ws)
      ++ opt_list expr_names el
  | XInList e _ l => expr_names e ++ concat (map expr_names l)
  | XInSubquery e _ s => expr_names e ++ statement_collect expr_names table_names s
  | XBetween e _ lo hi => expr_names e ++ expr_names lo ++ expr_names hi
  | XLike e _ p es _ => expr_names e ++ expr_names p ++ opt_list expr_names es
  | XScalarSubquery s => statement_collect expr_names table_names s
  end
with table_names (t : table_ref) : list str :=
  match t with
  | TNamed name _ => [name]
  | TDerived s _ => statement_collect expr_names table_names s
  end.

(** Every table name of a statement, derived tables and subqueries included. *)
Definition statement_names (s : select_statement) : list str :=
  statement_collect expr_names table_names s.

(** ** The walk *)

Section Walk.
Context {U : Unicode}.

Definition walk_inv (acc : walk_state) : Prop :=
  acc.2 = list_to_set (map to_lowercase acc.1) /\ NoDup (map to_lowercase acc.1).

(** A walk over something that holds [names]. *)
Definition walks (names : list str) (w : walk_state -> walk_state) : Prop :=
  forall acc, walk_inv acc ->
    walk_inv (w acc) /\ acc.2 ⊆ (w acc).2
    /\ (forall n, n ∈ names -> to_lowercase n ∈ (w acc).2)
    /\ (forall n, n ∈ (w acc).1 -> n ∈ acc.1 \/ n ∈ names).

Lemma walks_visit name : walks [name] (visit name).
Proof.
  intros [out seen] [Hs Hn]. unfold visit. simpl in *. case_bool_decide as Hin.
  - split_and!; [done|done| |by left]. intros n ->%list_elem_of_singleton. done.
  - split_and!.
    + split; simpl; rewrite map_app; simpl.
      * rewrite list_to_set_app_L, Hs. simpl. set_solver.
      * apply NoDup_app. split_and!; [done| |apply NoDup_singleton].
        intros x Hx ->%list_elem_of_singleton. apply Hin. rewrite Hs. by apply elem_of_list_to_set.
    + simpl. set_solver.
    + intros n ->%list_elem_of_singleton. simpl. set_solver.
    + simpl. intros n Hx%elem_of_app. set_solver.
Qed.

Lemma walks_id : walks [] (fun acc => acc).
Proof. intros acc Hi. split_and!; [done|done|by intros n ?%elem_of_nil|by left]. Qed.

Lemma walks_comp n1 n2 w1 w2 :
  walks n1 w1 -> walks n2 w2 -> walks (n1 ++ n2) (fun acc => w2 (w1 acc)).
Proof.
  intros H1 H2 acc Hi. destruct (H1 acc Hi) as (Hi1 & Hs1 & Hc1 & Ho1).
  destruct (H2 _ Hi1) as (Hi2 & Hs2 & Hc2 & Ho2). split_and!; [done|set_solver| |].
  - intros n [Hn|Hn]%elem_of_app; [|by apply Hc2]. apply Hs2. by apply Hc1.
  - intros n Hn. rewrite elem_of_app. destruct (Ho2 n Hn) as [Hn'|]; [|by right; right].
    destruct (Ho1 n Hn'); [by left|by right; left].
Qed.

Lemma walks_equiv n1 n2 w : (forall n, n ∈ n1 <-> n ∈ n2) -> walks n1 w -> walks n2 w.
Proof.
  intros He H acc Hi. destruct (H acc Hi) as (H1 & H2 & H3 & H4).
  split_and!; [done|done| |]; intros n Hn; [by apply H3, He|]. rewrite <- He. auto.
Qed.

Lemma walks_opt {A} (f : A -> list str) (w : A -> walk_state -> walk_state) o :
  option_Forall (fun a => walks (f a) (w a)) o -> walks (opt_list f o) (walk_opt w o).
Proof. destruct 1; simpl; [apply walks_id|done]. Qed.

Lemma walks_list {A} (f : A -> list str) (w : A -> walk_state -> walk_state) l :
  Forall (fun a => walks (f a) (w a)) l -> walks (concat (map f l)) (walk_list w l).
Proof.
  induction 1 as [|a l Ha _ IH]; simpl; [apply walks_id|]. by apply walks_comp.
Qed.

Abbreviation we := walk_expr.
Abbreviation wt := walk_tableref.
Definition expr_walks (e : expr) : Prop := walks (expr_names e) (we e).
Definition table_walks (t : table_ref) : Prop := walks (table_names t) (wt t).
Definition statement_walks (s : select_statement) : Prop :=
  walks (statement_names s) (walk_select we wt s).

Lemma core_walks c :
  core_all expr_walks table_walks c ->
  walks (core_collect expr_names table_names c) (walk_core we wt c).
Proof.
  destruct c as [ds top cols from joins w g h]. intros (Hc & Hf & Hj & Hw & Hg & Hh). simpl in *.
  assert (H1 := walks_opt table_names wt from Hf).
  assert (H2 : walks _ _) by (apply (walks_list (fun j : join_clause => match j with
      JoinClause _ t on => table_names t ++ opt_list expr_names on end)
    (fun j acc => match j with JoinClause _ t on => walk_opt we on (wt t acc) end) joins);
    eapply Forall_impl; [exact Hj|]; intros [jt t on] [Ht Ho];
    apply walks_comp; [exact Ht|by apply walks_opt]).
  assert (H3 := walks_opt expr_names we w Hw). assert (H4 := walks_list expr_names we g Hg).
  assert (H5 := walks_opt expr_names we h Hh).
  assert (H6 : walks _ _) by (apply (walks_list (fun sc : select_column => match sc with
      SelectColumn e _ => expr_names e end)
    (fun sc acc => match sc with SelectColumn e _ => we e acc end) cols);
    eapply Forall_impl; [exact Hc|]; by intros [e al]).
  eapply walks_equiv; [|exact (walks_comp _ _ _ _ (walks_comp _ _ _ _ (walks_comp _ _ _ _
    (walks_comp _ _ _ _ (walks_comp _ _ _ _ H1 H2) H3) H4) H5) H6)].
  intros n. rewrite !elem_of_app. tauto.
Qed.

Lemma statement_walks_parts s :
  stmt_all expr_walks table_walks s -> statement_walks s.
Proof.
  destruct s as [body unions obs lim]. intros (Hb & Hu & Ho). simpl in *.
  unfold statement_walks, statement_names. simpl. rewrite app_assoc.
  apply (walks_comp _ _ (fun acc => walk_list _ unions (walk_core we wt body acc))).
  - apply walks_comp; [by apply core_walks|]. apply walks_list.
    eapply Forall_impl; [exact Hu|]. intros [al c] Hc. by apply core_walks.
  - apply walks_list. eapply Forall_impl; [exact Ho|]. by intros [e dir].
Qed.

Lemma expr_walks_all e : expr_all statement_walks (fun _ => True) e -> expr_walks e.
Proof.
  unfold expr_walks.
  induction e as [| | |v|l op r IHl IHr|op e IHe|n args d IH|o ws el IHo IHw IHe
    |e ty IHe|e n IHe|e n l IHe IHl|e n s IHe|e n lo hi IHe IHlo IHhi|e n p es c IHe IHp IHes
    |s|p] using expr_ind'; cbn [expr_all expr_names walk_expr];
    try (intros _; apply walks_id); try done.
  - intros [Hl Hr]. apply walks_comp; auto.
  - intros [_ Ha]. apply walks_list. apply all_list_Forall in Ha.
    rewrite Forall_forall in *. auto.
  - intros (Ho & Hw & He).
    assert (H1 := walks_opt expr_names we o ltac:(destruct IHo; constructor; auto)).
    assert (H3 := walks_opt expr_names we el ltac:(destruct IHe; constructor; auto)).
    assert (H2 : walks _ _) by (apply (walks_list (fun w : when_then => match w with
        WhenThen a b => expr_names a ++ expr_names b end)
      (fun w acc => match w with WhenThen a b => we b (we a acc) end) ws);
      apply all_list_Forall in Hw; rewrite Forall_forall in *;
      intros [a b] Hab; destruct (IHw _ Hab) as [Ha Hb]; destruct (Hw _ Hab);
      apply walks_comp; auto).
    rewrite app_assoc. exact (walks_comp _ _ _ _ (walks_comp _ _ _ _ H1 H2) H3).
  - intros [He Hl]. apply walks_comp; [auto|]. apply walks_list. apply all_list_Forall in Hl.
    rewrite Forall_forall in *. auto.
  - intros [He Hs]. apply walks_comp; auto.
  - intros (He & Hlo & Hhi). rewrite app_assoc.
    apply (walks_comp _ _ (fun acc => we lo (we e acc))); [apply walks_comp|]; auto.
  - intros (He & Hp & Hes). rewrite app_assoc.
    apply (walks_comp _ _ (fun acc => we p (we e acc))); [apply walks_comp; auto|].
    apply walks_opt. destruct IHes; constructor. auto.
Qed.

Lemma statement_walks_depth d s : stmt_depth s < d -> statement_walks s.
Proof.
  revert s. induction d as [|d IH]; intros s Hd; [lia|]. apply statement_walks_parts.
  assert (Hs : stmt_depth s <= d) by lia. apply stmt_depth_within in Hs.
  eapply stmt_all_impl; [| |exact Hs].
  - intros e He. apply expr_walks_all. eapply expr_all_impl; [| |exact He]; [|done].
    intros s' Hs'. apply IH. unfold sub_within in Hs'. lia.
  - intros [name al|s' al] Ht; [apply walks_visit|]. apply IH.
    unfold table_within, sub_within in Ht. lia.
Qed.

Lemma base_table_names_spec s :
  NoDup (map to_lowercase (base_table_names s))
  /\ (forall n, n ∈ statement_names s -> to_lowercase n ∈ map to_lowercase (base_table_names s))
  /\ (forall n, n ∈ base_table_names s -> n ∈ statement_names s).
Proof.
  destruct (statement_walks_depth _ s (Nat.lt_succ_diag_r _) ([], ∅)) as ([Hs Hn] & _ & Hc & Ho).
  { split; [done|constructor]. }
  unfold base_table_names. split_and!; [done| |].
  - intros n Hin. specialize (Hc n Hin). rewrite Hs in Hc. by apply elem_of_list_to_set in Hc.
  - intros n [Hx%elem_of_nil|]%Ho; done.
Qed.
End Walk.

(** [base_table_names] reports, for every table name that occurs anywhere in
    the statement (joins, derived tables, subqueries and UNION arms included),
    one spelling of it up to case; it reports no name twice up to case and no
    name that does not occur. *)
Theorem base_table_names_correct `{U : Unicode} s :
  NoDup (map to_lowercase (base_table_names s))
  /\ (forall n, n ∈ statement_names s -> to_lowercase n ∈ map to_lowercase (base_table_names s))
  /\ (forall n, n ∈ base_table_names s -> n ∈ statement_names s).
Proof. apply base_table_names_spec. Qed.

(** ** Only these sources matter *)

(** What the engine finds under a name. *)
Definition source_lookup (sources : list (str * query_data)) (name : str) : option (str * query_data) :=
  head (List.filter (fun nq => eq_ignore_ascii_case nq.1 name) sources).

Section Footprint.
Context {U : Unicode} {D : DateLib} {R : RegexCrate} {L : Libm} {P : Platform} {W : Type}.
Context (N : str -> Prop).

Definition sub_named (s : select_statement) : Prop := forall n, n ∈ statement_names s -> N n.
Definition table_named (t : table_ref) : Prop := forall n, n ∈ table_names t -> N n.

Lemma Forall_concat_names {A} (f : A -> list str) l :
  (forall n, n ∈ concat (map f l) -> N n) -> Forall (fun a => forall n, n ∈ f a -> N n) l.
Proof.
  induction l as [|a l IH]; simpl; intros H; constructor.
  - intros n Hn. apply H, elem_of_app. by left.
  - apply IH. intros n Hn. apply H, elem_of_app. by right.
Qed.

Lemma opt_names {A} (f : A -> list str) o :
  (forall n, n ∈ opt_list f o -> N n) -> option_Forall (fun a => forall n, n ∈ f a -> N n) o.
Proof. by destruct o; constructor. Qed.

Lemma Forall_mp {A} (Q1 Q2 : A -> Prop) l :
  Forall (fun x => Q1 x -> Q2 x) l -> Forall Q1 l -> Forall Q2 l.
Proof. induction 1; intros H1; inv H1; constructor; auto. Qed.

Lemma expr_named e :
  (forall n, n ∈ expr_names e -> N n) -> expr_all sub_named (fun _ => True) e.
Proof.
  induction e as [| | |v|l op r IHl IHr|op e IHe|n args d IH|o ws el IHo IHw IHe
    |e ty IHe|e n IHe|e n l IHe IHl|e n s IHe|e n lo hi IHe IHlo IHhi|e n p es c IHe IHp IHes
    |s|p] using expr_ind'; cbn [expr_all expr_names]; try done; intros H;
    try setoid_rewrite elem_of_app in H.
  - split; auto.
  - split; [done|]. apply all_list_Forall. by apply (Forall_mp _ _ _ IH), Forall_concat_names.
  - setoid_rewrite elem_of_app in H. split_and!.
    + destruct IHo; simpl; [done|]. apply H0. intros n Hn. apply H. by left.
    + apply all_list_Forall. assert (Hw := Forall_concat_names _ ws (fun n Hn => H n (or_intror (or_introl Hn)))).
      rewrite Forall_forall in *. intros [a b] Hab. specialize (Hw _ Hab). simpl in Hw.
      destruct (IHw _ Hab) as [Ha Hb]. simpl in *. setoid_rewrite elem_of_app in Hw. split; auto.
    + destruct IHe; simpl; [done|]. apply H0. intros n Hn. apply H. by right; right.
  - split; [auto|]. apply all_list_Forall.
    apply (Forall_mp _ _ _ IHl), Forall_concat_names. auto.
  - split; [auto|]. intros n' Hn'. apply H. by right.
  - setoid_rewrite elem_of_app in H. split_and!; auto.
  - setoid_rewrite elem_of_app in H. split_and!; auto. destruct IHes; simpl; auto.
Qed.

Lemma core_named c :
  (forall n, n ∈ core_collect expr_names table_names c -> N n) ->
  core_all (expr_all sub_named (fun _ => True)) table_named c.
Proof.
  destruct c as [ds top cols from joins w g h]. simpl. repeat setoid_rewrite elem_of_app.
  intros H. repeat split; simpl.
  - assert (Hc := Forall_concat_names _ cols (fun n Hn => H n (or_introl Hn))).
    eapply Forall_impl; [exact Hc|]. intros [e al] He. by apply expr_named.
  - apply opt_names. intros n Hn. apply H. tauto.
  - assert (Hj := Forall_concat_names _ joins (fun n Hn => H n (or_intror (or_intror (or_introl Hn))))).
    eapply Forall_impl; [exact Hj|]. intros [jt t on] Hn. simpl in *. setoid_rewrite elem_of_app in Hn.
    split; [intros n Hin; auto|]. destruct on; constructor. apply expr_named. intros n Hin. auto.
  - destruct w; constructor. apply expr_named. intros n Hn. apply H. tauto.
  - assert (Hg := Forall_concat_names expr_names g
      (fun n Hn => H n (or_intror (or_intror (or_intror (or_intror (or_introl Hn))))))).
    eapply Forall_impl; [exact Hg|]. intros e. apply expr_named.
  - destruct h; constructor. apply expr_named. intros n Hn. apply H. tauto.
Qed.

Lemma stmt_named s :
  sub_named s -> stmt_all (expr_all sub_named (fun _ => True)) table_named s.
Proof.
  destruct s as [body unions obs lim]. unfold sub_named, statement_names. simpl.
  repeat setoid_rewrite elem_of_app. intros H.
  assert (Hb : core_all (expr_all sub_named (fun _ => True)) table_named body)
    by (apply core_named; auto).
  split; [done|]. split; simpl.
  - assert (Hu := Forall_concat_names _ unions (fun n Hn => H n (or_intror (or_introl Hn)))).
    eapply Forall_impl; [exact Hu|]. intros [al c]. apply core_named.
  - assert (Ho := Forall_concat_names _ obs (fun n Hn => H n (or_intror (or_intror Hn)))).
    eapply Forall_impl; [exact Ho|]. intros [e dir]. apply expr_named.
Qed.

(** Engines that differ in their sources. *)
Definition with_sources (sources : list (str * query_data)) (en : engine W) : engine W :=
  Engine sources (en_params en) (en_registry en) (en_invoke en) (en_parallel en).

Context (src1 src2 : list (str * query_data)).
Context (Hsrc : forall n, N n -> source_lookup src1 n = source_lookup src2 n).

Lemma resolve_named (f : select_statement -> ST W cfml_error query_data) t :
  table_named t -> meq (resolve_table_ref src1 f t) (resolve_table_ref src2 f t).
Proof.
  destruct t as [name al|s al]; [|done]. intros H.
  assert (Hn : N name) by (apply H; by left). apply Hsrc in Hn. unfold source_lookup in Hn.
  simpl. by rewrite Hn.
Qed.

(** A run with the other sources is a run with these whose nested runs use the
    other sources. *)
Definition redirect (rs : engine W -> select_statement -> ST W cfml_error query_data)
    (en : engine W) : select_statement -> ST W cfml_error query_data :=
  rs (with_sources src2 en).

Lemma run_core_redirect Q rs en core obs :
  core_all Q table_named core ->
  meq (run_core (redirect rs) (with_sources src1 en) core obs)
      (run_core rs (with_sources src2 en) core obs).
Proof.
  intros (_ & Hf & Hj & _). unfold run_core. apply st_bind_cong; [|done].
  unfold resolve_tables. destruct Hf as [|t Ht]; [done|]. simpl.
  apply st_bind_cong; [by apply resolve_named|]. intros t0. apply st_bind_cong; [|done].
  apply st_mapM_cong. eapply Forall_impl; [exact Hj|]. intros j [Hjt _]. by apply resolve_named.
Qed.

Lemma run_body_redirect Q rs en s :
  stmt_all Q table_named s ->
  meq (run_statement_body (redirect rs) (with_sources src1 en) s)
      (run_statement_body rs (with_sources src2 en) s).
Proof.
  intros (Hb & Hu & _). unfold run_statement_body. destruct (ss_unions s) as [|u us].
  - apply st_bind_cong; [by eapply run_core_redirect|done].
  - apply st_bind_cong; [by eapply run_core_redirect|]. intros body.
    apply st_bind_cong; [|done]. apply st_foldM_cong. eapply Forall_impl; [exact Hu|].
    intros a Ha [data n]. apply st_bind_cong; [exact (run_core_redirect _ _ _ _ _ Ha)|done].
Qed.

Lemma run_fuel_sources fuel en s :
  sub_named s ->
  meq (run_fuel fuel (with_sources src1 en) s) (run_fuel fuel (with_sources src2 en) s).
Proof.
  revert en s. induction fuel as [|fuel IH]; intros en s Hs; [done|]. simpl.
  apply stmt_named in Hs. rewrite <- (run_body_redirect _ _ _ _ Hs).
  apply run_statement_body_cong. eapply stmt_all_impl; [| |exact Hs].
  - intros e. apply expr_all_impl; [|done]. intros s' Hs'. split; [by apply IH|].
    by apply (IH (pure_engine en)).
  - intros [name al|s' al] Ht; [done|]. split; [by apply IH|]. by apply (IH (pure_engine en)).
Qed.
End Footprint.

(** C31. A statement reads no source but those [base_table_names] reports: two
    sets of sources in which the engine finds the same query under every name
    that is, up to case, one of the reported ones give the same run, result or
    error. *)
Theorem base_tables_suffice `{U : Unicode} `{D : DateLib} `{R : RegexCrate} `{L : Libm}
    `{P : Platform} {W} stmt src1 src2 params (reg : registry W) udf :
  (forall n, to_lowercase n ∈ map to_lowercase (base_table_names stmt) ->
     source_lookup src1 n = source_lookup src2 n) ->
  meq (execute stmt src1 params reg udf) (execute stmt src2 params reg udf).
Proof.
  intros H. unfold execute, run_statement.
  set (N := fun n => to_lowercase n ∈ map to_lowercase (base_table_names stmt)).
  apply (run_fuel_sources N src1 src2 H (S (stmt_depth stmt))
    (Engine src1 params reg udf (select_is_pure reg stmt)) stmt).
  intros n Hn. by apply base_table_names_spec.
Qed.
