(* ===== verification/QoqParserFacts.v ===== *)
(** * QoqParserFacts: what the parser guarantees

    The parser terminates on every text with a statement or an error; the
    statements it returns are well formed, and their positional parameters are
    numbered in the order of the text.  The nesting limit does not bound the
    recursion on signs. *)

From stdpp Require Import base list numbers strings.
From S2P Require Import Prelude Text Float64 Value QoqLike QoqAst QoqLexer QoqCompare QoqTable QoqFunctions QoqEval QoqCompiled QoqParser.
#[local] Open Scope st_scope.

(** ** Positional parameters and well-formed trees *)

(** The positional parameters of an expression, from left to right. *)
Fixpoint expr_params (e : expr) : list nat :=
  match e with
  | XParam (PPositional i) => [i]
  | XStar _ | XColumn _ _ | XResolvedColumn _ _ _ | XLiteral _ | XParam (PNamed _) => []
  | XBinary l _ r => expr_params l ++ expr_params r
  | XUnary _ e | XCast e _ | XIsNull e _ => expr_params e
  | XFunction _ args _ => concat (map expr_params args)
  | XCase o ws el =>
      opt_list expr_params o
      ++ concat (map (fun w => match w with
                               | WhenThen a b => expr_params a ++ expr_params b
                               end) ws)
      ++ opt_list expr_params el
  | XInList e _ l => expr_params e ++ concat (map expr_params l)
  | XInSubquery e _ s => expr_params e ++ statement_collect expr_params table_params s
  | XBetween e _ lo hi => expr_params e ++ expr_params lo ++ expr_params hi
  | XLike e _ p es _ => expr_params e ++ expr_params p ++ opt_list expr_params es
  | XScalarSubquery s => statement_collect expr_params table_params s
  end
with table_params (t : table_ref) : list nat :=
  match t with
  | TNamed _ _ => []
  | TDerived s _ => statement_collect expr_params table_params s
  end.

Definition statement_params (s : select_statement) : list nat :=
  statement_collect expr_params table_params s.

Definition usize_ok (z : Z) : bool := ((0 <=? z) && (z <=? usize_max))%Z.
Definition nonempty {A} (l : list A) : bool := match l with [] => false | _ => true end.

Section CoreWf.
Context (we : expr -> bool) (wt : table_ref -> bool).

Definition opt_ok {A} (f : A -> bool) (o : option A) : bool :=
  match o with Some a => f a | None => true end.

Definition core_wf (c : select_core_ expr table_ref) : bool :=
  match c with
  | SelectCore _ top columns from joins where_ group_by having =>
      opt_ok usize_ok top && nonempty columns
      && forallb (fun sc => match sc with SelectColumn e _ => we e end) columns
      && opt_ok wt from
      && forallb (fun j => match j with JoinClause _ t on => wt t && opt_ok we on end) joins
      && opt_ok we where_ && forallb we group_by && opt_ok we having
  end.

(** Without a LIMIT there is no TOP left in the body. *)
Definition statement_wf (s : select_statement_ expr table_ref) : bool :=
  match s with
  | SelectStatement body unions order_by limit =>
      core_wf body
      && forallb (fun u => match u with Union _ c => core_wf c end) unions
      && forallb (fun ob => match ob with OrderByExpr e _ => we e end) order_by
      && match limit with
         | Some l => usize_ok (lim_offset l) && usize_ok (lim_count l)
         | None => match co_top body with None => true | Some _ => false end
         end
  end.
End CoreWf.

Definition literal_wf (v : value) : bool :=
  match v with
  | VNull | VBool _ | VString _ | VDouble _ => true
  | VInt n => in_i64 n
  | _ => false
  end.

Section ExprWf.
Context {U : Unicode}.

(** What the rest of the engine may assume of a parsed expression: unresolved
    columns, uncompiled patterns, scalar literals with [i64] integers,
    lower-case cast types, at least one WHEN and one IN item. *)
Fixpoint expr_wf (e : expr) : bool :=
  match e with
  | XStar _ | XColumn _ _ | XParam _ => true
  | XResolvedColumn _ _ _ => false
  | XLiteral v => literal_wf v
  | XBinary l _ r => expr_wf l && expr_wf r
  | XUnary _ e | XIsNull e _ => expr_wf e
  | XCast e ty => expr_wf e && bool_decide (to_lowercase ty = ty)
  | XFunction _ args _ => forallb expr_wf args
  | XCase o ws el =>
      opt_ok expr_wf o && nonempty ws
      && forallb (fun w => match w with WhenThen a b => expr_wf a && expr_wf b end) ws
      && opt_ok expr_wf el
  | XInList e _ l => expr_wf e && nonempty l && forallb expr_wf l
  | XInSubquery e _ s => expr_wf e && statement_wf expr_wf table_wf s
  | XBetween e _ lo hi => expr_wf e && expr_wf lo && expr_wf hi
  | XLike e _ p es c =>
      expr_wf e && expr_wf p && opt_ok expr_wf es
      && match c with None => true | Some _ => false end
  | XScalarSubquery s => statement_wf expr_wf table_wf s
  end
with table_wf (t : table_ref) : bool :=
  match t with
  | TNamed _ _ => true
  | TDerived s _ => statement_wf expr_wf table_wf s
  end.

Definition stmt_wf (s : select_statement) : bool := statement_wf expr_wf table_wf s.
End ExprWf.

(** ** Specifications of parsers

    [spec d m Q]: started at depth [d], [m] does not run out of its bounds; on
    success it is back at depth [d], it has read [k] units of text and taken the
    parameter indices [l], and [Q k l] holds of its result.  [spec_at] is the
    same from states whose current token is [c]. *)

Definition spec_on {A} (pre : parser -> Prop) (d : nat) (m : P A)
    (Q : nat -> list nat -> A -> Prop) : Prop :=
  forall s, pre s -> ps_depth s = d ->
    match m s with
    | (_, Panic) => False
    | (_, Err _) => True
    | (s', Ok a) => ps_depth s' = d /\ exists k n, mu s = mu s' + k
        /\ ps_param_index s' = ps_param_index s + n /\ Q k (seq (ps_param_index s) n) a
    end.

Definition spec {A} (d : nat) (m : P A) Q : Prop := spec_on (fun _ => True) d m Q.
Definition spec_at {A} (d : nat) (c : token) (m : P A) Q : Prop :=
  spec_on (fun s => ps_current s = c) d m Q.

Section Rules.
Context {U : Unicode} (d : nat).

Lemma spec_ret {A} (a : A) (Q : nat -> list nat -> A -> Prop) : Q 0 [] a -> spec d (st_ret a) Q.
Proof. intros H s _ Hd. simpl. split; [done|]. exists 0, 0. split_and!; [lia|lia|done]. Qed.

Lemma spec_err {A} e (Q : nat -> list nat -> A -> Prop) : spec d (st_err e) Q.
Proof. done. Qed.

Lemma spec_lift {A} (o : outcome parse_error A) (Q : nat -> list nat -> A -> Prop) :
  o <> Panic -> (forall a, o = Ok a -> Q 0 [] a) -> spec d (st_lift o) Q.
Proof.
  intros Hp H s _ Hd. unfold st_lift. destruct o; [|done..]. split; [done|].
  exists 0, 0. split_and!; [lia|lia|auto].
Qed.

Lemma spec_on_bind {A B} pre (m : P A) (f : A -> P B) Q1 (Q : nat -> list nat -> B -> Prop) :
  spec_on pre d m Q1 ->
  (forall k l a, Q1 k l a -> spec d (f a) (fun k' l' b => Q (k + k') (l ++ l') b)) ->
  spec_on pre d (st_bind m f) Q.
Proof.
  intros Hm Hf s Hs Hd. specialize (Hm s Hs Hd). unfold st_bind.
  destruct (m s) as [s1 [a| |]]; [|done..].
  destruct Hm as (Hd1 & k & n & Hk & Hn & HQ). specialize (Hf _ _ _ HQ s1 I Hd1).
  destruct (f a s1) as [s2 [b| |]]; [|done..].
  destruct Hf as (Hd2 & k' & n' & Hk' & Hn' & HQ'). split; [done|].
  exists (k + k'), (n + n'). split_and!; [lia|lia|].
  rewrite seq_app. by rewrite <- Hn.
Qed.

Lemma spec_bind {A B} (m : P A) (f : A -> P B) Q1 (Q : nat -> list nat -> B -> Prop) :
  spec d m Q1 ->
  (forall k l a, Q1 k l a -> spec d (f a) (fun k' l' b => Q (k + k') (l ++ l') b)) ->
  spec d (st_bind m f) Q.
Proof. apply spec_on_bind. Qed.

Lemma spec_conseq {A} (m : P A) (Q1 Q2 : nat -> list nat -> A -> Prop) :
  spec d m Q1 -> (forall k l a, Q1 k l a -> Q2 k l a) -> spec d m Q2.
Proof.
  intros Hm H s Hs Hd. specialize (Hm s Hs Hd). destruct (m s) as [s1 [a| |]]; [|done..].
  naive_solver.
Qed.

Lemma spec_at_any {A} c (m : P A) Q : spec d m Q -> spec_at d c m Q.
Proof. intros H s _. by apply H. Qed.

Lemma spec_current {A} (f : token -> P A) Q :
  (forall c, spec_at d c (f c) Q) -> spec d (let! c := current in f c) Q.
Proof. intros H s _ Hd. unfold st_bind, current. by apply H. Qed.

Lemma mu_bounds s : mu s <= length (ps_rest s) + 1 /\
  (ps_current s <> TEof -> mu s = length (ps_rest s) + 1).
Proof. unfold mu. destruct (ps_current s); try (split; lia). split; [lia|done]. Qed.

Lemma advance_mu s : mu (advance_state s) <= mu s /\
  (ps_current s <> TEof -> mu (advance_state s) < mu s).
Proof.
  pose proof (next_token_progress (ps_rest s)) as Hp. destruct (mu_bounds s) as [_ Hs].
  destruct (mu_bounds (advance_state s)) as [Ha _]. unfold advance_state in *.
  assert (Hle : length (ps_rest s) <= mu s) by (unfold mu; lia).
  destruct (next_token (ps_rest s)) as [t r]. simpl in *.
  destruct Hp as [[-> ->]|[Ht Hr]]; [unfold mu at 1 3; simpl|]; (split; [lia|]); intros Hc;
    specialize (Hs Hc); lia.
Qed.

Lemma advance_fields s :
  ps_depth (advance_state s) = ps_depth s /\ ps_param_index (advance_state s) = ps_param_index s.
Proof. unfold advance_state. by destruct (next_token (ps_rest s)). Qed.

Lemma spec_at_advance {A} c (f : unit -> P A) Q :
  c <> TEof ->
  (forall j, 1 <= j -> spec d (f ()) (fun k l a => Q (j + k) l a)) ->
  spec_at d c (st_bind advance f) Q.
Proof.
  intros Hc H. eapply (spec_on_bind _ _ _ (fun k l _ => 1 <= k /\ l = [])).
  - intros s Hs Hd. simpl. destruct (advance_fields s) as [H1 H2].
    destruct (advance_mu s) as [_ H3]. split; [congruence|].
    exists (mu s - mu (advance_state s)), 0. rewrite Hs in H3. specialize (H3 Hc).
    split_and!; [lia|lia|lia|done].
  - intros k l [] [Hk ->]. eapply spec_conseq; [by apply H|]. done.
Qed.

Lemma spec_at_tok tok : spec d (at_ tok) (fun _ l _ => l = []).
Proof. intros s _ Hd. simpl. split; [done|]. exists 0, 0. split_and!; [lia|lia|done]. Qed.

Lemma spec_eat tok : tok <> TEof -> spec d (eat tok) (fun k l b => l = [] /\ (b = true -> 1 <= k)).
Proof.
  intros Ht s _ Hd. unfold eat, st_bind, at_. case_bool_decide as Hc; simpl.
  - destruct (advance_fields s) as [H1 H2]. destruct (advance_mu s) as [_ H3].
    split; [congruence|]. exists (mu s - mu (advance_state s)), 0. rewrite Hc in H3.
    specialize (H3 Ht). split_and!; [lia|lia|done|]. intros _. lia.
  - split; [done|]. exists 0, 0. split_and!; [lia|lia|done|done].
Qed.

Lemma spec_expect tok : tok <> TEof -> spec d (expect tok) (fun k l _ => l = [] /\ 1 <= k).
Proof.
  intros Ht. apply spec_current. intros c. case_bool_decide as Hc; [|by apply spec_at_any, spec_err].
  subst c. intros s Hs Hd. simpl. destruct (advance_fields s) as [H1 H2].
  destruct (advance_mu s) as [_ H3]. split; [congruence|].
  exists (mu s - mu (advance_state s)), 0. rewrite Hs in H3. specialize (H3 Ht).
  split_and!; [lia|lia|done|lia].
Qed.

Lemma spec_next_param : spec d next_param (fun _ l i => l = [i]).
Proof.
  intros s _ Hd. simpl. split; [done|]. exists 0, 1. unfold mu. simpl. split_and!; [lia|lia|done].
Qed.

Lemma spec_loop {A} (step : A -> P (option A)) (Inv : list nat -> A -> Prop) l0 acc0 :
  Inv l0 acc0 ->
  (forall l acc, Inv l acc -> spec d (step acc) (fun k l' r =>
     match r with Some acc' => 1 <= k /\ Inv (l ++ l') acc' | None => l' = [] end)) ->
  spec d (loop step acc0) (fun _ l acc => Inv (l0 ++ l) acc).
Proof.
  intros Hi Hstep s _ Hd. unfold loop.
  assert (Hg : forall fuel l0 acc0 s, mu s < fuel -> Inv l0 acc0 -> ps_depth s = d ->
    match loop_fuel step fuel acc0 s with
    | (_, Panic) => False
    | (_, Err _) => True
    | (s', Ok a) => ps_depth s' = d /\ exists k n, mu s = mu s' + k
        /\ ps_param_index s' = ps_param_index s + n /\ Inv (l0 ++ seq (ps_param_index s) n) a
    end); [|apply Hg; [lia|done|done]].
  clear l0 acc0 Hi s Hd. induction fuel as [|fuel IH]; intros l0 acc0 s Hf Hi Hd; [lia|].
  simpl. unfold st_bind. specialize (Hstep _ _ Hi s I Hd).
  destruct (step acc0 s) as [s1 [[acc1|]| |]]; [| |done..].
  - destruct Hstep as (Hd1 & k & n & Hk & Hn & Hk1 & Hi1).
    specialize (IH _ _ s1 ltac:(lia) Hi1 Hd1).
    destruct (loop_fuel step fuel acc1 s1) as [s2 [a| |]]; [|done..].
    destruct IH as (Hd2 & k' & n' & Hk' & Hn' & Hi2). split; [done|].
    exists (k + k'), (n + n'). split_and!; [lia|lia|].
    rewrite seq_app, app_assoc, <- Hn. done.
  - destruct Hstep as (Hd1 & k & n & Hk & Hn & Hl). simpl. split; [done|].
    exists k, n. split_and!; [lia|lia|]. rewrite Hl, app_nil_r. done.
Qed.

Lemma spec_nested {A} (m : P A) Q :
  (d < max_nesting_depth -> spec (S d) m Q) -> spec d (nested m) Q.
Proof.
  intros Hm s _ Hd. unfold nested. rewrite Hd.
  destruct (Nat.leb_spec max_nesting_depth d) as [|Hlt]; [done|].
  specialize (Hm Hlt (Parser (ps_rest s) (ps_current s) (ps_param_index s) (S d)) I eq_refl).
  destruct (m _) as [s1 [a| |]]; [|done..]. simpl in *.
  destruct Hm as (Hd1 & k & n & Hk & Hn & HQ). split; [lia|].
  exists k, n. unfold mu in *. simpl in *. done.
Qed.
End Rules.

(** ** The parsers *)

Create HintDb pspec discriminated.
#[export] Hint Extern 0 (_ <> TEof) => discriminate : pspec.
#[export] Hint Resolve spec_at_tok spec_eat spec_expect spec_next_param : pspec.

Definition no_params {A} (Phi : A -> Prop) (_ : nat) (l : list nat) (a : A) : Prop :=
  l = [] /\ Phi a.

(** One [let!]: the specification of its first part is in [pspec]. *)
Ltac pbind :=
  eapply spec_bind; [solve [eauto with pspec]|];
  let k := fresh "k" in let l := fresh "l" in let a := fresh "a" in let H := fresh "H" in
  intros k l a H; unfold no_params in H; cbn beta in H; destruct_and? H; try subst l; cbn [app].

Ltac pret := apply spec_ret; unfold no_params; cbn beta; rewrite ?app_nil_r.

Section Tokens.
Context {U : Unicode} (d : nat).

Lemma spec_ident : spec d parse_ident (no_params (fun _ => True)).
Proof.
  apply spec_current. intros c. destruct c; try (by apply spec_at_any, spec_err).
  apply spec_at_advance; [done|]. intros j _. by pret.
Qed.

Lemma parse_digits_nonneg acc s z : (0 <= acc)%Z -> parse_digits acc s = Some z -> (0 <= z)%Z.
Proof.
  revert acc. induction s as [|c s IH]; intros acc Ha; cbn [parse_digits]; [naive_solver|].
  destruct (is_ascii_digit c); [|done]. apply IH. lia.
Qed.

Lemma parse_usize_ok s z : parse_usize s = Some z -> usize_ok z = true.
Proof.
  unfold parse_usize, usize_ok. intros (v & Hv & Hz)%bind_Some.
  destruct (Z.leb_spec v usize_max); simplify_eq. apply andb_true_iff. rewrite !Z.leb_le.
  split; [|done]. assert (Hd : forall t, parse_digits1 t = Some z -> (0 <= z)%Z).
  { intros [|c t]; [done|]. by apply parse_digits_nonneg. }
  repeat case_match; eauto.
Qed.

Lemma spec_uint : spec d parse_uint (no_params (fun z => usize_ok z = true)).
Proof.
  apply spec_current. intros c. destruct c; try (by apply spec_at_any, spec_err).
  destruct (parse_usize s) eqn:Hs; [|by apply spec_at_any, spec_err].
  apply spec_at_advance; [done|]. intros j _. pret. split; [done|].
  by eapply parse_usize_ok.
Qed.

Lemma spec_ignore_uint : spec d (ignore parse_uint) (no_params (fun _ => True)).
Proof.
  intros s Hs Hd. pose proof (spec_uint s Hs Hd) as H. unfold ignore.
  assert (He : forall s' e, parse_uint s = (s', Err e) -> s' = s).
  { intros s' e. unfold parse_uint, st_bind, current, st_err. repeat case_match; naive_solver. }
  destruct (parse_uint s) as [s' [z|e|]]; [|rewrite (He _ _ eq_refl)|done].
  - destruct H as (H1 & k & n & H2 & H3 & H4 & _). split; [done|]. exists k, n. done.
  - split; [done|]. exists 0, 0. split_and!; [lia|lia|done].
Qed.

Hint Resolve spec_ident spec_uint spec_ignore_uint : pspec.

Lemma spec_alias : spec d parse_optional_alias (no_params (fun _ => True)).
Proof.
  unfold parse_optional_alias. pbind. destruct a; [pbind; by pret|].
  apply spec_current. intros c. apply spec_at_any. destruct c; try (by pret). pbind. by pret.
Qed.

Lemma spec_type_name :
  spec d parse_type_name (no_params (fun ty => to_lowercase ty = ty)).
Proof.
  unfold parse_type_name. pbind. pbind.
  apply (spec_bind d _ _ (no_params (fun _ => True))).
  - destruct a0; [|by pret]. pbind. pbind.
    apply (spec_bind d _ _ (no_params (fun _ => True))).
    + destruct a1; [eauto with pspec|by pret].
    + intros k' l' [] [-> _]. eapply spec_conseq; [by apply spec_expect|].
      intros ? ? ? [-> _]. done.
  - intros k' l' [] [-> _]. pret. split; [done|]. apply to_lowercase_idem.
Qed.

Lemma spec_limit :
  spec d parse_limit (no_params (fun l => usize_ok (lim_offset l) && usize_ok (lim_count l) = true)).
Proof.
  unfold parse_limit. pbind. pbind. destruct a0.
  - pbind. pret. split; [done|]. by apply andb_true_iff.
  - pbind. destruct a0; [pbind|]; pret; (split; [done|]); by apply andb_true_iff.
Qed.
End Tokens.

#[export] Hint Resolve spec_ident spec_uint spec_ignore_uint spec_alias spec_type_name spec_limit
  : pspec.

Section Combinators.
Context {U : Unicode} (d : nat).

(** A result that holds [f x] of the parameters and satisfies [ok]. *)
Definition holds {A} (f : A -> list nat) (ok : A -> bool) (_ : nat) (l : list nat) (a : A) : Prop :=
  f a = l /\ ok a = true.

Lemma spec_more {A} sep (item : P A) f ok acc l0 :
  sep <> TEof -> spec d item (holds f ok) ->
  concat (map f acc) = l0 -> forallb ok acc = true ->
  spec d (more sep item acc) (fun _ l xs => concat (map f xs) = l0 ++ l /\ forallb ok xs = true
                                /\ (acc <> [] -> xs <> [])).
Proof.
  intros Hs Hi Hl Hok. unfold more.
  apply (spec_loop d _ (fun l xs => concat (map f xs) = l /\ forallb ok xs = true
                          /\ (acc <> [] -> xs <> [])) l0 acc); [done|].
  intros l xs (Hl' & Hok' & Hn). pbind. destruct a; [|by pret].
  eapply spec_bind; [exact Hi|]. intros k' l' x [Hx Hxo]. cbn beta in *. pret.
  split; [naive_solver lia|]. rewrite map_app, concat_app, forallb_app. simpl.
  rewrite app_nil_r, Hok', Hxo, Hx, Hl'. split_and!; [done|done|]. by destruct xs.
Qed.

Lemma spec_sep_by {A} sep (item : P A) f ok :
  sep <> TEof -> spec d item (holds f ok) ->
  spec d (sep_by sep item)
    (fun _ l xs => concat (map f xs) = l /\ forallb ok xs = true /\ xs <> []).
Proof.
  intros Hs Hi. unfold sep_by. eapply spec_bind; [exact Hi|]. intros k l x [Hx Hxo]. cbn beta.
  eapply spec_conseq.
  - apply (spec_more sep item f ok [x] l); [done|done| |]; simpl; [by rewrite app_nil_r|by rewrite Hxo].
  - intros k' l' xs (H1 & H2 & H3). split_and!; [done|done|by apply H3].
Qed.

Lemma spec_opt_clause {A} tok (m : P A) f ok :
  tok <> TEof -> spec d m (holds f ok) ->
  spec d (opt_clause tok m) (holds (opt_list f) (opt_ok ok)).
Proof.
  intros Ht Hm. unfold opt_clause. pbind. destruct a; [|by pret].
  eapply spec_bind; [exact Hm|]. intros k' l' x [Hx Hxo]. pret. done.
Qed.
End Combinators.

(** Close a goal [holds f ok k l a] from the parts' [holds]. *)
Ltac pholds :=
  unfold holds, statement_params, stmt_wf in *; destruct_and?; cbn -[app]; subst;
  repeat match goal with H : ?b = true |- _ => rewrite ?H; clear H end;
  rewrite ?app_nil_r, ?app_assoc; cbn [app]; done.

Section ExprSpecs.
Context {U : Unicode} (d : nat) (pe : P expr) (ps : P select_statement).
Abbreviation Qe := (holds expr_params expr_wf).
Context (Hpe : spec d pe Qe) (Hps : spec d ps (holds statement_params stmt_wf)).
#[local] Hint Resolve Hpe Hps : pspec.

Lemma spec_expr_list :
  spec d (parse_expr_list pe)
    (fun _ l xs => concat (map expr_params xs) = l /\ forallb expr_wf xs = true /\ xs <> []).
Proof. by apply spec_sep_by. Qed.
#[local] Hint Resolve spec_expr_list : pspec.

Lemma spec_left_assoc op_of next :
  op_of TEof = None -> spec d next Qe -> spec d (left_assoc op_of next) Qe.
Proof.
  intros Hop Hn. unfold left_assoc. eapply spec_bind; [exact Hn|]. intros k l e [He Hw]. cbn beta.
  eapply spec_conseq.
  - apply (spec_loop d _ (fun l e => expr_params e = l /\ expr_wf e = true) l e); [done|].
    intros l' e' [He' Hw']. apply spec_current. intros c.
    destruct (op_of c) as [op|] eqn:Hc; [|by apply spec_at_any; pret].
    apply spec_at_advance; [congruence|]. intros j Hj.
    eapply spec_bind; [exact Hn|]. intros k2 l2 r [Hr Hwr]. cbn beta. pret.
    split; [lia|]. simpl. by rewrite He', Hr, Hw', Hwr.
  - intros k' l' e' [H1 H2]. done.
Qed.

Lemma spec_function_args :
  spec d (parse_function_args pe)
    (fun _ l a => concat (map expr_params a.1) = l /\ forallb expr_wf a.1 = true).
Proof.
  unfold parse_function_args. pbind. pbind. destruct a0; [by pret|].
  eapply spec_bind; [apply spec_sep_by; [discriminate|exact Hpe]|].
  intros k' l' xs (Hp & Hw & _). by pret.
Qed.
#[local] Hint Resolve spec_function_args : pspec.

Lemma spec_call name : spec d (parse_call pe name) Qe.
Proof. unfold parse_call. pbind. pbind. pret. pholds. Qed.
#[local] Hint Resolve spec_call : pspec.

Lemma spec_whens :
  spec d (loop (fun acc => let! b := eat TWhen in
              if b : bool then
                let! when_ := pe in let! _ := expect TThen in let! then_ := pe in
                st_ret (Some (acc ++ [WhenThen when_ then_]))
              else st_ret None) [])
    (fun _ l ws => concat (map (fun w => match w with
                             | WhenThen a b => expr_params a ++ expr_params b
                             end) ws) = l
       /\ forallb (fun w => match w with WhenThen a b => expr_wf a && expr_wf b end) ws = true).
Proof.
  apply (spec_loop d _ (fun l ws => concat (map (fun w => match w with
                             | WhenThen a b => expr_params a ++ expr_params b
                             end) ws) = l
       /\ forallb (fun w => match w with WhenThen a b => expr_wf a && expr_wf b end) ws = true) [] []);
    [done|].
  intros l ws [Hl Hw]. pbind. destruct a; [|by pret]. pbind. pbind. pbind. pret.
  split; [naive_solver lia|]. rewrite map_app, concat_app, forallb_app. unfold holds in *.
  destruct_and?. simpl. subst. rewrite Hw. rewrite app_nil_r.
  split; [done|]. by repeat match goal with H : ?b = true |- _ => rewrite ?H; clear H end.
Qed.
#[local] Hint Resolve spec_whens : pspec.

Lemma spec_case : spec d (parse_case pe) Qe.
Proof.
  unfold parse_case. pbind. pbind.
  apply (spec_bind d _ _ (holds (opt_list expr_params) (opt_ok expr_wf))).
  { destruct a0; [by pret|]. pbind. by pret. }
  intros k1 l1 o [Ho Hwo]. pbind. destruct a1 as [|w ws]; [apply spec_err|].
  remember (w :: ws) as ws' eqn:Hws. assert (nonempty ws' = true) by (by subst). clear Hws.
  eapply spec_bind; [apply (spec_opt_clause d TElse pe expr_params expr_wf); [discriminate|exact Hpe]|].
  intros k3 l3 el [Hel Hwel]. pbind. pret. pholds.
Qed.

Lemma spec_cast : spec d (parse_cast pe) Qe.
Proof.
  unfold parse_cast. do 6 pbind. pret. unfold holds in *. destruct_and?. simpl. subst.
  split; [done|]. apply andb_true_iff. split; [done|]. by apply bool_decide_eq_true.
Qed.

Lemma spec_convert : spec d (parse_convert pe) Qe.
Proof.
  unfold parse_convert. do 6 pbind. pret. unfold holds in *. destruct_and?. simpl. subst.
  split; [done|]. apply andb_true_iff. split; [done|]. by apply bool_decide_eq_true.
Qed.

Lemma number_literal_ok s v : number_literal s = Ok v -> literal_wf v = true.
Proof.
  unfold number_literal, ok_or. intros H.
  assert (Hi : forall n, parse_i64 s = Some n -> in_i64 n = true).
  { intros n (z & _ & Hz)%bind_Some. case_match; by simplify_eq. }
  destruct (parse_f64 s), (parse_i64 s); simpl in H; case_match; simplify_eq; simpl; auto.
Qed.

Lemma number_literal_no_panic s : number_literal s <> Panic.
Proof. unfold number_literal, ok_or. repeat case_match; done. Qed.

Lemma spec_at_literal c v : c <> TEof -> literal_wf v = true -> spec_at d c (literal v) Qe.
Proof. intros Hc Hv. apply spec_at_advance; [done|]. intros j _. by pret. Qed.

Lemma spec_named c name : c <> TEof -> spec_at d c (parse_named pe name) Qe.
Proof.
  intros Hc. apply spec_at_advance; [done|]. intros j _. pbind.
  destruct a; [eapply spec_conseq; [apply spec_call|done]|].
  pbind. destruct a; [|by pret]. pbind. destruct a; [by pret|]. pbind. by pret.
Qed.

Lemma spec_paren c : c <> TEof -> spec_at d c (parse_paren pe ps) Qe.
Proof.
  intros Hc. apply spec_at_advance; [done|]. intros j _. pbind. destruct a; pbind; pbind; pret; pholds.
Qed.

Lemma spec_primary : spec d (parse_primary pe ps) Qe.
Proof.
  apply spec_current. intros c.
  assert (Hedge : forall name, c <> TEof -> spec_at d c (parse_edge_call pe name) Qe).
  { intros name Hc. apply spec_at_advance; [done|]. intros j _. pbind.
    eapply spec_conseq; [apply spec_call|done]. }
  destruct c; lazymatch goal with
  | |- spec_at _ _ (st_err _) _ => apply spec_at_any, spec_err
  | |- spec_at _ _ (literal _) _ => by apply spec_at_literal
  | |- spec_at _ _ (parse_edge_call _ _) _ => by apply Hedge
  | |- spec_at _ _ (parse_named _ _) _ => by apply spec_named
  | |- spec_at _ _ (parse_paren _ _) _ => by apply spec_paren
  | |- spec_at _ _ (parse_case _) _ => apply spec_at_any, spec_case
  | |- spec_at _ _ (parse_cast _) _ => apply spec_at_any, spec_cast
  | |- spec_at _ _ (parse_convert _) _ => apply spec_at_any, spec_convert
  | |- _ => idtac
  end.
  - apply spec_at_advance; [done|]. intros j _.
    eapply spec_bind; [apply spec_lift; [apply number_literal_no_panic|]; intros v Hv;
      exact (conj eq_refl (number_literal_ok _ _ Hv) : holds (fun _ => []) literal_wf 0 [] v)|].
    intros k l v [<- Hv]. by pret.
  - apply spec_at_advance; [done|]. intros j _. by pret.
  - apply spec_at_advance; [done|]. intros j _. by pret.
  - apply spec_at_advance; [done|]. intros j _. pbind. by pret.
Qed.

Lemma spec_unary : spec d (parse_unary pe ps) Qe.
Proof.
  intros s Hs Hd. unfold parse_unary.
  assert (Hg : forall fuel, spec_on (fun s => mu s < fuel) d (unary_fuel pe ps fuel) Qe);
    [|apply Hg; [lia|done]].
  clear s Hs Hd. induction fuel as [|fuel IH]; intros s Hs Hd; [lia|].
  simpl. unfold eat, at_, st_bind.
  assert (Hsign : forall op, ps_current s <> TEof ->
    match (let! e := unary_fuel pe ps fuel in st_ret (XUnary op e)) (advance_state s) with
    | (_, Panic) => False
    | (_, Err _) => True
    | (s', Ok a) => ps_depth s' = d /\ exists k n, mu s = mu s' + k
        /\ ps_param_index s' = ps_param_index s + n /\ Qe k (seq (ps_param_index s) n) a
    end).
  { intros op Hc. destruct (advance_mu s) as [_ Hm]. specialize (Hm Hc).
    destruct (advance_fields s) as [Hd' Hp']. unfold st_bind.
    specialize (IH (advance_state s) ltac:(cbn beta in *; lia) ltac:(congruence)).
    destruct (unary_fuel pe ps fuel (advance_state s)) as [s' [e| |]]; [|done..].
    destruct IH as (H1 & k & n & H2 & H3 & H4). split; [done|].
    exists (mu s - mu (advance_state s) + k), n. rewrite Hp' in H3, H4. split_and!; [lia|lia|exact H4]. }
  case_bool_decide as Hm; [apply Hsign; congruence|]. simpl.
  case_bool_decide as Hp; [apply Hsign; congruence|]. simpl. by apply spec_primary.
Qed.

Lemma spec_concat : spec d (parse_concat pe ps) Qe.
Proof.
  apply spec_left_assoc; [done|]. apply spec_left_assoc; [done|].
  apply spec_left_assoc; [done|]. apply spec_unary.
Qed.
#[local] Hint Resolve spec_concat : pspec.

Lemma spec_in l e negated :
  expr_params e = l -> expr_wf e = true ->
  spec d (parse_in pe ps e negated) (fun k l' e' => Qe k (l ++ l') e').
Proof.
  intros He Hw. unfold parse_in. pbind. pbind. pbind. destruct a1.
  - pbind. pbind. pret. pholds.
  - pbind. pbind. destruct a1 as [|i items]; [done|].
    remember (i :: items) as its. assert (nonempty its = true) by (by subst). clear Heqits.
    pret. pholds.
Qed.

Lemma spec_between l e negated :
  expr_params e = l -> expr_wf e = true ->
  spec d (parse_between pe ps e negated) (fun k l' e' => Qe k (l ++ l') e').
Proof. intros He Hw. unfold parse_between. do 4 pbind. pret. pholds. Qed.

Lemma spec_like l e negated :
  expr_params e = l -> expr_wf e = true ->
  spec d (parse_like pe ps e negated) (fun k l' e' => Qe k (l ++ l') e').
Proof.
  intros He Hw. unfold parse_like. pbind. pbind.
  eapply spec_bind; [apply spec_opt_clause; [discriminate|apply spec_concat]|].
  intros k' l' es [Hes Hwes]. pret. pholds.
Qed.

Lemma spec_predicate : spec d (parse_predicate pe ps) Qe.
Proof.
  unfold parse_predicate. eapply spec_bind; [apply spec_concat|]. intros k l e [He Hw]. cbn beta.
  apply spec_current. intros c. destruct (comparison_op c) as [op|] eqn:Hop.
  { apply spec_at_advance; [by intros ->|]. intros j _. pbind. pret. pholds. }
  destruct c; try discriminate Hop; lazymatch goal with
  | |- spec_at _ _ (st_ret _) _ => apply spec_at_any; by pret
  | |- spec_at _ _ (parse_in _ _ _ _) _ => by apply spec_at_any, spec_in
  | |- spec_at _ _ (parse_between _ _ _ _) _ => by apply spec_at_any, spec_between
  | |- spec_at _ _ (parse_like _ _ _ _) _ => by apply spec_at_any, spec_like
  | |- _ => idtac
  end.
  - apply spec_at_advance; [done|]. intros j _. apply spec_current. intros c. apply spec_at_any.
    destruct c; lazymatch goal with
    | |- spec _ (st_err _) _ => apply spec_err
    | |- spec _ (parse_in _ _ _ _) _ => by apply spec_in
    | |- spec _ (parse_between _ _ _ _) _ => by apply spec_between
    | |- spec _ (parse_like _ _ _ _) _ => by apply spec_like
    end.
  - apply spec_at_advance; [done|]. intros j _. pbind. pbind. pret. pholds.
Qed.

Lemma spec_or : spec d (parse_or pe ps) Qe.
Proof.
  apply spec_left_assoc; [done|]. apply spec_left_assoc; [done|].
  unfold parse_not. pbind. destruct a.
  - eapply spec_bind; [apply spec_predicate|]. intros k' l' e [He Hw]. pret. pholds.
  - eapply spec_conseq; [apply spec_predicate|]. done.
Qed.
End ExprSpecs.

Section SelectSpecs.
Context {U : Unicode} (d : nat) (pe : P expr) (ps : P select_statement).
Abbreviation Qe := (holds expr_params expr_wf).
Abbreviation Qt := (holds table_params table_wf).
Abbreviation Qc := (holds (core_collect expr_params table_params) (core_wf expr_wf table_wf)).
Context (Hpe : spec d pe Qe) (Hps : spec d ps (holds statement_params stmt_wf)).
#[local] Hint Resolve Hpe Hps : pspec.

Abbreviation col_params := (fun sc : select_column => match sc with SelectColumn e _ => expr_params e end).
Abbreviation col_wf := (fun sc : select_column => match sc with SelectColumn e _ => expr_wf e end).
Abbreviation join_params :=
  (fun j : join_clause => match j with JoinClause _ t on => table_params t ++ opt_list expr_params on end).
Abbreviation join_wf :=
  (fun j : join_clause => match j with JoinClause _ t on => table_wf t && opt_ok expr_wf on end).
Abbreviation ob_params := (fun ob : order_by_expr => match ob with OrderByExpr e _ => expr_params e end).
Abbreviation ob_wf := (fun ob : order_by_expr => match ob with OrderByExpr e _ => expr_wf e end).

Lemma spec_select_column : spec d (parse_select_column pe) (holds col_params col_wf).
Proof. unfold parse_select_column. pbind. pbind. pret. pholds. Qed.

Lemma spec_order_by_item : spec d (parse_order_by_item pe) (holds ob_params ob_wf).
Proof.
  unfold parse_order_by_item. pbind. pbind. destruct a0; [pret; pholds|]. pbind. pret. pholds.
Qed.

Lemma spec_dotted name : spec d (parse_dotted name) (no_params (fun _ => True)).
Proof.
  eapply spec_conseq; [apply (spec_loop d _ (fun l _ => l = []) [] name); [done|]|].
  - intros l acc ->. pbind. destruct a; [|by pret]. pbind. pret. naive_solver lia.
  - intros k l a Hl. done.
Qed.
#[local] Hint Resolve spec_dotted : pspec.

Lemma spec_table_ref : spec d (parse_table_ref ps) Qt.
Proof.
  unfold parse_table_ref. pbind. destruct a.
  - do 4 pbind. pret. pholds.
  - do 3 pbind. pret. pholds.
Qed.
#[local] Hint Resolve spec_table_ref : pspec.

Lemma spec_join_with_on jt :
  spec d (parse_join_with_on pe ps jt) (holds join_params join_wf).
Proof. unfold parse_join_with_on. do 3 pbind. pret. pholds. Qed.
#[local] Hint Resolve spec_join_with_on : pspec.

(** A join clause, after some text. *)
Definition join_read (k : nat) (l : list nat) (j : join_clause) : Prop :=
  1 <= k /\ join_params j = l /\ join_wf j = true.

Definition join_round (k : nat) (l : list nat) (r : option join_clause) : Prop :=
  match r with Some j => join_read k l j | None => l = [] end.

Lemma spec_some pre (m : P join_clause) :
  spec_on pre d m join_read -> spec_on pre d (let! j := m in st_ret (Some j)) join_round.
Proof.
  intros Hm. eapply spec_on_bind; [exact Hm|]. intros k l j Hj. pret.
  rewrite Nat.add_0_r. exact Hj.
Qed.

Lemma spec_join_read jt k0 :
  1 <= k0 -> spec d (parse_join_with_on pe ps jt) (fun k l j => join_read (k0 + k) l j).
Proof.
  intros Hk. eapply spec_conseq; [apply spec_join_with_on|]. intros k l j [H1 H2].
  split; [lia|done].
Qed.

Lemma spec_outer_join c jt : c <> TEof -> spec_at d c (parse_outer_join pe ps jt) join_read.
Proof.
  intros Hc. apply spec_at_advance; [done|]. intros j Hj. pbind. pbind.
  eapply spec_conseq; [apply (spec_join_read jt j Hj)|]. intros k2 l2 x (Hx & Hx2).
  split; [lia|done].
Qed.

Lemma spec_join : spec d (parse_join pe ps) join_round.
Proof.
  unfold parse_join. apply spec_current. intros c.
  destruct c; lazymatch goal with
  | |- spec_at _ _ (st_ret _) _ => apply spec_at_any; by pret
  | |- spec_at _ _ (st_bind (parse_outer_join _ _ _) _) _ => by apply spec_some, spec_outer_join
  | |- _ => idtac
  end.
  - apply spec_some, spec_at_any. pbind. pbind.
    eapply spec_conseq; [apply (spec_join_read Inner 1); lia|]. intros k2 l2 x (Hx & Hx2).
    split; [lia|done].
  - apply spec_some, spec_at_any. pbind. pbind.
    eapply spec_conseq; [apply (spec_join_read Inner 1); lia|]. intros k2 l2 x (Hx & Hx2).
    split; [lia|done].
  - apply spec_some, spec_at_advance; [done|]. intros j Hj. pbind. pbind. pret.
    split; [lia|]. pholds.
  - apply spec_some, spec_at_advance; [done|]. intros j Hj. pbind. pret.
    split; [lia|]. pholds.
Qed.

Definition from_params (f : option table_ref * list join_clause) : list nat :=
  opt_list table_params f.1 ++ concat (map join_params f.2).
Definition from_wf (f : option table_ref * list join_clause) : bool :=
  opt_ok table_wf f.1 && forallb join_wf f.2.

Lemma spec_from : spec d (parse_from pe ps) (holds from_params from_wf).
Proof.
  unfold parse_from. pbind. eapply spec_bind.
  - apply (spec_loop d _ (fun l js => concat (map join_params js) = l /\ forallb join_wf js = true)
      [] []); [done|].
    intros l0 js [Hl Hw]. eapply spec_bind; [apply spec_join|]. intros k1 l1 [j|] Hj; pret.
    + destruct Hj as (H1 & H2 & H3). split; [lia|].
      rewrite map_app, concat_app, forallb_app. simpl. rewrite app_nil_r, H3, Hw, H2, Hl. done.
    + exact Hj.
  - intros k1 l1 js [H1 H2]. pret. unfold holds, from_params, from_wf in *. simpl in *.
    destruct_and?. subst. split; [done|]. by apply andb_true_iff.
Qed.

Lemma spec_opt_expr tok :
  tok <> TEof -> spec d (opt_clause tok pe) (holds (opt_list expr_params) (opt_ok expr_wf)).
Proof. intros Ht. by apply spec_opt_clause. Qed.

Lemma spec_opt_top :
  spec d (opt_clause TTop parse_uint) (fun _ l o => l = [] /\ opt_ok usize_ok o = true).
Proof. unfold opt_clause. pbind. destruct a; [pbind|]; by pret. Qed.

Lemma spec_columns :
  spec d (parse_select_columns pe)
    (fun _ l cs => concat (map col_params cs) = l /\ forallb col_wf cs = true /\ cs <> []).
Proof. apply spec_sep_by; [discriminate|apply spec_select_column]. Qed.

Lemma spec_optional_from (b : bool) :
  spec d (if b then parse_from pe ps else st_ret (None, [])) (holds from_params from_wf).
Proof. destruct b; [apply spec_from|by pret]. Qed.

Lemma spec_group_by (b : bool) :
  spec d (if b then let! _ := expect TBy in parse_expr_list pe else st_ret [])
    (holds (fun es => concat (map expr_params es)) (forallb expr_wf)).
Proof.
  destruct b; [|by pret]. pbind. eapply spec_conseq; [apply (spec_expr_list d pe Hpe)|].
  intros k2 l2 es (Hp1 & Hp2 & _). done.
Qed.
#[local] Hint Resolve spec_opt_expr spec_opt_top spec_columns spec_optional_from spec_group_by : pspec.

Lemma spec_core : spec d (parse_select_core pe ps) Qc.
Proof.
  unfold parse_select_core. do 9 pbind. destruct a2 as [|c0 cs]; [done|].
  remember (c0 :: cs) as cols. assert (Hne : nonempty cols = true) by (by subst). clear Heqcols.
  pbind. pret. unfold holds, from_params, from_wf in *. destruct_and?.
  match goal with H : opt_ok _ _ && _ = true |- _ => apply andb_true_iff in H as [Hf Hj] end.
  split; [|unfold core_wf; by rewrite !andb_true_iff].
  unfold core_collect. subst. by rewrite ?app_nil_r, <- ?app_assoc.
Qed.
#[local] Hint Resolve spec_core : pspec.

Abbreviation un_params :=
  (fun u : union_arm => match u with Union _ c => core_collect expr_params table_params c end).
Abbreviation un_wf := (fun u : union_arm => match u with Union _ c => core_wf expr_wf table_wf c end).

Lemma spec_union : spec d (parse_union pe ps) (holds un_params un_wf).
Proof.
  unfold parse_union. pbind.
  apply (spec_bind d _ _ (no_params (fun _ => True))).
  { destruct a; [by pret|]. eapply spec_conseq; [by apply spec_eat|]. by intros ? ? ? [-> _]. }
  intros k' l' b [-> _]. pbind. pret. pholds.
Qed.

Lemma lift_top_spec (body : select_core) limit :
  core_wf expr_wf table_wf body = true ->
  opt_ok (fun l => usize_ok (lim_offset l) && usize_ok (lim_count l)) limit = true ->
  core_wf expr_wf table_wf (lift_top body limit).1 = true
  /\ core_collect expr_params table_params (lift_top body limit).1
     = core_collect expr_params table_params body
  /\ match (lift_top body limit).2 with
      | Some l => usize_ok (lim_offset l) && usize_ok (lim_count l)
      | None => match co_top (lift_top body limit).1 with None => true | Some _ => false end
      end = true.
Proof.
  destruct body as [ds [n|] cols from joins w g h], limit as [lim|]; intros Hb Hl; try done.
  simpl in Hb. rewrite !andb_true_iff in Hb. destruct_and!. simpl.
  split_and!; [by rewrite !andb_true_iff|done|done].
Qed.

Lemma spec_statement :
  spec d (parse_select_statement_inner pe ps) (holds statement_params stmt_wf).
Proof.
  unfold parse_select_statement_inner. pbind.
  eapply spec_bind; [apply (spec_more d TUnion _ un_params un_wf [] []); [done|apply spec_union|done..]|].
  intros k1 l1 us (Hu & Huw & _). pbind.
  apply (spec_bind d _ _ (holds (fun obs => concat (map ob_params obs)) (forallb ob_wf))).
  { destruct a0; [|by pret]. pbind. eapply spec_conseq;
      [apply spec_sep_by; [discriminate|apply spec_order_by_item]|]. by intros ? ? ? (? & ? & _). }
  intros k2 l2 obs [Ho How].
  apply (spec_bind d _ _ (fun _ l o => l = [] /\
    opt_ok (fun l => usize_ok (lim_offset l) && usize_ok (lim_count l)) o = true)).
  { unfold opt_clause. pbind. destruct a1; [|by pret]. pbind. by pret. }
  intros k3 l3 lim [-> Hlim]. pret. destruct H as [Hb Hbw].
  destruct (lift_top_spec a lim Hbw Hlim) as (H1' & H2' & H3').
  unfold holds, statement_params, stmt_wf. cbn -[app]. rewrite H2', H1', Huw, How, H3', Hb, Ho, Hu.
  cbn [andb app]. by rewrite ?app_nil_r, ?app_assoc.
Qed.
End SelectSpecs.

(** ** The whole parser *)

Section Knot.
Context {U : Unicode}.

Lemma parsers_spec levels d :
  d <= max_nesting_depth -> S max_nesting_depth <= d + levels ->
  spec d (parsers levels).1 (holds expr_params expr_wf)
  /\ spec d (parsers levels).2 (holds statement_params stmt_wf).
Proof.
  revert d. induction levels as [|levels IH]; intros d Hd Hl; [lia|]. cbn [parsers fst snd].
  split; apply spec_nested; intros Hlt; destruct (IH (S d)) as [He Hs]; try lia.
  - by apply spec_or.
  - by apply spec_statement.
Qed.

Lemma parse_spec sql :
  match parse sql with
  | Ok stmt => stmt_wf stmt = true /\ exists n, statement_params stmt = seq 0 n
  | Err _ => True
  | Panic => False
  end.
Proof.
  unfold parse. set (s := new_parser sql).
  assert (Hs : ps_depth s = 0 /\ ps_param_index s = 0).
  { unfold s, new_parser. by destruct (next_token sql). }
  destruct Hs as [Hd Hp]. unfold parse_statement, st_bind, current.
  case_bool_decide; [|done].
  destruct (parsers_spec (S max_nesting_depth) 0) as [_ H1]; [lia|lia|].
  specialize (H1 s I Hd). unfold parse_select_statement.
  destruct (snd (parsers _) s) as [s1 [stmt| |]]; [|done..].
  destruct H1 as (_ & k & n & _ & _ & H2 & H3). rewrite Hp in H2.
  destruct (ps_current s1); simpl; eauto.
Qed.
End Knot.

(** C24. The parser is total and its results are well formed: on every text it
    returns a statement or an error, within its nesting limit and without
    running out of text; a returned statement has unresolved columns,
    uncompiled patterns, scalar [i64] literals, lower-case cast types, non-empty
    SELECT lists, CASE arms and IN lists, [usize] limits, and no TOP left where
    there is no LIMIT; and its [?] parameters are numbered 0, 1, 2, ... in the
    order in which they stand in the text, subqueries included. *)
Theorem parse_correct `{U : Unicode} sql :
  match parse sql with
  | Ok stmt => stmt_wf stmt = true /\ exists n, statement_params stmt = seq 0 n
  | Err _ => True
  | Panic => False
  end.
Proof. apply parse_spec. Qed.

(** ** The nesting limit and signs *)

Fixpoint signs (n : nat) (e : expr) : expr :=
  match n with 0 => e | S n => XUnary UPlus (signs n e) end.

Definition select_one (e : expr) : select_statement :=
  SelectStatement (SelectCore false None [SelectColumn e None] None [] None [] None) [] [] None.

Section Signs.
Context {U : Unicode} (pe : P expr) (ps : P select_statement).

Definition plus_text (n : nat) : str := replicate n 43%N ++ lit "1".

(** The parser in front of [n] plus signs and a 1. *)
Definition at_plus (n : nat) (d : nat) : parser :=
  let '(t, r) := next_token (plus_text n) in Parser r t 0 d.

Lemma eat_miss tok s : ps_current s <> tok -> eat tok s = (s, Ok false).
Proof. intros H. unfold eat, at_, st_bind. by rewrite bool_decide_eq_false_2. Qed.

Lemma eat_hit tok s : ps_current s = tok -> eat tok s = (advance_state s, Ok true).
Proof. intros H. unfold eat, at_, st_bind. by rewrite bool_decide_eq_true_2. Qed.

Lemma next_token_plus s : next_token (43%N :: s) = (TPlus, s).
Proof. unfold next_token, skip_trivia. cbn [length skip_trivia_go]. done. Qed.

Lemma at_plus_S n d : at_plus (S n) d = Parser (plus_text n) TPlus 0 d.
Proof. unfold at_plus, plus_text. cbn [replicate app]. by rewrite next_token_plus. Qed.

Lemma unary_signs n d fuel :
  n < fuel ->
  unary_fuel pe ps fuel (at_plus n d)
  = (Parser [] TEof 0 d, Ok (signs n (XLiteral (VInt 1)))).
Proof.
  revert fuel. induction n as [|n IH]; intros [|fuel] Hf; try lia.
  - reflexivity.
  - rewrite at_plus_S. cbn [unary_fuel]. unfold st_bind at 1.
    rewrite eat_miss by done. unfold st_bind at 1. rewrite eat_hit by done.
    specialize (IH fuel ltac:(lia)). unfold at_plus in IH. unfold advance_state. cbn [ps_rest].
    destruct (next_token (plus_text n)) as [t r]. cbn [ps_param_index ps_depth].
    unfold st_bind. by rewrite IH.
Qed.

Lemma at_plus_mu n d : n <= mu (at_plus n d).
Proof.
  destruct n as [|n]; [lia|]. rewrite at_plus_S. unfold mu, plus_text. simpl.
  rewrite length_app, length_replicate. lia.
Qed.

Lemma left_assoc_end op_of next s d e :
  op_of TEof = None -> next s = (Parser [] TEof 0 d, Ok e) ->
  left_assoc op_of next s = (Parser [] TEof 0 d, Ok e).
Proof.
  intros Ho Hn. unfold left_assoc, st_bind at 1. rewrite Hn. unfold loop. cbn [mu ps_rest ps_current].
  cbn [loop_fuel length Nat.add]. unfold st_bind, current. cbn [ps_current]. by rewrite Ho.
Qed.

Lemma or_signs n d :
  parse_or pe ps (at_plus n d) = (Parser [] TEof 0 d, Ok (signs n (XLiteral (VInt 1)))).
Proof.
  assert (Hc : parse_concat pe ps (at_plus n d)
    = (Parser [] TEof 0 d, Ok (signs n (XLiteral (VInt 1))))).
  { do 3 (apply left_assoc_end; [done|]). unfold parse_unary. apply unary_signs.
    pose proof (at_plus_mu n d). lia. }
  do 2 (apply left_assoc_end; [done|]). unfold parse_not, st_bind at 1.
  rewrite eat_miss by (destruct n as [|n]; [by vm_compute|by rewrite at_plus_S]).
  unfold parse_predicate, st_bind. by rewrite Hc.
Qed.
(** At the end of the text every further clause is absent. *)
Lemma core_signs n d e :
  pe (at_plus n d) = (Parser [] TEof 0 d, Ok e) ->
  parse_select_core pe ps (Parser (32%N :: plus_text n) TSelect 0 d)
  = (Parser [] TEof 0 d, Ok (SelectCore false None [SelectColumn e None] None [] None [] None)).
Proof.
  intros He. unfold parse_select_core, st_bind at 1.
  assert (Hx : expect TSelect (Parser (32%N :: plus_text n) TSelect 0 d) = (at_plus n d, Ok ())).
  { unfold expect, st_bind, current. rewrite bool_decide_eq_true_2 by done.
    unfold advance, advance_state, at_plus. cbn [ps_current ps_rest]. rewrite next_token_space. by destruct (next_token (plus_text n)). }
  rewrite Hx. assert (Hc : forall t, t <> TPlus -> (forall x, t <> TNumber x) ->
    ps_current (at_plus n d) <> t).
  { intros t Ht Hn. destruct n as [|n]; [intros E; by apply (Hn (lit "1"))|by rewrite at_plus_S]. }
  unfold st_bind at 1. rewrite eat_miss by (by apply Hc).
  unfold st_bind at 1. unfold opt_clause at 1, st_bind at 1. rewrite eat_miss by (by apply Hc).
  cbn [st_ret]. unfold st_ret at 1. unfold parse_select_columns, sep_by, parse_select_column.
  unfold st_bind at 1 2 3. rewrite He. reflexivity.
Qed.
End Signs.

(** The nesting limit does not bound the recursion of the parser: a SELECT of
    any number of plus signs before a 1 is accepted, with one nested node, and
    one nested call of [parse_unary], per sign. *)
Theorem signs_unbounded `{U : Unicode} n :
  parse (lit "SELECT " ++ plus_text n) = Ok (select_one (signs n (XLiteral (VInt 1)))).
Proof.
  assert (Hn : new_parser (lit "SELECT " ++ plus_text n) = Parser (32%N :: plus_text n) TSelect 0 0).
  { unfold new_parser. change (lit "SELECT " ++ plus_text n) with (lit "SELECT" ++ 32%N :: plus_text n).
    rewrite (next_keyword TSelect) by reflexivity. done. }
  unfold parse. rewrite Hn. unfold parse_statement, st_bind at 1, current.
  cbn [ps_current]. rewrite bool_decide_eq_true_2 by done.
  unfold parse_select_statement. replace max_nesting_depth with (S (Z.to_nat 511)) at 1 by done.
  cbn [parsers snd]. remember (parsers (Z.to_nat 511)) as deep. unfold st_bind at 1.
  assert (He : nested (parse_or deep.1 deep.2) (at_plus n 1)
    = (Parser [] TEof 0 1, Ok (signs n (XLiteral (VInt 1))))).
  { unfold nested, at_plus. pose proof (or_signs deep.1 deep.2 n 2) as Ho. unfold at_plus in Ho.
    destruct (next_token (plus_text n)) as [t r]. cbn [ps_depth ps_rest ps_current ps_param_index].
    replace (max_nesting_depth <=? 1) with false by done. by rewrite Ho. }
  unfold nested at 1. cbn [ps_depth ps_rest ps_current ps_param_index].
  replace (max_nesting_depth <=? 0) with false by done.
  unfold parse_select_statement_inner, st_bind at 1. cbn [fst snd].
  rewrite (core_signs _ _ n 1 _ He). reflexivity.
Qed.

(** ** Parsed filters are compiled faithfully *)

Section ParsedFilters.
Context {U : Unicode} {D : DateLib} {R : RegexCrate} (tables : table_set).

Lemma bound_item e : expr_wf e = true -> scalar_item (bind_expr tables e) = true.
Proof.
  destruct e; simpl; try done; repeat case_match; done.
Qed.

Lemma bound_scalar e : expr_wf e = true -> scalar_in_lists (bind_expr tables e) = true.
Proof.
  induction e using expr_ind'; simpl; try done; rewrite ?andb_true_iff; intros Hw; destruct_and?;
    try (by auto).
  - by repeat case_match.
  - rewrite forallb_forall. intros x (e' & <- & Hx)%in_map_iff.
    apply bound_item. match goal with H : forallb expr_wf l = true |- _ =>
      rewrite forallb_forall in H; by apply H end.
Qed.

Definition statement_cores (s : select_statement) : list select_core :=
  ss_body s :: map un_select (ss_unions s).

Lemma wf_where s core w :
  stmt_wf s = true -> core ∈ statement_cores s -> co_where core = Some w -> expr_wf w = true.
Proof.
  destruct s as [body unions obs lim]. unfold stmt_wf. simpl. rewrite !andb_true_iff.
  intros [[[Hb Hu] _] _] Hc Hw.
  assert (Hcore : core_wf expr_wf table_wf core = true).
  { apply elem_of_cons in Hc as [->|Hc]; [done|]. simpl in Hc.
    apply list_elem_of_In, in_map_iff in Hc as ([al c] & <- & Hin).
    rewrite forallb_forall in Hu. apply (Hu _ Hin). }
  destruct core as [ds t cols from joins w0 g h]. simpl in *. subst w0.
  rewrite !andb_true_iff in Hcore. by destruct_and!.
Qed.
End ParsedFilters.

(** The WHERE clause of every core of a parsed statement, bound against any
    tables and compiled to the row-filter form, evaluates on every row and group
    to what the clause itself evaluates to, errors and effects included. *)
Theorem parsed_where_correct `{U : Unicode} `{D : DateLib} `{R : RegexCrate} `{L : Libm} {W}
    sql stmt core w (en : engine W) run_sub tables ctx :
  parse sql = Ok stmt -> core ∈ statement_cores stmt -> co_where core = Some w ->
  meq (eval_compiled en run_sub tables (compile (bind_expr tables w)) ctx)
      (eval en run_sub tables w ctx).
Proof.
  intros Hp Hc Hw. pose proof (parse_spec sql) as Hs. rewrite Hp in Hs. destruct Hs as [Hs _].
  etrans; [|apply eval_bind_expr]. apply compile_correct_aux, bound_scalar. by eapply wf_where.
Qed.
