(* ===== verification/Witnesses.v ===== *)
(** * Witnesses: the theorems at concrete inputs

    Each lemma applies one theorem of the development to concrete data, with its
    hypotheses discharged by evaluation, under the instances of [Instances]. *)

From stdpp Require Import base list numbers strings gmap.
From S2P Require Import Prelude Text Float64 Value QoqLike QoqAst QoqLexer QoqCompare QoqTable QoqJoin QoqFunctions QoqOps QoqEval QoqOpsFacts QoqCompiled QoqColumns QoqExec QoqNames Instances QoqHashJoin QoqEvalFacts QoqRunFacts QoqParallel QoqColumnsFacts QoqResults QoqNamesFacts QoqParser QoqParserFacts.

(** ** Sample data *)

Definition demo_registry : registry unit := registry_new.
Definition demo_udf (f : value) (args : list value) : ST unit cfml_error value := st_ret VNull.
Definition demo_params : qoq_params := QoQParams [] [].

Definition demo_query : query_data :=
  mk_query [lit "id"; lit "name"]
    [[VInt 2; VInt 1; VInt 2]; [VString (lit "b"); VString (lit "a"); VString (lit "B")]].
Definition demo_sources : list (str * query_data) := [(lit "t", demo_query)].

Definition demo_engine : engine unit := Engine demo_sources demo_params demo_registry demo_udf false.
Definition demo_run (s : select_statement) : ST unit cfml_error query_data :=
  run_statement demo_engine s.

Definition demo_sql : str := lit "SELECT DISTINCT id, name FROM T WHERE id IN (1, 2) ORDER BY id DESC".
Definition demo_stmt : select_statement :=
  match parse demo_sql with Ok s => s | _ => select_one (XLiteral VNull) end.

Definition demo_tables : table_set := [from_query_data (lit "t") demo_query].

(** ** Runs *)

Lemma execute_well_formed_witness :
  exists q, execute demo_stmt demo_sources demo_params demo_registry demo_udf () = ((), Ok q)
    /\ query_wf q /\ NoDup (map to_lowercase (q_columns q)).
Proof.
  eexists. split; [vm_compute; reflexivity|].
  eapply (execute_well_formed demo_stmt demo_sources demo_params demo_registry demo_udf () ()).
  vm_compute. reflexivity.
Defined.

Lemma base_tables_suffice_witness :
  meq (execute demo_stmt demo_sources demo_params demo_registry demo_udf)
      (execute demo_stmt (demo_sources ++ [(lit "u", demo_query)]) demo_params demo_registry demo_udf).
Proof.
  apply (base_tables_suffice demo_stmt). intros n Hn.
  assert (Hl : to_lowercase n = lit "t").
  { replace (map to_lowercase (base_table_names demo_stmt)) with [lit "t"] in Hn
      by (vm_compute; reflexivity). by apply list_elem_of_singleton in Hn. }
  assert (Hu : eq_ignore_ascii_case (lit "u") n = false).
  { apply not_true_is_false. intros Hu. destruct n as [|c [|c' n]]; [done| |];
      [|simpl in Hu; by rewrite andb_false_r in Hu].
    simpl in Hu. apply andb_true_iff in Hu as [Hu _].
    unfold char_eq_ignore_ascii_case in Hu. apply N.eqb_eq in Hu. vm_compute in Hu.
    assert (Hc : c = 117%N \/ c = 85%N) by (revert Hu; repeat case_match; lia).
    destruct Hc as [-> | ->]; vm_compute in Hl; discriminate. }
  unfold source_lookup. rewrite List.filter_app. cbn [List.filter fst]. rewrite Hu.
  by rewrite app_nil_r.
Defined.

Lemma parallel_run_correct_witness :
  select_is_pure demo_registry demo_stmt = true
  /\ forall q, (execute demo_stmt demo_sources demo_params demo_registry demo_udf ()).2 = Ok q
       <-> (run_statement (Engine demo_sources demo_params demo_registry demo_udf false) demo_stmt ()).2
           = Ok q.
Proof.
  split; [vm_compute; reflexivity|].
  destruct (parallel_run_correct demo_stmt demo_sources demo_params demo_registry demo_udf ())
    as (_ & _ & H); [vm_compute; reflexivity|exact H].
Defined.

Lemma having_ignored_witness :
  meq (core_rows run_statement demo_engine
         (set_having (ss_body demo_stmt) (Some (XLiteral (VBool false)))) [] [] demo_tables)
      (core_rows run_statement demo_engine
         (set_having (ss_body demo_stmt) (Some (XLiteral (VBool true)))) [] [] demo_tables).
Proof. apply (having_ignored run_statement demo_engine); vm_compute; reflexivity. Defined.

(** ** Joins *)

(** The ON predicate [left row = right row]. *)
Definition demo_on (k : nat) (cand : list nat) : bool :=
  match cand with [a; b] => a =? b | _ => false end.

Lemma build_intersections_correct_witness :
  exists o, build_intersections (fun k c => st_ret (demo_on k c)) [2; 3] [Left] 100 () = ((), o)
    /\ exists out, o = Ok out /\ in_iter out = [[1; 1]; [2; 2]].
Proof.
  destruct (build_intersections_correct demo_on 2 [3] [Left] 100 () eq_refl) as (o & Ho & _).
  exists o. split; [exact Ho|]. vm_compute in Ho. injection Ho as <-. eexists.
  split; [reflexivity|]. vm_compute. reflexivity.
Defined.

Lemma two_table_guard_witness :
  exists out, build_intersections (fun k c => st_ret (demo_on k c)) [2; 3] [Full] 6 () = ((), Ok out).
Proof. apply (two_table_guard demo_on 2 3 Full 6 ()); [split; [discriminate|reflexivity]|discriminate]. Defined.

(** [t JOIN u ON t.k = u.k] over integer keys. *)
Definition demo_keys : table_set :=
  [QoQTable (lit "t") [lit "k"] [[VInt 1; VInt 2; VInt 2]] 3;
   QoQTable (lit "u") [lit "k"] [[VInt 2; VInt 3; VInt 1]] 3].

Lemma hash_join_correct_witness :
  exists x, hash_join_chain (E := cfml_error) demo_keys [(0, 0, 1, 0)] = Ok x
    /\ (nested_loop_join (eval demo_engine demo_run demo_keys) join_on_k demo_keys () = ((), Ok x)
        \/ exists size,
             nested_loop_join (eval demo_engine demo_run demo_keys) join_on_k demo_keys ()
             = ((), Err (join_too_big size))).
Proof.
  apply (hash_join_correct demo_engine demo_run demo_keys join_on_k [(0, 0, 1, 0)] ());
    vm_compute; reflexivity.
Defined.

Lemma storage_correct_witness :
  in_iter (push_row (of_rows 2 [[1; 2]; [3; 0]]) [2; 2]) = [[1; 2]; [3; 0]; [2; 2]].
Proof.
  apply (storage_correct (E := unit) 2 [[1; 2]; [3; 0]] [2; 2] 1); [lia| |reflexivity].
  repeat constructor.
Defined.

(** ** Parsing *)

Lemma parsed_where_correct_witness :
  exists core w, core ∈ statement_cores demo_stmt /\ co_where core = Some w
    /\ meq (eval_compiled demo_engine demo_run demo_tables (compile (bind_expr demo_tables w)) (CtxRow [1]))
           (eval demo_engine demo_run demo_tables w (CtxRow [1])).
Proof.
  do 2 eexists. split; [left|]. split; [vm_compute; reflexivity|].
  eapply (parsed_where_correct demo_sql demo_stmt (ss_body demo_stmt));
    [vm_compute; reflexivity|left|vm_compute; reflexivity].
Defined.

Definition demo_tokens : list token :=
  [TSelect; TIdentifier (lit "my col"); TComma; TString (lit "it's"); TLte; TNumber (lit "1.5"); TEnd].

Lemma tokenize_render_witness : tokenize (render demo_tokens) = demo_tokens.
Proof. apply (tokenize_render demo_tokens). vm_compute. reflexivity. Defined.

Lemma like_match_correct_witness :
  like_match (lit "Harry's 100%") (lit "harry_s%!%") (Some 33%N) = true
  /\ like_rel simple_fold_eq (pattern_elems (Some 33%N) (lit "harry_s%!%")) (lit "Harry's 100%").
Proof.
  split; [vm_compute; reflexivity|].
  apply (like_match_correct (lit "Harry's 100%") (lit "harry_s%!%") (Some 33%N)).
  vm_compute. reflexivity.
Defined.

(** ** Evaluation *)

(** [id = 2 AND name LIKE 'b%'], bound. *)
Definition demo_filter : expr :=
  XBinary (XBinary (XResolvedColumn 0 0 (lit "id")) BEq (XLiteral (VInt 2))) BAnd
    (XInList (XResolvedColumn 0 1 (lit "name")) false [XLiteral (VString (lit "b")); XLiteral VNull]).

Lemma compile_correct_witness :
  meq (eval_compiled demo_engine demo_run demo_tables (compile demo_filter) (CtxRow [1]))
      (eval demo_engine demo_run demo_tables demo_filter (CtxRow [1])).
Proof. apply (compile_correct demo_engine demo_run demo_tables demo_filter). vm_compute. reflexivity. Defined.

Lemma pure_expr_correct_witness :
  exists o, forall inv par rs w,
    eval (with_invoke demo_engine inv par) rs demo_tables demo_filter (CtxRow [1]) w = (w, o).
Proof. apply (pure_expr_correct demo_engine demo_tables demo_filter). vm_compute. reflexivity. Defined.

Lemma connectives_correct_witness :
  (eval demo_engine demo_run demo_tables
     (XBinary (XLiteral VNull) BAnd (XLiteral (VBool false))) (CtxRow [1]) ()).2
  = Ok (VBool false).
Proof.
  apply (connectives_correct demo_engine demo_run demo_tables (XLiteral VNull)
    (XLiteral (VBool false)) (CtxRow [1]) () () () VNull (VBool false)); reflexivity.
Defined.

Lemma in_list_correct_witness :
  (eval demo_engine demo_run demo_tables
     (XInList (XLiteral (VInt 1)) true [XLiteral (VInt 2); XLiteral VNull]) (CtxRow [1]) ()).2
  = Ok VNull.
Proof.
  rewrite (in_list_correct demo_engine demo_run demo_tables (XLiteral (VInt 1))
    [XLiteral (VInt 2); XLiteral VNull] true (CtxRow [1]) () () () (VInt 1) [VInt 2; VNull]);
    reflexivity.
Defined.

Lemma arith_correct_witness :
  apply_binary (VInt (-7)) BMod (VInt 3) = Ok (VInt (-1)).
Proof.
  destruct (arith_correct (VInt (-7)) BMod (VInt 3)) as (_ & He & _); [reflexivity..|].
  apply (He (-7) 3 (-1))%Z; [reflexivity..|discriminate].
Defined.

Lemma bit_operators_range_witness :
  exists n, apply_binary (VInt (-1)) BBitXor (VString (lit " 12 ")) = Ok (VInt n)
    /\ in_i64 n = true.
Proof.
  apply (bit_operators_range (VInt (-1)) BBitXor (VString (lit " 12 "))); try reflexivity.
  right. right. reflexivity.
Defined.

Lemma min_max_correct_witness :
  let col := [VInt 3; VNull; VInt 1; VInt 2] in
  aggregate_numeric (lit "min") col = VInt 1
  /\ (aggregate_numeric (lit "min") col = VNull /\ Forall (fun v => is_null v = true) col
      \/ aggregate_numeric (lit "min") col ∈ col
         /\ is_null (aggregate_numeric (lit "min") col) = false
         /\ forall w, w ∈ col -> is_null w = false ->
              no_worse true (aggregate_numeric (lit "min") col) w).
Proof.
  split; [vm_compute; reflexivity|].
  apply (min_max_correct KInt true [VInt 3; VNull; VInt 1; VInt 2]). repeat constructor.
Defined.

Lemma text_cuts_correct_witness :
  exists a b c, str_left (lit "hello") 2 = VString a /\ str_mid (lit "hello") 3 None = VString b
    /\ str_right (lit "hello") 2 = VString c /\ a ++ b = lit "hello".
Proof.
  destruct (text_cuts_correct (lit "hello") 2 1) as (a & b & c & Ha & Hb & Hc & Hs & _);
    [discriminate..|]. by exists a, b, c.
Defined.

(** ** Comparison and columns *)

Lemma compare_order_witness :
  compare_total (VString (lit "b")) (VString (lit "A")) = Gt.
Proof.
  destruct (compare_order KString (VString (lit "A")) (VString (lit "b")) VNull) as (H & _);
    [reflexivity..|]. rewrite H. vm_compute. reflexivity.
Defined.

Lemma group_key_correct_witness :
  group_key [VInt 1; VBool true] = group_key [VInt 1; VBool true]
  <-> Forall2 (fun v w => sql_equal v w = Some true) [VInt 1; VBool true] [VInt 1; VBool true].
Proof.
  apply (group_key_correct [KInt; KBool]); repeat constructor; try discriminate;
    apply key_clean_scalar; reflexivity.
Defined.

Definition demo_cols : list (list value) :=
  [[VInt 2; VInt 1; VInt 2]; [VString (lit "x"); VString (lit "y"); VString (lit "X")]].

Lemma dedup_cols_correct_witness :
  exists kept, dedup_cols (E := unit) demo_cols 3 = Ok (map (select_rows kept) demo_cols, length kept).
Proof.
  destruct (dedup_cols_correct (E := unit) demo_cols 3) as (kept & H & _); [repeat constructor|].
  by exists kept.
Defined.

Lemma sort_cols_correct_witness :
  exists idx, sort_cols (E := unit) demo_cols demo_cols [OrderByExpr (XLiteral (VInt 1)) Desc] 3
    = Ok (map (select_rows idx) demo_cols).
Proof.
  destruct (sort_cols_correct (E := unit) demo_cols demo_cols [OrderByExpr (XLiteral (VInt 1)) Desc] 3)
    as (idx & H & _); [repeat constructor| |discriminate|by exists idx].
  repeat constructor; [exists KInt|exists KString]; repeat constructor.
Defined.

Lemma apply_limit_correct_witness :
  apply_limit_cols (E := unit) demo_cols (Some (LimitClause 1 5)) 3
  = Ok ([[VInt 1; VInt 2]; [VString (lit "y"); VString (lit "X")]], 2).
Proof.
  rewrite (apply_limit_correct (E := unit) demo_cols 3 (LimitClause 1 5));
    [reflexivity|repeat constructor|discriminate..].
Defined.
