(* ===== verification/GcHeap.v ===== *)
(** * GcHeap: reference-counted containers

    The heap the cycle collector works on (cfml-common: [dynamic.rs],
    [component.rs]): one object per [Arc] allocation, the values that hold
    handles to them, the strong count of an [Arc] as the number of handles to
    it, and the freeing of what has none left.  Map keys, names, strings and
    binaries hold no handle to a container and are left out; [Weak] handles
    are not owners. *)

From stdpp Require Import base list numbers gmap sets.
From S2P Require Import Prelude.

(** The address of an [Arc] block. *)
Abbreviation addr := N.

(** ** Values *)

Inductive statement (V : Type) : Type :=
  | StExpression (v : V)
  | StReturn (v : option V)
  | StAssignment (v : V).
Arguments StExpression {V} v.
Arguments StReturn {V} v.
Arguments StAssignment {V} v.

Inductive closure_body (V : Type) : Type :=
  | BodyExpression (v : V)
  | BodyStatements (sts : list (statement V)).
Arguments BodyExpression {V} v.
Arguments BodyStatements {V} sts.

(** [CfmlFunction]: the defaults of its parameters, its body, its captured
    scope. *)
Inductive cfml_function (V : Type) : Type :=
  | CfmlFunction (params : list (option V)) (body : closure_body V) (captured_scope : option addr).
Arguments CfmlFunction {V} params body captured_scope.

Definition fn_captured_scope {V} (f : cfml_function V) : option addr :=
  match f with CfmlFunction _ _ sc => sc end.

Definition statement_value {V} (st : statement V) : option V :=
  match st with
  | StExpression v | StAssignment v => Some v
  | StReturn o => o
  end.

Definition opt_values {V} (o : option V) : list V :=
  match o with Some v => [v] | None => [] end.

Definition body_values {V} (b : closure_body V) : list V :=
  match b with
  | BodyExpression v => [v]
  | BodyStatements sts => flat_map (fun st => opt_values (statement_value st)) sts
  end.

Definition function_values {V} (f : cfml_function V) : list V :=
  match f with
  | CfmlFunction ps b _ => flat_map opt_values ps ++ body_values b
  end.

(** [CfmlValue].  [GScalar] stands for the variants that hold no container.
    [Closure] and [Component] are boxes: they belong to the value itself. *)
Inductive gval : Type :=
  | GScalar
  | GArray (p : addr)
  | GQueryColumn (p : addr) (row : nat)
  | GStruct (p : addr)
  | GClosure (captured_vars : list gval) (body : closure_body gval)
  | GComponent (properties : list gval) (methods : list (cfml_function gval))
  | GFunction (p : addr)
  | GQuery (p : addr)
  | GNativeObject (p : addr)
  | GInstance (p : addr).

(** ** Objects *)

(** [StructInner]: [cookie_attrs] holds values that no walk visits. *)
Record struct_inner := StructInner {
  st_map : list gval;
  st_method_table : option addr;
  st_cookie_attrs : list gval
}.

(** [Instance] *)
Record instance := Instance_ {
  it_class : addr;
  it_this_members : addr;
  it_variables_members : addr;
  it_native_parent : option gval
}.

(** [ClassBlueprint] *)
Record class_blueprint := ClassBlueprint {
  bp_methods : list addr;
  bp_metadata : gval;
  bp_method_values : addr;
  bp_metadata_cache : option gval;
  bp_static_scope : option gval;
  bp_super_handle : option gval;
  bp_super_map : option gval;
  bp_source_names : option gval;
  bp_properties : option gval
}.

(** The contents of an [Arc] block.  A native object shows the collector the
    values its [visit_values] reports and may hold others. *)
Inductive obj :=
  | OStruct (s : struct_inner)
  | OArray (l : list gval)
  | OQuery (data : list addr)
  | OScope (l : list gval)
  | OInstance (i : instance)
  | OFunction (f : cfml_function gval)
  | OColumn (l : list gval)
  | ONative (visited hidden : list gval)
  | OBlueprint (b : class_blueprint)
  | OTable (l : list gval).

Abbreviation heap := (gmap addr obj).

(** ** Handles *)

Definition body_flat {V A} (f : V -> list A) (b : closure_body V) : list A :=
  match b with
  | BodyExpression v => f v
  | BodyStatements sts =>
      flat_map (fun st => match st with
                          | StExpression v | StAssignment v => f v
                          | StReturn o => match o with Some v => f v | None => [] end
                          end) sts
  end.

Definition function_flat {V A} (sc : addr -> list A) (f : V -> list A)
    (fn : cfml_function V) : list A :=
  match fn with
  | CfmlFunction ps b s =>
      match s with Some p => sc p | None => [] end
      ++ flat_map (fun o => match o with Some v => f v | None => [] end) ps ++ body_flat f b
  end.

(** The handles a value holds itself: to collectible containers ([node]) and
    to the [Arc]s a walk goes through ([via]). *)
Fixpoint val_flat {A} (node via : addr -> list A) (v : gval) : list A :=
  match v with
  | GScalar => []
  | GArray p | GStruct p | GQuery p | GInstance p => node p
  | GQueryColumn p _ | GFunction p | GNativeObject p => via p
  | GClosure vars body =>
      flat_map (val_flat node via) vars ++ body_flat (val_flat node via) body
  | GComponent props ms =>
      flat_map (val_flat node via) props
      ++ flat_map (function_flat node (val_flat node via)) ms
  end.

Definition node_refs (v : gval) : list addr := val_flat (fun p => [p]) (fun _ => []) v.
Definition via_refs (v : gval) : list addr := val_flat (fun _ => []) (fun p => [p]) v.
Definition val_refs (v : gval) : list addr := node_refs v ++ via_refs v.
Definition vals_refs (l : list gval) : list addr := flat_map val_refs l.

(** The values of a blueprint, in the order [blueprint_values] visits its own
    fields; [metadata_cache] comes last. *)
Definition bp_options (b : class_blueprint) : list gval :=
  flat_map opt_values
    [bp_static_scope b; bp_super_handle b; bp_super_map b; bp_source_names b; bp_properties b].

Definition opt_addr (o : option addr) : list addr :=
  match o with Some p => [p] | None => [] end.

(** Every strong handle an object holds. *)
Definition obj_refs (o : obj) : list addr :=
  match o with
  | OStruct s =>
      vals_refs (st_map s) ++ opt_addr (st_method_table s) ++ vals_refs (st_cookie_attrs s)
  | OArray l | OScope l | OColumn l | OTable l => vals_refs l
  | OQuery cols => cols
  | OInstance i =>
      it_class i :: it_this_members i :: it_variables_members i
      :: vals_refs (opt_values (it_native_parent i))
  | OFunction f => opt_addr (fn_captured_scope f) ++ vals_refs (function_values f)
  | ONative vis hid => vals_refs vis ++ vals_refs hid
  | OBlueprint b =>
      bp_methods b ++ bp_method_values b
      :: vals_refs (bp_metadata b :: bp_options b ++ opt_values (bp_metadata_cache b))
  end.

(** Every handle held by an object of the heap. *)
Definition heap_refs (h : heap) : list addr :=
  flat_map (fun x => obj_refs x.2) (map_to_list h).

Definition count (p : addr) (l : list addr) : nat := count_occ N.eq_dec l p.
Arguments count : simpl never.

(** [Arc::strong_count]: the handles of the heap's objects and of everything
    else that runs ([roots]: frames, statics, containers of other threads). *)
Definition strong_count (h : heap) (roots : list addr) (p : addr) : nat :=
  count p (heap_refs h) + count p roots.

(** Dropping the last handle frees the block and drops its own handles. *)
Definition release_step (roots : list addr) (h : heap) : heap :=
  filter (fun x => strong_count h roots x.1 ≠ 0) h.

Fixpoint release_loop (n : nat) (roots : list addr) (h : heap) : heap :=
  match n with
  | 0 => h
  | S n => release_loop n roots (release_step roots h)
  end.

(** One round frees every block that lost its last handle; a chain is at most
    as long as the heap. *)
Definition release (roots : list addr) (h : heap) : heap := release_loop (size h) roots h.

(** ** Types of handles *)

Inductive kind := KStruct | KArray | KQuery | KScope | KInstance | KFunction | KColumn
  | KNative | KBlueprint | KTable.
#[global] Instance kind_eq_dec : EqDecision kind.
Proof. solve_decision. Defined.

Definition kind_of (o : obj) : kind :=
  match o with
  | OStruct _ => KStruct | OArray _ => KArray | OQuery _ => KQuery | OScope _ => KScope
  | OInstance _ => KInstance | OFunction _ => KFunction | OColumn _ => KColumn
  | ONative _ _ => KNative | OBlueprint _ => KBlueprint | OTable _ => KTable
  end.

(** A handle points at a live object of the type Rust gives it. *)
Definition has_kind (h : heap) (p : addr) (k : kind) : bool :=
  match h !! p with Some o => bool_decide (kind_of o = k) | None => false end.

Definition body_all {V} (f : V -> bool) (b : closure_body V) : bool :=
  match b with
  | BodyExpression v => f v
  | BodyStatements sts =>
      forallb (fun st => match st with
                         | StExpression v | StAssignment v => f v
                         | StReturn o => match o with Some v => f v | None => true end
                         end) sts
  end.

Definition function_all {V} (sc : addr -> bool) (f : V -> bool) (fn : cfml_function V) : bool :=
  match fn with
  | CfmlFunction ps b s =>
      match s with Some p => sc p | None => true end
      && forallb (fun o => match o with Some v => f v | None => true end) ps && body_all f b
  end.

Fixpoint val_typed (h : heap) (v : gval) : bool :=
  match v with
  | GScalar => true
  | GArray p => has_kind h p KArray
  | GStruct p => has_kind h p KStruct
  | GQuery p => has_kind h p KQuery
  | GInstance p => has_kind h p KInstance
  | GQueryColumn p _ => has_kind h p KColumn
  | GFunction p => has_kind h p KFunction
  | GNativeObject p => has_kind h p KNative
  | GClosure vars body => forallb (val_typed h) vars && body_all (val_typed h) body
  | GComponent props ms =>
      forallb (val_typed h) props
      && forallb (function_all (fun p => has_kind h p KScope) (val_typed h)) ms
  end.

Definition obj_typed (h : heap) (o : obj) : bool :=
  let vals := forallb (val_typed h) in
  match o with
  | OStruct s =>
      vals (st_map s) && forallb (fun p => has_kind h p KTable) (opt_addr (st_method_table s))
      && vals (st_cookie_attrs s)
  | OArray l | OScope l | OColumn l | OTable l => vals l
  | OQuery cols => forallb (fun p => has_kind h p KColumn) cols
  | OInstance i =>
      has_kind h (it_class i) KBlueprint && has_kind h (it_this_members i) KStruct
      && has_kind h (it_variables_members i) KStruct && vals (opt_values (it_native_parent i))
  | OFunction f =>
      forallb (fun p => has_kind h p KScope) (opt_addr (fn_captured_scope f))
      && vals (function_values f)
  | ONative vis hid => vals vis && vals hid
  | OBlueprint b =>
      forallb (fun p => has_kind h p KFunction) (bp_methods b)
      && has_kind h (bp_method_values b) KTable
      && vals (bp_metadata b :: bp_options b ++ opt_values (bp_metadata_cache b))
  end.

(** Rust's type safety: every handle of the heap is good. *)
Definition heap_typed (h : heap) : Prop := map_Forall (fun _ o => obj_typed h o = true) h.

(** ** Reachability *)

(** [p] is owned, directly or not, by something outside the heap. *)
Inductive reachable (h : heap) (roots : list addr) : addr -> Prop :=
  | reachable_root p : p ∈ roots -> reachable h roots p
  | reachable_step p o q : reachable h roots p -> h !! p = Some o -> q ∈ obj_refs o ->
      reachable h roots q.

(** ** Generic facts *)

Lemma count_app p l k : count p (l ++ k) = count p l + count p k.
Proof. apply count_occ_app. Qed.

Lemma count_pos p l : p ∈ l <-> 0 < count p l.
Proof. rewrite list_elem_of_In. apply count_occ_In. Qed.

Lemma count_zero p l : p ∉ l <-> count p l = 0.
Proof. rewrite count_pos. lia. Qed.

Lemma count_flat_map {A} p (f : A -> list addr) l :
  count p (flat_map f l) = sum_list_with (fun x => count p (f x)) l.
Proof. induction l as [|x l IH]; simpl; [done|]. by rewrite count_app, IH. Qed.

Lemma elem_of_flat_map {A B} (f : A -> list B) l y :
  y ∈ flat_map f l <-> exists x, x ∈ l /\ y ∈ f x.
Proof.
  induction l as [|x l IH]; simpl; [split; [by intros ?%elem_of_nil|]|].
  - intros (x & Hx & _). by apply elem_of_nil in Hx.
  - rewrite elem_of_app, IH. setoid_rewrite elem_of_cons. naive_solver.
Qed.

Lemma body_flat_values {V A} (f : V -> list A) b : body_flat f b = flat_map f (body_values b).
Proof.
  destruct b as [v|sts]; simpl; [by rewrite app_nil_r|].
  induction sts as [|[v|[v|]|v] sts IH]; simpl; rewrite ?IH; done.
Qed.

Lemma function_flat_values {V A} sc (f : V -> list A) fn :
  function_flat sc f fn
  = flat_map sc (opt_addr (fn_captured_scope fn)) ++ flat_map f (function_values fn).
Proof.
  destruct fn as [ps b s]; simpl. rewrite body_flat_values, flat_map_app.
  f_equal; [by destruct s; simpl; rewrite ?app_nil_r|]. f_equal.
  induction ps as [|[v|] ps IH]; simpl; by rewrite ?IH.
Qed.

Lemma body_all_values {V} (f : V -> bool) b : body_all f b = forallb f (body_values b).
Proof.
  destruct b as [v|sts]; simpl; [by rewrite andb_true_r|].
  induction sts as [|[v|[v|]|v] sts IH]; simpl; by rewrite ?IH.
Qed.

Lemma function_all_values {V} sc (f : V -> bool) fn :
  function_all sc f fn
  = forallb sc (opt_addr (fn_captured_scope fn)) && forallb f (function_values fn).
Proof.
  destruct fn as [ps b s]; simpl. rewrite body_all_values, forallb_app.
  assert (forallb (fun o => match o with Some v => f v | None => true end) ps
          = forallb f (flat_map opt_values ps)) as ->.
  { induction ps as [|[v|] ps IH]; simpl; by rewrite ?IH. }
  destruct s; simpl; by rewrite ?andb_true_r, ?andb_assoc.
Qed.

(** *** Induction on values *)

Lemma Forall_app_2 {A} (P : A -> Prop) l k : Forall P l -> Forall P k -> Forall P (l ++ k).
Proof. intros. by apply Forall_app. Qed.

Section ValueInduction.
Context (P : gval -> Prop).
Context (Hscalar : P GScalar) (Harray : forall p, P (GArray p))
  (Hcolumn : forall p row, P (GQueryColumn p row)) (Hstruct : forall p, P (GStruct p))
  (Hclosure : forall vars b, Forall P vars -> Forall P (body_values b) -> P (GClosure vars b))
  (Hcomponent : forall props ms, Forall P props ->
     Forall (fun f => Forall P (function_values f)) ms -> P (GComponent props ms))
  (Hfunction : forall p, P (GFunction p)) (Hquery : forall p, P (GQuery p))
  (Hnative : forall p, P (GNativeObject p)) (Hinstance : forall p, P (GInstance p)).

Fixpoint gval_ind' (v : gval) : P v :=
  let one x := Forall_cons_2 P x [] (gval_ind' x) (Forall_nil_2 P) in
  let go := fix go (l : list gval) : Forall P l :=
    match l with
    | [] => Forall_nil_2 P
    | x :: l => Forall_cons_2 P x l (gval_ind' x) (go l)
    end in
  let opt o : Forall P (opt_values o) :=
    match o with Some x => one x | None => Forall_nil_2 P end in
  let st s : Forall P (opt_values (statement_value s)) :=
    match s with StExpression x | StAssignment x => one x | StReturn o => opt o end in
  let body b : Forall P (body_values b) :=
    match b with
    | BodyExpression x => one x
    | BodyStatements sts =>
        (fix go_sts (sts : list (statement gval))
           : Forall P (flat_map (fun s => opt_values (statement_value s)) sts) :=
           match sts with
           | [] => Forall_nil_2 P
           | s :: sts => Forall_app_2 P _ _ (st s) (go_sts sts)
           end) sts
    end in
  let fn f : Forall P (function_values f) :=
    match f with
    | CfmlFunction ps b _ =>
        Forall_app_2 P _ _
          ((fix go_ps (ps : list (option gval)) : Forall P (flat_map opt_values ps) :=
              match ps with
              | [] => Forall_nil_2 P
              | o :: ps => Forall_app_2 P _ _ (opt o) (go_ps ps)
              end) ps) (body b)
    end in
  match v with
  | GScalar => Hscalar
  | GArray p => Harray p
  | GQueryColumn p r => Hcolumn p r
  | GStruct p => Hstruct p
  | GClosure vars b => Hclosure vars b (go vars) (body b)
  | GComponent props ms =>
      Hcomponent props ms (go props)
        ((fix go_ms (ms : list (cfml_function gval))
            : Forall (fun f => Forall P (function_values f)) ms :=
            match ms with
            | [] => Forall_nil_2 _
            | f :: ms => Forall_cons_2 _ f ms (fn f) (go_ms ms)
            end) ms)
  | GFunction p => Hfunction p
  | GQuery p => Hquery p
  | GNativeObject p => Hnative p
  | GInstance p => Hinstance p
  end.
End ValueInduction.
