(* ===== verification/GcPass.v ===== *)
(** * GcPass: one collection pass ([collect_from_log_carrying])

    Trial deletion over the containers of an allocation log (cfml-common:
    [cycle_gc.rs]): the survivors of the log, the references among them, the
    survivors owned from outside, what those keep alive, and the clearing of
    the rest.

    Locks that cannot be taken at once make the pass skip edges.  A lock may be
    free in one phase and taken in the next, so each phase has its own set of
    skipped objects: [lc] while the references are gathered and counted, [lm]
    while the live survivors are marked, [lk] while the dead ones are cleared.
    For a scope or a native object the set stands for a poisoned lock, for a
    blueprint it stands for its metadata cache.

    [classify] recurses through values that are not containers; its fuel is the
    depth of that recursion, and [None] is a stack overflow. *)

From stdpp Require Import base list numbers gmap sets option.
From S2P Require Import Prelude GcHeap.

(** ** Sequencing walks *)

Definition cat {A} (a b : option (list A)) : option (list A) :=
  match a with
  | Some x => match b with Some y => Some (x ++ y) | None => None end
  | None => None
  end.

Fixpoint concatM {A B} (f : A -> option (list B)) (l : list A) : option (list B) :=
  match l with
  | [] => Some []
  | x :: l => cat (f x) (concatM f l)
  end.

Fixpoint foldM {A B} (f : B -> A -> option B) (b : B) (l : list A) : option B :=
  match l with
  | [] => Some b
  | x :: l => match f b x with Some b => foldM f b l | None => None end
  end.

(** ** Edges *)

(** [if in_set.contains(&p) { emit(p) }] *)
Definition emit (ins : gset addr) (p : addr) : list addr :=
  if bool_decide (p ∈ ins) then [p] else [].

Definition classify_body (cl : gval -> option (list addr)) (b : closure_body gval)
    : option (list addr) :=
  concatM cl (body_values b).

Definition classify_function (ins : gset addr) (cl : gval -> option (list addr))
    (f : cfml_function gval) : option (list addr) :=
  cat (Some (flat_map (emit ins) (opt_addr (fn_captured_scope f))))
    (concatM cl (function_values f)).

Fixpoint classify (h : heap) (ins l : gset addr) (n : nat) (v : gval) : option (list addr) :=
  match n with
  | 0 => None
  | S n =>
      let cl := classify h ins l n in
      match v with
      | GStruct p | GArray p | GQuery p | GInstance p => Some (emit ins p)
      | GFunction p =>
          match h !! p with
          | Some (OFunction f) => classify_function ins cl f
          | _ => Some []
          end
      | GComponent props ms => cat (concatM cl props) (concatM (classify_function ins cl) ms)
      | GClosure vars body => cat (concatM cl vars) (classify_body cl body)
      | GQueryColumn p _ =>
          match h !! p with Some (OColumn vs) => concatM cl vs | _ => Some [] end
      | GNativeObject p =>
          if bool_decide (p ∈ l) then Some []
          else match h !! p with Some (ONative vs _) => concatM cl vs | _ => Some [] end
      | GScalar => Some []
      end
  end.

(** The values of the table behind an [Arc<ValueMap>]. *)
Definition table_values (h : heap) (t : addr) : list gval :=
  match h !! t with Some (OTable vs) => vs | _ => [] end.

Definition struct_values (h : heap) (m : addr) : list gval :=
  match h !! m with Some (OStruct s) => st_map s | _ => [] end.

Definition column_values (h : heap) (c : addr) : list gval :=
  match h !! c with Some (OColumn vs) => vs | _ => [] end.

Definition instance_maps (i : instance) : list addr :=
  [it_this_members i; it_variables_members i].

(** The [Instance] arm for one data map: the map itself when it is tracked,
    its values otherwise. *)
Definition data_map_children (h : heap) (ins l : gset addr) (n : nat) (m : addr)
    : option (list addr) :=
  if bool_decide (m ∈ ins) then Some [m]
  else concatM (classify h ins l n) (struct_values h m).

Definition for_each_child_node (h : heap) (ins l : gset addr) (n : nat) (p : addr)
    : option (list addr) :=
  match h !! p with
  | Some (OStruct s) => concatM (classify h ins l n) (st_map s)
  | Some (OArray vs) => concatM (classify h ins l n) vs
  | Some (OQuery cols) => concatM (fun c => concatM (classify h ins l n) (column_values h c)) cols
  | Some (OScope vs) =>
      if bool_decide (p ∈ l) then Some [] else concatM (classify h ins l n) vs
  | Some (OInstance i) =>
      if bool_decide (p ∈ l) then Some []
      else cat (concatM (classify h ins l n) (opt_values (it_native_parent i)))
             (concatM (data_map_children h ins l n) (instance_maps i))
  | _ => Some []
  end.

(** The values [blueprint_values] visits. *)
Definition blueprint_values (h : heap) (l : gset addr) (b : addr) : list gval :=
  match h !! b with
  | Some (OBlueprint bp) =>
      bp_metadata bp :: table_values h (bp_method_values bp) ++ bp_options bp
      ++ (if bool_decide (b ∈ l) then [] else opt_values (bp_metadata_cache bp))
  | _ => []
  end.

(** ** Gathering the carriers *)

(** [or_insert]: keep the first of each address. *)
Fixpoint distinct (seen : gset addr) (l : list addr) : list addr :=
  match l with
  | [] => []
  | p :: l => if bool_decide (p ∈ seen) then distinct seen l
              else p :: distinct ({[p]} ∪ seen) l
  end.

Definition read_instance (h : heap) (l : gset addr) (p : addr) : option instance :=
  match h !! p with
  | Some (OInstance i) => if bool_decide (p ∈ l) then None else Some i
  | _ => None
  end.

(** The class of an instance whose lock can be taken. *)
Definition class_of (h : heap) (l : gset addr) (p : addr) : list addr :=
  match read_instance h l p with Some i => [it_class i] | None => [] end.

Definition struct_table (h : heap) (m : addr) : list addr :=
  match h !! m with Some (OStruct s) => opt_addr (st_method_table s) | _ => [] end.

(** The method tables hung off a survivor: a struct's own, or those of an
    instance's data maps. *)
Definition tables_of (h : heap) (l : gset addr) (p : addr) : list addr :=
  match h !! p with
  | Some (OStruct _) => if bool_decide (p ∈ l) then [] else struct_table h p
  | Some (OInstance i) =>
      if bool_decide (p ∈ l) then [] else flat_map (struct_table h) (instance_maps i)
  | _ => []
  end.

Definition blueprints (h : heap) (lc : gset addr) (nodes : list addr) : list addr :=
  distinct ∅ (flat_map (class_of h lc) nodes).

Definition method_tables (h : heap) (lc : gset addr) (nodes : list addr) : list addr :=
  distinct ∅ (flat_map (tables_of h lc) nodes).

(** Every reference to a survivor the pass sees, with repetitions: the value
    of [internal_in] at [p] is the number of occurrences of [p]. *)
Definition internal_refs (h : heap) (ins lc : gset addr) (n : nat) (nodes : list addr)
    : option (list addr) :=
  cat (concatM (for_each_child_node h ins lc n) nodes)
    (cat (concatM (fun b => concatM (classify h ins lc n) (blueprint_values h lc b))
            (blueprints h lc nodes))
       (concatM (fun t => concatM (classify h ins lc n) (table_values h t))
          (method_tables h lc nodes))).

(** ** Marking *)

Record mark_state := MarkState {
  mk_live : gset addr;
  mk_worklist : list addr;
  mk_bps : gset addr;
  mk_tables : gset addr
}.

(** [if live.insert(child) { worklist.push(child) }] *)
Definition mark_child (st : mark_state) (c : addr) : mark_state :=
  if bool_decide (c ∈ mk_live st) then st
  else MarkState ({[c]} ∪ mk_live st) (c :: mk_worklist st) (mk_bps st) (mk_tables st).

Definition mark_children (st : mark_state) (cs : list addr) : mark_state :=
  fold_left mark_child cs st.

Definition mark_values (h : heap) (ins lm : gset addr) (n : nat) (st : mark_state)
    (vs : list gval) : option mark_state :=
  mark_children st <$> concatM (classify h ins lm n) vs.

(** A live instance makes its blueprint live. *)
Definition mark_blueprint (h : heap) (ins lm : gset addr) (n : nat) (st : mark_state)
    (b : addr) : option mark_state :=
  if bool_decide (b ∈ mk_bps st) then Some st
  else mark_values h ins lm n
         (MarkState (mk_live st) (mk_worklist st) ({[b]} ∪ mk_bps st) (mk_tables st))
         (blueprint_values h lm b).

(** [mark_table] *)
Definition mark_table (h : heap) (ins lm : gset addr) (n : nat) (st : mark_state)
    (t : addr) : option mark_state :=
  if bool_decide (t ∈ mk_tables st) then Some st
  else mark_values h ins lm n
         (MarkState (mk_live st) (mk_worklist st) (mk_bps st) ({[t]} ∪ mk_tables st))
         (table_values h t).

(** One iteration of the mark loop, on the survivor just popped. *)
Definition mark_node (h : heap) (ins lm : gset addr) (n : nat) (st : mark_state)
    (p : addr) : option mark_state :=
  match for_each_child_node h ins lm n p with
  | None => None
  | Some cs =>
      match foldM (mark_blueprint h ins lm n) (mark_children st cs) (class_of h lm p) with
      | None => None
      | Some st => foldM (mark_table h ins lm n) st (tables_of h lm p)
      end
  end.

Fixpoint mark_loop (h : heap) (ins lm : gset addr) (n fuel : nat) (st : mark_state)
    : option mark_state :=
  match mk_worklist st with
  | [] => Some st
  | p :: w =>
      match fuel with
      | 0 => None
      | S fuel =>
          match mark_node h ins lm n (MarkState (mk_live st) w (mk_bps st) (mk_tables st)) p with
          | Some st => mark_loop h ins lm n fuel st
          | None => None
          end
      end
  end.

(** ** Roots *)

(** [strong_count − 1 (probe handle) − internal_in], saturating. *)
Definition external (h : heap) (roots internal : list addr) (p : addr) : nat :=
  S (strong_count h roots p) - 1 - count p internal.

(** The same for a blueprint: one of its handles is the pass's own clone. *)
Definition bp_external (h : heap) (roots : list addr) (lc : gset addr) (nodes : list addr)
    (b : addr) : nat :=
  S (strong_count h roots b) - 1 - count b (flat_map (class_of h lc) nodes).

Definition mark_roots (h : heap) (roots internal : list addr) (nodes : list addr) : mark_state :=
  mark_children (MarkState ∅ [] ∅ ∅)
    (List.filter (fun p => 0 <? external h roots internal p) nodes).

(** Steps 3 and 4: the live survivors. *)
Definition live_set (h : heap) (roots : list addr) (ins lc lm : gset addr) (n : nat)
    (nodes : list addr) : option (gset addr) :=
  match internal_refs h ins lc n nodes with
  | None => None
  | Some internal =>
      match foldM (mark_blueprint h ins lm n) (mark_roots h roots internal nodes)
              (List.filter (fun b => 0 <? bp_external h roots lc nodes b)
                 (blueprints h lc nodes)) with
      | None => None
      | Some st => mk_live <$> mark_loop h ins lm n (S (length nodes)) st
      end
  end.

(** *** Retention attribution (RUSTCFML_GC_ROOTS) *)

(** One iteration of the walk that charges a root with what it retains. *)
Definition attribute_node (h : heap) (ins lm : gset addr) (n : nat) (st : mark_state)
    (p : addr) : option mark_state :=
  match for_each_child_node h ins lm n p with
  | None => None
  | Some cs => foldM (mark_blueprint h ins lm n) (mark_children st cs) (class_of h lm p)
  end.

Fixpoint attribute_loop (h : heap) (ins lm : gset addr) (n fuel : nat) (st : mark_state)
    : option mark_state :=
  match mk_worklist st with
  | [] => Some st
  | p :: w =>
      match fuel with
      | 0 => None
      | S fuel =>
          match attribute_node h ins lm n (MarkState (mk_live st) w (mk_bps st) (mk_tables st)) p with
          | Some st => attribute_loop h ins lm n fuel st
          | None => None
          end
      end
  end.

(** A root not reached from an earlier one is walked on its own. *)
Definition attribute_root (h : heap) (ins lm : gset addr) (n fuel : nat) (st : mark_state)
    (r : addr) : option mark_state :=
  if bool_decide (r ∈ mk_live st) then Some st
  else attribute_loop h ins lm n fuel (mark_child st r).

(** Steps 3 and 4 with the diagnostic on: the roots are held back and seeded
    one at a time after the blueprints. *)
Definition live_set_attributed (h : heap) (roots : list addr) (ins lc lm : gset addr) (n : nat)
    (nodes : list addr) : option (gset addr) :=
  match internal_refs h ins lc n nodes with
  | None => None
  | Some internal =>
      match foldM (mark_blueprint h ins lm n) (MarkState ∅ [] ∅ ∅)
              (List.filter (fun b => 0 <? bp_external h roots lc nodes b)
                 (blueprints h lc nodes)) with
      | None => None
      | Some st =>
          match foldM (attribute_root h ins lm n (S (length nodes))) st
                  (List.filter (fun p => 0 <? external h roots internal p) nodes) with
          | None => None
          | Some st => mk_live <$> mark_loop h ins lm n (S (length nodes)) st
          end
      end
  end.

(** ** Clearing *)

Definition clear_map (h : heap) (m : addr) : heap :=
  match h !! m with
  | Some (OStruct s) => <[m := OStruct (StructInner [] (st_method_table s) (st_cookie_attrs s))]> h
  | _ => h
  end.

(** [NodeHandle::clear] *)
Definition clear (lk : gset addr) (h : heap) (p : addr) : heap :=
  match h !! p with
  | Some (OStruct _) => clear_map h p
  | Some (OArray _) => <[p := OArray []]> h
  | Some (OQuery _) => <[p := OQuery []]> h
  | Some (OScope _) => if bool_decide (p ∈ lk) then h else <[p := OScope []]> h
  | Some (OInstance i) =>
      if bool_decide (p ∈ lk) then h else fold_left clear_map (instance_maps i) h
  | _ => h
  end.

(** ** The pass *)

(** [upgrade] succeeds on a live container. *)
Definition is_node (h : heap) (p : addr) : bool :=
  match h !! p with
  | Some (OStruct _ | OArray _ | OQuery _ | OScope _ | OInstance _) => true
  | _ => false
  end.

(** One handle per distinct surviving container of the log. *)
Definition survivors (h : heap) (log : list addr) : list addr :=
  distinct ∅ (List.filter (is_node h) log).

Definition dead_nodes (live : gset addr) (nodes : list addr) : list addr :=
  List.filter (fun p => negb (bool_decide (p ∈ live))) nodes.

Record pass_result := PassResult {
  pr_heap : heap;
  pr_collected : nat;
  pr_carry : list addr
}.

(** The fuel for the whole pass: the recursion depth and the skipped locks of
    its three phases. *)
Record pass_env := PassEnv {
  pe_fuel : nat;
  pe_count : gset addr;
  pe_mark : gset addr;
  pe_clear : gset addr
}.

(** The pass, before the cleared objects are freed. *)
Definition clear_dead (env : pass_env) (roots : list addr) (h : heap) (log : list addr)
    : option pass_result :=
  let nodes := survivors h log in
  match live_set h roots (list_to_set nodes) (pe_count env) (pe_mark env) (pe_fuel env) nodes with
  | None => None
  | Some live =>
      let dead := dead_nodes live nodes in
      Some (PassResult (fold_left (clear (pe_clear env)) dead h) (length dead)
              (List.filter (fun p => bool_decide (p ∈ live)) nodes))
  end.

Definition collect_from_log_carrying (env : pass_env) (roots : list addr) (h : heap)
    (log : list addr) : option pass_result :=
  match clear_dead env roots h log with
  | Some r => Some (PassResult (release roots (pr_heap r)) (pr_collected r) (pr_carry r))
  | None => None
  end.
