(* ===== verification/GcPassFacts.v ===== *)
(** * GcPassFacts: what a collection pass keeps and what it reclaims

    The references a pass counts are described by the objects it walks
    ([count_trail]) and by the survivors each of them shows ([shown]).  Marking
    is the least set that contains the roots and is closed under the walk. *)

From stdpp Require Import base list numbers gmap sets option relations.
From S2P Require Import Prelude GcHeap GcPass.

(** ** Sequenced walks *)

Lemma cat_Some {A} (a b : option (list A)) e :
  cat a b = Some e <-> exists x y, a = Some x /\ b = Some y /\ e = x ++ y.
Proof. destruct a, b; simpl; naive_solver. Qed.

Section ConcatM.
Context {A B : Type} (f : A -> option (list B)).

Lemma concatM_app l k : concatM f (l ++ k) = cat (concatM f l) (concatM f k).
Proof.
  induction l as [|x l IH]; simpl; [by destruct (concatM f k)|]. rewrite IH.
  destruct (f x), (concatM f l), (concatM f k); simpl; by rewrite <- ?app_assoc.
Qed.

Lemma concatM_elem l e x :
  concatM f l = Some e -> x ∈ l -> exists ex, f x = Some ex /\ ex ⊆ e.
Proof.
  revert e; induction l as [|a l IH]; simpl; intros e He Hx; [by apply elem_of_nil in Hx|].
  apply cat_Some in He as (e1 & e2 & H1 & H2 & ->).
  apply elem_of_cons in Hx as [->|Hx].
  - exists e1. split; [done|]. set_solver.
  - destruct (IH _ H2 Hx) as (ex & ? & ?). exists ex. split; [done|]. set_solver.
Qed.

Lemma concatM_inv l e y :
  concatM f l = Some e -> y ∈ e -> exists x ex, x ∈ l /\ f x = Some ex /\ y ∈ ex.
Proof.
  revert e; induction l as [|a l IH]; simpl; intros e He Hy;
    [simplify_eq; by apply elem_of_nil in Hy|].
  apply cat_Some in He as (e1 & e2 & H1 & H2 & ->).
  apply elem_of_app in Hy as [Hy|Hy].
  - exists a, e1. split; [left|done].
  - destruct (IH _ H2 Hy) as (x & ex & ? & ? & ?). exists x, ex. by split; [right|].
Qed.

Lemma concatM_total l : (forall x, x ∈ l -> is_Some (f x)) -> is_Some (concatM f l).
Proof.
  induction l as [|x l IH]; simpl; intros H; [done|].
  destruct (H x) as [ex Hx]; [left|]. destruct IH as [e He]; [by intros y ?; apply H; right|].
  rewrite Hx, He. by eexists.
Qed.
End ConcatM.

Lemma concatM_ext {A B} (f g : A -> option (list B)) l :
  (forall x, x ∈ l -> f x = g x) -> concatM f l = concatM g l.
Proof.
  induction l as [|x l IH]; simpl; intros H; [done|].
  rewrite H by left. rewrite IH; [done|]. intros y Hy; apply H; by right.
Qed.

Lemma concatM_flat_map {A B C} (f : B -> option (list C)) (g : A -> list B) l :
  concatM f (flat_map g l) = concatM (fun x => concatM f (g x)) l.
Proof. induction l as [|x l IH]; simpl; [done|]. by rewrite concatM_app, IH. Qed.

Lemma emit_spec ins p q : q ∈ emit ins p <-> q = p /\ p ∈ ins.
Proof. unfold emit. case_bool_decide; set_solver. Qed.

Lemma count_cons p q l : count p (q :: l) = (if decide (q = p) then 1 else 0) + count p l.
Proof. unfold count; simpl. by destruct (N.eq_dec q p); case_decide. Qed.

Lemma count_emit ins p l :
  count p (flat_map (emit ins) l) = if bool_decide (p ∈ ins) then count p l else 0.
Proof.
  induction l as [|q l IH]; simpl; [by case_bool_decide|].
  rewrite count_app, IH, count_cons. unfold emit. destruct (decide (q = p)) as [->|].
  - destruct (bool_decide (p ∈ ins)); [|reflexivity].
    rewrite count_cons, decide_True by done. reflexivity.
  - assert (count p (if bool_decide (q ∈ ins) then [q] else []) = 0) as ->; [|done].
    destruct (bool_decide (q ∈ ins)); [|reflexivity].
    rewrite count_cons, decide_False by done. reflexivity.
Qed.

(** ** What an object shows *)

Section Shown.
Context (h : heap) (ins : gset addr).
Implicit Types (l : gset addr) (x y p : addr) (v : gval) (n : nat).

(** The values of an object whose handles a walk of it meets. *)
Definition walk_values l x : list gval :=
  match h !! x with
  | Some (OStruct s) => st_map s
  | Some (OArray vs | OColumn vs | OTable vs) => vs
  | Some (OScope vs | ONative vs _) => if bool_decide (x ∈ l) then [] else vs
  | Some (OInstance i) => if bool_decide (x ∈ l) then [] else opt_values (it_native_parent i)
  | Some (OFunction f) => function_values f
  | Some (OBlueprint b) =>
      bp_metadata b :: bp_options b
      ++ (if bool_decide (x ∈ l) then [] else opt_values (bp_metadata_cache b))
  | Some (OQuery _) | None => []
  end.

(** The containers an object names outside its values: an instance's data
    maps, a function's captured scope. *)
Definition own_nodes l x : list addr :=
  match h !! x with
  | Some (OInstance i) => if bool_decide (x ∈ l) then [] else instance_maps i
  | Some (OFunction f) => opt_addr (fn_captured_scope f)
  | _ => []
  end.

(** The survivors an object holds a visible handle to. *)
Definition shown l x : list addr :=
  flat_map (emit ins) (own_nodes l x ++ flat_map node_refs (walk_values l x)).

(** The objects a walk of [x] goes on to. *)
Definition walk_next l x : list addr :=
  flat_map via_refs (walk_values l x)
  ++ match h !! x with
     | Some (OQuery cols) => cols
     | Some (OInstance i) =>
         if bool_decide (x ∈ l) then []
         else List.filter (fun m => negb (bool_decide (m ∈ ins))) (instance_maps i)
     | Some (OBlueprint b) => [bp_method_values b]
     | _ => []
     end.

(** The carriers of [x] that are walked on their own. *)
Definition side_next l x : list addr :=
  match h !! x with
  | Some (OStruct s) => if bool_decide (x ∈ l) then [] else opt_addr (st_method_table s)
  | Some (OInstance i) => if bool_decide (x ∈ l) then [] else [it_class i]
  | _ => []
  end.

Definition next l x : list addr := walk_next l x ++ side_next l x.

(** The walk of one object. *)
Definition walk l n x : option (list addr) :=
  match h !! x with
  | Some (OFunction f) => classify_function ins (classify h ins l n) f
  | Some (OColumn vs | OTable vs) => concatM (classify h ins l n) vs
  | Some (ONative vs _) => if bool_decide (x ∈ l) then Some [] else concatM (classify h ins l n) vs
  | Some (OBlueprint _) => concatM (classify h ins l n) (blueprint_values h l x)
  | _ => for_each_child_node h ins l n x
  end.

(** The objects met on the way, in order and with repetitions.  It follows
    [classify]: same recursion, same fuel. *)
Fixpoint trail_val l n v : option (list addr) :=
  match n with
  | 0 => None
  | S n =>
      let tr := trail_val l n in
      match v with
      | GScalar | GStruct _ | GArray _ | GQuery _ | GInstance _ => Some []
      | GFunction p =>
          match h !! p with
          | Some (OFunction f) => cat (Some [p]) (concatM tr (function_values f))
          | _ => Some []
          end
      | GComponent props ms =>
          cat (concatM tr props) (concatM (fun f => concatM tr (function_values f)) ms)
      | GClosure vars body => cat (concatM tr vars) (concatM tr (body_values body))
      | GQueryColumn p _ =>
          match h !! p with
          | Some (OColumn vs) => cat (Some [p]) (concatM tr vs)
          | _ => Some []
          end
      | GNativeObject p =>
          match h !! p with
          | Some (ONative vs _) =>
              cat (Some [p]) (if bool_decide (p ∈ l) then Some [] else concatM tr vs)
          | _ => Some []
          end
      end
  end.

Definition trail_map l n m : option (list addr) :=
  if bool_decide (m ∈ ins) then Some []
  else match h !! m with
       | Some (OStruct s) => cat (Some [m]) (concatM (trail_val l n) (st_map s))
       | _ => Some []
       end.

Definition trail_column l n c : option (list addr) :=
  match h !! c with
  | Some (OColumn vs) => cat (Some [c]) (concatM (trail_val l n) vs)
  | _ => Some []
  end.

Definition trail_table l n t : option (list addr) :=
  match h !! t with
  | Some (OTable vs) => cat (Some [t]) (concatM (trail_val l n) vs)
  | _ => Some []
  end.

Definition trail_bp l n b : option (list addr) :=
  match h !! b with
  | Some (OBlueprint bp) =>
      cat (Some [b]) (cat (concatM (trail_val l n) (walk_values l b))
                          (trail_table l n (bp_method_values bp)))
  | _ => Some []
  end.

Definition trail_node l n p : option (list addr) :=
  cat (Some [p])
    (match h !! p with
     | Some (OQuery cols) => concatM (trail_column l n) cols
     | Some (OInstance i) =>
         if bool_decide (p ∈ l) then Some []
         else cat (concatM (trail_val l n) (opt_values (it_native_parent i)))
                (concatM (trail_map l n) (instance_maps i))
     | _ => concatM (trail_val l n) (walk_values l p)
     end).

(** Everything walked while the references are counted. *)
Definition count_trail l n (nodes : list addr) : option (list addr) :=
  cat (concatM (trail_node l n) nodes)
    (cat (concatM (trail_bp l n) (blueprints h l nodes))
       (concatM (trail_table l n) (method_tables h l nodes))).

Definition total (g : addr -> list addr) (t : list addr) (p : addr) : nat :=
  sum_list_with (fun x => count p (g x)) t.

Lemma total_app g t k p : total g (t ++ k) p = total g t p + total g k p.
Proof. unfold total. apply sum_list_with_app. Qed.

(** *** Counting *)

(** A walk that shows the survivors of [ps] at once and goes through [t]. *)
Definition counts l (e ps t : list addr) : Prop :=
  forall p, count p e = count p (flat_map (emit ins) ps) + total (shown l) t p.

Lemma counts_nil l : counts l [] [] [].
Proof. by intros p. Qed.

Lemma counts_app l e1 ps1 t1 e2 ps2 t2 :
  counts l e1 ps1 t1 -> counts l e2 ps2 t2 -> counts l (e1 ++ e2) (ps1 ++ ps2) (t1 ++ t2).
Proof.
  intros H1 H2 p. rewrite flat_map_app, !count_app, total_app, (H1 p), (H2 p). lia.
Qed.

Lemma counts_enter l e x t :
  counts l e (own_nodes l x ++ flat_map node_refs (walk_values l x)) t -> counts l e [] (x :: t).
Proof. intros H p. rewrite (H p). unfold total; simpl. done. Qed.

Lemma counts_emit l ps : counts l (flat_map (emit ins) ps) ps [].
Proof. intros p. unfold total; simpl. lia. Qed.

Lemma counts_concat {A} l (f g : A -> option (list addr)) (r : A -> list addr) (xs : list A) e :
  (forall (x : A) ex, x ∈ xs -> f x = Some ex -> exists t, g x = Some t /\ counts l ex (r x) t) ->
  concatM f xs = Some e -> exists t, concatM g xs = Some t /\ counts l e (flat_map r xs) t.
Proof.
  revert e; induction xs as [|x xs IH]; simpl; intros e H He.
  - simplify_eq. exists []. split; [done|]. apply counts_nil.
  - apply cat_Some in He as (e1 & e2 & H1 & H2 & ->).
    destruct (H x e1) as (t1 & Ht1 & Hc1); [left|done|].
    destruct (IH e2) as (t2 & Ht2 & Hc2); [by intros y ey Hy; apply H; right|done|].
    exists (t1 ++ t2). rewrite Ht1, Ht2. split; [done|]. by apply counts_app.
Qed.

Lemma node_refs_closure vars b :
  node_refs (GClosure vars b) = flat_map node_refs vars ++ flat_map node_refs (body_values b).
Proof. unfold node_refs; simpl. by rewrite body_flat_values. Qed.

Lemma node_refs_component props ms :
  node_refs (GComponent props ms)
  = flat_map node_refs props
    ++ flat_map (fun f => opt_addr (fn_captured_scope f) ++ flat_map node_refs (function_values f)) ms.
Proof.
  unfold node_refs; simpl. f_equal. apply flat_map_ext. intros f.
  rewrite function_flat_values. f_equal. by destruct (fn_captured_scope f).
Qed.

Lemma classify_counts l n v e :
  classify h ins l n v = Some e ->
  exists t, trail_val l n v = Some t /\ counts l e (node_refs v) t.
Proof.
  revert v e; induction n as [|n IH]; intros v e; [done|].
  assert (IHl : forall vs e, concatM (classify h ins l n) vs = Some e ->
    exists t, concatM (trail_val l n) vs = Some t /\ counts l e (flat_map node_refs vs) t).
  { intros vs e'. apply counts_concat. intros x ex _. apply IH. }
  assert (IHf : forall f e, classify_function ins (classify h ins l n) f = Some e ->
    exists t, concatM (trail_val l n) (function_values f) = Some t
      /\ counts l e (opt_addr (fn_captured_scope f) ++ flat_map node_refs (function_values f)) t).
  { intros f e' Hf. unfold classify_function in Hf. apply cat_Some in Hf as (e1 & e2 & [= <-] & H2 & ->). destruct (IHl _ _ H2) as (t & Ht & Hc).
    exists t. split; [done|]. apply (counts_app l _ _ []); [apply counts_emit|done]. }
  destruct v; simpl; intros He.
  - simplify_eq. eauto using counts_nil.
  - simplify_eq. exists []. split; [done|]. rewrite <- (app_nil_r (emit ins p)).
    apply (counts_emit l [p]).
  - destruct (h !! p) as [[]|] eqn:Hp; simplify_eq; try (by eauto using counts_nil).
    destruct (IHl _ _ He) as (t & -> & Hc). eexists; split; [done|]. simpl. apply counts_enter.
    unfold own_nodes, walk_values. by rewrite Hp.
  - simplify_eq. exists []. split; [done|]. rewrite <- (app_nil_r (emit ins p)).
    apply (counts_emit l [p]).
  - apply cat_Some in He as (e1 & e2 & H1 & H2 & ->). rewrite node_refs_closure.
    destruct (IHl _ _ H1) as (t1 & -> & ?). destruct (IHl _ _ H2) as (t2 & -> & ?).
    eexists; split; [done|]. by apply counts_app.
  - apply cat_Some in He as (e1 & e2 & H1 & H2 & ->). rewrite node_refs_component.
    destruct (IHl _ _ H1) as (t1 & -> & ?).
    eapply counts_concat in H2 as (t2 & -> & ?); [|by intros; apply IHf].
    eexists; split; [done|]. by apply counts_app.
  - destruct (h !! p) as [[]|] eqn:Hp; simplify_eq; try (by eauto using counts_nil).
    destruct (IHf _ _ He) as (t & -> & Hc). eexists; split; [done|]. simpl. apply counts_enter.
    unfold own_nodes, walk_values. by rewrite Hp.
  - simplify_eq. exists []. split; [done|]. rewrite <- (app_nil_r (emit ins p)).
    apply (counts_emit l [p]).
  - destruct (h !! p) as [[]|] eqn:Hp; try (by case_bool_decide; simplify_eq; eauto using counts_nil).
    case_bool_decide.
    + simplify_eq. eexists; split; [done|]. apply counts_enter.
      unfold own_nodes, walk_values. rewrite Hp, bool_decide_true by done. apply counts_nil.
    + destruct (IHl _ _ He) as (t & -> & Hc). eexists; split; [done|]. simpl. apply counts_enter.
      unfold own_nodes, walk_values. by rewrite Hp, bool_decide_false.
  - simplify_eq. exists []. split; [done|]. rewrite <- (app_nil_r (emit ins p)).
    apply (counts_emit l [p]).
Qed.

Lemma classify_all_counts l n vs e :
  concatM (classify h ins l n) vs = Some e ->
  exists t, concatM (trail_val l n) vs = Some t /\ counts l e (flat_map node_refs vs) t.
Proof. apply counts_concat. intros x ex _. apply classify_counts. Qed.

(** An object whose walk is the walk of its values. *)
Lemma values_counts l n x e :
  own_nodes l x = [] -> concatM (classify h ins l n) (walk_values l x) = Some e ->
  exists t, concatM (trail_val l n) (walk_values l x) = Some t /\ counts l e [] (x :: t).
Proof.
  intros Ho (t & Ht & Hc)%classify_all_counts. exists t. split; [done|].
  apply counts_enter. by rewrite Ho.
Qed.

Lemma column_counts l n c e :
  concatM (classify h ins l n) (column_values h c) = Some e ->
  exists t, trail_column l n c = Some t /\ counts l e [] t.
Proof.
  unfold column_values, trail_column. intros He.
  destruct (h !! c) as [[]|] eqn:Hc; simplify_eq/=; try (by eauto using counts_nil).
  destruct (values_counts l n c e) as (t & Ht & ?); unfold own_nodes, walk_values in *;
    rewrite Hc in *; [done..|]. rewrite Ht. eauto.
Qed.

Lemma table_counts l n t e :
  concatM (classify h ins l n) (table_values h t) = Some e ->
  exists tr, trail_table l n t = Some tr /\ counts l e [] tr.
Proof.
  unfold table_values, trail_table. intros He.
  destruct (h !! t) as [[]|] eqn:Hc; simplify_eq/=; try (by eauto using counts_nil).
  destruct (values_counts l n t e) as (tr & Ht & ?); unfold own_nodes, walk_values in *;
    rewrite Hc in *; [done..|]. rewrite Ht. eauto.
Qed.

Lemma map_counts l n m e :
  data_map_children h ins l n m = Some e ->
  exists t, trail_map l n m = Some t /\ counts l e [m] t.
Proof.
  unfold data_map_children, trail_map, struct_values. case_bool_decide as Hm; intros He.
  - simplify_eq. exists []. split; [done|]. intros p. rewrite count_emit.
    unfold total; simpl. rewrite count_cons. case_bool_decide as Hp; [lia|].
    rewrite decide_False by (by intros ->). reflexivity.
  - assert (counts l [] [m] []).
    { intros p. simpl. unfold emit. by rewrite bool_decide_false. }
    destruct (h !! m) as [[]|] eqn:Hh; simplify_eq/=; try (by eauto).
    destruct (values_counts l n m e) as (t & Ht & Hc); unfold own_nodes, walk_values in *;
      rewrite Hh in *; [done..|].
    rewrite Ht. eexists; split; [done|]. intros p. rewrite (Hc p). simpl. unfold emit.
    by rewrite bool_decide_false.
Qed.

Lemma bp_counts l n b e :
  concatM (classify h ins l n) (blueprint_values h l b) = Some e ->
  exists t, trail_bp l n b = Some t /\ counts l e [] t.
Proof.
  unfold blueprint_values, trail_bp, walk_values. intros He.
  destruct (h !! b) as [[]|] eqn:Hb; simplify_eq/=; try (by eauto using counts_nil).
  apply cat_Some in He as (e1 & e2 & H1 & H2 & ->). rewrite concatM_app in H2.
  apply cat_Some in H2 as (e3 & e4 & H3 & H4 & ->).
  apply classify_counts in H1 as (t1 & -> & C1). apply table_counts in H3 as (t3 & -> & C3).
  apply classify_all_counts in H4 as (t4 & -> & C4).
  eexists; split; [done|]. intros p.
  pose proof (C1 p) as E1. pose proof (C3 p) as E3. pose proof (C4 p) as E4.
  assert (Eb : shown l b = flat_map (emit ins) (node_refs (bp_metadata b0))
     ++ flat_map (emit ins) (flat_map node_refs (bp_options b0 ++
          (if bool_decide (b ∈ l) then [] else opt_values (bp_metadata_cache b0))))).
  { unfold shown, own_nodes, walk_values. rewrite Hb. simpl. by rewrite flat_map_app. }
  rewrite !count_app, E1, E3, E4. simpl. change (count p []) with 0.
  unfold total; simpl. rewrite Eb, !sum_list_with_app, count_app. lia.
Qed.

Lemma node_counts l n p e :
  is_node h p = true -> for_each_child_node h ins l n p = Some e ->
  exists t, trail_node l n p = Some t /\ counts l e [] t.
Proof.
  unfold is_node, for_each_child_node, trail_node. intros Hn He.
  destruct (h !! p) as [[]|] eqn:Hp; try done.
  1,2,4: destruct (values_counts l n p e) as (t & Ht & ?); unfold own_nodes, walk_values in *;
    rewrite Hp in *; [done|repeat case_bool_decide; by simplify_eq/=|rewrite Ht; eauto].
  - eapply (counts_concat l _ (trail_column l n) (fun _ => [])) in He as (t & -> & Hc);
      [|intros; by apply column_counts].
    eexists; split; [done|]. apply counts_enter. unfold own_nodes, walk_values. rewrite Hp.
    intros q. rewrite (Hc q). f_equal. f_equal. f_equal. clear. by induction data.
  - case_bool_decide.
    + simplify_eq. eexists; split; [done|]. apply counts_enter.
      unfold own_nodes, walk_values. rewrite Hp, bool_decide_true by done. apply counts_nil.
    + apply cat_Some in He as (e1 & e2 & H1 & H2 & ->).
      apply classify_all_counts in H1 as (t1 & -> & C1).
      eapply (counts_concat l _ (trail_map l n) (fun m => [m])) in H2 as (t2 & -> & C2);
        [|intros; by apply map_counts].
      eexists; split; [done|]. apply counts_enter. unfold own_nodes, walk_values.
      rewrite Hp, bool_decide_false by done. intros q. rewrite count_app, (C1 q), (C2 q).
      rewrite total_app, flat_map_app, count_app. simpl. lia.
Qed.

(** The references counted are those shown by the objects walked. *)
Lemma internal_counts l n nodes e :
  Forall (fun p => is_node h p = true) nodes ->
  internal_refs h ins l n nodes = Some e ->
  exists t, count_trail l n nodes = Some t /\ forall p, count p e = total (shown l) t p.
Proof.
  intros Hn He. unfold internal_refs in He. unfold count_trail.
  apply cat_Some in He as (e1 & e2 & H1 & H2 & ->).
  apply cat_Some in H2 as (e3 & e4 & H3 & H4 & ->).
  eapply (counts_concat l _ (trail_node l n) (fun _ => [])) in H1 as (t1 & -> & C1).
  2: { intros x ex Hx. apply node_counts. by eapply Forall_forall in Hn. }
  eapply (counts_concat l _ (trail_bp l n) (fun _ => [])) in H3 as (t3 & -> & C3).
  2: { intros x ex _. apply bp_counts. }
  eapply (counts_concat l _ (trail_table l n) (fun _ => [])) in H4 as (t4 & -> & C4).
  2: { intros x ex _. apply table_counts. }
  eexists; split; [done|]. intros p. rewrite !count_app, (C1 p), (C3 p), (C4 p), !total_app.
  assert (E : forall xs : list addr, flat_map (fun _ => []) xs = ([] : list addr))
    by (by induction xs).
  rewrite !E. change (count p []) with 0. simpl. change (count p []) with 0. lia.
Qed.

(** *** Visible handles are handles *)

Lemma count_node_refs p vs : count p (flat_map node_refs vs) <= count p (vals_refs vs).
Proof.
  induction vs as [|v vs IH]; simpl; [done|]. unfold val_refs. rewrite !count_app. lia.
Qed.

Lemma shown_ins l x p : p ∈ shown l x -> p ∈ ins.
Proof. unfold shown. by intros (q & _ & [-> ?]%emit_spec)%elem_of_flat_map. Qed.

Lemma shown_count l x o p : h !! x = Some o -> count p (shown l x) <= count p (obj_refs o).
Proof.
  intros Hx. unfold shown. rewrite count_emit.
  transitivity (count p (own_nodes l x ++ flat_map node_refs (walk_values l x)));
    [case_bool_decide; lia|]. unfold own_nodes, walk_values. rewrite Hx.
  assert (R : forall vs, count p (flat_map node_refs vs) <= count p (vals_refs vs))
    by apply count_node_refs.
  pose proof (count_nil := eq_refl : count p [] = 0).
  destruct o; simpl; rewrite ?count_app, ?count_nil; repeat case_bool_decide;
    simpl; rewrite ?count_nil; try lia; try apply R.
  - specialize (R (st_map s)). lia.
  - specialize (R (opt_values (it_native_parent i))). unfold instance_maps.
    rewrite !count_cons, count_nil. lia.
  - specialize (R (function_values f)). lia.
  - specialize (R visited). lia.
  - rewrite app_nil_r. pose proof (R (bp_metadata b :: bp_options b)) as R'. revert R'.
    unfold vals_refs. simpl. rewrite !flat_map_app, !count_cons, !count_app. lia.
  - pose proof (R (bp_metadata b :: bp_options b ++ opt_values (bp_metadata_cache b))) as R'.
    revert R'. unfold vals_refs. simpl. rewrite !count_cons, !count_app. lia.
Qed.

(** *** What lies on a trail *)

Definition carrier_kind (k : kind) : bool :=
  match k with KFunction | KColumn | KNative | KTable => true | _ => false end.

Definition carrier y : Prop := exists o, h !! y = Some o /\ carrier_kind (kind_of o) = true.

Lemma concatM_forall {A} (P : addr -> Prop) (f : A -> option (list addr)) xs t :
  concatM f xs = Some t ->
  (forall (x : A) e y, x ∈ xs -> f x = Some e -> y ∈ e -> P y) -> forall y, y ∈ t -> P y.
Proof.
  intros Ht H y Hy. destruct (concatM_inv _ _ _ _ Ht Hy) as (x & e & Hx & He & Hye). eauto.
Qed.

Lemma trail_val_carriers l n v t y : trail_val l n v = Some t -> y ∈ t -> carrier y.
Proof.
  revert v t y; induction n as [|n IH]; intros v t y; [done|].
  assert (IHl : forall vs t y, concatM (trail_val l n) vs = Some t -> y ∈ t -> carrier y).
  { intros vs t' y' Ht. apply (concatM_forall _ _ _ _ Ht). eauto. }
  assert (Hin : forall p o t y, h !! p = Some o -> carrier_kind (kind_of o) = true ->
    (y ∈ t -> carrier y) -> y ∈ p :: t -> carrier y).
  { intros p o t' y' Hp Hk Ht [->|?]%elem_of_cons; [by exists o|auto]. }
  destruct v; cbn [trail_val]; intros Ht Hy; simplify_eq; try (by apply elem_of_nil in Hy).
  - destruct (h !! p) as [[]|] eqn:Hp; simplify_eq; try (by apply elem_of_nil in Hy).
    apply cat_Some in Ht as (t1 & t2 & [= <-] & H2 & ->). eapply Hin; [done..|eauto|done].
  - apply cat_Some in Ht as (t1 & t2 & H1 & H2 & ->).
    apply elem_of_app in Hy as [Hy|Hy]; eauto.
  - apply cat_Some in Ht as (t1 & t2 & H1 & H2 & ->).
    apply elem_of_app in Hy as [Hy|Hy]; [eauto|].
    rewrite <- (concatM_flat_map (trail_val l n) function_values) in H2. eauto.
  - destruct (h !! p) as [[]|] eqn:Hp; simplify_eq; try (by apply elem_of_nil in Hy).
    apply cat_Some in Ht as (t1 & t2 & [= <-] & H2 & ->). eapply Hin; [done..|eauto|done].
  - destruct (h !! p) as [[]|] eqn:Hp; simplify_eq; try (by apply elem_of_nil in Hy).
    apply cat_Some in Ht as (t1 & t2 & [= <-] & H2 & ->). eapply Hin; [done..| |done].
    case_bool_decide; simplify_eq; [by intros ?%elem_of_nil|eauto].
Qed.

Lemma trail_vals_carriers l n vs t y :
  concatM (trail_val l n) vs = Some t -> y ∈ t -> carrier y.
Proof.
  intros Ht. apply (concatM_forall _ _ _ _ Ht). intros x e z _. apply trail_val_carriers.
Qed.

Lemma trail_table_carriers l n tb t y : trail_table l n tb = Some t -> y ∈ t -> carrier y.
Proof.
  unfold trail_table. intros Ht Hy.
  destruct (h !! tb) as [[]|] eqn:Hp; simplify_eq; try (by apply elem_of_nil in Hy).
  apply cat_Some in Ht as (t1 & t2 & [= <-] & H2 & ->).
  apply elem_of_cons in Hy as [->|Hy]; [by eexists|by eapply trail_vals_carriers].
Qed.

(** An object walked while counting: a survivor, a carrier, the blueprint of a
    surviving instance, or its untracked data map. *)
Definition trail_member l (nodes : list addr) y : Prop :=
  y ∈ nodes \/ carrier y
  \/ (y ∈ blueprints h l nodes)
  \/ (y ∉ ins /\ exists p i, p ∈ nodes /\ read_instance h l p = Some i /\ y ∈ instance_maps i
       /\ exists s, h !! y = Some (OStruct s)).

Lemma trail_node_member l n nodes p t y :
  p ∈ nodes -> is_node h p = true -> trail_node l n p = Some t -> y ∈ t ->
  trail_member l nodes y.
Proof.
  unfold trail_node. intros Hp Hn (t1 & t2 & [= <-] & Ht & ->)%cat_Some.
  intros [->|Hy]%elem_of_cons; [by left|]. unfold is_node in Hn.
  destruct (h !! p) as [[]|] eqn:Hh; try done.
  1,2,4: right; left; by eapply trail_vals_carriers.
  - right; left. revert y Hy. apply (concatM_forall _ _ _ _ Ht). intros c e y _ He Hy.
    unfold trail_column in He.
    destruct (h !! c) as [[]|] eqn:Hc; simplify_eq; try (by apply elem_of_nil in Hy).
    apply cat_Some in He as (t3 & t4 & [= <-] & H4 & ->).
    apply elem_of_cons in Hy as [->|Hy]; [by eexists|by eapply trail_vals_carriers].
  - case_bool_decide as Hl; [simplify_eq; by apply elem_of_nil in Hy|].
    apply cat_Some in Ht as (t3 & t4 & H3 & H4 & ->).
    apply elem_of_app in Hy as [Hy|Hy]; [right; left; by eapply trail_vals_carriers|].
    revert y Hy. apply (concatM_forall _ _ _ _ H4). intros m e y Hm He Hy.
    unfold trail_map in He. case_bool_decide as Hi; [simplify_eq; by apply elem_of_nil in Hy|].
    destruct (h !! m) as [[]|] eqn:Hc; simplify_eq; try (by apply elem_of_nil in Hy).
    apply cat_Some in He as (t5 & t6 & [= <-] & H6 & ->).
    apply elem_of_cons in Hy as [->|Hy]; [|right; left; by eapply trail_vals_carriers].
    right; right; right. split; [done|]. exists p, i. unfold read_instance.
    rewrite Hh, bool_decide_false by done. eauto.
Qed.

Lemma count_trail_member l n nodes t y :
  Forall (fun p => is_node h p = true) nodes ->
  count_trail l n nodes = Some t -> y ∈ t -> trail_member l nodes y.
Proof.
  intros Hn Ht Hy. unfold count_trail in Ht.
  apply cat_Some in Ht as (t1 & t2 & H1 & H2 & ->).
  apply cat_Some in H2 as (t3 & t4 & H3 & H4 & ->).
  rewrite !elem_of_app in Hy. destruct Hy as [Hy|[Hy|Hy]].
  - revert y Hy. apply (concatM_forall _ _ _ _ H1). intros p e y Hp He Hy.
    eapply trail_node_member; [done| |done..]. by eapply Forall_forall in Hn.
  - revert y Hy. apply (concatM_forall _ _ _ _ H3). intros b e y Hb He Hy.
    unfold trail_bp in He.
    destruct (h !! b) as [[]|] eqn:Hc; simplify_eq; try (by apply elem_of_nil in Hy).
    apply cat_Some in He as (t5 & t6 & [= <-] & H6 & ->).
    apply elem_of_cons in Hy as [->|Hy]; [by right; right; left|].
    apply cat_Some in H6 as (t7 & t8 & H7 & H8 & ->). right; left.
    apply elem_of_app in Hy as [Hy|Hy];
      [by eapply trail_vals_carriers|by eapply trail_table_carriers].
  - revert y Hy. apply (concatM_forall _ _ _ _ H4). intros b e y _ He Hy. right; left.
    by eapply trail_table_carriers.
Qed.
End Shown.

(** ** Marking *)

Section Mark.
Context (h : heap) (ins lm : gset addr) (n : nat).
Implicit Types (st : mark_state) (p q b t : addr).

Abbreviation cl := (concatM (classify h ins lm n)).

Definition mark_le st st' : Prop :=
  mk_live st ⊆ mk_live st' /\ mk_bps st ⊆ mk_bps st' /\ mk_tables st ⊆ mk_tables st'.

#[local] Instance mark_le_preorder : PreOrder mark_le.
Proof. split; unfold mark_le; [intros st|intros ???]; set_solver. Qed.

Lemma mark_children_spec st cs :
  let st' := mark_children st cs in
  (forall p, p ∈ mk_live st' <-> p ∈ mk_live st \/ p ∈ cs)
  /\ (forall p, p ∈ mk_live st' -> p ∈ mk_live st \/ p ∈ mk_worklist st')
  /\ mk_worklist st ⊆ mk_worklist st'
  /\ mk_bps st' = mk_bps st /\ mk_tables st' = mk_tables st.
Proof.
  revert st; induction cs as [|c cs IH]; intros st; simpl; [set_solver|].
  destruct (IH (mark_child st c)) as (H1 & H2 & H3 & H4 & H5). clear IH.
  assert (E : mk_bps (mark_child st c) = mk_bps st /\ mk_tables (mark_child st c) = mk_tables st
    /\ mk_worklist st ⊆ mk_worklist (mark_child st c)
    /\ (forall p, p ∈ mk_live (mark_child st c) <-> p ∈ mk_live st \/ p = c)
    /\ (forall p, p ∈ mk_live (mark_child st c) ->
          p ∈ mk_live st \/ p ∈ mk_worklist (mark_child st c))).
  { unfold mark_child. case_bool_decide; simpl; set_solver. }
  destruct E as (E1 & E2 & E3 & E4 & E5). split_and!.
  - intros p. rewrite H1, E4, elem_of_cons. tauto.
  - intros p Hp. destruct (H2 p Hp) as [Hq|]; [|by right]. destruct (E5 p Hq); [by left|].
    right. by apply H3.
  - set_solver.
  - by rewrite H4.
  - by rewrite H5.
Qed.

Lemma mark_children_le st cs : mark_le st (mark_children st cs).
Proof.
  destruct (mark_children_spec st cs) as (H1 & _ & _ & H4 & H5).
  unfold mark_le. rewrite H4, H5. set_solver.
Qed.

(** A survivor whose walk has been followed. *)
Definition followed st p : Prop :=
  (exists cs, for_each_child_node h ins lm n p = Some cs /\ forall c, c ∈ cs -> c ∈ mk_live st)
  /\ (forall b, b ∈ class_of h lm p -> b ∈ mk_bps st)
  /\ (forall t, t ∈ tables_of h lm p -> t ∈ mk_tables st).

Definition values_live st (vs : list gval) : Prop :=
  exists e, cl vs = Some e /\ forall c, c ∈ e -> c ∈ mk_live st.

(** The loop invariant; [P] holds of the survivors being followed. *)
Record mark_inv (P : addr -> Prop) st : Prop := {
  mi_live : forall p, p ∈ mk_live st -> p ∈ mk_worklist st \/ followed st p \/ P p;
  mi_bps : forall b, b ∈ mk_bps st -> values_live st (blueprint_values h lm b);
  mi_tables : forall t, t ∈ mk_tables st -> values_live st (table_values h t)
}.

Lemma followed_le st st' p : mark_le st st' -> followed st p -> followed st' p.
Proof.
  intros (H1 & H2 & H3) ((cs & Hcs & Hl) & Hb & Ht). split_and!; [|set_solver..].
  exists cs. split; [done|]. set_solver.
Qed.

Lemma values_live_le st st' vs : mark_le st st' -> values_live st vs -> values_live st' vs.
Proof. intros (H1 & _) (e & He & Hl). exists e. split; [done|]. set_solver. Qed.

(** Marking the survivors a list of values shows, after noting a carrier. *)
Lemma mark_values_inv P st st' st0 vs :
  mark_inv P st -> mk_live st0 = mk_live st -> mk_worklist st0 = mk_worklist st ->
  mk_bps st ⊆ mk_bps st0 -> mk_tables st ⊆ mk_tables st0 ->
  (forall b, b ∈ mk_bps st0 -> b ∈ mk_bps st \/ vs = blueprint_values h lm b) ->
  (forall t, t ∈ mk_tables st0 -> t ∈ mk_tables st \/ vs = table_values h t) ->
  mark_values h ins lm n st0 vs = Some st' ->
  mark_inv P st' /\ mark_le st0 st' /\ values_live st' vs.
Proof.
  intros [I1 I2 I3] El Ew Hb Ht Hb' Ht' Hm. unfold mark_values in Hm.
  destruct (cl vs) as [e|] eqn:He; simplify_eq/=.
  destruct (mark_children_spec st0 e) as (H1 & H2 & H3 & H4 & H5).
  pose proof (mark_children_le st0 e) as Hle.
  assert (Hle' : mark_le st (mark_children st0 e)).
  { etrans; [|exact Hle]. split_and!; [by rewrite El|done|done]. }
  assert (Hv : values_live (mark_children st0 e) vs).
  { exists e. split; [done|]. intros c Hc. apply H1. by right. }
  split_and!; [|done|done]. split.
  - intros p Hp. destruct (H2 p Hp) as [Hq|]; [|by left]. rewrite El in Hq.
    destruct (I1 p Hq) as [Hw|[Hf|]]; [|right; left; by eapply followed_le|by right; right].
    left. apply H3. by rewrite Ew.
  - intros b. rewrite H4. intros [Hin| <-]%Hb'; [|done]. eapply values_live_le; [done|auto].
  - intros t. rewrite H5. intros [Hin| <-]%Ht'; [|done]. eapply values_live_le; [done|auto].
Qed.

Lemma mark_blueprint_inv P st st' b :
  mark_inv P st -> mark_blueprint h ins lm n st b = Some st' ->
  mark_inv P st' /\ mark_le st st' /\ b ∈ mk_bps st'.
Proof.
  unfold mark_blueprint. intros HI. case_bool_decide as Hb; intros Hm; [by simplify_eq|].
  eapply mark_values_inv in Hm as (? & Hle & _); [|done|done|done|simpl; set_solver..].
  destruct Hle as (? & Hbs & ?). simpl in *. split_and!; [done|split_and!; set_solver|set_solver].
Qed.

Lemma mark_table_inv P st st' t :
  mark_inv P st -> mark_table h ins lm n st t = Some st' ->
  mark_inv P st' /\ mark_le st st' /\ t ∈ mk_tables st'.
Proof.
  unfold mark_table. intros HI. case_bool_decide as Ht; intros Hm; [by simplify_eq|].
  eapply mark_values_inv in Hm as (? & Hle & _); [|done|done|done|simpl; set_solver..].
  destruct Hle as (? & ? & ?). simpl in *. split_and!; [done|split_and!; set_solver|set_solver].
Qed.

Lemma foldM_inv (f : mark_state -> addr -> option mark_state) (I : mark_state -> Prop)
    (Q : mark_state -> addr -> Prop) l st st' :
  (forall st st' x, I st -> f st x = Some st' -> I st' /\ mark_le st st' /\ Q st' x) ->
  (forall st st' x, mark_le st st' -> Q st x -> Q st' x) ->
  I st -> foldM f st l = Some st' ->
  I st' /\ mark_le st st' /\ forall x, x ∈ l -> Q st' x.
Proof.
  intros Hf HQ. revert st; induction l as [|x l IH]; simpl; intros st HI Hm.
  - simplify_eq. split_and!; [done|done|]. by intros x ?%elem_of_nil.
  - destruct (f st x) as [st1|] eqn:Hx; [|done].
    destruct (Hf _ _ _ HI Hx) as (HI1 & Hle1 & HQ1).
    destruct (IH _ HI1 Hm) as (HI2 & Hle2 & HQ2).
    split_and!; [done|by etrans|]. intros y [->|Hy]%elem_of_cons; eauto.
Qed.

Lemma mark_node_inv st st' p :
  mark_inv (fun q => q = p) st -> mark_node h ins lm n st p = Some st' ->
  mark_inv (fun _ => False) st' /\ mark_le st st'.
Proof.
  unfold mark_node. intros HI Hm.
  destruct (for_each_child_node h ins lm n p) as [cs|] eqn:Hcs; [|done].
  destruct (foldM _ _ (class_of h lm p)) as [st1|] eqn:H1; [|done].
  assert (HI0 : mark_inv (fun q => q = p) (mark_children st cs)).
  { destruct (mark_children_spec st cs) as (E1 & E2 & E3 & E4 & E5). destruct HI as [I1 I2 I3].
    pose proof (mark_children_le st cs) as Hle. split.
    - intros q Hq. destruct (E2 q Hq) as [Hq'|]; [|by left].
      destruct (I1 q Hq') as [|[|]]; [left; by apply E3|right; left; by eapply followed_le|auto].
    - intros b. rewrite E4. intros Hb. eapply values_live_le; [done|auto].
    - intros t. rewrite E5. intros Ht. eapply values_live_le; [done|auto]. }
  eapply (foldM_inv _ (mark_inv (fun q => q = p)) (fun st b => b ∈ mk_bps st)) in H1
    as (HI1 & Hle1 & Hb); [|apply mark_blueprint_inv|unfold mark_le; set_solver|done].
  eapply (foldM_inv _ (mark_inv (fun q => q = p)) (fun st t => t ∈ mk_tables st)) in Hm
    as (HI2 & Hle2 & Ht); [|apply mark_table_inv|unfold mark_le; set_solver|done].
  split; [|by etrans; [apply (mark_children_le st cs)|etrans]].
  destruct HI2 as [I1 I2 I3]. split; [|done|done].
  intros q Hq. destruct (I1 q Hq) as [|[| ->]]; [by left|by right; left|]. right; left.
  split_and!; [exists cs; split; [done|]|..].
  - intros c Hc. apply Hle2, Hle1. apply mark_children_spec. by right.
  - intros b Hin. apply Hle2. auto.
  - done.
Qed.

Lemma mark_loop_inv fuel st st' :
  mark_inv (fun _ => False) st -> mark_loop h ins lm n fuel st = Some st' ->
  mark_inv (fun _ => False) st' /\ mk_worklist st' = [] /\ mark_le st st'.
Proof.
  revert st; induction fuel as [|fuel IH]; intros st HI; simpl;
    destruct (mk_worklist st) as [|p w] eqn:Hw; try done; [by intros [= <-]..|].
  destruct (mark_node _ _ _ _ _ _) as [st1|] eqn:Hn; [|done]. intros Hm.
  eapply mark_node_inv in Hn as [HI1 Hle1].
  - destruct (IH _ HI1 Hm) as (? & ? & Hle2). split_and!; [done|done|].
    by etrans; [|exact Hle2].
  - destruct HI as [I1 I2 I3]. split; [|done|done]. intros q Hq. simpl.
    destruct (I1 q Hq) as [Hin|[|[]]]; [|by right; left].
    rewrite Hw in Hin. apply elem_of_cons in Hin as [->|]; auto.
Qed.

(** Nothing is marked that the closure does not force. *)
Record mark_closed (G : addr -> Prop) : Prop := {
  mc_node : forall p cs c, G p -> for_each_child_node h ins lm n p = Some cs -> c ∈ cs -> G c;
  mc_class : forall p b, G p -> b ∈ class_of h lm p -> G b;
  mc_tables : forall p t, G p -> t ∈ tables_of h lm p -> G t;
  mc_bp : forall b e c, G b -> cl (blueprint_values h lm b) = Some e -> c ∈ e -> G c;
  mc_table : forall t e c, G t -> cl (table_values h t) = Some e -> c ∈ e -> G c
}.

Section Least.
Context (G : addr -> Prop) (GC : mark_closed G).

Definition within st : Prop :=
  (forall p, p ∈ mk_live st -> G p) /\ (forall p, p ∈ mk_worklist st -> G p).

Lemma within_children st cs :
  within st -> (forall c, c ∈ cs -> G c) -> within (mark_children st cs).
Proof.
  revert st; induction cs as [|c cs IH]; intros st Hw Hc; simpl; [done|].
  apply IH; [|set_solver]. unfold mark_child, within in *. case_bool_decide; [done|].
  simpl. set_solver.
Qed.

Lemma within_blueprint st st' b :
  G b -> within st -> mark_blueprint h ins lm n st b = Some st' -> within st'.
Proof.
  unfold mark_blueprint, mark_values. intros Hb Hw. case_bool_decide; [by intros [= <-]|].
  destruct (cl _) as [e|] eqn:He; simpl; intros; simplify_eq.
  apply within_children; [done|]. intros c Hc. by apply (mc_bp _ GC b e).
Qed.

Lemma within_table st st' t :
  G t -> within st -> mark_table h ins lm n st t = Some st' -> within st'.
Proof.
  unfold mark_table, mark_values. intros Ht Hw. case_bool_decide; [by intros [= <-]|].
  destruct (cl _) as [e|] eqn:He; simpl; intros; simplify_eq.
  apply within_children; [done|]. intros c Hc. by apply (mc_table _ GC t e).
Qed.

Lemma within_foldM (f : mark_state -> addr -> option mark_state) l st st' :
  (forall st st' x, G x -> within st -> f st x = Some st' -> within st') ->
  (forall x, x ∈ l -> G x) -> within st -> foldM f st l = Some st' -> within st'.
Proof.
  intros Hf. revert st; induction l as [|x l IH]; simpl; intros st Hl Hw Hm; [by simplify_eq|].
  destruct (f st x) as [st1|] eqn:Hx; [|done].
  eapply IH; [set_solver| |done]. eapply Hf; [|done..]. apply Hl. left.
Qed.

Lemma within_loop fuel st st' :
  within st -> mark_loop h ins lm n fuel st = Some st' -> within st'.
Proof.
  revert st; induction fuel as [|fuel IH]; intros st Hw; simpl;
    destruct (mk_worklist st) as [|p w] eqn:Hwl; try done; [by intros [= <-]..|].
  destruct (mark_node _ _ _ _ _ _) as [st1|] eqn:Hn; [|done]. apply IH.
  assert (Gp : G p) by (apply Hw; rewrite Hwl; left).
  unfold mark_node in Hn. destruct (for_each_child_node h ins lm n p) as [cs|] eqn:Hcs; [|done].
  destruct (foldM _ _ (class_of h lm p)) as [st2|] eqn:H2; [|done].
  eapply (within_foldM _ (tables_of h lm p)); [apply within_table|intros t Ht; by apply (mc_tables _ GC p)| |exact Hn].
  eapply (within_foldM _ (class_of h lm p)); [apply within_blueprint|intros b Hb; by apply (mc_class _ GC p)| |exact H2].
  apply within_children; [|intros c Hc; by apply (mc_node _ GC p cs)]. split; [apply Hw|]. simpl. intros q Hq.
  apply Hw. rewrite Hwl. by right.
Qed.
End Least.

(** *** The loop ends *)

(** Survivors not yet taken from the worklist. *)
Definition pending (nodes : list addr) st : nat :=
  length (mk_worklist st) + length (List.filter (fun p => negb (bool_decide (p ∈ mk_live st))) nodes).

Lemma filter_weaken {A} (f g : A -> bool) (l : list A) x :
  (forall y, g y = true -> f y = true) -> x ∈ l -> f x = true -> g x = false ->
  S (length (List.filter g l)) <= length (List.filter f l).
Proof.
  intros Hfg. induction l as [|y l IH]; intros Hx Hf Hg; [by apply elem_of_nil in Hx|]. simpl.
  assert (length (List.filter g l) <= length (List.filter f l)).
  { clear -Hfg. induction l as [|z l IH]; simpl; [done|].
    destruct (g z) eqn:E; [rewrite (Hfg _ E)|destruct (f z)]; simpl; lia. }
  apply elem_of_cons in Hx as [<-|Hx]; [rewrite Hf, Hg; simpl; lia|].
  specialize (IH Hx Hf Hg).
  destruct (g y) eqn:E; [rewrite (Hfg _ E)|destruct (f y)]; simpl; lia.
Qed.

Lemma pending_children nodes st cs :
  (forall c, c ∈ cs -> c ∈ nodes) -> pending nodes (mark_children st cs) <= pending nodes st.
Proof.
  revert st; induction cs as [|c cs IH]; intros st Hc; simpl; [done|].
  etrans; [apply IH; set_solver|]. unfold mark_child, pending. case_bool_decide as Hl; [done|].
  simpl. pose proof (filter_weaken (fun p => negb (bool_decide (p ∈ mk_live st)))
    (fun p => negb (bool_decide (p ∈ {[c]} ∪ mk_live st))) nodes c) as Hf.
  enough (S (length (List.filter (fun p => negb (bool_decide (p ∈ {[c]} ∪ mk_live st))) nodes))
    <= length (List.filter (fun p => negb (bool_decide (p ∈ mk_live st))) nodes)) by lia.
  apply Hf.
  - intros y. rewrite !negb_true_iff, !bool_decide_eq_false. set_solver.
  - apply Hc. left.
  - by rewrite bool_decide_false.
  - rewrite bool_decide_true; [done|set_solver].
Qed.
End Mark.
