(* ===== verification/GcSafety.v ===== *)
(** * GcSafety: a pass touches nothing that is still in use

    A pass decides from the strong counts of the survivors and from the
    references it can see among them.  That decision is right when every
    reference it counts is counted once and when the carriers it looks through
    belong to the survivors: [sole_owners].  [collect_safe] is the theorem,
    [shared_function_lost] and [shared_map_lost] show what happens without the
    condition. *)

From stdpp Require Import base list numbers gmap sets option relations.
From S2P Require Import Prelude GcHeap GcPass GcPassFacts.

(** ** Walks and their parts *)

Section Walks.
Context (h : heap) (ins : gset addr).
Implicit Types (l : gset addr) (x y z p : addr) (v : gval) (n m : nat).

Lemma distinct_elem seen (l : list addr) p : p ∈ distinct seen l <-> p ∈ l /\ p ∉ seen.
Proof.
  revert seen; induction l as [|q l IH]; intros seen; simpl; [set_solver|].
  case_bool_decide; rewrite ?elem_of_cons, IH; [set_solver|]. destruct (decide (p = q)); set_solver.
Qed.

Lemma distinct_NoDup seen (l : list addr) : NoDup (distinct seen l).
Proof.
  revert seen; induction l as [|q l IH]; intros seen; simpl; [constructor|].
  case_bool_decide; [done|]. constructor; [|done]. rewrite distinct_elem. set_solver.
Qed.

Lemma survivors_elem log p : p ∈ survivors h log <-> p ∈ log /\ is_node h p = true.
Proof.
  unfold survivors. rewrite distinct_elem, list_elem_of_In, filter_In, <- list_elem_of_In.
  set_solver.
Qed.

Lemma survivors_nodes log : Forall (fun p => is_node h p = true) (survivors h log).
Proof. apply Forall_forall. intros p Hp%survivors_elem. apply Hp. Qed.

(** A walk shows what the object itself shows. *)
Lemma walk_shown l n y e p :
  walk h ins l n y = Some e -> p ∈ shown h ins l y -> p ∈ e.
Proof.
  intros Hw Hp. assert (exists t, counts h ins l e [] (y :: t)) as (t & Hc).
  { unfold walk in Hw. destruct (h !! y) as [o|] eqn:Hy.
    2: { unfold shown, own_nodes, walk_values in Hp. rewrite Hy in Hp. by apply elem_of_nil in Hp. }
    destruct o.
    1-5: destruct (node_counts h ins l n y e) as (t & Ht & Hc);
      [unfold is_node; by rewrite Hy|done|]; unfold trail_node in Ht;
      apply cat_Some in Ht as (t1 & t2 & [= <-] & _ & ->); eauto.
    - unfold classify_function in Hw. apply cat_Some in Hw as (e1 & e2 & [= <-] & H2 & ->).
      apply classify_all_counts in H2 as (t & _ & Hc). exists t. apply counts_enter.
      unfold own_nodes, walk_values. rewrite Hy.
      apply (counts_app h ins l _ _ []); [apply counts_emit|done].
    - destruct (values_counts h ins l n y e) as (t & _ & ?);
        unfold own_nodes, walk_values; rewrite ?Hy; eauto.
    - destruct (values_counts h ins l n y e) as (t & _ & ?);
        unfold own_nodes, walk_values; rewrite ?Hy; [done|by case_bool_decide|eauto].
    - apply bp_counts in Hw as (t & Ht & Hc). unfold trail_bp in Ht. rewrite Hy in Ht.
      apply cat_Some in Ht as (t1 & t2 & [= <-] & _ & ->). eauto.
    - destruct (values_counts h ins l n y e) as (t & _ & ?);
        unfold own_nodes, walk_values; rewrite ?Hy; eauto. }
  apply count_pos. rewrite (Hc p). apply count_pos in Hp. unfold total; simpl. lia.
Qed.

Lemma via_refs_closure vars b :
  via_refs (GClosure vars b) = flat_map via_refs vars ++ flat_map via_refs (body_values b).
Proof. unfold via_refs; simpl. by rewrite body_flat_values. Qed.

Lemma via_refs_component props ms :
  via_refs (GComponent props ms)
  = flat_map via_refs props ++ flat_map via_refs (flat_map function_values ms).
Proof.
  unfold via_refs; simpl. f_equal. induction ms as [|f ms IH]; simpl; [done|].
  rewrite flat_map_app, <- IH, function_flat_values. f_equal.
  by destruct (fn_captured_scope f).
Qed.

(** The walk of a value contains the walks of the objects it goes through. *)
Definition part l z (e : list addr) : Prop :=
  exists m e', walk h ins l m z = Some e' /\ e' ⊆ e.

Lemma part_mono l z e e' : part l z e -> e ⊆ e' -> part l z e'.
Proof. intros (m & e0 & ? & ?) ?. exists m, e0. split; [done|]. by etrans. Qed.

Lemma classify_part l n v e z :
  classify h ins l n v = Some e -> val_typed h v = true -> z ∈ via_refs v -> part l z e.
Proof.
  revert v e z; induction n as [|n IH]; intros v e z; [done|].
  assert (IHl : forall vs e z, concatM (classify h ins l n) vs = Some e ->
    forallb (val_typed h) vs = true -> z ∈ flat_map via_refs vs -> part l z e).
  { intros vs e' z' He Hty (v' & Hv & Hz)%elem_of_flat_map.
    destruct (concatM_elem _ _ _ _ He Hv) as (ev & Hev & Hsub).
    eapply part_mono; [|exact Hsub]. eapply IH; [done| |done].
    rewrite forallb_forall in Hty. apply Hty. by apply list_elem_of_In. }
  assert (leaf : forall p e, walk h ins l n p = Some e -> z ∈ [p] -> part l z e).
  { intros p e' Hw ->%list_elem_of_singleton. by exists n, e'. }
  destruct v; simpl; unfold has_kind; intros He Hty Hz; try (by apply elem_of_nil in Hz).
  - destruct (h !! p) as [[]|] eqn:Hp; try done. apply (leaf p); [|done].
    unfold walk. by rewrite Hp.
  - apply andb_true_iff in Hty as [T1 T2]. rewrite body_all_values in T2.
    apply cat_Some in He as (e1 & e2 & H1 & H2 & ->). unfold classify_body in H2.
    rewrite via_refs_closure in Hz. apply elem_of_app in Hz as [Hz|Hz].
    + eapply part_mono; [eapply IHl; [exact H1|exact T1|exact Hz]|]. set_solver.
    + eapply part_mono; [eapply IHl; eauto|set_solver].
  - apply andb_true_iff in Hty as [T1 T2].
    apply cat_Some in He as (e1 & e2 & H1 & H2 & ->).
    rewrite via_refs_component in Hz. apply elem_of_app in Hz as [Hz|Hz].
    + eapply part_mono; [eapply IHl; eauto|set_solver].
    + apply elem_of_flat_map in Hz as (v & (f & Hf & Hv)%elem_of_flat_map & Hz).
      destruct (concatM_elem _ _ _ _ H2 Hf) as (ef & Hef & Hsub).
      unfold classify_function in Hef. apply cat_Some in Hef as (e3 & e4 & _ & H4 & ->).
      rewrite forallb_forall in T2. specialize (T2 f).
      rewrite function_all_values in T2. apply list_elem_of_In in Hf.
      specialize (T2 Hf). apply andb_true_iff in T2 as [_ T2].
      eapply part_mono; [eapply IHl; [done..|]|set_solver]. apply elem_of_flat_map. eauto.
  - destruct (h !! p) as [[]|] eqn:Hp; try done. apply (leaf p); [|done].
    unfold walk. by rewrite Hp.
  - destruct (h !! p) as [[]|] eqn:Hp; try done. apply (leaf p); [|done].
    unfold walk. by rewrite Hp.
Qed.

Lemma classify_all_part l n vs e z :
  concatM (classify h ins l n) vs = Some e -> forallb (val_typed h) vs = true ->
  z ∈ flat_map via_refs vs -> part l z e.
Proof.
  intros He Hty (v & Hv & Hz)%elem_of_flat_map.
  destruct (concatM_elem _ _ _ _ He Hv) as (ev & Hev & Hsub).
  eapply part_mono; [|exact Hsub]. eapply classify_part; [done| |done].
  rewrite forallb_forall in Hty. apply Hty. by apply list_elem_of_In.
Qed.

Lemma typed_kind x k : has_kind h x k = true -> exists o, h !! x = Some o /\ kind_of o = k.
Proof.
  unfold has_kind. destruct (h !! x) as [o|]; [|done]. rewrite bool_decide_eq_true. eauto.
Qed.

Lemma walk_next_part l n x e z :
  heap_typed h -> walk h ins l n x = Some e -> z ∈ walk_next h ins l x -> part l z e.
Proof.
  intros Hty Hw Hz. unfold walk_next, walk_values in Hz.
  destruct (h !! x) as [o|] eqn:Hx; [|by simpl in Hz; apply elem_of_nil in Hz].
  pose proof (Hty x o Hx) as Ho. unfold walk in Hw. rewrite Hx in Hw.
  destruct o; simpl in Ho; unfold for_each_child_node in Hw; rewrite ?Hx in Hw;
    cbn [flat_map app] in Hz;
    try (rewrite app_nil_r in Hz).
  - apply andb_true_iff in Ho as [[Ho _]%andb_true_iff _]. by eapply classify_all_part.
  - by eapply classify_all_part.
  - destruct (concatM_elem _ _ _ _ Hw Hz) as (ec & Hec & Hsub).
    eapply part_mono; [|exact Hsub]. exists n, ec. split; [|done].
    rewrite forallb_forall in Ho. apply list_elem_of_In in Hz.
    destruct (typed_kind _ _ (Ho _ Hz)) as (o & Hc & Hk). destruct o; try done.
    unfold walk. rewrite Hc. unfold column_values in Hec. by rewrite Hc in Hec.
  - case_bool_decide; [by apply elem_of_nil in Hz|]. by eapply classify_all_part.
  - apply andb_true_iff in Ho as [[[_ Hm1]%andb_true_iff Hm2]%andb_true_iff Ho].
    case_bool_decide; [by apply elem_of_nil in Hz|].
    apply cat_Some in Hw as (e1 & e2 & H1 & H2 & ->).
    apply elem_of_app in Hz as [Hz|Hz].
    + eapply part_mono; [by eapply classify_all_part|set_solver].
    + apply list_elem_of_In, filter_In in Hz as [Hz Hni].
      apply list_elem_of_In in Hz. apply negb_true_iff, bool_decide_eq_false in Hni.
      destruct (concatM_elem _ _ _ _ H2 Hz) as (em & Hem & Hsub).
      assert (exists s, h !! z = Some (OStruct s)) as (s & Hs).
      { unfold instance_maps in Hz. rewrite !elem_of_cons in Hz.
        assert (has_kind h z KStruct = true) as (o & Hs & Hk)%typed_kind by set_solver.
        destruct o; naive_solver. }
      eapply part_mono; [|etrans; [exact Hsub|set_solver]]. exists n, em. split; [|done].
      unfold data_map_children in Hem. rewrite bool_decide_false in Hem by done.
      unfold struct_values in Hem. rewrite Hs in Hem.
      unfold walk, for_each_child_node. by rewrite Hs.
  - apply andb_true_iff in Ho as [_ Ho]. unfold classify_function in Hw.
    apply cat_Some in Hw as (e1 & e2 & _ & H2 & ->).
    eapply part_mono; [by eapply classify_all_part|set_solver].
  - by eapply classify_all_part.
  - apply andb_true_iff in Ho as [Ho _]. case_bool_decide; [by apply elem_of_nil in Hz|].
    by eapply classify_all_part.
  - apply andb_true_iff in Ho as [[_ Ht]%andb_true_iff Ho].
    unfold blueprint_values in Hw. rewrite Hx in Hw.
    change (bp_metadata b :: table_values h (bp_method_values b) ++ bp_options b ++
      (if bool_decide (x ∈ l) then [] else opt_values (bp_metadata_cache b)))
      with ([bp_metadata b] ++ table_values h (bp_method_values b) ++ bp_options b ++
      (if bool_decide (x ∈ l) then [] else opt_values (bp_metadata_cache b))) in Hw.
    rewrite !concatM_app in Hw. apply cat_Some in Hw as (e1 & e2 & H1 & H2 & ->).
    apply cat_Some in H2 as (e3 & e4 & H3 & H4 & ->). rewrite <- concatM_app in H4.
    apply andb_true_iff in Ho as [Hmd Ho]. rewrite forallb_app in Ho.
    apply andb_true_iff in Ho as [Hop Hca].
    rewrite <- app_assoc in Hz. rewrite !elem_of_app in Hz. destruct Hz as [Hz|[Hz|Hz]].
    + eapply part_mono; [eapply (classify_all_part l n [bp_metadata b]); [done|..]|set_solver];
        simpl; [by rewrite Hmd|by rewrite app_nil_r].
    + eapply part_mono; [eapply classify_all_part; [exact H4| |done]|set_solver].
      rewrite forallb_app, Hop. by case_bool_decide.
    + apply list_elem_of_singleton in Hz as ->.
      apply (part_mono l _ e3); [|intros ? ?; rewrite !elem_of_app; by auto].
      exists n, e3. split; [|done]. apply typed_kind in Ht as (o & Ho & Hk).
      destruct o; try done. unfold walk. rewrite Ho. unfold table_values in H3. by rewrite Ho in H3.
  - by eapply classify_all_part.
Qed.

(** A walk goes on to carriers, or from an instance to its data maps. *)
Lemma has_kind_carrier z k : has_kind h z k = true -> carrier_kind k = true -> carrier h z.
Proof. intros (o & Ho & <-)%typed_kind Hk. by exists o. Qed.

Lemma via_carrier v z : val_typed h v = true -> z ∈ via_refs v -> carrier h z.
Proof.
  assert (all : forall vs, Forall (fun v => val_typed h v = true -> z ∈ via_refs v -> carrier h z) vs ->
    forallb (val_typed h) vs = true -> z ∈ flat_map via_refs vs -> carrier h z).
  { intros vs Hall Hty (v' & Hv & Hz)%elem_of_flat_map. rewrite Forall_forall in Hall.
    rewrite forallb_forall in Hty. apply (Hall v'); [done| |done].
    apply Hty. by apply list_elem_of_In. }
  induction v using gval_ind'; simpl; try (by intros _ ?%elem_of_nil).
  1,4,5: intros Hk ->%list_elem_of_singleton; by eapply has_kind_carrier.
  - rewrite via_refs_closure, body_all_values, andb_true_iff, elem_of_app.
    intros [T1 T2] [Hz|Hz]; (eapply all; [| |exact Hz]; done).
  - rewrite via_refs_component, andb_true_iff, elem_of_app.
    intros [T1 T2] [Hz|Hz]; [by eapply all; [| |exact Hz]|].
    apply elem_of_flat_map in Hz as (v & (f & Hf & Hv)%elem_of_flat_map & Hz).
    rewrite Forall_forall in H0. apply (all (function_values f)); [by apply H0| |].
    + rewrite forallb_forall in T2. apply list_elem_of_In in Hf. specialize (T2 f Hf).
      rewrite function_all_values in T2. by apply andb_true_iff in T2 as [_ ?].
    + apply elem_of_flat_map. eauto.
Qed.

Lemma vias_carrier vs z :
  forallb (val_typed h) vs = true -> z ∈ flat_map via_refs vs -> carrier h z.
Proof.
  intros Hty (v & Hv & Hz)%elem_of_flat_map. apply (via_carrier v); [|done].
  rewrite forallb_forall in Hty. apply Hty. by apply list_elem_of_In.
Qed.

Lemma walk_values_typed l x : heap_typed h -> forallb (val_typed h) (walk_values h l x) = true.
Proof.
  intros Hty. unfold walk_values. destruct (h !! x) as [o|] eqn:Hx; [|done].
  pose proof (Hty x o Hx) as Ho. destruct o; simpl in Ho |- *; repeat case_bool_decide; try done.
  all: rewrite ?andb_true_iff, ?forallb_app, ?andb_true_iff in Ho;
    rewrite ?andb_true_iff, ?forallb_app, ?andb_true_iff; simpl; tauto.
Qed.

Lemma walk_next_kind l x z :
  heap_typed h -> z ∈ walk_next h ins l x ->
  carrier h z
  \/ exists i, read_instance h l x = Some i /\ z ∈ instance_maps i /\ z ∉ ins
     /\ exists s, h !! z = Some (OStruct s).
Proof.
  intros Hty. unfold walk_next. rewrite elem_of_app. intros [Hz|Hz].
  { left. eapply vias_carrier; [by apply walk_values_typed|done]. }
  destruct (h !! x) as [o|] eqn:Hx; [|by apply elem_of_nil in Hz].
  pose proof (Hty x o Hx) as Ho. destruct o; try (by apply elem_of_nil in Hz); simpl in Ho.
  - left. rewrite forallb_forall in Ho. apply list_elem_of_In in Hz.
    eapply has_kind_carrier; [by apply Ho|done].
  - right. case_bool_decide as Hl; [by apply elem_of_nil in Hz|]. exists i.
    apply list_elem_of_In, filter_In in Hz as [Hz Hni].
    apply list_elem_of_In in Hz. apply negb_true_iff, bool_decide_eq_false in Hni.
    unfold read_instance. rewrite Hx, bool_decide_false by done. split_and!; try done.
    rewrite !andb_true_iff in Ho. unfold instance_maps in Hz. rewrite !elem_of_cons in Hz.
    assert (has_kind h z KStruct = true) as (o & Hs & Hk)%typed_kind by set_solver.
    destruct o; naive_solver.
  - left. apply list_elem_of_singleton in Hz as ->. rewrite !andb_true_iff in Ho.
    eapply has_kind_carrier; [apply Ho|done].
Qed.

Lemma side_carrier l z t : carrier h z -> t ∉ side_next h l z.
Proof.
  intros (o & Ho & Hk). unfold side_next. rewrite Ho. destruct o; try done; apply not_elem_of_nil.
Qed.

(** Fewer skipped locks show more. *)
Lemma walk_values_mono l l' x v : l' ⊆ l -> v ∈ walk_values h l x -> v ∈ walk_values h l' x.
Proof.
  intros Hl. unfold walk_values. destruct (h !! x) as [[]|]; try done.
  1-3: case_bool_decide; [by intros ?%elem_of_nil|]; rewrite bool_decide_false; [done|set_solver].
  rewrite !elem_of_cons, !elem_of_app.
  case_bool_decide; [intros [|[|?%elem_of_nil]]; by auto|].
  rewrite bool_decide_false; [done|set_solver].
Qed.

Lemma shown_mono l l' x : l' ⊆ l -> shown h ins l x ⊆ shown h ins l' x.
Proof.
  intros Hl p. unfold shown. rewrite !elem_of_flat_map. intros (q & Hq & He). exists q.
  split; [|done]. rewrite elem_of_app in Hq |- *. destruct Hq as [Hq|Hq].
  - left. revert Hq. unfold own_nodes. destruct (h !! x) as [[]|]; try done.
    case_bool_decide; [by intros ?%elem_of_nil|]. rewrite bool_decide_false; [done|set_solver].
  - right. rewrite elem_of_flat_map in Hq |- *. destruct Hq as (v & ? & ?).
    exists v. split; [by eapply walk_values_mono|done].
Qed.

Lemma next_mono l l' x : l' ⊆ l -> next h ins l x ⊆ next h ins l' x.
Proof.
  intros Hl p. unfold next, walk_next. rewrite !elem_of_app. intros [[Hp|Hp]|Hp].
  - left; left. rewrite elem_of_flat_map in Hp |- *. destruct Hp as (v & ? & ?).
    exists v. split; [by eapply walk_values_mono|done].
  - left; right. destruct (h !! x) as [[]|]; try done. revert Hp.
    case_bool_decide; [by intros ?%elem_of_nil|]. rewrite bool_decide_false; [done|set_solver].
  - right. revert Hp. unfold side_next. destruct (h !! x) as [[]|]; try done.
    all: case_bool_decide; [by intros ?%elem_of_nil|]; rewrite bool_decide_false; [done|set_solver].
Qed.
End Walks.

(** ** The condition *)

Section Condition.
Context (h : heap) (roots : list addr) (nodes : list addr) (l : gset addr).
Abbreviation ins := (list_to_set nodes : gset addr).

(** Only [holders] hold a handle to [y]. *)
Definition held_by (holders : addr -> Prop) (y : addr) : Prop :=
  y ∉ roots /\ forall x o, h !! x = Some o -> y ∈ obj_refs o -> holders x.

Definition is_blueprint (y : addr) : bool :=
  match h !! y with Some (OBlueprint _) => true | _ => false end.

(** The pass may trust its counts, given the objects [t] it walked and a set
    [silent] of objects from which no survivor can be reached: an object that
    shows a survivor is walked once; a carrier that leads to a survivor is held
    only by objects that are walked, through handles that are walked; a data
    map is held by its instance alone. *)
Record sole_owners (t : list addr) (silent : gset addr) : Prop := {
  so_once : NoDup (List.filter (fun x => bool_decide (shown h ins l x ≠ [])) t);
  so_silent : forall y, y ∈ silent ->
    shown h ins l y = [] /\ forall z, z ∈ next h ins l y -> z ∈ silent;
  so_carriers : forall y, y ∈ t -> y ∉ ins -> y ∉ silent -> is_blueprint y = false ->
    held_by (fun x => x ∈ t /\ y ∈ next h ins l x) y;
  so_maps : forall p i m, p ∈ nodes -> h !! p = Some (OInstance i) -> m ∈ instance_maps i ->
    held_by (fun x => x = p) m
}.
End Condition.

(** ** References that are not counted *)

Lemma sum_filter_le {A} (f g : A -> nat) (P : A -> bool) (l : list A) :
  (forall x, x ∈ l -> P x = false -> f x = 0) ->
  sum_list_with f l = sum_list_with f (List.filter P l).
Proof.
  induction l as [|x l IH]; simpl; intros H; [done|]. rewrite IH by set_solver.
  destruct (P x) eqn:Hx; simpl; [done|]. rewrite H; [done|left|done].
Qed.

Lemma sum_submseteq {A} (f : A -> nat) (l k : list A) :
  NoDup l -> l ⊆ k -> sum_list_with f l <= sum_list_with f k.
Proof.
  intros Hl Hs.
  assert (l ⊆+ k) as (k' & Hk)%submseteq_Permutation by (apply NoDup_submseteq; [done|set_solver]).
  rewrite Hk, sum_list_with_app. lia.
Qed.

Lemma sum_list_with_le {A} (f g : A -> nat) (l : list A) :
  (forall x, x ∈ l -> f x <= g x) -> sum_list_with f l <= sum_list_with g l.
Proof.
  induction l as [|x l IH]; simpl; intros H; [done|].
  pose proof (H x ltac:(left)). specialize (IH ltac:(set_solver)). lia.
Qed.

Lemma sum_list_with_lt {A} (f g : A -> nat) (l : list A) x :
  (forall x, x ∈ l -> f x <= g x) -> x ∈ l -> f x < g x ->
  sum_list_with f l < sum_list_with g l.
Proof.
  intros H Hx Hlt. induction l as [|y l IH]; [by apply elem_of_nil in Hx|]. simpl.
  pose proof (H y ltac:(left)).
  pose proof (sum_list_with_le f g l ltac:(set_solver)).
  apply elem_of_cons in Hx as [<-|Hx]; [lia|]. specialize (IH ltac:(set_solver) Hx). lia.
Qed.

Section Counts.
Context (h : heap).

Definition objects : list addr := (map_to_list h).*1.

Lemma heap_refs_sum p :
  count p (heap_refs h)
  = sum_list_with (fun x => count p (from_option obj_refs [] (h !! x))) objects.
Proof.
  unfold heap_refs, objects. rewrite count_flat_map.
  assert (H : forall x, x ∈ map_to_list h -> h !! x.1 = Some x.2)
    by (intros [x o] ?; by apply elem_of_map_to_list).
  induction (map_to_list h) as [|[x o] l IH]; simpl; [done|].
  rewrite IH by set_solver. pose proof (H (x, o) ltac:(left)) as E. simpl in E.
  by rewrite E.
Qed.

Lemma objects_elem x : x ∈ objects <-> is_Some (h !! x).
Proof.
  unfold objects. rewrite list_elem_of_fmap. split.
  - intros ([y o] & -> & Hy%elem_of_map_to_list). simpl. eauto.
  - intros [o Ho]. exists (x, o). split; [done|]. by apply elem_of_map_to_list.
Qed.

(** [g x] are some of the handles of [x]. *)
Context (g : addr -> list addr).
Context (g_le : forall x p, count p (g x) <= count p (from_option obj_refs [] (h !! x))).

Definition speaks (x : addr) : bool := bool_decide (g x ≠ []).

Lemma counted_le t p :
  NoDup (List.filter speaks t) ->
  total g t p <= sum_list_with (fun x => count p (g x)) objects.
Proof.
  intros Hnd. unfold total. rewrite (sum_filter_le (fun x => count p (g x)) (fun _ => 0) speaks).
  - apply sum_submseteq; [done|]. intros x Hx%list_elem_of_In.
    apply filter_In in Hx as [_ Hx%bool_decide_eq_true]. apply objects_elem.
    destruct (h !! x) eqn:E; [done|]. exfalso. apply Hx. destruct (g x) as [|q k] eqn:Hg; [done|].
    pose proof (g_le x q) as Hle. rewrite E, Hg, count_cons, decide_True in Hle by done.
    change (count q (from_option obj_refs [] None)) with 0 in Hle. lia.
  - intros x _ Hx%bool_decide_eq_false. destruct (g x); [done|]. naive_solver.
Qed.

(** A handle that is not among those listed is missing from the count. *)
Lemma uncounted_lt roots t p :
  NoDup (List.filter speaks t) ->
  p ∈ roots \/ (exists x o, h !! x = Some o /\ p ∈ obj_refs o /\ (x ∉ t \/ p ∉ g x)) ->
  total g t p < strong_count h roots p.
Proof.
  intros Hnd Hu. unfold strong_count. rewrite heap_refs_sum.
  pose proof (fun x (_ : x ∈ objects) => g_le x p) as Hle.
  pose proof (sum_list_with_le _ _ objects Hle) as Hsum.
  destruct Hu as [Hr|(x & o & Hx & Hp & Hu)].
  - apply count_pos in Hr. pose proof (counted_le t p Hnd). lia.
  - assert (Ho : x ∈ objects) by (apply objects_elem; eauto).
    destruct (decide (p ∈ g x)) as [Hs|Hs].
    + destruct Hu as [Hu|]; [|done].
      assert (total g (x :: t) p <= sum_list_with (fun x => count p (g x)) objects) as Hc.
      { apply counted_le. simpl. unfold speaks at 1.
        rewrite bool_decide_true by (intros E; rewrite E in Hs; by apply elem_of_nil in Hs).
        constructor; [|done]. rewrite list_elem_of_In, filter_In, <- list_elem_of_In. tauto. }
      revert Hc. unfold total at 1; simpl. fold (total g t p). apply count_pos in Hs. lia.
    + assert (sum_list_with (fun x => count p (g x)) objects
        < sum_list_with (fun x => count p (from_option obj_refs [] (h !! x))) objects) as Hlt.
      { apply (sum_list_with_lt _ _ objects x Hle Ho). rewrite Hx. simpl.
        apply count_zero in Hs. apply count_pos in Hp. lia. }
      pose proof (counted_le t p Hnd). lia.
Qed.
End Counts.

Lemma shown_le h ins l x p :
  count p (shown h ins l x) <= count p (from_option obj_refs [] (h !! x)).
Proof.
  destruct (h !! x) as [o|] eqn:Hx; simpl; [by apply shown_count|].
  unfold shown, own_nodes, walk_values. by rewrite Hx.
Qed.

Lemma class_le h l x p :
  count p (class_of h l x) <= count p (from_option obj_refs [] (h !! x)).
Proof.
  unfold class_of, read_instance. change (count p []) with 0.
  destruct (h !! x) as [[]|]; simpl; try (change (count p []) with 0; lia).
  case_bool_decide; [change (count p []) with 0; lia|].
  rewrite !count_cons. change (count p []) with 0. lia.
Qed.

(** ** Marked and covered *)

Section Covered.
Context (h : heap) (ins lm : gset addr) (n : nat) (st : mark_state).
Context (typed : heap_typed h) (inv : mark_inv h ins lm n (fun _ => False) st)
  (drained : mk_worklist st = []).

Definition walk_live (y : addr) : Prop := part h ins lm y (elements (mk_live st)).

(** A carrier whose walk, and the walk of whose method table, is marked. *)
Definition covered (y : addr) : Prop :=
  walk_live y /\ forall t, t ∈ side_next h lm y -> walk_live t.

Lemma live_followed p : p ∈ mk_live st -> followed h ins lm n st p.
Proof.
  intros Hp. destruct (mi_live _ _ _ _ _ _ inv p Hp) as [Hw|[|[]]]; [|done].
  rewrite drained in Hw. by apply elem_of_nil in Hw.
Qed.

Lemma live_walk p :
  is_node h p = true -> p ∈ mk_live st -> walk_live p.
Proof.
  intros Hn Hp. destruct (live_followed p Hp) as ((cs & Hcs & Hl) & _).
  exists n, cs. split; [|intros c; rewrite elem_of_elements; auto].
  unfold is_node in Hn. unfold walk. destruct (h !! p) as [[]|] eqn:Hh; done.
Qed.

Lemma live_shown p c :
  is_node h p = true -> p ∈ mk_live st -> c ∈ shown h ins lm p -> c ∈ mk_live st.
Proof.
  intros Hn Hp Hc. destruct (live_walk p Hn Hp) as (m & e & He & Hsub).
  apply elem_of_elements, Hsub. by eapply walk_shown.
Qed.

Lemma covered_shown y c : covered y -> c ∈ shown h ins lm y -> c ∈ mk_live st.
Proof.
  intros [(m & e & He & Hsub) _] Hc. apply elem_of_elements, Hsub. by eapply walk_shown.
Qed.

Lemma table_covered t : t ∈ mk_tables st -> has_kind h t KTable = true -> covered t.
Proof.
  intros Ht (o & Ho & Hk)%typed_kind. destruct o; try done.
  destruct (mi_tables _ _ _ _ _ _ inv t Ht) as (e & He & Hl). split.
  - exists n, e. split; [|intros c; rewrite elem_of_elements; auto].
    unfold walk. rewrite Ho. unfold table_values in He. by rewrite Ho in He.
  - unfold side_next. rewrite Ho. by intros t' ?%elem_of_nil.
Qed.

Lemma blueprint_covered b : b ∈ mk_bps st -> has_kind h b KBlueprint = true -> covered b.
Proof.
  intros Hb (o & Ho & Hk)%typed_kind. destruct o; try done.
  destruct (mi_bps _ _ _ _ _ _ inv b Hb) as (e & He & Hl). split.
  - exists n, e. split; [|intros c; rewrite elem_of_elements; auto].
    unfold walk. by rewrite Ho.
  - unfold side_next. rewrite Ho. by intros t' ?%elem_of_nil.
Qed.


Lemma live_next p y :
  is_node h p = true -> p ∈ mk_live st -> y ∈ next h ins lm p -> covered y.
Proof.
  intros Hn Hp Hy. destruct (live_followed p Hp) as (_ & Hcl & Htb).
  destruct (live_walk p Hn Hp) as (m & e & He & Hsub).
  unfold next in Hy. apply elem_of_app in Hy as [Hy|Hy].
  - split; [eapply part_mono; [by eapply walk_next_part|done]|].
    intros t Ht. destruct (walk_next_kind _ _ _ _ _ typed Hy) as [Hk|(i & Hi & Hm & _ & s & Hs)].
    { by apply side_carrier with (t := t) in Ht. }
    assert (t ∈ struct_table h y) as Hst.
    { revert Ht. unfold side_next, struct_table. rewrite Hs. case_bool_decide; [|done].
      by intros ?%elem_of_nil. }
    apply table_covered.
    + apply Htb. unfold tables_of. unfold read_instance in Hi.
      destruct (h !! p) as [[]|]; try done. case_bool_decide; simplify_eq.
      apply elem_of_flat_map. eauto.
    + pose proof (typed y _ Hs) as Hty. simpl in Hty. rewrite !andb_true_iff in Hty.
      destruct Hty as [[_ Hty] _]. unfold struct_table in Hst. rewrite Hs in Hst.
      rewrite forallb_forall in Hty. apply Hty. by apply list_elem_of_In.
  - revert Hy. unfold side_next. destruct (h !! p) as [o|] eqn:Hh; [|by intros ?%elem_of_nil].
    pose proof (typed p o Hh) as Hty.
    destruct o; try (by intros ?%elem_of_nil); case_bool_decide as Hl;
      try (by intros ?%elem_of_nil); intros Hy; simpl in Hty; rewrite !andb_true_iff in Hty.
    + apply table_covered.
      * apply Htb. unfold tables_of, struct_table. by rewrite Hh, bool_decide_false.
      * destruct Hty as [[_ Hty] _]. rewrite forallb_forall in Hty. apply Hty.
        by apply list_elem_of_In.
    + apply list_elem_of_singleton in Hy as ->. apply blueprint_covered; [|tauto].
      apply Hcl. unfold class_of, read_instance. rewrite Hh, bool_decide_false by done. left.
Qed.

Lemma covered_next x y :
  is_node h x = false \/ (exists s, h !! x = Some (OStruct s)) ->
  covered x -> y ∈ next h ins lm x -> covered y.
Proof.
  intros Hx [(m & e & He & Hsub) Hside] Hy. unfold next in Hy.
  apply elem_of_app in Hy as [Hy|Hy].
  - split; [eapply part_mono; [by eapply walk_next_part|done]|].
    destruct (walk_next_kind _ _ _ _ _ typed Hy) as [Hk|(i & Hi & _)].
    + intros t Ht. by apply side_carrier with (t := t) in Ht.
    + exfalso. unfold read_instance in Hi. destruct Hx as [Hx|(s & Hs)].
      * unfold is_node in Hx. by destruct (h !! x) as [[]|].
      * by rewrite Hs in Hi.
  - split; [by apply Hside|].
    unfold side_next in Hy. destruct (h !! x) as [o|] eqn:Hh; [|by apply elem_of_nil in Hy].
    pose proof (typed x o Hh) as Hty.
    destruct o; try (by apply elem_of_nil in Hy); case_bool_decide; try (by apply elem_of_nil in Hy).
    + simpl in Hty. rewrite !andb_true_iff in Hty. destruct Hty as [[_ Hty] _].
      rewrite forallb_forall in Hty. apply list_elem_of_In in Hy.
      intros t Ht. apply side_carrier with (t := t) in Ht; [done|].
      eapply has_kind_carrier; [by apply Hty|done].
    + exfalso. destruct Hx as [Hx|(s & Hs)]; [|done]. unfold is_node in Hx. by rewrite Hh in Hx.
Qed.
End Covered.

(** ** The live set *)

Section LiveSet.
Context (h : heap) (roots : list addr) (ins lc lm : gset addr) (n : nat) (nodes : list addr).

Lemma live_set_inv live :
  live_set h roots ins lc lm n nodes = Some live ->
  exists internal st, internal_refs h ins lc n nodes = Some internal
    /\ mark_inv h ins lm n (fun _ => False) st /\ mk_worklist st = [] /\ mk_live st = live
    /\ (forall p, p ∈ nodes -> 0 < external h roots internal p -> p ∈ live)
    /\ (forall b, b ∈ blueprints h lc nodes -> 0 < bp_external h roots lc nodes b -> b ∈ mk_bps st).
Proof.
  unfold live_set. intros Hlive.
  destruct (internal_refs h ins lc n nodes) as [internal|] eqn:Hint; [|done].
  destruct (foldM _ _ _) as [st0|] eqn:H0; [|done].
  destruct (mark_loop h ins lm n _ st0) as [st|] eqn:Hst; [|done]. injection Hlive as <-.
  set (start := mark_roots h roots internal nodes) in *.
  destruct (mark_children_spec (MarkState ∅ [] ∅ ∅)
    (List.filter (fun p => 0 <? external h roots internal p) nodes)) as (E1 & E2 & E3 & E4 & E5).
  assert (I0 : mark_inv h ins lm n (fun _ => False) start).
  { split; unfold start, mark_roots.
    - intros p Hp. destruct (E2 p Hp) as [|]; [set_solver|by left].
    - rewrite E4. simpl. set_solver.
    - rewrite E5. simpl. set_solver. }
  eapply (foldM_inv _ (mark_inv h ins lm n (fun _ => False)) (fun st b => b ∈ mk_bps st)) in H0
    as (I1 & L1 & B1); [|apply mark_blueprint_inv|unfold mark_le; set_solver|done].
  eapply mark_loop_inv in Hst as (I2 & Hw & L2); [|done].
  exists internal, st. split_and!; try done.
  - intros p Hp Hext. apply L2, L1. unfold start, mark_roots. apply E1. right.
    rewrite list_elem_of_In, filter_In, <- list_elem_of_In. split; [done|]. by apply Nat.ltb_lt.
  - intros b Hb Hext. apply L2, B1.
    rewrite list_elem_of_In, filter_In, <- list_elem_of_In. split; [done|]. by apply Nat.ltb_lt.
Qed.
End LiveSet.

(** ** Safety *)

Section Safe.
Context (h : heap) (roots : list addr) (env : pass_env) (log : list addr) (live : gset addr).
Abbreviation nodes := (survivors h log).
Abbreviation ins := (list_to_set nodes : gset addr).
Context (typed : heap_typed h)
  (locks : pe_mark env ⊆ pe_count env)
  (marked : live_set h roots ins (pe_count env) (pe_mark env) (pe_fuel env) nodes = Some live).
Context (t : list addr) (silent : gset addr)
  (walked : count_trail h ins (pe_count env) (pe_fuel env) nodes = Some t)
  (owners : sole_owners h roots nodes (pe_count env) t silent).

Lemma node_ins p : p ∈ ins <-> p ∈ nodes.
Proof. apply elem_of_list_to_set. Qed.

Lemma node_is_node p : p ∈ ins -> is_node h p = true.
Proof. intros Hp%node_ins. by apply survivors_elem in Hp as [_ ?]. Qed.

(** A survivor some handle to which is not shown by a walked object is live. *)
Lemma uncounted_live p :
  p ∈ nodes ->
  p ∈ roots \/ (exists x o, h !! x = Some o /\ p ∈ obj_refs o
                /\ (x ∉ t \/ p ∉ shown h ins (pe_count env) x)) ->
  p ∈ live.
Proof.
  intros Hp Hu. destruct (live_set_inv _ _ _ _ _ _ _ _ marked)
    as (internal & st & Hint & _ & _ & _ & Hroot & _).
  apply Hroot; [done|]. unfold external.
  destruct (internal_counts h ins _ _ _ _ (survivors_nodes h log) Hint) as (t' & Ht' & Hc).
  rewrite walked in Ht'. simplify_eq. rewrite Hc.
  pose proof (uncounted_lt h _ (shown_le h ins (pe_count env)) roots t' p
    (so_once _ _ _ _ _ _ owners) Hu). lia.
Qed.

Lemma in_trail_nodes p : p ∈ nodes -> p ∈ t.
Proof.
  intros Hp. pose proof walked as Hw. unfold count_trail in Hw.
  apply cat_Some in Hw as (t1 & t2 & H1 & _ & ->).
  destruct (concatM_elem _ _ _ _ H1 Hp) as (e & He & Hsub). apply elem_of_app. left. apply Hsub.
  unfold trail_node in He. apply cat_Some in He as (a & b & [= <-] & _ & ->). left.
Qed.

(** A blueprint that is reached is live, or reached from a live instance. *)
Lemma blueprint_kept b st :
  mark_inv h ins (pe_mark env) (pe_fuel env) (fun _ => False) st -> mk_worklist st = [] ->
  mk_live st = live ->
  (forall b, b ∈ blueprints h (pe_count env) nodes ->
     0 < bp_external h roots (pe_count env) nodes b -> b ∈ mk_bps st) ->
  b ∈ blueprints h (pe_count env) nodes ->
  b ∈ roots \/ (exists x o, h !! x = Some o /\ b ∈ obj_refs o /\ (x ∈ ins -> x ∈ live)) ->
  b ∈ mk_bps st.
Proof.
  intros I Hw El Hb Hin Hr.
  destruct (decide (0 < bp_external h roots (pe_count env) nodes b)) as [|Hz]; [auto|].
  unfold bp_external in Hz. rewrite count_flat_map in Hz.
  assert (Hnd : NoDup (List.filter (speaks (class_of h (pe_count env))) nodes))
    by (apply NoDup_ListNoDup, List.NoDup_filter, NoDup_ListNoDup, distinct_NoDup).
  destruct Hr as [Hr|(x & o & Hx & Hbo & Hlive)].
  - pose proof (uncounted_lt h _ (class_le h (pe_count env)) roots nodes b Hnd (or_introl Hr)).
    unfold total in *. lia.
  - destruct (decide (x ∈ nodes /\ b ∈ class_of h (pe_count env) x)) as [[Hxn Hc]|Hno].
    + assert (Hxl : x ∈ mk_live st) by (rewrite El; apply Hlive; by apply node_ins).
      destruct (live_followed _ _ _ _ _ I Hw x Hxl) as (_ & Hcl & _). apply Hcl.
      revert Hc. unfold class_of, read_instance. destruct (h !! x) as [[]|]; try done.
      case_bool_decide; [by intros ?%elem_of_nil|]. rewrite bool_decide_false; [done|set_solver].
    + assert (x ∉ nodes \/ b ∉ class_of h (pe_count env) x) as Hno'
        by (destruct (decide (x ∈ nodes)); [right|by left]; naive_solver).
      pose proof (uncounted_lt h _ (class_le h (pe_count env)) roots nodes b Hnd
        (or_intror (ex_intro _ x (ex_intro _ o (conj Hx (conj Hbo Hno')))))).
      unfold total in *. lia.
Qed.

Section Kept.
Context (st : mark_state).
Context (I : mark_inv h ins (pe_mark env) (pe_fuel env) (fun _ => False) st)
  (Hw : mk_worklist st = []) (El : mk_live st = live)
  (Hbps : forall b, b ∈ blueprints h (pe_count env) nodes ->
     0 < bp_external h roots (pe_count env) nodes b -> b ∈ mk_bps st).

(** A survivor is live, a carrier that leads to survivors has them live. *)
Definition kept (x : addr) : Prop :=
  (x ∈ ins -> x ∈ live)
  /\ (x ∈ t -> x ∉ ins -> x ∉ silent -> covered h ins (pe_mark env) st x).

Definition has_kept_holder (y : addr) : Prop :=
  y ∈ roots \/ exists x o, h !! x = Some o /\ y ∈ obj_refs o /\ kept x.

Lemma kept_survivor y : has_kept_holder y -> y ∈ ins -> y ∈ live.
Proof.
  intros Hy Hin. assert (Hn : y ∈ nodes) by (by apply node_ins).
  destruct Hy as [Hr|(x & o & Hx & Hyo & [K1 K2])]; [by apply uncounted_live; [|left]|].
  destruct (decide (x ∈ t /\ y ∈ shown h ins (pe_count env) x)) as [[Hxt Hs]|Hno].
  - assert (Hsm : y ∈ shown h ins (pe_mark env) x) by (by eapply shown_mono).
    destruct (decide (x ∈ ins)) as [Hxi|Hxi].
    + rewrite <- El. eapply live_shown; [done|done|by apply node_is_node|rewrite El; auto|done].
    + rewrite <- El. eapply covered_shown; [apply K2; [done|done|]|done]. intros Hsil.
      apply (so_silent _ _ _ _ _ _ owners) in Hsil as [E _]. rewrite E in Hs.
      by apply elem_of_nil in Hs.
  - apply uncounted_live; [done|]. right. exists x, o. split_and!; [done..|].
    destruct (decide (x ∈ t)); [right|by left]. naive_solver.
Qed.

Lemma trail_shape x :
  x ∈ t -> x ∉ ins ->
  (is_blueprint h x = true /\ x ∈ blueprints h (pe_count env) nodes) \/ is_blueprint h x = false.
Proof.
  intros Hxt Hxi.
  destruct (count_trail_member h ins _ _ _ _ x (survivors_nodes h log) walked Hxt)
    as [Hx|[(o & Ho & Hk)|[Hb|(_ & p & i & _ & _ & _ & s & Hs)]]].
  - exfalso. by apply Hxi, node_ins.
  - right. unfold is_blueprint. rewrite Ho. by destruct o.
  - destruct (is_blueprint h x) eqn:E; auto.
  - right. unfold is_blueprint. by rewrite Hs.
Qed.

Lemma trail_not_node x :
  x ∈ t -> x ∉ ins -> is_node h x = false \/ exists s, h !! x = Some (OStruct s).
Proof.
  intros Hxt Hxi.
  destruct (count_trail_member h ins _ _ _ _ x (survivors_nodes h log) walked Hxt)
    as [Hx|[(o & Ho & Hk)|[Hb|(_ & p & i & _ & _ & _ & s & Hs)]]].
  - exfalso. by apply Hxi, node_ins.
  - left. unfold is_node. rewrite Ho. by destruct o.
  - left. unfold blueprints in Hb. apply distinct_elem in Hb as [Hb _].
    apply elem_of_flat_map in Hb as (p & _ & Hc). unfold class_of, read_instance in Hc.
    destruct (h !! p) as [o|] eqn:Hp; [|by apply elem_of_nil in Hc].
    destruct o; try (by apply elem_of_nil in Hc).
    case_bool_decide; [by apply elem_of_nil in Hc|]. apply list_elem_of_singleton in Hc as ->.
    pose proof (typed p _ Hp) as Hty. simpl in Hty. rewrite !andb_true_iff in Hty.
    destruct Hty as [[[(o & Ho & Hk)%typed_kind _] _] _].
    unfold is_node. rewrite Ho. by destruct o.
  - right. eauto.
Qed.

Lemma kept_carrier y :
  has_kept_holder y -> y ∈ t -> y ∉ ins -> y ∉ silent -> covered h ins (pe_mark env) st y.
Proof.
  intros Hy Hyt Hyi Hys. destruct (trail_shape y Hyt Hyi) as [[Hb Hin]|Hb].
  - apply (blueprint_covered h ins (pe_mark env) (pe_fuel env) st I).
    + eapply blueprint_kept; eauto.
      destruct Hy as [|(x & o & Hx & Hyo & [K1 _])]; [by left|]. right. eauto.
    + unfold has_kind. unfold is_blueprint in Hb. by destruct (h !! y) as [[]|].
  - destruct (so_carriers _ _ _ _ _ _ owners y Hyt Hyi Hys Hb) as [Hnr Hheld].
    destruct Hy as [|(x & o & Hx & Hyo & [K1 K2])]; [done|].
    destruct (Hheld x o Hx Hyo) as [Hxt Hnext].
    assert (Hnm : y ∈ next h ins (pe_mark env) x) by (by eapply next_mono).
    destruct (decide (x ∈ ins)) as [Hxi|Hxi].
    + eapply live_next; [done..|by apply node_is_node|rewrite El; auto|done].
    + eapply covered_next; [done|by apply trail_not_node|apply K2; [done..|]|done].
      intros Hsil. apply Hys. by apply (so_silent _ _ _ _ _ _ owners x Hsil).
Qed.

Lemma reach_kept x : reachable h roots x -> kept x.
Proof.
  induction 1 as [y Hy|x o y Hx IH Ho Hy]; split; intros.
  - apply kept_survivor; [by left|done].
  - apply kept_carrier; [by left|done..].
  - apply kept_survivor; [right; eauto|done].
  - apply kept_carrier; [right; eauto|done..].
Qed.
End Kept.

Lemma reachable_live x : reachable h roots x -> x ∈ nodes -> x ∈ live.
Proof.
  intros Hx Hn. destruct (live_set_inv _ _ _ _ _ _ _ _ marked)
    as (internal & st & _ & I & Hw & El & _ & Hb).
  apply (reach_kept st I Hw El Hb x Hx). by apply node_ins.
Qed.
End Safe.

(** ** What clearing and freeing change *)

Lemma clear_map_other h m x : x <> m -> clear_map h m !! x = h !! x.
Proof.
  intros Hx. unfold clear_map. destruct (h !! m) as [[]|]; try done. by rewrite lookup_insert_ne.
Qed.

(** The objects clearing [p] may change. *)
Definition cleared_by (h : heap) (p : addr) : list addr :=
  p :: match h !! p with Some (OInstance i) => instance_maps i | _ => [] end.

Lemma clear_other lk h p x : x ∉ cleared_by h p -> clear lk h p !! x = h !! x.
Proof.
  unfold cleared_by, clear. intros Hx.
  assert (Hxp : x <> p) by set_solver.
  destruct (h !! p) as [[]|]; try done.
  - by apply clear_map_other.
  - by rewrite lookup_insert_ne.
  - by rewrite lookup_insert_ne.
  - case_bool_decide; [done|]. by rewrite lookup_insert_ne.
  - case_bool_decide; [done|]. simpl.
    unfold instance_maps in Hx. rewrite !clear_map_other by set_solver. done.
Qed.

(** Clearing keeps every object's kind and an instance's data maps. *)
Lemma clear_map_instance h m p i :
  clear_map h m !! p = Some (OInstance i) <-> h !! p = Some (OInstance i).
Proof.
  unfold clear_map. destruct (h !! m) as [[]|] eqn:Hm; try done.
  destruct (decide (p = m)) as [->|]; [|by rewrite lookup_insert_ne].
  rewrite lookup_insert_eq, Hm. naive_solver.
Qed.

Lemma clear_instance lk h q p i :
  clear lk h q !! p = Some (OInstance i) <-> h !! p = Some (OInstance i).
Proof.
  unfold clear. destruct (h !! q) as [[]|] eqn:Hq; try done.
  - apply clear_map_instance.
  - destruct (decide (p = q)) as [->|]; [|by rewrite lookup_insert_ne].
    rewrite lookup_insert_eq, Hq. naive_solver.
  - destruct (decide (p = q)) as [->|]; [|by rewrite lookup_insert_ne].
    rewrite lookup_insert_eq, Hq. naive_solver.
  - case_bool_decide; [done|]. destruct (decide (p = q)) as [->|]; [|by rewrite lookup_insert_ne].
    rewrite lookup_insert_eq, Hq. naive_solver.
  - case_bool_decide; [done|]. simpl. by rewrite !clear_map_instance.
Qed.

Lemma clear_all_other lk dead h x :
  (forall p, p ∈ dead -> x ∉ cleared_by h p) -> fold_left (clear lk) dead h !! x = h !! x.
Proof.
  revert h; induction dead as [|p dead IH]; intros h Hx; simpl; [done|].
  rewrite IH; [apply clear_other, Hx; left|]. intros q Hq.
  assert (cleared_by (clear lk h p) q = cleared_by h q) as ->; [|apply Hx; by right].
  unfold cleared_by. f_equal. pose proof (clear_instance lk h p q) as Hi.
  destruct (clear lk h p !! q) as [[]|] eqn:E, (h !! q) as [[]|] eqn:E'; naive_solver.
Qed.

Lemma release_step_kept roots h x :
  reachable h roots x -> release_step roots h !! x = h !! x.
Proof.
  intros Hr. unfold release_step. destruct (h !! x) as [o|] eqn:Hx.
  - apply map_lookup_filter_Some. split; [done|]. simpl. unfold strong_count.
    destruct Hr as [p Hp|q o' p _ Hq Hp].
    + apply count_pos in Hp. lia.
    + enough (0 < count p (heap_refs h)) by lia. apply count_pos. unfold heap_refs.
      apply elem_of_flat_map. exists (q, o'). by rewrite elem_of_map_to_list.
  - apply map_lookup_filter_None. by left.
Qed.

(** Reachability only depends on the objects reached. *)
Lemma reachable_transfer h h' roots x :
  (forall y, reachable h roots y -> h' !! y = h !! y) ->
  reachable h roots x -> reachable h' roots x.
Proof.
  intros H. induction 1 as [p Hp|p o q Hp IH Ho Hq]; [by constructor|].
  eapply reachable_step; [done| |done]. by rewrite H.
Qed.

Lemma release_kept roots h x : reachable h roots x -> release roots h !! x = h !! x.
Proof.
  unfold release. generalize (size h) as k. intros k. revert h.
  induction k as [|k IH]; intros h Hx; simpl; [done|].
  rewrite IH; [by apply release_step_kept|].
  eapply reachable_transfer; [|done]. intros y Hy. by apply release_step_kept.
Qed.

(** ** The theorem *)

(** The survivors own the carriers the pass looks through. *)
Definition sole_ownership (env : pass_env) (roots : list addr) (h : heap) (log : list addr)
    : Prop :=
  let nodes := survivors h log in
  exists t silent,
    count_trail h (list_to_set nodes) (pe_count env) (pe_fuel env) nodes = Some t
    /\ sole_owners h roots nodes (pe_count env) t silent.

Lemma clear_dead_kept env roots h log r :
  heap_typed h -> pe_mark env ⊆ pe_count env -> sole_ownership env roots h log ->
  clear_dead env roots h log = Some r ->
  forall x, reachable h roots x ->
    pr_heap r !! x = h !! x /\ (x ∈ survivors h log -> x ∈ pr_carry r).
Proof.
  intros Hty Hl (t & silent & Ht & Hso) Hr x Hx. unfold clear_dead in Hr.
  destruct (live_set _ _ _ _ _ _ _) as [live|] eqn:Hlive; simplify_eq/=.
  pose proof (reachable_live h roots env log live Hty Hl Hlive t silent Ht Hso) as Hk.
  split.
  - apply clear_all_other. intros p Hp Hin. unfold dead_nodes in Hp.
    apply list_elem_of_In, filter_In in Hp as [Hp Hd]. apply list_elem_of_In in Hp.
    apply negb_true_iff, bool_decide_eq_false in Hd. apply Hd. unfold cleared_by in Hin.
    apply elem_of_cons in Hin as [->|Hin]; [by apply Hk|].
    destruct (h !! p) as [[]|] eqn:Hpo; try (by apply elem_of_nil in Hin).
    destruct (so_maps _ _ _ _ _ _ Hso p i x Hp Hpo Hin) as [Hnr Hheld].
    destruct Hx as [|q o x Hq Hqo Hxo]; [done|].
    rewrite (Hheld q o Hqo Hxo) in Hq. by apply Hk.
  - intros Hn. rewrite list_elem_of_In, filter_In, <- list_elem_of_In.
    split; [done|]. apply bool_decide_eq_true. by apply Hk.
Qed.

(** C14. Safety of trial deletion: when the survivors alone own the carriers
    the pass looks through, no lock that was free while counting is taken while
    marking, and handles are well typed, a pass leaves every object that can be
    reached from outside the heap exactly as it was, and every such survivor is
    carried on. *)
Theorem collect_safe env roots h log r :
  heap_typed h -> pe_mark env ⊆ pe_count env -> sole_ownership env roots h log ->
  collect_from_log_carrying env roots h log = Some r ->
  forall x, reachable h roots x ->
    pr_heap r !! x = h !! x /\ (x ∈ survivors h log -> x ∈ pr_carry r).
Proof.
  intros Hty Hl Hso Hr x Hx. unfold collect_from_log_carrying in Hr.
  destruct (clear_dead env roots h log) as [r0|] eqn:Hc; simplify_eq/=.
  pose proof (clear_dead_kept _ _ _ _ _ Hty Hl Hso Hc) as Hk. split; [|by apply Hk].
  rewrite release_kept; [by apply Hk|]. eapply reachable_transfer; [|done].
  intros y Hy. by apply Hk.
Qed.

(** ** Without the condition *)

Definition plain_struct (l : list gval) : obj := OStruct (StructInner l None []).

(** [var n = 1; var o = {}; o.me = o; o.cb = function() { return n; };
    return o.cb;] — after the call, [o] (1) and the captured scope (2) form a
    cycle, and the caller still holds the function value (3). *)
Definition shared_function_heap : heap :=
  {[ 1%N := plain_struct [GStruct 1; GFunction 3];
     2%N := OScope [GStruct 1; GScalar];
     3%N := OFunction (CfmlFunction [] (BodyStatements []) (Some 2%N)) ]}.

Definition unlocked (fuel : nat) : pass_env := PassEnv fuel ∅ ∅ ∅.

(** A function value held both by a dead survivor and from outside loses
    its captured scope: the pass attributes the function's handle to the dead
    survivor, finds no owner of the scope outside the set, and empties a scope
    a live closure still reads. *)
Theorem shared_function_lost :
  heap_typed shared_function_heap
  /\ reachable shared_function_heap [3%N] 2%N
  /\ exists r, collect_from_log_carrying (unlocked 3) [3%N] shared_function_heap [1; 2]%N = Some r
       /\ shared_function_heap !! 2%N = Some (OScope [GStruct 1; GScalar])
       /\ pr_heap r !! 2%N = Some (OScope []).
Proof.
  split_and!.
  - by apply (bool_decide_unpack _); vm_compute.
  - eapply (reachable_step _ _ 3%N); [constructor; by left|reflexivity|by left].
  - eexists. split_and!; [vm_compute; reflexivity|reflexivity|reflexivity].
Qed.

(** A component that stores itself in its [this] scope (2), whose [variables]
    scope (3) another owner holds. *)
Definition shared_map_heap : heap :=
  {[ 1%N := OInstance (Instance_ 5 2 3 None);
     2%N := plain_struct [GInstance 1];
     3%N := plain_struct [GScalar];
     5%N := OBlueprint (ClassBlueprint [] GScalar 6 None None None None None None);
     6%N := OTable [] ]}.

(** Clearing a dead component empties its data maps without asking whether
    they are held elsewhere: a [variables] scope still in use loses its
    members. *)
Theorem shared_map_lost :
  heap_typed shared_map_heap
  /\ reachable shared_map_heap [3%N] 3%N
  /\ exists r, collect_from_log_carrying (unlocked 3) [3%N] shared_map_heap [1%N] = Some r
       /\ shared_map_heap !! 3%N = Some (plain_struct [GScalar])
       /\ pr_heap r !! 3%N = Some (plain_struct []).
Proof.
  split_and!.
  - by apply (bool_decide_unpack _); vm_compute.
  - constructor. by left.
  - eexists. split_and!; [vm_compute; reflexivity|reflexivity|reflexivity].
Qed.

(** A component scope (1) whose shared method table (4) holds a function (3) with
    a captured scope (2). *)
Definition method_table_heap : heap :=
  {[ 1%N := OStruct (StructInner [] (Some 4%N) []);
     2%N := OScope [GScalar];
     3%N := OFunction (CfmlFunction [] (BodyStatements []) (Some 2%N));
     4%N := OTable [GFunction 3] ]}.

(** The diagnostic that attributes retained memory to its roots changes the
    live set: its walk does not go through the method tables, so a scope that a
    live method captured is dead to the pass that reports, and alive without the
    report. *)
Theorem attribution_loses_table :
  reachable method_table_heap [1%N] 2%N
  /\ (2%N ∈ list_to_set (C := gset addr) (survivors method_table_heap [1; 2]%N))
  /\ exists live live',
       live_set method_table_heap [1%N] (list_to_set [1; 2]%N) ∅ ∅ 3 [1; 2]%N = Some live
       /\ live_set_attributed method_table_heap [1%N] (list_to_set [1; 2]%N) ∅ ∅ 3 [1; 2]%N
          = Some live'
       /\ (2%N ∈ live) /\ (2%N ∉ live').
Proof.
  split_and!.
  - eapply (reachable_step _ _ 3%N); [|reflexivity|by left].
    eapply (reachable_step _ _ 4%N); [|reflexivity|by left].
    eapply (reachable_step _ _ 1%N); [|reflexivity|by left]. constructor. by left.
  - by apply (bool_decide_unpack _); vm_compute.
  - exists {[1%N; 2%N]}, {[1%N]}. split_and!; [vm_compute; reflexivity|vm_compute; reflexivity|..];
      by apply (bool_decide_unpack _); vm_compute.
Qed.
