(* ===== verification/GcReclaim.v ===== *)
(** * GcReclaim: a pass finds the unreachable cycles

    A region of the heap that nothing outside holds, all of whose handles the
    pass can see, is cleared by the pass, and freed when what clearing leaves
    of it is free of cycles ([collect_reclaims]).  A pass returns whenever the
    carriers it recurses through are not nested without end
    ([collect_returns]). *)

From stdpp Require Import base list numbers gmap sets option relations.
From S2P Require Import Prelude GcHeap GcPass GcPassFacts GcSafety.

(** ** What a walk emits is reachable from its start *)

Section Emitted.
Context (h : heap) (ins : gset addr).
Implicit Types (l : gset addr) (x y c p : addr) (v : gval).

Definition edge x y : Prop := exists o, h !! x = Some o /\ y ∈ obj_refs o.

(** [c] is one of the handles [ys], or reached through one. *)
Definition reached_from (ys : list addr) c : Prop := exists y, y ∈ ys /\ rtc edge y c.

Lemma reached_mono ys zs c : ys ⊆ zs -> reached_from ys c -> reached_from zs c.
Proof. intros Hs (y & Hy & Hr). exists y. eauto. Qed.

Lemma reached_here ys c : c ∈ ys -> reached_from ys c.
Proof. intros Hc. exists c. split; [done|constructor]. Qed.

Lemma reached_through x o c : h !! x = Some o -> reached_from (obj_refs o) c -> reached_from [x] c.
Proof.
  intros Hx (y & Hy & Hr). exists x. split; [left|]. eapply rtc_l; [|done]. by exists o.
Qed.

Lemma elem_val_refs v vs : v ∈ vs -> val_refs v ⊆ vals_refs vs.
Proof. intros Hv y Hy. apply elem_of_flat_map. eauto. Qed.

Lemma vals_refs_app vs ws : vals_refs (vs ++ ws) = vals_refs vs ++ vals_refs ws.
Proof. apply flat_map_app. Qed.

Lemma classify_reached l n v e c :
  classify h ins l n v = Some e -> c ∈ e -> reached_from (val_refs v) c.
Proof.
  revert v e c; induction n as [|n IH]; intros v e c; [done|].
  assert (IHl : forall vs e c, concatM (classify h ins l n) vs = Some e -> c ∈ e ->
    reached_from (vals_refs vs) c).
  { intros vs e' c' He Hc. destruct (concatM_inv _ _ _ _ He Hc) as (x & ex & Hx & Hex & Hcx).
    eapply reached_mono; [by apply elem_val_refs|eauto]. }
  assert (IHf : forall f e c, classify_function ins (classify h ins l n) f = Some e -> c ∈ e ->
    reached_from (opt_addr (fn_captured_scope f) ++ vals_refs (function_values f)) c).
  { intros f e' c' Hf Hc. unfold classify_function in Hf.
    apply cat_Some in Hf as (e1 & e2 & [= <-] & H2 & ->). apply elem_of_app in Hc as [Hc|Hc].
    - apply elem_of_flat_map in Hc as (s & Hs & [-> _]%emit_spec).
      apply reached_here. apply elem_of_app. by left.
    - eapply reached_mono; [apply list_subseteq_app_r; reflexivity|eauto]. }
  assert (via : forall p o e', h !! p = Some o -> reached_from (obj_refs o) c -> e = e' ->
    reached_from [p] c) by (intros; by eapply reached_through).
  unfold val_refs. destruct v; cbn [classify]; intros He Hc;
    try (simplify_eq; apply emit_spec in Hc as [-> _]; apply reached_here; left).
  - simplify_eq. by apply elem_of_nil in Hc.
  - destruct (h !! p) as [[]|] eqn:Hp; simplify_eq; try (by apply elem_of_nil in Hc).
    eapply via; [done|simpl; eauto|done].
  - rewrite node_refs_closure, via_refs_closure.
    apply cat_Some in He as (e1 & e2 & H1 & H2 & ->). unfold classify_body in H2.
    apply elem_of_app in Hc as [Hc|Hc]; [eapply reached_mono; [|by eapply (IHl captured_vars)]
      |eapply reached_mono; [|by eapply (IHl (body_values body))]];
      intros y (v & Hv & Hy)%elem_of_flat_map; unfold val_refs in Hy;
      apply elem_of_app in Hy as [Hy|Hy]; rewrite !elem_of_app, !elem_of_flat_map; eauto 6.
  - rewrite node_refs_component, via_refs_component.
    apply cat_Some in He as (e1 & e2 & H1 & H2 & ->). apply elem_of_app in Hc as [Hc|Hc].
    + eapply reached_mono; [|by eapply (IHl properties)].
      intros y (v & Hv & Hy)%elem_of_flat_map; unfold val_refs in Hy.
      apply elem_of_app in Hy as [Hy|Hy]; rewrite !elem_of_app, !elem_of_flat_map; eauto 6.
    + destruct (concatM_inv _ _ _ _ H2 Hc) as (f & ef & Hf & Hef & Hcf).
      eapply reached_mono; [|by eapply IHf]. intros y [Hy|Hy]%elem_of_app.
      * rewrite !elem_of_app. left; right. apply elem_of_flat_map. exists f.
        rewrite elem_of_app. eauto.
      * apply elem_of_flat_map in Hy as (v & Hv & Hy). unfold val_refs in Hy.
        apply elem_of_app in Hy as [Hy|Hy]; rewrite !elem_of_app.
        -- left; right. apply elem_of_flat_map. exists f. rewrite elem_of_app, elem_of_flat_map. eauto.
        -- right; right. apply elem_of_flat_map. exists v. rewrite elem_of_flat_map. eauto.
  - destruct (h !! p) as [[]|] eqn:Hp; simplify_eq; try (by apply elem_of_nil in Hc).
    eapply via; [done|simpl; eauto|done].
  - case_bool_decide; [simplify_eq; by apply elem_of_nil in Hc|].
    destruct (h !! p) as [[]|] eqn:Hp; simplify_eq; try (by apply elem_of_nil in Hc).
    eapply via; [done| |done]. simpl.
    eapply reached_mono; [apply list_subseteq_app_l; reflexivity|eauto].
Qed.

Lemma classify_all_reached l n vs e c :
  concatM (classify h ins l n) vs = Some e -> c ∈ e -> reached_from (vals_refs vs) c.
Proof.
  intros He Hc. destruct (concatM_inv _ _ _ _ He Hc) as (x & ex & Hx & Hex & Hcx).
  eapply reached_mono; [by apply elem_val_refs|by eapply classify_reached].
Qed.

Lemma reached_obj x o ys c :
  h !! x = Some o -> ys ⊆ obj_refs o -> reached_from ys c -> rtc edge x c.
Proof.
  intros Hx Hs (y & Hy & Hr). eapply rtc_l; [|done]. exists o. auto.
Qed.

Lemma map_edge p i m : h !! p = Some (OInstance i) -> m ∈ instance_maps i -> edge p m.
Proof.
  intros Hp Hm. exists (OInstance i). split; [done|]. unfold instance_maps in Hm.
  simpl. set_solver.
Qed.

Lemma table_reached l n t e c :
  concatM (classify h ins l n) (table_values h t) = Some e -> c ∈ e -> rtc edge t c.
Proof.
  unfold table_values. intros He Hc.
  destruct (h !! t) as [[]|] eqn:Ht; simplify_eq/=; try (by apply elem_of_nil in Hc).
  eapply reached_obj; [done| |by eapply classify_all_reached]. done.
Qed.

Lemma bp_reached l n b e c :
  concatM (classify h ins l n) (blueprint_values h l b) = Some e -> c ∈ e -> rtc edge b c.
Proof.
  unfold blueprint_values. intros He Hc.
  destruct (h !! b) as [[]|] eqn:Hb; simplify_eq/=; try (by apply elem_of_nil in Hc).
  apply cat_Some in He as (e1 & e2 & H1 & H2 & ->). rewrite concatM_app in H2.
  apply cat_Some in H2 as (e3 & e4 & H3 & H4 & ->). rewrite !elem_of_app in Hc.
  assert (Hv : forall v, v ∈ bp_metadata b0 :: bp_options b0 ++ opt_values (bp_metadata_cache b0) ->
    val_refs v ⊆ obj_refs (OBlueprint b0)).
  { intros v Hv y Hy. cbn [obj_refs]. rewrite elem_of_app, elem_of_cons. right; right.
    by eapply elem_val_refs. }
  destruct Hc as [Hc|[Hc|Hc]].
  - eapply reached_obj; [done|apply (Hv (bp_metadata b0)); left|by eapply classify_reached].
  - eapply rtc_l; [|by eapply table_reached]. exists (OBlueprint b0). split; [done|].
    simpl. rewrite elem_of_app, elem_of_cons. auto.
  - destruct (concatM_inv _ _ _ _ H4 Hc) as (v & ev & Hvin & Hev & Hcv).
    eapply reached_obj; [done|apply (Hv v)|by eapply classify_reached].
    right. rewrite elem_of_app in Hvin |- *. destruct Hvin as [|Hvin]; [by left|right].
    case_bool_decide; [by apply elem_of_nil in Hvin|done].
Qed.

Lemma node_reached l n p e c :
  for_each_child_node h ins l n p = Some e -> c ∈ e -> rtc edge p c.
Proof.
  unfold for_each_child_node. intros He Hc.
  destruct (h !! p) as [[]|] eqn:Hp; simplify_eq; try (by apply elem_of_nil in Hc).
  - eapply reached_obj; [done| |by eapply classify_all_reached]. simpl. set_solver.
  - by eapply reached_obj; [done| |by eapply classify_all_reached].
  - destruct (concatM_inv _ _ _ _ He Hc) as (q & ev & Hq & Hev & Hcv).
    eapply rtc_l; [by exists (OQuery data)|]. unfold column_values in Hev.
    destruct (h !! q) as [[]|] eqn:Hqo; simplify_eq/=; try (by apply elem_of_nil in Hcv).
    by eapply reached_obj; [done| |by eapply classify_all_reached].
  - case_bool_decide; [simplify_eq; by apply elem_of_nil in Hc|].
    by eapply reached_obj; [done| |by eapply classify_all_reached].
  - case_bool_decide; [simplify_eq; by apply elem_of_nil in Hc|].
    apply cat_Some in He as (e1 & e2 & H1 & H2 & ->). apply elem_of_app in Hc as [Hc|Hc].
    { eapply reached_obj; [done| |by eapply classify_all_reached]. simpl. set_solver. }
    destruct (concatM_inv _ _ _ _ H2 Hc) as (m & ev & Hm & Hev & Hcv).
    apply rtc_l with m; [by eapply map_edge|].
    unfold data_map_children, struct_values in Hev. case_bool_decide.
    { simplify_eq. apply list_elem_of_singleton in Hcv as ->. constructor. }
    destruct (h !! m) as [[]|] eqn:Hmo; simplify_eq/=; try (by apply elem_of_nil in Hcv).
    eapply reached_obj; [done| |by eapply classify_all_reached]. simpl. set_solver.
Qed.

Lemma class_reached l p b : b ∈ class_of h l p -> rtc edge p b.
Proof.
  unfold class_of, read_instance. intros Hb.
  destruct (h !! p) as [[]|] eqn:Hp; try (by apply elem_of_nil in Hb).
  case_bool_decide; [by apply elem_of_nil in Hb|]. apply list_elem_of_singleton in Hb as ->.
  apply rtc_once. exists (OInstance i). split; [done|]. left.
Qed.

Lemma struct_table_reached m t : t ∈ struct_table h m -> edge m t.
Proof.
  unfold struct_table. intros Ht.
  destruct (h !! m) as [[]|] eqn:Hm; try (by apply elem_of_nil in Ht).
  exists (OStruct s). split; [done|]. simpl. set_solver.
Qed.

Lemma tables_reached l p t : t ∈ tables_of h l p -> rtc edge p t.
Proof.
  unfold tables_of. intros Ht. destruct (h !! p) as [o|] eqn:Hp; [|by apply elem_of_nil in Ht].
  destruct o; try (by apply elem_of_nil in Ht);
    (case_bool_decide; [by apply elem_of_nil in Ht|]).
  - by apply rtc_once, struct_table_reached.
  - apply elem_of_flat_map in Ht as (m & Hm & Ht).
    eapply rtc_l; [by eapply map_edge|by apply rtc_once, struct_table_reached].
Qed.
End Emitted.

(** ** Garbage regions *)

(** A region nothing outside holds, whose survivors are held only by handles
    the pass counts, and whose blueprints only by instances it can read. *)
Record garbage (h : heap) (roots : list addr) (nodes : list addr) (l : gset addr)
    (t : list addr) (X : gset addr) : Prop := {
  ga_roots : forall x, x ∈ X -> x ∉ roots;
  ga_closed : forall x y, edge h x y -> y ∈ X -> x ∈ X;
  ga_counted : forall p x o, p ∈ X -> p ∈ nodes -> h !! x = Some o -> p ∈ obj_refs o ->
    x ∈ t /\ count p (obj_refs o) <= count p (shown h (list_to_set nodes) l x);
  ga_classes : forall b x o, b ∈ X -> b ∈ blueprints h l nodes -> h !! x = Some o ->
    b ∈ obj_refs o -> x ∈ nodes /\ count b (obj_refs o) <= count b (class_of h l x)
}.

(** Counting every holder once is enough. *)
Lemma counted_all h (g : addr -> list addr) roots t p :
  p ∉ roots ->
  (forall x o, h !! x = Some o -> p ∈ obj_refs o ->
     x ∈ t /\ count p (obj_refs o) <= count p (g x)) ->
  strong_count h roots p <= total g t p.
Proof.
  intros Hr Hh. unfold strong_count. apply count_zero in Hr. rewrite Hr, heap_refs_sum, Nat.add_0_r.
  rewrite (sum_filter_le _ (fun _ => 0) (fun x => bool_decide (p ∈ from_option obj_refs [] (h !! x)))).
  - transitivity (sum_list_with (fun x => count p (g x)) (List.filter
      (fun x => bool_decide (p ∈ from_option obj_refs [] (h !! x))) (objects h))).
    + apply sum_list_with_le. intros x Hx%list_elem_of_In.
      apply filter_In in Hx as [Hx Hp%bool_decide_eq_true]. apply list_elem_of_In in Hx.
      apply objects_elem in Hx as [o Ho]. rewrite Ho in *. simpl in *. by apply Hh.
    + apply sum_submseteq.
      * apply NoDup_ListNoDup, List.NoDup_filter, NoDup_ListNoDup. apply NoDup_fst_map_to_list.
      * intros x Hx%list_elem_of_In. apply filter_In in Hx as [Hx Hp%bool_decide_eq_true].
        apply list_elem_of_In in Hx. apply objects_elem in Hx as [o Ho]. rewrite Ho in Hp.
        simpl in Hp. by apply (Hh x o).
  - intros x _ Hx%bool_decide_eq_false. by apply count_zero.
Qed.

Section Region.
Context (h : heap) (roots : list addr) (env : pass_env) (log : list addr) (live : gset addr).
Abbreviation nodes := (survivors h log).
Abbreviation ins := (list_to_set nodes : gset addr).
Context (marked : live_set h roots ins (pe_count env) (pe_mark env) (pe_fuel env) nodes = Some live).
Context (t : list addr) (X : gset addr)
  (walked : count_trail h ins (pe_count env) (pe_fuel env) nodes = Some t)
  (region : garbage h roots nodes (pe_count env) t X).

Lemma region_back x y : rtc (edge h) x y -> y ∈ X -> x ∈ X.
Proof.
  induction 1 as [|x y z Hxy _ IH]; [done|]. intros Hz.
  eapply (ga_closed _ _ _ _ _ _ region); eauto.
Qed.

Lemma region_dead p : p ∈ X -> p ∉ live.
Proof.
  intros Hp Hl. pose proof marked as Hm. unfold live_set in Hm.
  destruct (internal_refs h ins (pe_count env) (pe_fuel env) nodes) as [internal|] eqn:Hint; [|done].
  destruct (foldM _ _ _) as [st0|] eqn:H0; [|done].
  destruct (mark_loop h ins _ _ _ st0) as [st|] eqn:Hst; [|done]. injection Hm as <-.
  destruct (internal_counts h ins _ _ _ _ (survivors_nodes h log) Hint) as (t' & Ht' & Hc).
  assert (t' = t) as -> by congruence. clear Ht'.
  set (G := fun q : addr => q ∉ X).
  assert (Gback : forall x y, G x -> rtc (edge h) x y -> G y).
  { intros x y Hx Hr Hy. apply Hx. by eapply region_back. }
  assert (GC : mark_closed h ins (pe_mark env) (pe_fuel env) G).
  { split.
    - intros q cs c Gq Hcs Hcc. eapply Gback; [exact Gq|by eapply node_reached].
    - intros q b Gq Hb. eapply Gback; [exact Gq|by eapply class_reached].
    - intros q b Gq Hb. eapply Gback; [exact Gq|by eapply tables_reached].
    - intros b e c Gb He Hce. eapply Gback; [exact Gb|by eapply bp_reached].
    - intros b e c Gb He Hce. eapply Gback; [exact Gb|by eapply table_reached]. }
  assert (W0 : within G (mark_roots h roots internal nodes)).
  { eapply within_children; [exact GC|split; simpl; set_solver|]. intros q Hq HX.
    apply list_elem_of_In, filter_In in Hq as [Hq He%Nat.ltb_lt]. apply list_elem_of_In in Hq.
    unfold external in He. rewrite Hc in He.
    pose proof (counted_all h (shown h ins (pe_count env)) roots t q
      (ga_roots _ _ _ _ _ _ region q HX)
      (fun x o => ga_counted _ _ _ _ _ _ region q x o HX Hq)). lia. }
  assert (W1 : within G st0).
  { eapply within_foldM; [exact GC|by apply within_blueprint| |exact W0|exact H0].
    intros b Hb HX. apply list_elem_of_In, filter_In in Hb as [Hb He%Nat.ltb_lt].
    apply list_elem_of_In in Hb. unfold bp_external in He. rewrite count_flat_map in He.
    pose proof (counted_all h (class_of h (pe_count env)) roots nodes b
      (ga_roots _ _ _ _ _ _ region b HX)
      (fun x o => ga_classes _ _ _ _ _ _ region b x o HX Hb)) as Hle.
    unfold total in Hle. lia. }
  apply (within_loop h ins (pe_mark env) (pe_fuel env) G GC) in Hst as [Hlive _]; [|done].
  by apply (Hlive p).
Qed.
End Region.

(** ** Freeing *)

(** What [clear] makes of a block: a struct keeps its method table and its cookie
    attributes. *)
Definition empty_obj (o : obj) : obj :=
  match o with
  | OStruct s => OStruct (StructInner [] (st_method_table s) (st_cookie_attrs s))
  | OArray _ => OArray []
  | OQuery _ => OQuery []
  | OScope _ => OScope []
  | o => o
  end.

Definition is_struct (h : heap) (m : addr) : bool :=
  match h !! m with Some (OStruct _) => true | _ => false end.

(** The blocks [clear] empties for a survivor: the container itself, or the data
    maps of an instance whose lock it gets. *)
Definition clears (lk : gset addr) (h : heap) (p : addr) : list addr :=
  match h !! p with
  | Some (OStruct _ | OArray _ | OQuery _) => [p]
  | Some (OScope _) => if bool_decide (p ∈ lk) then [] else [p]
  | Some (OInstance i) =>
      if bool_decide (p ∈ lk) then [] else List.filter (is_struct h) (instance_maps i)
  | _ => []
  end.

Lemma empty_idem o : empty_obj (empty_obj o) = empty_obj o.
Proof. by destruct o. Qed.

Lemma empty_refs o : obj_refs (empty_obj o) ⊆ obj_refs o.
Proof. destruct o; simpl; set_solver. Qed.

Definition empties (h h' : heap) (ps : list addr) : Prop :=
  forall x, h' !! x = if bool_decide (x ∈ ps) then empty_obj <$> h !! x else h !! x.

Lemma emptied_insert h p o : h !! p = Some o -> empties h (<[p := empty_obj o]> h) [p].
Proof.
  intros Hp x. destruct (decide (x = p)) as [->|Hne].
  - rewrite lookup_insert_eq, Hp, bool_decide_true by (by left). done.
  - rewrite lookup_insert_ne, bool_decide_false by (done || by intros ->%list_elem_of_singleton). done.
Qed.

Lemma emptied_nil h : empties h h [].
Proof. intros x. rewrite bool_decide_false by (apply not_elem_of_nil). done. Qed.

Lemma emptied_trans h1 h2 h3 ps qs : empties h1 h2 ps -> empties h2 h3 qs -> empties h1 h3 (ps ++ qs).
Proof.
  intros H1 H2 x. rewrite (H2 x), (H1 x).
  rewrite (bool_decide_ext (x ∈ ps ++ qs) (x ∈ ps \/ x ∈ qs)) by apply elem_of_app.
  repeat case_bool_decide; try done; try tauto. destruct (h1 !! x); [|done]. cbn. by rewrite empty_idem.
Qed.

(** Emptying keeps which blocks are emptied for the survivors after. *)
Lemma emptied_struct h h' ps m : empties h h' ps -> is_struct h' m = is_struct h m.
Proof. intros H. unfold is_struct. rewrite (H m). case_bool_decide; [|done]. by destruct (h !! m) as [[]|]. Qed.

Lemma emptied_clears lk h h' ps p : empties h h' ps -> clears lk h' p = clears lk h p.
Proof.
  intros H. unfold clears. rewrite (H p).
  assert (Hf : forall l, List.filter (is_struct h') l = List.filter (is_struct h) l).
  { intros l. apply filter_ext. intros m. by eapply emptied_struct. }
  destruct (bool_decide (p ∈ ps)); destruct (h !! p) as [[]|]; cbn [fmap option_fmap option_map empty_obj]; try done; by rewrite ?Hf.
Qed.

Lemma clear_map_emptied h m : empties h (clear_map h m) (if is_struct h m then [m] else []).
Proof.
  unfold clear_map, is_struct. destruct (h !! m) as [[]|] eqn:Hm; try apply emptied_nil.
  exact (emptied_insert h m _ Hm).
Qed.

Lemma clear_emptied lk h p : empties h (clear lk h p) (clears lk h p).
Proof.
  unfold clear, clears. destruct (h !! p) as [[]|] eqn:Hp; try apply emptied_nil.
  - pose proof (clear_map_emptied h p) as H. unfold is_struct in H. by rewrite Hp in H.
  - exact (emptied_insert h p _ Hp).
  - exact (emptied_insert h p _ Hp).
  - case_bool_decide; [apply emptied_nil|exact (emptied_insert h p _ Hp)].
  - case_bool_decide; [apply emptied_nil|]. unfold instance_maps. cbn [fold_left List.filter].
    pose proof (clear_map_emptied h (it_this_members i)) as H1.
    pose proof (clear_map_emptied (clear_map h (it_this_members i)) (it_variables_members i)) as H2.
    rewrite (emptied_struct _ _ _ _ H1) in H2. pose proof (emptied_trans _ _ _ _ _ H1 H2) as H3.
    destruct (is_struct h (it_this_members i)), (is_struct h (it_variables_members i)); exact H3.
Qed.

Lemma clear_all_emptied lk dead h :
  empties h (fold_left (clear lk) dead h) (flat_map (clears lk h) dead).
Proof.
  revert h. induction dead as [|p dead IH]; intros h; cbn [fold_left flat_map]; [apply emptied_nil|].
  pose proof (clear_emptied lk h p) as H1. pose proof (IH (clear lk h p)) as H2.
  rewrite (flat_map_ext (clears lk (clear lk h p)) (clears lk h)) in H2 by (intros; by eapply emptied_clears).
  exact (emptied_trans _ _ _ _ _ H1 H2).
Qed.

Lemma clear_all_refs lk dead h x o :
  fold_left (clear lk) dead h !! x = Some o ->
  exists o', h !! x = Some o' /\ obj_refs o ⊆ obj_refs o'.
Proof.
  rewrite (clear_all_emptied lk dead h x). case_bool_decide; [|by eauto].
  intros (o' & Ho & ->)%fmap_Some. exists o'. split; [done|apply empty_refs].
Qed.

Section Release.
Context (roots : list addr) (X : gset addr) (rank : addr -> nat)
  (X_roots : forall x, x ∈ X -> x ∉ roots).

(** Nothing outside holds the region, and it holds itself without cycles. *)
Definition unheld (h : heap) : Prop :=
  (forall x y, edge h x y -> y ∈ X -> x ∈ X)
  /\ (forall x y, edge h x y -> x ∈ X -> y ∈ X -> rank y < rank x).

Definition region_of (h : heap) : gset addr := filter (fun x => x ∈ X) (dom h).

Lemma release_step_sub h x o : release_step roots h !! x = Some o -> h !! x = Some o.
Proof. unfold release_step. by intros [? _]%map_lookup_filter_Some. Qed.

Lemma release_step_unheld h : unheld h -> unheld (release_step roots h).
Proof.
  intros [H1 H2]. split; intros x y (o & Ho%release_step_sub & Hy); [apply H1|apply H2]; by exists o.
Qed.

(** The block nothing in the region holds is freed. *)
Lemma release_step_frees h :
  unheld h -> region_of h ≠ ∅ -> size (region_of (release_step roots h)) < size (region_of h).
Proof.
  intros [Hc Hr] Hne. apply subset_size.
  assert (Hsub : region_of (release_step roots h) ⊆ region_of h).
  { intros x. unfold region_of. rewrite !elem_of_filter, !elem_of_dom.
    intros [Hx [o Ho]]. split; [done|]. exists o. by apply release_step_sub. }
  pose (R := fun a b : addr => rank b < rank a).
  assert (HT : Transitive R) by (intros a b c; unfold R; lia).
  assert (HD : forall a b, Decision (R a b)) by (intros a b; unfold R; apply _).
  destruct (minimal_exists_elem_of_L R (region_of h) Hne) as (x & Hx & Hmin).
  apply strict_spec_alt. split; [done|]. intros E. rewrite <- E in Hx.
  unfold region_of in Hx. rewrite elem_of_filter, elem_of_dom in Hx. destruct Hx as [HX [o Ho]].
  unfold release_step in Ho. apply map_lookup_filter_Some in Ho as [Ho Hs]. apply Hs. simpl.
  unfold strong_count. rewrite (proj1 (count_zero x roots)) by auto. rewrite Nat.add_0_r.
  apply count_zero. unfold heap_refs. intros ([q oq] & Hq & Hxq)%elem_of_flat_map.
  apply elem_of_map_to_list in Hq. simpl in Hxq.
  assert (He : edge h q x) by (by exists oq). assert (HqX : q ∈ X) by eauto.
  pose proof (Hr q x He HqX HX) as Hlt.
  assert (q ∈ region_of h) as Hqr by (unfold region_of; rewrite elem_of_filter, elem_of_dom; eauto).
  pose proof (Hmin q Hqr Hlt) as Hgt. unfold R in Hgt. lia.
Qed.

Lemma release_loop_frees k h :
  unheld h -> size (region_of h) <= k -> forall x, x ∈ X -> release_loop k roots h !! x = None.
Proof.
  revert h; induction k as [|k IH]; intros h Hu Hk x Hx; simpl.
  - destruct (h !! x) as [o|] eqn:Ho; [|done]. exfalso.
    assert (x ∈ region_of h) as Hin by (unfold region_of; rewrite elem_of_filter, elem_of_dom; eauto).
    apply Nat.le_0_r, size_empty_iff in Hk. set_solver.
  - apply IH; [by apply release_step_unheld| |done].
    destruct (decide (region_of h = ∅)) as [E|Hne].
    + assert (region_of (release_step roots h) ⊆ region_of h).
      { intros y. unfold region_of. rewrite !elem_of_filter, !elem_of_dom.
        intros [Hy [o Ho]]. split; [done|]. exists o. by apply release_step_sub. }
      assert (region_of (release_step roots h) = ∅) as -> by set_solver. rewrite size_empty. lia.
    + pose proof (release_step_frees h Hu Hne). lia.
Qed.

Lemma release_frees h : unheld h -> forall x, x ∈ X -> release roots h !! x = None.
Proof.
  intros Hu. apply release_loop_frees; [done|]. rewrite <- size_dom.
  apply subseteq_size. unfold region_of. intros x. by rewrite elem_of_filter; intros [_ ?].
Qed.
End Release.

(** ** The theorem *)

(** The garbage a log describes: a region the pass can see whole. *)
Definition visible_garbage (env : pass_env) (roots : list addr) (h : heap) (log : list addr)
    (X : gset addr) : Prop :=
  let nodes := survivors h log in
  exists t, count_trail h (list_to_set nodes) (pe_count env) (pe_fuel env) nodes = Some t
    /\ garbage h roots nodes (pe_count env) t X.

(** The handles a block of the region is left with when the survivors of the
    region are cleared. *)
Definition left_refs (env : pass_env) (h : heap) (log : list addr) (X : gset addr) (x : addr) : list addr :=
  let cleared := flat_map (clears (pe_clear env) h) (List.filter (fun p => bool_decide (p ∈ X)) (survivors h log)) in
  match h !! x with
  | Some o => obj_refs (if bool_decide (x ∈ cleared) then empty_obj o else o)
  | None => []
  end.

(** The region has no cycle but those that clearing cuts. *)
Definition cycles_cut (env : pass_env) (h : heap) (log : list addr) (X : gset addr) : Prop :=
  exists rank : addr -> nat, forall x y, x ∈ X -> y ∈ X -> y ∈ left_refs env h log X x -> rank y < rank x.

Lemma release_sub roots h x : release roots h !! x = None \/ release roots h !! x = h !! x.
Proof.
  unfold release. generalize (size h). intros k. revert h. induction k as [|k IH]; intros h; simpl; [by right|].
  destruct (IH (release_step roots h)) as [->|E]; [by left|]. rewrite E.
  destruct (release_step roots h !! x) as [o|] eqn:Ho; [|by left]. right. symmetry. by apply release_step_sub in Ho.
Qed.

(** C17. Unreachable cycles are reclaimed.  Take a region of the heap that nothing
    outside holds and whose containers are held only by handles the pass counts.
    After a pass that returns, no container of the region is tracked any more;
    every container of it that was in the log has been emptied (an instance: its
    data maps), locks that were taken while clearing apart, or is freed; and if
    all cycles of the region go through a container so emptied, the whole region
    is freed. *)
Theorem collect_reclaims env roots h log r X :
  visible_garbage env roots h log X ->
  collect_from_log_carrying env roots h log = Some r ->
  (forall p, p ∈ X -> p ∉ pr_carry r)
  /\ (forall p x, p ∈ X -> p ∈ survivors h log -> x ∈ clears (pe_clear env) h p ->
       pr_heap r !! x = None \/ pr_heap r !! x = empty_obj <$> h !! x)
  /\ (cycles_cut env h log X -> forall x, x ∈ X -> pr_heap r !! x = None).
Proof.
  intros (t & Ht & Hg) Hr. unfold collect_from_log_carrying, clear_dead in Hr.
  destruct (live_set _ _ _ _ _ _ _) as [live|] eqn:Hlive; [|done]. injection Hr as <-. cbn [pr_heap pr_carry].
  set (dead := dead_nodes live (survivors h log)). set (lk := pe_clear env).
  pose proof (region_dead h roots env log live Hlive t X Ht Hg) as Hdead.
  assert (Hcl : forall p x, p ∈ X -> p ∈ survivors h log -> x ∈ clears lk h p -> x ∈ flat_map (clears lk h) dead).
  { intros p x Hp Hs Hx. apply elem_of_flat_map. exists p. split; [|done]. apply list_elem_of_In, filter_In.
    split; [by apply list_elem_of_In|]. by rewrite bool_decide_false by (by apply Hdead). }
  pose proof (clear_all_emptied lk dead h) as He. split_and!.
  - intros p Hp Hin. apply list_elem_of_In, filter_In in Hin as [_ Hl%bool_decide_eq_true]. by apply (Hdead p).
  - intros p x Hp Hs Hx. destruct (release_sub roots (fold_left (clear lk) dead h) x) as [->|E]; [by left|right].
    rewrite E, (He x), bool_decide_true by eauto. done.
  - intros (rank & Hrank) x Hx. apply (release_frees roots X rank); [apply (ga_roots _ _ _ _ _ _ Hg)| |done].
    split.
    + intros a b (o & Ho & Hbo) Hb. apply clear_all_refs in Ho as (o' & Ho' & Hs).
      eapply (ga_closed _ _ _ _ _ _ Hg); [|exact Hb]. exists o'. auto.
    + intros a b (o & Ho & Hbo) Ha Hb. apply Hrank; [done|done|]. rewrite (He a) in Ho. unfold left_refs.
      destruct (h !! a) as [o'|] eqn:Hha; [|by case_bool_decide].
      case_bool_decide as Hin; cbn in Ho; injection Ho as <-; case_bool_decide as Hin'; try done.
      * by apply empty_refs.
      * exfalso. apply Hin. apply elem_of_flat_map in Hin' as (p & Hp & Hap).
        apply list_elem_of_In, filter_In in Hp as [Hp HX%bool_decide_eq_true]. apply list_elem_of_In in Hp. eauto.
Qed.

(** ** A pass returns *)

Lemma concatM_some {A B} (f : A -> option (list B)) (xs : list A) :
  is_Some (concatM f xs) <-> forall x, x ∈ xs -> is_Some (f x).
Proof.
  split; [|apply concatM_total]. intros [e He] x Hx.
  destruct (concatM_elem _ _ _ _ He Hx) as (ex & -> & _). eauto.
Qed.

Lemma cat_some {A} (a b : option (list A)) : is_Some (cat a b) <-> is_Some a /\ is_Some b.
Proof.
  split.
  - intros [e (x & y & -> & -> & _)%cat_Some]. eauto.
  - intros [[x ->] [y ->]]. simpl. eauto.
Qed.

Lemma function_some ins (cl : gval -> option (list addr)) f :
  (forall v, v ∈ function_values f -> is_Some (cl v)) -> is_Some (classify_function ins cl f).
Proof. intros H. apply cat_some. split; [eauto|]. by apply concatM_some. Qed.

Section Depth.
Context (h : heap).
Implicit Types (ins l : gset addr) (v : gval) (n : nat).

(** The values one step of [classify] goes on to. *)
Definition steps_to v : list gval :=
  match v with
  | GFunction p => match h !! p with Some (OFunction f) => function_values f | _ => [] end
  | GComponent props ms => props ++ flat_map function_values ms
  | GClosure vars body => vars ++ body_values body
  | GQueryColumn p _ => match h !! p with Some (OColumn vs) => vs | _ => [] end
  | GNativeObject p => match h !! p with Some (ONative vs _) => vs | _ => [] end
  | _ => []
  end.

(** Carriers are nested less than [n] deep inside [v]. *)
Fixpoint nested n v : Prop :=
  match n with
  | 0 => False
  | S n => forall w, w ∈ steps_to v -> nested n w
  end.

Lemma nested_mono n m v : n <= m -> nested n v -> nested m v.
Proof.
  revert m v; induction n as [|n IH]; intros m v Hm Hw; [done|].
  destruct m as [|m]; [lia|]. intros w Hin. apply IH; [lia|auto].
Qed.

Lemma nested_classify n v ins l : nested n v -> is_Some (classify h ins l n v).
Proof.
  revert v; induction n as [|n IH]; intros v; [done|]. simpl. intros H.
  assert (H' : forall w, w ∈ steps_to v -> is_Some (classify h ins l n w)) by eauto.
  destruct v; cbn [steps_to] in H'; try (by eauto).
  - destruct (h !! p) as [[]|]; eauto. by apply concatM_some.
  - apply cat_some. split; apply concatM_some; intros w Hw; apply H'; set_solver.
  - apply cat_some. split; apply concatM_some.
    + intros w Hw. apply H'. apply elem_of_app. by left.
    + intros f Hf. apply function_some. intros w Hw. apply H'. apply elem_of_app. right.
      apply elem_of_flat_map. eauto.
  - destruct (h !! p) as [[]|]; eauto. by apply function_some.
  - case_bool_decide; [by eauto|]. destruct (h !! p) as [[]|]; eauto. by apply concatM_some.
Qed.

Lemma nested_list (vs : list gval) :
  (forall v, v ∈ vs -> exists n, nested n v) -> exists n, forall v, v ∈ vs -> nested n v.
Proof.
  induction vs as [|v vs IH]; intros H; [exists 0; by intros v ?%elem_of_nil|].
  destruct (H v) as [n Hn]; [left|]. destruct IH as [m Hm]; [by intros w ?; apply H; right|].
  exists (n `max` m). intros w [->|Hw]%elem_of_cons; [by eapply nested_mono, Hn; lia|].
  eapply nested_mono; [|by apply Hm]. lia.
Qed.

(** Each function, column and native object holds only ones of lower rank. *)
Definition carriers_ranked (rank : addr -> nat) : Prop :=
  forall x o y, h !! x = Some o -> carrier_kind (kind_of o) = true ->
    y ∈ flat_map via_refs (walk_values h ∅ x) -> rank y < rank x.

Lemma nested_step v : (forall w, w ∈ steps_to v -> exists n, nested n w) -> exists n, nested n v.
Proof. intros [n Hn]%nested_list. by exists (S n). Qed.

(** The one carrier a plain handle leads to. *)
Lemma step_carrier v p w :
  via_refs v = [p] -> steps_to v ≠ [] -> w ∈ steps_to v ->
  (forall vars b, v ≠ GClosure vars b) -> (forall props ms, v ≠ GComponent props ms) ->
  carrier h p /\ w ∈ walk_values h ∅ p.
Proof.
  intros Hv Hne Hw Hc Hm. destruct v; try done; try (by exfalso; eapply Hc);
    try (by exfalso; eapply Hm); injection Hv as ->; cbn [steps_to] in Hw;
    destruct (h !! p) as [[]|] eqn:Hp; try (by apply elem_of_nil in Hw);
    (split; [by eexists|unfold walk_values; by rewrite Hp]).
Qed.

Lemma nested_ranked rank k v :
  carriers_ranked rank -> (forall p, p ∈ via_refs v -> rank p < k) -> exists n, nested n v.
Proof.
  intros HR. revert v; induction k as [k IHk] using lt_wf_ind.
  assert (into : forall p w, rank p < k -> carrier h p -> w ∈ walk_values h ∅ p ->
    exists n, nested n w).
  { intros p w Hp (o & Ho & Hkind) Hw. apply (IHk (rank p)); [done|].
    intros q Hq. apply (HR p o q Ho Hkind). apply elem_of_flat_map. eauto. }
  assert (leaf : forall v p, via_refs v = [p] -> (forall p, p ∈ via_refs v -> rank p < k) ->
    (forall vars b, v ≠ GClosure vars b) -> (forall props ms, v ≠ GComponent props ms) ->
    exists n, nested n v).
  { intros v p Hv Hk Hc Hm. apply nested_step. intros w Hw.
    destruct (step_carrier v p w) as [? ?]; try done.
    - intros E. rewrite E in Hw. by apply elem_of_nil in Hw.
    - apply (into p); [apply Hk; rewrite Hv; left|done|done]. }
  assert (sub : forall vs us, Forall (fun v => (forall p, p ∈ via_refs v -> rank p < k) ->
    exists n, nested n v) vs -> (forall p, p ∈ us -> rank p < k) -> flat_map via_refs vs ⊆ us ->
    forall w, w ∈ vs -> exists n, nested n w).
  { intros vs us Hall Hk Hs w Hw. rewrite Forall_forall in Hall. apply (Hall w Hw).
    intros p Hp. apply Hk, Hs, elem_of_flat_map. eauto. }
  induction v using gval_ind'; intros Hk; try (exists 1; by intros w ?%elem_of_nil).
  1,4,5: by eapply leaf.
  - apply nested_step. intros w [Hw|Hw]%elem_of_app.
    + eapply (sub vars); [done|exact Hk| |done]. rewrite via_refs_closure. set_solver.
    + eapply (sub (body_values b)); [done|exact Hk| |done]. rewrite via_refs_closure. set_solver.
  - apply nested_step. intros w [Hw|Hw]%elem_of_app.
    + eapply (sub props); [done|exact Hk| |done]. rewrite via_refs_component. set_solver.
    + eapply (sub (flat_map function_values ms)); [|exact Hk| |done].
      * apply Forall_forall. intros x (f & Hf & Hx)%elem_of_flat_map.
        rewrite Forall_forall in H0. specialize (H0 f Hf). rewrite Forall_forall in H0. auto.
      * rewrite via_refs_component. set_solver.
Qed.

(** Every value of the heap. *)
Definition heap_values : list gval :=
  flat_map (fun x => walk_values h ∅ x ++ struct_values h x ++ blueprint_values h ∅ x) (objects h).

Lemma heap_values_nested rank : carriers_ranked rank ->
  exists n, forall v, v ∈ heap_values -> nested n v.
Proof.
  intros HR. apply nested_list. intros v _.
  apply (nested_ranked rank (S (list_max (map rank (via_refs v))))); [done|].
  intros p Hp. enough (rank p <= list_max (map rank (via_refs v))) by lia.
  pose proof (proj1 (list_max_le (map rank (via_refs v)) _) (le_n _)) as Hm.
  rewrite Forall_forall in Hm. apply Hm. apply list_elem_of_fmap. eauto.
Qed.
Lemma heap_values_walk x v : v ∈ walk_values h ∅ x -> v ∈ heap_values.
Proof.
  intros Hv. apply elem_of_flat_map. exists x. rewrite objects_elem, elem_of_app.
  split; [|by left]. unfold walk_values in Hv. destruct (h !! x); [eauto|by apply elem_of_nil in Hv].
Qed.

Lemma heap_values_struct x v : v ∈ struct_values h x -> v ∈ heap_values.
Proof.
  intros Hv. apply elem_of_flat_map. exists x. rewrite objects_elem, !elem_of_app.
  split; [|auto]. unfold struct_values in Hv. destruct (h !! x); [eauto|by apply elem_of_nil in Hv].
Qed.

Lemma heap_values_bp l x v : v ∈ blueprint_values h l x -> v ∈ heap_values.
Proof.
  intros Hv. apply elem_of_flat_map. exists x. rewrite objects_elem, !elem_of_app.
  unfold blueprint_values in Hv |- *. destruct (h !! x) as [[]|]; try (by apply elem_of_nil in Hv).
  split; [by eauto|]. right; right. rewrite bool_decide_false by set_solver.
  rewrite !elem_of_cons, !elem_of_app in Hv |- *.
  destruct Hv as [|[|[|Hv]]]; auto. case_bool_decide; [by apply elem_of_nil in Hv|auto].
Qed.

Lemma heap_values_table t v : v ∈ table_values h t -> v ∈ heap_values.
Proof.
  unfold table_values. intros Hv. destruct (h !! t) as [[]|] eqn:Ht; try (by apply elem_of_nil in Hv).
  apply (heap_values_walk t). unfold walk_values. by rewrite Ht.
Qed.

End Depth.

Section Total.
Context (h : heap) (ins : gset addr) (n : nat).
Context (deep : forall v, v ∈ heap_values h -> nested h n v).
Implicit Types (l : gset addr).

Lemma values_some l (vs : list gval) :
  (forall v, v ∈ vs -> v ∈ heap_values h) -> is_Some (concatM (classify h ins l n) vs).
Proof. intros H. apply concatM_some. intros v Hv. apply nested_classify. auto. Qed.

Lemma children_some l p : is_Some (for_each_child_node h ins l n p).
Proof.
  unfold for_each_child_node. destruct (h !! p) as [o|] eqn:Hp; [|by eauto].
  assert (W : forall v, v ∈ walk_values h ∅ p -> v ∈ heap_values h) by apply heap_values_walk.
  unfold walk_values in W. rewrite Hp in W. destruct o; try (by eauto using values_some).
  - apply concatM_some. intros c _. apply values_some. intros v Hv.
    apply (heap_values_walk h c). unfold column_values in Hv. unfold walk_values.
    destruct (h !! c) as [[]|]; done || by apply elem_of_nil in Hv.
  - case_bool_decide; [set_solver|]. destruct (bool_decide (p ∈ l)); [by eauto|].
    by apply values_some.
  - case_bool_decide; [set_solver|]. destruct (bool_decide (p ∈ l)); [by eauto|].
    apply cat_some. split; [by apply values_some|]. apply concatM_some. intros m _.
    unfold data_map_children. case_bool_decide; [by eauto|].
    apply values_some. apply heap_values_struct.
Qed.

Lemma internal_some l nodes : is_Some (internal_refs h ins l n nodes).
Proof.
  unfold internal_refs. apply cat_some. split; [|apply cat_some; split].
  - apply concatM_some. intros p _. apply children_some.
  - apply concatM_some. intros b _. apply values_some. apply heap_values_bp.
  - apply concatM_some. intros t _. apply values_some. apply heap_values_table.
Qed.

Lemma counts_ins l e ps t c : counts h ins l e ps t -> c ∈ e -> c ∈ ins.
Proof.
  intros Hc He. apply count_pos in He. rewrite (Hc c) in He.
  destruct (decide (c ∈ ins)) as [|Hni]; [done|exfalso].
  rewrite count_emit, bool_decide_false in He by done. unfold total in He.
  assert (sum_list_with (fun x => count c (shown h ins l x)) t = 0) as E; [|lia].
  clear -Hni. induction t as [|x t IH]; simpl; [done|]. rewrite IH.
  enough (count c (shown h ins l x) = 0) by lia. apply count_zero. by intros ?%shown_ins.
Qed.
End Total.

Section TotalMark.
Context (h : heap) (nodes : list addr) (n : nat) (lm : gset addr).
Abbreviation ins := (list_to_set nodes : gset addr).
Context (deep : forall v, v ∈ heap_values h -> nested h n v)
  (containers : Forall (fun p => is_node h p = true) nodes).

Lemma mark_values_total st (vs : list gval) :
  (forall v, v ∈ vs -> v ∈ heap_values h) ->
  exists st', mark_values h ins lm n st vs = Some st' /\ pending nodes st' <= pending nodes st.
Proof.
  intros Hv. destruct (values_some h ins n deep lm vs Hv) as [e He].
  unfold mark_values. rewrite He. simpl. eexists; split; [done|]. apply pending_children.
  intros c Hc. apply classify_all_counts in He as (t & _ & Hcs).
  apply (elem_of_list_to_set (C := gset addr)). by eapply counts_ins.
Qed.

Lemma mark_blueprint_total st b :
  exists st', mark_blueprint h ins lm n st b = Some st' /\ pending nodes st' <= pending nodes st.
Proof.
  unfold mark_blueprint. case_bool_decide; [by eauto|].
  destruct (mark_values_total (MarkState (mk_live st) (mk_worklist st) ({[b]} ∪ mk_bps st) (mk_tables st))
    (blueprint_values h lm b)) as (st' & -> & Hle); [by apply heap_values_bp|]. by eexists.
Qed.

Lemma mark_table_total st t :
  exists st', mark_table h ins lm n st t = Some st' /\ pending nodes st' <= pending nodes st.
Proof.
  unfold mark_table. case_bool_decide; [by eauto|].
  destruct (mark_values_total (MarkState (mk_live st) (mk_worklist st) (mk_bps st) ({[t]} ∪ mk_tables st))
    (table_values h t)) as (st' & -> & Hle); [by apply heap_values_table|]. by eexists.
Qed.

Lemma foldM_total (f : mark_state -> addr -> option mark_state) l st :
  (forall st x, exists st', f st x = Some st' /\ pending nodes st' <= pending nodes st) ->
  exists st', foldM f st l = Some st' /\ pending nodes st' <= pending nodes st.
Proof.
  intros Hf. revert st; induction l as [|x l IH]; intros st; simpl; [by eauto|].
  destruct (Hf st x) as (st1 & -> & H1). destruct (IH st1) as (st2 & -> & H2).
  exists st2. split; [done|lia].
Qed.

Lemma children_ins l p cs c :
  for_each_child_node h ins l n p = Some cs -> c ∈ cs -> c ∈ nodes.
Proof.
  intros Hcs Hc. apply (elem_of_list_to_set (C := gset addr)). destruct (is_node h p) eqn:Hn.
  - apply node_counts in Hcs as (t & _ & Hct); [|done]. by eapply counts_ins.
  - unfold is_node in Hn. unfold for_each_child_node in Hcs.
    destruct (h !! p) as [[]|]; simplify_eq; by apply elem_of_nil in Hc.
Qed.

Lemma mark_node_total st p :
  exists st', mark_node h ins lm n st p = Some st' /\ pending nodes st' <= pending nodes st.
Proof.
  unfold mark_node. destruct (children_some h ins n deep lm p) as [cs Hcs]. rewrite Hcs.
  assert (Hle0 : pending nodes (mark_children st cs) <= pending nodes st)
    by (apply pending_children; intros c Hc; by eapply children_ins).
  destruct (foldM_total (mark_blueprint h ins lm n) (class_of h lm p) (mark_children st cs)
    mark_blueprint_total) as (st1 & -> & H1).
  destruct (foldM_total (mark_table h ins lm n) (tables_of h lm p) st1 mark_table_total)
    as (st2 & -> & H2).
  exists st2. split; [done|lia].
Qed.

Lemma mark_loop_total fuel st :
  pending nodes st <= fuel -> is_Some (mark_loop h ins lm n fuel st).
Proof.
  revert st; induction fuel as [|fuel IH]; intros st Hf; simpl;
    destruct (mk_worklist st) as [|p w] eqn:Hw; try (by eauto);
    unfold pending in Hf; rewrite Hw in Hf; simpl in Hf; [lia|].
  destruct (mark_node_total (MarkState (mk_live st) w (mk_bps st) (mk_tables st)) p)
    as (st' & -> & Hle).
  apply IH. etrans; [exact Hle|]. unfold pending; simpl. lia.
Qed.
End TotalMark.

(** Carriers are nested less than [n] deep anywhere in the heap. *)
Definition shallow (n : nat) (h : heap) : Prop := forall v, v ∈ heap_values h -> nested h n v.

Lemma shallow_mono n m h : n <= m -> shallow n h -> shallow m h.
Proof. intros Hm Hs v Hv. eapply nested_mono; [exact Hm|auto]. Qed.

(** Blocks of [h'] are blocks of [h], or containers that have been emptied. *)
Definition emptied (o : obj) : Prop :=
  match o with
  | OStruct s => st_map s = []
  | OArray l | OScope l => l = []
  | OQuery cols => cols = []
  | _ => False
  end.

Definition shrinks (h' h : heap) : Prop :=
  forall x o, h' !! x = Some o -> h !! x = Some o \/ emptied o.

#[global] Instance shrinks_preorder : PreOrder shrinks.
Proof.
  split; [by left|]. intros h1 h2 h3 H12 H23 x o [Hx|]%H12; [|by right]. by apply H23.
Qed.

Lemma shrinks_insert h x o : emptied o -> shrinks (<[x := o]> h) h.
Proof.
  intros He y o'. destruct (decide (y = x)) as [->|]; [|rewrite lookup_insert_ne by done; by left].
  rewrite lookup_insert_eq. intros [= <-]. by right.
Qed.

Lemma clear_map_shrinks h m : shrinks (clear_map h m) h.
Proof. unfold clear_map. destruct (h !! m) as [[]|]; try done. by apply shrinks_insert. Qed.

Lemma clear_shrinks lk h p : shrinks (clear lk h p) h.
Proof.
  unfold clear. destruct (h !! p) as [[]|]; try done.
  - apply clear_map_shrinks.
  - by apply shrinks_insert.
  - by apply shrinks_insert.
  - case_bool_decide; [done|]. by apply shrinks_insert.
  - case_bool_decide; [done|]. simpl. etrans; apply clear_map_shrinks.
Qed.

Lemma clear_all_shrinks lk dead h : shrinks (fold_left (clear lk) dead h) h.
Proof.
  revert h; induction dead as [|p dead IH]; intros h; simpl; [done|].
  etrans; [apply IH|apply clear_shrinks].
Qed.

Lemma release_shrinks roots h : shrinks (release roots h) h.
Proof.
  unfold release. generalize (size h) as k. intros k. revert h.
  induction k as [|k IH]; intros h; simpl; [done|]. etrans; [apply IH|].
  intros x o Ho%release_step_sub. by left.
Qed.

Section Shrinking.
Context (h' h : heap) (Hs : shrinks h' h).

Lemma shrinks_struct x : struct_values h' x ⊆ struct_values h x.
Proof.
  intros v Hv. unfold struct_values in *. destruct (h' !! x) as [[]|] eqn:Hx;
    try (by apply elem_of_nil in Hv).
  destruct (Hs _ _ Hx) as [->|E]; [done|]. simpl in E. rewrite E in Hv. by apply elem_of_nil in Hv.
Qed.

Lemma shrinks_table x : table_values h' x ⊆ table_values h x.
Proof.
  intros v Hv. unfold table_values in *. destruct (h' !! x) as [[]|] eqn:Hx;
    try (by apply elem_of_nil in Hv). by destruct (Hs _ _ Hx) as [->|E].
Qed.

Lemma shrinks_walk x : walk_values h' ∅ x ⊆ walk_values h ∅ x.
Proof.
  intros v Hv. unfold walk_values in *. destruct (h' !! x) as [o|] eqn:Hx;
    [|by apply elem_of_nil in Hv].
  destruct (Hs _ _ Hx) as [->|E]; [done|exfalso].
  destruct o; simpl in E; try done; try rewrite E in Hv; try (by apply elem_of_nil in Hv).
Qed.

Lemma shrinks_blueprint x : blueprint_values h' ∅ x ⊆ blueprint_values h ∅ x.
Proof.
  intros v Hv. unfold blueprint_values in *.
  destruct (h' !! x) as [[| | | | | | | |bp|]|] eqn:Hx; try (by apply elem_of_nil in Hv).
  destruct (Hs _ _ Hx) as [->|E]; [|done].
  pose proof (shrinks_table (bp_method_values bp)) as Ht.
  rewrite !elem_of_cons, !elem_of_app in Hv |- *. destruct Hv as [|[|[|]]]; auto.
Qed.

Lemma shrinks_values : heap_values h' ⊆ heap_values h.
Proof.
  intros v (x & _ & Hv)%elem_of_flat_map.
  rewrite !elem_of_app in Hv. destruct Hv as [Hv|[Hv|Hv]].
  - by eapply heap_values_walk, shrinks_walk.
  - by eapply heap_values_struct, shrinks_struct.
  - by eapply heap_values_bp, shrinks_blueprint.
Qed.

Lemma shrinks_steps v : steps_to h' v ⊆ steps_to h v.
Proof.
  intros w Hw. destruct v; cbn [steps_to] in *; try done;
    destruct (h' !! p) as [[]|] eqn:Hx; try (by apply elem_of_nil in Hw);
    by destruct (Hs _ _ Hx) as [->|E].
Qed.

Lemma shrinks_nested n v : nested h n v -> nested h' n v.
Proof.
  revert v; induction n as [|n IH]; intros v; simpl; [done|].
  intros Hn w Hw%shrinks_steps. auto.
Qed.

Lemma shrinks_shallow n : shallow n h -> shallow n h'.
Proof. intros Hd v Hv%shrinks_values. apply shrinks_nested. auto. Qed.
End Shrinking.

(** With a recursion depth above the nesting of the heap a pass returns. *)
Lemma live_set_some h roots lc lm n nodes :
  shallow n h -> is_Some (live_set h roots (list_to_set nodes) lc lm n nodes).
Proof.
  intros deep. unfold live_set.
  destruct (internal_some h (list_to_set nodes) n deep lc nodes) as [internal ->].
  destruct (foldM_total nodes (mark_blueprint h (list_to_set nodes) lm n)
    (List.filter (fun b => 0 <? bp_external h roots lc nodes b) (blueprints h lc nodes))
    (mark_roots h roots internal nodes)
    (mark_blueprint_total h nodes n lm deep)) as (st & -> & Hle).
  destruct (mark_loop_total h nodes n lm deep (S (length nodes)) st) as [st' ->]; [|by eexists].
  etrans; [exact Hle|]. unfold mark_roots. etrans; [apply pending_children|].
  - intros c Hc. apply list_elem_of_In, filter_In in Hc as [Hc _]. by apply list_elem_of_In.
  - unfold pending; simpl. etrans; [apply filter_length_le|]. lia.
Qed.

Lemma pass_returns n env roots h log :
  n <= pe_fuel env -> shallow n h ->
  exists r, collect_from_log_carrying env roots h log = Some r /\ shallow n (pr_heap r).
Proof.
  intros Hn Hd. pose proof (shallow_mono _ _ _ Hn Hd) as Hd'.
  unfold collect_from_log_carrying, clear_dead.
  destruct (live_set_some h roots (pe_count env) (pe_mark env) _ (survivors h log) Hd') as [live ->].
  eexists; split; [done|]. cbn [pr_heap].
  eapply shrinks_shallow; [|exact Hd]. etrans; [apply release_shrinks|apply clear_all_shrinks].
Qed.

(** C26. Termination: if every function, query column and native object holds
    only such objects of a lower rank, then there is a recursion depth that is
    enough for every pass over the heap: with it the pass returns whatever the
    log, the owners outside and the locks, the mark loop needing no more rounds
    than there are survivors, and the same depth is enough for the passes that
    follow on the heap it leaves. *)
Theorem collect_returns h rank :
  carriers_ranked h rank ->
  exists n, shallow n h
    /\ forall h', shallow n h' -> forall env roots log, n <= pe_fuel env ->
         exists r, collect_from_log_carrying env roots h' log = Some r /\ shallow n (pr_heap r).
Proof.
  intros [n Hn]%heap_values_nested. exists n. split; [exact Hn|].
  intros h' Hh' env roots log Hle. by apply pass_returns.
Qed.

(** ** Native objects that hold themselves *)

(** A future completed with itself: the native object (1) reports itself. *)
Definition self_native_heap : heap :=
  {[ 1%N := ONative [GNativeObject 1] []; 2%N := plain_struct [GNativeObject 1] ]}.

(** A native object reachable from itself through values that are not
    containers makes the walk recurse without end. *)
Lemma self_native_diverges l n : classify self_native_heap {[2%N]} l n (GNativeObject 1) = None
  \/ 1%N ∈ l.
Proof.
  destruct (decide (1%N ∈ l)) as [|Hl]; [by right|left].
  induction n as [|n IH]; [done|]. cbn [classify]. rewrite bool_decide_false by done.
  change (self_native_heap !! 1%N) with (Some (ONative [GNativeObject 1] [])). simpl.
  by rewrite IH.
Qed.
