(* ===== verification/GcState.v ===== *)
(** * GcState: the collector between passes

    The logs and budgets of [cycle_gc.rs]: the allocation log of a request
    thread and its old generation, the survivors carried across requests, the
    logs deferred behind running threads, the displacement sweep, and the walk
    that re-enters a displaced graph ([relog_cycle_nodes] of [dynamic.rs]).

    A logged allocation is a [Weak] handle: the address of a block and nothing
    that keeps it alive.  The buffers' spare capacity, the counters of the
    debug panel and the diagnostics are left out. *)

From stdpp Require Import base list numbers gmap sets option.
From S2P Require Import Prelude GcHeap GcPass.
Local Open Scope N_scope.

Definition usize_max : N := 2 ^ 64 - 1.

Definition len (l : list addr) : N := N.of_nat (length l).

(** [saturating_mul(2)], [saturating_add] *)
Definition saturating_double (n : N) : N := N.min (2 * n) usize_max.
Definition saturating_add (n m : N) : N := N.min (n + m) usize_max.

(** ** Settings, read once from the environment *)

Record gc_config := GcConfig {
  gc_armed : bool;
  log_cap : N;
  incremental_threshold : N;
  persistent_base : N;
  persistent_always : bool;
  displace_sweep_min : N;
  relog_budget : N
}.

(** The defaults of the server. *)
Definition gc_defaults : gc_config :=
  GcConfig true 4000000 100000 50000 false 1000 20000.

Definition PRUNE_STEP : N := 10000.
Definition DISPLACE_RETRY_SECS : N := 5.
Definition DISPLACE_MAX_ATTEMPTS : N := 6.

(** ** The log of a request thread *)

Record thread_log := ThreadLog {
  alloc_log : option (list addr);
  alloc_total : N;
  old_log : list addr;
  old_set : gset addr;
  next_major : N;
  next_sweep : N;
  log_paused : bool;
  relog_seen : gset addr
}.

Definition initial_thread : thread_log :=
  ThreadLog None 0 [] ∅ usize_max usize_max false ∅.

Section Config.
Context (cfg : gc_config).

Definition enable (th : thread_log) : thread_log :=
  ThreadLog (Some []) 0 [] ∅ (incremental_threshold cfg) (incremental_threshold cfg) false ∅.

Definition disable_and_clear (th : thread_log) : thread_log :=
  ThreadLog None (alloc_total th) [] ∅ (next_major th) (next_sweep th) (log_paused th)
    (relog_seen th).

(** Both generations, the old one first; the thread stops logging. *)
Definition take_full_log (th : thread_log) : option (list addr) * thread_log :=
  match alloc_log th with
  | None => (None, th)
  | Some young =>
      (Some (old_log th ++ young),
       ThreadLog None (alloc_total th) [] ∅ (next_major th) (next_sweep th) (log_paused th)
         (relog_seen th))
  end.

(** [Weak::strong_count() > 0] *)
Definition is_alive (h : heap) (p : addr) : bool := is_node h p.

(** Keep one entry per distinct live node, in order. *)
Definition compact_log (h : heap) (v : list addr) : list addr :=
  distinct ∅ (List.filter (is_alive h) v).

Definition set_log (th : thread_log) (v : list addr) : thread_log :=
  ThreadLog (Some v) (alloc_total th) (old_log th) (old_set th) (next_major th) (next_sweep th)
    (log_paused th) (relog_seen th).

Definition pause (th : thread_log) : thread_log :=
  ThreadLog (alloc_log th) (alloc_total th) (old_log th) (old_set th) (next_major th)
    (next_sweep th) true (relog_seen th).

Definition bump_total (th : thread_log) : thread_log :=
  ThreadLog (alloc_log th) ((alloc_total th + 1) mod 2 ^ 64) (old_log th) (old_set th)
    (next_major th) (next_sweep th) (log_paused th) (relog_seen th).

Definition log_push (h : heap) (p : addr) (th : thread_log) : thread_log :=
  let th := bump_total th in
  match alloc_log th with
  | None => th
  | Some v =>
      if log_paused th then th
      else if log_cap cfg <=? len v
      then let v := compact_log h v in
           if log_cap cfg / 4 * 3 <=? len v then pause (set_log th v)
           else set_log th (v ++ [p])
      else set_log th (v ++ [p])
  end.

(** [log_struct], [log_array], [log_query], [log_scope], [log_instance] *)
Definition log_node (h : heap) (p : addr) (th : thread_log) : thread_log :=
  if gc_armed cfg then log_push h p th else th.

(** Whether [p] is entered for the first time since the last sweep. *)
Definition relog_first_sight (p : addr) (th : thread_log) : bool * thread_log :=
  (negb (bool_decide (p ∈ relog_seen th)),
   ThreadLog (alloc_log th) (alloc_total th) (old_log th) (old_set th) (next_major th)
     (next_sweep th) (log_paused th) ({[p]} ∪ relog_seen th)).

Definition clear_relog_seen (th : thread_log) : thread_log :=
  ThreadLog (alloc_log th) (alloc_total th) (old_log th) (old_set th) (next_major th)
    (next_sweep th) (log_paused th) ∅.

(** [if set.insert(p) { v.push(t) }] *)
Definition insert_entry (acc : list addr * gset addr) (p : addr) : list addr * gset addr :=
  if bool_decide (p ∈ acc.2) then acc else (acc.1 ++ [p], {[p]} ∪ acc.2).

Definition insert_entries (v : list addr) (seen : gset addr) (ps : list addr)
    : list addr * gset addr :=
  fold_left insert_entry ps (v, seen).

(** ** Mid-request sweeps *)

(** A pass, with the owners, locks and depth of the moment it runs. *)
Context (pass : heap -> list addr -> option pass_result).

(** Drop the dead entries of an old generation that has reached its budget. *)
Definition prune_old (h : heap) (budget : N) (old : list addr) (seen : gset addr)
    : list addr * gset addr :=
  if budget <=? len old
  then let old := List.filter (is_alive h) old in (old, list_to_set old)
  else (old, seen).

Definition collect_incremental (h : heap) (th : thread_log)
    : option (nat * heap * thread_log) :=
  let base := incremental_threshold cfg in
  if base =? 0 then Some (0%nat, h, th)
  else
    let budget := if next_sweep th =? usize_max then base else next_sweep th in
    match alloc_log th with
    | Some young =>
        if budget <=? len young then
          let major_at := if next_major th =? usize_max then base else next_major th in
          let '(old, seen) := prune_old h major_at (old_log th) (old_set th) in
          let major := major_at <=? len old in
          let '(log, old, seen) := if major then (old ++ young, [], ∅) else (young, old, seen) in
          match pass h log with
          | None => None
          | Some r =>
              let '(old, seen) := insert_entries old seen (pr_carry r) in
              let next := if major
                          then N.min (N.max base (saturating_double (len old))) (log_cap cfg)
                          else next_major th in
              Some (pr_collected r, pr_heap r,
                    ThreadLog (Some []) (alloc_total th) old seen next base (log_paused th) ∅)
          end
        else Some (0%nat, h, th)
    | None => Some (0%nat, h, th)
    end.

(** ** The survivors carried across requests *)

Record persistent_set := PersistentSet {
  ps_entries : list addr;
  ps_seen : gset addr;
  ps_next_sweep : N;
  ps_pruned_at : N
}.

(** A log deferred behind the threads that gate it. *)
Record deferred_entry := DeferredEntry {
  de_log : list addr;
  de_joins : list N
}.

Record gc_global := GcGlobal {
  persistent : option persistent_set;
  deferred : list deferred_entry;
  displaced_pending : bool;
  displace_attempts : N;
  displace_size : N;
  displace_last_ms : N;
  running_bodies : N
}.

Definition initial_global : gc_global := GcGlobal None [] false 0 0 0 0.

Definition set_persistent (g : gc_global) (p : persistent_set) : gc_global :=
  GcGlobal (Some p) (deferred g) (displaced_pending g) (displace_attempts g) (displace_size g)
    (displace_last_ms g) (running_bodies g).

Definition set_deferred (g : gc_global) (d : list deferred_entry) : gc_global :=
  GcGlobal (persistent g) d (displaced_pending g) (displace_attempts g) (displace_size g)
    (displace_last_ms g) (running_bodies g).

Definition empty_set : persistent_set := PersistentSet [] ∅ (persistent_base cfg) 0.

(** [get_or_insert_with] *)
Definition get_persistent (g : gc_global) : persistent_set :=
  match persistent g with Some p => p | None => empty_set end.

(** Drop the entries whose node is gone; [seen] is rebuilt. *)
Definition prune_dead_entries (h : heap) (p : persistent_set) : persistent_set :=
  let entries := List.filter (is_alive h) (ps_entries p) in
  PersistentSet entries (list_to_set entries) (ps_next_sweep p) (len entries).

(** Take the whole set out. *)
Definition drained (p : persistent_set) : persistent_set :=
  PersistentSet [] ∅ (ps_next_sweep p) (ps_pruned_at p).

Definition sweep_entries (h : heap) (entries : list addr) (g : gc_global)
    : option (nat * heap * gc_global) :=
  match pass h entries with
  | None => None
  | Some r =>
      let p := get_persistent g in
      let '(es, seen) := insert_entries (ps_entries p) (ps_seen p) (pr_carry r) in
      Some (pr_collected r, pr_heap r,
            set_persistent g
              (PersistentSet es seen
                 (N.max (persistent_base cfg) (saturating_double (len (pr_carry r)))) (len es)))
  end.

Definition carry_survivors (h : heap) (live : list addr) (g : gc_global)
    : option (nat * heap * gc_global) :=
  if persistent_base cfg =? 0 then Some (0%nat, h, g)
  else
    let p := get_persistent g in
    let '(es, seen) := insert_entries (ps_entries p) (ps_seen p) live in
    let p := PersistentSet es seen (ps_next_sweep p) (ps_pruned_at p) in
    if persistent_always cfg || (ps_next_sweep p <=? len es)
    then sweep_entries h es (set_persistent g (drained p))
    else Some (0%nat, h,
               set_persistent g
                 (if saturating_add (ps_pruned_at p) PRUNE_STEP <=? len es
                  then prune_dead_entries h p else p)).

Definition sweep_persistent (h : heap) (g : gc_global) : option (nat * heap * gc_global) :=
  if persistent_base cfg =? 0 then Some (0%nat, h, g)
  else match persistent g with
       | Some p =>
           match ps_entries p with
           | [] => Some (0%nat, h, g)
           | es => sweep_entries h es (set_persistent g (drained p))
           end
       | None => Some (0%nat, h, g)
       end.

(** Request end: collect everything logged, carry the survivors. *)
Definition collect (h : heap) (th : thread_log) (g : gc_global)
    : option (nat * heap * thread_log * gc_global) :=
  match take_full_log th with
  | (None, th) => Some (0%nat, h, th, g)
  | (Some log, th) =>
      match pass h log with
      | None => None
      | Some r =>
          match carry_survivors (pr_heap r) (pr_carry r) g with
          | None => None
          | Some (n, h, g) => Some ((pr_collected r + n)%nat, h, clear_relog_seen th, g)
          end
      end
  end.

(** ** Deferred logs *)

Definition defer_current_log (joins : list N) (th : thread_log) (g : gc_global)
    : thread_log * gc_global :=
  match take_full_log th with
  | (Some (p :: log), th) =>
      match joins with
      | [] => (th, g)
      | _ => (th, set_deferred g (deferred g ++ [DeferredEntry (p :: log) joins]))
      end
  | (_, th) => (th, g)
  end.

(** [swap_remove(i)]: the last entry takes the place of the removed one. *)
Definition swap_remove {A} (i : nat) (l : list A) : list A :=
  match l !! (length l - 1)%nat with
  | Some x => take (length l - 1) (<[i := x]> l)
  | None => l
  end.

(** Move out the entries whose threads are all done. *)
Fixpoint take_ready (fuel i : nat) (finished : N -> bool) (q ready : list deferred_entry)
    : list deferred_entry * list deferred_entry :=
  match fuel with
  | 0%nat => (q, ready)
  | S fuel =>
      match q !! i with
      | None => (q, ready)
      | Some e =>
          if forallb finished (de_joins e)
          then take_ready fuel i finished (swap_remove i q) (ready ++ [e])
          else take_ready fuel (S i) finished q ready
      end
  end.

Fixpoint collect_all (h : heap) (es : list deferred_entry) : option (nat * heap) :=
  match es with
  | [] => Some (0%nat, h)
  | e :: es =>
      match pass h (de_log e) with
      | None => None
      | Some r =>
          match collect_all (pr_heap r) es with
          | Some (n, h) => Some ((pr_collected r + n)%nat, h)
          | None => None
          end
      end
  end.

Definition collect_ready_deferred (finished : N -> bool) (h : heap) (g : gc_global)
    : option (nat * heap * gc_global) :=
  let '(q, ready) := take_ready (length (deferred g)) 0 finished (deferred g) [] in
  match collect_all h ready with
  | Some (n, h) => Some (n, h, set_deferred g q)
  | None => None
  end.

(** ** Displacement *)

Definition note_displacement (nodes : N) (g : gc_global) : gc_global :=
  let min := displace_sweep_min cfg in
  if (0 <? min) && (min <=? nodes) && negb (displaced_pending g)
  then GcGlobal (persistent g) (deferred g) true 0 nodes (displace_last_ms g) (running_bodies g)
  else if (0 <? min) && (min <=? nodes)
  then GcGlobal (persistent g) (deferred g) true (displace_attempts g) (displace_size g)
         (displace_last_ms g) (running_bodies g)
  else g.

Definition body_started (g : gc_global) : gc_global :=
  GcGlobal (persistent g) (deferred g) (displaced_pending g) (displace_attempts g)
    (displace_size g) (displace_last_ms g) ((running_bodies g + 1) mod 2 ^ 64).

(** The pending sweep, at time [now]. *)
Definition sweep_if_displaced (now : N) (h : heap) (g : gc_global)
    : option (nat * heap * gc_global) :=
  if negb (displaced_pending g) then Some (0%nat, h, g)
  else
    let attempts := displace_attempts g in
    if (0 <? attempts) && (now - displace_last_ms g <? DISPLACE_RETRY_SECS * 1000)
    then Some (0%nat, h, g)
    else
      let g := GcGlobal (persistent g) (deferred g) (displaced_pending g) (attempts + 1)
                 (displace_size g) now (running_bodies g) in
      match sweep_persistent h g with
      | None => None
      | Some (n, h, g) =>
          let target := N.max (displace_sweep_min cfg) (displace_size g / 2) in
          let finished := (target <=? N.of_nat n) || (DISPLACE_MAX_ATTEMPTS <=? attempts + 1) in
          Some (n, h,
                if finished
                then GcGlobal (persistent g) (deferred g) false (displace_attempts g)
                       (displace_size g) (displace_last_ms g) (running_bodies g)
                else g)
      end.

Definition body_finished (now : N) (h : heap) (g : gc_global) : option (nat * heap * gc_global) :=
  sweep_if_displaced now h
    (GcGlobal (persistent g) (deferred g) (displaced_pending g) (displace_attempts g)
       (displace_size g) (displace_last_ms g) ((running_bodies g + 2 ^ 64 - 1) mod 2 ^ 64)).

(** ** Re-entering a displaced graph *)

Record relog_state := RelogState {
  rl_thread : thread_log;
  rl_budget : N;
  rl_entered : N;
  rl_stack : list gval
}.

(** Push the children, the last one on top. *)
Definition push_values (vs : list gval) (st : relog_state) : relog_state :=
  RelogState (rl_thread st) (rl_budget st) (rl_entered st) (rev_append vs (rl_stack st)).

(** [budget -= 1] wraps in a release build. *)
Definition enter_node (h : heap) (p : addr) (children : list gval) (st : relog_state)
    : relog_state :=
  match relog_first_sight p (rl_thread st) with
  | (true, th) =>
      push_values children
        (RelogState (log_node h p th) ((rl_budget st + 2 ^ 64 - 1) mod 2 ^ 64)
           (rl_entered st + 1) (rl_stack st))
  | (false, th) => RelogState th (rl_budget st) (rl_entered st) (rl_stack st)
  end.

Definition array_values (h : heap) (p : addr) : list gval :=
  match h !! p with Some (OArray vs) => vs | _ => [] end.

Definition query_values (h : heap) (p : addr) : list gval :=
  match h !! p with Some (OQuery cols) => flat_map (column_values h) cols | _ => [] end.

(** The scope's values, unless its lock is poisoned. *)
Definition scope_values (h : heap) (l : gset addr) (p : addr) : list gval :=
  match h !! p with
  | Some (OScope vs) => if bool_decide (p ∈ l) then [] else vs
  | _ => []
  end.

(** Both data maps of an instance whose lock is free. *)
Definition instance_values (h : heap) (l : gset addr) (p : addr) : list gval :=
  match read_instance h l p with
  | Some i => flat_map (struct_values h) (instance_maps i)
  | None => []
  end.

Definition enter_scope (h : heap) (l : gset addr) (f : cfml_function gval) (st : relog_state)
    : relog_state :=
  match fn_captured_scope f with
  | Some sc => enter_node h sc (scope_values h l sc) st
  | None => st
  end.

(** The body of the walk for one value. *)
Definition relog_value (h : heap) (l : gset addr) (v : gval) (st : relog_state) : relog_state :=
  match v with
  | GStruct p => enter_node h p (struct_values h p) st
  | GArray p => enter_node h p (array_values h p) st
  | GInstance p => enter_node h p (instance_values h l p) st
  | GQuery p => enter_node h p (query_values h p) st
  | GFunction p =>
      match h !! p with Some (OFunction f) => enter_scope h l f st | _ => st end
  | GComponent props ms => fold_left (fun st f => enter_scope h l f st) ms (push_values props st)
  | GClosure vars _ => push_values vars st
  | GQueryColumn p _ => push_values (column_values h p) st
  | GScalar | GNativeObject _ => st
  end.

(** [while let Some(v) = stack.pop()]; the walk stops when the budget is 0. *)
Fixpoint relog_loop (h : heap) (l : gset addr) (fuel : nat) (st : relog_state)
    : option relog_state :=
  match rl_stack st with
  | [] => Some st
  | v :: stack =>
      if rl_budget st =? 0 then Some st
      else match fuel with
           | 0%nat => None
           | S fuel =>
               relog_loop h l fuel
                 (relog_value h l v (RelogState (rl_thread st) (rl_budget st) (rl_entered st) stack))
           end
  end.

Definition relog_cycle_nodes (h : heap) (l : gset addr) (fuel : nat) (v : gval)
    (th : thread_log) (g : gc_global) : option (thread_log * gc_global) :=
  if negb (gc_armed cfg) then Some (th, g)
  else match relog_loop h l fuel (RelogState th (relog_budget cfg) 0 [v]) with
       | Some st => Some (rl_thread st, note_displacement (rl_entered st) g)
       | None => None
       end.
End Config.
