(* ===== verification/GcStateFacts.v ===== *)
(** * GcStateFacts: the collector's bookkeeping

    What the logs promise between passes: each tracked container is listed
    once, logs stay within their cap, survivors stay tracked, deferred logs are
    collected once their threads have finished, and a displacement sweep gives
    up after a bounded number of attempts.  The theorems are proved against the
    interface [PassSpec]; [collect_from_log_carrying] implements it. *)

From stdpp Require Import base list numbers gmap sets option relations.
From S2P Require Import Prelude GcHeap GcPass GcPassFacts GcSafety GcReclaim GcState.
Local Open Scope N_scope.

(** ** What the bookkeeping needs of a pass *)

(** The survivors of a log are carried or collected, each once. *)
Class PassSpec (pass : heap -> list addr -> option pass_result) : Prop := {
  pass_carry_NoDup : forall h log r, pass h log = Some r -> NoDup (pr_carry r);
  pass_carry_survivor : forall h log r p, pass h log = Some r -> p ∈ pr_carry r ->
    p ∈ survivors h log;
  pass_split : forall h log r, pass h log = Some r ->
    (pr_collected r + length (pr_carry r) = length (survivors h log))%nat
}.

Lemma filter_split {A} (f : A -> bool) (l : list A) :
  (length (List.filter (fun x => negb (f x)) l) + length (List.filter f l) = length l)%nat.
Proof. induction l as [|x l IH]; simpl; [done|]. destruct (f x); simpl; lia. Qed.

#[global] Instance collect_pass_spec env roots :
  PassSpec (collect_from_log_carrying env roots).
Proof.
  assert (inv : forall h log r, collect_from_log_carrying env roots h log = Some r ->
    exists live : gset addr,
      pr_carry r = List.filter (fun p => bool_decide (p ∈ live)) (survivors h log)
      /\ pr_collected r = length (dead_nodes live (survivors h log))).
  { intros h log r. unfold collect_from_log_carrying, clear_dead.
    destruct (live_set _ _ _ _ _ _ _) as [live|]; [|done]. intros [= <-]. by exists live. }
  split; intros h log r.
  - intros (live & -> & _)%inv.
    apply NoDup_ListNoDup, List.NoDup_filter, NoDup_ListNoDup, distinct_NoDup.
  - intros p (live & -> & _)%inv Hp. apply list_elem_of_In, filter_In in Hp as [Hp _].
    by apply list_elem_of_In.
  - intros (live & -> & ->)%inv. apply (filter_split (fun p => bool_decide (p ∈ live))).
Qed.

(** On the heaps [P] describes a pass returns, and leaves such a heap. *)
Class PassTotal (P : heap -> Prop) (pass : heap -> list addr -> option pass_result) : Prop :=
  pass_total : forall h log, P h -> exists r, pass h log = Some r /\ P (pr_heap r).

#[global] Instance collect_pass_total env roots :
  PassTotal (shallow (pe_fuel env)) (collect_from_log_carrying env roots).
Proof. intros h log Hd. by apply pass_returns. Qed.

(** ** Entry lists without repetition *)

(** A list of entries and the set of their addresses. *)
Definition indexed (v : list addr) (seen : gset addr) : Prop :=
  NoDup v /\ seen = list_to_set v.

Lemma indexed_nil : indexed [] ∅.
Proof. split; [constructor|done]. Qed.

Lemma insert_entries_spec v seen ps v' seen' :
  insert_entries v seen ps = (v', seen') -> indexed v seen ->
  indexed v' seen' /\ (forall p, p ∈ v' <-> p ∈ v \/ p ∈ ps).
Proof.
  unfold insert_entries. revert v seen. induction ps as [|q ps IH]; intros v seen; simpl.
  - intros [= <- <-]. set_solver.
  - unfold insert_entry at 2. simpl. case_bool_decide as Hq; intros He [Hnd Hs].
    + destruct (IH _ _ He) as [Hi Hp]; [done|]. split; [done|]. intros p. rewrite Hp.
      subst seen. apply elem_of_list_to_set in Hq. set_solver.
    + destruct (IH _ _ He) as [Hi Hp].
      { split.
        - apply NoDup_app. split_and!; [done| |apply NoDup_singleton].
          intros x Hx ->%list_elem_of_singleton. apply Hq. subst seen. by apply elem_of_list_to_set.
        - subst seen. rewrite list_to_set_app_L. simpl. set_solver. }
      split; [done|]. intros p. rewrite Hp. set_solver.
Qed.

Lemma indexed_filter h v seen : indexed v seen ->
  indexed (List.filter (is_alive h) v) (list_to_set (List.filter (is_alive h) v)).
Proof.
  intros [Hnd _]. split; [|done]. by apply NoDup_ListNoDup, List.NoDup_filter, NoDup_ListNoDup.
Qed.

Section Machine.
Context (cfg : gc_config).

(** ** One collector, many operations *)

Record gc_state := GcState {
  gs_heap : heap;
  gs_thread : thread_log;
  gs_global : gc_global
}.

(** What a thread and the server may do; the program changes the heap in any
    way in between. *)
Inductive gc_step : gc_state -> gc_state -> Prop :=
  | step_program h h' th g : gc_step (GcState h th g) (GcState h' th g)
  | step_enable h th g : gc_step (GcState h th g) (GcState h (enable cfg th) g)
  | step_disable h th g : gc_step (GcState h th g) (GcState h (disable_and_clear th) g)
  | step_log h th g p : gc_step (GcState h th g) (GcState h (log_node cfg h p th) g)
  | step_incremental pass h th g n h' th' : PassSpec pass ->
      collect_incremental cfg pass h th = Some (n, h', th') ->
      gc_step (GcState h th g) (GcState h' th' g)
  | step_collect pass h th g n h' th' g' : PassSpec pass ->
      collect cfg pass h th g = Some (n, h', th', g') ->
      gc_step (GcState h th g) (GcState h' th' g')
  | step_defer h th g joins th' g' : defer_current_log joins th g = (th', g') ->
      gc_step (GcState h th g) (GcState h th' g')
  | step_ready pass finished h th g n h' g' : PassSpec pass ->
      collect_ready_deferred pass finished h g = Some (n, h', g') ->
      gc_step (GcState h th g) (GcState h' th g')
  | step_started h th g : gc_step (GcState h th g) (GcState h th (body_started g))
  | step_finished pass now h th g n h' g' : PassSpec pass ->
      body_finished cfg pass now h g = Some (n, h', g') ->
      gc_step (GcState h th g) (GcState h' th g')
  | step_sweep pass now h th g n h' g' : PassSpec pass ->
      sweep_if_displaced cfg pass now h g = Some (n, h', g') ->
      gc_step (GcState h th g) (GcState h' th g')
  | step_relog l fuel v h th g th' g' :
      relog_cycle_nodes cfg h l fuel v th g = Some (th', g') ->
      gc_step (GcState h th g) (GcState h th' g').

(** The young log stays within its cap, the old generation lists a container
    once. *)
Definition thread_ok (th : thread_log) : Prop :=
  (forall v, alloc_log th = Some v -> len v <= log_cap cfg)
  /\ indexed (old_log th) (old_set th).

Definition set_ok (p : persistent_set) : Prop := indexed (ps_entries p) (ps_seen p).

(** So does the set carried across requests; a deferred log has something to
    collect and a thread to wait for. *)
Definition global_ok (g : gc_global) : Prop :=
  (forall p, persistent g = Some p -> set_ok p)
  /\ Forall (fun e => de_log e ≠ [] /\ de_joins e ≠ []) (deferred g).

Definition gc_ok (s : gc_state) : Prop := thread_ok (gs_thread s) /\ global_ok (gs_global s).

Lemma distinct_length seen (l : list addr) : (length (distinct seen l) <= length l)%nat.
Proof.
  revert seen; induction l as [|p l IH]; intros seen; simpl; [done|].
  case_bool_decide; simpl; [|by apply le_n_S]. etrans; [apply IH|lia].
Qed.

Lemma compact_len h v : len (compact_log h v) <= len v.
Proof.
  unfold len, compact_log. pose proof (distinct_length ∅ (List.filter (is_alive h) v)).
  pose proof (filter_length_le (is_alive h) v). lia.
Qed.

Lemma len_app v w : len (v ++ w) = len v + len w.
Proof. unfold len. rewrite length_app. lia. Qed.

Lemma log_push_ok h p th : thread_ok th -> thread_ok (log_push cfg h p th).
Proof.
  intros [Hl Ho]. unfold log_push. simpl. destruct (alloc_log th) as [v|] eqn:Hv; [|split; [simpl; by rewrite Hv|done]].
  specialize (Hl v eq_refl). 
  destruct (log_paused th); [split; [simpl; rewrite Hv; by intros ? [= <-]|done]|].
  destruct (N.leb_spec (log_cap cfg) (len v)) as [Hc|Hc].
  - pose proof (compact_len h v).
    destruct (N.leb_spec (log_cap cfg / 4 * 3) (len (compact_log h v))) as [Hd|Hd].
    + split; [|done]. simpl. intros w [= <-]. lia.
    + split; [|done]. simpl. intros w [= <-]. rewrite len_app. unfold len at 2. simpl.
      pose proof (N.mul_div_le (log_cap cfg) 4 ltac:(done)). lia.
  - split; [|done]. simpl. intros w [= <-]. rewrite len_app. unfold len at 2. simpl. lia.
Qed.

Lemma log_node_ok h p th : thread_ok th -> thread_ok (log_node cfg h p th).
Proof. unfold log_node. destruct (gc_armed cfg); [apply log_push_ok|done]. Qed.

Lemma take_full_log_ok th log th' :
  take_full_log th = (log, th') -> thread_ok th -> thread_ok th'.
Proof.
  unfold take_full_log. destruct (alloc_log th) eqn:Hl; intros [= <- <-] Hok; [|done].
  split; [done|apply indexed_nil].
Qed.

Lemma incremental_ok pass h th n h' th' :
  PassSpec pass -> collect_incremental cfg pass h th = Some (n, h', th') ->
  thread_ok th -> thread_ok th'.
Proof.
  intros Hp Hc Hok. unfold collect_incremental in Hc.
  destruct (incremental_threshold cfg =? 0); [by simplify_eq|].
  destruct (alloc_log th) as [young|] eqn:Hy; [|by simplify_eq].
  destruct (_ <=? len young); [|by simplify_eq].
  set (at_ := if next_major th =? usize_max then _ else _) in Hc.
  destruct (prune_old h at_ (old_log th) (old_set th)) as [old seen] eqn:Hpr.
  assert (Hi : indexed old seen).
  { unfold prune_old in Hpr. destruct Hok as [_ Ho]. destruct (at_ <=? len (old_log th)); simplify_eq.
    - by eapply indexed_filter.
    - done. }
  destruct (if at_ <=? len old then _ else _) as [[log old'] seen'] eqn:Hm.
  assert (Hi' : indexed old' seen').
  { destruct (at_ <=? len old); simplify_eq; [apply indexed_nil|done]. }
  destruct (pass h log) as [r|]; [|done].
  destruct (insert_entries old' seen' (pr_carry r)) as [old2 seen2] eqn:Hins.
  apply insert_entries_spec in Hins as [Hi2 _]; [|done]. simplify_eq.
  split; simpl; [|done]. intros w [= <-]. unfold len. simpl. lia.
Qed.

(** *** The carried set *)

Lemma get_persistent_ok g : global_ok g -> set_ok (get_persistent cfg g).
Proof.
  intros [Hp _]. unfold get_persistent. destruct (persistent g) eqn:E; [auto|apply indexed_nil].
Qed.

Lemma set_persistent_ok g p : global_ok g -> set_ok p -> global_ok (set_persistent g p).
Proof. intros [_ Hd] Hp. split; [by intros q [= <-]|done]. Qed.

Lemma sweep_entries_ok pass h es g n h' g' :
  sweep_entries cfg pass h es g = Some (n, h', g') -> global_ok g -> global_ok g'.
Proof.
  unfold sweep_entries. intros Hs Hok. destruct (pass h es) as [r|]; [|done].
  destruct (insert_entries _ _ _) as [es' seen'] eqn:Hi. simplify_eq.
  apply set_persistent_ok; [done|]. by eapply insert_entries_spec, get_persistent_ok.
Qed.

Lemma sweep_persistent_ok pass h g n h' g' :
  sweep_persistent cfg pass h g = Some (n, h', g') -> global_ok g -> global_ok g'.
Proof.
  unfold sweep_persistent. intros Hs Hok. destruct (persistent_base cfg =? 0); [by simplify_eq|].
  destruct (persistent g) as [p|] eqn:Hp; [|by simplify_eq].
  destruct (ps_entries p); [by simplify_eq|].
  eapply sweep_entries_ok; [done|]. apply set_persistent_ok; [done|apply indexed_nil].
Qed.

Lemma carry_survivors_ok pass h live g n h' g' :
  carry_survivors cfg pass h live g = Some (n, h', g') -> global_ok g -> global_ok g'.
Proof.
  unfold carry_survivors. intros Hs Hok. destruct (persistent_base cfg =? 0); [by simplify_eq|].
  destruct (insert_entries _ _ _) as [es seen] eqn:Hi.
  apply insert_entries_spec in Hi as [Hi _]; [|by apply get_persistent_ok]. simpl in Hs.
  destruct (_ || _).
  - eapply sweep_entries_ok; [done|]. apply set_persistent_ok; [done|apply indexed_nil].
  - simplify_eq. apply set_persistent_ok; [done|]. case_match; [by eapply indexed_filter|done].
Qed.

Lemma sweep_displaced_ok pass now h g n h' g' :
  sweep_if_displaced cfg pass now h g = Some (n, h', g') -> global_ok g -> global_ok g'.
Proof.
  unfold sweep_if_displaced. intros Hs Hok. destruct (negb _); [by simplify_eq|].
  destruct (_ && _); [by simplify_eq|].
  destruct (sweep_persistent _ _ _ _) as [[[k h1] g1]|] eqn:Hsp; [|done]. simplify_eq.
  apply sweep_persistent_ok in Hsp; [|done]. by case_match.
Qed.

(** *** Deferred logs *)

Lemma swap_remove_perm {A} (l : list A) i x : l !! i = Some x -> l ≡ₚ x :: swap_remove i l.
Proof.
  intros Hi. destruct (exists_last (l := l)) as (l' & y & ->); [by intros ->|].
  unfold swap_remove. rewrite length_app. simpl. rewrite Nat.add_sub.
  rewrite lookup_app_r by lia. rewrite Nat.sub_diag. simpl.
  destruct (decide (i < length l')%nat) as [Hlt|Hge].
  - rewrite lookup_app_l in Hi by done. rewrite insert_app_l by done.
    rewrite take_app_length' by (by rewrite length_insert).
    rewrite insert_take_drop by done. rewrite <- (take_drop_middle l' i x Hi) at 1.
    rewrite <- app_assoc. simpl. rewrite <- !Permutation_middle.
    by rewrite app_nil_r.
  - pose proof (lookup_lt_Some _ _ _ Hi) as Hlt. rewrite length_app in Hlt. simpl in Hlt.
    assert (i = length l') as -> by lia.
    rewrite lookup_app_r, Nat.sub_diag in Hi by lia. simplify_eq/=.
    rewrite insert_app_r_alt, Nat.sub_diag by lia. simpl. rewrite take_app_length.
    by rewrite (Permutation_app_comm _ [x]).
Qed.

(** The scan of the queue moves out exactly the entries that are ready. *)
Lemma take_ready_spec finished fuel i q ready q' ready' :
  take_ready fuel i finished q ready = (q', ready') ->
  (length q <= i + fuel)%nat ->
  Forall (fun e => forallb finished (de_joins e) = false) (take i q) ->
  Forall (fun e => forallb finished (de_joins e) = true) ready ->
  q' ++ ready' ≡ₚ q ++ ready
  /\ Forall (fun e => forallb finished (de_joins e) = false) q'
  /\ Forall (fun e => forallb finished (de_joins e) = true) ready'.
Proof.
  revert i q ready. induction fuel as [|fuel IH]; intros i q ready; simpl; intros Ht Hl Hq Hr.
  - simplify_eq. rewrite take_ge in Hq by lia. done.
  - destruct (q !! i) as [e|] eqn:He.
    2: { simplify_eq. apply lookup_ge_None in He. rewrite take_ge in Hq by lia. done. }
    pose proof (lookup_lt_Some _ _ _ He) as Hlt.
    destruct (forallb finished (de_joins e)) eqn:Hf.
    + pose proof (swap_remove_perm q i e He) as Hp.
      destruct (IH _ _ _ Ht) as (H1 & H2 & H3).
      * apply Permutation_length in Hp. simpl in Hp. lia.
      * unfold swap_remove. destruct (q !! (length q - 1)%nat) as [y|] eqn:Hy; [|done].
        rewrite take_take, Nat.min_l, take_insert_ge by lia. done.
      * apply Forall_app. split; [done|]. by constructor.
      * split_and!; [|done..]. rewrite H1. symmetry.
        etrans; [apply Permutation_app; [exact Hp|reflexivity]|].
        rewrite app_assoc, (Permutation_app_comm _ [e]). done.
    + apply (IH _ _ _ Ht); [lia| |done]. rewrite (take_S_r _ _ _ He).
      apply Forall_app. split; [done|]. by constructor.
Qed.

Lemma collect_ready_ok pass finished h g n h' g' :
  collect_ready_deferred pass finished h g = Some (n, h', g') -> global_ok g -> global_ok g'.
Proof.
  unfold collect_ready_deferred. intros Hc [Hp Hd].
  destruct (take_ready _ _ _ _ _) as [q ready] eqn:Ht.
  apply take_ready_spec in Ht as (Hperm & _); [|simpl; lia|constructor|constructor].
  destruct (collect_all pass h ready) as [[k h1]|]; [|done]. simplify_eq.
  split; [done|]. simpl. rewrite app_nil_r in Hperm. rewrite <- Hperm in Hd.
  by apply Forall_app in Hd as [? _].
Qed.

Lemma defer_ok joins th g th' g' :
  defer_current_log joins th g = (th', g') -> thread_ok th -> global_ok g ->
  thread_ok th' /\ global_ok g'.
Proof.
  unfold defer_current_log. intros Hd Hth [Hp Hq].
  destruct (take_full_log th) as [log th1] eqn:Ht. pose proof (take_full_log_ok _ _ _ Ht Hth).
  destruct log as [[|p log]|]; simplify_eq; [done| |done].
  destruct joins as [|j joins]; simplify_eq; [done|]. split; [done|]. split; [done|].
  simpl. apply Forall_app. split; [done|]. by constructor.
Qed.

(** *** Displaced graphs *)

Lemma enter_node_ok h p vs st : thread_ok (rl_thread st) -> thread_ok (rl_thread (enter_node cfg h p vs st)).
Proof.
  intros Hok. unfold enter_node, relog_first_sight. simpl.
  destruct (negb _); simpl; [apply log_node_ok|]; done.
Qed.

Lemma enter_scope_ok h l f st :
  thread_ok (rl_thread st) -> thread_ok (rl_thread (enter_scope cfg h l f st)).
Proof. intros Hok. unfold enter_scope. case_match; [by apply enter_node_ok|done]. Qed.

Lemma relog_value_ok h l v st :
  thread_ok (rl_thread st) -> thread_ok (rl_thread (relog_value cfg h l v st)).
Proof.
  intros Hok. destruct v; simpl; try (by apply enter_node_ok); try done.
  - assert (H : thread_ok (rl_thread (push_values properties st))) by done.
    revert H. generalize (push_values properties st) as s.
    induction methods as [|f ms IH]; intros s Hs; simpl; [done|]. by apply IH, enter_scope_ok.
  - case_match; [|done]. case_match; try done. by apply enter_scope_ok.
Qed.

Lemma relog_loop_ok h l fuel st st' :
  relog_loop cfg h l fuel st = Some st' -> thread_ok (rl_thread st) -> thread_ok (rl_thread st').
Proof.
  revert st; induction fuel as [|fuel IH]; intros st Hl Hok; simpl in Hl;
    destruct (rl_stack st); simplify_eq; try done;
    destruct (rl_budget st =? 0); simplify_eq; try done.
  eapply IH; [done|]. by apply relog_value_ok.
Qed.

Lemma note_displacement_ok n g : global_ok g -> global_ok (note_displacement cfg n g).
Proof. intros [Hp Hd]. unfold note_displacement. repeat case_match; done. Qed.

Lemma gc_step_ok s s' : gc_step s s' -> gc_ok s -> gc_ok s'.
Proof.
  intros Hs [Ht Hg]. split; destruct Hs; simpl in *; try done.
  - split; [|apply indexed_nil]. simpl. intros v [= <-]. unfold len. simpl. lia.
  - split; [done|apply indexed_nil].
  - by apply log_node_ok.
  - by eapply incremental_ok.
  - unfold collect in *. destruct (take_full_log th) as [[log|] th1] eqn:Htk.
    + destruct (pass h log) as [r|]; [|done].
      destruct (carry_survivors _ _ _ _ _) as [[[k h1] g1]|]; [|done]. simplify_eq.
      by eapply take_full_log_ok in Htk.
    + simplify_eq. by eapply take_full_log_ok in Htk.
  - by eapply defer_ok.
  - unfold relog_cycle_nodes in *. destruct (negb _); [by simplify_eq|].
    destruct (relog_loop _ _ _ _ _) as [st|] eqn:Hl; [|done]. simplify_eq.
    by eapply relog_loop_ok in Hl.
  - unfold collect in *. destruct (take_full_log th) as [[log|] th1] eqn:Htk; [|by simplify_eq].
    destruct (pass h log) as [r|]; [|done].
    destruct (carry_survivors _ _ _ _ _) as [[[k h1] g1]|] eqn:Hc; [|done]. simplify_eq.
    by eapply carry_survivors_ok.
  - by eapply defer_ok.
  - by eapply collect_ready_ok.
  - by eapply sweep_displaced_ok.
  - by eapply sweep_displaced_ok.
  - unfold relog_cycle_nodes in *. destruct (negb _); [by simplify_eq|].
    destruct (relog_loop _ _ _ _ _) as [st|]; [|done]. simplify_eq.
    by apply note_displacement_ok.
Qed.

(** C23. Invariant of the bookkeeping: however requests, threads, sweeps and
    the program itself interleave their operations, the young log never exceeds
    its cap, the old generation and the set carried across requests list each
    container once and agree with their address sets, and a deferred log is
    non-empty and waits for some thread. *)
Theorem bookkeeping_invariant h h' th g :
  rtc gc_step (GcState h initial_thread initial_global) (GcState h' th g) ->
  thread_ok th /\ global_ok g.
Proof.
  intros Hr. apply (rtc_preserves _ gc_ok _ _ gc_step_ok Hr).
  split; split; simpl; try done. apply indexed_nil.
Qed.
End Machine.

(** ** Nothing alive falls out of sight *)

(** The containers carried across requests. *)
Definition tracked (g : gc_global) : list addr :=
  match persistent g with Some p => ps_entries p | None => [] end.

(** The pass over [log] that gave [r] saw [p] and did not keep it. *)
Definition collected_by (h : heap) (log : list addr) (r : pass_result) (p : addr) : Prop :=
  p ∈ survivors h log /\ p ∉ pr_carry r.

(** What [carry_survivors] sweeps: the carried set with the new survivors. *)
Definition carried_log (cfg : gc_config) (live : list addr) (g : gc_global) : list addr :=
  (insert_entries (ps_entries (get_persistent cfg g)) (ps_seen (get_persistent cfg g)) live).1.

Lemma carried_or_collected h log r p :
  p ∈ log -> is_node h p = true -> p ∈ pr_carry r \/ collected_by h log r p.
Proof.
  intros Hin Hn. destruct (decide (p ∈ pr_carry r)) as [|Hc]; [by left|]. right.
  split; [by apply survivors_elem|done].
Qed.

Lemma carry_tracked cfg pass h live g n h' g' p :
  persistent_base cfg ≠ 0 -> global_ok g ->
  carry_survivors cfg pass h live g = Some (n, h', g') ->
  p ∈ live \/ p ∈ tracked g -> is_node h p = true ->
  p ∈ tracked g'
  \/ exists r, pass h (carried_log cfg live g) = Some r /\ h' = pr_heap r /\ collected_by h (carried_log cfg live g) r p.
Proof.
  intros Hb Hok Hc Hp Hn. unfold carry_survivors in Hc. unfold carried_log.
  destruct (N.eqb_spec (persistent_base cfg) 0) as [|_]; [done|].
  destruct (insert_entries _ _ _) as [es seen] eqn:Hi.
  pose proof (get_persistent_ok cfg g Hok) as Hset.
  apply insert_entries_spec in Hi as [Hi Hes]; [|exact Hset]. simpl in Hc.
  assert (Hin : p ∈ es).
  { apply Hes. destruct Hp as [|Hp]; [by right|left]. unfold tracked in Hp.
    unfold get_persistent. by destruct (persistent g); [|apply elem_of_nil in Hp]. }
  destruct (_ || _).
  - unfold sweep_entries in Hc. destruct (pass h es) as [r|] eqn:Hr; [|done]. simpl in Hc.
    destruct (insert_entries [] ∅ (pr_carry r)) as [es' seen'] eqn:Hi'. simplify_eq.
    apply insert_entries_spec in Hi' as [_ Hes']; [|apply indexed_nil].
    destruct (carried_or_collected h es r p Hin Hn) as [Hk|]; [|by right; exists r].
    left. unfold tracked. simpl. apply Hes'. by right.
  - simplify_eq. left. unfold tracked. simpl. case_match; simpl; [|done].
    rewrite list_elem_of_In, filter_In, <- list_elem_of_In. done.
Qed.

Section Total.
Context (cfg : gc_config) (P : heap -> Prop) (pass : heap -> list addr -> option pass_result).
Context `{!PassSpec pass, !PassTotal P pass}.

Lemma sweep_entries_total h es g :
  P h -> exists n h' g', sweep_entries cfg pass h es g = Some (n, h', g') /\ P h'.
Proof.
  intros Hh. unfold sweep_entries. destruct (pass_total h es Hh) as (r & -> & Hr).
  destruct (insert_entries _ _ _) as [es' seen']. eauto 6.
Qed.

Lemma sweep_persistent_total h g :
  P h -> exists n h' g', sweep_persistent cfg pass h g = Some (n, h', g') /\ P h'.
Proof.
  intros Hh. unfold sweep_persistent. destruct (persistent_base cfg =? 0); [by eauto 6|].
  destruct (persistent g) as [p|]; [|by eauto 6].
  destruct (ps_entries p); [by eauto 6|by apply sweep_entries_total].
Qed.

Lemma carry_survivors_total h live g :
  P h -> exists n h' g', carry_survivors cfg pass h live g = Some (n, h', g') /\ P h'.
Proof.
  intros Hh. unfold carry_survivors. destruct (persistent_base cfg =? 0); [by eauto 6|].
  destruct (insert_entries _ _ _) as [es seen].
  destruct (_ || _); [by apply sweep_entries_total|by eauto 6].
Qed.

(** What the mid-request sweep knows of [p] before its pass and afterwards. *)
Lemma incremental_tracked h th young :
  thread_ok cfg th -> P h -> alloc_log th = Some young ->
  exists n h' th', collect_incremental cfg pass h th = Some (n, h', th') /\ P h'
    /\ forall p, p ∈ young \/ p ∈ old_log th -> is_node h p = true ->
         (exists young', alloc_log th' = Some young' /\ (p ∈ young' \/ p ∈ old_log th'))
         \/ exists log r, log ⊆ old_log th ++ young /\ pass h log = Some r /\ h' = pr_heap r /\ collected_by h log r p.
Proof.
  intros [_ Ho] Hh Hy. unfold collect_incremental. rewrite Hy.
  destruct (incremental_threshold cfg =? 0); [by eauto 12|].
  destruct (_ <=? len young); [|by eauto 12].
  set (at_ := if next_major th =? usize_max then _ else _).
  destruct (prune_old h at_ (old_log th) (old_set th)) as [old seen] eqn:Hpr.
  assert (Hold : indexed old seen /\ old ⊆ old_log th
    /\ forall p, is_node h p = true -> p ∈ old_log th -> p ∈ old).
  { unfold prune_old in Hpr. destruct (at_ <=? len (old_log th)); simplify_eq; [|done].
    split; [by eapply indexed_filter|]. split; intros p; rewrite !list_elem_of_In, filter_In; tauto. }
  destruct Hold as (Hi & Hsub & Hpo).
  destruct (if at_ <=? len old then _ else _) as [[log old'] seen'] eqn:Hm.
  assert (Hm' : indexed old' seen' /\ log ⊆ old_log th ++ young /\ forall p, p ∈ young \/ p ∈ old -> p ∈ log \/ p ∈ old').
  { destruct (at_ <=? len old); simplify_eq; (split; [done || apply indexed_nil|]); set_solver. }
  destruct Hm' as (Hi' & Hlog & Hpl). destruct (pass_total h log Hh) as (r & Hr & Hh'). rewrite Hr.
  destruct (insert_entries old' seen' (pr_carry r)) as [old2 seen2] eqn:Hins.
  apply insert_entries_spec in Hins as [_ Hin2]; [|done].
  eexists _, _, _. split_and!; [done|done|]. intros p Hp Hn. simpl.
  assert (p ∈ log \/ p ∈ old') as [Hl|Hl] by (apply Hpl; destruct Hp; auto).
  - destruct (carried_or_collected h log r p Hl Hn); [|by right; exists log, r].
    left. exists []. split; [done|]. right. apply Hin2. by right.
  - left. exists []. split; [done|]. right. apply Hin2. by left.
Qed.

Lemma collect_tracked h th g young :
  persistent_base cfg ≠ 0 -> global_ok g -> P h -> alloc_log th = Some young ->
  exists n h' th' g' r, collect cfg pass h th g = Some (n, h', th', g') /\ P h'
    /\ pass h (old_log th ++ young) = Some r /\ alloc_log th' = None
    /\ forall p, (p ∈ old_log th ++ young /\ is_node h p = true) \/ p ∈ tracked g ->
         is_node (pr_heap r) p = true ->
         p ∈ tracked g' \/ collected_by h (old_log th ++ young) r p
         \/ exists r', pass (pr_heap r) (carried_log cfg (pr_carry r) g) = Some r' /\ h' = pr_heap r'
              /\ collected_by (pr_heap r) (carried_log cfg (pr_carry r) g) r' p.
Proof.
  intros Hb Hg Hh Hy. unfold collect, take_full_log. rewrite Hy.
  destruct (pass_total h (old_log th ++ young) Hh) as (r & Hr & Hh'). rewrite Hr.
  destruct (carry_survivors_total (pr_heap r) (pr_carry r) g Hh') as (n & h' & g' & Hcs & Hh2).
  rewrite Hcs. eexists _, _, _, _, _. split_and!; [done..|]. intros p Hp Hn.
  assert (p ∈ pr_carry r \/ p ∈ tracked g \/ collected_by h (old_log th ++ young) r p) as [H|[H|H]].
  { destruct Hp as [[Hp Ha]|]; [|by auto].
    destruct (carried_or_collected h _ r p Hp Ha); auto. }
  1,2: destruct (carry_tracked _ _ _ _ _ _ _ _ p Hb Hg Hcs); auto.
  auto.
Qed.
End Total.

(** Every pass is a [collect_from_log_carrying] with the locks and the owners of
    its moment, on a stack for [n] nested carriers. *)
Definition passes (n : nat) (pass : heap -> list addr -> option pass_result) : Prop :=
  forall h log, exists env roots, pe_fuel env = n /\ pass h log = collect_from_log_carrying env roots h log.

Lemma passes_spec n pass : passes n pass -> PassSpec pass.
Proof.
  intros Hp. split; intros h log r; [|intros p|]; destruct (Hp h log) as (env & roots & _ & ->);
    apply (collect_pass_spec env roots).
Qed.

Lemma passes_total n pass : passes n pass -> PassTotal (shallow n) pass.
Proof.
  intros Hp h log Hh. destruct (Hp h log) as (env & roots & <- & ->). by apply (collect_pass_total env roots).
Qed.

(** C32. Nothing alive is lost from sight.  On a heap whose carriers are nested
    within what the stack holds, and with carrying across requests switched on,
    the request-end collection returns and stops the thread's logging; a
    container that the thread logged or that earlier requests carried, and that
    is alive when the request-end pass has run, is carried on, or that pass, or
    the sweep of the carried set that followed it, saw it and collected it.  A
    mid-request sweep returns, and what was alive in either generation stays in
    one of them or was seen and collected by its pass. *)
Theorem tracking_preserved cfg n pass h th g young :
  passes n pass -> shallow n h ->
  persistent_base cfg ≠ 0 -> global_ok g -> thread_ok cfg th -> alloc_log th = Some young ->
  (exists k h' th' g' r, collect cfg pass h th g = Some (k, h', th', g')
     /\ pass h (old_log th ++ young) = Some r /\ alloc_log th' = None
     /\ forall p, (p ∈ old_log th ++ young /\ is_node h p = true) \/ p ∈ tracked g ->
          is_node (pr_heap r) p = true ->
          p ∈ tracked g' \/ collected_by h (old_log th ++ young) r p
          \/ exists r', pass (pr_heap r) (carried_log cfg (pr_carry r) g) = Some r' /\ h' = pr_heap r'
               /\ collected_by (pr_heap r) (carried_log cfg (pr_carry r) g) r' p)
  /\ exists k h' th', collect_incremental cfg pass h th = Some (k, h', th')
     /\ forall p, p ∈ young \/ p ∈ old_log th -> is_node h p = true ->
          (exists young', alloc_log th' = Some young' /\ (p ∈ young' \/ p ∈ old_log th'))
          \/ exists log r, log ⊆ old_log th ++ young /\ pass h log = Some r /\ h' = pr_heap r
               /\ collected_by h log r p.
Proof.
  intros Hps Hh Hb Hg Hth Hy. pose proof (passes_spec _ _ Hps). pose proof (passes_total _ _ Hps). split.
  - destruct (collect_tracked cfg (shallow n) pass h th g young Hb Hg Hh Hy)
      as (k & h' & th' & g' & r & ? & _ & ? & ? & ?). by exists k, h', th', g', r.
  - destruct (incremental_tracked cfg (shallow n) pass h th young Hth Hh Hy) as (k & h' & th' & ? & _ & ?).
    by exists k, h', th'.
Qed.

(** ** Deferred logs are collected *)

Lemma collect_all_total P pass h es :
  PassTotal P pass -> P h -> exists n h', collect_all pass h es = Some (n, h') /\ P h'.
Proof.
  intros HT. revert h; induction es as [|e es IH]; intros h Hh; simpl; [by eauto|].
  destruct (pass_total h (de_log e) Hh) as (r & -> & Hr).
  destruct (IH _ Hr) as (n & h' & -> & Hh'). eauto.
Qed.

(** Every deferred log whose threads have all finished is collected by the
    next scan and leaves the queue, and the others stay: the scan returns, the
    queue splits into what it keeps and the logs that are ready, and the passes
    run over exactly those.  Their survivors are not added to the set carried
    across requests. *)
Theorem deferred_collected P pass finished h g :
  PassTotal P pass -> P h ->
  exists n h' g' ready,
    collect_ready_deferred pass finished h g = Some (n, h', g') /\ P h'
    /\ deferred g ≡ₚ deferred g' ++ ready
    /\ Forall (fun e => forallb finished (de_joins e) = true) ready
    /\ Forall (fun e => forallb finished (de_joins e) = false) (deferred g')
    /\ collect_all pass h ready = Some (n, h')
    /\ tracked g' = tracked g.
Proof.
  intros HT Hh. unfold collect_ready_deferred.
  destruct (take_ready _ _ _ _ _) as [q ready] eqn:Ht.
  apply take_ready_spec in Ht as (Hp & Hq & Hr); [|simpl; lia|constructor|constructor].
  destruct (collect_all_total P pass h ready HT Hh) as (n & h' & Hall & Hh'). rewrite Hall.
  eexists _, _, _, ready. rewrite app_nil_r in Hp. by split_and!.
Qed.

(** ** A displacement sweep gives up *)

Lemma sweep_persistent_frame cfg pass h g n h' g' :
  sweep_persistent cfg pass h g = Some (n, h', g') ->
  displaced_pending g' = displaced_pending g /\ displace_attempts g' = displace_attempts g
  /\ displace_last_ms g' = displace_last_ms g.
Proof.
  unfold sweep_persistent, sweep_entries. intros Hs.
  destruct (persistent_base cfg =? 0); [by simplify_eq|].
  destruct (persistent g) as [p|]; [|by simplify_eq].
  destruct (ps_entries p) as [|e es]; [by simplify_eq|].
  destruct (pass h (e :: es)) as [r|]; [|done].
  destruct (insert_entries _ _ _) as [es' seen']. by simplify_eq.
Qed.

(** The sweep tried at the times [ts]. *)
Fixpoint sweeps (cfg : gc_config) (pass : heap -> list addr -> option pass_result)
    (h : heap) (g : gc_global) (ts : list N) : option (heap * gc_global) :=
  match ts with
  | [] => Some (h, g)
  | now :: ts =>
      match sweep_if_displaced cfg pass now h g with
      | Some (_, h, g) => sweeps cfg pass h g ts
      | None => None
      end
  end.

(** Each try comes at least [DISPLACE_RETRY_SECS] after the one before. *)
Fixpoint spaced (last : N) (ts : list N) : Prop :=
  match ts with
  | [] => True
  | now :: ts => last + DISPLACE_RETRY_SECS * 1000 <= now /\ spaced now ts
  end.

Lemma sweeps_idle cfg pass h g ts h' g' :
  displaced_pending g = false -> sweeps cfg pass h g ts = Some (h', g') ->
  displaced_pending g' = false.
Proof.
  revert h g; induction ts as [|now ts IH]; intros h g Hp; simpl; [by intros [= <- <-]|].
  unfold sweep_if_displaced. rewrite Hp. simpl. by apply IH.
Qed.

Lemma sweeps_settle cfg pass h g ts h' g' :
  (displace_attempts g = 0 \/ spaced (displace_last_ms g) ts) ->
  (match ts with [] => True | now :: ts => spaced now ts end) ->
  DISPLACE_MAX_ATTEMPTS <= displace_attempts g + N.of_nat (length ts) ->
  (0 < length ts)%nat ->
  sweeps cfg pass h g ts = Some (h', g') -> displaced_pending g' = false.
Proof.
  revert h g; induction ts as [|now ts IH]; intros h g Hfirst Hsp Hlen Hne Hs; simpl in *; [lia|].
  destruct (sweep_if_displaced cfg pass now h g) as [[[k h1] g1]|] eqn:Hd; [|done].
  unfold sweep_if_displaced in Hd. destruct (displaced_pending g) eqn:Hpend; simpl in Hd.
  2: { simplify_eq. by eapply sweeps_idle. }
  assert (((0 <? displace_attempts g) &&
    (now - displace_last_ms g <? DISPLACE_RETRY_SECS * 1000)) = false) as Hnow.
  { destruct Hfirst as [->|[Hge _]]; [done|]. apply andb_false_iff. right. apply N.ltb_ge. lia. }
  rewrite Hnow in Hd.
  destruct (sweep_persistent _ _ _ _) as [[[k1 h2] g2]|] eqn:Hsw; [|done].
  apply sweep_persistent_frame in Hsw as (E1 & E2 & E3). simpl in E1, E2, E3. injection Hd as <- <- <-.
  destruct (_ || _) eqn:Hdone; [by eapply sweeps_idle in Hs|].
  apply orb_false_iff in Hdone as [_ Hmax%N.leb_gt].
  destruct ts as [|t2 ts]; [simpl in *; lia|].
  eapply IH; [| | | |exact Hs].
  - right. rewrite E3. done.
  - by destruct Hsp.
  - rewrite E2. simpl in *. lia.
  - simpl. lia.
Qed.

Lemma sweeps_total cfg P pass h g ts :
  PassTotal P pass -> P h -> exists h' g', sweeps cfg pass h g ts = Some (h', g') /\ P h'.
Proof.
  intros HT. revert h g; induction ts as [|now ts IH]; intros h g Hh; simpl; [by eauto|].
  enough (exists n h' g', sweep_if_displaced cfg pass now h g = Some (n, h', g') /\ P h')
    as (n & h' & g' & -> & Hh') by auto.
  unfold sweep_if_displaced. destruct (negb _); [by eauto 6|]. destruct (_ && _); [by eauto 6|].
  set (g1 := GcGlobal _ _ _ _ _ _ _).
  destruct (sweep_persistent_total cfg P pass h g1 Hh) as (n & h' & g' & -> & Hh'). eauto 6.
Qed.

(** Bounded liveness of the displacement sweep: once a displacement is
    pending, six attempts that respect the retry interval return and settle it,
    whatever the sweeps reclaim. *)
Theorem displacement_settles cfg P pass h g t0 ts :
  PassTotal P pass -> P h ->
  displace_attempts g = 0 -> spaced t0 ts -> length ts = 5%nat ->
  exists h' g', sweeps cfg pass h g (t0 :: ts) = Some (h', g') /\ displaced_pending g' = false.
Proof.
  intros HT Hh Ha Hsp Hl.
  destruct (sweeps_total cfg P pass h g (t0 :: ts) HT Hh) as (h' & g' & Hs & _).
  exists h', g'. split; [done|].
  apply (sweeps_settle cfg pass h g (t0 :: ts) h' g'); [by left|exact Hsp| | |exact Hs];
    simpl; unfold DISPLACE_MAX_ATTEMPTS; lia.
Qed.

(** ** The budget of the walk over a displaced graph *)

(** A component whose two methods capture different scopes. *)
Definition two_scopes : gval :=
  GComponent [] [CfmlFunction [] (BodyStatements []) (Some 1%N);
                 CfmlFunction [] (BodyStatements []) (Some 2%N)].

Definition two_scopes_heap : heap := {[ 1%N := OScope [GArray 3]; 2%N := OScope []; 3%N := OArray [] ]}.

Definition budget_one : gc_config := GcConfig true 4000000 100000 50000 false 1000 1.

(** The budget is tested once per value popped, but a component takes one unit
    for each of its methods: the second one wraps the counter around, and the
    walk goes on without a bound. *)
Lemma relog_budget_wraps :
  exists st,
    relog_loop budget_one two_scopes_heap ∅ 10
      (RelogState (enable budget_one initial_thread) (relog_budget budget_one) 0 [two_scopes])
    = Some st
    /\ rl_budget st = 2 ^ 64 - 2 /\ rl_entered st = 3 /\ relog_budget budget_one < rl_entered st.
Proof. eexists. split; [vm_compute; reflexivity|]. by vm_compute. Qed.

(** A value that holds no component. *)
Definition component_free (v : gval) : bool :=
  match v with GComponent _ _ => false | _ => true end.

(** Apart from components the budget is exact: what the walk enters it pays
    for. *)
Lemma relog_value_budget cfg h l v st :
  component_free v = true -> 0 < rl_budget st < 2 ^ 64 ->
  rl_entered (relog_value cfg h l v st) + rl_budget (relog_value cfg h l v st)
  = rl_entered st + rl_budget st.
Proof.
  intros Hv Hb.
  assert (pay : forall p vs, rl_entered (enter_node cfg h p vs st)
    + rl_budget (enter_node cfg h p vs st) = rl_entered st + rl_budget st).
  { intros p vs. unfold enter_node, relog_first_sight. destruct (negb _); simpl; [|done].
    replace (rl_budget st + 2 ^ 64 - 1) with (rl_budget st - 1 + 1 * 2 ^ 64) by lia.
    rewrite N.Div0.mod_add, N.mod_small by lia. lia. }
  destruct v; simpl; try done; try apply pay.
  destruct (h !! p) as [[]|]; try done. unfold enter_scope. case_match; [apply pay|done].
Qed.
