(* ===== verification/GcWitnesses.v ===== *)
(** * GcWitnesses: the collector's theorems on a concrete heap

    A closure's scope kept alive by a frame next to a dead cycle: every
    hypothesis of the theorems about a pass holds there, and the pass frees
    exactly the dead cycle.  The theorems about the bookkeeping are run on the
    same heap. *)

From stdpp Require Import base list numbers gmap sets option relations.
From S2P Require Import Prelude GcHeap GcPass GcPassFacts GcSafety GcReclaim GcState GcStateFacts.
Local Open Scope N_scope.

(** A struct (1) whose method (3) captured the scope (2) of a running frame, and
    a struct (4) and an array (5) that only hold each other. *)
Definition demo_heap : heap :=
  {[ 1%N := plain_struct [GStruct 1; GFunction 3];
     2%N := OScope [GStruct 1; GScalar];
     3%N := OFunction (CfmlFunction [] (BodyStatements []) (Some 2%N));
     4%N := plain_struct [GArray 5];
     5%N := OArray [GStruct 4; GScalar] ]}.

Definition demo_log : list addr := [1; 2; 4; 5; 4].
Definition demo_roots : list addr := [2%N].

(** The block at [p] is one of the five. *)
Lemma demo_cases p o : demo_heap !! p = Some o ->
  (p = 1 /\ o = plain_struct [GStruct 1; GFunction 3])
  \/ (p = 2 /\ o = OScope [GStruct 1; GScalar])
  \/ (p = 3 /\ o = OFunction (CfmlFunction [] (BodyStatements []) (Some 2%N)))
  \/ (p = 4 /\ o = plain_struct [GArray 5]) \/ (p = 5 /\ o = OArray [GStruct 4; GScalar]).
Proof.
  unfold demo_heap. rewrite !lookup_insert_Some, lookup_singleton_Some. naive_solver.
Qed.

Ltac demo_split H :=
  apply demo_cases in H as [[-> E]|[[-> E]|[[-> E]|[[-> E]|[-> E]]]]]; simplify_eq.

(** Closed decidable facts by evaluation. *)
Ltac evaluate := by apply (bool_decide_unpack _); vm_compute.

Ltac member H :=
  vm_compute in H;
  repeat (apply elem_of_cons in H as [H|H]; [simplify_eq|]); try by apply elem_of_nil in H.

Lemma demo_typed : heap_typed demo_heap.
Proof. evaluate. Qed.

Lemma demo_sole : sole_ownership (unlocked 4) demo_roots demo_heap demo_log.
Proof.
  eexists _, ∅. split; [vm_compute; reflexivity|]. split.
  - evaluate.
  - intros y Hy. by apply elem_of_empty in Hy.
  - intros y Hy Hni _ _. assert (y = 3) as ->.
    { member Hy; try done; exfalso; apply Hni; evaluate. }
    split; [evaluate|]. intros x o Hx Ho. demo_split Hx; member Ho. split; evaluate.
  - intros p i m _ Hp. demo_split Hp.
Qed.

Lemma demo_garbage : visible_garbage (unlocked 4) demo_roots demo_heap demo_log {[4; 5]}.
Proof.
  eexists. split; [vm_compute; reflexivity|]. split.
  - intros x Hx. apply elem_of_union in Hx as [->%elem_of_singleton| ->%elem_of_singleton]; evaluate.
  - intros x y (o & Ho & Hy) Hin. demo_split Ho; try evaluate;
      exfalso; revert Hin; member Hy; intros Hin; by vm_compute in Hin.
  - intros p x o Hp _ Ho Hin.
    apply elem_of_union in Hp as [->%elem_of_singleton| ->%elem_of_singleton];
      demo_split Ho; member Hin; (split; [evaluate|by vm_compute; lia]).
  - intros b x o _ Hb. member Hb.
Qed.

(** The result of the pass over [demo_log]. *)
Definition demo_result : pass_result :=
  match collect_from_log_carrying (unlocked 4) demo_roots demo_heap demo_log with
  | Some r => r
  | None => PassResult ∅ 0 []
  end.

Lemma demo_runs :
  collect_from_log_carrying (unlocked 4) demo_roots demo_heap demo_log = Some demo_result.
Proof. vm_compute. reflexivity. Qed.

Lemma collect_safe_witness :
  reachable demo_heap demo_roots 3 /\ pr_heap demo_result !! 3 = demo_heap !! 3
  /\ pr_carry demo_result = [1; 2] /\ pr_collected demo_result = 2%nat.
Proof.
  assert (R : reachable demo_heap demo_roots 3).
  { eapply (reachable_step _ _ 1); [|reflexivity|evaluate].
    eapply (reachable_step _ _ 2); [|reflexivity|evaluate]. constructor. evaluate. }
  split; [exact R|]. split; [|split; reflexivity].
  exact (proj1 (collect_safe (unlocked 4) demo_roots demo_heap demo_log demo_result
    demo_typed ltac:(done) demo_sole demo_runs 3 R)).
Defined.

(** Both containers of the dead cycle are emptied, so that it is cut. *)
Lemma demo_cut : cycles_cut (unlocked 4) demo_heap demo_log {[4; 5]}.
Proof.
  exists (fun _ => 0%nat). intros x y Hx _ Hy. exfalso.
  apply elem_of_union in Hx as [->%elem_of_singleton| ->%elem_of_singleton]; vm_compute in Hy; by apply elem_of_nil in Hy.
Qed.

Lemma collect_reclaims_witness :
  (4 ∉ pr_carry demo_result) /\ pr_heap demo_result !! 4 = None /\ pr_heap demo_result !! 5 = None
  /\ (pr_heap demo_result !! 5 = None \/ pr_heap demo_result !! 5 = Some (OArray [])).
Proof.
  destruct (collect_reclaims (unlocked 4) demo_roots demo_heap demo_log demo_result {[4; 5]}
    demo_garbage demo_runs) as (Hc & He & Hf).
  split; [apply Hc; evaluate|]. split; [apply (Hf demo_cut); evaluate|]. split; [apply (Hf demo_cut); evaluate|].
  apply (He 5 5); evaluate.
Defined.

(** Functions rank above what they hold. *)
Lemma demo_ranked : carriers_ranked demo_heap (fun _ => 0%nat).
Proof. intros x o y Hx Hk Hy. demo_split Hx; try done. by apply elem_of_nil in Hy. Qed.

Lemma collect_returns_witness : exists n, shallow n demo_heap.
Proof.
  destruct (collect_returns demo_heap (fun _ => 0%nat) demo_ranked) as (n & Hn & _).
  exists n. exact Hn.
Defined.

(** ** Between passes *)

Definition demo_pass : heap -> list addr -> option pass_result :=
  collect_from_log_carrying (unlocked 4) demo_roots.

Definition demo_thread : thread_log :=
  log_node gc_defaults demo_heap 5 (log_node gc_defaults demo_heap 1 (enable gc_defaults initial_thread)).

Lemma demo_shallow : shallow 4 demo_heap.
Proof.
  intros v Hv. change (nested demo_heap 4 v). vm_compute in Hv.
  repeat (apply elem_of_cons in Hv as [->|Hv];
    [intros ? Hw; vm_compute in Hw; by apply elem_of_nil in Hw|]). by apply elem_of_nil in Hv.
Qed.

Lemma bookkeeping_invariant_witness :
  thread_ok gc_defaults demo_thread /\ global_ok (body_started initial_global).
Proof.
  apply (bookkeeping_invariant gc_defaults ∅ demo_heap).
  eapply rtc_l; [apply (step_program gc_defaults ∅ demo_heap)|].
  eapply rtc_l; [apply step_enable|]. eapply rtc_l; [apply step_log|].
  eapply rtc_l; [apply step_log|]. eapply rtc_l; [apply step_started|]. apply rtc_refl.
Defined.

Lemma demo_thread_ok : thread_ok gc_defaults demo_thread.
Proof. split; [intros v [= <-]; by vm_compute|split; [evaluate|done]]. Qed.

Lemma demo_global_ok : global_ok initial_global.
Proof. split; [done|constructor]. Qed.

Lemma demo_passes : passes 4 demo_pass.
Proof. intros h log. by exists (unlocked 4), demo_roots. Qed.

(** The thread logged 1 and 5: the first stays tracked, the second is kept alive
    by a struct outside the log. *)
Lemma tracking_preserved_witness :
  exists n h' th' g', collect gc_defaults demo_pass demo_heap demo_thread initial_global
    = Some (n, h', th', g') /\ alloc_log th' = None /\ tracked g' = [1; 5].
Proof.
  destruct (tracking_preserved gc_defaults 4 demo_pass demo_heap demo_thread
    initial_global [1; 5] demo_passes demo_shallow ltac:(done) demo_global_ok demo_thread_ok eq_refl)
    as [(n & h' & th' & g' & r & Hc & _ & Ha & _) _].
  exists n, h', th', g'. split; [exact Hc|]. split; [exact Ha|].
  vm_compute in Hc. injection Hc as <- <- <- <-. by vm_compute.
Defined.

(** Two logs, behind the threads 7 and 8; only 7 has finished. *)
Definition demo_deferred : gc_global :=
  set_deferred initial_global [DeferredEntry [4; 5] [7]; DeferredEntry [1; 2] [7; 8]].

Lemma deferred_collected_witness :
  exists n h' g', collect_ready_deferred demo_pass (N.eqb 7) demo_heap demo_deferred
    = Some (n, h', g') /\ deferred g' = [DeferredEntry [1; 2] [7; 8]].
Proof.
  destruct (deferred_collected (shallow 4) demo_pass (N.eqb 7) demo_heap demo_deferred
    (collect_pass_total (unlocked 4) demo_roots) demo_shallow) as (n & h' & g' & ready & Hc & _).
  exists n, h', g'. split; [exact Hc|]. vm_compute in Hc. by injection Hc as <- <- <-.
Defined.

Definition demo_displaced : gc_global := note_displacement gc_defaults 2000 initial_global.

Lemma displacement_settles_witness :
  displaced_pending demo_displaced = true
  /\ exists h' g', sweeps gc_defaults demo_pass demo_heap demo_displaced
       [0; 5000; 10000; 15000; 20000; 25000] = Some (h', g') /\ displaced_pending g' = false.
Proof.
  split; [reflexivity|].
  apply (displacement_settles gc_defaults (shallow 4) demo_pass demo_heap demo_displaced 0
    [5000; 10000; 15000; 20000; 25000] (collect_pass_total (unlocked 4) demo_roots) demo_shallow eq_refl);
    [repeat split; by vm_compute|reflexivity].
Defined.
