(* ===== verification/AsyncPool.v ===== *)
(** * AsyncPool: the bounded executor pool

    The thread pool behind CFML's [java.util.concurrent] executors (cfml-vm:
    [async_kernel.rs]): a queue of bounded capacity, worker threads that each
    run one task at a time, the rejection policies, the run permits of scheduled
    tasks, and the futures that resolve from a task's channel.

    The pool's mutex makes each critical section one step; what a worker does
    between two of them is a step of its own.  A task is known by the channel its
    future resolves from; [ps_sent] records what has been sent on each channel.
    What a task's body returns is up to the program: an [option], [None] when its
    thread ended without sending a result. *)

From stdpp Require Import base list numbers strings gmap sets relations.
From S2P Require Import Prelude Text Float64 Value.
Local Open Scope nat_scope.

(** ** Results *)

Record thread_result := ThreadResult {
  tr_status : str;
  tr_output : str;
  tr_error : str;
  tr_mem_allocated : N;
  tr_error_struct : option value;
  tr_elapsed : Z;
  tr_thread_vars : list (str * value);
  tr_return_value : option value
}.

(** A task that could not run. *)
Definition terminated (reason : str) : thread_result :=
  ThreadResult (lit "TERMINATED") [] reason 0 None 0 [] None.

(** A task dropped on purpose. *)
Definition discarded : thread_result := terminated [].

(** ** Rejection policies *)

Inductive reject_policy := PDiscard | PDiscardOldest | PAbort | PCallerRuns.

Fixpoint is_prefix (p s : str) : bool :=
  match p, s with
  | [], _ => true
  | a :: p, b :: s => N.eqb a b && is_prefix p s
  | _ :: _, [] => false
  end.

(** [str::contains] *)
Fixpoint contains (p s : str) : bool :=
  is_prefix p s || match s with [] => false | _ :: s => contains p s end.

Definition from_name (name : str) : reject_policy :=
  let n := map ascii_lower name in
  if contains (lit "discardoldest") n then PDiscardOldest
  else if contains (lit "abort") n then PAbort
  else if contains (lit "callerruns") n then PCallerRuns
  else PDiscard.

(** ** The state *)

(** What of a [ThreadSeed] the pool looks at. *)
Record thread_seed := ThreadSeed { sd_closure : value; sd_cancel_flag : N }.

Record pending_task := PendingTask {
  pt_seed : thread_seed;
  pt_tx : N;
  pt_cancel : N
}.

Record pool_shared := PoolShared {
  max_concurrent : nat;
  queue_capacity : nat;
  policy : reject_policy;
  scheduled_cancels : list N;
  queue : list pending_task;
  live_workers : nat;
  scheduled_running : nat;
  spawn_fn : bool
}.

(** Where a worker thread is: at the top of its loop, with a task in hand, or
    waiting for the task's body. *)
Inductive worker := WTop | WTaken (t : pending_task) | WRunning (t : pending_task).

(** The pool with its threads: the workers, the submitting threads that run a
    task themselves, the scheduled runs that hold a permit, the results sent,
    the cancel flags set; [ps_accepted] lists the channels whose future was
    handed out. *)
Record pool := Pool {
  ps_shared : pool_shared;
  ps_workers : list worker;
  ps_callers : list pending_task;
  ps_permits : nat;
  ps_sent : list (N * thread_result);
  ps_flags : gset N;
  ps_accepted : list N
}.

(** [ExecutorPoolNative::new_value] *)
Definition new_pool (max cap : nat) (pol : reject_policy) (spawn : bool) : pool :=
  Pool (PoolShared (Nat.max max 1) (Nat.max cap 1) pol [] [] 0 0 spawn) [] [] 0 [] ∅ [].

Definition with_shared (g : pool_shared) (s : pool) : pool :=
  Pool g (ps_workers s) (ps_callers s) (ps_permits s) (ps_sent s) (ps_flags s) (ps_accepted s).

Definition with_workers (ws : list worker) (s : pool) : pool :=
  Pool (ps_shared s) ws (ps_callers s) (ps_permits s) (ps_sent s) (ps_flags s) (ps_accepted s).

Definition with_callers (cs : list pending_task) (s : pool) : pool :=
  Pool (ps_shared s) (ps_workers s) cs (ps_permits s) (ps_sent s) (ps_flags s) (ps_accepted s).

Definition send (c : N) (r : thread_result) (s : pool) : pool :=
  Pool (ps_shared s) (ps_workers s) (ps_callers s) (ps_permits s) (ps_sent s ++ [(c, r)])
    (ps_flags s) (ps_accepted s).

Definition accept (c : N) (s : pool) : pool :=
  Pool (ps_shared s) (ps_workers s) (ps_callers s) (ps_permits s) (ps_sent s) (ps_flags s)
    (ps_accepted s ++ [c]).

(** [cancel.store(true)] *)
Definition set_flag (f : N) (s : pool) : pool :=
  Pool (ps_shared s) (ps_workers s) (ps_callers s) (ps_permits s) (ps_sent s)
    ({[f]} ∪ ps_flags s) (ps_accepted s).

Definition with_queue (q : list pending_task) (g : pool_shared) : pool_shared :=
  PoolShared (max_concurrent g) (queue_capacity g) (policy g) (scheduled_cancels g) q
    (live_workers g) (scheduled_running g) (spawn_fn g).

Definition with_live (n : nat) (g : pool_shared) : pool_shared :=
  PoolShared (max_concurrent g) (queue_capacity g) (policy g) (scheduled_cancels g) (queue g)
    n (scheduled_running g) (spawn_fn g).

Definition with_running (n : nat) (g : pool_shared) : pool_shared :=
  PoolShared (max_concurrent g) (queue_capacity g) (policy g) (scheduled_cancels g) (queue g)
    (live_workers g) n (spawn_fn g).

Definition with_cancels (cs : list N) (g : pool_shared) : pool_shared :=
  PoolShared (max_concurrent g) (queue_capacity g) (policy g) cs (queue g)
    (live_workers g) (scheduled_running g) (spawn_fn g).

(** ** Submitting *)

Definition rejected : cfml_error :=
  CfmlError (lit "Task rejected: executor queue is full")
    (ECustom (lit "java.util.concurrent.RejectedExecutionException")).

(** Queue the task and start a worker below the concurrency limit; [started]
    says whether the operating system gave a thread. *)
Definition enqueue (started : bool) (t : pending_task) (s : pool) : pool :=
  let g := with_queue (queue (ps_shared s) ++ [t]) (ps_shared s) in
  if (live_workers g <? max_concurrent g) && started
  then with_workers (ps_workers s ++ [WTop]) (with_shared (with_live (S (live_workers g)) g) s)
  else with_shared g s.

(** [submit] on the fresh channel [c].  Under [CallerRuns] it goes on, outside
    the lock, in [caller_finish]. *)
Definition submit (started : bool) (c : N) (seed : thread_seed) (s : pool)
    : outcome cfml_error pool :=
  let g := ps_shared s in
  let t := PendingTask seed c (sd_cancel_flag seed) in
  if queue_capacity g <=? length (queue g) then
    match policy g with
    | PDiscard => Ok (send c discarded (accept c s))
    | PDiscardOldest =>
        match queue g with
        | old :: q =>
            Ok (enqueue started t (send (pt_tx old) discarded (accept c (with_shared (with_queue q g) s))))
        | [] => Ok (enqueue started t (accept c s))
        end
    | PAbort => Err rejected
    | PCallerRuns => Ok (with_callers (ps_callers s ++ [t]) (accept c s))
    end
  else Ok (enqueue started t (accept c s)).

(** What is sent for a body that has ended. *)
Definition body_result (spawn : bool) (res : option thread_result) : thread_result :=
  if spawn
  then match res with Some r => r | None => terminated (lit "Task produced no result") end
  else terminated (lit "No thread spawner available").

(** The end of a [submit] that ran the body itself. *)
Definition caller_finish (i : nat) (res : option thread_result) (s : pool) : option pool :=
  match ps_callers s !! i with
  | Some t =>
      Some (send (pt_tx t) (body_result (spawn_fn (ps_shared s)) res)
              (with_callers (delete i (ps_callers s)) s))
  | None => None
  end.

(** ** Workers *)

(** The critical section at the top of [worker_loop]. *)
Definition worker_take (i : nat) (s : pool) : option pool :=
  match ps_workers s !! i with
  | Some WTop =>
      let g := ps_shared s in
      match queue g with
      | t :: q => Some (with_workers (<[i := WTaken t]> (ps_workers s)) (with_shared (with_queue q g) s))
      | [] => Some (with_workers (delete i (ps_workers s))
                      (with_shared (with_live (live_workers g - 1) g) s))
      end
  | _ => None
  end.

(** Look at the cancel flag, then start the body. *)
Definition worker_start (i : nat) (s : pool) : option pool :=
  match ps_workers s !! i with
  | Some (WTaken t) =>
      if bool_decide (pt_cancel t ∈ ps_flags s)
      then Some (send (pt_tx t) discarded (with_workers (<[i := WTop]> (ps_workers s)) s))
      else if spawn_fn (ps_shared s)
      then Some (with_workers (<[i := WRunning t]> (ps_workers s)) s)
      else Some (send (pt_tx t) (body_result false None)
                   (with_workers (<[i := WTop]> (ps_workers s)) s))
  | _ => None
  end.

(** The body has ended. *)
Definition worker_finish (i : nat) (res : option thread_result) (s : pool) : option pool :=
  match ps_workers s !! i with
  | Some (WRunning t) =>
      Some (send (pt_tx t) (body_result true res) (with_workers (<[i := WTop]> (ps_workers s)) s))
  | _ => None
  end.

(** ** Shutting down *)

(** Keep the flags whose schedule has not ended, then add the new one. *)
Definition register_schedule (f : N) (s : pool) : pool :=
  let g := ps_shared s in
  with_shared (with_cancels
    (List.filter (fun c => negb (bool_decide (c ∈ ps_flags s))) (scheduled_cancels g) ++ [f]) g) s.

(** [shutdown()] ([drop_queued] false; also when the executor is dropped) and
    [shutdownNow()]. *)
Definition shutdown_all (drop_queued : bool) (s : pool) : pool :=
  let g := ps_shared s in
  let s := fold_left (fun s c => set_flag c s) (scheduled_cancels g)
             (with_shared (with_cancels [] g) s) in
  if drop_queued
  then fold_left (fun s t => send (pt_tx t) discarded (set_flag (pt_cancel t) s)) (queue g)
         (with_shared (with_queue [] (ps_shared s)) s)
  else s.

(** [call_method]: the statistics. *)
Definition pool_call (name : str) (s : pool) : outcome cfml_error value :=
  let n := map ascii_lower name in
  let g := ps_shared s in
  if bool_decide (n = lit "getactivecount") then Ok (VInt (Z.of_nat (live_workers g)))
  else if bool_decide (n = lit "getqueuesize") then Ok (VInt (Z.of_nat (length (queue g))))
  else if bool_decide (n = lit "getcorepoolsize") || bool_decide (n = lit "getmaximumpoolsize")
  then Ok (VInt (Z.of_nat (max_concurrent g)))
  else Err (runtime (lit "ExecutorPool has no method [" ++ n ++ lit "]")).

(** ** Run permits *)

Definition with_permits (n : nat) (s : pool) : pool :=
  Pool (ps_shared s) (ps_workers s) (ps_callers s) n (ps_sent s) (ps_flags s) (ps_accepted s).

(** One turn of the loop of [acquire]: [Ok] with whether a permit was taken,
    or [Err] when it has to wait again. *)
Definition acquire (cancel : N) (s : pool) : outcome unit (bool * pool) :=
  let g := ps_shared s in
  if max_concurrent g <=? scheduled_running g
  then if bool_decide (cancel ∈ ps_flags s) then Ok (false, s) else Err tt
  else Ok (true, with_permits (S (ps_permits s))
                   (with_shared (with_running (S (scheduled_running g)) g) s)).

Definition release_permit (s : pool) : pool :=
  let g := ps_shared s in
  with_permits (ps_permits s - 1) (with_shared (with_running (scheduled_running g - 1) g) s).
