(* ===== verification/AsyncPoolFacts.v ===== *)
(** * AsyncPoolFacts: every task resolves once, within the pool's bounds

    The pool's threads as a step relation, the invariant of its reachable states
    (each accepted task is queued, held by one thread or resolved, exactly one of
    them; the queue, the workers and the permits stay within their limits), and
    the progress of its workers. *)

From stdpp Require Import base list numbers strings gmap sets relations.
From S2P Require Import Prelude Text Float64 Value AsyncPool.
Local Open Scope nat_scope.

(** ** Steps *)

(** What the pool's own threads do. *)
Inductive pool_work : pool -> pool -> Prop :=
  | work_caller i res s s' : caller_finish i res s = Some s' -> pool_work s s'
  | work_take i s s' : worker_take i s = Some s' -> pool_work s s'
  | work_start i s s' : worker_start i s = Some s' -> pool_work s s'
  | work_finish i res s s' : worker_finish i res s = Some s' -> pool_work s s'.

(** Any step; [reliable] says that starting a thread never fails. *)
Inductive pool_step (reliable : bool) : pool -> pool -> Prop :=
  | step_submit started c seed s s' :
      (reliable = true -> started = true) -> c ∉ ps_accepted s ->
      submit started c seed s = Ok s' -> pool_step reliable s s'
  | step_work s s' : pool_work s s' -> pool_step reliable s s'
  | step_cancel f s : pool_step reliable s (set_flag f s)
  | step_register f s : pool_step reliable s (register_schedule f s)
  | step_shutdown b s : pool_step reliable s (shutdown_all b s)
  | step_acquire cancel s s' : acquire cancel s = Ok (true, s') -> pool_step reliable s s'
  | step_release s : 0 < ps_permits s -> pool_step reliable s (release_permit s).

(** ** Where the tasks are *)

Definition held (w : worker) : list N :=
  match w with WTop => [] | WTaken t | WRunning t => [pt_tx t] end.

Definition unresolved (s : pool) : list N :=
  (pt_tx <$> queue (ps_shared s)) ++ flat_map held (ps_workers s) ++ (pt_tx <$> ps_callers s).

(** Every accepted task is in exactly one place. *)
Definition conserved (s : pool) : Prop :=
  NoDup (ps_accepted s) /\ unresolved s ++ (ps_sent s).*1 ≡ₚ ps_accepted s.

Definition bounded (s : pool) : Prop :=
  let g := ps_shared s in
  1 <= max_concurrent g /\ 1 <= queue_capacity g
  /\ length (queue g) <= queue_capacity g
  /\ length (ps_workers s) = live_workers g /\ live_workers g <= max_concurrent g
  /\ ps_permits s = scheduled_running g /\ scheduled_running g <= max_concurrent g.

(** A queued task has a worker to run it. *)
Definition attended (s : pool) : Prop := queue (ps_shared s) <> [] -> ps_workers s <> [].

(** *** Counting

    A permutation of channels is an equality of multiplicities. *)

Definition cnt (c : N) (l : list N) : nat := count_occ N.eq_dec l c.
Arguments cnt : simpl never.

Definition one (c d : N) : nat := if N.eq_dec d c then 1 else 0.
Arguments one : simpl never.

Lemma cnt_nil c : cnt c [] = 0.
Proof. done. Qed.

Lemma cnt_cons c d l : cnt c (d :: l) = one c d + cnt c l.
Proof. unfold cnt, one. simpl. by destruct (N.eq_dec d c). Qed.

Lemma cnt_app c l k : cnt c (l ++ k) = cnt c l + cnt c k.
Proof. apply count_occ_app. Qed.

Lemma perm_cnt (l k : list N) : l ≡ₚ k <-> forall c, cnt c l = cnt c k.
Proof. apply (Permutation_count_occ N.eq_dec). Qed.

Create HintDb cnt.
#[export] Hint Rewrite cnt_nil cnt_cons cnt_app @fmap_app @fmap_cons @fmap_nil @flat_map_app : cnt.

Ltac cnt_simpl := repeat (progress (autorewrite with cnt in *; cbn [ps_shared ps_workers ps_callers ps_sent ps_accepted queue send accept set_flag with_shared with_workers with_callers with_queue with_live flat_map held pt_tx fst] in *; autorewrite with cnt in * )).

Lemma cnt_insert {A} (f : A -> list N) l i x y c :
  l !! i = Some x -> cnt c (flat_map f (<[i := y]> l)) + cnt c (f x) = cnt c (flat_map f l) + cnt c (f y).
Proof.
  revert i; induction l as [|z l IH]; intros [|i] Hi; simpl in *; try done.
  - simplify_eq. rewrite !cnt_app. lia.
  - rewrite !cnt_app. specialize (IH i Hi). lia.
Qed.

Lemma cnt_delete {A} (f : A -> list N) l i x c :
  l !! i = Some x -> cnt c (f x) + cnt c (flat_map f (delete i l)) = cnt c (flat_map f l).
Proof.
  revert i; induction l as [|z l IH]; intros [|i] Hi; simpl in *; try done; [by simplify_eq; rewrite cnt_app|].
  rewrite !cnt_app. specialize (IH i Hi). lia.
Qed.

Lemma cnt_map {A} (f : A -> N) l c : cnt c (f <$> l) = cnt c (flat_map (fun x => [f x]) l).
Proof. by induction l; simpl; rewrite ?cnt_cons; f_equal. Qed.

(** Tasks resolved or not. *)
Definition everywhere (c : N) (s : pool) : nat :=
  cnt c (pt_tx <$> queue (ps_shared s)) + cnt c (flat_map held (ps_workers s))
  + cnt c (pt_tx <$> ps_callers s) + cnt c (ps_sent s).*1.

Lemma conserved_cnt s :
  conserved s <-> NoDup (ps_accepted s) /\ forall c, everywhere c s = cnt c (ps_accepted s).
Proof.
  unfold conserved, unresolved, everywhere. rewrite perm_cnt.
  split; intros [? H]; (split; [done|]); intros c; specialize (H c); rewrite !cnt_app in *; lia.
Qed.

(** *** Submitting *)

Lemma enqueue_everywhere started t s c :
  everywhere c (enqueue started t s) = one c (pt_tx t) + everywhere c s.
Proof. unfold enqueue, everywhere. destruct (_ && _); cnt_simpl; lia. Qed.

Lemma enqueue_accepted started t s : ps_accepted (enqueue started t s) = ps_accepted s.
Proof. unfold enqueue. by destruct (_ && _). Qed.

Lemma submit_conserved started c seed s s' :
  c ∉ ps_accepted s -> submit started c seed s = Ok s' -> conserved s -> conserved s'.
Proof.
  intros Hc Hs [Hnd Hp]%conserved_cnt.
  enough (ps_accepted s' = ps_accepted s ++ [c]
    /\ forall d, everywhere d s' = one d c + everywhere d s) as [E H].
  { apply conserved_cnt. rewrite E. split.
    - apply NoDup_app. split_and!; [done| |apply NoDup_singleton].
      by intros x Hx ->%list_elem_of_singleton.
    - intros d. rewrite H, Hp. cnt_simpl. lia. }
  unfold submit in Hs.
  destruct (_ <=? _); [destruct (policy (ps_shared s))|]; simplify_eq.
  - split; [done|]. intros d. unfold everywhere. cnt_simpl. lia.
  - destruct (queue (ps_shared s)) as [|old q] eqn:Hq; simplify_eq.
    + split; [by rewrite enqueue_accepted|]. intros d.
      by rewrite enqueue_everywhere.
    + split; [by rewrite enqueue_accepted|]. intros d.
      rewrite enqueue_everywhere. unfold everywhere. simpl. rewrite Hq.
      cnt_simpl. lia.
  - split; [done|]. intros d. unfold everywhere. cnt_simpl. lia.
  - split; [by rewrite enqueue_accepted|]. intros d. by rewrite enqueue_everywhere.
Qed.

(** *** The other steps *)

Lemma work_conserved s s' : pool_work s s' -> conserved s -> conserved s'.
Proof.
  intros Hw [Hnd Hp]%conserved_cnt.
  enough (ps_accepted s' = ps_accepted s /\ forall c, everywhere c s' = everywhere c s) as [E H].
  { apply conserved_cnt. rewrite E. split; [done|]. intros c. by rewrite H. }
  destruct Hw as [i res s s' H|i s s' H|i s s' H|i res s s' H].
  - unfold caller_finish in H. destruct (ps_callers s !! i) as [t|] eqn:Hi; simplify_eq.
    split; [done|]. intros c. unfold everywhere. cnt_simpl. rewrite !cnt_map.
    pose proof (cnt_delete (fun t => [pt_tx t]) _ _ _ c Hi). cnt_simpl. lia.
  - unfold worker_take in H. destruct (ps_workers s !! i) as [[| |]|] eqn:Hi; simplify_eq.
    destruct (queue (ps_shared s)) as [|t q] eqn:Hq; simplify_eq; (split; [done|]); intros c;
      unfold everywhere; cbn [ps_shared with_workers with_shared with_queue queue]; rewrite Hq.
    + pose proof (cnt_delete held _ _ _ c Hi). cnt_simpl. rewrite Hq. cnt_simpl. lia.
    + pose proof (cnt_insert held _ _ _ (WTaken t) c Hi). cnt_simpl. lia.
  - unfold worker_start in H. destruct (ps_workers s !! i) as [[|t|]|] eqn:Hi; simplify_eq.
    destruct (bool_decide _); [|destruct (spawn_fn _)]; simplify_eq; (split; [done|]); intros c;
      unfold everywhere.
    + pose proof (cnt_insert held _ _ _ WTop c Hi). cnt_simpl. lia.
    + pose proof (cnt_insert held _ _ _ (WRunning t) c Hi). cnt_simpl. lia.
    + pose proof (cnt_insert held _ _ _ WTop c Hi). cnt_simpl. lia.
  - unfold worker_finish in H. destruct (ps_workers s !! i) as [[| |t]|] eqn:Hi; simplify_eq.
    split; [done|]. intros c. unfold everywhere.
    pose proof (cnt_insert held _ _ _ WTop c Hi). cnt_simpl. lia.
Qed.

Lemma set_flags_frame cs s :
  let s' := fold_left (fun s c => set_flag c s) cs s in
  ps_shared s' = ps_shared s /\ ps_workers s' = ps_workers s /\ ps_callers s' = ps_callers s
  /\ ps_permits s' = ps_permits s /\ ps_sent s' = ps_sent s /\ ps_accepted s' = ps_accepted s.
Proof.
  revert s; induction cs as [|c cs IH]; intros s; simpl; [done|]. apply (IH (set_flag c s)).
Qed.

Lemma drop_queue_frame q s :
  let s' := fold_left (fun s t => send (pt_tx t) discarded (set_flag (pt_cancel t) s)) q s in
  ps_shared s' = ps_shared s /\ ps_workers s' = ps_workers s /\ ps_callers s' = ps_callers s
  /\ ps_permits s' = ps_permits s /\ (ps_sent s').*1 = (ps_sent s).*1 ++ (pt_tx <$> q)
  /\ ps_accepted s' = ps_accepted s.
Proof.
  revert s; induction q as [|t q IH]; intros s; cbn [fold_left]; [by rewrite app_nil_r|].
  destruct (IH (send (pt_tx t) discarded (set_flag (pt_cancel t) s))) as (-> & -> & -> & -> & -> & ->).
  simpl. rewrite fmap_app, <- app_assoc. done.
Qed.

Lemma shutdown_frame b s :
  let s' := shutdown_all b s in
  ps_shared s' = with_queue (if b then [] else queue (ps_shared s)) (with_cancels [] (ps_shared s))
  /\ ps_workers s' = ps_workers s /\ ps_callers s' = ps_callers s
  /\ ps_permits s' = ps_permits s
  /\ (ps_sent s').*1 = (ps_sent s).*1 ++ (if b then pt_tx <$> queue (ps_shared s) else [])
  /\ ps_accepted s' = ps_accepted s.
Proof.
  unfold shutdown_all. set (s1 := with_shared (with_cancels [] (ps_shared s)) s).
  destruct (set_flags_frame (scheduled_cancels (ps_shared s)) s1) as (E1 & E2 & E3 & E4 & E5 & E6).
  destruct b.
  - match goal with |- context [fold_left ?f (queue _) ?x] =>
      destruct (drop_queue_frame (queue (ps_shared s)) x) as (-> & -> & -> & -> & -> & ->) end.
    simpl. rewrite E1, E2, E3, E4, E5, E6. done.
  - cbv zeta. rewrite E1, E2, E3, E4, E5, E6. rewrite app_nil_r. by split_and!.
Qed.

Lemma shutdown_conserved b s : conserved s -> conserved (shutdown_all b s).
Proof.
  intros [Hnd Hp]%conserved_cnt. destruct (shutdown_frame b s) as (E1 & E2 & E3 & E4 & E5 & E6).
  apply conserved_cnt. rewrite E6. split; [done|]. intros c. rewrite <- Hp.
  unfold everywhere. rewrite E1, E2, E3, E5. destruct b; cnt_simpl; lia.
Qed.

(** ** Bounds *)

Lemma submit_bounded started c seed s s' :
  submit started c seed s = Ok s' -> bounded s ->
  bounded s' /\ (started = true -> attended s -> attended s').
Proof.
  intros Hs Hb. unfold submit in Hs. pose proof Hb as (B1 & B2 & B3 & B4 & B5 & B6).
  assert (enq : forall t x, bounded x -> S (length (queue (ps_shared x))) <= queue_capacity (ps_shared x) ->
    bounded (enqueue started t x) /\ (started = true -> attended (enqueue started t x))).
  { intros t x (X1 & X2 & X3 & X4 & X5 & X6 & X7) Hl. unfold enqueue.
    destruct (_ <? _) eqn:Hlt; simpl in Hlt.
    - apply Nat.ltb_lt in Hlt. destruct started; simpl.
      + split; [unfold bounded; simpl; rewrite !length_app; simpl; split_and!; lia|].
        intros _ _. simpl. by destruct (ps_workers x).
      + split; [|done]. unfold bounded; simpl; rewrite !length_app; simpl; split_and!; lia.
    - apply Nat.ltb_ge in Hlt. simpl.
      split; [unfold bounded; simpl; rewrite !length_app; simpl; split_and!; lia|].
      intros _ _. simpl. destruct (ps_workers x); simpl in *; [lia|done]. }
  destruct (_ <=? _) eqn:Hfull; [destruct (policy (ps_shared s))|]; simplify_eq.
  - done.
  - destruct (queue (ps_shared s)) as [|old q] eqn:Hq; simplify_eq.
    + apply Nat.leb_le in Hfull. simpl in Hfull. lia.
    + destruct (enq (PendingTask seed c (sd_cancel_flag seed))
        (send (pt_tx old) discarded (accept c (with_shared (with_queue q (ps_shared s)) s)))) as [H1 H2].
      * unfold bounded. simpl in *. split_and!; lia.
      * simpl in *. lia.
      * split; [done|]. auto.
  - done.
  - apply Nat.leb_gt in Hfull.
    destruct (enq (PendingTask seed c (sd_cancel_flag seed)) (accept c s)) as [H1 H2]; [done|simpl; lia|].
    split; [done|]. auto.
Qed.

Lemma work_bounded s s' :
  pool_work s s' -> bounded s -> bounded s' /\ (attended s -> attended s').
Proof.
  intros Hw (B1 & B2 & B3 & B4 & B5 & B6 & B7).
  assert (ins : forall i w, i < length (ps_workers s) -> <[i := w]> (ps_workers s) <> []).
  { intros i w Hi Hn. apply (f_equal length) in Hn. rewrite length_insert in Hn. simpl in Hn. lia. }
  destruct Hw as [i res s s' H|i s s' H|i s s' H|i res s s' H].
  - unfold caller_finish in H. destruct (ps_callers s !! i); simplify_eq. done.
  - unfold worker_take in H. destruct (ps_workers s !! i) as [[| |]|] eqn:Hi; simplify_eq.
    pose proof (lookup_lt_Some _ _ _ Hi) as Hlt.
    destruct (queue (ps_shared s)) as [|t q] eqn:Hq; simplify_eq.
    + split; [|by intros _ ?]. unfold bounded. simpl. rewrite Hq, length_delete by eauto.
      split_and!; simpl; lia.
    + split; [unfold bounded; simpl in *; rewrite length_insert; split_and!; lia|].
      intros _ _. simpl. by apply ins.
  - unfold worker_start in H. destruct (ps_workers s !! i) as [[|t|]|] eqn:Hi; simplify_eq.
    pose proof (lookup_lt_Some _ _ _ Hi) as Hlt.
    destruct (bool_decide _); [|destruct (spawn_fn _)]; simplify_eq;
      (split; [unfold bounded; simpl; rewrite length_insert; by split_and!|
               intros _ _; simpl; by apply ins]).
  - unfold worker_finish in H. destruct (ps_workers s !! i) as [[| |t]|] eqn:Hi; simplify_eq.
    pose proof (lookup_lt_Some _ _ _ Hi) as Hlt.
    split; [unfold bounded; simpl; rewrite length_insert; by split_and!|intros _ _; simpl; by apply ins].
Qed.


(** ** Reachable states *)

Definition pool_ok (reliable : bool) (s : pool) : Prop :=
  conserved s /\ bounded s /\ (reliable = true -> attended s).

Lemma acquire_ok reliable cancel s s' :
  acquire cancel s = Ok (true, s') -> pool_ok reliable s -> pool_ok reliable s'.
Proof.
  unfold acquire. intros Ha ([Hnd Hp]%conserved_cnt & (B1 & B2 & B3 & B4 & B5 & B6 & B7) & Hat).
  destruct (_ <=? _) eqn:Hle; [by destruct (bool_decide _)|]. simplify_eq.
  apply Nat.leb_gt in Hle. split_and!; [by apply conserved_cnt| |done].
  unfold bounded. simpl. split_and!; lia.
Qed.

Lemma pool_step_ok reliable s s' : pool_step reliable s s' -> pool_ok reliable s -> pool_ok reliable s'.
Proof.
  intros Hs Hok. pose proof Hok as (Hc & Hb & Ha).
  destruct Hs as [started c seed s s' Hst Hf Hsub|s s' Hw|f s|f s|b s|cancel s s' Hq|s Hpos].
  - destruct (submit_bounded _ _ _ _ _ Hsub Hb) as [Hb' Ha'].
    split_and!; [by eapply submit_conserved|done|auto].
  - destruct (work_bounded _ _ Hw Hb) as [Hb' Ha'].
    split_and!; [by eapply work_conserved|done|auto].
  - done.
  - done.
  - destruct (shutdown_frame b s) as (E1 & E2 & E3 & E4 & E5 & E6).
    split_and!; [by apply shutdown_conserved| |].
    + destruct Hb as (B1 & B2 & B3 & B4 & B5 & B6 & B7). unfold bounded. rewrite E1, E2, E4. simpl.
      split_and!; try done. destruct b; simpl; lia.
    + intros Hr. unfold attended. rewrite E1, E2. simpl. destruct b; [done|by apply Ha].
  - by eapply acquire_ok.
  - split_and!; [done| |done]. destruct Hb as (B1 & B2 & B3 & B4 & B5 & B6 & B7).
    unfold bounded. simpl. split_and!; lia.
Qed.

Lemma pool_reach_ok reliable max cap pol spawn s :
  rtc (pool_step reliable) (new_pool max cap pol spawn) s -> pool_ok reliable s.
Proof.
  intros Hr. apply (rtc_preserves _ _ _ _ (pool_step_ok reliable) Hr).
  split; [split; [apply NoDup_nil_2|done]|]. split; [|by intros _ ?]. unfold bounded. simpl. split_and!; lia.
Qed.

(** C18. Each task resolves at most once and none is lost.  However submitting
    threads, workers, cancellations, shutdowns and scheduled runs interleave,
    and whether or not threads can be started: a future handed out belongs to
    exactly one task that is queued, in the hands of one thread, or resolved by
    exactly one result; the queue stays within its capacity, at most
    [max_concurrent] workers exist (the counter is their number) and at most as
    many scheduled runs hold a permit.  When every start of a thread succeeds,
    there is a worker whenever a task is queued. *)
Theorem pool_exactly_once reliable max cap pol spawn s :
  rtc (pool_step reliable) (new_pool max cap pol spawn) s ->
  NoDup (unresolved s ++ (ps_sent s).*1)
  /\ unresolved s ++ (ps_sent s).*1 ≡ₚ ps_accepted s
  /\ length (queue (ps_shared s)) <= queue_capacity (ps_shared s)
  /\ length (ps_workers s) = live_workers (ps_shared s)
  /\ live_workers (ps_shared s) <= max_concurrent (ps_shared s)
  /\ ps_permits s <= max_concurrent (ps_shared s)
  /\ (reliable = true -> queue (ps_shared s) <> [] -> ps_workers s <> []).
Proof.
  intros ([Hnd Hp] & (B1 & B2 & B3 & B4 & B5 & B6 & B7) & Ha)%pool_reach_ok.
  split_and!; try done; [by rewrite Hp|lia].
Qed.

(** ** Progress *)

Definition weight (w : worker) : nat := match w with WTop => 1 | WTaken _ => 3 | WRunning _ => 2 end.

(** What the pool's threads still have to do. *)
Definition to_do (s : pool) : nat :=
  4 * length (queue (ps_shared s)) + sum_list_with weight (ps_workers s) + length (ps_callers s).

Lemma weight_insert l i w w' :
  l !! i = Some w -> sum_list_with weight (<[i := w']> l) + weight w = sum_list_with weight l + weight w'.
Proof.
  revert i; induction l as [|x l IH]; intros [|i] Hi; simpl in *; try done; [simplify_eq; lia|].
  specialize (IH i Hi). lia.
Qed.

Lemma weight_delete l i w :
  l !! i = Some w -> weight w + sum_list_with weight (delete i l) = sum_list_with weight l.
Proof.
  revert i; induction l as [|x l IH]; intros [|i] Hi; simpl in *; try done; [by simplify_eq|].
  specialize (IH i Hi). lia.
Qed.

Lemma work_decreases s s' : pool_work s s' -> to_do s' < to_do s.
Proof.
  intros [i res s1 s2 H|i s1 s2 H|i s1 s2 H|i res s1 s2 H]; unfold to_do.
  - unfold caller_finish in H. destruct (ps_callers s1 !! i) eqn:Hi; simplify_eq. simpl.
    rewrite length_delete by eauto. pose proof (lookup_lt_Some _ _ _ Hi). lia.
  - unfold worker_take in H. destruct (ps_workers s1 !! i) as [[| |]|] eqn:Hi; simplify_eq.
    destruct (queue (ps_shared s1)) as [|t q] eqn:Hq; simplify_eq; simpl; rewrite ?Hq.
    + pose proof (weight_delete _ _ _ Hi). simpl in *. lia.
    + pose proof (weight_insert _ _ _ (WTaken t) Hi). simpl in *. lia.
  - unfold worker_start in H. destruct (ps_workers s1 !! i) as [[|t|]|] eqn:Hi; simplify_eq.
    pose proof (weight_insert _ _ _ WTop Hi). pose proof (weight_insert _ _ _ (WRunning t) Hi).
    destruct (bool_decide _); [|destruct (spawn_fn _)]; simplify_eq; simpl in *; lia.
  - unfold worker_finish in H. destruct (ps_workers s1 !! i) as [[| |t]|] eqn:Hi; simplify_eq.
    pose proof (weight_insert _ _ _ WTop Hi). simpl in *. lia.
Qed.

(** A thread with something to do can do it. *)
Lemma worker_can_step w ws s : ps_workers s = w :: ws -> exists s', pool_work s s'.
Proof.
  intros Hw. assert (H0 : ps_workers s !! 0 = Some w) by by rewrite Hw.
  destruct w as [|t|t].
  - destruct (queue (ps_shared s)) eqn:Hq; eexists; apply (work_take 0);
      unfold worker_take; rewrite H0, Hq; done.
  - destruct (bool_decide (pt_cancel t ∈ ps_flags s)) eqn:Hc;
      [|destruct (spawn_fn (ps_shared s)) eqn:Hf]; eexists; apply (work_start 0);
      unfold worker_start; rewrite H0, Hc, ?Hf; done.
  - eexists. apply (work_finish 0 None). unfold worker_finish. by rewrite H0.
Qed.

(** The pool has nothing left to do. *)
Definition drained (s : pool) : Prop := (ps_sent s).*1 ≡ₚ ps_accepted s /\ ps_workers s = [].

Lemma stuck_drained s : pool_ok true s -> drained s \/ exists s', pool_work s s'.
Proof.
  intros ([_ Hp] & _ & Ha). destruct (ps_workers s) as [|w ws] eqn:Hw.
  - destruct (ps_callers s) as [|t ts] eqn:Hcs.
    + left. split; [|done]. rewrite <- Hp. unfold unresolved. rewrite Hw, Hcs.
      destruct (queue (ps_shared s)) as [|t q] eqn:Hq; [done|].
      exfalso. by apply Ha; [|rewrite Hq|].
    + right. eexists. apply (work_caller 0 None). unfold caller_finish. by rewrite Hcs.
  - right. by eapply worker_can_step.
Qed.

(** C30. Progress of the pool: when threads can be started, the pool's threads
    finish what has been accepted.  From any reachable state their steps are
    bounded in number, and whenever none of them can take a further step every
    accepted task has been resolved and every worker has ended; so such a state
    is reached. *)
Theorem pool_drains max cap pol spawn s :
  rtc (pool_step true) (new_pool max cap pol spawn) s ->
  (forall n s', nsteps pool_work n s s' -> n <= to_do s)
  /\ (forall s', rtc pool_work s s' -> (forall s'', ~ pool_work s' s'') -> drained s')
  /\ exists s', rtc pool_work s s' /\ drained s'.
Proof.
  intros Hok%pool_reach_ok.
  assert (keep : forall s', rtc pool_work s s' -> pool_ok true s').
  { intros s' Hr. apply (rtc_preserves _ (pool_ok true) _ _) in Hr; [done| |done].
    intros a b Hab. apply pool_step_ok. by constructor. }
  split_and!.
  - intros n s' Hn. pose proof (nsteps_measure _ to_do _ _ _ work_decreases Hn). lia.
  - intros s' Hr Hstuck. destruct (stuck_drained s' (keep s' Hr)) as [|[s'' H]]; [done|].
    by destruct (Hstuck s'').
  - apply (rtc_terminates _ to_do); [apply work_decreases|]. intros a Ha.
    by apply stuck_drained, keep.
Qed.

(** When a thread cannot be started the task stays queued, with no worker to
    take it, and its future never resolves. *)
Lemma submit_stranded :
  exists s, submit false 7 (ThreadSeed VNull 0) (new_pool 1 1 PAbort true) = Ok s
    /\ unresolved s = [7%N] /\ forall s', ~ pool_work s s'.
Proof.
  eexists. split; [reflexivity|]. split; [reflexivity|].
  intros s' H. inversion H as [i res ? ? E|i ? ? E|i ? ? E|i res ? ? E]; subst;
    unfold caller_finish, worker_take, worker_start, worker_finish in E; by destruct i.
Qed.
