(* ===== verification/AsyncFuture.v ===== *)
(** * AsyncFuture: futures and the completion queue

    The native objects behind [runAsync] and the executors (cfml-vm:
    [async_kernel.rs]): a [FutureNative] that resolves from the channel of its
    task, and the [CompletionQueueNative] that hands out finished futures.

    What a wait on a channel ends with is up to the task: [Some] a result, or
    [None] when the wait timed out or every sender is gone.  Calls on one object
    are serialized by its lock, so each is one step. *)

From stdpp Require Import base list numbers strings gmap sets relations.
From S2P Require Import Prelude Text Float64 Value AsyncPool.

(** What a future needs of its [ThreadHandle]: channel and cancel flag. *)
Record thread_handle := ThreadHandle { th_rx : N; th_cancel : N }.

Record future := FutureNative {
  fu_handle : option thread_handle;
  fu_result : option thread_result;
  fu_inline_resolved : bool;
  fu_strict_value : bool
}.

Definition from_handle (h : thread_handle) : future := FutureNative (Some h) None false false.
Definition from_handle_strict (h : thread_handle) : future := FutureNative (Some h) None false true.
Definition resolved (r : thread_result) : future := FutureNative None (Some r) true false.
Definition resolved_strict (r : thread_result) : future := FutureNative None (Some r) true true.

(** [ValueMap::get]: keys compare without ASCII case. *)
Definition map_get (k : str) (m : list (str * value)) : option value :=
  snd <$> find (fun e => eq_ignore_ascii_case e.1 k) m.

(** The future's value, once its result is there. *)
Definition answer (strict : bool) (r : thread_result) : outcome cfml_error value :=
  if bool_decide (tr_error r <> []) then Err (runtime (tr_error r))
  else
    let fallback :=
      if strict then VNull
      else match map_get (lit "result") (tr_thread_vars r) with
           | Some v => v
           | None => match tr_thread_vars r with [] => VNull | vars => VStruct vars end
           end in
    match tr_return_value r with
    | Some v => if is_null v then Ok fallback else Ok v
    | None => Ok fallback
    end.

Definition resolve (r : thread_result) (f : future) : future :=
  FutureNative None (Some r) (fu_inline_resolved f) (fu_strict_value f).

(** [arrived] is what the wait on the channel ends with. *)
Definition await_result (arrived : option thread_result) (f : future)
    : outcome cfml_error value * future :=
  match fu_result f with
  | Some r => (answer (fu_strict_value f) r, f)
  | None =>
      match fu_handle f with
      | Some _ =>
          match arrived with
          | Some r => (answer (fu_strict_value f) r, resolve r f)
          | None => (Ok VNull, f)
          end
      | None => (Panic, f)
      end
  end.

(** [ready] is what [try_recv] finds. *)
Definition is_done (ready : option thread_result) (f : future) : bool * future :=
  match fu_result f, fu_handle f, ready with
  | Some _, _, _ => (true, f)
  | None, Some _, Some r => (true, resolve r f)
  | None, _, _ => (false, f)
  end.

Definition is_cancelled (flags : gset N) (f : future) : bool :=
  match fu_result f with
  | Some r => bool_decide (tr_status r = lit "TERMINATED")
  | None => match fu_handle f with
            | Some h => bool_decide (th_cancel h ∈ flags)
            | None => false
            end
  end.

Definition error_message (f : future) : str :=
  match fu_result f with Some r => tr_error r | None => [] end.

Definition status_str (f : future) : str :=
  match fu_result f with
  | Some r => tr_status r
  | None => match fu_handle f with Some _ => lit "RUNNING" | None => lit "UNKNOWN" end
  end.

(** The flag to set, if the future may still be cancelled. *)
Definition cancel (f : future) : bool * option N :=
  if fu_inline_resolved f || bool_decide (fu_result f <> None) then (false, None)
  else match fu_handle f with
       | Some h => (true, Some (th_cancel h))
       | None => (false, None)
       end.

Section Methods.
Context {U : Unicode} {D : DateLib}.

(** The timeout of [get], in milliseconds; 0 waits for ever. *)
Definition get_timeout (args : list value) : Z :=
  match args with
  | v :: _ => match parse_i64 (as_string v) with Some t => t | None => 0%Z end
  | [] => 0%Z
  end.

(** [call_method]: the outcome, the future afterwards, and the flag set.  [wait]
    gives what a wait of that many milliseconds ends with. *)
Definition future_call (wait : Z -> option thread_result) (ready : option thread_result)
    (flags : gset N) (name : str) (args : list value) (f : future)
    : outcome cfml_error value * future * option N :=
  let n := map ascii_lower name in
  if bool_decide (n = lit "get") then (await_result (wait (get_timeout args)) f, None)
  else if bool_decide (n = lit "isdone")
  then let '(b, f) := is_done ready f in (Ok (VBool b), f, None)
  else if bool_decide (n = lit "iscancelled") || bool_decide (n = lit "iscanceled")
  then (Ok (VBool (is_cancelled flags f)), f, None)
  else if bool_decide (n = lit "cancel")
  then let '(b, fl) := cancel f in (Ok (VBool b), f, fl)
  else if bool_decide (n = lit "error") then (Ok (VString (error_message f)), f, None)
  else if bool_decide (n = lit "status") then (Ok (VString (status_str f)), f, None)
  else (Err (runtime (lit "Future has no method [" ++ n ++ lit "]")), f, None).

(** [get_property] looks at the cached state only. *)
Definition future_property (name : str) (f : future) : option value :=
  let n := map ascii_lower name in
  if bool_decide (n = lit "done") then Some (VBool (bool_decide (fu_result f <> None)))
  else if bool_decide (n = lit "status") then Some (VString (status_str f))
  else if bool_decide (n = lit "error") then Some (VString (error_message f))
  else None.
End Methods.

(** ** The completion queue *)

(** Futures are shared: the queue holds their addresses. *)
Definition future_done (ready : N -> option thread_result) (p : N) (store : gmap N future)
    : bool * gmap N future :=
  match store !! p with
  | Some f => let '(b, f) := is_done (ready p) f in (b, <[p := f]> store)
  | None => (false, store)
  end.

(** [position(future_done)]: the first finished future; those before it have
    been asked too. *)
Fixpoint first_done (ready : N -> option thread_result) (i : nat) (pending : list N)
    (store : gmap N future) : option nat * gmap N future :=
  match pending with
  | [] => (None, store)
  | p :: pending =>
      match future_done ready p store with
      | (true, store) => (Some i, store)
      | (false, store) => first_done ready (S i) pending store
      end
  end.

(** [poll]: the future taken out, if any. *)
Definition poll (ready : N -> option thread_result) (pending : list N) (store : gmap N future)
    : option N * list N * gmap N future :=
  match first_done ready 0 pending store with
  | (Some i, store) => (pending !! i, delete i pending, store)
  | (None, store) => (None, pending, store)
  end.

(** [take] asks again every two milliseconds; [rounds] gives what each round
    finds.  [None]: still waiting. *)
Fixpoint take_done (rounds : list (N -> option thread_result)) (pending : list N)
    (store : gmap N future) : option (option N * list N * gmap N future) :=
  match rounds with
  | [] => None
  | ready :: rounds =>
      match first_done ready 0 pending store with
      | (Some i, store) => Some (pending !! i, delete i pending, store)
      | (None, store) =>
          match pending with
          | [] => Some (None, [], store)
          | _ => take_done rounds pending store
          end
      end
  end.

(** What a call on the queue gives back: a pending future, or a value of its own. *)
Inductive queue_answer := QFuture (p : N) | QValue (v : value).

(** [CompletionQueueNative::call_method]; [None]: [take] is still waiting. *)
Definition queue_call (rounds : list (N -> option thread_result)) (name : str) (args : list N)
    (pending : list N) (store : gmap N future)
    : option (outcome cfml_error queue_answer * list N * gmap N future) :=
  let n := map ascii_lower name in
  let given out := match out with Some p => QFuture p | None => QValue VNull end in
  if bool_decide (n = lit "add")
  then Some (Ok (QValue (VBool true)),
             match args with p :: _ => pending ++ [p] | [] => pending end, store)
  else if bool_decide (n = lit "poll")
  then match rounds with
       | ready :: _ => let '(out, rest, store) := poll ready pending store in
                       Some (Ok (given out), rest, store)
       | [] => None
       end
  else if bool_decide (n = lit "take")
  then match take_done rounds pending store with
       | Some (out, rest, store) => Some (Ok (given out), rest, store)
       | None => None
       end
  else if bool_decide (n = lit "size")
  then Some (Ok (QValue (VInt (Z.of_nat (length pending)))), pending, store)
  else if bool_decide (n = lit "clear") then Some (Ok (QValue VNull), [], store)
  else Some (Err (runtime (lit "CompletionQueue has no method [" ++ n ++ lit "]")), pending, store).

(** ** Facts *)

(** A future waits for its channel or has its result. *)
Definition future_ok (f : future) : Prop := fu_handle f = None <-> fu_result f <> None.

(** Everything a caller can do with a future. *)
Inductive future_op :=
  | OpGet (arrived : option thread_result)
  | OpIsDone (ready : option thread_result)
  | OpOther.

Definition run_op (o : future_op) (f : future) : future :=
  match o with
  | OpGet a => (await_result a f).2
  | OpIsDone r => (is_done r f).2
  | OpOther => f
  end.

Definition run_ops (os : list future_op) (f : future) : future :=
  fold_left (fun f o => run_op o f) os f.

Lemma run_op_ok o f : future_ok f -> future_ok (run_op o f).
Proof.
  unfold future_ok. destruct f as [[h|] [r|] b c], o as [[a|]|[a|]|]; simpl; naive_solver.
Qed.

Lemma run_op_resolved o f r : fu_result f = Some r -> run_op o f = f.
Proof. destruct f as [h [r'|] b c]; [|done]. by destruct o as [[]|[]|]. Qed.

Lemma run_ops_ok os f : future_ok f -> future_ok (run_ops os f).
Proof. revert f; induction os as [|o os IH]; intros f Hf; simpl; [done|]. by apply IH, run_op_ok. Qed.

Lemma run_ops_resolved os f r :
  fu_result f = Some r -> run_ops os f = f.
Proof.
  revert f; induction os as [|o os IH]; intros f Hf; simpl; [done|].
  rewrite (run_op_resolved o f r Hf). by apply IH.
Qed.

Lemma run_ops_strict os f : fu_strict_value (run_ops os f) = fu_strict_value f.
Proof.
  revert f; induction os as [|o os IH]; intros f; [done|]. unfold run_ops in *. simpl. rewrite IH.
  by destruct f as [[|] [|] ? ?], o as [[]|[]|].
Qed.

Lemma answer_total strict r : answer strict r <> Panic.
Proof.
  unfold answer. destruct (bool_decide _); [done|].
  destruct (tr_return_value r) as [v|]; [by destruct (is_null v)|done].
Qed.

(** A future's answer is stable.  After any calls on a future that was made
    from a task or resolved at once, [get] does not panic; and once the result
    is there, [get] gives its answer whatever the channel says, [isDone] is
    true, the status is the result's, and [cancel] refuses, for ever. *)
Theorem future_stable h r0 strict os os' arrived ready :
  forall f, f ∈ [FutureNative (Some h) None false strict; FutureNative None (Some r0) true strict] ->
    (await_result arrived (run_ops os f)).1 <> Panic
    /\ forall r, fu_result (run_ops os f) = Some r ->
         let f' := run_ops os' (run_ops os f) in
         await_result arrived f' = (answer strict r, f') /\ is_done ready f' = (true, f')
         /\ status_str f' = tr_status r /\ cancel f' = (false, None).
Proof.
  intros f Hf. assert (future_ok f /\ fu_strict_value f = strict) as [Hok Hst].
  { unfold future_ok. apply elem_of_cons in Hf as [->| ->%list_elem_of_singleton]; naive_solver. }
  split.
  - pose proof (run_ops_ok os f Hok) as H. unfold await_result, future_ok in *.
    destruct (fu_result (run_ops os f)) as [r|]; [apply answer_total|].
    destruct (fu_handle (run_ops os f)) as [|]; [|by destruct H as [H _]; destruct (H eq_refl)].
    destruct arrived; simpl; [apply answer_total|done].
  - intros r Hr. cbv zeta. rewrite (run_ops_resolved os' _ r Hr).
    pose proof (run_ops_strict os f) as E. rewrite Hst in E.
    unfold await_result, is_done, status_str, cancel. rewrite Hr, E.
    split_and!; try done. by rewrite bool_decide_true, orb_true_r.
Qed.

(** A future whose task ended without a result (every sender gone) never
    resolves: [get] returns null at once and [isDone] stays false. *)
Lemma future_lost h os :
  (forall o, o ∈ os -> o = OpGet None \/ o = OpIsDone None \/ o = OpOther) ->
  let f := run_ops os (from_handle h) in
  (await_result None f).1 = Ok VNull /\ (is_done None f).1 = false.
Proof.
  assert (E : forall o, o = OpGet None \/ o = OpIsDone None \/ o = OpOther ->
    run_op o (from_handle h) = from_handle h) by (intros o [->|[->| ->]]; done).
  intros H. cbv zeta.
  assert (run_ops os (from_handle h) = from_handle h) as ->; [|done]. unfold run_ops.
  induction os as [|o os IH]; simpl; [done|]. rewrite E by (apply H; left).
  apply IH. intros o' Ho'. apply H. by right.
Qed.

(** *** Completion order *)

Definition finished (ready : N -> option thread_result) (store : gmap N future) (p : N) : bool :=
  (future_done ready p store).1.

Lemma future_done_other ready p q store :
  p <> q -> (future_done ready p store).2 !! q = store !! q.
Proof.
  intros Hpq. unfold future_done. destruct (store !! p); [|done].
  destruct (is_done _ _). simpl. by rewrite lookup_insert_ne.
Qed.

Lemma is_done_again r f : (is_done r (is_done r f).2).1 = (is_done r f).1.
Proof. by destruct f as [[|] [|] ? ?], r. Qed.

Lemma finished_lookup ready st st' q :
  st !! q = st' !! q -> finished ready st q = finished ready st' q.
Proof.
  intros E. unfold finished, future_done. rewrite E. destruct (st' !! q); [|done].
  by destruct (is_done _ _).
Qed.

Lemma future_done_again ready p q store :
  finished ready (future_done ready p store).2 q = finished ready store q.
Proof.
  destruct (decide (p = q)) as [->|Hpq]; [|by apply finished_lookup, future_done_other].
  unfold finished, future_done. destruct (store !! q) as [f|] eqn:Hf; simpl; [|by rewrite Hf].
  pose proof (is_done_again (ready q) f) as E.
  destruct (is_done (ready q) f) as [b f']. simpl in *. rewrite lookup_insert_eq.
  by destruct (is_done (ready q) f').
Qed.

Lemma first_done_spec ready i pending store :
  (first_done ready i pending store).1
  = (fun j => i + j) <$> position (finished ready store) pending.
Proof.
  revert i store; induction pending as [|p pending IH]; intros i store; simpl; [done|].
  change (finished ready store p) with (future_done ready p store).1.
  destruct (future_done ready p store) as [[] store'] eqn:Hd; simpl; [by rewrite Nat.add_0_r|].
  rewrite IH. replace store' with (future_done ready p store).2 by by rewrite Hd.
  assert (E : position (finished ready (future_done ready p store).2) pending
              = position (finished ready store) pending).
  { clear. induction pending as [|q l IH]; cbn [position]; [done|]. rewrite future_done_again.
    destruct (finished ready store q); [done|]. by rewrite IH. }
  rewrite E. destruct (position (finished ready store) pending) as [j|]; cbn; [f_equal; lia|reflexivity].
Qed.

(** [poll] takes out the first future that has finished and no other. *)
Lemma poll_first ready pending store :
  let '(out, rest, _) := poll ready pending store in
  match position (finished ready store) pending with
  | Some i => out = pending !! i /\ rest = delete i pending
  | None => out = None /\ rest = pending
  end.
Proof.
  unfold poll. pose proof (first_done_spec ready 0 pending store) as H.
  destruct (first_done ready 0 pending store) as [[i|] store']; simpl in H;
    destruct (position _ _); simplify_eq/=; done.
Qed.

Lemma position_none {A} (f : A -> bool) l :
  position f l = None -> forall x, x ∈ l -> f x = false.
Proof.
  induction l as [|y l IH]; cbn [position]; intros H x Hx; [by apply not_elem_of_nil in Hx|].
  destruct (f y) eqn:Hy; [done|]. apply elem_of_cons in Hx as [->|Hx]; [done|].
  apply IH; [|done]. by destruct (position f l).
Qed.

(** [take] on a non-empty queue returns a pending future, never null, as soon as
    some round finds one finished. *)
Lemma take_done_some ready rounds pending store q :
  q ∈ pending -> finished ready store q = true ->
  exists p store', take_done (ready :: rounds) pending store = Some (Some p, store'.1, store'.2)
                   /\ p ∈ pending.
Proof.
  intros Hq Hf. simpl. pose proof (first_done_spec ready 0 pending store) as H.
  destruct (first_done ready 0 pending store) as [[i|] store'] eqn:Hd; simpl in H.
  - destruct (position (finished ready store) pending) as [j|] eqn:Hj; [|done]. simplify_eq/=.
    destruct (pending !! j) as [p|] eqn:Hp.
    + exists p, (delete j pending, store'). split; [done|]. by eapply list_elem_of_lookup_2.
    + exfalso. clear -Hj Hp. revert j Hj Hp. induction pending as [|y l IH]; cbn [position]; [done|].
      intros j Hj Hp. destruct (finished ready store y); [by simplify_eq|].
      destruct (position (finished ready store) l) as [k|] eqn:Hk; simplify_eq/=. by eapply IH.
  - destruct (position (finished ready store) pending) eqn:Hj; [done|].
    by rewrite (position_none _ _ Hj q Hq) in Hf.
Qed.
