(* ===== verification/AsyncSchedule.v ===== *)
(** * AsyncSchedule: the timer thread and its pool of runners

    The scheduler behind [_schedule] (cfml-vm: [schedule_wheel.rs]): one timer
    thread that parks on the earliest deadline, a queue of due tasks, and runner
    threads that run a task's body and put a periodic task back.

    A critical section under the state's mutex is one step; parking on a
    condition variable ends it.  A parked thread may wake at any time, as
    condition variables allow.  Instants are nanoseconds.  What a body returns,
    whether a permit was granted and whether a thread could be started are up to
    the environment. *)

From stdpp Require Import base list numbers strings gmap sets relations.
From S2P Require Import Prelude Text Float64 Value AsyncPool.
Local Open Scope Z_scope.

Definition MAX_RUNNERS : nat := 64.

Definition from_millis (ms : Z) : Z := ms * 1000000.

(** ** State *)

Record task := Task {
  tk_seed : thread_seed;
  tk_period : option (Z * bool);
  tk_permits : bool;
  tk_cancel : N;
  tk_tx : N;
  tk_run_at : Z;
  tk_first : bool
}.

Record wheel := Wheel {
  wh_heap : list (Z * N);
  wh_tasks : gmap N task;
  wh_pending : list (N * task);
  wh_next_id : N;
  wh_timer_started : bool;
  wh_idle_runners : nat;
  wh_live_runners : nat
}.

(** The timer thread: not started, at the top of its loop, about to signal a
    runner, parked until a deadline or for ever. *)
Inductive timer := TOff | TTop | TNotify | TParked (until : option Z).

(** A runner: about to look at the queue, parked on [work_cv], signalled, or
    running a task. *)
Inductive runner := RTop | RWaiting | RNotified | RBusy (id : N) (t : task).

Record sched := Sched {
  sc_wheel : wheel;
  sc_timer : timer;
  sc_runners : list runner;
  sc_sent : list (N * thread_result);
  sc_flags : gset N;
  sc_now : Z
}.

Definition new_sched : sched := Sched (Wheel [] ∅ [] 0 false 0 0) TOff [] [] ∅ 0.

Definition with_wheel (w : wheel) (s : sched) : sched :=
  Sched w (sc_timer s) (sc_runners s) (sc_sent s) (sc_flags s) (sc_now s).

Definition with_timer (t : timer) (s : sched) : sched :=
  Sched (sc_wheel s) t (sc_runners s) (sc_sent s) (sc_flags s) (sc_now s).

Definition with_runners (rs : list runner) (s : sched) : sched :=
  Sched (sc_wheel s) (sc_timer s) rs (sc_sent s) (sc_flags s) (sc_now s).

Definition with_sent (ms : list (N * thread_result)) (s : sched) : sched :=
  Sched (sc_wheel s) (sc_timer s) (sc_runners s) (sc_sent s ++ ms) (sc_flags s) (sc_now s).

Definition wheel_terminated : thread_result := terminated [].

(** ** The heap: least deadline first, then least id *)

Definition entry_leb (a b : Z * N) : bool := (a.1 <? b.1) || ((a.1 =? b.1) && (a.2 <=? b.2)%N).

Fixpoint heap_peek (h : list (Z * N)) : option (Z * N) :=
  match h with
  | [] => None
  | e :: h => match heap_peek h with
              | Some m => Some (if entry_leb e m then e else m)
              | None => Some e
              end
  end.

Fixpoint heap_remove (m : Z * N) (h : list (Z * N)) : list (Z * N) :=
  match h with
  | [] => []
  | e :: h => if bool_decide (e = m) then h else e :: heap_remove m h
  end.

Definition heap_pop (h : list (Z * N)) : list (Z * N) :=
  match heap_peek h with Some m => heap_remove m h | None => h end.

(** Drop the entries at the top whose task has gone. *)
Fixpoint prune (fuel : nat) (ts : gmap N task) (h : list (Z * N)) : list (Z * N) :=
  match fuel with
  | 0%nat => h
  | S fuel => match heap_peek h with
              | Some (_, id) => if bool_decide (is_Some (ts !! id)) then h
                                else prune fuel ts (heap_pop h)
              | None => h
              end
  end.

(** ** Arming *)

(** [timer_cv.notify_all] *)
Definition notify_timer (t : timer) : timer := match t with TParked _ => TTop | t => t end.

(** [wake]; the cancel flag has been set before. *)
Definition wake (s : sched) : sched := with_timer (notify_timer (sc_timer s)) s.

(** [schedule] on a fresh channel [c]; [started]: the timer thread could be
    started, if this is the first schedule. *)
Definition schedule (started : bool) (c : N) (seed : thread_seed) (delay_ms : Z)
    (period : option (Z * bool)) (permits : bool) (cancel : N) (s : sched) : sched :=
  let w := sc_wheel s in
  let due := sc_now s + from_millis (Z.max delay_ms 0) in
  let id := wh_next_id w in
  let t := Task seed period permits cancel c due true in
  let start := negb (wh_timer_started w) && started in
  Sched (Wheel (wh_heap w ++ [(due, id)]) (<[id := t]> (wh_tasks w)) (wh_pending w) (id + 1)
           (wh_timer_started w || started) (wh_idle_runners w) (wh_live_runners w))
    (if start then TTop else notify_timer (sc_timer s)) (sc_runners s) (sc_sent s) (sc_flags s)
    (sc_now s).

(** ** The timer *)

Definition flagged (s : sched) (t : task) : bool := bool_decide (tk_cancel t ∈ sc_flags s).

(** Resolve the waiting schedules that were cancelled. *)
Definition retire (s : sched) : sched :=
  let w := sc_wheel s in
  let dead := List.filter (fun e => flagged s e.2) (map_to_list (wh_tasks w)) in
  with_sent (map (fun e => (tk_tx e.2, wheel_terminated)) dead)
    (with_wheel (Wheel (wh_heap w) (filter (fun e => flagged s e.2 = false) (wh_tasks w))
                   (wh_pending w) (wh_next_id w) (wh_timer_started w) (wh_idle_runners w)
                   (wh_live_runners w)) s).

Definition with_heap (h : list (Z * N)) (w : wheel) : wheel :=
  Wheel h (wh_tasks w) (wh_pending w) (wh_next_id w) (wh_timer_started w) (wh_idle_runners w)
    (wh_live_runners w).

(** Move the due task to the queue and see to it that someone picks it up. *)
Definition dispatch (started : bool) (id : N) (t : task) (s : sched) : sched :=
  let w := sc_wheel s in
  let more := (wh_idle_runners w =? 0)%nat && (wh_live_runners w <? MAX_RUNNERS)%nat && started in
  Sched (Wheel (wh_heap w) (wh_tasks w) (wh_pending w ++ [(id, t)]) (wh_next_id w)
           (wh_timer_started w) (wh_idle_runners w)
           (if more then S (wh_live_runners w) else wh_live_runners w))
    TNotify (if more then sc_runners s ++ [RTop] else sc_runners s) (sc_sent s) (sc_flags s)
    (sc_now s).

Definition drop_task (id : N) (s : sched) : sched :=
  let w := sc_wheel s in
  with_wheel (Wheel (wh_heap w) (delete id (wh_tasks w)) (wh_pending w) (wh_next_id w)
                (wh_timer_started w) (wh_idle_runners w) (wh_live_runners w)) s.

(** One iteration of [timer_loop]. *)
Definition timer_iter (started : bool) (s : sched) : option sched :=
  match sc_timer s with
  | TTop =>
      let s := retire s in
      let h := prune (length (wh_heap (sc_wheel s))) (wh_tasks (sc_wheel s)) (wh_heap (sc_wheel s)) in
      Some match heap_peek h with
           | None => with_timer (TParked None) (with_wheel (with_heap h (sc_wheel s)) s)
           | Some (d, id) =>
               if sc_now s <? d
               then with_timer (TParked (Some d)) (with_wheel (with_heap h (sc_wheel s)) s)
               else
                 let s := with_wheel (with_heap (heap_pop h) (sc_wheel s)) s in
                 match wh_tasks (sc_wheel s) !! id with
                 | None => s
                 | Some t =>
                     let s := drop_task id s in
                     if flagged s t then with_sent [(tk_tx t, wheel_terminated)] s
                     else dispatch started id t s
                 end
           end
  | _ => None
  end.

Definition is_waiting (r : runner) : bool := match r with RWaiting => true | _ => false end.

(** [work_cv.notify_one]: one parked runner, [i], if there is any. *)
Definition notify_one (i : nat) (s : sched) : option sched :=
  match sc_timer s with
  | TNotify =>
      match sc_runners s !! i with
      | Some RWaiting => Some (with_timer TTop (with_runners (<[i := RNotified]> (sc_runners s)) s))
      | _ => if existsb is_waiting (sc_runners s) then None else Some (with_timer TTop s)
      end
  | _ => None
  end.

(** ** The runners *)

Definition with_idle (n : nat) (w : wheel) : wheel :=
  Wheel (wh_heap w) (wh_tasks w) (wh_pending w) (wh_next_id w) (wh_timer_started w) n
    (wh_live_runners w).

(** Look at the queue: take a task, or park. *)
Definition look (i : nat) (s : sched) : sched :=
  let w := sc_wheel s in
  match wh_pending w with
  | (id, t) :: q =>
      with_runners (<[i := RBusy id t]> (sc_runners s))
        (with_wheel (Wheel (wh_heap w) (wh_tasks w) q (wh_next_id w) (wh_timer_started w)
                       (wh_idle_runners w) (wh_live_runners w)) s)
  | [] =>
      with_runners (<[i := RWaiting]> (sc_runners s))
        (with_wheel (with_idle (S (wh_idle_runners w)) w) s)
  end.

(** A runner at the top of its loop, or back from the condition variable. *)
Definition runner_look (i : nat) (s : sched) : option sched :=
  match sc_runners s !! i with
  | Some RTop => Some (look i s)
  | Some RNotified =>
      Some (look i (with_wheel (with_idle (wh_idle_runners (sc_wheel s) - 1) (sc_wheel s)) s))
  | _ => None
  end.

(** [while n <= now { n += period }] *)
Fixpoint skip_missed (fuel : nat) (n now period : Z) : option Z :=
  if n <=? now
  then match fuel with
       | 0%nat => None
       | S fuel => skip_missed fuel (n + period) now period
       end
  else Some n.

(** The rounds the loop needs. *)
Definition missed (n now period : Z) : nat := Z.to_nat ((now - n) / period + 1).

(** When a periodic task runs again; [now] is the end of its run. *)
Definition next_run (now : Z) (t : task) (period_ms : Z) (fixed_rate : bool) : option Z :=
  let p := from_millis (Z.max period_ms 0) in
  if fixed_rate then skip_missed (missed (tk_run_at t + p) now p) (tk_run_at t + p) now p
  else Some (now + p).

Definition is_terminated (res : option thread_result) : bool :=
  match res with Some r => bool_decide (tr_status r = lit "TERMINATED") | None => true end.

(** What [run_once] does after the body: the result it sends, and the task it
    puts back with its next deadline.  [None]: the loop of a fixed rate does not
    end. *)
Definition after_run (now : Z) (cancelled : bool) (res : option thread_result) (t : task)
    : option (list thread_result * option task) :=
  match tk_period t with
  | None => Some (if tk_first t then match res with Some r => [r] | None => [] end else [], None)
  | Some (period_ms, fixed_rate) =>
      if is_terminated res || cancelled then Some ([wheel_terminated], None)
      else match next_run now t period_ms fixed_rate with
           | Some next =>
               Some ([], Some (Task (tk_seed t) (tk_period t) (tk_permits t) (tk_cancel t) (tk_tx t)
                                 next false))
           | None => None
           end
  end.

(** Put a periodic task back. *)
Definition rearm (id : N) (t : task) (s : sched) : sched :=
  let w := sc_wheel s in
  with_timer (notify_timer (sc_timer s))
    (with_wheel (Wheel (wh_heap w ++ [(tk_run_at t, id)]) (<[id := t]> (wh_tasks w)) (wh_pending w)
                   (wh_next_id w) (wh_timer_started w) (wh_idle_runners w) (wh_live_runners w)) s).

(** [run_once]: [granted] is the answer of [acquire] for a task with permits. *)
Definition run_once (i : nat) (granted : bool) (res : option thread_result) (s : sched)
    : option sched :=
  match sc_runners s !! i with
  | Some (RBusy id t) =>
      let s := with_runners (<[i := RTop]> (sc_runners s)) s in
      if tk_permits t && negb granted then Some (with_sent [(tk_tx t, wheel_terminated)] s)
      else match after_run (sc_now s) (flagged s t) res t with
           | Some (msgs, again) =>
               let s := with_sent (map (pair (tk_tx t)) msgs) s in
               Some match again with Some t => rearm id t s | None => s end
           | None => None
           end
  | _ => None
  end.

(** A parked runner wakes without being signalled. *)
Definition runner_wake (i : nat) (s : sched) : option sched :=
  match sc_runners s !! i with
  | Some RWaiting => Some (with_runners (<[i := RNotified]> (sc_runners s)) s)
  | _ => None
  end.
