(* ===== verification/AsyncScheduleFacts.v ===== *)
(** * AsyncScheduleFacts: the scheduler's invariant, its timing, and a stall

    In every reachable state each schedule is waiting, due or running, in one
    place only; waiting schedules have exactly one entry in the heap, at their
    deadline; runners are counted right; and a due task has a runner on its way
    to it.  The timer fires the earliest due schedule, never early, and never
    parks past a deadline.  A due task can nevertheless be left waiting behind
    another schedule's body although more runners may be started. *)

From stdpp Require Import base list numbers strings gmap sets relations.
From S2P Require Import Prelude Text Float64 Value AsyncPool AsyncSchedule.
Local Open Scope Z_scope.

(** ** Where the schedules are *)

Definition busy (r : runner) : list (N * task) := match r with RBusy id t => [(id, t)] | _ => [] end.

Definition live (s : sched) : list (N * task) :=
  map_to_list (wh_tasks (sc_wheel s)) ++ wh_pending (sc_wheel s) ++ flat_map busy (sc_runners s).

(** The channels of the schedules, and those resolved. *)
Definition channels (s : sched) : list N := (tk_tx <$> (live s).*2) ++ (sc_sent s).*1.

(** ** Steps *)

Inductive sched_step (reliable : bool) : sched -> sched -> Prop :=
  | st_tick d s : 0 <= d ->
      sched_step reliable s
        (Sched (sc_wheel s) (sc_timer s) (sc_runners s) (sc_sent s) (sc_flags s) (sc_now s + d))
  | st_schedule started c seed delay period permits cancel s :
      (reliable = true -> started = true) ->
      c ∉ channels s ->
      sched_step reliable s (schedule started c seed delay period permits cancel s)
  | st_flag f s :
      sched_step reliable s
        (Sched (sc_wheel s) (sc_timer s) (sc_runners s) (sc_sent s) ({[f]} ∪ sc_flags s) (sc_now s))
  | st_wake s : sched_step reliable s (wake s)
  | st_timer started s s' : (reliable = true -> started = true) ->
      timer_iter started s = Some s' -> sched_step reliable s s'
  | st_notify i s s' : notify_one i s = Some s' -> sched_step reliable s s'
  | st_unpark u s : sc_timer s = TParked u -> sched_step reliable s (with_timer TTop s)
  | st_look i s s' : runner_look i s = Some s' -> sched_step reliable s s'
  | st_runner_wake i s s' : runner_wake i s = Some s' -> sched_step reliable s s'
  | st_run i granted res s s' : run_once i granted res s = Some s' -> sched_step reliable s s'.

(** ** The heap *)

Lemma entry_leb_total a b : entry_leb a b = true \/ entry_leb b a = true.
Proof.
  unfold entry_leb. rewrite !orb_true_iff, !andb_true_iff, !Z.ltb_lt, !Z.eqb_eq, !N.leb_le. lia.
Qed.

Lemma entry_leb_trans a b c : entry_leb a b = true -> entry_leb b c = true -> entry_leb a c = true.
Proof.
  unfold entry_leb. rewrite !orb_true_iff, !andb_true_iff, !Z.ltb_lt, !Z.eqb_eq, !N.leb_le. lia.
Qed.

Lemma heap_peek_None h : heap_peek h = None <-> h = [].
Proof. destruct h as [|e h]; simpl; [done|]. by destruct (heap_peek h). Qed.

Lemma heap_peek_spec h m : heap_peek h = Some m -> m ∈ h /\ forall e, e ∈ h -> entry_leb m e = true.
Proof.
  revert m; induction h as [|e h IH]; intros m; simpl; [done|].
  assert (refl : entry_leb e e = true) by (destruct (entry_leb_total e e); done).
  destruct (heap_peek h) as [k|] eqn:Hk; intros [= <-].
  - destruct (IH k eq_refl) as [Hin Hle]. destruct (entry_leb e k) eqn:Hek.
    + split; [by left|]. intros x [->|Hx]%elem_of_cons; [done|]. eapply entry_leb_trans; eauto.
    + split; [by right|]. intros x [->|Hx]%elem_of_cons; [|auto].
      destruct (entry_leb_total e k); congruence.
  - apply heap_peek_None in Hk as ->. split; [by left|]. by intros x ->%list_elem_of_singleton.
Qed.

Lemma heap_remove_perm m h : m ∈ h -> h ≡ₚ m :: heap_remove m h.
Proof.
  induction h as [|e h IH]; simpl; [by intros ?%elem_of_nil|].
  case_bool_decide as He; [by subst|]. intros [->|Hm]%elem_of_cons; [done|].
  rewrite (IH Hm) at 1. by constructor 3.
Qed.

Lemma heap_pop_perm h m : heap_peek h = Some m -> h ≡ₚ m :: heap_pop h.
Proof.
  intros Hm. unfold heap_pop. rewrite Hm. apply heap_remove_perm. by apply heap_peek_spec.
Qed.

(** Only entries without a task are dropped, and the top has one afterwards. *)
Lemma prune_spec fuel ts h :
  (length h <= fuel)%nat ->
  exists gone, h ≡ₚ gone ++ prune fuel ts h
    /\ (forall e, e ∈ gone -> ts !! e.2 = None)
    /\ (forall d id, heap_peek (prune fuel ts h) = Some (d, id) -> is_Some (ts !! id)).
Proof.
  revert h; induction fuel as [|fuel IH]; intros h Hl; simpl.
  - destruct h; [|simpl in Hl; lia]. exists []. by split_and!; [|intros e ?%elem_of_nil|].
  - destruct (heap_peek h) as [[d id]|] eqn:Hp.
    + case_bool_decide as Hid.
      * exists []. split_and!; [done|by intros e ?%elem_of_nil|]. intros d' id'. rewrite Hp.
        by intros [= <- <-].
      * pose proof (heap_pop_perm h _ Hp) as Hperm.
        assert (length (heap_pop h) <= fuel)%nat.
        { apply Permutation_length in Hperm. simpl in Hperm. lia. }
        destruct (IH (heap_pop h)) as (gone & G1 & G2 & G3); [done|].
        exists ((d, id) :: gone). split_and!; [by rewrite Hperm, G1 at 1| |done].
        intros e [->|He]%elem_of_cons; [|auto]. by apply eq_None_not_Some.
    + exists []. split_and!; [done|by intros e ?%elem_of_nil|]. intros d id. by rewrite Hp.
Qed.

(** ** The invariant *)

Definition parked (r : runner) : bool := match r with RWaiting | RNotified => true | _ => false end.
Definition awake (r : runner) : bool := negb (is_waiting r).

(** The ids of the schedules that are due or running. *)
Definition taken (s : sched) : list N :=
  (wh_pending (sc_wheel s) ++ flat_map busy (sc_runners s)).*1.

Record sched_ok (reliable : bool) (s : sched) : Prop := {
  ok_ids : NoDup (live s).*1;
  ok_fresh : Forall (fun id => (id < wh_next_id (sc_wheel s))%N)
    ((live s).*1 ++ (wh_heap (sc_wheel s)).*2);
  ok_channels : NoDup (channels s);
  ok_heap : NoDup (wh_heap (sc_wheel s)).*2;
  ok_waiting : forall id t, wh_tasks (sc_wheel s) !! id = Some t ->
    (tk_run_at t, id) ∈ wh_heap (sc_wheel s);
  ok_taken : forall id, id ∈ taken s -> id ∉ (wh_heap (sc_wheel s)).*2;
  ok_idle : wh_idle_runners (sc_wheel s) = length (List.filter parked (sc_runners s));
  ok_live : wh_live_runners (sc_wheel s) = length (sc_runners s);
  ok_timer : wh_timer_started (sc_wheel s) = false -> sc_timer s = TOff;
  ok_max : (wh_live_runners (sc_wheel s) <= MAX_RUNNERS)%nat;
  ok_attended : reliable = true ->
    (sc_timer s = TNotify -> sc_runners s <> [])
    /\ (wh_pending (sc_wheel s) <> [] -> sc_timer s = TNotify \/ existsb awake (sc_runners s) = true)
}.

Lemma live_ids s : (live s).*1 = (map_to_list (wh_tasks (sc_wheel s))).*1 ++ taken s.
Proof. unfold live, taken. by rewrite !fmap_app. Qed.

Lemma taken_not_waiting reliable s id :
  sched_ok reliable s -> id ∈ taken s -> wh_tasks (sc_wheel s) !! id = None.
Proof.
  intros Hok Hid. pose proof (ok_ids _ _ Hok) as Hnd. rewrite live_ids in Hnd.
  apply NoDup_app in Hnd as (_ & Hd & _). apply eq_None_not_Some. intros [t Ht].
  apply (Hd id); [|done]. apply list_elem_of_fmap. exists (id, t). by rewrite elem_of_map_to_list.
Qed.

(** A step that moves no schedule, changes no heap entry and no counter. *)
Lemma sched_ok_frame reliable s s' :
  sc_wheel s' = sc_wheel s -> sc_runners s' = sc_runners s -> sc_sent s' = sc_sent s ->
  (sc_timer s' = TNotify <-> sc_timer s = TNotify) -> (sc_timer s = TOff -> sc_timer s' = TOff) ->
  sched_ok reliable s -> sched_ok reliable s'.
Proof.
  intros Ew Er Es Et Eo [H1 H2 H3 H4 H5 H6 H7 H8 Ht H9 H10].
  assert (El : live s' = live s) by (unfold live; by rewrite Ew, Er).
  split; unfold channels, taken in *; rewrite ?El, ?Ew, ?Er, ?Es; try done; [by auto|].
  intros Hr. destruct (H10 Hr) as [Ha Hb]. split; [naive_solver|]. rewrite Et. naive_solver.
Qed.

(** *** Lists of runners *)

Lemma filter_insert {A} (f : A -> bool) l i x y :
  l !! i = Some x ->
  (length (List.filter f (<[i := y]> l)) + (if f x then 1 else 0)
   = length (List.filter f l) + (if f y then 1 else 0))%nat.
Proof.
  revert i; induction l as [|z l IH]; intros [|i] Hi; simpl in *; try done.
  - simplify_eq. destruct (f x), (f y); simpl; lia.
  - specialize (IH i Hi). destruct (f z); simpl; lia.
Qed.

Lemma existsb_insert {A} (f : A -> bool) l i x y :
  l !! i = Some x -> f y = true -> existsb f (<[i := y]> l) = true.
Proof.
  intros Hi Hy. apply existsb_exists. exists y. split; [|done]. apply list_elem_of_In.
  eapply list_elem_of_lookup_2, list_lookup_insert_eq. by eapply lookup_lt_Some.
Qed.

Lemma flat_map_insert_perm {A B} (f : A -> list B) l i x y :
  l !! i = Some x -> f x ++ flat_map f (<[i := y]> l) ≡ₚ f y ++ flat_map f l.
Proof.
  revert i; induction l as [|z l IH]; intros [|i] Hi; simpl in *; try done.
  - simplify_eq. rewrite !app_assoc. by rewrite (Permutation_app_comm (f x)).
  - rewrite !app_assoc, (Permutation_app_comm (f x)), (Permutation_app_comm (f y)), <- !app_assoc.
    by rewrite (IH i Hi).
Qed.

Lemma flat_map_insert_nil {A B} (f : A -> list B) l i x y :
  l !! i = Some x -> f x = [] -> f y = [] -> flat_map f (<[i := y]> l) ≡ₚ flat_map f l.
Proof. intros Hi Hx Hy. pose proof (flat_map_insert_perm f l i x y Hi) as H. by rewrite Hx, Hy in H. Qed.

(** *** Steps that move schedules *)

(** The part of the invariant that concerns the schedules, given how a step
    moves them: [gone] leave, [new] come, in the heap entries [out] and [inn]. *)
Lemma taken_perm s s' :
  wh_tasks (sc_wheel s') = wh_tasks (sc_wheel s) ->
  wh_pending (sc_wheel s') ++ flat_map busy (sc_runners s')
    ≡ₚ wh_pending (sc_wheel s) ++ flat_map busy (sc_runners s) ->
  live s' ≡ₚ live s /\ forall id, id ∈ taken s' <-> id ∈ taken s.
Proof.
  intros Et Hp. split; [unfold live; by rewrite Et, Hp|]. intros id. unfold taken. by rewrite Hp.
Qed.

(** Runners change place without touching a schedule's whereabouts. *)
Lemma sched_ok_runners reliable s s' :
  sched_ok reliable s ->
  wh_heap (sc_wheel s') = wh_heap (sc_wheel s) -> wh_tasks (sc_wheel s') = wh_tasks (sc_wheel s) ->
  wh_next_id (sc_wheel s') = wh_next_id (sc_wheel s) ->
  wh_live_runners (sc_wheel s') = wh_live_runners (sc_wheel s) ->
  length (sc_runners s') = length (sc_runners s) -> sc_sent s' = sc_sent s ->
  wh_pending (sc_wheel s') ++ flat_map busy (sc_runners s')
    ≡ₚ wh_pending (sc_wheel s) ++ flat_map busy (sc_runners s) ->
  wh_idle_runners (sc_wheel s') = length (List.filter parked (sc_runners s')) ->
  wh_timer_started (sc_wheel s') = wh_timer_started (sc_wheel s) ->
  (sc_timer s = TOff -> sc_timer s' = TOff) ->
  (reliable = true ->
    (sc_timer s' = TNotify -> sc_runners s' <> [])
    /\ (wh_pending (sc_wheel s') <> [] -> sc_timer s' = TNotify \/ existsb awake (sc_runners s') = true)) ->
  sched_ok reliable s'.
Proof.
  intros [H1 H2 H3 H4 H5 H6 H7 H8 Ht H9 H10] Eh Et En El Elen Es Hp Hi Ets Eto Ha.
  destruct (taken_perm s s' Et Hp) as [Hl Htk].
  split; unfold channels in *; rewrite ?Hl, ?Eh, ?Et, ?En, ?El, ?Elen, ?Es, ?Ets; try done; [|by auto].
  intros id Hid. apply H6. by apply Htk.
Qed.

Lemma look_ok reliable i s s0 r :
  sched_ok reliable s0 -> sc_runners s0 !! i = Some r -> awake r = true -> busy r = [] ->
  s = with_wheel (with_idle (wh_idle_runners (sc_wheel s0) - (if parked r then 1 else 0))
        (sc_wheel s0)) s0 ->
  sched_ok reliable (look i s).
Proof.
  intros Hok Hi Haw Hb ->. pose proof (lookup_lt_Some _ _ _ Hi) as Hlt.
  assert (Hidle : ((if parked r then 1 else 0) <= wh_idle_runners (sc_wheel s0))%nat).
  { rewrite (ok_idle _ _ Hok). destruct (parked r) eqn:Hpr; [|lia].
    assert (r ∈ List.filter parked (sc_runners s0)) as Hin.
    { apply list_elem_of_In, filter_In. split; [|done]. apply list_elem_of_In.
      by eapply list_elem_of_lookup_2. }
    destruct (List.filter parked (sc_runners s0)); [by apply elem_of_nil in Hin|simpl; lia]. }
  pose proof (ok_idle _ _ Hok) as Hid.
  assert (ne : forall y, <[i := y]> (sc_runners s0) <> []).
  { intros y Hn. apply (f_equal length) in Hn. rewrite length_insert in Hn. simpl in Hn. lia. }
  unfold look. cbn [sc_wheel with_wheel with_idle wh_pending].
  destruct (wh_pending (sc_wheel s0)) as [|[id t] q] eqn:Hq; apply (sched_ok_runners reliable s0);
    try done; cbn [sc_wheel sc_runners sc_timer with_wheel with_runners with_idle wh_pending wh_idle_runners wh_heap wh_tasks].
  - apply length_insert.
  - rewrite Hq. simpl. by eapply flat_map_insert_nil.
  - pose proof (filter_insert parked _ _ _ RWaiting Hi) as H. simpl in H. lia.
  - intros _. split; [auto|]. by rewrite Hq.
  - apply length_insert.
  - rewrite Hq. simpl. pose proof (flat_map_insert_perm busy _ _ _ (RBusy id t) Hi) as H.
    rewrite Hb in H. simpl in H. rewrite H. by rewrite <- Permutation_middle.
  - pose proof (filter_insert parked _ _ _ (RBusy id t) Hi) as H. simpl in H. lia.
  - intros _. split; [auto|]. intros _. right. by eapply existsb_insert.
Qed.

Lemma runner_look_ok reliable i s s' :
  runner_look i s = Some s' -> sched_ok reliable s -> sched_ok reliable s'.
Proof.
  unfold runner_look. intros H Hok. destruct (sc_runners s !! i) as [[| | |]|] eqn:Hi; simplify_eq.
  - eapply look_ok; [done|done|done|done|]. simpl. rewrite Nat.sub_0_r. by destruct s as [[]].
  - by eapply look_ok.
Qed.

Lemma runner_wake_ok reliable i s s' :
  runner_wake i s = Some s' -> sched_ok reliable s -> sched_ok reliable s'.
Proof.
  unfold runner_wake. intros H Hok. destruct (sc_runners s !! i) as [[| | |]|] eqn:Hi; simplify_eq.
  pose proof (filter_insert parked _ _ _ RNotified Hi) as Hf. simpl in Hf.
  apply (sched_ok_runners reliable s); simpl; try done.
  - apply length_insert.
  - f_equiv. by eapply flat_map_insert_nil.
  - rewrite (ok_idle _ _ Hok). lia.
  - intros _. split; [|intros _; right; by eapply existsb_insert].
    intros _ Hn. apply (f_equal length) in Hn. rewrite length_insert in Hn.
    pose proof (lookup_lt_Some _ _ _ Hi). simpl in Hn. lia.
Qed.

Lemma notify_one_ok reliable i s s' :
  notify_one i s = Some s' -> sched_ok reliable s -> sched_ok reliable s'.
Proof.
  unfold notify_one. intros H Hok. destruct (sc_timer s) eqn:Ht; try done.
  assert (lost : existsb is_waiting (sc_runners s) = false -> sched_ok reliable (with_timer TTop s)).
  { intros Hw. apply (sched_ok_runners reliable s); simpl; try done; [apply (ok_idle _ _ Hok)|by rewrite Ht|].
    intros Hr. split; [done|]. intros _. right. destruct (ok_attended _ _ Hok Hr) as [Hne _].
    destruct (sc_runners s) as [|r rs]; [by destruct (Hne Ht)|]. simpl in *.
    apply orb_false_iff in Hw as [Hw _]. unfold awake. by rewrite Hw. }
  assert (woken : sc_runners s !! i = Some RWaiting ->
    sched_ok reliable (with_timer TTop (with_runners (<[i := RNotified]> (sc_runners s)) s))).
  { intros Hi. pose proof (filter_insert parked _ _ _ RNotified Hi) as Hf. simpl in Hf.
    apply (sched_ok_runners reliable s); simpl; try done.
    - apply length_insert.
    - f_equiv. by eapply flat_map_insert_nil.
    - rewrite (ok_idle _ _ Hok). lia.
    - by rewrite Ht.
    - intros _. split; [done|]. intros _. right. by eapply existsb_insert. }
  destruct (sc_runners s !! i) as [[| | |]|] eqn:Hi;
    try (destruct (existsb is_waiting (sc_runners s)) eqn:Hw; [done|]); simplify_eq; auto.
Qed.

(** *** Arming *)

Lemma live_arm s s' id t :
  wh_tasks (sc_wheel s) !! id = None ->
  wh_tasks (sc_wheel s') = <[id := t]> (wh_tasks (sc_wheel s)) ->
  wh_pending (sc_wheel s') ++ flat_map busy (sc_runners s')
    ≡ₚ wh_pending (sc_wheel s) ++ flat_map busy (sc_runners s) ->
  live s' ≡ₚ (id, t) :: live s.
Proof. intros Hn Et Hp. unfold live. by rewrite Et, map_to_list_insert, Hp. Qed.

Lemma fresh_id reliable s : sched_ok reliable s ->
  wh_tasks (sc_wheel s) !! wh_next_id (sc_wheel s) = None
  /\ wh_next_id (sc_wheel s) ∉ (live s).*1 ++ (wh_heap (sc_wheel s)).*2.
Proof.
  intros Hok. pose proof (ok_fresh _ _ Hok) as Hf. rewrite Forall_forall in Hf.
  assert (Hn : wh_next_id (sc_wheel s) ∉ (live s).*1 ++ (wh_heap (sc_wheel s)).*2)
    by (intros H%Hf; lia).
  split; [|done]. apply eq_None_not_Some. intros [t Ht]. apply Hn, elem_of_app. left.
  apply list_elem_of_fmap. exists (wh_next_id (sc_wheel s), t). split; [done|].
  unfold live. rewrite elem_of_app. left. by apply elem_of_map_to_list.
Qed.

Lemma schedule_ok reliable started c seed delay period permits cancel s :
  (reliable = true -> started = true) -> c ∉ channels s -> sched_ok reliable s ->
  sched_ok reliable (schedule started c seed delay period permits cancel s).
Proof.
  intros _ Hc Hok. destruct (fresh_id _ _ Hok) as [Hn Hf].
  set (s' := schedule _ _ _ _ _ _ _ _). set (id := wh_next_id (sc_wheel s)) in *.
  assert (exists t, tk_tx t = c /\ live s' ≡ₚ (id, t) :: live s
    /\ wh_tasks (sc_wheel s') = <[id := t]> (wh_tasks (sc_wheel s))
    /\ wh_heap (sc_wheel s') = wh_heap (sc_wheel s) ++ [(tk_run_at t, id)]) as (t & Htx & Hl & Et & Eh).
  { eexists. split_and!; [|by apply live_arm|reflexivity|reflexivity]. done. }
  pose proof Hok as [H1 H2 H3 H4 H5 H6 H7 H8 Ht H9 H10].
  assert (Eid : wh_next_id (sc_wheel s') = (id + 1)%N) by done.
  apply not_elem_of_app in Hf as [Hfl Hfh].
  split; rewrite ?Eid, ?Et, ?Eh; try done.
  - rewrite Hl. simpl. by apply NoDup_cons.
  - rewrite fmap_app, Hl. simpl. apply Forall_app in H2 as [F1 F2].
    rewrite Forall_cons, !Forall_app, Forall_singleton.
    split_and!; [lia|..]; try (eapply Forall_impl; [done|]); simpl; lia.
  - unfold channels in *. rewrite Hl. simpl. rewrite Htx. by apply NoDup_cons.
  - rewrite fmap_app. simpl. apply NoDup_app. split_and!; [done| |apply NoDup_singleton].
    by intros x Hx ->%list_elem_of_singleton.
  - intros i u. destruct (decide (i = id)) as [->|]; [rewrite lookup_insert_eq|rewrite lookup_insert_ne by done].
    + intros [= <-]. set_solver.
    + intros Hu%H5. set_solver.
  - intros i Hi. change (taken s') with (taken s) in Hi. rewrite fmap_app, elem_of_app. simpl.
    intros [Hx| ->%list_elem_of_singleton]; [by apply (H6 i)|].
    apply Hfl. rewrite live_ids. apply elem_of_app. by right.
  - unfold s', schedule. simpl. intros [E1 E2]%orb_false_iff. rewrite E1, E2, (Ht E1). done.
  - intros Hr. destruct (H10 Hr) as [Ha Hb]. unfold s', schedule. simpl.
    destruct (negb _ && started) eqn:Hst.
    + apply andb_true_iff in Hst as [Hst%negb_true_iff _]. apply Ht in Hst.
      split; [done|]. intros Hp. destruct (Hb Hp) as [E|]; [congruence|by right].
    + split; [intros E; apply Ha; by destruct (sc_timer s)|]. intros Hp.
      destruct (Hb Hp) as [E|]; [left; by rewrite E|by right].
Qed.

(** *** The timer *)

Lemma retire_split s :
  map_to_list (wh_tasks (sc_wheel s))
  ≡ₚ List.filter (fun e => flagged s e.2) (map_to_list (wh_tasks (sc_wheel s)))
     ++ map_to_list (filter (fun e => flagged s e.2 = false) (wh_tasks (sc_wheel s))).
Proof.
  apply NoDup_Permutation.
  - apply NoDup_map_to_list.
  - apply NoDup_app. split_and!; [|..|apply NoDup_map_to_list].
    + apply NoDup_ListNoDup, List.NoDup_filter, NoDup_ListNoDup, NoDup_map_to_list.
    + intros [id t] [_ Hf]%list_elem_of_In%filter_In [_ Hn]%elem_of_map_to_list%map_lookup_filter_Some.
      simpl in *. congruence.
  - intros [id t]. rewrite elem_of_app, list_elem_of_In, list_elem_of_In, filter_In.
    rewrite <- !list_elem_of_In, !elem_of_map_to_list, map_lookup_filter_Some. simpl.
    destruct (flagged s t); naive_solver.
Qed.

Lemma retire_ok reliable s : sched_ok reliable s -> sched_ok reliable (retire s).
Proof.
  intros [H1 H2 H3 H4 H5 H6 H7 H8 Ht H9 H10]. set (s' := retire s).
  set (dead := List.filter (fun e => flagged s e.2) (map_to_list (wh_tasks (sc_wheel s)))).
  assert (Hl : live s ≡ₚ dead ++ live s').
  { unfold live. rewrite retire_split. by rewrite <- app_assoc. }
  assert (Es : (sc_sent s').*1 = (sc_sent s).*1 ++ (tk_tx <$> dead.*2)).
  { unfold s', retire. cbn [sc_sent with_sent with_wheel]. rewrite fmap_app. f_equal. fold dead.
    generalize dead. intros l. induction l as [|e l IH]; [done|]. cbn. by f_equal. }
  split; try done.
  - rewrite Hl, fmap_app in H1. by apply NoDup_app in H1 as (_ & _ & ?).
  - rewrite Hl, fmap_app, <- app_assoc in H2. by apply Forall_app in H2 as [_ ?].
  - unfold channels in *. rewrite Es. rewrite Hl, !fmap_app in H3.
    rewrite (Permutation_app_comm (sc_sent s).*1), app_assoc, (Permutation_app_comm (tk_tx <$> _)).
    done.
  - intros id t [Hid _]%map_lookup_filter_Some. by apply H5.
Qed.

(** Dropping heap entries that have no task. *)
Lemma heap_ok reliable s gone h :
  wh_heap (sc_wheel s) ≡ₚ gone ++ h ->
  (forall e, e ∈ gone -> wh_tasks (sc_wheel s) !! e.2 = None) ->
  sched_ok reliable s -> sched_ok reliable (with_wheel (with_heap h (sc_wheel s)) s).
Proof.
  intros Hp Hg [H1 H2 H3 H4 H5 H6 H7 H8 Ht H9 H10]. split; simpl; try done.
  - rewrite Hp, fmap_app in H2. rewrite !Forall_app in *. naive_solver.
  - rewrite Hp, fmap_app in H4. by apply NoDup_app in H4 as (_ & _ & ?).
  - intros id t Hid. pose proof (H5 id t Hid) as Hin. rewrite Hp, elem_of_app in Hin.
    destruct Hin as [Hin|]; [|done]. apply Hg in Hin. simpl in Hin. congruence.
  - intros id Hid Hin. apply (H6 id Hid). rewrite Hp, fmap_app, elem_of_app. by right.
Qed.

(** The schedule at the top of the heap leaves the waiting ones. *)
Lemma fire_base s id t d h :
  wh_tasks (sc_wheel s) !! id = Some t -> wh_heap (sc_wheel s) ≡ₚ (d, id) :: h ->
  let s1 := drop_task id (with_wheel (with_heap h (sc_wheel s)) s) in
  live s ≡ₚ (id, t) :: live s1 /\ (wh_heap (sc_wheel s)).*2 ≡ₚ id :: (wh_heap (sc_wheel s1)).*2.
Proof.
  intros Hid Hp. split; [|by rewrite Hp]. unfold live. simpl.
  by rewrite <- (map_to_list_delete _ _ _ Hid).
Qed.

Lemma dispatch_ok reliable started s id t d h :
  (reliable = true -> started = true) ->
  wh_tasks (sc_wheel s) !! id = Some t -> wh_heap (sc_wheel s) ≡ₚ (d, id) :: h ->
  sc_timer s = TTop -> sched_ok reliable s ->
  sched_ok reliable
    (dispatch started id t (drop_task id (with_wheel (with_heap h (sc_wheel s)) s))).
Proof.
  intros Hst Hid Hp Htop [H1 H2 H3 H4 H5 H6 H7 H8 Ht H9 H10].
  destruct (fire_base s id t d h Hid Hp) as [Hl Hh].
  set (s1 := drop_task id (with_wheel (with_heap h (sc_wheel s)) s)) in *.
  set (s' := dispatch started id t s1).
  set (more := (wh_idle_runners (sc_wheel s) =? 0)%nat
    && (wh_live_runners (sc_wheel s) <? MAX_RUNNERS)%nat && started).
  assert (Er : sc_runners s' = if more then sc_runners s ++ [RTop] else sc_runners s) by done.
  assert (Hb : flat_map busy (sc_runners s') = flat_map busy (sc_runners s)).
  { rewrite Er. destruct more; [|done]. by rewrite flat_map_app, app_nil_r. }
  assert (Hl' : live s' ≡ₚ live s).
  { rewrite Hl. unfold live. rewrite Hb. simpl. rewrite <- app_assoc. simpl.
    rewrite (app_assoc _ (wh_pending _)), <- Permutation_middle. by rewrite <- app_assoc. }
  assert (Htk : forall i, i ∈ taken s' <-> i = id \/ i ∈ taken s).
  { intros i. unfold taken. rewrite Hb. simpl.
    rewrite !fmap_app, !elem_of_app. simpl. rewrite list_elem_of_singleton. tauto. }
  assert (Hni : id ∉ (wh_heap (sc_wheel s1)).*2).
  { rewrite Hh in H4. by apply NoDup_cons in H4 as [? _]. }
  split.
  - by rewrite Hl'.
  - rewrite Hl'. rewrite Forall_app in *. destruct H2 as [F1 F2]. split; [done|].
    rewrite Hh, Forall_cons in F2. by destruct F2.
  - unfold channels in *. rewrite Hl'. done.
  - rewrite Hh in H4. by apply NoDup_cons in H4 as [_ ?].
  - intros i u Hu. simpl in Hu. apply lookup_delete_Some in Hu as [Hne Hu].
    apply H5 in Hu. rewrite Hp in Hu. apply elem_of_cons in Hu as [E|]; [congruence|done].
  - intros i [->|Hi]%Htk; [done|]. intros Hin. apply (H6 i Hi). rewrite Hh. by right.
  - rewrite Er. simpl. rewrite H7. destruct more; [|done]. by rewrite List.filter_app, app_nil_r.
  - rewrite Er. simpl. fold more. rewrite H8. destruct more; [|done]. rewrite length_app. simpl. lia.
  - intros E. simpl in *. apply Ht in E. congruence.
  - simpl. fold more. destruct more eqn:Hm; [|done]. unfold more in Hm.
    rewrite !andb_true_iff in Hm. destruct Hm as [[_ Hm%Nat.ltb_lt] _]. lia.
  - intros Hr. split; [|by left]. intros _. rewrite Er. unfold more. rewrite (Hst Hr), andb_true_r.
    destruct (wh_idle_runners (sc_wheel s) =? 0)%nat eqn:Hi0; simpl.
    + destruct (_ <? _)%nat eqn:Hlt; [by destruct (sc_runners s)|]. apply Nat.ltb_ge in Hlt.
      rewrite H8 in Hlt. intros E. rewrite E in Hlt. by vm_compute in Hlt; lia.
    + apply Nat.eqb_neq in Hi0. rewrite H7 in Hi0. intros E. by rewrite E in Hi0.
Qed.

Lemma fire_flagged_ok reliable s id t d h :
  wh_tasks (sc_wheel s) !! id = Some t -> wh_heap (sc_wheel s) ≡ₚ (d, id) :: h ->
  sched_ok reliable s ->
  sched_ok reliable (with_sent [(tk_tx t, wheel_terminated)]
    (drop_task id (with_wheel (with_heap h (sc_wheel s)) s))).
Proof.
  intros Hid Hp [H1 H2 H3 H4 H5 H6 H7 H8 Ht H9 H10].
  destruct (fire_base s id t d h Hid Hp) as [Hl Hh].
  set (s1 := drop_task id (with_wheel (with_heap h (sc_wheel s)) s)) in *.
  split; simpl; try done.
  - rewrite Hl in H1. by apply NoDup_cons in H1 as [_ ?].
  - change (live _) with (live s1). rewrite Hl in H2. simpl in H2. rewrite Forall_cons, Forall_app in H2.
    destruct H2 as (_ & F1 & F2). rewrite Hh, Forall_cons in F2. destruct F2. by apply Forall_app.
  - unfold channels in *. change (live _) with (live s1). rewrite Hl in H3. simpl in *.
    rewrite fmap_app. simpl. by rewrite app_assoc, Permutation_app_comm.
  - rewrite Hh in H4. by apply NoDup_cons in H4 as [_ ?].
  - intros i u Hu. apply lookup_delete_Some in Hu as [Hne Hu].
    apply H5 in Hu. rewrite Hp in Hu. apply elem_of_cons in Hu as [E|]; [congruence|done].
  - intros i Hi Hin. apply (H6 i Hi). rewrite Hh. by right.
Qed.

Lemma with_timer_ok reliable s t :
  sc_timer s = TTop -> t <> TOff -> t <> TNotify -> sched_ok reliable s -> sched_ok reliable (with_timer t s).
Proof.
  intros Htop Ho Hn Hok. pose proof Hok as [H1 H2 H3 H4 H5 H6 H7 H8 Ht H9 H10].
  split; try done.
  - intros E. apply Ht in E. congruence.
  - intros Hr. destruct (H10 Hr) as [Ha Hb]. split; [done|]. intros Hp.
    destruct (Hb Hp) as [E|]; [congruence|by right].
Qed.

Lemma timer_iter_ok reliable started s s' :
  (reliable = true -> started = true) -> timer_iter started s = Some s' ->
  sched_ok reliable s -> sched_ok reliable s'.
Proof.
  intros Hst H Hok. unfold timer_iter in H. destruct (sc_timer s) eqn:Htop; try done.
  apply retire_ok in Hok. assert (Hrt : sc_timer (retire s) = TTop) by done.
  revert H Hok Hrt. generalize (retire s) as r. intros r H Hok Hrt.
  destruct (prune_spec (length (wh_heap (sc_wheel r))) (wh_tasks (sc_wheel r)) (wh_heap (sc_wheel r)))
    as (gone & Hperm & Hgone & Htop'); [lia|].
  set (h := prune _ _ _) in *.
  pose proof (heap_ok reliable r gone h Hperm Hgone Hok) as Hok'.
  destruct (heap_peek h) as [[d id]|] eqn:Hpk.
  - destruct (sc_now r <? d); simplify_eq; [by apply with_timer_ok|].
    destruct (Htop' d id eq_refl) as [t Hid]. cbn [sc_wheel with_wheel with_heap wh_tasks] in *.
    rewrite Hid. pose proof (heap_pop_perm h _ Hpk) as Hpop.
    destruct (flagged _ t).
    + by eapply (fire_flagged_ok reliable (with_wheel (with_heap h (sc_wheel r)) r)).
    + by eapply (dispatch_ok reliable started (with_wheel (with_heap h (sc_wheel r)) r)).
  - simplify_eq. by apply with_timer_ok.
Qed.

(** *** Running *)

Lemma after_run_tx now cancelled res t msgs t' :
  after_run now cancelled res t = Some (msgs, Some t') -> msgs = [] /\ tk_tx t' = tk_tx t.
Proof.
  unfold after_run. destruct (tk_period t) as [[p f]|]; [|done].
  destruct (_ || _); [done|]. destruct (next_run _ _ _ _); [|done]. by intros [= <- <-].
Qed.

Lemma after_run_one now cancelled res t msgs again :
  after_run now cancelled res t = Some (msgs, again) -> msgs = [] \/ exists r, msgs = [r].
Proof.
  unfold after_run. destruct (tk_period t) as [[p f]|].
  - destruct (_ || _); [intros [= <- _]; eauto|]. destruct (next_run _ _ _ _); [|done].
    intros [= <- _]. by left.
  - intros [= <- _]. destruct (tk_first t), res; eauto.
Qed.

(** A schedule that ends: its runner is free, at most one result is sent. *)
Lemma end_run_ok reliable i id t msgs s :
  sc_runners s !! i = Some (RBusy id t) -> msgs = [] \/ (exists r, msgs = [r]) -> sched_ok reliable s ->
  sched_ok reliable (with_sent (map (pair (tk_tx t)) msgs) (with_runners (<[i := RTop]> (sc_runners s)) s)).
Proof.
  intros Hi Hm [H1 H2 H3 H4 H5 H6 H7 H8 Ht H9 H10].
  pose proof (flat_map_insert_perm busy _ _ _ RTop Hi) as Hb. simpl in Hb.
  set (s' := with_sent _ _).
  assert (Hl : live s ≡ₚ (id, t) :: live s').
  { unfold live. simpl. rewrite <- Hb. rewrite !app_assoc. by rewrite <- Permutation_middle. }
  assert (Htk : forall x, x ∈ taken s' -> x ∈ taken s).
  { intros x. unfold taken. simpl. rewrite !fmap_app, !elem_of_app. rewrite <- Hb. simpl.
    rewrite elem_of_cons. tauto. }
  pose proof (filter_insert parked _ _ _ RTop Hi) as Hf. simpl in Hf.
  split; try done.
  - rewrite Hl in H1. by apply NoDup_cons in H1 as [_ ?].
  - rewrite Hl in H2. simpl in H2. by apply Forall_cons in H2 as [_ ?].
  - unfold channels in *. rewrite Hl in H3. simpl in *. rewrite fmap_app.
    destruct Hm as [->|[r ->]]; simpl.
    + rewrite app_nil_r. by apply NoDup_cons in H3 as [_ ?].
    + by rewrite app_assoc, (Permutation_app_comm _ [tk_tx t]).
  - intros x Hx. apply H6. auto.
  - simpl. rewrite H7. lia.
  - simpl. by rewrite length_insert.
  - intros Hr. destruct (H10 Hr) as [Ha Hbb]. simpl. split.
    + intros _ Hn. apply (f_equal length) in Hn. rewrite length_insert in Hn.
      pose proof (lookup_lt_Some _ _ _ Hi). simpl in Hn. lia.
    + intros _. right. by eapply existsb_insert.
Qed.

Lemma rearm_ok reliable s id t :
  id ∉ (live s).*1 -> id ∉ (wh_heap (sc_wheel s)).*2 -> (id < wh_next_id (sc_wheel s))%N ->
  tk_tx t ∉ channels s -> sched_ok reliable s -> sched_ok reliable (rearm id t s).
Proof.
  intros Hfl Hfh Hlt Hc Hok. pose proof Hok as [H1 H2 H3 H4 H5 H6 H7 H8 Ht H9 H10].
  set (s' := rearm id t s).
  assert (Hn : wh_tasks (sc_wheel s) !! id = None).
  { apply eq_None_not_Some. intros [u Hu]. apply Hfl, list_elem_of_fmap. exists (id, u). split; [done|].
    unfold live. rewrite elem_of_app. left. by apply elem_of_map_to_list. }
  assert (Hl : live s' ≡ₚ (id, t) :: live s) by by apply live_arm.
  assert (Et : wh_tasks (sc_wheel s') = <[id := t]> (wh_tasks (sc_wheel s))) by done.
  assert (Eh : wh_heap (sc_wheel s') = wh_heap (sc_wheel s) ++ [(tk_run_at t, id)]) by done.
  split; rewrite ?Et, ?Eh; try done.
  - rewrite Hl. simpl. by apply NoDup_cons.
  - rewrite fmap_app, Hl. simpl. apply Forall_app in H2 as [F1 F2].
    rewrite Forall_cons, !Forall_app, Forall_singleton. done.
  - unfold channels in *. rewrite Hl. simpl. by apply NoDup_cons.
  - rewrite fmap_app. simpl. apply NoDup_app. split_and!; [done| |apply NoDup_singleton].
    by intros x Hx ->%list_elem_of_singleton.
  - intros i u. destruct (decide (i = id)) as [->|]; [rewrite lookup_insert_eq|rewrite lookup_insert_ne by done].
    + intros [= <-]. apply elem_of_app. right. by left.
    + intros Hu%H5. apply elem_of_app. by left.
  - intros i Hi. change (taken s') with (taken s) in Hi. rewrite fmap_app, elem_of_app. simpl.
    intros [Hx| ->%list_elem_of_singleton]; [by apply (H6 i)|].
    apply Hfl. rewrite live_ids. apply elem_of_app. by right.
  - simpl. intros E. by rewrite (Ht E).
  - intros Hr. destruct (H10 Hr) as [Ha Hb]. simpl.
    split; [intros E; apply Ha; by destruct (sc_timer s)|]. intros Hp.
    destruct (Hb Hp) as [E|]; [left; by rewrite E|by right].
Qed.

Lemma run_once_ok reliable i granted res s s' :
  run_once i granted res s = Some s' -> sched_ok reliable s -> sched_ok reliable s'.
Proof.
  intros H Hok. unfold run_once in H. destruct (sc_runners s !! i) as [[| | |id t]|] eqn:Hi; try done.
  destruct (tk_permits t && negb granted).
  { simplify_eq. eapply (end_run_ok reliable i id t [wheel_terminated]); eauto. }
  destruct (after_run _ _ res t) as [[msgs again]|] eqn:Har; [|done]. simplify_eq.
  pose proof (after_run_one _ _ _ _ _ _ Har) as Hm.
  pose proof (end_run_ok reliable i id t msgs s Hi Hm Hok) as Hend.
  destruct again as [t'|]; [|done].
  destruct (after_run_tx _ _ _ _ _ _ Har) as [-> Htx].
  pose proof (flat_map_insert_perm busy _ _ _ RTop Hi) as Hb. simpl in Hb.
  set (s1 := with_sent _ _) in *.
  assert (Hl : live s ≡ₚ (id, t) :: live s1).
  { unfold live. simpl. rewrite <- Hb. rewrite !app_assoc. by rewrite <- Permutation_middle. }
  apply rearm_ok; [| | | |done].
  - pose proof (ok_ids _ _ Hok) as Hnd. rewrite Hl in Hnd. by apply NoDup_cons in Hnd as [? _].
  - apply (ok_taken _ _ Hok). unfold taken. rewrite fmap_app, elem_of_app. right. rewrite <- Hb. by left.
  - pose proof (ok_fresh _ _ Hok) as Hf. rewrite Hl in Hf. by apply Forall_cons in Hf as [? _].
  - pose proof (ok_channels _ _ Hok) as Hc. unfold channels in *. rewrite Hl in Hc. rewrite Htx.
    simpl in *. rewrite app_nil_r. by apply NoDup_cons in Hc as [? _].
Qed.

Lemma sched_step_ok reliable s s' : sched_step reliable s s' -> sched_ok reliable s -> sched_ok reliable s'.
Proof.
  intros Hs Hok. destruct Hs as [| | | | | |u s Hu| | |].
  - by apply (sched_ok_frame reliable s).
  - by apply schedule_ok.
  - by apply (sched_ok_frame reliable s).
  - apply (sched_ok_frame reliable s); try done; unfold wake; simpl; by destruct (sc_timer s).
  - by eapply timer_iter_ok.
  - by eapply notify_one_ok.
  - by apply (sched_ok_frame reliable s); simpl; try done; rewrite Hu.
  - by eapply runner_look_ok.
  - by eapply runner_wake_ok.
  - by eapply run_once_ok.
Qed.

Lemma sched_reach_ok reliable s : rtc (sched_step reliable) new_sched s -> sched_ok reliable s.
Proof.
  intros Hr. apply (rtc_preserves _ _ _ _ (sched_step_ok reliable) Hr).
  split; simpl; try done; try apply NoDup_nil_2; try lia. intros id _. apply not_elem_of_nil.
Qed.

(** ** Timing *)

(** The waiting schedules that are not cancelled. *)
Definition armed (s : sched) (id : N) (t : task) : Prop :=
  wh_tasks (sc_wheel s) !! id = Some t /\ flagged s t = false.

Definition before (a b : Z * N) : Prop := a.1 < b.1 \/ (a.1 = b.1 /\ (a.2 <= b.2)%N).

Lemma entry_leb_before a b : entry_leb a b = true <-> before a b.
Proof. unfold entry_leb, before. rewrite orb_true_iff, andb_true_iff, Z.ltb_lt, Z.eqb_eq, N.leb_le. lia. Qed.

(** After the retirement of cancelled schedules, what is at the top of the
    pruned heap is the earliest armed schedule. *)
Lemma top_earliest reliable s :
  sched_ok reliable s ->
  let r := retire s in
  let h := prune (length (wh_heap (sc_wheel r))) (wh_tasks (sc_wheel r)) (wh_heap (sc_wheel r)) in
  match heap_peek h with
  | None => forall id t, ~ armed s id t
  | Some (d, id) => exists t, armed s id t /\ tk_run_at t = d
      /\ forall id' t', armed s id' t' -> before (d, id) (tk_run_at t', id')
  end.
Proof.
  intros Hok. cbv zeta. pose proof (retire_ok reliable s Hok) as Hr.
  destruct (prune_spec (length (wh_heap (sc_wheel (retire s)))) (wh_tasks (sc_wheel (retire s)))
    (wh_heap (sc_wheel (retire s)))) as (gone & Hperm & Hgone & Htop); [lia|].
  set (h := prune _ _ _) in *.
  assert (arm : forall id t, armed s id t <-> wh_tasks (sc_wheel (retire s)) !! id = Some t).
  { intros id t. unfold armed. simpl. by rewrite map_lookup_filter_Some. }
  assert (inh : forall id t, armed s id t -> (tk_run_at t, id) ∈ h).
  { intros id t Ha. pose proof (proj1 (arm id t) Ha) as Hid.
    pose proof (ok_waiting _ _ Hr id t Hid) as Hin. rewrite Hperm, elem_of_app in Hin.
    destruct Hin as [Hin|]; [|done]. apply Hgone in Hin. cbn [snd] in Hin. congruence. }
  destruct (heap_peek h) as [[d id]|] eqn:Hpk.
  - destruct (heap_peek_spec h _ Hpk) as [Hin Hmin]. destruct (Htop d id eq_refl) as [t Hid].
    assert (Ha : armed s id t) by by apply arm. exists t. split_and!; [done| |].
    + (* one entry per id *)
      pose proof (ok_heap _ _ Hr) as Hnd. rewrite Hperm, fmap_app in Hnd.
      apply NoDup_app in Hnd as (_ & _ & Hnd). pose proof (inh id t Ha) as Hin'.
      destruct (proj1 (list_elem_of_lookup _ _) Hin) as [i Hi].
      destruct (proj1 (list_elem_of_lookup _ _) Hin') as [j Hj].
      assert (i = j) as ->; [|congruence].
      eapply (NoDup_lookup h.*2); [done| |]; by rewrite list_lookup_fmap, ?Hi, ?Hj.
    + intros id' t' Ha'. apply entry_leb_before, Hmin. by apply inh.
  - apply heap_peek_None in Hpk. intros id t Ha%inh. rewrite Hpk in Ha. by apply elem_of_nil in Ha.
Qed.

(** *** The timer is never parked past a deadline *)

Definition timer_ok (reliable : bool) (s : sched) : Prop :=
  match sc_timer s with
  | TOff => wh_timer_started (sc_wheel s) = false /\ sc_runners s = [] /\ (reliable = true -> wh_tasks (sc_wheel s) = ∅)
  | TParked None => wh_tasks (sc_wheel s) = ∅
  | TParked (Some d) => forall id t, wh_tasks (sc_wheel s) !! id = Some t -> d <= tk_run_at t
  | _ => True
  end.

Lemma timer_iter_timer reliable started s s' :
  timer_iter started s = Some s' -> sched_ok reliable s -> timer_ok reliable s'.
Proof.
  intros Ht Hok. pose proof (top_earliest reliable s Hok) as Htop. cbv zeta in Htop.
  unfold timer_iter in Ht. destruct (sc_timer s) eqn:Hpc; try done. set (h := prune _ _ _) in *.
  destruct (heap_peek h) as [[d id]|] eqn:Hpk; simplify_eq.
  - destruct Htop as (t & [Hid Hfl] & <- & Hmin). destruct (sc_now (retire s) <? tk_run_at t); unfold timer_ok; simpl.
    + intros id' t' [Ht' Hf']%map_lookup_filter_Some. specialize (Hmin id' t' (conj Ht' Hf')).
      unfold before in Hmin. simpl in Hmin. lia.
    + repeat case_match; simpl in *; simplify_eq; try done; congruence.
  - unfold timer_ok. simpl. apply map_empty. intros id. apply eq_None_not_Some. intros [t [Ht Hf]%map_lookup_filter_Some].
    by apply (Htop id t).
Qed.

Lemma sched_step_timer reliable s s' :
  sched_step reliable s s' -> sched_ok reliable s -> timer_ok reliable s -> timer_ok reliable s'.
Proof.
  intros Hs Hok Ht. destruct Hs as [|started c seed delay period permits cancel s Hst Hc| |s|started s s' Hst Hi|i s s' Hn
    |u s Hu|i s s' Hl|i s s' Hw|i granted res s s' Hr].
  - exact Ht.
  - unfold timer_ok, schedule in *. simpl. destruct (sc_timer s) as [| | |u] eqn:E; simpl in *; repeat case_match; try done.
    + destruct Ht as (Hns & Hrs & Htk). rewrite Hns in *. destruct started; [done|]. split_and!; [done|done|].
      intros Hrel. by specialize (Hst Hrel).
  - exact Ht.
  - unfold timer_ok, wake in *. simpl. by destruct (sc_timer s).
  - by eapply timer_iter_timer.
  - unfold notify_one in Hn. unfold timer_ok. repeat case_match; simplify_eq; done.
  - done.
  - assert (H : sc_timer s' = sc_timer s /\ wh_tasks (sc_wheel s') = wh_tasks (sc_wheel s) /\ sc_runners s <> [])
      by (unfold runner_look, look in Hl; destruct (sc_runners s) as [|r rs]; [done|]; repeat case_match; by simplify_eq).
    destruct H as (E1 & E2 & E3). unfold timer_ok in *. rewrite E1, E2. destruct (sc_timer s); [|done..]. naive_solver.
  - assert (H : sc_timer s' = sc_timer s /\ wh_tasks (sc_wheel s') = wh_tasks (sc_wheel s) /\ sc_runners s <> [])
      by (unfold runner_wake in Hw; destruct (sc_runners s) as [|r rs]; [done|]; repeat case_match; by simplify_eq).
    destruct H as (E1 & E2 & E3). unfold timer_ok in *. rewrite E1, E2. destruct (sc_timer s); [|done..]. naive_solver.
  - unfold run_once in Hr. unfold timer_ok in *.
    assert (Hon : sc_timer s <> TOff).
    { intros E. rewrite E in Ht. destruct Ht as (_ & Hrs & _). by rewrite Hrs in Hr. }
    destruct (sc_runners s !! i) as [[| | |id t]|]; try done.
    destruct (tk_permits t && negb granted); simplify_eq; [simpl; destruct (sc_timer s); [congruence|done..]|].
    destruct (after_run _ _ _ _) as [[msgs again]|] eqn:Ha; simplify_eq.
    destruct again as [t'|]; simpl; destruct (sc_timer s); congruence || done.
Qed.

Lemma sched_reach_timer reliable s : rtc (sched_step reliable) new_sched s -> timer_ok reliable s.
Proof.
  intros Hr. assert (H : sched_ok reliable s /\ timer_ok reliable s); [|apply H].
  apply (rtc_preserves _ (fun s => sched_ok reliable s /\ timer_ok reliable s) _ _) in Hr; [done| |].
  - intros x y Hs [H1 H2]. split; [by eapply sched_step_ok|by eapply sched_step_timer].
  - split; [by apply sched_reach_ok, rtc_refl|done].
Qed.

Lemma retire_sends s id t :
  wh_tasks (sc_wheel s) !! id = Some t -> flagged s t = true -> (tk_tx t, wheel_terminated) ∈ sc_sent (retire s).
Proof.
  intros Hid Hf. simpl. apply elem_of_app. right. apply list_elem_of_In, in_map_iff.
  exists (id, t). split; [done|]. apply filter_In. split; [|done]. apply list_elem_of_In. by rewrite elem_of_map_to_list.
Qed.

(** An iteration of the timer resolves the cancelled schedules. *)
Lemma timer_iter_sends started s s' id t :
  timer_iter started s = Some s' -> wh_tasks (sc_wheel s) !! id = Some t -> flagged s t = true ->
  (tk_tx t, wheel_terminated) ∈ sc_sent s'.
Proof.
  intros Ht Hid Hf. pose proof (retire_sends s id t Hid Hf) as Hin. unfold timer_iter in Ht.
  destruct (sc_timer s); try done. simplify_eq. repeat case_match; try done; simpl; apply elem_of_app; by left.
Qed.


(** The timer keeps time.  An iteration of the timer thread, in any
    reachable state, parks for ever only when no schedule is armed; parks until
    the earliest deadline of the armed schedules, which is still ahead; or hands
    the earliest armed schedule, whose deadline has passed, to the runners, and
    no other.  Cancelled schedules are resolved on the way. *)
Theorem timer_keeps_time reliable started s s' :
  rtc (sched_step reliable) new_sched s -> timer_iter started s = Some s' ->
  (forall id t, wh_tasks (sc_wheel s) !! id = Some t -> flagged s t = true ->
     (tk_tx t, wheel_terminated) ∈ sc_sent s')
  /\ match sc_timer s' with
     | TParked None => (forall id t, ~ armed s id t) /\ wh_pending (sc_wheel s') = wh_pending (sc_wheel s)
     | TParked (Some d) =>
         (exists id t, armed s id t /\ tk_run_at t = d) /\ sc_now s < d
         /\ (forall id t, armed s id t -> d <= tk_run_at t)
         /\ wh_pending (sc_wheel s') = wh_pending (sc_wheel s)
     | _ =>
         exists id t, armed s id t /\ tk_run_at t <= sc_now s
           /\ (forall id' t', armed s id' t' -> before (tk_run_at t, id) (tk_run_at t', id'))
           /\ wh_pending (sc_wheel s') = wh_pending (sc_wheel s) ++ [(id, t)]
     end.
Proof.
  intros Hok%sched_reach_ok Ht.
  pose proof (top_earliest reliable s Hok) as Htop. cbv zeta in Htop.
  unfold timer_iter in Ht. destruct (sc_timer s) eqn:Hpc; try done.
  set (h := prune _ _ _) in *.
  pose proof (retire_sends s) as sent.
  destruct (heap_peek h) as [[d id]|] eqn:Hpk; simplify_eq; [|done].
  destruct Htop as (t & [Hid Hfl] & <- & Hmin). simpl.
  destruct (Z.ltb_spec (sc_now s) (tk_run_at t)) as [Hlt|Hge]; simpl.
  - split; [exact sent|]. split_and!; [by exists id, t|done| |done].
    intros id' t' Ha'. specialize (Hmin id' t' Ha'). unfold before in Hmin. simpl in Hmin. lia.
  - assert (Hid' : filter (fun e => flagged s e.2 = false) (wh_tasks (sc_wheel s)) !! id = Some t)
      by by apply map_lookup_filter_Some.
    rewrite Hid'. match goal with |- context [flagged ?x t] =>
      change (flagged x t) with (flagged s t) end. rewrite Hfl. simpl.
    split; [exact sent|]. exists id, t. by split_and!.
Qed.

(** ** When a periodic schedule runs again *)

Lemma skip_missed_spec fuel n now period m :
  0 < period -> skip_missed fuel n now period = Some m ->
  (exists k, 0 <= k /\ m = n + k * period) /\ now < m /\ (m = n \/ m - period <= now).
Proof.
  intros Hp. revert n; induction fuel as [|fuel IH]; intros n; simpl;
    destruct (Z.leb_spec n now) as [Hle|Hgt]; try done.
  - intros [= <-]. split_and!; [exists 0; lia|lia|by left].
  - intros H. destruct (IH _ H) as ((k & Hk & ->) & H1 & H2). split_and!.
    + exists (k + 1). lia.
    + lia.
    + right. destruct H2; lia.
  - intros [= <-]. split_and!; [exists 0; lia|lia|by left].
Qed.

Lemma skip_missed_total fuel n now period :
  0 < period -> now - n < Z.of_nat fuel * period -> is_Some (skip_missed fuel n now period).
Proof.
  intros Hp. revert n; induction fuel as [|fuel IH]; intros n Hf; simpl;
    destruct (Z.leb_spec n now); try (by eexists); [lia|]. apply IH. lia.
Qed.

(** The deadline of the next run exists, for every positive period.  At a
    fixed rate it is the first instant after [now] that lies a whole number of
    periods (at least one) after the start of the run; with a fixed delay it is
    one period after the run's end. *)
Theorem next_run_correct now t period_ms fixed_rate :
  0 < period_ms ->
  exists next, next_run now t period_ms fixed_rate = Some next
    /\ let p := from_millis period_ms in
       if fixed_rate
       then (exists k, 1 <= k /\ next = tk_run_at t + k * p) /\ now < next
            /\ (next = tk_run_at t + p \/ next - p <= now)
       else next = now + p.
Proof.
  intros Hp. unfold next_run. rewrite Z.max_l by lia. set (p := from_millis period_ms).
  assert (0 < p) by (unfold p, from_millis; lia). destruct fixed_rate; [|by eexists].
  destruct (skip_missed_total (missed (tk_run_at t + p) now p) (tk_run_at t + p) now p) as [next Hn];
    [done| |].
  - unfold missed. set (x := now - (tk_run_at t + p)).
    pose proof (Z.mul_succ_div_gt x p ltac:(lia)) as Hx. unfold Z.succ in Hx.
    destruct (Z.le_gt_cases 0 (x / p + 1)); [rewrite Z2Nat.id by lia; lia|].
    assert (Z.to_nat (x / p + 1) = 0%nat) as -> by lia. nia.
  - exists next. split; [done|]. destruct (skip_missed_spec _ _ _ _ _ ltac:(done) Hn)
      as ((k & Hk & ->) & H1 & H2). split_and!; [exists (k + 1); lia|done|lia].
Qed.

(** ** A stall *)

(** Two schedules due at the same time, one idle runner.  The runner is counted
    as idle until it has woken up: the timer hands out both tasks before that,
    starts no second runner, and the second task waits for the end of the first
    one's body. *)
Definition stalled (s : sched) : Prop :=
  exists id t id' t',
    sc_runners s = [RBusy id t] /\ wh_pending (sc_wheel s) = [(id', t')] /\ id <> id'
    /\ (wh_live_runners (sc_wheel s) < MAX_RUNNERS)%nat
    /\ tk_permits t' = false /\ tk_run_at t' <= sc_now s
    /\ exists u, sc_timer s = TParked u.

Definition seed0 : thread_seed := ThreadSeed VNull 0.

Ltac arm c :=
  eapply rtc_l;
    [apply (st_schedule true true c seed0 0 None false 9);
       [done|by apply (bool_decide_unpack _); vm_compute]|].
Ltac tick_timer := eapply rtc_l; [eapply (st_timer true true); [done|vm_compute; reflexivity]|].
Ltac signal i := eapply rtc_l; [eapply (st_notify true i); vm_compute; reflexivity|].
Ltac looks i := eapply rtc_l; [eapply (st_look true i); vm_compute; reflexivity|].
Ltac ends i := eapply rtc_l; [eapply (st_run true i true None); vm_compute; reflexivity|].

(** C34. A due task can be held up by another schedule's body although a runner
    could be started for it: there is a reachable state in which the only runner
    is running one schedule, another one is due and queued, the runners are
    below their limit, and the timer is parked. *)
Theorem due_task_stalls : exists s, rtc (sched_step true) new_sched s /\ stalled s.
Proof.
  eexists. split.
  - arm 1%N. tick_timer. signal 0%nat. looks 0%nat. ends 0%nat. looks 0%nat.
    arm 2%N. arm 3%N. tick_timer. signal 0%nat. tick_timer. signal 0%nat. tick_timer. looks 0%nat.
    apply rtc_refl.
  - eexists _, _, _, _. split_and!; try reflexivity; try done; [by vm_compute; lia|by eexists].
Qed.
