(* ===== verification/AsyncWitnesses.v ===== *)
(** * AsyncWitnesses: the theorems on pool, futures and scheduler at work

    Concrete runs in which the hypotheses of the theorems hold. *)

From stdpp Require Import base list numbers strings gmap sets relations.
From S2P Require Import Prelude Text Float64 Value AsyncPool AsyncPoolFacts AsyncFuture AsyncSchedule AsyncScheduleFacts.

Definition demo_seed : thread_seed := ThreadSeed VNull 0.

(** A pool of one worker and room for one task, which runs one task and has
    another one queued when a third discards it. *)
Definition demo_pool : outcome cfml_error pool :=
  obind (submit true 1 demo_seed (new_pool 1 1 PDiscardOldest true)) (fun s =>
  match worker_take 0 s with
  | Some s => obind (submit true 2 demo_seed s) (submit true 3 demo_seed)
  | None => Panic
  end).

Definition demo_state : pool :=
  match demo_pool with Ok s => s | _ => new_pool 1 1 PDiscardOldest true end.

Ltac submits c :=
  eapply rtc_l; [eapply (step_submit true true c demo_seed);
    [done|by apply (bool_decide_unpack _); vm_compute|vm_compute; reflexivity]|].

Lemma demo_reach : rtc (pool_step true) (new_pool 1 1 PDiscardOldest true) demo_state.
Proof.
  submits 1%N. eapply rtc_l; [eapply step_work, (work_take 0); vm_compute; reflexivity|].
  submits 2%N. submits 3%N. vm_compute. apply rtc_refl.
Qed.

Lemma pool_exactly_once_witness :
  unresolved demo_state = [3; 1]%N /\ (ps_sent demo_state).*1 = [2%N]
  /\ unresolved demo_state ++ (ps_sent demo_state).*1 ≡ₚ ps_accepted demo_state
  /\ queue (ps_shared demo_state) <> [] /\ ps_workers demo_state <> [].
Proof.
  destruct (pool_exactly_once true 1 1 PDiscardOldest true demo_state demo_reach) as (_ & H & _ & _ & _ & _ & Ha).
  split; [reflexivity|]. split; [reflexivity|]. split; [exact H|]. split; [done|]. by apply Ha.
Defined.

Lemma pool_drains_witness : exists s', rtc pool_work demo_state s' /\ drained s'.
Proof. exact (proj2 (proj2 (pool_drains 1 1 PDiscardOldest true demo_state demo_reach))). Defined.

(** A future polled twice before its task completes with 42. *)
Definition demo_result : thread_result :=
  ThreadResult (lit "COMPLETED") [] [] 0 None 3 [] (Some (VInt 42)).

Definition demo_ops : list future_op := [OpIsDone None; OpGet None; OpIsDone (Some demo_result)].

Lemma future_stable_witness :
  let f := FutureNative (Some (ThreadHandle 1 2)) None false false in
  fu_result (run_ops demo_ops f) = Some demo_result
  /\ (await_result None (run_ops [OpGet None] (run_ops demo_ops f))).1 = Ok (VInt 42).
Proof.
  split; [reflexivity|].
  destruct (future_stable (ThreadHandle 1 2) demo_result false demo_ops [OpGet None] None None
    (FutureNative (Some (ThreadHandle 1 2)) None false false)) as [_ H]; [left|].
  destruct (H demo_result eq_refl) as [E _]. cbv zeta in E |- *. rewrite E. reflexivity.
Defined.

(** A heartbeat every 500 ms, armed and run once. *)
Definition heartbeat (s : sched) : sched := schedule true 1 demo_seed 0 (Some (500, true)%Z) false 7 s.

Lemma heartbeat_reach : rtc (sched_step true) new_sched (heartbeat new_sched).
Proof. apply rtc_once, st_schedule; [done|by apply (bool_decide_unpack _); vm_compute]. Qed.

(** The heartbeat has run once and the timer is parked until it is due again; a
    second schedule, due at once, then wakes it. *)
Definition after_beat : sched :=
  let s := default new_sched (timer_iter true (heartbeat new_sched)) in
  let s := default new_sched (notify_one 0 s) in
  let s := default new_sched (runner_look 0 s) in
  let s := default new_sched (run_once 0 true (Some demo_result) s) in
  let s := default new_sched (timer_iter true s) in
  default new_sched (runner_look 0 s).
Definition beat_and_job : sched := schedule true 2 demo_seed 0 None false 8 after_beat.

Lemma beat_reach : rtc (sched_step true) new_sched after_beat.
Proof.
  etrans; [exact heartbeat_reach|].
  eapply rtc_l; [eapply (st_timer true true); [done|vm_compute; reflexivity]|].
  eapply rtc_l; [eapply (st_notify true 0); vm_compute; reflexivity|].
  eapply rtc_l; [eapply (st_look true 0); vm_compute; reflexivity|].
  eapply rtc_l; [eapply (st_run true 0 true (Some demo_result)); vm_compute; reflexivity|].
  eapply rtc_l; [eapply (st_timer true true); [done|vm_compute; reflexivity]|].
  eapply rtc_l; [eapply (st_look true 0); vm_compute; reflexivity|]. vm_compute. apply rtc_refl.
Qed.

Lemma job_reach : rtc (sched_step true) new_sched beat_and_job.
Proof.
  eapply rtc_r; [exact beat_reach|]. apply st_schedule; [done|by apply (bool_decide_unpack _); vm_compute].
Qed.


Lemma timer_keeps_time_witness :
  exists s', timer_iter true (heartbeat new_sched) = Some s' /\ sc_timer s' = TNotify
    /\ exists id t, armed (heartbeat new_sched) id t /\ (tk_run_at t <= 0)%Z.
Proof.
  eexists. split; [vm_compute; reflexivity|]. split; [reflexivity|].
  destruct (timer_keeps_time true true (heartbeat new_sched) _ heartbeat_reach
    ltac:(vm_compute; reflexivity)) as [_ (id & t & Ha & Hle & _)].
  exists id, t. split; [exact Ha|exact Hle].
Defined.

(** A run that overran three of its periods. *)
Lemma next_run_correct_witness :
  exists next, next_run 1700000000 (Task demo_seed (Some (500, true)%Z) false 7 1 0 true) 500 true = Some next
    /\ next = 2000000000%Z.
Proof.
  destruct (next_run_correct 1700000000 (Task demo_seed (Some (500, true)%Z) false 7 1 0 true) 500 true)
    as (next & H & _); [reflexivity|].
  exists next. split; [exact H|]. vm_compute in H. by injection H as <-.
Defined.
