(* ===== verification/Bytes.v ===== *)
(** * Bytes: byte strings of fixed and variable width

    What the key hash and the object codec use of Rust's integers and strings:
    little-endian bytes of a machine word, the LEB128 length prefix
    (cfml-common: [objcodec.rs]), the bit pattern of an [f64], and the decoding
    of UTF-8. *)

From stdpp Require Import base list numbers.
From Stdlib Require Import SpecFloat.
From S2P Require Import Prelude Text Float64.
Local Open Scope N_scope.

Abbreviation byte := N.

Definition is_byte (b : byte) : Prop := b < 256.

(** ** Little-endian words *)

(** [uN::from_le_bytes] *)
Fixpoint from_le (bs : list byte) : N :=
  match bs with [] => 0 | b :: bs => b + 256 * from_le bs end.

(** [uN::to_le_bytes] of a word of [n] bytes. *)
Fixpoint to_le (n : nat) (w : N) : list byte :=
  match n with O => [] | S n => w mod 256 :: to_le n (w / 256) end.

Lemma to_le_length n w : length (to_le n w) = n.
Proof. revert w; induction n; intros w; simpl; [done|]. by rewrite IHn. Qed.

Lemma to_le_bytes n w : Forall is_byte (to_le n w).
Proof.
  revert w; induction n; intros w; simpl; constructor; [|done].
  apply N.mod_upper_bound. lia.
Qed.

Lemma from_to_le n w : w < 256 ^ N.of_nat n -> from_le (to_le n w) = w.
Proof.
  revert w; induction n as [|n IH]; intros w Hw; [simpl in *; lia|].
  cbn [to_le from_le]. rewrite IH.
  - pose proof (N.div_mod w 256). lia.
  - apply N.Div0.div_lt_upper_bound. rewrite Nat2N.inj_succ, N.pow_succ_r' in Hw. lia.
Qed.

Lemma from_le_bound bs : Forall is_byte bs -> from_le bs < 256 ^ N.of_nat (length bs).
Proof.
  induction 1 as [|b bs Hb _ IH]; cbn [from_le length]; [simpl; lia|].
  rewrite Nat2N.inj_succ, N.pow_succ_r'. unfold is_byte in Hb. lia.
Qed.

(** [u64] as [i64] and back. *)
Definition i64_word (z : Z) : N := Z.to_N (z mod 2 ^ 64).
Definition word_i64 (w : N) : Z := wrap_i64 (Z.of_N w).

Lemma i64_word_bound z : i64_word z < 256 ^ 8.
Proof. unfold i64_word. pose proof (Z.mod_pos_bound z (2 ^ 64) ltac:(lia)). simpl. lia. Qed.

Lemma word_i64_word z : in_i64 z = true -> word_i64 (i64_word z) = z.
Proof.
  unfold in_i64, i64_min, i64_max, word_i64, i64_word, wrap_i64. rewrite andb_true_iff, !Z.leb_le.
  intros Hz. rewrite Z2N.id by (apply Z.mod_pos_bound; lia).
  rewrite Z.add_mod_idemp_l by lia. rewrite Z.mod_small; lia.
Qed.

(** ** Bit patterns of [f64] *)

(** [f64::from_bits].  A pattern that is not a number loads as the one NaN of
    the model. *)
Definition f64_of_bits (w : Z) : f64 :=
  let s := (2 ^ 63 <=? w)%Z in
  let e := (w / 2 ^ 52 mod 2048)%Z in
  let m := (w mod 2 ^ 52)%Z in
  if (e =? 2047)%Z then (if (m =? 0)%Z then S754_infinity s else S754_nan)
  else if (e =? 0)%Z
  then match m with Zpos p => S754_finite s p (-1074) | _ => S754_zero s end
  else match (m + 2 ^ 52)%Z with Zpos p => S754_finite s p (e - 1075) | _ => S754_zero s end.

(** A float of the binary64 format. *)
Definition f64_ok (x : f64) : Prop := valid_binary f64_prec f64_emax x = true.

Lemma digits2_pos_spec m :
  (2 ^ (Z.pos (digits2_pos m) - 1) <= Z.pos m < 2 ^ Z.pos (digits2_pos m))%Z.
Proof.
  assert (E : forall p, (2 ^ (Z.pos (Pos.succ p) - 1) = 2 * 2 ^ (Z.pos p - 1))%Z
                   /\ (2 ^ Z.pos (Pos.succ p) = 2 * 2 ^ Z.pos p)%Z).
  { intros p. rewrite <- !Z.pow_succ_r by lia. split; f_equal; lia. }
  induction m as [m IH|m IH|]; cbn [digits2_pos]; [| |by compute];
    destruct (E (digits2_pos m)) as [-> ->]; lia.
Qed.

(** The mantissas and exponents of binary64. *)
Lemma f64_ok_finite s m e :
  f64_ok (S754_finite s m e) ->
  (Z.pos m < 2 ^ 53 /\ -1074 <= e <= 971 /\ (Z.pos m < 2 ^ 52 -> e = -1074))%Z
  /\ (Z.pos (digits2_pos m) =? f64_prec)%Z = (2 ^ 52 <=? Z.pos m)%Z.
Proof.
  unfold f64_ok, valid_binary, bounded, canonical_mantissa, fexp, emin, f64_prec, f64_emax.
  rewrite andb_true_iff, Z.leb_le. intros [Hc He]. apply Zeq_bool_eq in Hc.
  pose proof (digits2_pos_spec m) as Hd. set (d := Z.pos (digits2_pos m)) in *.
  assert (d <= 53)%Z by lia.
  assert (2 ^ d <= 2 ^ 53)%Z by (apply Z.pow_le_mono_r; lia).
  assert (d < 53 -> 2 ^ d <= 2 ^ 52)%Z by (intros; apply Z.pow_le_mono_r; lia).
  assert (d = 53 -> Z.pos m >= 2 ^ 52)%Z by (intros ->; lia).
  repeat split; try lia.
Qed.

Lemma f64_of_bits_word (s : bool) e m :
  (0 <= e < 2048)%Z -> (0 <= m < 2 ^ 52)%Z ->
  f64_of_bits ((if s then 2 ^ 63 else 0) + e * 2 ^ 52 + m) =
  if (e =? 2047)%Z then (if (m =? 0)%Z then S754_infinity s else S754_nan)
  else if (e =? 0)%Z
  then match m with Zpos p => S754_finite s p (-1074) | _ => S754_zero s end
  else match (m + 2 ^ 52)%Z with Zpos p => S754_finite s p (e - 1075) | _ => S754_zero s end.
Proof.
  intros He Hm. unfold f64_of_bits. set (w := ((if s then 2 ^ 63 else 0) + e * 2 ^ 52 + m)%Z).
  assert (Hs : (2 ^ 63 <=? w)%Z = s).
  { subst w. destruct s; [apply Z.leb_le|apply Z.leb_gt]; lia. }
  assert (Hw : (w = ((if s then 2048 else 0) + e) * 2 ^ 52 + m)%Z) by (subst w; destruct s; lia).
  assert (Hq : (w / 2 ^ 52 = (if s then 2048 else 0) + e)%Z).
  { rewrite Hw, Z.div_add_l, Z.div_small by lia. lia. }
  assert (Hr : (w mod 2 ^ 52 = m)%Z).
  { rewrite Hw, Z.add_comm, Z.mod_add, Z.mod_small; lia. }
  rewrite Hs, Hq, Hr.
  assert (((if s then 2048 else 0) + e) mod 2048 = e)%Z as ->; [|done].
  destruct s; [replace (2048 + e)%Z with (e + 1 * 2048)%Z by lia; rewrite Z.mod_add by lia|];
    rewrite Z.mod_small; lia.
Qed.

Lemma f64_bits_roundtrip x :
  f64_ok x -> (0 <= f64_to_bits x < 2 ^ 64)%Z /\ f64_of_bits (f64_to_bits x) = x.
Proof.
  destruct x as [s|s| |s m e]; intros Hx; [by destruct s; vm_compute..|by vm_compute|].
  destruct (f64_ok_finite s m e Hx) as [(Hm & He & Hsub) Hd].
  cbn [f64_to_bits]. rewrite Hd.
  destruct (Z.leb_spec (2 ^ 52) (Z.pos m)) as [Hn|Hn].
  - rewrite Z.add_assoc. split; [destruct s; lia|]. rewrite f64_of_bits_word by lia.
    destruct (Z.eqb_spec (e + 1075) 2047); [lia|]. destruct (Z.eqb_spec (e + 1075) 0); [lia|].
    replace (Z.pos m - 2 ^ 52 + 2 ^ 52)%Z with (Z.pos m) by lia. f_equal. lia.
  - split; [destruct s; lia|]. pose proof (f64_of_bits_word s 0 (Z.pos m)) as E.
    rewrite Z.add_0_r in E. rewrite E by lia. cbn. by rewrite (Hsub Hn).
Qed.

(** ** Lengths as LEB128 *)

(** [put_len], on the [usize] [n]: ten groups of seven bits are enough. *)
Fixpoint put_len_go (fuel : nat) (n : N) : list byte :=
  match fuel with
  | O => []
  | S fuel =>
      let b := N.land n 127 in
      let n := N.shiftr n 7 in
      if n =? 0 then [b] else N.lor b 128 :: put_len_go fuel n
  end.

Definition put_len (n : nat) : list byte := put_len_go 10 (N.of_nat n).

(** [put_bytes] *)
Definition put_bytes (bs : list byte) : list byte := put_len (length bs) ++ bs.

(** ** UTF-8 *)

(** A Rust [char]: a Unicode scalar value. *)
Definition valid_char (c : char) : bool := (c <? 55296) || ((57344 <=? c) && (c <? 1114112)).

Definition valid_str (s : str) : bool := forallb valid_char s.

Definition is_cont (b : byte) : bool := (128 <=? b) && (b <? 192).

(** One scalar value off the front: shortest form only, no surrogates. *)
Definition utf8_next (bs : list byte) : option (char * list byte) :=
  match bs with
  | [] => None
  | b :: bs =>
      if b <? 128 then Some (b, bs)
      else if b <? 192 then None
      else if b <? 224 then
        match bs with
        | b1 :: bs =>
            let c := (b - 192) * 64 + (b1 - 128) in
            if is_cont b1 && (128 <=? c) then Some (c, bs) else None
        | _ => None
        end
      else if b <? 240 then
        match bs with
        | b1 :: b2 :: bs =>
            let c := (b - 224) * 4096 + (b1 - 128) * 64 + (b2 - 128) in
            if is_cont b1 && is_cont b2 && (2048 <=? c) && valid_char c then Some (c, bs) else None
        | _ => None
        end
      else
        match bs with
        | b1 :: b2 :: b3 :: bs =>
            let c := (b - 240) * 262144 + (b1 - 128) * 4096 + (b2 - 128) * 64 + (b3 - 128) in
            if is_cont b1 && is_cont b2 && is_cont b3 && (65536 <=? c) && valid_char c
            then Some (c, bs) else None
        | _ => None
        end
  end.

(** [str::from_utf8]; each scalar value takes at least one byte. *)
Fixpoint from_utf8_go (fuel : nat) (bs : list byte) : option str :=
  match bs, fuel with
  | [], _ => Some []
  | _, O => None
  | _, S fuel =>
      match utf8_next bs with
      | Some (c, bs) => cons c <$> from_utf8_go fuel bs
      | None => None
      end
  end.

Definition from_utf8 (bs : list byte) : option str := from_utf8_go (length bs) bs.

Lemma valid_char_bound c : valid_char c = true -> c < 1114112.
Proof. unfold valid_char. rewrite orb_true_iff, andb_true_iff, !N.ltb_lt. lia. Qed.

(** Name the base-64 digits of [c], so that [lia] sees them as variables. *)
Ltac digits c :=
  pose proof (base64_split c);
  generalize dependent (c / 262144); generalize dependent (c / 4096 mod 64);
  generalize dependent (c / 64 mod 64); generalize dependent (c mod 64);
  generalize dependent (c / 4096); generalize dependent (c / 64); intros.

Lemma utf8_char_bytes c : valid_char c = true -> Forall is_byte (utf8_char c).
Proof.
  intros Hc%valid_char_bound. unfold utf8_char, is_byte. digits c.
  repeat case_match; rewrite ?N.ltb_lt, ?N.ltb_ge in *;
    repeat apply Forall_cons_2; try apply Forall_nil_2; cbv beta; lia.
Qed.

Lemma as_bytes_bytes s : valid_str s = true -> Forall is_byte (as_bytes s).
Proof.
  unfold valid_str, as_bytes. rewrite forallb_forall. intros H.
  apply Forall_concat, Forall_forall. intros bs Hbs.
  apply in_map_iff in Hbs as (c & <- & Hc). by apply utf8_char_bytes, H.
Qed.

Ltac nb := rewrite ?N.ltb_lt, ?N.ltb_ge, ?N.leb_le, ?N.leb_gt in *.

Lemma utf8_next_char c bs :
  valid_char c = true -> utf8_next (utf8_char c ++ bs) = Some (c, bs).
Proof.
  intros Hc. pose proof (valid_char_bound c Hc).
  assert (Hb : forall b, b < 64 -> is_cont (128 + b) = true).
  { intros b Hb. unfold is_cont. apply andb_true_iff. nb. lia. }
  unfold utf8_char. digits c. destruct (c <? 128) eqn:H1; [by cbn; rewrite H1|].
  destruct (c <? 2048) eqn:H2; [|destruct (c <? 65536) eqn:H3]; nb; cbn [app utf8_next];
    rewrite !(proj2 (N.ltb_ge _ _)) by lia; rewrite ?(proj2 (N.ltb_lt _ _)) by lia;
    rewrite !Hb by lia; cbn [andb].
  - replace (_ * 64 + _) with c by lia.
    by rewrite (proj2 (N.leb_le 128 c)).
  - replace (_ * 4096 + _ + _) with c by lia.
    by rewrite (proj2 (N.leb_le 2048 c)), Hc.
  - replace (_ * 262144 + _ + _ + _) with c by lia.
    by rewrite (proj2 (N.leb_le 65536 c)), Hc.
Qed.

Lemma from_utf8_go_as_bytes s fuel :
  valid_str s = true -> (length (as_bytes s) <= fuel)%nat ->
  from_utf8_go fuel (as_bytes s) = Some s.
Proof.
  revert fuel; induction s as [|c s IH]; intros fuel Hs H; [by destruct fuel|].
  cbn in Hs. apply andb_true_iff in Hs as [Hc Hs].
  unfold as_bytes in *. cbn [map concat] in *. rewrite length_app in H.
  assert (exists b bs, utf8_char c = b :: bs) as (b & bs & Hb)
    by (unfold utf8_char; repeat case_match; eauto).
  destruct fuel as [|fuel]; [rewrite Hb in H; simpl in H; lia|].
  pose proof (utf8_next_char c (concat (map utf8_char s)) Hc) as Hn.
  rewrite Hb in *. cbn [app from_utf8_go] in *. rewrite Hn, IH; [done|done|]. simpl in H. lia.
Qed.

Lemma from_utf8_as_bytes s : valid_str s = true -> from_utf8 (as_bytes s) = Some s.
Proof. intros Hs. by apply from_utf8_go_as_bytes. Qed.

Lemma digits_of a b d e c :
  b < 64 -> d < 64 -> e < 64 -> c = a * 262144 + b * 4096 + d * 64 + e ->
  c / 64 = a * 4096 + b * 64 + d /\ c mod 64 = e /\ c / 4096 = a * 64 + b
  /\ c / 64 mod 64 = d /\ c / 262144 = a /\ c / 4096 mod 64 = b.
Proof. intros. digits c. lia. Qed.

(** Decoding is exact: the bytes read are those of the scalar value. *)
Lemma utf8_next_inv bs c rest :
  utf8_next bs = Some (c, rest) -> bs = utf8_char c ++ rest /\ valid_char c = true.
Proof.
  unfold utf8_next, is_cont. intros H.
  repeat case_match; simplify_eq/=;
    repeat match goal with H : _ && _ = true |- _ => apply andb_true_iff in H as [? ?] end; nb.
  - split; [|unfold valid_char; apply orb_true_iff; nb; lia]. unfold utf8_char.
    by rewrite (proj2 (N.ltb_lt _ _)).
  - match goal with |- context [utf8_char ?c] => set (d := c) in * end.
    destruct (digits_of 0 0 (n - 192) (n0 - 128) d) as (E1 & E2 & E3 & E4 & E5 & E6); [lia..|].
    split; [|unfold valid_char; apply orb_true_iff; nb; lia]. unfold utf8_char.
    rewrite (proj2 (N.ltb_ge d 128)), (proj2 (N.ltb_lt d 2048)), E1, E2 by lia.
    cbn. repeat f_equal; lia.
  - match goal with |- context [utf8_char ?c] => set (d := c) in * end.
    destruct (digits_of 0 (n - 224) (n0 - 128) (n1 - 128) d) as (E1 & E2 & E3 & E4 & E5 & E6); [lia..|].
    split; [|done]. unfold utf8_char.
    rewrite (proj2 (N.ltb_ge d 128)), (proj2 (N.ltb_ge d 2048)), (proj2 (N.ltb_lt d 65536)), E2, E3, E4 by lia.
    cbn. repeat f_equal; lia.
  - match goal with |- context [utf8_char ?c] => set (d := c) in * end.
    destruct (digits_of (n - 240) (n0 - 128) (n1 - 128) (n2 - 128) d) as (E1 & E2 & E3 & E4 & E5 & E6); [lia..|].
    split; [|done]. unfold utf8_char.
    rewrite (proj2 (N.ltb_ge d 128)), (proj2 (N.ltb_ge d 2048)), (proj2 (N.ltb_ge d 65536)), E2, E4, E5, E6 by lia.
    cbn. repeat f_equal; lia.
Qed.

Arguments utf8_next : simpl never.

Lemma from_utf8_go_valid fuel bs s : from_utf8_go fuel bs = Some s -> valid_str s = true.
Proof.
  revert bs s; induction fuel as [|fuel IH]; intros [|b bs] s H; simplify_eq/=; [done..|].
  case_match eqn:Hn; [|done]. case_match; subst. apply fmap_Some in H as (s' & Hs' & ->).
  cbn. apply utf8_next_inv in Hn as [_ ->]. by eapply IH.
Qed.

Lemma from_utf8_valid bs s : from_utf8 bs = Some s -> valid_str s = true.
Proof. apply from_utf8_go_valid. Qed.

(** Every pattern is a float of the format. *)
Lemma f64_of_bits_ok w : f64_ok (f64_of_bits w).
Proof.
  unfold f64_of_bits. set (s := (2 ^ 63 <=? w)%Z). clearbody s.
  pose proof (Z.mod_pos_bound (w / 2 ^ 52) 2048 ltac:(lia)) as He.
  pose proof (Z.mod_pos_bound w (2 ^ 52) ltac:(lia)) as Hm.
  revert He Hm. generalize (w / 2 ^ 52 mod 2048)%Z (w mod 2 ^ 52)%Z. intros e m He Hm.
  assert (Hfin : forall p x, (2 ^ 52 <= Z.pos p < 2 ^ 53 \/ x = -1074 /\ Z.pos p < 2 ^ 52)%Z ->
    (-1074 <= x <= 971)%Z -> f64_ok (S754_finite s p x)).
  { intros p x Hp Hx. unfold f64_ok, valid_binary, bounded, canonical_mantissa, fexp, emin, f64_prec, f64_emax.
    pose proof (digits2_pos_spec p) as Hd. set (d := Z.pos (digits2_pos p)) in *.
    assert (0 < d)%Z by (subst d; lia).
    assert (d <= 53)%Z. { apply Z.nlt_ge. intros Hgt. pose proof (Z.pow_le_mono_r 2 53 (d - 1)). lia. }
    assert (Z.pos p < 2 ^ 52 -> d <= 52)%Z.
    { intros. apply Z.nlt_ge. intros Hgt. pose proof (Z.pow_le_mono_r 2 52 (d - 1)). lia. }
    assert (2 ^ 52 <= Z.pos p -> d = 53)%Z.
    { intros. destruct (Z.eq_dec d 53%Z); [done|]. pose proof (Z.pow_le_mono_r 2 d 52). lia. }
    apply andb_true_iff. split; [apply Zeq_is_eq_bool|apply Z.leb_le]; lia. }
  destruct (Z.eqb_spec e 2047); [by destruct (m =? 0)%Z|].
  destruct (Z.eqb_spec e 0).
  - destruct m as [|p|p] eqn:Em; [done|apply Hfin; lia|done].
  - destruct (m + 2 ^ 52)%Z as [|p|p] eqn:Em; [lia|apply Hfin; lia|lia].
Qed.
