(* ===== verification/Keys.v ===== *)
(** * Keys: case-insensitive struct keys and their interner

    cfml-common: [key.rs].  A [Key] carries the hash of its case-folded name and
    the name in its first casing; the bounded interner hands every constructor
    of one spelling the same allocation.

    An [Arc<str>] is an address with its text; [Arc::ptr_eq] compares addresses.
    The interner's shards partition its buckets by hash and matter only for
    their locks, so a bucket is known by its hash. *)

From stdpp Require Import base list numbers strings gmap relations.
From S2P Require Import Prelude Text Bytes.
Local Open Scope N_scope.

(** ** The hash *)

Definition FX_SEED : N := 0x517cc1b727220a95.
Definition CASE_BIT : N := 0x2020202020202020.

(** [u64::rotate_left] by five. *)
Definition rotate_left5 (h : N) : N := N.lor (N.shiftl h 5 mod 2 ^ 64) (N.shiftr h 59).

(** One round; [wrapping_mul]. *)
Definition mix (h w : N) : N := (N.lxor (rotate_left5 h) w * FX_SEED) mod 2 ^ 64.

(** The bytes of [rest] that are really there. *)
Definition tail_mask (n : nat) : N := 2 ^ (8 * N.of_nat n) - 1.

Fixpoint fold_words (h : N) (bytes : list byte) : N :=
  match bytes with
  | b0 :: b1 :: b2 :: b3 :: b4 :: b5 :: b6 :: b7 :: rest =>
      fold_words (mix h (N.lor (from_le [b0; b1; b2; b3; b4; b5; b6; b7]) CASE_BIT)) rest
  | [] => h
  | rest => mix h (N.lor (from_le rest) (N.land CASE_BIT (tail_mask (length rest))))
  end.

Definition fold_hash (name : str) : N :=
  let bytes := as_bytes name in
  fold_words (N.of_nat (length bytes)) bytes.

(** ** Keys *)

Record arc_str := ArcStr { arc_ptr : N; arc_text : str }.

Record key := Key { k_hash : N; k_name : arc_str }.

(** [KeyRef] *)
Record key_ref := KeyRef { kr_hash : N; kr_name : str }.

Definition key_ref_new (name : str) : key_ref := KeyRef (fold_hash name) name.
Definition as_ref (k : key) : key_ref := KeyRef (k_hash k) (arc_text (k_name k)).

Definition key_eq (a b : key) : bool :=
  (k_hash a =? k_hash b)
  && ((arc_ptr (k_name a) =? arc_ptr (k_name b))
      || eq_ignore_ascii_case (arc_text (k_name a)) (arc_text (k_name b))).

(** [Equivalent<Key> for KeyRef]; [PartialEq for KeyRef] is the same test. *)
Definition equivalent (r : key_ref) (k : key) : bool :=
  (kr_hash r =? k_hash k) && eq_ignore_ascii_case (kr_name r) (arc_text (k_name k)).

(** The loop of [Ord::cmp]. *)
Fixpoint cmp_bytes (a b : list byte) : comparison :=
  match a, b with
  | x :: a, y :: b =>
      if ascii_lower x =? ascii_lower y then cmp_bytes a b else ascii_lower x ?= ascii_lower y
  | _, _ => N.of_nat (length a) ?= N.of_nat (length b)
  end.

Definition key_cmp (a b : key) : comparison :=
  cmp_bytes (as_bytes (arc_text (k_name a))) (as_bytes (arc_text (k_name b))).

(** ** The interner *)

Definition SHARDS : N := 16.

Definition shard_of (hash : N) : N := N.land hash (SHARDS - 1).

(** [TABLE] and [COUNT], the next address to allocate, and the threads between
    their test of the count and the end of their critical section. *)
Record interner := Interner {
  in_buckets : gmap N (list arc_str);
  in_count : N;
  in_next : N;
  in_pushing : list (N * str)
}.

Definition empty_interner : interner := Interner ∅ 0 0 [].

Definition bucket (hash : N) (t : interner) : list arc_str :=
  default [] (in_buckets t !! hash).

(** [Arc::from] *)
Definition arc_from (name : str) (t : interner) : arc_str * interner :=
  (ArcStr (in_next t) name, Interner (in_buckets t) (in_count t) (in_next t + 1) (in_pushing t)).

(** A call of [intern] up to the test of the count: it returns, or goes on to
    [intern_push] with the shard locked. *)
Definition intern_enter (cap : N) (name : str) (t : interner) : option arc_str * interner :=
  let hash := fold_hash name in
  let private := let '(a, t) := arc_from name t in (Some a, t) in
  if (cap =? 0) || (128 <? N.of_nat (length (as_bytes name))) then private
  else match find (fun a => bool_decide (arc_text a = name)) (bucket hash t) with
       | Some a => (Some a, t)
       | None =>
           if cap <=? in_count t then private
           else (None, Interner (in_buckets t) (in_count t) (in_next t)
                         (in_pushing t ++ [(hash, name)]))
       end.

(** The rest of the call of the [i]th thread: allocate, push, count, unlock. *)
Definition intern_push (i : nat) (t : interner) : option (arc_str * interner) :=
  match in_pushing t !! i with
  | Some (hash, name) =>
      let '(a, t) := arc_from name t in
      Some (a, Interner (<[hash := bucket hash t ++ [a]]> (in_buckets t)) (in_count t + 1)
                 (in_next t) (delete i (in_pushing t)))
  | None => None
  end.

(** A shard's lock is free. *)
Definition unlocked (hash : N) (t : interner) : bool :=
  negb (existsb (fun p => shard_of p.1 =? shard_of hash) (in_pushing t)).

(** A call that no other interrupts. *)
Definition intern (cap : N) (name : str) (t : interner) : arc_str * interner :=
  match intern_enter cap name t with
  | (Some a, t) => (a, t)
  | (None, t) => match intern_push (length (in_pushing t) - 1) t with
                 | Some r => r
                 | None => arc_from name t
                 end
  end.

(** [Key::new], [Key::from_string] *)
Definition key_new (cap : N) (name : str) (t : interner) : key * interner :=
  let '(a, t) := intern cap name t in (Key (fold_hash name) a, t).

(** [KeyRef::to_key]: not interned. *)
Definition to_key (r : key_ref) (t : interner) : key * interner :=
  let '(a, t) := arc_from (kr_name r) t in (Key (kr_hash r) a, t).

(** ** The hash ignores case *)

(** Bytes that differ at most in ASCII case. *)
Definition same_byte (x y : byte) : Prop := ascii_lower x = ascii_lower y.

Lemma lor_add (a b x y : N) :
  a < 256 -> b < 256 -> N.lor (a + 256 * x) (b + 256 * y) = N.lor a b + 256 * N.lor x y.
Proof.
  intros Ha Hb. change 256 with (2 ^ 8) in *. rewrite !(N.mul_comm (2 ^ 8)).
  assert (E : forall c z, c < 2 ^ 8 -> c + z * 2 ^ 8 = N.lor c (N.shiftl z 8)).
  { intros c z Hc. rewrite N.shiftl_mul_pow2. rewrite <- N.lxor_lor, <- N.add_nocarry_lxor; [done| |];
      apply N.bits_inj_0; intros n; rewrite N.land_spec;
      (destruct (N.lt_ge_cases n 8) as [Hn|Hn];
       [rewrite N.mul_pow2_bits_low by done; apply andb_false_r
       |rewrite <- (N.mod_small c (2 ^ 8)) by done; rewrite N.mod_pow2_bits_high by done; done]). }
  assert (N.lor a b < 2 ^ 8).
  { destruct (N.eq_dec (N.lor a b) 0) as [->|Hz]; [lia|].
    apply N.log2_lt_pow2; [lia|]. rewrite N.log2_lor.
    assert (forall c, c < 2 ^ 8 -> N.log2 c < 8).
    { intros c Hc. destruct (N.eq_dec c 0) as [->|]; [simpl; lia|]. apply N.log2_lt_pow2; lia. }
    apply N.max_lub_lt; auto. }
  rewrite !E by done. rewrite N.shiftl_lor. apply N.bits_inj. intros n. rewrite !N.lor_spec.
  by destruct (N.testbit a n), (N.testbit b n), (N.testbit (N.shiftl x 8) n), (N.testbit (N.shiftl y 8) n).
Qed.

Lemma fold_byte x y : is_byte x -> is_byte y -> same_byte x y -> N.lor x 32 = N.lor y 32.
Proof.
  unfold is_byte, same_byte. intros Hx Hy.
  assert (E : forall z, z < 256 -> N.lor z 32 = N.lor (ascii_lower z) 32).
  { intros z Hz. unfold ascii_lower. case_match eqn:Hu; [|done].
    apply andb_true_iff in Hu as [? ?]. rewrite N.leb_le in *.
    assert (exists k, (k < 26)%nat /\ z = 65 + N.of_nat k) as (k & Hk & ->)
      by (exists (N.to_nat (z - 65)); lia).
    clear -Hk. do 26 (destruct k as [|k]; [done|]). lia. }
  intros H. by rewrite (E x), (E y), H.
Qed.

Lemma fold_word x y :
  Forall is_byte x -> Forall is_byte y -> Forall2 same_byte x y ->
  N.lor (from_le x) (from_le (replicate (length x) 32))
  = N.lor (from_le y) (from_le (replicate (length y) 32)).
Proof.
  intros Hx Hy H. induction H as [|b c x y Hbc H IH]; [done|].
  inversion Hx; inversion Hy; subst. cbn [length replicate from_le].
  rewrite !lor_add by (done || lia). by rewrite IH, (fold_byte b c).
Qed.

Lemma case_mask n : (n < 8)%nat ->
  N.land CASE_BIT (tail_mask n) = from_le (replicate n 32).
Proof. intros Hn. do 8 (destruct n as [|n]; [done|]). lia. Qed.

Lemma fold_words_short h x :
  (length x < 8)%nat ->
  fold_words h x =
  match x with
  | [] => h
  | _ => mix h (N.lor (from_le x) (from_le (replicate (length x) 32)))
  end.
Proof.
  intros Hx. rewrite <- case_mask by done.
  do 8 (destruct x as [|? x]; [done|]). simpl in Hx. lia.
Qed.

Lemma fold_words_long h w x :
  length w = 8%nat ->
  fold_words h (w ++ x)
  = fold_words (mix h (N.lor (from_le w) (from_le (replicate (length w) 32)))) x.
Proof. intros Hw. do 8 (destruct w as [|? w]; [done|]). by destruct w. Qed.

Lemma fold_words_ci h x y :
  Forall is_byte x -> Forall is_byte y -> Forall2 same_byte x y -> fold_words h x = fold_words h y.
Proof.
  remember (length x) as n eqn:Hn. revert h x y Hn.
  induction n as [n IH] using lt_wf_ind. intros h x y -> Hx Hy H.
  pose proof (Forall2_length _ _ _ H) as Hl.
  destruct (decide (length x < 8)%nat) as [Hs|Hs].
  - rewrite !fold_words_short by lia. rewrite (fold_word x y) by done. by destruct H.
  - rewrite <- (take_drop 8 x), <- (take_drop 8 y).
    rewrite !fold_words_long by (rewrite length_take; lia).
    rewrite (fold_word (take 8 x) (take 8 y)) by auto using Forall_take, Forall2_take.
    eapply IH; [|done|auto using Forall_drop, Forall2_drop..]. rewrite length_drop. lia.
Qed.

Lemma same_bytes_lower x y : Forall2 same_byte x y <-> map ascii_lower x = map ascii_lower y.
Proof.
  split; [induction 1 as [|b c x y Hbc _ IH]; cbn; [done|by rewrite Hbc, IH]|].
  revert y; induction x as [|b x IH]; intros [|c y] H; cbn in H; simplify_eq; constructor; auto.
Qed.

Lemma ascii_lower_high c : 128 <= c -> ascii_lower c = c.
Proof.
  intros Hc. unfold ascii_lower. case_match eqn:E; [|done].
  apply andb_true_iff in E as [_ E]. apply N.leb_le in E. lia.
Qed.

(** Lower-casing the ASCII letters commutes with UTF-8. *)
Lemma lower_as_bytes s : map ascii_lower (as_bytes s) = as_bytes (map ascii_lower s).
Proof.
  induction s as [|c s IH]; [done|]. unfold as_bytes in *. cbn [map concat].
  rewrite map_app, IH. f_equal. clear. destruct (N.ltb_spec c 128) as [Hc|Hc].
  - assert (ascii_lower c < 128).
    { unfold ascii_lower. case_match eqn:E; [|done]. apply andb_true_iff in E as [_ E].
      apply N.leb_le in E. lia. }
    unfold utf8_char. by rewrite !(proj2 (N.ltb_lt _ _)).
  - rewrite (ascii_lower_high c Hc). unfold utf8_char. rewrite (proj2 (N.ltb_ge _ _)) by done.
    digits c. repeat case_match; cbn; repeat f_equal; apply ascii_lower_high; lia.
Qed.

Lemma eq_ignore_bytes a b :
  eq_ignore_ascii_case a b = true <-> Forall2 same_byte (as_bytes a) (as_bytes b).
Proof.
  rewrite same_bytes_lower, !lower_as_bytes, eq_ignore_ascii_case_spec.
  split; [by intros ->|apply as_bytes_inj].
Qed.

Lemma fold_hash_ci a b :
  valid_str a = true -> valid_str b = true ->
  eq_ignore_ascii_case a b = true -> fold_hash a = fold_hash b.
Proof.
  intros Ha Hb H%eq_ignore_bytes. unfold fold_hash. rewrite (Forall2_length _ _ _ H).
  by apply fold_words_ci; try apply as_bytes_bytes.
Qed.

(** ** Equality and order *)

(** A key as the constructors make it. *)
Definition key_ok (k : key) : Prop :=
  k_hash k = fold_hash (arc_text (k_name k)) /\ valid_str (arc_text (k_name k)) = true.

Lemma equivalent_spec r k :
  valid_str (kr_name r) = true -> kr_hash r = fold_hash (kr_name r) -> key_ok k ->
  equivalent r k = eq_ignore_ascii_case (kr_name r) (arc_text (k_name k)).
Proof.
  intros Hr Hh [Hk Hv]. unfold equivalent.
  destruct (eq_ignore_ascii_case _ _) eqn:E; [|apply andb_false_r].
  by rewrite Hh, Hk, (fold_hash_ci _ _ Hr Hv E), N.eqb_refl.
Qed.

Lemma key_eq_spec a b :
  key_ok a -> key_ok b ->
  (arc_ptr (k_name a) = arc_ptr (k_name b) -> arc_text (k_name a) = arc_text (k_name b)) ->
  key_eq a b = eq_ignore_ascii_case (arc_text (k_name a)) (arc_text (k_name b)).
Proof.
  intros [Ha Hva] [Hb Hvb] Hp. unfold key_eq.
  destruct (eq_ignore_ascii_case _ _) eqn:E.
  - by rewrite Ha, Hb, (fold_hash_ci _ _ Hva Hvb E), N.eqb_refl, orb_true_r.
  - rewrite orb_false_r. destruct (N.eqb_spec (arc_ptr (k_name a)) (arc_ptr (k_name b))) as [Hab|];
      [|apply andb_false_r]. by rewrite (Hp Hab), eq_ignore_ascii_case_refl in E.
Qed.

Lemma cmp_bytes_antisym a b : cmp_bytes b a = CompOpp (cmp_bytes a b).
Proof.
  revert b; induction a as [|x a IH]; intros [|y b]; cbn [cmp_bytes]; [done..|].
  rewrite (N.eqb_sym (ascii_lower y)). case_match; [apply IH|apply N.compare_antisym].
Qed.

Lemma cmp_bytes_eq a b : cmp_bytes a b = Eq <-> Forall2 same_byte a b.
Proof.
  revert b; induction a as [|x a IH]; intros [|y b]; cbn [cmp_bytes].
  - split; [constructor|done].
  - split; [done|inversion 1].
  - split; [done|inversion 1].
  - rewrite Forall2_cons, <- IH. unfold same_byte. destruct (N.eqb_spec (ascii_lower x) (ascii_lower y)).
    + tauto.
    + rewrite N.compare_eq_iff. tauto.
Qed.

Lemma cmp_bytes_trans a b c :
  cmp_bytes a b <> Gt -> cmp_bytes b c <> Gt -> cmp_bytes a c <> Gt.
Proof.
  revert b c; induction a as [|x a IH]; intros [|y b] [|z c]; cbn [cmp_bytes length];
    rewrite ?N.compare_le_iff; try lia.
  destruct (N.eqb_spec (ascii_lower x) (ascii_lower y)), (N.eqb_spec (ascii_lower y) (ascii_lower z)),
    (N.eqb_spec (ascii_lower x) (ascii_lower z)); rewrite ?N.compare_le_iff; try lia; try congruence.
  apply IH.
Qed.

Lemma key_cmp_eq a b :
  key_cmp a b = Eq <-> eq_ignore_ascii_case (arc_text (k_name a)) (arc_text (k_name b)) = true.
Proof. unfold key_cmp. by rewrite cmp_bytes_eq, eq_ignore_bytes. Qed.

(** ** Interleavings of the interner *)

(** The interner with the keys handed out so far.  Threads build keys through
    the interner or beside it ([to_key]). *)
Inductive key_step (cap : N) : interner * list key -> interner * list key -> Prop :=
  | step_enter name t ks a t' :
      valid_str name = true ->
      (cap =? 0) || (128 <? N.of_nat (length (as_bytes name))) || unlocked (fold_hash name) t = true ->
      intern_enter cap name t = (a, t') ->
      key_step cap (t, ks)
        (t', match a with Some a => Key (fold_hash name) a :: ks | None => ks end)
  | step_push i h name t ks a t' :
      in_pushing t !! i = Some (h, name) -> intern_push i t = Some (a, t') ->
      key_step cap (t, ks) (t', Key h a :: ks)
  | step_to_key name t ks k t' :
      valid_str name = true -> to_key (key_ref_new name) t = (k, t') ->
      key_step cap (t, ks) (t', k :: ks).

(** Every allocation in use: of the table and of the keys. *)
Definition arcs (t : interner) (ks : list key) : list arc_str :=
  concat (map_to_list (in_buckets t)).*2 ++ (k_name <$> ks).

Record key_inv (cap : N) (t : interner) (ks : list key) : Prop := {
  ki_keys : Forall key_ok ks;
  ki_fresh : forall a, a ∈ arcs t ks -> arc_ptr a < in_next t;
  ki_ptr : forall a b, a ∈ arcs t ks -> b ∈ arcs t ks -> arc_ptr a = arc_ptr b -> a = b;
  ki_bucket : forall h l, in_buckets t !! h = Some l ->
                NoDup (arc_text <$> l)
                /\ forall a, a ∈ l -> fold_hash (arc_text a) = h /\ valid_str (arc_text a) = true;
  ki_count : in_count t = N.of_nat (length (concat (map_to_list (in_buckets t)).*2));
  ki_locks : NoDup ((fun p => shard_of p.1) <$> in_pushing t);
  ki_pushing : forall h name, (h, name) ∈ in_pushing t ->
                 h = fold_hash name /\ valid_str name = true /\ name ∉ arc_text <$> bucket h t;
  ki_bound : in_count t + N.of_nat (length (in_pushing t)) <= cap + (SHARDS - 1)
}.

Lemma buckets_push (m : gmap N (list arc_str)) h a :
  concat (map_to_list (<[h := default [] (m !! h) ++ [a]]> m)).*2 ≡ₚ a :: concat (map_to_list m).*2.
Proof.
  destruct (m !! h) as [l|] eqn:Hh; simpl.
  - rewrite <- insert_delete_eq, map_to_list_insert by apply lookup_delete_eq.
    rewrite <- (map_to_list_delete m h l) by done. cbn. rewrite <- app_assoc. cbn.
    by rewrite Permutation_middle.
  - by rewrite map_to_list_insert.
Qed.

Lemma arcs_alloc t ks h name :
  arcs (arc_from name t).2 (Key h (arc_from name t).1 :: ks) ≡ₚ (arc_from name t).1 :: arcs t ks.
Proof. unfold arcs. cbn. by rewrite Permutation_middle. Qed.

Lemma arcs_push t ks i h name a t' :
  in_pushing t !! i = Some (h, name) -> intern_push i t = Some (a, t') ->
  a = ArcStr (in_next t) name
  /\ (forall b, b ∈ arcs t' (Key h a :: ks) <-> b = a \/ b ∈ arcs t ks).
Proof.
  intros Hi. unfold intern_push. rewrite Hi. cbn. intros [= <- <-]. split; [done|].
  intros b. unfold arcs. cbn [in_buckets]. unfold bucket. cbn. rewrite !elem_of_app, buckets_push.
  rewrite !elem_of_cons. tauto.
Qed.

(** A block at a new address keeps addresses apart. *)
Lemma fresh_arc (l l' : list arc_str) n a :
  (forall b, b ∈ l' -> b = a \/ b ∈ l) -> arc_ptr a = n ->
  (forall b, b ∈ l -> arc_ptr b < n) ->
  (forall b c, b ∈ l -> c ∈ l -> arc_ptr b = arc_ptr c -> b = c) ->
  (forall b, b ∈ l' -> arc_ptr b < n + 1)
  /\ (forall b c, b ∈ l' -> c ∈ l' -> arc_ptr b = arc_ptr c -> b = c).
Proof.
  intros Hl Ha Hn Hp. split.
  - intros b [->|Hb%Hn]%Hl; lia.
  - intros b c [->|Hb]%Hl [->|Hc]%Hl E; [done|apply Hn in Hc|apply Hn in Hb|by apply Hp]; lia.
Qed.

Lemma alloc_inv cap t ks h name :
  key_inv cap t ks -> h = fold_hash name -> valid_str name = true ->
  key_inv cap (arc_from name t).2 (Key h (arc_from name t).1 :: ks).
Proof.
  intros [] -> Hv. pose proof (arcs_alloc t ks (fold_hash name) name) as Hp.
  destruct (fresh_arc (arcs t ks) (arcs (arc_from name t).2 (Key (fold_hash name) (arc_from name t).1 :: ks))
              (in_next t) (arc_from name t).1) as [H1 H2]; [|done..|].
  { intros b. rewrite Hp. by rewrite elem_of_cons. }
  by split; try done; constructor.
Qed.

Lemma share_inv cap t ks h a :
  key_inv cap t ks -> a ∈ bucket h t -> key_inv cap t (Key h a :: ks).
Proof.
  intros [] Ha. unfold bucket in Ha. destruct (in_buckets t !! h) as [l|] eqn:Hl; [|by apply not_elem_of_nil in Ha].
  assert (Hin : forall b, b ∈ arcs t (Key h a :: ks) <-> b ∈ arcs t ks).
  { intros b. unfold arcs. cbn. rewrite !elem_of_app, elem_of_cons.
    assert (a ∈ concat (map_to_list (in_buckets t)).*2); [|naive_solver].
    rewrite list_elem_of_In, in_concat. exists l. rewrite <- !list_elem_of_In. split; [|done].
    apply list_elem_of_fmap. exists (h, l). split; [done|]. by apply elem_of_map_to_list. }
  destruct (ki_bucket0 h l Hl) as [_ Hb]. destruct (Hb a Ha) as [Hh Hv].
  split; try done.
  - by constructor.
  - intros b. rewrite Hin. auto.
  - intros b c. rewrite !Hin. auto.
Qed.

Lemma shards_bound (l : list (N * str)) :
  NoDup ((fun p => shard_of p.1) <$> l) -> (length l <= 16)%nat.
Proof.
  intros Hl. rewrite <- (length_fmap (fun p => shard_of p.1)).
  transitivity (length (N.of_nat <$> seq 0 16)); [|by rewrite length_fmap, length_seq].
  apply submseteq_length, NoDup_submseteq; [done|]. intros s (p & -> & _)%list_elem_of_fmap.
  apply list_elem_of_fmap. exists (N.to_nat (shard_of p.1)). rewrite N2Nat.id. split; [done|].
  apply elem_of_seq. unfold shard_of. change (SHARDS - 1) with (N.ones 4).
  rewrite N.land_ones. pose proof (N.mod_upper_bound p.1 (2 ^ 4) ltac:(done)) as Hb.
  revert Hb. generalize (p.1 mod 2 ^ 4). intros n Hb. change (2 ^ 4) with 16 in Hb. lia.
Qed.

Lemma enter_inv cap t ks name a t' :
  key_inv cap t ks -> valid_str name = true ->
  (cap =? 0) || (128 <? N.of_nat (length (as_bytes name))) || unlocked (fold_hash name) t = true ->
  intern_enter cap name t = (a, t') ->
  key_inv cap t' match a with Some a => Key (fold_hash name) a :: ks | None => ks end.
Proof.
  intros Hi Hv Hu. unfold intern_enter.
  assert (Hprivate : (let '(a, t) := arc_from name t in (Some a, t)) = (a, t') ->
    key_inv cap t' match a with Some a => Key (fold_hash name) a :: ks | None => ks end).
  { cbn. intros [= <- <-]. by apply (alloc_inv cap t ks (fold_hash name) name). }
  destruct ((cap =? 0) || _) eqn:Hs; [exact Hprivate|]. simpl in Hu.
  destruct (find _ _) as [b|] eqn:Hf.
  - intros [= <- <-]. apply find_some in Hf as [Hb _]. apply share_inv; [done|]. by apply list_elem_of_In.
  - destruct (N.leb_spec cap (in_count t)) as [Hc|Hc]; [exact Hprivate|].
    intros [= <- <-]. destruct Hi.
    assert (Hlocks : NoDup ((fun p => shard_of p.1) <$> in_pushing t ++ [(fold_hash name, name)])).
    { rewrite fmap_app. apply NoDup_app. split_and!; [done| |apply NoDup_singleton].
      intros s Hs' ->%list_elem_of_singleton. cbn in *.
      apply list_elem_of_fmap in Hs' as (p & Hp & Hin). unfold unlocked in Hu.
      apply negb_true_iff, not_true_iff_false in Hu. apply Hu, existsb_exists. exists p.
      split; [by apply list_elem_of_In|]. apply N.eqb_eq. congruence. }
    split; try done.
    + cbn. intros h n [Hn|[= -> ->]%list_elem_of_singleton]%elem_of_app; [by apply ki_pushing0|].
      split_and!; [done..|]. intros (b & -> & Hb)%list_elem_of_fmap.
      apply list_elem_of_In, (find_none _ _ Hf) in Hb. by rewrite bool_decide_true in Hb.
    + cbn. apply shards_bound in Hlocks. rewrite length_app in *. cbn in *. unfold SHARDS. lia.
Qed.

Lemma push_inv cap t ks i h name a t' :
  key_inv cap t ks -> in_pushing t !! i = Some (h, name) -> intern_push i t = Some (a, t') ->
  key_inv cap t' (Key h a :: ks).
Proof.
  intros [] Hi Hp. destruct (arcs_push t ks i h name a t' Hi Hp) as [Ha Hin].
  destruct (ki_pushing0 h name) as (Hh & Hv & Hnew); [by eapply list_elem_of_lookup_2|].
  destruct (fresh_arc (arcs t ks) (arcs t' (Key h a :: ks)) (in_next t) a) as [H1 H2];
    [by intros b Hb%Hin|by subst a|done|done|].
  pose proof (delete_Permutation _ _ _ Hi) as Hperm.
  assert (Hlocks : NoDup ((fun p => shard_of p.1) <$> (h, name) :: delete i (in_pushing t)))
    by by rewrite <- Hperm.
  unfold intern_push in Hp. rewrite Hi in Hp. cbn in Hp. injection Hp as <- <-. subst h.
  split; try done.
  - constructor; [|done]. split; cbn; done.
  - cbn. intros h' l. unfold bucket. cbn. destruct (decide (h' = fold_hash name)) as [->|Hne].
    + rewrite lookup_insert_eq. intros [= <-]. unfold bucket in Hnew.
      assert (Hb : NoDup (arc_text <$> default [] (in_buckets t !! fold_hash name))
        /\ forall a, a ∈ default [] (in_buckets t !! fold_hash name) ->
             fold_hash (arc_text a) = fold_hash name /\ valid_str (arc_text a) = true).
      { destruct (in_buckets t !! fold_hash name) as [l|] eqn:Hl; [by apply ki_bucket0|].
        split; [constructor|]. by intros b Hb%not_elem_of_nil. }
      destruct Hb as [Hd Hb]. split.
      * rewrite fmap_app. apply NoDup_app. split_and!; [done| |apply NoDup_singleton].
        intros x Hx ->%list_elem_of_singleton. done.
      * intros b [Hb'| ->%list_elem_of_singleton]%elem_of_app; [auto|done].
    + rewrite lookup_insert_ne by done. apply ki_bucket0.
  - cbn. unfold bucket. cbn. rewrite buckets_push. cbn. rewrite ki_count0. lia.
  - by apply NoDup_cons in Hlocks as [_ ?].
  - cbn. intros h' n Hn.
    assert (Hn' : (h', n) ∈ in_pushing t) by (rewrite Hperm; by right).
    destruct (ki_pushing0 h' n Hn') as (Hh' & Hv' & Hnew'). split_and!; [done..|].
    unfold bucket. cbn. rewrite lookup_insert_ne; [done|]. intros <-.
    apply NoDup_cons in Hlocks as [Hlocks _]. apply Hlocks, list_elem_of_fmap. by exists (fold_hash name, n).
  - cbn. rewrite Hperm in ki_bound0. cbn in ki_bound0. lia.
Qed.

Lemma key_inv_empty cap : key_inv cap empty_interner [].
Proof.
  assert (E : forall A (x : A), x ∉ []) by (intros; apply not_elem_of_nil).
  split.
  - constructor.
  - intros a Ha. by apply E in Ha.
  - intros a b Ha. by apply E in Ha.
  - intros h l Hl. cbn [empty_interner in_buckets] in Hl. by rewrite lookup_empty in Hl.
  - done.
  - constructor.
  - intros h n Hn. by apply E in Hn.
  - cbn. lia.
Qed.

Lemma key_inv_steps cap t ks :
  rtc (key_step cap) (empty_interner, []) (t, ks) -> key_inv cap t ks.
Proof.
  intros H. apply (rtc_preserves (key_step cap) (fun p => key_inv cap p.1 p.2)) in H; [done|..].
  - intros p q Hstep Hp. destruct Hstep as [name t0 ks0 a t' Hv Hu He|i h name t0 ks0 a t' Hi He|name t0 ks0 k t' Hv He];
      cbn in *.
    + by eapply enter_inv.
    + by eapply push_inv.
    + unfold to_key in He. cbn in He. injection He as <- <-.
      by apply (alloc_inv cap t0 ks0 (fold_hash name) name).
  - apply key_inv_empty.
Qed.

(** Keys are names up to ASCII case.  Whatever threads built them, in any
    interleaving, through the interner or beside it: two keys are equal exactly
    when their names agree ignoring ASCII case, equal keys have equal hashes, a
    probe finds a key exactly when its text agrees, and the order is a total
    order whose equality is that of keys. *)
Theorem key_identity cap t ks :
  rtc (key_step cap) (empty_interner, []) (t, ks) ->
  forall a b, a ∈ ks -> b ∈ ks ->
    let same := eq_ignore_ascii_case (arc_text (k_name a)) (arc_text (k_name b)) in
    key_eq a b = same /\ (same = true -> k_hash a = k_hash b)
    /\ equivalent (as_ref a) b = same /\ (key_cmp a b = Eq <-> same = true)
    /\ key_cmp b a = CompOpp (key_cmp a b)
    /\ (forall c, key_cmp a b <> Gt -> key_cmp b c <> Gt -> key_cmp a c <> Gt).
Proof.
  intros H a b Ha Hb. cbv zeta. destruct (key_inv_steps cap t ks H).
  pose proof (proj1 (Forall_forall _ _) ki_keys0) as Hok.
  assert (key_ok a) as [Hha Hva] by by apply Hok.
  assert (key_ok b) as [Hhb Hvb] by by apply Hok.
  assert (Harc : forall k, k ∈ ks -> k_name k ∈ arcs t ks)
    by (intros k Hk; apply elem_of_app; right; apply list_elem_of_fmap; eauto).
  split_and!.
  - apply key_eq_spec; [done..|]. intros E. f_equal. auto.
  - rewrite Hha, Hhb. by apply fold_hash_ci.
  - by apply equivalent_spec.
  - apply key_cmp_eq.
  - apply cmp_bytes_antisym.
  - intros c. apply cmp_bytes_trans.
Qed.

(** C35. The interner is bounded and shares.  In every interleaving it counts its
    entries, keeps each spelling once, and holds at most [SHARDS - 1] names more
    than its cap (threads of other shards may pass the test of the count
    together); and a spelling it holds is handed out again, the same
    allocation. *)
Theorem interner_invariant cap t ks :
  rtc (key_step cap) (empty_interner, []) (t, ks) ->
  in_count t = N.of_nat (length (concat (map_to_list (in_buckets t)).*2))
  /\ in_count t <= cap + (SHARDS - 1)
  /\ (forall h, NoDup (arc_text <$> bucket h t))
  /\ (forall h h' a b, a ∈ bucket h t -> b ∈ bucket h' t -> arc_text a = arc_text b -> a = b)
  /\ forall h a, a ∈ bucket h t -> cap <> 0 -> N.of_nat (length (as_bytes (arc_text a))) <= 128 ->
       intern cap (arc_text a) t = (a, t).
Proof.
  intros H. destruct (key_inv_steps cap t ks H).
  assert (Hbk : forall h, NoDup (arc_text <$> bucket h t)
                /\ forall a, a ∈ bucket h t -> fold_hash (arc_text a) = h).
  { intros h. unfold bucket. destruct (in_buckets t !! h) as [l|] eqn:Hl; simpl.
    - destruct (ki_bucket0 h l Hl). naive_solver.
    - split; [constructor|]. by intros a Ha%not_elem_of_nil. }
  assert (Honce : forall h h' a b, a ∈ bucket h t -> b ∈ bucket h' t -> arc_text a = arc_text b -> a = b).
  { intros h h' a b Ha Hb E. assert (h = h') as <-.
    { rewrite <- (proj2 (Hbk h) a Ha), <- (proj2 (Hbk h') b Hb). by rewrite E. }
    apply list_elem_of_lookup in Ha as [i Hi], Hb as [j Hj].
    assert (i = j) as <-; [|congruence].
    apply (NoDup_lookup _ i j (arc_text a) (proj1 (Hbk h)));
      rewrite list_lookup_fmap, ?Hi, ?Hj; cbn; congruence. }
  split_and!; [done|lia|intros h; apply Hbk|exact Honce|].
  intros h a Ha Hcap Hlen. unfold intern, intern_enter.
  rewrite (proj2 (N.eqb_neq _ _) Hcap), (proj2 (N.ltb_ge _ _) Hlen). cbn [orb].
  assert (Hh := proj2 (Hbk h) a Ha). rewrite Hh.
  destruct (find _ _) as [b|] eqn:Hf.
  - apply find_some in Hf as [Hb E]. apply bool_decide_eq_true in E.
    by rewrite (Honce h h b a (proj2 (list_elem_of_In _ _) Hb) Ha E).
  - apply list_elem_of_In, (find_none _ _ Hf) in Ha. by rewrite bool_decide_true in Ha.
Qed.


(** The cap is not sharp: two threads in different shards pass a cap of one
    together. *)
Lemma interner_exceeds_cap :
  exists t ks, rtc (key_step 1) (empty_interner, []) (t, ks) /\ in_count t = 2.
Proof.
  eexists _, _. split.
  - eapply rtc_l; [eapply (step_enter 1 (lit "a")); vm_compute; reflexivity|].
    eapply rtc_l; [eapply (step_enter 1 (lit "b")); vm_compute; reflexivity|].
    eapply rtc_l; [eapply (step_push 1 0); vm_compute; reflexivity|].
    eapply rtc_l; [eapply (step_push 1 0); vm_compute; reflexivity|].
    apply rtc_refl.
  - vm_compute. reflexivity.
Qed.
