(* ===== verification/ValueMap.v ===== *)
(** * ValueMap: CFML structs as ordered case-insensitive maps

    cfml-common: [dynamic.rs] ([ValueMap], [IntoKey], [ProbeKey]).  A [ValueMap]
    is an [IndexMap] keyed by [Key] with a mutation counter.  The [indexmap]
    crate is the class [IndexMap]: its entries in order, and its documented
    behaviour for a probe or key that compares by the given test.

    The specification is a list of named values in which names that agree
    ignoring ASCII case are one name, written as it was first written. *)

From stdpp Require Import base list numbers strings gmap relations.
From S2P Require Import Prelude Text Bytes Keys.

(** ** Ordered maps as lists of entries *)

Section Entries.
Context {K V : Type}.
Implicit Types (e : K -> bool) (l : list (K * V)).

(** The value of the first entry whose key passes the test. *)
Definition entry_get e l : option V := snd <$> find (fun p => e p.1) l.

Fixpoint entry_set e (v : V) l : list (K * V) :=
  match l with
  | [] => []
  | (k, w) :: l => if e k then (k, v) :: l else (k, w) :: entry_set e v l
  end.

(** An entry already there keeps its key and its place. *)
Definition entry_insert e (k : K) (v : V) l : list (K * V) :=
  match entry_get e l with Some _ => entry_set e v l | None => l ++ [(k, v)] end.

(** Remove and close up. *)
Fixpoint entry_remove e l : list (K * V) :=
  match l with
  | [] => []
  | (k, w) :: l => if e k then l else (k, w) :: entry_remove e l
  end.

(** Remove and put the last entry in the gap. *)
Definition entry_swap_remove e l : list (K * V) :=
  match position (fun p => e p.1) l, last l with
  | Some i, Some z => take (length l - 1) (<[i := z]> l)
  | _, _ => l
  end.
End Entries.

(** ** The [indexmap] crate *)

Class IndexMap (V : Type) := {
  imap : Type;
  im_entries : imap -> list (key * V);
  im_new : imap;
  im_get : key_ref -> imap -> option V;
  im_index_of : key_ref -> imap -> option nat;
  im_set : key_ref -> V -> imap -> imap;
  im_insert : key -> V -> imap -> option V * imap;
  im_shift_remove : key_ref -> imap -> option V * imap;
  im_swap_remove : key_ref -> imap -> option V * imap;
  im_new_entries : im_entries im_new = [];
  im_get_entries r m : im_get r m = entry_get (equivalent r) (im_entries m);
  im_index_entries r m :
    im_index_of r m = position (fun p => equivalent r p.1) (im_entries m);
  im_set_entries r v m : im_entries (im_set r v m) = entry_set (equivalent r) v (im_entries m);
  im_insert_entries k v m :
    (im_insert k v m).1 = entry_get (key_eq k) (im_entries m)
    /\ im_entries (im_insert k v m).2 = entry_insert (key_eq k) k v (im_entries m);
  im_shift_entries r m :
    (im_shift_remove r m).1 = entry_get (equivalent r) (im_entries m)
    /\ im_entries (im_shift_remove r m).2 = entry_remove (equivalent r) (im_entries m);
  im_swap_entries r m :
    (im_swap_remove r m).1 = entry_get (equivalent r) (im_entries m)
    /\ im_entries (im_swap_remove r m).2 = entry_swap_remove (equivalent r) (im_entries m)
}.

(** ** Value maps *)

(** What a key can be given as: [IntoKey]'s implementors.  [ProbeKey] makes a
    probe of any of them. *)
Inductive into_key := FromKey (k : key) | FromString (s : str) | FromStr (s : str).

Definition probe (q : into_key) : key_ref :=
  match q with FromKey k => as_ref k | FromString s | FromStr s => key_ref_new s end.

Section ValueMap.
Context {V : Type} {IM : IndexMap V}.

Record value_map := ValueMap { vm_raw : imap; vm_version : N }.

Definition vm_new : value_map := ValueMap im_new 0.

(** [wrapping_add(1)] on the [u32] counter. *)
Definition bump (n : N) : N := ((n + 1) mod 2 ^ 32)%N.

(** [IntoKey::into_key] *)
Definition make_key (cap : N) (q : into_key) (t : interner) : key * interner :=
  match q with FromKey k => (k, t) | FromString s | FromStr s => key_new cap s t end.

(** [IntoKey::insert_into]: a string probes first and builds a key on a miss,
    a [&str] beside the interner. *)
Definition insert_into (cap : N) (q : into_key) (v : V) (m : imap) (t : interner)
    : option V * imap * interner :=
  let missed '(k, t) := let '(old, m) := im_insert k v m in (old, m, t) in
  match q with
  | FromKey k => missed (k, t)
  | FromString s =>
      match im_get (key_ref_new s) m with
      | Some old => (Some old, im_set (key_ref_new s) v m, t)
      | None => missed (key_new cap s t)
      end
  | FromStr s =>
      match im_get (key_ref_new s) m with
      | Some old => (Some old, im_set (key_ref_new s) v m, t)
      | None => missed (to_key (key_ref_new s) t)
      end
  end.

Definition vm_insert (cap : N) (q : into_key) (v : V) (m : value_map) (t : interner)
    : option V * value_map * interner :=
  let '(old, raw, t) := insert_into cap q v (vm_raw m) t in
  (old, ValueMap raw (bump (vm_version m)), t).

Definition vm_get (q : into_key) (m : value_map) : option V := im_get (probe q) (vm_raw m).

(** [get_mut], then the assignment of [v] through it. *)
Definition vm_get_mut (q : into_key) (v : V) (m : value_map) : option V * value_map :=
  (im_get (probe q) (vm_raw m), ValueMap (im_set (probe q) v (vm_raw m)) (bump (vm_version m))).

Definition vm_contains_key (q : into_key) (m : value_map) : bool :=
  bool_decide (im_get (probe q) (vm_raw m) <> None).

Definition vm_get_index_of (q : into_key) (m : value_map) : option nat :=
  im_index_of (probe q) (vm_raw m).

Definition vm_shift_remove (q : into_key) (m : value_map) : option V * value_map :=
  let '(old, raw) := im_shift_remove (probe q) (vm_raw m) in
  (old, ValueMap raw (bump (vm_version m))).

Definition vm_swap_remove (q : into_key) (m : value_map) : option V * value_map :=
  let '(old, raw) := im_swap_remove (probe q) (vm_raw m) in
  (old, ValueMap raw (bump (vm_version m))).

(** [extend]: inserts the pairs in turn, the counter moves once. *)
Fixpoint extend_raw (cap : N) (l : list (into_key * V)) (m : imap) (t : interner)
    : imap * interner :=
  match l with
  | [] => (m, t)
  | (q, v) :: l =>
      let '(k, t) := make_key cap q t in
      extend_raw cap l (im_insert k v m).2 t
  end.

Definition vm_extend (cap : N) (l : list (into_key * V)) (m : value_map) (t : interner)
    : value_map * interner :=
  let '(raw, t) := extend_raw cap l (vm_raw m) t in (ValueMap raw (bump (vm_version m)), t).

Definition vm_from_iter (cap : N) (l : list (into_key * V)) (t : interner)
    : value_map * interner :=
  let '(raw, t) := extend_raw cap l im_new t in (ValueMap raw 0, t).

End ValueMap.

(** ** The specification *)

Section Spec.
Context {V : Type}.

Definition ci_get (s : str) (l : list (str * V)) : option V :=
  entry_get (eq_ignore_ascii_case s) l.
Definition ci_insert (s : str) (v : V) (l : list (str * V)) : list (str * V) :=
  entry_insert (eq_ignore_ascii_case s) s v l.
Definition ci_remove (s : str) (l : list (str * V)) : list (str * V) :=
  entry_remove (eq_ignore_ascii_case s) l.
Definition ci_swap_remove (s : str) (l : list (str * V)) : list (str * V) :=
  entry_swap_remove (eq_ignore_ascii_case s) l.

(** No two names agree ignoring case. *)
Definition ci_distinct (l : list (str * V)) : Prop := NoDup (map ascii_lower <$> l.*1).
End Spec.

(** ** Laws of the specification *)

Section SpecFacts.
Context {V : Type}.
Implicit Types l : list (str * V).

Lemma eq_ignore_lower a b :
  eq_ignore_ascii_case a b = bool_decide (map ascii_lower a = map ascii_lower b).
Proof.
  apply Bool.eq_iff_eq_true. by rewrite eq_ignore_ascii_case_spec, bool_decide_eq_true.
Qed.

Lemma entry_get_cons {K} (e : K -> bool) (k : K) (w : V) (l : list (K * V)) :
  entry_get e ((k, w) :: l) = if e k then Some w else entry_get e l.
Proof. unfold entry_get. cbn. by destruct (e k). Qed.

Lemma entry_get_none {K} (e : K -> bool) (l : list (K * V)) :
  entry_get e l = None <-> forall p, p ∈ l -> e p.1 = false.
Proof.
  induction l as [|[k w] l IH]; [split; [by intros _ p Hp%not_elem_of_nil|done]|].
  rewrite entry_get_cons. setoid_rewrite elem_of_cons. destruct (e k) eqn:Hk.
  - split; [done|]. intros H. specialize (H (k, w) (or_introl eq_refl)). cbn in H. congruence.
  - rewrite IH. naive_solver.
Qed.

Lemma entry_set_keys {K} (e : K -> bool) v (l : list (K * V)) : (entry_set e v l).*1 = l.*1.
Proof. induction l as [|[k w] l IH]; cbn; [done|]. destruct (e k); cbn; [done|by rewrite IH]. Qed.

(** What was written is read back under any casing of its name, and only there. *)
Lemma ci_get_insert s s' v l :
  ci_get s' (ci_insert s v l)
  = if eq_ignore_ascii_case s s' then Some v else ci_get s' l.
Proof.
  unfold ci_insert, ci_get, entry_insert.
  assert (E : forall k, eq_ignore_ascii_case s k = true ->
            eq_ignore_ascii_case s' k = eq_ignore_ascii_case s s').
  { intros k. rewrite !eq_ignore_lower. repeat case_bool_decide; congruence. }
  assert (N : forall k, eq_ignore_ascii_case s k = false -> eq_ignore_ascii_case s' k = true ->
            eq_ignore_ascii_case s s' = false).
  { intros k. rewrite !eq_ignore_lower. repeat case_bool_decide; congruence. }
  destruct (entry_get (eq_ignore_ascii_case s) l) as [w|] eqn:Hg.
  - revert w Hg. induction l as [|[k u] l IH]; intros w; [done|]. cbn [entry_set].
    rewrite entry_get_cons. destruct (eq_ignore_ascii_case s k) eqn:Hk; intros Hg.
    + rewrite !entry_get_cons, (E k Hk). by destruct (eq_ignore_ascii_case s s').
    + rewrite !entry_get_cons, (IH w Hg).
      destruct (eq_ignore_ascii_case s' k) eqn:Hk'; [by rewrite (N k Hk Hk')|done].
  - induction l as [|[k u] l IH]; cbn [app].
    + by rewrite entry_get_cons, (E s (eq_ignore_ascii_case_refl s)).
    + rewrite entry_get_cons in Hg. destruct (eq_ignore_ascii_case s k) eqn:Hk; [done|].
      rewrite !entry_get_cons, (IH Hg).
      destruct (eq_ignore_ascii_case s' k) eqn:Hk'; [by rewrite (N k Hk Hk')|done].
Qed.

Lemma ci_insert_distinct s v l : ci_distinct l -> ci_distinct (ci_insert s v l).
Proof.
  unfold ci_distinct, ci_insert, entry_insert. intros Hl.
  destruct (entry_get _ l) eqn:Hg; [by rewrite entry_set_keys|].
  rewrite !fmap_app. apply NoDup_app. split_and!; [done| |apply NoDup_singleton].
  intros x Hx ->%list_elem_of_singleton. apply list_elem_of_fmap in Hx as (k & Hk & Hx).
  apply list_elem_of_fmap in Hx as (p & -> & Hp).
  pose proof (proj1 (entry_get_none _ _) Hg p Hp) as E. rewrite eq_ignore_lower in E.
  by apply bool_decide_eq_false in E.
Qed.

Lemma entry_remove_sublist {K} (e : K -> bool) (l : list (K * V)) : entry_remove e l `sublist_of` l.
Proof.
  induction l as [|[k w] l IH]; cbn; [done|].
  destruct (e k); [by apply sublist_cons|by apply sublist_skip].
Qed.

Lemma ci_remove_distinct s l : ci_distinct l -> ci_distinct (ci_remove s l).
Proof.
  unfold ci_distinct. intros Hl. eapply sublist_NoDup; [exact Hl|].
  do 2 apply fmap_sublist. apply entry_remove_sublist.
Qed.

Lemma entry_remove_none {K} (e : K -> bool) (l : list (K * V)) :
  entry_get e l = None -> entry_remove e l = l.
Proof.
  induction l as [|[k w] l IH]; [done|]. rewrite entry_get_cons. cbn.
  destruct (e k); [done|]. intros H. by rewrite IH.
Qed.

(** Both removals take out the same entry. *)
Lemma entry_swap_perm {K} (e : K -> bool) (l : list (K * V)) :
  entry_swap_remove e l ≡ₚ entry_remove e l.
Proof.
  unfold entry_swap_remove. destruct (position _ l) as [i|] eqn:Hi.
  - destruct (last l) as [z|] eqn:Hz; [|by apply last_None in Hz; subst].
    apply last_Some in Hz as [l' ->]. rewrite length_app. cbn.
    replace (length l' + 1 - 1) with (length l') by lia.
    revert i Hi. induction l' as [|[k w] l' IH]; intros i Hi; cbn in Hi.
    + destruct z as [k w]. cbn. cbn in Hi. destruct (e k); simplify_eq. by cbn.
    + cbn [app entry_remove]. destruct (e k) eqn:Hk.
      * simplify_eq. cbn. rewrite take_app_length. by rewrite Permutation_app_comm.
      * destruct (position _ (l' ++ [z])) as [j|] eqn:Hj; simplify_eq/=. by rewrite (IH j).
  - rewrite entry_remove_none; [by destruct (last l)|].
    unfold entry_get. induction l as [|p l IH]; [done|]. cbn in *. destruct (e p.1); [done|].
    by destruct (position _ l); [|apply IH].
Qed.

Lemma ci_swap_remove_distinct s l : ci_distinct l -> ci_distinct (ci_swap_remove s l).
Proof.
  unfold ci_distinct, ci_swap_remove. rewrite entry_swap_perm. apply ci_remove_distinct.
Qed.

(** Renaming keys and test alike changes nothing. *)
Section Rename.
Context {K K' : Type} (f : K -> K') (e : K -> bool) (e' : K' -> bool).
Let g : K * V -> K' * V := fun p => (f p.1, p.2).

Lemma entry_get_rename (l : list (K * V)) : (forall p, p ∈ l -> e' (f p.1) = e p.1) ->
  entry_get e' (g <$> l) = entry_get e l.
Proof.
  induction l as [|[k w] l IH]; intros H; [done|]. rewrite fmap_cons. unfold g at 1.
  rewrite !entry_get_cons. cbn. rewrite (H (k, w) ltac:(left) : e' (f k) = e k). cbn. rewrite IH; [done|].
  intros p Hp. apply H. by right.
Qed.

Lemma position_rename (l : list (K * V)) : (forall p, p ∈ l -> e' (f p.1) = e p.1) ->
  position (fun p => e' p.1) (g <$> l) = position (fun p => e p.1) l.
Proof.
  induction l as [|[k w] l IH]; intros H; [done|]. rewrite fmap_cons. cbn [position g fst snd].
  rewrite (H (k, w) ltac:(left) : e' (f k) = e k). rewrite IH; [done|]. intros p Hp. apply H. by right.
Qed.

Lemma entry_set_rename v (l : list (K * V)) : (forall p, p ∈ l -> e' (f p.1) = e p.1) ->
  entry_set e' v (g <$> l) = g <$> entry_set e v l.
Proof.
  induction l as [|[k w] l IH]; intros H; [done|]. rewrite fmap_cons. cbn [entry_set g fst snd].
  rewrite (H (k, w) ltac:(left) : e' (f k) = e k). cbn. destruct (e k); [done|]. rewrite fmap_cons, IH; [done|].
  intros p Hp. apply H. by right.
Qed.

Lemma entry_insert_rename k v (l : list (K * V)) : (forall p, p ∈ l -> e' (f p.1) = e p.1) ->
  entry_insert e' (f k) v (g <$> l) = g <$> entry_insert e k v l.
Proof.
  intros H. unfold entry_insert. rewrite entry_get_rename, entry_set_rename by done.
  destruct (entry_get e l); [done|]. by rewrite fmap_app.
Qed.

Lemma entry_remove_rename (l : list (K * V)) : (forall p, p ∈ l -> e' (f p.1) = e p.1) ->
  entry_remove e' (g <$> l) = g <$> entry_remove e l.
Proof.
  induction l as [|[k w] l IH]; intros H; [done|]. rewrite fmap_cons. cbn [entry_remove g fst snd].
  rewrite (H (k, w) ltac:(left) : e' (f k) = e k). cbn. destruct (e k); [done|]. rewrite fmap_cons, IH; [done|].
  intros p Hp. apply H. by right.
Qed.

Lemma entry_swap_remove_rename (l : list (K * V)) : (forall p, p ∈ l -> e' (f p.1) = e p.1) ->
  entry_swap_remove e' (g <$> l) = g <$> entry_swap_remove e l.
Proof.
  intros H. unfold entry_swap_remove. rewrite position_rename, length_fmap, fmap_last by done.
  destruct (position _ l) as [i|]; [|done]. destruct (last l) as [z|]; [|done]. cbn.
  by rewrite fmap_take, list_fmap_insert.
Qed.
End Rename.
End SpecFacts.

(** ** The implementation refines the specification *)

Section Refinement.
Context {V : Type} {IM : IndexMap V} (cap : N).
Implicit Types (t : interner) (ks : list key) (q : into_key).

(** The named values of a map. *)
Definition named (l : list (key * V)) : list (str * V) :=
  (fun p => (arc_text (k_name p.1), p.2)) <$> l.
Definition names (m : value_map) : list (str * V) := named (im_entries (vm_raw m)).

Definition text_of q : str := kr_name (probe q).

(** A key that some thread built, or a Rust string. *)
Definition given ks q : Prop :=
  match q with FromKey k => k ∈ ks | FromString s | FromStr s => valid_str s = true end.

(** The interner and the keys [ks] it handed out, with no call under way, and
    entries with such keys and different names. *)
Record raw_ok t ks (l : list (key * V)) : Prop := {
  ro_inv : key_inv cap t ks;
  ro_idle : in_pushing t = [];
  ro_keys : forall p, p ∈ l -> p.1 ∈ ks;
  ro_distinct : ci_distinct (named l)
}.

Definition map_ok t ks (m : value_map) : Prop := raw_ok t ks (im_entries (vm_raw m)).

Lemma inv_key_ok t ks k : key_inv cap t ks -> k ∈ ks -> key_ok k.
Proof. intros Hi Hk. by apply (proj1 (Forall_forall _ _) (ki_keys _ _ _ Hi)). Qed.

Lemma key_test t ks a b :
  key_inv cap t ks -> a ∈ ks -> b ∈ ks ->
  key_eq a b = eq_ignore_ascii_case (arc_text (k_name a)) (arc_text (k_name b)).
Proof.
  intros Hi Ha Hb. apply key_eq_spec; [by eapply inv_key_ok..|]. intros E. f_equal.
  apply (ki_ptr _ _ _ Hi); [..|done]; apply elem_of_app; right; apply list_elem_of_fmap; eauto.
Qed.

Lemma probe_test t ks q b :
  key_inv cap t ks -> given ks q -> b ∈ ks ->
  equivalent (probe q) b = eq_ignore_ascii_case (text_of q) (arc_text (k_name b)).
Proof.
  intros Hi Hq Hb. apply equivalent_spec; [..|by eapply inv_key_ok].
  - destruct q; [|done..]. by apply (inv_key_ok t ks k).
  - destruct q; [|done..]. by apply (inv_key_ok t ks k).
Qed.

Lemma key_new_inv t ks s k t' :
  key_inv cap t ks -> in_pushing t = [] -> valid_str s = true -> key_new cap s t = (k, t') ->
  key_inv cap t' (k :: ks) /\ in_pushing t' = [] /\ arc_text (k_name k) = s.
Proof.
  intros Hi Hidle Hs. unfold key_new, intern.
  assert (Hu : (cap =? 0)%N || (128 <? N.of_nat (length (as_bytes s)))%N || unlocked (fold_hash s) t = true).
  { unfold unlocked. rewrite Hidle. apply orb_true_r. }
  destruct (intern_enter cap s t) as [[a|] t1] eqn:He; pose proof (enter_inv cap t ks s _ _ Hi Hs Hu He) as Hi'.
  - intros [= <- <-]. split; [done|]. unfold intern_enter, arc_from in He.
    repeat case_match; simplify_eq/=; (split; [done|]); try done.
    match goal with H : find _ _ = Some _ |- _ => apply find_some in H as [_ H]; by apply bool_decide_eq_true in H end.
  - assert (t1 = Interner (in_buckets t) (in_count t) (in_next t) [(fold_hash s, s)]) as ->.
    { unfold intern_enter, arc_from in He. repeat case_match; simplify_eq/=; by rewrite Hidle. }
    intros E. cbn in E. injection E as <- <-. split; [|done].
    by eapply (push_inv cap _ ks 0 (fold_hash s) s); [exact Hi'|..].
Qed.

Lemma insert_refines t ks k v (m : imap) :
  raw_ok t ks (im_entries m) -> k ∈ ks ->
  let s := arc_text (k_name k) in
  (im_insert k v m).1 = ci_get s (named (im_entries m))
  /\ named (im_entries (im_insert k v m).2) = ci_insert s v (named (im_entries m))
  /\ raw_ok t ks (im_entries (im_insert k v m).2).
Proof.
  intros [Hi Hidle Hkeys Hd] Hk. cbv zeta. destruct (im_insert_entries k v m) as [-> ->].
  assert (Htest : forall p, p ∈ im_entries m ->
    eq_ignore_ascii_case (arc_text (k_name k)) (arc_text (k_name p.1)) = key_eq k p.1).
  { intros p Hp. symmetry. eapply key_test; eauto. }
  assert (En : named (entry_insert (key_eq k) k v (im_entries m))
               = ci_insert (arc_text (k_name k)) v (named (im_entries m))).
  { symmetry. by apply (entry_insert_rename (fun k => arc_text (k_name k))). }
  split_and!; [|done|split; [done..| |rewrite En; by apply ci_insert_distinct]].
  - symmetry. by apply (entry_get_rename (fun k => arc_text (k_name k))).
  - intros p Hp. unfold entry_insert in Hp. destruct (entry_get _ _).
    + assert (p.1 ∈ (im_entries m).*1) as (p' & E & Hp')%list_elem_of_fmap.
      { rewrite <- (entry_set_keys (key_eq k) v). by apply list_elem_of_fmap_2. }
      rewrite E. auto.
    + apply elem_of_app in Hp as [Hp| ->%list_elem_of_singleton]; auto.
Qed.

Lemma raw_ok_more t ks t' ks' l :
  raw_ok t ks l -> key_inv cap t' ks' -> in_pushing t' = [] -> ks ⊆ ks' -> raw_ok t' ks' l.
Proof. intros [] ???. split; auto. Qed.

(** The tests of a probe are those of its text. *)
Lemma probe_tests t ks q l :
  raw_ok t ks l -> given ks q ->
  forall p, p ∈ l -> eq_ignore_ascii_case (text_of q) (arc_text (k_name p.1)) = equivalent (probe q) p.1.
Proof. intros [] Hq p Hp. symmetry. eapply probe_test; eauto. Qed.

Lemma get_refines t ks q m :
  raw_ok t ks (im_entries m) -> given ks q ->
  im_get (probe q) m = ci_get (text_of q) (named (im_entries m)).
Proof.
  intros Hok Hq. rewrite im_get_entries. symmetry.
  apply (entry_get_rename (fun k => arc_text (k_name k))). by eapply probe_tests.
Qed.

Lemma set_refines t ks q v m :
  raw_ok t ks (im_entries m) -> given ks q ->
  named (im_entries (im_set (probe q) v m))
  = entry_set (eq_ignore_ascii_case (text_of q)) v (named (im_entries m))
  /\ raw_ok t ks (im_entries (im_set (probe q) v m)).
Proof.
  intros Hok Hq. rewrite im_set_entries.
  assert (En : named (entry_set (equivalent (probe q)) v (im_entries m))
    = entry_set (eq_ignore_ascii_case (text_of q)) v (named (im_entries m))).
  { symmetry. apply (entry_set_rename (fun k => arc_text (k_name k))). by eapply probe_tests. }
  split; [done|]. destruct Hok as [Hi Hidle Hkeys Hd]. split; [done..| |].
  - intros p Hp. assert (p.1 ∈ (im_entries m).*1) as (p' & E & Hp')%list_elem_of_fmap.
    { rewrite <- (entry_set_keys (equivalent (probe q)) v). by apply list_elem_of_fmap_2. }
    rewrite E. auto.
  - unfold ci_distinct in *. by rewrite En, entry_set_keys.
Qed.

Lemma to_key_inv t ks s k t' :
  key_inv cap t ks -> in_pushing t = [] -> valid_str s = true -> to_key (key_ref_new s) t = (k, t') ->
  key_inv cap t' (k :: ks) /\ in_pushing t' = [] /\ arc_text (k_name k) = s.
Proof.
  intros Hi Hidle Hs. unfold to_key. cbn. intros [= <- <-]. split; [|done].
  by apply (alloc_inv cap t ks (fold_hash s) s).
Qed.

Lemma share_key t ks k : key_inv cap t ks -> k ∈ ks -> key_inv cap t (k :: ks).
Proof.
  intros Hi Hk. assert (Hin : forall a, a ∈ arcs t (k :: ks) <-> a ∈ arcs t ks).
  { intros a. unfold arcs. rewrite fmap_cons, !elem_of_app, elem_of_cons.
    assert (k_name k ∈ k_name <$> ks) by by apply list_elem_of_fmap_2. naive_solver. }
  pose proof (inv_key_ok t ks k Hi Hk). destruct Hi as [? Hf Hp ?????]. split; try done.
  - by constructor.
  - intros a Ha%Hin. auto.
  - intros a b Ha%Hin Hb%Hin. auto.
Qed.

(** The entry written for a name [s] that is not there yet. *)
Lemma missed_refines t ks s v m k t' :
  raw_ok t ks (im_entries m) -> key_inv cap t' (k :: ks) -> in_pushing t' = [] ->
  arc_text (k_name k) = s ->
  let '(old, m', t'') := let '(old, m) := im_insert k v m in (old, m, t') in
  old = ci_get s (named (im_entries m))
  /\ named (im_entries m') = ci_insert s v (named (im_entries m))
  /\ exists ks', raw_ok t'' ks' (im_entries m') /\ ks ⊆ ks'.
Proof.
  intros Hok Hi Hidle Hs.
  assert (Hok' : raw_ok t' (k :: ks) (im_entries m)).
  { eapply raw_ok_more; [done..|]. intros x Hx. by right. }
  pose proof (insert_refines t' (k :: ks) k v m Hok' ltac:(left)) as H. rewrite Hs in H.
  destruct (im_insert k v m) as [old m']. destruct H as (H1 & H2 & H3).
  split_and!; [done..|]. exists (k :: ks). split; [done|]. intros x Hx. by right.
Qed.

Lemma insert_into_refines t ks q v m :
  raw_ok t ks (im_entries m) -> given ks q ->
  let '(old, m', t') := insert_into cap q v m t in
  old = ci_get (text_of q) (named (im_entries m))
  /\ named (im_entries m') = ci_insert (text_of q) v (named (im_entries m))
  /\ exists ks', raw_ok t' ks' (im_entries m') /\ ks ⊆ ks'.
Proof.
  intros Hok Hq. pose proof (get_refines t ks q m Hok Hq) as Hg.
  pose proof (set_refines t ks q v m Hok Hq) as [Hs Hok'].
  destruct q as [k|s|s]; cbn [insert_into]; cbn [probe given] in Hg, Hs, Hok', Hq.
  - pose proof (insert_refines t ks k v m Hok Hq) as (H1 & H2 & H3).
    destruct (im_insert k v m) as [old m']. split_and!; [done..|]. by exists ks.
  - destruct (im_get (key_ref_new s) m) as [old|] eqn:E.
    + split_and!; [done| |by exists ks]. rewrite Hs. unfold ci_insert, entry_insert.
      unfold ci_get in Hg. by rewrite <- Hg.
    + destruct (key_new cap s t) as [k t'] eqn:Hk.
      destruct (key_new_inv t ks s k t') as (Hi & Hidle & Ht); [apply Hok|apply Hok|done|done|].
      by apply (missed_refines t ks).
  - destruct (im_get (key_ref_new s) m) as [old|] eqn:E.
    + split_and!; [done| |by exists ks]. rewrite Hs. unfold ci_insert, entry_insert.
      unfold ci_get in Hg. by rewrite <- Hg.
    + destruct (to_key (key_ref_new s) t) as [k t'] eqn:Hk.
      destruct (to_key_inv t ks s k t') as (Hi & Hidle & Ht); [apply Hok|apply Hok|done|done|].
      by apply (missed_refines t ks).
Qed.

(** A removal that drops entries keeps the invariant. *)
Lemma removed_ok t ks l l' :
  raw_ok t ks l -> (forall p, p ∈ l' -> p ∈ l) -> ci_distinct (named l') -> raw_ok t ks l'.
Proof. intros [] Hsub Hd. split; auto. Qed.

Lemma entry_remove_sub (e : key -> bool) (l : list (key * V)) p : p ∈ entry_remove e l -> p ∈ l.
Proof.
  induction l as [|[k w] l IH]; cbn; [done|]. destruct (e k); [by right|].
  intros [->|Hp]%elem_of_cons; [by left|right; auto].
Qed.

(** [extend] and [collect] write the pairs in turn. *)
Lemma extend_refines l t ks m :
  raw_ok t ks (im_entries m) -> Forall (fun p => given ks p.1) l ->
  let '(m', t') := extend_raw cap l m t in
  named (im_entries m') = fold_left (fun n p => ci_insert (text_of p.1) p.2 n) l (named (im_entries m))
  /\ exists ks', raw_ok t' ks' (im_entries m') /\ ks ⊆ ks'.
Proof.
  revert t ks m; induction l as [|[q v] l IH]; intros t ks m Hok Hl; cbn; [by split; [|exists ks]|].
  apply Forall_cons in Hl as [Hq Hl]. cbn in Hq.
  assert (exists k t', make_key cap q t = (k, t') /\ key_inv cap t' (k :: ks)
    /\ in_pushing t' = [] /\ arc_text (k_name k) = text_of q) as (k & t' & -> & Hi & Hidle & Ht).
  { destruct Hok as [Hi Hidle _ _]. destruct q as [k|s|s]; cbn in *.
    - exists k, t. split_and!; [done| |done..]. apply share_key; done.
    - destruct (key_new cap s t) as [k t'] eqn:Hk. eexists k, t'. split; [done|].
      by apply (key_new_inv t ks s k t').
    - destruct (key_new cap s t) as [k t'] eqn:Hk. eexists k, t'. split; [done|].
      by apply (key_new_inv t ks s k t'). }
  pose proof (missed_refines t ks (text_of q) v m k t' Hok Hi Hidle Ht) as H.
  destruct (im_insert k v m) as [old m'] eqn:Hm. destruct H as (_ & Hn & ks' & Hok' & Hks). cbn.
  specialize (IH t' ks' m' Hok').
  destruct (extend_raw cap l m' t') as [m'' t''] eqn:Hx. destruct IH as [Hn' (ks'' & Hok'' & Hks')].
  { eapply Forall_impl; [exact Hl|]. intros [[] ?] Hg; cbn in *; [auto|done..]. }
  split; [by rewrite Hn', Hn|]. exists ks''. split; [done|]. etrans; done.
Qed.

(** C27. A value map is an ordered case-insensitive map.  On every map that
    calls built, whatever form the key is given in: reading, testing and finding
    the index answer by name ignoring ASCII case; writing replaces the value in
    place and keeps the first casing, or appends; removing closes up or moves the
    last entry; each gives back the old value, keeps the names different, and
    moves the mutation counter. *)
Theorem value_map_refines t ks q v m :
  map_ok t ks m -> given ks q ->
  let s := text_of q in
  vm_get q m = ci_get s (names m)
  /\ vm_contains_key q m = bool_decide (ci_get s (names m) <> None)
  /\ vm_get_index_of q m = position (fun p => eq_ignore_ascii_case s p.1) (names m)
  /\ (let '(old, m', t') := vm_insert cap q v m t in
      old = ci_get s (names m) /\ names m' = ci_insert s v (names m)
      /\ vm_version m' = bump (vm_version m)
      /\ exists ks', map_ok t' ks' m' /\ ks ⊆ ks')
  /\ (let '(old, m') := vm_shift_remove q m in
      old = ci_get s (names m) /\ names m' = ci_remove s (names m)
      /\ vm_version m' = bump (vm_version m) /\ map_ok t ks m')
  /\ (let '(old, m') := vm_swap_remove q m in
      old = ci_get s (names m) /\ names m' = ci_swap_remove s (names m)
      /\ vm_version m' = bump (vm_version m) /\ map_ok t ks m').
Proof.
  intros Hok Hq. cbv zeta. unfold map_ok, names in *.
  pose proof (get_refines t ks q (vm_raw m) Hok Hq) as Hg.
  pose proof (probe_tests t ks q _ Hok Hq) as Htests.
  unfold vm_get, vm_contains_key, vm_get_index_of, vm_insert, vm_shift_remove, vm_swap_remove.
  split_and!; [done|by rewrite Hg|..].
  - rewrite im_index_entries. symmetry. by apply (position_rename (fun k => arc_text (k_name k))).
  - pose proof (insert_into_refines t ks q v (vm_raw m) Hok Hq) as H.
    destruct (insert_into cap q v (vm_raw m) t) as [[old m'] t']. destruct H as (H1 & H2 & H3).
    by split_and!.
  - destruct (im_shift_entries (probe q) (vm_raw m)) as [H1 H2].
    destruct (im_shift_remove (probe q) (vm_raw m)) as [old m']. cbn in *.
    assert (En : named (im_entries m') = ci_remove (text_of q) (named (im_entries (vm_raw m)))).
    { rewrite H2. symmetry. by apply (entry_remove_rename (fun k => arc_text (k_name k))). }
    split_and!; [by rewrite H1, <- im_get_entries|done|done|].
    apply (removed_ok t ks _ _ Hok); [|rewrite En; apply ci_remove_distinct, Hok].
    rewrite H2. apply entry_remove_sub.
  - destruct (im_swap_entries (probe q) (vm_raw m)) as [H1 H2].
    destruct (im_swap_remove (probe q) (vm_raw m)) as [old m']. cbn in *.
    assert (En : named (im_entries m') = ci_swap_remove (text_of q) (named (im_entries (vm_raw m)))).
    { rewrite H2. symmetry. by apply (entry_swap_remove_rename (fun k => arc_text (k_name k))). }
    split_and!; [by rewrite H1, <- im_get_entries|done|done|].
    apply (removed_ok t ks _ _ Hok); [|rewrite En; apply ci_swap_remove_distinct, Hok].
    intros p. rewrite H2, entry_swap_perm. apply entry_remove_sub.
Qed.
End Refinement.
