(* ===== verification/ObjCodec.v ===== *)
(** * ObjCodec: the binary format behind [objectSave] and [objectLoad]

    cfml-common: [objcodec.rs] (format 2), with what it calls of [dynamic.rs]
    ([query_column_scalar], [row_at], [push_row_named], [from_named_rows]) and
    [datetime/mod.rs] ([from_epoch]).

    The encoder walks a shared graph: containers are handles into a heap, so a
    value may contain itself.  The decoder builds new containers; what it
    returns is a tree.  The reader's state is the bytes it has not read yet. *)

From stdpp Require Import base list numbers strings gmap.
From S2P Require Import Prelude Text Float64 Value Bytes Keys ValueMap.
Local Open Scope N_scope.
Local Open Scope st_scope.

Definition MAX_DEPTH : nat := 128.

(** ** The graph *)

(** [CfmlValue] with its handles; a [QueryColumn]'s cells are immutable. *)
Inductive gvalue :=
  | JNull
  | JBool (b : bool)
  | JInt (i : Z)
  | JDouble (d : f64)
  | JTimeSpan (d : f64)
  | JDateTime (d : cfml_date)
  | JString (s : str)
  | JBinary (bs : list byte)
  | JArray (p : N)
  | JQueryColumn (cells : list gvalue) (row : nat)
  | JStruct (p : N)
  | JQuery (p : N)
  | JInstance (p : N)
  | JClosure
  | JFunction (name : str)
  | JComponent (name : str)
  | JNativeObject (p : N).

(** What [try_read] finds of a native object's lock. *)
Inductive lock_state := LockFree | LockHeld | LockPoisoned.

(** What a handle leads to; an instance's public members are a struct. *)
Inductive cell :=
  | CArray (l : list gvalue)
  | CStruct (m : list (str * gvalue))
  | CQuery (columns : list str) (data : list (list gvalue))
  | CInstance (class_name : str) (this_members : N)
  | CNative (class_name : str) (lock : lock_state).

Abbreviation store := (gmap N cell).

(** [query_column_scalar]: the current row's cell, or the first; a NULL cell and
    an empty column read as the empty string. *)
Definition query_column_scalar (v : gvalue) : gvalue :=
  match v with
  | JQueryColumn cells row =>
      match cells !! row with
      | Some JNull => JString []
      | Some c => c
      | None => match cells with
                | JNull :: _ | [] => JString []
                | c :: _ => c
                end
      end
  | v => v
  end.

(** A cell may itself be a column: the scalar reached in the end. *)
Fixpoint scalar_value (v : gvalue) : gvalue :=
  match v with
  | JQueryColumn cells row =>
      let scalars := map scalar_value cells in
      match (match scalars !! row with Some c => Some c | None => head scalars end) with
      | Some JNull | None => JString []
      | Some c => c
      end
  | v => v
  end.

(** A NULL cell shows as the empty string. *)
Definition shown (v : gvalue) : gvalue := match v with JNull => JString [] | v => v end.

(** [CfmlQueryData::row_at] for a row below the row count: indexing panics on a
    column that is too short. *)
Fixpoint row_at_go (columns : list str) (data : list (list gvalue)) (row : nat)
    (m : list (str * gvalue)) : outcome str (list (str * gvalue)) :=
  match columns, data with
  | [], _ => Ok m
  | c :: columns, col :: data =>
      match col !! row with
      | Some v =>
          row_at_go columns data row (ci_insert c (shown v) m)
      | None => Panic
      end
  | _ :: _, [] => Panic
  end.

Definition row_at (columns : list str) (data : list (list gvalue)) (row : nat)
    : outcome str (list (str * gvalue)) := row_at_go columns data row [].

Definition data_rows (data : list (list gvalue)) : nat :=
  match data with [] => O | col :: _ => length col end.

(** ** Encoding *)

Definition T_NULL : byte := 0.
Definition T_FALSE : byte := 1.
Definition T_TRUE : byte := 2.
Definition T_INT : byte := 3.
Definition T_DOUBLE : byte := 4.
Definition T_TIMESPAN : byte := 5.
Definition T_STRING : byte := 6.
Definition T_BINARY : byte := 7.
Definition T_ARRAY : byte := 8.
Definition T_STRUCT : byte := 9.
Definition T_QUERY : byte := 10.
Definition T_DATETIME : byte := 11.

Definition kind_byte (k : date_kind) : byte :=
  match k with KDateTime => 0 | KDate => 1 | KTime => 2 end.

Definition f64_le (d : f64) : list byte := to_le 8 (Z.to_N (f64_to_bits d)).

(** The bytes appended for one item after another. *)
Fixpoint enc_all {A} (f : A -> outcome str (list byte)) (l : list A) : outcome str (list byte) :=
  match l with
  | [] => Ok []
  | x :: l => obind (f x) (fun bs => obind (enc_all f l) (fun bs' => Ok (bs ++ bs')))
  end.

Definition encode_map (enc : gvalue -> outcome str (list byte)) (m : list (str * gvalue))
    : outcome str (list byte) :=
  omapo (app (T_STRUCT :: put_len (length m)))
    (enc_all (fun e => omapo (app (put_bytes (as_bytes e.1))) (enc e.2)) m).

(** One row: each column's cell, or null for a column the row does not have. *)
Definition encode_row (enc : gvalue -> outcome str (list byte)) (columns : list str)
    (row : list (str * gvalue)) : outcome str (list byte) :=
  enc_all (fun c => match ci_get c row with Some v => enc v | None => Ok [T_NULL] end) columns.

Definition encode_query (enc : gvalue -> outcome str (list byte)) (columns : list str)
    (data : list (list gvalue)) : outcome str (list byte) :=
  omapo (app (T_QUERY :: put_len (length columns)
              ++ concat (map (fun c => put_bytes (as_bytes c)) columns)
              ++ put_len (data_rows data)))
    (enc_all (fun r => obind (row_at columns data r) (encode_row enc columns))
       (seq 0 (data_rows data))).

(** [enc]: [room] is one more than the levels left below [MAX_DEPTH].  Every
    handle leads to a cell of its kind; the arms that say otherwise are not
    reached. *)
Fixpoint enc (h : store) (room : nat) (v : gvalue) : outcome str (list byte) :=
  match room with
  | O => Err (lit "value is nested too deeply (or contains a reference to itself)")
  | S room =>
      match scalar_value v with
      | JNull | JClosure | JFunction _ | JComponent _ | JNativeObject _ => Ok [T_NULL]
      | JQueryColumn _ _ => Panic
      | JBool false => Ok [T_FALSE]
      | JBool true => Ok [T_TRUE]
      | JInt i => Ok (T_INT :: to_le 8 (i64_word i))
      | JDouble d => Ok (T_DOUBLE :: f64_le d)
      | JTimeSpan d => Ok (T_TIMESPAN :: f64_le d)
      | JString s => Ok (T_STRING :: put_bytes (as_bytes s))
      | JBinary bs => Ok (T_BINARY :: put_bytes bs)
      | JDateTime d =>
          Ok (T_DATETIME :: to_le 8 (i64_word (date_secs d)) ++ to_le 4 (Z.to_N (date_nanos d))
              ++ [kind_byte (date_class d)])
      | JArray p =>
          match h !! p with
          | Some (CArray l) => omapo (app (T_ARRAY :: put_len (length l))) (enc_all (enc h room) l)
          | _ => Panic
          end
      | JStruct p =>
          match h !! p with Some (CStruct m) => encode_map (enc h room) m | _ => Panic end
      | JQuery p =>
          match h !! p with
          | Some (CQuery columns data) => encode_query (enc h room) columns data
          | _ => Panic
          end
      | JInstance p =>
          match h !! p with
          | Some (CInstance _ q) =>
              match h !! q with Some (CStruct m) => encode_map (enc h room) m | _ => Panic end
          | _ => Panic
          end
      end
  end.

Definition encode (h : store) (v : gvalue) : outcome str (list byte) := enc h (S MAX_DEPTH) v.

(** ** Decoding *)

Abbreviation reader := (ST (list byte) str).

Definition take_bytes (n : nat) : reader (list byte) := fun b =>
  if decide (n <= length b)%nat then (drop n b, Ok (take n b)) else (b, Err (lit "truncated data")).

Definition read_byte : reader byte :=
  let! bs := take_bytes 1 in
  match bs with b :: _ => st_ret b | [] => st_panic end.

(** [try_into().expect(..)] of a slice. *)
Definition fixed (n : nat) : reader (list byte) :=
  let! bs := take_bytes n in
  if decide (length bs = n) then st_ret bs else st_panic.

(** [len]: the groups still allowed and the shift of the next.  Bits shifted out
    of the [usize] are lost, as [checked_shl] loses them. *)
Fixpoint read_len_go (groups : nat) (shift n : N) : reader nat :=
  match groups with
  | O => st_err (lit "length overflow")
  | S groups =>
      let! b := read_byte in
      let n := N.lor n (N.shiftl (N.land b 127) shift mod 2 ^ 64) in
      if N.land b 128 =? 0
      then fun rest => if n <=? N.of_nat (length rest) then (rest, Ok (N.to_nat n))
                       else (rest, Err (lit "length exceeds data"))
      else read_len_go groups (shift + 7) n
  end.

Definition read_len : reader nat := read_len_go 10 0 0.

Definition read_text : reader str :=
  let! n := read_len in
  let! raw := take_bytes n in
  st_lift (ok_or (from_utf8 raw) (lit "invalid UTF-8 in string")).

(** [for _ in 0..n { out.push(f()?) }] *)
Fixpoint read_n {A} (n : nat) (f : reader A) : reader (list A) :=
  match n with
  | O => st_ret []
  | S n => let! x := f in let! xs := read_n n f in st_ret (x :: xs)
  end.

Fixpoint read_entries (f : reader value) (n : nat) (m : list (str * value)) : reader (list (str * value)) :=
  match n with
  | O => st_ret m
  | S n => let! k := read_text in let! v := f in read_entries f n (ci_insert k v m)
  end.

Fixpoint read_row (f : reader value) (cols : list str) (row : list (str * value))
    : reader (list (str * value)) :=
  match cols with
  | [] => st_ret row
  | c :: cols => let! v := f in read_row f cols (ci_insert c v row)
  end.

(** The columns a row brings in, empty so far. *)
Fixpoint add_columns (keys : list str) (q : list str * list (list value))
    : list str * list (list value) :=
  match keys with
  | [] => q
  | k :: keys =>
      let '(columns, data) := q in
      if existsb (fun c => eq_ignore_ascii_case c k) columns then add_columns keys q
      else add_columns keys
             (columns ++ [k],
              data ++ [replicate (match data with [] => O | col :: _ => length col end) VNull])
  end.

(** [push_row_named]; [columns] and [data] have the same length. *)
Definition push_row_named (row : list (str * value)) (q : list str * list (list value))
    : list str * list (list value) :=
  let '(columns, data) := add_columns row.*1 q in
  (columns, zip_with (fun c col => col ++ [default VNull (ci_get c row)]) columns data).

(** [from_named_rows] *)
Definition from_named_rows (columns : list str) (rows : list (list (str * value)))
    : list str * list (list value) :=
  fold_left (fun q row => push_row_named row q) rows (columns, map (fun _ => []) columns).

(** [CfmlDate::from_epoch(..).with_kind(..)], with the [i64] sum wrapping. *)
Definition from_epoch (secs nanos : Z) (k : date_kind) : cfml_date :=
  mk_date (wrap_i64 (secs + nanos / 1000000000)) (nanos mod 1000000000) k.

Definition kind_of_byte (b : byte) : date_kind :=
  if b =? 1 then KDate else if b =? 2 then KTime else KDateTime.

Definition unknown_tag (t : byte) : str := lit "unknown value tag " ++ Z_to_str (Z.of_N t).

Fixpoint read_value (room : nat) : reader value :=
  match room with
  | O => st_err (lit "nesting too deep")
  | S room =>
      let! t := read_byte in
      if t =? T_NULL then st_ret VNull
      else if t =? T_FALSE then st_ret (VBool false)
      else if t =? T_TRUE then st_ret (VBool true)
      else if t =? T_INT then let! bs := fixed 8 in st_ret (VInt (word_i64 (from_le bs)))
      else if t =? T_DOUBLE then let! bs := fixed 8 in st_ret (VDouble (f64_of_bits (Z.of_N (from_le bs))))
      else if t =? T_TIMESPAN then let! bs := fixed 8 in st_ret (VTimeSpan (f64_of_bits (Z.of_N (from_le bs))))
      else if t =? T_STRING then let! s := read_text in st_ret (VString s)
      else if t =? T_BINARY then
        let! n := read_len in let! bs := take_bytes n in st_ret (VBinary bs)
      else if t =? T_ARRAY then
        let! n := read_len in let! l := read_n n (read_value room) in st_ret (VArray l)
      else if t =? T_STRUCT then
        let! n := read_len in let! m := read_entries (read_value room) n [] in st_ret (VStruct m)
      else if t =? T_QUERY then
        let! ncols := read_len in
        let! cols := read_n ncols read_text in
        let! nrows := read_len in
        let! rows := read_n nrows (read_row (read_value room) cols []) in
        let '(columns, data) := from_named_rows cols rows in st_ret (VQuery columns data)
      else if t =? T_DATETIME then
        let! secs := fixed 8 in
        let! nanos := fixed 4 in
        let! k := read_byte in
        st_ret (VDateTime (from_epoch (word_i64 (from_le secs)) (Z.of_N (from_le nanos)) (kind_of_byte k)))
      else st_err (unknown_tag t)
  end.

Definition decode (bytes : list byte) : outcome str value :=
  match read_value (S MAX_DEPTH) bytes with
  | (rest, Ok v) =>
      if decide (rest = []) then Ok v
      else Err (Z_to_str (Z.of_nat (length rest)) ++ lit " unexpected trailing bytes")
  | (_, Err e) => Err e
  | (_, Panic) => Panic
  end.

(** ** [objectSave] and [objectLoad] (cfml-stdlib: [builtins.rs]) *)

Definition OBJECT_SAVE_MAGIC : list byte := lit "RCFMLOBJ" ++ [1].
Definition OBJECT_SAVE_MAGIC_V2 : list byte := lit "RCFMLOBJ" ++ [2].

Definition fn_object_save (h : store) (args : list gvalue) : outcome cfml_error (list byte) :=
  match encode h (default JNull (head args)) with
  | Ok bs => Ok (OBJECT_SAVE_MAGIC_V2 ++ bs)
  | Err e => Err (runtime (lit "objectSave: failed to serialize value: " ++ e))
  | Panic => Panic
  end.

(** [strip_prefix] *)
Fixpoint strip_magic (p bs : list byte) : option (list byte) :=
  match p, bs with
  | [], _ => Some bs
  | x :: p, y :: bs => if x =? y then strip_magic p bs else None
  | _ :: _, [] => None
  end.

(** Format 1 is read by [serde_json]: the parameter [from_json]. *)
Definition object_load_bytes (from_json : list byte -> outcome str value) (bytes : list byte)
    : outcome cfml_error value :=
  let failed e := runtime (lit "objectLoad: failed to deserialize value: " ++ e) in
  match strip_magic OBJECT_SAVE_MAGIC_V2 bytes with
  | Some body => match decode body with Ok v => Ok v | Err e => Err (failed e) | Panic => Panic end
  | None =>
      match strip_magic OBJECT_SAVE_MAGIC bytes with
      | Some body => match from_json body with Ok v => Ok v | Err e => Err (failed e) | Panic => Panic end
      | None => Err (runtime (lit "objectLoad: input was not produced by RustCFML's objectSave (JVM object serialization is not supported)"))
      end
  end.
