(* ===== verification/ObjCodecFacts.v ===== *)
(** * ObjCodecFacts: what is saved is what is loaded

    The meaning of a graph as the tree it loads as, the round trip through the
    bytes, the refusal of values nested too deeply or without end, and what the
    decoder makes of bytes that are not an encoding. *)

From stdpp Require Import base list numbers strings gmap.
From S2P Require Import Prelude Text Float64 Value Bytes Keys ValueMap ObjCodec.
Local Open Scope N_scope.

(** ** Readers *)

(** [p] reads exactly [bs], whatever follows. *)
Definition reads {A} (p : reader A) (bs : list byte) (x : A) : Prop :=
  forall rest, p (bs ++ rest) = (rest, Ok x).

Lemma reads_ret {A} (x : A) : reads (st_ret x) [] x.
Proof. by intros rest. Qed.

Lemma reads_bind {A B} (p : reader A) (k : A -> reader B) bs bs' x y :
  reads p bs x -> reads (k x) bs' y -> reads (st_bind p k) (bs ++ bs') y.
Proof. intros Hp Hk rest. rewrite <- app_assoc. unfold st_bind. by rewrite Hp. Qed.

Lemma reads_bind_nil {A B} (p : reader A) (k : A -> reader B) bs x y :
  reads p bs x -> reads (k x) [] y -> reads (st_bind p k) bs y.
Proof. intros Hp Hk. rewrite <- (app_nil_r bs). by eapply reads_bind. Qed.

Lemma reads_bind_ret {A B} (p : reader A) (f : A -> B) bs x :
  reads p bs x -> reads (st_bind p (fun a => st_ret (f a))) bs (f x).
Proof. intros Hp rest. unfold st_bind. by rewrite Hp. Qed.

Lemma reads_take bs : reads (take_bytes (length bs)) bs bs.
Proof.
  intros rest. unfold take_bytes. rewrite decide_True by (rewrite length_app; lia).
  by rewrite take_app_length, drop_app_length.
Qed.

Lemma reads_byte b : reads read_byte [b] b.
Proof. intros rest. unfold read_byte, st_bind. by rewrite (reads_take [b]). Qed.

Lemma reads_fixed n bs : length bs = n -> reads (fixed n) bs bs.
Proof.
  intros <- rest. unfold fixed, st_bind. rewrite (reads_take bs). by rewrite decide_True.
Qed.

(** *** Lengths *)

Lemma low_bits b : b < 128 ->
  N.land b 127 = b /\ N.land b 128 = 0
  /\ N.land (N.lor b 128) 127 = b /\ (N.land (N.lor b 128) 128 =? 0) = false.
Proof.
  intros Hb.
  assert (H : forallb (fun i => let b := N.of_nat i in
    (N.land b 127 =? b) && (N.land b 128 =? 0) && (N.land (N.lor b 128) 127 =? b)
    && negb (N.land (N.lor b 128) 128 =? 0)) (seq 0 128) = true) by by vm_compute.
  rewrite forallb_forall in H. specialize (H (N.to_nat b)). rewrite in_seq in H.
  rewrite N2Nat.id in H. cbv zeta in H.
  rewrite !andb_true_iff, !N.eqb_eq, negb_true_iff in H. naive_solver lia.
Qed.

Lemma lor_shift acc b s : acc < 2 ^ s -> N.lor acc (N.shiftl b s) = acc + b * 2 ^ s.
Proof.
  intros Ha. rewrite N.shiftl_mul_pow2.
  rewrite <- N.lxor_lor, <- N.add_nocarry_lxor; [done| |];
    apply N.bits_inj_0; intros n; rewrite N.land_spec;
    (destruct (N.lt_ge_cases n s) as [Hn|Hn];
     [rewrite N.mul_pow2_bits_low by done; apply andb_false_r
     |rewrite <- (N.mod_small acc (2 ^ s)) by done; rewrite N.mod_pow2_bits_high by done; done]).
Qed.

Lemma read_len_go_put groups s acc n rest :
  groups <> O -> n < 2 ^ (7 * N.of_nat groups) -> acc < 2 ^ s -> acc + n * 2 ^ s < 2 ^ 64 ->
  acc + n * 2 ^ s <= N.of_nat (length rest) ->
  read_len_go groups s acc (put_len_go groups n ++ rest) = (rest, Ok (N.to_nat (acc + n * 2 ^ s))).
Proof.
  revert s acc n; induction groups as [|groups IH]; intros s acc n Hg Hn Ha Hw Hr; [done|].
  cbn [put_len_go read_len_go]. set (b := N.land n 127). set (n' := N.shiftr n 7).
  assert (Hb : b = n mod 128) by apply (N.land_ones n 7).
  assert (Hn' : n' = n / 128) by apply (N.shiftr_div_pow2 n 7).
  assert (Hd : n = 128 * n' + b) by (rewrite Hb, Hn'; apply N.div_mod').
  assert (Hb128 : b < 128) by (rewrite Hb; by apply N.mod_upper_bound).
  clearbody b n'. clear Hb Hn'. destruct (low_bits b Hb128) as (L1 & L2 & L3 & L4).
  assert (Hp : 0 < 2 ^ s) by (apply N.neq_0_lt_0, N.pow_nonzero; lia).
  assert (Hs : N.lor acc (N.shiftl b s mod 2 ^ 64) = acc + b * 2 ^ s).
  { rewrite N.mod_small; [by apply lor_shift|]. rewrite N.shiftl_mul_pow2. nia. }
  destruct (N.eqb_spec n' 0) as [H0|H0].
  - cbn [app]. unfold st_bind. rewrite (reads_byte b rest : read_byte (b :: rest) = _).
    rewrite L1, L2, Hs, N.eqb_refl. replace n with b by lia.
    rewrite (proj2 (N.leb_le _ _)); [done|]. replace b with n by lia. done.
  - cbn [app]. unfold st_bind.
    rewrite (reads_byte (N.lor b 128) (put_len_go groups n' ++ rest) : read_byte (N.lor b 128 :: _) = _).
    rewrite L3, L4, Hs.
    assert (E : 2 ^ (s + 7) = 2 ^ s * 128) by by rewrite N.pow_add_r.
    assert (Hn' : n' < 2 ^ (7 * N.of_nat groups)).
    { rewrite Nat2N.inj_succ, N.mul_succ_r, N.pow_add_r in Hn. change (2 ^ 7) with 128 in Hn. nia. }
    rewrite IH; rewrite ?E; try nia; [do 3 f_equal; nia|]. intros ->. simpl in Hn'. lia.
Qed.

Lemma put_len_go_pos fuel n : (1 <= length (put_len_go (S fuel) n))%nat.
Proof. cbn [put_len_go]. destruct (_ =? 0); cbn; lia. Qed.

Lemma put_len_pos n : (1 <= length (put_len n))%nat.
Proof. apply put_len_go_pos. Qed.

(** A [usize]. *)
Definition fits (n : nat) : Prop := N.of_nat n < 2 ^ 64.

Lemma read_len_put n rest :
  fits n -> (n <= length rest)%nat -> read_len (put_len n ++ rest) = (rest, Ok n).
Proof.
  unfold fits. intros Hf Hn. unfold read_len, put_len. rewrite read_len_go_put; [|done|..].
  - by rewrite N.mul_1_r, N.add_0_l, Nat2N.id.
  - etrans; [exact Hf|]. by vm_compute.
  - by vm_compute.
  - by rewrite N.mul_1_r.
  - rewrite N.mul_1_r. lia.
Qed.

(** A length is read when at least that many bytes follow. *)
Lemma reads_len_bind {B} (k : nat -> reader B) n bs y :
  fits n -> (n <= length bs)%nat -> reads (k n) bs y -> reads (st_bind read_len k) (put_len n ++ bs) y.
Proof.
  intros Hf Hn Hk rest. rewrite <- app_assoc. unfold st_bind.
  rewrite read_len_put; [apply Hk|done|]. rewrite length_app. lia.
Qed.

Lemma reads_text s :
  valid_str s = true -> fits (length (as_bytes s)) -> reads read_text (put_bytes (as_bytes s)) s.
Proof.
  intros Hs Hf. unfold read_text, put_bytes. apply reads_len_bind; [done..|].
  eapply reads_bind_nil; [apply reads_take|].
  rewrite from_utf8_as_bytes by done. by intros rest.
Qed.

Lemma reads_n {A} (f : reader A) bss xs :
  Forall2 (reads f) bss xs -> reads (read_n (length xs) f) (concat bss) xs.
Proof.
  induction 1 as [|bs x bss xs Hf _ IH]; cbn; [apply reads_ret|].
  eapply reads_bind; [done|]. by apply reads_bind_ret.
Qed.

(** ** The tree a graph loads as *)

Section Meaning.
Variable h : store.

(** Containers become new ones with the same contents, proxies the scalar they
    stand for, code nothing; a NULL cell of a query becomes the empty string. *)
Inductive loads_as : gvalue -> value -> Prop :=
  | load_null : loads_as JNull VNull
  | load_bool b : loads_as (JBool b) (VBool b)
  | load_int i : loads_as (JInt i) (VInt i)
  | load_double d : loads_as (JDouble d) (VDouble d)
  | load_time_span d : loads_as (JTimeSpan d) (VTimeSpan d)
  | load_date d : loads_as (JDateTime d) (VDateTime d)
  | load_string s : loads_as (JString s) (VString s)
  | load_binary bs : loads_as (JBinary bs) (VBinary bs)
  | load_column cells row t :
      loads_as (query_column_scalar (JQueryColumn cells row)) t -> loads_as (JQueryColumn cells row) t
  | load_array p l ts :
      h !! p = Some (CArray l) -> Forall2 loads_as l ts -> loads_as (JArray p) (VArray ts)
  | load_struct p m ts :
      h !! p = Some (CStruct m) -> Forall2 loads_entry m ts -> loads_as (JStruct p) (VStruct ts)
  | load_instance p n q m ts :
      h !! p = Some (CInstance n q) -> h !! q = Some (CStruct m) ->
      Forall2 loads_entry m ts -> loads_as (JInstance p) (VStruct ts)
  | load_query p columns data ts :
      h !! p = Some (CQuery columns data) ->
      Forall2 (Forall2 (fun c t => loads_as (shown c) t)) data ts ->
      loads_as (JQuery p) (VQuery columns ts)
  | load_closure : loads_as JClosure VNull
  | load_function n : loads_as (JFunction n) VNull
  | load_component n : loads_as (JComponent n) VNull
  | load_native p : loads_as (JNativeObject p) VNull
with loads_entry : str * gvalue -> str * value -> Prop :=
  | load_entry k v t : loads_as v t -> loads_entry (k, v) (k, t).

(** *** Well-formed graphs *)

Definition text_ok (s : str) : Prop := valid_str s = true /\ fits (length (as_bytes s)).

Definition date_ok (d : cfml_date) : Prop :=
  in_i64 (date_secs d) = true /\ (0 <= date_nanos d < 1000000000)%Z.

(** Numbers of their width, texts of scalar values, handles to cells of their
    kind. *)
Fixpoint gvalue_ok (v : gvalue) : Prop :=
  match v with
  | JInt i => in_i64 i = true
  | JDouble d | JTimeSpan d => f64_ok d
  | JDateTime d => date_ok d
  | JString s => text_ok s
  | JBinary bs => fits (length bs)
  | JQueryColumn cells _ => fold_right (fun c P => gvalue_ok c /\ P) True cells
  | JArray p => exists l, h !! p = Some (CArray l)
  | JStruct p => exists m, h !! p = Some (CStruct m)
  | JQuery p => exists columns data, h !! p = Some (CQuery columns data)
  | JInstance p => exists n q, h !! p = Some (CInstance n q)
  | JNativeObject p => exists n l, h !! p = Some (CNative n l)
  | _ => True
  end.

Definition different (names : list str) : Prop := NoDup (map ascii_lower <$> names).

Definition entries_ok (m : list (str * gvalue)) : Prop :=
  Forall (fun e => text_ok e.1 /\ gvalue_ok e.2) m /\ different m.*1 /\ fits (length m).

Definition cell_ok (c : cell) : Prop :=
  match c with
  | CArray l => Forall gvalue_ok l /\ fits (length l)
  | CStruct m => entries_ok m
  | CQuery columns data =>
      Forall text_ok columns /\ different columns /\ fits (length columns)
      /\ length data = length columns
      /\ Forall (fun col => Forall gvalue_ok col /\ length col = data_rows data) data
      /\ fits (data_rows data)
  | CInstance _ q => exists m, h !! q = Some (CStruct m)
  | CNative _ _ => True
  end.

Definition store_ok : Prop := map_Forall (fun _ c => cell_ok c) h.
End Meaning.

(** How deep a tree nests: 0 for a value without items. *)
Definition level (ns : list nat) : nat := match ns with [] => O | _ => S (list_max ns) end.

Fixpoint nesting (t : value) : nat :=
  match t with
  | VArray l => level (map nesting l)
  | VStruct m => level (map (fun e => nesting e.2) m)
  | VQuery _ data => level (concat (map (map nesting) data))
  | _ => O
  end.

Lemma level_lt ns room : (level ns < S room)%nat <-> Forall (fun n => n < room)%nat ns.
Proof.
  destruct ns as [|n ns]; [split; [constructor|cbn; lia]|].
  cbn [level]. rewrite <- Nat.succ_lt_mono. destruct room as [|room].
  - split; [lia|]. inversion 1; lia.
  - rewrite Nat.lt_succ_r, list_max_le. split; intros H; (eapply Forall_impl; [exact H|]); cbv beta; lia.
Qed.

(** *** Proxies *)

Definition is_column (v : gvalue) : bool := match v with JQueryColumn _ _ => true | _ => false end.

(** The cell a proxy reads. *)
Definition proxy_cell (cells : list gvalue) (row : nat) : option gvalue :=
  match cells !! row with Some c => Some c | None => head cells end.

Lemma proxy_cell_in cells row c : proxy_cell cells row = Some c -> c ∈ cells.
Proof.
  unfold proxy_cell. destruct (cells !! row) as [d|] eqn:E.
  - intros [= <-]. by eapply list_elem_of_lookup_2.
  - destruct cells; [done|]. intros [= <-]. left.
Qed.

Lemma query_column_scalar_cell cells row :
  query_column_scalar (JQueryColumn cells row)
  = match proxy_cell cells row with Some c => shown c | None => JString [] end.
Proof.
  unfold query_column_scalar, proxy_cell, shown. destruct (cells !! row) as [[]|]; try done.
  by destruct cells as [|[] ?].
Qed.

Lemma scalar_value_cell cells row :
  scalar_value (JQueryColumn cells row)
  = match proxy_cell cells row with Some c => shown (scalar_value c) | None => JString [] end.
Proof.
  cbn. change (map scalar_value cells) with (scalar_value <$> cells). unfold proxy_cell, shown.
  rewrite list_lookup_fmap. destruct (cells !! row) as [c|]; cbn; [by destruct (scalar_value c)|].
  destruct cells as [|c ?]; cbn; [done|]. by destruct (scalar_value c).
Qed.

Lemma shown_not_null v : shown v <> JNull.
Proof. by destruct v. Qed.

Lemma scalar_value_null v : scalar_value v = JNull -> v = JNull.
Proof.
  destruct v; try done. rewrite scalar_value_cell.
  destruct (proxy_cell _ _); [|done]. intros H. by apply shown_not_null in H.
Qed.

Lemma scalar_value_shown v : scalar_value (shown v) = shown (scalar_value v).
Proof.
  destruct v; try done. cbn [shown]. destruct (scalar_value (JQueryColumn cells row)) eqn:E; try done.
  by apply scalar_value_null in E.
Qed.

Lemma scalar_value_scalar v : is_column (scalar_value v) = false.
Proof.
  induction v as [| | | | | | | | |cells IH row| | | | | | |] using gvalue_ind; try done.
  rewrite scalar_value_cell. destruct (proxy_cell cells row) as [c|] eqn:E; [|done].
  pose proof (proj1 (Forall_forall _ _) (list_all_Forall _ _ IH) c (proxy_cell_in _ _ _ E)) as Hc.
  cbv beta in Hc. revert Hc. by destruct (scalar_value c).
Qed.

Lemma loads_scalar h v t : loads_as h v t <-> loads_as h (scalar_value v) t.
Proof.
  revert t. induction v as [| | | | | | | | |cells IH row| | | | | | |] using gvalue_ind; intros t; try done.
  assert (E : loads_as h (JQueryColumn cells row) t
              <-> loads_as h (query_column_scalar (JQueryColumn cells row)) t).
  { split; [by inversion 1|apply load_column]. }
  rewrite E, query_column_scalar_cell, scalar_value_cell.
  destruct (proxy_cell cells row) as [c|] eqn:Ec; [|done].
  pose proof (proj1 (Forall_forall _ _) (list_all_Forall _ _ IH) c (proxy_cell_in _ _ _ Ec)) as Hc.
  rewrite <- scalar_value_shown. destruct c; try done; apply Hc.
Qed.

Lemma gvalue_ok_column h cells row :
  gvalue_ok h (JQueryColumn cells row) <-> Forall (gvalue_ok h) cells.
Proof.
  cbn. induction cells as [|c cells IH]; cbn; [split; [constructor|done]|].
  by rewrite Forall_cons, IH.
Qed.

Lemma gvalue_ok_shown h v : gvalue_ok h v -> gvalue_ok h (shown v).
Proof. by destruct v. Qed.

Lemma gvalue_ok_scalar h v : gvalue_ok h v -> gvalue_ok h (scalar_value v).
Proof.
  induction v as [| | | | | | | | |cells IH row| | | | | | |] using gvalue_ind; try done.
  rewrite gvalue_ok_column, scalar_value_cell. intros Hok.
  destruct (proxy_cell cells row) as [c|] eqn:E; [|done]. apply gvalue_ok_shown.
  pose proof (proxy_cell_in _ _ _ E) as Hin.
  apply (proj1 (Forall_forall _ _) (list_all_Forall _ _ IH) c Hin).
  by apply (proj1 (Forall_forall _ _) Hok).
Qed.

(** ** Items, entries and rows *)

(** [x] encodes to at least one byte, from which [p] reads [t]. *)
Definition codes {A B} (f : A -> outcome str (list byte)) (p : reader B) (x : A) (t : B) : Prop :=
  exists bs, f x = Ok bs /\ (1 <= length bs)%nat /\ reads p bs t.

Lemma enc_all_codes {A B} (f : A -> outcome str (list byte)) (p : reader B) l ts :
  Forall2 (codes f p) l ts ->
  exists bs, enc_all f l = Ok bs /\ (length l <= length bs)%nat /\ reads (read_n (length l) p) bs ts.
Proof.
  induction 1 as [|x t l ts (bs & Hf & Hl & Hr) _ (bs' & Hf' & Hl' & Hr')].
  - exists []. split_and!; [done..|apply reads_ret].
  - exists (bs ++ bs'). cbn. rewrite Hf, Hf'. cbn. split_and!; [done|rewrite length_app; lia|].
    eapply reads_bind; [done|]. by apply reads_bind_ret.
Qed.

Lemma reads_meq {A} (p q : reader A) bs x : meq p q -> reads p bs x -> reads q bs x.
Proof. intros E Hp rest. by rewrite <- E. Qed.

Definition read_entry (f : reader value) : reader (str * value) :=
  st_bind read_text (fun k => st_bind f (fun v => st_ret (k, v))).

Lemma read_entries_meq f n m :
  meq (st_bind (read_n n (read_entry f)) (fun es => st_ret (fold_left (fun m e => ci_insert e.1 e.2 m) es m)))
      (read_entries f n m).
Proof.
  revert m; induction n as [|n IH]; intros m; cbn [read_n read_entries]; [by intros s|].
  unfold read_entry at 1. rewrite !st_bind_assoc. apply st_bind_cong; [done|]. intros k.
  rewrite !st_bind_assoc. apply st_bind_cong; [done|]. intros v.
  rewrite st_bind_ret_l, st_bind_assoc, <- IH.
  apply st_bind_cong; [done|]. by intros es s.
Qed.

Lemma read_row_meq f cols row :
  meq (st_bind (read_n (length cols) f)
         (fun vs => st_ret (fold_left (fun m e => ci_insert e.1 e.2 m) (zip cols vs) row)))
      (read_row f cols row).
Proof.
  revert row; induction cols as [|c cols IH]; intros row; cbn [length read_n read_row]; [by intros s|].
  rewrite st_bind_assoc. apply st_bind_cong; [done|]. intros v.
  rewrite st_bind_assoc, <- IH. apply st_bind_cong; [done|]. by intros vs s.
Qed.

Section Distinct.
Context {V : Type}.
Implicit Types (m es : list (str * V)).

Lemma ci_get_fresh k m : different (k :: m.*1) -> ci_get k m = None.
Proof.
  intros [Hk _]%NoDup_cons. apply entry_get_none. intros p Hp. rewrite eq_ignore_lower.
  apply bool_decide_eq_false. intros E. apply Hk. rewrite E.
  by do 2 apply list_elem_of_fmap_2.
Qed.

(** Names that are all different are appended in turn. *)
Lemma ci_fold_new es m :
  different (m.*1 ++ es.*1) -> fold_left (fun m e => ci_insert e.1 e.2 m) es m = m ++ es.
Proof.
  revert m; induction es as [|[k v] es IH]; intros m Hd; cbn [fold_left fst snd]; [by rewrite app_nil_r|].
  assert (ci_insert k v m = m ++ [(k, v)]) as ->.
  { unfold ci_insert, entry_insert. change (entry_get _ m) with (ci_get k m).
    rewrite ci_get_fresh; [done|]. unfold different in *. cbn in *.
    rewrite fmap_app, fmap_cons in Hd. apply NoDup_app in Hd as (Hm & Hne & _).
    constructor; [|done]. intros Hk. eapply Hne; [exact Hk|left]. }
  rewrite IH; [by rewrite <- app_assoc|]. rewrite fmap_app, <- app_assoc. exact Hd.
Qed.

Lemma ci_get_zip cols (vs : list V) i c v :
  different cols -> cols !! i = Some c -> vs !! i = Some v -> ci_get c (zip cols vs) = Some v.
Proof.
  revert vs i; induction cols as [|d cols IH]; intros [|w vs] [|i] Hd Hc Hv; simplify_eq/=.
  - unfold ci_get. rewrite entry_get_cons. by rewrite eq_ignore_ascii_case_refl.
  - unfold different in Hd. cbn in Hd. apply NoDup_cons in Hd as [Hd Hd'].
    unfold ci_get. rewrite entry_get_cons, eq_ignore_lower. rewrite bool_decide_false.
    + by apply (IH vs i).
    + intros E. apply Hd. rewrite <- E. apply list_elem_of_fmap_2. by eapply list_elem_of_lookup_2.
Qed.
End Distinct.

(** *** Rows of columns *)

(** Row [r] of column-major data. *)
Definition row_of {A} (d : A) (data : list (list A)) (r : nat) : list A :=
  map (fun col => default d (col !! r)) data.

Lemma row_of_length {A} (d : A) data r : length (row_of d data r) = length data.
Proof. apply length_map. Qed.

Definition rect {A} (n : nat) (data : list (list A)) : Prop := Forall (fun col => length col = n) data.

Lemma fst_zip_eq {A B} (l : list A) (k : list B) : length l = length k -> (zip l k).*1 = l.
Proof. intros H. by apply fst_zip; lia. Qed.

Lemma row_at_zip columns data n r m :
  length data = length columns -> rect n data -> (r < n)%nat -> different (m.*1 ++ columns) ->
  row_at_go columns data r m = Ok (m ++ zip columns (map shown (row_of JNull data r))).
Proof.
  intros Hl Hr Hn. revert m data Hl Hr; induction columns as [|c columns IH]; intros m [|col data] Hl Hr Hd;
    try done; cbn [row_at_go].
  - by rewrite app_nil_r.
  - apply Forall_cons in Hr as [Hc Hr]. simplify_eq/=.
    destruct (lookup_lt_is_Some_2 col r) as [v Hv]; [lia|]. rewrite Hv. cbn [default].
    pose proof (ci_fold_new [(c, shown v)] m) as E. cbn in E. rewrite E.
    + rewrite IH; [by rewrite <- app_assoc|done..|]. by rewrite fmap_app, <- app_assoc.
    + unfold different in *. rewrite (cons_middle c _ columns), app_assoc, fmap_app in Hd.
      by apply NoDup_app in Hd as [? _].
Qed.

Lemma row_at_ok columns data n r :
  length data = length columns -> rect n data -> (r < n)%nat -> different columns ->
  row_at columns data r = Ok (zip columns (map shown (row_of JNull data r))).
Proof. intros. unfold row_at. by rewrite (row_at_zip columns data n). Qed.

Lemma enc_all_cong {A B} (f : A -> outcome str (list byte)) (g : B -> outcome str (list byte)) l l' :
  Forall2 (fun x y => f x = g y) l l' -> enc_all f l = enc_all g l'.
Proof. induction 1 as [|x y l l' E _ IH]; cbn; [done|]. by rewrite E, IH. Qed.

Lemma enc_all_pure {A} (g : A -> list byte) l :
  enc_all (fun x => Ok (g x)) l = Ok (concat (map g l)).
Proof. induction l as [|x l IH]; cbn [enc_all map concat obind]; [done|]. by rewrite IH. Qed.

Lemma encode_row_zip enc' columns vs :
  different columns -> length vs = length columns ->
  encode_row enc' columns (zip columns vs) = enc_all enc' vs.
Proof.
  intros Hd Hl. apply enc_all_cong. apply Forall2_same_length_lookup_2; [done|].
  intros i c v Hc Hv. by rewrite (ci_get_zip columns vs i c v).
Qed.

Lemma add_columns_known keys q :
  (forall k, k ∈ keys -> existsb (fun c => eq_ignore_ascii_case c k) q.1 = true) ->
  add_columns keys q = q.
Proof.
  induction keys as [|k keys IH]; intros H; cbn; [done|]. destruct q as [columns data].
  rewrite (H k ltac:(left) : existsb _ columns = true). apply IH. intros k' Hk'. apply H. by right.
Qed.

Lemma push_row_zip columns data vs :
  different columns -> length data = length columns -> length vs = length columns ->
  push_row_named (zip columns vs) (columns, data)
  = (columns, zip_with (fun col v => col ++ [v]) data vs).
Proof.
  intros Hd Hl Hv. unfold push_row_named. rewrite add_columns_known.
  - f_equal. apply list_eq. intros i. rewrite !lookup_zip_with.
    destruct (columns !! i) as [c|] eqn:Hc; cbn.
    + destruct (lookup_lt_is_Some_2 data i) as [col Hcol]; [apply lookup_lt_Some in Hc; lia|].
      destruct (lookup_lt_is_Some_2 vs i) as [v Hvi]; [apply lookup_lt_Some in Hc; lia|].
      rewrite Hcol, Hvi. cbn. by rewrite (ci_get_zip columns vs i c v).
    + apply lookup_ge_None in Hc. by rewrite (lookup_ge_None_2 data i) by lia.
  - intros k Hk. rewrite fst_zip_eq in Hk by done. apply existsb_exists. exists k.
    split; [by apply list_elem_of_In|apply eq_ignore_ascii_case_refl].
Qed.

Lemma take_row (ts : list (list value)) n k :
  rect n ts -> (k < n)%nat ->
  zip_with (fun col v => col ++ [v]) (map (take k) ts) (row_of VNull ts k) = map (take (S k)) ts.
Proof.
  intros Hr Hk. induction Hr as [|col ts Hc _ IH]; cbn [map row_of zip_with]; [done|].
  fold (row_of VNull ts k). rewrite IH. f_equal.
  destruct (lookup_lt_is_Some_2 col k) as [v Hv]; [lia|]. rewrite Hv. cbn.
  symmetry. by apply take_S_r.
Qed.

(** The rows written for a rectangle build it again. *)
Lemma from_rows columns (ts : list (list value)) n :
  different columns -> length ts = length columns -> rect n ts ->
  from_named_rows columns (map (fun r => zip columns (row_of VNull ts r)) (seq 0 n)) = (columns, ts).
Proof.
  intros Hd Hl Hr.
  assert (H : forall k, (k <= n)%nat ->
    from_named_rows columns (map (fun r => zip columns (row_of VNull ts r)) (seq 0 k))
    = (columns, map (take k) ts)).
  { induction k as [|k IH]; intros Hk.
    - unfold from_named_rows. cbn. f_equal. clear -Hl. revert ts Hl.
      induction columns as [|c columns IH]; intros [|t ts] Hl; try done. cbn. f_equal. apply IH. by simplify_eq/=.
    - unfold from_named_rows in *. rewrite seq_S, map_app, fold_left_app, IH by lia. cbn.
      rewrite push_row_zip; [|done|by rewrite length_map|by rewrite row_of_length].
      by rewrite (take_row ts n k). }
  rewrite H by done. f_equal. rewrite <- (map_id ts) at 2. apply map_ext_in. intros col Hcol.
  apply take_ge. apply list_elem_of_In in Hcol. by rewrite (proj1 (Forall_forall _ _) Hr col Hcol).
Qed.

Lemma rect_forall2 {A B} (R : A -> B -> Prop) data ts n :
  Forall2 (Forall2 R) data ts -> rect n data -> rect n ts.
Proof.
  induction 1 as [|col t data ts Hct _ IH]; intros Hr; [constructor|].
  apply Forall_cons in Hr as [Hcol Hr]. constructor; [|by apply IH].
  by rewrite <- (Forall2_length _ _ _ Hct).
Qed.

Lemma row_forall2 {A B} (R : A -> B -> Prop) d d' data ts n r :
  Forall2 (Forall2 R) data ts -> rect n data -> (r < n)%nat ->
  Forall2 R (row_of d data r) (row_of d' ts r).
Proof.
  intros H Hr Hn. revert Hr. induction H as [|col t data ts Hct _ IH]; intros Hr; [constructor|].
  apply Forall_cons in Hr as [Hcol Hr]. constructor; [|by apply IH].
  destruct (lookup_lt_is_Some_2 col r) as [c Hcr]; [lia|].
  destruct (Forall2_lookup_l _ _ _ _ _ Hct Hcr) as (v & Hv & Hcv). by rewrite Hcr, Hv.
Qed.

Section Query.
Context (enc' : gvalue -> outcome str (list byte)) (p : reader value).
Context (columns : list str) (data : list (list gvalue)) (ts : list (list value)) (n : nat).
Context (Hd : different columns) (Hl : length data = length columns) (Hr : rect n data).
Context (Hrows : n = data_rows data).
Context (Hc : Forall2 (Forall2 (fun c t => codes enc' p (shown c) t)) data ts).

Lemma query_rect : length ts = length columns /\ rect n ts.
Proof.
  split; [by rewrite <- (Forall2_length _ _ _ Hc)|by eapply rect_forall2].
Qed.

Lemma query_row r : (r < n)%nat ->
  codes (fun r => obind (row_at columns data r) (encode_row enc' columns))
    (read_row p columns []) r (zip columns (row_of VNull ts r)).
Proof.
  intros Hn. destruct query_rect as [Hlt Hrt]. unfold codes.
  rewrite (row_at_ok columns data n r) by done. cbn [obind].
  rewrite encode_row_zip; [|done|by rewrite length_map, row_of_length].
  destruct (enc_all_codes enc' p (map shown (row_of JNull data r)) (row_of VNull ts r)) as (bs & He & Hlen & Hread).
  { apply Forall2_fmap_l. by eapply row_forall2. }
  exists bs. rewrite length_map, row_of_length in *. split_and!; [done| |].
  - etrans; [|exact Hlen]. rewrite Hrows in Hn. clear -Hn. destruct data; cbn in *; lia.
  - apply (reads_meq _ _ _ _ (read_row_meq p columns [])).
    assert (E : fold_left (fun m e => ci_insert e.1 e.2 m) (zip columns (row_of VNull ts r)) []
                = zip columns (row_of VNull ts r)).
    { apply (ci_fold_new _ []). by rewrite fst_zip_eq by by rewrite row_of_length. }
    rewrite Hl in Hread. eapply reads_bind_nil; [exact Hread|]. rewrite E. apply reads_ret.
Qed.

Lemma query_codes :
  Forall text_ok columns -> fits (length columns) -> fits n ->
  exists bs, encode_query enc' columns data = Ok (T_QUERY :: bs)
  /\ reads (st_bind read_len (fun ncols => st_bind (read_n ncols read_text) (fun cols =>
             st_bind read_len (fun nrows => st_bind (read_n nrows (read_row p cols [])) (fun rows =>
             let '(columns, data) := from_named_rows cols rows in st_ret (VQuery columns data))))))
       bs (VQuery columns ts).
Proof.
  intros Hcols Hfc Hfn. destruct query_rect as [Hlt Hrt].
  destruct (enc_all_codes (fun r => obind (row_at columns data r) (encode_row enc' columns))
              (read_row p columns []) (seq 0 n) (map (fun r => zip columns (row_of VNull ts r)) (seq 0 n)))
    as (bs & He & Hlen & Hread).
  { apply Forall2_fmap_r, Forall_Forall2_diag, Forall_forall. intros r Hin%elem_of_seq.
    apply query_row. lia. }
  destruct (enc_all_codes (fun c => Ok (put_bytes (as_bytes c))) read_text columns columns)
    as (cs & Hce & Hclen & Hcread).
  { apply Forall_Forall2_diag. eapply Forall_impl; [exact Hcols|]. intros c [Hv Hf].
    exists (put_bytes (as_bytes c)). split; [reflexivity|]. split; [|by apply reads_text].
    unfold put_bytes. rewrite length_app. pose proof (put_len_pos (length (as_bytes c))). lia. }
  assert (concat (map (fun c => put_bytes (as_bytes c)) columns) = cs) as Hcs.
  { rewrite enc_all_pure in Hce. by injection Hce as <-. }
  unfold encode_query. rewrite <- Hrows, He, Hcs. cbn [omapo obind app].
  eexists. split; [done|]. rewrite <- !app_assoc. rewrite length_seq in *.
  apply reads_len_bind; [done|rewrite length_app; lia|].
  eapply reads_bind; [exact Hcread|]. apply reads_len_bind; [done..|].
  eapply reads_bind_nil; [exact Hread|]. rewrite from_rows by done. apply reads_ret.
Qed.
End Query.

(** ** The round trip *)

Lemma reads_tag {B} (k : byte -> reader B) t bs y :
  reads (k t) bs y -> reads (st_bind read_byte k) (t :: bs) y.
Proof. apply (reads_bind read_byte k [t]), reads_byte. Qed.

(** Choose the decoder's branch for a known tag. *)
Ltac at_tag :=
  cbn [read_value]; apply reads_tag;
  cbv [T_NULL T_FALSE T_TRUE T_INT T_DOUBLE T_TIMESPAN T_STRING T_BINARY T_ARRAY T_STRUCT T_QUERY
       T_DATETIME N.eqb Pos.eqb].

Lemma reads_word (k : list byte -> value) n w t :
  k (to_le n w) = t -> reads (st_bind (fixed n) (fun bs => st_ret (k bs))) (to_le n w) t.
Proof. intros <-. apply reads_bind_ret, reads_fixed, to_le_length. Qed.

Lemma f64_le_of d : f64_ok d -> f64_of_bits (Z.of_N (from_le (f64_le d))) = d.
Proof.
  intros [Hb Hr]%f64_bits_roundtrip. unfold f64_le. rewrite from_to_le.
  - by rewrite Z2N.id by lia.
  - apply N2Z.inj_lt. rewrite Z2N.id by lia. exact (proj2 Hb).
Qed.

Lemma date_back d : date_ok d ->
  from_epoch (word_i64 (from_le (to_le 8 (i64_word (date_secs d)))))
    (Z.of_N (from_le (to_le 4 (Z.to_N (date_nanos d))))) (kind_of_byte (kind_byte (date_class d))) = d.
Proof.
  intros [Hs Hn]. rewrite !from_to_le; [|lia|apply i64_word_bound].
  rewrite word_i64_word, Z2N.id by (done || lia). unfold from_epoch.
  rewrite Z.div_small, Z.mod_small, Z.add_0_r by lia. unfold in_i64, i64_min, i64_max in Hs.
  apply andb_true_iff in Hs as [Hs1%Z.leb_le Hs2%Z.leb_le].
  assert (wrap_i64 (date_secs d) = date_secs d) as ->.
  { unfold wrap_i64. rewrite Z.mod_small; lia. }
  destruct d as [s n []]; done.
Qed.

Section Entries.
Context (h : store) (room : nat).
Context (IH : forall v t, gvalue_ok h v -> loads_as h v t -> (nesting t < room)%nat ->
                codes (enc h room) (read_value room) v t).

Lemma map_codes m ts :
  entries_ok h m -> Forall2 (loads_entry h) m ts -> (nesting (VStruct ts) < S room)%nat ->
  codes (fun _ : gvalue => encode_map (enc h room) m) (read_value (S room)) JNull (VStruct ts).
Proof.
  intros (Hm & Hd & Hf) Hl Hn. cbn [nesting] in Hn. apply level_lt in Hn.
  destruct (enc_all_codes (fun e => omapo (app (put_bytes (as_bytes e.1))) (enc h room e.2))
              (read_entry (read_value room)) m ts) as (bs & He & Hlen & Hread).
  { revert Hm Hn. clear -IH Hl. induction Hl as [|[k v] [k' t] m ts Hkv _ IHl]; intros Hm Hn; [constructor|].
    apply Forall_cons in Hm as [[[Hk Hkf] Hv] Hm]. cbn [map] in Hn. apply Forall_cons in Hn as [Hn1 Hn].
    inversion Hkv; subst. constructor; [|by apply IHl].
    destruct (IH v t) as (bs & He & Hlen & Hread); [done..|]. cbn [fst snd] in *.
    exists (put_bytes (as_bytes k') ++ bs). cbn. rewrite He. split; [done|]. split; [rewrite length_app; lia|].
    eapply reads_bind; [by apply reads_text|]. apply (reads_bind_ret _ (fun v => (k', v))). done. }
  exists (T_STRUCT :: put_len (length m) ++ bs). unfold encode_map. rewrite He. split; [done|].
  split; [cbn; lia|]. at_tag. apply reads_len_bind; [done..|].
  assert (Hk : ts.*1 = m.*1).
  { clear -Hl. induction Hl as [|? ? m ts Hkv _ IHl]; [done|]. cbn. inversion Hkv; subst. by rewrite IHl. }
  eapply reads_bind_nil; [|apply reads_ret]. apply (reads_meq _ _ _ _ (read_entries_meq _ _ [])).
  eapply reads_bind_nil; [exact Hread|]. rewrite (ci_fold_new ts []); [apply reads_ret|]. by rewrite Hk.
Qed.

Lemma array_codes l ts :
  Forall (gvalue_ok h) l -> fits (length l) -> Forall2 (loads_as h) l ts ->
  (nesting (VArray ts) < S room)%nat ->
  codes (fun _ : gvalue => omapo (app (T_ARRAY :: put_len (length l))) (enc_all (enc h room) l))
    (read_value (S room)) JNull (VArray ts).
Proof.
  intros Hok Hf Hl Hn. cbn [nesting] in Hn. apply level_lt in Hn.
  destruct (enc_all_codes (enc h room) (read_value room) l ts) as (bs & He & Hlen & Hread).
  { revert Hok Hn. clear -IH Hl. induction Hl as [|v t l ts Hv _ IHl]; intros Hok Hn; [constructor|].
    apply Forall_cons in Hok as [Hok1 Hok]. cbn [map] in Hn. apply Forall_cons in Hn as [Hn1 Hn].
    constructor; [by apply IH|by apply IHl]. }
  exists (T_ARRAY :: put_len (length l) ++ bs). rewrite He. split; [done|]. split; [cbn; lia|].
  at_tag. apply reads_len_bind; [done..|]. by apply reads_bind_ret.
Qed.

Lemma query_value_codes columns data ts :
  cell_ok h (CQuery columns data) ->
  Forall2 (Forall2 (fun c t => loads_as h (shown c) t)) data ts ->
  (nesting (VQuery columns ts) < S room)%nat ->
  codes (fun _ : gvalue => encode_query (enc h room) columns data) (read_value (S room)) JNull
    (VQuery columns ts).
Proof.
  intros (Hcols & Hd & Hfc & Hl & Hdata & Hfn) Hts Hn. cbn [nesting] in Hn. apply level_lt in Hn.
  destruct (query_codes (enc h room) (read_value room) columns data ts (data_rows data))
    as (bs & He & Hread); [done|done| |done| |done|done|done|].
  { eapply Forall_impl; [exact Hdata|]. by intros col [_ ?]. }
  { clear -IH Hts Hn Hdata. revert Hdata Hn. generalize (data_rows data). intros n.
    induction Hts as [|col t data ts Hct _ IHl]; intros Hdata Hn; [constructor|].
    apply Forall_cons in Hdata as [[Hok _] Hdata]. cbn [map concat] in Hn. apply Forall_app in Hn as [Hn1 Hn].
    constructor; [|by apply IHl]. revert Hok Hn1. clear -IH Hct.
    induction Hct as [|c v col t Hcv _ IHc]; intros Hok Hn; [constructor|].
    apply Forall_cons in Hok as [Hok1 Hok]. cbn [map] in Hn. apply Forall_cons in Hn as [Hn1 Hn].
    constructor; [by apply IH; [apply gvalue_ok_shown|..]|by apply IHc]. }
  exists (T_QUERY :: bs). split; [done|]. split; [cbn; lia|]. at_tag. exact Hread.
Qed.
End Entries.

Lemma enc_codes h room v t :
  store_ok h -> gvalue_ok h v -> loads_as h v t -> (nesting t < room)%nat ->
  codes (enc h room) (read_value room) v t.
Proof.
  intros Hh. revert v t; induction room as [|room IH]; intros v t Hok Hl Hn; [lia|].
  apply gvalue_ok_scalar in Hok. apply loads_scalar in Hl. pose proof (scalar_value_scalar v) as Hs.
  unfold codes. cbn [enc]. revert Hok Hl Hs. generalize (scalar_value v). clear v. intros v Hok Hl Hs.
  assert (Hone : forall x, reads (read_value (S room)) [x] t ->
    exists bs, Ok [x] = Ok (E := str) bs /\ (1 <= length bs)%nat /\ reads (read_value (S room)) bs t)
    by (intros x Hx; exists [x]; split_and!; [done|cbn; lia|done]).
  inversion Hl; subst; try done;
    match goal with
    | |- context [Ok (_ :: _) = Ok _] =>
        first [apply Hone; at_tag; apply reads_ret
              |eexists; split; [reflexivity|]; split; [cbn; lia|]; at_tag]
    | _ => idtac
    end.
  - destruct b; apply Hone; at_tag; apply reads_ret.
  - apply reads_word. f_equal. rewrite from_to_le; [by apply word_i64_word|apply i64_word_bound].
  - apply reads_word. f_equal. by apply f64_le_of.
  - apply reads_word. f_equal. by apply f64_le_of.
  - eapply reads_bind; [apply reads_fixed, to_le_length|].
    eapply reads_bind; [apply reads_fixed, to_le_length|].
    eapply reads_bind_nil; [apply reads_byte|]. rewrite date_back by done. apply reads_ret.
  - destruct Hok. apply reads_bind_ret. by apply reads_text.
  - unfold put_bytes. apply reads_len_bind; [done..|]. apply reads_bind_ret, reads_take.
  - rewrite H. destruct (map_Forall_lookup_1 _ _ _ _ Hh H) as [Hc Hf]. by apply array_codes.
  - rewrite H. pose proof (map_Forall_lookup_1 _ _ _ _ Hh H) as Hc. by apply map_codes.
  - rewrite H, H0. pose proof (map_Forall_lookup_1 _ _ _ _ Hh H0) as Hc. by apply map_codes.
  - rewrite H. pose proof (map_Forall_lookup_1 _ _ _ _ Hh H) as Hc. by apply query_value_codes.
Qed.

(** ** What cannot be saved is refused *)

Definition fails {A} (f : A -> outcome str (list byte)) (x : A) : Prop := exists e, f x = Err e.

Lemma Forall_or_Exists {A} (P Q : A -> Prop) l :
  Forall (fun x => P x \/ Q x) l -> Exists P l \/ Forall Q l.
Proof.
  induction 1 as [|x l [H|H] _ [IH|IH]]; [right; constructor|left; by constructor..| |].
  - left. by apply Exists_cons_tl.
  - right. by constructor.
Qed.

Lemma enc_all_fails {A} (f : A -> outcome str (list byte)) l :
  Forall (fun x => f x <> Panic) l -> Exists (fails f) l -> exists e, enc_all f l = Err e.
Proof.
  intros Hp He. revert Hp. induction He as [x l [e He]|x l _ IH]; intros Hp; cbn.
  - exists e. by rewrite He.
  - apply Forall_cons in Hp as [Hx Hp]. destruct (IH Hp) as [e He].
    destruct (f x) as [bs|e'|]; cbn; [rewrite He; by exists e|by exists e'|done].
Qed.

Lemma enc_all_no_panic {A} (f : A -> outcome str (list byte)) l :
  Forall (fun x => f x <> Panic) l -> enc_all f l <> Panic.
Proof.
  induction 1 as [|x l Hx _ IH]; cbn; [done|]. destruct (f x); cbn; [|done..].
  by destruct (enc_all f l).
Qed.

Lemma omapo_fails {A} (g : A -> A) (m : outcome str A) e : m = Err e -> omapo g m = Err e.
Proof. by intros ->. Qed.

Section Refused.
Context (h : store) (room : nat) (Hh : store_ok h).

(** [v] is refused, or loads as a tree that fits in the room. *)
Definition settled (room : nat) (v : gvalue) : Prop :=
  fails (enc h room) v \/ exists t, loads_as h v t /\ (nesting t < room)%nat.

Context (IH : forall v, gvalue_ok h v -> settled room v).

Lemma settled_no_panic v : gvalue_ok h v -> enc h room v <> Panic.
Proof.
  intros Hok. destruct (IH v Hok) as [[e ->]|(t & Hl & Hn)]; [done|].
  by destruct (enc_codes h room v t Hh Hok Hl Hn) as (bs & -> & _).
Qed.

(** The trees of items that load. *)
Lemma items_load l :
  Forall (fun v => exists t, loads_as h v t /\ (nesting t < room)%nat) l ->
  exists ts, Forall2 (loads_as h) l ts /\ Forall (fun n => n < room)%nat (map nesting ts).
Proof.
  induction 1 as [|v l (t & Hl & Hn) _ (ts & Hls & Hns)]; [by exists []|].
  exists (t :: ts). split; by constructor.
Qed.

Lemma array_settled l :
  Forall (gvalue_ok h) l ->
  (exists e, enc_all (enc h room) l = Err e)
  \/ exists ts, Forall2 (loads_as h) l ts /\ (nesting (VArray ts) < S room)%nat.
Proof.
  intros Hok. destruct (Forall_or_Exists (fails (enc h room))
    (fun v => exists t, loads_as h v t /\ (nesting t < room)%nat) l) as [He|Ha].
  - eapply Forall_impl; [exact Hok|]. apply IH.
  - left. apply enc_all_fails; [|done]. eapply Forall_impl; [exact Hok|]. apply settled_no_panic.
  - right. destruct (items_load l Ha) as (ts & Hts & Hns). exists ts. split; [done|]. by apply level_lt.
Qed.

Lemma map_settled m :
  entries_ok h m ->
  (exists e, encode_map (enc h room) m = Err e)
  \/ exists ts, Forall2 (loads_entry h) m ts /\ (nesting (VStruct ts) < S room)%nat.
Proof.
  intros (Hm & _ & _).
  assert (Hv : Forall (gvalue_ok h) m.*2).
  { apply Forall_fmap. eapply Forall_impl; [exact Hm|]. by intros e [_ ?]. }
  destruct (Forall_or_Exists (fun e => fails (enc h room) e.2)
    (fun e => exists t, loads_as h e.2 t /\ (nesting t < room)%nat) m) as [He|Ha].
  - eapply Forall_impl; [exact Hm|]. intros e [_ He]. by apply IH.
  - left. destruct (enc_all_fails (fun e => omapo (app (put_bytes (as_bytes e.1))) (enc h room e.2)) m) as [e He'].
    + eapply Forall_impl; [exact Hm|]. intros e [_ Hok%settled_no_panic]. by destruct (enc h room e.2).
    + eapply Exists_impl; [exact He|]. intros e [err Herr]. exists err. by apply omapo_fails.
    + exists e. by apply omapo_fails.
  - right. assert (H : exists ts, Forall2 (loads_entry h) m ts
      /\ Forall (fun n => n < room)%nat (map (fun e => nesting e.2) ts)).
    { clear -Ha. induction Ha as [|[k v] m (t & Hl & Hn) _ (ts & Hls & Hns)]; [by exists []|].
      exists ((k, t) :: ts). split; constructor; done. }
    destruct H as (ts & Hts & Hns). exists ts. split; [done|]. by apply level_lt.
Qed.

Lemma query_settled columns data :
  cell_ok h (CQuery columns data) ->
  (exists e, encode_query (enc h room) columns data = Err e)
  \/ exists ts, Forall2 (Forall2 (fun c t => loads_as h (shown c) t)) data ts
                /\ (nesting (VQuery columns ts) < S room)%nat.
Proof.
  intros (Hcols & Hd & Hfc & Hl & Hdata & Hfn).
  assert (Hr : rect (data_rows data) data) by (eapply Forall_impl; [exact Hdata|]; by intros col [_ ?]).
  assert (Hok : Forall (Forall (fun c => gvalue_ok h (shown c))) data).
  { eapply Forall_impl; [exact Hdata|]. intros col [Hc _].
    eapply Forall_impl; [exact Hc|]. apply gvalue_ok_shown. }
  destruct (Forall_or_Exists (Exists (fun c => fails (enc h room) (shown c)))
    (Forall (fun c => exists t, loads_as h (shown c) t /\ (nesting t < room)%nat)) data) as [He|Ha].
  - eapply Forall_impl; [exact Hok|]. intros col Hc. apply Forall_or_Exists.
    eapply Forall_impl; [exact Hc|]. intros c. apply IH.
  - left. apply Exists_exists in He as (col & Hcol & He). apply Exists_exists in He as (c & Hc & He).
    apply list_elem_of_lookup in Hc as [r Hc].
    assert (Hrn : (r < data_rows data)%nat).
    { apply lookup_lt_Some in Hc. by rewrite (proj1 (Forall_forall _ _) Hr col Hcol) in Hc. }
    assert (Hrow : forall r, (r < data_rows data)%nat ->
      obind (row_at columns data r) (encode_row (enc h room) columns)
      = enc_all (enc h room) (map shown (row_of JNull data r))
      /\ Forall (fun v => enc h room v <> Panic) (map shown (row_of JNull data r))).
    { intros r' Hr'. rewrite (row_at_ok columns data (data_rows data) r') by done. cbn [obind].
      split; [apply encode_row_zip; [done|by rewrite length_map, row_of_length]|].
      apply Forall_fmap, Forall_fmap. eapply Forall_impl; [exact Hdata|]. intros col' [Hc' Hl'].
      destruct (lookup_lt_is_Some_2 col' r') as [c' Hc'r]; [lia|]. unfold compose. rewrite Hc'r. cbn.
      apply settled_no_panic, gvalue_ok_shown.
      by apply (proj1 (Forall_forall _ _) Hc'), list_elem_of_lookup_2 with r'. }
    destruct (enc_all_fails (fun r => obind (row_at columns data r) (encode_row (enc h room) columns))
                (seq 0 (data_rows data))) as [e He'].
    + apply Forall_forall. intros r' Hr'%elem_of_seq. destruct (Hrow r') as [-> Hnp]; [lia|].
      by apply enc_all_no_panic.
    + apply Exists_exists. exists r. split; [apply elem_of_seq; lia|].
      destruct (Hrow r Hrn) as [E Hnp]. unfold fails. rewrite E. apply enc_all_fails; [done|].
      apply Exists_exists. exists (shown c). split; [|done].
      apply list_elem_of_fmap. exists c. split; [done|]. apply list_elem_of_fmap. exists col. by rewrite Hc.
    + exists e. by apply omapo_fails.
  - right. assert (H : exists ts, Forall2 (Forall2 (fun c t => loads_as h (shown c) t)) data ts
      /\ Forall (fun n => n < room)%nat (concat (map (map nesting) ts))).
    { clear -Ha. induction Ha as [|col data Hcol _ (ts & Hls & Hns)]; [by exists []|].
      destruct (items_load (map shown col)) as (t & Ht & Hn); [by apply Forall_fmap|].
      exists (t :: ts). split; [constructor; [exact (proj1 (Forall2_fmap_l shown _ _ _) Ht)|done]|].
      cbn. by apply Forall_app. }
    destruct H as (ts & Hts & Hns). exists ts. split; [done|]. by apply level_lt.
Qed.
End Refused.

Lemma enc_settled h room v : store_ok h -> gvalue_ok h v -> settled h room v.
Proof.
  intros Hh. revert v; induction room as [|room IH]; intros v Hok; [left; by eexists|].
  unfold settled, fails. cbn [enc]. apply gvalue_ok_scalar in Hok.
  pose proof (scalar_value_scalar v) as Hs. setoid_rewrite (loads_scalar h v).
  revert Hok Hs. generalize (scalar_value v). clear v. intros v Hok Hs.
  assert (Hleaf : forall t, loads_as h v t -> nesting t = O ->
    exists t, loads_as h v t /\ (nesting t < S room)%nat) 
    by (intros t Hl Hn; exists t; rewrite Hn; split; [done|lia]).
  destruct v; try done; cbn in Hok; try (right; eapply Hleaf; [constructor|done]).
  - destruct Hok as [l Hl]. rewrite Hl. destruct (map_Forall_lookup_1 _ _ _ _ Hh Hl) as [Hc _].
    destruct (array_settled h room Hh IH l Hc) as [[e He]|(ts & Hts & Hn)].
    + left. exists e. by apply omapo_fails.
    + right. exists (VArray ts). split; [by eapply load_array|done].
  - destruct Hok as [m Hm]. rewrite Hm. pose proof (map_Forall_lookup_1 _ _ _ _ Hh Hm) as Hc.
    destruct (map_settled h room Hh IH m Hc) as [He|(ts & Hts & Hn)]; [by left|].
    right. exists (VStruct ts). split; [by eapply load_struct|done].
  - destruct Hok as (columns & data & Hq). rewrite Hq. pose proof (map_Forall_lookup_1 _ _ _ _ Hh Hq) as Hc.
    destruct (query_settled h room Hh IH columns data Hc) as [He|(ts & Hts & Hn)]; [by left|].
    right. exists (VQuery columns ts). split; [by eapply load_query|done].
  - destruct Hok as (n & q & Hq). rewrite Hq. destruct (map_Forall_lookup_1 _ _ _ _ Hh Hq) as [m Hm]. rewrite Hm.
    pose proof (map_Forall_lookup_1 _ _ _ _ Hh Hm) as Hc.
    destruct (map_settled h room Hh IH m Hc) as [He|(ts & Hts & Hn)]; [by left|].
    right. exists (VStruct ts). split; [by eapply load_instance|done].
Qed.

Lemma decode_encode h v t :
  store_ok h -> gvalue_ok h v -> loads_as h v t -> (nesting t <= MAX_DEPTH)%nat ->
  exists bs, encode h v = Ok bs /\ decode bs = Ok t.
Proof.
  intros Hh Hok Hl Hn.
  destruct (enc_codes h (S MAX_DEPTH) v t Hh Hok Hl) as (bs & He & _ & Hread); [lia|].
  exists bs. split; [done|]. unfold decode. specialize (Hread []). rewrite app_nil_r in Hread.
  rewrite Hread. by rewrite decide_True.
Qed.

Lemma strip_magic_app p bs : strip_magic p (p ++ bs) = Some bs.
Proof. induction p as [|x p IH]; cbn; [done|]. by rewrite N.eqb_refl. Qed.

(** C2. What is saved is what is loaded.  On a well-formed graph, [objectSave]
    of a value whose tree nests at most [MAX_DEPTH] levels gives bytes from which
    [objectLoad] reads that tree; and a value nested deeper, or without end
    because it contains itself, is refused with an error. *)
Theorem object_roundtrip from_json h v :
  store_ok h -> gvalue_ok h v ->
  (forall t, loads_as h v t -> (nesting t <= MAX_DEPTH)%nat ->
     exists bs, fn_object_save h [v] = Ok bs /\ object_load_bytes from_json bs = Ok t)
  /\ ((forall t, loads_as h v t -> (MAX_DEPTH < nesting t)%nat) ->
     exists e, fn_object_save h [v] = Err e).
Proof.
  intros Hh Hok. split.
  - intros t Hl Hn. destruct (decode_encode h v t Hh Hok Hl Hn) as (bs & He & Hd).
    exists (OBJECT_SAVE_MAGIC_V2 ++ bs). unfold fn_object_save.
    change (default JNull (head [v])) with v. rewrite He.
    split; [done|]. unfold object_load_bytes. by rewrite strip_magic_app, Hd.
  - intros Hdeep. unfold fn_object_save, encode.
    change (default JNull (head [v])) with v.
    destruct (enc_settled h (S MAX_DEPTH) v Hh Hok) as [[e ->]|(t & Hl & Hn)]; [by eexists|].
    apply Hdeep in Hl. lia.
Qed.

(** A value that contains itself loads as no tree. *)
Lemma contains_itself h p l t :
  h !! p = Some (CArray l) -> JArray p ∈ l -> ~ loads_as h (JArray p) t.
Proof.
  intros Hp Hin. remember (nesting t) as n eqn:Hn. revert t Hn.
  induction n as [n IH] using lt_wf_ind. intros t -> Hl. inversion Hl as [| | | | | | | | |p' l' ts Hp' Hts| | | | | | |]; subst.
  rewrite Hp in Hp'. simplify_eq. apply list_elem_of_lookup in Hin as [i Hi].
  destruct (Forall2_lookup_l _ _ _ _ _ Hts Hi) as (t & Ht & Hlt).
  refine (IH (nesting t) _ t eq_refl Hlt).
  assert (Hall : Forall (fun m => m < nesting (VArray ts))%nat (map nesting ts)).
  { apply level_lt. cbn [nesting]. lia. }
  apply (proj1 (Forall_forall _ _) Hall). apply list_elem_of_fmap_2. by eapply list_elem_of_lookup_2.
Qed.

(** ** What the decoder accepts *)

(** A value the engine may hold. *)
Inductive value_ok : value -> Prop :=
  | ok_null : value_ok VNull
  | ok_bool b : value_ok (VBool b)
  | ok_int i : in_i64 i = true -> value_ok (VInt i)
  | ok_double d : f64_ok d -> value_ok (VDouble d)
  | ok_time_span d : f64_ok d -> value_ok (VTimeSpan d)
  | ok_date d : date_ok d -> value_ok (VDateTime d)
  | ok_string s : valid_str s = true -> value_ok (VString s)
  | ok_binary bs : value_ok (VBinary bs)
  | ok_array l : Forall value_ok l -> value_ok (VArray l)
  | ok_struct m :
      Forall (fun e => valid_str e.1 = true /\ value_ok e.2) m -> ci_distinct m -> value_ok (VStruct m)
  | ok_query columns data n :
      Forall (fun c => valid_str c = true) columns -> length data = length columns -> rect n data ->
      Forall (Forall value_ok) data -> value_ok (VQuery columns data).

(** A reader that never panics, whose results satisfy [P], and that does not
    look beyond what it takes. *)
Record good {A} (p : reader A) (P : A -> Prop) : Prop := {
  good_safe b : match (p b).2 with Ok x => P x | Err _ => True | Panic => False end;
  good_local b rest x ext : p b = (rest, Ok x) -> p (b ++ ext) = (rest ++ ext, Ok x)
}.

Lemma good_ret {A} (x : A) (P : A -> Prop) : P x -> good (st_ret x) P.
Proof. intros Hx. split; [done|]. by intros b rest y ext [= <- <-]. Qed.

Lemma good_err {A} e (P : A -> Prop) : good (st_err e) P.
Proof. by split. Qed.

Lemma good_lift {A} (o : outcome str A) (P : A -> Prop) :
  match o with Ok x => P x | Err _ => True | Panic => False end -> good (st_lift o) P.
Proof. intros Ho. split; [by intros b|]. by intros b rest x ext [= <- ->]. Qed.

Lemma good_bind {A B} (p : reader A) (k : A -> reader B) P Q :
  good p P -> (forall x, P x -> good (k x) Q) -> good (st_bind p k) Q.
Proof.
  intros [Hp Hpl] Hk. split.
  - intros b. specialize (Hp b). unfold st_bind. destruct (p b) as [b' [x| |]]; [|done..].
    apply (Hk x Hp).
  - intros b rest y ext. specialize (Hp b). unfold st_bind.
    destruct (p b) as [b' [x| |]] eqn:E; [|done..]. rewrite (Hpl _ _ _ ext E).
    apply (good_local _ _ (Hk x Hp)).
Qed.

Lemma good_impl {A} (p : reader A) (P Q : A -> Prop) : good p P -> (forall x, P x -> Q x) -> good p Q.
Proof.
  intros [Hp Hl] H. split; [|done]. intros b. specialize (Hp b). destruct (p b).2; auto.
Qed.

Lemma good_take n : good (take_bytes n) (fun bs => length bs = n).
Proof.
  split.
  - intros b. unfold take_bytes. case_decide; [|done]. cbn. rewrite length_take. lia.
  - intros b rest x ext. unfold take_bytes. case_decide as Hn; [|done]. intros [= <- <-].
    rewrite decide_True by (rewrite length_app; lia).
    by rewrite drop_app_le, take_app_le by lia.
Qed.

Lemma good_byte : good read_byte (fun _ => True).
Proof.
  eapply good_bind; [apply good_take|]. intros [|b [|]] H; try done. by apply good_ret.
Qed.

Lemma good_fixed n : good (fixed n) (fun _ => True).
Proof.
  eapply good_bind; [apply good_take|]. intros bs H. rewrite decide_True by done. by apply good_ret.
Qed.

Lemma good_len_go groups s n : good (read_len_go groups s n) (fun _ => True).
Proof.
  revert s n; induction groups as [|groups IH]; intros s n; cbn [read_len_go]; [apply good_err|].
  eapply good_bind; [apply good_byte|]. intros b _. cbv zeta. case_match; [|apply IH].
  set (m := N.lor _ _). split.
  - intros rest. by destruct (m <=? N.of_nat (length rest)).
  - intros b' rest x ext. destruct (N.leb_spec m (N.of_nat (length b'))); [|done]. intros [= <- <-].
    rewrite (proj2 (N.leb_le _ _)); [done|]. rewrite length_app. lia.
Qed.

Lemma good_len : good read_len (fun _ => True).
Proof. apply good_len_go. Qed.

Lemma good_text : good read_text (fun s => valid_str s = true).
Proof.
  eapply good_bind; [apply good_len|]. intros n _. eapply good_bind; [apply good_take|].
  intros bs _. apply good_lift. destruct (from_utf8 bs) as [s|] eqn:E; cbn; [|done].
  by apply (from_utf8_valid bs).
Qed.

Lemma good_n {A} n (p : reader A) P : good p P -> good (read_n n p) (Forall P).
Proof.
  intros Hp. induction n as [|n IH]; cbn [read_n]; [by apply good_ret|].
  eapply good_bind; [exact Hp|]. intros x Hx. eapply good_bind; [exact IH|]. intros xs Hxs.
  by apply good_ret; constructor.
Qed.

(** *** Entries and rows *)

Definition entries_good (P : value -> Prop) (m : list (str * value)) : Prop :=
  Forall (fun e => valid_str e.1 = true /\ P e.2) m /\ ci_distinct m.

Lemma ci_insert_good P k v m :
  valid_str k = true -> P v -> entries_good P m -> entries_good P (ci_insert k v m).
Proof.
  intros Hk Hv [Hm Hd]. split; [|by apply ci_insert_distinct]. unfold ci_insert, entry_insert.
  destruct (entry_get _ m); [|by apply Forall_app; split; [|repeat constructor]].
  clear Hd. induction Hm as [|[k' w] m [Hk' Hw] Hm IH]; cbn; [constructor|].
  case_match; by repeat constructor.
Qed.

Lemma good_entries f P n m :
  good f P -> entries_good P m -> good (read_entries f n m) (entries_good P).
Proof.
  intros Hf. revert m; induction n as [|n IH]; intros m Hm; cbn [read_entries]; [by apply good_ret|].
  eapply good_bind; [apply good_text|]. intros k Hk. eapply good_bind; [exact Hf|]. intros v Hv.
  by apply IH, ci_insert_good.
Qed.

(** A row that has a cell for each of the columns and no other. *)
Definition row_good (P : value -> Prop) (cols : list str) (row : list (str * value)) : Prop :=
  entries_good P row /\ (forall c, c ∈ cols -> is_Some (ci_get c row))
  /\ forall k, k ∈ row.*1 -> existsb (fun c => eq_ignore_ascii_case c k) cols = true.

Lemma ci_insert_keys {V} k (v : V) m x : x ∈ (ci_insert k v m).*1 -> x ∈ m.*1 \/ x = k.
Proof.
  unfold ci_insert, entry_insert. destruct (entry_get _ m); [rewrite entry_set_keys; auto|].
  rewrite fmap_app, elem_of_app. cbn. rewrite list_elem_of_singleton. tauto.
Qed.

Lemma good_row f P all cols row :
  good f P -> Forall (fun c => valid_str c = true) all -> cols ⊆ all ->
  entries_good P row -> (forall c, c ∈ all -> c ∈ cols \/ is_Some (ci_get c row)) ->
  (forall k, k ∈ row.*1 -> k ∈ all) ->
  good (read_row f cols row) (row_good P all).
Proof.
  intros Hf Hall. revert row; induction cols as [|c cols IH]; intros row Hsub Hrow Hget Hkeys; cbn [read_row].
  - apply good_ret. split_and!; [done| |].
    + intros c Hc. destruct (Hget c Hc) as [H|]; [by apply not_elem_of_nil in H|done].
    + intros k Hk. apply existsb_exists. exists k.
      split; [by apply list_elem_of_In, Hkeys|apply eq_ignore_ascii_case_refl].
  - eapply good_bind; [exact Hf|]. intros v Hv.
    assert (Hc : c ∈ all) by (apply Hsub; left). apply IH.
    + intros x Hx. apply Hsub. by right.
    + apply ci_insert_good; [|done..]. by apply (proj1 (Forall_forall _ _) Hall).
    + intros x Hx. rewrite ci_get_insert. destruct (eq_ignore_ascii_case c x) eqn:E; [right; by eexists|].
      destruct (Hget x Hx) as [[->|?]%elem_of_cons|]; [|by left|by right].
      by rewrite eq_ignore_ascii_case_refl in E.
    + intros k Hk. apply ci_insert_keys in Hk as [Hk| ->]; [auto|done].
Qed.

(** The data of the columns [cols]: all columns of one length. *)
Definition data_good (P : value -> Prop) (cols : list str) (data : list (list value)) : Prop :=
  length data = length cols /\ Forall (Forall P) data /\ exists n, rect n data.

Lemma ci_get_good P c row v : entries_good P row -> ci_get c row = Some v -> P v.
Proof.
  intros [Hrow _]. unfold ci_get. induction Hrow as [|[k w] row [_ Hv] _ IH]; [done|].
  rewrite entry_get_cons. case_match; [by intros [= <-]|done].
Qed.

Lemma push_row_good P cols data row :
  row_good P cols row -> data_good P cols data ->
  exists data', push_row_named row (cols, data) = (cols, data') /\ data_good P cols data'.
Proof.
  intros (Hrow & Hget & Hkeys) (Hl & Hd & n & Hn). unfold push_row_named.
  rewrite add_columns_known by done. eexists. split; [done|]. split_and!.
  - rewrite length_zip_with. lia.
  - clear -Hrow Hget Hd. revert data Hd. induction cols as [|c cols IH]; intros [|col data] Hd; try constructor.
    + apply Forall_cons in Hd as [Hd _]. apply Forall_app. split; [done|]. constructor; [|constructor].
      destruct (Hget c) as [v Hv]; [left|]. rewrite Hv. by apply (ci_get_good P c row).
    + apply IH; [|by apply Forall_cons in Hd as [_ ?]]. intros x Hx. apply Hget. by right.
  - exists (S n). clear -Hn. revert data Hn. induction cols as [|c cols IH]; intros [|col data] Hn; try constructor.
    + apply Forall_cons in Hn as [Hn _]. rewrite length_app. cbn. lia.
    + apply IH. by apply Forall_cons in Hn as [_ ?].
Qed.

Lemma from_rows_good P cols rows :
  Forall (row_good P cols) rows ->
  exists data, from_named_rows cols rows = (cols, data) /\ data_good P cols data.
Proof.
  intros Hrows. unfold from_named_rows.
  assert (H : data_good P cols (map (fun _ => []) cols)).
  { split_and!; [by rewrite length_map| |exists O]; apply Forall_fmap, Forall_true; [constructor|done]. }
  revert H. generalize (map (fun _ : str => [] : list value) cols).
  induction Hrows as [|row rows Hrow _ IH]; intros data Hq; cbn [fold_left]; [by exists data|].
  destruct (push_row_good P cols data row Hrow Hq) as (data' & -> & Hq'). by apply IH.
Qed.

Lemma wrap_in_i64 z : in_i64 (wrap_i64 z) = true.
Proof.
  unfold wrap_i64, in_i64, i64_min, i64_max. pose proof (Z.mod_pos_bound (z + 2 ^ 63) (2 ^ 64) ltac:(lia)).
  apply andb_true_iff. rewrite !Z.leb_le. lia.
Qed.

Lemma from_epoch_ok s n k : date_ok (from_epoch s n k).
Proof.
  split; cbn; [apply wrap_in_i64|]. apply Z.mod_pos_bound. lia.
Qed.

(** Well-formed values that fit in the room. *)
Definition fitting (room : nat) (t : value) : Prop := value_ok t /\ (nesting t < room)%nat.

Lemma Forall_fitting room l :
  Forall (fitting room) l -> Forall value_ok l /\ Forall (fun n => n < room)%nat (map nesting l).
Proof. intros H. split; [|apply Forall_fmap]; (eapply Forall_impl; [exact H|]); by intros t []. Qed.

Lemma struct_fitting room m : entries_good (fitting room) m -> fitting (S room) (VStruct m).
Proof.
  intros [Hm Hd]. split.
  - constructor; [|done]. eapply Forall_impl; [exact Hm|]. intros e [? [? _]]. done.
  - cbn [nesting]. apply level_lt, Forall_fmap. eapply Forall_impl; [exact Hm|]. by intros e [_ [_ ?]].
Qed.

Lemma query_fitting room cols data :
  Forall (fun c => valid_str c = true) cols -> data_good (fitting room) cols data ->
  fitting (S room) (VQuery cols data).
Proof.
  intros Hc (Hl & Hd & n & Hn). split.
  - apply (ok_query _ _ n); [done..|]. eapply Forall_impl; [exact Hd|]. intros col Hcol.
    by apply Forall_fitting in Hcol as [? _].
  - cbn [nesting]. apply level_lt. apply Forall_concat, Forall_fmap. eapply Forall_impl; [exact Hd|].
    intros col Hcol. by apply Forall_fitting in Hcol as [_ ?].
Qed.

Lemma good_value room : good (read_value room) (fitting room).
Proof.
  induction room as [|room IH]; cbn [read_value]; [apply good_err|].
  assert (Hleaf : forall t, value_ok t -> nesting t = O -> good (st_ret t) (fitting (S room))).
  { intros t Ht Hn. apply good_ret. split; [done|]. rewrite Hn. lia. }
  assert (Hnull : fitting (S room) VNull) by (split; [constructor|cbn; lia]).
  eapply good_bind; [apply good_byte|]. intros t _.
  repeat case_match; try (apply Hleaf; [constructor|done]); try apply good_err.
  - eapply good_bind; [apply good_fixed|]. intros bs _. apply Hleaf; [|done]. constructor. apply wrap_in_i64.
  - eapply good_bind; [apply good_fixed|]. intros bs _. apply Hleaf; [|done]. constructor. apply f64_of_bits_ok.
  - eapply good_bind; [apply good_fixed|]. intros bs _. apply Hleaf; [|done]. constructor. apply f64_of_bits_ok.
  - eapply good_bind; [apply good_text|]. intros s Hs. apply Hleaf; [by constructor|done].
  - eapply good_bind; [apply good_len|]. intros n _. eapply good_bind; [apply good_take|].
    intros bs _. apply Hleaf; [constructor|done].
  - eapply good_bind; [apply good_len|]. intros n _. eapply good_bind; [apply good_n, IH|].
    intros l [Hl Hn]%Forall_fitting. apply good_ret. split; [by constructor|]. cbn [nesting]. by apply level_lt.
  - eapply good_bind; [apply good_len|]. intros n _.
    eapply good_bind; [apply good_entries; [exact IH|by split; constructor]|].
    intros m Hm. apply good_ret. by apply struct_fitting.
  - eapply good_bind; [apply good_len|]. intros ncols _. eapply good_bind; [apply good_n, good_text|].
    intros cols Hcols. eapply good_bind; [apply good_len|]. intros nrows _.
    eapply good_bind.
    { apply good_n, (good_row _ (fitting room) cols cols []); [exact IH|done|done|by split; constructor|auto|].
      by intros k Hk%not_elem_of_nil. }
    intros rows Hrows. destruct (from_rows_good (fitting room) cols rows Hrows) as (data & -> & Hd).
    apply good_ret. by apply query_fitting.
  - eapply good_bind; [apply good_fixed|]. intros s _. eapply good_bind; [apply good_fixed|]. intros n _.
    eapply good_bind; [apply good_byte|]. intros k _. apply Hleaf; [|done]. constructor. apply from_epoch_ok.
Qed.

(** C28. The decoder is safe on any bytes.  It returns a value or an error and
    never panics; a value it returns is well formed (texts of scalar values,
    numbers and dates in range, structs with different keys, queries with
    columns of one length) and nests at most [MAX_DEPTH] levels; and no proper
    prefix and no proper extension of bytes it accepts is accepted. *)
Theorem decode_safe bytes :
  match decode bytes with
  | Ok t => value_ok t /\ (nesting t <= MAX_DEPTH)%nat
            /\ (forall b ext, exists e, decode (bytes ++ b :: ext) = Err e)
            /\ (forall p b ext, bytes = p ++ b :: ext -> exists e, decode p = Err e)
  | Err _ => True
  | Panic => False
  end.
Proof.
  assert (Hne : forall p t b ext, decode p = Ok t -> exists e, decode (p ++ b :: ext) = Err e).
  { intros p t b ext. unfold decode. destruct (read_value _ p) as [rest [v|e|]] eqn:E; try done.
    rewrite (good_local _ _ (good_value _) _ _ _ (b :: ext) E). case_decide; [|done]. subst rest.
    intros _. rewrite decide_False by done. by eexists. }
  assert (Hnp : forall p, decode p <> Panic).
  { intros p. unfold decode. pose proof (good_safe _ _ (good_value (S MAX_DEPTH)) p) as H.
    destruct (read_value _ p) as [rest [v|e|]]; try done. by case_decide. }
  destruct (decode bytes) as [t|e|] eqn:E; [|done|by destruct (Hnp bytes)].
  assert (Hok : fitting (S MAX_DEPTH) t).
  { unfold decode in E. pose proof (good_safe _ _ (good_value (S MAX_DEPTH)) bytes) as H.
    destruct (read_value _ bytes) as [rest [v|?|]]; try done. case_decide; by simplify_eq. }
  destruct Hok as [Hok Hn]. split_and!; [done|lia|by intros; eapply Hne|].
  intros p b ext ->. destruct (decode p) as [t'|e|] eqn:E'; [|by eexists|by destruct (Hnp p)].
  destruct (Hne p t' b ext E') as [e He]. by rewrite He in E.
Qed.

(** A date whose nanoseconds carry beyond the last second of an [i64] wraps to
    the distant past. *)
Lemma date_overflow :
  decode (T_DATETIME :: to_le 8 (i64_word i64_max) ++ to_le 4 1000000000 ++ [0])
  = Ok (VDateTime (mk_date i64_min 0 KDateTime)).
Proof. by vm_compute. Qed.

(** A NULL cell of a query comes back as the empty string. *)
Lemma null_cell_lost :
  let h : store := {[ 1 := CQuery [lit "a"] [[JNull]] ]} in
  exists bs, encode h (JQuery 1) = Ok bs /\ decode bs = Ok (VQuery [lit "a"] [[VString []]]).
Proof. cbv zeta. eexists. split; [vm_compute; reflexivity|]. by vm_compute. Qed.
