(* ===== verification/CommonWitnesses.v ===== *)
(** * CommonWitnesses: the theorems on keys, maps and the codec applied

    An instance of the [indexmap] interface, and the theorems of [Keys],
    [ValueMap] and [ObjCodecFacts] at concrete inputs. *)

From stdpp Require Import base list numbers strings gmap relations.
From S2P Require Import Prelude Text Float64 Value Bytes Keys ValueMap ObjCodec ObjCodecFacts.

(** ** Ordered maps as lists *)

#[export] Instance list_index_map V : IndexMap V := {
  imap := list (key * V);
  im_entries m := m;
  im_new := [];
  im_get r m := entry_get (equivalent r) m;
  im_index_of r m := position (fun p => equivalent r p.1) m;
  im_set r v m := entry_set (equivalent r) v m;
  im_insert k v m := (entry_get (key_eq k) m, entry_insert (key_eq k) k v m);
  im_shift_remove r m := (entry_get (equivalent r) m, entry_remove (equivalent r) m);
  im_swap_remove r m := (entry_get (equivalent r) m, entry_swap_remove (equivalent r) m);
  im_new_entries := eq_refl;
  im_get_entries r m := eq_refl;
  im_index_entries r m := eq_refl;
  im_set_entries r v m := eq_refl;
  im_insert_entries k v m := conj eq_refl eq_refl;
  im_shift_entries r m := conj eq_refl eq_refl;
  im_swap_entries r m := conj eq_refl eq_refl
}.

(** ** Two keys of one name *)

Definition two_keys : interner * (key * key) :=
  let '(a, t) := key_new 8 (lit "FirstName") empty_interner in
  let '(b, t) := to_key (key_ref_new (lit "firstname")) t in
  (t, (a, b)).

Definition key_a : key := Eval vm_compute in two_keys.2.1.
Definition key_b : key := Eval vm_compute in two_keys.2.2.
Definition table : interner := two_keys.1.

Lemma two_keys_reachable : rtc (key_step 8) (empty_interner, []) (table, [key_b; key_a]).
Proof.
  eapply rtc_l; [eapply (step_enter 8 (lit "FirstName")); vm_compute; reflexivity|].
  eapply rtc_l; [eapply (step_push 8 0); vm_compute; reflexivity|].
  eapply rtc_l; [eapply (step_to_key 8 (lit "firstname")); vm_compute; reflexivity|].
  vm_compute. apply rtc_refl.
Qed.

Lemma key_identity_witness : key_eq key_a key_b = true /\ key_cmp key_a key_b = Eq.
Proof.
  pose proof (key_identity 8 table [key_b; key_a] two_keys_reachable key_a key_b) as H.
  cbv zeta in H. destruct H as (H1 & _ & _ & H2 & _); [right; left|left|].
  split; [rewrite H1|apply H2]; vm_compute; reflexivity.
Defined.

Lemma interner_invariant_witness :
  in_count table = 1%N
  /\ forall h a, a ∈ bucket h table -> (N.of_nat (length (as_bytes (arc_text a))) <= 128)%N ->
       intern 8 (arc_text a) table = (a, table).
Proof.
  pose proof (interner_invariant 8 table [key_b; key_a] two_keys_reachable) as (_ & _ & _ & _ & H).
  split; [vm_compute; reflexivity|]. intros h a Ha Hl. by apply (H h).
Defined.

(** ** A map with one entry *)

Definition one_entry : value_map (V := Z) := ValueMap [(key_a, 5%Z)] 1.

Lemma one_entry_ok : map_ok 8 table [key_b; key_a] one_entry.
Proof.
  split; [apply key_inv_steps, two_keys_reachable|vm_compute; reflexivity| |].
  - intros p ->%list_elem_of_singleton. right. left.
  - unfold ci_distinct. cbn. apply NoDup_singleton.
Qed.

Lemma value_map_refines_witness :
  names (vm_insert 8 (FromStr (lit "FIRSTNAME")) 7%Z one_entry table).1.2 = [(lit "FirstName", 7%Z)].
Proof.
  pose proof (value_map_refines 8 table [key_b; key_a] (FromStr (lit "FIRSTNAME")) 7%Z one_entry
                one_entry_ok eq_refl) as (_ & _ & _ & H & _).
  destruct (vm_insert 8 (FromStr (lit "FIRSTNAME")) 7%Z one_entry table) as [[old m] t].
  destruct H as (_ & H & _). cbn [fst snd]. rewrite H. vm_compute. reflexivity.
Defined.

(** ** A struct with a query and a proxy, and an array that contains itself *)

Definition graph : store :=
  {[ 1%N := CStruct [(lit "Id", JQueryColumn [JInt 3; JInt 4] 1); (lit "rows", JQuery 2)];
     2%N := CQuery [lit "n"; lit "s"] [[JInt 1; JNull]; [JString (lit "x"); JDouble f64_one]];
     3%N := CArray [JArray 3] ]}.

Definition tree : value :=
  VStruct [(lit "Id", VInt 4);
           (lit "rows", VQuery [lit "n"; lit "s"]
                          [[VInt 1; VString []]; [VString (lit "x"); VDouble f64_one]])].

Lemma graph_ok : store_ok graph.
Proof.
  apply map_Forall_insert_2; [|apply map_Forall_insert_2; [|apply map_Forall_singleton]].
  - split_and!; [|unfold different; cbn; apply (bool_decide_unpack _); vm_compute; exact I|done].
    repeat constructor; cbn; eauto.
  - cbn. split_and!; try done; [by repeat constructor| |].
    + unfold different. apply (bool_decide_unpack _). vm_compute. exact I.
    + repeat constructor; done.
  - split; [|done]. repeat constructor. cbn. eexists. reflexivity.
Qed.

Lemma graph_tree : loads_as graph (JStruct 1) tree.
Proof.
  eapply load_struct; [reflexivity|]. constructor; [|constructor; [|constructor]]; constructor.
  - apply load_column. constructor.
  - eapply load_query; [reflexivity|]. repeat constructor.
Qed.

Lemma object_roundtrip_witness :
  (exists bs, fn_object_save graph [JStruct 1] = Ok bs
              /\ object_load_bytes (fun _ => Err []) bs = Ok tree)
  /\ exists e, fn_object_save graph [JArray 3] = Err e.
Proof.
  split.
  - apply (object_roundtrip (fun _ => Err []) graph (JStruct 1) graph_ok).
    + cbn. eauto.
    + apply graph_tree.
    + cbn. unfold MAX_DEPTH. lia.
  - apply (object_roundtrip (fun _ => Err []) graph (JArray 3) graph_ok).
    + cbn. eauto.
    + intros t Ht. exfalso. eapply (contains_itself graph 3 [JArray 3]); [reflexivity|left|exact Ht].
Defined.
