(* ===== verification/Stringify.v ===== *)
(** * Stringify: the string form of a value graph

    cfml-common: [dynamic.rs] ([as_string], [to_string_sorted], [to_string_strict]
    and what they call: [as_string_memo], [to_string_sorted_memo],
    [java_shim_string], [is_xml_backing], [xml_backing_to_markup]).

    A value's containers are handles into a heap and may contain themselves.  The
    walk keeps the containers it is inside of ([path]) and the finished texts of
    those it met no cycle under ([memo]).  A struct that stands for a Java object
    or an XML node has a string form of its own, and a query column has that of
    its cell; each of these starts a walk of its own.  The depth argument bounds
    nested calls, and [StackOverflow] is a recursion deeper than it.

    Structs here are plain ones: the method table and the [this] alias a
    component's scope carries beside its entries are not part of a cell. *)

From stdpp Require Import base list numbers strings gmap sorting.
From S2P Require Import Prelude Text Float64 Value Bytes Keys ValueMap ObjCodec.
Local Open Scope N_scope.

Inductive overflow := StackOverflow.

Abbreviation entries := (list (str * gvalue)).
Abbreviation memo := (gmap N str).

(** ** Pieces that do not recurse *)

(** [str::split_at]: [None] when byte [n] is not a character boundary. *)
Fixpoint split_bytes (n : nat) (s : str) : option (str * str) :=
  match s with
  | [] => if (n =? 0)%nat then Some ([], []) else None
  | c :: s' =>
      if (n =? 0)%nat then Some ([], s)
      else let k := length (utf8_char c) in
           if (k <=? n)%nat then r ← split_bytes (n - k) s'; Some (c :: r.1, r.2) else None
  end.

(** The fields [&uuid[0..8]], [&uuid[8..12]], ..: slicing off a character
    boundary panics. *)
Fixpoint cut_fields (widths : list nat) (s : str) : option (list str) :=
  match widths with
  | [] => Some []
  | w :: widths => r ← split_bytes w s; rest ← cut_fields widths r.2; Some (r.1 :: rest)
  end.

Definition uuid_string (uuid : str) : outcome overflow str :=
  if (length (as_bytes uuid) <? 32)%nat then Ok uuid
  else match cut_fields [8; 4; 4; 4; 12]%nat uuid with
       | Some fields => Ok (join (lit "-") fields)
       | None => Panic
       end.

(** [xml_escape_into] *)
Definition xml_escape (s : str) (in_attr : bool) : str :=
  concat (map (fun c => if c =? 38 then lit "&amp;" else if c =? 60 then lit "&lt;"
                        else if c =? 62 then lit "&gt;"
                        else if (c =? 34) && in_attr then lit "&quot;" else [c]) s).

Definition has_key (k : string) (m : entries) : bool := bool_decide (is_Some (ci_get (lit k) m)).

Definition is_component_backing (m : entries) : bool :=
  has_key "__variables" m && (has_key "this" m || has_key "__name" m).

Definition is_xml_backing (m : entries) : bool :=
  has_key "__xmlDoc" m || has_key "xmlRoot" m
  || (has_key "xmlName" m && has_key "xmlChildren" m && has_key "xmlAttributes" m).

(** The value of the first key that is present. *)
Fixpoint first_present (keys : list string) (m : entries) : option gvalue :=
  match keys with
  | [] => None
  | k :: keys => match ci_get (lit k) m with Some v => Some v | None => first_present keys m end
  end.

Definition xml_head : str := lit "<?xml version=" ++ [34] ++ lit "1.0" ++ [34]
  ++ lit " encoding=" ++ [34] ++ lit "UTF-8" ++ [34].
Definition xml_standalone : str := xml_head ++ lit " standalone=" ++ [34] ++ lit "no" ++ [34] ++ lit "?>".

Section Stringify.
Context {U : Unicode} {D : DateLib}.
Variable h : store.

(** [CfmlValue::is_true] *)
Fixpoint g_is_true (v : gvalue) : bool :=
  match v with
  | JNull => false
  | JBool b => b
  | JInt i => negb (i =? 0)%Z
  | JDouble d | JTimeSpan d => negb (f64_eqb d f64_zero)
  | JDateTime _ => true
  | JString s => string_is_true s
  | JArray p => match h !! p with Some (CArray (_ :: _)) => true | _ => false end
  | JQueryColumn cells row =>
      from_option id false (match map g_is_true cells !! row with
                            | Some b => Some b
                            | None => head (map g_is_true cells)
                            end)
  | JStruct p => match h !! p with Some (CStruct (_ :: _)) => true | _ => false end
  | JQuery p => match h !! p with
                | Some (CQuery _ data) => negb (data_rows data =? 0)%nat
                | _ => false
                end
  | JBinary bs => negb (length bs =? 0)%nat
  | JClosure | JComponent _ | JInstance _ | JFunction _ | JNativeObject _ => true
  end.

(** A value without items. *)
Definition atom_string (v : gvalue) : str :=
  match v with
  | JNull => []
  | JBool b => if b then lit "true" else lit "false"
  | JInt i => Z_to_str i
  | JDouble d | JTimeSpan d => format_double d
  | JDateTime d => to_cfml_string d
  | JString s => s
  | JClosure => lit "<Closure>"
  | JComponent _ | JInstance _ => lit "<Component>"
  | JFunction name => name
  | JQuery _ => lit "<Query>"
  | JBinary _ => lit "<Binary>"
  | JNativeObject p =>
      match h !! p with
      | Some (CNative _ LockHeld) => lit "<NativeObject>"
      | Some (CNative _ LockPoisoned) => lit "<NativeObject:poisoned>"
      | Some (CNative c LockFree) => lit "<NativeObject:" ++ c ++ lit ">"
      | _ => []
      end
  | JArray _ | JStruct _ | JQueryColumn _ _ => []
  end.

(** ** Structs with a string form of their own

    [fresh] is [as_string] of a member: a new walk. *)
Section Special.
Variable fresh : gvalue -> outcome overflow str.

(** [CfmlDate::from_epoch_millis] *)
Definition from_epoch_millis (ms : Z) : cfml_date :=
  from_epoch (ms / 1000) (ms mod 1000 * 1000000) KDateTime.

Definition millis_string (v : gvalue) : outcome overflow str :=
  omapo (fun ms => to_cfml_string (from_epoch_millis ms))
    (match v with
     | JInt n => Ok n
     | JDouble d => Ok (f64_as_i64 d)
     | v => omapo (fun s => default 0%Z (parse_i64 (trim s))) (fresh v)
     end).

(** [java_shim_string]: [None] for a struct that is not a Java object. *)
Definition java_shim_string (m : entries) : option (outcome overflow str) :=
  if negb (from_option g_is_true false (ci_get (lit "__java_shim") m)) then None
  else match ci_get (lit "__uuid") m with
       | Some u => Some (obind (fresh u) uuid_string)
       | None =>
           match ci_get (lit "__millis") m with
           | Some ms => Some (millis_string ms)
           | None =>
               fresh <$> first_present ["__buffer"; "__locale_id"; "__spec"; "__hostname"; "__value";
                                        "__java_class"]%string m
           end
       end.

(** [xml_serialize_node]: what it appends. *)
Fixpoint xml_serialize_node (d : nat) (m : entries) : outcome overflow str :=
  let text k := match ci_get (lit k) m with Some v => fresh v | None => Ok [] end in
  match d with
  | O => Err StackOverflow
  | S d =>
      let? name := text "xmlName"%string in
      if bool_decide (name = []) then Ok []
      else
        let? attrs := match ci_get (lit "xmlAttributes") m with
                      | Some (JStruct p) =>
                          match h !! p with
                          | Some (CStruct a) =>
                              omapM (fun e => omapo (fun t => lit " " ++ e.1 ++ lit "=" ++ [34]
                                                              ++ xml_escape t true ++ [34]) (fresh e.2)) a
                          | _ => Panic
                          end
                      | _ => Ok []
                      end in
        let? body := text "xmlText"%string in
        let? children := match ci_get (lit "xmlChildren") m with
                         | Some (JArray p) =>
                             match h !! p with Some (CArray l) => Ok (Some l) | _ => Panic end
                         | _ => Ok None
                         end in
        let start := lit "<" ++ name ++ concat attrs in
        if bool_decide (body = []) && bool_decide (default [] children = [])
        then Ok (start ++ lit "/>")
        else
          let? inner := omapM (fun c => match c with
                                        | JStruct q =>
                                            match h !! q with
                                            | Some (CStruct n) => xml_serialize_node d n
                                            | _ => Panic
                                            end
                                        | _ => Ok []
                                        end) (default [] children) in
          Ok (start ++ lit ">" ++ xml_escape body false ++ concat inner ++ lit "</" ++ name ++ lit ">")
  end%outcome.

Definition xml_backing_to_markup (d : nat) (m : entries) : outcome overflow str :=
  match ci_get (lit "xmlRoot") m with
  | Some (JStruct p) =>
      match h !! p with
      | Some (CStruct root) => omapo (app xml_standalone) (xml_serialize_node d root)
      | _ => Panic
      end
  | _ =>
      if has_key "__xmlDoc" m then Ok xml_standalone
      else omapo (app (xml_head ++ lit "?>")) (xml_serialize_node d m)
  end.

(** The first of the three that applies. *)
Definition special_string (d : nat) (m : entries) : option (outcome overflow str) :=
  match java_shim_string m with
  | Some r => Some r
  | None =>
      if is_component_backing m then Some (Ok (lit "<Component>"))
      else if is_xml_backing m then Some (xml_backing_to_markup d m)
      else None
  end.

(** A query column: the current row's cell, or the first. *)
Definition column_string (cells : list gvalue) (row : nat) : outcome overflow str :=
  match (match cells !! row with Some c => Some c | None => head cells end) with
  | Some c => fresh c
  | None => Ok []
  end.
End Special.

(** ** The walk *)

(** The labelled items of a container, first to last, and whether all of them
    are clean. *)
Fixpoint walk_items (f : gvalue -> ST memo overflow (str * bool)) (l : list (str * gvalue))
    : ST memo overflow (list str * bool) :=
  match l with
  | [] => st_ret ([], true)
  | e :: l =>
      let! r := f e.2 in
      let! rs := walk_items f l in
      st_ret ((e.1 ++ r.1) :: rs.1, r.2 && rs.2)
  end%st.

(** The steps the [Array] and the [Struct] arm share; [inside] renders an item
    with this container on the path. *)
Definition walk_container (path : list N) (p : N) (open close : str) (items : list (str * gvalue))
    (inside : gvalue -> ST memo overflow (str * bool)) : ST memo overflow (str * bool) := fun mm =>
  if bool_decide (p ∈ path) then (mm, Ok (open ++ lit "..." ++ close, false))
  else match mm !! p with
       | Some cached => (mm, Ok (cached, true))
       | None =>
           (let! r := walk_items inside items in
            let out := open ++ join (lit ", ") r.1 ++ close in
            fun mm => (if r.2 : bool then <[p := out]> mm else mm, Ok (out, r.2)))%st mm
       end.

Definition array_items (l : list gvalue) : list (str * gvalue) := map (pair []) l.

Definition struct_items (m : entries) : list (str * gvalue) :=
  map (fun e => (e.1 ++ lit ": ", e.2)) m.

Definition visible (m : entries) : entries :=
  filter (fun e => is_internal_arguments_key e.1 = false) m.

(** [as_string_memo] when [order] keeps the entries as they are,
    [to_string_sorted_memo] when it sorts them.  Either way a member's own walk
    is [as_string]. *)
Fixpoint string_memo (d : nat) (order : entries -> entries) (path : list N) (v : gvalue)
    : ST memo overflow (str * bool) :=
  match d with
  | O => st_err StackOverflow
  | S d =>
      let fresh v := omapo fst (string_memo d id [] v ∅).2 in
      match v with
      | JArray p =>
          match h !! p with
          | Some (CArray l) =>
              walk_container path p (lit "[") (lit "]") (array_items l)
                (string_memo d order (path ++ [p]))
          | _ => st_panic
          end
      | JQueryColumn cells row => st_lift (omapo (fun s => (s, true)) (column_string fresh cells row))
      | JStruct p =>
          match h !! p with
          | Some (CStruct m) =>
              match special_string fresh d m with
              | Some r => st_lift (omapo (fun s => (s, true)) r)
              | None =>
                  walk_container path p (lit "{") (lit "}") (struct_items (order (visible m)))
                    (string_memo d order (path ++ [p]))
              end
          | _ => st_panic
          end
      | v => st_ret (atom_string v, true)
      end
  end.

Definition as_string_memo (d : nat) : list N -> gvalue -> ST memo overflow (str * bool) :=
  string_memo d id.

Definition as_string (d : nat) (v : gvalue) : outcome overflow str :=
  omapo fst (as_string_memo d [] v ∅).2.

(** The comparator of [to_string_sorted_memo]: by lowercase key, then by key. *)
Definition entry_cmp (a b : str * gvalue) : comparison :=
  match list_compare N.compare (as_bytes (to_lowercase a.1)) (as_bytes (to_lowercase b.1)) with
  | Eq => list_compare N.compare (as_bytes a.1) (as_bytes b.1)
  | c => c
  end.

Definition entry_le (a b : str * gvalue) : Prop := entry_cmp a b <> Gt.
#[global] Instance entry_le_dec a b : Decision (entry_le a b).
Proof. unfold entry_le. apply _. Defined.

(** [sort_by]; keys differ, so that a stable sort is a sort. *)
Definition sort_entries (m : entries) : entries := merge_sort entry_le m.

Definition to_string_sorted_memo (d : nat) : list N -> gvalue -> ST memo overflow (str * bool) :=
  string_memo d sort_entries.

Definition to_string_sorted (d : nat) (v : gvalue) : outcome overflow str :=
  omapo fst (to_string_sorted_memo d [] v ∅).2.

(** [to_string_strict]: [inr] is the CFML error's message. *)
Definition to_string_strict (d : nat) (v : gvalue) : outcome overflow (str + str) :=
  let complex k := Ok (inr (lit "Can't cast Complex Object Type [" ++ lit k ++ lit "] to String")) in
  let component n := Ok (inr (lit "Can't cast Component [" ++ n ++ lit "] to String")) in
  match v with
  | JStruct p =>
      match h !! p with
      | Some (CStruct m) =>
          match java_shim_string (as_string d) m with
          | Some r => omapo inl r
          | None => if is_xml_backing m then omapo inl (xml_backing_to_markup (as_string d) d m)
                    else complex "Struct"%string
          end
      | _ => Panic
      end
  | JArray _ => complex "Array"%string
  | JQuery _ => complex "Query"%string
  | JComponent n => component n
  | JFunction n =>
      Ok (inr (lit "Can't cast Object type [user defined function (" ++ n
               ++ lit ")] to a value of type [string]"))
  | JClosure =>
      Ok (inr (lit "Can't cast Object type [user defined function (closure)] to a value of type [string]"))
  | JInstance p => match h !! p with Some (CInstance n _) => component n | _ => Panic end
  | v => omapo inl (as_string d v)
  end.

(** ** The reference: every container rendered again on every path *)

Fixpoint render (d : nat) (order : entries -> entries) (path : list N) (v : gvalue)
    : outcome overflow str :=
  match d with
  | O => Err StackOverflow
  | S d =>
      let container p open close items :=
        if bool_decide (p ∈ path) then Ok (open ++ lit "..." ++ close)
        else omapo (fun ss => open ++ join (lit ", ") ss ++ close)
               (omapM (fun e => omapo (app e.1) (render d order (path ++ [p]) e.2)) items) in
      match v with
      | JArray p =>
          match h !! p with
          | Some (CArray l) => container p (lit "[") (lit "]") (array_items l)
          | _ => Panic
          end
      | JQueryColumn cells row => column_string (render d id []) cells row
      | JStruct p =>
          match h !! p with
          | Some (CStruct m) =>
              match special_string (render d id []) d m with
              | Some r => r
              | None => container p (lit "{") (lit "}") (struct_items (order (visible m)))
              end
          | _ => Panic
          end
      | v => Ok (atom_string v)
      end
  end.
End Stringify.
