(* ===== verification/StringifyFacts.v ===== *)
(** * StringifyFacts: what the memoised string form computes

    The walk with its memo returns what rendering every container again on every
    path returns, it terminates on cyclic graphs, and the sorted form does not
    depend on the order structs were built in. *)

From stdpp Require Import base list numbers strings gmap sorting relations.
From S2P Require Import Prelude Text Float64 Value Bytes Keys ValueMap ObjCodec Stringify.
Local Open Scope N_scope.

(** [r'] is [r] unless [r] ran out of depth. *)
Definition below {A} (r r' : outcome overflow A) : Prop := r = Err StackOverflow \/ r = r'.

Lemma below_refl {A} (r : outcome overflow A) : below r r.
Proof. by right. Qed.
#[global] Hint Resolve below_refl : core.

Lemma below_bind {A B} (m m' : outcome overflow A) (k k' : A -> outcome overflow B) :
  below m m' -> (forall a, m = Ok a -> below (k a) (k' a)) -> below (obind m k) (obind m' k').
Proof.
  intros [-> | <-] Hk; [by left|]. destruct m as [a|e|]; cbn; [by apply Hk|done|done].
Qed.

Lemma below_map {A B} (f : A -> B) (m m' : outcome overflow A) :
  below m m' -> below (omapo f m) (omapo f m').
Proof. intros H. by apply below_bind. Qed.

Lemma below_mapM {A B} (f f' : A -> outcome overflow B) l :
  (forall x, x ∈ l -> below (f x) (f' x)) -> below (omapM f l) (omapM f' l).
Proof.
  induction l as [|x l IH]; intros H; [done|]. cbn.
  apply below_bind; [apply H; by left|]. intros y _.
  apply below_bind; [apply IH; intros; apply H; by right|done].
Qed.

Lemma below_some {A} (r r' : outcome overflow A) : below r r' -> r <> Err StackOverflow -> r' = r.
Proof. by intros [? | ->]. Qed.

Lemma tc_split {A} (R : relation A) x y : tc R x y -> exists z, R x z /\ rtc R z y.
Proof. destruct 1 as [x y H|x y z H Ht]; eexists; split; eauto using rtc_refl, tc_rtc. Qed.

Section Facts.
Context {U : Unicode} {D : DateLib}.
Variable h : store.

(** ** The walk on nodes and leaves *)

Definition plain (m : entries) : bool :=
  match special_string h (fun _ => Panic) 0 m with Some _ => false | None => true end.

Lemma special_plain f d m :
  if plain m then special_string h f d m = None else is_Some (special_string h f d m).
Proof.
  unfold plain, special_string, java_shim_string.
  repeat (case_match; simplify_eq/=; try done); by eexists.
Qed.

(** A container the walk enters: its address, brackets and items. *)
Record node := Node { n_at : N; n_open : str; n_close : str; n_items : list (str * gvalue) }.

Definition node_of (order : entries -> entries) (v : gvalue) : option node :=
  match v with
  | JArray p =>
      match h !! p with
      | Some (CArray l) => Some (Node p (lit "[") (lit "]") (array_items l))
      | _ => None
      end
  | JStruct p =>
      match h !! p with
      | Some (CStruct m) =>
          if plain m then Some (Node p (lit "{") (lit "}") (struct_items (order (visible m))))
          else None
      | _ => None
      end
  | _ => None
  end.

(** Everything else. *)
Definition leaf (fresh : gvalue -> outcome overflow str) (d : nat) (v : gvalue) : outcome overflow str :=
  match v with
  | JArray _ => Panic
  | JQueryColumn cells row => column_string fresh cells row
  | JStruct p =>
      match h !! p with
      | Some (CStruct m) => default Panic (special_string h fresh d m)
      | _ => Panic
      end
  | v => Ok (atom_string h v)
  end.

Lemma string_memo_unfold d order path v :
  string_memo h (S d) order path v =
  match node_of order v with
  | Some n => walk_container path (n_at n) (n_open n) (n_close n) (n_items n)
                (string_memo h d order (path ++ [n_at n]))
  | None => st_lift (omapo (fun s => (s, true)) (leaf (as_string h d) d v))
  end.
Proof.
  destruct v; try done; cbn [string_memo node_of leaf].
  - by destruct (h !! p) as [[]|].
  - destruct (h !! p) as [[| m | | |]|]; try done.
    pose proof (special_plain (as_string h d) d m) as Hs. destruct (plain m).
    + unfold as_string, as_string_memo in Hs. by rewrite Hs.
    + destruct Hs as [r Hs]. rewrite Hs. unfold as_string, as_string_memo in Hs. by rewrite Hs.
Qed.

Lemma render_unfold d order path v :
  render h (S d) order path v =
  match node_of order v with
  | Some n =>
      if bool_decide (n_at n ∈ path) then Ok (n_open n ++ lit "..." ++ n_close n)
      else omapo (fun ss => n_open n ++ join (lit ", ") ss ++ n_close n)
             (omapM (fun e => omapo (app e.1) (render h d order (path ++ [n_at n]) e.2)) (n_items n))
  | None => leaf (render h d id []) d v
  end.
Proof.
  destruct v; try done; cbn [render node_of leaf].
  - by destruct (h !! p) as [[]|].
  - destruct (h !! p) as [[| m | | |]|]; try done.
    pose proof (special_plain (render h d id []) d m) as Hs.
    destruct (plain m); [by rewrite Hs|]. destruct Hs as [r Hs]. by rewrite Hs.
Qed.

Lemma node_of_at order v w n n' :
  node_of order v = Some n -> node_of order w = Some n' -> n_at n = n_at n' -> v = w /\ n = n'.
Proof.
  destruct v; try done; destruct w; try done; cbn; intros H H' E;
    repeat (case_match; simplify_eq/=; try done).
Qed.

(** ** Depth *)

Lemma xml_below f f' d d' m :
  (forall v, below (f v) (f' v)) -> (d <= d')%nat ->
  below (xml_serialize_node h f d m) (xml_serialize_node h f' d' m).
Proof.
  intros Hf. revert d' m. induction d as [|d IH]; intros d' m Hd; [by left|].
  destruct d' as [|d']; [lia|]. cbn [xml_serialize_node].
  assert (Htext : forall k, below (match ci_get (lit k) m with Some v => f v | None => Ok [] end)
                                 (match ci_get (lit k) m with Some v => f' v | None => Ok [] end)).
  { intros k. by destruct (ci_get (lit k) m). }
  apply below_bind; [apply Htext|]. intros name _. case_bool_decide; [done|].
  apply below_bind.
  { repeat (case_match; try done). apply below_mapM. intros. by apply below_map. }
  intros attrs _. apply below_bind; [apply Htext|]. intros body _.
  apply below_bind; [done|]. intros children _.
  destruct (_ && _); [done|]. apply below_bind; [|done].
  apply below_mapM. intros c _. repeat (case_match; try done). apply IH. lia.
Qed.

Lemma markup_below f f' d d' m :
  (forall v, below (f v) (f' v)) -> (d <= d')%nat ->
  below (xml_backing_to_markup h f d m) (xml_backing_to_markup h f' d' m).
Proof.
  intros Hf Hd. unfold xml_backing_to_markup.
  assert (Hself : below
    (if has_key "__xmlDoc" m then Ok xml_standalone
     else omapo (app (xml_head ++ lit "?>")) (xml_serialize_node h f d m))
    (if has_key "__xmlDoc" m then Ok xml_standalone
     else omapo (app (xml_head ++ lit "?>")) (xml_serialize_node h f' d' m))).
  { destruct (has_key _ m); [done|by apply below_map, xml_below]. }
  destruct (ci_get (lit "xmlRoot") m) as [[]|]; try done.
  destruct (h !! p) as [[]|]; try done. by apply below_map, xml_below.
Qed.

Lemma leaf_below f f' d d' v :
  (forall v, below (f v) (f' v)) -> (d <= d')%nat -> below (leaf f d v) (leaf f' d' v).
Proof.
  intros Hf Hd. destruct v; try done; cbn.
  - unfold column_string. repeat (case_match; try done).
  - destruct (h !! p) as [[| m | | |]|]; try done.
    assert (Hrest : below
      (default Panic (if is_component_backing m then Some (Ok (lit "<Component>"))
        else if is_xml_backing m then Some (xml_backing_to_markup h f d m) else None))
      (default Panic (if is_component_backing m then Some (Ok (lit "<Component>"))
        else if is_xml_backing m then Some (xml_backing_to_markup h f' d' m) else None))).
    { destruct (is_component_backing m), (is_xml_backing m); try done. by apply markup_below. }
    unfold special_string, java_shim_string. destruct (negb _); [done|].
    destruct (ci_get (lit "__uuid") m); [by apply below_bind|].
    destruct (ci_get (lit "__millis") m) as [ms|]; [|destruct (first_present _ m); [apply Hf|done]].
    unfold millis_string. apply below_map. destruct ms; try done; by apply below_map.
Qed.

Lemma render_mono d d' order path v :
  (d <= d')%nat -> below (render h d order path v) (render h d' order path v).
Proof.
  revert d' order path v. induction d as [|d IH]; intros d' order path v Hd; [by left|].
  destruct d' as [|d']; [lia|]. rewrite !render_unfold. destruct (node_of order v) as [n|].
  - case_bool_decide; [done|]. apply below_map, below_mapM. intros. apply below_map, IH. lia.
  - apply leaf_below; [|lia]. intros w. apply IH. lia.
Qed.

(** ** Paths *)

Section Paths.
Variable order : entries -> entries.

(** The container at [p] has the container at [q] among its items. *)
Definition edge (p q : N) : Prop :=
  exists v w n n' l, node_of order v = Some n /\ n_at n = p /\ (l, w) ∈ n_items n
                     /\ node_of order w = Some n' /\ n_at n' = q.

(** Nothing below [p] contains itself. *)
Definition acyclic (p : N) : Prop := forall q, rtc edge p q -> ~ tc edge q q.

Lemma acyclic_below p q : acyclic p -> rtc edge p q -> acyclic q.
Proof. intros H Hpq r Hr. apply H. by etrans. Qed.

Lemma render_path d path path' v :
  (forall n q, node_of order v = Some n -> rtc edge (n_at n) q -> q ∈ path <-> q ∈ path') ->
  render h d order path v = render h d order path' v.
Proof.
  revert path path' v. induction d as [|d IH]; intros path path' v H; [done|].
  rewrite !render_unfold. destruct (node_of order v) as [n|] eqn:Hn; [|done].
  rewrite (bool_decide_ext (n_at n ∈ path) (n_at n ∈ path')) by (apply (H n); [done|apply rtc_refl]).
  case_bool_decide; [done|]. f_equal. apply omapM_ext.
  intros [l w] Hw. cbn. f_equal. apply IH.
  intros n' q Hn' Hq. rewrite !elem_of_app, (H n q); [done|done|].
  eapply rtc_l; [|exact Hq]. by exists v, w, n, n', l.
Qed.

Record memo_ok (mm : memo) : Prop := {
  memo_acyclic p s : mm !! p = Some s -> acyclic p;
  memo_text p s v n d path :
    mm !! p = Some s -> node_of order v = Some n -> n_at n = p ->
    (forall q, q ∈ path -> ~ rtc edge p q) -> below (render h d order path v) (Ok s);
}.

Lemma memo_ok_empty : memo_ok ∅.
Proof. split; intros *; by rewrite lookup_empty. Qed.

(** Where the walk is: the containers of the path lead to this one. *)
Definition on_path (path : list N) (v : gvalue) : Prop :=
  forall n q, node_of order v = Some n -> q ∈ path -> tc edge q (n_at n).

(** What a clean answer says of a value. *)
Definition clear_of (path : list N) (v : gvalue) : Prop :=
  forall n, node_of order v = Some n -> acyclic (n_at n) /\ forall q, q ∈ path -> ~ rtc edge (n_at n) q.

Lemma on_path_item path v n l w :
  on_path path v -> node_of order v = Some n -> (l, w) ∈ n_items n -> on_path (path ++ [n_at n]) w.
Proof.
  intros H Hn Hw n' q Hn' Hq.
  assert (He : edge (n_at n) (n_at n')) by (by exists v, w, n, n', l).
  apply elem_of_app in Hq as [Hq | ->%list_elem_of_singleton]; [|by apply tc_once].
  eapply tc_r; [by apply H|done].
Qed.

Lemma clear_item_node path v n :
  node_of order v = Some n -> n_at n ∉ path ->
  (forall l w, (l, w) ∈ n_items n -> clear_of (path ++ [n_at n]) w) -> clear_of path v.
Proof.
  intros Hn Hp Hw n1 Hn1. replace n1 with n in * by congruence. clear n1 Hn1.
  assert (Hstep : forall q, edge (n_at n) q -> acyclic q /\ forall r, r ∈ path ++ [n_at n] -> ~ rtc edge q r).
  { intros q (v' & w & n' & n'' & l & Hv' & Hat & Hl & Hn'' & <-).
    destruct (node_of_at _ _ _ _ _ Hv' Hn Hat) as [-> ->]. by apply (Hw l w Hl). }
  split.
  - intros q Hq%rtc_tc. destruct Hq as [<- | Hq].
    + intros Hc. apply tc_split in Hc as (q & He & Hq). destruct (Hstep q He) as [_ Hno].
      apply (Hno (n_at n)); [apply elem_of_app; right; by left|done].
    + apply tc_split in Hq as (q' & He & Hq). by apply (Hstep q' He).
  - intros q Hq Hr%rtc_tc. destruct Hr as [<- | Hr]; [done|].
    apply tc_split in Hr as (q' & He & Hr). apply (proj2 (Hstep q' He) q); [|done].
    apply elem_of_app; by left.
Qed.
End Paths.

(** ** Simulation *)

(** From a memo with [P], the walk [m] gives the answer [r] and leaves [P];
    a clean answer gives [C]. *)
Definition simulates {A} (P : memo -> Prop) (C : Prop) (m : ST memo overflow (A * bool))
    (r : outcome overflow A) : Prop :=
  forall mm, P mm ->
  match r with
  | Ok s => exists mm' c, m mm = (mm', Ok (s, c)) /\ P mm' /\ (c = true -> C)
  | Err _ => True
  | Panic => (m mm).2 = Panic
  end.

Lemma walk_items_simulates P (C : gvalue -> Prop) f g items :
  (forall l w, (l, w) ∈ items -> simulates P (C w) (f w) (g w)) ->
  simulates P (forall l w, (l, w) ∈ items -> C w) (walk_items f items)
    (omapM (fun e => omapo (app e.1) (g e.2)) items).
Proof.
  induction items as [|[l w] items IH]; intros H mm Hmm; cbn.
  { exists mm, true. split_and!; try done. by intros _ l w ?%elem_of_nil. }
  pose proof (H l w (list_elem_of_here _ _) mm Hmm) as Hw. unfold st_bind.
  destruct (g w) as [s| |]; cbn; [|done|by destruct (f w mm) as [? []]].
  destruct Hw as (mm1 & c & -> & Hmm1 & Hc).
  specialize (IH (fun l w Hi => H l w (list_elem_of_further _ _ _ Hi)) mm1 Hmm1).
  destruct (omapM _ items) as [ss| |]; cbn; [|done|by destruct (walk_items f items mm1) as [? []]].
  destruct IH as (mm2 & c' & -> & Hmm2 & Hc'). exists mm2, (c && c'). split_and!; [done|done|].
  intros [-> ->]%andb_true_iff l' w' [[= -> ->] | Hi]%elem_of_cons; eauto.
Qed.

Lemma memo_insert order mm v n d path out :
  memo_ok order mm -> node_of order v = Some n -> clear_of order path v ->
  render h d order path v = Ok out -> memo_ok order (<[n_at n := out]> mm).
Proof.
  intros [Hac Htx] Hn Hcl Hr. destruct (Hcl n Hn) as [Hacy Hdis].
  split; intros p s; setoid_rewrite lookup_insert_Some.
  - intros [[<- <-] | [_ Hp]]; eauto.
  - intros w n' d' path' [[<- <-] | [_ Hp]] Hn' Hat Hdis'; [|by eapply Htx].
    destruct (node_of_at _ _ _ _ _ Hn' Hn Hat) as [-> ->].
    rewrite (render_path order d' path' path).
    + rewrite <- Hr. destruct (decide (d' <= d)%nat); [by apply render_mono|].
      right. apply below_some; [apply render_mono; lia|by rewrite Hr].
    + intros n1 q Hn1 Hq. replace n1 with n in * by congruence.
      split; intros Hin; exfalso; [by eapply Hdis'|by eapply Hdis].
Qed.

Lemma container_simulates order d path v n :
  node_of order v = Some n -> on_path order path v ->
  (forall l w, (l, w) ∈ n_items n ->
    simulates (memo_ok order) (clear_of order (path ++ [n_at n]) w)
      (string_memo h d order (path ++ [n_at n]) w) (render h d order (path ++ [n_at n]) w)) ->
  simulates (memo_ok order) (clear_of order path v) (string_memo h (S d) order path v)
    (render h (S d) order path v).
Proof.
  intros Hn Hon Hi mm Hmm. destruct (render h (S d) order path v) as [s| |] eqn:Hr; [|done|];
    pose proof Hr as Hr'; rewrite render_unfold, Hn in Hr'; rewrite string_memo_unfold, Hn;
    unfold walk_container; case_bool_decide as Hp; try done.
  { injection Hr' as <-. by exists mm, false. }
  all: destruct (mm !! n_at n) as [t|] eqn:Ht.
  1, 3: assert (Hdis : forall q, q ∈ path -> ~ rtc (edge order) (n_at n) q)
      by (intros q Hq Hc; eapply (memo_acyclic _ _ Hmm _ _ Ht); [apply rtc_refl|];
          eapply tc_rtc_l; [done|by apply (Hon n)]);
    destruct (memo_text _ _ Hmm _ _ v n (S d) path Ht Hn eq_refl Hdis) as [He | He];
    rewrite Hr in He; simplify_eq.
  { exists mm, true. split_and!; [done|done|]. intros _ n1 Hn1. replace n1 with n in * by congruence.
    split; [by eapply memo_acyclic|done]. }
  all: pose proof (walk_items_simulates _ _ _ _ _ Hi mm Hmm) as Hw; unfold st_bind;
    destruct (omapM _ _) as [ss| |]; cbn in Hr'; simplify_eq.
  - destruct Hw as (mm' & c & -> & Hmm' & Hc). exists (if c then <[n_at n := n_open n ++ join (lit ", ") ss ++ n_close n]> mm' else mm'), c.
    assert (Hcl : c = true -> clear_of order path v) by (intros; eapply clear_item_node; eauto).
    split_and!; [done| |done]. destruct c; [|done]. eapply memo_insert; eauto.
  - by destruct (walk_items _ _ mm) as [? []].
Qed.

Lemma string_memo_simulates d order path v :
  on_path order path v ->
  simulates (memo_ok order) (clear_of order path v) (string_memo h d order path v)
    (render h d order path v).
Proof.
  revert order path v. induction d as [|d IH]; intros order path v Hon; [done|].
  destruct (node_of order v) as [n|] eqn:Hn.
  - apply (container_simulates _ _ _ _ _ Hn Hon). intros l w Hw. apply IH. by eapply on_path_item.
  - assert (Hfresh : forall w, below (render h d id [] w) (as_string h d w)).
    { intros w. assert (Hon' : on_path id [] w) by (by intros ? ? ? ?%elem_of_nil).
      pose proof (IH id [] w Hon' ∅ (memo_ok_empty id)) as Hw. unfold as_string, as_string_memo.
      destruct (render h d id [] w) as [s|[]|]; [|by left|right; by rewrite Hw].
      destruct Hw as (mm' & c & -> & _). by right. }
    intros mm Hmm. rewrite render_unfold, string_memo_unfold, Hn.
    destruct (leaf_below _ _ d d v Hfresh (le_n d)) as [-> | <-]; [done|].
    destruct (leaf _ d v); [|done|done]. exists mm, true. split_and!; [done|done|].
    intros _ n. by rewrite Hn.
Qed.

(** With the same depth, the memoised walk gives every answer of the reference. *)
Lemma walk_renders d order v :
  below (render h d order [] v) (omapo fst (string_memo h d order [] v ∅).2).
Proof.
  assert (Hon : on_path order [] v) by (by intros ? ? ? ?%elem_of_nil).
  pose proof (string_memo_simulates d order [] v Hon ∅ (memo_ok_empty order)) as Hw.
  destruct (render h d order [] v) as [s|[]|]; [|by left|right; by rewrite Hw].
  destruct Hw as (mm' & c & -> & _). by right.
Qed.

(** ** Termination *)

(** Deep enough, [F] has one answer. *)
Definition settles {A} (F : nat -> outcome overflow A) : Prop :=
  exists r d0, r <> Err StackOverflow /\ forall d, (d0 <= d)%nat -> F d = r.

#[global] Instance settles_proper {A} : Proper (pointwise_relation nat eq ==> iff) (@settles A).
Proof.
  intros F G H. unfold settles. split; intros (r & d0 & Hr & HF); exists r, d0; split; try done;
    intros d Hd; [by rewrite <- H, HF|by rewrite H, HF].
Qed.

Lemma settles_const {A} (r : outcome overflow A) : r <> Err StackOverflow -> settles (fun _ => r).
Proof. intros H. by exists r, O. Qed.

Lemma settles_bind {A B} (F : nat -> outcome overflow A) (G : nat -> A -> outcome overflow B) :
  settles F -> (forall a, settles (fun d => G d a)) -> settles (fun d => obind (F d) (G d)).
Proof.
  intros (r & d0 & Hr & HF) HG. destruct r as [a|[]|]; [|done|].
  - destruct (HG a) as (r & d1 & Hr' & HG'). exists r, (d0 + d1)%nat. split; [done|].
    intros d Hd. rewrite HF by lia. apply HG'. lia.
  - exists Panic, d0. split; [done|]. intros d Hd. by rewrite HF.
Qed.

Lemma settles_map {A B} (f : A -> B) (F : nat -> outcome overflow A) :
  settles F -> settles (fun d => omapo f (F d)).
Proof. intros H. apply (settles_bind F (fun _ a => Ok (f a)) H). intros a. by apply settles_const. Qed.

Lemma settles_mapM {A B} (f : nat -> A -> outcome overflow B) l :
  (forall x, x ∈ l -> settles (fun d => f d x)) -> settles (fun d => omapM (f d) l).
Proof.
  induction l as [|x l IH]; intros H; [by apply (settles_const (Ok []))|]. cbn.
  apply (settles_bind (fun d => f d x) (fun d y => obind (omapM (f d) l) (fun ys => Ok (y :: ys)))).
  { apply H. by left. }
  intros y. apply (settles_map (cons y)), IH. intros z Hz. apply H. by right.
Qed.

Lemma settles_pred {A} (F : nat -> outcome overflow A) : settles (fun d => F (S d)) -> settles F.
Proof.
  intros (r & d0 & Hr & HF). exists r, (S d0). split; [done|].
  intros [|d] Hd; [lia|]. apply HF. lia.
Qed.

Lemma settles_above {A} (F G : nat -> outcome overflow A) :
  settles F -> (forall d, below (F d) (G d)) -> settles G.
Proof.
  intros (r & d0 & Hr & HF) HG. exists r, d0. split; [done|]. intros d Hd.
  pose proof (HG d) as HG'. rewrite HF in HG' by done. by apply below_some.
Qed.

(** *** Graphs in layers *)

(** The containers named in a value, inside a column's cells too. *)
Fixpoint handles (v : gvalue) : list N :=
  match v with
  | JArray p | JStruct p => [p]
  | JQueryColumn cells _ => concat (map handles cells)
  | _ => []
  end.

(** A struct the walk renders as a struct and an XML walk passes over. *)
Definition ordinary (m : entries) : bool := plain m && negb (has_key "xmlName" m).

(** Each container has a layer.  Items are no higher; what starts a walk of its
    own (a column's cell, a member of a Java object or an XML node) is lower.
    Containers of one layer may contain each other and themselves. *)
Section Layers.
Variable rank : N -> nat.

Definition within (r : nat) (v : gvalue) : Prop :=
  match v with
  | JArray p | JStruct p => (rank p <= r)%nat
  | v => forall q, q ∈ handles v -> (rank q < r)%nat
  end.

Definition under (r : nat) (v : gvalue) : Prop := forall q, q ∈ handles v -> (rank q < r)%nat.

Definition layered : Prop :=
  forall p c, h !! p = Some c ->
  match c with
  | CArray l => Forall (within (rank p)) l
  | CStruct m =>
      Forall (fun e => if ordinary m then within (rank p) e.2 else under (rank p) e.2) m
  | _ => True
  end.

Lemma under_within r v : under r v -> within r v.
Proof.
  unfold under. destruct v; try done; cbn; intros H; apply Nat.lt_le_incl, H; by left.
Qed.

Lemma within_under r r' v : within r v -> (r < r')%nat -> under r' v.
Proof.
  destruct v; intros H Hr q; cbn in *; try (by intros ?%elem_of_nil);
    try (intros ->%list_elem_of_singleton; lia).
  intros Hq. specialize (H q Hq). lia.
Qed.

Lemma within_le r r' v : within r v -> (r <= r')%nat -> within r' v.
Proof.
  destruct v; cbn; intros H Hr; try lia; intros q Hq; by (eapply Nat.lt_le_trans; [apply H|]).
Qed.

Lemma entry_within (Hl : layered) p m k v :
  h !! p = Some (CStruct m) -> ci_get k m = Some v ->
  if ordinary m then within (rank p) v else under (rank p) v.
Proof.
  intros Hp Hk. specialize (Hl p _ Hp). cbn in Hl.
  unfold ci_get, entry_get in Hk. apply fmap_Some in Hk as (e & He & ->).
  apply find_some in He as [He _]. rewrite <- list_elem_of_In in He.
  exact (proj1 (Forall_forall _ _) Hl e He).
Qed.
Section Lower.
Variable r : nat.
Hypothesis Hlayers : layered.
Hypothesis Hlow : forall v, under r v -> settles (fun d => render h d id [] v).

Lemma low_shift v : under r v -> settles (fun d => render h (S d) id [] v).
Proof.
  intros Hv. apply (settles_above (fun d => render h d id [] v)); [by apply Hlow|].
  intros d. apply render_mono. lia.
Qed.

(** The members of a struct of this layer or a lower one, by a new walk. *)
Lemma entry_under p m k v :
  h !! p = Some (CStruct m) -> ordinary m = false -> (rank p <= r)%nat -> ci_get k m = Some v -> under r v.
Proof.
  intros Hp Hm Hr Hk. pose proof (entry_within Hlayers p m k v Hp Hk) as He. rewrite Hm in He.
  intros q Hq. specialize (He q Hq). lia.
Qed.

Lemma xml_text_settles p m k :
  h !! p = Some (CStruct m) -> ordinary m = false -> (rank p <= r)%nat ->
  settles (fun d => match ci_get k m with Some v => render h (S d) id [] v | None => Ok [] end).
Proof.
  intros Hp Hm Hr. destruct (ci_get k m) as [v|] eqn:Hk; [|by apply settles_const].
  apply low_shift. by eapply entry_under.
Qed.

Lemma xml_attrs_settles p m :
  h !! p = Some (CStruct m) -> ordinary m = false -> (rank p <= r)%nat ->
  settles (fun d => match ci_get (lit "xmlAttributes") m with
                    | Some (JStruct p) =>
                        match h !! p with
                        | Some (CStruct a) =>
                            omapM (fun e => omapo (fun t => lit " " ++ e.1 ++ lit "=" ++ [34]
                                                            ++ xml_escape t true ++ [34])
                                              (render h (S d) id [] e.2)) a
                        | _ => Panic
                        end
                    | _ => Ok []
                    end).
Proof.
  intros Hp Hm Hr. destruct (ci_get (lit "xmlAttributes") m) as [v|] eqn:Hk; [|by apply settles_const].
  destruct v; try by apply settles_const. destruct (h !! p0) as [[| a | | |]|] eqn:Ha; try by apply settles_const.
  assert (Hq : (rank p0 < r)%nat) by (eapply (entry_under p m); [done|done|done|done|by left]).
  apply settles_mapM. intros e He. apply settles_map, low_shift.
  pose proof (proj1 (Forall_forall _ _) (Hlayers _ _ Ha) e He) as Hw. cbn in Hw.
  destruct (ordinary a); [by eapply within_under|]. intros q Hq'. specialize (Hw q Hq'). lia.
Qed.

Lemma ordinary_nameless m : ordinary m = true -> ci_get (lit "xmlName") m = None.
Proof.
  unfold ordinary, has_key. intros [_ H]%andb_true_iff. apply negb_true_iff, bool_decide_eq_false in H.
  by apply eq_None_not_Some.
Qed.

Lemma xml_settles p m :
  h !! p = Some (CStruct m) -> (rank p <= r)%nat ->
  settles (fun d => xml_serialize_node h (render h d id []) d m).
Proof.
  remember (rank p) as k eqn:Ek. revert p m Ek.
  induction k as [k IH] using lt_wf_ind. intros p m -> Hp Hr. apply settles_pred. cbn [xml_serialize_node].
  destruct (ordinary m) eqn:Hm.
  { rewrite (ordinary_nameless m Hm). by apply (settles_const (Ok [])). }
  apply (settles_bind _ _ (xml_text_settles p m _ Hp Hm Hr)). intros name.
  case_bool_decide; [by apply settles_const|].
  apply (settles_bind _ _ (xml_attrs_settles p m Hp Hm Hr)). intros attrs.
  apply (settles_bind _ _ (xml_text_settles p m _ Hp Hm Hr)). intros body.
  destruct (ci_get (lit "xmlChildren") m) as [v|] eqn:Hk; cbn.
  2: { destruct (_ && _); by apply (settles_const (Ok _)). }
  destruct v as [| | | | | | | |q| | | | | | | |]; cbn; try (destruct (_ && _); by apply (settles_const (Ok _))).
  destruct (h !! q) as [[l| | | |]|] eqn:Hq; cbn; try by apply settles_const.
  destruct (_ && _); [by apply settles_const|]. apply settles_bind; [|intros; by apply settles_const].
  apply settles_mapM. intros c Hc. destruct c; try by apply settles_const.
  destruct (h !! p0) as [[|n| | |]|] eqn:Hn; try by apply settles_const.
  assert (Hlt : (rank p0 < rank p)%nat).
  { pose proof (entry_within Hlayers p m _ _ Hp Hk) as He. rewrite Hm in He.
    specialize (He q (list_elem_of_here _ _)).
    pose proof (proj1 (Forall_forall _ _) (Hlayers _ _ Hq) _ Hc) as Hw. cbn in Hw. lia. }
  eapply settles_above; [by eapply (IH (rank p0)); [|done|done|lia]|].
  intros d. apply xml_below; [|done]. intros w. apply (render_mono d (S d) id [] w). lia.
Qed.

Lemma cell_handles cells row c q :
  (match cells !! row with Some c => Some c | None => head cells end) = Some c ->
  q ∈ handles c -> q ∈ handles (JQueryColumn cells row).
Proof.
  intros Hc Hq. cbn. rewrite list_elem_of_In in Hq |- *. apply in_concat. exists (handles c).
  split; [|done]. apply in_map, list_elem_of_In.
  destruct (cells !! row) as [c'|] eqn:E; [simplify_eq; by eapply list_elem_of_lookup_2|].
  destruct cells; simplify_eq/=. by left.
Qed.

Lemma markup_settles p m :
  h !! p = Some (CStruct m) -> ordinary m = false -> (rank p <= r)%nat ->
  settles (fun d => xml_backing_to_markup h (render h d id []) d m).
Proof.
  intros Hp Hm Hr. unfold xml_backing_to_markup.
  assert (Hself : settles (fun d => if has_key "__xmlDoc" m then Ok xml_standalone
    else omapo (app (xml_head ++ lit "?>")) (xml_serialize_node h (render h d id []) d m))).
  { destruct (has_key _ m); [by apply settles_const|by eapply settles_map, xml_settles]. }
  destruct (ci_get (lit "xmlRoot") m) as [v|] eqn:Hk; [|done]. destruct v; try done.
  destruct (h !! p0) as [[|n| | |]|] eqn:Hn; try by apply settles_const.
  eapply settles_map, xml_settles; [done|]. apply Nat.lt_le_incl.
  eapply (entry_under p m); [done|done|done|done|by left].
Qed.

Lemma first_present_in ks m v : first_present ks m = Some v -> exists k, ci_get k m = Some v.
Proof. induction ks as [|k ks IH]; cbn; [done|]. case_match eqn:Hk; [|done]. intros [= ->]. by eexists. Qed.

Lemma special_settles p m :
  h !! p = Some (CStruct m) -> plain m = false -> (rank p <= r)%nat ->
  settles (fun d => default Panic (special_string h (render h d id []) d m)).
Proof.
  intros Hp Hm Hr. assert (Ho : ordinary m = false) by (unfold ordinary; by rewrite Hm).
  pose proof (fun k v Hk => Hlow v (entry_under p m k v Hp Ho Hr Hk)) as Hmem.
  assert (Hrest : settles (fun d => default Panic
    (if is_component_backing m then Some (Ok (lit "<Component>"))
     else if is_xml_backing m then Some (xml_backing_to_markup h (render h d id []) d m) else None))).
  { destruct (is_component_backing m); [by apply (settles_const (Ok _))|].
    destruct (is_xml_backing m); [by apply (markup_settles p)|by apply (settles_const Panic)]. }
  unfold special_string, java_shim_string. destruct (negb _); [done|].
  destruct (ci_get (lit "__uuid") m) as [u|] eqn:Hu.
  { apply (settles_bind (fun d => render h d id [] u) (fun _ => uuid_string)); [exact (Hmem _ _ Hu)|].
    intros s. apply settles_const. unfold uuid_string. by repeat case_match. }
  destruct (ci_get (lit "__millis") m) as [ms|] eqn:Hms.
  { cbn. unfold millis_string. apply settles_map.
    destruct ms; try (by apply (settles_const (Ok _))); exact (settles_map _ _ (Hmem _ _ Hms)). }
  destruct (first_present _ m) as [v|] eqn:Hv; [|exact Hrest].
  apply first_present_in in Hv as [k Hv]. exact (Hmem _ _ Hv).
Qed.

Lemma leaf_settles order v :
  node_of order v = None -> within r v -> settles (fun d => leaf (render h d id []) d v).
Proof.
  intros Hn Hv. destruct v; try (by apply (settles_const (Ok _))); cbn in Hn |- *.
  - by apply settles_const.
  - unfold column_string. destruct (match cells !! row with Some c => Some c | None => head cells end)
      as [c|] eqn:Hc; [|by apply settles_const].
    apply Hlow. intros q Hq. apply Hv. by eapply cell_handles.
  - destruct (h !! p) as [[|m| | |]|] eqn:Hp; try by apply settles_const.
    apply (special_settles p m Hp); [by destruct (plain m)|done].
Qed.
End Lower.

Lemma items_within order v n l w :
  layered -> (forall m e, e ∈ order m -> e ∈ m) -> node_of order v = Some n -> (l, w) ∈ n_items n ->
  within (rank (n_at n)) w.
Proof.
  intros Hl Ho Hn Hw. destruct v; try done; cbn in Hn; destruct (h !! p) as [[]|] eqn:Hp; try done.
  - simplify_eq/=. apply list_elem_of_fmap in Hw as (x & [= -> ->] & Hx).
    exact (proj1 (Forall_forall _ _) (Hl _ _ Hp) _ Hx).
  - destruct (plain m); simplify_eq/=. apply list_elem_of_fmap in Hw as (e & [= -> ->] & He).
    apply Ho, list_elem_of_filter in He as [_ He].
    pose proof (proj1 (Forall_forall _ _) (Hl _ _ Hp) _ He) as H. cbn in H.
    destruct (ordinary m); [done|by apply under_within].
Qed.

Lemma node_in order v n : node_of order v = Some n -> n_at n ∈ dom h.
Proof.
  intros H. apply elem_of_dom. destruct v; try done; cbn in H; by repeat (case_match; simplify_eq/=).
Qed.

Lemma walk_settles r order path v :
  layered -> (forall m e, e ∈ order m -> e ∈ m) ->
  (forall w, under r w -> settles (fun d => render h d id [] w)) ->
  NoDup path -> (forall q, q ∈ path -> q ∈ dom h) -> within r v ->
  settles (fun d => render h d order path v).
Proof.
  intros Hl Ho Hlow. remember (size h - length path)%nat as k eqn:Ek. revert path v Ek.
  induction k as [k IH] using lt_wf_ind. intros path v -> Hnd Hdom Hv. apply settles_pred.
  setoid_rewrite render_unfold. destruct (node_of order v) as [n|] eqn:Hn.
  2: { by apply (leaf_settles r Hl Hlow order). }
  case_bool_decide as Hp; [by apply settles_const|].
  assert (Hin : forall q, q ∈ path ++ [n_at n] -> q ∈ dom h).
  { intros q [Hq | ->%list_elem_of_singleton]%elem_of_app; [by apply Hdom|by eapply node_in]. }
  assert (Hnd' : NoDup (path ++ [n_at n])).
  { apply NoDup_app. split_and!; [done| |apply NoDup_singleton].
    intros q Hq ->%list_elem_of_singleton. done. }
  assert (Hlen : (length (path ++ [n_at n]) <= size h)%nat).
  { rewrite <- size_dom, <- (size_list_to_set (C := gset N) _ Hnd').
    apply subseteq_size. intros q Hq. apply Hin. by apply elem_of_list_to_set in Hq. }
  rewrite length_app in Hlen. cbn in Hlen.
  apply settles_map, settles_mapM. intros [l w] Hw. apply settles_map. cbn.
  eapply IH; [|reflexivity|done|done|].
  - rewrite length_app. cbn. lia.
  - pose proof (items_within _ _ _ _ _ Hl Ho Hn Hw) as Hww. eapply within_le; [done|].
    destruct v; try done; cbn in Hn; repeat (case_match; simplify_eq/=; try done).
Qed.

Lemma under_settles : layered -> forall r v, under r v -> settles (fun d => render h d id [] v).
Proof.
  intros Hl. induction r as [r IH] using lt_wf_ind. intros v.
  induction v as [| | | | | | | |p|cells IHc row|p| | | | | |] using gvalue_ind; intros Hv;
    try (by apply settles_pred, (settles_const (Ok _))).
  1, 3: assert (Hp : (rank p < r)%nat) by (apply Hv; by left);
    apply (walk_settles (rank p)); [done|done|by apply IH|constructor|by intros ? ?%elem_of_nil|cbn; lia].
  apply settles_pred. cbn. unfold column_string.
  destruct (match cells !! row with Some c => Some c | None => head cells end) as [c|] eqn:Hc;
    [|by apply settles_const].
  apply (proj1 (Forall_forall _ _) (list_all_Forall _ _ IHc) c).
  - destruct (cells !! row) as [c'|] eqn:E; [simplify_eq; by eapply list_elem_of_lookup_2|].
    destruct cells; simplify_eq/=. by left.
  - intros q Hq. apply Hv. by eapply cell_handles.
Qed.

Lemma render_settles order v :
  layered -> (forall m e, e ∈ order m -> e ∈ m) -> settles (fun d => render h d order [] v).
Proof.
  intros Hl Ho. apply (walk_settles (S (list_max (map rank (handles v))))); [done|done| |constructor| |].
  - by apply under_settles.
  - by intros ? ?%elem_of_nil.
  - apply under_within. intros q Hq. apply Nat.lt_succ_r.
    pose proof (proj1 (list_max_le _ _) (le_n (list_max (map rank (handles v))))) as H.
    rewrite List.Forall_forall in H. apply H, in_map. by apply list_elem_of_In.
Qed.
End Layers.
End Facts.

(** ** The sorted form *)

Section Sorted.
Context {U : Unicode} {D : DateLib}.

Definition bytes_compare (a b : str) : comparison := list_compare N.compare (as_bytes a) (as_bytes b).

Lemma bytes_compare_flip a b : bytes_compare b a = CompOpp (bytes_compare a b).
Proof. apply list_compare_antisym, N.compare_antisym. Qed.

Lemma bytes_compare_eq a b : bytes_compare a b = Eq <-> a = b.
Proof.
  unfold bytes_compare. rewrite list_compare_eq by apply N.compare_eq_iff.
  split; [apply as_bytes_inj|by intros ->].
Qed.

Lemma bytes_compare_lt a b c :
  bytes_compare a b = Lt -> bytes_compare b c = Lt -> bytes_compare a c = Lt.
Proof.
  apply list_compare_trans; [apply N.compare_eq_iff|]. intros x y z. rewrite !N.compare_lt_iff. lia.
Qed.

Lemma entry_cmp_cases a b :
  entry_cmp a b <> Gt <->
  bytes_compare (to_lowercase a.1) (to_lowercase b.1) = Lt
  \/ to_lowercase a.1 = to_lowercase b.1 /\ (bytes_compare a.1 b.1 = Lt \/ a.1 = b.1).
Proof.
  unfold entry_cmp. fold (bytes_compare (to_lowercase a.1) (to_lowercase b.1)).
  fold (bytes_compare a.1 b.1). rewrite <- !bytes_compare_eq.
  destruct (bytes_compare (to_lowercase a.1) _), (bytes_compare a.1 b.1); naive_solver.
Qed.

#[global] Instance entry_le_total : Total entry_le.
Proof.
  intros a b. unfold entry_le, entry_cmp. fold (bytes_compare (to_lowercase a.1) (to_lowercase b.1)).
  fold (bytes_compare (to_lowercase b.1) (to_lowercase a.1)).
  fold (bytes_compare a.1 b.1). fold (bytes_compare b.1 a.1).
  rewrite (bytes_compare_flip a.1 b.1), (bytes_compare_flip (to_lowercase a.1) (to_lowercase b.1)).
  destruct (bytes_compare (to_lowercase a.1) _), (bytes_compare a.1 b.1); cbn; auto.
Qed.

#[global] Instance entry_le_trans : Transitive entry_le.
Proof.
  intros a b c. unfold entry_le. rewrite !entry_cmp_cases.
  intros [H1 | [E1 H1]] [H2 | [E2 H2]].
  - left. by eapply bytes_compare_lt.
  - left. by rewrite <- E2.
  - left. by rewrite E1.
  - right. split; [congruence|]. destruct H1 as [H1 | ->], H2 as [H2 | <-]; eauto using bytes_compare_lt.
Qed.

Lemma entry_le_antisym a b : entry_le a b -> entry_le b a -> a.1 = b.1.
Proof.
  unfold entry_le. rewrite !entry_cmp_cases.
  rewrite (bytes_compare_flip a.1 b.1), (bytes_compare_flip (to_lowercase a.1) (to_lowercase b.1)).
  intros [H1 | [E1 [H1 | H1]]]; [| |done]; rewrite H1; cbn.
  - intros [H2 | [E2 _]]; [done|]. rewrite E2, (proj2 (bytes_compare_eq _ _) eq_refl) in H1. done.
  - by intros [H2 | [_ [H2 | H2]]]; [rewrite E1, (proj2 (bytes_compare_eq _ _) eq_refl) in H2| |].
Qed.

Lemma sort_perm m m' : m ≡ₚ m' -> NoDup m.*1 -> sort_entries m = sort_entries m'.
Proof.
  intros Hp Hnd. unfold sort_entries. apply (StronglySorted_unique_strong entry_le).
  - intros a b Ha Hb Hab Hba. rewrite merge_sort_Permutation in Ha, Hb. rewrite <- Hp in Hb.
    destruct (list_elem_of_lookup_1 _ _ Ha) as [i Hi], (list_elem_of_lookup_1 _ _ Hb) as [j Hj].
    assert (i = j); [|congruence].
    eapply (NoDup_lookup m.*1 i j a.1); [done|by rewrite list_lookup_fmap, Hi|].
    rewrite list_lookup_fmap, Hj. cbn. by rewrite (entry_le_antisym a b).
  - apply StronglySorted_merge_sort; apply _.
  - apply StronglySorted_merge_sort; apply _.
  - by rewrite !merge_sort_Permutation.
Qed.
End Sorted.

(** ** Graphs with the same content *)

Section Content.
Context {U : Unicode} {D : DateLib}.

(** A column whose cells name no container; any other value. *)
Definition flat (v : gvalue) : Prop :=
  match v with JQueryColumn _ _ => handles v = [] | _ => True end.

(** Structs that render as structs, and flat items. *)
Definition dumped (h : store) : Prop :=
  forall p c, h !! p = Some c ->
  match c with
  | CArray l => Forall flat l
  | CStruct m => plain h m = true /\ Forall (fun e => flat e.2) m
  | _ => True
  end.

(** The same cells, but for the order of a struct's entries. *)
Definition same_cell (c c' : cell) : Prop :=
  match c, c' with
  | CStruct m, CStruct m' => m ≡ₚ m' /\ NoDup m.*1
  | c, c' => c = c'
  end.

Definition same_content (h h' : store) : Prop := forall p, option_Forall2 same_cell (h !! p) (h' !! p).

Variables h h' : store.
Hypothesis Hsame : same_content h h'.
Hypothesis Hd : dumped h.
Hypothesis Hd' : dumped h'.

Lemma cells_at p :
  h !! p = None /\ h' !! p = None
  \/ exists c c', h !! p = Some c /\ h' !! p = Some c' /\ same_cell c c'.
Proof. destruct (Hsame p) as [c c' Hc|]; [right; by exists c, c'|by left]. Qed.

Lemma same_atom v : atom_string h v = atom_string h' v.
Proof.
  destruct v; try done. cbn. destruct (Hsame p) as [c c' Hc|]; [|done].
  destruct c, c'; cbn in Hc; by simplify_eq.
Qed.

Lemma walk_items_ext f g items :
  (forall l w mm, (l, w) ∈ items -> f w mm = g w mm) ->
  forall mm, walk_items f items mm = walk_items g items mm.
Proof.
  induction items as [|[l w] items IH]; intros H mm; [done|]. cbn. unfold st_bind.
  rewrite (H l w mm) by (by left). destruct (g w mm) as [mm' [r| |]]; [|done|done].
  rewrite IH; [done|]. intros l' w' mm'' Hi. eapply H. by right.
Qed.

Lemma flat_cell cells row c :
  handles (JQueryColumn cells row) = [] ->
  (match cells !! row with Some c => Some c | None => head cells end) = Some c -> handles c = [].
Proof.
  intros Hv Hc. destruct (handles c) as [|q l] eqn:Hq; [done|].
  assert (Hin : q ∈ handles (JQueryColumn cells row)) by (eapply cell_handles; [done|rewrite Hq; by left]).
  rewrite Hv in Hin. by apply elem_of_nil in Hin.
Qed.

Lemma same_fresh d v : handles v = [] -> forall mm, string_memo h d id [] v mm = string_memo h' d id [] v mm.
Proof.
  revert v. induction d as [|d IH]; intros v Hv mm; [done|].
  destruct v; try done; cbn [string_memo]; try (unfold st_ret; by rewrite same_atom).
  unfold st_lift, column_string. do 2 f_equal.
  destruct (match cells !! row with Some c => Some c | None => head cells end) as [c|] eqn:Hc; [|done].
  rewrite IH; [done|by eapply flat_cell].
Qed.

Lemma sorted_same m m' :
  m ≡ₚ m' -> NoDup m.*1 -> sort_entries (visible m) = sort_entries (visible m').
Proof.
  intros Hp Hnd. apply sort_perm; [unfold visible; by rewrite Hp|].
  eapply sublist_NoDup; [exact Hnd|]. apply fmap_sublist, sublist_filter.
Qed.

Lemma memo_same d path v : flat v ->
  forall mm, string_memo h d sort_entries path v mm = string_memo h' d sort_entries path v mm.
Proof.
  revert path v. induction d as [|d IH]; intros path v Hv mm; [done|].
  assert (Hwalk : forall p o c items, Forall (fun e => flat e.2) items ->
    walk_container path p o c items (string_memo h d sort_entries (path ++ [p])) mm
    = walk_container path p o c items (string_memo h' d sort_entries (path ++ [p])) mm).
  { intros p o c items Hi. unfold walk_container. case_bool_decide; [done|].
    destruct (mm !! p); [done|]. unfold st_bind. erewrite walk_items_ext; [done|].
    intros l w mm' Hw. apply IH. exact (proj1 (Forall_forall _ _) Hi _ Hw). }
  destruct v; try done; cbn [string_memo]; try (unfold st_ret; by rewrite same_atom).
  - destruct (cells_at p) as [[-> ->] | (c & c' & Hp & Hp' & Hc)]; [done|]. rewrite Hp, Hp'.
    destruct c, c'; cbn in Hc; simplify_eq; try done. apply Hwalk, Forall_fmap.
    eapply Forall_impl; [exact (Hd p _ Hp)|done].
  - unfold st_lift, column_string. do 2 f_equal.
    destruct (match cells !! row with Some c => Some c | None => head cells end) as [c|] eqn:Hc; [|done].
    rewrite same_fresh; [done|]. by eapply flat_cell.
  - destruct (cells_at p) as [[-> ->] | (c & c' & Hp & Hp' & Hc)]; [done|]. rewrite Hp, Hp'.
    destruct c as [|m| | |], c' as [|m'| | |]; cbn in Hc; simplify_eq; try done.
    destruct (Hd p _ Hp) as [Hm Hf], (Hd' p _ Hp') as [Hm' _], Hc as [Hperm Hnd].
    assert (Hnone : forall g f m, plain g m = true -> special_string g f d m = None)
      by (intros g f n Hn; pose proof (special_plain g f d n) as H; by rewrite Hn in H).
    rewrite !Hnone by done. rewrite <- (sorted_same _ _ Hperm Hnd). apply Hwalk, Forall_fmap.
    apply Forall_forall. intros e He. unfold sort_entries in He. rewrite merge_sort_Permutation in He.
    apply list_elem_of_filter in He as [_ He]. exact (proj1 (Forall_forall _ _) Hf e He).
Qed.
End Content.

(** ** The theorems *)

(** C15. On a graph in layers, deep enough, the string form and the sorted string
    form terminate, and with their memo they are byte for byte what rendering
    every container again on every path gives, cycle marks included. *)
Theorem string_form_correct {U : Unicode} {D : DateLib} (h : store) (rank : N -> nat) (v : gvalue) :
  layered h rank ->
  exists r s d0, r <> Err StackOverflow /\ s <> Err StackOverflow /\
  forall d, (d0 <= d)%nat ->
    as_string h d v = r /\ render h d id [] v = r
    /\ to_string_sorted h d v = s /\ render h d sort_entries [] v = s.
Proof.
  intros Hl. destruct (render_settles h rank id v Hl) as (r & d1 & Hr & H1); [done|].
  destruct (render_settles h rank sort_entries v Hl) as (s & d2 & Hs & H2).
  { intros m e He. unfold sort_entries in He. by rewrite merge_sort_Permutation in He. }
  exists r, s, (d1 + d2)%nat. split_and!; [done|done|]. intros d Hd.
  pose proof (walk_renders h d id v) as W1. rewrite H1 in W1 |- * by lia.
  pose proof (walk_renders h d sort_entries v) as W2. rewrite H2 in W2 |- * by lia.
  split_and!; [by apply below_some|done|by apply below_some|done].
Qed.

(** Two graphs with the same cells up to the order of struct entries have
    the same sorted string form, whatever the depth. *)
Theorem sorted_form_content {U : Unicode} {D : DateLib} (h h' : store) (d : nat) (v : gvalue) :
  same_content h h' -> dumped h -> dumped h' -> flat v ->
  to_string_sorted h d v = to_string_sorted h' d v.
Proof.
  intros Hs Hd Hd' Hv. unfold to_string_sorted, to_string_sorted_memo.
  by rewrite (memo_same h h' Hs Hd Hd' d [] v Hv).
Qed.

(** *** Walks that start over and never end *)

(** A Java object whose value is itself; an array that holds a query column with
    that array in its cell; an XML node that is its own child. *)
Definition own_value : store :=
  {[ 0 := CStruct [(lit "__java_shim", JBool true); (lit "__value", JStruct 0)] ]}.
Definition own_column : store := {[ 0 := CArray [JQueryColumn [JArray 0] 0] ]}.
Definition own_child : store :=
  <[ 0 := CStruct [(lit "xmlName", JString (lit "a")); (lit "xmlAttributes", JNull);
                   (lit "xmlChildren", JArray 1)] ]> {[ 1 := CArray [JStruct 0] ]}.

Section Overflow.
Context {U : Unicode} {D : DateLib}.

Lemma as_string_leaf h d v :
  node_of h id v = None -> as_string h (S d) v = leaf h (as_string h d) d v.
Proof.
  intros Hn. unfold as_string at 1, as_string_memo. rewrite string_memo_unfold, Hn. cbn.
  by destruct (leaf h (as_string h d) d v).
Qed.

(** What the strict form accepts, it renders as [as_string] does; a component's
    backing struct that is an XML node too is the exception. *)
Lemma strict_agrees h d v s :
  to_string_strict h d v = Ok (inl s) ->
  (forall p m, v = JStruct p -> h !! p = Some (CStruct m) -> is_component_backing m = false) ->
  exists d', as_string h d' v = Ok s.
Proof.
  assert (Hdirect : forall r, omapo inl r = Ok (@inl str str s) -> r = @Ok overflow str s)
    by (intros [] [=]; congruence).
  intros H Hno. destruct v; try done; try (exists d; by apply Hdirect); cbn in H;
    destruct (h !! p) as [[|m| | |]|] eqn:Hp; try done. exists (S d).
  assert (Hs : special_string h (as_string h d) d m = Some (Ok s)).
  { unfold special_string. destruct (java_shim_string h (as_string h d) m) as [r|].
    - f_equal. by apply Hdirect.
    - rewrite (Hno p m eq_refl Hp). destruct (is_xml_backing m); [|done]. f_equal. by apply Hdirect. }
  rewrite as_string_leaf; cbn; rewrite Hp; [by rewrite Hs|].
  pose proof (special_plain h (as_string h d) d m) as Hpl. destruct (plain h m); [congruence|done].
Qed.

Lemma own_value_overflows d : as_string own_value d (JStruct 0) = Err StackOverflow.
Proof. induction d as [|d IH]; [done|]. rewrite as_string_leaf; [exact IH|by vm_compute]. Qed.

Lemma own_column_overflows d : as_string own_column d (JArray 0) = Err StackOverflow.
Proof.
  induction d as [d IH] using lt_wf_ind. destruct d as [|[|d]]; [done|done|].
  unfold as_string, as_string_memo. rewrite string_memo_unfold.
  change (node_of own_column id (JArray 0))
    with (Some (Node 0 (lit "[") (lit "]") (array_items [JQueryColumn [JArray 0] 0]))).
  unfold walk_container. cbn [n_at n_items n_open n_close app].
  rewrite bool_decide_false by (by intros ?%elem_of_nil). rewrite lookup_empty.
  unfold st_bind, array_items. cbn [map walk_items snd]. unfold st_bind. rewrite string_memo_unfold.
  cbn [node_of leaf column_string lookup list_lookup]. by rewrite IH by lia.
Qed.

Lemma own_child_node e k :
  exists m, own_child !! 0 = Some (CStruct m)
            /\ xml_serialize_node own_child (as_string own_child e) k m = Err StackOverflow.
Proof.
  eexists. split; [reflexivity|]. induction k as [|k IH]; [done|]. cbn [xml_serialize_node].
  replace (ci_get (lit "xmlName") _) with (Some (JString (lit "a"))) by (by vm_compute).
  destruct e as [|e]; [done|].
  replace (as_string own_child (S e) (JString (lit "a"))) with (@Ok overflow str (lit "a")) by done.
  cbn [obind]. rewrite bool_decide_false by done.
  replace (ci_get (lit "xmlAttributes") _) with (Some JNull) by (by vm_compute).
  replace (ci_get (lit "xmlText") _) with (@None gvalue) by (by vm_compute).
  replace (ci_get (lit "xmlChildren") _) with (Some (JArray 1)) by (by vm_compute).
  cbn [obind]. replace (own_child !! 1) with (Some (CArray [JStruct 0])) by (by vm_compute).
  cbn [obind]. rewrite (bool_decide_false (default [] (Some [JStruct 0]) = [])) by done. rewrite andb_false_r. 
  cbn [id default omapM]. replace (own_child !! 0) with (Some (CStruct
    [(lit "xmlName", JString (lit "a")); (lit "xmlAttributes", JNull); (lit "xmlChildren", JArray 1)]))
    by (by vm_compute).
  by rewrite IH.
Qed.

Lemma own_child_overflows d : as_string own_child d (JStruct 0) = Err StackOverflow.
Proof.
  destruct d as [|d]; [done|]. rewrite as_string_leaf by (by vm_compute).
  destruct (own_child_node d d) as (m & Hm & Hx). cbn [leaf]. rewrite Hm.
  assert (E : m = [(lit "xmlName", JString (lit "a")); (lit "xmlAttributes", JNull);
                   (lit "xmlChildren", JArray 1)]) by (vm_compute in Hm; by injection Hm).
  replace (special_string own_child (as_string own_child d) d m)
    with (Some (omapo (app (xml_head ++ lit "?>")) (xml_serialize_node own_child (as_string own_child d) d m))).
  { cbn. by rewrite Hx. }
  by rewrite E.
Qed.
End Overflow.

(** C36. The cycle guard does not reach a walk that starts over: at no depth does
    the string form of these three values return. *)
Theorem string_form_overflows {U : Unicode} {D : DateLib} (d : nat) :
  as_string own_value d (JStruct 0) = Err StackOverflow
  /\ as_string own_column d (JArray 0) = Err StackOverflow
  /\ as_string own_child d (JStruct 0) = Err StackOverflow.
Proof.
  split_and!; [apply own_value_overflows|apply own_column_overflows|apply own_child_overflows].
Qed.
