(* ===== verification/Equality.v ===== *)
(** * Equality: deep comparison of value graphs

    cfml-common: [equality.rs] ([DeepEqGuard::enter], [deep_equal],
    [deep_equal_with]) with [same_component_instance] of [component.rs].

    The guard's set of pairs met is the state.  [room] is how many nested
    containers the native stack still holds: [has_headroom] answers [true] while
    it is positive.  [depth] bounds the string form of a query column. *)

From stdpp Require Import base list numbers strings gmap.
From S2P Require Import Prelude Text Float64 Value Bytes Keys ValueMap ObjCodec Stringify.
Local Open Scope N_scope.
Local Open Scope st_scope.

(** [Err] of the walk, and the abort of a string form deeper than the stack. *)
Inductive eq_stop := NestedTooDeeply (e : cfml_error) | Aborted.

Abbreviation seen := (gset (N * N)).

Definition too_deep : eq_stop :=
  NestedTooDeeply (runtime (lit
    "Cannot compare the values: they are nested too deeply (the native stack is exhausted)")).

(** [DeepEqGuard::enter] *)
Definition enter (room : nat) (a b : N) : ST seen eq_stop bool := fun s =>
  if a =? b then (s, Ok true)
  else if (room =? 0)%nat then (s, Err too_deep)
  else ({[(a, b)]} ∪ s, Ok (bool_decide ((a, b) ∈ s))).

(** A loop that stops at the first [false]. *)
Fixpoint st_all {A} (f : A -> ST seen eq_stop bool) (l : list A) : ST seen eq_stop bool :=
  match l with
  | [] => st_ret true
  | x :: l => let! b := f x in if b then st_all f l else st_ret false
  end.

Definition is_instance_backed (v : gvalue) : bool := match v with JInstance _ => true | _ => false end.

Definition same_component_instance (a b : gvalue) : bool :=
  match a, b with JInstance p, JInstance q => p =? q | _, _ => false end.

Definition same_text (nocase : bool) (x y : str) : bool :=
  if nocase then eq_ignore_ascii_case x y else bool_decide (x = y).

(** [da.data[ci][ri]] *)
Definition query_cell (data : list (list gvalue)) (ci ri : nat) : outcome eq_stop gvalue :=
  obind (index_or_panic data ci) (fun col => index_or_panic col ri).

(** The cells in the order the loops visit them. *)
Definition cell_indices (columns rows : nat) : list (nat * nat) :=
  concat (map (fun ci => map (pair ci) (seq 0 rows)) (seq 0 columns)).

(** What a struct may have beside its entries when it is a scope of a component:
    the method table of its class, and the live alias of [this]. *)
Record scope_parts := ScopeParts { sp_method_table : entries; sp_this_alias : option gvalue }.

Definition plain_parts : scope_parts := ScopeParts [] None.

(** [CfmlStruct::get_ci] *)
Definition get_ci (x : scope_parts) (k : str) (m : entries) : option gvalue :=
  match ci_get k m with
  | Some v => Some v
  | None => match ci_get k (sp_method_table x) with
            | Some v => Some v
            | None => if eq_ignore_ascii_case k (lit "this") then sp_this_alias x else None
            end
  end.

Section Equality.
Context {U : Unicode} {D : DateLib}.
Variables (h : store) (parts : N -> scope_parts) (depth : nat) (nocase : bool).

(** [as_string] of a value that is not a container. *)
Definition text_of (v : gvalue) : ST seen eq_stop str :=
  match as_string h depth v with
  | Ok s => st_ret s
  | Err StackOverflow => st_err Aborted
  | Panic => st_panic
  end.

Definition struct_equal (eq : gvalue -> gvalue -> ST seen eq_stop bool) (x : scope_parts) (m n : entries)
    : ST seen eq_stop bool :=
  if negb (length m =? length n)%nat then st_ret false
  else st_all (fun e => match get_ci x e.1 n with
                        | Some w => eq e.2 w
                        | None => st_ret false
                        end) m.

Definition array_equal (eq : gvalue -> gvalue -> ST seen eq_stop bool) (l l' : list gvalue)
    : ST seen eq_stop bool :=
  if negb (length l =? length l')%nat then st_ret false
  else st_all (fun xy => eq xy.1 xy.2) (zip l l').

Definition query_equal (eq : gvalue -> gvalue -> ST seen eq_stop bool)
    (cs : list str) (data : list (list gvalue)) (cs' : list str) (data' : list (list gvalue))
    : ST seen eq_stop bool :=
  if negb (length cs =? length cs')%nat || negb (data_rows data =? data_rows data')%nat then st_ret false
  else if negb (forallb (fun xy => eq_ignore_ascii_case xy.1 xy.2) (zip cs cs')) then st_ret false
  else st_all (fun i => let! x := st_lift (query_cell data i.1 i.2) in
                        let! y := st_lift (query_cell data' i.1 i.2) in eq x y)
         (cell_indices (length cs) (data_rows data)).

(** The contents of two containers of one kind, the second one with the parts
    [x]; a handle leads to a cell of its kind, and the last arm is not reached. *)
Definition cells_equal (eq : gvalue -> gvalue -> ST seen eq_stop bool) (x : scope_parts) (c c' : option cell)
    : ST seen eq_stop bool :=
  match c, c' with
  | Some (CStruct m), Some (CStruct n) => struct_equal eq x m n
  | Some (CArray l), Some (CArray l') => array_equal eq l l'
  | Some (CQuery cs data), Some (CQuery cs' data') => query_equal eq cs data cs' data'
  | _, _ => st_panic
  end.

Fixpoint deep_equal_with (room : nat) (a b : gvalue) : ST seen eq_stop bool :=
  let descend p q :=
    let! settled := enter room p q in
    if settled : bool then st_ret true
    else match room with
         | O => st_panic
         | S room => cells_equal (deep_equal_with room) (parts q) (h !! p) (h !! q)
         end in
  match a, b with
  | JString x, JString y => st_ret (same_text nocase x y)
  | JStruct p, JStruct q => descend p q
  | JArray p, JArray q => descend p q
  | JQuery p, JQuery q => descend p q
  | JStruct _, _ | _, JStruct _ => st_ret false
  | JArray _, _ | _, JArray _ => st_ret false
  | JQuery _, _ | _, JQuery _ => st_ret false
  | a, b =>
      if is_instance_backed a || is_instance_backed b then st_ret (same_component_instance a b)
      else let! x := text_of a in let! y := text_of b in st_ret (same_text nocase x y)
  end.

Definition deep_equal (room : nat) (a b : gvalue) : outcome eq_stop bool :=
  (deep_equal_with room a b ∅).2.
End Equality.
