(* ===== verification/EqualityFacts.v ===== *)
(** * EqualityFacts: deep comparison decides bisimilarity

    Two values are equal when some relation holds of them that every pair in it
    can step through: containers of one kind with related contents, the same
    component, or the same text.  [deep_equal] decides this on any graph, cyclic
    ones included, and it is an equivalence relation. *)

From stdpp Require Import base list numbers strings gmap.
From S2P Require Import Prelude Text Float64 Value Bytes Keys ValueMap ObjCodec Stringify Equality.
Local Open Scope N_scope.

Section Facts.
Context {U : Unicode} {D : DateLib}.
Variables (h : store) (parts : N -> scope_parts) (depth : nat) (nocase : bool).

(** ** The specification *)

Inductive container := KStruct | KArray | KQuery.
#[global] Instance container_eq_dec : EqDecision container.
Proof. solve_decision. Defined.

Definition handle (v : gvalue) : option (container * N) :=
  match v with
  | JStruct p => Some (KStruct, p)
  | JArray p => Some (KArray, p)
  | JQuery p => Some (KQuery, p)
  | _ => None
  end.

Definition same_texts (a b : gvalue) : Prop :=
  exists x y, as_string h depth a = Ok x /\ as_string h depth b = Ok y /\ same_text nocase x y = true.

Definition leaf_alike (a b : gvalue) : Prop :=
  match a, b with
  | JInstance p, JInstance q => p = q
  | JInstance _, _ | _, JInstance _ => False
  | a, b => same_texts a b
  end.

Definition cell_at (data : list (list gvalue)) (ci ri : nat) : option gvalue :=
  col ← data !! ci; col !! ri.

Definition cells_alike (R : gvalue -> gvalue -> Prop) (x : scope_parts) (c c' : option cell) : Prop :=
  match c, c' with
  | Some (CStruct m), Some (CStruct n) =>
      length m = length n /\ forall e, e ∈ m -> exists w, get_ci x e.1 n = Some w /\ R e.2 w
  | Some (CArray l), Some (CArray l') => Forall2 R l l'
  | Some (CQuery cs data), Some (CQuery cs' data') =>
      Forall2 (fun x y => eq_ignore_ascii_case x y = true) cs cs' /\ data_rows data = data_rows data'
      /\ forall ci ri, (ci < length cs)%nat -> (ri < data_rows data)%nat ->
           exists x y, cell_at data ci ri = Some x /\ cell_at data' ci ri = Some y /\ R x y
  | _, _ => False
  end.

(** What a pair steps to. *)
Definition alike (R : gvalue -> gvalue -> Prop) (a b : gvalue) : Prop :=
  match handle a, handle b with
  | Some (k, p), Some (k', q) => k = k' /\ (p = q \/ cells_alike R (parts q) (h !! p) (h !! q))
  | None, None => leaf_alike a b
  | _, _ => False
  end.

Definition bisimulation (R : gvalue -> gvalue -> Prop) : Prop := forall a b, R a b -> alike R a b.

Definition bisimilar (a b : gvalue) : Prop := exists R, bisimulation R /\ R a b.

(** *** Well-formed graphs *)

(** A handle leads to a cell of its kind; anything else has a string form. *)
Definition value_wf (v : gvalue) : Prop :=
  match v with
  | JStruct p => exists m, h !! p = Some (CStruct m)
  | JArray p => exists l, h !! p = Some (CArray l)
  | JQuery p => exists cs data, h !! p = Some (CQuery cs data)
  | v => exists s, as_string h depth v = Ok s
  end.

Definition cell_wf (c : cell) : Prop :=
  match c with
  | CArray l => Forall value_wf l
  | CStruct m => Forall (fun e => value_wf e.2) m /\ ci_distinct m
  | CQuery cs data =>
      length data = length cs
      /\ Forall (fun col => length col = data_rows data /\ Forall value_wf col) data
  | _ => True
  end.

Definition parts_wf (x : scope_parts) : Prop :=
  Forall (fun e => value_wf e.2) (sp_method_table x) /\ forall v, sp_this_alias x = Some v -> value_wf v.

Definition graph_wf : Prop :=
  (0 < depth)%nat /\ (forall p c, h !! p = Some c -> cell_wf c) /\ forall p, parts_wf (parts p).

(** ** The walk by cases *)

Definition leaf_equal (a b : gvalue) : ST seen eq_stop bool :=
  if is_instance_backed a || is_instance_backed b then st_ret (same_component_instance a b)
  else st_bind (text_of h depth a) (fun x =>
       st_bind (text_of h depth b) (fun y => st_ret (same_text nocase x y))).

Definition descend (room : nat) (p q : N) : ST seen eq_stop bool :=
  st_bind (enter room p q) (fun settled =>
  if settled : bool then st_ret true
  else match room with
       | O => st_panic
       | S room => cells_equal (deep_equal_with h parts depth nocase room) (parts q) (h !! p) (h !! q)
       end).

Lemma string_text x : (0 < depth)%nat -> as_string h depth (JString x) = Ok x.
Proof. destruct depth; [lia|done]. Qed.

Lemma deep_equal_cases room a b :
  (0 < depth)%nat ->
  meq (deep_equal_with h parts depth nocase room a b)
  match handle a, handle b with
  | Some (k, p), Some (k', q) => if decide (k = k') then descend room p q else st_ret false
  | None, None => leaf_equal a b
  | _, _ => st_ret false
  end.
Proof.
  intros Hd s. assert (Hs : forall x y, st_ret (same_text nocase x y) s = leaf_equal (JString x) (JString y) s).
  { intros x y. unfold leaf_equal, text_of. cbn [is_instance_backed orb].
    rewrite !string_text by done. reflexivity. }
  destruct room; destruct a; destruct b; first [reflexivity | apply Hs].
Qed.

Lemma cells_alike_mono (R R' : gvalue -> gvalue -> Prop) x c c' :
  (forall x y, R x y -> R' x y) -> cells_alike R x c c' -> cells_alike R' x c c'.
Proof.
  intros H. destruct c as [[]|]; try done; destruct c' as [[]|]; try done; cbn.
  - intros Hf. eapply Forall2_impl; eauto.
  - intros [Hl Hm]. split; [done|]. intros e He. destruct (Hm e He) as (w & ? & ?). eauto.
  - intros (Hc & Hr & Hcell). split_and!; [done|done|]. intros ci ri Hci Hri.
    destruct (Hcell ci ri Hci Hri) as (u & y & ? & ? & ?). eauto 6.
Qed.

(** ** A run that answers [true] leaves a bisimulation behind *)

(** Settled on the strength of the pairs met. *)
Definition settled (s : seen) (a b : gvalue) : Prop :=
  match handle a, handle b with
  | Some (k, p), Some (k', q) => k = k' /\ (p = q \/ (p, q) ∈ s)
  | None, None => leaf_alike a b
  | _, _ => False
  end.

Definition done_pair (s : seen) (pq : N * N) : Prop := cells_alike (settled s) (parts pq.2) (h !! pq.1) (h !! pq.2).

(** Every pair added is done. *)
Definition grows (s s' : seen) : Prop :=
  s ⊆ s' /\ forall pq, pq ∈ s' -> pq ∈ s \/ done_pair s' pq.

Lemma settled_mono s s' a b : s ⊆ s' -> settled s a b -> settled s' a b.
Proof.
  intros Hs. unfold settled. destruct (handle a) as [[k p]|], (handle b) as [[k' q]|]; try done.
  intros [-> [-> | H]]; (split; [done|]); [by left|right; by apply Hs].
Qed.

Lemma done_mono s s' pq : s ⊆ s' -> done_pair s pq -> done_pair s' pq.
Proof. intros Hs. apply cells_alike_mono. intros x y. by apply settled_mono. Qed.

#[local] Instance grows_preorder : PreOrder grows.
Proof.
  split.
  - intros s. split; [done|by left].
  - intros s1 s2 s3 [H12 D12] [H23 D23]. split; [by etrans|]. intros pq Hpq.
    destruct (D23 pq Hpq) as [H | H]; [|by right].
    destruct (D12 pq H) as [H' | H']; [by left|right]. by eapply done_mono.
Qed.

(** An equality step that is right when it answers [true]. *)
Definition sound (eq : gvalue -> gvalue -> ST seen eq_stop bool) : Prop :=
  forall a b s s', eq a b s = (s', Ok true) -> grows s s' /\ settled s' a b.

Lemma st_all_sound {A} (f : A -> ST seen eq_stop bool) (Q : seen -> A -> Prop) l s s' :
  (forall x s s', s ⊆ s' -> Q s x -> Q s' x) ->
  (forall x s s', x ∈ l -> f x s = (s', Ok true) -> grows s s' /\ Q s' x) ->
  st_all f l s = (s', Ok true) -> grows s s' /\ forall x, x ∈ l -> Q s' x.
Proof.
  intros Hmono. revert s. induction l as [|x l IH]; intros s Hf H; cbn in H.
  { injection H as <-. split; [done|]. by intros x ?%elem_of_nil. }
  unfold st_bind in H. destruct (f x s) as [s1 [[]| |]] eqn:Hx; try done.
  destruct (Hf x s s1) as [Hg Hq]; [by left|done|].
  destruct (IH s1) as [Hg' Hq']; [intros; eapply Hf; [by right|done]|done|].
  split; [by etrans|]. intros y [-> | Hy]%elem_of_cons; [|by apply Hq'].
  eapply Hmono; [apply Hg'|done].
Qed.

Lemma elem_of_cell_indices i columns rows :
  i ∈ cell_indices columns rows <-> (i.1 < columns)%nat /\ (i.2 < rows)%nat.
Proof.
  unfold cell_indices. rewrite list_elem_of_In, in_concat. split.
  - intros (l & Hl & Hi). apply in_map_iff in Hl as (c & <- & Hc), Hi as (r & <- & Hr).
    apply in_seq in Hc, Hr. cbn. lia.
  - destruct i as [c r]. cbn. intros [Hc Hr]. exists (map (pair c) (seq 0 rows)).
    split; [|apply in_map, in_seq; lia].
    apply (in_map (fun ci => map (pair ci) (seq 0 rows))), in_seq. lia.
Qed.

Lemma query_cell_at data ci ri :
  query_cell data ci ri = match cell_at data ci ri with Some v => Ok v | None => Panic end.
Proof. unfold query_cell, cell_at, index_or_panic. by destruct (data !! ci). Qed.

Lemma columns_forall2 (cs cs' : list str) :
  length cs = length cs' -> forallb (fun xy => eq_ignore_ascii_case xy.1 xy.2) (zip cs cs') = true ->
  Forall2 (fun x y => eq_ignore_ascii_case x y = true) cs cs'.
Proof.
  revert cs'. induction cs as [|c cs IH]; intros [|c' cs']; cbn; try done.
  intros [= H] [Hc Ht]%andb_true_iff. constructor; auto.
Qed.

Lemma query_sound eq x0 cs data cs' data' s s' :
  sound eq -> query_equal eq cs data cs' data' s = (s', Ok true) ->
  grows s s' /\ cells_alike (settled s') x0 (Some (CQuery cs data)) (Some (CQuery cs' data')).
Proof.
  intros Heq H. unfold query_equal in H.
  destruct (Nat.eqb_spec (length cs) (length cs')) as [Hl|]; [|done].
  destruct (Nat.eqb_spec (data_rows data) (data_rows data')) as [Hr|]; [|done]. cbn in H.
  destruct (forallb _ _) eqn:Hc; [|done]. cbn in H.
  eapply (st_all_sound _ (fun s i => exists x y, cell_at data i.1 i.2 = Some x
    /\ cell_at data' i.1 i.2 = Some y /\ settled s x y)) in H as [Hg Hq].
  - split; [done|]. split_and!; [by apply columns_forall2|done|].
    intros ci ri Hci Hri. apply (Hq (ci, ri)), elem_of_cell_indices. by split.
  - intros i t t' Ht (x & y & ? & ? & ?). eauto 6 using settled_mono.
  - intros i t t' _ Hi. unfold st_bind, st_lift in Hi. rewrite !query_cell_at in Hi.
    destruct (cell_at data i.1 i.2) as [x|]; [|done]. destruct (cell_at data' i.1 i.2) as [y|]; [|done].
    apply Heq in Hi as [? ?]. eauto 6.
Qed.

Lemma cells_sound eq x0 c c' s s' :
  sound eq -> cells_equal eq x0 c c' s = (s', Ok true) ->
  grows s s' /\ cells_alike (settled s') x0 c c'.
Proof.
  intros Heq. destruct c as [[l|m|cs data| |]|]; try done; destruct c' as [[l'|n|cs' data'| |]|]; try done;
    cbn [cells_equal].
  - unfold array_equal. destruct (Nat.eqb_spec (length l) (length l')) as [Hl|]; [|done]. cbn. intros H.
    eapply (st_all_sound _ (fun s xy => settled s xy.1 xy.2)) in H as [Hg Hq].
    + split; [done|]. apply Forall2_same_length_lookup_2; [done|]. intros i x y Hx Hy.
      apply (Hq (x, y)). eapply list_elem_of_lookup_2. by rewrite lookup_zip_with, Hx, Hy.
    + intros xy t t'. apply settled_mono.
    + intros [x y] t t' _. apply Heq.
  - unfold struct_equal. destruct (Nat.eqb_spec (length m) (length n)) as [Hl|]; [|done]. cbn. intros H.
    eapply (st_all_sound _ (fun s e => exists w, get_ci x0 e.1 n = Some w /\ settled s e.2 w)) in H as [Hg Hq];
      [by split| |].
    + intros e t t' Ht (w & ? & ?). eauto using settled_mono.
    + intros e t t' _ He. destruct (get_ci x0 e.1 n) as [w|]; [|done]. apply Heq in He as [? ?]. eauto.
  - by apply query_sound.
Qed.

Lemma leaf_run a b s :
  leaf_equal a b s
  = (s, if is_instance_backed a || is_instance_backed b then Ok (same_component_instance a b)
        else match as_string h depth a, as_string h depth b with
             | Ok x, Ok y => Ok (same_text nocase x y)
             | Err StackOverflow, _ | Ok _, Err StackOverflow => Err Aborted
             | _, _ => Panic
             end).
Proof.
  unfold leaf_equal, st_bind, text_of. destruct (_ || _); [done|].
  destruct (as_string h depth a) as [x|[]|]; try done. by destruct (as_string h depth b) as [y|[]|].
Qed.

Lemma leaf_alike_instance a b :
  is_instance_backed a || is_instance_backed b = true ->
  leaf_alike a b <-> same_component_instance a b = true.
Proof. destruct a, b; cbn; try done; intros _; by rewrite ?N.eqb_eq. Qed.

Lemma leaf_alike_text a b :
  is_instance_backed a || is_instance_backed b = false -> leaf_alike a b <-> same_texts a b.
Proof. by destruct a, b. Qed.

Lemma leaf_sound a b s s' : leaf_equal a b s = (s', Ok true) -> s' = s /\ leaf_alike a b.
Proof.
  rewrite leaf_run. intros [= <- H]. split; [done|]. destruct (_ || _) eqn:E.
  - injection H as H. by apply leaf_alike_instance.
  - apply leaf_alike_text; [done|]. unfold same_texts.
    destruct (as_string h depth a) as [x|[]|], (as_string h depth b) as [y|[]|]; simplify_eq/=. eauto.
Qed.

Lemma deep_equal_sound room : (0 < depth)%nat -> sound (deep_equal_with h parts depth nocase room).
Proof.
  intros Hd. induction room as [|room IH]; intros a b s s'; rewrite (deep_equal_cases _ a b Hd s);
    unfold settled; destruct (handle a) as [[k p]|], (handle b) as [[k' q]|]; try done;
    try (intros [-> H]%leaf_sound; by split); destruct (decide (k = k')) as [<-|]; try done;
    unfold descend, st_bind, enter; destruct (N.eqb_spec p q) as [<-|Hpq];
    try (intros [= <-]; split_and!; [done|done|by left]); [done|].
  cbn [Nat.eqb]. case_bool_decide as Hin.
  { intros [= <-]. split_and!; [|done|right; set_solver]. split; [set_solver|].
    intros pq Hpq'. left. set_solver. }
  intros [[Hsub Hnew] Hcells]%cells_sound; [|done].
  split_and!; [split; [set_solver|]|done|right; set_solver].
  intros pq Hpq'. destruct (Hnew pq Hpq') as [[->%elem_of_singleton | ?]%elem_of_union | ?]; auto.
Qed.

(** ** A run that answers [false] met a difference *)

Lemma st_all_not_false {A} (f : A -> ST seen eq_stop bool) l s :
  (forall x s, x ∈ l -> (f x s).2 <> Ok false) -> (st_all f l s).2 <> Ok false.
Proof.
  revert s. induction l as [|x l IH]; intros s Hf; [done|]. cbn. unfold st_bind.
  pose proof (Hf x s (list_elem_of_here _ _)) as Hx. destruct (f x s) as [s1 [[]| |]]; try done.
  apply IH. intros y t Hy. apply Hf. by right.
Qed.

Lemma forallb_columns (cs cs' : list str) :
  Forall2 (fun x y => eq_ignore_ascii_case x y = true) cs cs' ->
  forallb (fun xy => eq_ignore_ascii_case xy.1 xy.2) (zip cs cs') = true.
Proof. induction 1 as [|x y cs cs' H _ IH]; [done|]. cbn. by rewrite H. Qed.

Lemma cells_complete R eq x0 c c' s :
  (forall x y s, R x y -> (eq x y s).2 <> Ok false) -> cells_alike R x0 c c' ->
  (cells_equal eq x0 c c' s).2 <> Ok false.
Proof.
  intros Heq. destruct c as [[l|m|cs data| |]|]; try done; destruct c' as [[l'|n|cs' data'| |]|]; try done;
    cbn [cells_equal cells_alike].
  - intros Hf. unfold array_equal. rewrite (Forall2_length _ _ _ Hf), Nat.eqb_refl.
    apply st_all_not_false. intros [x y] t Hxy. apply Heq.
    apply list_elem_of_lookup_1 in Hxy as [i Hi].
    apply lookup_zip_with_Some in Hi as (x' & y' & [= -> ->] & Hx & Hy).
    by eapply Forall2_lookup_lr.
  - intros [Hl Hm]. unfold struct_equal. rewrite Hl, Nat.eqb_refl. apply st_all_not_false.
    intros e t He. destruct (Hm e He) as (w & -> & Hw). by apply Heq.
  - intros (Hc & Hr & Hcell). unfold query_equal.
    rewrite (Forall2_length _ _ _ Hc), Nat.eqb_refl, Hr, Nat.eqb_refl, (forallb_columns _ _ Hc). cbn.
    apply st_all_not_false. intros [ci ri] t [Hci Hri]%elem_of_cell_indices. cbn in Hci, Hri.
    destruct (Hcell ci ri) as (x & y & Hx & Hy & Hxy); [by rewrite (Forall2_length _ _ _ Hc)|by rewrite Hr|].
    unfold st_bind, st_lift. rewrite !query_cell_at. cbn [fst snd]. rewrite Hx, Hy. by apply Heq.
Qed.

Lemma deep_equal_complete R room a b s :
  (0 < depth)%nat -> bisimulation R -> R a b -> (deep_equal_with h parts depth nocase room a b s).2 <> Ok false.
Proof.
  intros Hd HR. revert a b s. induction room as [|room IH]; intros a b s Hab;
    rewrite (deep_equal_cases _ a b Hd s); pose proof (HR a b Hab) as Hal; unfold alike in Hal;
    destruct (handle a) as [[k p]|], (handle b) as [[k' q]|]; try done.
  all: try (rewrite leaf_run; cbn; destruct (_ || _) eqn:E;
    [apply leaf_alike_instance in Hal; [by rewrite Hal|done]
    |apply leaf_alike_text in Hal as (x & y & -> & -> & ->); done]).
  all: destruct Hal as [<- Hal]; rewrite decide_True by done; unfold descend, st_bind, enter;
    destruct (N.eqb_spec p q) as [|Hpq]; try done.
  cbn [Nat.eqb]. case_bool_decide; [done|]. destruct Hal as [|Hal]; [done|].
  by apply (cells_complete R).
Qed.

(** ** Every run ends *)

(** The pairs lie in the heap. *)
Definition in_heap (s : seen) : Prop := forall p q, (p, q) ∈ s -> p ∈ dom h /\ q ∈ dom h.

Lemma in_heap_size s : in_heap s -> (size s <= size h * size h)%nat.
Proof.
  intros Hs. rewrite <- size_dom. change (size s) with (length (elements s)).
  change (size (dom h)) with (length (elements (dom h))). rewrite <- length_prod.
  apply submseteq_length, NoDup_submseteq; [apply NoDup_elements|].
  intros [p q] Hpq%elem_of_elements. apply list_elem_of_In, in_prod_iff.
  destruct (Hs p q Hpq) as [Hp Hq]. by rewrite <- !list_elem_of_In, !elem_of_elements.
Qed.

(** The step answers, or runs out of room, and then there was too little of it;
    it only adds pairs of the heap. *)
Definition ends (room : nat) (m : ST seen eq_stop bool) : Prop :=
  forall s, in_heap s ->
  exists s' r, m s = (s', r) /\ in_heap s' /\ s ⊆ s'
    /\ ((exists b, r = Ok b) \/ r = Err too_deep /\ (room + size s <= size h * size h)%nat).

Lemma ends_ret room b : ends room (st_ret b).
Proof. intros s Hs. exists s, (Ok b). split_and!; [done|done|done|by left; exists b]. Qed.

Lemma st_all_ends {A} (room : nat) (f : A -> ST seen eq_stop bool) l :
  (forall x, x ∈ l -> ends room (f x)) -> ends room (st_all f l).
Proof.
  induction l as [|x l IH]; intros Hf; [apply ends_ret|]. intros s Hs. cbn. unfold st_bind.
  destruct (Hf x (list_elem_of_here _ _) s Hs) as (s1 & r & -> & Hs1 & Hsub & [[b ->] | [-> Hroom]]).
  2: { exists s1, (Err too_deep). split_and!; [done|done|done|by right]. }
  destruct b; [|exists s1, (Ok false); split_and!; [done|done|done|by left; exists false]].
  destruct (IH (fun y Hy => Hf y (list_elem_of_further _ _ _ Hy)) s1 Hs1) as (s2 & r & -> & Hs2 & Hsub2 & Hr).
  exists s2, r. split_and!; [done|done|by etrans|]. destruct Hr as [? | [-> Hr]]; [by left|right].
  split; [done|]. apply subseteq_size in Hsub. lia.
Qed.

Lemma cell_wf_at data cs ci ri :
  cell_wf (CQuery cs data) -> (ci < length cs)%nat -> (ri < data_rows data)%nat ->
  exists v, cell_at data ci ri = Some v /\ value_wf v.
Proof.
  intros [Hl Hdata] Hci Hri. rewrite <- Hl in Hci. apply lookup_lt_is_Some_2 in Hci as [col Hcol].
  destruct (Forall_lookup_1 _ _ _ _ Hdata Hcol) as [Hlen Hwf]. rewrite <- Hlen in Hri.
  apply lookup_lt_is_Some_2 in Hri as [v Hv]. exists v. unfold cell_at. rewrite Hcol. cbn.
  split; [done|]. by eapply Forall_lookup_1.
Qed.

Lemma ci_get_elem {V} (m : list (str * V)) k v : ci_get k m = Some v -> exists k', (k', v) ∈ m.
Proof.
  unfold ci_get, entry_get. intros (e & He & ->)%fmap_Some. apply find_some in He as [He _].
  exists e.1. destruct e. by apply list_elem_of_In.
Qed.

Lemma get_ci_wf x k m w :
  parts_wf x -> Forall (fun e => value_wf e.2) m -> get_ci x k m = Some w -> value_wf w.
Proof.
  intros [Ht Ha] Hm. unfold get_ci. destruct (ci_get k m) as [v|] eqn:E.
  { intros [= ->]. apply ci_get_elem in E as [k' E]. exact (proj1 (Forall_forall _ _) Hm _ E). }
  destruct (ci_get k (sp_method_table x)) as [v|] eqn:E2.
  { intros [= ->]. apply ci_get_elem in E2 as [k' E2]. exact (proj1 (Forall_forall _ _) Ht _ E2). }
  destruct (eq_ignore_ascii_case k _); [apply Ha|done].
Qed.

Lemma cells_end room eq x0 c c' :
  parts_wf x0 -> (forall x y, value_wf x -> value_wf y -> ends room (eq x y)) -> cell_wf c -> cell_wf c' ->
  (match c, c' with CArray _, CArray _ | CStruct _, CStruct _ | CQuery _ _, CQuery _ _ => True
                  | _, _ => False end) ->
  ends room (cells_equal eq x0 (Some c) (Some c')).
Proof.
  intros Hx0 Heq Hc Hc' Hk. destruct c as [l|m|cs data| |], c' as [l'|n|cs' data'| |]; try done; cbn [cells_equal].
  - unfold array_equal. destruct (negb _); [apply ends_ret|]. apply st_all_ends. intros [x y] Hxy.
    apply list_elem_of_lookup_1 in Hxy as [i Hi].
    apply lookup_zip_with_Some in Hi as (x' & y' & [= -> ->] & Hx & Hy).
    apply Heq; [exact (Forall_lookup_1 _ _ _ _ Hc Hx)|exact (Forall_lookup_1 _ _ _ _ Hc' Hy)].
  - unfold struct_equal. destruct (negb _); [apply ends_ret|]. apply st_all_ends. intros e He.
    destruct (get_ci x0 e.1 n) as [w|] eqn:Hw; [|apply ends_ret].
    destruct Hc as [Hc _], Hc' as [Hc' _].
    apply Heq; [exact (proj1 (Forall_forall _ _) Hc _ He)|exact (get_ci_wf _ _ _ _ Hx0 Hc' Hw)].
  - unfold query_equal. destruct (Nat.eqb_spec (length cs) (length cs')) as [E1|]; [|apply ends_ret].
    destruct (Nat.eqb_spec (data_rows data) (data_rows data')) as [E2|]; [|apply ends_ret]. cbn [negb orb].
    destruct (negb _); [apply ends_ret|]. apply st_all_ends.
    intros i [Hci Hri]%elem_of_cell_indices.
    destruct (cell_wf_at _ _ _ _ Hc Hci Hri) as (x & Hx & Hxw).
    destruct (cell_wf_at data' cs' i.1 i.2 Hc') as (y & Hy & Hyw); [by rewrite <- E1|by rewrite <- E2|].
    intros s Hs. unfold st_bind, st_lift. rewrite !query_cell_at, Hx, Hy. by apply Heq.
Qed.

Lemma wf_cell a k p :
  graph_wf -> value_wf a -> handle a = Some (k, p) ->
  exists c, h !! p = Some c /\ cell_wf c
    /\ match k, c with KStruct, CStruct _ | KArray, CArray _ | KQuery, CQuery _ _ => True | _, _ => False end.
Proof.
  intros (_ & Hg & _) Ha Hk. destruct a; try done; cbn in Hk; simplify_eq; cbn in Ha.
  - destruct Ha as [l Hl]. exists (CArray l). split_and!; [done|by apply (Hg p)|done].
  - destruct Ha as [l Hl]. exists (CStruct l). split_and!; [done|by apply (Hg p)|done].
  - destruct Ha as (cs & data & Hl). exists (CQuery cs data). split_and!; [done|by apply (Hg p)|done].
Qed.

Lemma leaf_ends room a b :
  handle a = None -> handle b = None -> value_wf a -> value_wf b -> ends room (leaf_equal a b).
Proof.
  intros Hka Hkb Ha Hb s Hs. rewrite leaf_run.
  assert (Htext : forall v, handle v = None -> value_wf v -> exists x, as_string h depth v = Ok x)
    by (by intros []).
  destruct (Htext a Hka Ha) as [x ->], (Htext b Hkb Hb) as [y ->].
  destruct (_ || _); eexists _, _; (split_and!; [reflexivity|done|done|left; by eexists]).
Qed.

Lemma deep_equal_ends room a b :
  graph_wf -> value_wf a -> value_wf b -> ends room (deep_equal_with h parts depth nocase room a b).
Proof.
  intros Hg. revert a b. induction room as [|room IH]; intros a b Ha Hb s Hs;
    rewrite (deep_equal_cases _ a b (proj1 Hg) s);
    destruct (handle a) as [[k p]|] eqn:Hka, (handle b) as [[k' q]|] eqn:Hkb; try by apply ends_ret.
  1, 3: destruct (decide (k = k')) as [<-|]; [|by apply ends_ret];
    destruct (wf_cell a k p Hg Ha Hka) as (c & Hc & Hcw & Hck), (wf_cell b k q Hg Hb Hkb) as (c' & Hc' & Hcw' & Hck');
    unfold descend, st_bind, enter; destruct (N.eqb_spec p q); [by apply ends_ret|].
  - exists s, (Err too_deep). split_and!; [done|done|done|right]. split; [done|]. by apply in_heap_size.
  - cbn [Nat.eqb]. assert (Hs1 : in_heap ({[(p, q)]} ∪ s)).
    { intros x y [[= -> ->]%elem_of_singleton | Hxy]%elem_of_union; [|by apply Hs].
      split; by eapply elem_of_dom_2. }
    case_bool_decide as Hin.
    { exists ({[(p, q)]} ∪ s), (Ok true). split_and!; [done|done|set_solver|by left; exists true]. }
    rewrite Hc, Hc'. destruct (cells_end room (deep_equal_with h parts depth nocase room) (parts q) c c' (proj2 (proj2 Hg) q) IH Hcw Hcw')
      with (s := {[(p, q)]} ∪ s) as (s' & r & -> & Hs' & Hsub & Hr); [by destruct k, c, c'|done|].
    exists s', r. split_and!; [done|done|set_solver|]. destruct Hr as [? | [-> Hr]]; [by left|right].
    split; [done|]. rewrite size_union, size_singleton in Hr by set_solver. lia.
  - by apply leaf_ends.
  - by apply leaf_ends.
Qed.

(** Enough room: one more than the pairs of containers. *)
Lemma deep_equal_answers room a b :
  graph_wf -> value_wf a -> value_wf b -> (size h * size h < room)%nat ->
  exists r, deep_equal h parts depth nocase room a b = Ok r.
Proof.
  intros Hg Ha Hb Hroom. destruct (deep_equal_ends room a b Hg Ha Hb ∅) as (s & r & Hr & _ & _ & H).
  { by intros ? ? ?%elem_of_empty. }
  unfold deep_equal. rewrite Hr. destruct H as [[x ->] | [-> H]]; [by exists x|lia].
Qed.

Lemma deep_equal_stops room a b :
  graph_wf -> value_wf a -> value_wf b ->
  (exists r, deep_equal h parts depth nocase room a b = Ok r) \/ deep_equal h parts depth nocase room a b = Err too_deep.
Proof.
  intros Hg Ha Hb. destruct (deep_equal_ends room a b Hg Ha Hb ∅) as (s & r & Hr & _ & _ & H).
  { by intros ? ? ?%elem_of_empty. }
  unfold deep_equal. rewrite Hr. destruct H as [[x ->] | [-> H]]; [left; by exists x|by right].
Qed.

Lemma settled_bisimulation s : (forall pq, pq ∈ s -> done_pair s pq) -> bisimulation (settled s).
Proof.
  intros Hs a b. unfold settled at 1, alike. destruct (handle a) as [[k p]|], (handle b) as [[k' q]|]; try done.
  intros [<- [<- | Hpq]]; (split; [done|]); [by left|right]. exact (Hs _ Hpq).
Qed.

Lemma deep_equal_true room a b :
  (0 < depth)%nat -> deep_equal h parts depth nocase room a b = Ok true -> bisimilar a b.
Proof.
  unfold deep_equal. intros Hd H. destruct (deep_equal_with h parts depth nocase room a b ∅) as [s r] eqn:E.
  cbn in H. subst r. destruct (deep_equal_sound room Hd a b ∅ s E) as [[_ Hdone] Hab].
  exists (settled s). split; [|done]. apply settled_bisimulation.
  intros pq Hpq. destruct (Hdone pq Hpq) as [H | H]; [by apply elem_of_empty in H|done].
Qed.

Lemma deep_equal_decides room a b r :
  (0 < depth)%nat -> deep_equal h parts depth nocase room a b = Ok r -> r = true <-> bisimilar a b.
Proof.
  intros Hd Hr. split; [intros ->; by eapply deep_equal_true|]. intros (R & HR & Hab).
  destruct r; [done|]. exfalso. by apply (deep_equal_complete R room a b ∅ Hd HR Hab).
Qed.

(** ** An equivalence relation *)

Lemma ci_get_cong {V} (k k' : str) (m : list (str * V)) :
  map ascii_lower k = map ascii_lower k' -> ci_get k m = ci_get k' m.
Proof.
  intros Hk. unfold ci_get, entry_get. induction m as [|[x v] m IH]; [done|]. cbn.
  replace (eq_ignore_ascii_case k x) with (eq_ignore_ascii_case k' x); [by case_match|].
  apply eq_bool_prop_intro. rewrite !Is_true_true, !eq_ignore_ascii_case_spec. by rewrite Hk.
Qed.

Lemma ci_get_found {V} (k : str) (v : V) (m : list (str * V)) :
  ci_get k m = Some v -> exists k', (k', v) ∈ m /\ map ascii_lower k = map ascii_lower k'.
Proof.
  unfold ci_get, entry_get. intros ([k' w] & He & ->)%fmap_Some. apply find_some in He as [He Hk].
  exists k'. split; [by apply list_elem_of_In|]. by apply eq_ignore_ascii_case_spec in Hk.
Qed.

Lemma ci_get_own {V} (k : str) (v : V) (m : list (str * V)) :
  ci_distinct m -> (k, v) ∈ m -> ci_get k m = Some v.
Proof.
  unfold ci_distinct. induction m as [|[x w] m IH]; [by intros _ ?%elem_of_nil|].
  cbn. rewrite NoDup_cons. intros [Hx Hnd] [[= <- <-] | Hk]%elem_of_cons.
  - unfold ci_get, entry_get. cbn. by rewrite eq_ignore_ascii_case_refl.
  - rewrite <- IH by done. unfold ci_get, entry_get. cbn.
    destruct (eq_ignore_ascii_case k x) eqn:E; [|done]. exfalso. apply Hx.
    apply eq_ignore_ascii_case_spec in E. rewrite <- E. apply (list_elem_of_fmap_2 (map ascii_lower)).
    by apply (list_elem_of_fmap_2 fst _ (k, v)).
Qed.

Lemma same_text_spec x y :
  same_text nocase x y = true
  <-> (if nocase then map ascii_lower x = map ascii_lower y else x = y).
Proof. unfold same_text. destruct nocase; [apply eq_ignore_ascii_case_spec|apply bool_decide_eq_true]. Qed.

Lemma leaf_alike_sym a b : leaf_alike a b -> leaf_alike b a.
Proof.
  destruct (is_instance_backed a || is_instance_backed b) eqn:E.
  - rewrite !leaf_alike_instance by (first [done | by rewrite orb_comm]). destruct a, b; try done. cbn.
    by rewrite !N.eqb_eq.
  - rewrite !leaf_alike_text by (first [done | by rewrite orb_comm]). intros (x & y & Hx & Hy & Hxy).
    exists y, x. split_and!; [done|done|]. revert Hxy. rewrite !same_text_spec. by destruct nocase.
Qed.

Lemma leaf_alike_trans a b c : leaf_alike a b -> leaf_alike b c -> leaf_alike a c.
Proof.
  destruct (is_instance_backed b) eqn:Eb.
  - destruct b as [| | | | | | | | | | | |q| | | |]; try done. intros Ha Hc.
    apply leaf_alike_sym in Ha. destruct a; try done. destruct c; try done. cbn in *. congruence.
  - intros Ha Hc. destruct (is_instance_backed a) eqn:Ea; [by destruct a, b|].
    destruct (is_instance_backed c) eqn:Ec; [by destruct b, c|].
    revert Ha Hc. rewrite !leaf_alike_text by (by rewrite ?Ea, ?Eb, ?Ec).
    intros (x & y & Hx & Hy & Hxy) (y' & z & Hy' & Hz & Hyz). exists x, z. split_and!; [done|done|].
    replace y' with y in * by congruence. revert Hxy Hyz. rewrite !same_text_spec.
    destruct nocase; congruence.
Qed.

Lemma bisimilar_refl a : graph_wf -> value_wf a -> bisimilar a a.
Proof.
  intros Hg Ha. exists (fun x y => x = y /\ value_wf x). split; [|done].
  intros x y [<- Hx]. unfold alike. destruct (handle x) as [[k p]|] eqn:E; [split; [done|by left]|].
  destruct x; try done; cbn; destruct Hx as [t Ht]; exists t, t; rewrite same_text_spec; by destruct nocase.
Qed.

(** Beside a component's scopes, a struct has its entries only. *)
Section Plain.
Hypothesis all_plain : forall p, parts p = plain_parts.

Lemma get_ci_plain k m : get_ci plain_parts k m = ci_get k m.
Proof.
  unfold get_ci. destruct (ci_get k m); [done|]. change (ci_get k (sp_method_table plain_parts)) with (@None gvalue).
  cbn [plain_parts sp_this_alias]. by destruct (eq_ignore_ascii_case k (lit "this")).
Qed.

Lemma cells_alike_trans (R1 R2 R : gvalue -> gvalue -> Prop) c1 c2 c3 :
  (forall x y z, R1 x y -> R2 y z -> R x z) ->
  cells_alike R1 plain_parts c1 c2 -> cells_alike R2 plain_parts c2 c3 -> cells_alike R plain_parts c1 c3.
Proof.
  intros HR. destruct c1 as [[l|m|cs data| |]|]; try done; destruct c2 as [[l2|n|cs2 data2| |]|]; try done;
    destruct c3 as [[l3|o|cs3 data3| |]|]; try done; cbn.
  - intros H1 H2. eapply Forall2_trans; [|done|done]. exact HR.
  - intros [Hl H] [Hl' H']. split; [congruence|]. intros e He. destruct (H e He) as (w & Hw & Hr).
    rewrite get_ci_plain in Hw. apply ci_get_found in Hw as (k' & Hk' & Ek). destruct (H' _ Hk') as (u & Hu & Hr').
    exists u. rewrite get_ci_plain in Hu |- *. rewrite (ci_get_cong _ _ o Ek). eauto.
  - intros (Hc & Hr & Hcell) (Hc' & Hr' & Hcell'). split_and!; [|congruence|].
    + eapply Forall2_trans; [|exact Hc|exact Hc']. intros x y z. cbn.
      rewrite !eq_ignore_ascii_case_spec. congruence.
    + intros ci ri Hci Hri. destruct (Hcell ci ri Hci Hri) as (x & y & Hx & Hy & Hxy).
      destruct (Hcell' ci ri) as (y' & z & Hy' & Hz & Hyz);
        [by rewrite <- (Forall2_length _ _ _ Hc)|by rewrite <- Hr|].
      replace y' with y in * by congruence. eauto 6.
Qed.

Lemma bisimilar_trans a b c : bisimilar a b -> bisimilar b c -> bisimilar a c.
Proof.
  intros (R1 & H1 & Hab) (R2 & H2 & Hbc).
  exists (fun x z => R1 x z \/ R2 x z \/ exists y, R1 x y /\ R2 y z). split; [|right; right; by exists b].
  assert (Hmono : forall (R R' : gvalue -> gvalue -> Prop) x y,
    (forall u v, R u v -> R' u v) -> alike R x y -> alike R' x y).
  { intros R R' x y HR. unfold alike. destruct (handle x) as [[]|], (handle y) as [[]|]; try done.
    intros [-> [-> | H]]; (split; [done|]); [by left|right]. by eapply cells_alike_mono. }
  intros x z [Hxz | [Hxz | (y & Hxy & Hyz)]].
  { eapply Hmono; [|by apply H1]. auto. }
  { eapply Hmono; [|by apply H2]. auto. }
  apply H1 in Hxy. apply H2 in Hyz. unfold alike in *.
  destruct (handle x) as [[k p]|], (handle y) as [[k' q]|], (handle z) as [[k'' r]|]; try done;
    [|by eapply leaf_alike_trans]. rewrite !all_plain in *.
  destruct Hxy as [<- Hxy], Hyz as [<- Hyz]. split; [done|].
  destruct Hxy as [<- | Hxy], Hyz as [<- | Hyz]; [by left|right|right|right].
  - eapply cells_alike_mono; [|done]. auto.
  - eapply cells_alike_mono; [|done]. auto.
  - eapply cells_alike_trans; [|done|done]. eauto.
Qed.

(** The fewer entries on the left find one each on the right; with as many on
    the right, none is left over. *)
Lemma struct_alike_sym (R : gvalue -> gvalue -> Prop) m n :
  ci_distinct m -> ci_distinct n -> length m = length n ->
  (forall e, e ∈ m -> exists w, ci_get e.1 n = Some w /\ R e.2 w) ->
  forall e, e ∈ n -> exists w, ci_get e.1 m = Some w /\ R w e.2.
Proof.
  intros Hm Hn Hl H [k v] Hk. cbn.
  assert (Hperm : (map ascii_lower <$> m.*1) ≡ₚ (map ascii_lower <$> n.*1)).
  { apply submseteq_length_Permutation; [|by rewrite !length_fmap, Hl].
    apply NoDup_submseteq; [exact Hm|]. intros x Hx.
    apply list_elem_of_fmap in Hx as (k1 & -> & Hk1). apply list_elem_of_fmap in Hk1 as (e & -> & He).
    destruct (H e He) as (w & Hw & _). apply ci_get_found in Hw as (k' & Hk' & ->).
    apply (list_elem_of_fmap_2 (map ascii_lower)). by apply (list_elem_of_fmap_2 fst _ (k', w)). }
  assert (Hx : map ascii_lower k ∈ (map ascii_lower <$> m.*1)).
  { rewrite Hperm. apply (list_elem_of_fmap_2 (map ascii_lower)). by apply (list_elem_of_fmap_2 fst _ (k, v)). }
  apply list_elem_of_fmap in Hx as (k1 & Ek & Hk1). apply list_elem_of_fmap in Hk1 as ([k2 u] & -> & He).
  cbn in Ek. exists u. destruct (H _ He) as (w & Hw & HR). cbn in Hw, HR.
  rewrite (ci_get_cong k k2 m Ek), (ci_get_own k2 u m Hm He). split; [done|].
  rewrite <- (ci_get_cong k k2 n Ek), (ci_get_own k v n Hn Hk) in Hw. by simplify_eq.
Qed.

Lemma cells_alike_sym (R R' : gvalue -> gvalue -> Prop) p q :
  graph_wf -> (forall x y, R x y -> R' y x) -> cells_alike R plain_parts (h !! p) (h !! q) ->
  cells_alike R' plain_parts (h !! q) (h !! p).
Proof.
  intros (_ & Hg & _) HR. destruct (h !! p) as [c|] eqn:Hp; [|done].
  destruct (h !! q) as [c'|] eqn:Hq; [|by destruct c].
  apply Hg in Hp, Hq. destruct c as [l|m|cs data| |]; try done; destruct c' as [l'|n|cs' data'| |]; try done; cbn.
  - intros H. apply Forall2_flip. eapply Forall2_impl; [exact H|]. intros x y. apply HR.
  - destruct Hp as [_ Hm], Hq as [_ Hn]. intros [Hl H]. split; [done|]. setoid_rewrite get_ci_plain in H.
    intros e He. destruct (struct_alike_sym R m n Hm Hn Hl H e He) as (w & Hw & Hr). rewrite get_ci_plain. eauto.
  - intros (Hc & Hr & Hcell). split_and!; [|done|].
    + apply Forall2_flip. eapply Forall2_impl; [exact Hc|]. intros x y.
      cbn. rewrite !eq_ignore_ascii_case_spec. done.
    + intros ci ri Hci Hri. destruct (Hcell ci ri) as (x & y & Hx & Hy & Hxy);
        [by rewrite (Forall2_length _ _ _ Hc)|by rewrite Hr|]. exists y, x. auto.
Qed.

Lemma bisimilar_sym a b : graph_wf -> bisimilar a b -> bisimilar b a.
Proof.
  intros Hg (R & HR & Hab). exists (fun x y => R y x). split; [|done].
  intros x y Hxy. apply HR in Hxy. unfold alike in *.
  destruct (handle x) as [[k p]|], (handle y) as [[k' q]|]; try done; [|by apply leaf_alike_sym].
  rewrite !all_plain in *.
  destruct Hxy as [-> [-> | H]]; (split; [done|]); [by left|right]. by eapply cells_alike_sym.
Qed.
End Plain.
End Facts.

(** ** The theorems *)

(** C13. On a well-formed graph the comparison answers whether the two values are
    bisimilar, or reports that they are nested too deeply; with room for one
    nested container more than there are pairs of containers, it answers.  The
    scopes of components, with their method tables and the alias of [this], are
    among the structs. *)
Theorem deep_equal_correct {U : Unicode} {D : DateLib} (h : store) (parts : N -> scope_parts) (depth : nat)
    (nocase : bool) (room : nat) (a b : gvalue) :
  graph_wf h parts depth -> value_wf h depth a -> value_wf h depth b ->
  ((exists r, deep_equal h parts depth nocase room a b = Ok r /\ (r = true <-> bisimilar h parts depth nocase a b))
   \/ deep_equal h parts depth nocase room a b = Err too_deep)
  /\ ((size h * size h < room)%nat -> exists r, deep_equal h parts depth nocase room a b = Ok r).
Proof.
  intros Hg Ha Hb. split; [|by apply deep_equal_answers].
  destruct (deep_equal_stops h parts depth nocase room a b Hg Ha Hb) as [[r Hr] | Hr]; [left|by right].
  exists r. split; [done|]. apply (deep_equal_decides h parts depth nocase room a b r); [by destruct Hg|done].
Qed.

(** C29. Deep equality is an equivalence relation on the values of a well-formed
    graph without scopes of components: with enough room, every value equals
    itself, an answer does not depend on the side, and equal values equal the
    same values. *)
Theorem deep_equal_equivalence {U : Unicode} {D : DateLib} (h : store) (parts : N -> scope_parts) (depth : nat)
    (nocase : bool) (room : nat) (a b c : gvalue) :
  (forall p, parts p = plain_parts) ->
  graph_wf h parts depth -> value_wf h depth a -> value_wf h depth b -> value_wf h depth c ->
  (size h * size h < room)%nat ->
  deep_equal h parts depth nocase room a a = Ok true
  /\ deep_equal h parts depth nocase room b a = deep_equal h parts depth nocase room a b
  /\ (deep_equal h parts depth nocase room a b = Ok true ->
      deep_equal h parts depth nocase room a c = deep_equal h parts depth nocase room b c).
Proof.
  intros Hplain Hg Ha Hb Hc Hroom. pose proof (proj1 Hg) as Hd.
  assert (Hdec : forall x y, value_wf h depth x -> value_wf h depth y -> exists r,
    deep_equal h parts depth nocase room x y = Ok r /\ (r = true <-> bisimilar h parts depth nocase x y)).
  { intros x y Hx Hy. destruct (deep_equal_answers h parts depth nocase room x y Hg Hx Hy Hroom) as [r Hr].
    exists r. split; [done|]. by eapply deep_equal_decides. }
  destruct (Hdec a a Ha Ha) as (r1 & -> & H1), (Hdec b a Hb Ha) as (r2 & -> & H2),
    (Hdec a b Ha Hb) as (r3 & -> & H3), (Hdec a c Ha Hc) as (r4 & -> & H4), (Hdec b c Hb Hc) as (r5 & -> & H5).
  split_and!.
  - f_equal. by apply H1, bisimilar_refl.
  - f_equal. apply eq_bool_prop_intro. rewrite !Is_true_true, H2, H3. split; by apply bisimilar_sym.
  - intros [= Hr]. apply H3 in Hr. f_equal. apply eq_bool_prop_intro. rewrite !Is_true_true, H4, H5.
    split; apply bisimilar_trans; try done; by apply bisimilar_sym.
Qed.
