(* ===== verification/GraphWitnesses.v ===== *)
(** * GraphWitnesses: string forms and comparison of concrete graphs

    The theorems of [StringifyFacts] and [EqualityFacts] at two structs that
    contain themselves, built in different orders with keys in different case. *)

From stdpp Require Import base list numbers strings gmap.
From S2P Require Import Prelude Text Float64 Value Bytes Keys ValueMap ObjCodec Stringify StringifyFacts Equality EqualityFacts Instances.
Local Open Scope N_scope.

Definition twin_a : entries := [(lit "self", JStruct 0); (lit "Tag", JString (lit "x"))].
Definition twin_b : entries := [(lit "tag", JString (lit "x")); (lit "SELF", JStruct 1)].
Definition pair_array : list gvalue := [JStruct 0; JQueryColumn [JString (lit "c")] 0].

Definition twins : store := <[0 := CStruct twin_a]> (<[1 := CStruct twin_b]> {[2 := CArray pair_array]}).

(** The same with the first struct built in the other order. *)
Definition twins' : store := <[0 := CStruct (rev twin_a)]> (<[1 := CStruct twin_b]> {[2 := CArray pair_array]}).

Ltac cells H :=
  repeat (apply lookup_insert_Some in H as [[<- <-] | [_ H]]);
  try (apply lookup_singleton_Some in H as [<- <-]).

Lemma twins_layered : layered twins (fun _ => 0%nat).
Proof.
  intros p c H. unfold twins in H. cells H.
  - assert (E : ordinary twins twin_a = true) by (by vm_compute). rewrite E. repeat constructor.
    by intros q ?%elem_of_nil.
  - assert (E : ordinary twins twin_b = true) by (by vm_compute). rewrite E. repeat constructor.
    by intros q ?%elem_of_nil.
  - repeat constructor. by intros q ?%elem_of_nil.
Qed.

Lemma string_form_correct_witness :
  (exists r s d0, r <> Err StackOverflow /\ s <> Err StackOverflow /\
   forall d, (d0 <= d)%nat ->
     as_string twins d (JArray 2) = r /\ render twins d id [] (JArray 2) = r
     /\ to_string_sorted twins d (JArray 2) = s /\ render twins d sort_entries [] (JArray 2) = s)
  /\ as_string twins 9 (JArray 2) = Ok (lit "[{self: {...}, Tag: x}, c]").
Proof.
  split; [apply (string_form_correct twins (fun _ => 0%nat)), twins_layered|by vm_compute].
Defined.

Lemma twins_same : same_content twins twins'.
Proof.
  intros p. unfold twins, twins'. destruct (decide (p = 0)) as [->|].
  { rewrite !lookup_insert_eq. constructor. split; [apply Permutation_rev|].
    apply (bool_decide_unpack _); vm_compute; exact I. }
  rewrite !lookup_insert_ne by done. destruct (decide (p = 1)) as [->|].
  { rewrite !lookup_insert_eq. constructor. split; [done|].
    apply (bool_decide_unpack _); vm_compute; exact I. }
  rewrite !lookup_insert_ne by done. destruct (decide (p = 2)) as [->|].
  - rewrite !lookup_singleton_eq. by constructor.
  - rewrite !lookup_singleton_ne by done. constructor.
Qed.

Lemma twins_dumped : dumped twins /\ dumped twins'.
Proof.
  split; intros p c H; unfold twins, twins' in H; cells H;
    first [split; [by vm_compute|]; repeat constructor | repeat constructor].
Qed.

Lemma sorted_form_content_witness :
  to_string_sorted twins 9 (JStruct 0) = to_string_sorted twins' 9 (JStruct 0)
  /\ to_string_sorted twins 9 (JStruct 0) = Ok (lit "{self: {...}, Tag: x}").
Proof.
  split; [|by vm_compute]. destruct twins_dumped.
  by apply (sorted_form_content twins twins' 9 (JStruct 0) twins_same).
Defined.

(** What a column holds is not sorted, nor the members of a Java object. *)
Lemma column_not_sorted :
  exists h h', same_content h h'
  /\ to_string_sorted h 9 (JQueryColumn [JStruct 0] 0) <> to_string_sorted h' 9 (JQueryColumn [JStruct 0] 0).
Proof.
  exists {[0 := CStruct [(lit "a", JInt 1); (lit "b", JInt 2)]]},
         {[0 := CStruct [(lit "b", JInt 2); (lit "a", JInt 1)]]}. split; [|by vm_compute].
  intros p. destruct (decide (p = 0)) as [->|].
  - rewrite !lookup_singleton_eq. constructor. split; [apply Permutation_swap|].
    apply (bool_decide_unpack _); vm_compute; exact I.
  - rewrite !lookup_singleton_ne by done. constructor.
Qed.

Definition no_scopes (p : N) : scope_parts := plain_parts.

Lemma no_scopes_wf h depth p : parts_wf h depth (no_scopes p).
Proof. by split; [constructor|]. Qed.

Lemma twins_wf : graph_wf twins no_scopes 9.
Proof.
  split; [lia|]. split; [|apply no_scopes_wf]. intros p c H. unfold twins in H. cells H; cbn.
  - split; [|apply (bool_decide_unpack _); vm_compute; exact I].
    repeat constructor; [by exists twin_a|by exists (lit "x")].
  - split; [|apply (bool_decide_unpack _); vm_compute; exact I].
    repeat constructor; [by exists (lit "x")|by exists twin_b].
  - repeat constructor; [by exists twin_a|by exists (lit "c")].
Qed.

Lemma twin_values : value_wf twins 9 (JStruct 0) /\ value_wf twins 9 (JStruct 1) /\ value_wf twins 9 (JArray 2).
Proof. split_and!; [by exists twin_a|by exists twin_b|by exists pair_array]. Qed.

Lemma deep_equal_correct_witness :
  ((exists r, deep_equal twins no_scopes 9 false 10 (JStruct 0) (JStruct 1) = Ok r
      /\ (r = true <-> bisimilar twins no_scopes 9 false (JStruct 0) (JStruct 1)))
   \/ deep_equal twins no_scopes 9 false 10 (JStruct 0) (JStruct 1) = Err too_deep)
  /\ (exists r, deep_equal twins no_scopes 9 false 10 (JStruct 0) (JStruct 1) = Ok r)
  /\ deep_equal twins no_scopes 9 false 10 (JStruct 0) (JStruct 1) = Ok true.
Proof.
  destruct twin_values as (Ha & Hb & _).
  destruct (deep_equal_correct twins no_scopes 9 false 10 (JStruct 0) (JStruct 1) twins_wf Ha Hb) as [H1 H2].
  split; [exact H1|]. split; [apply H2; vm_compute; lia|by vm_compute].
Defined.

Lemma deep_equal_equivalence_witness :
  deep_equal twins no_scopes 9 true 10 (JStruct 0) (JStruct 0) = Ok true
  /\ deep_equal twins no_scopes 9 true 10 (JStruct 1) (JStruct 0) = deep_equal twins no_scopes 9 true 10 (JStruct 0) (JStruct 1)
  /\ (deep_equal twins no_scopes 9 true 10 (JStruct 0) (JStruct 1) = Ok true ->
      deep_equal twins no_scopes 9 true 10 (JStruct 0) (JArray 2) = deep_equal twins no_scopes 9 true 10 (JStruct 1) (JArray 2)).
Proof.
  destruct twin_values as (Ha & Hb & Hc).
  apply (deep_equal_equivalence twins no_scopes 9 true 10 (JStruct 0) (JStruct 1) (JArray 2) ltac:(done) twins_wf Ha Hb Hc).
  vm_compute. lia.
Defined.

(** A struct with one entry, and a component's scope with one other entry and a
    method of the first one's name. *)
Definition scoped : store := {[ 0 := CStruct [(lit "foo", JFunction (lit "foo"))]; 1 := CStruct [(lit "bar", JInt 1)] ]}.
Definition scoped_parts (p : N) : scope_parts :=
  if p =? 1 then ScopeParts [(lit "foo", JFunction (lit "foo"))] None else plain_parts.

Lemma component_scope_one_way :
  deep_equal scoped scoped_parts 9 false 10 (JStruct 0) (JStruct 1) = Ok true
  /\ deep_equal scoped scoped_parts 9 false 10 (JStruct 1) (JStruct 0) = Ok false.
Proof. split; by vm_compute. Qed.

(** A text of 32 bytes whose eighth byte is inside a character. *)
Lemma uuid_panics :
  as_string {[0 := CStruct [(lit "__java_shim", JBool true);
                            (lit "__uuid", JString (lit "1234567" ++ [233] ++ replicate 23 48))]]} 3 (JStruct 0)
  = Panic.
Proof. by vm_compute. Qed.
