(* ===== verification/SessionStore.v ===== *)
(** * SessionStore: the in-process session store and its reaper

    cfml-vm: [session_store.rs] ([MemoryStore]), [SessionData] and the queue of
    pending [onSessionEnd] deliveries of [lib.rs]; cli: the reaper of [lib.rs].

    A [Mutex] makes each operation one step.  Live session structs are cells of
    the heap of [ObjCodec]; a [u64] time is an [N] below [2 ^ 64], for which
    [saturating_sub] is the subtraction of [N].  The clock and new addresses are
    arguments. *)

From stdpp Require Import base list numbers strings gmap.
From S2P Require Import Prelude Text Float64 Value Bytes Keys ValueMap ObjCodec.
Local Open Scope N_scope.

Abbreviation vars := (list (str * gvalue)).

Record session_data := SessionData {
  sd_variables : vars;
  sd_created : N;
  sd_last_accessed : N;
  sd_auth_user : option str;
  sd_auth_roles : list str;
  sd_timeout : N;
  sd_app_name : str;
  sd_live : option N;
}.

Definition u64_max : N := 2 ^ 64 - 1.
Definition saturating_add_u64 (a b : N) : N := N.min (a + b) u64_max.

Definition expired (now : N) (s : session_data) : bool := sd_timeout s <? now - sd_last_accessed s.

Definition set_live (l : option N) (s : session_data) : session_data :=
  SessionData (match l with Some _ => [] | None => sd_variables s end) (sd_created s) (sd_last_accessed s)
    (sd_auth_user s) (sd_auth_roles s) (sd_timeout s) (sd_app_name s) l.

(** [SessionData::variables_snapshot] *)
Definition variables_snapshot (h : store) (s : session_data) : vars :=
  match sd_live s with
  | Some p => match h !! p with Some (CStruct m) => m | _ => [] end
  | None => sd_variables s
  end.

(** The separator U+001F of application and id. *)
Definition unit_separator : N := 31.

Section Store.
Context {U : Unicode}.

Definition composite_key (app id : str) : str := to_lowercase app ++ unit_separator :: id.

(** The part after the last separator. *)
Definition id_from_key (key : str) : str :=
  match position (N.eqb unit_separator) (rev key) with
  | Some i => drop (length key - i) key
  | None => key
  end.

Abbreviation sessions := (gmap str session_data).

(** The map and the heap its live structs are in. *)
Record memory := Memory { mem_sessions : sessions; mem_heap : store }.

(** [CfmlStruct::new] of a session's variables; [p] is a new address. *)
Definition promote (p : N) (s : session_data) (h : store) : session_data * store :=
  match sd_live s with
  | Some _ => (s, h)
  | None => (set_live (Some p) s, <[p := CStruct (sd_variables s)]> h)
  end.

Definition store_get (now p : N) (app id : str) (m : memory) : option session_data * memory :=
  let key := composite_key app id in
  match mem_sessions m !! key with
  | Some s =>
      if expired now s then (None, Memory (delete key (mem_sessions m)) (mem_heap m))
      else let '(s, h) := promote p s (mem_heap m) in
           (Some s, Memory (<[key := s]> (mem_sessions m)) h)
  | None => (None, m)
  end.

Definition store_set (app id : str) (data : session_data) (m : memory) : memory :=
  Memory (<[composite_key app id := data]> (mem_sessions m)) (mem_heap m).

Definition store_remove (app id : str) (m : memory) : memory :=
  Memory (delete (composite_key app id) (mem_sessions m)) (mem_heap m).

Definition store_rotate (app old_id new_id : str) (m : memory) : memory :=
  match mem_sessions m !! composite_key app old_id with
  | Some data =>
      Memory (<[composite_key app new_id := data]> (delete (composite_key app old_id) (mem_sessions m)))
        (mem_heap m)
  | None => m
  end.

Definition store_contains (now p : N) (app id : str) (m : memory) : bool * memory :=
  let '(r, m) := store_get now p app id m in (bool_decide (is_Some r), m).

Definition id_issued (now : N) (id : str) (m : memory) : bool :=
  existsb (fun e => bool_decide (id_from_key e.1 = id) && negb (expired now e.2))
    (map_to_list (mem_sessions m)).

Definition session_count (now : N) (m : memory) : nat :=
  length (filter (fun e => expired now e.2 = false) (map_to_list (mem_sessions m))).

(** The drained sessions: owner, id and variables; the order is the map's. *)
Definition take_expired (now : N) (m : memory) : list (str * str * vars) * memory :=
  let gone := filter (fun e => expired now e.2 = true) (map_to_list (mem_sessions m)) in
  (map (fun e => (sd_app_name e.2, id_from_key e.1, variables_snapshot (mem_heap m) e.2)) gone,
   Memory (foldr (fun e => delete e.1) (mem_sessions m) gone) (mem_heap m)).

Definition next_expiry (m : memory) : option N :=
  match map (fun e => saturating_add_u64 (sd_last_accessed e.2) (sd_timeout e.2)) (map_to_list (mem_sessions m)) with
  | [] => None
  | t :: ts => Some (foldr N.min t ts)
  end.

(** ** Pending [onSessionEnd] deliveries, by application name *)

Abbreviation end_queue := (gmap str (list vars)).

(** The oldest entries are dropped to stay below [batch_max]; 0 is no bound. *)
Definition queue_session_end (app_name : str) (v : vars) (batch_max : nat) (q : end_queue) : bool * end_queue :=
  let dq := default [] (q !! app_name) in
  let surplus := if (batch_max =? 0)%nat then 0%nat else (S (length dq) - batch_max)%nat in
  (negb (surplus =? 0)%nat, <[app_name := drop surplus dq ++ [v]]> q).

Definition drain_session_ends (app_name : str) (q : end_queue) : list vars * end_queue :=
  match q !! app_name with
  | Some dq => (dq, <[app_name := []]> q)
  | None => ([], q)
  end.

(** ** The reaper *)

Record reap_config := ReapConfig { reap_interval : N; reap_adaptive : bool; reap_batch_max : nat }.

(** [clamp(1, interval)]; the reaper does not run with an interval of 0. *)
Definition reap_delay (cfg : reap_config) (now : N) (m : memory) : N :=
  if reap_adaptive cfg then
    match next_expiry m with
    | Some next => N.min (N.max (next - now) 1) (reap_interval cfg)
    | None => reap_interval cfg
    end
  else reap_interval cfg.

(** One wake-up: drain, and queue what has an owner. *)
Definition reap (cfg : reap_config) (now : N) (m : memory) (q : end_queue) : memory * end_queue :=
  let '(drained, m) := take_expired now m in
  (m, foldl (fun q e => let '(app, _, v) := e in
                        if bool_decide (app = []) then q
                        else (queue_session_end app v (reap_batch_max cfg) q).2) q drained).
End Store.
