(* ===== verification/SessionStoreFacts.v ===== *)
(** * SessionStoreFacts: the store implements sessions by application and id

    The abstract store is a map from (application in lower case, id); the
    concrete one refines it for ids without the separator.  Expiry is exact, the
    reaper is punctual, the queue of deliveries is bounded and in order. *)

From stdpp Require Import base list numbers strings gmap.
From S2P Require Import Prelude Text Float64 Value Bytes Keys ValueMap ObjCodec SessionStore.
Local Open Scope N_scope.

Definition plain_id (id : str) : Prop := unit_separator ∉ id.

Definition flat_key (k : str * str) : str := k.1 ++ unit_separator :: k.2.

Lemma position_app_not {A} (f : A -> bool) l x r :
  Forall (fun y => f y = false) l -> f x = true -> position f (l ++ x :: r) = Some (length l).
Proof.
  intros Hl Hx. induction Hl as [|y l Hy _ IH]; cbn; [by rewrite Hx|]. by rewrite Hy, IH.
Qed.

Lemma id_from_flat a i : plain_id i -> id_from_key (a ++ unit_separator :: i) = i.
Proof.
  intros Hi. unfold id_from_key. rewrite rev_app_distr. cbn [rev].
  rewrite <- app_assoc. cbn [app]. rewrite position_app_not; [|apply Forall_forall|by apply N.eqb_refl].
  - rewrite length_rev, length_app. cbn.
    replace (length a + S (length i) - length i)%nat with (S (length a)) by lia.
    replace (a ++ unit_separator :: i) with ((a ++ [unit_separator]) ++ i) by (by rewrite <- app_assoc).
    apply drop_app_length'. rewrite length_app. cbn. lia.
  - intros y Hy. apply N.eqb_neq. intros <-. apply Hi. rewrite list_elem_of_In in Hy |- *. by apply in_rev.
Qed.

Lemma flat_key_inj k k' : plain_id k.2 -> plain_id k'.2 -> flat_key k = flat_key k' -> k = k'.
Proof.
  destruct k as [a i], k' as [a' i']. unfold flat_key. cbn. intros Hi Hi' E.
  assert (i = i') as <- by (rewrite <- (id_from_flat a i Hi), E; by apply id_from_flat).
  by apply app_inv_tail in E as ->.
Qed.

(** ** Refinement *)

Abbreviation book := (gmap (str * str) session_data).

Record represents (s : gmap str session_data) (A : book) : Prop := {
  rep_from k d : s !! k = Some d -> exists ai, k = flat_key ai /\ A !! ai = Some d;
  rep_to ai d : A !! ai = Some d -> plain_id ai.2 /\ s !! flat_key ai = Some d;
}.

Lemma rep_lookup s A ai : represents s A -> plain_id ai.2 -> s !! flat_key ai = A !! ai.
Proof.
  intros [Hf Ht] Hi. destruct (A !! ai) as [d|] eqn:E; [by apply Ht|].
  destruct (s !! flat_key ai) as [d|] eqn:E'; [|done]. destruct (Hf _ _ E') as (ai' & Hk & HA).
  destruct (Ht _ _ HA) as [Hi' _]. apply flat_key_inj in Hk as ->; [congruence|done|done].
Qed.

Lemma rep_insert s A ai d :
  represents s A -> plain_id ai.2 -> represents (<[flat_key ai := d]> s) (<[ai := d]> A).
Proof.
  intros HR Hi. split.
  - intros k d' [[<- <-] | [Hk H]]%lookup_insert_Some; [exists ai; by rewrite lookup_insert_eq|].
    destruct (rep_from _ _ HR _ _ H) as (ai' & -> & HA). exists ai'. split; [done|].
    rewrite lookup_insert_ne; [done|]. by intros ->.
  - intros ai' d' [[<- <-] | [Hk H]]%lookup_insert_Some; [by rewrite lookup_insert_eq|].
    destruct (rep_to _ _ HR _ _ H) as [Hi' Hs]. split; [done|].
    rewrite lookup_insert_ne; [done|]. intros E. by apply Hk, flat_key_inj.
Qed.

Lemma rep_delete s A ai : represents s A -> plain_id ai.2 -> represents (delete (flat_key ai) s) (delete ai A).
Proof.
  intros HR Hi. split.
  - intros k d' [Hk H]%lookup_delete_Some.
    destruct (rep_from _ _ HR _ _ H) as (ai' & -> & HA). exists ai'. split; [done|].
    rewrite lookup_delete_ne; [done|]. by intros ->.
  - intros ai' d' [Hk H]%lookup_delete_Some.
    destruct (rep_to _ _ HR _ _ H) as [Hi' Hs]. split; [done|].
    rewrite lookup_delete_ne; [done|]. intros E. by apply Hk, flat_key_inj.
Qed.

Lemma rep_entries s A :
  represents s A -> map_to_list s ≡ₚ (fun e => (flat_key e.1, e.2)) <$> map_to_list A.
Proof.
  intros HR. apply NoDup_Permutation; [apply NoDup_map_to_list| |].
  - apply NoDup_fmap_2_strong; [|apply NoDup_map_to_list].
    intros [ai x] [ai' x'] H H' [= E ->]. apply elem_of_map_to_list in H, H'.
    apply flat_key_inj in E as <-; [done|by eapply rep_to|by eapply rep_to].
  - intros [k d]. rewrite elem_of_map_to_list, list_elem_of_fmap. split.
    + intros H. destruct (rep_from _ _ HR _ _ H) as (ai & -> & HA). exists (ai, d). split; [done|].
      by apply elem_of_map_to_list.
    + intros ([ai x] & [= -> ->] & H). apply elem_of_map_to_list in H. by eapply rep_to.
Qed.

(** *** The abstract operations *)

Section Refinement.
Context {U : Unicode}.

Definition session_of (app id : str) : str * str := (to_lowercase app, id).

Definition book_get (now p : N) (k : str * str) (A : book) (h : store) : option session_data * (book * store) :=
  match A !! k with
  | Some s => if expired now s then (None, (delete k A, h))
              else let '(s, h) := promote p s h in (Some s, (<[k := s]> A, h))
  | None => (None, (A, h))
  end.

Definition book_rotate (k k' : str * str) (A : book) : book :=
  match A !! k with Some d => <[k' := d]> (delete k A) | None => A end.

Definition live_at (now : N) (e : (str * str) * session_data) : Prop := expired now e.2 = false.

Definition expiry (s : session_data) : N := saturating_add_u64 (sd_last_accessed s) (sd_timeout s).

Lemma get_book now p app id m A :
  represents (mem_sessions m) A -> plain_id id ->
  exists r m' A' h', store_get now p app id m = (r, m') /\ book_get now p (session_of app id) A (mem_heap m) = (r, (A', h'))
    /\ represents (mem_sessions m') A' /\ mem_heap m' = h'.
Proof.
  intros HR Hi. unfold store_get, book_get. change (composite_key app id) with (flat_key (session_of app id)).
  rewrite (rep_lookup _ _ _ HR) by done. destruct (A !! session_of app id) as [s|]; [|by do 4 eexists].
  destruct (expired now s); [do 4 eexists; split_and!; try done; by apply rep_delete|].
  destruct (promote p s (mem_heap m)) as [s' h']. do 4 eexists; split_and!; try done. by apply rep_insert.
Qed.

Lemma rotate_book app i i' m A :
  represents (mem_sessions m) A -> plain_id i -> plain_id i' ->
  represents (mem_sessions (store_rotate app i i' m)) (book_rotate (session_of app i) (session_of app i') A).
Proof.
  intros HR Hi Hi'. unfold store_rotate, book_rotate.
  change (composite_key app i) with (flat_key (session_of app i)).
  change (composite_key app i') with (flat_key (session_of app i')).
  rewrite (rep_lookup _ _ _ HR) by done. destruct (A !! session_of app i); [|done].
  apply rep_insert; [by apply rep_delete|done].
Qed.

Lemma issued_book now id m A :
  represents (mem_sessions m) A -> plain_id id ->
  id_issued now id m = true <-> exists a s, A !! (a, id) = Some s /\ expired now s = false.
Proof.
  intros HR Hi. unfold id_issued. rewrite existsb_exists. split.
  - intros ([k s] & Hin & [Hk Hs]%andb_true_iff). apply list_elem_of_In, elem_of_map_to_list in Hin.
    apply bool_decide_eq_true in Hk. cbn in Hk, Hs. destruct (rep_from _ _ HR _ _ Hin) as ([a i] & -> & HA).
    destruct (rep_to _ _ HR _ _ HA) as [Hi' _]. unfold flat_key in Hk. cbn in Hk, Hi'.
    rewrite id_from_flat in Hk by done. subst i. exists a, s. split; [done|]. by destruct (expired now s).
  - intros (a & s & HA & Hs). destruct (rep_to _ _ HR _ _ HA) as [_ Hl].
    exists (flat_key (a, id), s). split; [by apply list_elem_of_In, elem_of_map_to_list|].
    cbn. unfold flat_key. cbn. rewrite id_from_flat by done. rewrite bool_decide_true by done. by rewrite Hs.
Qed.

Lemma filter_entries (now : N) (b : bool) (s : gmap str session_data) A :
  represents s A ->
  filter (fun e => expired now e.2 = b) (map_to_list s)
  ≡ₚ (fun e => (flat_key e.1, e.2)) <$> filter (fun e => expired now e.2 = b) (map_to_list A).
Proof.
  intros HR. rewrite (rep_entries _ _ HR). apply reflexive_eq.
  induction (map_to_list A) as [|[ai d] l IH]; [done|]. rewrite fmap_cons, !filter_cons. cbn [fst snd].
  destruct (decide (expired now d = b)); by rewrite ?fmap_cons, IH.
Qed.

Lemma count_book (now : N) m A :
  represents (mem_sessions m) A ->
  session_count now m = length (filter (fun e => expired now e.2 = false) (map_to_list A)).
Proof.
  intros HR. unfold session_count.
  etrans; [exact (Permutation_length (filter_entries now false _ _ HR))|].
  by rewrite length_fmap.
Qed.

(** What is left after the expired records are removed one by one. *)
Lemma sweep_left (now : N) (s : gmap str session_data) :
  foldr (fun e => delete e.1) s (filter (fun e => expired now e.2 = true) (map_to_list s))
  = filter (fun e => expired now e.2 = false) s.
Proof.
  apply map_eq. intros k. assert (Hgen : forall l : list (str * session_data),
    foldr (fun e => delete e.1) s l !! k = if decide (k ∈ l.*1) then None else s !! k).
  { induction l as [|[k' d] l IH]; [done|]. cbn [foldr fst]. destruct (decide (k' = k)) as [->|Hne].
    - rewrite lookup_delete_eq, decide_True by (by left). done.
    - rewrite lookup_delete_ne by done. rewrite IH. cbn. apply decide_ext. set_solver. }
  rewrite Hgen. apply option_eq. intros d. rewrite map_lookup_filter_Some. cbn.
  case_decide as Hk.
  - split; [done|]. intros [Hd Hf]. exfalso. apply list_elem_of_fmap in Hk as ([k' d'] & -> & Hin).
    apply list_elem_of_filter in Hin as [He Hin]. apply elem_of_map_to_list in Hin. cbn in *. congruence.
  - split; [|tauto]. intros Hd. split; [done|]. destruct (expired now d) eqn:E; [|done]. exfalso. apply Hk.
    apply list_elem_of_fmap. exists (k, d). split; [done|]. apply list_elem_of_filter.
    split; [done|]. by apply elem_of_map_to_list.
Qed.

Lemma take_book (now : N) m A :
  represents (mem_sessions m) A ->
  (take_expired now m).1
    ≡ₚ (fun e => (sd_app_name e.2, e.1.2, variables_snapshot (mem_heap m) e.2))
       <$> filter (fun e => expired now e.2 = true) (map_to_list A)
  /\ represents (mem_sessions (take_expired now m).2) (filter (fun e => expired now e.2 = false) A)
  /\ mem_heap (take_expired now m).2 = mem_heap m.
Proof.
  intros HR. unfold take_expired. cbn. split_and!; [| |done].
  - change (map ?f ?l) with (f <$> l).
    etrans; [apply fmap_Permutation, (filter_entries now true _ _ HR)|].
    rewrite <- list_fmap_compose.
    apply reflexive_eq, list_fmap_ext. intros i [ai d] Hi. cbn. unfold flat_key.
    apply list_elem_of_lookup_2, list_elem_of_filter in Hi as [_ Hi]. apply elem_of_map_to_list in Hi.
    rewrite id_from_flat; [done|]. by eapply (rep_to _ _ HR).
  - rewrite sweep_left. split.
    + intros k d [Hk Hd]%map_lookup_filter_Some. destruct (rep_from _ _ HR _ _ Hk) as (ai & -> & HA).
      exists ai. split; [done|]. by apply map_lookup_filter_Some.
    + intros ai d [Hk Hd]%map_lookup_filter_Some. destruct (rep_to _ _ HR _ _ Hk) as [Hi Hs].
      split; [done|]. by apply map_lookup_filter_Some.
Qed.

Lemma foldr_min t ts : foldr N.min t ts ∈ t :: ts /\ Forall (N.le (foldr N.min t ts)) (t :: ts).
Proof.
  induction ts as [|x ts [Hin Hle]]; cbn; [split; [by left|by repeat constructor]|].
  apply Forall_cons in Hle as [Ht Hts]. destruct (N.min_spec x (foldr N.min t ts)) as [[Hlt ->] | [Hge ->]].
  - split; [right; by left|]. constructor; [lia|]. constructor; [lia|].
    eapply Forall_impl; [exact Hts|]. cbn. lia.
  - split; [|by repeat constructor]. apply elem_of_cons in Hin as [Hin | Hin]; [rewrite Hin; by left|].
    right; by right.
Qed.

(** The earliest expiry, if there is a session. *)
Lemma next_expiry_spec m :
  match next_expiry m with
  | None => mem_sessions m = ∅
  | Some t => (exists k s, mem_sessions m !! k = Some s /\ expiry s = t)
              /\ forall k s, mem_sessions m !! k = Some s -> t <= expiry s
  end.
Proof.
  unfold next_expiry.
  assert (Hin : forall t, t ∈ map (fun e => expiry e.2) (map_to_list (mem_sessions m))
                    <-> exists k s, mem_sessions m !! k = Some s /\ expiry s = t).
  { intros t. change (map ?f ?l) with (f <$> l). rewrite list_elem_of_fmap. split.
    - intros ([k d] & -> & H). apply elem_of_map_to_list in H. by exists k, d.
    - intros (k & d & H & <-). exists (k, d). split; [done|]. by apply elem_of_map_to_list. }
  unfold expiry in *. destruct (map _ _) as [|t ts].
  - apply map_empty. intros k. destruct (mem_sessions m !! k) as [d|] eqn:E; [|done]. exfalso.
    assert (H : saturating_add_u64 (sd_last_accessed d) (sd_timeout d) ∈ []) by (apply Hin; by exists k, d).
    by apply elem_of_nil in H.
  - destruct (foldr_min t ts) as [H Hle]. split; [by apply Hin|]. intros k d Hk.
    apply (proj1 (Forall_forall _ _) Hle), Hin. by exists k, d.
Qed.

Lemma next_book m A :
  represents (mem_sessions m) A ->
  match next_expiry m with
  | None => A = ∅
  | Some t => (exists ai s, A !! ai = Some s /\ expiry s = t) /\ forall ai s, A !! ai = Some s -> t <= expiry s
  end.
Proof.
  intros HR. pose proof (next_expiry_spec m) as H. destruct (next_expiry m) as [t|].
  - destruct H as [(k & s & Hk & Ht) Hle]. split.
    + destruct (rep_from _ _ HR _ _ Hk) as (ai & _ & HA). by exists ai, s.
    + intros ai d HA. by eapply Hle, (rep_to _ _ HR).
  - apply map_empty. intros ai. destruct (A !! ai) as [d|] eqn:E; [|done].
    destruct (rep_to _ _ HR _ _ E) as [_ Hs]. by rewrite H in Hs.
Qed.

(** ** The reaper on its own *)

(** The clock, the store and the queue after [n] wake-ups; a sleep lasts at least
    what was asked for, the [i]-th one [late i] seconds longer. *)
Fixpoint wakes (cfg : reap_config) (late : nat -> N) (n : nat) (st : N * memory * gmap str (list vars))
    : N * memory * gmap str (list vars) :=
  match n with
  | O => st
  | S n =>
      let '(now, m, q) := st in
      let now := now + reap_delay cfg now m + late 0%nat in
      let '(m, q) := reap cfg now m q in wakes cfg (fun i => late (S i)) n (now, m, q)
  end.

Lemma wakes_S cfg late n now m q :
  wakes cfg late (S n) (now, m, q)
  = let now' := now + reap_delay cfg now m + late 0%nat in
    wakes cfg (fun i => late (S i)) n (now', (reap cfg now' m q).1, (reap cfg now' m q).2).
Proof. cbn [wakes]. by destruct (reap cfg _ m q). Qed.

(** The last second in which the session is valid is representable. *)
Definition in_time (s : session_data) : Prop := sd_last_accessed s + sd_timeout s <= u64_max.

Lemma expired_after now s : expired now s = true <-> sd_last_accessed s + sd_timeout s < now.
Proof. unfold expired. rewrite N.ltb_lt. lia. Qed.

Lemma expiry_in_time s : in_time s -> expiry s = sd_last_accessed s + sd_timeout s.
Proof. unfold in_time, expiry, saturating_add_u64. lia. Qed.

(** The next wake-up is at most one second past any expiry. *)
Lemma delay_bound cfg now m k s :
  reap_adaptive cfg = true -> 1 <= reap_interval cfg ->
  mem_sessions m !! k = Some s -> in_time s -> now <= sd_last_accessed s + sd_timeout s ->
  1 <= reap_delay cfg now m /\ now + reap_delay cfg now m <= sd_last_accessed s + sd_timeout s + 1.
Proof.
  intros Ha Hi Hk Hs Hnow. unfold reap_delay. rewrite Ha. pose proof (next_expiry_spec m) as H.
  destruct (next_expiry m) as [t|]; [|by rewrite H in Hk]. destruct H as [_ Hle].
  specialize (Hle k s Hk). rewrite expiry_in_time in Hle by done. lia.
Qed.

Lemma reap_sessions cfg now m q k :
  mem_sessions (reap cfg now m q).1 !! k
  = match mem_sessions m !! k with
    | Some s => if expired now s then None else Some s
    | None => None
    end.
Proof.
  unfold reap, take_expired. cbn. rewrite sweep_left. apply option_eq. intros d.
  rewrite map_lookup_filter_Some. cbn. destruct (mem_sessions m !! k) as [s|]; [|naive_solver].
  destruct (expired now s) eqn:E; naive_solver congruence.
Qed.

Lemma wakes_until cfg n : forall late now m q k s,
  reap_adaptive cfg = true -> 1 <= reap_interval cfg ->
  mem_sessions m !! k = Some s -> in_time s ->
  (N.to_nat (sd_last_accessed s + sd_timeout s + 1 - now) <= n)%nat -> now <= sd_last_accessed s + sd_timeout s ->
  exists i t m' q', wakes cfg late (S i) (now, m, q) = (t, m', q')
    /\ sd_last_accessed s + sd_timeout s + 1 <= t <= sd_last_accessed s + sd_timeout s + 1 + late i
    /\ mem_sessions m' !! k = None
    /\ forall j, (j <= i)%nat -> mem_sessions (wakes cfg late j (now, m, q)).1.2 !! k = Some s.
Proof.
  induction n as [|n IH]; intros late now m q k s Ha Hi Hk Hs Hn Hnow; [lia|].
  destruct (delay_bound cfg now m k s Ha Hi Hk Hs Hnow) as [Hd Hb].
  set (now' := now + reap_delay cfg now m + late 0%nat).
  pose proof (reap_sessions cfg now' m q k) as Hr. rewrite Hk in Hr.
  destruct (reap cfg now' m q) as [m1 q1] eqn:E.
  assert (Hw : forall j, wakes cfg late (S j) (now, m, q) = wakes cfg (fun i => late (S i)) j (now', m1, q1)).
  { intros j. rewrite wakes_S. cbn zeta. fold now'. by rewrite E. }
  destruct (expired now' s) eqn:Ex.
  - apply expired_after in Ex. exists 0%nat, now', m1, q1. split_and!; [by rewrite Hw|lia|subst now'; lia|exact Hr|].
    intros j Hj. by replace j with 0%nat by lia.
  - assert (Hlate : now' <= sd_last_accessed s + sd_timeout s).
    { destruct (N.le_gt_cases now' (sd_last_accessed s + sd_timeout s)) as [|Hgt]; [done|].
      apply expired_after in Hgt. congruence. }
    destruct (IH (fun i => late (S i)) now' m1 q1 k s Ha Hi Hr Hs) as (i & t & m' & q' & H1 & H2 & H3 & H4);
      [subst now'; lia|done|].
    exists (S i), t, m', q'. split_and!; [by rewrite Hw|lia|lia|done|].
    intros [|j] Hj; [done|]. rewrite Hw. apply H4. lia.
Qed.

(** ** Deliveries *)

(** The bounded queue keeps the last entries. *)
Lemma queue_keeps_last name l n q dq :
  (0 < n)%nat -> q !! name = Some dq -> (length dq <= n)%nat ->
  foldl (fun q v => (queue_session_end name v n q).2) q l !! name
  = Some (drop (length (dq ++ l) - n) (dq ++ l)).
Proof.
  intros Hn. revert q dq. induction l as [|v l IH]; intros q dq Hq Hlen; cbn [foldl].
  { rewrite app_nil_r. replace (length dq - n)%nat with 0%nat by lia. by rewrite drop_0. }
  assert (Hstep : (queue_session_end name v n q).2 !! name = Some (drop (S (length dq) - n) dq ++ [v])).
  { unfold queue_session_end. rewrite Hq. cbn. destruct (Nat.eqb_spec n 0); [lia|]. by rewrite lookup_insert_eq. }
  rewrite (IH _ _ Hstep) by (rewrite length_app, length_drop; cbn; lia). f_equal.
  rewrite !length_app, length_drop, <- app_assoc. cbn [length app].
  destruct (Nat.eq_dec (length dq) n) as [He|Hne].
  - replace (S (length dq) - n)%nat with 1%nat by lia. destruct dq as [|d dq]; [cbn in He; lia|].
    cbn [length] in *. cbn [drop]. rewrite drop_0.
    replace (S (length dq) - 1 + 1 + length l - n)%nat with (length l) by lia.
    by replace (S (length dq) + S (length l) - n)%nat with (S (length l)) by lia.
  - replace (S (length dq) - n)%nat with 0%nat by lia. rewrite drop_0. do 2 f_equal. lia.
Qed.
End Refinement.

(** ** The theorems *)

(** C11. The in-process store implements a map from (application name in lower
    case, id): reading with exact expiry, writing, removing, moving a session to
    a new id, finding an id in any application, counting, draining and the
    earliest expiry; an operation on one session leaves every other alone. *)
Theorem memory_store_refines {U : Unicode} (m : memory) (A : gmap (str * str) session_data)
    (now p : N) (app id id' : str) (d : session_data) :
  represents (mem_sessions m) A -> plain_id id -> plain_id id' ->
  (exists r m' A' h', store_get now p app id m = (r, m')
     /\ book_get now p (session_of app id) A (mem_heap m) = (r, (A', h'))
     /\ represents (mem_sessions m') A' /\ mem_heap m' = h')
  /\ represents (mem_sessions (store_set app id d m)) (<[session_of app id := d]> A)
  /\ represents (mem_sessions (store_remove app id m)) (delete (session_of app id) A)
  /\ represents (mem_sessions (store_rotate app id id' m)) (book_rotate (session_of app id) (session_of app id') A)
  /\ (id_issued now id m = true <-> exists a s, A !! (a, id) = Some s /\ expired now s = false)
  /\ session_count now m = length (filter (fun e => expired now e.2 = false) (map_to_list A))
  /\ ((take_expired now m).1
        ≡ₚ (fun e => (sd_app_name e.2, e.1.2, variables_snapshot (mem_heap m) e.2))
           <$> filter (fun e => expired now e.2 = true) (map_to_list A)
      /\ represents (mem_sessions (take_expired now m).2) (filter (fun e => expired now e.2 = false) A)
      /\ mem_heap (take_expired now m).2 = mem_heap m)
  /\ match next_expiry m with
     | None => A = ∅
     | Some t => (exists ai s, A !! ai = Some s /\ expiry s = t)
                 /\ forall ai s, A !! ai = Some s -> t <= expiry s
     end.
Proof.
  intros HR Hi Hi'. destruct (take_book now m A HR) as (Ht1 & Ht2 & Ht3). split_and!; try done.
  - by apply get_book.
  - by apply (rep_insert _ _ (session_of app id)).
  - by apply (rep_delete _ _ (session_of app id)).
  - by apply rotate_book.
  - by apply issued_book.
  - by apply count_book.
  - by apply next_book.
Qed.

(** C37. The adaptive reaper, when nothing else writes, drains every session at
    its first wake-up in which the session is expired, which comes in the first
    such second or later by what that one sleep overran, and leaves the session
    alone before. *)
Theorem reaper_punctual {U : Unicode} (cfg : reap_config) (late : nat -> N) (now : N) (m : memory)
    (q : gmap str (list vars)) (k : str) (s : session_data) :
  reap_adaptive cfg = true -> 1 <= reap_interval cfg ->
  mem_sessions m !! k = Some s -> in_time s -> expired now s = false ->
  exists i t m' q', wakes cfg late (S i) (now, m, q) = (t, m', q')
    /\ sd_last_accessed s + sd_timeout s + 1 <= t <= sd_last_accessed s + sd_timeout s + 1 + late i
    /\ mem_sessions m' !! k = None
    /\ forall j, (j <= i)%nat -> mem_sessions (wakes cfg late j (now, m, q)).1.2 !! k = Some s.
Proof.
  intros Ha Hi Hk Hs Hex. eapply wakes_until; try done.
  destruct (N.le_gt_cases now (sd_last_accessed s + sd_timeout s)) as [|Hgt]; [done|].
  apply expired_after in Hgt. congruence.
Qed.
