(* ===== verification/SessionScope.v ===== *)
(** * SessionScope: a request's session, from cookie to write-back

    cfml-vm: [lib.rs], the session part of [CfmlVirtualMachine]:
    [execute_with_lifecycle] (steps 5b, 8a, 8b), [session_record],
    [store_session_record], [attach_session_scope], [lazy_init_session_if_pending],
    [sync_session_scope_to_store], the reads and writes of the scope, the
    data-only rule, and [sessionInvalidate], [sessionRotate], [cfloginuser].

    A server is running, so that the requests share one store and one heap.  The
    clock and a new UUID are arguments of each operation, and [onSessionStart] is
    a function of the state. *)

From stdpp Require Import base list numbers strings gmap.
From S2P Require Import Prelude Text Float64 Value Bytes Keys ValueMap ObjCodec Stringify SessionStore.
Local Open Scope N_scope.

(** What the requests share: the store with its heap, the deliveries, and the
    next address the allocator gives out. *)
Record world := World { w_memory : memory; w_pending : gmap str (list vars); w_next : N }.

(** The session part of a virtual machine. *)
Record vm := Vm {
  vm_session_id : option str;
  vm_app : option str;
  vm_timeout : N;
  vm_scope : option N;
  vm_lazy_creation : bool;
  vm_lazy_pending : bool;
  vm_lazy_initializing : bool;
  vm_record_created : bool;
  vm_cache : option (str * str * option session_data);
}.

Abbreviation state := (vm * world)%type.

Definition set_id (i : option str) (v : vm) : vm :=
  Vm i (vm_app v) (vm_timeout v) (vm_scope v) (vm_lazy_creation v) (vm_lazy_pending v)
    (vm_lazy_initializing v) (vm_record_created v) (vm_cache v).
Definition set_app (a : option str) (v : vm) : vm :=
  Vm (vm_session_id v) a (vm_timeout v) (vm_scope v) (vm_lazy_creation v) (vm_lazy_pending v)
    (vm_lazy_initializing v) (vm_record_created v) (vm_cache v).
Definition set_timeout (t : N) (v : vm) : vm :=
  Vm (vm_session_id v) (vm_app v) t (vm_scope v) (vm_lazy_creation v) (vm_lazy_pending v)
    (vm_lazy_initializing v) (vm_record_created v) (vm_cache v).
Definition set_scope (p : option N) (v : vm) : vm :=
  Vm (vm_session_id v) (vm_app v) (vm_timeout v) p (vm_lazy_creation v) (vm_lazy_pending v)
    (vm_lazy_initializing v) (vm_record_created v) (vm_cache v).
Definition set_pending (b : bool) (v : vm) : vm :=
  Vm (vm_session_id v) (vm_app v) (vm_timeout v) (vm_scope v) (vm_lazy_creation v) b
    (vm_lazy_initializing v) (vm_record_created v) (vm_cache v).
Definition set_initializing (b : bool) (v : vm) : vm :=
  Vm (vm_session_id v) (vm_app v) (vm_timeout v) (vm_scope v) (vm_lazy_creation v) (vm_lazy_pending v)
    b (vm_record_created v) (vm_cache v).
Definition set_created (b : bool) (v : vm) : vm :=
  Vm (vm_session_id v) (vm_app v) (vm_timeout v) (vm_scope v) (vm_lazy_creation v) (vm_lazy_pending v)
    (vm_lazy_initializing v) b (vm_cache v).
Definition set_cache (c : option (str * str * option session_data)) (v : vm) : vm :=
  Vm (vm_session_id v) (vm_app v) (vm_timeout v) (vm_scope v) (vm_lazy_creation v) (vm_lazy_pending v)
    (vm_lazy_initializing v) (vm_record_created v) c.

Definition set_memory (m : memory) (w : world) : world := World m (w_pending w) (w_next w).
Definition heap_of (w : world) : store := mem_heap (w_memory w).
Definition set_heap (h : store) (w : world) : world :=
  World (Memory (mem_sessions (w_memory w)) h) (w_pending w) (w_next w).

(** [CfmlStruct::new], [snapshot], [insert] and a replacement of the contents. *)
Definition new_struct (m : vars) (w : world) : N * world :=
  (w_next w, World (Memory (mem_sessions (w_memory w)) (<[w_next w := CStruct m]> (heap_of w)))
               (w_pending w) (w_next w + 1)).
Definition snapshot (p : N) (w : world) : vars :=
  match heap_of w !! p with Some (CStruct m) => m | _ => [] end.
Definition put_struct (p : N) (m : vars) (w : world) : world := set_heap (<[p := CStruct m]> (heap_of w)) w.
Definition insert_key (p : N) (k : str) (x : gvalue) (w : world) : world :=
  put_struct p (ci_insert k x (snapshot p w)) w.
Definition insert_keys (p : N) (l : vars) (w : world) : world :=
  foldl (fun w e => insert_key p e.1 e.2 w) w l.

(** ** The data-only rule *)

Inductive session_stop := Thrown (e : cfml_error) | Overflowed.

Definition starts_internal (k : str) : bool := match k with a :: b :: _ => (a =? 95) && (b =? 95) | _ => false end.

(** [validate_session_value]: [inl] is the message on the first violation. *)
Fixpoint validate_session_value (d : nat) (h : store) (path : str) (v : gvalue)
    : outcome (str + overflow) unit :=
  match d with
  | O => Err (inr StackOverflow)
  | S d =>
      match v with
      | JClosure => Err (inl (path ++ lit " is a closure"))
      | JFunction _ => Err (inl (path ++ lit " is a function"))
      | JComponent _ => Err (inl (path ++ lit " is a component"))
      | JNativeObject _ => Err (inl (path ++ lit " is a native object"))
      | JArray p =>
          match h !! p with
          | Some (CArray l) =>
              omapo (fun _ => tt)
                (omapM (fun ix => validate_session_value d h
                          (path ++ lit "[" ++ Z_to_str (Z.of_nat ix.1) ++ lit "]") ix.2) (zip (seq 1 (length l)) l))
          | _ => Panic
          end
      | JStruct p =>
          match h !! p with
          | Some (CStruct m) =>
              if is_component_backing m then Err (inl (path ++ lit " is a component"))
              else omapo (fun _ => tt)
                     (omapM (fun e => if starts_internal e.1 then Ok tt
                                      else validate_session_value d h (path ++ lit "." ++ e.1) e.2) m)
          | _ => Panic
          end
      | _ => Ok tt
      end
  end.

(** The error a violation is reported as. *)
Definition data_only (r : outcome (str + overflow) unit) : outcome session_stop unit :=
  match r with
  | Ok _ => Ok tt
  | Err (inl p) =>
      Err (Thrown (runtime (p ++ lit "; the session scope only persists data values (no components, closures, functions, or native objects)")))
  | Err (inr _) => Err Overflowed
  | Panic => Panic
  end.

Definition validate_session_data_only (d : nat) (h : store) (m : vars) : outcome session_stop unit :=
  omapo (fun _ => tt)
    (omapM (fun e => if starts_internal e.1 then Ok tt
                     else data_only (validate_session_value d h (lit "session." ++ e.1) e.2)) m).

(** ** The session of a request *)

Section Scope.
Context {U : Unicode}.

(** What the store is: whether its reads are free and whether it serialises.
    [MemoryStore] answers [true] and [false]. *)
Variables (reads_are_cheap persists_by_serialization : bool).

(** [onSessionStart]; an error of it is dropped. *)
Variable on_session_start : state -> state.

(** The depth the data-only walk may recurse to. *)
Variable depth : nat.

(** The clock and the id a new UUID gives. *)
Variables (now : N) (new_uuid : str).

(** [SessionStore::get] of the shared store; a promoted map takes the next address. *)
Definition get_session (app id : str) (w : world) : option session_data * world :=
  let '(r, m) := store_get now (w_next w) app id (w_memory w) in (r, World m (w_pending w) (w_next w + 1)).

Definition app_of (v : vm) : str := default [] (vm_app v).

Definition session_key (v : vm) : option (str * str) :=
  match vm_session_id v with
  | Some (c :: sid) => Some (app_of v, c :: sid)
  | _ => None
  end.

Definition session_record (st : state) : option session_data * state :=
  let '(v, w) := st in
  match session_key v with
  | None => (None, st)
  | Some (app, sid) =>
      if reads_are_cheap then let '(r, w) := get_session app sid w in (r, (v, w))
      else match vm_cache v with
           | Some (c_app, c_sid, r) =>
               if bool_decide (c_app = app) && bool_decide (c_sid = sid) then (r, st)
               else let '(r, w) := get_session app sid w in (r, (set_cache (Some (app, sid, r)) v, w))
           | None => let '(r, w) := get_session app sid w in (r, (set_cache (Some (app, sid, r)) v, w))
           end
  end.

Definition store_session_record (data : session_data) (st : state) : state :=
  let '(v, w) := st in
  match session_key v with
  | None => st
  | Some (app, sid) =>
      (set_cache (Some (app, sid, Some data)) v, set_memory (store_set app sid data (w_memory w)) w)
  end.

Definition invalidate_session_record_cache (st : state) : state := (set_cache None st.1, st.2).

Definition new_record (timeout : N) (app : str) : session_data :=
  SessionData [] now now None [] timeout app None.

(** [from_epoch_secs(secs as i64)] *)
Definition date_of (secs : N) : gvalue := JDateTime (from_epoch (wrap_i64 (Z.of_N secs)) 0 KDateTime).

Definition session_builtin_keys (v : vm) (rec : session_data) : vars :=
  let cfid := default [] (vm_session_id v) in
  [(lit "cfid", JString cfid); (lit "cftoken", JString (lit "0"));
   (lit "sessionid", JString (app_of v ++ lit "_" ++ cfid ++ lit "_0"));
   (lit "urltoken", JString (lit "CFID=" ++ cfid ++ lit "&CFTOKEN=0"));
   (lit "timecreated", date_of (sd_created rec)); (lit "lastvisit", date_of (sd_last_accessed rec))].

Definition is_builtin_key (k : str) : bool :=
  existsb (fun b => eq_ignore_ascii_case k (lit b))
    ["cfid"; "cftoken"; "sessionid"; "urltoken"; "timecreated"; "lastvisit"]%string.

Definition attach_session_scope (st : state) : state :=
  match vm_scope st.1 with
  | Some _ => st
  | None =>
      let '(record, (v, w)) := session_record st in
      let builtins := match record with Some r => session_builtin_keys v r | None => [] end in
      let live := if persists_by_serialization then None else record ≫= sd_live in
      match live with
      | Some p => (set_scope (Some p) v, insert_keys p builtins w)
      | None =>
          let m := match record with Some r => sd_variables r | None => [] end in
          let '(p, w) := new_struct (foldl (fun m e => ci_insert e.1 e.2 m) m builtins) w in
          (set_scope (Some p) v, w)
      end
  end.

Definition lazy_init_session_if_pending (st : state) : bool * state :=
  if negb (vm_lazy_pending st.1) || vm_lazy_initializing st.1 then (false, st)
  else
    let v := set_initializing true st.1 in
    let v := match vm_session_id v with Some (_ :: _) => v | _ => set_id (Some new_uuid) v end in
    let st := store_session_record (new_record (vm_timeout v) (app_of v)) (v, st.2) in
    let st := (set_pending false (set_created true st.1), st.2) in
    let '(rec, (v, w)) := session_record st in
    let st := match vm_scope v, rec with
              | Some p, Some r => (v, insert_keys p (session_builtin_keys v r) w)
              | _, _ => (v, w)
              end in
    let st := on_session_start st in
    (true, (set_initializing false st.1, st.2)).

Definition with_access (t : N) (s : session_data) : session_data :=
  SessionData (sd_variables s) (sd_created s) t (sd_auth_user s) (sd_auth_roles s) (sd_timeout s)
    (sd_app_name s) (sd_live s).

Definition with_variables (m : vars) (s : session_data) : session_data :=
  SessionData m (sd_created s) now (sd_auth_user s) (sd_auth_roles s) (sd_timeout s) (sd_app_name s) None.

Definition own_keys (m : vars) : vars := filter (fun e => is_builtin_key e.1 = false) m.

Definition sync_session_scope_to_store (st : state) : outcome session_stop unit * state :=
  match vm_scope st.1 with
  | None => (Ok tt, st)
  | Some p =>
      let '(record, st) := session_record st in
      let live := if persists_by_serialization then None else record ≫= sd_live in
      match record, live with
      | Some rec, Some l =>
          let st := if p =? l then st
                    else (set_scope (Some l) st.1, insert_keys l (own_keys (snapshot p st.2)) st.2) in
          (Ok tt, store_session_record (with_access now rec) st)
      | _, _ =>
          let snap := own_keys (snapshot p st.2) in
          match (if persists_by_serialization
                 then validate_session_data_only depth (heap_of st.2) snap else Ok tt) with
          | Ok _ =>
              match session_key st.1 with
              | None => (Ok tt, st)
              | Some _ =>
                  let '(existing, st) := session_record st in
                  match existing, snap with
                  | None, [] => (Ok tt, st)
                  | _, _ =>
                      let session := default (new_record (vm_timeout st.1) (app_of st.1)) existing in
                      (Ok tt, store_session_record (with_variables snap session) st)
                  end
              end
          | Err e => (Err e, st)
          | Panic => (Panic, st)
          end
      end
  end.

(** The scope as a value: the attached struct, or a copy. *)
Definition get_session_scope (st : state) : vars * state :=
  match vm_scope st.1 with
  | Some p => (snapshot p st.2, st)
  | None =>
      let '(record, st) := session_record st in
      (match record with Some r => variables_snapshot (heap_of st.2) r | None => [] end, st)
  end.

(** The bare name [session]. *)
Definition read_session (st : state) : vars * state := get_session_scope (attach_session_scope st).

Definition set_session_scope (m : vars) (st : state) : outcome session_stop unit * state :=
  match (if persists_by_serialization then validate_session_data_only depth (heap_of st.2) m else Ok tt) with
  | Ok _ =>
      let '(merge, st) := lazy_init_session_if_pending st in
      let st := attach_session_scope st in
      match vm_scope st.1 with
      | Some p =>
          (Ok tt, (st.1, if merge : bool then insert_keys p m st.2 else put_struct p m st.2))
      | None => (Ok tt, st)
      end
  | Err e => (Err e, st)
  | Panic => (Panic, st)
  end.

Definition set_session_variable (k : str) (x : gvalue) (st : state) : outcome session_stop unit * state :=
  match (if persists_by_serialization
         then data_only (validate_session_value depth (heap_of st.2) (lit "session." ++ k) x) else Ok tt) with
  | Ok _ =>
      let st := attach_session_scope (lazy_init_session_if_pending st).2 in
      match vm_scope st.1 with
      | Some p => (Ok tt, (st.1, insert_key p k x st.2))
      | None => (Ok tt, st)
      end
  | Err e => (Err e, st)
  | Panic => (Panic, st)
  end.

(** ** Built-in functions *)

Definition session_invalidate (st : state) : state :=
  let w := match vm_session_id st.1 with
           | Some sid => set_memory (store_remove (app_of st.1) sid (w_memory st.2)) st.2
           | None => st.2
           end in
  let st := invalidate_session_record_cache (st.1, w) in (set_scope None st.1, st.2).

Definition session_rotate (st : state) : outcome session_stop unit * state :=
  match sync_session_scope_to_store st with
  | (Ok _, (v, w)) =>
      let '(v, w) := match vm_session_id v with
                     | Some old =>
                         (set_id (Some new_uuid) v,
                          set_memory (store_rotate (app_of v) old new_uuid (w_memory w)) w)
                     | None => (v, w)
                     end in
      let st := invalidate_session_record_cache (v, w) in
      (Ok tt, attach_session_scope (set_scope None st.1, st.2))
  | r => r
  end.

Definition with_auth (user : option str) (roles : list str) (s : session_data) : session_data :=
  SessionData (sd_variables s) (sd_created s) (sd_last_accessed s) user roles (sd_timeout s)
    (sd_app_name s) (sd_live s).

(** [cfloginuser], its roles already split. *)
Definition login_user (name : str) (roles : list str) (st : state) : state :=
  let st := (lazy_init_session_if_pending st).2 in
  match session_key st.1 with
  | None => st
  | Some _ =>
      let '(rec, st) := session_record st in
      store_session_record (with_auth (Some name) roles (default (new_record 1800 (app_of st.1)) rec)) st
  end.

Definition logout (st : state) : state :=
  let '(rec, st) := session_record st in
  match rec with
  | Some s => store_session_record (with_auth None [] s) st
  | None => st
  end.

Definition get_auth_user (st : state) : str * state :=
  let '(rec, st) := session_record st in (default [] (rec ≫= sd_auth_user), st).

Definition is_user_logged_in (st : state) : bool * state :=
  let '(rec, st) := session_record st in (bool_decide (is_Some (rec ≫= sd_auth_user)), st).

(** [role] is the argument in lower case. *)
Definition is_user_in_role (role : str) (st : state) : bool * state :=
  let '(rec, st) := session_record st in
  (match rec with Some s => existsb (fun r => bool_decide (to_lowercase r = role)) (sd_auth_roles s) | None => false end,
   st).

(** ** The request *)

Definition with_visit (timeout : N) (s : session_data) : session_data :=
  SessionData (sd_variables s) (sd_created s) now (sd_auth_user s) (sd_auth_roles s) timeout
    (sd_app_name s) (sd_live s).

(** The cookie's id, or the empty string. *)
Definition cookie_id (v : vm) : str := default [] (vm_session_id v).

(** An id that no application holds is forgotten. *)
Definition drop_unissued_id (st : state) : state :=
  let sid := cookie_id st.1 in
  let has_sid := negb (bool_decide (sid = [])) in
  let issued := has_sid && id_issued now sid (w_memory st.2) in
  if has_sid && negb issued then invalidate_session_record_cache (set_id None st.1, st.2) else st.

(** No session yet: left to the first write, or created with a new id. *)
Definition open_session (app : str) (timeout : N) (st : state) : state :=
  let st := drop_unissued_id st in
  if vm_lazy_creation st.1 then (set_pending true st.1, st.2)
  else
    let st := store_session_record (new_record timeout app) (set_id (Some new_uuid) st.1, st.2) in
    on_session_start (set_created true st.1, st.2).

(** Step 5b of [execute_with_lifecycle], with session management on. *)
Definition start_session (app : str) (timeout : N) (st : state) : state :=
  let st := (set_timeout timeout (set_pending false (set_created false st.1)), st.2) in
  let '(existing, st) := if bool_decide (cookie_id st.1 = []) then (None, st) else session_record st in
  let st := match existing with
            | Some s => store_session_record (with_visit timeout s) st
            | None => open_session app timeout st
            end in
  if vm_lazy_pending st.1 then st else attach_session_scope st.

(** The session part of [<cfapplication>]: from here on the request is of the
    application [name], if it has one, and with [management] the session of that
    application is looked up.  A scope that is attached stays attached. *)
Definition cf_application (name : str) (management : bool) (timeout : option N) (st : state) : state :=
  let st := if bool_decide (name = []) then st else (set_app (Some name) st.1, st.2) in
  if management then
    let st := (set_timeout (default (vm_timeout st.1) timeout) st.1, st.2) in
    let '(existing, st) := if bool_decide (cookie_id st.1 = []) then (None, st) else session_record st in
    match existing with
    | Some s => attach_session_scope (store_session_record (with_visit (vm_timeout st.1) s) st)
    | None => (set_pending true st.1, st.2)
    end
  else st.

(** The session part of the machine of a thread the request spawns. *)
Definition thread_vm (v : vm) : vm :=
  Vm (vm_session_id v) (vm_app v) (vm_timeout v) (vm_scope v) false false false false None.

(** Steps 8a and 8b: the write-back, then the deliveries for this application. *)
Definition end_session (app : str) (st : state) : outcome session_stop (list vars) * state :=
  match sync_session_scope_to_store st with
  | (Ok _, (v, w)) =>
      let '(ends, q) := drain_session_ends app (w_pending w) in
      (Ok ends, (v, World (w_memory w) q (w_next w)))
  | (Err e, st) => (Err e, st)
  | (Panic, st) => (Panic, st)
  end.
End Scope.

#[global] Arguments session_record : simpl never.
#[global] Arguments store_session_record : simpl never.
#[global] Arguments attach_session_scope : simpl never.
#[global] Arguments lazy_init_session_if_pending : simpl never.
#[global] Arguments sync_session_scope_to_store : simpl never.
#[global] Arguments new_struct : simpl never.
#[global] Arguments insert_keys : simpl never.
#[global] Arguments is_builtin_key : simpl never.
#[global] Arguments session_builtin_keys : simpl never.
