(* ===== verification/SessionCalls.v ===== *)
(** * SessionCalls: the operations of a request, one store call at a time

    cfml-vm: [lib.rs], the operations of [SessionScope] on [MemoryStore].  The
    mutex of the store is taken by each call and given back, and so is the lock
    of a struct: between two calls of an operation other requests run.  An
    operation is here the program of its calls; run without interruption it is
    the operation of [SessionScope]. *)

From stdpp Require Import base list numbers strings gmap relations.
From S2P Require Import Prelude Text Float64 Value Bytes Keys ValueMap ObjCodec Stringify SessionStore SessionStoreFacts SessionScope.
Local Open Scope N_scope.

(** What a request asks of the store, of its pending deliveries and of the
    structs, with the reply each gets. *)
Inductive call : Type -> Type :=
  | CGet (app id : str) : call (option session_data)
  | CSet (app id : str) (data : session_data) : call unit
  | CRemove (app id : str) : call unit
  | CRotate (app old_id new_id : str) : call unit
  | CIssued (id : str) : call bool
  | CDrain (app : str) : call (list vars)
  | CNew (m : vars) : call N
  | CSnapshot (p : N) : call vars
  | CInsert (p : N) (k : str) (x : gvalue) : call unit
  | CPut (p : N) (m : vars) : call unit.

(** A program: calls, and at its end a result. *)
Inductive prog (A : Type) : Type :=
  | Done (a : A)
  | Call {R : Type} (c : call R) (k : R -> prog A).
#[global] Arguments Done {A} _.
#[global] Arguments Call {A R} _ _.

Fixpoint bind {A B : Type} (p : prog A) (f : A -> prog B) : prog B :=
  match p with
  | Done a => f a
  | Call c k => Call c (fun r => bind (k r) f)
  end.

Declare Scope prog_scope.
Notation "x <- p ;; q" := (bind p (fun x => q)) (at level 100, p at next level, right associativity) : prog_scope.
Local Open Scope prog_scope.

Definition ask {R : Type} (c : call R) : prog R := Call c Done.

Section Calls.
Context {U : Unicode}.

(** The effect of a call that the store serves at [now]. *)
Definition perform {R : Type} (now : N) (c : call R) (w : world) : R * world :=
  match c in call R return R * world with
  | CGet app id => get_session now app id w
  | CSet app id data => (tt, set_memory (store_set app id data (w_memory w)) w)
  | CRemove app id => (tt, set_memory (store_remove app id (w_memory w)) w)
  | CRotate app old_id new_id => (tt, set_memory (store_rotate app old_id new_id (w_memory w)) w)
  | CIssued id => (id_issued now id (w_memory w), w)
  | CDrain app => let '(ends, q) := drain_session_ends app (w_pending w) in (ends, World (w_memory w) q (w_next w))
  | CNew m => new_struct m w
  | CSnapshot p => (snapshot p w, w)
  | CInsert p k x => (tt, insert_key p k x w)
  | CPut p m => (tt, put_struct p m w)
  end.

(** A program that nothing interrupts. *)
Fixpoint run {A : Type} (now : N) (p : prog A) (w : world) : A * world :=
  match p with
  | Done a => (a, w)
  | Call c k => let '(r, w') := perform now c w in run now (k r) w'
  end.

Lemma run_bind {A B} now (p : prog A) (f : A -> prog B) w :
  run now (bind p f) w = let '(a, w') := run now p w in run now (f a) w'.
Proof.
  revert w. induction p as [a|R c k IH]; intros w; [done|]. cbn [bind run].
  destruct (perform now c w) as [r w']. apply IH.
Qed.

(** ** The operations *)

Section Programs.
Variable hook : vm -> prog vm.
Variables (now : N) (uuid : str).

Definition record_calls (v : vm) : prog (option session_data) :=
  match session_key v with
  | None => Done None
  | Some (app, sid) => ask (CGet app sid)
  end.

Definition store_calls (data : session_data) (v : vm) : prog vm :=
  match session_key v with
  | None => Done v
  | Some (app, sid) => _ <- ask (CSet app sid data);; Done (set_cache (Some (app, sid, Some data)) v)
  end.

Definition insert_calls (p : N) (l : vars) : prog unit :=
  foldr (fun e k => _ <- ask (CInsert p e.1 e.2);; k) (Done tt) l.

Definition attach_calls (v : vm) : prog vm :=
  match vm_scope v with
  | Some _ => Done v
  | None =>
      record <- record_calls v;;
      let builtins := match record with Some r => session_builtin_keys v r | None => [] end in
      match record ≫= sd_live with
      | Some p => _ <- insert_calls p builtins;; Done (set_scope (Some p) v)
      | None =>
          let m := match record with Some r => sd_variables r | None => [] end in
          p <- ask (CNew (foldl (fun m e => ci_insert e.1 e.2 m) m builtins));; Done (set_scope (Some p) v)
      end
  end.

Definition lazy_calls (v : vm) : prog (bool * vm) :=
  if negb (vm_lazy_pending v) || vm_lazy_initializing v then Done (false, v)
  else
    let v := set_initializing true v in
    let v := match vm_session_id v with Some (_ :: _) => v | _ => set_id (Some uuid) v end in
    v <- store_calls (new_record now (vm_timeout v) (app_of v)) v;;
    let v := set_pending false (set_created true v) in
    rec <- record_calls v;;
    _ <- match vm_scope v, rec with
         | Some p, Some r => insert_calls p (session_builtin_keys v r)
         | _, _ => Done tt
         end;;
    v <- hook v;;
    Done (true, set_initializing false v).

Definition sync_calls (v : vm) : prog vm :=
  match vm_scope v with
  | None => Done v
  | Some p =>
      record <- record_calls v;;
      match record, record ≫= sd_live with
      | Some rec, Some l =>
          v <- (if p =? l then Done v
                else m <- ask (CSnapshot p);; _ <- insert_calls l (own_keys m);; Done (set_scope (Some l) v));;
          store_calls (with_access now rec) v
      | _, _ =>
          m <- ask (CSnapshot p);;
          let snap := own_keys m in
          match session_key v with
          | None => Done v
          | Some _ =>
              existing <- record_calls v;;
              match existing, snap with
              | None, [] => Done v
              | _, _ =>
                  store_calls (with_variables now snap (default (new_record now (vm_timeout v) (app_of v)) existing)) v
              end
          end
      end
  end.

Definition read_calls (v : vm) : prog vm :=
  v <- attach_calls v;;
  match vm_scope v with
  | Some p => _ <- ask (CSnapshot p);; Done v
  | None => _ <- record_calls v;; Done v
  end.

Definition set_scope_calls (m : vars) (v : vm) : prog vm :=
  bv <- lazy_calls v;;
  v <- attach_calls bv.2;;
  match vm_scope v with
  | Some p => _ <- (if bv.1 : bool then insert_calls p m else ask (CPut p m));; Done v
  | None => Done v
  end.

Definition set_variable_calls (k : str) (x : gvalue) (v : vm) : prog vm :=
  bv <- lazy_calls v;;
  v <- attach_calls bv.2;;
  match vm_scope v with
  | Some p => _ <- ask (CInsert p k x);; Done v
  | None => Done v
  end.

Definition invalidate_calls (v : vm) : prog vm :=
  _ <- match vm_session_id v with Some sid => ask (CRemove (app_of v) sid) | None => Done tt end;;
  Done (set_scope None (set_cache None v)).

Definition rotate_calls (v : vm) : prog vm :=
  v <- sync_calls v;;
  v <- match vm_session_id v with
       | Some old => _ <- ask (CRotate (app_of v) old uuid);; Done (set_id (Some uuid) v)
       | None => Done v
       end;;
  attach_calls (set_scope None (set_cache None v)).

Definition login_calls (name : str) (roles : list str) (v : vm) : prog vm :=
  bv <- lazy_calls v;;
  match session_key bv.2 with
  | None => Done bv.2
  | Some _ =>
      rec <- record_calls bv.2;;
      store_calls (with_auth (Some name) roles (default (new_record now 1800 (app_of bv.2)) rec)) bv.2
  end.

Definition logout_calls (v : vm) : prog vm :=
  rec <- record_calls v;;
  match rec with
  | Some s => store_calls (with_auth None [] s) v
  | None => Done v
  end.

Definition open_calls (app : str) (timeout : N) (v : vm) : prog vm :=
  let sid := cookie_id v in
  issued <- (if bool_decide (sid = []) then Done true else ask (CIssued sid));;
  let v := if issued : bool then v else set_cache None (set_id None v) in
  if vm_lazy_creation v then Done (set_pending true v)
  else
    v <- store_calls (new_record now timeout app) (set_id (Some uuid) v);;
    hook (set_created true v).

Definition start_calls (app : str) (timeout : N) (v : vm) : prog vm :=
  let v := set_timeout timeout (set_pending false (set_created false v)) in
  existing <- (if bool_decide (cookie_id v = []) then Done None else record_calls v);;
  v <- match existing with
       | Some s => store_calls (with_visit now timeout s) v
       | None => open_calls app timeout v
       end;;
  if vm_lazy_pending v then Done v else attach_calls v.

Definition end_calls (app : str) (v : vm) : prog vm :=
  v <- sync_calls v;;
  _ <- ask (CDrain app);; Done v.
End Programs.

Inductive session_op :=
  | OpStart (app : str) (timeout : N)
  | OpEnd (app : str)
  | OpRead
  | OpWrite (k : str) (x : gvalue)
  | OpReplace (m : vars)
  | OpInvalidate
  | OpRotate
  | OpLogin (name : str) (roles : list str)
  | OpLogout.

(** An operation of a request begun at [now], with the UUID it may need. *)
Definition op_calls (hook : vm -> prog vm) (now : N) (uuid : str) (op : session_op) : vm -> prog vm :=
  match op with
  | OpStart app timeout => start_calls hook now uuid app timeout
  | OpEnd app => end_calls now app
  | OpRead => read_calls
  | OpWrite k x => set_variable_calls hook now uuid k x
  | OpReplace m => set_scope_calls hook now uuid m
  | OpInvalidate => invalidate_calls
  | OpRotate => rotate_calls now uuid
  | OpLogin name roles => login_calls hook now uuid name roles
  | OpLogout => logout_calls
  end.

(** [onSessionStart] as the session operations it performs; they start no
    further one. *)
Definition hook_calls (ops : list (session_op * str)) (now : N) (v : vm) : prog vm :=
  foldl (fun p o => bind p (op_calls Done now o.2 o.1)) (Done v) ops.

(** ** Without interruption: the operations of [SessionScope] *)

Definition run_session_op (hook : state -> state) (now : N) (uuid : str) (op : session_op) (st : state) : state :=
  match op with
  | OpStart app timeout => start_session true false hook now uuid app timeout st
  | OpEnd app => (end_session true false 0 now app st).2
  | OpRead => (read_session true false now st).2
  | OpWrite k x => (set_session_variable true false hook 0 now uuid k x st).2
  | OpReplace m => (set_session_scope true false hook 0 now uuid m st).2
  | OpInvalidate => session_invalidate st
  | OpRotate => (session_rotate true false 0 now uuid st).2
  | OpLogin name roles => login_user true hook now uuid name roles st
  | OpLogout => logout true now st
  end.

Section Sequential.
Variables (hook : vm -> prog vm) (hook' : state -> state).
Variables (now : N) (uuid : str).
Hypothesis hook_run : forall v w, run now (hook v) w = hook' (v, w).

Lemma run_ask {R} (c : call R) w : run now (ask c) w = perform now c w.
Proof. unfold ask. cbn. by destruct (perform now c w). Qed.

Lemma run_record v w :
  (let '(r, w') := run now (record_calls v) w in (r, (v, w'))) = session_record true now (v, w).
Proof.
  unfold record_calls, session_record. destruct (session_key v) as [[app sid]|]; [|done].
  rewrite run_ask. cbn. by destruct (get_session now app sid w).
Qed.

Lemma run_store data v w : run now (store_calls data v) w = store_session_record data (v, w).
Proof. unfold store_calls, store_session_record. by destruct (session_key v) as [[]|]. Qed.

Lemma run_inserts p l w : run now (insert_calls p l) w = (tt, insert_keys p l w).
Proof. unfold insert_calls, insert_keys. revert w. induction l as [|e l IH]; intros w; [done|]. cbn. apply IH. Qed.

Ltac run_calls :=
  repeat first
    [ progress rewrite ?run_bind, ?run_ask, ?run_inserts, ?run_store, ?hook_run
    | progress cbn [run perform fst snd] ].

Lemma run_attach v w : run now (attach_calls v) w = attach_session_scope true false now (v, w).
Proof.
  unfold attach_calls, attach_session_scope. cbn [fst]. destruct (vm_scope v) as [p|]; [done|].
  rewrite run_bind. pose proof (run_record v w) as H. destruct (run now (record_calls v) w) as [r w'].
  rewrite <- H. cbn. destruct (r ≫= sd_live); run_calls; done.
Qed.

(** Reading the record, in the programs that go on with it. *)
Lemma run_record_then {A} v w (f : option session_data -> prog A) :
  run now (bind (record_calls v) f) w
  = let '(r, (_, w')) := session_record true now (v, w) in run now (f r) w'.
Proof. rewrite run_bind, <- run_record. by destruct (run now (record_calls v) w). Qed.

Lemma record_vm v w : (session_record true now (v, w)).2.1 = v.
Proof. rewrite <- run_record. by destruct (run now (record_calls v) w). Qed.

(** Opens the next read of the record on both sides. *)
Ltac run_read :=
  rewrite run_record_then;
  match goal with
  | |- context [session_record true now (?v, ?w)] =>
      let H := fresh in let v' := fresh "v" in let w' := fresh "w" in let r := fresh "r" in
      pose proof (record_vm v w) as H;
      destruct (session_record true now (v, w)) as [r [v' w']]; cbn in H; subst v'
  end.

Lemma run_lazy v w :
  (let '(b, v', w') := run now (lazy_calls hook now uuid v) w in (b, (v', w')))
  = lazy_init_session_if_pending true hook' now uuid (v, w).
Proof.
  unfold lazy_calls, lazy_init_session_if_pending. cbn [fst snd]. destruct (_ || _); [done|].
  set (v0 := match vm_session_id (set_initializing true v) with Some (_ :: _) => _ | _ => _ end).
  rewrite run_bind, run_store. destruct (store_session_record _ _) as [v1 w1]. cbn [fst snd].
  run_read. rewrite run_bind.
  destruct (vm_scope _) as [p|], r as [s|]; run_calls; by destruct (hook' _).
Qed.

Lemma run_lazy_then {A} v w (f : bool * vm -> prog A) :
  run now (bind (lazy_calls hook now uuid v) f) w
  = let '(b, (v', w')) := lazy_init_session_if_pending true hook' now uuid (v, w) in run now (f (b, v')) w'.
Proof. rewrite run_bind, <- run_lazy. by destruct (run now (lazy_calls hook now uuid v) w) as [[b v'] w']. Qed.

Lemma run_sync v w : (Ok tt, run now (sync_calls now v) w) = sync_session_scope_to_store true false 0 now (v, w).
Proof.
  unfold sync_calls, sync_session_scope_to_store. cbn [fst]. destruct (vm_scope v) as [p|]; [|done].
  run_read. destruct r as [s|]; cbn [mbind option_bind]; [destruct (sd_live s) as [l|]|].
  1: destruct (p =? l); run_calls; done.
  all: run_calls; (destruct (session_key v); [|done]); run_read; destruct r as [?|], (own_keys _); run_calls; done.
Qed.

Lemma run_open app timeout v w :
  run now (open_calls hook now uuid app timeout v) w = open_session hook' now uuid app timeout (v, w).
Proof.
  unfold open_calls, open_session, drop_unissued_id. cbn [fst snd]. run_calls.
  case_bool_decide; run_calls; [|destruct (id_issued _ _ _)]; cbn [negb andb fst snd invalidate_session_record_cache];
    destruct (vm_lazy_creation _); run_calls; try done; by destruct (store_session_record _ _).
Qed.

Lemma run_op op v w : run now (op_calls hook now uuid op v) w = run_session_op hook' now uuid op (v, w).
Proof.
  destruct op as [app timeout|app| |k x|m| | |name roles|]; cbn [op_calls run_session_op].
  - unfold start_calls, start_session. cbn [fst snd].
    set (v0 := set_timeout _ _).
    case_bool_decide.
    + run_calls. rewrite run_open. destruct (open_session _ _ _ _ _ _) as [v1 w1]. cbn. destruct (vm_lazy_pending v1); [done|apply run_attach].
    + run_read. rewrite run_bind. destruct r as [s|]; rewrite ?run_store, ?run_open.
      * destruct (store_session_record _ _) as [v1 w1]. cbn. destruct (vm_lazy_pending v1); [done|apply run_attach].
      * destruct (open_session _ _ _ _ _ _) as [v1 w1]. cbn. destruct (vm_lazy_pending v1); [done|apply run_attach].
  - unfold end_calls, end_session. rewrite run_bind. rewrite <- run_sync.
    destruct (run now (sync_calls now v) w) as [v1 w1]. run_calls. cbn. by destruct (drain_session_ends _ _).
  - unfold read_calls, read_session, get_session_scope. rewrite run_bind, run_attach.
    destruct (attach_session_scope _ _ _ _) as [v1 w1]. cbn [fst]. destruct (vm_scope v1); [done|]. run_read. done.
  - unfold set_variable_calls, set_session_variable. rewrite run_lazy_then.
    destruct (lazy_init_session_if_pending _ _ _ _ _) as [b [v1 w1]]. cbn [fst snd]. rewrite run_bind, run_attach.
    destruct (attach_session_scope _ _ _ _) as [v2 w2]. cbn [fst snd]. by destruct (vm_scope v2).
  - unfold set_scope_calls, set_session_scope. rewrite run_lazy_then.
    destruct (lazy_init_session_if_pending _ _ _ _ _) as [b [v1 w1]]. cbn [fst snd]. rewrite run_bind, run_attach.
    destruct (attach_session_scope _ _ _ _) as [v2 w2]. cbn [fst snd].
    destruct (vm_scope v2); [|done]. destruct b; run_calls; done.
  - unfold invalidate_calls, session_invalidate. cbn. by destruct (vm_session_id v).
  - unfold rotate_calls, session_rotate. rewrite run_bind, <- run_sync.
    destruct (run now (sync_calls now v) w) as [v1 w1]. rewrite run_bind.
    destruct (vm_session_id v1); run_calls; by rewrite run_attach.
  - unfold login_calls, login_user. rewrite run_lazy_then.
    destruct (lazy_init_session_if_pending _ _ _ _ _) as [b [v1 w1]]. cbn [fst snd].
    destruct (session_key v1); [|done]. run_read. by rewrite run_store.
  - unfold logout_calls, logout. run_read. destruct r; [apply run_store|done].
Qed.
End Sequential.

Definition run_hook (ops : list (session_op * str)) (now : N) (st : state) : state :=
  foldl (fun st o => run_session_op id now o.2 o.1 st) st ops.

Lemma run_hook_calls ops now v w : run now (hook_calls ops now v) w = run_hook ops now (v, w).
Proof.
  unfold hook_calls, run_hook.
  assert (H : forall ops p, run now (foldl (fun p o => bind p (op_calls Done now o.2 o.1)) p ops) w
                = foldl (fun st o => run_session_op id now o.2 o.1 st) (run now p w) ops).
  { clear. induction ops as [|o ops IH]; intros p; [done|]. cbn [foldl]. rewrite IH, run_bind.
    destruct (run now p w) as [v1 w1]. f_equal. by apply (run_op Done id). }
  apply H.
Qed.

(** Every operation, run without interruption. *)
Lemma run_operation ops now uuid op v w :
  run now (op_calls (hook_calls ops now) now uuid op v) w = run_session_op (run_hook ops now) now uuid op (v, w).
Proof. apply run_op, run_hook_calls. Qed.
End Calls.
