(* ===== verification/SessionFacts.v ===== *)
(** * SessionFacts: what requests and the store guarantee each other

    With the in-process store: ids a request may keep, requests of one session
    keep each other's writes, and applications never share a session struct
    however their requests interleave. *)

From stdpp Require Import base list numbers strings gmap relations.
From S2P Require Import Prelude Text Float64 Value Bytes Keys ValueMap ObjCodec Stringify SessionStore SessionStoreFacts SessionScope SessionCalls.
Local Open Scope N_scope.

Abbreviation recs w := (mem_sessions (w_memory w)).
Abbreviation thread := (str * prog vm)%type.

Section Facts.
Context {U : Unicode}.

(** ** One operation at a time *)

Section Ops.
Variable hook : state -> state.
Variables (now : N) (uuid : str).

(** The operations with [MemoryStore]. *)
Abbreviation record := (session_record true now).
Abbreviation attach := (attach_session_scope true false now).
Abbreviation sync := (sync_session_scope_to_store true false 0 now).
Abbreviation start := (start_session true false hook now uuid).

Definition key_of (v : vm) : str := composite_key (app_of v) (default [] (vm_session_id v)).

Definition has_key_of (v : vm) : Prop := exists k, session_key v = Some k.

Lemma session_key_some v k : session_key v = Some k -> k = (app_of v, default [] (vm_session_id v)).
Proof. unfold session_key. destruct (vm_session_id v) as [[|c s]|]; [done| |done]. by intros [= <-]. Qed.

(** Reading the record: absent or expired, or promoted to the live struct. *)
Lemma record_cases v w r v' w' :
  record (v, w) = (r, (v', w')) ->
  v' = v /\ w_pending w' = w_pending w /\
  ((r = None /\ heap_of w' = heap_of w /\ w_next w <= w_next w'
    /\ (session_key v = None /\ mem_sessions (w_memory w') = mem_sessions (w_memory w)
        \/ has_key_of v /\ mem_sessions (w_memory w') = delete (key_of v) (mem_sessions (w_memory w))))
   \/ exists s s', mem_sessions (w_memory w) !! key_of v = Some s /\ expired now s = false /\ has_key_of v
        /\ r = Some s' /\ promote (w_next w) s (heap_of w) = (s', heap_of w')
        /\ mem_sessions (w_memory w') = <[key_of v := s']> (mem_sessions (w_memory w)) /\ w_next w' = w_next w + 1).
Proof.
  unfold session_record. destruct (session_key v) as [[app sid]|] eqn:Hk.
  2: { intros [= <- <- <-]. split_and!; [done|done|]. left. split_and!; [done|done|done|by left]. }
  pose proof (session_key_some _ _ Hk) as [= -> ->]. unfold get_session, store_get.
  change (composite_key (app_of v) (default [] (vm_session_id v))) with (key_of v).
  destruct (mem_sessions (w_memory w) !! key_of v) as [s|] eqn:Hs.
  - destruct (expired now s) eqn:Hx.
    + intros [= <- <- <-]. split_and!; [done|done|]. left. cbn. split_and!; [done|done|lia|right].
      split; [by eexists|done].
    + destruct (promote (w_next w) s (mem_heap (w_memory w))) as [s' h'] eqn:Hp.
      intros [= <- <- <-]. split_and!; [done|done|]. right. exists s, s'. cbn.
      split_and!; try done; by eexists.
  - intros [= <- <- <-]. split_and!; [done|done|]. left. cbn. split_and!; [done|done|lia|right].
    split; [by eexists|]. by rewrite delete_id.
Qed.

(** ** Ids *)

(** The session is held, by this application or by another one. *)
Definition session_held (app id : str) (w : world) : Prop :=
  (exists s, mem_sessions (w_memory w) !! composite_key app id = Some s /\ expired now s = false)
  \/ id_issued now id (w_memory w) = true.

Lemma attach_vm st : (attach st).1 = set_scope (vm_scope (attach st).1) st.1.
Proof.
  destruct st as [v w]. unfold attach_session_scope. cbn. destruct (vm_scope v) as [p|] eqn:Hs.
  { cbn. rewrite Hs. destruct v; cbn in *; by subst. }
  destruct (record (v, w)) as [r [v' w']] eqn:Hr. destruct (record_cases _ _ _ _ _ Hr) as (-> & _ & _).
  cbn. destruct (r ≫= sd_live); [done|]. by destruct (new_struct _ w').
Qed.

Lemma attach_id st : vm_session_id (attach st).1 = vm_session_id st.1.
Proof. by rewrite attach_vm. Qed.

Lemma store_record_id data st : vm_session_id (store_session_record data st).1 = vm_session_id st.1.
Proof. destruct st as [v w]. unfold store_session_record. by destruct (session_key v) as [[]|]. Qed.

Lemma issued_delete id k (m : memory) :
  id_issued now id (Memory (delete k (mem_sessions m)) (mem_heap m)) = true -> id_issued now id m = true.
Proof.
  unfold id_issued. rewrite !existsb_exists. cbn. intros ([k' s] & Hin & Hx). exists (k', s).
  split; [|done]. rewrite <- list_elem_of_In, elem_of_map_to_list in Hin |- *.
  by apply lookup_delete_Some in Hin as [_ Hin].
Qed.

Lemma drop_id st :
  vm_session_id (drop_unissued_id now st).1 = None
  \/ vm_session_id (drop_unissued_id now st).1 = vm_session_id st.1
     /\ (vm_session_id st.1 = None \/ vm_session_id st.1 = Some []
         \/ exists id, vm_session_id st.1 = Some id /\ id_issued now id (w_memory st.2) = true).
Proof.
  unfold drop_unissued_id, cookie_id. destruct st as [v w]. cbn.
  destruct (vm_session_id v) as [[|c id]|] eqn:Hid; cbn; rewrite ?Hid; auto.
  destruct (id_issued now (c :: id) (w_memory w)) eqn:Hi; cbn; [|auto]. rewrite Hid. right. eauto 8.
Qed.

(** What the start of a request makes of the id in its cookie. *)
Lemma start_id app timeout v w :
  (forall st, vm_session_id (hook st).1 = vm_session_id st.1) ->
  let id' := vm_session_id (start app timeout (v, w)).1 in
  id' = Some uuid \/ id' = None \/ id' = Some []
  \/ exists id, vm_session_id v = Some id /\ id' = Some id /\ session_held (app_of v) id w.
Proof.
  intros Hhook id'. subst id'. unfold start_session. cbn [fst snd].
  set (v0 := set_timeout timeout (set_pending false (set_created false v))).
  destruct (if bool_decide (cookie_id v0 = []) then _ else _) as [existing [v1 w1]] eqn:E.
  assert (Hfinal : forall st : state, vm_session_id (if vm_lazy_pending st.1 then st else attach st).1 = vm_session_id st.1).
  { intros st. destruct (vm_lazy_pending st.1); [done|apply attach_id]. }
  rewrite !Hfinal. clear Hfinal.
  assert (Hopen : v1 = v0 -> (forall id, id_issued now id (w_memory w1) = true -> id_issued now id (w_memory w) = true) ->
    let id' := vm_session_id (open_session hook now uuid app timeout (v1, w1)).1 in
    id' = Some uuid \/ id' = None \/ id' = Some []
    \/ exists id, vm_session_id v = Some id /\ id' = Some id /\ session_held (app_of v) id w).
  { intros -> Hw id'. subst id'. unfold open_session.
    destruct (vm_lazy_creation (drop_unissued_id now (v0, w1)).1); cbn [fst].
    - cbn. destruct (drop_id (v0, w1)) as [-> | [-> [H | [H | (id & H & Hi)]]]].
      + by right; left.
      + by right; left.
      + by right; right; left.
      + cbn in H, Hi. right. right. right. exists id. split_and!; [done|done|right; by apply Hw].
    - rewrite Hhook. cbn [fst vm_session_id set_created]. rewrite store_record_id. by left. }
  case_bool_decide as Hc.
  { injection E as <- <- <-. by apply Hopen. }
  destruct (record_cases _ _ _ _ _ E) as (-> & _ & [(-> & _ & _ & Hs) | (s & s' & Hl & Hx & [k Hk] & -> & _)]).
  - apply Hopen; [done|]. intros id Hi. destruct Hs as [[_ Hs] | [_ Hs]].
    + unfold id_issued in *. by rewrite Hs in Hi.
    + apply (issued_delete id (key_of v0)). unfold id_issued in *. cbn. by rewrite Hs in Hi.
  - rewrite store_record_id. cbn. unfold cookie_id in Hc. cbn in Hc.
    destruct (vm_session_id v) as [[|c id]|] eqn:Hid; [done| |done].
    right. right. right. exists (c :: id). split_and!; [done|done|left]. exists s. split; [|done].
    unfold key_of in Hl. cbn in Hl. by rewrite Hid in Hl.
Qed.

End Ops.

(** ** Requests side by side

    A request runs as a thread: the application it is of, and the calls it has
    still to make.  A machine between two operations is a program that is done. *)

(** An application name without the separator of composite keys. *)
Definition plain_app (app : str) : Prop := unit_separator ∉ to_lowercase app.

(** Requests arrive, begin operations, make one call at a time, spawn threads of
    their own and go; the reaper wakes at any time. *)
Inductive session_step (start_ops : list (session_op * str)) : list thread * world -> list thread * world -> Prop :=
  | step_arrive v ts w :
      vm_scope v = None -> plain_app (app_of v) -> session_step start_ops (ts, w) ((app_of v, Done v) :: ts, w)
  | step_begin ts1 app v ts2 w now uuid op :
      session_step start_ops (ts1 ++ (app, Done v) :: ts2, w)
        (ts1 ++ (app, op_calls (hook_calls start_ops now) now uuid op v) :: ts2, w)
  | step_call ts1 app R (c : call R) k ts2 w now r w' :
      perform now c w = (r, w') ->
      session_step start_ops (ts1 ++ (app, Call c k) :: ts2, w) (ts1 ++ (app, k r) :: ts2, w')
  | step_spawn ts1 app v ts2 w :
      session_step start_ops (ts1 ++ (app, Done v) :: ts2, w)
        (ts1 ++ (app, Done v) :: (app, Done (thread_vm v)) :: ts2, w)
  | step_leave ts1 t ts2 w : session_step start_ops (ts1 ++ t :: ts2, w) (ts1 ++ ts2, w)
  | step_reap ts w cfg now m q :
      reap cfg now (w_memory w) (w_pending w) = (m, q) ->
      session_step start_ops (ts, w) (ts, World m q (w_next w)).

Definition no_sessions : world := World (Memory ∅ ∅) ∅ 0.

(** The struct a thread holds as its scope, or is about to read or to write. *)
Definition uses (t : thread) (p : N) : Prop :=
  match t.2 with
  | Done v => vm_scope v = Some p
  | Call c _ => match c with
                | CSnapshot q | CInsert q _ _ | CPut q _ => q = p
                | CSet _ _ data => sd_live data = Some p
                | _ => False
                end
  end.

(** *** Confinement

    The application each struct was made for, in lower case; structs are only
    added. *)
Abbreviation owners := (gmap N str).

Definition owned (o : owners) (a : str) (l : option N) : Prop := forall p, l = Some p -> o !! p = Some a.

(** The calls a thread of application [a] may make, and the replies it may rely on. *)
Definition permitted {R : Type} (o : owners) (a : str) (c : call R) : Prop :=
  match c with
  | CGet app _ | CRemove app _ | CRotate app _ _ => to_lowercase app = a
  | CSet app _ data => to_lowercase app = a /\ owned o a (sd_live data)
  | CIssued _ | CDrain _ | CNew _ => True
  | CSnapshot p | CInsert p _ _ | CPut p _ => o !! p = Some a
  end.

Definition answered {R : Type} (o : owners) (a : str) (c : call R) (r : R) : Prop :=
  match c in call R return R -> Prop with
  | CGet _ _ => fun r => forall s, r = Some s -> owned o a (sd_live s)
  | CNew _ => fun p => o !! p = Some a
  | _ => fun _ => True
  end r.

Fixpoint confined {A : Type} (a : str) (post : owners -> A -> Prop) (o : owners) (p : prog A) : Prop :=
  match p with
  | Done x => post o x
  | Call c k => permitted o a c /\ forall o' r, o ⊆ o' -> answered o' a c r -> confined a post o' (k r)
  end.

Definition own_vm (a : str) (o : owners) (v : vm) : Prop := to_lowercase (app_of v) = a /\ owned o a (vm_scope v).

Lemma owned_mono o o' a l : o ⊆ o' -> owned o a l -> owned o' a l.
Proof. intros Ho H p Hp. eapply lookup_weaken; [by apply H|done]. Qed.

Lemma own_vm_mono a o o' v : o ⊆ o' -> own_vm a o v -> own_vm a o' v.
Proof. intros Ho [H1 H2]. split; [done|by eapply owned_mono]. Qed.

Lemma permitted_mono {R} o o' a (c : call R) : o ⊆ o' -> permitted o a c -> permitted o' a c.
Proof.
  intros Ho. destruct c; cbn; try done; [|intros; by eapply lookup_weaken..].
  intros [H1 H2]. split; [done|by eapply owned_mono].
Qed.

Lemma confined_mono {A} a (post : owners -> A -> Prop) o o' p :
  (forall o o' x, o ⊆ o' -> post o x -> post o' x) -> o ⊆ o' -> confined a post o p -> confined a post o' p.
Proof.
  intros Hpost Ho. destruct p as [x|R c k]; cbn; [by apply Hpost|]. intros [H1 H2].
  split; [by eapply permitted_mono|]. intros o2 r Ho2 Hr. apply H2; [by transitivity o'|done].
Qed.

Lemma confined_bind {A B} a (post : owners -> A -> Prop) (post' : owners -> B -> Prop) o p f :
  confined a post o p -> (forall o' x, o ⊆ o' -> post o' x -> confined a post' o' (f x)) ->
  confined a post' o (bind p f).
Proof.
  revert o. induction p as [x|R c k IH]; intros o; cbn; [intros H Hf; by apply Hf|].
  intros [H1 H2] Hf. split; [done|]. intros o' r Ho Hr. apply IH; [by apply H2|].
  intros o2 x Ho2. apply Hf. by transitivity o'.
Qed.

Section Confined.
Variable a : str.
Abbreviation ok := (own_vm a).
Abbreviation holds o r := (forall s, r = Some s -> owned o a (sd_live s)).

Lemma own_vm_set o v v' : ok o v -> app_of v' = app_of v -> vm_scope v' = vm_scope v -> ok o v'.
Proof. intros [H1 H2] Ha Hs. split; [by rewrite Ha|by rewrite Hs]. Qed.

Lemma own_vm_none o v : ok o v -> ok o (set_scope None v).
Proof. by intros [H1 H2]. Qed.

Lemma own_vm_some o v p : ok o v -> o !! p = Some a -> ok o (set_scope (Some p) v).
Proof. intros [H1 H2] Hp. split; [done|]. by intros q [= <-]. Qed.

Lemma holds_mono o o' r : o ⊆ o' -> holds o r -> holds o' r.
Proof. intros Ho H s Hs. eapply owned_mono; [done|by apply H]. Qed.

Lemma ask_confined {R} o (c : call R) : permitted o a c -> confined a (fun o r => answered o a c r) o (ask c).
Proof. intros H. split; [done|]. by intros o' r _ Hr. Qed.

Lemma ask_then {R A} o (c : call R) (f : R -> prog A) post :
  permitted o a c -> (forall o' r, o ⊆ o' -> answered o' a c r -> confined a post o' (f r)) ->
  confined a post o (bind (ask c) f).
Proof. intros H Hf. eapply confined_bind; [by apply ask_confined|exact Hf]. Qed.

Lemma key_app v k : session_key v = Some k -> k.1 = app_of v.
Proof. by intros ->%session_key_some. Qed.

Lemma record_confined o v : ok o v -> confined a (fun o r => holds o r) o (record_calls v).
Proof.
  intros [Ha _]. unfold record_calls. destruct (session_key v) as [[app sid]|] eqn:Hk; [|done].
  apply key_app in Hk. cbn in Hk. subst app. split; [done|]. by intros o' r _ Hr.
Qed.

Lemma store_confined o v data : ok o v -> owned o a (sd_live data) -> confined a ok o (store_calls data v).
Proof.
  intros Hv Hd. pose proof Hv as [Ha _]. unfold store_calls.
  destruct (session_key v) as [[app sid]|] eqn:Hk; [|done]. apply key_app in Hk. cbn in Hk. subst app.
  apply ask_then; [done|]. intros o' [] Ho _. cbn. apply (own_vm_set o' v); [by eapply own_vm_mono|done|done].
Qed.

Lemma inserts_confined o p l : o !! p = Some a -> confined a (fun _ _ => True) o (insert_calls p l).
Proof.
  revert o. induction l as [|e l IH]; intros o Hp; [done|]. apply ask_then; [done|].
  intros o' [] Ho _. apply IH. by eapply lookup_weaken.
Qed.

Lemma attach_confined o v : ok o v -> confined a ok o (attach_calls v).
Proof.
  intros Hv. unfold attach_calls. destruct (vm_scope v); [done|].
  eapply confined_bind; [by apply record_confined|]. intros o1 r Ho1 Hr.
  assert (Hv1 : ok o1 v) by (by eapply own_vm_mono). destruct r as [s|]; cbn [mbind option_bind].
  - destruct (sd_live s) as [p|] eqn:Hl.
    + pose proof (Hr s eq_refl p Hl) as Hp. eapply confined_bind; [by apply inserts_confined|].
      intros o2 [] Ho2 _. apply own_vm_some; [by eapply own_vm_mono|by eapply lookup_weaken].
    + apply ask_then; [done|]. intros o2 p Ho2 Hp. apply own_vm_some; [by eapply own_vm_mono|done].
  - apply ask_then; [done|]. intros o2 p Ho2 Hp. apply own_vm_some; [by eapply own_vm_mono|done].
Qed.

Lemma sync_confined now o v : ok o v -> confined a ok o (sync_calls now v).
Proof.
  intros Hv. unfold sync_calls. destruct (vm_scope v) as [p|] eqn:Hp; [|done].
  pose proof (proj2 Hv p Hp) as Hpo. eapply confined_bind; [by apply record_confined|]. intros o1 r Ho1 Hr.
  assert (Hv1 : ok o1 v) by (by eapply own_vm_mono). assert (Hp1 : o1 !! p = Some a) by (by eapply lookup_weaken).
  assert (Hother : confined a ok o1
    (bind (ask (CSnapshot p)) (fun m => match session_key v with
       | None => Done v
       | Some _ => bind (record_calls v) (fun existing => match existing, own_keys m with
           | None, [] => Done v
           | _, _ => store_calls (with_variables now (own_keys m) (default (new_record now (vm_timeout v) (app_of v)) existing)) v
           end)
       end))).
  { apply ask_then; [done|]. intros o2 m Ho2 _. assert (Hv2 : ok o2 v) by (by eapply own_vm_mono).
    destruct (session_key v); [|done]. eapply confined_bind; [by apply record_confined|].
    intros o3 e Ho3 _. assert (Hv3 : ok o3 v) by (by eapply own_vm_mono).
    destruct e, (own_keys m); try done; by apply store_confined. }
  destruct r as [s|]; cbn [mbind option_bind]; [|exact Hother].
  destruct (sd_live s) as [l|] eqn:Hl; [|exact Hother]. pose proof (Hr s eq_refl l Hl) as Hlo.
  eapply (confined_bind _ ok).
  - destruct (p =? l); [done|]. apply ask_then; [done|]. intros o2 m Ho2 _.
    eapply confined_bind; [apply inserts_confined; by eapply lookup_weaken|]. intros o3 [] Ho3 _.
    assert (o1 ⊆ o3) by (by transitivity o2). apply own_vm_some; [by eapply own_vm_mono|by eapply lookup_weaken].
  - intros o2 v2 Ho2 Hv2. apply store_confined; [done|]. intros q Hq. cbn in Hq. rewrite Hl in Hq. injection Hq as <-.
    by eapply lookup_weaken.
Qed.

Section Hook.
Variable hook : vm -> prog vm.
Hypothesis hook_confined : forall o v, ok o v -> confined a ok o (hook v).
Variables (now : N) (uuid : str).

Lemma lazy_confined o v : ok o v -> confined a (fun o bv => ok o bv.2) o (lazy_calls hook now uuid v).
Proof.
  intros Hv. unfold lazy_calls. destruct (_ || _); [done|].
  set (v0 := match vm_session_id (set_initializing true v) with Some (_ :: _) => _ | _ => _ end).
  assert (Hv0 : ok o v0).
  { apply (own_vm_set o v); [done| |]; subst v0; by destruct (vm_session_id (set_initializing true v)) as [[]|]. }
  eapply confined_bind; [by apply store_confined|]. intros o1 v1 Ho1 Hv1.
  assert (Hv2 : ok o1 (set_pending false (set_created true v1))) by (by apply (own_vm_set o1 v1)).
  eapply confined_bind; [by apply record_confined|]. intros o2 r Ho2 Hr.
  assert (Hv3 := own_vm_mono _ _ _ _ Ho2 Hv2).
  eapply (confined_bind _ (fun _ _ => True)).
  { destruct (vm_scope _) as [p|] eqn:Hp, r as [s|]; try done. apply inserts_confined. by apply Hv3. }
  intros o3 [] Ho3 _. eapply confined_bind; [apply hook_confined; by eapply own_vm_mono|].
  intros o4 v4 _ Hv4. by apply (own_vm_set o4 v4).
Qed.

Lemma open_confined o app timeout v : ok o v -> confined a ok o (open_calls hook now uuid app timeout v).
Proof.
  intros Hv. unfold open_calls. eapply (confined_bind _ (fun _ _ => True)).
  { case_bool_decide; [done|]. split; [done|]. by intros. }
  intros o1 b Ho1 _. assert (Hv1 : ok o1 (if b then v else set_cache None (set_id None v))).
  { destruct b; [by eapply own_vm_mono|]. apply (own_vm_set o1 v); [by eapply own_vm_mono|done|done]. }
  set (v1 := if b then v else _) in *. destruct (vm_lazy_creation v1); [by apply (own_vm_set o1 v1)|].
  eapply confined_bind; [apply store_confined; [by apply (own_vm_set o1 v1)|done]|].
  intros o2 v2 _ Hv2. apply hook_confined. by apply (own_vm_set o2 v2).
Qed.

Lemma op_confined op o v : ok o v -> confined a ok o (op_calls hook now uuid op v).
Proof.
  intros Hv. destruct op as [app timeout|app| |k x|m| | |name roles|]; cbn [op_calls].
  - unfold start_calls. set (v0 := set_timeout _ _). assert (Hv0 : ok o v0) by (by apply (own_vm_set o v)).
    eapply (confined_bind _ (fun o r => holds o r)).
    { case_bool_decide; [done|by apply record_confined]. }
    intros o1 r Ho1 Hr. assert (Hv1 := own_vm_mono _ _ _ _ Ho1 Hv0). eapply (confined_bind _ ok).
    { destruct r as [s|]; [|by apply open_confined]. apply store_confined; [done|]. by apply (Hr s). }
    intros o2 v2 _ Hv2. destruct (vm_lazy_pending v2); [done|by apply attach_confined].
  - eapply confined_bind; [by apply sync_confined|]. intros o1 v1 _ Hv1. apply ask_then; [done|].
    intros o2 e Ho2 _. by eapply own_vm_mono.
  - eapply confined_bind; [by apply attach_confined|]. intros o1 v1 _ Hv1. destruct (vm_scope v1) as [p|] eqn:Hp.
    + apply ask_then; [by apply Hv1|]. intros o2 m Ho2 _. by eapply own_vm_mono.
    + eapply confined_bind; [by apply record_confined|]. intros o2 r Ho2 _. by eapply own_vm_mono.
  - eapply confined_bind; [by apply lazy_confined|]. intros o1 [b v1] _ Hv1.
    eapply confined_bind; [by apply attach_confined|]. intros o2 v2 _ Hv2. destruct (vm_scope v2) as [p|] eqn:Hp; [|done].
    apply ask_then; [by apply Hv2|]. intros o3 [] Ho3 _. by eapply own_vm_mono.
  - eapply confined_bind; [by apply lazy_confined|]. intros o1 [b v1] _ Hv1.
    eapply confined_bind; [by apply attach_confined|]. intros o2 v2 _ Hv2. destruct (vm_scope v2) as [p|] eqn:Hp; [|done].
    eapply (confined_bind _ (fun _ _ => True)).
    { destruct b; [apply inserts_confined; by apply Hv2|]. split; [by apply Hv2|]. by intros. }
    intros o3 [] Ho3 _. by eapply own_vm_mono.
  - eapply (confined_bind _ (fun _ _ => True)).
    { destruct (vm_session_id v); [|done]. split; [apply Hv|]. by intros. }
    intros o1 [] Ho1 _. apply own_vm_none, (own_vm_set o1 v); [by eapply own_vm_mono|done|done].
  - eapply confined_bind; [by apply sync_confined|]. intros o1 v1 _ Hv1. eapply (confined_bind _ ok).
    { destruct (vm_session_id v1); [|done]. apply ask_then; [apply Hv1|]. intros o2 [] Ho2 _.
      apply (own_vm_set o2 v1); [by eapply own_vm_mono|done|done]. }
    intros o2 v2 _ Hv2. by apply attach_confined, own_vm_none, (own_vm_set o2 v2).
  - eapply confined_bind; [by apply lazy_confined|]. intros o1 [b v1] _ Hv1. cbn in *.
    destruct (session_key v1); [|done]. eapply confined_bind; [by apply record_confined|]. intros o2 r Ho2 Hr.
    apply store_confined; [by eapply own_vm_mono|]. destruct r as [s|]; [by apply (Hr s)|done].
  - eapply confined_bind; [by apply record_confined|]. intros o1 r Ho1 Hr. assert (Hv1 := own_vm_mono _ _ _ _ Ho1 Hv).
    destruct r as [s|]; [|done]. apply store_confined; [done|]. by apply (Hr s).
Qed.
End Hook.

Lemma hook_confined ops now o v : ok o v -> confined a ok o (hook_calls ops now v).
Proof.
  intros Hv. unfold hook_calls.
  assert (H : forall p, confined a ok o p -> confined a ok o (foldl (fun p o => bind p (op_calls Done now o.2 o.1)) p ops)).
  { clear Hv. induction ops as [|e ops IH]; intros p Hp; [done|]. apply IH. eapply confined_bind; [exact Hp|].
    intros o' x _ Hx. by apply op_confined. }
  by apply H.
Qed.
End Confined.

(** *** The store keeps to the owners *)

Record owned_world (o : owners) (w : world) : Prop := {
  ow_live k s p : recs w !! k = Some s -> sd_live s = Some p ->
    exists a id, k = a ++ unit_separator :: id /\ unit_separator ∉ a /\ o !! p = Some a;
  ow_next p a : o !! p = Some a -> p < w_next w;
}.

Lemma owned_fewer o w w' : owned_world o w -> recs w' ⊆ recs w -> w_next w <= w_next w' -> owned_world o w'.
Proof.
  intros [H1 H2] Hs Hn. split.
  - intros k s p Hk. apply H1. by eapply lookup_weaken.
  - intros p a Hp. eapply N.lt_le_trans; [by eapply H2|done].
Qed.

Lemma owned_insert o w w' app id s :
  owned_world o w -> plain_app app -> recs w' = <[composite_key app id := s]> (recs w) -> w_next w <= w_next w' ->
  owned o (to_lowercase app) (sd_live s) -> owned_world o w'.
Proof.
  intros [H1 H2] Ha Hs Hn Ho. split.
  - intros k t p Hk Hp. rewrite Hs in Hk. apply lookup_insert_Some in Hk as [[<- <-] | [_ Hk]]; [|eauto].
    exists (to_lowercase app), id. auto.
  - intros p b Hp. eapply N.lt_le_trans; [by eapply H2|done].
Qed.

(** A new struct. *)
Lemma owned_new o w a : owned_world o w -> o ⊆ <[w_next w := a]> o.
Proof.
  intros [_ H]. apply insert_subseteq. destruct (o !! w_next w) as [b|] eqn:E; [|done].
  apply H in E. lia.
Qed.

Lemma owned_grow o w w' a :
  owned_world o w -> recs w' = recs w -> w_next w < w_next w' -> owned_world (<[w_next w := a]> o) w'.
Proof.
  intros H Hr Hn. pose proof (owned_new o w a H) as Ho. destruct H as [H1 H2]. split.
  - intros k s p Hk Hp. rewrite Hr in Hk. destruct (H1 k s p Hk Hp) as (b & id & -> & Hb & Hl).
    exists b, id. split_and!; [done|done|by eapply lookup_weaken].
  - intros p b [[<- _] | [_ Hp]]%lookup_insert_Some; [done|]. apply H2 in Hp. lia.
Qed.

Lemma owned_key o w app id s :
  owned_world o w -> plain_app app -> recs w !! composite_key app id = Some s -> owned o (to_lowercase app) (sd_live s).
Proof.
  intros [H1 _] Ha Hs p Hp. destruct (H1 _ _ _ Hs Hp) as (b & i & Hk & Hb & Ho).
  unfold composite_key in Hk. apply sep_app_inj in Hk as [-> _]; done.
Qed.

Lemma get_owned o now app id w r w' :
  owned_world o w -> plain_app app -> get_session now app id w = (r, w') ->
  exists o', o ⊆ o' /\ owned_world o' w' /\ forall s, r = Some s -> owned o' (to_lowercase app) (sd_live s).
Proof.
  intros Ho Ha. unfold get_session, store_get. destruct (recs w !! composite_key app id) as [s|] eqn:Hs.
  2: { intros [= <- <-]. exists o. split_and!; [done| |done]. eapply owned_fewer; [done|done|cbn; lia]. }
  destruct (expired now s).
  { intros [= <- <-]. exists o. split_and!; [done| |done]. eapply owned_fewer; [done|apply delete_subseteq|cbn; lia]. }
  pose proof (owned_key _ _ _ _ _ Ho Ha Hs) as Hlive. unfold promote. destruct (sd_live s) as [p|] eqn:Hp.
  - intros [= <- <-]. exists o. rewrite <- Hp in Hlive. split_and!; [done| |by intros t [= <-]].
    eapply owned_insert; [done|done|done|cbn; lia|done].
  - intros [= <- <-]. exists (<[w_next w := to_lowercase app]> o).
    assert (Hnew : owned (<[w_next w := to_lowercase app]> o) (to_lowercase app) (Some (w_next w)))
      by (intros p' [= <-]; apply lookup_insert_eq).
    split_and!; [by apply owned_new| |by intros t [= <-]].
    eapply (owned_insert _ (World (w_memory w) (w_pending w) (w_next w + 1))); [|done|done|done|done].
    apply (owned_grow o w); [done|done|cbn; lia].
Qed.

Lemma perform_owned {R} o now app (c : call R) w r w' :
  owned_world o w -> plain_app app -> permitted o (to_lowercase app) c -> perform now c w = (r, w') ->
  exists o', o ⊆ o' /\ owned_world o' w' /\ answered o' (to_lowercase app) c r.
Proof.
  intros Ho Ha Hc Hr. assert (Hsame : forall w', recs w' ⊆ recs w -> w_next w <= w_next w' ->
    exists o', o ⊆ o' /\ owned_world o' w' /\ True) by (intros w2 H1 H2; exists o; eauto using owned_fewer).
  destruct c as [app' id|app' id data|app' id|app' old new|id|app'|m|p|p k x|p m]; cbn in *.
  - assert (Ha' : plain_app app') by (unfold plain_app; by rewrite Hc). rewrite <- Hc. by eapply get_owned.
  - destruct Hc as [Hc Hd]. assert (Ha' : plain_app app') by (unfold plain_app; by rewrite Hc).
    injection Hr as <- <-. exists o. split_and!; [done| |done].
    eapply owned_insert; [done|exact Ha'|done|done|by rewrite Hc].
  - injection Hr as <- <-. apply Hsame; [apply delete_subseteq|done].
  - assert (Ha' : plain_app app') by (unfold plain_app; by rewrite Hc). injection Hr as <- <-.
    unfold store_rotate. destruct (recs w !! composite_key app' old) as [s|] eqn:Hs; [|by apply Hsame].
    exists o. split_and!; [done| |done]. pose proof (owned_key _ _ _ _ _ Ho Ha' Hs) as Hl.
    eapply (owned_insert _ (set_memory (store_remove app' old (w_memory w)) w)); [|done|done|done|done].
    eapply owned_fewer; [exact Ho|apply delete_subseteq|done].
  - injection Hr as <- <-. by apply Hsame.
  - destruct (drain_session_ends app' (w_pending w)) as [e q]. injection Hr as <- <-. by apply Hsame.
  - injection Hr as <- <-. exists (<[w_next w := to_lowercase app]> o).
    split_and!; [by apply owned_new|apply (owned_grow o w); [done|done|cbn; lia]|apply lookup_insert_eq].
  - injection Hr as <- <-. by apply Hsame.
  - injection Hr as <- <-. by apply Hsame.
  - injection Hr as <- <-. by apply Hsame.
Qed.

Definition own_thread (o : owners) (t : thread) : Prop :=
  plain_app t.1 /\ confined (to_lowercase t.1) (own_vm (to_lowercase t.1)) o t.2.

Definition isolated (x : list thread * world) : Prop :=
  exists o, owned_world o x.2 /\ Forall (own_thread o) x.1.

Lemma own_threads_mono o o' ts : o ⊆ o' -> Forall (own_thread o) ts -> Forall (own_thread o') ts.
Proof.
  intros Ho H. eapply Forall_impl; [exact H|]. intros t [H1 H2]. split; [done|].
  eapply confined_mono; [apply own_vm_mono|done|done].
Qed.

Lemma reap_fewer cfg now w m q :
  reap cfg now (w_memory w) (w_pending w) = (m, q) -> mem_sessions m ⊆ recs w.
Proof.
  intros Hr. apply map_subseteq_spec. intros k s Hk.
  pose proof (reap_sessions cfg now (w_memory w) (w_pending w) k) as Hs. rewrite Hr in Hs. cbn in Hs.
  rewrite Hs in Hk. by destruct (recs w !! k) as [s'|]; [destruct (expired now s'); simplify_eq|].
Qed.

Lemma step_isolated ops x y : session_step ops x y -> isolated x -> isolated y.
Proof.
  destruct 1 as [v ts w Hv Ha|ts1 app v ts2 w now uuid op|ts1 app R c k ts2 w now r w' Hc|ts1 app v ts2 w|ts1 t ts2 w
    |ts w cfg now m q Hr]; intros (o & Hw & Hts); cbn in *.
  - exists o. split; [done|]. constructor; [|done]. split; [done|]. cbn. split; [done|]. by rewrite Hv.
  - exists o. split; [done|]. apply Forall_app in Hts as [H1 [[Hp Ht] H2]%Forall_cons].
    apply Forall_app_2; [done|]. constructor; [|done]. split; [done|]. apply op_confined; [|exact Ht].
    intros o' v' Hv'. by apply hook_confined.
  - apply Forall_app in Hts as [H1 [[Hp [Hc1 Hk]] H2]%Forall_cons].
    destruct (perform_owned o now app c w r w' Hw Hp Hc1 Hc) as (o' & Ho & Hw' & Hr). exists o'. split; [done|].
    apply Forall_app_2; [by eapply own_threads_mono|]. constructor; [|by eapply own_threads_mono].
    split; [done|]. by apply Hk.
  - exists o. split; [done|]. apply Forall_app in Hts as [H1 [[Hp Ht] H2]%Forall_cons].
    apply Forall_app_2; [done|]. constructor; [done|]. constructor; [|done]. split; [done|]. exact Ht.
  - exists o. split; [done|]. apply Forall_app in Hts as [H1 [_ H2]%Forall_cons]. by apply Forall_app_2.
  - exists o. split; [|done]. eapply owned_fewer; [exact Hw|exact (reap_fewer _ _ _ _ _ Hr)|done].
Qed.

Lemma reachable_isolated ops x : rtc (session_step ops) ([], no_sessions) x -> isolated x.
Proof.
  intros H. apply (rtc_preserves _ isolated _ _ (step_isolated ops) H). exists ∅. split; [|constructor].
  split; intros *; by rewrite lookup_empty.
Qed.

Lemma uses_owned o t p : own_thread o t -> uses t p -> o !! p = Some (to_lowercase t.1).
Proof.
  intros [_ Ht]. unfold uses. destruct (t.2) as [v|R c k]; cbn in Ht.
  - intros Hp. by apply Ht.
  - destruct Ht as [Hc _]. destruct c; cbn in *; try done; first [by intros <-|by intros Hp; apply Hc].
Qed.

(** ** Requests of one session *)

Section Shared.
Variables (key : str) (l t0 span : N).

(** The session is live at [l] and does not expire in the [span] after [t0]. *)
Definition live_record (s : session_data) : Prop :=
  sd_live s = Some l /\ t0 <= sd_last_accessed s /\ span <= sd_timeout s.
Definition shared_session (w : world) : Prop := exists s, recs w !! key = Some s /\ live_record s.

(** A request that comes with the session's cookie, and one that holds its struct. *)
Definition of_session (v : vm) : Prop := key_of v = key /\ has_key_of v.
Definition waiting (v : vm) : Prop := of_session v /\ vm_scope v = None.
Definition in_scope (v : vm) : Prop := of_session v /\ vm_scope v = Some l /\ vm_lazy_pending v = false.

Definition in_span (now : N) : Prop := t0 <= now <= t0 + span.

(** A request: its calls to come, whether it has started, and the writes its
    page has made so far. *)
Record client := Client { cl_prog : prog vm; cl_started : bool; cl_writes : vars }.

Definition arriving (c : client) : Prop := exists v, c = Client (Done v) false [] /\ waiting v.

(** What a page does between the start and the end of its request, the end
    included, and what it writes by it. *)
Definition page_op (op : session_op) : bool :=
  match op with OpEnd _ | OpRead | OpWrite _ _ | OpLogin _ _ | OpLogout => true | _ => false end.
Definition written (op : session_op) : vars := match op with OpWrite k x => [(k, x)] | _ => [] end.

(** Requests of the session start, go through their pages and end, one call of
    one request at a time. *)
Inductive shared_step (hook : vm -> prog vm) : list client * world -> list client * world -> Prop :=
  | shared_start i v ws cs w now uuid app timeout :
      cs !! i = Some (Client (Done v) false ws) -> in_span now -> span <= timeout ->
      shared_step hook (cs, w) (<[i := Client (start_calls hook now uuid app timeout v) true ws]> cs, w)
  | shared_page i v ws cs w now uuid op :
      cs !! i = Some (Client (Done v) true ws) -> in_span now -> page_op op = true ->
      shared_step hook (cs, w) (<[i := Client (op_calls hook now uuid op v) true (ws ++ written op)]> cs, w)
  | shared_call i R (c : call R) k b ws cs w now r w' :
      cs !! i = Some (Client (Call c k) b ws) -> in_span now -> perform now c w = (r, w') ->
      shared_step hook (cs, w) (<[i := Client (k r) b ws]> cs, w').

Abbreviation put_all m ws := (foldl (fun m' e => ci_insert e.1 e.2 m') m ws).

(** The program makes its calls for the session, keeps the record live at [l],
    and has [owed] left to write into its struct. *)
Fixpoint joins {A : Type} (post : option (str * gvalue) -> A -> Prop) (owed : option (str * gvalue)) (p : prog A) : Prop :=
  match p with
  | Done x => post owed x
  | Call c k =>
      match c in call R return (option (str * gvalue) -> R -> Prop) -> Prop with
      | CGet app id => fun J => composite_key app id = key /\ forall s, live_record s -> J owed (Some s)
      | CSet app id s => fun J => composite_key app id = key /\ live_record s /\ J owed tt
      | CDrain _ => fun J => forall r, J owed r
      | CSnapshot _ => fun J => forall r, J owed r
      | CInsert p k x => fun J => p = l /\ (is_builtin_key k = true /\ J owed tt \/ owed = Some (k, x) /\ J None tt)
      | _ => fun _ => False
      end (fun owed r => joins post owed (k r))
  end.

Lemma joins_bind {A B} (post : option (str * gvalue) -> A -> Prop) (post' : option (str * gvalue) -> B -> Prop) owed p f :
  joins post owed p -> (forall owed x, post owed x -> joins post' owed (f x)) -> joins post' owed (bind p f).
Proof.
  intros Hp Hf. revert owed Hp. induction p as [x|R c k IH]; intros owed; cbn; [apply Hf|].
  destruct c; cbn; try done; try naive_solver.
Qed.

Lemma joins_impl {A} (post post' : option (str * gvalue) -> A -> Prop) owed p :
  joins post owed p -> (forall owed x, post owed x -> post' owed x) -> joins post' owed p.
Proof.
  intros Hp Hf. revert owed Hp. induction p as [x|R c k IH]; intros owed; cbn; [apply Hf|].
  destruct c; cbn; try done; try naive_solver.
Qed.

Lemma in_span_valid now s : in_span now -> live_record s -> expired now s = false.
Proof. unfold in_span, live_record, expired. intros ? (_ & ? & ?). apply N.ltb_ge. lia. Qed.

Lemma snapshot_insert_key p k x w : snapshot p (insert_key p k x w) = ci_insert k x (snapshot p w).
Proof. unfold insert_key, put_struct, snapshot at 1. cbn. by rewrite lookup_insert_eq. Qed.

Lemma builtin_key_ci a b : eq_ignore_ascii_case a b = true -> is_builtin_key a = is_builtin_key b.
Proof.
  intros H%eq_ignore_ascii_case_spec. unfold is_builtin_key. induction [_; _; _; _; _; _]%string as [|x t IH]; [done|].
  cbn [existsb]. rewrite IH. f_equal. apply eq_bool_prop_intro.
  rewrite !Is_true_true, !eq_ignore_ascii_case_spec. by rewrite H.
Qed.

(** A call of such a program: the session stays, and its struct changes in a
    built-in key or by the write that was owed. *)
Lemma call_joins {A R} post owed (c : call R) (k : R -> prog A) now w r w' :
  joins post owed (Call c k) -> shared_session w -> in_span now -> perform now c w = (r, w') ->
  shared_session w'
  /\ ((joins post owed (k r) /\ forall k0, is_builtin_key k0 = false -> ci_get k0 (snapshot l w') = ci_get k0 (snapshot l w))
      \/ exists e, owed = Some e /\ joins post None (k r) /\ snapshot l w' = ci_insert e.1 e.2 (snapshot l w)).
Proof.
  intros Hj (s & Hs & Hl) Hnow Hr. assert (Hsh : shared_session w) by (by exists s).
  destruct c as [app id|app id data| | | |app| |p|p k1 x|]; cbn in Hj, Hr; try done.
  - destruct Hj as [Hk Hj]. unfold get_session, store_get in Hr.
    rewrite Hk, Hs, (in_span_valid now s Hnow Hl) in Hr. unfold promote in Hr. rewrite (proj1 Hl) in Hr.
    injection Hr as <- <-. split; [|left; split; [by apply Hj|done]].
    exists s. cbn. by rewrite lookup_insert_eq.
  - destruct Hj as (Hk & Hd & Hj). injection Hr as <- <-. split; [|by left].
    exists data. cbn. unfold store_set. cbn. by rewrite Hk, lookup_insert_eq.
  - destruct (drain_session_ends app (w_pending w)) as [e q]. injection Hr as <- <-. split; [done|by left].
  - injection Hr as <- <-. split; [done|by left].
  - destruct Hj as [-> Hj]. injection Hr as <- <-. split; [done|].
    destruct Hj as [[Hb Hj] | [-> Hj]]; [left|right; exists (k1, x); by rewrite snapshot_insert_key].
    split; [done|]. intros k0 Hk0. rewrite snapshot_insert_key, ci_get_insert.
    destruct (eq_ignore_ascii_case k1 k0) eqn:E; [|done]. by rewrite (builtin_key_ci _ _ E), Hk0 in Hb.
Qed.

(** *** The operations join *)

Abbreviation joined := (fun (owed : option (str * gvalue)) v => owed = None /\ in_scope v).

Lemma record_joins {A} v post owed (f : option session_data -> prog A) :
  of_session v -> (forall s, live_record s -> joins post owed (f (Some s))) -> joins post owed (bind (record_calls v) f).
Proof.
  intros [Hkey [k Hk]] Hf. unfold record_calls. rewrite Hk. pose proof (session_key_some _ _ Hk) as ->.
  cbn. by split.
Qed.

Lemma store_joins owed data v :
  of_session v -> live_record data ->
  joins (fun o v' => o = owed /\ of_session v' /\ vm_scope v' = vm_scope v /\ vm_lazy_pending v' = vm_lazy_pending v)
    owed (store_calls data v).
Proof.
  intros [Hkey [k Hk]] Hd. unfold store_calls. rewrite Hk. pose proof (session_key_some _ _ Hk) as ->.
  cbn. split_and!; try done; try apply Hd. split; [done|by eexists].
Qed.

Lemma builtins_join owed v s : joins (fun o (_ : unit) => o = owed) owed (insert_calls l (session_builtin_keys v s)).
Proof.
  assert (H : forall m : vars, Forall (fun e => is_builtin_key e.1 = true) m ->
    joins (fun o (_ : unit) => o = owed) owed (insert_calls l m)).
  { induction 1 as [|e m He _ IH]; [done|]. cbn. split; [done|]. left. split; [done|exact IH]. }
  apply H. repeat (constructor; [by vm_compute|]). constructor.
Qed.

(** A request that starts takes the struct of the session. *)
Lemma start_joins hook now uuid app timeout v :
  waiting v -> in_span now -> span <= timeout -> joins joined None (start_calls hook now uuid app timeout v).
Proof.
  intros [Hof Hsc] Hnow Hto. unfold start_calls. set (v0 := set_timeout _ _).
  assert (Hof0 : of_session v0) by done.
  rewrite bool_decide_false by (destruct Hof as [_ [k Hk]]; unfold session_key in Hk; unfold cookie_id; cbn;
    by destruct (vm_session_id v) as [[]|]).
  apply record_joins; [done|]. intros s Hs. eapply joins_bind; [apply store_joins; [done|]|].
  { split_and!; [apply Hs|apply Hnow|done]. }
  intros o v1 (-> & Hof1 & Hsc1 & Hp1). rewrite Hp1. cbn [vm_lazy_pending v0 set_timeout set_pending].
  unfold attach_calls. rewrite Hsc1. change (vm_scope v0) with (vm_scope v). rewrite Hsc.
  apply record_joins; [done|]. intros s1 (Hl1 & _). cbn [mbind option_bind]. rewrite Hl1.
  eapply joins_bind; [apply builtins_join|]. intros o [] ->. cbn [joins]. split; [done|].
  split; [|split; [done|by cbn; rewrite Hp1]]. destruct Hof1 as [H1 [k H2]]. split; [done|]. by exists k.
Qed.

Lemma lazy_joins {A} hook now uuid v post owed (f : bool * vm -> prog A) :
  in_scope v -> joins post owed (f (false, v)) -> joins post owed (bind (lazy_calls hook now uuid v) f).
Proof. intros (_ & _ & Hp) H. unfold lazy_calls. by rewrite Hp. Qed.

Lemma attach_joins {A} v post owed (f : vm -> prog A) :
  in_scope v -> joins post owed (f v) -> joins post owed (bind (attach_calls v) f).
Proof. intros (_ & Hsc & _) H. unfold attach_calls. by rewrite Hsc. Qed.

Lemma store_in_scope data v : in_scope v -> live_record data -> joins joined None (store_calls data v).
Proof.
  intros (Hof & Hsc & Hp) Hd. pose proof (store_joins None data v Hof Hd) as H.
  eapply joins_impl; [exact H|].
  intros o v' (-> & H1 & H2 & H3). split; [done|]. split_and!; [done|by rewrite H2|by rewrite H3].
Qed.

(** A page's operation makes exactly the write it stands for. *)
Lemma page_joins hook now uuid op v :
  in_scope v -> in_span now -> page_op op = true -> joins joined (head (written op)) (op_calls hook now uuid op v).
Proof.
  intros Hv Hnow Hop. pose proof Hv as (Hof & Hsc & Hp).
  destruct op as [| app | | k x | | | | name roles |]; try done; cbn [op_calls written head].
  - unfold end_calls. eapply (joins_bind joined).
    + unfold sync_calls. rewrite Hsc. apply record_joins; [done|]. intros s Hs. cbn [mbind option_bind].
      rewrite (proj1 Hs), N.eqb_refl. apply store_in_scope; [done|]. split_and!; [apply Hs|apply Hnow|apply Hs].
    + by intros o v' H r.
  - apply attach_joins; [done|]. rewrite Hsc. by intros r.
  - apply lazy_joins; [done|]. apply attach_joins; [done|]. cbn [snd]. rewrite Hsc. cbn. split; [done|]. right. done.
  - apply lazy_joins; [done|]. cbn [snd]. destruct Hof as [Hkey [kk Hk]]. rewrite Hk.
    apply record_joins; [by split; [|eexists]|]. intros s Hs. apply store_in_scope; [done|]. split_and!; apply Hs.
  - unfold logout_calls. apply record_joins; [done|]. intros s Hs. apply store_in_scope; [done|]. split_and!; apply Hs.
Qed.

(** *** The writes, in the order they were made *)

Definition writes_of (i : nat) (order : list (nat * (str * gvalue))) : vars :=
  map snd (filter (fun e => e.1 = i) order).

Lemma writes_of_app i order order' : writes_of i (order ++ order') = writes_of i order ++ writes_of i order'.
Proof. unfold writes_of. by rewrite filter_app, map_app. Qed.

Lemma writes_of_one i j e : writes_of i [(j, e)] = if decide (j = i) then [e] else [].
Proof. unfold writes_of. rewrite filter_cons, filter_nil. cbn. by destruct (decide (j = i)). Qed.

Definition client_ok (made : vars) (c : client) : Prop :=
  if cl_started c then exists owed, joins joined owed (cl_prog c) /\ cl_writes c = made ++ option_list owed
  else arriving c /\ made = [].

Definition merged (w0 : world) (order : list (nat * (str * gvalue))) (w : world) : Prop :=
  forall k, is_builtin_key k = false ->
    ci_get k (snapshot l w) = ci_get k (put_all (snapshot l w0) (map snd order)).

Definition shared_inv (w0 : world) (x : list client * world) : Prop :=
  shared_session x.2
  /\ exists order, merged w0 order x.2 /\ forall i c, x.1 !! i = Some c -> client_ok (writes_of i order) c.

Lemma insert_cases {A} (cs : list A) i j c d : <[i := c]> cs !! j = Some d -> i = j /\ c = d \/ i <> j /\ cs !! j = Some d.
Proof. intros [(? & ? & _) | ?]%list_lookup_insert_Some; auto. Qed.

Lemma shared_step_inv hook w0 x y : shared_step hook x y -> shared_inv w0 x -> shared_inv w0 y.
Proof.
  destruct 1 as [i v ws cs w now uuid app timeout Hi Hnow Hto|i v ws cs w now uuid op Hi Hnow Hop
    |i R c k b ws cs w now r w' Hi Hnow Hr]; intros (Hsh & order & Hm & Hcs); cbn [fst snd] in *.
  - split; [done|]. exists order. split; [done|]. intros j d [[<- <-] | [_ Hj]]%insert_cases; [|eauto].
    destruct (Hcs _ _ Hi) as [(v' & E & Hv) Hw]. injection E as <- ->. exists None. split; [by apply start_joins|].
    by rewrite Hw.
  - split; [done|]. exists order. split; [done|]. intros j d [[<- <-] | [_ Hj]]%insert_cases; [|eauto].
    destruct (Hcs _ _ Hi) as (owed & [-> Hv] & Hw). exists (head (written op)). split; [by apply page_joins|].
    cbn in *. rewrite Hw, app_nil_r. by destruct op.
  - pose proof (Hcs _ _ Hi) as H. unfold client_ok in H. cbn in H. destruct b; [|by destruct H as [(v & [=] & _) _]].
    destruct H as (owed & Hj & Hw). destruct (call_joins joined owed c k now w r w' Hj Hsh Hnow Hr) as [Hsh' [[Hk Hget] | (e & -> & Hk & Hget)]].
    + split; [done|]. exists order. split; [intros k0 Hk0; cbn; rewrite Hget; auto|].
      intros j d [[<- <-] | [_ Hj']]%insert_cases; [|eauto]. by exists owed.
    + split; [done|]. exists (order ++ [(i, e)]). split.
      * intros k0 Hk0. cbn. rewrite Hget, map_app, foldl_app. cbn [map foldl snd]. rewrite !ci_get_insert. by destruct (eq_ignore_ascii_case e.1 k0); [|apply Hm].
      * intros j d [[<- <-] | [Hne Hj']]%insert_cases; rewrite writes_of_app, writes_of_one.
        -- rewrite decide_True by done. exists None. split; [done|]. cbn in *. by rewrite app_nil_r.
        -- rewrite decide_False, app_nil_r by done. eauto.
Qed.

Lemma shared_reachable hook cs w y :
  shared_session w -> Forall arriving cs -> rtc (shared_step hook) (cs, w) y -> shared_inv w y.
Proof.
  intros Hs Hcs Hr. apply (rtc_preserves _ (shared_inv w) _ _ (shared_step_inv hook w) Hr).
  split; [done|]. exists []. split; [done|]. intros i c Hi. rewrite Forall_lookup in Hcs.
  pose proof (Hcs i c Hi) as Ha. destruct Ha as (v & -> & Hv). split; [by exists v|done].
Qed.

Lemma client_ok_made made c :
  client_ok made c ->
  (exists owed, cl_writes c = made ++ owed /\ (length owed <= 1)%nat /\ (forall v, cl_prog c = Done v -> owed = []))
  /\ (forall v, cl_prog c = Done v -> cl_started c = true -> vm_scope v = Some l).
Proof.
  unfold client_ok. destruct (cl_started c).
  - intros (owed & Hj & Hw). split.
    + exists (option_list owed). split_and!; [done|destruct owed; cbn; lia|].
      intros v E. rewrite E in Hj. by destruct Hj as [-> _].
    + intros v E _. rewrite E in Hj. apply Hj.
  - intros [(v & -> & _) ->]. split; [|done]. exists []. cbn. split_and!; [done|lia|done].
Qed.
End Shared.

(** ** A schedule, executed *)

(** A request arrives, begins an operation, or makes its next [n] calls. *)
Inductive turn := Arrive (v : vm) | Begin (i : nat) (uuid : str) (op : session_op) | Calls (i n : nat).

Fixpoint make_calls (now : N) (i n : nat) (x : list thread * world) : option (list thread * world) :=
  match n with
  | O => Some x
  | S n => match x.1 !! i with
           | Some (app, Call c k) =>
               let rw := perform now c x.2 in make_calls now i n (<[i := (app, k rw.1)]> x.1, rw.2)
           | _ => None
           end
  end.

Definition take_turn (t : turn) (x : list thread * world) : option (list thread * world) :=
  match t with
  | Arrive v => if bool_decide (vm_scope v = None) && bool_decide (unit_separator ∉ to_lowercase (app_of v))
                then Some ((app_of v, Done v) :: x.1, x.2) else None
  | Begin i uuid op => match x.1 !! i with
                       | Some (app, Done v) => Some (<[i := (app, op_calls (hook_calls [] 0) 0 uuid op v)]> x.1, x.2)
                       | _ => None
                       end
  | Calls i n => make_calls 0 i n x
  end.

Fixpoint drive (l : list turn) (x : list thread * world) : option (list thread * world) :=
  match l with
  | [] => Some x
  | t :: l => match take_turn t x with Some y => drive l y | None => None end
  end.

Lemma replace_step i t t' (x : list thread * world) w' :
  x.1 !! i = Some t ->
  (forall ts1 ts2, session_step [] (ts1 ++ t :: ts2, x.2) (ts1 ++ t' :: ts2, w')) ->
  session_step [] x (<[i := t']> x.1, w').
Proof.
  intros Hi H. destruct x as [ts w]. cbn in *. specialize (H (take i ts) (drop (S i) ts)).
  rewrite take_drop_middle in H by done. rewrite insert_take_drop by (by eapply lookup_lt_Some). exact H.
Qed.

Lemma calls_steps now i n x y : make_calls now i n x = Some y -> rtc (session_step []) x y.
Proof.
  revert x. induction n as [|n IH]; intros x; cbn; [by intros [= <-]|].
  destruct (x.1 !! i) as [[app [v|R c k]]|] eqn:Hi; try done. intros H. eapply rtc_l; [|by apply IH].
  eapply replace_step; [exact Hi|]. intros ts1 ts2. apply (step_call [] _ _ _ _ _ _ _ now). apply surjective_pairing.
Qed.

Lemma drive_steps l x y : drive l x = Some y -> rtc (session_step []) x y.
Proof.
  revert x. induction l as [|t l IH]; intros x; cbn; [by intros [= <-]|].
  destruct (take_turn t x) as [z|] eqn:Ht; [|done]. intros H. etrans; [|by apply IH]. clear IH H.
  destruct t as [v|i uuid op|i n]; cbn in Ht.
  - repeat (case_bool_decide; cbn in Ht; [|done]). injection Ht as <-. apply rtc_once. destruct x as [ts w]. by apply step_arrive.
  - destruct (x.1 !! i) as [[app [v|R c k]]|] eqn:Hi; try done. injection Ht as <-. apply rtc_once.
    eapply replace_step; [exact Hi|]. intros. apply step_begin.
  - by eapply calls_steps.
Qed.

(** One request opens the session and a second one joins it; the second one
    reads the record at its end, the first one rotates the session, and the
    second one writes the record back. *)
Definition visitor (id : option str) : vm := Vm id None 1800 None false false false false None.
Definition race : list turn :=
  [Arrive (visitor None); Begin 0 (lit "a") (OpStart [] 30); Calls 0 8;
   Arrive (visitor (Some (lit "a"))); Begin 0 [] (OpStart [] 30); Calls 0 9;
   Begin 0 [] (OpEnd []); Calls 0 1;
   Begin 1 (lit "b") OpRotate; Calls 1 10; Calls 0 1].

Lemma race_end :
  exists y, drive race ([], no_sessions) = Some y
    /\ exists s s' p, recs y.2 !! composite_key [] (lit "a") = Some s /\ recs y.2 !! composite_key [] (lit "b") = Some s'
         /\ sd_live s = Some p /\ sd_live s' = Some p.
Proof.
  assert (H : match drive race ([], no_sessions) with
              | Some y => (recs y.2 !! composite_key [] (lit "a") ≫= sd_live, recs y.2 !! composite_key [] (lit "b") ≫= sd_live)
              | None => (None, None)
              end = (Some 0, Some 0)) by (vm_compute; reflexivity).
  destruct (drive race ([], no_sessions)) as [y|] eqn:E; [|done]. exists y. split; [done|].
  injection H as H1 H2.
  apply bind_Some in H1 as (s & H1 & H3), H2 as (s' & H2 & H4). exact (ex_intro _ s (ex_intro _ s' (ex_intro _ 0 (conj H1 (conj H2 (conj H3 H4)))))).
Qed.

(** ** A session that was given up *)

Lemma record_missing now v w :
  recs w !! key_of v = None ->
  exists w', session_record true now (v, w) = (None, (v, w')) /\ recs w' = recs w /\ heap_of w' = heap_of w
    /\ w_pending w' = w_pending w.
Proof.
  intros Hn. destruct (session_record true now (v, w)) as [r [v' w']] eqn:Hr.
  destruct (record_cases now _ _ _ _ _ Hr) as (-> & Hp & [(-> & Hh & _ & [[_ Hs] | [_ Hs]]) | (s & s' & H & _)]).
  - by exists w'.
  - exists w'. split_and!; try done. by rewrite Hs, delete_id.
  - congruence.
Qed.

(** A request that still holds the struct stores the session again. *)
Lemma end_recreates now app v w p :
  has_key_of v -> vm_scope v = Some p -> recs w !! key_of v = None -> own_keys (snapshot p w) <> [] ->
  exists ends v' w' s, end_session true false 0 now app (v, w) = (Ok ends, (v', w'))
    /\ recs w' !! key_of v = Some s /\ sd_variables s = own_keys (snapshot p w) /\ expired now s = false.
Proof.
  intros [k Hk] Hsc Hn Hown. unfold end_session, sync_session_scope_to_store. cbn [fst]. rewrite Hsc.
  destruct (record_missing now v w Hn) as (w1 & -> & Hr1 & Hh1 & _). cbn. rewrite Hk.
  destruct (record_missing now v w1) as (w2 & -> & Hr2 & Hh2 & _); [by rewrite Hr1|].
  replace (snapshot p w1) with (snapshot p w) by (unfold snapshot; by rewrite Hh1).
  destruct (own_keys (snapshot p w)) as [|e m] eqn:Ho; [done|]. cbn.
  unfold store_session_record. rewrite Hk. pose proof (session_key_some _ _ Hk) as ->.
  destruct (drain_session_ends app _) as [ends q]. eexists _, _, _, _. split_and!; [reflexivity| | |].
  - cbn. apply lookup_insert_eq.
  - done.
  - unfold expired. cbn. apply N.ltb_ge. lia.
Qed.

Lemma invalidate_removes v w :
  has_key_of v -> recs (session_invalidate (v, w)).2 = delete (key_of v) (recs w)
  /\ heap_of (session_invalidate (v, w)).2 = heap_of w.
Proof.
  intros [k Hk]. unfold session_invalidate. cbn [fst snd]. unfold session_key in Hk. unfold key_of.
  by destruct (vm_session_id v) as [[|c id]|].
Qed.

Lemma store_record_app data st : app_of (store_session_record data st).1 = app_of st.1.
Proof. destruct st as [v w]. unfold store_session_record. by destruct (session_key v) as [[]|]. Qed.

Lemma sync_id_app now st :
  let v' := (sync_session_scope_to_store true false 0 now st).2.1 in
  vm_session_id v' = vm_session_id st.1 /\ app_of v' = app_of st.1.
Proof.
  destruct st as [v w]. unfold sync_session_scope_to_store. cbn [fst]. destruct (vm_scope v) as [p|]; [|done].
  destruct (session_record true now (v, w)) as [r [v' w']] eqn:Hr.
  destruct (record_cases now _ _ _ _ _ Hr) as (-> & _ & _).
  destruct r as [s|]; cbn;
    [destruct (sd_live s); cbn; [destruct (p =? _); cbn; by rewrite store_record_id, store_record_app|]|];
    (destruct (session_key v); [|done]);
    (destruct (session_record true now (v, w')) as [r2 [v2 w2]] eqn:Hr2);
    destruct (record_cases now _ _ _ _ _ Hr2) as (-> & _ & _);
    destruct r2, (own_keys _); cbn; by rewrite ?store_record_id, ?store_record_app.
Qed.

Lemma insert_keys_recs p l w : recs (insert_keys p l w) = recs w /\ w_next (insert_keys p l w) = w_next w.
Proof.
  unfold insert_keys. revert w. induction l as [|e l IH]; intros w; [done|]. cbn [foldl].
  destruct (IH (insert_key p e.1 e.2 w)) as [-> ->]. done.
Qed.

(** Attaching touches the record of the request's own key only. *)
Lemma attach_elsewhere now v w k :
  k <> key_of v -> recs (attach_session_scope true false now (v, w)).2 !! k = recs w !! k.
Proof.
  intros Hk. unfold attach_session_scope. cbn [fst]. destruct (vm_scope v); [done|].
  destruct (session_record true now (v, w)) as [r [v' w']] eqn:Hr.
  assert (Hsame : recs w' !! k = recs w !! k).
  { destruct (record_cases now _ _ _ _ _ Hr) as (-> & _ & [(_ & _ & _ & [[_ ->] | [_ ->]]) | (s & s' & _ & _ & _ & _ & _ & -> & _)]);
      [done|by rewrite lookup_delete_ne|by rewrite lookup_insert_ne]. }
  cbn. destruct (r ≫= sd_live) as [p|]; [|done]. cbn. by rewrite (proj1 (insert_keys_recs _ _ _)).
Qed.

Lemma rotate_removes now uuid v w :
  has_key_of v -> vm_session_id v <> Some uuid ->
  recs (session_rotate true false 0 now uuid (v, w)).2.2 !! key_of v = None.
Proof.
  intros [k Hk] Hne. unfold session_rotate. pose proof (sync_id_app now (v, w)) as [Hid Happ].
  destruct (sync_session_scope_to_store true false 0 now (v, w)) as [r [v1 w1]] eqn:Hs. cbn in Hid, Happ.
  assert (Hr : r = Ok tt).
  { unfold sync_session_scope_to_store in Hs. cbn [fst] in Hs. destruct (vm_scope v) as [p|]; [|by injection Hs].
    destruct (session_record true now (v, w)) as [r1 [v2 w2]]. cbn in Hs.
    repeat (case_match; simplify_eq; try done). }
  subst r. unfold session_key in Hk. unfold key_of.
  destruct (vm_session_id v) as [[|c id]|] eqn:Hv; [done| |done]. rewrite Hid. cbn [fst snd invalidate_session_record_cache].
  rewrite attach_elsewhere.
  - unfold store_rotate. rewrite Happ. cbn. destruct (recs w1 !! _) eqn:E; cbn; [|exact E].
    rewrite lookup_insert_ne, lookup_delete_eq; [done|]. unfold composite_key. intros Heq. apply Hne. f_equal.
    apply app_inv_head in Heq. by injection Heq as ->.
  - unfold key_of, app_of in *. cbn in *. rewrite Happ. unfold composite_key. intros Heq%app_inv_head. apply Hne. by injection Heq as ->.
Qed.

(** The id a session was moved away from comes back in the same way. *)
Lemma rotated_id_returns now uuid app va vb w p :
  has_key_of va -> has_key_of vb -> key_of vb = key_of va -> vm_session_id va <> Some uuid -> vm_scope vb = Some p ->
  let w1 := (session_rotate true false 0 now uuid (va, w)).2.2 in
  own_keys (snapshot p w1) <> [] ->
  exists ends vb' w' s, end_session true false 0 now app (vb, w1) = (Ok ends, (vb', w'))
    /\ recs w' !! key_of va = Some s /\ sd_variables s = own_keys (snapshot p w1).
Proof.
  intros Ha Hb Hk Hne Hsc w1 Hown.
  destruct (end_recreates now app vb w1 p Hb Hsc) as (ends & vb' & w' & s & H1 & H2 & H3 & _);
    [rewrite Hk; by apply rotate_removes|done|]. rewrite Hk in H2. by exists ends, vb', w', s.
Qed.
End Facts.

(** ** The theorems *)

(** C12. The start of a request keeps the id of a cookie only if some application
    holds an unexpired session under it; otherwise the id is dropped or replaced
    by a new one. *)
Theorem foreign_id_refused {U : Unicode} (hook : state -> state) (now : N) (uuid app : str) (timeout : N)
    (v : vm) (w : world) :
  (forall st, vm_session_id (hook st).1 = vm_session_id st.1) ->
  let id' := vm_session_id (start_session true false hook now uuid app timeout (v, w)).1 in
  id' = Some uuid \/ id' = None \/ id' = Some []
  \/ exists id, vm_session_id v = Some id /\ id' = Some id /\ session_held now (app_of v) id w.
Proof. apply start_id. Qed.

(** C10. Requests that carry the cookie of one live session start, write, read,
    log in or out and end, one call of one request at a time.  As long as the
    session does not expire, it stays, its struct holds the result of all their
    writes in one order that keeps the order of each request, the six built-in
    keys apart, and a request that has started holds that struct. *)
Theorem session_writes_kept {U : Unicode} (hook : vm -> prog vm) (key : str) (l t0 span : N)
    (cs cs' : list client) (w w' : world) :
  shared_session key l t0 span w -> Forall (arriving key) cs ->
  rtc (shared_step t0 span hook) (cs, w) (cs', w') ->
  shared_session key l t0 span w'
  /\ exists order,
       (forall k, is_builtin_key k = false ->
          ci_get k (snapshot l w')
          = ci_get k (foldl (fun m e => ci_insert e.1 e.2 m) (snapshot l w) (map snd order)))
       /\ forall i c, cs' !! i = Some c ->
            (exists owed, cl_writes c = writes_of i order ++ owed /\ (length owed <= 1)%nat
               /\ (forall v, cl_prog c = Done v -> owed = []))
            /\ (forall v, cl_prog c = Done v -> cl_started c = true -> vm_scope v = Some l).
Proof.
  intros Hs Hcs Hr. destruct (shared_reachable key l t0 span hook cs w (cs', w') Hs Hcs Hr) as (Hs' & order & Hm & Hc).
  split; [done|]. exists order. split; [exact Hm|]. intros i c Hi. by apply client_ok_made with key t0 span, Hc.
Qed.

(** C9. However the calls of requests of several applications interleave, their
    threads and the reaper included, sessions of different applications have
    different structs, and a request holds, reads, writes and stores no struct of
    a session of another application, nor one that a request of another
    application holds.  Application names do not contain the separator U+001F,
    and a request stays with the application it came for. *)
Theorem sessions_isolated {U : Unicode} (ops : list (session_op * str)) (ts : list thread) (w : world) :
  rtc (session_step ops) ([], no_sessions) (ts, w) ->
  (forall app app' id id' s s' p, plain_app app -> plain_app app' ->
     recs w !! composite_key app id = Some s -> recs w !! composite_key app' id' = Some s' ->
     sd_live s = Some p -> sd_live s' = Some p -> to_lowercase app = to_lowercase app')
  /\ (forall t p app id s, t ∈ ts -> uses t p -> plain_app app ->
       recs w !! composite_key app id = Some s -> sd_live s = Some p -> to_lowercase app = to_lowercase t.1)
  /\ (forall t t' p, t ∈ ts -> t' ∈ ts -> uses t p -> uses t' p -> to_lowercase t.1 = to_lowercase t'.1).
Proof.
  intros H. destruct (reachable_isolated ops _ H) as (o & Hw & Hts). cbn in Hw, Hts. rewrite Forall_forall in Hts.
  split_and!.
  - intros app app' id id' s s' p Ha Ha' Hs Hs' Hp Hp'.
    pose proof (owned_key _ _ _ _ _ Hw Ha Hs p Hp). pose proof (owned_key _ _ _ _ _ Hw Ha' Hs' p Hp'). congruence.
  - intros t p app id s Ht Hu Ha Hs Hp.
    pose proof (owned_key _ _ _ _ _ Hw Ha Hs p Hp). pose proof (uses_owned o t p (Hts t Ht) Hu). congruence.
  - intros t t' p Ht Ht' Hu Hu'.
    pose proof (uses_owned o t p (Hts t Ht) Hu). pose proof (uses_owned o t' p (Hts t' Ht') Hu'). congruence.
Qed.

(** C39. Between the read and the write of the record at the end of one request,
    another request may rotate the session: the write stores the record under the
    old id again, and two ids of one application have one struct. *)
Theorem rotated_session_shared {U : Unicode} :
  exists ts w s s' p, rtc (session_step []) ([], no_sessions) (ts, w)
    /\ recs w !! composite_key [] (lit "a") = Some s /\ recs w !! composite_key [] (lit "b") = Some s'
    /\ sd_live s = Some p /\ sd_live s' = Some p.
Proof.
  destruct race_end as (y & Hy & Hr). exists y.1, y.2. destruct Hr as (s & s' & p & H1 & H2 & H3 & H4).
  exists s, s', p. split_and!; [|done..]. destruct y as [ts w]. by apply (drive_steps race).
Qed.

(** C38. After one request has invalidated the session, the end of another
    request that still holds its struct stores it again under the same id, with
    all its variables. *)
Theorem invalidated_session_returns {U : Unicode} (now : N) (app : str) (va vb : vm) (w : world) (p : N) :
  has_key_of va -> has_key_of vb -> key_of vb = key_of va -> vm_scope vb = Some p ->
  own_keys (snapshot p w) <> [] ->
  recs (session_invalidate (va, w)).2 !! key_of va = None
  /\ exists ends vb' w' s,
       end_session true false 0 now app (vb, (session_invalidate (va, w)).2) = (Ok ends, (vb', w'))
       /\ recs w' !! key_of va = Some s /\ sd_variables s = own_keys (snapshot p w) /\ expired now s = false.
Proof.
  intros Ha Hb Hk Hsc Hown. destruct (invalidate_removes va w Ha) as [Hr Hh].
  assert (Hn : recs (session_invalidate (va, w)).2 !! key_of va = None) by (rewrite Hr; apply lookup_delete_eq).
  split; [done|]. assert (Hs : snapshot p (session_invalidate (va, w)).2 = snapshot p w)
    by (unfold snapshot; by rewrite Hh).
  destruct (end_recreates now app vb (session_invalidate (va, w)).2 p Hb Hsc) as (ends & vb' & w' & s & H);
    [by rewrite Hk|by rewrite Hs|]. exists ends, vb', w', s. by rewrite Hs, Hk in H.
Qed.

(** With eager creation a request replaces the id of its cookie even when another
    application holds a session under it. *)
Lemma issued_id_replaced {U : Unicode} (hook : state -> state) (now : N) (uuid app : str) (timeout : N)
    (v : vm) (w : world) :
  (forall st, vm_session_id (hook st).1 = vm_session_id st.1) ->
  vm_lazy_creation v = false -> recs w !! key_of v = None ->
  vm_session_id (start_session true false hook now uuid app timeout (v, w)).1 = Some uuid.
Proof.
  intros Hhook Hlazy Hn. unfold start_session. cbn [fst snd].
  set (v0 := set_timeout timeout (set_pending false (set_created false v))).
  assert (Hopen : forall w1, vm_session_id (open_session hook now uuid app timeout (v0, w1)).1 = Some uuid).
  { intros w1. unfold open_session.
    assert (Hl : vm_lazy_creation (drop_unissued_id now (v0, w1)).1 = false)
      by (unfold drop_unissued_id; by destruct (_ && _)).
    rewrite Hl, Hhook. cbn [fst vm_session_id set_created]. by rewrite store_record_id. }
  case_bool_decide.
  - destruct (vm_lazy_pending _); [|rewrite attach_id]; apply Hopen.
  - destruct (record_missing now v0 w Hn) as (w1 & -> & _).
    destruct (vm_lazy_pending _); [|rewrite attach_id]; apply Hopen.
Qed.

(** A component instance passes the data-only rule, and a struct that contains
    itself has the walk recurse for ever. *)
Lemma instance_passes d h path p : validate_session_value (S d) h path (JInstance p) = Ok tt.
Proof. done. Qed.

Definition own_member : store := {[ 0 := CStruct [(lit "self", JStruct 0)] ]}.

Lemma validate_overflows d path : validate_session_value d own_member path (JStruct 0) = Err (inr StackOverflow).
Proof.
  revert path. induction d as [|d IH]; intros path; [done|]. cbn [validate_session_value].
  replace (own_member !! 0) with (Some (CStruct [(lit "self", JStruct 0)])) by (by vm_compute).
  replace (is_component_backing _) with false by (by vm_compute). cbn [omapM fst snd].
  replace (starts_internal (lit "self")) with false by (by vm_compute). by rewrite IH.
Qed.
