(* ===== verification/SessionWitnesses.v ===== *)
(** * SessionWitnesses: the session theorems at concrete states

    A shop with one session, two requests of it, and the reaper. *)

From stdpp Require Import base list numbers strings gmap relations.
From S2P Require Import Prelude Text Float64 Value Bytes Keys ValueMap ObjCodec Stringify SessionStore SessionStoreFacts SessionScope SessionCalls SessionFacts Instances.
Local Open Scope N_scope.

Definition shop : str := lit "Shop".
Definition sid : str := lit "s1".

Definition one_visit : session_data :=
  SessionData [(lit "cart", JInt 1)] 100 100 None [] 30 shop None.

Definition one_session : memory := store_set shop sid one_visit (Memory ∅ ∅).
Definition one_book : gmap (str * str) session_data := <[session_of shop sid := one_visit]> ∅.

Lemma sid_plain : plain_id sid.
Proof. apply (bool_decide_unpack _); vm_compute; exact I. Qed.

Lemma one_represents : represents (mem_sessions one_session) one_book.
Proof.
  unfold one_session, one_book, store_set. cbn [mem_sessions].
  apply (rep_insert ∅ ∅ (session_of shop sid) one_visit); [|apply sid_plain].
  split; intros *; by rewrite lookup_empty.
Qed.

Lemma memory_store_refines_witness :
  represents (mem_sessions (store_remove shop sid one_session)) (delete (session_of shop sid) one_book)
  /\ (id_issued 120 sid one_session = true <->
      exists a s, one_book !! (a, sid) = Some s /\ expired 120 s = false)
  /\ id_issued 120 sid one_session = true /\ id_issued 131 sid one_session = false.
Proof.
  destruct (memory_store_refines one_session one_book 120 0 shop sid sid one_visit one_represents sid_plain sid_plain)
    as (_ & _ & H1 & _ & H2 & _).
  split; [exact H1|]. split; [exact H2|]. split; by vm_compute.
Defined.

Definition eager_reaper : reap_config := ReapConfig 60 true 10.

(** The first sleep overruns by two seconds. *)
Definition one_late (i : nat) : N := if (i =? 0)%nat then 2 else 0.

Lemma reaper_punctual_witness :
  (exists i t m' q', wakes eager_reaper one_late (S i) (110, one_session, ∅) = (t, m', q')
    /\ 131 <= t <= 131 + one_late i
    /\ mem_sessions m' !! composite_key shop sid = None
    /\ forall j, (j <= i)%nat ->
         mem_sessions (wakes eager_reaper one_late j (110, one_session, ∅)).1.2 !! composite_key shop sid = Some one_visit)
  /\ (wakes eager_reaper one_late 1 (110, one_session, ∅)).1.1 = 132
  /\ (wakes eager_reaper (fun _ => 0) 2 (110, one_session, ∅)).1.1 = 131.
Proof.
  split; [|split; by vm_compute].
  apply (reaper_punctual eager_reaper one_late 110 one_session ∅ (composite_key shop sid) one_visit); try done; by vm_compute.
Defined.

(** ** Requests *)

Definition request (id : option str) : vm := Vm id (Some shop) 1800 None true false false false None.
Definition other_app : vm := Vm (Some sid) (Some (lit "Blog")) 1800 None false false false false None.

Definition shop_world : world := World one_session ∅ 5.

Lemma foreign_id_refused_witness :
  (let id' := vm_session_id (start_session true false id 120 (lit "u") shop 30 (request (Some (lit "planted")), shop_world)).1 in
   id' = Some (lit "u") \/ id' = None \/ id' = Some []
   \/ exists i, vm_session_id (request (Some (lit "planted"))) = Some i /\ id' = Some i
                /\ session_held 120 shop i shop_world)
  /\ vm_session_id (start_session true false id 120 (lit "u") shop 30 (request (Some (lit "planted")), shop_world)).1 = None
  /\ vm_session_id (start_session true false id 120 (lit "u") shop 30 (request (Some sid), shop_world)).1 = Some sid.
Proof.
  split; [|split; by vm_compute].
  by apply (foreign_id_refused id 120 (lit "u") shop 30 (request (Some (lit "planted"))) shop_world).
Defined.

(** The cookie's id is held, and the eager application replaces it all the same. *)
Lemma issued_id_replaced_example :
  id_issued 120 sid (w_memory shop_world) = true
  /\ vm_session_id (start_session true false id 120 (lit "u") (lit "Blog") 30 (other_app, shop_world)).1 = Some (lit "u").
Proof. split; by vm_compute. Qed.

(** The session once read: its struct is at address 5. *)
Definition live_world : world := (start_session true false id 120 (lit "u") shop 30 (request (Some sid), shop_world)).2.
Definition shop_key : str := composite_key shop sid.

Definition a0 : state := (request (Some sid), live_world).
Definition a1 : state := start_session true false id 121 (lit "u") shop 30 a0.
Definition b1 : state := start_session true false id 122 (lit "u") (lit "SHOP") 30 (request (Some sid), a1.2).

Lemma live_shared : shared_session shop_key 5 120 30 live_world.
Proof.
  exists (with_visit 120 30 (set_live (Some 5) one_visit)). split; [by vm_compute|]. split_and!; [done|cbn; lia|cbn; lia].
Qed.

(** Two requests of the session: both have started before either writes, one has
    ended before the other, and the record's write at the first end comes after
    the second one's write. *)
Definition no_hook (v : vm) : prog vm := Done v.
Definition clients0 : list client := [Client (Done (request (Some sid))) false []; Client (Done (request (Some sid))) false []].

Definition begin_start (i : nat) (cs : list client) : list client :=
  match cs !! i with
  | Some (Client (Done v) false ws) => <[i := Client (start_calls no_hook 121 (lit "u") shop 30 v) true ws]> cs
  | _ => cs
  end.
Definition begin_page (i : nat) (op : session_op) (cs : list client) : list client :=
  match cs !! i with
  | Some (Client (Done v) true ws) =>
      if page_op op then <[i := Client (op_calls no_hook 122 (lit "u") op v) true (ws ++ written op)]> cs else cs
  | _ => cs
  end.
Fixpoint client_calls (i n : nat) (x : list client * world) : list client * world :=
  match n with
  | O => x
  | S n => match x.1 !! i with
           | Some (Client (Call c k) b ws) =>
               let rw := perform 123 c x.2 in client_calls i n (<[i := Client (k rw.1) b ws]> x.1, rw.2)
           | _ => x
           end
  end.

Abbreviation sstep := (shared_step 120 30 no_hook).

Lemma begin_start_steps i x : rtc sstep x (begin_start i x.1, x.2).
Proof.
  destruct x as [cs w]. unfold begin_start. cbn [fst snd].
  destruct (cs !! i) as [[[v|R c k] [] ws]|] eqn:Hi; try apply rtc_refl.
  apply rtc_once. apply (shared_start 120 30 no_hook i v ws); [done|split; lia|lia].
Qed.

Lemma begin_page_steps i op x : rtc sstep x (begin_page i op x.1, x.2).
Proof.
  destruct x as [cs w]. unfold begin_page. cbn [fst snd].
  destruct (cs !! i) as [[[v|R c k] [] ws]|] eqn:Hi; try apply rtc_refl.
  destruct (page_op op) eqn:Hop; [|apply rtc_refl].
  apply rtc_once. apply (shared_page 120 30 no_hook i v ws); [done|split; lia|done].
Qed.

Lemma client_calls_steps i n x : rtc sstep x (client_calls i n x).
Proof.
  revert x. induction n as [|n IH]; intros x; [apply rtc_refl|]. cbn.
  destruct (x.1 !! i) as [[[v|R c k] b ws]|] eqn:Hi; try apply rtc_refl. eapply rtc_l; [|apply IH].
  destruct x as [cs w]. apply (shared_call 120 30 no_hook i R c k b ws cs w 123); [done|split; lia|apply surjective_pairing].
Qed.

Definition run1 : list client * world := client_calls 1 9 (begin_start 1 (begin_start 0 clients0), live_world).
Definition run2 : list client * world := client_calls 0 9 run1.
Definition run3 : list client * world := client_calls 0 1 (begin_page 0 (OpWrite (lit "a") (JInt 1)) run2.1, run2.2).
Definition run4 : list client * world := client_calls 0 1 (begin_page 0 (OpEnd shop) run3.1, run3.2).
Definition run5 : list client * world := client_calls 1 1 (begin_page 1 (OpWrite (lit "b") (JInt 2)) run4.1, run4.2).
Definition run6 : list client * world := client_calls 0 2 run5.

Lemma two_requests : rtc sstep (clients0, live_world) run6.
Proof.
  unfold run6, run5, run4, run3, run2, run1.
  etrans; [|apply client_calls_steps]. etrans; [|apply client_calls_steps]. etrans; [|apply begin_page_steps].
  etrans; [|apply client_calls_steps]. etrans; [|apply begin_page_steps]. etrans; [|apply client_calls_steps].
  etrans; [|apply begin_page_steps]. etrans; [|apply client_calls_steps]. etrans; [|apply client_calls_steps].
  etrans; [exact (begin_start_steps 0 (clients0, live_world))|].
  exact (begin_start_steps 1 (begin_start 0 clients0, live_world)).
Qed.

Lemma clients_arriving : Forall (arriving shop_key) clients0.
Proof. repeat constructor; exists (request (Some sid)); (split; [done|]); (split; [|done]); (split; [done|]); by eexists. Qed.

Lemma session_writes_kept_witness :
  shared_session shop_key 5 120 30 run6.2
  /\ (exists order,
        (forall k, is_builtin_key k = false ->
           ci_get k (snapshot 5 run6.2)
           = ci_get k (foldl (fun m e => ci_insert e.1 e.2 m) (snapshot 5 live_world) (map snd order)))
        /\ forall i c, run6.1 !! i = Some c ->
             (exists owed, cl_writes c = writes_of i order ++ owed /\ (length owed <= 1)%nat
                /\ (forall v, cl_prog c = Done v -> owed = []))
             /\ (forall v, cl_prog c = Done v -> cl_started c = true -> vm_scope v = Some 5))
  /\ map cl_writes run6.1 = [[(lit "a", JInt 1)]; [(lit "b", JInt 2)]]
  /\ ci_get (lit "a") (snapshot 5 run6.2) = Some (JInt 1) /\ ci_get (lit "b") (snapshot 5 run6.2) = Some (JInt 2)
  /\ ci_get (lit "cart") (snapshot 5 run6.2) = Some (JInt 1).
Proof.
  pose proof two_requests as Hr. rewrite (surjective_pairing run6) in Hr.
  destruct (session_writes_kept no_hook shop_key 5 120 30 _ _ _ _ live_shared clients_arriving Hr) as [H1 H2].
  split; [exact H1|]. split; [exact H2|]. split_and!; vm_compute; reflexivity.
Defined.

(** Two applications, one cookie. *)
Definition two_apps : list turn :=
  [Arrive (Vm None (Some shop) 1800 None false false false false None); Begin 0 (lit "u1") (OpStart shop 30); Calls 0 8;
   Arrive (Vm (Some (lit "u1")) (Some (lit "Blog")) 1800 None true false false false None);
   Begin 0 (lit "u2") (OpStart (lit "Blog") 30); Begin 1 [] (OpEnd shop); Calls 0 2; Calls 1 2;
   Begin 0 (lit "u2") (OpWrite (lit "x") JNull); Calls 0 10; Calls 1 1].

Definition apps_end : list thread * world := default ([], no_sessions) (drive two_apps ([], no_sessions)).

Lemma two_apps_reachable : rtc (session_step []) ([], no_sessions) apps_end.
Proof.
  unfold apps_end. destruct (drive two_apps ([], no_sessions)) as [y|] eqn:E; [exact (drive_steps two_apps _ y E)|apply rtc_refl].
Qed.

Definition scope_of (t : thread) : option N := match t.2 with Done v => vm_scope v | Call _ _ => None end.

Lemma sessions_isolated_witness :
  (forall t t' p, t ∈ apps_end.1 -> t' ∈ apps_end.1 -> uses t p -> uses t' p -> to_lowercase t.1 = to_lowercase t'.1)
  /\ map (fun t => (t.1, scope_of t)) apps_end.1 = [(lit "Blog", Some 3); (shop, Some 0)]
  /\ map (fun e => (e.1, sd_live e.2)) (map_to_list (recs apps_end.2))
     = [(composite_key shop (lit "u1"), Some 0); (composite_key (lit "blog") (lit "u1"), Some 3)].
Proof.
  pose proof two_apps_reachable as Hr. rewrite (surjective_pairing apps_end) in Hr.
  split; [exact (proj2 (proj2 (sessions_isolated [] _ _ Hr)))|].
  split; vm_compute; reflexivity.
Defined.

(** A request of the shop names the blog with [<cfapplication>]: at its end the
    cart is in the blog's session. *)
Definition switched : state := cf_application true false 130 (lit "Blog") true None a1.

Lemma application_switch_leaks :
  recs switched.2 !! composite_key (lit "Blog") sid = None
  /\ exists s, recs (end_session true false 0 131 (lit "Blog") switched).2.2 !! composite_key (lit "Blog") sid = Some s
       /\ sd_variables s = [(lit "cart", JInt 1)].
Proof. split; [by vm_compute|]. eexists. split; vm_compute; reflexivity. Qed.

Lemma invalidated_session_returns_witness :
  recs (session_invalidate (a1.1, b1.2)).2 !! key_of a1.1 = None
  /\ exists ends vb' w' s,
       end_session true false 0 126 shop (b1.1, (session_invalidate (a1.1, b1.2)).2) = (Ok ends, (vb', w'))
       /\ recs w' !! key_of a1.1 = Some s /\ sd_variables s = own_keys (snapshot 5 b1.2) /\ expired 126 s = false.
Proof.
  apply (invalidated_session_returns 126 shop a1.1 b1.1 b1.2 5).
  - by eexists.
  - by eexists.
  - by vm_compute.
  - by vm_compute.
  - by vm_compute.
Defined.
