(* ===== verification/CfmlLexer.v ===== *)
(** * CfmlLexer: the CFML tokenizer
    (cfml-compiler: [lexer.rs], [token.rs]; cfml-common: [position.rs])

    The source vector and [pos] are the text still to be read; with the line and
    the column they form a [cursor].  A scanning loop is a recursion on that
    text, and the cursor moves to where it stopped by [advance], character by
    character.  Loops that call themselves through a nested string get the length
    of the text as fuel. *)

From Stdlib Require Import Strings.Ascii.
From stdpp Require Import base list numbers strings.
From S2P Require Import Prelude Text Float64 QoqLexer.
Local Open Scope N_scope.

Inductive cf_token :=
  | TkIdentifier (s : str) | TkInteger (i : Z) | TkDouble (d : f64) | TkString (s : str)
  | TkTrue | TkFalse | TkNull
  | TkPlus | TkMinus | TkStar | TkSlash | TkPercent | TkCaret | TkBackslash | TkAmp
  | TkEqual | TkEqualEqual | TkEqualEqualEqual | TkBang | TkBangEqual | TkBangEqualEqual
  | TkGreater | TkGreaterEqual | TkLess | TkLessEqual | TkAmpAmp | TkBarBar
  | TkPlusEqual | TkMinusEqual | TkStarEqual | TkSlashEqual | TkAmpEqual | TkPercentEqual
  | TkPlusPlus | TkMinusMinus
  | TkLParen | TkRParen | TkLBrace | TkRBrace | TkLBracket | TkRBracket | TkComma | TkDot
  | TkSemicolon | TkColon | TkColonColon | TkQuestion | TkQuestionDot | TkQuestionColon
  | TkQuestionQuestion | TkHashSign
  | TkIf | TkElse | TkElseIf | TkSwitch | TkCase | TkDefault | TkFor | TkIn | TkWhile | TkDo
  | TkBreak | TkContinue | TkReturn | TkTry | TkCatch | TkThrow | TkRethrow | TkFinally
  | TkComponent | TkProperty | TkFunction | TkPublic | TkPrivate | TkRemote | TkPackage
  | TkStatic | TkAbstract | TkFinal | TkExtends | TkImplements | TkNew | TkThis | TkSuper
  | TkInterface | TkVar | TkLocal
  | TkContains | TkNotKeyword | TkAndKeyword | TkOrKeyword | TkXorKeyword | TkEqKeyword
  | TkNeqKeyword | TkGtKeyword | TkGteKeyword | TkLtKeyword | TkLteKeyword | TkModKeyword
  | TkEqvKeyword | TkImpKeyword | TkIsKeyword
  | TkLock | TkInclude | TkImport | TkOutput | TkArrow | TkFatArrow | TkParam | TkRequired
  | TkDotDotDot
  | TkInterpolatedStringStart | TkInterpolatedStringEnd | TkInterpolatedExpr (s : str)
  | TkEof | TkError (msg : str).

#[global] Instance cf_token_eq_dec : EqDecision cf_token.
Proof. solve_decision. Defined.

(** The table of [Token::keyword]. *)
Definition cf_keywords : list (string * cf_token) :=
  [("if", TkIf); ("else", TkElse); ("elseif", TkElseIf); ("switch", TkSwitch); ("case", TkCase);
   ("default", TkDefault); ("for", TkFor); ("in", TkIn); ("while", TkWhile); ("do", TkDo);
   ("break", TkBreak); ("continue", TkContinue); ("return", TkReturn); ("try", TkTry);
   ("catch", TkCatch); ("finally", TkFinally); ("throw", TkThrow); ("rethrow", TkRethrow);
   ("component", TkComponent); ("property", TkProperty); ("function", TkFunction);
   ("public", TkPublic); ("private", TkPrivate); ("remote", TkRemote); ("package", TkPackage);
   ("static", TkStatic); ("abstract", TkAbstract); ("final", TkFinal); ("extends", TkExtends);
   ("implements", TkImplements); ("new", TkNew); ("this", TkThis); ("super", TkSuper);
   ("interface", TkInterface); ("var", TkVar); ("local", TkLocal); ("true", TkTrue);
   ("false", TkFalse); ("null", TkNull); ("lock", TkLock); ("include", TkInclude);
   ("import", TkImport); ("output", TkOutput); ("param", TkParam); ("required", TkRequired);
   ("contains", TkContains); ("not", TkNotKeyword); ("and", TkAndKeyword); ("or", TkOrKeyword);
   ("xor", TkXorKeyword); ("eq", TkEqKeyword); ("neq", TkNeqKeyword); ("gt", TkGtKeyword);
   ("gte", TkGteKeyword); ("ge", TkGteKeyword); ("lt", TkLtKeyword); ("lte", TkLteKeyword);
   ("le", TkLteKeyword); ("mod", TkModKeyword); ("eqv", TkEqvKeyword); ("imp", TkImpKeyword);
   ("is", TkIsKeyword)]%string.

(** [Token::keyword]: words of more than 32 bytes or with a character outside
    ASCII are not looked up. *)
Definition cf_keyword (s : str) : option cf_token :=
  if (32 <? length (as_bytes s))%nat || negb (str_is_ascii s) then None
  else snd <$> find (fun e => bool_decide (lit e.1 = map ascii_lower s)) cf_keywords.

(** ** Positions *)

Definition wrap_u32 (n : N) : N := n mod 2 ^ 32.

Record cf_position := Position { po_line : N; po_column : N }.
Definition position_new (line column : N) : cf_position := Position (wrap_u32 line) (wrap_u32 column).

Record source_location := SourceLocation { sl_start : cf_position; sl_end : cf_position }.

Record token_with_loc := TokenWithLoc { tl_token : cf_token; tl_location : source_location }.

Record cursor := Cursor { cu_rest : str; cu_line : N; cu_column : N }.

(** [current] is [peek 0]; the character past the end is NUL. *)
Definition peek_at (offset : nat) (s : str) : char := default 0 (s !! offset).

(** LF, or CR that no LF follows. *)
Definition ends_line (c : char) (next : char) : bool :=
  (c =? 10) || ((c =? 13) && negb (next =? 10)).

Definition cf_advance (cu : cursor) : cursor :=
  let r := drop 1 (cu_rest cu) in
  if ends_line (peek_at 0 (cu_rest cu)) (peek_at 0 r)
  then Cursor r (cu_line cu + 1) 1
  else Cursor r (cu_line cu) (cu_column cu + 1).

(** [advance], once for each character before the suffix [r]. *)
Definition advance_to (r : str) (cu : cursor) : cursor :=
  Nat.iter (length (cu_rest cu) - length r) cf_advance cu.

Definition here (cu : cursor) : cf_position := position_new (cu_line cu) (cu_column cu).

(** ** Words and numbers *)

Definition word_char (c : char) : bool :=
  is_ascii_alpha c || is_ascii_digit c || (c =? 95) || (c =? 36).
Definition word_start (c : char) : bool := is_ascii_alpha c || (c =? 95) || (c =? 36).

(** The parts of a numeric literal: what belongs to them, and the rest. *)
Definition number_fraction (s : str) : str * str :=
  if peek_is "." s && is_ascii_digit (peek_at 1 s)
  then let '(f, r) := span is_ascii_digit (drop 1 s) in (chr "." :: f, r)
  else ([], s).

Definition number_sign (s : str) : str * str :=
  if peek_is "+" s || peek_is "-" s then (take 1 s, drop 1 s) else ([], s).

Definition number_exponent (s : str) : str * str :=
  match s with
  | c :: r =>
      if ch_is "e" c || ch_is "E" c then
        let '(sign, r) := number_sign r in
        let '(x, r) := span is_ascii_digit r in (c :: sign ++ x, r)
      else ([], s)
  | [] => ([], [])
  end.

(** The literal after its first character. *)
Definition number_tail (s : str) : str * str :=
  let '(d, s) := span is_ascii_digit s in
  let '(f, s) := number_fraction s in
  let '(e, s) := number_exponent s in
  (d ++ f ++ e, s).

Definition number_value (value : str) : cf_token :=
  let as_double := TkDouble (default f64_zero (parse_f64 value)) in
  if existsb (fun c => ch_is "." c || ch_is "e" c || ch_is "E" c) value then as_double
  else match parse_i64 value with Some i => TkInteger i | None => as_double end.

(** ** Comments: the rest of the text after each *)

Definition line_end (c : char) : bool := (c =? 10) || (c =? 13).
Definition single_line_comment (s : str) : str := (span (fun c => negb (line_end c)) s).2.

Definition opens_tag_comment (s : str) : bool := bool_decide (take 5 s = lit "<!---").
Definition closes_tag_comment (s : str) : bool := bool_decide (take 4 s = lit "--->").

(** From inside [depth + 1] tag comments. *)
Fixpoint tag_comment (fuel depth : nat) (s : str) : str :=
  match fuel, s with
  | S fuel, _ :: s' =>
      if opens_tag_comment s then tag_comment fuel (S depth) (drop 5 s)
      else if closes_tag_comment s then
        match depth with
        | O => drop 4 s
        | S depth => tag_comment fuel depth (drop 4 s)
        end
      else tag_comment fuel depth s'
  | _, _ => s
  end.

(** The text up to the closing mark, and the rest after it. *)
Fixpoint comment_body (s : str) : str * str :=
  match s with
  | [] => ([], [])
  | c :: s' =>
      if ch_is "*" c && peek_is "/" s' then ([], drop 1 s')
      else let '(b, r) := comment_body s' in (c :: b, r)
  end.

(** The javadoc text, if it is one, and the rest. *)
Definition multi_line_comment (s : str) : option str * str :=
  let is_doc := peek_is "*" s && negb (peek_at 1 s =? chr "/") in
  let '(content, r) := comment_body (if is_doc then drop 1 s else s) in
  (if is_doc then Some content else None, r).

Section CfmlLexer.
Context {U : Unicode}.

(** ** Strings inside an interpolation *)

Definition operator_words : list string :=
  ["and"; "or"; "xor"; "eq"; "neq"; "ne"; "gt"; "gte"; "lt"; "lte"; "contains"; "is"; "mod"; "eqv"; "imp"]%string.

Definition opens_value (c : char) : bool := existsb (N.eqb c) (lit "([{,:?=!<>+-*/%&|^").

(** The longest suffix of word characters. *)
Definition last_word (s : str) : str := rev (span word_char (rev s)).1.

Definition can_start_interpolation_string_literal (expr : str) : bool :=
  let trimmed := trim_end expr in
  match last trimmed with
  | None => true
  | Some previous =>
      opens_value previous
      || word_char previous
         && existsb (fun w => bool_decide (lit w = map ascii_lower (last_word trimmed))) operator_words
  end.

Definition is_quote (c : char) : bool := (c =? 34) || (c =? 39).
Definition hash : char := chr "#".

(** The running bracket depth. *)
Definition bracket_depth (c : char) (depth : Z) : Z :=
  if ch_is "(" c || ch_is "[" c then (depth + 1)%Z
  else if ch_is ")" c || ch_is "]" c then (depth - 1)%Z else depth.

(** What is appended to [out], and the rest of the text: a string after its
    opening quote, and an interpolation after its opening hash. *)
Fixpoint consume_string_literal (fuel : nat) (quote : char) (s : str) : str * str :=
  match fuel, s with
  | S fuel, c :: s' =>
      if c =? quote then
        if peek_at 0 s' =? quote
        then let '(o, r) := consume_string_literal fuel quote (drop 1 s') in (quote :: quote :: o, r)
        else ([quote], s')
      else if c =? hash then
        if peek_at 0 s' =? hash
        then let '(o, r) := consume_string_literal fuel quote (drop 1 s') in (hash :: hash :: o, r)
        else let '(i, r) := consume_interpolation fuel 0 [] s' in
             let '(o, r) := consume_string_literal fuel quote r in (hash :: i ++ o, r)
      else let '(o, r) := consume_string_literal fuel quote s' in (c :: o, r)
  | _, _ => ([], s)
  end
with consume_interpolation (fuel : nat) (depth : Z) (expr_buf : str) (s : str) : str * str :=
  match fuel, s with
  | S fuel, c :: s' =>
      if (c =? hash) && (depth =? 0)%Z then ([hash], s')
      else if is_quote c && can_start_interpolation_string_literal expr_buf then
        let '(l, r) := consume_string_literal fuel c s' in
        let '(o, r) := consume_interpolation fuel depth (expr_buf ++ [c]) r in (c :: l ++ o, r)
      else let '(o, r) := consume_interpolation fuel (bracket_depth c depth) (expr_buf ++ [c]) s' in
           (c :: o, r)
  | _, _ => ([], s)
  end.

(** ** String literals *)

(** How the scan of an interpolation ends: with its expression at the closing
    hash (the rest after it), at the quote that ends the string, or at the end
    of the text. *)
Inductive expr_end := ExprClosed (expr r : str) | ExprAtQuote (r : str) | ExprAtEnd.

Fixpoint scan_expr (fuel : nat) (quote : char) (depth : Z) (expr s : str) : expr_end :=
  match fuel, s with
  | S fuel, c :: s' =>
      if (c =? hash) && (depth =? 0)%Z then ExprClosed expr s'
      else if is_quote c && can_start_interpolation_string_literal expr then
        let '(l, r) := consume_string_literal (length s') c s' in
        scan_expr fuel quote depth (expr ++ c :: l) r
      else
        let depth := bracket_depth c depth in
        if (c =? quote) && (depth <=? 0)%Z then ExprAtQuote s
        else scan_expr fuel quote depth (expr ++ [c]) s'
  | _, _ => ExprAtEnd
  end.

(** What a string literal holds: its parts with the text after the last, and the
    rest of the text at the closing quote; or an unterminated interpolation, with
    the texts at its hash and at its end. *)
Inductive string_end :=
  | StringParts (parts : list (bool * str)) (has_interpolation : bool) (current r : str)
  | StringError (at_hash at_end : str).

Definition push_part (is_expr : bool) (s : str) (parts : list (bool * str)) : list (bool * str) :=
  match s with [] => parts | _ => parts ++ [(is_expr, s)] end.

Fixpoint scan_string (fuel : nat) (quote : char) (parts : list (bool * str)) (has : bool)
    (current s : str) : string_end :=
  match fuel, s with
  | S fuel, c :: s' =>
      if c =? quote then
        if peek_at 0 s' =? quote then scan_string fuel quote parts has (current ++ [quote]) (drop 1 s')
        else StringParts parts has current s
      else if c =? chr "\" then scan_string fuel quote parts has (current ++ [c]) s'
      else if (c =? hash) && (peek_at 0 s' =? hash)
      then scan_string fuel quote parts has (current ++ [hash]) (drop 1 s')
      else if (c =? hash) && (peek_at 0 s' =? quote)
      then scan_string fuel quote parts has (current ++ [hash]) s'
      else if c =? hash then
        match scan_expr (length s') quote 0 [] s' with
        | ExprClosed expr r =>
            scan_string fuel quote (push_part true expr (push_part false current parts)) true [] r
        | ExprAtQuote r => StringError s r
        | ExprAtEnd => StringError s []
        end
      else scan_string fuel quote parts has (current ++ [c]) s'
  | _, _ => StringParts parts has current s
  end.

Definition part_token (e : bool * str) : cf_token :=
  if e.1 then TkInterpolatedExpr e.2 else TkString e.2.

Definition unterminated_in_string : str := lit
  "Unterminated '#' interpolation in string: a '#' opened an interpolation that was never closed before the end of the string literal. Escape a literal hash as '##'.".
Definition unterminated_at_end : str := lit
  "Unterminated '#' interpolation in string: a '#' opened an interpolation that was never closed before end of file. Escape a literal hash as '##'.".

(** [string], after the opening quote: the tokens it pushes, and the cursor. *)
Definition cf_string (quote : char) (cu : cursor) : list token_with_loc * cursor :=
  let s := cu_rest cu in
  match scan_string (length s) quote [] false [] s with
  | StringParts parts has current r =>
      let cu' := advance_to (drop 1 r) cu in
      let loc := SourceLocation (here cu) (here cu') in
      (map (fun t => TokenWithLoc t loc)
         (if has then TkInterpolatedStringStart
                      :: map part_token (push_part false current parts) ++ [TkInterpolatedStringEnd]
          else [TkString current]), cu')
  | StringError at_hash r =>
      let loc := SourceLocation (here (advance_to at_hash cu)) (here (advance_to r cu)) in
      let msg := match r with [] => unterminated_at_end | _ => unterminated_in_string end in
      ([TokenWithLoc (TkError msg) loc], advance_to (drop 1 r) cu)
  end.

(** ** The scanner *)

Record cf_lexer := CfLexer {
  lx_cursor : cursor;
  lx_tokens : list token_with_loc;
  (** index of the token a javadoc comment precedes, and its text *)
  lx_doc_comments : list (nat * str);
  (** token index and spelling of keywords not written in their canonical form *)
  lx_raw_spellings : list (N * str);
}.

Definition push_tokens (ts : list token_with_loc) (cu : cursor) (l : cf_lexer) : cf_lexer :=
  CfLexer cu (lx_tokens l ++ ts) (lx_doc_comments l) (lx_raw_spellings l).

Definition move_to (cu : cursor) (l : cf_lexer) : cf_lexer := push_tokens [] cu l.

Definition prev_is_member_target (l : cf_lexer) : bool :=
  match tl_token <$> last (lx_tokens l) with
  | Some (TkIdentifier _ | TkRParen | TkRBracket | TkInteger _ | TkDouble _ | TkString _) => true
  | _ => false
  end.

(** [number] and [identifier] are entered after the first character. *)
Definition cf_number (first : char) (cu : cursor) (l : cf_lexer) : cf_lexer :=
  let '(tail, r) := number_tail (cu_rest cu) in
  let cu' := advance_to r cu in
  push_tokens
    [TokenWithLoc (number_value (first :: tail))
       (SourceLocation (position_new (cu_line cu') (cu_column cu - 1)) (here cu'))] cu' l.

Definition is_alias (value : str) : bool :=
  eq_ignore_ascii_case value (lit "le") || eq_ignore_ascii_case value (lit "ge").
Definition is_ascii_uppercase (c : char) : bool := (65 <=? c) && (c <=? 90).

Definition cf_identifier (first : char) (cu : cursor) (l : cf_lexer) : cf_lexer :=
  let '(tail, r) := span word_char (cu_rest cu) in
  let cu' := advance_to r cu in
  let value := first :: tail in
  let '(token, raw) := match cf_keyword value with
                       | Some kw =>
                           (kw, if is_alias value || existsb is_ascii_uppercase value
                                then [(wrap_u32 (N.of_nat (length (lx_tokens l))), value)] else [])
                       | None => (TkIdentifier value, [])
                       end in
  let loc := SourceLocation (position_new (cu_line cu') (cu_column cu - 1)) (here cu') in
  CfLexer cu' (lx_tokens l ++ [TokenWithLoc token loc]) (lx_doc_comments l) (lx_raw_spellings l ++ raw).

(** The operators: the token that starts with [c] before [s], and how many
    characters of [s] belong to it. *)
Definition operator_token (c : char) (s : str) : option (cf_token * nat) :=
  if ch_is "(" c then Some (TkLParen, 0%nat)
  else if ch_is ")" c then Some (TkRParen, 0%nat)
  else if ch_is "{" c then Some (TkLBrace, 0%nat)
  else if ch_is "}" c then Some (TkRBrace, 0%nat)
  else if ch_is "[" c then Some (TkLBracket, 0%nat)
  else if ch_is "]" c then Some (TkRBracket, 0%nat)
  else if ch_is "," c then Some (TkComma, 0%nat)
  else if ch_is "." c then
    if peek_is "." s && (peek_at 1 s =? chr ".") then Some (TkDotDotDot, 2%nat) else Some (TkDot, 0%nat)
  else if ch_is ";" c then Some (TkSemicolon, 0%nat)
  else if ch_is ":" c then if peek_is ":" s then Some (TkColonColon, 1%nat) else Some (TkColon, 0%nat)
  else if ch_is "^" c then Some (TkCaret, 0%nat)
  else if ch_is "#" c then Some (TkHashSign, 0%nat)
  else if ch_is "\" c then Some (TkBackslash, 0%nat)
  else if ch_is "?" c then
    if peek_is "." s then Some (TkQuestionDot, 1%nat)
    else if peek_is ":" s then Some (TkQuestionColon, 1%nat)
    else if peek_is "?" s then Some (TkQuestionQuestion, 1%nat) else Some (TkQuestion, 0%nat)
  else if ch_is "+" c then
    if peek_is "=" s then Some (TkPlusEqual, 1%nat)
    else if peek_is "+" s then Some (TkPlusPlus, 1%nat) else Some (TkPlus, 0%nat)
  else if ch_is "-" c then
    if peek_is "=" s then Some (TkMinusEqual, 1%nat)
    else if peek_is "-" s then Some (TkMinusMinus, 1%nat)
    else if peek_is ">" s then Some (TkArrow, 1%nat) else Some (TkMinus, 0%nat)
  else if ch_is "*" c then if peek_is "=" s then Some (TkStarEqual, 1%nat) else Some (TkStar, 0%nat)
  else if ch_is "/" c then if peek_is "=" s then Some (TkSlashEqual, 1%nat) else Some (TkSlash, 0%nat)
  else if ch_is "%" c then if peek_is "=" s then Some (TkPercentEqual, 1%nat) else Some (TkPercent, 0%nat)
  else if ch_is "&" c then
    if peek_is "&" s then Some (TkAmpAmp, 1%nat)
    else if peek_is "=" s then Some (TkAmpEqual, 1%nat) else Some (TkAmp, 0%nat)
  else if ch_is "|" c then if peek_is "|" s then Some (TkBarBar, 1%nat) else None
  else if ch_is "=" c then
    if peek_is "=" s then
      if peek_at 1 s =? chr "=" then Some (TkEqualEqualEqual, 2%nat) else Some (TkEqualEqual, 1%nat)
    else if peek_is ">" s then Some (TkFatArrow, 1%nat) else Some (TkEqual, 0%nat)
  else if ch_is "!" c then
    if peek_is "=" s then
      if peek_at 1 s =? chr "=" then Some (TkBangEqualEqual, 2%nat) else Some (TkBangEqual, 1%nat)
    else Some (TkBang, 0%nat)
  else if ch_is ">" c then if peek_is "=" s then Some (TkGreaterEqual, 1%nat) else Some (TkGreater, 0%nat)
  else if ch_is "<" c then
    if peek_is "=" s then Some (TkLessEqual, 1%nat)
    else if peek_is ">" s then Some (TkBangEqual, 1%nat) else Some (TkLess, 0%nat)
  else None.

Definition scan_operator (c : char) (start : cf_position) (cu : cursor) (l : cf_lexer) : cf_lexer :=
  match operator_token c (cu_rest cu) with
  | Some (t, n) =>
      let cu' := Nat.iter n cf_advance cu in
      push_tokens [TokenWithLoc t (SourceLocation start (here cu'))] cu' l
  | None => move_to cu l
  end.

Definition scan_token (l : cf_lexer) : cf_lexer :=
  let start := here (lx_cursor l) in
  let c := peek_at 0 (cu_rest (lx_cursor l)) in
  let cu := cf_advance (lx_cursor l) in
  let s := cu_rest cu in
  if ch_is "." c && negb (peek_is "." s && (peek_at 1 s =? chr ".")) && is_ascii_digit (peek_at 0 s)
     && negb (prev_is_member_target l)
  then cf_number c cu l
  else if ch_is "/" c && peek_is "/" s then move_to (advance_to (single_line_comment (drop 1 s)) cu) l
  else if ch_is "/" c && peek_is "*" s then
    let '(doc, r) := multi_line_comment (drop 1 s) in
    let docs := match doc with Some d => [(length (lx_tokens l), d)] | None => [] end in
    CfLexer (advance_to r cu) (lx_tokens l) (lx_doc_comments l ++ docs) (lx_raw_spellings l)
  else if ch_is "<" c && bool_decide (take 4 s = lit "!---")
  then move_to (advance_to (tag_comment (length s) 0 (drop 4 s)) cu) l
  else if is_quote c then let '(ts, cu') := cf_string c cu in push_tokens ts cu' l
  else if is_ascii_digit c then cf_number c cu l
  else if word_start c then cf_identifier c cu l
  else scan_operator c start cu l.

Definition cf_lexer_new (source : str) : cf_lexer := CfLexer (Cursor source 1 1) [] [] [].

Fixpoint scan_all (fuel : nat) (l : cf_lexer) : cf_lexer :=
  match fuel, cu_rest (lx_cursor l) with
  | S fuel, _ :: _ => scan_all fuel (scan_token l)
  | _, _ => l
  end.

(** [tokenize]: the lexer after its loop, with the end marker. *)
Definition cf_lex (source : str) : cf_lexer :=
  let l := scan_all (length source) (cf_lexer_new source) in
  let p := here (lx_cursor l) in
  push_tokens [TokenWithLoc TkEof (SourceLocation p p)] (lx_cursor l) l.

Definition cf_tokenize (source : str) : list token_with_loc := lx_tokens (cf_lex source).
End CfmlLexer.

#[global] Arguments cf_advance : simpl never.
