(* ===== verification/CfmlLexerFacts.v ===== *)
(** * CfmlLexerFacts: progress, fuel and positions of the CFML tokenizer *)

From Stdlib Require Import Strings.Ascii.
From stdpp Require Import base list numbers strings.
From S2P Require Import Prelude Text Float64 QoqLexer CfmlLexer.
Local Open Scope nat_scope.
#[local] Arguments chr : simpl never.

(** ** Every loop stops at a suffix of its text *)

Lemma suffix_drop (n : nat) (s : str) : drop n s `suffix_of` s.
Proof. exists (take n s). by rewrite take_drop. Qed.

Lemma suffix_drop' (n : nat) (r s : str) : r `suffix_of` s -> drop n r `suffix_of` s.
Proof. intros H. etrans; [apply suffix_drop|done]. Qed.

Lemma suffix_drop_length (r s : str) : r `suffix_of` s -> r = drop (length s - length r) s.
Proof.
  intros [p ->]. rewrite length_app. replace (length p + length r - length r) with (length p) by lia.
  by rewrite drop_app_length.
Qed.

#[export] Hint Resolve suffix_drop suffix_drop' : cfml.

Lemma span_suffix p s : (span p s).2 `suffix_of` s.
Proof.
  induction s as [|c s IH]; simpl; [done|]. case_match; [|done].
  destruct (span p s); simpl in *. by apply suffix_cons_r.
Qed.

Lemma span_app p s : (span p s).1 ++ (span p s).2 = s.
Proof. induction s as [|c s IH]; simpl; [done|]. case_match; [|done]. destruct (span p s); simpl in *. by f_equal. Qed.

(** A scan that returns what it took and the rest. *)
Definition splits (f : str -> str * str) : Prop := forall s, (f s).1 ++ (f s).2 = s.

Lemma splits_span p : splits (span p).
Proof. intros s. apply span_app. Qed.

Lemma splits_fraction : splits number_fraction.
Proof.
  intros s. unfold number_fraction. case_match eqn:E; [|done].
  destruct s as [|c s]; [done|]. apply andb_true_iff in E as [E _]. apply N.eqb_eq in E as ->.
  rewrite skipn_cons, drop_0.
  pose proof (span_app is_ascii_digit s) as H. destruct (span is_ascii_digit s). cbn in *. by rewrite H.
Qed.

Lemma splits_sign : splits number_sign.
Proof. intros s. unfold number_sign. case_match; [apply take_drop|done]. Qed.

Lemma splits_exponent : splits number_exponent.
Proof.
  intros [|c s]; [done|]. cbn [number_exponent]. case_match; [|done].
  pose proof (splits_sign s) as H1. destruct (number_sign s) as [g s1].
  pose proof (span_app is_ascii_digit s1) as H2. destruct (span is_ascii_digit s1).
  cbn in *. by rewrite <-app_assoc, H2, H1.
Qed.

Lemma splits_number : splits number_tail.
Proof.
  intros s. unfold number_tail.
  pose proof (span_app is_ascii_digit s) as H0. destruct (span is_ascii_digit s) as [d s0].
  pose proof (splits_fraction s0) as H1. destruct (number_fraction s0) as [f s1].
  pose proof (splits_exponent s1) as H2. destruct (number_exponent s1) as [e s2].
  cbn in *. by rewrite <-!app_assoc, H2, H1.
Qed.

Lemma splits_suffix f s : splits f -> (f s).2 `suffix_of` s.
Proof. intros H. exists (f s).1. by rewrite H. Qed.

Lemma tag_comment_suffix fuel depth s : tag_comment fuel depth s `suffix_of` s.
Proof.
  revert depth s. induction fuel as [|n IH]; intros d [|c s]; try done. cbn [tag_comment].
  assert (Hs : s `suffix_of` c :: s) by by apply suffix_cons_r.
  case_match; [etrans; [apply IH|apply suffix_drop]|].
  case_match; [|etrans; [apply IH|done]].
  destruct d; [apply suffix_drop|]. etrans; [apply IH|apply suffix_drop].
Qed.

Lemma comment_body_suffix s : (comment_body s).2 `suffix_of` s.
Proof.
  induction s as [|c s IH]; [done|]. cbn [comment_body]. case_match.
  - by apply suffix_cons_r, suffix_drop.
  - destruct (comment_body s). by apply suffix_cons_r.
Qed.

Lemma multi_line_comment_suffix s : (multi_line_comment s).2 `suffix_of` s.
Proof.
  unfold multi_line_comment. set (t := if (_ : bool) then drop 1 s else s).
  pose proof (comment_body_suffix t). destruct (comment_body t). cbn in *.
  etrans; [done|]. subst t. case_match; auto with cfml.
Qed.

Section Nested.
Context {U : Unicode}.

(** A nested string or interpolation is copied as it is written. *)
Lemma quote_not_nul c : is_quote c = true -> c <> 0%N.
Proof. by intros H ->. Qed.

Lemma splits_nested fuel :
  (forall q, q <> 0%N -> splits (consume_string_literal fuel q))
  /\ (forall depth buf, splits (consume_interpolation fuel depth buf)).
Proof.
  induction fuel as [|n [IHs IHi]]; [by split; intros; intros []|].
  split; [intros q Hq [|c s]; [done|]; specialize (IHs q Hq)|intros depth buf [|c s]; [done|]].
  - cbn [consume_string_literal]. destruct (N.eqb_spec c q) as [->|_].
    + destruct (N.eqb_spec (peek_at 0 s) q) as [Hp|_]; [|done].
      destruct s as [|c s]; [done|]. cbn in Hp; subst c.
      rewrite skipn_cons, drop_0. specialize (IHs s).
      destruct (consume_string_literal n q s); cbn in *; by rewrite IHs.
    + destruct (N.eqb_spec c hash) as [->|_].
      * destruct (N.eqb_spec (peek_at 0 s) hash) as [Hp|_].
        -- destruct s as [|c s]; [done|]. cbn in Hp; subst c. rewrite skipn_cons, drop_0.
           specialize (IHs s). destruct (consume_string_literal n q s); cbn in *; by rewrite IHs.
        -- specialize (IHi 0%Z [] s). destruct (consume_interpolation n 0 [] s) as [i r].
           specialize (IHs r). destruct (consume_string_literal n q r). cbn in *.
           by rewrite <-app_assoc, IHs, IHi.
      * specialize (IHs s). destruct (consume_string_literal n q s); cbn in *; by rewrite IHs.
  - cbn [consume_interpolation]. case_match eqn:E.
    + apply andb_true_iff in E as [->%N.eqb_eq _]. done.
    + case_match eqn:Eq.
      * specialize (IHs c (quote_not_nul c (proj1 (andb_prop _ _ Eq))) s). destruct (consume_string_literal n c s) as [l r].
        specialize (IHi depth (buf ++ [c]) r). destruct (consume_interpolation n _ _ r). cbn in *.
        by rewrite <-app_assoc, IHi, IHs.
      * specialize (IHi (bracket_depth c depth) (buf ++ [c]) s).
        destruct (consume_interpolation n _ _ s). cbn in *. by rewrite IHi.
Qed.

Lemma nested_length n :
  (forall q s, length (consume_string_literal n q s).2 <= length s)
  /\ (forall d b s, length (consume_interpolation n d b s).2 <= length s).
Proof.
  induction n as [|n [IHs IHi]]; [done|]. split; [intros q [|c s]|intros d b [|c s]]; try done.
  - cbn [consume_string_literal length]. pose proof (IHs q s). pose proof (IHs q (drop 1 s)) as Hd.
    rewrite length_drop in Hd. pose proof (IHi 0%Z [] s).
    destruct (consume_interpolation n 0 [] s) as [i r]. pose proof (IHs q r).
    destruct (consume_string_literal n q (drop 1 s)), (consume_string_literal n q s), (consume_string_literal n q r).
    repeat case_match; cbn in *; lia.
  - cbn [consume_interpolation length]. pose proof (IHs c s).
    pose proof (IHi (bracket_depth c d) (b ++ [c]) s). destruct (consume_string_literal n c s) as [l r].
    pose proof (IHi d (b ++ [c]) r).
    destruct (consume_interpolation n _ _ r), (consume_interpolation n _ _ s).
    repeat case_match; cbn in *; lia.
Qed.

Lemma consume_string_length n q s : length (consume_string_literal n q s).2 <= length s.
Proof. apply nested_length. Qed.
Lemma consume_interpolation_length n d b s : length (consume_interpolation n d b s).2 <= length s.
Proof. apply nested_length. Qed.

(** The length of the text is enough fuel. *)
Lemma nested_fuel n :
  (forall m q s, length s <= n -> length s <= m ->
     consume_string_literal n q s = consume_string_literal m q s)
  /\ (forall m d b s, length s <= n -> length s <= m ->
     consume_interpolation n d b s = consume_interpolation m d b s).
Proof.
  induction n as [|n [IHs IHi]].
  { split; [intros [|m] ? [|]|intros [|m] ? ? [|]]; simpl; lia || done. }
  split; [intros [|m] q [|c s] Hn Hm|intros [|m] d b [|c s] Hn Hm]; try done; cbn in Hn, Hm; try lia.
  - cbn [consume_string_literal].
    rewrite (IHs m q s), (IHi m 0%Z [] s), (IHs m q (drop 1 s)) by (rewrite ?length_drop; lia).
    pose proof (consume_interpolation_length m 0 [] s) as Hl.
    destruct (consume_interpolation m 0 [] s) as [i r]; cbn in Hl.
    by rewrite (IHs m q r) by lia.
  - cbn [consume_interpolation]. rewrite (IHs m c s), (IHi m _ _ s) by lia.
    pose proof (consume_string_length m c s) as Hl.
    destruct (consume_string_literal m c s) as [l r]; cbn in Hl. by rewrite (IHi m _ _ r) by lia.
Qed.

Lemma string_literal_fuel n m q s : length s <= n -> length s <= m ->
  consume_string_literal n q s = consume_string_literal m q s.
Proof. apply nested_fuel. Qed.

(** Where [scan_expr] stops. *)
Definition expr_stop (quote : char) (expr s : str) (e : expr_end) : Prop :=
  match e with
  | ExprClosed expr' r => exists t, expr' = expr ++ t /\ s = t ++ hash :: r
  | ExprAtQuote r => r `suffix_of` s /\ exists r', r = quote :: r'
  | ExprAtEnd => True
  end.

Lemma expr_stop_app quote expr p s e :
  expr_stop quote (expr ++ p) s e -> expr_stop quote expr (p ++ s) e.
Proof.
  destruct e as [expr' r|r|]; cbn; [|intros [H1 H2]; split; [by apply suffix_app_r|done]|done].
  intros (t & -> & ->). exists (p ++ t). by rewrite !app_assoc.
Qed.

Lemma scan_expr_stop n quote d expr s : expr_stop quote expr s (scan_expr n quote d expr s).
Proof.
  revert d expr s. induction n as [|n IH]; intros d expr [|c s]; try done. cbn [scan_expr].
  case_match eqn:E1.
  { apply andb_true_iff in E1 as [->%N.eqb_eq _]. exists []. by rewrite app_nil_r. }
  case_match eqn:Eq.
  { apply andb_true_iff in Eq as [Eq _].
    pose proof (proj1 (splits_nested (length s)) c (quote_not_nul c Eq) s) as Hs.
    destruct (consume_string_literal _ c s) as [l r]. cbn in Hs. subst s.
    rewrite app_comm_cons. apply expr_stop_app, IH. }
  case_match eqn:E2.
  { apply andb_true_iff in E2 as [->%N.eqb_eq _]. cbn. eauto. }
  apply (expr_stop_app quote expr [c] s), IH.
Qed.

Lemma scan_expr_fuel n m quote d expr s : length s <= n -> length s <= m ->
  scan_expr n quote d expr s = scan_expr m quote d expr s.
Proof.
  revert m d expr s. induction n as [|n IH]; intros [|m] d expr [|c s] Hn Hm; try done; cbn in Hn, Hm; try lia.
  cbn [scan_expr]. pose proof (consume_string_length (length s) c s) as Hl.
  destruct (consume_string_literal (length s) c s) as [l r]; cbn in Hl.
  by rewrite (IH m d _ r), (IH m _ _ s) by lia.
Qed.

(** Where [scan_string] stops: at the closing quote or the end of the text. *)
Definition string_stop (quote : char) (s : str) (e : string_end) : Prop :=
  match e with
  | StringParts _ _ _ r => r `suffix_of` s /\ (r = [] \/ exists r', r = quote :: r')
  | StringError h r => h `suffix_of` s /\ r `suffix_of` h /\ exists h', h = hash :: h'
  end.

Lemma string_stop_suffix quote r s e : r `suffix_of` s -> string_stop quote r e -> string_stop quote s e.
Proof. destruct e; cbn; intros H [H1 H2]; split; auto; etrans; eauto. Qed.

Lemma scan_string_stop n quote parts has cur s :
  length s <= n -> string_stop quote s (scan_string n quote parts has cur s).
Proof.
  revert parts has cur s. induction n as [|n IH]; intros parts has cur [|c s] Hn; cbn in Hn; try lia;
    [cbn; auto..|].
  assert (Hs : s `suffix_of` c :: s) by by apply suffix_cons_r.
  assert (H1 : forall ps h k, string_stop quote (c :: s) (scan_string n quote ps h k s))
    by (intros; eapply string_stop_suffix; [exact Hs|apply IH; lia]).
  assert (H2 : forall ps h k, string_stop quote (c :: s) (scan_string n quote ps h k (drop 1 s))).
  { intros; eapply string_stop_suffix; [|apply IH; rewrite length_drop; lia]. etrans; [apply suffix_drop|done]. }
  cbn [scan_string]. destruct (N.eqb_spec c quote) as [->|_]; [case_match; [apply H2|cbn; eauto]|].
  repeat (case_match; [by auto|]). case_match eqn:Eh; [|apply H1]. apply N.eqb_eq in Eh as ->.
  pose proof (scan_expr_stop (length s) quote 0 [] s) as He. destruct (scan_expr _ _ _ _ s) as [x r|r|]; cbn in He.
  - destruct He as (t & -> & ->). eapply string_stop_suffix; [|apply IH].
    + exists (hash :: t ++ [hash]). by rewrite <-app_comm_cons, <-app_assoc.
    + rewrite length_app in Hn. cbn in Hn. lia.
  - destruct He as [He _]. cbn. split_and!; [done|by apply suffix_cons_r|eauto].
  - cbn. split_and!; [done|apply suffix_nil|eauto].
Qed.

Lemma scan_string_fuel n m quote parts has cur s : length s <= n -> length s <= m ->
  scan_string n quote parts has cur s = scan_string m quote parts has cur s.
Proof.
  revert m parts has cur s. induction n as [|n IH]; intros [|m] parts has cur [|c s] Hn Hm; try done; cbn in Hn, Hm; try lia.
  cbn [scan_string]. rewrite !(IH m _ _ _ s), !(IH m _ _ _ (drop 1 s)) by (rewrite ?length_drop; lia).
  repeat case_match; try done. rename select (scan_expr _ _ _ _ _ = _) into E.
  pose proof (scan_expr_stop (length s) quote 0 [] s) as He. rewrite E in He.
  destruct He as (t & -> & ->). apply IH; rewrite length_app in Hn, Hm; cbn in *; lia.
Qed.
End Nested.

(** ** Positions

    The reference: line breaks of a text are the offsets of LF and of a CR that
    no LF follows; a line is counted from the breaks before the offset, a column
    from the last of them. *)

Definition is_break (src : str) (i : nat) : bool :=
  match drop i src with
  | c :: r => bool_decide (c = 10%N \/ c = 13%N /\ head r <> Some 10%N)
  | [] => false
  end.
Definition breaks (src : str) (k : nat) : list nat := filter (fun i => is_break src i = true) (seq 0 k).
Definition line_at (src : str) (k : nat) : N := N.of_nat (S (length (breaks src k))).
Definition column_at (src : str) (k : nat) : N :=
  N.of_nat (match last (breaks src k) with Some i => k - i | None => S k end).
Definition pos_at (src : str) (k : nat) : cf_position := position_new (line_at src k) (column_at src k).

(** The cursor stands at offset [k]. *)
Definition at_offset (src : str) (k : nat) (cu : cursor) : Prop :=
  k <= length src /\ cu_rest cu = drop k src /\ cu_line cu = line_at src k /\ cu_column cu = column_at src k.

Lemma is_break_ends src i : is_break src i = ends_line (peek_at i src) (peek_at (S i) src).
Proof.
  assert (Hp : forall n, peek_at (i + n) src = peek_at n (drop i src)) by (intros; unfold peek_at; by rewrite lookup_drop).
  rewrite <-(Nat.add_0_r i) at 2. rewrite <-Nat.add_1_r, !Hp. unfold is_break, ends_line.
  destruct (drop i src) as [|c [|d r]]; [done|..]; unfold peek_at; cbn [lookup list_lookup default head]; apply Bool.eq_iff_eq_true; rewrite bool_decide_eq_true,
    orb_true_iff, andb_true_iff, negb_true_iff, !N.eqb_eq, N.eqb_neq; naive_solver.
Qed.

Lemma breaks_S src k : breaks src (S k) = breaks src k ++ (if is_break src k then [k] else []).
Proof.
  unfold breaks. rewrite seq_S, filter_app. f_equal. cbn.
  unfold filter, list_filter. case_decide as H; by destruct (is_break src k).
Qed.

Lemma peek_at_drop n k (s : str) : peek_at n (drop k s) = peek_at (k + n) s.
Proof. unfold peek_at. by rewrite lookup_drop. Qed.

Lemma breaks_last src k i : last (breaks src k) = Some i -> i < k.
Proof.
  intros H%last_Some_elem_of. unfold breaks in H. apply list_elem_of_filter in H as [_ H].
  apply elem_of_seq in H. lia.
Qed.

Lemma advance_at src k cu : k < length src -> at_offset src k cu -> at_offset src (S k) (cf_advance cu).
Proof.
  intros Hk (_ & Hr & Hl & Hc). unfold cf_advance, at_offset.
  rewrite Hr, drop_drop, !peek_at_drop, Nat.add_0_r. replace (k + 1 + 0) with (S k) by lia.
  replace (k + 1) with (S k) by lia.
  assert (Hb : ends_line (peek_at k src) (peek_at (S k) src) = is_break src k) by by rewrite is_break_ends.
  rewrite Hb. unfold line_at, column_at in *. rewrite breaks_S, last_app.
  destruct (is_break src k); cbn [cu_rest cu_line cu_column last]; repeat split; try done;
    rewrite ?Hl, ?Hc, ?app_nil_r, ?length_app; cbn [length]; try lia.
  destruct (last (breaks src k)) eqn:E; [apply breaks_last in E|]; lia.
Qed.

Lemma advance_iter_at src n k cu :
  k + n <= length src -> at_offset src k cu -> at_offset src (k + n) (Nat.iter n cf_advance cu).
Proof.
  intros Hn Hk. induction n as [|n IH]; cbn; [by rewrite Nat.add_0_r|].
  rewrite Nat.add_succ_r. apply advance_at; [lia|]. apply IH. lia.
Qed.

Lemma advance_to_at src k cu r :
  at_offset src k cu -> r `suffix_of` cu_rest cu ->
  exists k', at_offset src k' (advance_to r cu) /\ k <= k' /\ drop k' src = r
    /\ k' = length src - length r.
Proof.
  intros Hk Hr. pose proof Hk as (Hle & Hrest & _ & _).
  pose proof (suffix_length _ _ Hr) as Hlen. rewrite Hrest, length_drop in Hlen.
  exists (k + (length (drop k src) - length r)). unfold advance_to. rewrite Hrest.
  pose proof (suffix_drop_length _ _ Hr) as Hd. rewrite Hrest, drop_drop in Hd.
  rewrite length_drop in *. split_and!; [apply advance_iter_at; [lia|done]|lia|done|lia].
Qed.

(** Text without line breaks keeps the line. *)
Definition one_line (s : str) : Prop := Forall (fun c => c <> 10%N /\ c <> 13%N) s.

Lemma ends_line_not c d : c <> 10%N /\ c <> 13%N -> ends_line c d = false.
Proof. intros [H1 H2]. unfold ends_line. by apply N.eqb_neq in H1 as ->, H2 as ->. Qed.

Lemma breaks_one_line src k n :
  one_line (take n (drop k src)) -> k + n <= length src -> breaks src (k + n) = breaks src k.
Proof.
  intros H Hn. induction n as [|n IH]; [by rewrite Nat.add_0_r|].
  assert (Hk : k + n < length src) by lia. apply lookup_lt_is_Some in Hk as [c Hc].
  rewrite (take_S_r _ _ c) in H by by rewrite lookup_drop. apply Forall_app in H as [H1 H2]. rewrite Forall_singleton in H2.
  rewrite Nat.add_succ_r, breaks_S, IH by (done || lia).
  rewrite is_break_ends. unfold peek_at at 1. rewrite Hc. cbn [default].
  rewrite (ends_line_not c) by exact H2. by rewrite app_nil_r.
Qed.

(** ** What a token stands for in the text *)

Definition slice (src : str) (i j : nat) : str := take (j - i) (drop i src).

Definition string_token (t : cf_token) : bool :=
  match t with
  | TkString _ | TkInterpolatedStringStart | TkInterpolatedStringEnd | TkInterpolatedExpr _ => true
  | _ => false
  end.

(** The text from [i] to [j] is a spelling of the token; a string's span starts
    behind its quote, an error's at the hash that was not closed. *)
Inductive spells (src : str) (i j : nat) : cf_token -> Prop :=
  | spells_word w : slice src i j = w -> cf_keyword w = None -> spells src i j (TkIdentifier w)
  | spells_keyword t : cf_keyword (slice src i j) = Some t -> spells src i j t
  | spells_number t : number_value (slice src i j) = t -> spells src i j t
  | spells_operator c s t : slice src i j = c :: take (j - S i) s -> drop (S i) src = s ->
      operator_token c s = Some (t, j - S i) -> spells src i j t
  | spells_string q t : is_quote q = true -> 0 < i -> src !! pred i = Some q -> string_token t = true ->
      spells src i j t
  | spells_error msg : src !! i = Some hash -> spells src i j (TkError msg)
  | spells_end : i = length src -> spells src i j TkEof.

Definition token_at (src : str) (t : token_with_loc) (e : nat * nat) : Prop :=
  tl_location t = SourceLocation (pos_at src e.1) (pos_at src e.2) /\ e.1 <= e.2 <= length src
  /\ spells src e.1 e.2 (tl_token t).

Lemma here_at src k cu : at_offset src k cu -> here cu = pos_at src k.
Proof. intros (_ & _ & Hl & Hc). unfold here, pos_at. by rewrite Hl, Hc. Qed.

Lemma at_offset_rest src k cu c s : at_offset src k cu -> cu_rest cu = c :: s -> k < length src.
Proof.
  intros (_ & Hr & _) H. rewrite Hr in H. apply (f_equal length) in H. rewrite length_drop in H. cbn in H. lia.
Qed.

Lemma slice_split src k (t r : str) : drop k src = t ++ r -> k <= length src ->
  slice src k (length src - length r) = t.
Proof.
  intros H Hk. unfold slice. rewrite H. apply (f_equal length) in H. rewrite length_drop, length_app in H.
  replace (length src - length r - k) with (length t) by lia. by rewrite take_app_length.
Qed.

Lemma slice_cons src i j c s : drop i src = c :: s -> i < j -> slice src i j = c :: take (j - S i) s.
Proof. intros H Hj. unfold slice. rewrite H. replace (j - i) with (S (j - S i)) by lia. done. Qed.

(** The start of a word or a number, computed from its end. *)
Lemma back_position src k cu c t r :
  at_offset src k cu -> cu_rest cu = c :: t ++ r -> one_line (c :: t) ->
  let cu1 := cf_advance cu in let cu2 := advance_to r cu1 in
  exists k', at_offset src k' cu2 /\ k < k' /\ slice src k k' = c :: t
    /\ position_new (cu_line cu2) (cu_column cu1 - 1) = pos_at src k.
Proof.
  intros Hk Hr Hl cu1 cu2. pose proof (at_offset_rest _ _ _ _ _ Hk Hr) as Hlt.
  assert (H1 : at_offset src (S k) cu1) by by apply advance_at.
  destruct Hk as (_ & Hrest & _ & _). rewrite Hrest in Hr.
  assert (Hr1 : cu_rest cu1 = t ++ r).
  { destruct H1 as (_ & -> & _). replace (S k) with (k + 1) by lia. by rewrite <-drop_drop, Hr. }
  destruct (advance_to_at src (S k) cu1 r H1) as (k' & H2 & Hle & Hd & Hk'); [rewrite Hr1; by exists t|].
  assert (Hs : slice src k k' = c :: t) by (subst k'; apply slice_split; [done|lia]).
  exists k'. split_and!; [done|lia|done|].
  destruct H1 as (_ & _ & _ & Hc), H2 as (Hle2 & _ & Hli & _). unfold cu2. rewrite Hli, Hc.
  assert (Hb : breaks src k' = breaks src k).
  { replace k' with (k + (k' - k)) by lia. apply breaks_one_line; [|lia]. unfold slice in Hs. by rewrite Hs. }
  assert (Hb1 : breaks src (S k) = breaks src k).
  { rewrite <-Nat.add_1_r. apply breaks_one_line; [|lia]. rewrite Hr. cbn.
    apply Forall_singleton. by apply Forall_cons in Hl as [? _]. }
  unfold pos_at, line_at, column_at. rewrite Hb, Hb1. f_equal.
  destruct (last (breaks src k)) eqn:E; [apply breaks_last in E|]; lia.
Qed.

(** ** One step of the scanner *)

Lemma span_all p s : Forall (fun c => p c = true) (span p s).1.
Proof. induction s as [|c s IH]; cbn; [done|]. case_match; [|done]. destruct (span p s). by constructor. Qed.

Lemma one_line_span p s : (forall c, p c = true -> c <> 10%N /\ c <> 13%N) -> one_line (span p s).1.
Proof. intros H. eapply Forall_impl; [apply span_all|done]. Qed.

Lemma digit_one_line c : is_ascii_digit c = true -> c <> 10%N /\ c <> 13%N.
Proof. intros H. split; intros ->; by vm_compute in H. Qed.
Lemma word_one_line c : word_char c = true -> c <> 10%N /\ c <> 13%N.
Proof. intros H. split; intros ->; by vm_compute in H. Qed.

Lemma one_line_app s t : one_line s -> one_line t -> one_line (s ++ t).
Proof. intros. by apply Forall_app. Qed.

Lemma number_tail_one_line s : one_line (number_tail s).1.
Proof.
  unfold number_tail. pose proof (one_line_span _ s digit_one_line) as H0.
  destruct (span is_ascii_digit s) as [d s0].
  assert (H1 : one_line (number_fraction s0).1).
  { unfold number_fraction. case_match; [|constructor].
    pose proof (one_line_span _ (drop 1 s0) digit_one_line). destruct (span _ _). by constructor. }
  destruct (number_fraction s0) as [f s1].
  assert (H2 : one_line (number_exponent s1).1).
  { destruct s1 as [|c s1]; [constructor|]. cbn [number_exponent]. case_match eqn:E; [|constructor].
    assert (Hg : one_line (number_sign s1).1).
    { unfold number_sign. case_match eqn:Es; [|constructor]. destruct s1 as [|g s1]; [done|]. cbn in *.
      apply Forall_singleton. unfold ch_is in Es. split; intros ->; done. }
    destruct (number_sign s1) as [g s2]. pose proof (one_line_span _ s2 digit_one_line) as Hx.
    destruct (span _ s2). constructor; [|by apply one_line_app].
    unfold ch_is in E. split; intros ->; done. }
  destruct (number_exponent s1) as [e s2]. cbn in *. by repeat apply one_line_app.
Qed.

(** ** Spellings of keywords *)

(** The entry of a keyword that is not written in its canonical form. *)
Definition raw_word (n : nat) (w : str) (t : cf_token) : list (N * str) :=
  if bool_decide (cf_keyword w = Some t) && (is_alias w || existsb is_ascii_uppercase w)
  then [(wrap_u32 (N.of_nat n), w)] else [].

Definition keyword_token (t : cf_token) : bool :=
  match t with
  | TkIdentifier _ | TkInteger _ | TkDouble _ | TkString _
  | TkPlus | TkMinus | TkStar | TkSlash | TkPercent | TkCaret | TkBackslash | TkAmp
  | TkEqual | TkEqualEqual | TkEqualEqualEqual | TkBang | TkBangEqual | TkBangEqualEqual
  | TkGreater | TkGreaterEqual | TkLess | TkLessEqual | TkAmpAmp | TkBarBar
  | TkPlusEqual | TkMinusEqual | TkStarEqual | TkSlashEqual | TkAmpEqual | TkPercentEqual
  | TkPlusPlus | TkMinusMinus
  | TkLParen | TkRParen | TkLBrace | TkRBrace | TkLBracket | TkRBracket | TkComma | TkDot
  | TkSemicolon | TkColon | TkColonColon | TkQuestion | TkQuestionDot | TkQuestionColon
  | TkQuestionQuestion | TkHashSign | TkArrow | TkFatArrow | TkDotDotDot
  | TkInterpolatedStringStart | TkInterpolatedStringEnd | TkInterpolatedExpr _ | TkEof | TkError _ => false
  | _ => true
  end.

Lemma cf_keyword_token w t : cf_keyword w = Some t -> keyword_token t = true.
Proof.
  unfold cf_keyword. case_match; [done|]. intros ([k t'] & Hf & ->)%fmap_Some.
  assert (Hall : forallb (fun e => keyword_token e.2) cf_keywords = true) by done.
  apply find_some in Hf as [Hin _]. rewrite forallb_forall in Hall. by apply (Hall _ Hin).
Qed.

Lemma raw_word_none n w t : keyword_token t = false -> raw_word n w t = [].
Proof.
  intros H. unfold raw_word. rewrite bool_decide_false; [done|]. intros E%cf_keyword_token. congruence.
Qed.

(** The entries of tokens that share the text [w], from index [n] on. *)
Definition raws_from (n : nat) (w : str) (ts : list token_with_loc) : list (N * str) :=
  concat (imap (fun a t => raw_word (n + a) w (tl_token t)) ts).

Lemma raws_from_one n w t : raws_from n w [t] = raw_word n w (tl_token t).
Proof. unfold raws_from. cbn. by rewrite app_nil_r, Nat.add_0_r. Qed.

Lemma raws_from_none n w ts : Forall (fun t => keyword_token (tl_token t) = false) ts -> raws_from n w ts = [].
Proof.
  unfold raws_from. intros H. revert n. induction H as [|t ts Ht _ IH]; intros n; [done|]. cbn.
  rewrite raw_word_none by done. cbn. rewrite <-(IH (S n)). f_equal.
  apply imap_ext. intros i x _. cbn. f_equal. lia.
Qed.

Lemma number_value_plain w : keyword_token (number_value w) = false.
Proof. unfold number_value. by repeat case_match. Qed.

Lemma operator_plain c s t n : operator_token c s = Some (t, n) -> keyword_token t = false.
Proof. unfold operator_token. intros H. repeat (case_match; simplify_eq; try done). Qed.

Lemma string_token_plain t : string_token t = true -> keyword_token t = false.
Proof. by destruct t. Qed.

Section Scan.
Context {U : Unicode} (src : str).

(** A step consumes text, and the tokens it pushes share one span of it. *)
Definition emits (k : nat) (l l' : cf_lexer) : Prop :=
  exists k' i j ts, at_offset src k' (lx_cursor l') /\ k < k' /\ k <= i <= j /\ j <= k'
    /\ lx_tokens l' = lx_tokens l ++ ts /\ Forall (fun t => token_at src t (i, j)) ts
    /\ lx_raw_spellings l' = lx_raw_spellings l ++ raws_from (length (lx_tokens l)) (slice src i j) ts.

Lemma emits_nothing k l l' r cu :
  at_offset src (S k) cu -> r `suffix_of` cu_rest cu -> lx_cursor l' = advance_to r cu ->
  lx_tokens l' = lx_tokens l -> lx_raw_spellings l' = lx_raw_spellings l -> emits k l l'.
Proof.
  intros Hk Hr Hc Ht Hw. destruct (advance_to_at src (S k) cu r Hk Hr) as (k' & H & Hle & _).
  exists k', k, k, []. rewrite Hc, Ht, Hw, !app_nil_r.
  split_and!; try done; lia.
Qed.

Lemma advance_rest c s cu : cu_rest cu = c :: s -> cu_rest (cf_advance cu) = s.
Proof. intros H. unfold cf_advance. rewrite H. by case_match. Qed.

(** A word or a number, whose start is computed from its end. *)
Lemma emits_back k l l' c t r tok :
  at_offset src k (lx_cursor l) -> cu_rest (lx_cursor l) = c :: t ++ r -> one_line (c :: t) ->
  (let cu1 := cf_advance (lx_cursor l) in let cu2 := advance_to r cu1 in
   lx_cursor l' = cu2 /\ lx_tokens l' = lx_tokens l
     ++ [TokenWithLoc tok (SourceLocation (position_new (cu_line cu2) (cu_column cu1 - 1)) (here cu2))]) ->
  lx_raw_spellings l' = lx_raw_spellings l ++ raw_word (length (lx_tokens l)) (c :: t) tok ->
  (forall i j, slice src i j = c :: t -> spells src i j tok) -> emits k l l'.
Proof.
  intros Hk Hr Ho [Hc Ht] Hw Hsp.
  destruct (back_position src k _ c t r Hk Hr Ho) as (k' & H2 & Hlt2 & Hsl & Hp).
  exists k', k, k'. eexists [_]. split_and!; [by rewrite Hc|lia..|exact Ht| |by rewrite raws_from_one, Hsl].
  apply Forall_singleton. unfold token_at. cbn [tl_location tl_token fst snd].
  rewrite Hp, (here_at src k' _ H2). split_and!; [done|lia|apply H2|]. by apply Hsp.
Qed.

Lemma number_emits k l c s :
  at_offset src k (lx_cursor l) -> cu_rest (lx_cursor l) = c :: s ->
  c <> 10%N /\ c <> 13%N -> emits k l (cf_number c (cf_advance (lx_cursor l)) l).
Proof.
  intros Hk Er Hl. unfold cf_number. rewrite (advance_rest c s _ Er).
  pose proof (splits_number s) as Hs. pose proof (number_tail_one_line s) as Ho.
  destruct (number_tail s) as [t r]. cbn in Hs, Ho. subst s.
  eapply emits_back; [done|exact Er|by constructor|done| |].
  - cbn [push_tokens lx_raw_spellings]. by rewrite raw_word_none, app_nil_r by apply number_value_plain.
  - intros i j Hsl. apply spells_number. by rewrite Hsl.
Qed.

Lemma identifier_emits k l c s :
  at_offset src k (lx_cursor l) -> cu_rest (lx_cursor l) = c :: s ->
  c <> 10%N /\ c <> 13%N -> emits k l (cf_identifier c (cf_advance (lx_cursor l)) l).
Proof.
  intros Hk Er Hl. unfold cf_identifier. rewrite (advance_rest c s _ Er).
  pose proof (span_app word_char s) as Hs. pose proof (one_line_span _ s word_one_line) as Ho.
  destruct (span word_char s) as [t r]. cbn in Hs, Ho. subst s.
  destruct (cf_keyword (c :: t)) as [kw|] eqn:Ek; (eapply emits_back; [done|exact Er|by constructor|done| |]);
    cbn [lx_raw_spellings]; unfold raw_word; rewrite ?Ek.
  - by rewrite bool_decide_true.
  - intros i j Hsl. apply spells_keyword. by rewrite Hsl.
  - by rewrite bool_decide_false.
  - intros i j Hsl. by apply spells_word.
Qed.

Lemma operator_token_length c s t n : operator_token c s = Some (t, n) -> n <= length s.
Proof.
  unfold operator_token. intros H. destruct s as [|c1 [|c2 s]]; cbn in *;
    repeat case_match; simplify_eq/=; lia || done.
Qed.

Lemma operator_emits k l c s :
  at_offset src k (lx_cursor l) -> cu_rest (lx_cursor l) = c :: s ->
  emits k l (scan_operator c (here (lx_cursor l)) (cf_advance (lx_cursor l)) l).
Proof.
  intros Hk Er. pose proof (at_offset_rest _ _ _ _ _ Hk Er) as Hlt.
  pose proof (advance_at _ _ _ Hlt Hk) as H1. unfold scan_operator. rewrite (advance_rest c s _ Er).
  destruct (operator_token c s) as [[t n]|] eqn:Eo.
  - pose proof (operator_token_length _ _ _ _ Eo) as Hn.
    assert (Hd : drop k src = c :: s) by (destruct Hk as (_ & <- & _); done).
    assert (Hls : length src = k + S (length s)).
    { apply (f_equal length) in Hd. rewrite length_drop in Hd. cbn in Hd. lia. }
    assert (H2 : at_offset src (S k + n) (Nat.iter n cf_advance (cf_advance (lx_cursor l))))
      by (apply advance_iter_at; [lia|done]).
    exists (S k + n), k, (S k + n). eexists [_]. split_and!; [exact H2|lia..|reflexivity| |].
    2: { cbn [push_tokens lx_raw_spellings]. rewrite raws_from_one, raw_word_none, app_nil_r; [done|]. by eapply operator_plain. }
    apply Forall_singleton. unfold token_at. cbn [tl_location tl_token fst snd].
    rewrite (here_at src k _ Hk), (here_at src _ _ H2). split_and!; [done|lia|lia|].
    apply (spells_operator _ _ _ c s).
    + apply slice_cons; [done|lia].
    + replace (S k) with (k + 1) by lia. by rewrite <-drop_drop, Hd.
    + by replace (S k + n - S k) with n by lia.
  - exists (S k), k, k, []. cbn. rewrite !app_nil_r. split_and!; try done; lia.
Qed.

Lemma string_tokens has parts cur :
  Forall (fun t => string_token t = true)
    (if has : bool then TkInterpolatedStringStart
             :: map part_token (push_part false cur parts) ++ [TkInterpolatedStringEnd]
     else [TkString cur]).
Proof.
  destruct has; [|by repeat constructor]. constructor; [done|]. apply Forall_app. split; [|by repeat constructor].
  apply Forall_fmap, Forall_true. by intros [[]].
Qed.

Lemma string_emits k l c s :
  at_offset src k (lx_cursor l) -> cu_rest (lx_cursor l) = c :: s -> is_quote c = true ->
  emits k l (push_tokens (cf_string c (cf_advance (lx_cursor l))).1
                         (cf_string c (cf_advance (lx_cursor l))).2 l).
Proof.
  intros Hk Er Hq. pose proof (at_offset_rest _ _ _ _ _ Hk Er) as Hlt.
  pose proof (advance_at _ _ _ Hlt Hk) as H1. pose proof (advance_rest c s _ Er) as Hr.
  assert (Hd : drop k src = c :: s) by (destruct Hk as (_ & <- & _); done).
  set (cu := cf_advance (lx_cursor l)) in *. unfold cf_string. rewrite Hr.
  pose proof (scan_string_stop (length s) c [] false [] s (le_n _)) as Hst.
  destruct (scan_string _ _ _ _ _ _) as [parts has cur r|h r]; cbn in Hst;
    [destruct Hst as [Hs1 Hs2]|destruct Hst as (Hs1 & Hs2 & h' & Hh)].
  - destruct (advance_to_at src (S k) cu (drop 1 r)) as (k' & H2 & Hle & _ & _);
      [done|rewrite Hr; auto with cfml|].
    exists k', (S k), k'. eexists. split_and!; [exact H2|lia..|reflexivity| |].
    2: { cbn [push_tokens lx_raw_spellings]. rewrite raws_from_none, app_nil_r; [done|]. apply Forall_fmap.
         apply (Forall_impl _ _ _ (string_tokens has parts cur)). intros t. apply string_token_plain. }
    apply Forall_fmap, (Forall_impl _ _ _ (string_tokens has parts cur)). intros t Ht. unfold token_at.
    cbn [compose tl_location tl_token fst snd].
    rewrite (here_at src _ _ H1), (here_at src _ _ H2). split_and!; [done|lia|apply H2|].
    eapply spells_string; [done|lia| |done]. cbn [pred]. rewrite <-(Nat.add_0_r k), <-lookup_drop, Hd. done.
  - destruct (advance_to_at src (S k) cu h) as (i & H2 & Hle & Hdi & Hi); [done|by rewrite Hr|].
    destruct (advance_to_at src (S k) cu r) as (j & H3 & Hle3 & Hdj & Hj); [done|rewrite Hr; by etrans|].
    destruct (advance_to_at src (S k) cu (drop 1 r)) as (k' & H4 & Hle4 & _ & Hk');
      [done|rewrite Hr; apply suffix_drop'; by etrans|].
    exists k', i, j. eexists [_]. pose proof (suffix_length _ _ Hs2) as Hl2. rewrite length_drop in Hk'.
    split_and!; [exact H4|lia..|reflexivity| |cbn [push_tokens lx_raw_spellings]; by rewrite raws_from_one, raw_word_none, app_nil_r].
    apply Forall_singleton. unfold token_at.
    cbn [tl_location tl_token fst snd]. rewrite (here_at src _ _ H2), (here_at src _ _ H3).
    split_and!; [done|lia|apply H3|]. apply spells_error.
    by rewrite <-(Nat.add_0_r i), <-lookup_drop, Hdi, Hh.
Qed.

(** [scan_token] on the rest [c :: s], arm by arm. *)
Lemma scan_token_emits k l : at_offset src k (lx_cursor l) -> k < length src -> emits k l (scan_token l).
Proof.
  intros Hk Hlt. destruct (cu_rest (lx_cursor l)) as [|c s] eqn:Er.
  { destruct Hk as (_ & Hr & _). rewrite Er in Hr. apply (f_equal length) in Hr. rewrite length_drop in Hr. cbn in Hr. lia. }
  pose proof (advance_at _ _ _ Hlt Hk) as H1. pose proof (advance_rest c s _ Er) as Hr.
  unfold scan_token. rewrite Hr, Er. change (peek_at 0 (c :: s)) with c.
  case_match eqn:E1.
  { repeat (apply andb_true_iff in E1 as [E1 _]). apply N.eqb_eq in E1 as ->. by eapply number_emits. }
  case_match; [eapply emits_nothing; [done|rewrite Hr|done|cbn; by rewrite ?app_nil_r..];
               etrans; [eapply splits_suffix, splits_span|auto with cfml]|].
  case_match.
  { pose proof (multi_line_comment_suffix (drop 1 s)) as Hs. destruct (multi_line_comment (drop 1 s)) as [d r].
    eapply emits_nothing; [done| |done..]. rewrite Hr. cbn in Hs. etrans; [done|auto with cfml]. }
  case_match; [eapply emits_nothing; [done|rewrite Hr|done|cbn; by rewrite ?app_nil_r..];
               etrans; [apply tag_comment_suffix|auto with cfml]|].
  case_match; [|case_match eqn:Ed; [eapply number_emits; [done..|by apply digit_one_line]|]].
  { pose proof (string_emits k l c s Hk Er) as Hs. destruct (cf_string _ _). by apply Hs. }
  case_match eqn:Ew; [eapply identifier_emits; [done..|]|by eapply operator_emits].
  split; intros ->; by vm_compute in Ew.
Qed.

(** ** The whole text *)

(** Spans are disjoint and in order, those of one string's tokens equal. *)
Definition in_order (spans : list (nat * nat)) : Prop :=
  forall a b i j i' j', a < b -> spans !! a = Some (i, j) -> spans !! b = Some (i', j') ->
    (i, j) = (i', j') \/ j <= i'.

(** The spellings the lexer keeps: those of its tokens, by index. *)
Definition raws_of (tes : list (token_with_loc * (nat * nat))) : list (N * str) :=
  concat (imap (fun n te => raw_word n (slice src te.2.1 te.2.2) (tl_token te.1)) tes).

Lemma raws_of_app tes ts e :
  raws_of (tes ++ zip ts (replicate (length ts) e))
  = raws_of tes ++ raws_from (length tes) (slice src e.1 e.2) ts.
Proof.
  unfold raws_of, raws_from. rewrite imap_app, concat_app. f_equal. f_equal.
  generalize (length tes). induction ts as [|t ts IH]; intros n; [done|]. cbn [length replicate zip zip_with imap].
  f_equal. rewrite (imap_ext _ (fun a te => raw_word (S n + a) (slice src te.2.1 te.2.2) (tl_token te.1)))
    by (intros; cbn; f_equal; lia). rewrite IH.
  apply imap_ext. intros. cbn. f_equal. lia.
Qed.

Definition lexed (k : nat) (l : cf_lexer) : Prop :=
  at_offset src k (lx_cursor l)
  /\ exists spans, Forall2 (token_at src) (lx_tokens l) spans /\ in_order spans
     /\ Forall (fun e => e.2 <= k) spans /\ lx_raw_spellings l = raws_of (zip (lx_tokens l) spans).

Lemma in_order_app spans i j n :
  in_order spans -> Forall (fun e => e.2 <= i) spans -> in_order (spans ++ replicate n (i, j)).
Proof.
  intros Ho Hf a b i1 j1 i2 j2 Hab Ha Hb. rewrite lookup_app in Ha, Hb.
  destruct (spans !! b) as [e|] eqn:Eb; [simplify_eq|].
  - destruct (spans !! a) as [e|] eqn:Ea; [simplify_eq; by eapply Ho|].
    apply lookup_ge_None in Ea. apply lookup_lt_Some in Eb. lia.
  - apply lookup_replicate in Hb as [[= -> ->] _].
    destruct (spans !! a) as [e|] eqn:Ea; simplify_eq.
    + right. by eapply Forall_lookup in Hf; [|done].
    + apply lookup_replicate in Ha as [[= -> ->] _]. by left.
Qed.

Lemma lexed_step k l l' : lexed k l -> emits k l l' -> exists k', k < k' /\ lexed k' l'.
Proof.
  intros (_ & spans & Hs & Ho & Hf & Hw) (k' & i & j & ts & Hc & Hlt & Hij & Hj & Ht & Hts & Hw').
  pose proof (Forall2_length _ _ _ Hs) as Hlen.
  exists k'. split; [done|]. split; [done|]. exists (spans ++ replicate (length ts) (i, j)). rewrite Ht. split_and!.
  - apply Forall2_app; [done|]. by apply Forall2_replicate_r.
  - apply in_order_app; [done|]. eapply Forall_impl; [exact Hf|]. cbn. lia.
  - apply Forall_app. split; [eapply Forall_impl; [exact Hf|]; cbn; lia|].
    apply Forall_replicate. done.
  - rewrite Hw', Hw, zip_with_app, raws_of_app, length_zip_with, Hlen by done. by rewrite Nat.min_id.
Qed.

Lemma lexed_new : lexed 0 (cf_lexer_new src).
Proof. split; [split_and!; [lia|done..]|]. exists []. split_and!; [constructor|intros ????????; done|constructor|done]. Qed.

Lemma scan_all_lexed n k l : lexed k l -> length src - k <= n -> lexed (length src) (scan_all n l).
Proof.
  revert k l. induction n as [|n IH]; intros k l Hl Hn.
  - assert (k = length src) as -> by (destruct Hl as [[? _] _]; lia). done.
  - pose proof Hl as [Hk _]. cbn [scan_all]. destruct (cu_rest (lx_cursor l)) as [|c s] eqn:Er.
    + destruct Hk as (Hle & Hr & _). rewrite Er in Hr. apply (f_equal length) in Hr. rewrite length_drop in Hr.
      assert (k = length src) as -> by (cbn in Hr; lia). done.
    + assert (Hlt : k < length src) by by eapply at_offset_rest.
      destruct (lexed_step k l (scan_token l)) as (k' & Hk' & Hl'); [done|by apply scan_token_emits|].
      apply (IH k'); [done|lia].
Qed.

Lemma lexed_end : lexed (length src) (cf_lex src).
Proof.
  pose proof (scan_all_lexed (length src) 0 _ lexed_new ltac:(lia)) as (Hk & spans & Hs & Ho & Hf & Hw).
  pose proof (Forall2_length _ _ _ Hs) as Hlen.
  split; [done|]. exists (spans ++ [(length src, length src)]). split_and!.
  - apply Forall2_app; [done|]. apply Forall2_cons; split; [|done]. unfold token_at. cbn [tl_location tl_token fst snd].
    rewrite (here_at _ _ _ Hk). split_and!; [done|lia..|by apply spells_end].
  - by apply (in_order_app _ _ _ 1).
  - apply Forall_app. split; [done|]. by apply Forall_singleton.
  - unfold cf_lex. cbn [push_tokens lx_raw_spellings lx_tokens]. rewrite Hw, zip_with_app by done.
    etrans; [|symmetry; apply (raws_of_app _ [_] (length src, length src))].
    by rewrite raws_from_one, raw_word_none, app_nil_r.
Qed.
End Scan.

(** ** The end marker *)

Definition not_end (t : token_with_loc) : Prop := tl_token t <> TkEof.

Lemma cf_keyword_not_end w t : cf_keyword w = Some t -> t <> TkEof.
Proof.
  unfold cf_keyword. case_match; [done|]. intros ([k t'] & Hf & ->)%fmap_Some.
  assert (Hall : forallb (fun e => bool_decide (e.2 <> TkEof)) cf_keywords = true) by by vm_compute.
  apply find_some in Hf as [Hin _]. rewrite forallb_forall in Hall. specialize (Hall _ Hin).
  by apply bool_decide_eq_true in Hall.
Qed.

Lemma number_value_not_end w : number_value w <> TkEof.
Proof. unfold number_value. by repeat case_match. Qed.

Lemma operator_not_end c s t n : operator_token c s = Some (t, n) -> t <> TkEof.
Proof. unfold operator_token. intros H. repeat (case_match; simplify_eq; try done). Qed.

Section TheEnd.
Context {U : Unicode}.

Lemma cf_string_not_end q cu : Forall not_end (cf_string q cu).1.
Proof.
  unfold cf_string. destruct (scan_string _ _ _ _ _ _) as [parts has cur r|h r]; cbn; [|by repeat constructor].
  apply Forall_fmap. destruct has; [|by repeat constructor]. constructor; [done|].
  apply Forall_app. split; [|by repeat constructor]. apply Forall_fmap, Forall_true. by intros [[]].
Qed.

Lemma scan_token_not_end l : Forall not_end (lx_tokens l) -> Forall not_end (lx_tokens (scan_token l)).
Proof.
  intros H. assert (Hn : forall c cu, Forall not_end (lx_tokens (cf_number c cu l))).
  { intros c cu. unfold cf_number. destruct (number_tail _). cbn. apply Forall_app. split; [done|].
    apply Forall_singleton, number_value_not_end. }
  assert (Hm : forall cu, Forall not_end (lx_tokens (move_to cu l))) by (intros; cbn; by rewrite app_nil_r).
  unfold scan_token. repeat (case_match; [by auto|]). case_match.
  { destruct (multi_line_comment _). done. }
  case_match; [apply Hm|]. case_match.
  { pose proof (cf_string_not_end (peek_at 0 (cu_rest (lx_cursor l))) (cf_advance (lx_cursor l))).
    destruct (cf_string _ _). cbn in *. by apply Forall_app. }
  case_match; [apply Hn|]. case_match.
  - unfold cf_identifier. destruct (span _ _). destruct (cf_keyword _) eqn:E; apply Forall_app; (split; [done|]);
      apply Forall_singleton; [by eapply cf_keyword_not_end|done].
  - unfold scan_operator. case_match eqn:E; [|apply Hm]. destruct p. apply Forall_app. split; [done|].
    apply Forall_singleton. by eapply operator_not_end.
Qed.

Lemma scan_all_not_end n l : Forall not_end (lx_tokens l) -> Forall not_end (lx_tokens (scan_all n l)).
Proof.
  revert l. induction n as [|n IH]; intros l H; [done|]. cbn [scan_all]. case_match; [done|].
  by apply IH, scan_token_not_end.
Qed.

Lemma scan_all_fuel src n m k l :
  lexed src k l -> length src - k <= n -> length src - k <= m -> scan_all n l = scan_all m l.
Proof.
  revert m k l. assert (H0 : forall m k l, lexed src k l -> length src - k <= 0 -> scan_all m l = l).
  { intros [|m] k l Hl Hk; [done|]. cbn [scan_all]. destruct (cu_rest (lx_cursor l)) eqn:Er; [done|].
    pose proof (at_offset_rest _ _ _ _ _ (proj1 Hl) Er). lia. }
  induction n as [|n IH]; intros [|m] k l Hl Hn Hm; [done|by rewrite (H0 (S m) k)|by rewrite (H0 (S n) k)|].
  cbn [scan_all]. destruct (cu_rest (lx_cursor l)) eqn:Er; [done|].
  pose proof (at_offset_rest _ _ _ _ _ (proj1 Hl) Er) as Hlt.
  destruct (lexed_step src k l (scan_token l)) as (k' & Hk' & Hl'); [done|by apply scan_token_emits; [apply Hl|]|].
  apply (IH m k'); [done|lia..].
Qed.
End TheEnd.

(** ** Theorems *)

Lemma pos_at_exact src k : (N.of_nat (length src) < 2 ^ 32 - 1)%N -> k <= length src ->
  pos_at src k = Position (line_at src k) (column_at src k).
Proof.
  intros Hs Hk. assert (Hb : length (breaks src k) <= k).
  { unfold breaks. pose proof (length_filter (fun i => is_break src i = true) (seq 0 k)) as H.
    rewrite length_seq in H. done. }
  unfold pos_at, position_new, wrap_u32, line_at, column_at.
  destruct (last (breaks src k)); rewrite !N.mod_small by lia; done.
Qed.

(** C21. Every token carries the place it was read from: its span of the text
    spells it, the spans are disjoint and in the order of the text (the tokens
    of one string share its span), and line and column count LF, CRLF and a
    lone CR as one line break each. *)
Theorem cf_positions {U : Unicode} (src : str) :
  (N.of_nat (length src) < 2 ^ 32 - 1)%N ->
  exists spans, in_order spans
    /\ Forall2 (fun t e => tl_location t = SourceLocation (Position (line_at src e.1) (column_at src e.1))
                                                         (Position (line_at src e.2) (column_at src e.2))
                           /\ e.1 <= e.2 <= length src /\ spells src e.1 e.2 (tl_token t))
         (cf_tokenize src) spans.
Proof.
  intros Hs. destruct (lexed_end src) as (_ & spans & H & Ho & _). exists spans. split; [done|].
  eapply Forall2_impl; [exact H|]. intros t [i j] (Hl & Hij & Hsp). cbn in *.
  rewrite <-!pos_at_exact by lia. done.
Qed.

(** C22. The tokenizer reads every text to its end, within the fuel of its
    loops: more fuel changes nothing, neither in the main loop nor in strings
    nested in interpolations; one end marker closes the tokens. *)
Theorem cf_lex_total {U : Unicode} (src : str) :
  cu_rest (lx_cursor (cf_lex src)) = []
  /\ (exists ts e, cf_tokenize src = ts ++ [e] /\ tl_token e = TkEof /\ Forall not_end ts)
  /\ (forall n, length src <= n -> scan_all n (cf_lexer_new src) = scan_all (length src) (cf_lexer_new src))
  /\ (forall n q parts has cur, length src <= n ->
        scan_string n q parts has cur src = scan_string (length src) q parts has cur src)
  /\ (forall n q d x, length src <= n -> scan_expr n q d x src = scan_expr (length src) q d x src)
  /\ (forall n q, length src <= n -> consume_string_literal n q src = consume_string_literal (length src) q src).
Proof.
  split_and!.
  - destruct (lexed_end src) as ((_ & -> & _) & _). by rewrite drop_ge.
  - eexists _, _. split; [reflexivity|]. split; [done|]. by apply scan_all_not_end.
  - intros n Hn. apply (scan_all_fuel src n _ 0); [apply lexed_new|lia..].
  - intros. by apply scan_string_fuel.
  - intros. by apply scan_expr_fuel.
  - intros. by apply string_literal_fuel.
Qed.
