(* ===== verification/CfmlRoundtrip.v ===== *)
(** * CfmlRoundtrip: the CFML tokenizer reads back what is written

    A writer of tokens: words, numbers, operators, strings with their quotes and
    hashes doubled, and strings with interpolated expressions, in which further
    strings may be nested; between them white space and comments of the three
    kinds. *)

From Stdlib Require Import Strings.Ascii.
From stdpp Require Import base list numbers strings.
From S2P Require Import Prelude Text Float64 QoqLexer CfmlLexer CfmlLexerFacts.
Local Open Scope N_scope.
#[local] Arguments chr : simpl never.
#[local] Arguments hash : simpl never.
#[local] Arguments is_quote : simpl never.

(** Lengths of concatenations. *)
Ltac solve_length := repeat (rewrite length_app in * || cbn [length] in *); lia.

(** ** Nested strings *)

(** The body of a string literal and the text of an interpolated expression. *)
Inductive str_body :=
  | BEnd | BChar (c : char) (b : str_body) | BQuote (b : str_body) | BHash (b : str_body)
  | BExpr (e : expr_text) (b : str_body)
with expr_text :=
  | EEnd | EChar (c : char) (e : expr_text) | EString (q : char) (b : str_body) (e : expr_text).

Scheme str_body_mind := Induction for str_body Sort Prop
  with expr_text_mind := Induction for expr_text Sort Prop.
Combined Scheme nested_mind from str_body_mind, expr_text_mind.

Fixpoint body_str (q : char) (b : str_body) : str :=
  match b with
  | BEnd => []
  | BChar c b => c :: body_str q b
  | BQuote b => q :: q :: body_str q b
  | BHash b => hash :: hash :: body_str q b
  | BExpr e b => hash :: expr_str e ++ hash :: body_str q b
  end
with expr_str (e : expr_text) : str :=
  match e with
  | EEnd => []
  | EChar c e => c :: expr_str e
  | EString q b e => q :: body_str q b ++ q :: expr_str e
  end.

Section Nested.
Context {U : Unicode}.

(** A string stands where a value may start, brackets are balanced, and a hash
    is written only inside brackets. *)
Fixpoint body_ok (q : char) (b : str_body) : bool :=
  match b with
  | BEnd => true
  | BChar c b => negb (c =? q) && negb (c =? hash) && body_ok q b
  | BQuote b | BHash b => body_ok q b
  | BExpr e b => match e with EEnd => false | _ => expr_ok 0 [] e end && body_ok q b
  end
with expr_ok (depth : Z) (before : str) (e : expr_text) : bool :=
  match e with
  | EEnd => (depth =? 0)%Z
  | EChar c e =>
      negb (is_quote c) && negb ((c =? hash) && (depth =? 0)%Z)
      && expr_ok (bracket_depth c depth) (before ++ [c]) e
  | EString q b e =>
      is_quote q && can_start_interpolation_string_literal before && body_ok q b
      && expr_ok depth (before ++ [q]) e
  end.

(** ** The test whether a string may start looks back to the last quote only *)

Lemma trim_start_keep (q : char) (u : str) :
  uc_whitespace q = false -> exists w, forall v, trim_start (u ++ q :: v) = w ++ q :: v.
Proof.
  intros Hq. induction u as [|c u [w IH]]; cbn.
  - exists []. intros v. by rewrite Hq.
  - destruct (uc_whitespace c); [by exists w|]. by exists (c :: u).
Qed.

Lemma span_keep p (q : char) (w v : str) : p q = false -> (span p (w ++ q :: v)).1 = (span p w).1.
Proof.
  intros Hq. induction w as [|c w IH]; cbn; [by rewrite Hq|]. destruct (p c); [|done].
  destruct (span p (w ++ q :: v)), (span p w). cbn in *. by f_equal.
Qed.

Lemma quote_facts q : is_quote q = true ->
  uc_whitespace q = false /\ word_char q = false /\ opens_value q = false /\ q <> hash.
Proof.
  unfold is_quote. intros [->%N.eqb_eq| ->%N.eqb_eq]%orb_true_iff;
    (split_and!; [by rewrite uc_whitespace_ascii|by vm_compute..]).
Qed.

Lemma can_start_from_quote q x t : is_quote q = true ->
  can_start_interpolation_string_literal (x ++ q :: t) = can_start_interpolation_string_literal (q :: t).
Proof.
  intros (Hs & Hw & _ & _)%quote_facts. unfold can_start_interpolation_string_literal, trim_end.
  destruct (trim_start_keep q (rev t) Hs) as [w Hk].
  assert (E : forall y, trim_start (rev (y ++ q :: t)) = w ++ q :: rev y)
    by (intros y; rewrite rev_app_distr; cbn [rev]; rewrite <-app_assoc; apply Hk).
  specialize (E x) as E1. specialize (E []) as E2. cbn [app] in E2. rewrite E1, E2.
  assert (R : forall y : str, rev (w ++ q :: rev y) = y ++ q :: rev w)
    by (intros y; rewrite rev_app_distr; cbn [rev]; by rewrite rev_involutive, <-app_assoc).
  specialize (R []) as R2. cbn [app rev] in R2. cbn [rev]. rewrite R, R2, last_app_cons.
  destruct (last (q :: rev w)) as [c|]; [|done].
  assert (L : forall y : str, last_word (y ++ q :: rev w) = rev (span word_char w).1).
  { intros y. unfold last_word. by rewrite <-R, rev_involutive, span_keep. }
  specialize (L []) as L2. cbn [app] in L2. by rewrite L, L2.
Qed.

Lemma can_start_after_quote q x : is_quote q = true ->
  can_start_interpolation_string_literal (x ++ [q]) = false.
Proof.
  intros Hq. rewrite can_start_from_quote by done. apply quote_facts in Hq as (Hs & Hw & Ho & _).
  unfold can_start_interpolation_string_literal, trim_end. cbn [rev app trim_start].
  rewrite Hs. cbn [rev app last]. by rewrite Hw, Ho.
Qed.

(** ** Nested strings are read back *)

Lemma expr_first q d before e r :
  is_quote q = true -> expr_ok d (before ++ [q]) e = true -> peek_at 0 (expr_str e ++ hash :: r) <> q.
Proof.
  intros Hq He. pose proof (quote_facts q Hq) as (_ & _ & _ & Hh).
  destruct e as [|c e|q' b e]; cbn in *; [by apply not_eq_sym| |].
  - intros ->. by rewrite Hq in He.
  - rewrite can_start_after_quote in He by done. by rewrite andb_false_r in He.
Qed.

Lemma nested_read :
  (forall b q r n, is_quote q = true -> body_ok q b = true -> peek_at 0 r <> q ->
     (length (body_str q b ++ q :: r) <= n)%nat ->
     consume_string_literal n q (body_str q b ++ q :: r) = (body_str q b ++ [q], r))
  /\ (forall e d buf r n, expr_ok d buf e = true -> (length (expr_str e ++ hash :: r) <= n)%nat ->
     consume_interpolation n d buf (expr_str e ++ hash :: r) = (expr_str e ++ [hash], r)).
Proof.
  apply nested_mind.
  - intros q r [|n] Hq _ Hr Hn; cbn in Hn; [lia|]. cbn [body_str app consume_string_literal].
    rewrite N.eqb_refl. by apply N.eqb_neq in Hr as ->.
  - intros c b IH q r [|n] Hq Hb Hr Hn; cbn in Hn; [lia|]. cbn in Hb.
    apply andb_true_iff in Hb as [[Hb1 Hb2]%andb_true_iff Hb3]. apply negb_true_iff in Hb1, Hb2.
    cbn [body_str app consume_string_literal]. rewrite Hb1, Hb2, IH by (done || lia). done.
  - intros b IH q r [|n] Hq Hb Hr Hn; cbn in Hn; [lia|].
    cbn [body_str app consume_string_literal peek_at lookup list_lookup default drop].
    rewrite !N.eqb_refl, drop_0, IH by (done || lia). done.
  - intros b IH q r [|n] Hq Hb Hr Hn; cbn in Hn; [lia|].
    pose proof (quote_facts q Hq) as (_ & _ & _ & Hh).
    cbn [body_str app consume_string_literal peek_at lookup list_lookup default drop].
    apply not_eq_sym, N.eqb_neq in Hh. rewrite Hh, !N.eqb_refl, drop_0, IH by (done || lia). done.
  - intros e IHe b IHb q r [|n] Hq Hb Hr Hn; cbn in Hn; [lia|].
    pose proof (quote_facts q Hq) as (_ & _ & _ & Hh). cbn in Hb. apply andb_true_iff in Hb as [He Hb].
    assert (expr_ok 0 [] e = true /\ peek_at 0 (expr_str e ++ hash :: body_str q b ++ q :: r) =? hash = false)
      as [Heo Hp].
    { destruct e as [|c e|q' b' e]; [done|split; [done|]..]; cbn in He |- *.
      - apply N.eqb_neq. intros ->. by rewrite N.eqb_refl, andb_false_r in He.
      - apply andb_true_iff in He as [[[Hq' _]%andb_true_iff _]%andb_true_iff _].
        apply quote_facts in Hq' as (_ & _ & _ & Hh'). by apply N.eqb_neq. }
    cbn [body_str consume_string_literal]. rewrite <-app_comm_cons, <-app_assoc, <-app_comm_cons.
    apply not_eq_sym, N.eqb_neq in Hh. cbn [consume_string_literal]. rewrite Hh, N.eqb_refl, Hp.
    rewrite IHe by (done || solve_length). rewrite IHb by (done || solve_length). cbn. by rewrite <-!app_assoc.
  - intros d buf r [|n] He Hn; cbn in Hn; [lia|]. cbn in He.
    cbn [expr_str app consume_interpolation]. by rewrite N.eqb_refl, He.
  - intros c e IH d buf r [|n] He Hn; cbn in Hn; [lia|]. cbn in He.
    apply andb_true_iff in He as [[H1 H2]%andb_true_iff H3]. apply negb_true_iff in H1, H2.
    cbn [expr_str app consume_interpolation]. rewrite H2, H1, IH by (done || lia). done.
  - intros q b IHb e IHe d buf r [|n] He Hn; cbn in Hn; [lia|]. cbn in He.
    apply andb_true_iff in He as [[[Hq Hc]%andb_true_iff Hb]%andb_true_iff He].
    pose proof (quote_facts q Hq) as (_ & _ & _ & Hh). apply N.eqb_neq in Hh.
    cbn [expr_str]. rewrite <-app_comm_cons, <-app_assoc, <-app_comm_cons. cbn [consume_interpolation].
    rewrite Hh, Hq, Hc. cbn [andb].
    rewrite IHb by (done || solve_length || by eapply expr_first).
    rewrite IHe by (done || solve_length). cbn. by rewrite <-!app_assoc.
Qed.

(** [scan_expr] keeps more of what it has read than [consume_interpolation]; the
    test for a string agrees on both. *)
Definition agree (x y : str) : Prop :=
  forall t, can_start_interpolation_string_literal (x ++ t) = can_start_interpolation_string_literal (y ++ t).

Lemma agree_app x y t : agree x y -> agree (x ++ t) (y ++ t).
Proof. intros H u. by rewrite <-!app_assoc. Qed.

Lemma agree_string q x y b : is_quote q = true -> agree (x ++ q :: b ++ [q]) (y ++ [q]).
Proof.
  intros Hq t. replace ((x ++ q :: b ++ [q]) ++ t) with ((x ++ q :: b) ++ q :: t) by by simplify_list_eq.
  rewrite (can_start_from_quote q (x ++ q :: b)), <-app_assoc by done. cbn [app].
  by rewrite (can_start_from_quote q y).
Qed.

Lemma scan_expr_read e quote d x buf r n :
  is_quote quote = true -> agree x buf -> expr_ok d buf e = true ->
  (length (expr_str e ++ hash :: r) <= n)%nat ->
  scan_expr n quote d x (expr_str e ++ hash :: r) = ExprClosed (x ++ expr_str e) r.
Proof.
  intros Hquote. revert d x buf n. induction e as [|c e IH|q b e IH]; intros d x buf [|n] Ha He Hn; cbn in Hn;
    try lia; cbn in He.
  - cbn [expr_str app scan_expr]. by rewrite N.eqb_refl, He, app_nil_r.
  - apply andb_true_iff in He as [[H1 H2]%andb_true_iff H3]. apply negb_true_iff in H1, H2.
    cbn [expr_str app scan_expr]. rewrite H2, H1. cbn [andb].
    assert (c =? quote = false) as -> by (apply N.eqb_neq; intros ->; by rewrite Hquote in H1).
    cbn [andb]. rewrite (IH _ _ (buf ++ [c])) by (by auto using agree_app || lia). by rewrite <-app_assoc.
  - apply andb_true_iff in He as [[[Hq Hc]%andb_true_iff Hb]%andb_true_iff He].
    pose proof (quote_facts q Hq) as (_ & _ & _ & Hh). apply N.eqb_neq in Hh.
    cbn [expr_str]. rewrite <-app_comm_cons, <-app_assoc, <-app_comm_cons. cbn [scan_expr].
    specialize (Ha []) as Hs. rewrite !app_nil_r in Hs. rewrite Hh, Hq, Hs, Hc. cbn [andb].
    rewrite (proj1 nested_read b q) by (done || by eapply expr_first).
    rewrite (IH _ _ (buf ++ [q])) by (by auto using agree_string || solve_length).
    f_equal. by simplify_list_eq.
Qed.

(** ** String literals *)

(** Quotes and hashes are doubled. *)
Fixpoint escape (q : char) (s : str) : str :=
  match s with
  | [] => []
  | c :: s => if (c =? q) || (c =? hash) then c :: c :: escape q s else c :: escape q s
  end.

Lemma scan_string_text q s parts has cur r n m :
  is_quote q = true -> (length (escape q s ++ r) <= n)%nat -> (length r <= m)%nat ->
  scan_string n q parts has cur (escape q s ++ r) = scan_string m q parts has (cur ++ s) r.
Proof.
  intros Hq. pose proof (quote_facts q Hq) as (_ & _ & _ & Hh). apply not_eq_sym, N.eqb_neq in Hh.
  revert cur n. induction s as [|c s IH]; intros cur n Hn Hm; cbn [escape app] in *.
  { rewrite app_nil_r. by apply scan_string_fuel. }
  destruct (N.eqb_spec c q) as [->|Hc]; [|destruct (N.eqb_spec c hash) as [->|Hc']]; cbn [orb] in *;
    (destruct n as [|n]; [cbn in Hn; lia|]); cbn [app scan_string peek_at lookup list_lookup default].
  - rewrite !N.eqb_refl, skipn_cons, drop_0, IH by (cbn in Hn; lia). by rewrite <-app_assoc.
  - rewrite Hh, !N.eqb_refl, skipn_cons, drop_0.
    assert (hash =? chr "\" = false) as -> by by vm_compute. cbn [andb].
    rewrite IH by (cbn in Hn; lia). by rewrite <-app_assoc.
  - apply N.eqb_neq in Hc, Hc'. rewrite Hc, Hc'. cbn [andb].
    destruct (c =? chr "\"); rewrite IH by (cbn in Hn; lia); by rewrite <-app_assoc.
Qed.

(** Texts and expressions in turn, and the text after the last expression. *)
Fixpoint interp_str (q : char) (ps : list (str * expr_text)) (final : str) : str :=
  match ps with
  | [] => escape q final
  | (t, e) :: ps => escape q t ++ hash :: expr_str e ++ hash :: interp_str q ps final
  end.

Fixpoint interp_parts (ps : list (str * expr_text)) : list (bool * str) :=
  match ps with
  | [] => []
  | (t, e) :: ps => push_part false t [] ++ (true, expr_str e) :: interp_parts ps
  end.

Definition interp_ok (q : char) (p : str * expr_text) : bool :=
  match p.2 with EEnd => false | _ => negb (peek_at 0 (expr_str p.2) =? q) && expr_ok 0 [] p.2 end.

Lemma push_part_app is_expr t parts : push_part is_expr t parts = parts ++ push_part is_expr t [].
Proof. destruct t; [by rewrite app_nil_r|done]. Qed.

Lemma scan_interp q ps final parts has r n :
  is_quote q = true -> forallb (interp_ok q) ps = true -> peek_at 0 r <> q ->
  (length (interp_str q ps final ++ q :: r) <= n)%nat ->
  scan_string n q parts has [] (interp_str q ps final ++ q :: r)
  = StringParts (parts ++ interp_parts ps) (has || negb (bool_decide (ps = []))) final (q :: r).
Proof.
  intros Hq Hps Hr. pose proof (quote_facts q Hq) as (_ & _ & _ & Hh).
  pose proof (proj2 (N.eqb_neq _ _) (not_eq_sym Hh)) as Hh'.
  revert parts has n. induction ps as [|[t e] ps IH]; intros parts has n Hn; cbn [interp_str] in *.
  { rewrite (scan_string_text q final _ _ _ _ n (S (length r))) by (done || cbn; lia).
    cbn [scan_string app]. rewrite N.eqb_refl. apply N.eqb_neq in Hr as ->.
    rewrite app_nil_r, bool_decide_true, orb_false_r by done. done. }
  cbn in Hps. apply andb_true_iff in Hps as [Hp Hps]. unfold interp_ok in Hp. cbn in Hp.
  rewrite <-app_assoc in *. rewrite <-app_comm_cons, <-app_assoc, <-app_comm_cons in *.
  set (tl := expr_str e ++ hash :: interp_str q ps final ++ q :: r) in *.
  rewrite (scan_string_text q t _ _ _ _ n (S (length tl))) by (done || (cbn; lia)).
  assert (Hf : expr_ok 0 [] e = true /\ peek_at 0 tl =? q = false /\ peek_at 0 tl =? hash = false).
  { subst tl. destruct e as [|c e|q' b e]; [done|..]; apply andb_true_iff in Hp as [Hp1%negb_true_iff Hp2];
      (split; [done|]); (split; [exact Hp1|]); cbn in Hp2 |- *.
    - apply N.eqb_neq. intros ->. by rewrite N.eqb_refl, andb_false_r in Hp2.
    - apply andb_true_iff in Hp2 as [[[Hq' _]%andb_true_iff _]%andb_true_iff _].
      apply quote_facts in Hq' as (_ & _ & _ & Hq'). by apply N.eqb_neq. }
  destruct Hf as (Hf1 & Hf2 & Hf3). cbn [scan_string app]. rewrite Hh', N.eqb_refl, Hf2, Hf3.
  assert (hash =? chr "\" = false) as -> by by vm_compute. cbn [andb].
  assert (scan_expr (length tl) q 0 [] tl = ExprClosed (expr_str e) (interp_str q ps final ++ q :: r)) as ->
    by by apply (scan_expr_read e q 0 [] []).
  rewrite IH by (done || subst tl; solve_length). f_equal.
  - rewrite (push_part_app true), (push_part_app false t). cbn [interp_parts].
    destruct (expr_str e) eqn:Ee; [by destruct e|]. cbn [push_part app]. by simplify_list_eq.
  - rewrite (bool_decide_false (_ :: _ = [])) by done. by rewrite orb_true_r.
Qed.
End Nested.

(** ** What is written *)

Inductive written :=
  | WWord (w : str)
  | WNumber (c : char) (tail : str)
  | WOp (op : string) (t : cf_token)
  | WString (q : char) (s : str)
  | WInterp (q : char) (ps : list (str * expr_text)) (final : str).

Definition operators : list (string * cf_token) :=
  [("(", TkLParen); (")", TkRParen); ("{", TkLBrace); ("}", TkRBrace); ("[", TkLBracket); ("]", TkRBracket);
   (",", TkComma); (".", TkDot); ("...", TkDotDotDot); (";", TkSemicolon); (":", TkColon); ("::", TkColonColon);
   ("^", TkCaret); ("#", TkHashSign); ("\", TkBackslash); ("?", TkQuestion); ("?.", TkQuestionDot);
   ("?:", TkQuestionColon); ("??", TkQuestionQuestion); ("+", TkPlus); ("+=", TkPlusEqual); ("++", TkPlusPlus);
   ("-", TkMinus); ("-=", TkMinusEqual); ("--", TkMinusMinus); ("->", TkArrow); ("*", TkStar); ("*=", TkStarEqual);
   ("/", TkSlash); ("/=", TkSlashEqual); ("%", TkPercent); ("%=", TkPercentEqual); ("&", TkAmp); ("&&", TkAmpAmp);
   ("&=", TkAmpEqual); ("||", TkBarBar); ("=", TkEqual); ("==", TkEqualEqual); ("===", TkEqualEqualEqual);
   ("=>", TkFatArrow); ("!", TkBang); ("!=", TkBangEqual); ("!==", TkBangEqualEqual); (">", TkGreater);
   (">=", TkGreaterEqual); ("<", TkLess); ("<=", TkLessEqual); ("<>", TkBangEqual)]%string.

Inductive gap_item := GSpace (c : char) | GLine (s : str) (eol : char) | GBlock (s : str) | GTag (s : str).

Definition is_blank (c : char) : bool := (c =? 32) || (c =? 9) || (c =? 10) || (c =? 13).

Definition gap_item_str (g : gap_item) : str :=
  match g with
  | GSpace c => [c]
  | GLine s eol => lit "//" ++ s ++ [eol]
  | GBlock s => lit "/*" ++ s ++ lit "*/"
  | GTag s => lit "<!---" ++ s ++ lit "---> "
  end.

(** A comment ends with its own closing mark, not before; tag comments nest. *)
Definition gap_item_ok (g : gap_item) : bool :=
  match g with
  | GSpace c => is_blank c
  | GLine s eol => forallb (fun c => negb (line_end c)) s && line_end eol
  | GBlock s => bool_decide (comment_body (s ++ lit "*/") = (s, []))
  | GTag s => let t := s ++ lit "---> " in bool_decide (tag_comment (length t) 0 t = lit " ")
  end.

(** White space first, then anything. *)
Definition gap : Type := char * list gap_item.
Definition gap_str (g : gap) : str := g.1 :: concat (map gap_item_str g.2).
Definition gap_ok (g : gap) : bool := is_blank g.1 && forallb gap_item_ok g.2.

Section Writer.
Context {U : Unicode}.

Definition written_str (w : written) : str :=
  match w with
  | WWord w => w
  | WNumber c tail => c :: tail
  | WOp op _ => lit op
  | WString q s => q :: escape q s ++ [q]
  | WInterp q ps final => q :: interp_str q ps final ++ [q]
  end.

Definition written_ok (w : written) : bool :=
  match w with
  | WWord [] => false
  | WWord (c :: w) => word_start c && forallb word_char w
  | WNumber c tail => is_ascii_digit c && bool_decide (number_tail tail = (tail, []))
  | WOp op t => bool_decide ((op, t) ∈ operators)
  | WString q s => is_quote q
  | WInterp q ps final => is_quote q && negb (bool_decide (ps = [])) && forallb (interp_ok q) ps
  end.

Definition word_token (w : str) : cf_token := default (TkIdentifier w) (cf_keyword w).

Definition written_tokens (w : written) : list cf_token :=
  match w with
  | WWord w => [word_token w]
  | WNumber c tail => [number_value (c :: tail)]
  | WOp _ t => [t]
  | WString _ s => [TkString s]
  | WInterp _ ps final =>
      TkInterpolatedStringStart :: map part_token (interp_parts ps ++ push_part false final [])
        ++ [TkInterpolatedStringEnd]
  end.

Definition written_all_str (ws : list (written * gap)) : str :=
  concat (map (fun e => written_str e.1 ++ gap_str e.2) ws).
Definition written_all_ok (ws : list (written * gap)) : bool :=
  forallb (fun e => written_ok e.1 && gap_ok e.2) ws.
End Writer.

(** ** Reading it back *)

Lemma iter_rest n cu : cu_rest (Nat.iter n cf_advance cu) = drop n (cu_rest cu).
Proof.
  induction n as [|n IH]; cbn; [by rewrite drop_0|].
  transitivity (drop 1 (drop n (cu_rest cu))).
  - rewrite <-IH. unfold cf_advance. by case_match.
  - rewrite drop_drop. f_equal. lia.
Qed.

Lemma advance_to_rest r cu : r `suffix_of` cu_rest cu -> cu_rest (advance_to r cu) = r.
Proof. intros H. unfold advance_to. rewrite iter_rest. symmetry. by apply suffix_drop_length. Qed.

(** Comparisons of characters. *)
Ltac solve_char :=
  repeat rewrite ?orb_true_iff, ?andb_true_iff, ?orb_false_iff, ?andb_false_iff, ?N.eqb_eq, ?N.eqb_neq,
    ?N.leb_le, ?N.leb_gt in *; lia.

Lemma word_start_facts c : word_start c = true ->
  ch_is "." c = false /\ ch_is "/" c = false /\ ch_is "<" c = false /\ is_quote c = false
  /\ is_ascii_digit c = false.
Proof.
  unfold word_start, is_ascii_alpha, ch_is, is_quote, is_ascii_digit. intros H.
  change (chr ".") with 46%N; change (chr "/") with 47%N; change (chr "<") with 60%N.
  split_and!; solve_char.
Qed.

Lemma digit_facts c : is_ascii_digit c = true ->
  ch_is "." c = false /\ ch_is "/" c = false /\ ch_is "<" c = false /\ is_quote c = false.
Proof. unfold ch_is, is_quote, is_ascii_digit. intros H.
  change (chr ".") with 46%N; change (chr "/") with 47%N; change (chr "<") with 60%N. split_and!; solve_char. Qed.

Lemma quote_arms c : is_quote c = true ->
  ch_is "." c = false /\ ch_is "/" c = false /\ ch_is "<" c = false.
Proof. unfold ch_is, is_quote. intros H.
  change (chr ".") with 46%N; change (chr "/") with 47%N; change (chr "<") with 60%N. split_and!; solve_char. Qed.

Lemma blank_facts b : is_blank b = true ->
  b ∈ [32; 9; 10; 13]%N.
Proof. unfold is_blank. rewrite !orb_true_iff, !N.eqb_eq, !elem_of_cons. tauto. Qed.

Lemma blank_cases b (P : char -> Prop) : is_blank b = true -> Forall P [32; 9; 10; 13]%N -> P b.
Proof. intros Hb%blank_facts H. rewrite Forall_forall in H. by apply H. Qed.

Lemma blank_forall (P : char -> Prop) : Forall P [32; 9; 10; 13]%N -> forall b, is_blank b = true -> P b.
Proof. intros H b Hb. by apply (blank_cases b P). Qed.

(** A scan that takes no white space does not see what follows it. *)
Definition extends (f : str -> str * str) : Prop :=
  forall s b r, is_blank b = true -> f (s ++ b :: r) = ((f s).1, (f s).2 ++ b :: r).

Lemma span_extends p : Forall (fun c => p c = false) [32; 9; 10; 13]%N -> extends (span p).
Proof.
  intros Hp s b r Hb. induction s as [|c s IH]; cbn.
  - by rewrite (blank_cases b (fun c => p c = false)).
  - destruct (p c); [|done]. rewrite IH. by destruct (span p s).
Qed.

Lemma fraction_extends : extends number_fraction.
Proof.
  intros s b r Hb. unfold number_fraction. destruct s as [|c [|d s]]; cbn [app peek_is].
  - revert r. apply (blank_cases b); [done|]. by repeat constructor.
  - destruct (ch_is "." c); [|done]. revert r. apply (blank_cases b); [done|]. by repeat constructor.
  - destruct (ch_is "." c); [|done]. change (peek_at 1 (c :: d :: s)) with d.
    change (peek_at 1 (c :: d :: s ++ b :: r)) with d. destruct (is_ascii_digit d); [|done].
    rewrite !skipn_cons, !drop_0, (app_comm_cons s), span_extends by (done || by repeat constructor).
    by destruct (span is_ascii_digit (d :: s)).
Qed.

Lemma sign_extends : extends number_sign.
Proof.
  intros s b r Hb. unfold number_sign. destruct s as [|g s]; cbn [app peek_is].
  - revert r. apply (blank_cases b); [done|]. by repeat constructor.
  - by destruct (ch_is "+" g || ch_is "-" g).
Qed.

Lemma exponent_extends : extends number_exponent.
Proof.
  intros s b r Hb. destruct s as [|c s]; cbn [app number_exponent].
  - revert r. apply (blank_cases b); [done|]. by repeat constructor.
  - destruct (ch_is "e" c || ch_is "E" c); [|done]. rewrite sign_extends by done.
    destruct (number_sign s) as [g s1]. cbn [fst snd].
    rewrite span_extends by (done || by repeat constructor). by destruct (span is_ascii_digit s1).
Qed.

Lemma number_extends : extends number_tail.
Proof.
  intros s b r Hb. unfold number_tail. rewrite span_extends by (done || by repeat constructor).
  destruct (span is_ascii_digit s) as [d s0]. cbn [fst snd]. rewrite fraction_extends by done.
  destruct (number_fraction s0) as [f s1]. cbn [fst snd]. rewrite exponent_extends by done.
  by destruct (number_exponent s1).
Qed.

(** ** Comments *)

Lemma comment_body_stop s r :
  comment_body (s ++ lit "*/") = (s, []) -> comment_body (s ++ lit "*/" ++ r) = (s, r).
Proof.
  induction s as [|c s IH]; [done|]. rewrite <-!app_comm_cons. cbn [comment_body].
  assert (Hp : peek_is "/" (s ++ lit "*/" ++ r) = peek_is "/" (s ++ lit "*/")) by by destruct s.
  rewrite Hp. case_match; [done|].
  destruct (comment_body (s ++ lit "*/")) as [b' r'] eqn:E. intros [= -> ->]. by rewrite IH.
Qed.

Lemma multi_line_comment_stop s r :
  comment_body (s ++ lit "*/") = (s, []) -> (multi_line_comment (s ++ lit "*/" ++ r)).2 = r.
Proof.
  intros H. unfold multi_line_comment.
  destruct (peek_is "*" _ && _) eqn:E.
  - destruct s as [|c s]; [by vm_compute in E|]. rewrite <-app_comm_cons, skipn_cons, drop_0.
    rewrite comment_body_stop; [done|]. rewrite <-app_comm_cons in H. cbn [comment_body] in H.
    case_match; [done|]. destruct (comment_body (s ++ lit "*/")). by simplify_eq.
  - by rewrite comment_body_stop.
Qed.

(** Marks without a space are not completed by what follows a space. *)
Lemma take_sentinel k (u r p : str) : 32%N ∉ p ->
  bool_decide (take k (u ++ 32%N :: r) = p) = bool_decide (take k (u ++ [32%N]) = p)
  /\ (take k (u ++ [32%N]) = p -> (k <= length u)%nat).
Proof.
  intros Hp. destruct (decide (k <= length u)%nat) as [Hk|Hk].
  - rewrite !take_app_le by done. done.
  - assert (H : forall v, take k (u ++ 32%N :: v) <> p).
    { intros v <-. apply Hp, list_elem_of_lookup. exists (length u).
      rewrite lookup_take_lt by lia. rewrite lookup_app_r by lia. by rewrite Nat.sub_diag. }
    rewrite !bool_decide_false by apply H. split; [done|]. intros E. by apply H in E.
Qed.

Lemma tag_comment_stop n m d u r :
  (length u < n)%nat -> (length u < m)%nat ->
  tag_comment n d (u ++ [32%N]) = [32%N] -> tag_comment m d (u ++ 32%N :: r) = 32%N :: r.
Proof.
  revert m d u. induction n as [|n IH]; intros [|m] d u Hn Hm H; try lia.
  destruct u as [|c u].
  { cbn in H. by destruct n. }
  cbn [length] in Hn, Hm. rewrite <-!app_comm_cons in *. cbn [tag_comment] in *. rewrite !app_comm_cons in *.
  destruct (take_sentinel 5 (c :: u) r (lit "<!---")) as [Ho Hol]; [apply (bool_decide_unpack _); by vm_compute|].
  destruct (take_sentinel 4 (c :: u) r (lit "--->")) as [Hc Hcl]; [apply (bool_decide_unpack _); by vm_compute|].
  unfold opens_tag_comment, closes_tag_comment in *. rewrite Ho, Hc. clear Ho Hc.
  destruct (bool_decide (take 5 _ = _)) eqn:E1; [apply bool_decide_eq_true in E1|
    destruct (bool_decide (take 4 _ = _)) eqn:E2; [apply bool_decide_eq_true in E2|]].
  - specialize (Hol E1). rewrite drop_app_le in H |- * by done.
    apply (IH m); [rewrite length_drop; cbn in *; lia..|done].
  - specialize (Hcl E2). rewrite drop_app_le in H |- * by done. destruct d.
    + destruct (drop 4 (c :: u)) as [|x y] eqn:Ed; [done|]. cbn in H. injection H as _ H. by destruct y.
    + apply (IH m); [rewrite length_drop; cbn in *; lia..|done].
  - apply (IH m); [lia..|done].
Qed.

(** ** One written token *)

Section ReadBack.
Context {U : Unicode} (src : str).

Definition rest_of (l : cf_lexer) : str := cu_rest (lx_cursor l).
Definition toks (l : cf_lexer) : list cf_token := map tl_token (lx_tokens l).

Definition reach (l : cf_lexer) : Prop := exists k, lexed src k l.

Lemma reach_step l : reach l -> rest_of l <> [] ->
  reach (scan_token l) /\ scan_all (length src) l = scan_all (length src) (scan_token l).
Proof.
  intros [k Hl] Hr. unfold rest_of in Hr. destruct (cu_rest (lx_cursor l)) as [|c s] eqn:Er; [done|].
  assert (Hlt : (k < length src)%nat) by (eapply at_offset_rest; [apply Hl|done]).
  destruct (lexed_step src k l (scan_token l)) as (k' & _ & Hl'); [done|apply scan_token_emits; [apply Hl|done]|].
  split; [by exists k'|]. rewrite (scan_all_fuel src (length src) (S (length src)) k l Hl) by lia.
  cbn [scan_all]. by rewrite Er.
Qed.

Lemma word_read l c w b r :
  rest_of l = c :: w ++ b :: r -> word_start c = true -> forallb word_char w = true -> is_blank b = true ->
  rest_of (scan_token l) = b :: r /\ toks (scan_token l) = toks l ++ [word_token (c :: w)].
Proof.
  intros Er Hc Hw Hb. unfold rest_of in Er. pose proof (advance_rest _ _ _ Er) as Hr.
  apply word_start_facts in Hc as Hf. destruct Hf as (F1 & F2 & F3 & F4 & F5).
  unfold scan_token. rewrite Hr, Er. change (peek_at 0 (c :: _)) with c. rewrite F1, F2, F3, F4, F5, Hc.
  cbn [andb]. unfold cf_identifier. rewrite Hr, span_stop; [|done|by apply (blank_cases b (fun c => word_char c = false)); [|repeat constructor]].
  unfold word_token, toks, rest_of. destruct (cf_keyword (c :: w)); cbn [lx_cursor lx_tokens default];
    rewrite advance_to_rest by (rewrite Hr; by exists w); by rewrite map_app.
Qed.

Lemma number_read l c t b r :
  rest_of l = c :: t ++ b :: r -> is_ascii_digit c = true -> number_tail t = (t, []) -> is_blank b = true ->
  rest_of (scan_token l) = b :: r /\ toks (scan_token l) = toks l ++ [number_value (c :: t)].
Proof.
  intros Er Hc Ht Hb. unfold rest_of in Er. pose proof (advance_rest _ _ _ Er) as Hr.
  apply digit_facts in Hc as Hf. destruct Hf as (F1 & F2 & F3 & F4).
  unfold scan_token. rewrite Hr, Er. change (peek_at 0 (c :: _)) with c. rewrite F1, F2, F3, F4, Hc.
  cbn [andb]. unfold cf_number. rewrite Hr, number_extends, Ht by done. cbn [fst snd app].
  unfold toks, rest_of. cbn [push_tokens lx_cursor lx_tokens].
  rewrite advance_to_rest by (rewrite Hr; by exists t). by rewrite map_app.
Qed.

(** The arms of [scan_token] before the operators. *)
Definition plain_arm (c : char) (s : str) : Prop :=
  ch_is "." c && is_ascii_digit (peek_at 0 s) = false /\ ch_is "/" c && peek_is "/" s = false
  /\ ch_is "/" c && peek_is "*" s = false /\ ch_is "<" c && bool_decide (take 4 s = lit "!---") = false
  /\ is_quote c = false /\ is_ascii_digit c = false /\ word_start c = false.

Lemma scan_plain l c s : rest_of l = c :: s -> plain_arm c s ->
  scan_token l = scan_operator c (here (lx_cursor l)) (cf_advance (lx_cursor l)) l.
Proof.
  intros Er (F1 & F2 & F3 & F4 & F5 & F6 & F7). unfold rest_of in Er. unfold scan_token.
  rewrite (advance_rest _ _ _ Er), Er. change (peek_at 0 (c :: s)) with c. rewrite F2, F3, F4, F5, F6, F7.
  case_match eqn:E; [|done].
  apply andb_true_iff in E as [[[E1 _]%andb_true_iff E2]%andb_true_iff _]. by rewrite E1, E2 in F1.
Qed.

Definition operator_reads (e : string * cf_token) : Prop :=
  forall r b, is_blank b = true ->
  exists c w, lit e.1 = c :: w /\ plain_arm c (w ++ b :: r)
    /\ operator_token c (w ++ b :: r) = Some (e.2, length w).

Lemma operators_read : Forall operator_reads operators.
Proof.
  repeat (apply Forall_cons; split; [intros r b Hb; eexists _, _; split; [reflexivity|];
    revert b Hb; apply blank_forall; repeat constructor|]). done.
Qed.

Lemma operator_read l op t b r :
  rest_of l = lit op ++ b :: r -> (op, t) ∈ operators -> is_blank b = true ->
  rest_of (scan_token l) = b :: r /\ toks (scan_token l) = toks l ++ [t].
Proof.
  intros Er Hop Hb. pose proof operators_read as Ho. rewrite Forall_forall in Ho.
  destruct (Ho _ Hop r b Hb) as (c & w & Hc & Hp & Ht). cbn [fst snd] in Hc, Ht.
  rewrite Hc, <-app_comm_cons in Er. rewrite (scan_plain l c (w ++ b :: r) Er Hp). unfold rest_of in Er. unfold scan_operator.
  rewrite (advance_rest _ _ _ Er), Ht. unfold rest_of, toks. cbn [push_tokens lx_cursor lx_tokens].
  rewrite iter_rest, (advance_rest _ _ _ Er), drop_app_length, map_app. done.
Qed.

Lemma string_arm l q s : rest_of l = q :: s -> is_quote q = true ->
  scan_token l = push_tokens (cf_string q (cf_advance (lx_cursor l))).1
                             (cf_string q (cf_advance (lx_cursor l))).2 l.
Proof.
  intros Er Hq. unfold rest_of in Er. destruct (quote_arms q Hq) as (F1 & F2 & F3). unfold scan_token.
  rewrite (advance_rest _ _ _ Er), Er. change (peek_at 0 (q :: s)) with q. rewrite F1, F2, F3, Hq.
  cbn [andb]. by destruct (cf_string _ _).
Qed.

Lemma string_read l q s b r :
  rest_of l = q :: escape q s ++ q :: b :: r -> is_quote q = true -> is_blank b = true ->
  rest_of (scan_token l) = b :: r /\ toks (scan_token l) = toks l ++ [TkString s].
Proof.
  intros Er Hq Hb. rewrite (string_arm l q _ Er Hq). unfold rest_of in Er.
  unfold cf_string. rewrite (advance_rest _ _ _ Er).
  assert (Hbq : peek_at 0 (b :: r) <> q).
  { intros <-. unfold is_blank, is_quote in *. cbn in *. solve_char. }
  rewrite (scan_string_text q s _ _ _ _ _ (S (length (b :: r)))) by (done || cbn; lia).
  cbn [scan_string app]. rewrite N.eqb_refl. apply N.eqb_neq in Hbq as ->.
  unfold rest_of, toks. cbn [fst snd push_tokens lx_cursor lx_tokens]. rewrite skipn_cons, drop_0, map_app.
  rewrite advance_to_rest; [done|]. rewrite (advance_rest _ _ _ Er). exists (escape q s ++ [q]). by simplify_list_eq.
Qed.

Lemma interp_read l q ps final b r :
  rest_of l = q :: interp_str q ps final ++ q :: b :: r -> is_quote q = true -> ps <> [] ->
  forallb (interp_ok q) ps = true -> is_blank b = true ->
  rest_of (scan_token l) = b :: r /\ toks (scan_token l) = toks l ++ written_tokens (WInterp q ps final).
Proof.
  intros Er Hq Hne Hps Hb. rewrite (string_arm l q _ Er Hq). unfold rest_of in Er.
  unfold cf_string. rewrite (advance_rest _ _ _ Er).
  assert (Hbq : peek_at 0 (b :: r) <> q).
  { intros <-. unfold is_blank, is_quote in *. cbn in *. solve_char. }
  rewrite (scan_interp q ps final) by done. rewrite bool_decide_false by done.
  unfold rest_of, toks. cbn [fst snd push_tokens lx_cursor lx_tokens orb negb app].
  rewrite skipn_cons, drop_0, map_app, map_map. cbn [tl_token]. rewrite map_id.
  rewrite (push_part_app false final).
  rewrite advance_to_rest; [done|]. rewrite (advance_rest _ _ _ Er). exists (interp_str q ps final ++ [q]).
  by simplify_list_eq.
Qed.

Lemma written_read l w b r :
  rest_of l = written_str w ++ b :: r -> written_ok w = true -> is_blank b = true ->
  rest_of (scan_token l) = b :: r /\ toks (scan_token l) = toks l ++ written_tokens w.
Proof.
  intros Er Hw Hb. destruct w as [[|c w]|c t|op t|q s|q ps final]; cbn [written_str written_ok] in *; [done|..].
  - apply andb_true_iff in Hw as [H1 H2]. by apply word_read.
  - apply andb_true_iff in Hw as [H1 H2%bool_decide_eq_true]. by apply number_read.
  - apply bool_decide_eq_true in Hw. by eapply operator_read.
  - rewrite <-app_comm_cons, <-app_assoc in Er. by eapply string_read.
  - apply andb_true_iff in Hw as [[H1 H2%negb_true_iff]%andb_true_iff H3]. apply bool_decide_eq_false in H2.
    rewrite <-app_comm_cons, <-app_assoc in Er. by apply interp_read.
Qed.

(** ** Gaps *)

Lemma blank_read l c r : rest_of l = c :: r -> is_blank c = true ->
  rest_of (scan_token l) = r /\ toks (scan_token l) = toks l.
Proof.
  intros Er Hc. assert (Hp : plain_arm c r /\ operator_token c r = None).
  { revert c Hc Er. refine (blank_forall _ _); repeat (apply Forall_cons; split; [by intros _; vm_compute|]); done. }
  destruct Hp as [Hp Ho]. rewrite (scan_plain l c r Er Hp). unfold rest_of in *. unfold scan_operator.
  rewrite (advance_rest _ _ _ Er), Ho. unfold toks. cbn. by rewrite app_nil_r, (advance_rest _ _ _ Er).
Qed.

Lemma line_comment_read l s eol r :
  rest_of l = lit "//" ++ s ++ eol :: r -> forallb (fun c => negb (line_end c)) s = true -> line_end eol = true ->
  rest_of (scan_token l) = eol :: r /\ toks (scan_token l) = toks l.
Proof.
  intros Er Hs He. unfold rest_of in Er. change (lit "//" ++ ?x) with (47%N :: 47%N :: x) in Er.
  unfold scan_token. rewrite (advance_rest _ _ _ Er), Er. cbn [andb].
  change (ch_is "." (peek_at 0 (47%N :: 47%N :: s ++ eol :: r))) with false.
  change (ch_is "/" (peek_at 0 (47%N :: 47%N :: s ++ eol :: r))) with true.
  change (peek_is "/" (47%N :: s ++ eol :: r)) with true. cbn [andb].
  rewrite skipn_cons, drop_0. unfold single_line_comment.
  rewrite span_stop by (done || by rewrite He). unfold rest_of, toks. cbn [snd move_to push_tokens lx_cursor lx_tokens].
  rewrite app_nil_r. split; [|done]. apply advance_to_rest. rewrite (advance_rest _ _ _ Er).
  by exists (47%N :: s).
Qed.

Lemma block_comment_read l s r :
  rest_of l = lit "/*" ++ s ++ lit "*/" ++ r -> comment_body (s ++ lit "*/") = (s, []) ->
  rest_of (scan_token l) = r /\ toks (scan_token l) = toks l.
Proof.
  intros Er Hs. unfold rest_of in Er. change (lit "/*" ++ ?x) with (47%N :: 42%N :: x) in Er.
  set (tl := s ++ lit "*/" ++ r) in *. unfold scan_token. rewrite (advance_rest _ _ _ Er), Er.
  change (ch_is "." (peek_at 0 (47%N :: 42%N :: tl))) with false.
  change (ch_is "/" (peek_at 0 (47%N :: 42%N :: tl))) with true.
  change (peek_is "/" (42%N :: tl)) with false. change (peek_is "*" (42%N :: tl)) with true. cbn [andb].
  rewrite skipn_cons, drop_0. pose proof (multi_line_comment_stop s r Hs) as Hm. fold tl in Hm.
  destruct (multi_line_comment tl) as [d r']. cbn [snd] in Hm. subst r'. unfold rest_of, toks.
  cbn [lx_cursor lx_tokens]. split; [|done]. apply advance_to_rest. rewrite (advance_rest _ _ _ Er).
  exists (42%N :: s ++ lit "*/"). subst tl. by simplify_list_eq.
Qed.

Lemma tag_comment_read l s r :
  rest_of l = lit "<!---" ++ s ++ lit "---> " ++ r -> gap_item_ok (GTag s) = true ->
  rest_of (scan_token l) = 32%N :: r /\ toks (scan_token l) = toks l.
Proof.
  intros Er Hs%bool_decide_eq_true. set (t := s ++ lit "--->").
  assert (Et : s ++ lit "---> " = t ++ [32%N]) by (subst t; by simplify_list_eq).
  assert (Et' : s ++ lit "---> " ++ r = t ++ 32%N :: r) by (subst t; by simplify_list_eq).
  rewrite Et in Hs. rewrite Et' in Er. unfold rest_of in Er.
  change (lit "<!---" ++ ?x) with (60%N :: lit "!---" ++ x) in Er.
  set (tl := lit "!---" ++ t ++ 32%N :: r) in *. unfold scan_token. rewrite (advance_rest _ _ _ Er), Er.
  change (ch_is "." (peek_at 0 (60%N :: tl))) with false.
  change (ch_is "/" (peek_at 0 (60%N :: tl))) with false.
  change (ch_is "<" (peek_at 0 (60%N :: tl))) with true. cbn [andb].
  rewrite bool_decide_true by done.
  assert (Ht : tag_comment (length tl) 0 (drop 4 tl) = 32%N :: r).
  { change (drop 4 tl) with (t ++ 32%N :: r). eapply tag_comment_stop, Hs; subst tl; rewrite !length_app; cbn; lia. }
  rewrite Ht. unfold rest_of, toks. cbn [move_to push_tokens lx_cursor lx_tokens]. rewrite app_nil_r.
  split; [|done]. apply advance_to_rest. rewrite (advance_rest _ _ _ Er).
  exists (lit "!---" ++ t). subst tl. by rewrite <-app_assoc.
Qed.

(** The scanner goes from one state to another, pushing some tokens. *)
Definition scans (l : cf_lexer) (ts : list cf_token) (l' : cf_lexer) : Prop :=
  reach l' /\ scan_all (length src) l = scan_all (length src) l' /\ toks l' = toks l ++ ts.

Lemma scans_step l ts : reach l -> rest_of l <> [] -> toks (scan_token l) = toks l ++ ts ->
  scans l ts (scan_token l).
Proof. intros H1 H2 H3. destruct (reach_step l H1 H2). done. Qed.

Lemma scans_trans l1 ts1 l2 ts2 l3 : scans l1 ts1 l2 -> scans l2 ts2 l3 -> scans l1 (ts1 ++ ts2) l3.
Proof.
  intros (_ & E1 & T1) (R2 & E2 & T2). split_and!; [done|by rewrite E1|]. by rewrite T2, T1, app_assoc.
Qed.

Lemma scans_blank l c r : reach l -> rest_of l = c :: r -> is_blank c = true ->
  exists l', scans l [] l' /\ rest_of l' = r.
Proof.
  intros Hl Er Hc. destruct (blank_read l c r Er Hc) as [H1 H2]. exists (scan_token l). split; [|done].
  apply scans_step; [done|by rewrite Er|]. by rewrite app_nil_r.
Qed.

(** A step that stops before a white space, and the white space. *)
Lemma scans_then_blank l c r : reach l -> rest_of l <> [] ->
  rest_of (scan_token l) = c :: r /\ toks (scan_token l) = toks l -> is_blank c = true ->
  exists l', scans l [] l' /\ rest_of l' = r.
Proof.
  intros Hl Hne [H1 H2] Hc. assert (Hs : scans l [] (scan_token l)) by (apply scans_step; [done..|by rewrite app_nil_r]).
  destruct (scans_blank (scan_token l) c r) as (l' & Hs' & Hr); [apply Hs|done..|].
  exists l'. split; [|done]. by apply (scans_trans _ [] (scan_token l) []).
Qed.

Lemma gap_item_read l g r : reach l -> rest_of l = gap_item_str g ++ r -> gap_item_ok g = true ->
  exists l', scans l [] l' /\ rest_of l' = r.
Proof.
  intros Hl Er Hg. assert (Hne : rest_of l <> []) by (rewrite Er; by destruct g).
  destruct g as [c|s eol|s|s].
  - by apply (scans_blank l c r).
  - apply andb_true_iff in Hg as [H1 H2]. cbn [gap_item_str] in Er. rewrite <-!app_assoc in Er.
    eapply scans_then_blank; [done..|by eapply line_comment_read|].
    unfold line_end, is_blank in *. solve_char.
  - apply bool_decide_eq_true in Hg. cbn [gap_item_str] in Er. rewrite <-!app_assoc in Er.
    destruct (block_comment_read l s r Er Hg) as [H1 H2]. exists (scan_token l). split; [|done].
    apply scans_step; [done..|]. by rewrite app_nil_r.
  - cbn [gap_item_str] in Er. rewrite <-!app_assoc in Er.
    eapply scans_then_blank; [done..|by eapply tag_comment_read|done].
Qed.

Lemma gap_read l gs r : reach l -> rest_of l = concat (map gap_item_str gs) ++ r ->
  forallb gap_item_ok gs = true -> exists l', scans l [] l' /\ rest_of l' = r.
Proof.
  revert l. induction gs as [|g gs IH]; intros l Hl Er Hg.
  { exists l. split; [|done]. split_and!; [done..|]. by rewrite app_nil_r. }
  cbn in Er, Hg. apply andb_true_iff in Hg as [Hg Hgs]. rewrite <-app_assoc in Er.
  destruct (gap_item_read l g _ Hl Er Hg) as (l1 & Hs & Hr).
  destruct (IH l1) as (l2 & Hs2 & Hr2); [apply Hs|done..|].
  exists l2. split; [|done]. by apply (scans_trans _ [] l1 []).
Qed.

Lemma written_all_read l ws : reach l -> rest_of l = written_all_str ws -> written_all_ok ws = true ->
  exists l', scans l (concat (map (fun e => written_tokens e.1) ws)) l' /\ rest_of l' = [].
Proof.
  revert l. induction ws as [|[w [c gs]] ws IH]; intros l Hl Er Hw.
  { exists l. split; [|done]. split_and!; [done..|]. by rewrite app_nil_r. }
  cbn in Hw. apply andb_true_iff in Hw as [[Hw Hg]%andb_true_iff Hws].
  unfold gap_ok in Hg. apply andb_true_iff in Hg as [Hc Hgs]. cbn [fst snd] in *.
  unfold written_all_str in Er. cbn [map concat fst snd] in Er. unfold gap_str in Er. cbn [fst snd] in Er.
  rewrite <-app_assoc, <-app_comm_cons in Er.
  destruct (written_read l w c _ Er Hw Hc) as [H1 H2].
  assert (Hs1 : scans l (written_tokens w) (scan_token l)).
  { apply scans_step; [done| |done]. rewrite Er. by destruct (written_str w). }
  destruct (scans_blank (scan_token l) c _ (proj1 Hs1) H1 Hc) as (l2 & Hs2 & Hr2).
  destruct (gap_read l2 gs _ (proj1 Hs2) Hr2 Hgs) as (l3 & Hs3 & Hr3).
  destruct (IH l3 (proj1 Hs3) Hr3 Hws) as (l4 & Hs4 & Hr4).
  exists l4. split; [|done]. cbn [map concat fst].
  apply (scans_trans _ _ (scan_token l)); [done|]. apply (scans_trans _ [] l2 _ _ Hs2).
  by apply (scans_trans _ [] l3).
Qed.
End ReadBack.

Lemma lexed_written {U : Unicode} (ws : list (written * gap)) : written_all_ok ws = true ->
  map tl_token (lx_tokens (cf_lex (written_all_str ws))) = concat (map (fun e => written_tokens e.1) ws) ++ [TkEof].
Proof.
  intros Hw. set (src := written_all_str ws).
  destruct (written_all_read src (cf_lexer_new src) ws) as (l & (Hl & He & Ht) & Hr);
    [exists 0%nat; apply lexed_new|done..|].
  unfold cf_lex. cbn [push_tokens lx_tokens]. rewrite map_app, He. f_equal.
  destruct (length src); cbn [scan_all]; [exact Ht|]. unfold rest_of in Hr. rewrite Hr. exact Ht.
Qed.

(** C3. The tokenizer reads back what is written: words and keywords, numbers,
    every operator, strings with quotes and hashes doubled, and strings with
    interpolated expressions in which strings of either quote are nested to any
    depth; white space, line, block and nested tag comments between them leave
    the tokens as they are. *)
Theorem cf_tokenize_written {U : Unicode} (ws : list (written * gap)) :
  written_all_ok ws = true ->
  map tl_token (cf_tokenize (written_all_str ws))
  = concat (map (fun e => written_tokens e.1) ws) ++ [TkEof].
Proof. intros H. unfold cf_tokenize. exact (lexed_written ws H). Qed.
