(* ===== verification/CfmlNames.v ===== *)
(** * CfmlNames: the token cursor of the CFML parser and the names it reads
    (cfml-compiler: [parser.rs], [Parser::new] to [parse_error], and
    [is_identifier_like] to [consume])

    The token list and the spellings never change during a parse; they are
    variables of the section, and the state is the index of the next token with
    the two nesting depths. *)

From Stdlib Require Import Strings.Ascii.
From stdpp Require Import base list numbers strings.
From S2P Require Import Prelude Text Float64 QoqLexer CfmlLexer.
Local Open Scope nat_scope.

Record pstate := PState { pa_current : nat; pa_expr_depth : nat; pa_stmt_depth : nat }.

(** The texts of [format!("{} (found {:?})")] and [format!("Expected {:?}, found
    {:?}")] are kept as their arguments. *)
Inductive cf_message :=
  | MFound (message : string) (found : cf_token)
  | MExpected (expected found : cf_token)
  | MLexical (message : str).

Record cf_parse_error := CfParseError { pe_message : cf_message; pe_line : N; pe_column : N }.

Definition default_location : source_location := SourceLocation (Position 1 1) (Position 1 1).

(** [binary_search_by_key] of the standard library: the index found, if any. *)
Fixpoint bsearch_go (fuel base size : nat) (k : N) (l : list (N * str)) : nat :=
  match fuel with
  | O => base
  | S fuel =>
      if size <=? 1 then base
      else let half := size / 2 in
           let mid := base + half in
           let base' := match l !! mid with
                        | Some e => if (k <? e.1)%N then base else mid
                        | None => base
                        end in
           bsearch_go fuel base' (size - half) k l
  end.

Definition binary_search_by_key (k : N) (l : list (N * str)) : option nat :=
  let i := bsearch_go (length l) 0 (length l) k l in
  match l !! i with
  | Some e => if (e.1 =? k)%N then Some i else None
  | None => None
  end.

(** The keywords that [extract_identifier] accepts, with the canonical form. *)
Definition identifier_words : list (cf_token * string) :=
  [(TkLocal, "local"); (TkParam, "param"); (TkOutput, "output"); (TkRequired, "required");
   (TkDefault, "default"); (TkInclude, "include"); (TkImport, "import"); (TkProperty, "property");
   (TkAbstract, "abstract"); (TkFinal, "final"); (TkStatic, "static"); (TkLock, "lock");
   (TkFunction, "function"); (TkVar, "var"); (TkThrow, "throw"); (TkComponent, "component");
   (TkInterface, "interface"); (TkPackage, "package"); (TkRemote, "remote"); (TkPublic, "public");
   (TkPrivate, "private"); (TkExtends, "extends"); (TkImplements, "implements"); (TkImpKeyword, "imp");
   (TkContains, "contains"); (TkEqKeyword, "eq"); (TkNeqKeyword, "neq"); (TkGtKeyword, "gt");
   (TkGteKeyword, "gte"); (TkLtKeyword, "lt"); (TkLteKeyword, "lte"); (TkModKeyword, "mod");
   (TkIsKeyword, "is"); (TkXorKeyword, "xor"); (TkEqvKeyword, "eqv"); (TkAndKeyword, "and");
   (TkOrKeyword, "or")]%string.

(** The further ones of [extract_property_name]. *)
Definition property_words : list (cf_token * string) :=
  [(TkIf, "if"); (TkElse, "else"); (TkElseIf, "elseif"); (TkFor, "for"); (TkIn, "in"); (TkWhile, "while");
   (TkDo, "do"); (TkBreak, "break"); (TkContinue, "continue"); (TkReturn, "return"); (TkSwitch, "switch");
   (TkCase, "case"); (TkTry, "try"); (TkCatch, "catch"); (TkFinally, "finally"); (TkThrow, "throw");
   (TkRethrow, "rethrow"); (TkFunction, "function"); (TkVar, "var"); (TkNew, "new"); (TkThis, "this");
   (TkSuper, "super"); (TkComponent, "component"); (TkExtends, "extends"); (TkImplements, "implements");
   (TkInterface, "interface"); (TkPublic, "public"); (TkPrivate, "private"); (TkRemote, "remote");
   (TkPackage, "package"); (TkStatic, "static"); (TkTrue, "true"); (TkFalse, "false"); (TkNull, "null");
   (TkContains, "contains"); (TkNotKeyword, "not"); (TkAndKeyword, "and"); (TkOrKeyword, "or");
   (TkXorKeyword, "xor"); (TkEqKeyword, "eq"); (TkNeqKeyword, "neq"); (TkGtKeyword, "gt");
   (TkGteKeyword, "gte"); (TkLtKeyword, "lt"); (TkLteKeyword, "lte"); (TkModKeyword, "mod");
   (TkIsKeyword, "is")]%string.

Definition word_of (table : list (cf_token * string)) (t : cf_token) : option string :=
  snd <$> find (fun e => bool_decide (e.1 = t)) table.

Definition is_identifier_like (t : cf_token) : bool :=
  match t with
  | TkIdentifier _ | TkLocal | TkParam | TkOutput | TkRequired | TkDefault | TkInclude | TkImport
  | TkProperty | TkAbstract | TkFinal | TkStatic | TkLock | TkFunction | TkVar | TkThrow | TkComponent
  | TkInterface | TkPackage | TkRemote | TkPublic | TkPrivate | TkExtends | TkImplements
  | TkImpKeyword | TkContains | TkEqKeyword | TkNeqKeyword | TkGtKeyword | TkGteKeyword | TkLtKeyword
  | TkLteKeyword | TkModKeyword | TkIsKeyword | TkXorKeyword | TkEqvKeyword | TkAndKeyword | TkOrKeyword => true
  | _ => false
  end.

Definition is_tag_attr_key (t : cf_token) : bool :=
  is_identifier_like t || match t with TkNull => true | _ => false end.

Definition is_property_name (t : cf_token) : bool :=
  is_identifier_like t
  || match t with
     | TkIf | TkElse | TkElseIf | TkFor | TkIn | TkWhile | TkDo | TkBreak | TkContinue | TkReturn | TkSwitch
     | TkCase | TkTry | TkCatch | TkFinally | TkRethrow | TkNew | TkThis | TkSuper | TkTrue | TkFalse | TkNull
     | TkContains | TkNotKeyword | TkAndKeyword | TkOrKeyword | TkXorKeyword | TkEqKeyword | TkNeqKeyword
     | TkGtKeyword | TkGteKeyword | TkLtKeyword | TkLteKeyword | TkModKeyword | TkIsKeyword => true
     | _ => false
     end.

Definition is_param_word (t : cf_token) : bool :=
  is_identifier_like t
  || match t with
     | TkIf | TkElse | TkElseIf | TkFor | TkIn | TkWhile | TkDo | TkBreak | TkContinue | TkReturn | TkSwitch
     | TkCase | TkTry | TkCatch | TkFinally | TkRethrow | TkNew | TkThis | TkSuper | TkTrue | TkFalse | TkNull
     | TkContains | TkNotKeyword | TkAndKeyword | TkOrKeyword | TkEqKeyword | TkNeqKeyword
     | TkGtKeyword | TkGteKeyword | TkLtKeyword | TkLteKeyword | TkModKeyword | TkIsKeyword => true
     | _ => false
     end.

(** [token_as_string] *)
Definition token_as_string (t : cf_token) : option string :=
  match t with
  | TkOutput => Some "output" | TkPublic => Some "public" | TkPrivate => Some "private"
  | TkRemote => Some "remote" | TkPackage => Some "package" | TkStatic => Some "static"
  | TkAbstract => Some "abstract" | TkFinal => Some "final" | TkRequired => Some "required"
  | TkDefault => Some "default" | TkLock => Some "lock"
  | _ => None
  end%string.

Section Names.
Context (tokens : list token_with_loc) (raw_spellings : list (N * str)).

Abbreviation parsing := (ST pstate cf_parse_error).
Local Open Scope st_scope.

Definition peek (s : pstate) (offset : nat) : cf_token :=
  match tokens !! (pa_current s + offset) with Some t => tl_token t | None => TkEof end.

(** The parser does not go past the end marker, where [tokens[current]] is. *)
Definition is_at_end (s : pstate) : bool := bool_decide (peek s 0 = TkEof).

Definition current_location (s : pstate) : source_location :=
  match tokens !! pa_current s with Some t => tl_location t | None => default_location end.

Definition set_current (n : nat) (s : pstate) : pstate := PState n (pa_expr_depth s) (pa_stmt_depth s).
Definition set_depth (n : nat) (s : pstate) : pstate := PState (pa_current s) n (pa_stmt_depth s).

(** [tokens[current - 1]] *)
Definition previous (s : pstate) : outcome cf_parse_error cf_token :=
  match pa_current s with
  | O => Panic
  | S n => match tokens !! n with Some t => Ok (tl_token t) | None => Panic end
  end.

Definition skip_token (s : pstate) : pstate := if is_at_end s then s else set_current (S (pa_current s)) s.

Definition tok_advance : parsing cf_token := fun s => let s' := skip_token s in (s', previous s').

(** A call of [advance] whose token is not used. *)
Definition tok_skip : parsing unit := let! _ := tok_advance in st_ret tt.

Definition check (t : cf_token) (s : pstate) : bool := negb (is_at_end s) && bool_decide (peek s 0 = t).

Definition match_token (t : cf_token) : parsing bool :=
  fun s => if check t s then st_bind tok_advance (fun _ => st_ret true) s else (s, Ok false).

Definition peek_word (offset : nat) (word : string) (s : pstate) : bool :=
  match peek s offset with TkIdentifier w => eq_ignore_ascii_case w (lit word) | _ => false end.

Definition match_word (word : string) : parsing bool :=
  fun s => if peek_word 0 word s then st_bind tok_advance (fun _ => st_ret true) s else (s, Ok false).

Definition error_at (m : cf_message) (s : pstate) : cf_parse_error :=
  let p := sl_start (current_location s) in CfParseError m (po_line p) (po_column p).

Definition tok_error {A} (message : string) : parsing A :=
  fun s => (s, Err (error_at (MFound message (peek s 0)) s)).

Definition consume (t : cf_token) : parsing unit :=
  fun s => if check t s then tok_skip s else (s, Err (error_at (MExpected t (peek s 0)) s)).

Definition consumed_keyword_name (canonical : string) (s : pstate) : str :=
  match pa_current s with
  | O => lit canonical
  | S n =>
      match binary_search_by_key (wrap_u32 (N.of_nat n)) raw_spellings with
      | Some i => match raw_spellings !! i with Some e => e.2 | None => lit canonical end
      | None => lit canonical
      end
  end.

(** The keyword at the cursor as a name, in its spelling. *)
Definition take_keyword (canonical : string) : parsing str :=
  let! _ := tok_skip in fun s => (s, Ok (consumed_keyword_name canonical s)).

Definition extract_identifier : parsing str :=
  fun s =>
    match peek s 0 with
    | TkIdentifier _ =>
        (let! t := tok_advance in
         match t with TkIdentifier id => st_ret id | _ => st_panic end) s
    | t => match word_of identifier_words t with
           | Some w => take_keyword w s
           | None => tok_error "Expected identifier" s
           end
    end.

Definition extract_property_name : parsing str :=
  fun s =>
    match extract_identifier s with
    | (s', Err _) =>
        match word_of property_words (peek s' 0) with
        | Some w => take_keyword w s'
        | None => tok_error "Expected property name" s'
        end
    | r => r
    end.

Definition extract_function_name : parsing str := extract_property_name.

Definition extract_tag_attr_key : parsing str :=
  fun s => match peek s 0 with
           | TkNull => (let! _ := tok_skip in st_ret (lit "null")) s
           | _ => extract_identifier s
           end.

(** The [while] loop over [. name]; every round consumes a token. *)
Fixpoint dotted_tail (fuel : nat) (path : str) : parsing str :=
  match fuel with
  | O => st_ret path
  | S fuel =>
      let! dot := match_token TkDot in
      if dot : bool then
        let! next := extract_property_name in
        dotted_tail fuel (path ++ lit "." ++ next)
      else st_ret path
  end.

Definition extract_dotted_identifier : parsing str :=
  let! path := extract_identifier in dotted_tail (length tokens) path.

Definition extract_param_word : parsing str :=
  let! path := extract_property_name in dotted_tail (length tokens) path.
End Names.

(** [Parser::new] on a source text: its tokens and spellings. *)
Section Source.
Context {U : Unicode}.

Definition parser_start : pstate := PState 0 0 0.
Definition source_tokens (source : str) : list token_with_loc := lx_tokens (cf_lex source).
Definition source_spellings (source : str) : list (N * str) := lx_raw_spellings (cf_lex source).

(** The first loop of [parse]: an error of the tokenizer is reported where it is. *)
Definition lexical_error (tokens : list token_with_loc) : option cf_parse_error :=
  match find (fun t => match tl_token t with TkError _ => true | _ => false end) tokens with
  | Some (TokenWithLoc (TkError m) l) =>
      Some (CfParseError (MLexical m) (po_line (sl_start l)) (po_column (sl_start l)))
  | _ => None
  end.
End Source.
