(* ===== verification/CfmlNamesFacts.v ===== *)
(** * CfmlNamesFacts: every word is a name in the spelling it was written in *)

From Stdlib Require Import Strings.Ascii.
From stdpp Require Import base list numbers strings sorting.
From S2P Require Import Prelude Text Float64 QoqLexer CfmlLexer CfmlLexerFacts CfmlNames.
Local Open Scope nat_scope.

(** ** The binary search *)

Definition keys_sorted (l : list (N * str)) : Prop :=
  forall i j e e', i < j -> l !! i = Some e -> l !! j = Some e' -> (e.1 < e'.1)%N.

Lemma bsearch_go_found fuel base size k l j e :
  keys_sorted l -> l !! j = Some e -> e.1 = k -> base <= j < base + size -> base + size <= length l ->
  size <= S fuel -> bsearch_go fuel base size k l = j.
Proof.
  intros Hs Hj Hk. revert base size. induction fuel as [|fuel IH]; intros base size Hb Hl Hf; cbn [bsearch_go]; [lia|].
  destruct (Nat.leb_spec size 1) as [|Hsz]; [lia|].
  assert (Hh : 1 <= size / 2 /\ size / 2 < size /\ size / 2 <= size - size / 2).
  { pose proof (Nat.div_mod_eq size 2). pose proof (Nat.mod_upper_bound size 2). lia. }
  assert (Hm : base + size / 2 < length l) by lia. apply lookup_lt_is_Some in Hm as [m Hm]. rewrite Hm.
  destruct (N.ltb_spec k m.1) as [Hlt|Hge]; apply IH; try lia.
  - assert (j < base + size / 2); [|lia].
    destruct (Nat.lt_trichotomy j (base + size / 2)) as [|[->|Hgt]]; [done| |].
    + rewrite Hm in Hj. simplify_eq. lia.
    + pose proof (Hs _ _ _ _ Hgt Hm Hj). lia.
  - destruct (Nat.lt_trichotomy j (base + size / 2)) as [Hlt|[->|Hgt]]; [|lia..].
    pose proof (Hs _ _ _ _ Hlt Hj Hm). lia.
Qed.

Lemma binary_search_found k l j e :
  keys_sorted l -> l !! j = Some e -> e.1 = k -> binary_search_by_key k l = Some j.
Proof.
  intros Hs Hj Hk. pose proof (lookup_lt_Some _ _ _ Hj). unfold binary_search_by_key.
  rewrite (bsearch_go_found _ _ _ _ _ j e) by (done || lia). rewrite Hj, Hk, N.eqb_refl. done.
Qed.

Lemma binary_search_absent k l : (forall e, e ∈ l -> e.1 <> k) -> binary_search_by_key k l = None.
Proof.
  intros H. unfold binary_search_by_key. destruct (l !! _) as [e|] eqn:E; [|done].
  apply list_elem_of_lookup_2, H, N.eqb_neq in E. by rewrite E.
Qed.

(** ** The spellings the tokenizer keeps *)

Section Raws.
Context (src : str).

Definition raw_at (n : nat) (te : token_with_loc * (nat * nat)) : list (N * str) :=
  raw_word n (slice src te.2.1 te.2.2) (tl_token te.1).

Lemma raws_of_snoc tes te : raws_of src (tes ++ [te]) = raws_of src tes ++ raw_at (length tes) te.
Proof.
  unfold raws_of. rewrite imap_app, concat_app. cbn. by rewrite app_nil_r, Nat.add_0_r.
Qed.

Lemma raw_word_cases n w t : raw_word n w t = [] \/ raw_word n w t = [(wrap_u32 (N.of_nat n), w)].
Proof. unfold raw_word. case_match; auto. Qed.

Lemma raws_of_elem tes x : x ∈ raws_of src tes -> exists n te, tes !! n = Some te /\ x ∈ raw_at n te.
Proof.
  induction tes as [|te tes IH] using rev_ind; [by intros ?%elem_of_nil|].
  rewrite raws_of_snoc, elem_of_app. intros [H|H].
  - destruct (IH H) as (n & te' & Hn & Hx). exists n, te'. split; [by apply lookup_app_l_Some|done].
  - exists (length tes), te. split; [by rewrite lookup_app_r, Nat.sub_diag|done].
Qed.

Lemma raws_of_sorted tes : (N.of_nat (length tes) < 2 ^ 32)%N -> keys_sorted (raws_of src tes).
Proof.
  induction tes as [|te tes IH] using rev_ind; intros Hlen; [by intros [] ????|].
  rewrite length_app in Hlen. cbn in Hlen. rewrite raws_of_snoc. unfold raw_at.
  destruct (raw_word_cases (length tes) (slice src te.2.1 te.2.2) (tl_token te.1)) as [->| ->].
  { rewrite app_nil_r. apply IH. lia. }
  intros i j e e' Hij Hi Hj. apply lookup_app_Some in Hj as [Hj|[Hge Hj]].
  { rewrite lookup_app_l in Hi by (apply lookup_lt_Some in Hj; lia). eapply (IH ltac:(lia)); eauto. }
  destruct (j - length (raws_of src tes)) as [|n] eqn:Ej; [|by rewrite lookup_cons, lookup_nil in Hj; destruct n].
  cbn in Hj. simplify_eq. rewrite lookup_app_l in Hi by lia.
  apply list_elem_of_lookup_2, raws_of_elem in Hi as (n & te' & Hn & Hx). unfold raw_at in Hx.
  apply lookup_lt_Some in Hn. destruct (raw_word_cases n (slice src te'.2.1 te'.2.2) (tl_token te'.1)) as [E|E];
    rewrite E in Hx; [by apply elem_of_nil in Hx|]. apply list_elem_of_singleton in Hx as ->.
  cbn. unfold wrap_u32. rewrite !N.mod_small by lia. lia.
Qed.
End Raws.

Section Recovered.
Context (src : str).

Lemma raws_of_in tes n te x : tes !! n = Some te -> x ∈ raw_at src n te -> x ∈ raws_of src tes.
Proof.
  induction tes as [|te' tes IH] using rev_ind; [done|]. rewrite raws_of_snoc, elem_of_app.
  intros [H|[Hge H]]%lookup_app_Some Hx; [by left; apply IH|].
  right. destruct (n - length tes) as [|m] eqn:E; [|by destruct m]. cbn in H. simplify_eq.
  by replace (length tes) with n by lia.
Qed.

(** The name read at a keyword: its entry, or the canonical form. *)
Lemma spelling_recovered tes n te canonical d e :
  tes !! n = Some te -> (N.of_nat (length tes) < 2 ^ 32)%N ->
  consumed_keyword_name (raws_of src tes) canonical (PState (S n) d e)
  = match raw_at src n te with [] => lit canonical | x :: _ => x.2 end.
Proof.
  intros Hn Hlen. pose proof (lookup_lt_Some _ _ _ Hn) as Hlt. unfold consumed_keyword_name. cbn [pa_current].
  pose proof (raw_word_cases n (slice src te.2.1 te.2.2) (tl_token te.1)) as Hc. fold (raw_at src n te) in Hc.
  destruct Hc as [E|E].
  - rewrite E, binary_search_absent; [done|]. intros x (m & te' & Hm & Hx)%raws_of_elem Hk.
    unfold raw_at in Hx. pose proof (lookup_lt_Some _ _ _ Hm).
    destruct (raw_word_cases m (slice src te'.2.1 te'.2.2) (tl_token te'.1)) as [E'|E']; rewrite E' in Hx;
      [by apply elem_of_nil in Hx|]. apply list_elem_of_singleton in Hx as ->. cbn in Hk.
    unfold wrap_u32 in Hk. rewrite !N.mod_small in Hk by lia. assert (m = n) as -> by lia.
    rewrite Hn in Hm. simplify_eq. unfold raw_at in E. congruence.
  - rewrite E. set (x := (wrap_u32 (N.of_nat n), slice src te.2.1 te.2.2)).
    assert (Hx : x ∈ raws_of src tes) by (eapply raws_of_in; [done|]; rewrite E; by apply list_elem_of_singleton).
    apply list_elem_of_lookup_1 in Hx as [j Hj].
    by rewrite (binary_search_found _ _ j x (raws_of_sorted src tes Hlen) Hj), Hj.
Qed.
End Recovered.

Lemma lower_same (w : str) : existsb is_ascii_uppercase w = false -> map ascii_lower w = w.
Proof.
  induction w as [|c w IH]; [done|]. cbn. intros [Hc Hw]%orb_false_iff. rewrite IH by done. f_equal.
  unfold ascii_lower. unfold is_ascii_uppercase in Hc. by rewrite Hc.
Qed.

(** A keyword without an entry was written in its canonical form. *)
Lemma canonical_word n w t k :
  cf_keyword w = Some t -> raw_word n w t = [] ->
  word_of identifier_words t = Some k \/ word_of property_words t = Some k -> lit k = w.
Proof.
  intros Hw Hr Hk. unfold raw_word in Hr. rewrite bool_decide_true in Hr by done. cbn [andb] in Hr.
  destruct (is_alias w || existsb is_ascii_uppercase w) eqn:E; [done|].
  apply orb_false_iff in E as [Ha Hu]. unfold cf_keyword in Hw. case_match; [done|].
  apply fmap_Some in Hw as ([k' t'] & Hf & ->). cbn [snd] in Hk. apply find_some in Hf as [Hin Hl].
  apply bool_decide_eq_true in Hl. cbn [fst] in Hl. rewrite lower_same in Hl by done. subst w.
  assert (Hall : forallb (fun e => is_alias (lit e.1)
    || bool_decide (word_of identifier_words e.2 ∈ [None; Some e.1]%string)
       && bool_decide (word_of property_words e.2 ∈ [None; Some e.1]%string)) cf_keywords = true) by by vm_compute.
  rewrite forallb_forall in Hall. specialize (Hall _ Hin). cbn [fst snd] in Hall. rewrite Ha in Hall. cbn [orb] in Hall.
  apply andb_true_iff in Hall as [H1%bool_decide_eq_true H2%bool_decide_eq_true].
  rewrite !elem_of_cons in H1, H2. f_equal. destruct Hk as [Hk|Hk]; rewrite Hk in *.
  - destruct H1 as [H1|[H1|H1]]; [congruence..|by apply elem_of_nil in H1].
  - destruct H2 as [H2|[H2|H2]]; [congruence..|by apply elem_of_nil in H2].
Qed.

(** ** The predicates mirror the extractors *)

Definition is_word_token (t : cf_token) : bool := match t with TkIdentifier _ => true | _ => false end.

Lemma identifier_like_word t :
  is_identifier_like t = is_word_token t || match word_of identifier_words t with Some _ => true | None => false end.
Proof. by destruct t; vm_compute. Qed.

Lemma property_name_word t :
  is_property_name t = is_identifier_like t
    || match word_of property_words t with Some _ => true | None => false end.
Proof. by destruct t; vm_compute. Qed.

Lemma param_word_property t : is_param_word t = is_property_name t.
Proof. by destruct t. Qed.

Lemma property_word_keyword t : is_property_name t = true -> is_word_token t = true \/ keyword_token t = true.
Proof. destruct t; cbn; auto. Qed.

Lemma operator_not_word c s w n : operator_token c s <> Some (TkIdentifier w, n).
Proof. unfold operator_token. repeat (case_match; try done). Qed.

Lemma keyword_not_word t : keyword_token t = true -> is_word_token t = false.
Proof. by destruct t. Qed.

Lemma extract_identifier_keyword tokens raws s : is_word_token (peek tokens s 0) = false ->
  extract_identifier tokens raws s
  = match word_of identifier_words (peek tokens s 0) with
    | Some w => take_keyword tokens raws w s
    | None => tok_error tokens "Expected identifier" s
    end.
Proof. unfold extract_identifier. destruct (peek tokens s 0); first [discriminate | reflexivity]. Qed.

Section Extract.
Context (src : str) (tokens : list token_with_loc) (raws : list (N * str)) (spans : list (nat * nat)).

(** The tokens with the places they were read from. *)
Hypothesis Hspans : Forall2 (token_at src) tokens spans.
Hypothesis Hraws : raws = raws_of src (zip tokens spans).
Hypothesis Hsmall : (N.of_nat (length tokens) < 2 ^ 32)%N.

Lemma peek_lookup i d e t : tokens !! i = Some t -> peek tokens (PState i d e) 0 = tl_token t.
Proof. intros H. unfold peek. cbn. by rewrite Nat.add_0_r, H. Qed.

Lemma advance_lookup i d e t : tokens !! i = Some t -> tl_token t <> TkEof ->
  tok_advance tokens (PState i d e) = (PState (S i) d e, Ok (tl_token t)).
Proof.
  intros H Hne. unfold tok_advance, skip_token, is_at_end. rewrite (peek_lookup _ _ _ _ H), bool_decide_false by done.
  cbn. by rewrite H.
Qed.

Lemma spelled_word i t sp : tokens !! i = Some t -> spans !! i = Some sp ->
  is_property_name (tl_token t) = true ->
  (tl_token t = TkIdentifier (slice src sp.1 sp.2)) \/ cf_keyword (slice src sp.1 sp.2) = Some (tl_token t).
Proof.
  intros Ht Hsp Hp. pose proof (Forall2_lookup_lr _ _ _ _ _ _ Hspans Ht Hsp) as (_ & _ & H).
  revert H Hp. generalize (tl_token t) as tk. intros tk H Hp.
  destruct H as [w Hw _|t' Hk|t' Hn|c s t' _ _ Ho|q t' _ _ _ Hs|msg _|_]; try done.
  - left. by rewrite Hw.
  - by right.
  - exfalso. apply property_word_keyword in Hp as [Hp|Hp]; rewrite <-Hn in Hp;
      [|by rewrite number_value_plain in Hp]. revert Hp. unfold number_value. by repeat case_match.
  - exfalso. apply operator_plain in Ho as Hk. apply property_word_keyword in Hp as [Hp|Hp]; [|congruence].
    destruct t'; try done. by apply operator_not_word in Ho.
  - exfalso. by destruct t'.
Qed.

Lemma keyword_exact i d e t sp k : tokens !! i = Some t -> spans !! i = Some sp ->
  cf_keyword (slice src sp.1 sp.2) = Some (tl_token t) -> tl_token t <> TkEof ->
  word_of identifier_words (tl_token t) = Some k \/ word_of property_words (tl_token t) = Some k ->
  take_keyword tokens raws k (PState i d e) = (PState (S i) d e, Ok (slice src sp.1 sp.2)).
Proof.
  intros Ht Hsp Hk Hne Hw. unfold take_keyword, tok_skip, st_bind. rewrite (advance_lookup i d e t Ht Hne).
  unfold st_ret. do 2 f_equal.
  assert (Hz : zip tokens spans !! i = Some (t, sp)) by (apply lookup_zip_with_Some; eauto).
  rewrite Hraws, (spelling_recovered src _ i (t, sp)) by (done || rewrite length_zip_with; lia).
  unfold raw_at. cbn [fst snd]. destruct (raw_word_cases i (slice src sp.1 sp.2) (tl_token t)) as [E|E]; rewrite E.
  - by eapply canonical_word.
  - done.
Qed.

(** Every name slot: the word at the cursor, in its spelling. *)
Lemma extract_identifier_exact i d e t sp : tokens !! i = Some t -> spans !! i = Some sp ->
  is_identifier_like (tl_token t) = true ->
  extract_identifier tokens raws (PState i d e) = (PState (S i) d e, Ok (slice src sp.1 sp.2)).
Proof.
  intros Ht Hsp Hi. pose proof (peek_lookup i d e t Ht) as Hp.
  assert (Hne : tl_token t <> TkEof) by (intros E; by rewrite E in Hi).
  destruct (spelled_word i t sp Ht Hsp) as [Hw|Hk]; [by rewrite property_name_word, Hi| |].
  - unfold extract_identifier. rewrite Hp, Hw. unfold st_bind. rewrite (advance_lookup i d e t Ht Hne), Hw. done.
  - assert (Hkt : keyword_token (tl_token t) = true) by by eapply cf_keyword_token.
    rewrite identifier_like_word in Hi.
    rewrite (keyword_not_word _ Hkt) in Hi.
    destruct (word_of identifier_words (tl_token t)) as [k|] eqn:Ek; [|done].
    assert (He : extract_identifier tokens raws (PState i d e) = take_keyword tokens raws k (PState i d e)).
    { rewrite extract_identifier_keyword, Hp, Ek; [done|]. rewrite Hp. by apply keyword_not_word. }
    rewrite He. exact (keyword_exact i d e t sp k Ht Hsp Hk Hne (or_introl Ek)).
Qed.

Lemma extract_property_name_exact i d e t sp : tokens !! i = Some t -> spans !! i = Some sp ->
  is_property_name (tl_token t) = true ->
  extract_property_name tokens raws (PState i d e) = (PState (S i) d e, Ok (slice src sp.1 sp.2)).
Proof.
  intros Ht Hsp Hn. unfold extract_property_name. destruct (is_identifier_like (tl_token t)) eqn:Ei.
  { by rewrite (extract_identifier_exact i d e t sp Ht Hsp Ei). }
  pose proof (peek_lookup i d e t Ht) as Hp.
  assert (Hne : tl_token t <> TkEof) by (intros E; by rewrite E in Hn).
  pose proof Ei as Ei'. rewrite identifier_like_word in Ei'. apply orb_false_iff in Ei' as [Ew Ek].
  rewrite extract_identifier_keyword by by rewrite Hp. rewrite Hp.
  destruct (word_of identifier_words (tl_token t)) eqn:E1; [discriminate Ek|].
  unfold tok_error. rewrite Hp. rewrite property_name_word, Ei in Hn.
  destruct (word_of property_words (tl_token t)) as [k|] eqn:E2; [|discriminate Hn].
  destruct (spelled_word i t sp Ht Hsp) as [Hw|Hk]; [by rewrite property_name_word, Ei, E2| |].
  - by rewrite Hw in Ew.
  - exact (keyword_exact i d e t sp k Ht Hsp Hk Hne (or_intror E2)).
Qed.

Lemma extract_identifier_refuses s : is_identifier_like (peek tokens s 0) = false ->
  extract_identifier tokens raws s
  = (s, Err (error_at tokens (MFound "Expected identifier" (peek tokens s 0)) s)).
Proof.
  intros Hi. rewrite identifier_like_word in Hi. apply orb_false_iff in Hi as [Hw Hi].
  rewrite extract_identifier_keyword by done. by destruct (word_of identifier_words (peek tokens s 0)).
Qed.

(** The name of a tag attribute may also be [null]. *)
Lemma extract_tag_attr_key_exact i d e t : tokens !! i = Some t ->
  extract_tag_attr_key tokens raws (PState i d e)
  = if bool_decide (tl_token t = TkNull) then (PState (S i) d e, Ok (lit "null"))
    else extract_identifier tokens raws (PState i d e).
Proof.
  intros Ht. unfold extract_tag_attr_key. rewrite (peek_lookup i d e t Ht). case_bool_decide as E.
  - rewrite E. unfold tok_skip, st_bind. by rewrite (advance_lookup i d e t Ht) by by rewrite E.
  - by destruct (tl_token t).
Qed.

(** A token that is no name is left where it is. *)
Lemma extract_property_name_refuses s : is_property_name (peek tokens s 0) = false ->
  extract_property_name tokens raws s
  = (s, Err (error_at tokens (MFound "Expected property name" (peek tokens s 0)) s)).
Proof.
  intros Hn. rewrite property_name_word in Hn. apply orb_false_iff in Hn as [Hi Hk].
  rewrite identifier_like_word in Hi. apply orb_false_iff in Hi as [Hw Hi]. unfold extract_property_name.
  rewrite extract_identifier_keyword by done.
  destruct (word_of identifier_words (peek tokens s 0)); [discriminate Hi|]. unfold tok_error at 1.
  destruct (word_of property_words (peek tokens s 0)); [discriminate Hk|done].
Qed.

(** The names after an identifier, each behind a dot. *)
Inductive path_from : nat -> list str -> Prop :=
  | path_end i : tl_token <$> tokens !! i <> Some TkDot -> path_from i []
  | path_more i dot t sp ws :
      tokens !! i = Some dot -> tl_token dot = TkDot -> tokens !! S i = Some t -> spans !! S i = Some sp ->
      is_property_name (tl_token t) = true -> path_from (S (S i)) ws ->
      path_from i (slice src sp.1 sp.2 :: ws).

Lemma path_length i ws : path_from i ws -> 2 * length ws <= length tokens - i.
Proof.
  induction 1 as [i _|i dot t sp ws H1 _ H2 _ _ _ IH]; [cbn; lia|].
  apply lookup_lt_Some in H2. cbn [length]. lia.
Qed.

Lemma check_lookup i d e t u : tokens !! i = Some t -> u <> TkEof ->
  check tokens u (PState i d e) = bool_decide (tl_token t = u).
Proof.
  intros H Hu. unfold check, is_at_end. rewrite (peek_lookup i d e t H).
  destruct (decide (tl_token t = TkEof)) as [E|E].
  - rewrite E, bool_decide_true, bool_decide_false by congruence. done.
  - by rewrite (bool_decide_false (tl_token t = TkEof)).
Qed.

Lemma dotted_tail_exact fuel path i d e ws : path_from i ws -> length ws <= fuel ->
  dotted_tail tokens raws fuel path (PState i d e)
  = (PState (i + 2 * length ws) d e, Ok (path ++ concat (map (fun w => lit "." ++ w) ws))).
Proof.
  intros H. revert fuel path. induction H as [i Hd|i dot t sp ws H1 Hdot H2 Hsp Hn _ IH]; intros fuel path Hf.
  - cbn. rewrite Nat.add_0_r, app_nil_r. destruct fuel as [|fuel]; [done|]. cbn [dotted_tail].
    unfold st_bind, match_token. replace (check tokens TkDot (PState i d e)) with false; [done|].
    unfold check, is_at_end, peek. cbn [pa_current]. rewrite Nat.add_0_r. destruct (tokens !! i) as [t|]; [|done].
    cbn in Hd. rewrite (bool_decide_false (tl_token t = TkDot)) by congruence. by rewrite andb_false_r.
  - destruct fuel as [|fuel]; [cbn in Hf; lia|]. cbn [dotted_tail]. unfold st_bind at 1, match_token.
    rewrite (check_lookup i d e dot) by done. rewrite bool_decide_true by done. unfold st_bind at 1.
    rewrite (advance_lookup i d e dot H1) by by rewrite Hdot. unfold st_ret at 1, st_bind.
    rewrite (extract_property_name_exact (S i) d e t sp H2 Hsp Hn).
    rewrite IH by (cbn in Hf; lia). cbn [length map concat]. f_equal; [f_equal; lia|]. f_equal.
    by rewrite <-!app_assoc.
Qed.

Lemma dotted_identifier_exact i d e t sp ws : tokens !! i = Some t -> spans !! i = Some sp ->
  is_identifier_like (tl_token t) = true -> path_from (S i) ws ->
  extract_dotted_identifier tokens raws (PState i d e)
  = (PState (S i + 2 * length ws) d e,
     Ok (slice src sp.1 sp.2 ++ concat (map (fun w => lit "." ++ w) ws))).
Proof.
  intros Ht Hsp Hi Hp. unfold extract_dotted_identifier, st_bind.
  rewrite (extract_identifier_exact i d e t sp Ht Hsp Hi). apply dotted_tail_exact; [done|].
  apply path_length in Hp. lia.
Qed.

Lemma param_word_exact i d e t sp ws : tokens !! i = Some t -> spans !! i = Some sp ->
  is_property_name (tl_token t) = true -> path_from (S i) ws ->
  extract_param_word tokens raws (PState i d e)
  = (PState (S i + 2 * length ws) d e,
     Ok (slice src sp.1 sp.2 ++ concat (map (fun w => lit "." ++ w) ws))).
Proof.
  intros Ht Hsp Hi Hp. unfold extract_param_word, st_bind.
  rewrite (extract_property_name_exact i d e t sp Ht Hsp Hi). apply dotted_tail_exact; [done|].
  apply path_length in Hp. lia.
Qed.
End Extract.

(** C8. Names keep their spelling, in every source of fewer than 2^32 tokens.  The slot of an identifier
    and the slot of a property or function name read an identifier, or a keyword
    they accept, as the text it was written as, and leave the cursor alone when no
    such word stands there.  A dotted path and the word of a parameter are such
    words joined by dots.  The slot of a tag attribute is that of an identifier,
    except that it also takes the keyword [null], and names it "null" however it
    is spelled.  The lookahead predicates accept exactly what the slots accept. *)
Theorem names_exact {U : Unicode} (src : str) :
  (N.of_nat (length (source_tokens src)) < 2 ^ 32)%N ->
  let tokens := source_tokens src in let raws := source_spellings src in
  exists spans, in_order spans /\ Forall2 (token_at src) tokens spans
  /\ (forall i d e t sp, tokens !! i = Some t -> spans !! i = Some sp ->
        extract_property_name tokens raws (PState i d e)
        = (if is_property_name (tl_token t) then (PState (S i) d e, Ok (slice src sp.1 sp.2))
           else (PState i d e, Err (error_at tokens (MFound "Expected property name" (tl_token t)) (PState i d e))))
        /\ is_param_word (tl_token t) = is_property_name (tl_token t))
  /\ (forall i d e t sp, tokens !! i = Some t -> spans !! i = Some sp ->
        extract_identifier tokens raws (PState i d e)
        = (if is_identifier_like (tl_token t) then (PState (S i) d e, Ok (slice src sp.1 sp.2))
           else (PState i d e, Err (error_at tokens (MFound "Expected identifier" (tl_token t)) (PState i d e))))
        /\ extract_tag_attr_key tokens raws (PState i d e)
           = (if bool_decide (tl_token t = TkNull) then (PState (S i) d e, Ok (lit "null"))
              else extract_identifier tokens raws (PState i d e))
        /\ is_tag_attr_key (tl_token t) = is_identifier_like (tl_token t) || bool_decide (tl_token t = TkNull))
  /\ (forall i d e t sp ws, tokens !! i = Some t -> spans !! i = Some sp -> path_from src tokens spans (S i) ws ->
        let path := (PState (S i + 2 * length ws) d e,
                     Ok (slice src sp.1 sp.2 ++ concat (map (fun w => lit "." ++ w) ws))) in
        (is_identifier_like (tl_token t) = true -> extract_dotted_identifier tokens raws (PState i d e) = path)
        /\ (is_property_name (tl_token t) = true -> extract_param_word tokens raws (PState i d e) = path)).
Proof.
  intros Hs tokens raws. destruct (lexed_end src) as (_ & spans & H & Ho & _ & Hr).
  assert (Hpeek : forall i d e t, tokens !! i = Some t -> peek tokens (PState i d e) 0 = tl_token t).
  { intros i d e t Ht. unfold peek. cbn [pa_current]. by rewrite Nat.add_0_r, Ht. }
  exists spans. split_and!; [done..| | |].
  - intros i d e t sp Ht Hsp. split; [|apply param_word_property].
    destruct (is_property_name (tl_token t)) eqn:E.
    + exact (extract_property_name_exact src tokens raws spans H Hr Hs i d e t sp Ht Hsp E).
    + rewrite (extract_property_name_refuses tokens raws); by rewrite (Hpeek i d e t Ht).
  - intros i d e t sp Ht Hsp. split_and!; [| |by destruct (tl_token t)].
    + destruct (is_identifier_like (tl_token t)) eqn:E.
      * exact (extract_identifier_exact src tokens raws spans H Hr Hs i d e t sp Ht Hsp E).
      * rewrite (extract_identifier_refuses tokens raws); by rewrite (Hpeek i d e t Ht).
    + by apply extract_tag_attr_key_exact.
  - intros i d e t sp ws Ht Hsp Hw path. split; intros Hi.
    + exact (dotted_identifier_exact src tokens raws spans H Hr Hs i d e t sp ws Ht Hsp Hi Hw).
    + exact (param_word_exact src tokens raws spans H Hr Hs i d e t sp ws Ht Hsp Hi Hw).
Qed.

Lemma operator_not_error c s m n : operator_token c s <> Some (TkError m, n).
Proof. unfold operator_token. repeat (case_match; try done). Qed.

(** An interpolation that is not closed is reported where its hash stands. *)
Lemma lexical_error_located {U : Unicode} (src : str) (err : cf_parse_error) :
  lexical_error (source_tokens src) = Some err ->
  exists i, src !! i = Some hash /\ pe_line err = po_line (pos_at src i) /\ pe_column err = po_column (pos_at src i).
Proof.
  destruct (lexed_end src) as (_ & spans & H & _ & _ & _). change (lx_tokens (cf_lex src)) with (source_tokens src) in H.
  unfold lexical_error. destruct (find _ _) as [t|] eqn:Ef; [|done].
  apply find_some in Ef as [Hin Ht]. apply list_elem_of_In, list_elem_of_lookup_1 in Hin as [n Hn].
  destruct (Forall2_lookup_l _ _ _ _ _ H Hn) as ([i j] & _ & Hl & _ & Hsp).
  destruct t as [tk loc]. cbn in *. destruct tk; try done. intros [= <-]. exists i. cbn. rewrite Hl. split; [|done].
  inversion Hsp as [| t' Hk|t' Hv|c s' t' _ _ Ho|q t' _ _ _ Hs| |]; subst; try done.
  - by apply cf_keyword_token in Hk.
  - revert Hv. unfold number_value. by repeat case_match.
  - by apply operator_not_error in Ho.
Qed.
