(* ===== verification/CfmlAst.v ===== *)
(** * CfmlAst: expressions of the CFML syntax tree (cfml-compiler: [ast.rs])

    The statements in the body of a closure are a parameter [B]. *)

From stdpp Require Import base list numbers strings.
From S2P Require Import Prelude Text Float64 QoqLexer CfmlLexer.

Inductive literal_value :=
  | LNull | LBool (b : bool) | LInt (i : Z) | LDouble (d : f64) | LString (s : str).

Inductive cf_unary_op := UMinus | UNot | UPrefixIncrement | UPrefixDecrement.
Inductive cf_postfix_op := PIncrement | PDecrement.

Inductive cf_binary_op :=
  | OAdd | OSub | OMul | ODiv | OMod | OPow | OIntDiv | OConcat
  | OEqual | ONotEqual | OStrictEqual | OStrictNotEqual
  | OGreater | OGreaterEqual | OLess | OLessEqual
  | OAnd | OOr | OXor | OContains | ODoesNotContain | OEqv | OImp | OAssign.

#[global] Instance cf_binary_op_eq_dec : EqDecision cf_binary_op.
Proof. solve_decision. Defined.

Section Ast.
Context (B : Type).

Inductive cf_expr :=
  | XLiteral (v : literal_value) (loc : source_location)
  | XIdentifier (name : str) (loc : source_location)
  | XArray (elements : list cf_expr) (loc : source_location)
  | XStruct (pairs : list (cf_expr * cf_expr)) (ordered : bool) (loc : source_location)
  | XFunctionCall (name : cf_expr) (arguments : list cf_expr) (loc : source_location)
  | XMethodCall (object : cf_expr) (method : str) (arguments : list cf_expr) (null_safe : bool) (loc : source_location)
  | XStaticCall (class : cf_expr) (method : str) (arguments : list cf_expr) (loc : source_location)
  | XStaticMember (class : cf_expr) (member : str) (loc : source_location)
  | XMemberAccess (object : cf_expr) (member : str) (null_safe : bool) (loc : source_location)
  | XArrayAccess (array index : cf_expr) (loc : source_location)
  | XUnaryOp (op : cf_unary_op) (operand : cf_expr) (loc : source_location)
  | XBinaryOp (left : cf_expr) (op : cf_binary_op) (right : cf_expr) (loc : source_location)
  | XTernary (condition then_expr else_expr : cf_expr) (loc : source_location)
  | XNew (class : cf_expr) (arguments : list cf_expr) (loc : source_location)
  | XClosure (params : list cf_param) (body : B) (loc : source_location) (metadata : list (str * str))
  | XArrowFunction (params : list cf_param) (body : cf_expr) (loc : source_location)
  | XThis (loc : source_location)
  | XSuper (loc : source_location)
  | XPostfixOp (operand : cf_expr) (op : cf_postfix_op) (loc : source_location)
  | XStringInterpolation (parts : list cf_expr) (loc : source_location)
  | XElvis (left right : cf_expr) (loc : source_location)
  | XSpread (e : cf_expr)
  | XNamedArgument (name : str) (value : cf_expr) (loc : source_location)
  | XEmpty
with cf_param :=
  | CfParam (name : str) (param_type : option str) (default_value : option cf_expr) (required : bool)
      (annotations : list (str * str)).
End Ast.

Arguments XLiteral {B}. Arguments XIdentifier {B}. Arguments XArray {B}. Arguments XStruct {B}.
Arguments XFunctionCall {B}. Arguments XMethodCall {B}. Arguments XStaticCall {B}. Arguments XStaticMember {B}.
Arguments XMemberAccess {B}. Arguments XArrayAccess {B}. Arguments XUnaryOp {B}. Arguments XBinaryOp {B}.
Arguments XTernary {B}. Arguments XNew {B}. Arguments XClosure {B}. Arguments XArrowFunction {B}.
Arguments XThis {B}. Arguments XSuper {B}. Arguments XPostfixOp {B}. Arguments XStringInterpolation {B}.
Arguments XElvis {B}. Arguments XSpread {B}. Arguments XNamedArgument {B}. Arguments XEmpty {B}.
Arguments CfParam {B}.
