(* ===== verification/CfmlParser.v ===== *)
(** * CfmlParser: the expression grammar of CFML
    (cfml-compiler: [parser.rs], [parse_param_list], the arguments of [throw],
    and [enter_expr_depth] to [parse_struct_literal])

    The parser of a block of statements and the parse of an interpolated
    expression as a program of its own are variables of the section.  The
    functions call each other in a circle; [entries] is the record of those a
    call of which may start the circle again, and [unroll n] the parser whose
    native stack has room for [n] such calls inside each other, [Panic] being a
    stack overflow.  The [while] loops get one round more than there are
    tokens. *)

From Stdlib Require Import Strings.Ascii.
From stdpp Require Import base list numbers strings.
From S2P Require Import Prelude Text Float64 Value QoqLexer CfmlLexer CfmlNames CfmlAst.
Local Open Scope nat_scope.
Local Open Scope st_scope.

Definition MAX_EXPR_DEPTH : nat := 64.
Definition MAX_CHAIN_TERMS : Z := 20000.

(** [split('.')] *)
Fixpoint split_dots (s : str) : list str :=
  match s with
  | [] => [[]]
  | c :: s =>
      if ch_is "." c then [] :: split_dots s
      else match split_dots s with p :: ps => (c :: p) :: ps | [] => [[c]] end
  end.

Section Parser.
Context {U : Unicode} {B : Type} (tokens : list token_with_loc) (raws : list (N * str)).
Context (parse_block : ST pstate cf_parse_error B) (sub_parse : str -> outcome cf_parse_error (option (cf_expr B))).

Abbreviation parsing := (ST pstate cf_parse_error).
Abbreviation expr := (cf_expr B).
Local Notation peek := (peek tokens).
Local Notation is_at_end := (is_at_end tokens).
Local Notation check := (check tokens).
Local Notation match_token := (match_token tokens).
Local Notation match_word := (match_word tokens).
Local Notation peek_word := (peek_word tokens).
Local Notation consume := (consume tokens).
Local Notation tok_error := (tok_error tokens).
Local Notation tok_skip := (tok_skip tokens).
Local Notation tok_advance := (tok_advance tokens).
Local Notation extract_identifier := (extract_identifier tokens raws).
Local Notation extract_property_name := (extract_property_name tokens raws).
Local Notation extract_param_word := (extract_param_word tokens raws).

(** A value built at the cursor's location, and a look at the state. *)
Definition at_here (f : source_location -> expr) : parsing expr := fun s => (s, Ok (f (current_location tokens s))).
Definition location : parsing source_location := fun s => (s, Ok (current_location tokens s)).
Definition looking {A} (f : pstate -> A) : parsing A := fun s => (s, Ok (f s)).

(** [m.unwrap_or(x)] *)
Definition unwrap_or {A} (x : A) (m : parsing A) : parsing A :=
  fun s => match m s with (s', Err _) => (s', Ok x) | r => r end.

(** [enter_expr_depth]; [run]; [expr_depth -= 1] *)
Definition with_depth {A} (run : parsing A) : parsing A :=
  fun s =>
    if MAX_EXPR_DEPTH <? S (pa_expr_depth s) then tok_error "expression nesting too deep" s
    else let '(s', r) := run (set_depth (S (pa_expr_depth s)) s) in
         (set_depth (pa_expr_depth s' - 1) s', r).

Definition count_chain_term (terms : Z) : parsing Z :=
  if (MAX_CHAIN_TERMS <? terms + 1)%Z
  then tok_error "expression nesting too deep: more than 20000 operands chained in one expression"
  else st_ret (terms + 1)%Z.

(** The first of the alternatives whose token is there. *)
Fixpoint match_op {A} (ops : list (cf_token * A)) : parsing (option A) :=
  match ops with
  | [] => st_ret None
  | (t, a) :: ops => let! m := match_token t in if m : bool then st_ret (Some a) else match_op ops
  end.

(** A chain of operands at one precedence level, folded to the left. *)
Fixpoint chain (fuel : nat) (operand : parsing expr) (op : parsing (option cf_binary_op)) (terms : Z)
    (lhs : expr) : parsing expr :=
  match fuel with
  | O => st_panic
  | S fuel =>
      let! o := op in
      match o with
      | None => st_ret lhs
      | Some b =>
          let! rhs := operand in
          let! terms := count_chain_term terms in
          let! lhs := at_here (XBinaryOp lhs b rhs) in
          chain fuel operand op terms lhs
      end
  end.

Definition op_level (operand : parsing expr) (op : parsing (option cf_binary_op)) : parsing expr :=
  let! lhs := operand in chain (S (length tokens)) operand op 0 lhs.

(** ** The operators of each level *)

Definition imp_op : parsing (option cf_binary_op) := match_op [(TkImpKeyword, OImp)].
Definition eqv_op : parsing (option cf_binary_op) := match_op [(TkEqvKeyword, OEqv)].
Definition xor_op : parsing (option cf_binary_op) := match_op [(TkXorKeyword, OXor)].
Definition cf_or_op : parsing (option cf_binary_op) := match_op [(TkBarBar, OOr); (TkOrKeyword, OOr)].
Definition cf_and_op : parsing (option cf_binary_op) := match_op [(TkAmpAmp, OAnd); (TkAndKeyword, OAnd)].
Definition cf_concat_op : parsing (option cf_binary_op) := match_op [(TkAmp, OConcat)].
Definition cf_term_op : parsing (option cf_binary_op) := match_op [(TkPlus, OAdd); (TkMinus, OSub)].
Definition factor_op : parsing (option cf_binary_op) :=
  match_op [(TkStar, OMul); (TkSlash, ODiv); (TkPercent, OMod); (TkModKeyword, OMod); (TkBackslash, OIntDiv)].
Definition power_op : parsing (option cf_binary_op) := match_op [(TkCaret, OPow)].

Definition equality_op : parsing (option cf_binary_op) :=
  let! a := match_op [(TkEqualEqualEqual, OStrictEqual); (TkBangEqualEqual, OStrictNotEqual);
                      (TkEqualEqual, OEqual); (TkEqKeyword, OEqual)] in
  match a with
  | Some o => st_ret (Some o)
  | None =>
      let! w := match_word "equal" in
      let! w := if w : bool then st_ret true else match_word "equals" in
      if w : bool then st_ret (Some OEqual)
      else
        let! i := match_token TkIsKeyword in
        if i : bool then
          let! n := match_token TkNotKeyword in
          st_ret (Some (if n : bool then ONotEqual else OEqual))
        else
          let! b := match_op [(TkBangEqual, ONotEqual); (TkNeqKeyword, ONotEqual)] in
          match b with
          | Some o => st_ret (Some o)
          | None =>
              let! ne := looking (fun s => bool_decide (peek s 0 = TkNotKeyword)
                                           && (peek_word 1 "equal" s || peek_word 1 "equals" s)) in
              if ne : bool then
                let! _ := tok_skip in let! _ := tok_skip in st_ret (Some ONotEqual)
              else st_ret None
          end
  end.

Definition match_or_equal_to_suffix (base with_suffix : cf_binary_op) : parsing cf_binary_op :=
  let! b := looking (fun s => bool_decide (peek s 0 = TkOrKeyword) && peek_word 1 "equal" s && peek_word 2 "to" s) in
  if b : bool then
    let! _ := tok_skip in let! _ := tok_skip in let! _ := tok_skip in st_ret with_suffix
  else st_ret base.

(** Two words, the second [than]. *)
Definition than_op (word : string) (base with_suffix : cf_binary_op) : parsing (option cf_binary_op) :=
  let! b := looking (fun s => peek_word 0 word s && peek_word 1 "than" s) in
  if b : bool then
    let! _ := tok_skip in let! _ := tok_skip in
    let! o := match_or_equal_to_suffix base with_suffix in st_ret (Some o)
  else st_ret None.

Definition cf_comparison_op : parsing (option cf_binary_op) :=
  let! a := match_op [(TkGreater, OGreater); (TkGtKeyword, OGreater); (TkGreaterEqual, OGreaterEqual);
                      (TkGteKeyword, OGreaterEqual); (TkLess, OLess); (TkLtKeyword, OLess);
                      (TkLessEqual, OLessEqual); (TkLteKeyword, OLessEqual)] in
  match a with
  | Some o => st_ret (Some o)
  | None =>
      let! g := than_op "greater" OGreater OGreaterEqual in
      match g with
      | Some o => st_ret (Some o)
      | None => than_op "less" OLess OLessEqual
      end
  end.

(** ** The recursive entry points *)

Record entries := Entries {
  r_expression : parsing expr;
  r_assignment_rhs : parsing expr;
  r_ternary : parsing expr;
  r_not : parsing expr;
  r_unary : parsing expr;
  r_primary : parsing expr;
}.

Section Layer.
Context (r : entries).

(** ** Parameters of a function *)

(** [key_string]: a word usable as an annotation key. *)
Definition key_string (s : pstate) (n : nat) : option str :=
  match peek s n with
  | TkIdentifier w => Some w
  | t => lit <$> token_as_string t
  end.

Definition is_equal_or_colon (t : cf_token) : bool := match t with TkEqual | TkColon => true | _ => false end.

Fixpoint param_annotations (fuel : nat) (acc : list (str * str)) : parsing (list (str * str)) :=
  match fuel with
  | O => st_panic
  | S fuel =>
      let! k := looking (fun s => key_string s 0) in
      match k with
      | None => st_ret acc
      | Some key =>
          let! namespaced := looking (fun s =>
            bool_decide (peek s 1 = TkColon) && bool_decide (is_Some (key_string s 2)) && bool_decide (peek s 3 = TkEqual)) in
          let! plain := looking (fun s => bool_decide (peek s 1 = TkEqual)) in
          if negb namespaced && negb plain then st_ret acc
          else
            let! _ := tok_skip in
            let! key := if namespaced : bool then
                          let! _ := tok_skip in
                          let! k2 := looking (fun s => key_string s 0) in
                          match k2 with
                          | Some k2 => let! _ := tok_skip in st_ret (key ++ lit ":" ++ k2)
                          | None => st_panic
                          end
                        else st_ret key in
            let! _ := consume TkEqual in
            let! v := looking (fun s => match peek s 0 with TkString v => Some v | _ => None end) in
            match v with
            | Some v => let! _ := tok_skip in param_annotations fuel (acc ++ [(key, v)])
            | None =>
                let! _ := unwrap_or XEmpty (r_expression r) in param_annotations fuel acc
            end
      end
  end.

(** The [[]] pairs of a typed array. *)
Fixpoint array_suffixes (fuel : nat) (first : str) : parsing str :=
  match fuel with
  | O => st_panic
  | S fuel =>
      let! b := looking (fun s => bool_decide (peek s 0 = TkLBracket) && bool_decide (peek s 1 = TkRBracket)) in
      if b : bool then let! _ := tok_skip in let! _ := tok_skip in array_suffixes fuel (first ++ lit "[]")
      else st_ret first
  end.

Definition param_word : parsing str := unwrap_or (lit "arg") extract_param_word.

Definition parse_param : parsing (cf_param B) :=
  let! modifier := looking (fun s =>
    bool_decide (peek s 0 = TkRequired)
    && negb (match peek s 1 with TkComma | TkRParen | TkEqual => true | _ => false end)) in
  let! required := if modifier : bool then match_token TkRequired else st_ret false in
  let! first := param_word in
  let! first := array_suffixes (S (length tokens)) first in
  let! two := looking (fun s => is_param_word (peek s 0)) in
  let! nt := if two : bool then let! name := param_word in st_ret (name, Some first)
             else st_ret (first, None) in
  let! eq := match_token TkEqual in
  let! dflt := if eq : bool then let! e := r_expression r in st_ret (Some e) else st_ret None in
  let! annotations := param_annotations (S (length tokens)) [] in
  st_ret (CfParam nt.1 nt.2 dflt required annotations).

Fixpoint params_loop (fuel : nat) (acc : list (cf_param B)) : parsing (list (cf_param B)) :=
  match fuel with
  | O => st_panic
  | S fuel =>
      let! p := parse_param in
      let! comma := match_token TkComma in
      if comma : bool then params_loop fuel (acc ++ [p])
      else
        let! stop := looking (fun s => check TkRParen s || is_at_end s
                                       || negb (is_param_word (peek s 0) || check TkRequired s)) in
        if stop : bool then st_ret (acc ++ [p]) else params_loop fuel (acc ++ [p])
  end.

Definition parse_param_list : parsing (list (cf_param B)) :=
  let! empty := looking (check TkRParen) in
  if empty : bool then st_ret [] else params_loop (S (length tokens)) [].

(** ** Arguments of a call *)

(** The separator of a name and its value. *)
Definition equal_or_colon : parsing unit :=
  let! eq := match_token TkEqual in if eq : bool then st_ret tt else consume TkColon.

Definition is_identifier_token (t : cf_token) : bool := match t with TkIdentifier _ => true | _ => false end.

Fixpoint dynamic_end (fuel k : nat) (s : pstate) : bool :=
  match fuel with
  | O => false
  | S fuel =>
      match peek s k with
      | TkInterpolatedStringEnd => is_equal_or_colon (peek s (S k))
      | TkEof => false
      | _ => dynamic_end fuel (S k) s
      end
  end.

(** The offsets 1 to 4096 are looked at. *)
Definition is_dynamic_named_arg (s : pstate) : bool :=
  match peek s 0 with
  | TkString _ => is_equal_or_colon (peek s 1)
  | TkInterpolatedStringStart => dynamic_end 4096 1 s
  | _ => false
  end.

Definition named_binding_ahead (s : pstate) : bool :=
  (is_identifier_token (peek s 0) || is_identifier_like (peek s 0)) && is_equal_or_colon (peek s 1).

(** One argument: its name, if it has one, its value, and whether the name is
    computed at run time. *)
Definition collected : Type := option expr * expr * bool.

Definition name_literal (name : str) (loc : source_location) : expr := XLiteral (LString name) loc.

Definition paren_named (s : pstate) : bool :=
  bool_decide (peek s 0 = TkLParen) && is_identifier_token (peek s 1) && is_equal_or_colon (peek s 2).

(** [( name = value )], or the whole again as an expression. *)
Definition parse_paren_named : parsing collected :=
  let! saved := looking pa_current in
  let! _ := tok_skip in
  let! name := extract_identifier in
  let! loc := location in
  let! _ := equal_or_colon in
  let! value := r_expression r in
  let! closes := looking (fun s => check TkRParen s && match peek s 1 with TkComma | TkRParen => true | _ => false end) in
  if closes : bool then let! _ := tok_skip in st_ret (Some (name_literal name loc), value, false)
  else
    let! _ := (fun s => (set_current saved s, Ok tt)) in
    let! e := r_expression r in st_ret (None, e, false).

Definition parse_argument : parsing collected :=
  let! spread := match_token TkDotDotDot in
  if spread : bool then let! e := r_expression r in st_ret (None, XSpread e, false)
  else
    let! paren := looking paren_named in
    if paren : bool then parse_paren_named
    else
      let! named := looking (fun s => is_property_name (peek s 0) && is_equal_or_colon (peek s 1)) in
      if named : bool then
        let! name := extract_property_name in
        let! loc := location in
        let! _ := equal_or_colon in
        let! value := r_expression r in
        st_ret (Some (name_literal name loc), value, false)
      else
        let! dynamic := looking is_dynamic_named_arg in
        if dynamic : bool then
          let! name := r_primary r in
          let! _ := equal_or_colon in
          let! value := r_expression r in
          st_ret (Some name, value, true)
        else let! e := r_expression r in st_ret (None, e, false).

Fixpoint arguments_loop (fuel : nat) (optional_commas : bool) (acc : list collected) : parsing (list collected) :=
  match fuel with
  | O => st_panic
  | S fuel =>
      let! a := parse_argument in
      let! comma := match_token TkComma in
      let! more := if comma : bool then st_ret true
                   else looking (fun s => optional_commas && named_binding_ahead s) in
      if more : bool then arguments_loop fuel optional_commas (acc ++ [a]) else st_ret (acc ++ [a])
  end.

Definition argument_expr (c : collected) : expr :=
  match c.1.1 with
  | Some (XLiteral (LString n) loc) => XNamedArgument n c.1.2 loc
  | _ => c.1.2
  end.

(** The arguments as expressions; names computed at run time make them one
    [argumentCollection]. *)
Definition finish_arguments (loc : source_location) (cs : list collected) : list expr :=
  match (if existsb (fun c => c.2) cs then mapM (fun c => (fun n => (n, c.1.2)) <$> c.1.1) cs else None) with
  | Some pairs => [XNamedArgument (lit "argumentCollection") (XStruct pairs false loc) loc]
  | None => map argument_expr cs
  end.

Definition parse_arguments_inner (optional_commas : bool) : parsing (list expr) :=
  let! empty := looking (check TkRParen) in
  if empty : bool then st_ret []
  else
    let! cs := arguments_loop (S (length tokens)) optional_commas [] in
    let! loc := location in
    st_ret (finish_arguments loc cs).

Definition parse_arguments : parsing (list expr) := parse_arguments_inner false.

(** [(args)] behind a call's opening parenthesis *)
Definition closed_arguments : parsing (list expr) :=
  let! args := parse_arguments in let! _ := consume TkRParen in st_ret args.

(** ** Arguments of [throw] *)

Definition throw_pair_ahead (s : pstate) : bool := is_identifier_token (peek s 0) && is_equal_or_colon (peek s 1).

Fixpoint throw_named_attrs (fuel : nat) (acc : list (str * expr)) : parsing (list (str * expr)) :=
  match fuel with
  | O => st_panic
  | S fuel =>
      let! key := extract_identifier in
      let! _ := equal_or_colon in
      let! value := r_expression r in
      let! _ := match_token TkComma in
      let! more := looking throw_pair_ahead in
      let acc := acc ++ [(to_lowercase key, value)] in
      if more : bool then throw_named_attrs fuel acc else st_ret acc
  end.

Definition throw_names : list string :=
  ["message"; "type"; "detail"; "errorcode"; "extendedinfo"; "object"; "attributecollection"]%string.

Definition throw_named_to_positional (named : list (str * expr)) (loc : source_location) : list expr :=
  map (fun name => default (XLiteral (LString []) loc)
                     (snd <$> find (fun e => bool_decide (e.1 = lit name)) named)) throw_names.

Definition parse_throw_call_arguments (loc : source_location) : parsing (list expr) :=
  fun s =>
    if throw_pair_ahead s then
      match throw_named_attrs (S (length tokens)) [] s with
      | (s', Panic) => (s', Panic)
      | (s', Ok named) =>
          if check TkRParen s' then (s', Ok (throw_named_to_positional named loc))
          else parse_arguments (set_current (pa_current s) s')
      | (s', Err _) => parse_arguments (set_current (pa_current s) s')
      end
    else parse_arguments s.

(** ** Array and struct literals *)

(** A pair of a struct literal whose key has been read. *)
Definition pair_value (key : expr) : parsing (expr * expr) :=
  let! sep := match_op [(TkColon, tt); (TkEqual, tt)] in
  match sep with
  | Some _ => let! value := r_expression r in st_ret (key, value)
  | None => st_ret (key, key)
  end.

Definition spread_pair : parsing (expr * expr) := let! e := r_expression r in st_ret (XSpread e, e).

Fixpoint bracket_pairs (fuel : nat) (acc : list (expr * expr)) : parsing (list (expr * expr)) :=
  match fuel with
  | O => st_panic
  | S fuel =>
      let! comma := match_token TkComma in
      if negb comma then st_ret acc
      else
        let! stop := looking (check TkRBracket) in
        if stop : bool then st_ret acc
        else
          let! spread := match_token TkDotDotDot in
          let! p := if spread : bool then spread_pair
                    else
                      let! key_eq := looking (fun s => is_identifier_like (peek s 0) && bool_decide (peek s 1 = TkEqual)) in
                      let! key := if key_eq : bool then r_ternary r else r_expression r in
                      pair_value key in
          bracket_pairs fuel (acc ++ [p])
  end.

Definition parse_bracket_struct_literal (first_key : expr) : parsing expr :=
  let! first_value := r_expression r in
  let! pairs := bracket_pairs (S (length tokens)) [(first_key, first_value)] in
  let! _ := consume TkRBracket in
  at_here (XStruct pairs true).

Fixpoint array_elements (fuel : nat) (acc : list expr) : parsing (list expr + expr) :=
  match fuel with
  | O => st_panic
  | S fuel =>
      let! stop := looking (check TkRBracket) in
      if stop : bool then st_ret (inl acc)
      else
        let! spread := match_token TkDotDotDot in
        let! e := r_expression r in
        let! colon := if spread : bool then st_ret false
                      else match acc with [] => match_token TkColon | _ => st_ret false end in
        if colon : bool then let! e := parse_bracket_struct_literal e in st_ret (inr e)
        else
          let acc := acc ++ [if spread : bool then XSpread e else e] in
          let! comma := match_token TkComma in
          if comma : bool then array_elements fuel acc else st_ret (inl acc)
  end.

Definition parse_array_literal : parsing expr :=
  let! es := array_elements (S (length tokens)) [] in
  match es with
  | inr e => st_ret e
  | inl es => let! _ := consume TkRBracket in at_here (XArray es)
  end.

(** A keyword before a separator is a key; any other key is an expression that
    stops before [=]. *)
Definition struct_key : parsing expr :=
  let! word := looking (fun s => negb (is_identifier_token (peek s 0)) && is_property_name (peek s 0)
                                 && is_equal_or_colon (peek s 1)) in
  if word : bool then
    let! name := extract_property_name in at_here (XLiteral (LString name))
  else r_ternary r.

Fixpoint struct_pairs (fuel : nat) (acc : list (expr * expr)) : parsing (list (expr * expr)) :=
  match fuel with
  | O => st_panic
  | S fuel =>
      let! stop := looking (check TkRBrace) in
      if stop : bool then st_ret acc
      else
        let! spread := match_token TkDotDotDot in
        let! p := if spread : bool then spread_pair else let! key := struct_key in pair_value key in
        let! comma := match_token TkComma in
        if comma : bool then struct_pairs fuel (acc ++ [p]) else st_ret (acc ++ [p])
  end.

Definition parse_struct_literal : parsing expr :=
  let! pairs := struct_pairs (S (length tokens)) [] in
  let! _ := consume TkRBrace in
  at_here (XStruct pairs false).

(** ** Closures and arrow functions *)

Fixpoint closure_metadata (fuel : nat) (acc : list (str * str)) : parsing (list (str * str)) :=
  match fuel with
  | O => st_panic
  | S fuel =>
      let! go := looking (fun s => negb (check TkLBrace s) && negb (is_at_end s) && is_identifier_like (peek s 0)
                                   && bool_decide (peek s 1 = TkEqual)) in
      if go : bool then
        let! key := extract_identifier in
        let! _ := tok_skip in
        let! v := looking (fun s => match peek s 0 with TkString v => Some v | _ => None end) in
        match v with
        | Some v => let! _ := tok_skip in closure_metadata fuel (acc ++ [(key, v)])
        | None => let! _ := r_expression r in closure_metadata fuel acc
        end
      else st_ret acc
  end.

Definition parse_closure : parsing expr :=
  let! named := looking (fun s => is_identifier_token (peek s 0)) in
  let! _ := if named : bool then extract_identifier else st_ret [] in
  let! _ := consume TkLParen in
  let! params := parse_param_list in
  let! _ := consume TkRParen in
  let! metadata := closure_metadata (S (length tokens)) [] in
  let! body := parse_block in
  at_here (fun loc => XClosure params body loc metadata).

(** Whether the parenthesis that balances the open one is followed by [=>]. *)
Fixpoint arrow_ahead (ts : list token_with_loc) (depth : Z) : bool :=
  match ts with
  | [] => false
  | t :: ts =>
      match tl_token t with
      | TkLParen | TkLBracket | TkLBrace => arrow_ahead ts (depth + 1)
      | TkRParen | TkRBracket | TkRBrace =>
          if (depth - 1 =? 0)%Z
          then match ts with u :: _ => bool_decide (tl_token u = TkFatArrow) | [] => false end
          else arrow_ahead ts (depth - 1)
      | _ => arrow_ahead ts depth
      end
  end.

Definition cf_parse_paren : parsing expr :=
  let! arrow := looking (fun s => arrow_ahead (drop (pa_current s) tokens) 1) in
  if arrow : bool then
    let! params := parse_param_list in
    let! _ := consume TkRParen in
    let! _ := match_token TkFatArrow in
    let! block := looking (check TkLBrace) in
    if block : bool then
      let! body := parse_block in at_here (fun loc => XClosure params body loc [])
    else
      let! body := r_expression r in at_here (XArrowFunction params body)
  else
    let! e := r_expression r in let! _ := consume TkRParen in st_ret e.
(** ** Primary expressions *)

(** The words that are names where a value is expected, in the lower-case form. *)
Definition soft_words : list (cf_token * string) :=
  [(TkComponent, "component"); (TkLocal, "local"); (TkParam, "param"); (TkOutput, "output");
   (TkRequired, "required"); (TkDefault, "default"); (TkInclude, "include"); (TkImport, "import");
   (TkProperty, "property"); (TkAbstract, "abstract"); (TkFinal, "final"); (TkStatic, "static");
   (TkLock, "lock"); (TkPrivate, "private"); (TkPublic, "public"); (TkRemote, "remote");
   (TkPackage, "package"); (TkExtends, "extends"); (TkImplements, "implements"); (TkCatch, "catch");
   (TkTry, "try"); (TkFinally, "finally"); (TkRethrow, "rethrow"); (TkSwitch, "switch");
   (TkCase, "case"); (TkDo, "do")]%string.

(** Those that keep the spelling of the source. *)
Definition spelled_words : list (cf_token * string) :=
  [(TkBreak, "break"); (TkContinue, "continue"); (TkElse, "else"); (TkElseIf, "elseif"); (TkFor, "for");
   (TkIf, "if"); (TkIn, "in"); (TkInterface, "interface"); (TkReturn, "return"); (TkVar, "var");
   (TkWhile, "while"); (TkImpKeyword, "imp"); (TkContains, "contains"); (TkEqKeyword, "eq");
   (TkNeqKeyword, "neq"); (TkGtKeyword, "gt"); (TkGteKeyword, "gte"); (TkLtKeyword, "lt");
   (TkLteKeyword, "lte"); (TkModKeyword, "mod"); (TkIsKeyword, "is"); (TkXorKeyword, "xor");
   (TkEqvKeyword, "eqv"); (TkAndKeyword, "and"); (TkOrKeyword, "or")]%string.

(** The text and the expressions between the marks of an interpolated string; a
    text that is no program is read as a name. *)
Fixpoint string_parts (fuel : nat) (acc : list expr) : parsing (list expr) :=
  match fuel with
  | O => st_panic
  | S fuel =>
      let! stop := looking (fun s => is_at_end s || check TkInterpolatedStringEnd s) in
      if stop : bool then st_ret acc
      else
        let! t := tok_advance in
        match t with
        | TkString v => let! e := at_here (XLiteral (LString v)) in string_parts fuel (acc ++ [e])
        | TkInterpolatedExpr text =>
            let! e := match sub_parse text with
                      | Ok e => st_ret (default XEmpty e)
                      | Err _ => at_here (XIdentifier (trim text))
                      | Panic => st_panic
                      end in
            string_parts fuel (acc ++ [e])
        | _ => st_ret acc
        end
  end.

Definition parse_interpolated : parsing expr :=
  let! parts := string_parts (S (length tokens)) [] in
  let! _ := match_token TkInterpolatedStringEnd in
  at_here (XStringInterpolation parts).

Definition parse_throw_primary : parsing expr :=
  let! loc := location in
  let! paren := looking (check TkLParen) in
  if paren : bool then
    let! _ := consume TkLParen in
    let! args := parse_throw_call_arguments loc in
    let! _ := consume TkRParen in
    st_ret (XFunctionCall (XIdentifier (lit "throw") loc) args loc)
  else st_ret (XIdentifier (lit "throw") loc).

(** The segments of a class path after [new]. *)
Fixpoint class_path (fuel : nat) (acc : list str) : parsing (list str) :=
  match fuel with
  | O => st_panic
  | S fuel =>
      let! segment := looking (fun s => check TkDot s && is_property_name (peek s 1)) in
      if segment : bool then
        let! _ := tok_skip in
        fun s => match extract_property_name s with
                 | (s', Ok part) => class_path fuel (acc ++ [part]) s'
                 | (s', Err _) => (s', Ok acc)
                 | (s', Panic) => (s', Panic)
                 end
      else st_ret acc
  end.

(** A value terminator or an operator: [new] before it is a variable. *)
Definition ends_new (t : cf_token) : bool :=
  match t with
  | TkComma | TkRParen | TkRBracket | TkRBrace | TkSemicolon | TkColon | TkEof | TkPlus | TkMinus | TkStar
  | TkSlash | TkPercent | TkEqual | TkEqualEqual | TkBangEqual | TkLess | TkGreater | TkLessEqual
  | TkGreaterEqual | TkAmp | TkAndKeyword | TkOrKeyword => true
  | _ => false
  end.

(** The arguments of a constructor, if any, and the new object. *)
Definition finish_new (class : expr) : parsing expr :=
  let! paren := match_token TkLParen in
  let! args := if paren : bool then closed_arguments else st_ret [] in
  at_here (XNew class args).

Definition parse_new : parsing expr :=
  let! t := looking (fun s => peek s 0) in
  match t with
  | TkIdentifier _ =>
      let! first := tok_advance in
      let! path := class_path (S (length tokens)) (match first with TkIdentifier f => [f] | _ => [] end) in
      let! class := at_here (XIdentifier (join (lit ".") path)) in
      finish_new class
  | _ =>
      let! name := looking (fun s => check TkLParen s || ends_new (peek s 0)) in
      if name : bool then at_here (XIdentifier (lit "new"))
      else let! class := r_primary r in finish_new class
  end.

(** Any other token: a word that is a name here, or no expression. *)
Definition primary_word (t : cf_token) : parsing expr :=
  match word_of soft_words t with
  | Some w => at_here (XIdentifier (lit w))
  | None =>
      match word_of spelled_words t with
      | Some w =>
          let! name := looking (consumed_keyword_name raws w) in at_here (XIdentifier name)
      | None => st_ret XEmpty
      end
  end.

(** [advance] first: at the end marker it gives the token before it again. *)
Definition cf_parse_primary : parsing expr :=
  let! token := tok_advance in
  match token with
  | TkHashSign => let! inner := r_expression r in let! _ := consume TkHashSign in st_ret inner
  | TkTrue => at_here (XLiteral (LBool true))
  | TkFalse => at_here (XLiteral (LBool false))
  | TkNull => at_here (XLiteral LNull)
  | TkInteger i => at_here (XLiteral (LInt i))
  | TkDouble d => at_here (XLiteral (LDouble d))
  | TkString v => at_here (XLiteral (LString v))
  | TkInterpolatedStringStart => parse_interpolated
  | TkIdentifier id => at_here (XIdentifier id)
  | TkThrow => parse_throw_primary
  | TkThis => at_here XThis
  | TkSuper => at_here XSuper
  | TkNew => parse_new
  | TkFunction => parse_closure
  | TkLParen => cf_parse_paren
  | TkLBracket => parse_array_literal
  | TkLBrace => parse_struct_literal
  | t => primary_word t
  end.

(** ** Calls, members and indices *)

(** [name.len() > 2 && name[..2].eq_ignore_ascii_case("cf")]: byte 2 has to be
    the first of a character. *)
Definition tag_name (name : str) : outcome cf_parse_error bool :=
  if length (as_bytes name) <=? 2 then Ok false
  else match name with
       | a :: b :: _ =>
           if (a <? 128)%N then if (b <? 128)%N then Ok (eq_ignore_ascii_case [a; b] (lit "cf")) else Panic
           else if (a <? 2048)%N then Ok false else Panic
       | [_] => Panic
       | [] => Ok false
       end.

Definition tag_call (e : expr) : outcome cf_parse_error bool :=
  match e with XIdentifier name _ => tag_name name | _ => Ok false end.

(** The two numbers of a decimal that follows a dot. *)
Definition decimal_parts (d : f64) : option (list str) :=
  let parts := split_dots (f64_to_string d) in
  if (length parts =? 2) && forallb (forallb is_ascii_digit) parts then Some parts else None.

Definition index_parts (loc : source_location) (e : expr) (parts : list str) : expr :=
  foldl (fun e p => match parse_i64 p with
                    | Some n => XArrayAccess e (XLiteral (LInt n) loc) loc
                    | None => e
                    end) e parts.

(** A name after [.], [?.] or [::], and a call if a parenthesis follows. *)
Definition named_suffix (member : str -> source_location -> expr)
    (call : str -> list expr -> source_location -> expr) : parsing expr :=
  let! name := unwrap_or [] extract_property_name in
  let! paren := match_token TkLParen in
  if paren : bool then let! args := closed_arguments in at_here (call name args)
  else at_here (member name).

Definition dot_suffix (e : expr) : parsing expr :=
  let named := named_suffix (fun m => XMemberAccess e m false) (fun m args => XMethodCall e m args false) in
  let! t := looking (fun s => peek s 0) in
  match t with
  | TkInteger i =>
      let! _ := tok_skip in at_here (fun loc => XArrayAccess e (XLiteral (LInt i) loc) loc)
  | TkDouble d =>
      match decimal_parts d with
      | Some parts => let! _ := tok_skip in at_here (fun loc => index_parts loc e parts)
      | None => named
      end
  | _ => named
  end.

Inductive suffix := SDot | SCall | SIndex | SStatic | SSafe.

Definition suffix_op : parsing (option suffix) :=
  match_op [(TkDot, SDot); (TkLParen, SCall); (TkLBracket, SIndex); (TkColonColon, SStatic);
            (TkQuestionDot, SSafe)].

Definition apply_suffix (e : expr) (sf : suffix) : parsing expr :=
  match sf with
  | SDot => dot_suffix e
  | SCall =>
      let! tag := st_lift (tag_call e) in
      let! args := parse_arguments_inner tag in
      let! _ := consume TkRParen in
      at_here (XFunctionCall e args)
  | SIndex =>
      let! index := r_expression r in
      let! _ := consume TkRBracket in
      at_here (XArrayAccess e index)
  | SStatic => named_suffix (XStaticMember e) (XStaticCall e)
  | SSafe => named_suffix (fun m => XMemberAccess e m true) (fun m args => XMethodCall e m args true)
  end.

Fixpoint call_loop (fuel : nat) (e : expr) : parsing expr :=
  match fuel with
  | O => st_panic
  | S fuel =>
      let! sf := suffix_op in
      match sf with
      | None => st_ret e
      | Some sf => let! e := apply_suffix e sf in call_loop fuel e
      end
  end.

Definition cf_parse_call : parsing expr :=
  let! e := cf_parse_primary in call_loop (S (length tokens)) e.

(** ** Operators *)

Definition parse_postfix : parsing expr :=
  let! e := cf_parse_call in
  let! o := match_op [(TkPlusPlus, PIncrement); (TkMinusMinus, PDecrement)] in
  match o with
  | Some o => at_here (XPostfixOp e o)
  | None => st_ret e
  end.

Definition cf_parse_unary : parsing expr :=
  let! minus := match_token TkMinus in
  if minus : bool then let! e := with_depth (r_unary r) in at_here (XUnaryOp UMinus e)
  else
    let! plus := match_token TkPlus in
    if plus : bool then with_depth (r_unary r)
    else
      let! o := match_op [(TkPlusPlus, UPrefixIncrement); (TkMinusMinus, UPrefixDecrement)] in
      match o with
      | Some o => let! e := cf_parse_call in at_here (XUnaryOp o e)
      | None => parse_postfix
      end.

Definition parse_power : parsing expr := op_level cf_parse_unary power_op.
Definition parse_factor : parsing expr := op_level parse_power factor_op.
Definition cf_parse_term : parsing expr := op_level parse_factor cf_term_op.
Definition parse_concatenation : parsing expr := op_level cf_parse_term cf_concat_op.

(** The operator after the left operand; a [not] that [contains] does not follow
    is left where it is. *)
Definition contains_op : parsing (option cf_binary_op) :=
  let! c := match_token TkContains in
  if c : bool then st_ret (Some OContains)
  else
    let! verbose := looking (fun s =>
      peek_word 0 "does" s && bool_decide (peek s 1 = TkNotKeyword)
      && (peek_word 2 "contain" s || peek_word 2 "contains" s || bool_decide (peek s 2 = TkContains))) in
    if verbose : bool then
      let! _ := tok_skip in let! _ := tok_skip in let! _ := tok_skip in st_ret (Some ODoesNotContain)
    else
      let! n := match_token TkNotKeyword in
      if n : bool then
        let! c := match_token TkContains in
        if c : bool then st_ret (Some ODoesNotContain)
        else fun s => (set_current (pa_current s - 1) s, Ok None)
      else st_ret None.

Definition parse_contains : parsing expr :=
  let! lhs := parse_concatenation in
  let! o := contains_op in
  match o with
  | Some o => let! rhs := parse_concatenation in at_here (XBinaryOp lhs o rhs)
  | None => st_ret lhs
  end.

Definition cf_parse_comparison : parsing expr := op_level parse_contains cf_comparison_op.
Definition parse_equality : parsing expr := op_level cf_parse_comparison equality_op.

Definition cf_parse_not : parsing expr :=
  let! n := match_op [(TkNotKeyword, tt); (TkBang, tt)] in
  match n with
  | Some _ => let! e := with_depth (r_not r) in at_here (XUnaryOp UNot e)
  | None => parse_equality
  end.

Definition cf_parse_and : parsing expr := op_level cf_parse_not cf_and_op.
Definition cf_parse_or : parsing expr := op_level cf_parse_and cf_or_op.
Definition parse_xor : parsing expr := op_level cf_parse_or xor_op.
Definition parse_eqv : parsing expr := op_level parse_xor eqv_op.
Definition parse_imp : parsing expr := op_level parse_eqv imp_op.

Definition parse_elvis (lhs : expr) : parsing expr :=
  let! rhs := r_expression r in at_here (XElvis lhs rhs).

Definition parse_ternary : parsing expr :=
  let! e := parse_imp in
  let! question := match_token TkQuestion in
  if question : bool then
    let! colon := match_token TkColon in
    if colon : bool then parse_elvis e
    else
      let! then_expr := r_expression r in
      let! _ := consume TkColon in
      let! else_expr := r_expression r in
      at_here (XTernary e then_expr else_expr)
  else
    let! elvis := match_op [(TkQuestionColon, tt); (TkQuestionQuestion, tt)] in
    match elvis with
    | Some _ => parse_elvis e
    | None => st_ret e
    end.

(** ** Assignments *)

Definition compound_assign_binop (t : cf_token) : option cf_binary_op :=
  match t with
  | TkPlusEqual => Some OAdd | TkMinusEqual => Some OSub | TkStarEqual => Some OMul
  | TkSlashEqual => Some ODiv | TkPercentEqual => Some OMod | TkAmpEqual => Some OConcat
  | _ => None
  end.

(** What may stand on the left of [=]; strings only in the first place of a chain. *)
Definition is_target (e : expr) : bool :=
  match e with XIdentifier _ _ | XMemberAccess _ _ _ _ | XArrayAccess _ _ _ => true | _ => false end.
Definition is_dynamic_target (e : expr) : bool :=
  match e with XLiteral (LString _) _ | XStringInterpolation _ _ => true | _ => false end.

(** A variable takes the location behind the assignment. *)
Definition retarget (e : expr) (loc : source_location) : expr :=
  match e with XIdentifier name _ => XIdentifier name loc | _ => e end.

Definition parse_assignment_rhs : parsing expr :=
  let! e := parse_ternary in
  let! eq := looking (check TkEqual) in
  if eq : bool then
    if is_target e then
      let! _ := tok_skip in
      let! value := r_assignment_rhs r in
      at_here (XBinaryOp e OAssign value)
    else st_ret e
  else
    let! o := looking (fun s => compound_assign_binop (peek s 0)) in
    match o with
    | Some o =>
        if is_target e then
          let! _ := tok_skip in
          let! value := r_assignment_rhs r in
          at_here (fun loc => XBinaryOp e OAssign (XBinaryOp e o value loc) loc)
        else st_ret e
    | None => st_ret e
    end.

Definition parse_assignment_expr : parsing expr :=
  let! e := parse_ternary in
  let! eq := looking (check TkEqual) in
  if eq && (is_target e || is_dynamic_target e) then
    let! _ := tok_skip in
    let! value := r_assignment_rhs r in
    at_here (fun loc => XBinaryOp (retarget e loc) OAssign value loc)
  else st_ret e.

Definition cf_parse_expression : parsing expr := with_depth parse_assignment_expr.

Definition layer : entries :=
  Entries cf_parse_expression parse_assignment_rhs parse_ternary cf_parse_not cf_parse_unary cf_parse_primary.
End Layer.

(** The parser with room for [n] native recursions. *)
Definition no_room : entries := Entries st_panic st_panic st_panic st_panic st_panic st_panic.
Fixpoint unroll (n : nat) : entries := match n with O => no_room | S n => layer (unroll n) end.
End Parser.

(** A text read as one expression, outside any program. *)
Definition reparse_expr_string {U : Unicode} {B} (parse_block : list token_with_loc -> ST pstate cf_parse_error B)
    (sub_parse : str -> outcome cf_parse_error (option (cf_expr B))) (n : nat) (src : str)
    : outcome cf_parse_error (option (cf_expr B)) :=
  let tokens := source_tokens src in
  match (r_expression (unroll tokens (source_spellings src) (parse_block tokens) sub_parse n) parser_start).2 with
  | Ok e => Ok (Some e)
  | Err _ => Ok None
  | Panic => Panic
  end.
