(* ===== verification/CfmlParserFacts.v ===== *)
(** * CfmlParserFacts: the CFML expression parser returns

    The parser stays inside the token list, restores its nesting depth, and comes
    back from every expression within a bounded number of native recursions,
    unless the text stops right behind an open brace. *)

From Stdlib Require Import Strings.Ascii.
From stdpp Require Import base list numbers strings.
From S2P Require Import Prelude Text Float64 Value QoqLexer CfmlLexer CfmlLexerFacts CfmlNames CfmlNamesFacts CfmlAst CfmlParser.
Local Open Scope nat_scope.
Local Open Scope st_scope.

Create HintDb total discriminated.
#[export] Hint Constants Opaque : total.

(** A callee whose name can be compared with a tag's. *)
Definition plain {B} (e : cf_expr B) : Prop := tag_call e <> Panic.

(** A token list as the tokenizer makes it: one end marker, at the end. *)
Record well_ended (tokens : list token_with_loc) : Prop := WellEnded {
  we_end : tl_token <$> last tokens = Some TkEof;
  we_inner : forall i t, tokens !! i = Some t -> S i < length tokens -> tl_token t <> TkEof;
  we_some : 1 < length tokens;
}.

Section Runs.
Context (tokens : list token_with_loc).
Context (Hw : well_ended tokens).

Abbreviation parsing := (ST pstate cf_parse_error).

Definition ok (s : pstate) : Prop := pa_current s < length tokens /\ pa_expr_depth s <= MAX_EXPR_DEPTH.

Definition after (s s' : pstate) : Prop :=
  pa_current s <= pa_current s' /\ pa_current s' < length tokens
  /\ pa_expr_depth s' = pa_expr_depth s /\ pa_stmt_depth s' = pa_stmt_depth s.

(** An upper bound of the native recursions that can still follow. *)
Definition budget (s : pstate) : nat :=
  200 * (length tokens - pa_current s) + 2 * (MAX_EXPR_DEPTH - pa_expr_depth s).

Definition runs {A} (s0 : pstate) (m : parsing A) (s : pstate) (Q : A -> pstate -> Prop) : Prop :=
  match m s with
  | (s', Ok a) => Q a s'
  | (s', Err _) => after s0 s'
  | (s', Panic) => False
  end.

Definition total (n : nat) {A} (R : pstate -> A -> pstate -> Prop) (m : parsing A) : Prop :=
  forall s, ok s -> budget s < n -> runs s m s (fun a s' => after s s' /\ R s a s').

Definition moves {A} (s : pstate) (a : A) (s' : pstate) : Prop :=
  S (pa_current s) < length tokens -> pa_current s < pa_current s'.
(** The result of a parser of expressions. *)
Definition reads {B} (s : pstate) (e : cf_expr B) (s' : pstate) : Prop := plain e /\ moves s e s'.
Definition keeps {A} (s : pstate) (a : A) (s' : pstate) : Prop := True.
Definition finds {A} (s : pstate) (o : option A) (s' : pstate) : Prop :=
  is_Some o -> pa_current s < pa_current s'.

Ltac states :=
  repeat match goal with
  | H : ok _ |- _ => destruct H as [? ?]
  | H : after _ _ |- _ => destruct H as (? & ? & ? & ?)
  | H : _ /\ _ |- _ => destruct H
  end;
  unfold ok, after, budget, moves, finds, keeps, MAX_EXPR_DEPTH in *;
  cbn [pa_current pa_expr_depth pa_stmt_depth set_current set_depth] in *.
Ltac arith := states; repeat split; intros; try done; try lia.

Lemma runs_mono {A} s0 (m : parsing A) s (Q Q' : A -> pstate -> Prop) :
  runs s0 m s Q -> (forall a s', Q a s' -> Q' a s') -> runs s0 m s Q'.
Proof. unfold runs. intros H HQ. destruct (m s) as [s' []]; auto. Qed.

Lemma runs_bind {A B} s0 (m : parsing A) (k : A -> parsing B) s Q :
  runs s0 m s (fun a s' => runs s0 (k a) s' Q) -> runs s0 (st_bind m k) s Q.
Proof. unfold runs, st_bind. destruct (m s) as [s' []]; auto. Qed.

Lemma after_refl s : ok s -> after s s.
Proof. arith. Qed.
Lemma after_trans s s' s'' : after s s' -> after s' s'' -> after s s''.
Proof. arith. Qed.
Lemma ok_after s s' : ok s -> after s s' -> ok s'.
Proof. arith. Qed.

(** A step of a larger run. *)
Lemma runs_total {A B} n R s0 (m : parsing A) (k : A -> parsing B) s Q :
  total n R m -> ok s -> after s0 s -> budget s < n ->
  (forall a s', ok s' -> after s s' -> after s0 s' -> R s a s' -> runs s0 (k a) s' Q) ->
  runs s0 (st_bind m k) s Q.
Proof.
  intros Hm Hs H0 Hb Hk. apply runs_bind. specialize (Hm s Hs Hb). unfold runs in *.
  destruct (m s) as [s' [a|e|]]; [|by eapply after_trans|done].
  destruct Hm as [Ha HR]. apply Hk; [by eapply ok_after|done|by eapply after_trans|done].
Qed.

Lemma runs_tail {A} n R s0 (m : parsing A) s (Q : A -> pstate -> Prop) :
  total n R m -> ok s -> after s0 s -> budget s < n ->
  (forall a s', after s s' -> after s0 s' -> R s a s' -> Q a s') -> runs s0 m s Q.
Proof.
  intros Hm Hs H0 Hb HQ. specialize (Hm s Hs Hb). unfold runs in *.
  destruct (m s) as [s' [a|e|]]; [|by eapply after_trans|done].
  destruct Hm as [Ha HR]. apply HQ; [done|by eapply after_trans|done].
Qed.

Lemma total_le {A} n n' R (m : parsing A) : total n R m -> n' <= n -> total n' R m.
Proof. intros H Hn s Hs Hb. apply H; [done|lia]. Qed.

(** ** The cursor *)

Lemma at_end_iff s : ok s -> is_at_end tokens s = true <-> S (pa_current s) = length tokens.
Proof.
  intros [H _]. unfold is_at_end, peek. rewrite Nat.add_0_r.
  destruct (lookup_lt_is_Some_2 tokens (pa_current s) H) as [t Ht]. rewrite Ht, bool_decide_eq_true. split.
  - intros He. destruct (decide (S (pa_current s) < length tokens)) as [Hlt|]; [|lia].
    by destruct (we_inner _ Hw _ _ Ht Hlt).
  - intros He. pose proof (we_end _ Hw) as Hl. rewrite last_lookup, <-He in Hl. cbn in Hl. rewrite Ht in Hl.
    cbn in Hl. congruence.
Qed.

Lemma at_end_false s : ok s -> is_at_end tokens s = false <-> S (pa_current s) < length tokens.
Proof.
  intros Hs. pose proof (at_end_iff s Hs) as H. destruct Hs. destruct (is_at_end tokens s); split; intros; try done.
  - assert (S (pa_current s) = length tokens) by by apply H. lia.
  - destruct (decide (S (pa_current s) = length tokens)) as [E|]; [by apply H in E|lia].
Qed.

Lemma inside s : ok s -> peek tokens s 0 <> TkEof -> S (pa_current s) < length tokens.
Proof. intros Hs Hp. apply at_end_false; [done|]. by apply bool_decide_false. Qed.

Lemma check_inside t s : ok s -> check tokens t s = true ->
  S (pa_current s) < length tokens /\ peek tokens s 0 = t.
Proof.
  intros Hs [He%negb_true_iff Ht%bool_decide_eq_true]%andb_true_iff. split; [by apply at_end_false|done].
Qed.

Lemma inside_if (f : cf_token -> bool) s : f TkEof = false -> ok s -> f (peek tokens s 0) = true ->
  S (pa_current s) < length tokens.
Proof. intros Hf Hs H. apply inside; [done|]. intros E. rewrite E in H. congruence. Qed.

Lemma runs_advance {B} s0 (k : cf_token -> parsing B) s Q : ok s -> after s0 s ->
  (forall t s', ok s' -> after s s' -> after s0 s' ->
     (S (pa_current s) < length tokens -> pa_current s' = S (pa_current s) /\ t = peek tokens s 0) ->
     (S (pa_current s) = length tokens ->
        s' = s /\ (fun u => tl_token u) <$> tokens !! (length tokens - 2) = Some t) ->
     runs s0 (k t) s' Q) ->
  runs s0 (st_bind (tok_advance tokens) k) s Q.
Proof.
  intros Hs H0 Hk. apply runs_bind. unfold runs at 1, tok_advance, skip_token. pose proof (we_some _ Hw) as Hn.
  destruct (is_at_end tokens s) eqn:He.
  - apply at_end_iff in He; [|done]. unfold previous.
    destruct (pa_current s) as [|c] eqn:Ec; [lia|].
    destruct (lookup_lt_is_Some_2 tokens c ltac:(destruct Hs; lia)) as [t Ht]. cbn match. rewrite Ht.
    apply Hk; rewrite ?Ec; [done|by apply after_refl|done|lia|]. intros _. split; [done|].
    replace (length tokens - 2) with c by lia. by rewrite Ht.
  - apply at_end_false in He; [|done]. unfold previous. cbn [pa_current set_current].
    destruct Hs as [Hs ?]. destruct (lookup_lt_is_Some_2 tokens _ Hs) as [t Ht]. rewrite Ht.
    apply Hk; [arith..| |lia]. intros _. split; [done|]. unfold peek. by rewrite Nat.add_0_r, Ht.
Qed.

Lemma runs_skip {B} s0 (k : unit -> parsing B) s Q : ok s -> after s0 s ->
  (forall s', ok s' -> after s s' -> after s0 s' ->
     (S (pa_current s) < length tokens -> pa_current s' = S (pa_current s)) -> runs s0 (k tt) s' Q) ->
  runs s0 (st_bind (tok_skip tokens) k) s Q.
Proof.
  intros Hs H0 Hk.
  change (runs s0 (st_bind (st_bind (tok_advance tokens) (fun _ => st_ret tt)) k) s Q).
  assert (H : runs s0 (st_bind (tok_advance tokens) (fun _ => k tt)) s Q).
  { apply runs_advance; [done..|]. intros t s' ??? Hp _. apply Hk; [done..|]. intros. by apply Hp. }
  revert H. unfold runs, st_bind, st_ret. by destruct (tok_advance tokens s) as [s' []].
Qed.

Lemma runs_match {B} s0 (k : bool -> parsing B) t s Q : ok s -> after s0 s ->
  (forall s', ok s' -> after s s' -> after s0 s' -> check tokens t s = true ->
     pa_current s' = S (pa_current s) -> S (pa_current s) < length tokens -> runs s0 (k true) s' Q) ->
  (check tokens t s = false -> runs s0 (k false) s Q) ->
  runs s0 (st_bind (match_token tokens t) k) s Q.
Proof.
  intros Hs H0 Ht Hf. unfold match_token. destruct (check tokens t s) eqn:Hc.
  - destruct (check_inside _ _ Hs Hc) as [Hi _].
    assert (H : runs s0 (st_bind (tok_advance tokens) (fun _ => k true)) s Q).
    { apply runs_advance; [done..|]. intros u s' ??? Hp _. apply Ht; [done..| |done]. by apply Hp. }
    revert H. unfold runs, st_bind, st_ret. rewrite Hc. by destruct (tok_advance tokens s) as [s' []].
  - specialize (Hf eq_refl). revert Hf. unfold runs, st_bind. by rewrite Hc.
Qed.

Lemma runs_word {B} s0 (k : bool -> parsing B) w s Q : ok s -> after s0 s ->
  (forall s', ok s' -> after s s' -> after s0 s' ->
     pa_current s' = S (pa_current s) -> S (pa_current s) < length tokens -> runs s0 (k true) s' Q) ->
  runs s0 (k false) s Q ->
  runs s0 (st_bind (match_word tokens w) k) s Q.
Proof.
  intros Hs H0 Ht Hf. unfold match_word. destruct (peek_word tokens 0 w s) eqn:Hc.
  - assert (Hi : S (pa_current s) < length tokens).
    { apply inside; [done|]. intros He. unfold peek_word in Hc. by rewrite He in Hc. }
    assert (H : runs s0 (st_bind (tok_advance tokens) (fun _ => k true)) s Q).
    { apply runs_advance; [done..|]. intros u s' ??? Hp _. apply Ht; [done..| |done]. by apply Hp. }
    revert H. unfold runs, st_bind, st_ret. rewrite Hc. by destruct (tok_advance tokens s) as [s' []].
  - revert Hf. unfold runs, st_bind. by rewrite Hc.
Qed.

Lemma total_consume n t : total n (fun s _ s' => pa_current s < pa_current s') (consume tokens t).
Proof.
  intros s Hs _. unfold runs at 1, consume. destruct (check tokens t s) eqn:Hc; [|by apply after_refl].
  destruct (check_inside _ _ Hs Hc) as [Hi _].
  change (runs s (tok_skip tokens) s (fun _ s' => after s s' /\ pa_current s < pa_current s')).
  unfold tok_skip. apply runs_advance; [done|by apply after_refl|]. intros u s' ??? Hp _. specialize (Hp Hi). arith.
Qed.
Lemma peek_next s s' k : pa_current s' = S (pa_current s) -> peek tokens s' k = peek tokens s (S k).
Proof. intros H. unfold peek. by rewrite H, Nat.add_succ_comm. Qed.

(** A run that stays where it is. *)
Lemma runs_looking {A B} s0 (f : pstate -> A) (k : A -> parsing B) s Q :
  runs s0 (k (f s)) s Q -> runs s0 (st_bind (looking f) k) s Q.
Proof. done. Qed.
Lemma runs_ret_bind {A B} s0 (a : A) (k : A -> parsing B) s Q :
  runs s0 (k a) s Q -> runs s0 (st_bind (st_ret a) k) s Q.
Proof. done. Qed.
Lemma runs_assoc {A B C} s0 (m : parsing A) (h : A -> parsing B) (k : B -> parsing C) s Q :
  runs s0 (st_bind m (fun a => st_bind (h a) k)) s Q -> runs s0 (st_bind (st_bind m h) k) s Q.
Proof. unfold runs, st_bind. by destruct (m s) as [s' []]. Qed.
Lemma runs_if {A B} s0 (b : bool) (m1 m2 : parsing A) (k : A -> parsing B) s Q :
  (b = true -> runs s0 (st_bind m1 k) s Q) -> (b = false -> runs s0 (st_bind m2 k) s Q) ->
  runs s0 (st_bind (if b then m1 else m2) k) s Q.
Proof. destruct b; auto. Qed.
Lemma runs_ret {A} s0 (a : A) s (Q : A -> pstate -> Prop) : Q a s -> runs s0 (st_ret a) s Q.
Proof. done. Qed.
Lemma runs_here {B} s0 (f : source_location -> cf_expr B) s (Q : cf_expr B -> pstate -> Prop) :
  Q (f (current_location tokens s)) s -> runs s0 (at_here tokens f) s Q.
Proof. done. Qed.
Lemma runs_error {A} s0 m s (Q : A -> pstate -> Prop) : after s0 s -> runs s0 (tok_error tokens m) s Q.
Proof. done. Qed.
Lemma runs_total_of {A} n R (m : parsing A) s (Q : A -> pstate -> Prop) :
  total n R m -> ok s -> budget s < n -> (forall a s', after s s' -> R s a s' -> Q a s') -> runs s m s Q.
Proof. intros Hm Hs Hb HQ. eapply runs_tail; [exact Hm|done|by apply after_refl|done|auto]. Qed.

Definition advances {A} (s : pstate) (a : A) (s' : pstate) : Prop := pa_current s < pa_current s'.

(** A word that is a keyword of a table is not the end marker. *)
Lemma word_inside table w s : ok s -> word_of table TkEof = None -> word_of table (peek tokens s 0) = Some w ->
  S (pa_current s) < length tokens.
Proof. intros Hs Ht H. apply inside; [done|]. intros E. rewrite E in H. congruence. Qed.

Context (raws : list (N * str)).

Lemma runs_keyword s0 w s (Q : str -> pstate -> Prop) : ok s -> after s0 s -> S (pa_current s) < length tokens ->
  (forall a s', after s s' -> after s0 s' -> pa_current s' = S (pa_current s) -> Q a s') ->
  runs s0 (take_keyword tokens raws w) s Q.
Proof.
  intros Hs H0 Hi HQ. unfold take_keyword. apply runs_skip; [done..|]. intros s' ? ? ? Hp. apply HQ; auto.
Qed.

Lemma total_extract_identifier n : total n advances (extract_identifier tokens raws).
Proof.
  intros s Hs _. pose proof (after_refl s Hs) as H0. destruct (is_word_token (peek tokens s 0)) eqn:Hd.
  - unfold runs at 1, extract_identifier. destruct (peek tokens s 0) eqn:Hp; try discriminate Hd.
    apply (runs_advance s (fun t => match t with TkIdentifier id => st_ret id | _ => st_panic end)); [done..|].
    intros t s' ??? H1 _. destruct H1 as [H1 ->]; [apply inside; [done|congruence]|]. rewrite Hp.
    apply runs_ret. unfold advances. split; [done|lia].
  - unfold runs at 1. rewrite extract_identifier_keyword by done.
    destruct (word_of identifier_words (peek tokens s 0)) as [w|] eqn:E; [|done].
    apply (runs_keyword s w s (fun a s' => after s s' /\ advances s a s')); [done..|by apply (word_inside identifier_words w)|].
    unfold advances. intros. split; [done|lia].
Qed.

Lemma total_extract_property n : total n advances (extract_property_name tokens raws).
Proof.
  intros s Hs Hb. pose proof (total_extract_identifier n s Hs Hb) as Hi. unfold runs in *.
  unfold extract_property_name. destruct (extract_identifier tokens raws s) as [s' [a|e|]]; [done| |done].
  pose proof (ok_after _ _ Hs Hi) as Hs'.
  destruct (word_of property_words (peek tokens s' 0)) as [w|] eqn:E; [|done].
  change (runs s (take_keyword tokens raws w) s' (fun a s' => after s s' /\ advances s a s')).
  apply runs_keyword; [done..|by apply (word_inside property_words w)|]. unfold advances. intros a s'' H1 H2 ?. split; [done|].
  destruct Hi. lia.
Qed.

Lemma total_dotted_tail n fuel path : total n keeps (dotted_tail tokens raws fuel path).
Proof.
  revert path. induction fuel as [|fuel IH]; intros path s Hs Hb; cbn [dotted_tail]; pose proof (after_refl s Hs).
  { apply runs_ret. arith. }
  apply runs_match; [done..| |]; [|intros _; apply runs_ret; arith].
  intros s' ? ? ? _ ? ?. eapply runs_total; [apply (total_extract_property n)|done..|arith|].
  intros a s'' ????. eapply runs_tail; [apply IH|done..|arith|]. arith.
Qed.

Lemma property_name_read s : ok s -> is_property_name (peek tokens s 0) = true ->
  exists s' w, extract_property_name tokens raws s = (s', Ok w) /\ after s s' /\ pa_current s < pa_current s'.
Proof.
  intros Hs Hn. pose proof (total_extract_property (S (budget s)) s Hs ltac:(lia)) as H. unfold runs in H.
  destruct (extract_property_name tokens raws s) as [s' [w|e|]] eqn:E; [|exfalso|done].
  { exists s', w. destruct H. done. }
  revert E. unfold extract_property_name. rewrite property_name_word, identifier_like_word in Hn.
  destruct (is_word_token (peek tokens s 0)) eqn:Hwd.
  - destruct (extract_identifier tokens raws s) as [s1 [w|e1|]] eqn:E1; [done| |done]. intros _. revert E1.
    revert Hwd.
    unfold extract_identifier. destruct (peek tokens s 0) eqn:Hp; intros Hwd; try discriminate Hwd. unfold st_bind.
    assert (Hin : S (pa_current s) < length tokens) by (apply inside; [done|congruence]).
    destruct Hs as [Hs _]. destruct (lookup_lt_is_Some_2 tokens _ Hs) as [t Ht]. destruct s as [c d e2].
    cbn [pa_current] in *. rewrite (peek_lookup tokens c d e2 t Ht) in Hp.
    rewrite (advance_lookup tokens c d e2 t Ht) by congruence. by rewrite Hp.
  - rewrite extract_identifier_keyword by done.
    destruct (word_of identifier_words (peek tokens s 0)) eqn:E1.
    + unfold take_keyword, st_bind, tok_skip, st_bind. by destruct (tok_advance tokens s) as [s1 []] eqn:Ea;
        [|unfold tok_advance, previous in Ea; repeat case_match; simplify_eq|].
    + unfold tok_error at 1. cbn [orb] in Hn.
      destruct (word_of property_words (peek tokens s 0)) eqn:E2; [|discriminate Hn].
      unfold take_keyword, st_bind, tok_skip, st_bind. by destruct (tok_advance tokens s) as [s1 []] eqn:Ea;
        [|unfold tok_advance, previous in Ea; repeat case_match; simplify_eq|].
Qed.

(** [unwrap_or]: no error is left. *)
Lemma total_unwrap_or {A} n R (x : A) (m : parsing A) : total n R m -> total n keeps (unwrap_or x m).
Proof.
  intros Hm s Hs Hb. specialize (Hm s Hs Hb). unfold runs, unwrap_or in *.
  destruct (m s) as [s' []]; [|done..]. destruct Hm. by split.
Qed.

Lemma total_param_word n : total n (fun s _ s' => is_param_word (peek tokens s 0) = true -> pa_current s < pa_current s')
  (param_word tokens raws).
Proof.
  intros s Hs Hb. rewrite param_word_property. unfold runs, param_word, unwrap_or, extract_param_word, st_bind.
  destruct (is_property_name (peek tokens s 0)) eqn:E.
  - destruct (property_name_read s Hs E) as (s1 & w & -> & Ha & Hlt).
    pose proof (total_dotted_tail (S (budget s1)) (length tokens) w s1 (ok_after _ _ Hs Ha) ltac:(lia)) as H.
    unfold runs in H. destruct (dotted_tail tokens raws (length tokens) w s1) as [s2 [v|e|]]; [| |done]; arith.
  - pose proof (total_extract_property n s Hs Hb) as H. unfold runs in H.
    destruct (extract_property_name tokens raws s) as [s1 [w|e|]]; [|done|done]. destruct H as [Ha _].
    pose proof (total_dotted_tail (S (budget s1)) (length tokens) w s1 (ok_after _ _ Hs Ha) ltac:(lia)) as H.
    unfold runs in H. destruct (dotted_tail tokens raws (length tokens) w s1) as [s2 [v|e|]]; [| |done]; arith.
Qed.

Lemma total_match_op {A} n (ops : list (cf_token * A)) : total n finds (match_op tokens ops).
Proof.
  induction ops as [|[t a] ops IH]; intros s Hs Hb; pose proof (after_refl s Hs); cbn [match_op].
  { apply runs_ret. split; [done|]. by intros []. }
  apply runs_match; [done..| |intros _; by apply IH].
  intros s' ??? _ ??. apply runs_ret. split; [done|]. unfold finds. intros _. lia.
Qed.

Lemma total_with_depth {A} n R (m : parsing A) :
  (forall s d a s' d', R s a s' -> R (set_depth d s) a (set_depth d' s')) ->
  total n R m -> total (S (S n)) R (with_depth tokens m).
Proof.
  intros HR Hm s Hs Hb. unfold runs, with_depth. destruct (Nat.ltb_spec MAX_EXPR_DEPTH (S (pa_expr_depth s))) as [Hd|Hd].
  { by apply after_refl. }
  assert (H1 : ok (set_depth (S (pa_expr_depth s)) s)) by arith.
  assert (H2 : budget (set_depth (S (pa_expr_depth s)) s) < n) by arith.
  specialize (Hm _ H1 H2). unfold runs in Hm. destruct (m _) as [s' [a|e|]]; [| |done].
  - destruct Hm as [Ha HRa]. split; [arith|]. apply (HR _ (pa_expr_depth s) _ _ (pa_expr_depth s' - 1)) in HRa.
    by destruct s.
  - arith.
Qed.
End Runs.

#[export] Hint Resolve total_extract_identifier total_extract_property total_consume total_param_word
  total_match_op : total.

(** One step of a run, and the arithmetic of cursors and depths it leaves. *)
Ltac states :=
  cbv beta in *;
  repeat match goal with
  | H : ok _ _ |- _ => destruct H as [? ?]
  | H : after _ _ _ |- _ => destruct H as (? & ? & ? & ?)
  | H : reads _ _ _ _ |- _ => destruct H
  | H : moves _ _ _ _ |- _ => unfold moves in H
  | H : finds _ _ _ |- _ => unfold finds in H
  | H : advances _ _ _ |- _ => unfold advances in H
  | H : keeps _ _ _ |- _ => clear H
  | H : budget _ _ < _ |- _ => unfold budget in H
  | H : _ /\ _ |- _ => destruct H
  end;
  unfold ok, after, budget, reads, moves, finds, keeps, advances; unfold MAX_EXPR_DEPTH in *;
  cbn [pa_current pa_expr_depth pa_stmt_depth set_current set_depth] in *.
Ltac found :=
  repeat match goal with
  | H : is_Some (Some _) -> _ |- _ => specialize (H (mk_is_Some _ _ eq_refl))
  | H : is_Some ?o -> _, H' : is_Some ?o |- _ => specialize (H H')
  | H : ?b = true -> _, H' : ?b = true |- _ => specialize (H H')
  | H : is_Some None |- _ => by destruct H
  | H : is_Some (Some _) |- _ => clear H
  | H : context [if ?b then _ else _] |- _ => destruct b eqn:?
  | |- context [if ?b then _ else _] => destruct b eqn:?
  end.
Ltac arith := states; repeat split; intros; try done; found; try done; try lia.

Ltac inner s t tac :=
  lazymatch goal with
  | _ : S (pa_current s) < length t |- _ => fail
  | _ => assert (S (pa_current s) < length t) by tac
  end.
(** What the tests passed so far say of the cursor. *)
Ltac peeks :=
  repeat match goal with
  | H : _ && _ = true |- _ => apply andb_true_iff in H as [? ?]
  | H : negb _ = true |- _ => apply negb_true_iff in H
  | H : bool_decide (peek _ _ _ = _) = true |- _ => apply bool_decide_eq_true in H
  | H : peek ?t ?s 0 = ?u, Hs : ok ?t ?s |- _ => inner s t ltac:(apply inside; [assumption..|rewrite H; discriminate])
  | H : check ?t ?u ?s = true, Hs : ok ?t ?s |- _ => inner s t ltac:(eapply check_inside; eassumption)
  | H : peek_word ?t 0 ?w ?s = true, Hs : ok ?t ?s |- _ =>
      inner s t ltac:(apply inside; [assumption..|let E := fresh in intros E; unfold peek_word in H; by rewrite E in H])
  | H : ?f (peek ?t ?s 0) = true, Hs : ok ?t ?s |- _ =>
      inner s t ltac:(apply (inside_if t ltac:(assumption) f s); [reflexivity|assumption..])
  | H : is_at_end ?t ?s = false, Hs : ok ?t ?s |- _ => inner s t ltac:(apply at_end_false; assumption)
  end.

Ltac go1 :=
  cbv beta;
  match goal with
  | |- runs _ _ (st_bind (st_bind _ _) _) _ _ => apply runs_assoc
  | |- runs _ _ (st_bind (st_ret _) _) _ _ => apply runs_ret_bind
  | |- runs _ _ (st_bind (looking _) _) _ _ => apply runs_looking
  | |- runs _ _ (st_bind (location ?t) _) _ _ => apply (runs_looking _ _ (current_location t))
  | |- runs _ _ (st_bind (at_here ?t ?f) _) _ _ => apply (runs_looking _ _ (fun s => f (current_location t s)))
  | |- runs _ _ (st_bind (if _ then _ else _) _) _ _ => apply runs_if; intros ?; peeks
  | |- runs _ _ (st_bind (match ?x with _ => _ end) _) _ _ => destruct x eqn:?; peeks
  | |- runs _ _ (st_bind (match_token _ _) _) _ _ => apply runs_match; [assumption..|intros ? ? ? ? ? ? ?|intros ?]
  | |- runs _ _ (st_bind (match_word _ _) _) _ _ => apply runs_word; [assumption..|intros ? ? ? ? ? ?|]
  | |- runs _ _ (st_bind (tok_skip _) _) _ _ => apply runs_skip; [assumption..|intros ? ? ? ? ?]
  | |- runs _ _ (st_ret _) _ _ => apply runs_ret
  | |- runs _ _ (at_here _ _) _ _ => apply runs_here
  | |- runs _ _ (tok_error _ _) _ _ => apply runs_error; assumption
  | |- runs _ _ (if ?b then _ else _) _ _ => destruct b eqn:?; peeks
  | |- runs _ _ (match ?x with _ => _ end) _ _ => destruct x eqn:?; peeks
  end.
(** A call of a parser that has been proved total. *)
Ltac call := cbv beta;
  lazymatch goal with
  | |- runs _ _ (st_bind _ _) _ _ =>
      eapply runs_total;
        [solve [eauto with total]|assumption..|first [apply Nat.lt_succ_diag_r | solve [arith]]|intros ? ? ? ? ? ?]
  | |- runs _ _ _ _ _ =>
      eapply runs_tail;
        [solve [eauto with total]|assumption..|first [apply Nat.lt_succ_diag_r | solve [arith]]|intros ? ? ? ? ?]
  end.
Ltac go := repeat first [go1 | call].
Ltac start := intros s Hs Hb; pose proof (after_refl _ s Hs) as H0.
