(* ===== verification/CfmlParserTotal.v ===== *)
(** * CfmlParserTotal: every function of the CFML expression parser returns *)

From Stdlib Require Import Strings.Ascii.
From stdpp Require Import base list numbers strings.
From S2P Require Import Prelude Text Float64 Value QoqLexer CfmlLexer CfmlLexerFacts CfmlNames CfmlNamesFacts CfmlAst CfmlParser CfmlParserFacts.
Local Open Scope nat_scope.
Local Open Scope st_scope.

Section Operators.
Context (tokens : list token_with_loc) (Hw : well_ended tokens).
Local Notation total := (total tokens).

Lemma total_count n t : total n keeps (count_chain_term tokens t).
Proof. start. unfold count_chain_term. go. arith. Qed.
#[local] Hint Resolve total_count : total.

Lemma total_than_op n w a b : total n finds (than_op tokens w a b).
Proof.
  start. unfold than_op, match_or_equal_to_suffix. go; arith.
Qed.

#[local] Hint Resolve total_than_op : total.

Lemma total_comparison_op n : total n finds (cf_comparison_op tokens).
Proof.
  start. unfold cf_comparison_op. go; arith.
Qed.

Lemma total_equality_op n : total n finds (equality_op tokens).
Proof.
  start. unfold equality_op. go; arith.
Qed.

Lemma total_contains_op n : total n finds (contains_op tokens).
Proof.
  start. unfold contains_op. go; arith; cbn; lia.
Qed.

Section Chain.
Context {B : Type} (n : nat) (operand : ST pstate cf_parse_error (cf_expr B)).
Context (op : ST pstate cf_parse_error (option cf_binary_op)).
Context (Hoperand : total n (reads tokens) operand).
Context (Hop : forall m, total m finds op).

Lemma total_chain fuel terms lhs s0 s : ok tokens s -> after tokens s0 s -> budget tokens s < n ->
  length tokens <= fuel + pa_current s -> plain lhs ->
  runs tokens s0 (chain tokens fuel operand op terms lhs) s (fun e s' => after tokens s s' /\ plain e).
Proof.
  revert s terms lhs. induction fuel as [|fuel IH]; intros s terms lhs Hs H0 Hb Hf Hl; [arith|]. cbn [chain].
  go.
  - eapply runs_mono; [apply IH; try done; arith|]. intros e s'' [? ?]. split; [arith|done].
  - split; [arith|done].
Qed.
End Chain.

Lemma total_level {B} n (operand : ST pstate cf_parse_error (cf_expr B)) op :
  total n (reads tokens) operand -> (forall m, total m finds op) ->
  total n (reads tokens) (op_level tokens operand op).
Proof.
  intros Ho Hop. start. unfold op_level. call. states. eapply runs_mono.
  - apply (total_chain n); try done; arith.
  - intros e s'' [? ?]. arith.
Qed.
End Operators.

#[export] Hint Resolve total_count total_comparison_op total_equality_op total_contains_op : total.

(** ** Names *)

Lemma tag_name_ascii w : str_is_ascii w = true -> tag_name w <> Panic.
Proof.
  intros H. unfold tag_name. rewrite as_bytes_ascii by done. unfold str_is_ascii, is_ascii in H.
  destruct w as [|a [|b [|c w]]]; try done. cbn [length Nat.leb]. cbn [forallb] in H.
  apply andb_true_iff in H as [-> H]. apply andb_true_iff in H as [-> _]. done.
Qed.

Lemma plain_identifier {B} w loc : str_is_ascii w = true -> plain (B := B) (XIdentifier w loc).
Proof. apply tag_name_ascii. Qed.

Definition ascii_words (table : list (cf_token * string)) : bool := forallb (fun e => str_is_ascii (lit e.2)) table.

Lemma word_of_ascii table t w : ascii_words table = true -> word_of table t = Some w -> str_is_ascii (lit w) = true.
Proof.
  unfold ascii_words, word_of. rewrite forallb_forall. intros H (e & Hf & ->)%fmap_Some.
  apply find_some in Hf as [Hf _]. by apply H in Hf.
Qed.

Lemma consumed_ascii raws w s : Forall (fun e => str_is_ascii e.2 = true) raws -> str_is_ascii (lit w) = true ->
  str_is_ascii (consumed_keyword_name raws w s) = true.
Proof.
  intros Hr Hl. unfold consumed_keyword_name. destruct (pa_current s); [done|].
  destruct (binary_search_by_key _ raws) as [i|]; [|done]. destruct (raws !! i) as [e|] eqn:E; [|done].
  by eapply Forall_lookup_1 in Hr.
Qed.

(** What calls the parser of blocks: a function or an arrow with a body. *)
Definition has_function (tokens : list token_with_loc) : Prop :=
  exists t, t ∈ tokens /\ (tl_token t = TkFunction \/ tl_token t = TkFatArrow).

Lemma arrow_ahead_elem ts d : arrow_ahead ts d = true -> exists t, t ∈ ts /\ tl_token t = TkFatArrow.
Proof.
  revert d. induction ts as [|t ts IH]; intros d; cbn [arrow_ahead]; [done|].
  assert (Hr : forall d, arrow_ahead ts d = true -> exists u, u ∈ t :: ts /\ tl_token u = TkFatArrow).
  { intros d' (u & Hu & Eu)%IH. exists u. split; [by right|done]. }
  destruct (tl_token t); try apply Hr; (destruct (_ =? 0)%Z; [|apply Hr]);
    (destruct ts as [|u us]; [done|]); intros E%bool_decide_eq_true; exists u; (split; [|done]); right; by left.
Qed.

Section Layer.
Context {U : Unicode} {B : Type} (tokens : list token_with_loc) (raws : list (N * str)).
Context (parse_block : ST pstate cf_parse_error B).
Context (sub_parse : str -> outcome cf_parse_error (option (cf_expr B))).
Local Notation total := (total tokens).
Local Notation reads := (reads tokens).

Context (Hw : well_ended tokens).
Context (r : entries (B := B)) (n : nat).
Context (Hexpr : total n reads (r_expression r)).
Context (Hassign : total (pred n) reads (r_assignment_rhs r)).
Context (Htern : total (pred n) reads (r_ternary r)).
Context (Hnot : total (pred n) reads (r_not r)).
Context (Hunary : total (pred n) reads (r_unary r)).
Context (Hprim : total (pred n) reads (r_primary r)).
#[local] Hint Resolve total_unwrap_or : total.

(** ** Parameters *)

Lemma key_next s s' k : pa_current s' = S (pa_current s) -> key_string tokens s' k = key_string tokens s (S k).
Proof. intros H. unfold key_string. by rewrite (peek_next tokens s s'). Qed.

Lemma annotations_run fuel acc s0 s : ok tokens s -> after tokens s0 s -> budget tokens s < n ->
  length tokens <= fuel + pa_current s ->
  runs tokens s0 (param_annotations tokens r fuel acc) s (fun _ s' => after tokens s0 s').
Proof.
  revert s acc. induction fuel as [|fuel IH]; intros s acc Hs H0 Hb Hf; [arith|]. cbn [param_annotations].
  go1. go1; [|go; arith].
  assert (S (pa_current s) < length tokens).
  { apply inside; [done..|]. intros E. unfold key_string in Heqo. by rewrite E in Heqo. }
  go; try (apply IH; solve [arith]); try (arith; fail); [].
  exfalso. match goal with H : peek tokens s 1 = TkColon |- _ => rename H into Hc end.
  match goal with H : S (pa_current s) < _ -> _, H' : S (pa_current s') < _ -> _ |- _ =>
    specialize (H ltac:(done)); rename H into Hn1; rename H' into Hn2 end.
  rewrite <-(peek_next tokens s s' 0 Hn1) in Hc.
  specialize (Hn2 ltac:(apply inside; [done..|congruence])).
  rewrite <-(key_next s s' 1 Hn1), <-(key_next s' _ 0 Hn2) in *.
  match goal with H : bool_decide _ = true |- _ => apply bool_decide_eq_true in H as [? ?] end. congruence.
Qed.

Lemma total_annotations : total n keeps (param_annotations tokens r (S (length tokens)) []).
Proof. start. eapply runs_mono; [apply annotations_run; try done; arith|]. arith. Qed.

Lemma suffixes_run fuel first s0 s : ok tokens s -> after tokens s0 s -> length tokens <= fuel + pa_current s ->
  runs tokens s0 (array_suffixes tokens fuel first) s (fun _ s' => after tokens s0 s').
Proof.
  revert s first. induction fuel as [|fuel IH]; intros s first Hs H0 Hf; [arith|]. cbn [array_suffixes].
  go; try (apply IH; solve [arith]); arith.
Qed.

Lemma total_suffixes m first : total m keeps (array_suffixes tokens (S (length tokens)) first).
Proof. start. eapply runs_mono; [apply suffixes_run; try done; arith|]. arith. Qed.
#[local] Hint Resolve total_annotations total_suffixes : total.

Lemma total_parse_param :
  total n (fun s _ s' => is_param_word (peek tokens s 0) = true -> pa_current s < pa_current s') (parse_param tokens raws r).
Proof.
  start. unfold parse_param. go; arith.
Qed.
#[local] Hint Resolve total_parse_param : total.

Lemma params_run fuel acc s0 s : ok tokens s -> after tokens s0 s -> budget tokens s < n ->
  length tokens + (if is_param_word (peek tokens s 0) then 0 else 1) <= fuel + pa_current s ->
  runs tokens s0 (params_loop tokens raws r fuel acc) s (fun _ s' => after tokens s0 s').
Proof.
  revert s acc. induction fuel as [|fuel IH]; intros s acc Hs H0 Hb Hf; [arith|].
  cbn [params_loop]. call. go; try done.
  - apply IH; try done; arith.
  - apply IH; try done; [arith|].
    match goal with H : _ || _ || _ = false |- _ => apply orb_false_iff in H as [_ Hx%negb_false_iff] end.
    apply orb_true_iff in Hx as [Hx|Hx]; [|apply check_inside in Hx as [_ Hx]; [|done..]]; rewrite Hx; arith.
Qed.

Lemma total_param_list : total n keeps (parse_param_list tokens raws r).
Proof.
  start. unfold parse_param_list. go; [arith|]. eapply runs_mono; [apply params_run; try done|]; arith.
Qed.
#[local] Hint Resolve total_param_list : total.

(** ** Arguments *)

Lemma total_equal_or_colon m : total m advances (equal_or_colon tokens).
Proof. start. unfold equal_or_colon. go; arith. Qed.
#[local] Hint Resolve total_equal_or_colon : total.

Lemma runs_go_back {A} s0 c (k : unit -> ST pstate cf_parse_error A) s Q :
  runs tokens s0 (k tt) (set_current c s) Q ->
  runs tokens s0 (st_bind (fun s => (set_current c s, Ok tt)) k) s Q.
Proof. done. Qed.

Lemma total_paren_named : total n (fun s _ s' => paren_named tokens s = true -> pa_current s < pa_current s')
  (parse_paren_named tokens raws r).
Proof.
  start. unfold parse_paren_named. go.
  - unfold paren_named. arith.
  - apply runs_go_back. eapply runs_total; [exact Hexpr|arith..|]. intros. apply runs_ret.
    unfold paren_named. split; [arith|]. intros Hp. peeks. arith.
Qed.
#[local] Hint Resolve total_paren_named : total.

Lemma total_argument : total (pred n) (moves tokens) (parse_argument tokens raws r).
Proof.
  start. unfold parse_argument. go; arith.
Qed.
#[local] Hint Resolve total_argument : total.

Lemma arguments_run fuel oc acc s0 s : ok tokens s -> after tokens s0 s -> budget tokens s < pred n ->
  length tokens <= fuel + pa_current s ->
  runs tokens s0 (arguments_loop tokens raws r fuel oc acc) s (fun _ s' => after tokens s0 s').
Proof.
  revert s acc. induction fuel as [|fuel IH]; intros s acc Hs H0 Hb Hf; [arith|]. cbn [arguments_loop].
  go; try (apply IH; solve [arith]); try done.
  match goal with H : named_binding_ahead _ _ = true |- _ => apply andb_true_iff in H as [Hn _] end.
  assert (S (pa_current s') < length tokens).
  { apply inside; [done..|]. intros E. by rewrite E in Hn. }
  apply IH; arith.
Qed.

Lemma total_arguments_inner oc : total (pred n) keeps (parse_arguments_inner tokens raws r oc).
Proof.
  start. unfold parse_arguments_inner. go; [arith|]. apply runs_bind. eapply runs_mono.
  - apply arguments_run; try done; arith.
  - intros a s' Ha. go. arith.
Qed.
#[local] Hint Resolve total_arguments_inner : total.

Lemma total_arguments : total (pred n) keeps (parse_arguments tokens raws r).
Proof. apply total_arguments_inner. Qed.
#[local] Hint Resolve total_arguments : total.

Lemma total_closed_arguments : total (pred n) keeps (closed_arguments tokens raws r).
Proof. start. unfold closed_arguments. go. arith. Qed.
#[local] Hint Resolve total_closed_arguments : total.

(** ** Arguments of [throw] *)

Lemma throw_attrs_run fuel acc s0 s : ok tokens s -> after tokens s0 s -> budget tokens s < n ->
  length tokens <= fuel + pa_current s ->
  runs tokens s0 (throw_named_attrs tokens raws r fuel acc) s (fun _ s' => after tokens s0 s').
Proof.
  revert s acc. induction fuel as [|fuel IH]; intros s acc Hs H0 Hb Hf; [arith|]. cbn [throw_named_attrs].
  go; try (apply IH; solve [arith]); done.
Qed.

Lemma total_throw_arguments loc : total (pred n) keeps (parse_throw_call_arguments tokens raws r loc).
Proof.
  start. unfold runs at 1, parse_throw_call_arguments.
  destruct (throw_pair_ahead tokens s); [|by apply total_arguments].
  pose proof (throw_attrs_run (S (length tokens)) [] s s Hs H0 ltac:(arith) ltac:(lia)) as Ht. unfold runs in Ht.
  destruct (throw_named_attrs _ _ _ _ _ s) as [s1 [named|e|]]; [destruct (check tokens TkRParen s1); [arith|]| |done].
  all: assert (Hb1 : budget tokens (set_current (pa_current s) s1) < pred n) by arith.
  all: assert (Hs1 : ok tokens (set_current (pa_current s) s1)) by arith.
  all: pose proof (total_arguments _ Hs1 Hb1) as Ha; unfold runs in Ha.
  all: destruct (parse_arguments _ _ _ _) as [s2 [args|e2|]]; [| |done]; arith.
Qed.

(** ** Literals *)

Lemma total_pair_value key : total n keeps (pair_value tokens r key).
Proof. start. unfold pair_value. go; arith. Qed.

Lemma total_spread_pair : total n (moves tokens) (spread_pair r).
Proof. start. unfold spread_pair. go. arith. Qed.
#[local] Hint Resolve total_throw_arguments total_pair_value total_spread_pair : total.

Lemma bracket_pairs_run fuel acc s0 s : ok tokens s -> after tokens s0 s -> budget tokens s < pred n ->
  length tokens <= fuel + pa_current s ->
  runs tokens s0 (bracket_pairs tokens r fuel acc) s (fun _ s' => after tokens s0 s').
Proof.
  revert s acc. induction fuel as [|fuel IH]; intros s acc Hs H0 Hb Hf; [arith|]. cbn [bracket_pairs].
  go; try (apply IH; solve [arith]); done.
Qed.

Lemma total_bracket_struct key : total (pred n) (fun _ e _ => plain e) (parse_bracket_struct_literal tokens r key).
Proof.
  start. unfold parse_bracket_struct_literal. go. apply runs_bind. eapply runs_mono.
  - apply bracket_pairs_run; try done; arith.
  - intros ps s'' Ha. assert (ok tokens s'') by arith. go. arith.
Qed.
#[local] Hint Resolve total_bracket_struct : total.

(** The elements read, or the struct literal they turned out to be. *)
Definition elements_plain (r : list (cf_expr B) + cf_expr B) : Prop :=
  match r with inl _ => True | inr e => plain e end.

Lemma array_elements_run fuel acc s0 s : ok tokens s -> after tokens s0 s -> budget tokens s < n ->
  length tokens <= fuel + pa_current s ->
  runs tokens s0 (array_elements tokens r fuel acc) s (fun e s' => after tokens s0 s' /\ elements_plain e).
Proof.
  revert s acc. induction fuel as [|fuel IH]; intros s acc Hs H0 Hb Hf; [arith|]. cbn [array_elements].
  go; try (apply IH; solve [arith]); done.
Qed.

Lemma total_array_literal : total n (fun _ e _ => plain e) (parse_array_literal tokens r).
Proof.
  start. unfold parse_array_literal. apply runs_bind. eapply runs_mono.
  - apply array_elements_run; try done; arith.
  - intros [es|e] s' [Ha He]; assert (ok tokens s') by arith; go; arith.
Qed.

Lemma total_struct_key : total (pred n) (moves tokens) (struct_key tokens raws r).
Proof. start. unfold struct_key. go; arith. Qed.
#[local] Hint Resolve total_array_literal total_struct_key : total.

Lemma struct_pairs_run fuel acc s0 s : ok tokens s -> after tokens s0 s -> budget tokens s < pred n ->
  length tokens <= fuel + pa_current s ->
  runs tokens s0 (struct_pairs tokens raws r fuel acc) s (fun _ s' => after tokens s0 s').
Proof.
  revert s acc. induction fuel as [|fuel IH]; intros s acc Hs H0 Hb Hf; [arith|]. cbn [struct_pairs].
  go; try (apply IH; solve [arith]); done.
Qed.

Lemma total_struct_literal : total (pred n) (fun _ e _ => plain e) (parse_struct_literal tokens raws r).
Proof.
  start. unfold parse_struct_literal. apply runs_bind. eapply runs_mono.
  - apply struct_pairs_run; try done; arith.
  - intros ps s' Ha. assert (ok tokens s') by arith. go. arith.
Qed.

(** ** Functions and groups *)

Context (Hblock : has_function tokens -> forall m, total m keeps parse_block).
#[local] Hint Resolve total_struct_literal : total.

Lemma closure_metadata_run fuel acc s0 s : ok tokens s -> after tokens s0 s -> budget tokens s < n ->
  length tokens <= fuel + pa_current s ->
  runs tokens s0 (closure_metadata tokens raws r fuel acc) s (fun _ s' => after tokens s0 s').
Proof.
  revert s acc. induction fuel as [|fuel IH]; intros s acc Hs H0 Hb Hf; [arith|]. cbn [closure_metadata].
  go; try (apply IH; solve [arith]); done.
Qed.

Lemma total_closure_metadata : total n keeps (closure_metadata tokens raws r (S (length tokens)) []).
Proof. start. eapply runs_mono; [apply closure_metadata_run; try done; arith|]. arith. Qed.
#[local] Hint Resolve total_closure_metadata : total.

Lemma total_closure : has_function tokens -> total n (fun _ e _ => plain e) (parse_closure tokens raws parse_block r).
Proof. intros Hf. pose proof (Hblock Hf) as Hb'. start. unfold parse_closure. go; arith. Qed.

Lemma total_paren : total n (fun _ e _ => plain e) (cf_parse_paren tokens raws parse_block r).
Proof.
  start. unfold cf_parse_paren.
  assert (Ha : arrow_ahead (drop (pa_current s) tokens) 1 = true -> forall m, total m keeps parse_block).
  { intros Ha. apply Hblock. apply arrow_ahead_elem in Ha as (t & Ht & Et). exists t.
    split; [|by right]. rewrite <- (take_drop (pa_current s) tokens). apply elem_of_app. by right. }
  go; arith.
Qed.
#[local] Hint Resolve total_paren : total.

(** ** Primary expressions *)

Context (Hsub : forall t text, t ∈ tokens -> tl_token t = TkInterpolatedExpr text -> sub_parse text <> Panic).
Context (Hnames : forall i t w, tokens !! i = Some t -> tl_token t = TkIdentifier w -> str_is_ascii w = true).
Context (Hraws : Forall (fun e => str_is_ascii e.2 = true) raws).
Context (Hopen : (fun t => tl_token t) <$> tokens !! (length tokens - 2) <> Some TkLBrace).

Lemma string_parts_run fuel acc s0 s : ok tokens s -> after tokens s0 s -> length tokens <= fuel + pa_current s ->
  runs tokens s0 (string_parts tokens sub_parse fuel acc) s (fun _ s' => after tokens s0 s').
Proof.
  revert s acc. induction fuel as [|fuel IH]; intros s acc Hs H0 Hf; [arith|]. cbn [string_parts].
  go1. go1; [by apply runs_ret|].
  match goal with H : _ || _ = false |- _ => apply orb_false_iff in H as [He _] end.
  apply at_end_false in He; [|done..]. apply runs_advance; [done..|]. intros t s' ??? Hp _.
  specialize (Hp He) as [Hc Ht]. destruct t; try (apply runs_ret; assumption).
  - go. apply IH; arith.
  - assert (Hs1 : sub_parse s1 <> Panic).
    { unfold peek in Ht. rewrite Nat.add_0_r in Ht. destruct (tokens !! pa_current s) as [u|] eqn:Hu; [|done].
      eapply Hsub; [by eapply list_elem_of_lookup_2|]. by symmetry. } destruct (sub_parse s1) as [e|err|]; [| |done]; go; apply IH; arith.
Qed.

Lemma total_interpolated m : total m (fun _ e _ => plain e) (parse_interpolated tokens sub_parse).
Proof.
  start. unfold parse_interpolated. apply runs_bind. eapply runs_mono.
  - apply string_parts_run; try done; arith.
  - intros ps s' Ha. assert (ok tokens s') by arith. go; arith.
Qed.
#[local] Hint Resolve total_interpolated : total.

Lemma total_throw_primary : total n (fun _ e _ => plain e) (parse_throw_primary tokens raws r).
Proof. start. unfold parse_throw_primary. go; arith. Qed.

Lemma class_path_run fuel acc s0 s : ok tokens s -> after tokens s0 s -> length tokens <= fuel + pa_current s ->
  runs tokens s0 (class_path tokens raws fuel acc) s (fun _ s' => after tokens s0 s').
Proof.
  revert s acc. induction fuel as [|fuel IH]; intros s acc Hs H0 Hf; [arith|]. cbn [class_path].
  go1. go1; [|by apply runs_ret]. go1. cbv beta.
  match goal with |- runs _ _ _ ?x _ => rename x into s1 end.
  pose proof (total_extract_property tokens Hw raws (S (budget tokens s1)) s1 ltac:(done) ltac:(lia)) as He.
  unfold runs in *. destruct (extract_property_name tokens raws s1) as [s2 [w|e|]]; [|arith|done].
  apply IH; arith.
Qed.

Lemma total_finish_new class : total n (fun _ e _ => plain e) (finish_new tokens raws r class).
Proof. start. unfold finish_new. go; arith. Qed.
#[local] Hint Resolve total_throw_primary total_finish_new : total.

(** [new]: the class is read behind a token. *)
Lemma total_new : total (pred n) (fun _ e _ => plain e) (parse_new tokens raws r).
Proof.
  start. unfold parse_new. apply runs_looking.
  assert (Hd : runs tokens s
    (let! name := looking (fun s => check tokens TkLParen s || ends_new (peek tokens s 0)) in
     if name : bool then at_here tokens (XIdentifier (lit "new"))
     else let! class := r_primary r in finish_new tokens raws r class) s
    (fun e s' => after tokens s s' /\ plain e)) by (go; arith).
  destruct (peek tokens s 0) eqn:Hp; try exact Hd; clear Hd.
  apply runs_advance; [done..|]. intros t s' ??? Hm _. apply runs_bind. eapply runs_mono.
  - apply class_path_run; try done; arith.
  - intros path s'' Ha. assert (ok tokens s'') by arith. go. arith.
Qed.
#[local] Hint Resolve total_new : total.

Lemma new_at_end s0 s : ok tokens s -> after tokens s0 s -> S (pa_current s) = length tokens ->
  runs tokens s0 (parse_new tokens raws r) s (fun e s' => after tokens s0 s' /\ plain e).
Proof.
  intros Hs H0 He. apply at_end_iff in He; [|done..]. apply bool_decide_eq_true in He.
  unfold parse_new. go1. rewrite He. go1. rewrite He, orb_true_r. go. arith.
Qed.

Lemma total_primary_word m t : total m (fun _ (e : cf_expr B) _ => plain e) (primary_word tokens raws t).
Proof.
  start. unfold primary_word. go.
  - split; [done|]. by eapply plain_identifier, (word_of_ascii soft_words).
  - split; [done|]. eapply plain_identifier, consumed_ascii; [done|by eapply (word_of_ascii spelled_words)].
  - arith.
Qed.
#[local] Hint Resolve total_primary_word : total.

(** The token [advance] gives is one of the list. *)
Lemma advanced_ascii s t w : ok tokens s -> t = TkIdentifier w ->
  (S (pa_current s) < length tokens -> t = peek tokens s 0) ->
  (S (pa_current s) = length tokens -> (fun u => tl_token u) <$> tokens !! (length tokens - 2) = Some t) ->
  str_is_ascii w = true.
Proof.
  intros [Hs _] -> H1 H2. destruct (decide (S (pa_current s) < length tokens)) as [Hi|Hi].
  - specialize (H1 Hi). unfold peek in H1. rewrite Nat.add_0_r in H1.
    destruct (tokens !! pa_current s) as [u|] eqn:E; [|done]. by eapply Hnames.
  - specialize (H2 ltac:(lia)). apply fmap_Some in H2 as (u & Hu & Ht). by eapply Hnames.
Qed.

Lemma read_elem s t : ok tokens s ->
  t = peek tokens s 0 \/ (fun u => tl_token u) <$> tokens !! (length tokens - 2) = Some t ->
  t = TkEof \/ exists u, u ∈ tokens /\ tl_token u = t.
Proof.
  intros Hs [E|E].
  - unfold peek in E. rewrite Nat.add_0_r in E. destruct (tokens !! pa_current s) as [u|] eqn:Hu; [|by left].
    right. exists u. split; [by eapply list_elem_of_lookup_2|done].
  - right. apply fmap_Some in E as (u & Hu & ->). exists u. split; [by eapply list_elem_of_lookup_2|done].
Qed.

Lemma total_primary : total n reads (cf_parse_primary tokens raws parse_block sub_parse r).
Proof.
  start. unfold cf_parse_primary. apply runs_advance; [done..|]. intros t s' Hs' H1 H2 Hin Hend.
  assert (Hm : moves tokens s t s') by arith.
  assert (Hsafe : after tokens s s' -> budget tokens s' < n) by arith.
  assert (Hcl : t = TkFunction -> total n (fun _ e _ => plain e) (parse_closure tokens raws parse_block r)).
  { intros ->. apply total_closure. destruct (read_elem s TkFunction Hs) as [?|(u & Hu & Eu)]; [|done|by exists u; auto].
    destruct (decide (S (pa_current s) < length tokens)) as [Hi|Hi]; [left; by apply Hin|right; by apply Hend; arith]. }
  assert (Hd : forall u, runs tokens s (primary_word tokens raws u) s' (fun (e : cf_expr B) s1 => after tokens s s1 /\ reads s e s1)).
  { intros u. eapply runs_tail; [apply (total_primary_word n)|done|done|auto|]. intros. arith. }
  destruct t; try exact (Hd _); clear Hd.
  all: try (go; arith; fail).
  - apply runs_here. split; [done|]. split; [|arith]. apply plain_identifier.
    eapply (advanced_ascii s); [done|reflexivity|by intros [_ ?]%Hin|by intros [_ ?]%Hend].
  - destruct (decide (S (pa_current s) < length tokens)) as [Hi|Hi]; [go; arith|].
    exfalso. apply Hopen, Hend. arith.
  - destruct (decide (S (pa_current s) < length tokens)) as [Hi|Hi]; [go; arith|].
    destruct Hend as [-> _]; [arith|]. eapply runs_mono; [apply new_at_end; try done; arith|].
    intros e s1 [? ?]. arith.
Qed.
#[local] Hint Resolve total_primary : total.

(** ** Suffixes *)

Lemma total_named_suffix member call :
  (forall w loc, plain (member w loc)) -> (forall w args loc, plain (call w args loc)) ->
  total (pred n) (fun _ e _ => plain e) (named_suffix tokens raws r member call).
Proof. intros H1 H2. start. unfold named_suffix. go; arith. Qed.

Lemma plain_index_parts loc (e : cf_expr B) parts : plain e -> plain (index_parts loc e parts).
Proof.
  unfold index_parts. revert e. induction parts as [|p parts IH]; intros e He; [done|]. cbn.
  apply IH. by destruct (parse_i64 p).
Qed.

Lemma total_dot_suffix e : plain e -> total (pred n) (fun _ e _ => plain e) (dot_suffix tokens raws r e).
Proof.
  intros He. start. unfold dot_suffix.
  pose proof (total_named_suffix (fun m => XMemberAccess e m false) (fun m args => XMethodCall e m args false)
                ltac:(done) ltac:(done)) as Hn.
  go1. destruct (peek tokens s 0); try (eapply runs_tail; [exact Hn|done|done|done|by intros]).
  - go. arith.
  - destruct (decimal_parts d); [|eapply runs_tail; [exact Hn|done|done|done|by intros]].
    go. split; [done|]. by apply plain_index_parts.
Qed.

Lemma total_apply_suffix e sf : plain e -> total (pred n) (fun _ e _ => plain e) (apply_suffix tokens raws r e sf).
Proof.
  intros He. destruct sf; cbn [apply_suffix].
  - by apply total_dot_suffix.
  - start. unfold plain in He. destruct (tag_call e) as [b|err|]; [|by apply after_refl|done].
    apply (runs_ret_bind _ _ b). go. arith.
  - start. go. arith.
  - by apply total_named_suffix.
  - by apply total_named_suffix.
Qed.

Lemma call_loop_run fuel e s0 s : ok tokens s -> after tokens s0 s -> budget tokens s < n ->
  length tokens <= fuel + pa_current s -> plain e ->
  runs tokens s0 (call_loop tokens raws r fuel e) s (fun e s' => after tokens s s' /\ plain e).
Proof.
  revert s e. induction fuel as [|fuel IH]; intros s e Hs H0 Hb Hf He; [arith|]. cbn [call_loop].
  unfold suffix_op. go; [|arith]. eapply runs_total; [by apply total_apply_suffix|done..|arith|].
  intros e' s'' ????. eapply runs_mono; [apply IH; arith|]. intros ? ? [? ?]. arith.
Qed.

Lemma total_call : total n reads (cf_parse_call tokens raws parse_block sub_parse r).
Proof.
  start. unfold cf_parse_call. go. eapply runs_mono; [apply call_loop_run; arith|]. intros e s1 [? ?]. arith.
Qed.
#[local] Hint Resolve total_call : total.

(** ** Operators *)

Lemma reads_depth s d (e : cf_expr B) s' d' : reads s e s' -> reads (set_depth d s) e (set_depth d' s').
Proof. done. Qed.

Lemma total_postfix : total n reads (parse_postfix tokens raws parse_block sub_parse r).
Proof. start. unfold parse_postfix. go; arith. Qed.
#[local] Hint Resolve total_postfix : total.

Lemma total_deeper m (p : ST pstate cf_parse_error (cf_expr B)) :
  total m reads p -> total m reads (with_depth tokens p).
Proof.
  intros H. eapply total_le; [apply total_with_depth; [intros; by apply reads_depth|exact H]|lia].
Qed.
#[local] Hint Resolve total_deeper : total.

Lemma total_unary : total n reads (cf_parse_unary tokens raws parse_block sub_parse r).
Proof. start. unfold cf_parse_unary. go; arith. Qed.

Lemma total_contains : total n reads (parse_contains tokens raws parse_block sub_parse r).
Proof.
  assert (Hc : total n reads (parse_concatenation tokens raws parse_block sub_parse r)).
  { do 4 (apply total_level; [|intros; apply total_match_op; done]). apply total_unary. }
  start. unfold parse_contains. generalize dependent (parse_concatenation tokens raws parse_block sub_parse r).
  intros operand Hc. go; arith.
Qed.

Lemma total_parse_not : total n reads (cf_parse_not tokens raws parse_block sub_parse r).
Proof.
  assert (He : total n reads (parse_equality tokens raws parse_block sub_parse r)).
  { apply total_level; [|by intros; apply total_equality_op].
    apply total_level; [|by intros; apply total_comparison_op]. apply total_contains. }
  start. unfold cf_parse_not. generalize dependent (parse_equality tokens raws parse_block sub_parse r).
  intros operand He. go; arith.
Qed.

Lemma total_ternary : total n reads (parse_ternary tokens raws parse_block sub_parse r).
Proof.
  assert (Hi : total n reads (parse_imp tokens raws parse_block sub_parse r)).
  { do 5 (apply total_level; [|intros; apply total_match_op; done]). apply total_parse_not. }
  start. unfold parse_ternary, parse_elvis. generalize dependent (parse_imp tokens raws parse_block sub_parse r).
  intros operand Hi. go; arith.
Qed.
#[local] Hint Resolve total_ternary : total.

Lemma total_assignment_rhs : total n reads (parse_assignment_rhs tokens raws parse_block sub_parse r).
Proof.
  start. unfold parse_assignment_rhs. go; try (arith; fail).
  match goal with H : compound_assign_binop (peek tokens ?s1 0) = Some _ |- _ =>
    assert (S (pa_current s1) < length tokens)
      by (apply inside; [done..|]; intros E; by rewrite E in H) end.
  go; arith.
Qed.

Lemma total_assignment_expr : total n reads (parse_assignment_expr tokens raws parse_block sub_parse r).
Proof. start. unfold parse_assignment_expr. go; arith. Qed.

Lemma total_expression : total (S (S n)) reads (cf_parse_expression tokens raws parse_block sub_parse r).
Proof. apply total_with_depth; [intros; by apply reads_depth|apply total_assignment_expr]. Qed.
End Layer.

(** ** The knot *)

Section Knot.
Context {U : Unicode} {B : Type} (tokens : list token_with_loc) (raws : list (N * str)).
Context (parse_block : ST pstate cf_parse_error B).
Context (sub_parse : str -> outcome cf_parse_error (option (cf_expr B))).
Context (Hw : well_ended tokens).
Context (Hblock : has_function tokens -> forall m, total tokens m keeps parse_block).
Context (Hsub : forall t text, t ∈ tokens -> tl_token t = TkInterpolatedExpr text -> sub_parse text <> Panic).
Context (Hnames : forall i t w, tokens !! i = Some t -> tl_token t = TkIdentifier w -> str_is_ascii w = true).
Context (Hraws : Forall (fun e => str_is_ascii e.2 = true) raws).
Context (Hopen : (fun t => tl_token t) <$> tokens !! (length tokens - 2) <> Some TkLBrace).

(** Every entry point within its number of recursions. *)
Definition entries_total (n : nat) (r : entries) : Prop :=
  total tokens n (reads tokens (B := B)) (r_expression r)
  /\ total tokens (pred n) (reads tokens) (r_assignment_rhs r) /\ total tokens (pred n) (reads tokens) (r_ternary r)
  /\ total tokens (pred n) (reads tokens) (r_not r) /\ total tokens (pred n) (reads tokens) (r_unary r)
  /\ total tokens (pred n) (reads tokens) (r_primary r).

Lemma unroll_total n : entries_total n (unroll tokens raws parse_block sub_parse n).
Proof.
  induction n as [|n (H1 & H2 & H3 & H4 & H5 & H6)].
  { by repeat split; intros s Hs Hb; apply Nat.nlt_0_r in Hb. }
  unfold entries_total. cbn [unroll layer r_expression r_assignment_rhs r_ternary r_not r_unary r_primary pred].
  split_and!.
  - eapply total_le; [by apply total_expression|lia].
  - by apply total_assignment_rhs.
  - by apply total_ternary.
  - by apply total_parse_not.
  - by apply total_unary.
  - by apply total_primary.
Qed.
End Knot.
