(* ===== verification/CfmlExpr.v ===== *)
(** * CfmlExpr: what the CFML expression parser does on any source text

    More room for recursion never changes what the parser returns; it returns
    within a bound, and where the source stops behind an open brace it does not. *)

From Stdlib Require Import Strings.Ascii.
From stdpp Require Import base list numbers strings.
From S2P Require Import Prelude Text Float64 Value QoqLexer CfmlLexer CfmlLexerFacts CfmlNames CfmlNamesFacts CfmlAst.
From S2P Require Import CfmlParser CfmlParserFacts CfmlParserTotal.
Local Open Scope nat_scope.
Local Open Scope st_scope.

(** ** More room for recursion *)

Create HintDb mono discriminated.

Section Extended.
Abbreviation parsing := (ST pstate cf_parse_error).

Definition extended {A} (m m' : parsing A) : Prop := forall s, (m s).2 = Panic \/ m s = m' s.

#[global] Instance extended_preorder {A} : PreOrder (@extended A).
Proof.
  split; [by right|]. intros m1 m2 m3 H1 H2 s. destruct (H1 s) as [H|E]; [by left|]. rewrite E. apply H2.
Qed.

Lemma extended_panic {A} (m : parsing A) : extended st_panic m.
Proof. by left. Qed.

Lemma extended_bind {A B} (m m' : parsing A) (k k' : A -> parsing B) :
  extended m m' -> (forall a, extended (k a) (k' a)) -> extended (st_bind m k) (st_bind m' k').
Proof.
  intros Hm Hk s. unfold st_bind. destruct (Hm s) as [H|E].
  - left. destruct (m s) as [s1 []]; done.
  - rewrite E. destruct (m' s) as [s1 [a|e|]]; [apply Hk|by right|by left].
Qed.

Lemma extended_unwrap_or {A} (x : A) (m m' : parsing A) : extended m m' -> extended (unwrap_or x m) (unwrap_or x m').
Proof.
  intros Hm s. unfold unwrap_or. destruct (Hm s) as [H|E]; [left|right; by rewrite E].
  destruct (m s) as [s1 []]; done.
Qed.

Lemma extended_with_depth {A} tokens (m m' : parsing A) : extended m m' -> extended (with_depth tokens m) (with_depth tokens m').
Proof.
  intros Hm s. unfold with_depth. destruct (_ <? _); [by right|].
  destruct (Hm (set_depth (S (pa_expr_depth s)) s)) as [H|E]; [left|right; by rewrite E].
  destruct (m _) as [s1 []]; done.
Qed.
End Extended.

(** Two programs of the same shape: where they differ, they call entry points. *)
Ltac mono :=
  cbv beta;
  repeat first
    [ match goal with
      | |- extended ?m ?m => reflexivity
      | |- extended st_panic _ => apply extended_panic
      | |- extended (st_bind _ _) (st_bind _ _) => apply extended_bind; [|intros ?]
      | |- extended (unwrap_or _ _) (unwrap_or _ _) => apply extended_unwrap_or
      | |- extended (with_depth _ _) (with_depth _ _) => apply extended_with_depth
      | |- extended (if ?b then _ else _) _ => destruct b
      | |- extended (match ?x with _ => _ end) _ => destruct x
      end
    | solve [eauto with mono nocore] ].

Section Layer.
Context {U : Unicode} {B : Type} (tokens : list token_with_loc) (raws : list (N * str)).
Context (parse_block : ST pstate cf_parse_error B).
Context (sub_parse : str -> outcome cf_parse_error (option (cf_expr B))).

Context (r r' : entries (B := B)).
Context (He : extended (r_expression r) (r_expression r')) (Ha : extended (r_assignment_rhs r) (r_assignment_rhs r')).
Context (Ht : extended (r_ternary r) (r_ternary r')) (Hn : extended (r_not r) (r_not r')).
Context (Hu : extended (r_unary r) (r_unary r')) (Hp : extended (r_primary r) (r_primary r')).
#[local] Hint Resolve He Ha Ht Hn Hu Hp : mono.

Lemma extended_annotations fuel acc : extended (param_annotations tokens r fuel acc) (param_annotations tokens r' fuel acc).
Proof. revert acc. induction fuel; intros acc; cbn [param_annotations]; mono; done. Qed.
#[local] Hint Resolve extended_annotations : mono.

Lemma extended_param : extended (parse_param tokens raws r) (parse_param tokens raws r').
Proof. unfold parse_param. mono. Qed.
#[local] Hint Resolve extended_param : mono.

Lemma extended_params_loop fuel acc : extended (params_loop tokens raws r fuel acc) (params_loop tokens raws r' fuel acc).
Proof. revert acc. induction fuel; intros acc; cbn [params_loop]; mono; done. Qed.
#[local] Hint Resolve extended_params_loop : mono.

Lemma extended_param_list : extended (parse_param_list tokens raws r) (parse_param_list tokens raws r').
Proof. unfold parse_param_list. mono. Qed.
#[local] Hint Resolve extended_param_list : mono.

Lemma extended_paren_named : extended (parse_paren_named tokens raws r) (parse_paren_named tokens raws r').
Proof. unfold parse_paren_named. mono. Qed.
#[local] Hint Resolve extended_paren_named : mono.

Lemma extended_argument : extended (parse_argument tokens raws r) (parse_argument tokens raws r').
Proof. unfold parse_argument. mono. Qed.
#[local] Hint Resolve extended_argument : mono.

Lemma extended_arguments_loop fuel oc acc :
  extended (arguments_loop tokens raws r fuel oc acc) (arguments_loop tokens raws r' fuel oc acc).
Proof. revert acc. induction fuel; intros acc; cbn [arguments_loop]; mono; done. Qed.
#[local] Hint Resolve extended_arguments_loop : mono.

Lemma extended_arguments_inner oc : extended (parse_arguments_inner tokens raws r oc) (parse_arguments_inner tokens raws r' oc).
Proof. unfold parse_arguments_inner. mono. Qed.
#[local] Hint Resolve extended_arguments_inner : mono.

Lemma extended_arguments : extended (parse_arguments tokens raws r) (parse_arguments tokens raws r').
Proof. apply extended_arguments_inner. Qed.
#[local] Hint Resolve extended_arguments : mono.

Lemma extended_closed_arguments : extended (closed_arguments tokens raws r) (closed_arguments tokens raws r').
Proof. unfold closed_arguments. mono. Qed.

Lemma extended_throw_attrs fuel acc : extended (throw_named_attrs tokens raws r fuel acc) (throw_named_attrs tokens raws r' fuel acc).
Proof. revert acc. induction fuel; intros acc; cbn [throw_named_attrs]; mono; done. Qed.

Lemma extended_throw_arguments loc :
  extended (parse_throw_call_arguments tokens raws r loc) (parse_throw_call_arguments tokens raws r' loc).
Proof.
  intros s. unfold parse_throw_call_arguments. destruct (throw_pair_ahead tokens s); [|apply extended_arguments].
  destruct (extended_throw_attrs (S (length tokens)) [] s) as [H|E].
  - left. destruct (throw_named_attrs tokens raws r _ _ s) as [s1 []]; done.
  - rewrite E. destruct (throw_named_attrs tokens raws r' _ _ s) as [s1 [named|e|]]; [|apply extended_arguments|by left].
    destruct (check tokens TkRParen s1); [by right|apply extended_arguments].
Qed.
#[local] Hint Resolve extended_closed_arguments extended_throw_arguments : mono.

Lemma extended_pair_value key : extended (pair_value tokens r key) (pair_value tokens r' key).
Proof. unfold pair_value. mono. Qed.
Lemma extended_spread_pair : extended (spread_pair r) (spread_pair r').
Proof. unfold spread_pair. mono. Qed.
#[local] Hint Resolve extended_pair_value extended_spread_pair : mono.

Lemma extended_bracket_pairs fuel acc : extended (bracket_pairs tokens r fuel acc) (bracket_pairs tokens r' fuel acc).
Proof. revert acc. induction fuel; intros acc; cbn [bracket_pairs]; mono; done. Qed.
#[local] Hint Resolve extended_bracket_pairs : mono.

Lemma extended_bracket_struct e : extended (parse_bracket_struct_literal tokens r e) (parse_bracket_struct_literal tokens r' e).
Proof. unfold parse_bracket_struct_literal. mono. Qed.
#[local] Hint Resolve extended_bracket_struct : mono.

Lemma extended_array_elements fuel acc : extended (array_elements tokens r fuel acc) (array_elements tokens r' fuel acc).
Proof. revert acc. induction fuel; intros acc; cbn [array_elements]; mono; done. Qed.
#[local] Hint Resolve extended_array_elements : mono.

Lemma extended_array_literal : extended (parse_array_literal tokens r) (parse_array_literal tokens r').
Proof. unfold parse_array_literal. mono. Qed.

Lemma extended_struct_key : extended (struct_key tokens raws r) (struct_key tokens raws r').
Proof. unfold struct_key. mono. Qed.
#[local] Hint Resolve extended_array_literal extended_struct_key : mono.

Lemma extended_struct_pairs fuel acc : extended (struct_pairs tokens raws r fuel acc) (struct_pairs tokens raws r' fuel acc).
Proof. revert acc. induction fuel; intros acc; cbn [struct_pairs]; mono; done. Qed.
#[local] Hint Resolve extended_struct_pairs : mono.

Lemma extended_struct_literal : extended (parse_struct_literal tokens raws r) (parse_struct_literal tokens raws r').
Proof. unfold parse_struct_literal. mono. Qed.

Lemma extended_closure_metadata fuel acc :
  extended (closure_metadata tokens raws r fuel acc) (closure_metadata tokens raws r' fuel acc).
Proof. revert acc. induction fuel; intros acc; cbn [closure_metadata]; mono; done. Qed.
#[local] Hint Resolve extended_struct_literal extended_closure_metadata : mono.

Lemma extended_closure : extended (parse_closure tokens raws parse_block r) (parse_closure tokens raws parse_block r').
Proof. unfold parse_closure. mono. Qed.
Lemma extended_paren : extended (cf_parse_paren tokens raws parse_block r) (cf_parse_paren tokens raws parse_block r').
Proof. unfold cf_parse_paren. mono. Qed.
Lemma extended_throw_primary : extended (parse_throw_primary tokens raws r) (parse_throw_primary tokens raws r').
Proof. unfold parse_throw_primary. mono. Qed.
Lemma extended_finish_new e : extended (finish_new tokens raws r e) (finish_new tokens raws r' e).
Proof. unfold finish_new. mono. Qed.
#[local] Hint Resolve extended_closure extended_paren extended_throw_primary extended_finish_new : mono.

Lemma extended_new : extended (parse_new tokens raws r) (parse_new tokens raws r').
Proof. unfold parse_new. mono. Qed.
#[local] Hint Resolve extended_new : mono.

Lemma extended_primary :
  extended (cf_parse_primary tokens raws parse_block sub_parse r) (cf_parse_primary tokens raws parse_block sub_parse r').
Proof. unfold cf_parse_primary. mono. Qed.
#[local] Hint Resolve extended_primary : mono.

Lemma extended_named_suffix member call :
  extended (named_suffix tokens raws r member call) (named_suffix tokens raws r' member call).
Proof. unfold named_suffix. mono. Qed.
#[local] Hint Resolve extended_named_suffix : mono.

Lemma extended_apply_suffix e sf : extended (apply_suffix tokens raws r e sf) (apply_suffix tokens raws r' e sf).
Proof. destruct sf; cbn [apply_suffix]; unfold dot_suffix; mono. Qed.
#[local] Hint Resolve extended_apply_suffix : mono.

Lemma extended_call_loop fuel e : extended (call_loop tokens raws r fuel e) (call_loop tokens raws r' fuel e).
Proof. revert e. induction fuel; intros e; cbn [call_loop]; mono; done. Qed.
#[local] Hint Resolve extended_call_loop : mono.

Lemma extended_call : extended (cf_parse_call tokens raws parse_block sub_parse r) (cf_parse_call tokens raws parse_block sub_parse r').
Proof. unfold cf_parse_call. mono. Qed.
#[local] Hint Resolve extended_call : mono.

Lemma extended_unary : extended (cf_parse_unary tokens raws parse_block sub_parse r) (cf_parse_unary tokens raws parse_block sub_parse r').
Proof. unfold cf_parse_unary, parse_postfix. mono. Qed.

Lemma extended_chain fuel (p p' : ST pstate cf_parse_error (cf_expr B)) op t e :
  extended p p' -> extended (chain tokens fuel p op t e) (chain tokens fuel p' op t e).
Proof. intros H. revert t e. induction fuel; intros t e; cbn [chain]; mono; done. Qed.

Lemma extended_level (p p' : ST pstate cf_parse_error (cf_expr B)) op :
  extended p p' -> extended (op_level tokens p op) (op_level tokens p' op).
Proof. intros H. unfold op_level. apply extended_bind; [done|]. intros e. by apply extended_chain. Qed.

Lemma extended_contains :
  extended (parse_contains tokens raws parse_block sub_parse r) (parse_contains tokens raws parse_block sub_parse r').
Proof.
  assert (H : extended (parse_concatenation tokens raws parse_block sub_parse r)
                    (parse_concatenation tokens raws parse_block sub_parse r')) by (do 4 apply extended_level; apply extended_unary).
  unfold parse_contains. mono; done.
Qed.

Lemma extended_not : extended (cf_parse_not tokens raws parse_block sub_parse r) (cf_parse_not tokens raws parse_block sub_parse r').
Proof.
  assert (H : extended (parse_equality tokens raws parse_block sub_parse r)
                    (parse_equality tokens raws parse_block sub_parse r')) by (do 2 apply extended_level; apply extended_contains).
  unfold cf_parse_not. mono; done.
Qed.

Lemma extended_ternary : extended (parse_ternary tokens raws parse_block sub_parse r) (parse_ternary tokens raws parse_block sub_parse r').
Proof.
  assert (H : extended (parse_imp tokens raws parse_block sub_parse r)
                    (parse_imp tokens raws parse_block sub_parse r')) by (do 5 apply extended_level; apply extended_not).
  unfold parse_ternary, parse_elvis. mono; done.
Qed.
#[local] Hint Resolve extended_ternary : mono.

Lemma extended_assignment_rhs :
  extended (parse_assignment_rhs tokens raws parse_block sub_parse r) (parse_assignment_rhs tokens raws parse_block sub_parse r').
Proof. unfold parse_assignment_rhs. mono. Qed.

Lemma extended_expression :
  extended (cf_parse_expression tokens raws parse_block sub_parse r) (cf_parse_expression tokens raws parse_block sub_parse r').
Proof. unfold cf_parse_expression, parse_assignment_expr. mono. Qed.
End Layer.

Section Knot.
Context {U : Unicode} {B : Type} (tokens : list token_with_loc) (raws : list (N * str)).
Context (parse_block : ST pstate cf_parse_error B).
Context (sub_parse : str -> outcome cf_parse_error (option (cf_expr B))).

Definition entries_extended (r r' : entries (B := B)) : Prop :=
  extended (r_expression r) (r_expression r') /\ extended (r_assignment_rhs r) (r_assignment_rhs r')
  /\ extended (r_ternary r) (r_ternary r') /\ extended (r_not r) (r_not r') /\ extended (r_unary r) (r_unary r')
  /\ extended (r_primary r) (r_primary r').

Lemma unroll_mono n m : n <= m ->
  entries_extended (unroll tokens raws parse_block sub_parse n) (unroll tokens raws parse_block sub_parse m).
Proof.
  revert m. induction n as [|n IH]; intros m Hm; [by split_and!; apply extended_panic|].
  destruct m as [|m]; [lia|]. destruct (IH m ltac:(lia)) as (? & ? & ? & ? & ? & ?).
  unfold entries_extended. cbn [unroll layer r_expression r_assignment_rhs r_ternary r_not r_unary r_primary].
  split_and!; [by apply extended_expression|by apply extended_assignment_rhs|by apply extended_ternary|by apply extended_not
              |by apply extended_unary|by apply extended_primary].
Qed.
End Knot.

(** ** The tokens of a source *)

Definition ascii_name (t : cf_token) : Prop :=
  match t with TkIdentifier w => str_is_ascii w = true | _ => True end.

Definition ascii_lexer (l : cf_lexer) : Prop :=
  Forall (fun t => ascii_name (tl_token t)) (lx_tokens l)
  /\ Forall (fun e => str_is_ascii e.2 = true) (lx_raw_spellings l).

Lemma word_char_ascii c : word_char c = true -> is_ascii c = true.
Proof.
  unfold word_char, is_ascii_alpha, is_ascii_digit, is_ascii.
  rewrite !orb_true_iff, !andb_true_iff, !N.leb_le, !N.eqb_eq, N.ltb_lt. lia.
Qed.
Lemma word_start_char c : word_start c = true -> word_char c = true.
Proof. unfold word_start, word_char. rewrite !orb_true_iff. tauto. Qed.

Lemma word_ascii c s : word_start c = true -> str_is_ascii (c :: (span word_char s).1) = true.
Proof.
  intros Hc. unfold str_is_ascii. cbn [forallb]. rewrite (word_char_ascii c) by by apply word_start_char.
  apply forallb_forall. intros d Hd. apply word_char_ascii.
  pose proof (span_all word_char s) as H. rewrite Forall_forall in H. by apply H, list_elem_of_In.
Qed.

Lemma keyword_ascii_name w t : cf_keyword w = Some t -> ascii_name t.
Proof. intros H%cf_keyword_token. by destruct t. Qed.
Lemma number_ascii_name w : ascii_name (number_value w).
Proof. unfold number_value. by repeat case_match. Qed.
Lemma operator_ascii_name c s t n : operator_token c s = Some (t, n) -> ascii_name t.
Proof. destruct t; try done. by intros ?%operator_not_word. Qed.

Section Tokens.
Context {U : Unicode}.

Lemma cf_string_ascii q cu : Forall (fun t => ascii_name (tl_token t)) (cf_string q cu).1.
Proof.
  unfold cf_string. destruct (scan_string _ _ _ _ _ _) as [parts has cur r|h r]; cbn; [|by repeat constructor].
  apply Forall_fmap. destruct has; [|by repeat constructor]. constructor; [done|].
  apply Forall_app. split; [|by repeat constructor]. apply Forall_fmap, Forall_true. by intros [[]].
Qed.

Lemma scan_token_ascii l : ascii_lexer l -> ascii_lexer (scan_token l).
Proof.
  intros [H1 H2]. assert (Hn : forall c cu, ascii_lexer (cf_number c cu l)).
  { intros c cu. unfold cf_number. destruct (number_tail _). split; [|done]. cbn. apply Forall_app. split; [done|].
    apply Forall_singleton, number_ascii_name. }
  assert (Hm : forall cu, ascii_lexer (move_to cu l)) by (intros; split; [cbn; by rewrite app_nil_r|done]).
  unfold scan_token. repeat (case_match; [by auto|]). case_match.
  { destruct (multi_line_comment _). done. }
  case_match; [apply Hm|]. case_match.
  { pose proof (cf_string_ascii (peek_at 0 (cu_rest (lx_cursor l))) (cf_advance (lx_cursor l))).
    destruct (cf_string _ _). split; [cbn in *; by apply Forall_app|done]. }
  case_match; [apply Hn|]. case_match eqn:Ew.
  - unfold cf_identifier. pose proof (word_ascii _ (cu_rest (cf_advance (lx_cursor l))) Ew) as Ha.
    destruct (span _ _) as [tail rest]. cbn [fst] in Ha.
    destruct (cf_keyword _) eqn:E; (split; cbn [lx_tokens lx_raw_spellings]; apply Forall_app; split; try done).
    all: first [by apply Forall_singleton, (keyword_ascii_name _ _ E)
               | case_match; [by apply Forall_singleton|by constructor]
               | by apply Forall_singleton].
  - unfold scan_operator. case_match eqn:E; [|apply Hm]. destruct p. split; [|done].
    apply Forall_app. split; [done|]. apply Forall_singleton. by eapply operator_ascii_name.
Qed.

Lemma cf_lex_ascii src : ascii_lexer (cf_lex src).
Proof.
  assert (H : forall n l, ascii_lexer l -> ascii_lexer (scan_all n l)).
  { induction n as [|n IH]; intros l Hl; [done|]. cbn [scan_all]. case_match; [done|]. by apply IH, scan_token_ascii. }
  destruct (H (length src) (cf_lexer_new src)) as [H1 H2]; [by split; constructor|].
  split; [|done]. cbn. apply Forall_app. split; [done|]. by apply Forall_singleton.
Qed.

Lemma source_names src i t w :
  source_tokens src !! i = Some t -> tl_token t = TkIdentifier w -> str_is_ascii w = true.
Proof.
  intros Hi Ht. pose proof (proj1 (cf_lex_ascii src)) as H. eapply Forall_lookup_1 in H; [|exact Hi].
  by rewrite Ht in H.
Qed.

Lemma source_well_ended src : 1 < length (source_tokens src) -> well_ended (source_tokens src).
Proof.
  intros Hl. pose proof (scan_all_not_end (length src) (cf_lexer_new src)) as Hn.
  specialize (Hn (Forall_nil_2 _)). unfold source_tokens in *. cbn [lx_tokens cf_lex push_tokens] in *.
  set (ts := lx_tokens (scan_all (length src) (cf_lexer_new src))) in *. split; [by rewrite last_snoc| |done].
  intros i t Hi Hlt. rewrite length_app in Hlt. cbn in Hlt. rewrite lookup_app_l in Hi by lia.
  by eapply Forall_lookup_1 in Hn.
Qed.
End Tokens.

(** ** The tokens of a source *)

Section Source.
Context {U : Unicode} {B : Type} (src : str).
Context (parse_block : ST pstate cf_parse_error B).
Context (sub_parse : str -> outcome cf_parse_error (option (cf_expr B))).
Local Notation tokens := (source_tokens src).
Local Notation unrolled := (unroll tokens (source_spellings src) parse_block sub_parse).

Lemma source_total n :
  (has_function tokens -> forall s, ok tokens s -> runs tokens s parse_block s (fun _ s' => after tokens s s')) ->
  (forall t text, t ∈ tokens -> tl_token t = TkInterpolatedExpr text -> sub_parse text <> Panic) ->
  1 < length tokens -> tl_token <$> tokens !! (length tokens - 2) <> Some TkLBrace ->
  entries_total tokens n (unrolled n).
Proof.
  intros Hblock Hsub Hl Ho. apply unroll_total; [by apply source_well_ended| |done|apply source_names| |done].
  - intros Hf m s Hs _. eapply runs_mono; [by apply Hblock|]. by split.
  - apply cf_lex_ascii.
Qed.

(** ** An open brace at the end *)

Definition panics {A} (m : ST pstate cf_parse_error A) (s : pstate) : Prop := (m s).2 = Panic.

Lemma panics_bind {A C} (m : ST pstate cf_parse_error A) (k : A -> ST pstate cf_parse_error C) s :
  panics m s -> panics (st_bind m k) s.
Proof. unfold panics, st_bind. destruct (m s) as [s' []]; done. Qed.

Lemma panics_after {A C} (m : ST pstate cf_parse_error A) a (k : A -> ST pstate cf_parse_error C) s s' :
  m s = (s', Ok a) -> panics (k a) s' -> panics (st_bind m k) s.
Proof. unfold panics, st_bind. by intros ->. Qed.

(** The cursor is at the last brace, or behind it. *)
Definition at_brace (s : pstate) : Prop :=
  (fun t => tl_token t) <$> tokens !! (length tokens - 2) = Some TkLBrace
  /\ (pa_current s = length tokens - 2 \/ pa_current s = length tokens - 1).

Definition behind (s : pstate) : pstate := set_current (length tokens - 1) s.

Context (Hl : 1 < length tokens).

Lemma brace_peek s : at_brace s -> peek tokens s 0 = TkLBrace \/ peek tokens s 0 = TkEof.
Proof.
  intros [(t & Ht & Hb)%fmap_Some [Hs|Hs]]; unfold peek; rewrite Nat.add_0_r, Hs.
  - left. by rewrite Ht.
  - right. pose proof (we_end _ (source_well_ended src Hl)) as He. rewrite last_lookup in He.
    replace (pred (length tokens)) with (length tokens - 1) in He by lia.
    destruct (tokens !! (length tokens - 1)) as [u|]; [|done]. cbn in He. congruence.
Qed.

Lemma brace_no_match s t : at_brace s -> t <> TkLBrace -> check tokens t s = false.
Proof.
  intros Hs Ht. unfold check, is_at_end. destruct (brace_peek s Hs) as [E|E]; rewrite E.
  - rewrite (bool_decide_false (TkLBrace = t)) by congruence. by rewrite andb_false_r.
  - by rewrite bool_decide_true.
Qed.

Lemma brace_match_op {A} s (ops : list (cf_token * A)) :
  at_brace s -> Forall (fun o => o.1 <> TkLBrace) ops -> match_op tokens ops s = (s, Ok None).
Proof.
  intros Hs. induction 1 as [|[t a] ops Ht _ IH]; [done|]. cbn [match_op]. unfold st_bind, match_token.
  by rewrite brace_no_match.
Qed.

Lemma brace_advance s : at_brace s -> tok_advance tokens s = (behind s, Ok TkLBrace).
Proof.
  intros Hs. pose proof Hs as [(t & Ht & Hb)%fmap_Some Hc]. unfold tok_advance, skip_token.
  assert (Hok : forall d, ok tokens (PState (pa_current s) 0 d)) by (intros; unfold ok, MAX_EXPR_DEPTH; cbn [pa_current pa_expr_depth]; lia).
  assert (He : is_at_end tokens s = true <-> S (pa_current s) = length tokens).
  { exact (at_end_iff tokens (source_well_ended src Hl) (PState (pa_current s) 0 0) (Hok 0)). }
  assert (Hp : previous tokens (behind s) = Ok TkLBrace).
  { unfold previous, behind. cbn [set_current pa_current]. replace (length tokens - 1) with (S (length tokens - 2)) by lia.
    by rewrite Ht, Hb. }
  assert (Hb' : (if is_at_end tokens s then s else set_current (S (pa_current s)) s) = behind s).
  { unfold behind. destruct (is_at_end tokens s).
    - destruct He as [He _]. specialize (He eq_refl). replace (length tokens - 1) with (pa_current s) by lia. by destruct s.
    - destruct He as [_ He]. destruct (decide (S (pa_current s) = length tokens)) as [E|]; [by discriminate (He E)|].
      f_equal. lia. }
  cbv zeta. by rewrite Hb', Hp.
Qed.

Lemma brace_behind s : at_brace s -> at_brace (behind s).
Proof. intros [H _]. split; [done|]. by right. Qed.

Section Brace.
Context (r : entries (B := B)) (Hr : forall s, at_brace s -> panics (r_ternary r) s).
Local Notation raws := (source_spellings src).

Lemma struct_panics s : at_brace s -> panics (parse_struct_literal tokens raws r) (behind s).
Proof.
  intros Hs. pose proof (brace_behind s Hs) as Hb. unfold parse_struct_literal. apply panics_bind.
  cbn [struct_pairs]. eapply panics_after; [reflexivity|]. rewrite brace_no_match by done. cbv beta match.
  eapply panics_after; [unfold match_token; by rewrite brace_no_match|]. cbv beta match. apply panics_bind, panics_bind.
  unfold struct_key. eapply panics_after; [reflexivity|]. cbv beta.
  replace (is_property_name (peek tokens (behind s) 0)) with false
    by by destruct (brace_peek _ Hb) as [-> | ->].
  rewrite andb_false_r. by apply Hr.
Qed.

Lemma brace_unary s : at_brace s -> panics (cf_parse_unary tokens raws parse_block sub_parse r) s.
Proof.
  intros Hs. unfold cf_parse_unary. do 2 (eapply panics_after; [unfold match_token; by rewrite brace_no_match|]; cbv beta match).
  eapply panics_after; [apply brace_match_op; [done|by repeat constructor]|]. cbv beta match.
  unfold parse_postfix, cf_parse_call, cf_parse_primary. do 2 apply panics_bind.
  eapply panics_after; [by apply brace_advance|]. by apply struct_panics.
Qed.

Lemma brace_ternary s : at_brace s -> panics (parse_ternary tokens raws parse_block sub_parse r) s.
Proof.
  intros Hs. unfold parse_ternary, parse_imp, parse_eqv, parse_xor, cf_parse_or, cf_parse_and, op_level.
  do 6 apply panics_bind. unfold cf_parse_not. eapply panics_after; [apply brace_match_op; [done|by repeat constructor]|].
  cbv beta match. unfold parse_equality, cf_parse_comparison, op_level. do 2 apply panics_bind. unfold parse_contains.
  apply panics_bind. unfold parse_concatenation, cf_parse_term, parse_factor, parse_power, op_level. do 4 apply panics_bind.
  by apply brace_unary.
Qed.
End Brace.

Lemma unroll_brace n s : at_brace s -> panics (r_ternary (unrolled n)) s.
Proof. revert s. induction n as [|n IH]; intros s Hs; [done|]. cbn [unroll layer r_ternary]. by apply brace_ternary. Qed.
End Source.

(** ** Theorems *)


(** C40. Nothing bounds the recursion on a source that stops right behind an open
    brace: at that brace the parser exhausts any room it is given. *)
Theorem open_brace_overflows {U : Unicode} {B} (src : str) (parse_block : ST pstate cf_parse_error B)
    (sub_parse : str -> outcome cf_parse_error (option (cf_expr B))) (s : pstate) :
  let tokens := source_tokens src in
  1 < length tokens -> tl_token <$> tokens !! (length tokens - 2) = Some TkLBrace ->
  pa_current s = length tokens - 2 -> pa_expr_depth s < MAX_EXPR_DEPTH ->
  forall n, (r_expression (unroll tokens (source_spellings src) parse_block sub_parse n) s).2 = Panic.
Proof.
  intros tokens Hl Hb Hc Hd [|n]; [done|].
  change (panics (with_depth tokens (parse_assignment_expr tokens (source_spellings src) parse_block sub_parse
    (unroll tokens (source_spellings src) parse_block sub_parse n))) s).
  unfold panics, with_depth. destruct (Nat.ltb_spec MAX_EXPR_DEPTH (S (pa_expr_depth s))); [lia|].
  set (s1 := set_depth (S (pa_expr_depth s)) s).
  assert (Hp : panics (parse_assignment_expr tokens (source_spellings src) parse_block sub_parse
                 (unroll tokens (source_spellings src) parse_block sub_parse n)) s1).
  { unfold parse_assignment_expr. apply panics_bind, brace_ternary; [done| |by split; [|left]].
    exact (unroll_brace src parse_block sub_parse Hl n). }
  unfold panics in Hp. destruct (parse_assignment_expr _ _ _ _ _ s1) as [s2 []]; done.
Qed.
