(* ===== verification/CfmlWritten.v ===== *)
(** * CfmlWritten: expressions as they are written

    A reference grammar for the expressions of CFML: trees with the precedence of
    each node, their tokens with parentheses exactly where precedence asks for
    them, and the syntax tree they stand for.  Locations are left open. *)

From Stdlib Require Import Strings.Ascii.
From stdpp Require Import base list numbers strings.
From S2P Require Import Prelude Text Float64 Value QoqLexer CfmlLexer CfmlNames CfmlNamesFacts CfmlAst CfmlParser.
Local Open Scope nat_scope.
Local Open Scope st_scope.

(** [a.b], [a?.b] and [a::b] *)
Inductive access := AccessDot | AccessSafe | AccessStatic.

(** The symbols, or the words for them. *)
Inductive spelling := Symbol | Word.

Inductive wexpr :=
  | WLit (v : literal_value)
  | WVar (name : str)
  | WThis
  | WSuper
  | WArray (es : list wexpr)
  | WStruct (ps : list ((bool * str) * wexpr))
  | WNew (class : str) (path : list str) (args : list wexpr)
  | WIndex (o i : wexpr)
  | WInvoke (o : wexpr) (args : list wexpr)
  | WMember (o : wexpr) (k : access) (name : str)
  | WMethod (o : wexpr) (k : access) (name : str) (args : list wexpr)
  | WPostfix (e : wexpr) (op : cf_postfix_op)
  | WPrefix (op : cf_postfix_op) (e : wexpr)
  | WMinus (e : wexpr)
  | WNot (sp : spelling) (e : wexpr)
  | WBinary (l : wexpr) (op : cf_binary_op) (sp : spelling) (r : wexpr)
  | WTernary (c t e : wexpr)
  | WElvis (l : wexpr) (sp : spelling) (r : wexpr).

(** The level of an operator; [OAssign] is not one of them. *)
Definition binary_level (o : cf_binary_op) : nat :=
  match o with
  | OImp => 1 | OEqv => 2 | OXor => 3 | OOr => 4 | OAnd => 5
  | OEqual | ONotEqual | OStrictEqual | OStrictNotEqual => 7
  | OGreater | OGreaterEqual | OLess | OLessEqual => 8
  | OContains | ODoesNotContain => 9
  | OConcat => 10 | OAdd | OSub => 11 | OMul | ODiv | OMod | OIntDiv => 12 | OPow => 13
  | OAssign => 0
  end.

(** All chains associate to the left; [contains] does not chain. *)
Definition left_level (o : cf_binary_op) : nat :=
  if binary_level o =? 9 then 10 else binary_level o.

Definition wlevel (w : wexpr) : nat :=
  match w with
  | WLit _ | WVar _ | WThis | WSuper | WArray _ | WStruct _ | WNew _ _ _ => 17
  | WIndex _ _ | WInvoke _ _ | WMember _ _ _ | WMethod _ _ _ _ => 16
  | WPostfix _ _ => 15
  | WPrefix _ _ | WMinus _ => 14
  | WNot _ _ => 6
  | WBinary _ o _ _ => binary_level o
  | WTernary _ _ _ | WElvis _ _ _ => 0
  end.

(** [o.f(x)] is a method call: to call what [o.f] holds takes parentheses. *)
Definition is_member (w : wexpr) : bool := match w with WMember _ _ _ => true | _ => false end.
Definition callee_level (w : wexpr) : nat := if is_member w then 17 else 16.

Definition binary_tokens (o : cf_binary_op) (sp : spelling) : list cf_token :=
  match o, sp with
  | OImp, _ => [TkImpKeyword] | OEqv, _ => [TkEqvKeyword] | OXor, _ => [TkXorKeyword]
  | OOr, Symbol => [TkBarBar] | OOr, Word => [TkOrKeyword]
  | OAnd, Symbol => [TkAmpAmp] | OAnd, Word => [TkAndKeyword]
  | OEqual, Symbol => [TkEqualEqual] | OEqual, Word => [TkEqKeyword]
  | ONotEqual, Symbol => [TkBangEqual] | ONotEqual, Word => [TkIsKeyword; TkNotKeyword]
  | OStrictEqual, _ => [TkEqualEqualEqual] | OStrictNotEqual, _ => [TkBangEqualEqual]
  | OGreater, Symbol => [TkGreater] | OGreater, Word => [TkGtKeyword]
  | OGreaterEqual, Symbol => [TkGreaterEqual] | OGreaterEqual, Word => [TkGteKeyword]
  | OLess, Symbol => [TkLess] | OLess, Word => [TkLtKeyword]
  | OLessEqual, Symbol => [TkLessEqual] | OLessEqual, Word => [TkLteKeyword]
  | OContains, _ => [TkContains] | ODoesNotContain, _ => [TkNotKeyword; TkContains]
  | OConcat, _ => [TkAmp] | OAdd, _ => [TkPlus] | OSub, _ => [TkMinus]
  | OMul, _ => [TkStar] | ODiv, _ => [TkSlash] | OMod, Symbol => [TkPercent] | OMod, Word => [TkModKeyword]
  | OIntDiv, _ => [TkBackslash] | OPow, _ => [TkCaret]
  | OAssign, _ => []
  end.
Definition not_token (sp : spelling) : cf_token := match sp with Symbol => TkBang | Word => TkNotKeyword end.
Definition elvis_token (sp : spelling) : cf_token := match sp with Symbol => TkQuestionColon | Word => TkQuestionQuestion end.

Definition literal_token (v : literal_value) : cf_token :=
  match v with
  | LNull => TkNull | LBool true => TkTrue | LBool false => TkFalse
  | LInt i => TkInteger i | LDouble d => TkDouble d | LString s => TkString s
  end.

Definition access_token (k : access) : cf_token :=
  match k with AccessDot => TkDot | AccessSafe => TkQuestionDot | AccessStatic => TkColonColon end.
Definition step_token (o : cf_postfix_op) : cf_token :=
  match o with PIncrement => TkPlusPlus | PDecrement => TkMinusMinus end.
Definition key_token (k : bool * str) : cf_token := if k.1 then TkString k.2 else TkIdentifier k.2.

Definition parens (b : bool) (l : list cf_token) : list cf_token := if b then TkLParen :: l ++ [TkRParen] else l.

Fixpoint commas (ls : list (list cf_token)) : list cf_token :=
  match ls with
  | [] => []
  | [l] => l
  | l :: ls => l ++ TkComma :: commas ls
  end.

Definition segments (path : list str) : list cf_token := concat (map (fun p => [TkDot; TkIdentifier p]) path).

(** The tokens of an expression, and of one where level [k] is asked for. *)
Fixpoint wtokens (w : wexpr) : list cf_token :=
  match w with
  | WLit v => [literal_token v]
  | WVar name => [TkIdentifier name]
  | WThis => [TkThis]
  | WSuper => [TkSuper]
  | WArray es => TkLBracket :: commas (map wtokens es) ++ [TkRBracket]
  | WStruct ps => TkLBrace :: commas (map (fun p => key_token p.1 :: TkColon :: wtokens p.2) ps) ++ [TkRBrace]
  | WNew class path args =>
      TkNew :: TkIdentifier class :: segments path ++ TkLParen :: commas (map wtokens args) ++ [TkRParen]
  | WIndex o i => parens (wlevel o <? 16) (wtokens o) ++ TkLBracket :: wtokens i ++ [TkRBracket]
  | WInvoke o args => parens (wlevel o <? callee_level o) (wtokens o) ++ TkLParen :: commas (map wtokens args) ++ [TkRParen]
  | WMember o k name => parens (wlevel o <? 16) (wtokens o) ++ [access_token k; TkIdentifier name]
  | WMethod o k name args =>
      parens (wlevel o <? 16) (wtokens o)
      ++ access_token k :: TkIdentifier name :: TkLParen :: commas (map wtokens args) ++ [TkRParen]
  | WPostfix e op => parens (wlevel e <? 16) (wtokens e) ++ [step_token op]
  | WPrefix op e => step_token op :: parens (wlevel e <? 16) (wtokens e)
  | WMinus e => TkMinus :: parens (wlevel e <? 14) (wtokens e)
  | WNot sp e => not_token sp :: parens (wlevel e <? 6) (wtokens e)
  | WBinary l o sp r =>
      parens (wlevel l <? left_level o) (wtokens l) ++ binary_tokens o sp
      ++ parens (wlevel r <? S (binary_level o)) (wtokens r)
  | WTernary c t e => parens (wlevel c <? 1) (wtokens c) ++ TkQuestion :: wtokens t ++ TkColon :: wtokens e
  | WElvis l sp r => parens (wlevel l <? 1) (wtokens l) ++ elvis_token sp :: wtokens r
  end.

Definition wtokens_at (k : nat) (w : wexpr) : list cf_token := parens (wlevel w <? k) (wtokens w).

(** How deep the parser nests on it. *)
Definition maxes (l : list nat) : nat := fold_right Nat.max 0 l.

Fixpoint nesting (w : wexpr) : nat :=
  match w with
  | WLit _ | WVar _ | WThis | WSuper => 0
  | WArray es => S (maxes (map nesting es))
  | WStruct ps => S (maxes (map (fun p => nesting p.2) ps))
  | WNew _ _ args => S (maxes (map nesting args))
  | WIndex o i => Nat.max ((if wlevel o <? 16 then 1 else 0) + nesting o) (S (nesting i))
  | WInvoke o args =>
      Nat.max ((if wlevel o <? callee_level o then 1 else 0) + nesting o) (S (maxes (map nesting args)))
  | WMethod o _ _ args =>
      Nat.max ((if wlevel o <? 16 then 1 else 0) + nesting o) (S (maxes (map nesting args)))
  | WMember o _ _ | WPostfix o _ | WPrefix _ o => (if wlevel o <? 16 then 1 else 0) + nesting o
  | WMinus e => S ((if wlevel e <? 14 then 1 else 0) + nesting e)
  | WNot _ e => S ((if wlevel e <? 6 then 1 else 0) + nesting e)
  | WBinary l o _ r =>
      Nat.max ((if wlevel l <? left_level o then 1 else 0) + nesting l)
              ((if wlevel r <? S (binary_level o) then 1 else 0) + nesting r)
  | WTernary c t e => Nat.max ((if wlevel c <? 1 then 1 else 0) + nesting c) (S (Nat.max (nesting t) (nesting e)))
  | WElvis l _ r => Nat.max ((if wlevel l <? 1 then 1 else 0) + nesting l) (S (nesting r))
  end.

Definition nesting_at (k : nat) (w : wexpr) : nat := (if wlevel w <? k then 1 else 0) + nesting w.

(** Names are ASCII, as the tokenizer makes them, and [=] is not an operator here. *)
Inductive writable : wexpr -> Prop :=
  | writable_lit v : writable (WLit v)
  | writable_var name : str_is_ascii name = true -> writable (WVar name)
  | writable_this : writable WThis
  | writable_super : writable WSuper
  | writable_array es : Forall writable es -> writable (WArray es)
  | writable_struct ps :
      Forall (fun p => str_is_ascii p.1.2 = true /\ writable p.2) ps -> writable (WStruct ps)
  | writable_new c path args : Forall writable args -> writable (WNew c path args)
  | writable_index o i : writable o -> writable i -> writable (WIndex o i)
  | writable_invoke o args : writable o -> Forall writable args -> writable (WInvoke o args)
  | writable_member o k name : writable o -> writable (WMember o k name)
  | writable_method o k name args : writable o -> Forall writable args -> writable (WMethod o k name args)
  | writable_postfix e op : writable e -> writable (WPostfix e op)
  | writable_prefix op e : writable e -> writable (WPrefix op e)
  | writable_minus e : writable e -> writable (WMinus e)
  | writable_not sp e : writable e -> writable (WNot sp e)
  | writable_binary l o sp r : o <> OAssign -> writable l -> writable r -> writable (WBinary l o sp r)
  | writable_ternary c t e : writable c -> writable t -> writable e -> writable (WTernary c t e)
  | writable_elvis l sp r : writable l -> writable r -> writable (WElvis l sp r).

(** The syntax tree, whatever its locations. *)
Section Denotes.
Context {B : Type}.

Definition key_denotes (k : bool * str) (e : cf_expr B) : Prop :=
  exists loc, e = if k.1 then XLiteral (LString k.2) loc else XIdentifier k.2 loc.

Inductive denotes : wexpr -> cf_expr B -> Prop :=
  | denotes_lit v loc : denotes (WLit v) (XLiteral v loc)
  | denotes_var name loc : denotes (WVar name) (XIdentifier name loc)
  | denotes_this loc : denotes WThis (XThis loc)
  | denotes_super loc : denotes WSuper (XSuper loc)
  | denotes_array ws es loc : Forall2 denotes ws es -> denotes (WArray ws) (XArray es loc)
  | denotes_struct ps qs loc :
      Forall2 (fun p q => key_denotes p.1 q.1 /\ denotes p.2 q.2) ps qs -> denotes (WStruct ps) (XStruct qs false loc)
  | denotes_new c path ws es l1 loc :
      Forall2 denotes ws es -> denotes (WNew c path ws) (XNew (XIdentifier (join (lit ".") (c :: path)) l1) es loc)
  | denotes_index o i x y loc : denotes o x -> denotes i y -> denotes (WIndex o i) (XArrayAccess x y loc)
  | denotes_invoke o ws x es loc : denotes o x -> Forall2 denotes ws es -> denotes (WInvoke o ws) (XFunctionCall x es loc)
  | denotes_member o name x loc : denotes o x -> denotes (WMember o AccessDot name) (XMemberAccess x name false loc)
  | denotes_safe o name x loc : denotes o x -> denotes (WMember o AccessSafe name) (XMemberAccess x name true loc)
  | denotes_static o name x loc : denotes o x -> denotes (WMember o AccessStatic name) (XStaticMember x name loc)
  | denotes_method o name ws x es loc : denotes o x -> Forall2 denotes ws es ->
      denotes (WMethod o AccessDot name ws) (XMethodCall x name es false loc)
  | denotes_safe_method o name ws x es loc : denotes o x -> Forall2 denotes ws es ->
      denotes (WMethod o AccessSafe name ws) (XMethodCall x name es true loc)
  | denotes_static_call o name ws x es loc : denotes o x -> Forall2 denotes ws es ->
      denotes (WMethod o AccessStatic name ws) (XStaticCall x name es loc)
  | denotes_postfix w op x loc : denotes w x -> denotes (WPostfix w op) (XPostfixOp x op loc)
  | denotes_increment w x loc : denotes w x -> denotes (WPrefix PIncrement w) (XUnaryOp UPrefixIncrement x loc)
  | denotes_decrement w x loc : denotes w x -> denotes (WPrefix PDecrement w) (XUnaryOp UPrefixDecrement x loc)
  | denotes_minus w x loc : denotes w x -> denotes (WMinus w) (XUnaryOp UMinus x loc)
  | denotes_not sp w x loc : denotes w x -> denotes (WNot sp w) (XUnaryOp UNot x loc)
  | denotes_binary l o sp r x y loc : denotes l x -> denotes r y -> denotes (WBinary l o sp r) (XBinaryOp x o y loc)
  | denotes_ternary c t e x y z loc : denotes c x -> denotes t y -> denotes e z ->
      denotes (WTernary c t e) (XTernary x y z loc)
  | denotes_elvis l sp r x y loc : denotes l x -> denotes r y -> denotes (WElvis l sp r) (XElvis x y loc).
End Denotes.

(** What a token that follows an expression continues: no expression (0), or one
    whose level is below the number; words and others are kept out. *)
Definition follow (t : cf_token) : nat :=
  match t with
  | TkRParen | TkRBracket | TkRBrace | TkComma | TkColon | TkSemicolon | TkHashSign | TkEof => 0
  | TkQuestion | TkQuestionColon | TkQuestionQuestion => 1
  | TkImpKeyword => 2 | TkEqvKeyword => 3 | TkXorKeyword => 4 | TkBarBar | TkOrKeyword => 5
  | TkAmpAmp | TkAndKeyword => 6
  | TkEqualEqualEqual | TkBangEqualEqual | TkEqualEqual | TkEqKeyword | TkIsKeyword | TkBangEqual | TkNeqKeyword => 8
  | TkGreater | TkGtKeyword | TkGreaterEqual | TkGteKeyword | TkLess | TkLtKeyword | TkLessEqual | TkLteKeyword => 9
  | TkContains | TkNotKeyword => 10
  | TkAmp => 11 | TkPlus | TkMinus => 12
  | TkStar | TkSlash | TkPercent | TkModKeyword | TkBackslash => 13
  | TkCaret => 14
  | TkPlusPlus | TkMinusMinus => 16
  | TkDot | TkLParen | TkLBracket | TkColonColon | TkQuestionDot => 17
  | _ => 100
  end.

Definition stops (k : nat) (l : list cf_token) : Prop := exists t r, l = t :: r /\ follow t <= k.

(** The first token of an expression, and the highest level it can stand at. *)
Definition starts (t : cf_token) : option nat :=
  match t with
  | TkNotKeyword | TkBang => Some 6
  | TkMinus | TkPlusPlus | TkMinusMinus => Some 14
  | TkNull | TkTrue | TkFalse | TkInteger _ | TkDouble _ | TkString _ | TkIdentifier _ | TkThis | TkSuper
  | TkLBracket | TkLBrace | TkNew | TkLParen => Some 17
  | _ => None
  end.

(** ** The tokens of an expression *)

(** The first token. *)
Definition begins (k : nat) (l : list cf_token) : Prop :=
  exists t r j, l = t :: r /\ starts t = Some j /\ k <= j.

Lemma begins_app k l m : begins k l -> begins k (l ++ m).
Proof. intros (t & r & j & -> & H). by exists t, (r ++ m), j. Qed.
Lemma begins_le k k' l : begins k l -> k' <= k -> begins k' l.
Proof. intros (t & r & j & H1 & H2 & H3) Hk. exists t, r, j. split_and!; [done..|lia]. Qed.
Lemma begins_parens k (w : wexpr) l : k <= 17 -> begins (wlevel w) l -> begins k (parens (wlevel w <? k) l).
Proof.
  intros Hk H. destruct (Nat.ltb_spec (wlevel w) k); [|by eapply begins_le].
  by exists TkLParen, (l ++ [TkRParen]), 17.
Qed.

Lemma wlevel_le w : wlevel w <= 17.
Proof. destruct w as [| | | | | | | | | | | | | | |? [] ? ?| |]; cbn; lia. Qed.
Lemma left_level_ge o : binary_level o <= left_level o <= 17.
Proof. destruct o; cbn; lia. Qed.

Lemma callee_level_bounds w : 16 <= callee_level w <= 17.
Proof. unfold callee_level. destruct (is_member w); lia. Qed.

Lemma wtokens_begin w : begins (wlevel w) (wtokens w).
Proof.
  induction w as [[|[]| | |]| | | |es IH|ps IH|c path args IH|o IHo i IHi|o IHo args IH|o IHo k ?|o IHo k ? args IH
                 |e IHe op|[] e IHe|e IHe|[] e IHe|l IHl o sp r IHr|c IHc t IHt e IHe|l IHl sp r IHr];
    cbn [wlevel wtokens literal_token step_token not_token elvis_token];
    try (eexists _, _, _; split_and!; [reflexivity|reflexivity|lia]; fail);
    apply begins_app; try (by apply begins_parens; [lia|]).
  - eapply begins_le; [apply begins_parens; [|exact IHo]|]; apply callee_level_bounds.
  - eapply begins_le; [apply begins_parens; [|exact IHe]|]; lia.
  - eapply begins_le; [apply begins_parens; [|exact IHl]|]; apply left_level_ge.
  - eapply begins_le; [apply begins_parens; [|exact IHc]|]; lia.
  - eapply begins_le; [apply begins_parens; [|exact IHl]|]; lia.
Qed.

Lemma wtokens_at_begin k w : k <= 17 -> begins k (wtokens_at k w).
Proof. intros. apply begins_parens; [done|apply wtokens_begin]. Qed.

(** No end marker inside. *)
Definition inner (l : list cf_token) : Prop := Forall (fun t => t <> TkEof) l.

Lemma inner_parens b l : inner l -> inner (parens b l).
Proof. intros. destruct b; [|done]. constructor; [done|]. apply Forall_app. split; [done|by apply Forall_singleton]. Qed.
Lemma inner_commas ls : Forall inner ls -> inner (commas ls).
Proof.
  induction 1 as [|l ls Hl Hls IH]; [constructor|]. destruct ls; [done|]. apply Forall_app. split; [done|].
  by constructor.
Qed.
Lemma inner_map {A} (f : A -> list cf_token) (l : list A) : Forall (fun x => inner (f x)) l -> inner (commas (map f l)).
Proof. intros H. apply inner_commas. by apply Forall_map. Qed.
Lemma inner_segments path : inner (segments path).
Proof. unfold inner, segments. induction path; [constructor|]. by repeat (apply Forall_cons; split; [done|]). Qed.
Lemma inner_binary o sp : inner (binary_tokens o sp).
Proof. destruct o, sp; repeat (apply Forall_cons; split; [done|]); constructor. Qed.

(** The induction hypothesis on the values of a struct, as [Forall]. *)
Ltac pairs_forall P ps IH :=
  let H := fresh in
  assert (H : Forall (fun p => P p.2) ps) by (clear -IH; induction IH as [|? Hp ? _ IH']; constructor; [by destruct Hp|done]);
  clear IH; rename H into IH.

Lemma wtokens_inner w : inner (wtokens w).
Proof.
  induction w as [[|[]| | |]| | | |es IH|ps IH|c path args IH|o IHo i IHi|o IHo args IH|o IHo k ?|o IHo k ? args IH
                 |e IHe op|op e IHe|e IHe|[] e IHe|l IHl o sp r IHr|c IHc t IHt e IHe|l IHl [] r IHr];
    try destruct k; try destruct op; cbn [wtokens literal_token step_token access_token not_token elvis_token];
    try first [apply list_all_Forall in IH | pairs_forall (fun w => inner (wtokens w)) ps IH];
    repeat first [apply Forall_app; split | apply Forall_cons; split | by constructor | done | by apply inner_map
                 | by apply inner_parens | apply inner_segments | apply inner_binary].
  apply inner_map. eapply Forall_impl; [exact IH|]. intros [[[] key] v] Hv; by do 2 (apply Forall_cons; split; [done|]).
Qed.

(** The second token is no [=] or [:], nor is the third behind a parenthesis. *)
Definition second_calm (l : list cf_token) : Prop :=
  forall x m, is_equal_or_colon x = false -> is_equal_or_colon (nth 1 (l ++ x :: m) TkEof) = false.
Definition calm (l : list cf_token) : Prop :=
  second_calm l /\ forall r, l = TkLParen :: r -> second_calm r.

Lemma calm_app l t m : l <> [] -> is_equal_or_colon t = false -> calm l -> calm (l ++ t :: m).
Proof.
  intros Hl Ht [H1 H2]. split.
  - intros x m' _. rewrite <-app_assoc. by apply H1.
  - intros r Hr. destruct l as [|a l]; [done|]. cbn in Hr. injection Hr as -> <-.
    intros x m' _. rewrite <-app_assoc. by apply (H2 l).
Qed.

Lemma begins_calm l : begins 0 l -> is_equal_or_colon (hd TkEof l) = false.
Proof. intros (t & r & j & -> & H & _). by destruct t. Qed.

Lemma calm_parens b l : begins 0 l -> calm l -> calm (parens b l).
Proof.
  intros Hb Hl. destruct b; [|done]. cbn. split.
  - intros x m _. destruct Hb as (t & r & j & -> & H & _). cbn. by destruct t.
  - intros r [= <-]. intros x m Hx. rewrite <-app_assoc. by apply (proj1 Hl TkRParen).
Qed.

Lemma calm_cons t u m : starts t <> None -> t <> TkLParen -> is_equal_or_colon u = false -> calm (t :: u :: m).
Proof. intros _ Ht Hu. split; [by intros ???|]. intros r [= -> _]. done. Qed.
Lemma calm_one t : t <> TkLParen -> calm [t].
Proof. intros Ht. split; [by intros x m Hx|]. by intros r [= -> _]. Qed.
Lemma calm_start t l : t <> TkLParen -> begins 0 l -> calm (t :: l).
Proof.
  intros Ht (u & r & j & -> & H & _). split; [|by intros ? [= -> _]]. intros x m _. cbn. by destruct u.
Qed.
Lemma begins_nonempty k l : begins k l -> l <> [].
Proof. by intros (t & r & j & -> & _). Qed.

Lemma begins_commas {A} (f : A -> list cf_token) x l : begins 0 (f x) -> begins 0 (commas (map f (x :: l))).
Proof. intros H. cbn. destruct (map f l); [done|]. by apply begins_app. Qed.

Lemma wtokens_calm w : writable w -> calm (wtokens w).
Proof.
  assert (Hp : forall k w, calm (wtokens w) -> calm (parens (wlevel w <? k) (wtokens w))).
  { intros k v Hv. apply calm_parens; [|done]. eapply begins_le; [apply wtokens_begin|lia]. }
  assert (Hn : forall k w, parens (wlevel w <? k) (wtokens w) <> []).
  { intros k v. destruct (wlevel v <? k); [done|]. apply (begins_nonempty (wlevel v)), wtokens_begin. }
  induction w as [[|[]| | |]| | | |es _|ps _|c path args _|o IHo i IHi|o IHo args _|o IHo k ?|o IHo k ? args _
                 |e IHe op|op e IHe|e IHe|sp e IHe|l IHl o sp r IHr|c IHc t IHt e IHe|l IHl sp r IHr];
    inversion 1; subst; cbn [wtokens literal_token not_token elvis_token]; try (by apply calm_one);
    try (apply calm_app; [done|by try destruct k; try destruct op; try destruct sp|by auto]; fail).
  - destruct es as [|x es]; [by apply calm_cons|]. apply calm_start; [done|].
    apply begins_app, begins_commas. eapply begins_le; [apply wtokens_begin|lia].
  - destruct ps as [|p ps]; [by apply calm_cons|]. apply calm_start; [done|].
    apply begins_app, begins_commas. destruct p as [[[] ?] ?]; (eexists _, _, 17; split_and!; [reflexivity|reflexivity|lia]).
  - by apply calm_cons.
  - apply calm_start; [by destruct op|]. by eapply begins_le; [apply (wtokens_at_begin 16); lia|lia].
  - apply calm_start; [done|]. by eapply begins_le; [apply (wtokens_at_begin 14); lia|lia].
  - apply calm_start; [by destruct sp|]. by eapply begins_le; [apply (wtokens_at_begin 6); lia|lia].
  - assert (Hb : exists t m, binary_tokens o sp = t :: m /\ is_equal_or_colon t = false) by (destruct o, sp; try done; by eexists _, _).
    destruct Hb as (t & m & -> & Ht). cbn [app]. by apply calm_app; [..|apply Hp, IHl].
Qed.

(** Brackets are balanced: a scan for the closing parenthesis passes over. *)
Fixpoint arrow_in (ts : list cf_token) (depth : Z) : bool :=
  match ts with
  | [] => false
  | t :: ts =>
      match t with
      | TkLParen | TkLBracket | TkLBrace => arrow_in ts (depth + 1)
      | TkRParen | TkRBracket | TkRBrace =>
          if (depth - 1 =? 0)%Z then match ts with u :: _ => bool_decide (u = TkFatArrow) | [] => false end
          else arrow_in ts (depth - 1)
      | _ => arrow_in ts depth
      end
  end.

Lemma arrow_ahead_tokens ts d : arrow_ahead ts d = arrow_in (map tl_token ts) d.
Proof.
  revert d. induction ts as [|t ts IH]; intros d; [done|]. cbn. rewrite <-!IH.
  assert (H : match map tl_token ts with u :: _ => bool_decide (u = TkFatArrow) | [] => false end
              = match ts with u :: _ => bool_decide (tl_token u = TkFatArrow) | [] => false end) by by destruct ts.
  rewrite H. by destruct (tl_token t).
Qed.

Definition balanced (l : list cf_token) : Prop := forall m d, (1 <= d)%Z -> arrow_in (l ++ m) d = arrow_in m d.

Definition flat_token (t : cf_token) : bool :=
  match t with TkLParen | TkLBracket | TkLBrace | TkRParen | TkRBracket | TkRBrace => false | _ => true end.
Definition closes_with (t u : cf_token) : bool :=
  match t, u with TkLParen, TkRParen | TkLBracket, TkRBracket | TkLBrace, TkRBrace => true | _, _ => false end.

Lemma balanced_nil : balanced [].
Proof. done. Qed.
Lemma balanced_app l m : balanced l -> balanced m -> balanced (l ++ m).
Proof. intros Hl Hm m' d Hd. by rewrite <-app_assoc, Hl, Hm. Qed.
Lemma balanced_cons t l : flat_token t = true -> balanced l -> balanced (t :: l).
Proof. intros Ht Hl m d Hd. cbn. rewrite <-(Hl m d Hd). by destruct t. Qed.
Lemma balanced_group t u l : closes_with t u = true -> balanced l -> balanced (t :: l ++ [u]).
Proof.
  intros Ht Hl m d Hd. rewrite <-app_comm_cons, <-app_assoc.
  assert (H : arrow_in (t :: l ++ [u] ++ m) d = arrow_in ([u] ++ m) (d + 1)).
  { rewrite <-(Hl ([u] ++ m) (d + 1)%Z) by lia. by destruct t; try discriminate Ht. }
  rewrite H. replace d with (d + 1 - 1)%Z at 2 by lia. cbn. destruct (Z.eqb_spec (d + 1 - 1) 0); [lia|].
  destruct t; try discriminate Ht; destruct u; first [discriminate Ht|reflexivity].
Qed.
Lemma balanced_parens b l : balanced l -> balanced (parens b l).
Proof. intros. destruct b; [by apply balanced_group|done]. Qed.
Lemma balanced_commas {A} (f : A -> list cf_token) l : Forall (fun x => balanced (f x)) l -> balanced (commas (map f l)).
Proof.
  induction 1 as [|x l Hx Hl IH]; [done|]. cbn [map commas]. destruct (map f l); [done|].
  apply balanced_app; [done|]. by apply balanced_cons.
Qed.
Lemma balanced_segments path : balanced (segments path).
Proof. unfold segments. induction path; [done|]. by do 2 (apply balanced_cons; [done|]). Qed.
Lemma balanced_binary o sp : balanced (binary_tokens o sp).
Proof. destruct o, sp; repeat (apply balanced_cons; [done|]); done. Qed.
#[local] Hint Resolve balanced_nil balanced_app balanced_parens balanced_commas balanced_segments balanced_binary : core.

Lemma wtokens_balanced w : balanced (wtokens w).
Proof.
  induction w as [[|[]| | |]| | | |es IH|ps IH|c path args IH|o IHo i IHi|o IHo args IH|o IHo k ?|o IHo k ? args IH
                 |e IHe op|op e IHe|e IHe|[] e IHe|l IHl o sp r IHr|c IHc t IHt e IHe|l IHl [] r IHr];
    try destruct k; try destruct op;
    try first [apply list_all_Forall in IH | pairs_forall (fun w => balanced (wtokens w)) ps IH];
    cbn [wtokens literal_token step_token access_token not_token elvis_token];
    repeat first [done | by auto | apply balanced_app | apply balanced_cons; [done|] | apply balanced_group; [done|]].
  apply balanced_commas. eapply Forall_impl; [exact IH|].
  intros [[[] key] v] Hv; by do 2 (apply balanced_cons; [done|]).
Qed.
