(* ===== verification/CfmlReading.v ===== *)
(** * CfmlReading: what a parser does on the tokens ahead of it

    [gives m P l rest d]: on the tokens [l] before [rest] the parser [m] reads
    [l] and gives a value with [P].  Its rules, the operators of each level and
    the chains of operands. *)

From Stdlib Require Import Strings.Ascii.
From stdpp Require Import base list numbers strings.
From S2P Require Import Prelude Text Float64 Value QoqLexer CfmlLexer CfmlNames CfmlNamesFacts CfmlAst CfmlParser.
From S2P Require Import CfmlParserTotal CfmlWritten.
Local Open Scope nat_scope.
Local Open Scope st_scope.

Section Reading.
Context {U : Unicode} {B : Type} {tokens : list token_with_loc} (raws : list (N * str)).

Abbreviation parsing := (ST pstate cf_parse_error).
Abbreviation expr := (cf_expr B).

(** The tokens from the cursor on. *)
Definition ahead (s : pstate) (l : list cf_token) : Prop := map tl_token (drop (pa_current s) tokens) = l.
Definition moved (n : nat) (s : pstate) : pstate := set_current (pa_current s + n) s.

(** On the tokens [l] before [rest], with [d] more levels of nesting, the parser
    reads [l] and gives a value with [P]. *)
Definition gives {A} (m : parsing A) (P : A -> Prop) (l rest : list cf_token) (d : nat) : Prop :=
  forall s, ahead s (l ++ rest) -> pa_expr_depth s + d <= MAX_EXPR_DEPTH ->
  exists a, m s = (moved (length l) s, Ok a) /\ P a.

Lemma moved_0 s : moved 0 s = s.
Proof. unfold moved. rewrite Nat.add_0_r. by destruct s. Qed.
Lemma moved_moved m n s : moved n (moved m s) = moved (m + n) s.
Proof. unfold moved, set_current. cbn. by rewrite Nat.add_assoc. Qed.

Lemma ahead_moved s l1 l2 : ahead s (l1 ++ l2) -> ahead (moved (length l1) s) l2.
Proof.
  unfold ahead, moved. cbn [set_current pa_current]. intros H. rewrite <-drop_drop, <-skipn_map, H. apply drop_app_length.
Qed.
Lemma ahead_cons s t l : ahead s (t :: l) -> ahead (moved 1 s) l.
Proof. apply (ahead_moved s [t] l). Qed.

Lemma ahead_peek s l k : ahead s l -> peek tokens s k = nth k l TkEof.
Proof.
  intros <-. unfold peek. rewrite <-lookup_drop. generalize (drop (pa_current s) tokens). intros ts. revert k.
  induction ts as [|t ts IH]; intros [|k]; [done..|]. apply IH.
Qed.

Lemma ahead_check s t l u : ahead s (t :: l) -> u <> TkEof -> check tokens u s = bool_decide (t = u).
Proof.
  intros H Hu. unfold check, is_at_end. rewrite (ahead_peek s _ 0 H). cbn [nth].
  destruct (decide (t = TkEof)) as [->|Ht].
  - rewrite bool_decide_true by done. by rewrite bool_decide_false.
  - by rewrite (bool_decide_false (t = TkEof)).
Qed.

Lemma ahead_advance s t l : ahead s (t :: l) -> t <> TkEof -> tok_advance tokens s = (moved 1 s, Ok t).
Proof.
  intros H Ht. unfold tok_advance, skip_token, is_at_end. rewrite (ahead_peek s _ 0 H). cbn [nth].
  rewrite bool_decide_false by done. unfold moved. rewrite Nat.add_1_r. unfold previous. cbn [set_current pa_current].
  unfold ahead in H. destruct (tokens !! pa_current s) as [u|] eqn:E.
  - rewrite (drop_S _ _ _ E) in H. cbn in H. by injection H as -> _.
  - rewrite drop_ge in H by by apply lookup_ge_None. done.
Qed.

Lemma ahead_match s t l u : ahead s (t :: l) -> u <> TkEof ->
  match_token tokens u s = if bool_decide (t = u) then (moved 1 s, Ok true) else (s, Ok false).
Proof.
  intros H Hu. unfold match_token. rewrite (ahead_check s t l u H Hu). case_bool_decide as E; [subst u|done].
  unfold st_bind. by rewrite (ahead_advance s t l).
Qed.

Lemma ahead_match_op {A} s t l (ops : list (cf_token * A)) : ahead s (t :: l) -> Forall (fun o => o.1 <> TkEof) ops ->
  match_op tokens ops s
  = match find (fun o => bool_decide (t = o.1)) ops with Some o => (moved 1 s, Ok (Some o.2)) | None => (s, Ok None) end.
Proof.
  intros H. induction 1 as [|[u a] ops Hu _ IH]; [done|]. cbn [match_op find]. unfold st_bind.
  rewrite (ahead_match s t l u H Hu). cbn [fst]. case_bool_decide; [done|exact IH].
Qed.

(** ** Rules *)

Lemma gives_weaken {A} (m : parsing A) (P Q : A -> Prop) l rest d d' :
  gives m P l rest d -> d <= d' -> (forall a, P a -> Q a) -> gives m Q l rest d'.
Proof. intros H Hd HQ s Hs Hds. destruct (H s Hs) as (a & E & Ha); [lia|]. eauto. Qed.

Lemma gives_bind {A C} (m : parsing A) (k : A -> parsing C) P Q l1 l2 rest d :
  gives m P l1 (l2 ++ rest) d -> (forall a, P a -> gives (k a) Q l2 rest d) ->
  gives (st_bind m k) Q (l1 ++ l2) rest d.
Proof.
  intros Hm Hk s Hs Hd. rewrite <-app_assoc in Hs. destruct (Hm s Hs Hd) as (a & E & Ha).
  destruct (Hk a Ha (moved (length l1) s) (ahead_moved _ _ _ Hs) Hd) as (c & E' & Hc).
  exists c. split; [|done]. unfold st_bind. by rewrite E, E', moved_moved, length_app.
Qed.

Lemma gives_stay {A C} (m : parsing A) (k : A -> parsing C) P Q l rest d :
  gives m P [] (l ++ rest) d -> (forall a, P a -> gives (k a) Q l rest d) -> gives (st_bind m k) Q l rest d.
Proof. apply (gives_bind m k P Q [] l). Qed.
Lemma gives_then {A C} (m : parsing A) (k : A -> parsing C) P Q t l rest d :
  gives m P [t] (l ++ rest) d -> (forall a, P a -> gives (k a) Q l rest d) -> gives (st_bind m k) Q (t :: l) rest d.
Proof. apply (gives_bind m k P Q [t] l). Qed.

Lemma gives_ret {A} (a : A) (P : A -> Prop) rest d : P a -> gives (st_ret a) P [] rest d.
Proof. intros Ha s _ _. exists a. cbn. by rewrite moved_0. Qed.
Lemma gives_here (f : source_location -> expr) (P : expr -> Prop) rest d :
  (forall loc, P (f loc)) -> gives (at_here tokens f) P [] rest d.
Proof. intros H s _ _. eexists. cbn. rewrite moved_0. split; [reflexivity|apply H]. Qed.
Lemma gives_looking {A} (f : pstate -> A) rest d (P : A -> Prop) :
  (forall s, ahead s rest -> P (f s)) -> gives (looking f) P [] rest d.
Proof. intros H s Hs _. eexists. cbn. rewrite moved_0. split; [reflexivity|by apply H]. Qed.
Lemma gives_location rest d : gives (location tokens) (fun _ => True) [] rest d.
Proof. intros s _ _. eexists. cbn. by rewrite moved_0. Qed.

Lemma gives_match t rest d : t <> TkEof -> gives (match_token tokens t) (fun b => b = true) [t] rest d.
Proof. intros Ht s Hs _. exists true. by rewrite (ahead_match s t rest t), bool_decide_true. Qed.
Lemma gives_no_match t u rest d : u <> TkEof -> t <> u -> gives (match_token tokens u) (fun b => b = false) [] (t :: rest) d.
Proof. intros Hu Ht s Hs _. exists false. cbn. by rewrite (ahead_match s t rest u), bool_decide_false, moved_0. Qed.
Lemma gives_advance t rest d : t <> TkEof -> gives (tok_advance tokens) (fun u => u = t) [t] rest d.
Proof. intros Ht s Hs _. exists t. by rewrite (ahead_advance s t rest). Qed.
Lemma gives_skip t rest d : t <> TkEof -> gives (tok_skip tokens) (fun _ => True) [t] rest d.
Proof. intros Ht s Hs _. exists tt. unfold tok_skip, st_bind. by rewrite (ahead_advance s t rest). Qed.
Lemma gives_consume t rest d : t <> TkEof -> gives (consume tokens t) (fun _ => True) [t] rest d.
Proof.
  intros Ht s Hs _. exists tt. unfold consume, tok_skip, st_bind. rewrite (ahead_check s t rest t) by done.
  by rewrite bool_decide_true, (ahead_advance s t rest).
Qed.
Lemma gives_op {A} t (ops : list (cf_token * A)) a rest d :
  Forall (fun o => o.1 <> TkEof) ops -> snd <$> find (fun o => bool_decide (t = o.1)) ops = Some a ->
  gives (match_op tokens ops) (fun o => o = Some a) [t] rest d.
Proof.
  intros Ho (o & Hf & ->)%fmap_Some s Hs _. exists (Some o.2). by rewrite (ahead_match_op s t rest ops Hs Ho), Hf.
Qed.
Lemma gives_no_op {A} t (ops : list (cf_token * A)) rest d :
  Forall (fun o => o.1 <> TkEof /\ o.1 <> t) ops -> gives (match_op tokens ops) (fun o => o = None) [] (t :: rest) d.
Proof.
  intros Ho s Hs _. exists None. cbn. rewrite (ahead_match_op s t rest ops Hs), moved_0.
  - destruct (find _ ops) as [o|] eqn:Ef; [|done]. apply find_some in Ef as [Hin Ht%bool_decide_eq_true].
    rewrite Forall_forall in Ho. apply list_elem_of_In, Ho in Hin as [_ Hn]. congruence.
  - eapply Forall_impl; [exact Ho|]. by intros o [? _].
Qed.

Lemma gives_deeper {A} (m : parsing A) P l rest d : gives m P l rest d -> gives (with_depth tokens m) P l rest (S d).
Proof.
  intros H s Hs Hd. unfold with_depth. destruct (Nat.ltb_spec MAX_EXPR_DEPTH (S (pa_expr_depth s))); [lia|].
  destruct (H (set_depth (S (pa_expr_depth s)) s) Hs) as (a & -> & Ha); [cbn; lia|]. exists a. split; [|done].
  unfold moved, set_depth, set_current. cbn. by rewrite Nat.sub_0_r.
Qed.

Lemma gives_property name rest d : gives (extract_property_name tokens raws) (fun w => w = name) [TkIdentifier name] rest d.
Proof.
  intros s Hs _. exists name. split; [|done]. unfold extract_property_name, extract_identifier.
  rewrite (ahead_peek s _ 0 Hs). cbn [nth app]. unfold st_bind. by rewrite (ahead_advance s (TkIdentifier name) rest).
Qed.

End Reading.

Lemma follow_differs t u k : follow t <= k -> follow u = S k -> u <> t.
Proof. intros H1 H2 ->. lia. Qed.

(** No operator of the level: the token continues only lower ones. *)
Ltac refuse k :=
  apply gives_no_op; repeat (apply Forall_cons; split; [split; [done|by apply (follow_differs _ _ k)]|]); apply Forall_nil_2.
Ltac not_end := repeat (apply Forall_cons; split; [done|]); apply Forall_nil_2.

(** ** Levels *)

Section Levels.
Context {U : Unicode} {B : Type} {tokens : list token_with_loc} (raws : list (N * str)).
Context (parse_block : ST pstate cf_parse_error B).
Context (sub_parse : str -> outcome cf_parse_error (option (cf_expr B))).
Context (Hshort : (Z.of_nat (length tokens) <= MAX_CHAIN_TERMS)%Z).

Abbreviation parsing := (ST pstate cf_parse_error).
Abbreviation expr := (cf_expr B).
Local Notation gives := (gives (tokens := tokens)).
Local Notation ahead := (ahead (tokens := tokens)).

Definition op_at (k : nat) : parsing (option cf_binary_op) :=
  match k with
  | 1 => imp_op tokens | 2 => eqv_op tokens | 3 => xor_op tokens | 4 => cf_or_op tokens | 5 => cf_and_op tokens
  | 7 => equality_op tokens | 8 => cf_comparison_op tokens | 10 => cf_concat_op tokens | 11 => cf_term_op tokens
  | 12 => factor_op tokens | 13 => power_op tokens
  | _ => st_ret None
  end.

Definition parser_at (r : entries (B := B)) (k : nat) : parsing expr :=
  match k with
  | 0 => parse_ternary tokens raws parse_block sub_parse r
  | 1 => parse_imp tokens raws parse_block sub_parse r
  | 2 => parse_eqv tokens raws parse_block sub_parse r
  | 3 => parse_xor tokens raws parse_block sub_parse r
  | 4 => cf_parse_or tokens raws parse_block sub_parse r
  | 5 => cf_parse_and tokens raws parse_block sub_parse r
  | 6 => cf_parse_not tokens raws parse_block sub_parse r
  | 7 => parse_equality tokens raws parse_block sub_parse r
  | 8 => cf_parse_comparison tokens raws parse_block sub_parse r
  | 9 => parse_contains tokens raws parse_block sub_parse r
  | 10 => parse_concatenation tokens raws parse_block sub_parse r
  | 11 => cf_parse_term tokens raws parse_block sub_parse r
  | 12 => parse_factor tokens raws parse_block sub_parse r
  | 13 => parse_power tokens raws parse_block sub_parse r
  | 14 => cf_parse_unary tokens raws parse_block sub_parse r
  | 15 => parse_postfix tokens raws parse_block sub_parse r
  | 16 => cf_parse_call tokens raws parse_block sub_parse r
  | _ => cf_parse_primary tokens raws parse_block sub_parse r
  end.

Definition chains (k : nat) : bool := bool_decide (k ∈ [1; 2; 3; 4; 5; 7; 8; 10; 11; 12; 13]).

Lemma parser_chain r k : chains k = true -> parser_at r k = op_level tokens (parser_at r (S k)) (op_at k).
Proof.
  intros H%bool_decide_eq_true. repeat (apply elem_of_cons in H as [->|H]; [reflexivity|]). by apply elem_of_nil in H.
Qed.

Lemma no_word s t l w : ahead s (t :: l) -> follow t <= 17 -> peek_word tokens 0 w s = false.
Proof.
  intros Hs Ht. unfold peek_word. rewrite (ahead_peek s _ 0 Hs). cbn [nth]. destruct t; try done. cbn in Ht. lia.
Qed.

Lemma gives_no_word t w rest d : follow t <= 17 -> gives (match_word tokens w) (fun b => b = false) [] (t :: rest) d.
Proof. intros Ht s Hs _. exists false. unfold match_word. by rewrite (no_word s t rest), moved_0. Qed.

Lemma gives_no_than w a b t rest d : follow t <= 17 -> gives (than_op tokens w a b) (fun o => o = None) [] (t :: rest) d.
Proof.
  intros Ht. unfold than_op. eapply gives_stay.
  - apply (gives_looking _ _ _ (fun x => x = false)). intros s Hs. by rewrite (no_word s t rest).
  - intros ? ->. by apply gives_ret.
Qed.

Lemma op_none k t rest d : chains k = true -> follow t <= k -> gives (op_at k) (fun o => o = None) [] (t :: rest) d.
Proof.
  intros H%bool_decide_eq_true Ht.
  repeat (apply elem_of_cons in H as [->|H]); [.. |by apply elem_of_nil in H]; cbn [op_at].
  1-5: match goal with H : follow _ <= ?k |- _ => refuse k end.
  3-6: match goal with H : follow _ <= ?k |- _ => refuse k end.
  - unfold equality_op. eapply gives_stay; [refuse 7|]. intros ? ->. cbv beta match.
    do 2 (eapply gives_stay; [apply gives_no_word; lia|]; intros ? ->; cbv beta match).
    eapply gives_stay; [apply gives_no_match; [done|]; intros ->; cbn in Ht; lia|]. intros ? ->. cbv beta match.
    eapply gives_stay; [refuse 7|]. intros ? ->. cbv beta match. eapply gives_stay.
    + apply (gives_looking _ _ _ (fun x => x = false)). intros s Hs. rewrite (ahead_peek s _ 0 Hs). cbn [nth app].
      rewrite bool_decide_false; [done|]. intros ->. cbn in Ht. lia.
    + intros ? ->. by apply gives_ret.
  - unfold cf_comparison_op. eapply gives_stay; [refuse 8|]. intros ? ->. cbv beta match.
    eapply gives_stay; [apply gives_no_than; lia|]. intros ? ->. cbv beta match. apply gives_no_than. lia.
Qed.

Lemma gives_first_op (ops : list (cf_token * cf_binary_op)) t a m rest d :
  Forall (fun o => o.1 <> TkEof) ops -> snd <$> find (fun o => bool_decide (t = o.1)) ops = Some a ->
  gives (let! x := match_op tokens ops in match x with Some o => st_ret (Some o) | None => m end)
    (fun x => x = Some a) [t] rest d.
Proof.
  intros H1 H2. eapply (gives_bind _ _ (fun x => x = Some a) _ [t] []); [by apply gives_op|].
  intros ? ->. by apply gives_ret.
Qed.

Lemma op_some o sp rest d : chains (binary_level o) = true ->
  gives (op_at (binary_level o)) (fun x => x = Some o) (binary_tokens o sp) rest d.
Proof.
  intros Hc. destruct o, sp; try discriminate Hc; cbn [binary_level binary_tokens op_at];
    try (apply gives_op; [not_end|by vm_compute]);
    try (apply gives_first_op; [not_end|by vm_compute]).
  all: unfold equality_op; (eapply gives_stay; [apply gives_no_op; not_end|]); intros ? ->; cbv beta match;
    do 2 (eapply gives_stay; [apply gives_no_word; cbn; lia|]; intros ? ->; cbv beta match).
  - eapply gives_stay; [by apply gives_no_match|]. intros ? ->. cbv beta match.
    apply gives_first_op; [not_end|by vm_compute].
  - do 2 (eapply gives_then; [by apply gives_match|]; intros ? ->; cbv beta match). by apply gives_ret.
Qed.

(** ** Chains *)

Section Chain.
Context (k : nat) (Hk : chains k = true) (operand : parsing expr).

(** The tokens [l] are read as the left end [e] of a chain that goes on. *)
Definition spine (w : wexpr) (l rest : list cf_token) (d : nat) : Prop :=
  forall s, ahead s (l ++ rest) -> pa_expr_depth s + d <= MAX_EXPR_DEPTH ->
  exists e fuel terms,
    op_level tokens operand (op_at k) s = chain tokens fuel operand (op_at k) terms e (moved (length l) s)
    /\ denotes w e /\ length tokens < fuel + pa_current s + length l /\ (terms <= Z.of_nat (length l))%Z
    /\ pa_current s + length l <= length tokens.

Lemma ahead_length s l : ahead s l -> l <> [] -> pa_current s + length l = length tokens.
Proof.
  intros <- Hl. rewrite length_map, length_drop. destruct (decide (pa_current s <= length tokens)); [lia|].
  rewrite drop_ge in Hl by lia. done.
Qed.

Lemma spine_start w l rest d : rest <> [] -> gives operand (denotes w) l rest d -> spine w l rest d.
Proof.
  intros Hr H s Hs Hd. destruct (H s Hs Hd) as (e & E & He). exists e, (S (length tokens)), 0%Z.
  pose proof (ahead_length s _ Hs) as Hl. rewrite length_app in Hl. specialize (Hl ltac:(by destruct l)).
  split_and!; [unfold op_level, st_bind; by rewrite E|done|lia..].
Qed.

Lemma spine_more x o sp y l m rest d : binary_level o = k -> rest <> [] ->
  spine x l (binary_tokens o sp ++ m ++ rest) d -> gives operand (denotes y) m rest d ->
  spine (WBinary x o sp y) (l ++ binary_tokens o sp ++ m) rest d.
Proof.
  intros Ho Hr Hx Hy s Hs Hd. rewrite <-!app_assoc in Hs. destruct (Hx s Hs Hd) as (e & fuel & terms & -> & He & Hf & Ht & Hc).
  pose proof (ahead_length s _ Hs) as Hl. rewrite !length_app in Hl. specialize (Hl ltac:(by destruct l, (binary_tokens o sp), m)).
  destruct fuel as [|fuel]; [lia|]. cbn [chain].
  apply ahead_moved in Hs. set (s1 := moved (length l) s) in *.
  rewrite <-Ho in Hk. destruct (op_some o sp (m ++ rest) d Hk s1 Hs Hd) as (? & E1 & ->). rewrite Ho in E1.
  apply ahead_moved in Hs. set (s2 := moved (length (binary_tokens o sp)) s1) in *.
  destruct (Hy s2 Hs Hd) as (e' & E2 & He').
  unfold st_bind at 1. rewrite E1. unfold st_bind at 1. rewrite E2.
  unfold count_chain_term, st_bind at 1. unfold MAX_CHAIN_TERMS in *.
  assert (Hot : 1 <= length (binary_tokens o sp)) by (destruct o, sp; cbn; try lia; done).
  destruct (Z.ltb_spec 20000 (terms + 1)) as [|_]; [lia|]. unfold st_ret at 1, st_bind at 1, at_here at 1.
  eexists (XBinaryOp e o e' _), fuel, (terms + 1)%Z. split_and!.
  - unfold s2, s1. rewrite !moved_moved, !length_app. do 2 f_equal; lia.
  - by constructor.
  - rewrite !length_app. lia.
  - rewrite !length_app. lia.
  - rewrite !length_app. lia.
Qed.

Lemma spine_depth w l rest d d' : spine w l rest d -> d <= d' -> spine w l rest d'.
Proof. intros H Hd s Hs Hds. apply H; [done|lia]. Qed.

Lemma spine_end w l t rest d : follow t <= k -> spine w l (t :: rest) d ->
  gives (op_level tokens operand (op_at k)) (denotes w) l (t :: rest) d.
Proof.
  intros Ht H s Hs Hd. destruct (H s Hs Hd) as (e & fuel & terms & -> & He & Hf & _ & Hc). exists e. split; [|done].
  destruct fuel as [|fuel]; [lia|]. cbn [chain]. apply ahead_moved in Hs.
  destruct (op_none k t rest d Hk Ht _ Hs Hd) as (? & E & ->). unfold st_bind. rewrite E. cbn. by rewrite moved_0.
Qed.
End Chain.

Lemma gives_loop {A} (m : nat -> parsing A) P l rest d : rest <> [] ->
  (forall fuel, length l < fuel -> gives (m fuel) P l rest d) -> gives (m (S (length tokens))) P l rest d.
Proof.
  intros Hr H s Hs. apply (H (S (length tokens))); [|done].
  pose proof (ahead_length s _ Hs) as Hl. rewrite length_app in Hl. specialize (Hl ltac:(by destruct l)). lia.
Qed.

Lemma gives_depth {A} (m : parsing A) P l rest d d' : gives m P l rest d -> d <= d' -> gives m P l rest d'.
Proof. intros H Hd. eapply gives_weaken; eauto. Qed.

Lemma gives_unfold {A} (m m' : parsing A) P l rest d : m = m' -> gives m P l rest d -> gives m' P l rest d.
Proof. by intros ->. Qed.

(** A test of the tokens ahead, decided by them. *)
Lemma gives_test {A} (f : pstate -> bool) b (k : bool -> parsing A) Q l rest d :
  (forall s, ahead s (l ++ rest) -> f s = b) -> gives (k b) Q l rest d -> gives (st_bind (looking f) k) Q l rest d.
Proof.
  intros Hf Hk. eapply gives_stay; [by apply (gives_looking f _ _ (fun x => x = b))|]. by intros ? ->.
Qed.

End Levels.
