(* ===== verification/CfmlPrecedence.v ===== *)
(** * CfmlPrecedence: the parser reads back what is written

    Precedence and associativity of every operator: the parser of expressions
    turns the tokens of a written expression into the tree it stands for. *)

From Stdlib Require Import Strings.Ascii.
From stdpp Require Import base list numbers strings.
From S2P Require Import Prelude Text Float64 Value QoqLexer CfmlLexer CfmlLexerFacts CfmlRoundtrip CfmlNames.
From S2P Require Import CfmlNamesFacts CfmlAst CfmlParser CfmlParserTotal CfmlWritten CfmlReading.
Local Open Scope nat_scope.
Local Open Scope st_scope.

Section Precedence.
Context {U : Unicode} {B : Type} (tokens : list token_with_loc) (raws : list (N * str)).
Context (parse_block : ST pstate cf_parse_error B).
Context (sub_parse : str -> outcome cf_parse_error (option (cf_expr B))).
Context (Hshort : (Z.of_nat (length tokens) <= MAX_CHAIN_TERMS)%Z).

Abbreviation parsing := (ST pstate cf_parse_error).
Abbreviation expr := (cf_expr B).
Local Notation gives := (gives (tokens := tokens)).
Local Notation ahead := (ahead (tokens := tokens)).
Local Notation spine := (spine (tokens := tokens)).
Local Notation parser_at := (parser_at (tokens := tokens) raws parse_block sub_parse).

(** Each entry reads what is written at its level. *)
Record entries_read (n : nat) (r : entries (B := B)) : Prop := {
  read_expression : forall w rest, writable w -> S (nesting w) <= n -> stops 0 rest ->
    gives (r_expression r) (denotes w) (wtokens w) rest (S (nesting w));
  read_unary : forall w rest, writable w -> S (nesting_at 14 w) <= n -> stops 14 rest ->
    gives (r_unary r) (denotes w) (wtokens_at 14 w) rest (nesting_at 14 w);
  read_not : forall w rest, writable w -> S (nesting_at 6 w) <= n -> stops 6 rest ->
    gives (r_not r) (denotes w) (wtokens_at 6 w) rest (nesting_at 6 w);
  read_key : forall key rest, str_is_ascii key.2 = true -> 1 <= n -> stops 0 rest ->
    gives (r_ternary r) (key_denotes key) [key_token key] rest 0;
}.

Section Layer.
Context (r : entries (B := B)) (n : nat).
Context (Hread : entries_read n r).

(** ** Arguments *)

Definition separator (t : cf_token) : Prop := t = TkComma \/ t = TkRParen.

Lemma gives_argument w t rest d : writable w -> S (nesting w) <= n -> S (nesting w) <= d -> separator t ->
  gives (parse_argument tokens raws r) (fun c => exists e, c = (None, e, false) /\ denotes w e) (wtokens w) (t :: rest) d.
Proof.
  intros Hw Hn Hd Ht. destruct (wtokens_begin w) as (t0 & l0 & j & El & Hj & _).
  pose proof (wtokens_calm w Hw) as [Hc1 Hc2]. specialize (Hc1 t rest ltac:(by destruct Ht as [-> | ->])).
  unfold parse_argument. eapply gives_stay.
  { rewrite El. apply gives_no_match; [done|]. intros ->. done. }
  intros ? ->. cbv beta match. apply (gives_test _ false).
  { intros s Hs. unfold paren_named. rewrite !(ahead_peek s _ _ Hs). rewrite El in *. cbn [app nth] in *.
    destruct (decide (t0 = TkLParen)) as [->|Hne]; [|by rewrite bool_decide_false].
    specialize (Hc2 l0 eq_refl t rest ltac:(by destruct Ht as [-> | ->])).
    change (nth 2 (TkLParen :: l0 ++ t :: rest) TkEof) with (nth 1 (l0 ++ t :: rest) TkEof) in *.
    cbn [nth] in *. rewrite Hc2. by rewrite andb_false_r. }
  apply (gives_test _ false).
  { intros s Hs. rewrite !(ahead_peek s _ _ Hs), Hc1. by rewrite andb_false_r. }
  apply (gives_test _ false).
  { intros s Hs. unfold is_dynamic_named_arg. rewrite !(ahead_peek s _ _ Hs), Hc1. rewrite El. cbn [app nth].
    destruct t0; try done. }
  rewrite <-(app_nil_r (wtokens w)). eapply gives_bind.
  - eapply gives_depth; [apply (read_expression n r Hread); [done..|]|done]. exists t, rest. split; [done|]. by destruct Ht as [-> | ->]; cbn.
  - intros e He. apply gives_ret. eauto.
Qed.

Lemma maxes_cons x l : maxes (x :: l) = Nat.max x (maxes l).
Proof. done. Qed.

Lemma gives_arguments_loop oc rest d ws : Forall writable ws -> ws <> [] ->
  S (maxes (map nesting ws)) <= n -> S (maxes (map nesting ws)) <= d ->
  forall fuel acc, length (commas (map wtokens ws)) < fuel ->
  gives (arguments_loop tokens raws r fuel oc acc)
    (fun cs => exists es, cs = acc ++ map (fun e => (None, e, false)) es /\ Forall2 denotes ws es)
    (commas (map wtokens ws)) (TkRParen :: rest) d.
Proof.
  induction 1 as [|w ws Hw Hws IH]; [done|]. intros _ Hn Hd fuel acc Hf.
  cbn [map] in Hn, Hd. assert (nesting w < n /\ nesting w < d) by (rewrite maxes_cons in Hn, Hd; lia).
  destruct fuel as [|fuel]; [lia|]. cbn [arguments_loop]. destruct ws as [|w' ws].
  - cbn [map commas]. rewrite <-(app_nil_r (wtokens w)). eapply gives_bind.
    { apply gives_argument; [done|lia|lia|by right]. }
    intros c (e & -> & He). eapply gives_stay; [by apply gives_no_match|]. intros ? ->. cbv beta match.
    apply (gives_test _ false).
    { intros s Hs. unfold named_binding_ahead. rewrite (ahead_peek s _ 0 Hs). by rewrite andb_false_r. }
    apply gives_ret. exists [e]. split; [done|]. by constructor.
  - change (commas (map wtokens (w :: w' :: ws))) with (wtokens w ++ TkComma :: commas (map wtokens (w' :: ws))) in *.
    eapply gives_bind; [apply gives_argument; [done|lia|lia|by left]|]. intros c (e & -> & He).
    eapply gives_then; [by apply gives_match|]. intros ? ->. cbv beta match.
    eapply gives_stay; [by apply (gives_ret true (fun b => b = true))|]. intros ? ->. cbv beta match.
    rewrite length_app in Hf. cbn [length] in Hf.
    eapply gives_weaken; [apply IH; [done|cbn [map] in *; rewrite !maxes_cons in *; lia..]|done|].
    intros cs (es & -> & Hes). exists (e :: es). split; [by rewrite <-app_assoc|by constructor].
Qed.

Lemma finish_positional loc (es : list expr) : finish_arguments loc (map (fun e => (None, e, false)) es) = es.
Proof.
  unfold finish_arguments. replace (existsb _ _) with false by (symmetry; by induction es).
  rewrite map_map. apply map_id.
Qed.

Lemma gives_arguments oc ws rest d : Forall writable ws ->
  S (maxes (map nesting ws)) <= n -> S (maxes (map nesting ws)) <= d ->
  gives (parse_arguments_inner tokens raws r oc) (Forall2 denotes ws) (commas (map wtokens ws)) (TkRParen :: rest) d.
Proof.
  intros Hws Hn Hd. unfold parse_arguments_inner. destruct ws as [|w ws].
  - apply (gives_test _ true); [|by apply gives_ret].
    intros s Hs. rewrite (ahead_check s TkRParen rest) by done. by apply bool_decide_true.
  - apply (gives_test _ false).
    { intros s Hs. destruct (begins_commas wtokens w ws) as (t & l & j & El & Hj & _).
      { eapply begins_le; [apply wtokens_begin|lia]. }
      rewrite El in Hs. rewrite (ahead_check s t (l ++ TkRParen :: rest)) by done. apply bool_decide_false.
      intros ->. done. }
    rewrite <-(app_nil_r (commas _)). eapply gives_bind.
    + apply (gives_loop (fun fuel => arguments_loop tokens raws r fuel oc [])); [done|]. intros fuel Hf.
      by apply gives_arguments_loop.
    + intros cs (es & -> & Hes). eapply gives_stay; [apply gives_location|]. intros loc _. apply gives_ret.
      by rewrite app_nil_l, finish_positional.
Qed.

Lemma gives_closed_arguments ws rest d : Forall writable ws ->
  S (maxes (map nesting ws)) <= n -> S (maxes (map nesting ws)) <= d ->
  gives (closed_arguments tokens raws r) (Forall2 denotes ws) (commas (map wtokens ws) ++ [TkRParen]) rest d.
Proof.
  intros Hws Hn Hd. unfold closed_arguments. eapply gives_bind; [by apply gives_arguments|].
  intros es Hes. eapply gives_then; [by apply gives_consume|]. intros _ _. by apply gives_ret.
Qed.

(** ** Literals *)

Lemma gives_expression w t rest d : writable w -> S (nesting w) <= n -> S (nesting w) <= d -> follow t = 0 ->
  gives (r_expression r) (denotes w) (wtokens w) (t :: rest) d.
Proof.
  intros Hw Hn Hd Ht. eapply gives_depth; [apply (read_expression n r Hread); [done..|]|done]. exists t, rest. split; [done|lia].
Qed.

(** An element is not the end of its list. *)
Lemma no_close w t u l : starts u = None -> u <> TkEof -> begins 0 w ->
  forall s, ahead s ((w ++ t) ++ l) -> check tokens u s = false.
Proof.
  intros Hu Hne (t0 & l0 & j & -> & Hj & _) s Hs. cbn [app] in Hs. rewrite (ahead_check s _ _ u Hs Hne).
  apply bool_decide_false. congruence.
Qed.

Lemma gives_elements rest d ws : Forall writable ws -> ws <> [] ->
  S (maxes (map nesting ws)) <= n -> S (maxes (map nesting ws)) <= d ->
  forall fuel acc, length (commas (map wtokens ws)) < fuel ->
  gives (array_elements tokens r fuel acc)
    (fun x => exists es, x = inl (acc ++ es) /\ Forall2 denotes ws es)
    (commas (map wtokens ws)) (TkRBracket :: rest) d.
Proof.
  induction 1 as [|w ws Hw Hws IH]; [done|]. intros _ Hn Hd fuel acc Hf.
  cbn [map] in Hn, Hd. assert (nesting w < n /\ nesting w < d) by (rewrite maxes_cons in Hn, Hd; lia).
  destruct fuel as [|fuel]; [lia|]. cbn [array_elements].
  assert (Hb : begins 0 (wtokens w)) by (eapply begins_le; [apply wtokens_begin|lia]).
  assert (Hdots : forall m, gives (match_token tokens TkDotDotDot) (fun b => b = false) [] (wtokens w ++ m) d).
  { intros m. destruct Hb as (t0 & l0 & j & -> & Hj & _). cbn [app]. apply gives_no_match; [done|]. by intros ->. }
  destruct ws as [|w' ws].
  - cbn [map commas]. apply (gives_test _ false).
    { intros s Hs. rewrite <-(app_nil_r (wtokens w)) in Hs. by eapply (no_close (wtokens w) [] TkRBracket). }
    eapply gives_stay; [apply Hdots|]. intros ? ->. cbv beta match.
    rewrite <-(app_nil_r (wtokens w)). eapply gives_bind; [apply gives_expression; [done|lia|lia|done]|].
    intros e He. assert (Hcolon : gives (match acc with [] => match_token tokens TkColon | _ => st_ret false end)
      (fun b => b = false) [] (TkRBracket :: rest) d).
    { destruct acc; [by apply gives_no_match|by apply gives_ret]. }
    eapply gives_stay; [exact Hcolon|]. intros ? ->. cbv beta match.
    eapply gives_stay; [by apply gives_no_match|]. intros ? ->. cbv beta match. apply gives_ret.
    exists [e]. split; [done|by constructor].
  - change (commas (map wtokens (w :: w' :: ws))) with (wtokens w ++ TkComma :: commas (map wtokens (w' :: ws))) in *.
    apply (gives_test _ false); [by intros s Hs; eapply no_close|].
    eapply gives_stay; [rewrite <-app_assoc; apply Hdots|]. intros ? ->. cbv beta match.
    eapply gives_bind; [apply gives_expression; [done|lia|lia|done]|]. intros e He.
    assert (Hcolon : forall m, gives (match acc with [] => match_token tokens TkColon | _ => st_ret false end)
      (fun b => b = false) [] (TkComma :: m) d).
    { intros m. destruct acc; [by apply gives_no_match|by apply gives_ret]. }
    eapply gives_stay; [apply Hcolon|]. intros ? ->. cbv beta match.
    eapply gives_then; [by apply gives_match|]. intros ? ->. cbv beta match.
    rewrite length_app in Hf. cbn [length] in Hf.
    eapply gives_weaken; [apply IH; [done|cbn [map] in *; rewrite !maxes_cons in *; lia..]|done|].
    intros x (es & -> & Hes). exists (e :: es). split; [by rewrite <-app_assoc|by constructor].
Qed.

Lemma gives_array_literal ws t rest d : Forall writable ws ->
  S (maxes (map nesting ws)) <= n -> S (maxes (map nesting ws)) <= d ->
  gives (parse_array_literal tokens r) (denotes (WArray ws)) (commas (map wtokens ws) ++ [TkRBracket]) (t :: rest) d.
Proof.
  intros Hws Hn Hd. unfold parse_array_literal. eapply gives_bind.
  - apply (gives_loop (fun fuel => array_elements tokens r fuel [])); [done|]. intros fuel Hf.
    destruct ws as [|w ws]; [|by apply gives_elements].
    destruct fuel as [|fuel]; [cbn in Hf; lia|]. cbn [array_elements map commas]. apply (gives_test _ true).
    + intros s Hs. rewrite (ahead_check s TkRBracket (t :: rest)) by done. by apply bool_decide_true.
    + apply gives_ret. by exists [].
  - intros x (es & -> & Hes). cbn [app]. eapply gives_then; [by apply gives_consume|]. intros _ _.
    apply gives_here. by constructor.
Qed.

(** A key and its value. *)
Definition pair_tokens (p : bool * str * wexpr) : list cf_token := key_token p.1 :: TkColon :: wtokens p.2.
Definition pair_denotes (p : bool * str * wexpr) (q : expr * expr) : Prop := key_denotes p.1 q.1 /\ denotes p.2 q.2.

Lemma gives_pair p t rest d : str_is_ascii p.1.2 = true -> writable p.2 -> S (nesting p.2) <= n -> S (nesting p.2) <= d ->
  follow t = 0 ->
  gives (let! key := struct_key tokens raws r in pair_value tokens r key) (pair_denotes p) (pair_tokens p) (t :: rest) d.
Proof.
  intros Ha Hw Hn Hd Ht. unfold pair_tokens. eapply gives_then.
  - unfold struct_key. apply (gives_test _ false).
    + intros s Hs. rewrite (ahead_peek s _ 0 Hs). by destruct p as [[[] ?] ?].
    + eapply gives_depth; [apply (read_key n r Hread); [done|lia|]|lia]. eexists _, _. split; [reflexivity|done].
  - intros key Hk. cbv beta. unfold pair_value. eapply gives_then.
    + apply gives_op; [not_end|by vm_compute].
    + intros ? ->. cbv beta match. rewrite <-(app_nil_r (wtokens _)).
      eapply gives_bind; [by apply gives_expression|]. intros e He. by apply gives_ret.
Qed.

Lemma gives_struct_pairs rest d ps : Forall (fun p => str_is_ascii p.1.2 = true /\ writable p.2) ps -> ps <> [] ->
  S (maxes (map (fun p => nesting p.2) ps)) <= n -> S (maxes (map (fun p => nesting p.2) ps)) <= d ->
  forall fuel acc, length (commas (map pair_tokens ps)) < fuel ->
  gives (struct_pairs tokens raws r fuel acc)
    (fun x => exists qs, x = acc ++ qs /\ Forall2 pair_denotes ps qs) (commas (map pair_tokens ps)) (TkRBrace :: rest) d.
Proof.
  induction 1 as [|p ps [Ha Hw] Hps IH]; [done|]. intros _ Hn Hd fuel acc Hf.
  cbn [map] in Hn, Hd. assert (nesting p.2 < n /\ nesting p.2 < d) by (rewrite maxes_cons in Hn, Hd; lia).
  destruct fuel as [|fuel]; [lia|]. cbn [struct_pairs].
  assert (Hstop : forall m m' s, ahead s ((pair_tokens p ++ m) ++ m') -> check tokens TkRBrace s = false).
  { intros m m' s Hs. rewrite (ahead_check s _ _ TkRBrace Hs) by done. by destruct p as [[[] ?] ?]; apply bool_decide_false. }
  assert (Hdots : forall m, gives (match_token tokens TkDotDotDot) (fun b => b = false) [] (pair_tokens p ++ m) d).
  { intros m. apply gives_no_match; [done|]. by destruct p as [[[] ?] ?]. }
  destruct ps as [|p' ps].
  - cbn [map commas]. apply (gives_test _ false).
    { intros s Hs. rewrite <-(app_nil_r (pair_tokens p)) in Hs. by eapply Hstop. }
    eapply gives_stay; [apply Hdots|]. intros ? ->. cbv beta match.
    rewrite <-(app_nil_r (pair_tokens p)). eapply gives_bind; [by apply gives_pair; [..|lia|lia|]|].
    intros q Hq. eapply gives_stay; [by apply gives_no_match|]. intros ? ->. cbv beta match. apply gives_ret.
    exists [q]. split; [done|by constructor].
  - change (commas (map pair_tokens (p :: p' :: ps))) with (pair_tokens p ++ TkComma :: commas (map pair_tokens (p' :: ps))) in *.
    apply (gives_test _ false); [by intros s Hs; eapply Hstop|].
    eapply gives_stay; [rewrite <-app_assoc; apply Hdots|]. intros ? ->. cbv beta match.
    eapply gives_bind; [by apply gives_pair; [..|lia|lia|]|]. intros q Hq.
    eapply gives_then; [by apply gives_match|]. intros ? ->. cbv beta match.
    rewrite length_app in Hf. cbn [length] in Hf.
    eapply gives_weaken; [apply IH; [done|cbn [map] in *; rewrite !maxes_cons in *; lia..]|done|].
    intros x (qs & -> & Hqs). exists (q :: qs). split; [by rewrite <-app_assoc|by constructor].
Qed.

Lemma gives_struct_literal ps t rest d : Forall (fun p => str_is_ascii p.1.2 = true /\ writable p.2) ps ->
  S (maxes (map (fun p => nesting p.2) ps)) <= n -> S (maxes (map (fun p => nesting p.2) ps)) <= d ->
  gives (parse_struct_literal tokens raws r) (denotes (WStruct ps)) (commas (map pair_tokens ps) ++ [TkRBrace]) (t :: rest) d.
Proof.
  intros Hps Hn Hd. unfold parse_struct_literal. eapply gives_bind.
  - apply (gives_loop (fun fuel => struct_pairs tokens raws r fuel [])); [done|]. intros fuel Hf.
    destruct ps as [|p ps]; [|by apply gives_struct_pairs].
    destruct fuel as [|fuel]; [cbn in Hf; lia|]. cbn [struct_pairs map commas]. apply (gives_test _ true).
    + intros s Hs. rewrite (ahead_check s TkRBrace (t :: rest)) by done. by apply bool_decide_true.
    + apply gives_ret. by exists [].
  - intros x (qs & -> & Hqs). cbn [app]. eapply gives_then; [by apply gives_consume|]. intros _ _.
    apply gives_here. by constructor.
Qed.

(** ** New objects *)

Lemma gives_class_path path rest d : forall fuel acc, length (segments path) < fuel ->
  gives (class_path tokens raws fuel acc) (fun x => x = acc ++ path) (segments path) (TkLParen :: rest) d.
Proof.
  induction path as [|p path IH]; intros fuel acc Hf; (destruct fuel as [|fuel]; [lia|]); cbn [class_path].
  - apply (gives_test _ false); [|apply gives_ret; by rewrite app_nil_r].
    intros s Hs. by rewrite (ahead_check s TkLParen rest).
  - change (segments (p :: path)) with (TkDot :: TkIdentifier p :: segments path) in *. cbn [length] in Hf.
    apply (gives_test _ true).
    + intros s Hs. rewrite (ahead_peek s _ 1 Hs). cbn [app] in Hs. by rewrite (ahead_check s _ _ TkDot Hs).
    + eapply gives_then; [by apply gives_skip|].
      intros _ _. intros s Hs Hd. destruct (gives_property raws p (segments path ++ TkLParen :: rest) d s Hs Hd) as (? & -> & ->).
      apply (ahead_cons s) in Hs. destruct (IH fuel (acc ++ [p]) ltac:(lia) (moved 1 s) Hs Hd) as (x & E & ->).
      exists (acc ++ p :: path). split; [|done]. cbn [length]. rewrite E, moved_moved, <-app_assoc. done.
Qed.

Lemma gives_new c path ws rest d : Forall writable ws ->
  S (maxes (map nesting ws)) <= n -> S (maxes (map nesting ws)) <= d ->
  gives (parse_new tokens raws r) (denotes (WNew c path ws))
    (TkIdentifier c :: segments path ++ TkLParen :: commas (map wtokens ws) ++ [TkRParen]) rest d.
Proof.
  intros Hws Hn Hd. unfold parse_new. eapply gives_stay.
  { apply (gives_looking _ _ _ (fun t => t = TkIdentifier c)). intros s Hs. by rewrite (ahead_peek s _ 0 Hs). }
  intros ? ->. cbv beta match. eapply gives_then; [by apply gives_advance|]. intros ? ->. cbv beta match.
  eapply gives_bind.
  { apply (gives_loop (fun fuel => class_path tokens raws fuel [c])); [done|]. intros fuel Hf. by apply gives_class_path. }
  intros ? ->. cbv beta. eapply gives_stay.
  { apply (gives_here _ (fun e => exists l, e = XIdentifier (join (lit ".") ([c] ++ path)) l)). eauto. }
  intros ? [loc ->]. unfold finish_new. eapply gives_then; [by apply gives_match|]. intros ? ->. cbv beta match.
  rewrite <-(app_nil_r (_ ++ [TkRParen])). eapply gives_bind; [by apply gives_closed_arguments|].
  intros es Hes. apply gives_here. intros loc'. by constructor.
Qed.

(** ** Primary expressions *)

Lemma gives_paren w t rest d : writable w -> S (nesting w) <= n -> S (nesting w) <= d -> follow t <= 17 ->
  gives (cf_parse_paren tokens raws parse_block r) (denotes w) (wtokens w ++ [TkRParen]) (t :: rest) d.
Proof.
  intros Hw Hn Hd Ht. unfold cf_parse_paren. apply (gives_test _ false).
  { intros s Hs. rewrite arrow_ahead_tokens, Hs, <-app_assoc, (wtokens_balanced w) by lia. cbn.
    apply bool_decide_false. intros ->. cbn in Ht. lia. }
  eapply gives_bind; [by apply gives_expression|]. intros e He.
  eapply gives_then; [by apply gives_consume|]. intros _ _. by apply gives_ret.
Qed.

Lemma gives_grouped w t rest : writable w -> S (nesting w) <= n -> follow t <= 17 ->
  gives (parser_at r 17) (denotes w) (TkLParen :: wtokens w ++ [TkRParen]) (t :: rest) (S (nesting w)).
Proof.
  intros. cbn [CfmlReading.parser_at]. unfold cf_parse_primary. eapply gives_then; [by apply gives_advance|].
  intros ? ->. cbv beta match. by apply gives_paren.
Qed.

Lemma gives_primary w t rest : writable w -> wlevel w = 17 -> nesting w <= n ->
  gives (parser_at r 17) (denotes w) (wtokens w) (t :: rest) (nesting w).
Proof.
  intros Hw Hl Hn. cbn [CfmlReading.parser_at]. unfold cf_parse_primary.
  destruct Hw as [[|[]| | |]| | | | | | | | | | | | | | |? [] ? ? ? ?| |]; cbn [wlevel binary_level] in Hl; try discriminate Hl;
    cbn [wtokens literal_token nesting] in *;
    (eapply gives_then; [by apply gives_advance|]; intros ? ->; cbv beta match);
    try (apply gives_here; intros; by constructor).
  - by apply gives_array_literal.
  - by apply gives_struct_literal.
  - by apply gives_new.
Qed.

(** ** Suffixes *)

(** The tokens [l] are read as a callee that may get more suffixes. *)
Definition stem (w : wexpr) (l rest : list cf_token) (d : nat) : Prop :=
  forall s, ahead s (l ++ rest) -> pa_expr_depth s + d <= MAX_EXPR_DEPTH ->
  exists e fuel, parser_at r 16 s = call_loop tokens raws r fuel e (moved (length l) s)
    /\ denotes w e /\ length tokens < fuel + pa_current s + length l /\ pa_current s + length l <= length tokens.

Lemma stem_start w l rest d : rest <> [] -> gives (parser_at r 17) (denotes w) l rest d -> stem w l rest d.
Proof.
  intros Hr H s Hs Hd. destruct (H s Hs Hd) as (e & E & He). exists e, (S (length tokens)).
  pose proof (ahead_length s _ Hs) as Hl. rewrite length_app in Hl. specialize (Hl ltac:(by destruct l)).
  split_and!; [|done|lia..]. cbn [CfmlReading.parser_at] in *. unfold cf_parse_call, st_bind. by rewrite E.
Qed.

Lemma stem_more x w t sf l m rest d : rest <> [] ->
  snd <$> find (fun o => bool_decide (t = o.1)) [(TkDot, SDot); (TkLParen, SCall); (TkLBracket, SIndex);
    (TkColonColon, SStatic); (TkQuestionDot, SSafe)] = Some sf ->
  stem x l ((t :: m) ++ rest) d ->
  (forall e, denotes x e -> gives (apply_suffix tokens raws r e sf) (denotes w) m rest d) -> stem w (l ++ t :: m) rest d.
Proof.
  intros Hr Hsf Hx Hm s Hs Hd. rewrite <-app_assoc in Hs. destruct (Hx s Hs Hd) as (e & fuel & -> & He & Hf & Hc).
  pose proof (ahead_length s _ Hs) as Hl. rewrite !length_app in Hl. specialize (Hl ltac:(by destruct l)). cbn [length] in Hl.
  destruct fuel as [|fuel]; [lia|]. cbn [call_loop]. apply ahead_moved in Hs. set (s1 := moved (length l) s) in *.
  assert (Hop : gives (suffix_op tokens) (fun o => o = Some sf) [t] (m ++ rest) d) by (apply gives_op; [not_end|done]).
  destruct (Hop s1 Hs Hd) as (? & E1 & ->).
  apply (ahead_cons s1) in Hs. destruct (Hm e He (moved 1 s1) Hs Hd) as (e' & E2 & He').
  exists e', fuel. split_and!; [|done|rewrite length_app; cbn [length]; lia..].
  unfold st_bind at 1. rewrite E1. unfold st_bind at 1. cbn [length]. rewrite E2. unfold s1.
  rewrite !moved_moved, length_app. do 2 f_equal; cbn [length]; lia.
Qed.

Lemma stem_depth w l rest d d' : stem w l rest d -> d <= d' -> stem w l rest d'.
Proof. intros H Hd s Hs Hds. apply H; [done|lia]. Qed.

Lemma stem_end w l t rest d : follow t <= 16 -> stem w l (t :: rest) d ->
  gives (parser_at r 16) (denotes w) l (t :: rest) d.
Proof.
  intros Ht H s Hs Hd. destruct (H s Hs Hd) as (e & fuel & -> & He & Hf & Hc). exists e. split; [|done].
  destruct fuel as [|fuel]; [lia|]. cbn [call_loop]. apply ahead_moved in Hs.
  assert (Hn0 : gives (suffix_op tokens) (fun o => o = None) [] (t :: rest) d).
  { unfold suffix_op. refuse 16. }
  destruct (Hn0 _ Hs Hd) as (? & E & ->). unfold st_bind. rewrite E. cbn. by rewrite moved_0.
Qed.

(** A callee is no tag whose name splits a character. *)
Lemma tag_call_written w (e : expr) : writable w -> denotes w e -> exists b, tag_call e = Ok b.
Proof.
  intros Hw He. assert (Hp : tag_call e <> Panic) by (destruct He; try done; inversion Hw; by apply tag_name_ascii).
  assert (Herr : forall x, tag_call e <> Err x).
  { intros x. destruct e; try done. cbn. unfold tag_name. by repeat case_match. }
  destruct (tag_call e) as [b|x|]; [eauto|by destruct (Herr x)|done].
Qed.

Lemma gives_call x e ws rest d : writable x -> denotes x e -> Forall writable ws ->
  S (maxes (map nesting ws)) <= n -> S (maxes (map nesting ws)) <= d ->
  gives (apply_suffix tokens raws r e SCall) (denotes (WInvoke x ws)) (commas (map wtokens ws) ++ [TkRParen]) rest d.
Proof.
  intros Hx He Hws Hn Hd. cbn [apply_suffix]. destruct (tag_call_written x e Hx He) as [b Hb]. rewrite Hb.
  eapply gives_stay; [by apply (gives_ret b (fun y => y = b))|]. intros ? ->.
  eapply gives_bind; [by apply gives_arguments|]. intros es Hes.
  eapply gives_then; [by apply gives_consume|]. intros _ _. apply gives_here. intros. by constructor.
Qed.

Lemma gives_index x e i rest d : denotes x e -> writable i -> S (nesting i) <= n -> S (nesting i) <= d ->
  gives (apply_suffix tokens raws r e SIndex) (denotes (WIndex x i)) (wtokens i ++ [TkRBracket]) rest d.
Proof.
  intros He Hi Hn Hd. cbn [apply_suffix]. eapply gives_bind; [by apply gives_expression|]. intros y Hy.
  eapply gives_then; [by apply gives_consume|]. intros _ _. apply gives_here. intros. by constructor.
Qed.

Section Named.
Context (name : str) (member : str -> source_location -> expr) (call : str -> list expr -> source_location -> expr).

Lemma gives_name rest d :
  gives (unwrap_or [] (extract_property_name tokens raws)) (fun w => w = name) [TkIdentifier name] rest d.
Proof.
  intros s Hs Hd. destruct (gives_property raws name rest d s Hs Hd) as (? & E & ->). exists name. unfold unwrap_or.
  by rewrite E.
Qed.

Lemma gives_member (P : expr -> Prop) t rest d : t <> TkLParen -> (forall loc, P (member name loc)) ->
  gives (named_suffix tokens raws r member call) P [TkIdentifier name] (t :: rest) d.
Proof.
  intros Ht HP. unfold named_suffix. eapply gives_then; [apply gives_name|]. intros ? ->. cbv beta.
  eapply gives_stay; [by apply gives_no_match|]. intros ? ->. cbv beta match. by apply gives_here.
Qed.

Lemma gives_method (P : expr -> Prop) ws rest d : Forall writable ws ->
  S (maxes (map nesting ws)) <= n -> S (maxes (map nesting ws)) <= d ->
  (forall es loc, Forall2 denotes ws es -> P (call name es loc)) ->
  gives (named_suffix tokens raws r member call) P
    (TkIdentifier name :: TkLParen :: commas (map wtokens ws) ++ [TkRParen]) rest d.
Proof.
  intros Hws Hn Hd HP. unfold named_suffix. eapply gives_then; [apply gives_name|]. intros ? ->. cbv beta.
  eapply gives_then; [by apply gives_match|]. intros ? ->. cbv beta match.
  rewrite <-(app_nil_r (_ ++ [TkRParen])). eapply gives_bind; [by apply gives_closed_arguments|].
  intros es Hes. apply gives_here. auto.
Qed.
End Named.

(** Behind a dot a name is no number. *)
Lemma gives_dot e name (P : expr -> Prop) l rest d :
  gives (named_suffix tokens raws r (fun m => XMemberAccess e m false) (fun m args => XMethodCall e m args false)) P
    (TkIdentifier name :: l) rest d ->
  gives (apply_suffix tokens raws r e SDot) P (TkIdentifier name :: l) rest d.
Proof.
  intros H. cbn [apply_suffix]. unfold dot_suffix. eapply gives_stay.
  { apply (gives_looking _ _ _ (fun t => t = TkIdentifier name)). intros s Hs. by rewrite (ahead_peek s _ 0 Hs). }
  by intros ? ->.
Qed.

(** ** From one level to the next lower one *)

Lemma contains_none t rest d : follow t <= 9 -> gives (contains_op tokens) (fun o => o = None) [] (t :: rest) d.
Proof.
  intros Ht. unfold contains_op. eapply gives_stay; [apply gives_no_match; [done|]; intros ->; cbn in Ht; lia|].
  intros ? ->. cbv beta match. apply (gives_test _ false).
  { intros s Hs. by rewrite (no_word s t rest) by (done || lia). }
  eapply gives_stay; [apply gives_no_match; [done|]; intros ->; cbn in Ht; lia|]. intros ? ->. by apply gives_ret.
Qed.

Lemma contains_some o sp rest d : binary_level o = 9 ->
  gives (contains_op tokens) (fun x => x = Some o) (binary_tokens o sp) rest d.
Proof.
  intros Ho. unfold contains_op. destruct o; try discriminate Ho; cbn [binary_tokens].
  - eapply gives_then; [by apply gives_match|]. intros ? ->. by apply gives_ret.
  - eapply gives_stay; [by apply gives_no_match|]. intros ? ->. cbv beta match. apply (gives_test _ false).
    { intros s Hs. by rewrite (no_word s _ _ _ Hs) by (cbn; lia). }
    do 2 (eapply gives_then; [by apply gives_match|]; intros ? ->; cbv beta match). by apply gives_ret.
Qed.

(** The first token is none of the prefix operators. *)
Lemma no_prefix {A} k l rest (ops : list (cf_token * A)) d : begins k l ->
  Forall (fun o => o.1 <> TkEof /\ forall j, starts o.1 = Some j -> j < k) ops ->
  gives (match_op tokens ops) (fun o => o = None) [] (l ++ rest) d.
Proof.
  intros (t & m & j & -> & Hj & Hk) Hops. apply gives_no_op. eapply Forall_impl; [exact Hops|].
  intros [u a] [Hu Hs]. split; [done|]. intros E. cbn in *. subst u. apply Hs in Hj. lia.
Qed.

Ltac no_start :=
  repeat (apply Forall_cons; split; [split; [done|intros ? [= <-]; lia || fail]|]); apply Forall_nil_2.

Lemma lower_level k w l t rest d : k < 17 -> begins (S k) l -> follow t <= k ->
  gives (parser_at r (S k)) (denotes w) l (t :: rest) d -> gives (parser_at r k) (denotes w) l (t :: rest) d.
Proof.
  intros Hk Hl Ht H. destruct (chains k) eqn:Hc.
  { rewrite parser_chain by done. apply spine_end; [done..|]. by apply spine_start. }
  assert (Hc' : k ∈ [0; 6; 9; 14; 15; 16]).
  { clear -Hk Hc. do 17 (destruct k as [|k]; [first [discriminate Hc|by apply (bool_decide_unpack (_ ∈ _))]|]). lia. }
  repeat (apply elem_of_cons in Hc' as [->|Hc']); [..|by apply elem_of_nil in Hc']; cbn [CfmlReading.parser_at] in *.
  - unfold parse_ternary. rewrite <-(app_nil_r l). eapply gives_bind; [exact H|]. intros e He.
    eapply gives_stay; [apply gives_no_match; [done|]; intros ->; cbn in Ht; lia|]. intros ? ->. cbv beta match.
    eapply gives_stay; [refuse 0|]. intros ? ->. by apply gives_ret.
  - unfold cf_parse_not. eapply gives_stay; [by apply (no_prefix 7); [|no_start]|]. by intros ? ->.
  - unfold parse_contains. rewrite <-(app_nil_r l). eapply gives_bind; [exact H|]. intros e He.
    eapply gives_stay; [by apply contains_none|]. intros ? ->. by apply gives_ret.
  - unfold cf_parse_unary. destruct Hl as (u & m & j & -> & Hj & Hle).
    do 2 (eapply gives_stay; [apply gives_no_match; [done|]; intros ->; cbn in Hj; first [discriminate Hj|injection Hj as <-; lia]|];
      intros ? ->; cbv beta match).
    eapply gives_stay; [apply (no_prefix 15 (u :: m)); [by exists u, m, j|no_start]|]. by intros ? ->.
  - unfold parse_postfix. rewrite <-(app_nil_r l). eapply gives_bind; [exact H|]. intros e He.
    eapply gives_stay; [refuse 15|]. intros ? ->. by apply gives_ret.
  - apply stem_end; [done|]. by apply stem_start.
Qed.

Lemma lower_levels k j w l t rest d : k <= j <= 17 -> begins j l -> follow t <= k ->
  gives (parser_at r j) (denotes w) l (t :: rest) d -> gives (parser_at r k) (denotes w) l (t :: rest) d.
Proof.
  intros [Hkj Hj] Hl Ht H. remember (j - k) as m eqn:Em. revert k Hkj Ht Em. induction m as [|m IH]; intros k Hkj Ht Em.
  - by replace k with j by lia.
  - apply lower_level; [lia|eapply begins_le; [exact Hl|lia]|done|]. apply IH; lia.
Qed.

(** ** Every expression, at every level *)

(** What the parser makes of an expression: at the level of a chain or of the
    suffixes, a left end that may go on. *)
Definition reads (w : wexpr) : Prop := forall t rest,
  if chains (wlevel w) then
    follow t <= S (wlevel w) ->
    spine (wlevel w) (parser_at r (S (wlevel w))) w (wtokens w) (t :: rest) (nesting w)
  else if wlevel w =? 16 then
    follow t <= 17 -> (is_member w = true -> t <> TkLParen) -> stem w (wtokens w) (t :: rest) (nesting w)
  else
    follow t <= wlevel w -> gives (parser_at r (wlevel w)) (denotes w) (wtokens w) (t :: rest) (nesting w).

Lemma reads_level w t rest : reads w -> follow t <= wlevel w ->
  gives (parser_at r (wlevel w)) (denotes w) (wtokens w) (t :: rest) (nesting w).
Proof.
  intros H Ht. specialize (H t rest). destruct (chains (wlevel w)) eqn:Hc.
  - rewrite parser_chain by done. apply spine_end; [done..|]. apply H. lia.
  - destruct (Nat.eqb_spec (wlevel w) 16) as [E|]; [|by apply H]. rewrite E in *. apply stem_end; [done|].
    apply H; [lia|]. intros _ ->. cbn in Ht. lia.
Qed.

Lemma reads_at k w t rest : writable w -> reads w -> k <= 17 -> nesting_at k w <= n -> follow t <= k ->
  gives (parser_at r k) (denotes w) (wtokens_at k w) (t :: rest) (nesting_at k w).
Proof.
  intros Hw Hr Hk Hn Ht. pose proof (wlevel_le w). unfold wtokens_at, nesting_at in *.
  destruct (Nat.ltb_spec (wlevel w) k); cbn [parens Nat.add] in *.
  - apply (lower_levels k 17); [lia|by eexists _, _, 17|done|]. apply gives_grouped; [done..|lia].
  - apply (lower_levels k (wlevel w)); [lia|apply wtokens_begin|done|]. apply reads_level; [done|lia].
Qed.

Lemma spine_at k w t rest d : chains k = true -> writable w -> reads w -> k <= 16 -> nesting_at k w <= n ->
  nesting_at k w <= d -> follow t <= S k -> spine k (parser_at r (S k)) w (wtokens_at k w) (t :: rest) d.
Proof.
  intros Hc Hw Hr Hk Hn Hd Ht. eapply spine_depth; [|exact Hd]. destruct (decide (wlevel w = k)) as [<-|Hne].
  - specialize (Hr t rest). rewrite Hc in Hr. unfold wtokens_at, nesting_at. rewrite Nat.ltb_irrefl. by apply Hr.
  - apply spine_start; [done|].
    assert (E : (wlevel w <? k) = (wlevel w <? S k)).
    { destruct (Nat.ltb_spec (wlevel w) k), (Nat.ltb_spec (wlevel w) (S k)); lia || done. }
    unfold wtokens_at, nesting_at in *. rewrite E in *. apply reads_at; [done..|lia|done|done].
Qed.

Lemma stem_at c w t rest d : 16 <= c <= 17 -> (c = 16 -> is_member w = true -> t <> TkLParen) -> writable w -> reads w ->
  nesting_at c w <= n -> nesting_at c w <= d -> follow t <= 17 -> stem w (wtokens_at c w) (t :: rest) d.
Proof.
  intros Hc Hm Hw Hr Hn Hd Ht. eapply stem_depth; [|exact Hd]. pose proof (wlevel_le w).
  destruct (decide (c = 16 /\ wlevel w = 16)) as [[-> E]|Hne].
  - specialize (Hr t rest). unfold wtokens_at, nesting_at. rewrite E in *. by apply Hr; [|auto].
  - apply stem_start; [done|].
    assert (E : (wlevel w <? c) = (wlevel w <? 17)).
    { destruct (Nat.ltb_spec (wlevel w) c), (Nat.ltb_spec (wlevel w) 17); lia || done. }
    unfold wtokens_at, nesting_at in *. rewrite E in *. by apply reads_at.
Qed.

Lemma binary_follow o sp : o <> OAssign -> exists t m, binary_tokens o sp = t :: m /\ follow t = S (binary_level o).
Proof. intros Ho. destruct o, sp; try done; by eexists _, _. Qed.

Lemma reads_chain x o sp y : chains (binary_level o) = true -> writable x -> writable y -> reads x -> reads y ->
  nesting (WBinary x o sp y) <= n -> reads (WBinary x o sp y).
Proof.
  intros Hc Hx Hy Rx Ry Hn t rest. cbn [wlevel]. rewrite Hc. intros Ht.
  assert (Ho : o <> OAssign) by by intros ->. destruct (binary_follow o sp Ho) as (u & m & Eu & Hu).
  assert (Hk : binary_level o <= 13 /\ left_level o = binary_level o) by (destruct o; cbn; done || lia).
  destruct Hk as [Hk El]. cbn [wtokens nesting] in *. rewrite El in *. remember (binary_level o) as k eqn:Ek.
  fold (nesting_at k x) (nesting_at (S k) y) in *. fold (wtokens_at k x) (wtokens_at (S k) y).
  apply spine_more; [done..| |].
  - rewrite Eu. cbn [app]. apply spine_at; [done..|lia|lia|lia|lia].
  - eapply gives_depth; [apply reads_at; [done..|lia|lia|lia]|lia].
Qed.

Lemma reads_contains x o sp y : binary_level o = 9 -> writable x -> writable y -> reads x -> reads y ->
  nesting (WBinary x o sp y) <= n -> reads (WBinary x o sp y).
Proof.
  intros Ho Hx Hy Rx Ry Hn t rest. cbn [wlevel]. rewrite Ho. cbn [chains Nat.eqb]. intros Ht.
  assert (El : left_level o = 10) by (unfold left_level; by rewrite Ho).
  assert (Ho' : o <> OAssign) by by intros ->. destruct (binary_follow o sp Ho') as (u & m & Eu & Hu).
  cbn [wtokens nesting] in *. rewrite El, Ho in *.
  fold (nesting_at 10 x) (nesting_at 10 y) in *. fold (wtokens_at 10 x) (wtokens_at 10 y).
  cbn [CfmlReading.parser_at]. unfold parse_contains. eapply gives_bind.
  { rewrite Eu. cbn [app]. eapply gives_depth; [apply (reads_at 10); [done..|lia|lia|lia]|lia]. }
  intros e He. eapply gives_bind; [by apply contains_some|]. intros ? ->. cbv beta match.
  rewrite <-(app_nil_r (wtokens_at 10 y)). eapply gives_bind.
  { eapply gives_depth; [apply (reads_at 10); [done..|lia|lia|lia]|lia]. }
  intros e' He'. apply gives_here. intros. by constructor.
Qed.

(** The part of a nested bound, and an operand read at its level. *)
Ltac bound := cbn [nesting] in *; unfold nesting_at in *; lia.
Ltac read k := eapply gives_depth; [apply (reads_at k); [done..|lia|bound|cbn; lia]|bound].

Lemma reads_index o i : writable o -> writable i -> reads o -> nesting (WIndex o i) <= n -> reads (WIndex o i).
Proof.
  intros Ho Hi Ro Hn t rest Ht _. cbn [wtokens]. fold (wtokens_at 16 o). eapply stem_more; [done|by vm_compute| |].
  - apply stem_at; [lia|done|done|done|bound|bound|cbn; lia].
  - intros e He. apply gives_index; [done|done|bound|bound].
Qed.

Lemma reads_invoke o ws : writable o -> Forall writable ws -> reads o -> nesting (WInvoke o ws) <= n ->
  reads (WInvoke o ws).
Proof.
  intros Ho Hws Ro Hn t rest Ht _. cbn [wtokens]. fold (wtokens_at (callee_level o) o).
  pose proof (callee_level_bounds o). eapply stem_more; [done|by vm_compute| |].
  - apply stem_at; [done| |done|done|bound|bound|cbn; lia]. unfold callee_level. by destruct (is_member o).
  - intros e He. apply gives_call; [done..|bound|bound].
Qed.

Lemma reads_member o k name : writable o -> reads o -> nesting (WMember o k name) <= n -> reads (WMember o k name).
Proof.
  intros Ho Ro Hn t rest Ht Hm. cbn [wtokens]. fold (wtokens_at 16 o). specialize (Hm eq_refl).
  eapply (stem_more o _ _ (match k with AccessDot => SDot | AccessSafe => SSafe | AccessStatic => SStatic end));
    [done|by destruct k; vm_compute| |].
  - apply stem_at; [lia|by destruct k|done|done|bound|bound|destruct k; cbn; lia].
  - intros e He. destruct k; [apply gives_dot|..]; cbn [apply_suffix]; apply gives_member; [done|by constructor..|done|by constructor|done|by constructor].
Qed.

Lemma reads_method o k name ws : writable o -> Forall writable ws -> reads o -> nesting (WMethod o k name ws) <= n ->
  reads (WMethod o k name ws).
Proof.
  intros Ho Hws Ro Hn t rest Ht _. cbn [wtokens]. fold (wtokens_at 16 o).
  eapply (stem_more o _ _ (match k with AccessDot => SDot | AccessSafe => SSafe | AccessStatic => SStatic end));
    [done|by destruct k; vm_compute| |].
  - apply stem_at; [lia|by destruct k|done|done|bound|bound|destruct k; cbn; lia].
  - intros e He. destruct k; [apply gives_dot|..]; cbn [apply_suffix];
      (apply gives_method; [done|bound|bound|intros; by constructor]).
Qed.

Lemma reads_postfix e op : writable e -> reads e -> nesting (WPostfix e op) <= n -> reads (WPostfix e op).
Proof.
  intros He Re Hn t rest Ht. cbn [wtokens wlevel CfmlReading.parser_at]. unfold parse_postfix. fold (wtokens_at 16 e).
  eapply gives_bind; [cbn [app]; destruct op; read 16|]. intros x Hx. cbv beta.
  eapply (gives_then _ _ (fun o => o = Some op)); [destruct op; (apply gives_op; [not_end|by vm_compute])|].
  intros ? ->. cbv beta match. apply gives_here. intros. by constructor.
Qed.

Lemma reads_prefix op e : writable e -> reads e -> nesting (WPrefix op e) <= n -> reads (WPrefix op e).
Proof.
  intros He Re Hn t rest Ht. cbn [wtokens wlevel CfmlReading.parser_at] in *. unfold cf_parse_unary. fold (wtokens_at 16 e).
  do 2 (eapply gives_stay; [destruct op; by apply gives_no_match|]; intros ? ->; cbv beta match).
  eapply (gives_then _ _ (fun o => o = Some (match op with PIncrement => UPrefixIncrement | PDecrement => UPrefixDecrement end)));
    [destruct op; (apply gives_op; [not_end|by vm_compute])|].
  intros ? ->. cbv beta match. rewrite <-(app_nil_r (wtokens_at 16 e)).
  eapply gives_bind; [cbn [app]; read 16|]. intros x Hx. apply gives_here. intros. destruct op; by constructor.
Qed.

Lemma reads_minus e : writable e -> nesting (WMinus e) <= n -> reads (WMinus e).
Proof.
  intros He Hn t rest Ht. cbn [wtokens wlevel CfmlReading.parser_at nesting] in *. unfold cf_parse_unary.
  fold (wtokens_at 14 e). fold (nesting_at 14 e) in *.
  eapply gives_then; [by apply gives_match|]. intros ? ->. cbv beta match. rewrite <-(app_nil_r (wtokens_at 14 e)).
  eapply gives_bind.
  - apply gives_deeper, (read_unary n r Hread); [done..|]. by exists t, rest.
  - intros x Hx. apply gives_here. intros. by constructor.
Qed.

Lemma reads_not sp e : writable e -> nesting (WNot sp e) <= n -> reads (WNot sp e).
Proof.
  intros He Hn t rest Ht. cbn [wtokens wlevel CfmlReading.parser_at nesting] in *. unfold cf_parse_not.
  fold (wtokens_at 6 e). fold (nesting_at 6 e) in *.
  eapply (gives_then _ _ (fun o => o = Some tt)); [destruct sp; (apply gives_op; [not_end|by vm_compute])|].
  intros ? ->. cbv beta match. rewrite <-(app_nil_r (wtokens_at 6 e)). eapply gives_bind.
  - apply gives_deeper, (read_not n r Hread); [done..|]. by exists t, rest.
  - intros x Hx. apply gives_here. intros. by constructor.
Qed.

Lemma reads_ternary c a b : writable c -> writable a -> writable b -> reads c ->
  nesting (WTernary c a b) <= n -> reads (WTernary c a b).
Proof.
  intros Hc Ha Hb Rc Hn t rest Ht. cbn [wtokens wlevel CfmlReading.parser_at] in *. unfold parse_ternary.
  fold (wtokens_at 1 c). eapply gives_bind; [cbn [app]; read 1|]. intros x Hx.
  eapply gives_then; [by apply gives_match|]. intros ? ->. cbv beta match.
  eapply gives_stay.
  { destruct (wtokens_begin a) as (u & m & j & -> & Hj & _). cbn [app]. apply gives_no_match; [done|]. by intros ->. }
  intros ? ->. cbv beta match. eapply gives_bind; [cbn [app]; apply gives_expression; [done|bound|bound|done]|].
  intros y Hy. eapply gives_then; [by apply gives_consume|]. intros _ _. rewrite <-(app_nil_r (wtokens b)).
  eapply gives_bind; [cbn [app]; apply gives_expression; [done|bound|bound|cbn in *; lia]|].
  intros z Hz. apply gives_here. intros. by constructor.
Qed.

Lemma reads_elvis x sp y : writable x -> writable y -> reads x -> nesting (WElvis x sp y) <= n ->
  reads (WElvis x sp y).
Proof.
  intros Hx Hy Rx Hn t rest Ht. cbn [wtokens wlevel CfmlReading.parser_at] in *. unfold parse_ternary.
  fold (wtokens_at 1 x). eapply gives_bind; [cbn [app]; destruct sp; read 1|]. intros e He.
  eapply gives_stay; [by destruct sp; apply gives_no_match|]. intros ? ->. cbv beta match.
  eapply (gives_then _ _ (fun o => o = Some tt)); [destruct sp; (apply gives_op; [not_end|by vm_compute])|].
  intros ? ->. cbv beta match. unfold parse_elvis. rewrite <-(app_nil_r (wtokens y)).
  eapply gives_bind; [cbn [app]; apply gives_expression; [done|bound|bound|cbn in *; lia]|].
  intros z Hz. apply gives_here. intros. by constructor.
Qed.

Lemma reads_primary w : writable w -> wlevel w = 17 -> nesting w <= n -> reads w.
Proof.
  intros Hw Hl Hn t rest. rewrite Hl. cbn [chains Nat.eqb]. intros Ht. by apply gives_primary.
Qed.

Lemma written_reads w : writable w -> nesting w <= n -> reads w.
Proof.
  induction w as [| | | | | | |o IHo i IHi|o IHo args _|o IHo k ?|o IHo k ? args _
                 |e IHe op|op e IHe|e IHe|sp e IHe|l IHl o sp r' IHr|c IHc t IHt e IHe|l IHl sp r' IHr];
    intros Hw Hn; try (by apply reads_primary); inversion Hw; subst.
  - apply reads_index; [done..|apply IHo; [done|bound]|done].
  - apply reads_invoke; [done..|apply IHo; [done|bound]|done].
  - apply reads_member; [done..|apply IHo; [done|bound]|done].
  - apply reads_method; [done..|apply IHo; [done|bound]|done].
  - apply reads_postfix; [done..|apply IHe; [done|bound]|done].
  - apply reads_prefix; [done..|apply IHe; [done|bound]|done].
  - by apply reads_minus.
  - by apply reads_not.
  - assert (Hx : reads l /\ reads r') by (split; [apply IHl; [done|bound]|apply IHr; [done|bound]]). destruct Hx.
    destruct (decide (binary_level o = 9)); [by apply reads_contains|]. apply reads_chain; [|done..]. by destruct o.
  - apply reads_ternary; [done..|apply IHc; [done|bound]|done].
  - apply reads_elvis; [done..|apply IHl; [done|bound]|done].
Qed.

Lemma gives_written k w rest : writable w -> k <= 17 -> nesting_at k w <= n -> stops k rest ->
  gives (parser_at r k) (denotes w) (wtokens_at k w) rest (nesting_at k w).
Proof.
  intros Hw Hk Hn (t & m & -> & Ht). apply reads_at; [done|apply written_reads; [done|bound]|done..].
Qed.
End Layer.

(** ** The whole parser *)

Local Notation unroll := (unroll tokens raws parse_block sub_parse).

Definition key_written (key : bool * str) : wexpr := if key.1 then WLit (LString key.2) else WVar key.2.

Lemma key_written_denotes key (e : expr) : denotes (key_written key) e -> key_denotes key e.
Proof. destruct key as [[] k]; inversion 1; by eexists. Qed.

Lemma unroll_reads n : entries_read n (unroll n).
Proof.
  induction n as [|n IH]; [split; intros; lia|].
  assert (Hw : forall k w rest, writable w -> k <= 17 -> nesting_at k w <= n -> stops k rest ->
    gives (parser_at (unroll n) k) (denotes w) (wtokens_at k w) rest (nesting_at k w))
    by (intros; by apply (gives_written (unroll n) n)).
  split; cbn [CfmlParser.unroll layer r_expression r_unary r_not r_ternary].
  - intros w rest Hwr Hn Hr. apply gives_deeper. unfold parse_assignment_expr. rewrite <-(app_nil_r (wtokens w)).
    eapply gives_bind; [apply (Hw 0 w rest); [done|lia|cbn; lia|done]|]. intros e He.
    destruct Hr as (t & m & -> & Ht). apply (gives_test _ false); [|by apply gives_ret].
    intros s Hs. rewrite (ahead_check s t m TkEqual Hs) by done. apply bool_decide_false. intros ->. cbn in Ht. lia.
  - intros w rest Hwr Hn Hr. apply (Hw 14); [done|lia|lia|done].
  - intros w rest Hwr Hn Hr. apply (Hw 6); [done|lia|lia|done].
  - intros key rest Ha _ Hr.
    assert (H : gives (parser_at (unroll n) 0) (denotes (key_written key)) (wtokens_at 0 (key_written key)) rest
                  (nesting_at 0 (key_written key))).
    { apply Hw; [|lia| |done]; destruct key as [[] ?]; [by constructor..|cbn; lia|cbn; lia]. }
    destruct key as [[] ?]; (eapply gives_weaken; [exact H|done|apply key_written_denotes]).
Qed.

(** From any cursor, at any depth that leaves room. *)
Lemma cf_expression_reads n w rest s : writable w -> stops 0 rest -> S (nesting w) <= n ->
  ahead s (wtokens w ++ rest) -> pa_expr_depth s + S (nesting w) <= MAX_EXPR_DEPTH ->
  exists e, r_expression (unroll n) s = (moved (length (wtokens w)) s, Ok e) /\ denotes w e.
Proof. intros Hw Hr Hn Hs Hd. by apply (read_expression n _ (unroll_reads n) w rest). Qed.
End Precedence.

(** ** From the source text *)

Section Source.
Context {U : Unicode} {B : Type} (parse_block : ST pstate cf_parse_error B).
Context (sub_parse : str -> outcome cf_parse_error (option (cf_expr B))).

Definition tokens_of (ws : list (written * gap)) : list cf_token := concat (map (fun e => written_tokens e.1) ws).

Lemma tokens_of_app ws ws' : tokens_of (ws ++ ws') = tokens_of ws ++ tokens_of ws'.
Proof. unfold tokens_of. by rewrite map_app, concat_app. Qed.

(** C5. Precedence and associativity, from text to tree: wherever an expression
    is written in a source, in symbols or words, with parentheses exactly where
    the precedence levels ask for them and any white space and comments between
    its tokens, followed by a token that ends an expression, the parser at its
    first token builds the tree it stands for and stops behind its last. *)
Theorem cf_expression_written (pre body post : list (written * gap)) (w : wexpr) (n : nat) (s : pstate) :
  let src := written_all_str (pre ++ body ++ post) in
  written_all_ok (pre ++ body ++ post) = true ->
  tokens_of body = wtokens w -> writable w -> stops 0 (tokens_of post ++ [TkEof]) ->
  (Z.of_nat (length (tokens_of (pre ++ body ++ post))) < MAX_CHAIN_TERMS)%Z ->
  pa_current s = length (tokens_of pre) -> pa_expr_depth s + S (nesting w) <= MAX_EXPR_DEPTH -> nesting w < n ->
  exists e, r_expression (unroll (source_tokens src) (source_spellings src) parse_block sub_parse n) s
            = (moved (length (wtokens w)) s, Ok e) /\ denotes w e.
Proof.
  intros src Hok Hb Hw Hr Hl Hc Hd Hn.
  assert (Ht : map tl_token (source_tokens src) = tokens_of (pre ++ body ++ post) ++ [TkEof]) by by apply lexed_written.
  apply cf_expression_reads with (rest := tokens_of post ++ [TkEof]); [|done|done|lia| |done].
  - apply (f_equal length) in Ht. rewrite length_map, length_app in Ht. cbn [length] in Ht. lia.
  - unfold ahead. rewrite <-skipn_map, Ht, !tokens_of_app, Hb, Hc, <-!app_assoc. apply drop_app_length.
Qed.
End Source.
