(* ===== verification/CfmlWitnesses.v ===== *)
(** * CfmlWitnesses: the theorems on the CFML front end at concrete sources *)

From Stdlib Require Import Strings.Ascii.
From stdpp Require Import base list numbers strings.
From S2P Require Import Prelude Text Float64 Value QoqLexer Instances CfmlLexer CfmlLexerFacts CfmlRoundtrip CfmlNames.
From S2P Require Import CfmlNamesFacts CfmlAst CfmlParser CfmlParserFacts CfmlExpr CfmlWritten CfmlReading CfmlPrecedence.
Local Open Scope nat_scope.
Local Open Scope st_scope.

(** [x = new app.Public() & "it's #f('a')#" // done], over two lines. *)
Definition sample : str :=
  lit "x = new app.Public() & " ++ [34%N] ++ lit "it's #f('a')#" ++ [34%N; 13; 10]%N ++ lit "y LE 2.5 // done".

Lemma cf_positions_witness :
  (exists spans, in_order spans
    /\ Forall2 (fun t e => tl_location t = SourceLocation (Position (line_at sample e.1) (column_at sample e.1))
                                                         (Position (line_at sample e.2) (column_at sample e.2))
                           /\ e.1 <= e.2 <= length sample /\ spells sample e.1 e.2 (tl_token t))
         (cf_tokenize sample) spans)
  /\ (fun t => (tl_token t, sl_start (tl_location t))) <$> cf_tokenize sample !! 14 = Some (TkLteKeyword, Position 2 3).
Proof.
  split; [|by vm_compute]. apply (cf_positions sample). by vm_compute.
Defined.

Lemma cf_lex_total_witness :
  (exists ts e, cf_tokenize sample = ts ++ [e] /\ tl_token e = TkEof /\ Forall not_end ts)
  /\ scan_all 1000 (cf_lexer_new sample) = scan_all (length sample) (cf_lexer_new sample).
Proof.
  pose proof (cf_lex_total sample) as (_ & H1 & H2 & _). split; [exact H1|].
  apply (H2 1000). apply Nat.leb_le. by vm_compute.
Defined.

(** [if (a <> "#f( 'x' )# ##") /* c */ 1.5e3]: a nested string of the other
    quote, and a hash that is doubled. *)
Definition a_string : written :=
  WInterp 34 [([], EChar 102 (EChar 40 (EChar 32 (EString 39 (BChar 120 BEnd) (EChar 32 (EChar 41 EEnd))))))] (lit " #").
Definition a_source : list (written * gap) :=
  [(WWord (lit "If"), (32%N, [])); (WOp "(" TkLParen, (32%N, [])); (WWord (lit "a"), (9%N, [GLine (lit "x") 10]));
   (WOp "<>" TkBangEqual, (32%N, [GTag (lit " <!--- n ---> ")])); (a_string, (32%N, []));
   (WOp ")" TkRParen, (32%N, [GBlock (lit "* c ")])); (WNumber 49 (lit ".5e3"), (13%N, []))].

Lemma cf_tokenize_written_witness :
  map tl_token (cf_tokenize (written_all_str a_source))
  = concat (map (fun e => written_tokens e.1) a_source) ++ [TkEof].
Proof. apply (cf_tokenize_written a_source). by vm_compute. Defined.

Lemma names_exact_witness :
  extract_dotted_identifier (source_tokens (lit "app.Public.If")) (source_spellings (lit "app.Public.If")) parser_start
  = (PState 5 0 0, Ok (lit "app.Public.If"))
  /\ extract_tag_attr_key (source_tokens (lit "NULL")) (source_spellings (lit "NULL")) parser_start
     = (PState 1 0 0, Ok (lit "null"))
  /\ extract_property_name (source_tokens (lit "NULL")) (source_spellings (lit "NULL")) parser_start
     = (PState 1 0 0, Ok (lit "NULL"))
  /\ exists spans, Forall2 (token_at (lit "a.LE")) (source_tokens (lit "a.LE")) spans
     /\ (forall i d e t sp, source_tokens (lit "a.LE") !! i = Some t -> spans !! i = Some sp ->
           extract_property_name (source_tokens (lit "a.LE")) (source_spellings (lit "a.LE")) (PState i d e)
           = (if is_property_name (tl_token t) then (PState (S i) d e, Ok (slice (lit "a.LE") sp.1 sp.2))
              else (PState i d e, Err (error_at (source_tokens (lit "a.LE"))
                                        (MFound "Expected property name" (tl_token t)) (PState i d e))))
           /\ is_param_word (tl_token t) = is_property_name (tl_token t)).
Proof.
  do 3 (split; [by vm_compute|]).
  destruct (names_exact (lit "a.LE")) as (spans & _ & H1 & H2 & _); [by vm_compute|].
  exists spans. exact (conj H1 H2).
Defined.

(** ** Literals that read as something else *)

(** An exponent without digits, or a second fraction, is read as zero. *)
Lemma number_silently_zero :
  map tl_token (cf_tokenize (lit "5eq 5")) = [TkDouble f64_zero; TkIdentifier (lit "q"); TkInteger 5; TkEof]
  /\ map tl_token (cf_tokenize (lit ".5.5")) = [TkDouble f64_zero; TkEof].
Proof. by vm_compute. Qed.

(** A string that is never closed is a string up to the end of the text. *)
Lemma unclosed_string_accepted :
  map tl_token (cf_tokenize (lit "x = 'abc; y = 1;"))
  = [TkIdentifier (lit "x"); TkEqual; TkString (lit "abc; y = 1;"); TkEof].
Proof. by vm_compute. Qed.

(** A hash that is not closed is an error at its own place, and the text after
    the string is still read. *)
Lemma lone_hash_bounded :
  lexical_error (source_tokens (lit "f('a (GitHub #180)'); g(1);"))
  = Some (CfParseError (MLexical unterminated_in_string) 1 14)
  /\ existsb (fun t => bool_decide (tl_token t = TkIdentifier (lit "g")))
       (source_tokens (lit "f('a (GitHub #180)'); g(1);")) = true.
Proof. by vm_compute. Qed.

(** A grammar of statements with the empty block only, and no interpolations
    that are programs. *)
Definition empty_block (tokens : list token_with_loc) : ST pstate cf_parse_error unit :=
  let! _ := consume tokens TkLBrace in consume tokens TkRBrace.
Definition no_program : str -> outcome cf_parse_error (option (cf_expr unit)) :=
  fun _ => Err (CfParseError (MLexical []) 0 0).

Lemma empty_block_returns tokens s :
  well_ended tokens -> ok tokens s -> runs tokens s (empty_block tokens) s (fun _ s' => after tokens s s').
Proof.
  intros Hw Hs. pose proof (after_refl _ s Hs). unfold empty_block.
  eapply runs_total; [by apply (total_consume tokens Hw (S (budget tokens s)))|done..|lia|]. intros.
  eapply runs_tail; [by apply (total_consume tokens Hw (S (budget tokens s)))|done..| |by intros].
  states. lia.
Qed.

(** [f(a, [1], {k: -x}) & y ? "t" : new a.Public(function(p) {})] *)
Definition expr_source : str :=
  lit "f(a, [1], {k: -x}) & y ? " ++ [34%N] ++ lit "t" ++ [34%N] ++ lit " : new a.Public(function(p) {})".


(** [x = {], at its brace. *)
Lemma open_brace_overflows_witness :
  (r_expression (unroll (source_tokens (lit "x = {")) (source_spellings (lit "x = {"))
     (empty_block (source_tokens (lit "x = {"))) no_program 1000) (PState 2 0 0)).2 = Panic.
Proof.
  apply (open_brace_overflows (lit "x = {") (empty_block (source_tokens (lit "x = {"))) no_program (PState 2 0 0)).
  - apply Nat.ltb_lt. by vm_compute.
  - by vm_compute.
  - by vm_compute.
  - apply Nat.ltb_lt. by vm_compute.
Defined.

(** ** Observations *)

(** The program made of the interpolated text in ["#x={//#"]: the semicolon that
    is appended belongs to the comment, and the text ends behind its brace. *)
Lemma interpolated_brace_overflows :
  existsb (fun t => bool_decide (tl_token t = TkInterpolatedExpr (lit "x={//")))
    (source_tokens ([34%N] ++ lit "#x={//#" ++ [34%N])) = true
  /\ (r_expression (unroll (source_tokens (lit "x={//;")) (source_spellings (lit "x={//;"))
        (empty_block (source_tokens (lit "x={//;"))) no_program 1000) (PState 2 0 0)).2 = Panic.
Proof. split; vm_compute; reflexivity. Qed.

Definition read (n : nat) (source : string) : outcome cf_parse_error (cf_expr unit) :=
  (r_expression (unroll (source_tokens (lit source)) (source_spellings (lit source))
     (empty_block (source_tokens (lit source))) no_program n) parser_start).2.

(** [m.1.10] reads the second key from the decimal [1.1]: it is [m[1][1]]. *)
Lemma decimal_key_truncated :
  match read 10 "m.1.10" with
  | Ok (XArrayAccess (XArrayAccess (XIdentifier _ _) (XLiteral (LInt 1) _) _) (XLiteral (LInt 1) _) _) => True
  | _ => False
  end.
Proof. by vm_compute. Qed.

(** [m.1.0] reads a member without a name, and leaves the number. *)
Lemma decimal_key_dropped :
  match read 10 "m.1.0" with Ok (XMemberAccess (XIdentifier _ _) [] false _) => True | _ => False end.
Proof. by vm_compute. Qed.

(** [new Public()] names the class [public]; [new a.Public()] keeps [Public]. *)
Lemma class_name_lowered :
  match read 10 "new Public()", read 10 "new a.Public()" with
  | Ok (XNew (XIdentifier c _) _ _), Ok (XNew (XIdentifier d _) _ _) => c = lit "public" /\ d = lit "a.Public"
  | _, _ => False
  end.
Proof. by vm_compute. Qed.

(** An empty text, as in [loop condition=""], makes the parser look before its
    first token. *)
Lemma empty_condition_panics n : reparse_expr_string empty_block no_program (S n) [] = Panic.
Proof. by vm_compute. Qed.

Definition spaced (w : written) : written * gap := (w, (32%N, [])).
Definition words (s : string) : written * gap := spaced (WWord (lit s)).
Definition op (s : string) (t : cf_token) : written * gap := spaced (WOp s t).
Definition digit (c : ascii) : written * gap := spaced (WNumber (chr c) []).
Definition commented (w : written) : written * gap := (w, (32%N, [GBlock (lit " c ")])).

(** [a AND not b.f(1, [x], {k: "v"})[i] eq c * (d + 2) ^ 3 ? new p.Q(y) : (o.m)(-z) ?: w++] *)
Definition sample_condition : wexpr :=
  WBinary (WVar (lit "a")) OAnd Word
    (WNot Word
      (WBinary
        (WIndex (WMethod (WVar (lit "b")) AccessDot (lit "f")
                   [WLit (LInt 1); WArray [WVar (lit "x")]; WStruct [((false, lit "k"), WLit (LString (lit "v")))]])
           (WVar (lit "i")))
        OEqual Word
        (WBinary (WVar (lit "c")) OMul Symbol
           (WBinary (WBinary (WVar (lit "d")) OAdd Symbol (WLit (LInt 2))) OPow Symbol (WLit (LInt 3)))))).
Definition sample_expr : wexpr :=
  WTernary sample_condition (WNew (lit "p") [lit "Q"] [WVar (lit "y")])
    (WElvis (WInvoke (WMember (WVar (lit "o")) AccessDot (lit "m")) [WMinus (WVar (lit "z"))]) Symbol
       (WPostfix (WVar (lit "w")) PIncrement)).

Definition sample_body : list (written * gap) :=
  [words "a"; words "AND"; words "not"; words "b"; op "." TkDot; words "f"; op "(" TkLParen; digit "1"; op "," TkComma;
   op "[" TkLBracket; words "x"; op "]" TkRBracket; op "," TkComma; op "{" TkLBrace; words "k"; op ":" TkColon;
   spaced (WString 34 (lit "v")); op "}" TkRBrace; op ")" TkRParen; op "[" TkLBracket; words "i"; op "]" TkRBracket;
   words "eq"; words "c"; commented (WOp "*" TkStar); op "(" TkLParen; words "d"; op "+" TkPlus; digit "2";
   op ")" TkRParen; op "^" TkCaret; digit "3"; op "?" TkQuestion; words "new"; words "p"; op "." TkDot; words "Q";
   op "(" TkLParen; words "y"; op ")" TkRParen; op ":" TkColon; op "(" TkLParen; words "o"; op "." TkDot; words "m";
   op ")" TkRParen; op "(" TkLParen; op "-" TkMinus; words "z"; op ")" TkRParen; op "?:" TkQuestionColon; words "w";
   op "++" TkPlusPlus].

Definition sample_source : list (written * gap) := [words "return"] ++ sample_body ++ [op ";" TkSemicolon].

Lemma sample_writable : writable sample_expr.
Proof. unfold sample_expr, sample_condition. repeat (constructor || done). Qed.

Lemma cf_expression_written_witness :
  exists e, r_expression (unroll (source_tokens (written_all_str sample_source))
                            (source_spellings (written_all_str sample_source))
                            (empty_block (source_tokens (written_all_str sample_source))) no_program 10) (PState 1 0 0)
            = (moved (length (wtokens sample_expr)) (PState 1 0 0), Ok e) /\ denotes sample_expr e.
Proof.
  apply (cf_expression_written (empty_block (source_tokens (written_all_str sample_source))) no_program
           [words "return"] sample_body [op ";" TkSemicolon] sample_expr 10 (PState 1 0 0)).
  - by vm_compute.
  - by vm_compute.
  - apply sample_writable.
  - exists TkSemicolon, [TkEof]. split; [by vm_compute|]. cbn. lia.
  - by vm_compute.
  - by vm_compute.
  - apply Nat.leb_le. by vm_compute.
  - apply Nat.ltb_lt. by vm_compute.
Defined.
