(* ===== verification/Bytecode.v ===== *)
(** * Bytecode: the instructions of the virtual machine and its operand stack
    (cfml-codegen: [compiler.rs], [BytecodeOp]; cfml-vm: [lib.rs], [stack_effect]
    and the loop of [execute_function_body]; [ops/value.rs], [ops/effect.rs],
    [ops/locals.rs])

    A [Name] is its spelling; the operands that the compiler of expressions does
    not produce are kept as they are in the source.  Of the loop, jumps, the stack
    and the handlers of [try] are modelled; what an instruction does to the values
    it takes and to everything else is the operation [exec] of the class [Vm]. *)

From stdpp Require Import base list numbers strings relations.
From S2P Require Import Prelude Text Float64.
Local Open Scope nat_scope.

Inductive code_cmp_op := CmpLt | CmpLte | CmpGt | CmpGte | CmpEq | CmpNeq.

Record scope_path := ScopePath { sp_path : str; sp_parts : list str }.
Record named_method_call := NamedMethodCall { nm_names : list str; nm_write_back : option (list str) }.
Record component_methods := ComponentMethods { cm_holder : str; cm_gids : list N }.

Inductive bytecode_op :=
  (* literals *)
  | BNull | BTrue | BFalse | BInteger (i : Z) | BDouble (d : f64) | BString (s : str)
  (* variables *)
  | BLoadLocal (n : str) | BStoreLocal (n : str) | BArrayAppendLocal (n : str) | BLoadGlobal (n : str)
  | BLoadVariablesKey (n : str) | BStoreVariablesKey (n : str) | BBuildStructStatic (keys : list str)
  | BStoreGlobal (n : str)
  (* stack *)
  | BPop | BDup | BSwap
  (* arithmetic, text and comparison *)
  | BAdd | BSub | BMul | BDiv | BMod | BPow | BIntDiv | BNegate | BConcat
  | BEq | BNeq | BStrictEq | BStrictNeq | BLt | BLte | BGt | BGte | BContains | BDoesNotContain
  | BOr | BNot | BXor | BEqv | BImp
  (* control *)
  | BJump (target : nat) | BJumpIfFalse (target : nat) | BJumpIfTrue (target : nat)
  | BJumpIfLocalCmpConstFalse (n : str) (c : Z) (o : code_cmp_op) (target : nat)
  | BForLoopStep (n : str) (limit : Z) (o : code_cmp_op) (step : Z) (target : nat)
  | BCall (argc : nat) | BReturn
  (* collections *)
  | BBuildArray (n : nat) | BBuildStruct (n : nat) | BGetIndex | BTryGetIndex | BIterLen | BForInPrepare | BForInExit
  | BArgConcatWriteThrough (n : str) | BSetIndex | BGetProperty (n : str) | BTryGetProperty (n : str)
  | BLoadSuper | BLoadStaticHolder (n : str) | BGetStaticProperty (n : str)
  | BLoadLocalProperty (n m : str) | BStoreLocalProperty (n m : str) | BLoadLocalKey (n : str)
  | BTryLoadLocalProperty (n m : str) | BTryLoadLocalKey (n : str) | BLoadArgKey (n : str) | BTryLoadArgKey (n : str)
  | BStoreLocalScopeKey (n : str) | BSetProperty (n : str) | BSetDynamicVar | BSetScopePath (p : scope_path)
  | BUnsetPath (path : str) | BDeleteScopeKey (n : str)
  (* objects and functions *)
  | BNewObject (argc : nat) | BNewObjectNamed (names : list str) (argc : nat)
  | BDefineFunction (global_id : N) | BDefineComponentMethods (c : component_methods)
  | BIncrement (n : str) | BDecrement (n : str) | BAddLocalConst (n : str) (k : Z) | BMulLocalConst (n : str) (k : Z)
  (* exceptions *)
  | BTryStart (target : nat) | BTryEnd | BThrow | BRethrow | BSaveException | BRestoreException
  | BSetLastExceptionFromLocal (n : str) | BCatchMatch (n : str)
  (* calls *)
  | BCallMethod (n : str) (argc : N) (write_back : option (list str))
  | BCallMethodNamed (n : str) (c : named_method_call) (argc : N)
  | BCallComputedMethod (argc : nat) | BCallComputedMethodNamed (names : list str) (argc : nat)
  | BInclude (path : str) | BIncludeDynamic | BCallBuiltin (n : str) (argc : N)
  | BIsNull | BJumpIfNotNull (target : nat) | BJumpIfArgPresent (n : str) (target : nat) (idx : N)
  | BSeedArgumentKey (n : str) | BValidateParamType (idx : nat) | BHalt | BIsDefined (n : str)
  | BConcatArrays | BMergeStructs | BCallSpread | BLineInfo (line col : nat) | BTagLoopBack (target : nat)
  | BAbandonTagPairs (n : nat) | BTryLoadLocal (n : str) | BDeclareLocal (n : str)
  (* slots *)
  | BDeclareSlot (i : N) (n : str) | BLoadSlot (i : N) (n : str) | BTryLoadSlot (i : N) (n : str)
  | BStoreSlot (i : N) (n : str) | BIncrementSlot (i : N) (n : str) | BDecrementSlot (i : N) (n : str)
  | BAddSlotConst (i : N) (n : str) (k : Z) | BMulSlotConst (i : N) (n : str) (k : Z)
  | BJumpIfSlotCmpConstFalse (i : N) (n : str) (c : Z) (o : code_cmp_op) (target : nat)
  | BForSlotStep (i : N) (n : str) (limit : Z) (o : code_cmp_op) (step : Z) (target : nat)
  | BLoadSlotKey (i : N) (n : str) | BTryLoadSlotKey (i : N) (n : str)
  | BLoadSlotProperty (i : N) (n m : str) | BTryLoadSlotProperty (i : N) (n m : str)
  | BStoreSlotProperty (i : N) (n m : str) | BArrayAppendSlot (i : N) (n : str)
  | BTakeLocal (n : str) | BTakeSlot (i : N) (n : str) | BTakeProperty (n : str) | BWriteText (text : str)
  | BForInStep (target : nat) | BApplyParamDefault (n : str) (idx : N)
  | BCallNamed (names : list str) (argc : nat) | BCallRustSuperCtor (argc : nat).

(** The table of the virtual machine: pushes and pops. *)
Definition stack_effect (op : bytecode_op) : nat * nat :=
  match op with
  | BNull | BTrue | BFalse | BInteger _ | BDouble _ | BString _ => (1, 0)
  | BLoadLocal _ | BLoadGlobal _ | BLoadVariablesKey _ | BLoadSuper | BTryLoadLocal _ | BTakeLocal _
  | BLoadSlot _ _ | BTakeSlot _ _ | BTryLoadSlot _ _ => (1, 0)
  | BStoreVariablesKey _ | BStoreLocal _ | BStoreGlobal _ | BStoreSlot _ _ => (0, 1)
  | BArrayAppendLocal _ | BArrayAppendSlot _ _ => (0, 1)
  | BPop => (0, 1)
  | BDup => (1, 0)
  | BSwap => (2, 2)
  | BAdd | BSub | BMul | BDiv | BMod | BPow | BIntDiv | BConcat | BEq | BNeq | BStrictEq | BStrictNeq | BLt | BLte
  | BGt | BGte | BContains | BDoesNotContain | BOr | BXor | BEqv | BImp => (1, 2)
  | BNegate | BNot => (1, 1)
  | BJump _ => (0, 0)
  | BJumpIfFalse _ | BJumpIfTrue _ => (0, 1)
  | BJumpIfLocalCmpConstFalse _ _ _ _ | BJumpIfSlotCmpConstFalse _ _ _ _ _ => (0, 0)
  | BForLoopStep _ _ _ _ _ | BForSlotStep _ _ _ _ _ _ => (0, 0)
  | BReturn => (0, 1)
  | BCall n => (1, n + 1)
  | BCallBuiltin _ n => (1, N.to_nat n)
  | BCallNamed _ n => (1, n + 1)
  | BCallSpread => (1, 3)
  | BBuildArray n => (1, n)
  | BBuildStruct n => (1, n * 2)
  | BBuildStructStatic keys => (1, length keys)
  | BGetIndex | BTryGetIndex => (1, 2)
  | BSetIndex => (0, 3)
  | BGetProperty _ | BTryGetProperty _ | BTakeProperty _ => (1, 1)
  | BLoadStaticHolder _ => (0, 1)
  | BGetStaticProperty _ => (1, 1)
  | BLoadLocalProperty _ _ | BLoadSlotProperty _ _ _ | BTryLoadLocalProperty _ _ | BTryLoadSlotProperty _ _ _ => (1, 0)
  | BLoadLocalKey _ | BLoadSlotKey _ _ | BTryLoadLocalKey _ | BTryLoadSlotKey _ _ => (1, 0)
  | BStoreLocalProperty _ _ | BStoreSlotProperty _ _ _ => (0, 1)
  | BSetProperty _ => (0, 2)
  | BSetDynamicVar => (1, 2)
  | BSetScopePath _ => (0, 1)
  | BUnsetPath _ => (0, 0)
  | BDeleteScopeKey _ => (0, 1)
  | BIterLen | BForInPrepare => (1, 1)
  | BForInExit => (0, 1)
  | BForInStep _ => (1, 2)
  | BArgConcatWriteThrough _ => (0, 1)
  | BWriteText _ => (0, 0)
  | BConcatArrays | BMergeStructs => (1, 2)
  | BNewObject n | BNewObjectNamed _ n => (1, n + 1)
  | BDefineFunction _ => (1, 0)
  | BDefineComponentMethods _ => (0, 0)
  | BIncrement _ | BDecrement _ | BIncrementSlot _ _ | BDecrementSlot _ _ => (1, 0)
  | BAddLocalConst _ _ | BMulLocalConst _ _ | BAddSlotConst _ _ _ | BMulSlotConst _ _ _ => (0, 0)
  | BTryStart _ | BTryEnd | BSaveException | BRestoreException | BSetLastExceptionFromLocal _ => (0, 0)
  | BThrow | BRethrow => (0, 1)
  | BCatchMatch _ => (1, 0)
  | BCallMethod _ n _ | BCallMethodNamed _ _ n => (1, N.to_nat n + 1)
  | BCallComputedMethod n | BCallComputedMethodNamed _ n => (1, n + 2)
  | BCallRustSuperCtor n => (1, n)
  | BInclude _ => (0, 0)
  | BIncludeDynamic => (0, 1)
  | BIsNull | BJumpIfNotNull _ => (1, 1)
  | BJumpIfArgPresent _ _ _ => (0, 0)
  | BSeedArgumentKey _ | BApplyParamDefault _ _ => (1, 0)
  | BLoadArgKey _ | BTryLoadArgKey _ => (1, 0)
  | BStoreLocalScopeKey _ => (0, 1)
  | BValidateParamType _ | BHalt => (0, 0)
  | BIsDefined _ => (1, 0)
  | BDeclareLocal _ | BDeclareSlot _ _ | BLineInfo _ _ => (0, 0)
  | BTagLoopBack _ => (0, 1)
  | BAbandonTagPairs _ => (0, 0)
  end.

(** What the handlers of the machine do with the operand stack, for the
    instructions that neither jump nor rearrange it: how many values they take,
    and whether they leave one. *)
Definition signature (op : bytecode_op) : option (nat * bool) :=
  match op with
  | BNull | BTrue | BFalse | BInteger _ | BDouble _ | BString _ => Some (0, true)
  | BLoadLocal _ | BTryLoadLocal _ | BLoadGlobal _ | BLoadVariablesKey _ | BLoadSuper | BLoadStaticHolder _ => Some (0, true)
  | BLoadLocalProperty _ _ | BTryLoadLocalProperty _ _ | BLoadLocalKey _ | BTryLoadLocalKey _ | BLoadArgKey _
  | BTryLoadArgKey _ | BIsDefined _ | BDefineFunction _ => Some (0, true)
  | BAdd | BSub | BMul | BDiv | BMod | BPow | BIntDiv | BConcat | BEq | BNeq | BStrictEq | BStrictNeq | BLt | BLte
  | BGt | BGte | BContains | BDoesNotContain | BXor | BEqv | BImp => Some (2, true)
  | BNegate | BNot | BIsNull | BGetProperty _ | BTryGetProperty _ | BGetStaticProperty _ => Some (1, true)
  | BGetIndex | BTryGetIndex | BSetProperty _ | BSetDynamicVar | BConcatArrays | BMergeStructs | BCallSpread => Some (2, true)
  | BSetIndex => Some (3, true)
  | BStoreLocal _ | BStoreVariablesKey _ | BStoreLocalProperty _ _ | BStoreLocalScopeKey _ | BSetScopePath _ => Some (1, false)
  | BDeclareLocal _ | BUnsetPath _ => Some (0, false)
  | BBuildArray n | BCallRustSuperCtor n => Some (n, true)
  | BBuildStruct n => Some (n * 2, true)
  | BBuildStructStatic keys => Some (length keys, true)
  | BCall n | BCallNamed _ n | BNewObject n | BNewObjectNamed _ n => Some (S n, true)
  | BCallMethod _ n _ | BCallMethodNamed _ _ n => Some (S (N.to_nat n), true)
  | BCallComputedMethod n | BCallComputedMethodNamed _ n => Some (S (S n), true)
  | BCallBuiltin _ n => Some (N.to_nat n, true)
  | _ => None
  end.

(** ** The table against the handlers *)

(** The rows of [stack_effect] that do not say what the handlers do. *)
Definition misfiled (op : bytecode_op) : bool :=
  match op with
  | BSetIndex | BSetProperty _ | BLoadStaticHolder _ | BCallSpread => true
  | _ => false
  end.

(** Of the instructions that expressions compile to, apart from jumps and
    shuffles, the table of stack effects, which the machine walks backwards to
    find where the arguments of a call came from, gives the handlers' effect
    except for [SetIndex], [SetProperty], [LoadStaticHolder] and [CallSpread]. *)
Lemma stack_effect_agrees op n b : signature op = Some (n, b) ->
  (stack_effect op = (Nat.b2n b, n) <-> misfiled op = false).
Proof.
  intros Hs. destruct op; try discriminate Hs; injection Hs as <- <-; cbn; split; try done; intros _; f_equal; lia.
Qed.

(** An exception that handlers of the frame get, or one that they do not:
    control-flow errors, cancellation, a pending exit, and the errors that a
    handler of the machine returns with a bare [?]. *)
Inductive stop (V : Type) := Raise (x : V) | Abort.
Arguments Raise {V}. Arguments Abort {V}.

Class Vm := {
  vm_value : Type;
  world : Type;
  output_mark : Type;
  exec : bytecode_op -> list vm_value -> ST world (stop vm_value) vm_value;
  to_condition : vm_value -> ST world (stop vm_value) bool;
  is_null : vm_value -> bool;
  (* the depths of the output buffers and tag stacks, restored by a handler *)
  capture_state : world -> output_mark;
  restore_capture_state : output_mark -> world -> world;
  set_last_exception : vm_value -> world -> world;
  (* [op_true], [op_false] push booleans, which are their own condition *)
  vm_bool : bool -> vm_value;
  exec_bool : forall (b : bool) w, exec (if b then BTrue else BFalse) [] w = (w, Ok (vm_bool b));
  condition_bool : forall b w, to_condition (vm_bool b) w = (w, Ok b);
}.

Section Machine.
Context {V : Vm}.

Record try_handler := TryHandler { th_catch_ip : nat; th_stack_depth : nat; th_mark : output_mark }.

(** The top of the stack comes first.  [Stuck]: an instruction finds fewer
    values than it takes, or is one that expressions do not compile to. *)
Inductive machine :=
  | Running (ip : nat) (stack : list vm_value) (try_stack : list try_handler) (w : world)
  | Failed (x : vm_value) (w : world)
  | Aborted (w : world)
  | Panicked (w : world)
  | Stuck.

(** An exception goes to the innermost handler of the frame. *)
Definition catch_op_error (x : vm_value) (stack : list vm_value) (hs : list try_handler) (w : world) : machine :=
  match hs with
  | [] => Failed x w
  | h :: hs =>
      Running (th_catch_ip h) (x :: drop (length stack - th_stack_depth h) stack) hs
        (set_last_exception x (restore_capture_state (th_mark h) w))
  end.

(** Where an operation of the machine leads. *)
Definition proceed {A} (r : world * outcome (stop vm_value) A) (stack : list vm_value) (hs : list try_handler)
    (k : A -> world -> machine) : machine :=
  match r with
  | (w, Ok a) => k a w
  | (w, Err (Raise x)) => catch_op_error x stack hs w
  | (w, Err Abort) => Aborted w
  | (w, Panic) => Panicked w
  end.

Definition step_op (op : bytecode_op) (ip : nat) (stack : list vm_value) (hs : list try_handler) (w : world) : machine :=
  match op with
  | BPop => Running ip (drop 1 stack) hs w
  | BDup => Running ip (take 1 stack ++ stack) hs w
  | BSwap => Running ip (match stack with a :: b :: s => b :: a :: s | s => s end) hs w
  | BJump target => Running target stack hs w
  | BJumpIfFalse target | BJumpIfTrue target =>
      match stack with
      | [] => Running ip stack hs w
      | v :: stack =>
          proceed (to_condition v w) stack hs (fun truth w =>
            Running (if eqb truth (match op with BJumpIfTrue _ => true | _ => false end) then target else ip) stack hs w)
      end
  | BJumpIfNotNull target =>
      Running (match stack with v :: _ => if is_null v then ip else target | [] => ip end) stack hs w
  | BTryStart target => Running ip stack (TryHandler target (length stack) (capture_state w) :: hs) w
  | BTryEnd => Running ip stack (drop 1 hs) w
  | _ =>
      match signature op with
      | Some (n, leaves) =>
          if length stack <? n then Stuck
          else proceed (exec op (rev (take n stack)) w) (drop n stack) hs (fun v w =>
                 Running ip (if leaves : bool then v :: drop n stack else drop n stack) hs w)
      | None => Stuck
      end
  end.

Definition step (code : list bytecode_op) (s : machine) : option machine :=
  match s with
  | Running ip stack hs w => (fun op => step_op op (S ip) stack hs w) <$> code !! ip
  | _ => None
  end.

Definition steps (code : list bytecode_op) : machine -> machine -> Prop := rtc (fun s s' => step code s = Some s').

(** The same, as a function. *)
Fixpoint run (fuel : nat) (code : list bytecode_op) (s : machine) : machine :=
  match fuel with
  | O => s
  | S fuel => match step code s with Some s' => run fuel code s' | None => s end
  end.
End Machine.
