(* ===== verification/Codegen.v ===== *)
(** * Codegen: the compiler of expressions (cfml-codegen: [compiler.rs])

    [compile_expression] with all it calls.  Instructions are appended to a
    buffer and jumps patched in place, as in the source.  The compilation of the
    body of a closure or arrow function, which compiles statements, and the
    registry of built-in functions are variables of the section.  The fuel of
    [compile_expression] bounds the depth of its recursion. *)

From Stdlib Require Import Strings.Ascii.
From stdpp Require Import base list numbers strings.
From S2P Require Import Prelude Text Float64 Value QoqLexer CfmlLexer CfmlAst CfmlParser Bytecode.
Local Open Scope nat_scope.
Local Open Scope st_scope.

Definition lower_in (names : list string) (s : str) : bool := existsb (fun n => bool_decide (s = lit n)) names.
Definition dotted (a b : str) : str := a ++ lit "." ++ b.
Definition new_scope_path (path : str) : scope_path := ScopePath path (split_dots path).

(** [len as u32], [len as u8] *)
Definition as_u32 (n : nat) : N := (N.of_nat n `mod` 4294967296)%N.
Definition as_u8 (n : nat) : N := (N.of_nat n `mod` 256)%N.

(** The names that are scopes: the list at the top of the file, and the narrower
    one of the compiler. *)
Definition is_reserved_scope_name (name : str) : bool :=
  lower_in ["variables"; "local"; "arguments"; "this"; "super"; "request"; "application"; "server"; "session"; "cgi";
            "url"; "form"; "cookie"; "client"; "thread"; "cfthread"; "attributes"; "caller"; "flash"; "thistag"; "static"]%string
    (map ascii_lower name).

Section Codegen.
Context {U : Unicode} {B P : Type}.
Abbreviation expr := (cf_expr B).

(** The fields of the compiler that expressions read or write. *)
Record compiler := Compiler {
  cc_local_scope_depth : nat;
  cc_in_component_method : bool;
  cc_in_component_body : bool;
  cc_need_assign_value : bool;
  cc_program : P;
}.
Record gen := Gen { gn_compiler : compiler; gn_instructions : list bytecode_op }.
Abbreviation emission := (ST gen Empty_set).

Context (compile_function : expr -> compiler -> compiler * N).
Context (is_direct_builtin : str -> bool).

Definition self_is_reserved_scope_name (name : str) : bool :=
  lower_in ["local"; "variables"; "arguments"; "this"; "super"; "request"; "application"; "session"; "server"; "cgi";
            "url"; "form"; "cookie"; "client"; "thread"; "static"]%string (to_lowercase name).
Definition is_autoviv_scope_root (name : str) : bool :=
  lower_in ["local"; "variables"; "request"; "application"; "session"; "server"; "cgi"; "url"; "form"; "cookie";
            "client"; "static"]%string (to_lowercase name).

(** ** The buffer *)

Definition push (op : bytecode_op) : emission unit :=
  fun g => (Gen (gn_compiler g) (gn_instructions g ++ [op]), Ok tt).
Definition next_index : emission nat := fun g => (g, Ok (length (gn_instructions g))).
Definition patch (i : nat) (op : bytecode_op) : emission unit :=
  fun g => if i <? length (gn_instructions g) then (Gen (gn_compiler g) (<[i := op]> (gn_instructions g)), Ok tt)
           else (g, Panic).
(** [instructions[i] = op(instructions.len())] *)
Definition patch_here (i : nat) (op : nat -> bytecode_op) : emission unit := let! l := next_index in patch i (op l).
Definition asks {A} (f : compiler -> A) : emission A := fun g => (g, Ok (f (gn_compiler g))).
Definition set_need (b : bool) : emission unit :=
  fun g => let c := gn_compiler g in
    (Gen (Compiler (cc_local_scope_depth c) (cc_in_component_method c) (cc_in_component_body c) b (cc_program c))
       (gn_instructions g), Ok tt).
Definition local_is_scope (c : compiler) : bool := 0 <? cc_local_scope_depth c.
Definition on_plain_page (c : compiler) : bool :=
  negb (local_is_scope c) && negb (cc_in_component_body c) && negb (cc_in_component_method c).

Definition each {A} (f : A -> emission unit) : list A -> emission unit :=
  fix each l := match l with [] => st_ret tt | x :: l => let! _ := f x in each l end.
Definition pushes (ops : list bytecode_op) : emission unit := each push ops.

(** ** Shapes of expressions *)

Definition is_named (e : expr) : bool := match e with XNamedArgument _ _ _ => true | _ => false end.
Definition is_spread (e : expr) : bool := match e with XSpread _ => true | _ => false end.
Definition is_assign (e : expr) : bool := match e with XBinaryOp _ OAssign _ _ => true | _ => false end.
Definition is_string_literal (e : expr) : bool := match e with XLiteral (LString _) _ => true | _ => false end.
Definition is_path_literal (e : expr) : bool :=
  match e with XLiteral (LString _) _ | XStringInterpolation _ _ => true | _ => false end.
(** The value of an argument, and the name it is passed under. *)
Definition arg_value (e : expr) : expr := match e with XNamedArgument _ v _ => v | _ => e end.
Definition arg_name (e : expr) : str := match e with XNamedArgument n _ _ => n | _ => [] end.

Fixpoint flatten_member_access (e : expr) : option str :=
  match e with
  | XIdentifier name _ => Some name
  | XMemberAccess o m _ _ => (fun base => dotted base m) <$> flatten_member_access o
  | _ => None
  end.

Definition transformative : list string :=
  ["filter"; "map"; "slice"; "reduce"; "tolist"; "toarray"; "tojson"; "serializejson"; "merge"; "splice"; "indexexists";
   "keyarray"; "keylist"; "valuearray"; "copy"; "find"; "findnocase"]%string.

Fixpoint method_call_write_back (e : expr) : option (list str) :=
  match e with
  | XIdentifier name _ => Some [name]
  | XThis _ | XSuper _ => Some [lit "this"]
  | XMemberAccess o m _ _ => (fun path => path ++ [m]) <$> method_call_write_back o
  | XMethodCall o m _ _ _ => if lower_in transformative (to_lowercase m) then None else method_call_write_back o
  | _ => None
  end.

Fixpoint static_class_name (e : expr) : option str :=
  match e with
  | XIdentifier name _ => Some name
  | XMemberAccess o m false _ => (fun base => dotted base m) <$> static_class_name o
  | _ => None
  end.

Fixpoint flatten_struct_key_path (e : expr) : option (list str) :=
  match e with
  | XIdentifier name _ => Some [name]
  | XMemberAccess o m false _ => (fun base => base ++ [m]) <$> flatten_struct_key_path o
  | XLiteral (LString s) _ => Some [s]
  | _ => None
  end.

Fixpoint flatten_scope_path (e : expr) : option str :=
  match e with
  | XIdentifier name _ => if is_autoviv_scope_root name then Some name else None
  | XThis _ => Some (lit "this")
  | XMemberAccess o m false _ => (fun base => dotted base m) <$> flatten_scope_path o
  | _ => None
  end.

Definition scope_rooted_nested_path (o : expr) (member : str) : option str :=
  match o with
  | XMemberAccess _ _ _ _ => (fun base => dotted base member) <$> flatten_scope_path o
  | _ => None
  end.

Fixpoint flatten_any (e : expr) : option str :=
  match e with
  | XIdentifier name _ => Some name
  | XMemberAccess o m false _ => (fun base => dotted base m) <$> flatten_any o
  | _ => None
  end.

Definition bare_rooted_nested_path (o : expr) (member : str) : option str :=
  match o with
  | XMemberAccess _ _ _ _ => (fun base => dotted base member) <$> flatten_any o
  | _ => None
  end.

Definition expr_assign_unset_path (left : expr) : option str :=
  match left with
  | XIdentifier name _ => Some name
  | XMemberAccess o m _ _ =>
      match scope_rooted_nested_path o m, o with
      | Some _, _ => None
      | None, XIdentifier name _ => if self_is_reserved_scope_name name then Some (dotted name m) else None
      | None, _ => None
      end
  | _ => None
  end.

Definition expr_may_be_null (e : expr) : bool :=
  match e with
  | XLiteral LNull _ => true
  | XLiteral _ _ | XArray _ _ | XStruct _ _ _ | XClosure _ _ _ _ | XArrowFunction _ _ _ | XNew _ _ _
  | XStringInterpolation _ _ | XUnaryOp _ _ _ | XBinaryOp _ _ _ _ | XPostfixOp _ _ _ | XIdentifier _ _ => false
  | _ => true
  end.

Fixpoint elvis_left_is_infallible (e : expr) : bool :=
  match e with
  | XIdentifier _ _ | XLiteral _ _ => true
  | XMemberAccess o _ _ _ => elvis_left_is_infallible o
  | XArrayAccess a i _ => elvis_left_is_infallible a && elvis_left_is_infallible i
  | _ => false
  end.

(** [a], [local.x], [arguments.rc.y] as text *)
Definition path_start (c : char) : bool := is_ascii_alpha c || ch_is "_" c || ch_is "$" c.
Definition path_char (c : char) : bool := path_start c || is_ascii_digit c.
Definition is_path_ident (p : str) : bool := match p with [] => false | c :: p => path_start c && forallb path_char p end.

Definition plain_variable_path_expr (text : str) (loc : source_location) : option expr :=
  match split_dots (trim text) with
  | [] => None
  | first :: parts =>
      if negb (is_path_ident first)
         || existsb (fun w => eq_ignore_ascii_case first (lit w)) ["true"; "false"; "null"; "yes"; "no"]%string
      then None
      else if forallb is_path_ident parts
      then Some (foldl (fun e part => XMemberAccess e part false loc) (XIdentifier first loc) parts)
      else None
  end.

(** ** Struct literals with dotted keys *)

Inductive node_key := StaticKey (s : str) | ComputedKey (e : expr).
Inductive struct_key_node := Leaf (e : expr) | Branch (children : list (node_key * struct_key_node)).

Definition is_static_key (k : node_key) : bool := match k with StaticKey _ => true | ComputedKey _ => false end.
Definition key_is (head : str) (p : node_key * struct_key_node) : bool :=
  match p.1 with StaticKey s => eq_ignore_ascii_case s head | ComputedKey _ => false end.

(** The node at the first child with the key is replaced, or one is added. *)
Definition set_child (head : str) (node : option struct_key_node -> struct_key_node)
    (children : list (node_key * struct_key_node)) : list (node_key * struct_key_node) :=
  match position (key_is head) children with
  | Some pos => alter (fun p => (p.1, node (Some p.2))) pos children
  | None => children ++ [(StaticKey head, node None)]
  end.

Fixpoint insert_struct_path (segs : list str) (value : expr) (children : list (node_key * struct_key_node))
    : list (node_key * struct_key_node) :=
  match segs with
  | [] => children
  | [head] => set_child head (fun _ => Leaf value) children
  | head :: rest =>
      set_child head (fun old =>
        Branch (insert_struct_path rest value (match old with Some (Branch c) => c | _ => [] end))) children
  end.

Definition insert_struct_pair (root : list (node_key * struct_key_node)) (p : expr * expr)
    : list (node_key * struct_key_node) :=
  match flatten_struct_key_path p.1 with
  | Some segs => insert_struct_path segs p.2 root
  | None => root ++ [(ComputedKey p.1, Leaf p.2)]
  end.

Definition static_name (k : expr) : option str :=
  match k with XIdentifier name _ => Some name | XLiteral (LString s) _ => Some s | _ => None end.

Definition key_name (k : node_key) : str := match k with StaticKey s => s | ComputedKey _ => [] end.

(** The opcode of an operator; [and] and [or] have none. *)
Definition binary_opcode (o : cf_binary_op) : option bytecode_op :=
  match o with
  | OAdd => Some BAdd | OSub => Some BSub | OMul => Some BMul | ODiv => Some BDiv | OMod => Some BMod
  | OPow => Some BPow | OIntDiv => Some BIntDiv | OConcat => Some BConcat
  | OEqual => Some BEq | ONotEqual => Some BNeq | OStrictEqual => Some BStrictEq | OStrictNotEqual => Some BStrictNeq
  | OLess => Some BLt | OLessEqual => Some BLte | OGreater => Some BGt | OGreaterEqual => Some BGte
  | OAnd | OOr => None
  | OXor => Some BXor | OContains => Some BContains | ODoesNotContain => Some BDoesNotContain
  | OEqv => Some BEqv | OImp => Some BImp | OAssign => Some BNull
  end.

Definition literal_op (v : literal_value) : bytecode_op :=
  match v with
  | LNull => BNull | LBool true => BTrue | LBool false => BFalse
  | LInt i => BInteger i | LDouble d => BDouble d | LString s => BString s
  end.

Definition is_short_circuit (o : cf_binary_op) : bool := match o with OAnd | OOr => true | _ => false end.
Definition is_plain_binary (o : cf_binary_op) : bool := match o with OAssign | OAnd | OOr => false | _ => true end.

(** The left spine of the operators that satisfy [p]: the leftmost operand, and
    operators with their right operands from the bottom up. *)
Fixpoint left_spine (p : cf_binary_op -> bool) (e : expr) : expr * list (cf_binary_op * expr) :=
  match e with
  | XBinaryOp l o r _ => if p o then let s := left_spine p l in (s.1, s.2 ++ [(o, r)]) else (e, [])
  | _ => (e, [])
  end.

(** ** Compilation *)

Section Compile.
Context (rec : expr -> emission unit).

(** A base that may not exist yet. *)
Fixpoint compile_index_assign_base (base : expr) : emission unit :=
  match base with
  | XIdentifier name _ => if self_is_reserved_scope_name name then rec base else push (BTryLoadLocal name)
  | XThis _ =>
      let! page := asks on_plain_page in
      if page : bool then push (BTryLoadLocal (lit "this")) else rec base
  | XArrayAccess a i _ =>
      let! _ := compile_index_assign_base a in
      let! _ := rec i in
      push BTryGetIndex
  | XMemberAccess o m _ _ =>
      let! _ := compile_index_assign_base o in
      push (BTryGetProperty m)
  | _ => rec base
  end.

(** The fused reads of a member of a named variable or scope, if one applies. *)
Definition fused_read (tolerant : bool) (o : expr) (m : str) : option bytecode_op :=
  match o with
  | XIdentifier name _ =>
      if eq_ignore_ascii_case name (lit "local") then Some (if tolerant then BTryLoadLocalKey m else BLoadLocalKey m)
      else if eq_ignore_ascii_case name (lit "arguments") then Some (if tolerant then BTryLoadArgKey m else BLoadArgKey m)
      else if is_reserved_scope_name name then None
      else Some (if tolerant then BTryLoadLocalProperty name m else BLoadLocalProperty name m)
  | _ => None
  end.

Fixpoint compile_member_read_tolerant (e : expr) : emission unit :=
  match e with
  | XIdentifier name _ => if self_is_reserved_scope_name name then rec e else push (BTryLoadLocal name)
  | XMemberAccess o m false _ =>
      match fused_read true o m with
      | Some op => push op
      | None => let! _ := compile_member_read_tolerant o in push (BTryGetProperty m)
      end
  | XArrayAccess a i _ =>
      let! _ := compile_member_read_tolerant a in
      let! _ := rec i in
      push BTryGetIndex
  | _ => rec e
  end.

(** The left of [?.] and of [?:]. *)
Definition compile_null_tolerant (e : expr) : emission unit :=
  match e with
  | XIdentifier name _ => push (BTryLoadLocal name)
  | XMemberAccess _ _ _ _ | XArrayAccess _ _ _ => compile_member_read_tolerant e
  | _ => rec e
  end.

Definition is_ident_named (e : expr) (name : string) : bool :=
  match e with XIdentifier n _ => eq_ignore_ascii_case n (lit name) | _ => false end.

Fixpoint emit_load_for_writeback (e : expr) : emission unit :=
  match e with
  | XIdentifier name _ => push (if self_is_reserved_scope_name name then BLoadLocal name else BTryLoadLocal name)
  | XThis _ => push (BLoadLocal (lit "this"))
  | XMemberAccess o m _ _ =>
      if is_ident_named o "local" then push (BTryLoadLocalKey m)
      else let! _ := emit_load_for_writeback o in push (BTryGetProperty m)
  | XArrayAccess a i _ =>
      let! _ := emit_load_for_writeback a in
      let! _ := rec i in
      push BTryGetIndex
  | _ => push BNull
  end.

(** The store of [local.x]: of the frame inside a function, else decided at run time. *)
Definition store_local_key (m : str) : emission unit :=
  let! scope := asks local_is_scope in
  if scope : bool then let! _ := push (BDeclareLocal m) in push (BStoreLocal m)
  else push (BStoreLocalScopeKey m).

Fixpoint emit_nested_writeback (o : expr) : emission unit :=
  match o with
  | XIdentifier name _ => push (BStoreLocal name)
  | XThis _ => push (BStoreLocal (lit "this"))
  | XMemberAccess p m null_safe _ =>
      if is_ident_named p "local" then store_local_key m
      else if is_ident_named p "variables" && negb null_safe then push (BStoreVariablesKey m)
      else
        let! _ := emit_load_for_writeback p in
        let! _ := push BSwap in
        let! _ := push (BSetProperty m) in
        emit_nested_writeback p
  | XArrayAccess a i _ =>
      let! _ := emit_load_for_writeback a in
      let! _ := rec i in
      let! _ := push BSetIndex in
      emit_nested_writeback a
  | _ => push BPop
  end.

(** A key and then its value, of a nested struct literal. *)
Fixpoint emit_struct_node (node : struct_key_node) : emission unit :=
  match node with
  | Leaf value => rec value
  | Branch children =>
      let all_static := forallb (fun p => is_static_key p.1) children in
      let! _ := each (fun p =>
        let! _ := if all_static then st_ret tt
                  else match p.1 with StaticKey s => push (BString s) | ComputedKey e => rec e end in
        emit_struct_node p.2) children in
      push (if all_static then BBuildStructStatic (map (fun p => key_name p.1) children)
            else BBuildStruct (length children))
  end.

Definition compile_new_args (args : list expr) : emission unit :=
  if existsb is_named args then
    let! _ := each (fun a => rec (arg_value a)) args in
    push (BNewObjectNamed (map arg_name args) (length args))
  else
    let! _ := each rec args in push (BNewObject (length args)).

(** ** Assignments *)

(** The guard of a store: [Null] deletes the target instead.  Gives the jump to
    be patched behind the store. *)
Definition null_guard (left right : expr) : emission (option nat) :=
  match (if expr_may_be_null right then expr_assign_unset_path left else None) with
  | None => st_ret None
  | Some path =>
      let! guard_idx := next_index in
      let! _ := push (BJumpIfNotNull 0) in
      let! _ := push BPop in
      let! _ := push (BUnsetPath path) in
      let! end_idx := next_index in
      let! _ := push (BJump 0) in
      let! _ := patch_here guard_idx BJumpIfNotNull in
      st_ret (Some end_idx)
  end.

Definition dup_if (b : bool) : emission unit := if b then push BDup else st_ret tt.

(** The store of a member of a named variable or scope. *)
Definition store_ident_member (want_value : bool) (o : expr) (name member : str) (null_safe : bool) : emission unit :=
  if negb (is_reserved_scope_name name) then
    let! _ := dup_if want_value in push (BStoreLocalProperty name member)
  else if eq_ignore_ascii_case name (lit "local") then
    let! _ := dup_if want_value in store_local_key member
  else
    let! scope := asks local_is_scope in
    if eq_ignore_ascii_case name (lit "variables") && scope then push (BSetScopePath (new_scope_path (dotted name member)))
    else if eq_ignore_ascii_case name (lit "variables") && negb null_safe then push (BStoreVariablesKey member)
    else
      let! _ := rec o in
      let! _ := push BSwap in
      let! _ := push (BSetProperty member) in
      emit_nested_writeback o.

Definition store_member (want_value : bool) (o : expr) (member : str) (null_safe : bool) : emission unit :=
  match scope_rooted_nested_path o member, bare_rooted_nested_path o member with
  | Some path, _ | None, Some path =>
      let! _ := push BDup in push (BSetScopePath (new_scope_path path))
  | None, None =>
      match o with
      | XIdentifier name _ =>
          if want_value && is_reserved_scope_name name then
            let! _ := push (BString (dotted name member)) in
            let! _ := push BSwap in
            push BSetDynamicVar
          else store_ident_member want_value o name member null_safe
      | _ =>
          let! _ := dup_if want_value in
          let! _ := compile_index_assign_base o in
          let! _ := push BSwap in
          let! _ := push (BSetProperty member) in
          emit_nested_writeback o
      end
  end.

Definition compile_store (want_value : bool) (left : expr) : emission unit :=
  match left with
  | XIdentifier name _ => let! _ := dup_if want_value in push (BStoreLocal name)
  | XMemberAccess o member null_safe _ => store_member want_value o member null_safe
  | XArrayAccess a i _ =>
      let! _ := dup_if want_value in
      let! _ := compile_index_assign_base a in
      let! _ := rec i in
      let! _ := push BSetIndex in
      emit_nested_writeback a
  | _ => st_ret tt
  end.

Definition compile_assignment (left right : expr) : emission unit :=
  let! want_value := asks cc_need_assign_value in
  let! _ := set_need false in
  if is_path_literal left then
    let! _ := rec left in
    let! _ := rec right in
    push BSetDynamicVar
  else
    let! _ := set_need (is_assign right) in
    let! _ := rec right in
    let! _ := set_need false in
    let! unset_end_jump := null_guard left right in
    let! _ := compile_store want_value left in
    match unset_end_jump with
    | Some idx => patch_here idx BJump
    | None => st_ret tt
    end.

(** ** Operators *)

(** Every operand is followed by one jump to a shared landing. *)
Definition short_jump (on_true : bool) (target : nat) : bytecode_op :=
  if on_true then BJumpIfTrue target else BJumpIfFalse target.
Definition truth_op (b : bool) : bytecode_op := if b then BTrue else BFalse.

Fixpoint emit_operands (on_true : bool) (operands : list expr) : emission (list nat) :=
  match operands with
  | [] => st_ret []
  | x :: operands =>
      let! _ := rec x in
      let! idx := next_index in
      let! _ := push (short_jump on_true 0) in
      let! idxs := emit_operands on_true operands in
      st_ret (idx :: idxs)
  end.

Definition compile_operands (on_true : bool) (operands : list expr) : emission unit :=
  let! short_jumps := emit_operands on_true operands in
  let! _ := push (truth_op (negb on_true)) in
  let! done_jump_idx := next_index in
  let! _ := push (BJump 0) in
  let! short_target := next_index in
  let! _ := push (truth_op on_true) in
  let! end_target := next_index in
  let! _ := each (fun idx => patch idx (short_jump on_true short_target)) short_jumps in
  patch done_jump_idx (BJump end_target).

Definition compile_short_circuit (o : cf_binary_op) (e : expr) : emission unit :=
  let spine := left_spine (fun o' => bool_decide (o' = o)) e in
  compile_operands (bool_decide (o = OOr)) (spine.1 :: map snd spine.2).

Definition compile_chain (e : expr) : emission unit :=
  let spine := left_spine is_plain_binary e in
  let! _ := rec spine.1 in
  each (fun n => let! _ := rec n.2 in
                 match binary_opcode n.1 with Some op => push op | None => st_panic end) spine.2.

Definition compile_unary (o : cf_unary_op) (operand : expr) : emission unit :=
  match o with
  | UMinus => let! _ := rec operand in push BNegate
  | UNot => let! _ := rec operand in push BNot
  | UPrefixIncrement | UPrefixDecrement =>
      let delta := match o with UPrefixIncrement => 1%Z | _ => (-1)%Z end in
      match operand with
      | XIdentifier name _ => pushes [BLoadLocal name; BInteger delta; BAdd; BDup; BStoreLocal name]
      | XMemberAccess _ _ _ _ | XArrayAccess _ _ _ =>
          let! _ := rec operand in
          let! _ := pushes [BInteger delta; BAdd; BDup] in
          emit_nested_writeback operand
      | _ => let! _ := rec operand in pushes [BInteger delta; BAdd]
      end
  end.

Definition compile_postfix (operand : expr) (o : cf_postfix_op) : emission unit :=
  match operand with
  | XIdentifier name _ =>
      pushes [BLoadLocal name; BDup; BInteger 1; match o with PIncrement => BAdd | PDecrement => BSub end; BStoreLocal name]
  | XMemberAccess _ _ _ _ | XArrayAccess _ _ _ =>
      let! _ := rec operand in
      let! _ := pushes [BDup; BInteger (match o with PIncrement => 1 | PDecrement => -1 end); BAdd] in
      emit_nested_writeback operand
  | _ => st_ret tt
  end.

(** ** Members *)

Definition compile_static_holder (class : expr) : emission unit :=
  match static_class_name class with Some name => push (BLoadStaticHolder name) | None => rec class end.

Definition compile_static_call (class : expr) (method : str) (args : list expr) : emission unit :=
  let! _ := compile_static_holder class in
  let! _ := each (fun a => rec (arg_value a)) args in
  push (if existsb is_named args
        then BCallMethodNamed method (NamedMethodCall (map arg_name args) None) (as_u32 (length args))
        else BCallMethod method (as_u32 (length args)) None).

(** What follows a receiver that is not [Null]. *)
Definition unless_null (body : emission unit) : emission unit :=
  let! jump_idx := next_index in
  let! _ := push (BJumpIfNotNull 0) in
  let! jump_end := next_index in
  let! _ := push (BJump 0) in
  let! _ := patch_here jump_idx BJumpIfNotNull in
  let! _ := body in
  patch_here jump_end BJump.

Definition compile_member (o : expr) (m : str) (null_safe : bool) : emission unit :=
  if null_safe then
    let! _ := compile_null_tolerant o in
    unless_null (push (BTryGetProperty m))
  else if is_ident_named o "variables" then push (BLoadVariablesKey m)
  else
    match fused_read false o m with
    | Some op => push op
    | None => let! _ := rec o in push (BGetProperty m)
    end.

Definition compile_method_call (o : expr) (method : str) (args : list expr) (null_safe : bool) : emission unit :=
  let write_back := method_call_write_back o in
  let call := let! _ := each (fun a => rec (arg_value a)) args in
              push (if existsb is_named args
                    then BCallMethodNamed method (NamedMethodCall (map arg_name args) write_back) (as_u32 (length args))
                    else BCallMethod method (as_u32 (length args)) write_back) in
  if null_safe then
    let! _ := match o with XIdentifier name _ => push (BTryLoadLocal name) | _ => rec o end in
    unless_null call
  else let! _ := rec o in call.

(** ** Calls *)

(** A function that is called by its name. *)
Definition compile_callee (name : expr) : emission unit :=
  match name with XIdentifier n _ => push (BLoadGlobal n) | _ => rec name end.

(** Elements appended to the array on the stack. *)
Definition compile_spread_elements (elements : list expr) : emission unit :=
  each (fun a => match a with
                 | XSpread inner => let! _ := rec inner in push BConcatArrays
                 | _ => let! _ := rec a in pushes [BBuildArray 1; BConcatArrays]
                 end) elements.

(** The calls that are lowered by the name of the function. *)
Definition special_call (name : expr) (args : list expr) : option (emission unit) :=
  match name, args with
  | XSuper _, _ => Some (let! _ := each rec args in push (BCallRustSuperCtor (length args)))
  | XIdentifier n _, [arg] =>
      match (if eq_ignore_ascii_case n (lit "evaluate") then
               match arg with XLiteral (LString text) loc => plain_variable_path_expr text loc | _ => None end
             else None) with
      | Some e => Some (rec e)
      | None =>
          let lower := to_lowercase n in
          if bool_decide (lower = lit "isdefined") && is_string_literal arg then
            match arg with XLiteral (LString v) _ => Some (push (BIsDefined v)) | _ => None end
          else if bool_decide (lower = lit "isnull") then
            match arg with
            | XIdentifier a _ => Some (pushes [BTryLoadLocal a; BIsNull])
            | XMemberAccess _ _ _ _ | XArrayAccess _ _ _ =>
                Some (let! _ := push (BLoadGlobal n) in
                      let! _ := compile_member_read_tolerant arg in
                      push (BCall 1))
            | _ => None
            end
          else None
      end
  | _, _ => None
  end.

Definition direct_name (name : expr) (argc : nat) : option str :=
  match name with
  | XIdentifier n _ => if (argc <=? 255) && is_direct_builtin n then Some (to_lowercase n) else None
  | _ => None
  end.

Definition compile_plain_call (name : expr) (args : list expr) : emission unit :=
  match direct_name name (length args) with
  | Some lower => let! _ := each rec args in push (BCallBuiltin lower (as_u8 (length args)))
  | None =>
      let! _ := compile_callee name in
      let! _ := each rec args in
      push (BCall (length args))
  end.

Definition compile_call (name : expr) (args : list expr) : emission unit :=
  match special_call name args with
  | Some m => m
  | None =>
      let has_named := existsb is_named args in
      if existsb is_spread args then
        let! _ := compile_callee name in
        let! _ := push (BBuildArray 0) in
        let! _ := compile_spread_elements args in
        push BCallSpread
      else
        match name with
        | XArrayAccess object method _ =>
            let! _ := rec object in
            let! _ := rec method in
            let! _ := each (fun a => rec (if has_named then arg_value a else a)) args in
            push (if has_named then BCallComputedMethodNamed (map arg_name args) (length args)
                  else BCallComputedMethod (length args))
        | _ =>
            if has_named then
              let! _ := compile_callee name in
              let! _ := each (fun a => rec (arg_value a)) args in
              push (BCallNamed (map arg_name args) (length args))
            else compile_plain_call name args
        end
  end.

(** ** Literals *)

Definition compile_array (elements : list expr) : emission unit :=
  if existsb is_spread elements then
    let! _ := push (BBuildArray 0) in compile_spread_elements elements
  else
    let! _ := each rec elements in push (BBuildArray (length elements)).

Definition compile_key (k : expr) : emission unit :=
  match k with XIdentifier name _ => push (BString name) | _ => rec k end.

Definition compile_struct (pairs : list (expr * expr)) : emission unit :=
  if existsb (fun p => is_spread p.1) pairs then
    let! _ := push (BBuildStruct 0) in
    each (fun p => if is_spread p.1 then let! _ := rec p.2 in push BMergeStructs
                   else
                     let! _ := compile_key p.1 in
                     let! _ := rec p.2 in
                     pushes [BBuildStruct 1; BMergeStructs]) pairs
  else if existsb (fun p => match flatten_struct_key_path p.1 with Some segs => 1 <? length segs | None => false end) pairs
  then emit_struct_node (Branch (foldl insert_struct_pair [] pairs))
  else
    match mapM (fun p => static_name p.1) pairs with
    | Some keys => let! _ := each (fun p => rec p.2) pairs in push (BBuildStructStatic keys)
    | None =>
        let! _ := each (fun p => let! _ := compile_key p.1 in rec p.2) pairs in
        push (BBuildStruct (length pairs))
    end.

Definition compile_ternary (c t e : expr) : emission unit :=
  let! _ := rec c in
  let! jump_false := next_index in
  let! _ := push (BJumpIfFalse 0) in
  let! _ := rec t in
  let! jump_end := next_index in
  let! _ := push (BJump 0) in
  let! _ := patch_here jump_false BJumpIfFalse in
  let! _ := rec e in
  patch_here jump_end BJump.

Definition compile_new (class : expr) (args : list expr) : emission unit :=
  match class with
  | XFunctionCall name cargs _ =>
      let! _ := match flatten_member_access name with Some path => push (BString path) | None => rec name end in
      compile_new_args cargs
  | XIdentifier name _ => let! _ := push (BString name) in compile_new_args args
  | XMemberAccess _ _ _ _ =>
      let! _ := match flatten_member_access class with Some path => push (BString path) | None => rec class end in
      compile_new_args args
  | _ => let! _ := rec class in compile_new_args args
  end.

Definition compile_interpolation (parts : list expr) : emission unit :=
  match parts with
  | [] => push (BString [])
  | [p] => rec p
  | p :: ps =>
      let! _ := rec p in
      let! _ := if is_string_literal p then st_ret tt else pushes [BString []; BConcat] in
      each (fun p => let! _ := rec p in push BConcat) ps
  end.

(** The exceptions of the left operand are caught. *)
Definition compile_elvis (l r : expr) : emission unit :=
  let fallible := negb (elvis_left_is_infallible l) in
  let! try_start_idx := next_index in
  let! _ := if fallible then push (BTryStart 0) else st_ret tt in
  let! _ := compile_null_tolerant l in
  let! _ := if fallible then push BTryEnd else st_ret tt in
  let! jump_idx := next_index in
  let! _ := push (BJumpIfNotNull 0) in
  let! _ := push BPop in
  let! _ := if fallible then
              let! idx := next_index in
              let! _ := push (BJump 0) in
              let! _ := patch_here try_start_idx BTryStart in
              let! _ := push BPop in
              patch_here idx BJump
            else st_ret tt in
  let! _ := rec r in
  patch_here jump_idx BJumpIfNotNull.

Definition compile_closure (e : expr) : emission unit :=
  fun g => let '(c, id) := compile_function e (gn_compiler g) in push (BDefineFunction id) (Gen c (gn_instructions g)).

Definition compile_body (e : expr) : emission unit :=
  match e with
  | XLiteral v _ => push (literal_op v)
  | XIdentifier name _ => push (BLoadLocal name)
  | XBinaryOp l o r _ =>
      if bool_decide (o = OAssign) then compile_assignment l r
      else if is_short_circuit o then compile_short_circuit o e
      else compile_chain e
  | XUnaryOp o operand _ => compile_unary o operand
  | XPostfixOp operand o _ => compile_postfix operand o
  | XStaticMember class member _ =>
      let! _ := compile_static_holder class in push (BGetStaticProperty member)
  | XStaticCall class method args _ => compile_static_call class method args
  | XMemberAccess o m null_safe _ => compile_member o m null_safe
  | XArrayAccess a i _ => let! _ := rec a in let! _ := rec i in push BGetIndex
  | XFunctionCall name args _ => compile_call name args
  | XMethodCall o method args null_safe _ => compile_method_call o method args null_safe
  | XArray elements _ => compile_array elements
  | XStruct pairs _ _ => compile_struct pairs
  | XTernary c t e _ => compile_ternary c t e
  | XNew class args _ => compile_new class args
  | XClosure _ _ _ _ | XArrowFunction _ _ _ => compile_closure e
  | XThis _ => push (BLoadLocal (lit "this"))
  | XSuper _ => push BLoadSuper
  | XStringInterpolation parts _ => compile_interpolation parts
  | XElvis l r _ => compile_elvis l r
  | XNamedArgument _ v _ => rec v
  | XSpread inner => rec inner
  | XEmpty => push BNull
  end.
End Compile.

Fixpoint compile_expression (fuel : nat) (e : expr) : emission unit :=
  match fuel with O => st_panic | S fuel => compile_body (compile_expression fuel) e end.
End Codegen.
