(* ===== verification/CodegenEval.v ===== *)
(** * CodegenEval: what expressions mean

    A direct reading of expressions, with neither stack nor jumps: operands from
    left to right, the conditions of [and], [or] and the ternary operator decide
    what is evaluated, [?:] catches the exceptions of its left operand.  [valued]
    are the expressions whose code leaves a value. *)

From Stdlib Require Import Strings.Ascii.
From stdpp Require Import base list numbers strings.
From S2P Require Import Prelude Text Float64 Value QoqLexer CfmlLexer CfmlAst CfmlParser Bytecode Codegen.
Local Open Scope nat_scope.
Local Open Scope st_scope.

(** Where an expression stands: whether [local] is a scope there, and whether it
    is a page rather than a function or a component. *)
Record place := Place { in_function : bool; on_page : bool }.

Section Eval.
Context {U : Unicode} {V : Vm} {B : Type} (is_direct_builtin : str -> bool).
Context (scope : place).
Abbreviation expr := (cf_expr B).
Abbreviation M := (ST world (stop vm_value)).

(** The left operand of [?:]: nothing where it raises. *)
Definition catching (m : M vm_value) : M (option vm_value) :=
  fun w => match m w with
           | (w', Ok v) => (w', Ok (Some v))
           | (w', Err (Raise x)) => (set_last_exception x (restore_capture_state (capture_state w) w'), Ok None)
           | (w', Err Abort) => (w', Err Abort)
           | (w', Panic) => (w', Panic)
           end.

Section Layer.
Context (ev : expr -> M vm_value).

Fixpoint ev_each {A} (f : A -> M vm_value) (l : list A) : M (list vm_value) :=
  match l with
  | [] => st_ret []
  | x :: l => let! v := f x in let! vs := ev_each f l in st_ret (v :: vs)
  end.

(** Several values each. *)
Definition ev_flat {A} (f : A -> M (list vm_value)) : list A -> M (list vm_value) :=
  fix ev_flat l :=
    match l with
    | [] => st_ret []
    | x :: l => let! ys := f x in let! zs := ev_flat l in st_ret (ys ++ zs)
    end.

Fixpoint ev_tolerant (e : expr) : M vm_value :=
  match e with
  | XIdentifier name _ => if self_is_reserved_scope_name name then ev e else exec (BTryLoadLocal name) []
  | XMemberAccess o m false _ =>
      match fused_read true o m with
      | Some op => exec op []
      | None => let! v := ev_tolerant o in exec (BTryGetProperty m) [v]
      end
  | XArrayAccess a i _ =>
      let! v := ev_tolerant a in
      let! k := ev i in
      exec BTryGetIndex [v; k]
  | _ => ev e
  end.

Definition ev_null_tolerant (e : expr) : M vm_value :=
  match e with
  | XIdentifier name _ => exec (BTryLoadLocal name) []
  | XMemberAccess _ _ _ _ | XArrayAccess _ _ _ => ev_tolerant e
  | _ => ev e
  end.

(** ** Targets *)

Fixpoint ev_load (e : expr) : M vm_value :=
  match e with
  | XIdentifier name _ => exec (if self_is_reserved_scope_name name then BLoadLocal name else BTryLoadLocal name) []
  | XThis _ => exec (BLoadLocal (lit "this")) []
  | XMemberAccess o m _ _ =>
      if is_ident_named o "local" then exec (BTryLoadLocalKey m) []
      else let! v := ev_load o in exec (BTryGetProperty m) [v]
  | XArrayAccess a i _ =>
      let! v := ev_load a in
      let! k := ev i in
      exec BTryGetIndex [v; k]
  | _ => exec BNull []
  end.

Definition write_local_key (m : str) (v : vm_value) : M unit :=
  if in_function scope then
    let! _ := exec (BDeclareLocal m) [] in
    let! _ := exec (BStoreLocal m) [v] in st_ret tt
  else let! _ := exec (BStoreLocalScopeKey m) [v] in st_ret tt.

(** The value in the place of the target, and the containers above it anew. *)
Fixpoint write_back (o : expr) (v : vm_value) : M unit :=
  match o with
  | XIdentifier name _ => let! _ := exec (BStoreLocal name) [v] in st_ret tt
  | XThis _ => let! _ := exec (BStoreLocal (lit "this")) [v] in st_ret tt
  | XMemberAccess p m null_safe _ =>
      if is_ident_named p "local" then write_local_key m v
      else if is_ident_named p "variables" && negb null_safe then
        let! _ := exec (BStoreVariablesKey m) [v] in st_ret tt
      else
        let! container := ev_load p in
        let! container := exec (BSetProperty m) [container; v] in
        write_back p container
  | XArrayAccess a i _ =>
      let! container := ev_load a in
      let! k := ev i in
      let! container := exec BSetIndex [v; container; k] in
      write_back a container
  | _ => st_ret tt
  end.

(** ** Assignments *)

Fixpoint ev_index_base (base : expr) : M vm_value :=
  match base with
  | XIdentifier name _ => if self_is_reserved_scope_name name then ev base else exec (BTryLoadLocal name) []
  | XThis _ => if on_page scope then exec (BTryLoadLocal (lit "this")) [] else ev base
  | XArrayAccess a i _ =>
      let! v := ev_index_base a in
      let! k := ev i in
      exec BTryGetIndex [v; k]
  | XMemberAccess o m _ _ => let! v := ev_index_base o in exec (BTryGetProperty m) [v]
  | _ => ev base
  end.

(** A store gives the values that it leaves on the stack. *)
Definition nothing {A} (m : M A) : M (list vm_value) := let! _ := m in st_ret [].

Definition ev_store_ident_member (o : expr) (name member : str) (null_safe : bool) (v : vm_value) : M (list vm_value) :=
  if negb (is_reserved_scope_name name) then nothing (exec (BStoreLocalProperty name member) [v])
  else if eq_ignore_ascii_case name (lit "local") then nothing (write_local_key member v)
  else if eq_ignore_ascii_case name (lit "variables") && in_function scope then
    nothing (exec (BSetScopePath (new_scope_path (dotted name member))) [v])
  else if eq_ignore_ascii_case name (lit "variables") && negb null_safe then nothing (exec (BStoreVariablesKey member) [v])
  else
    let! container := ev o in
    let! container := exec (BSetProperty member) [container; v] in
    nothing (write_back o container).

Definition ev_store_member (o : expr) (member : str) (null_safe : bool) (v : vm_value) : M (list vm_value) :=
  match scope_rooted_nested_path o member, bare_rooted_nested_path o member with
  | Some path, _ | None, Some path => let! _ := exec (BSetScopePath (new_scope_path path)) [v] in st_ret [v]
  | None, None =>
      match o with
      | XIdentifier name _ => ev_store_ident_member o name member null_safe v
      | _ =>
          let! container := ev_index_base o in
          let! container := exec (BSetProperty member) [container; v] in
          nothing (write_back o container)
      end
  end.

Definition ev_store (left : expr) (v : vm_value) : M (list vm_value) :=
  match left with
  | XIdentifier name _ => nothing (exec (BStoreLocal name) [v])
  | XMemberAccess o member null_safe _ => ev_store_member o member null_safe v
  | XArrayAccess a i _ =>
      let! container := ev_index_base a in
      let! k := ev i in
      let! container := exec BSetIndex [v; container; k] in
      nothing (write_back a container)
  | _ => st_ret [v]
  end.

(** [Null] deletes a variable instead of being stored. *)
Definition ev_assign (left right : expr) : M (list vm_value) :=
  if is_path_literal left then
    let! path := ev left in
    let! v := ev right in
    let! v := exec BSetDynamicVar [path; v] in
    st_ret [v]
  else
    let! v := ev right in
    match (if expr_may_be_null right then expr_assign_unset_path left else None) with
    | Some path => if is_null v then nothing (exec (BUnsetPath path) []) else ev_store left v
    | None => ev_store left v
    end.

(** ** Operators *)

Definition ev_plus (v : vm_value) (delta : Z) : M vm_value :=
  let! d := exec (BInteger delta) [] in exec BAdd [v; d].

Definition ev_unary (o : cf_unary_op) (operand : expr) : M vm_value :=
  match o with
  | UMinus => let! v := ev operand in exec BNegate [v]
  | UNot => let! v := ev operand in exec BNot [v]
  | UPrefixIncrement | UPrefixDecrement =>
      let! old := ev operand in
      let! new := ev_plus old (match o with UPrefixIncrement => 1 | _ => -1 end) in
      let! _ := match operand with
                | XIdentifier _ _ | XMemberAccess _ _ _ _ | XArrayAccess _ _ _ => write_back operand new
                | _ => st_ret tt
                end in
      st_ret new
  end.

Definition ev_postfix (operand : expr) (o : cf_postfix_op) : M vm_value :=
  let! old := ev operand in
  let! new := match operand, o with
              | XIdentifier _ _, PDecrement => let! d := exec (BInteger 1) [] in exec BSub [old; d]
              | _, PIncrement => ev_plus old 1
              | _, PDecrement => ev_plus old (-1)
              end in
  let! _ := write_back operand new in
  st_ret old.

(** [stop_at] is the condition of the left operand that decides. *)
Definition ev_short_circuit (stop_at : bool) (l r : expr) : M vm_value :=
  let! a := ev l in
  let! t := to_condition a in
  if eqb t stop_at then st_ret (vm_bool stop_at)
  else
    let! b := ev r in
    let! t := to_condition b in
    st_ret (vm_bool t).

Definition ev_binary (l : expr) (o : cf_binary_op) (r : expr) : M vm_value :=
  match o with
  | OAnd => ev_short_circuit false l r
  | OOr => ev_short_circuit true l r
  | _ =>
      let! a := ev l in
      let! b := ev r in
      match binary_opcode o with Some op => exec op [a; b] | None => st_panic end
  end.

(** ** Members and calls *)

Definition ev_static_holder (class : expr) : M vm_value :=
  match static_class_name class with Some name => exec (BLoadStaticHolder name) [] | None => ev class end.

Definition ev_static_call (class : expr) (method : str) (args : list expr) : M vm_value :=
  let! holder := ev_static_holder class in
  let! vs := ev_each (fun a => ev (arg_value a)) args in
  exec (if existsb is_named args
        then BCallMethodNamed method (NamedMethodCall (map arg_name args) None) (as_u32 (length args))
        else BCallMethod method (as_u32 (length args)) None) (holder :: vs).

Definition ev_unless_null (v : vm_value) (body : vm_value -> M vm_value) : M vm_value :=
  if is_null v then st_ret v else body v.

Definition ev_member (o : expr) (m : str) (null_safe : bool) : M vm_value :=
  if null_safe then
    let! v := ev_null_tolerant o in
    ev_unless_null v (fun v => exec (BTryGetProperty m) [v])
  else if is_ident_named o "variables" then exec (BLoadVariablesKey m) []
  else
    match fused_read false o m with
    | Some op => exec op []
    | None => let! v := ev o in exec (BGetProperty m) [v]
    end.

Definition ev_method_call (o : expr) (method : str) (args : list expr) (null_safe : bool) : M vm_value :=
  let write_back := method_call_write_back o in
  let call v := let! vs := ev_each (fun a => ev (arg_value a)) args in
                exec (if existsb is_named args
                      then BCallMethodNamed method (NamedMethodCall (map arg_name args) write_back) (as_u32 (length args))
                      else BCallMethod method (as_u32 (length args)) write_back) (v :: vs) in
  if null_safe then
    let! v := match o with XIdentifier name _ => exec (BTryLoadLocal name) [] | _ => ev o end in
    ev_unless_null v call
  else let! v := ev o in call v.

Definition ev_callee (name : expr) : M vm_value :=
  match name with XIdentifier n _ => exec (BLoadGlobal n) [] | _ => ev name end.

(** Elements at the end of an array. *)
Definition ev_spread_elements (elements : list expr) (acc : vm_value) : M vm_value :=
  st_foldM (fun acc a =>
    let! more := match a with
                 | XSpread inner => ev inner
                 | _ => let! v := ev a in exec (BBuildArray 1) [v]
                 end in
    exec BConcatArrays [acc; more]) acc elements.

Definition ev_special_call (name : expr) (args : list expr) : option (M vm_value) :=
  match name, args with
  | XSuper _, _ => Some (let! vs := ev_each ev args in exec (BCallRustSuperCtor (length args)) vs)
  | XIdentifier n _, [arg] =>
      match (if eq_ignore_ascii_case n (lit "evaluate") then
               match arg with XLiteral (LString text) loc => plain_variable_path_expr text loc | _ => None end
             else None) with
      | Some e => Some (ev e)
      | None =>
          let lower := to_lowercase n in
          if bool_decide (lower = lit "isdefined") && is_string_literal arg then
            match arg with XLiteral (LString v) _ => Some (exec (BIsDefined v) []) | _ => None end
          else if bool_decide (lower = lit "isnull") then
            match arg with
            | XIdentifier a _ => Some (let! v := exec (BTryLoadLocal a) [] in exec BIsNull [v])
            | XMemberAccess _ _ _ _ | XArrayAccess _ _ _ =>
                Some (let! f := exec (BLoadGlobal n) [] in let! v := ev_tolerant arg in exec (BCall 1) [f; v])
            | _ => None
            end
          else None
      end
  | _, _ => None
  end.

Definition ev_plain_call (name : expr) (args : list expr) : M vm_value :=
  match direct_name is_direct_builtin name (length args) with
  | Some lower => let! vs := ev_each ev args in exec (BCallBuiltin lower (as_u8 (length args))) vs
  | None =>
      let! f := ev_callee name in
      let! vs := ev_each ev args in
      exec (BCall (length args)) (f :: vs)
  end.

Definition ev_call (name : expr) (args : list expr) : M vm_value :=
  match ev_special_call name args with
  | Some m => m
  | None =>
      let has_named := existsb is_named args in
      if existsb is_spread args then
        let! f := ev_callee name in
        let! empty := exec (BBuildArray 0) [] in
        let! elements := ev_spread_elements args empty in
        exec BCallSpread [f; elements]
      else
        match name with
        | XArrayAccess object method _ =>
            let! o := ev object in
            let! m := ev method in
            let! vs := ev_each (fun a => ev (if has_named then arg_value a else a)) args in
            exec (if has_named then BCallComputedMethodNamed (map arg_name args) (length args)
                  else BCallComputedMethod (length args)) (o :: m :: vs)
        | _ =>
            if has_named then
              let! f := ev_callee name in
              let! vs := ev_each (fun a => ev (arg_value a)) args in
              exec (BCallNamed (map arg_name args) (length args)) (f :: vs)
            else ev_plain_call name args
        end
  end.

(** ** Literals *)

Definition ev_array (elements : list expr) : M vm_value :=
  if existsb is_spread elements then
    let! empty := exec (BBuildArray 0) [] in ev_spread_elements elements empty
  else
    let! vs := ev_each ev elements in exec (BBuildArray (length elements)) vs.

Definition ev_key (k : expr) : M vm_value :=
  match k with XIdentifier name _ => exec (BString name) [] | _ => ev k end.

(** Keys and values in turn. *)
Definition ev_pairs (pairs : list (expr * expr)) : M (list vm_value) :=
  ev_flat (fun p => let! k := ev_key p.1 in let! v := ev p.2 in st_ret [k; v]) pairs.

Definition ev_merge (pairs : list (expr * expr)) (acc : vm_value) : M vm_value :=
  st_foldM (fun acc p =>
    let! more := if is_spread p.1 then ev p.2
                 else let! k := ev_key p.1 in let! v := ev p.2 in exec (BBuildStruct 1) [k; v] in
    exec BMergeStructs [acc; more]) acc pairs.

Fixpoint ev_struct_node (node : struct_key_node (B := B)) : M vm_value :=
  match node with
  | Leaf value => ev value
  | Branch children =>
      let all_static := forallb (fun p => is_static_key p.1) children in
      let! vs := ev_flat (fun p =>
        if all_static then let! v := ev_struct_node p.2 in st_ret [v]
        else
          let! k := match p.1 with StaticKey s => exec (BString s) [] | ComputedKey e => ev e end in
          let! v := ev_struct_node p.2 in
          st_ret [k; v]) children in
      exec (if all_static then BBuildStructStatic (map (fun p => key_name p.1) children)
            else BBuildStruct (length children)) vs
  end.

Definition ev_struct (pairs : list (expr * expr)) : M vm_value :=
  if existsb (fun p => is_spread p.1) pairs then
    let! empty := exec (BBuildStruct 0) [] in ev_merge pairs empty
  else if existsb (fun p => match flatten_struct_key_path p.1 with Some segs => 1 <? length segs | None => false end) pairs
  then ev_struct_node (Branch (foldl insert_struct_pair [] pairs))
  else
    match mapM (fun p => static_name p.1) pairs with
    | Some keys => let! vs := ev_each (fun p => ev p.2) pairs in exec (BBuildStructStatic keys) vs
    | None => let! vs := ev_pairs pairs in exec (BBuildStruct (length pairs)) vs
    end.

Definition ev_ternary (c t e : expr) : M vm_value :=
  let! v := ev c in
  let! b := to_condition v in
  if b : bool then ev t else ev e.

Definition ev_new_args (class : vm_value) (args : list expr) : M vm_value :=
  if existsb is_named args then
    let! vs := ev_each (fun a => ev (arg_value a)) args in
    exec (BNewObjectNamed (map arg_name args) (length args)) (class :: vs)
  else
    let! vs := ev_each ev args in exec (BNewObject (length args)) (class :: vs).

Definition ev_class (name : expr) : M vm_value :=
  match flatten_member_access name with Some path => exec (BString path) [] | None => ev name end.

Definition ev_new (class : expr) (args : list expr) : M vm_value :=
  match class with
  | XFunctionCall name cargs _ => let! c := ev_class name in ev_new_args c cargs
  | _ => let! c := ev_class class in ev_new_args c args
  end.

Definition ev_concat (parts : list expr) (acc : vm_value) : M vm_value :=
  st_foldM (fun acc p => let! v := ev p in exec BConcat [acc; v]) acc parts.

Definition ev_interpolation (parts : list expr) : M vm_value :=
  match parts with
  | [] => exec (BString []) []
  | [p] => ev p
  | p :: ps =>
      let! v := ev p in
      let! v := if is_string_literal p then st_ret v
                else let! e := exec (BString []) [] in exec BConcat [v; e] in
      ev_concat ps v
  end.

Definition ev_elvis (l r : expr) : M vm_value :=
  let! v := if elvis_left_is_infallible l
            then let! v := ev_null_tolerant l in st_ret (Some v) else catching (ev_null_tolerant l) in
  match v with
  | Some v => if is_null v then ev r else st_ret v
  | None => ev r
  end.

Definition ev_body (e : expr) : M vm_value :=
  match e with
  | XLiteral v _ => exec (literal_op v) []
  | XIdentifier name _ => exec (BLoadLocal name) []
  | XBinaryOp l o r _ => ev_binary l o r
  | XUnaryOp o operand _ => ev_unary o operand
  | XPostfixOp operand o _ => ev_postfix operand o
  | XStaticMember class member _ => let! h := ev_static_holder class in exec (BGetStaticProperty member) [h]
  | XStaticCall class method args _ => ev_static_call class method args
  | XMemberAccess o m null_safe _ => ev_member o m null_safe
  | XArrayAccess a i _ => let! v := ev a in let! k := ev i in exec BGetIndex [v; k]
  | XFunctionCall name args _ => ev_call name args
  | XMethodCall o method args null_safe _ => ev_method_call o method args null_safe
  | XArray elements _ => ev_array elements
  | XStruct pairs _ _ => ev_struct pairs
  | XTernary c t e _ => ev_ternary c t e
  | XNew class args _ => ev_new class args
  | XClosure _ _ _ _ | XArrowFunction _ _ _ => st_panic
  | XThis _ => exec (BLoadLocal (lit "this")) []
  | XSuper _ => exec BLoadSuper []
  | XStringInterpolation parts _ => ev_interpolation parts
  | XElvis l r _ => ev_elvis l r
  | XNamedArgument _ v _ => ev v
  | XSpread inner => ev inner
  | XEmpty => exec BNull []
  end.
End Layer.

Fixpoint evaluate (fuel : nat) (e : expr) : M vm_value :=
  match fuel with O => st_panic | S fuel => ev_body (evaluate fuel) e end.
End Eval.

(** ** Sizes and the expressions that have a value *)

Section Valued.
Context {B : Type}.
Abbreviation expr := (cf_expr B).

Definition max_of {A} (f : A -> nat) (l : list A) : nat := fold_right (fun x m => Nat.max (f x) m) 0 l.

(** Bounds the recursion: of the compiler, and of the text of [evaluate]. *)
Fixpoint height (e : expr) : nat :=
  match e with
  | XLiteral (LString s) _ => S (S (length s))
  | XLiteral _ _ | XIdentifier _ _ | XThis _ | XSuper _ | XEmpty | XClosure _ _ _ _ | XArrowFunction _ _ _ => 1
  | XArray l _ | XStringInterpolation l _ => S (max_of height l)
  | XStruct ps _ _ => S (max_of (fun p => Nat.max (height p.1) (height p.2)) ps)
  | XFunctionCall x l _ | XMethodCall x _ l _ _ | XStaticCall x _ l _ | XNew x l _ => S (Nat.max (height x) (max_of height l))
  | XStaticMember x _ _ | XMemberAccess x _ _ _ | XUnaryOp _ x _ | XPostfixOp x _ _ | XSpread x
  | XNamedArgument _ x _ => S (height x)
  | XArrayAccess x y _ | XBinaryOp x _ y _ | XElvis x y _ => S (Nat.max (height x) (height y))
  | XTernary x y z _ => S (Nat.max (height x) (Nat.max (height y) (height z)))
  end.

Definition is_target_expr (e : expr) : bool :=
  match e with XIdentifier _ _ | XMemberAccess _ _ _ _ | XArrayAccess _ _ _ => true | _ => false end.
Definition few (l : list expr) : Prop := (N.of_nat (length l) < 4294967296)%N.

(** No assignment is an operand, no postfix operator stands on something that
    cannot be stored to, no function is defined. *)
Inductive valued : expr -> Prop :=
  | valued_literal v loc : valued (XLiteral v loc)
  | valued_identifier name loc : valued (XIdentifier name loc)
  | valued_array l loc : Forall valued l -> valued (XArray l loc)
  | valued_struct ps ordered loc : Forall (fun p => valued p.1 /\ valued p.2) ps -> valued (XStruct ps ordered loc)
  | valued_call x l loc : valued x -> Forall valued l -> valued (XFunctionCall x l loc)
  | valued_method x m l ns loc : few l -> valued x -> Forall valued l -> valued (XMethodCall x m l ns loc)
  | valued_static_call x m l loc : few l -> valued x -> Forall valued l -> valued (XStaticCall x m l loc)
  | valued_static_member x m loc : valued x -> valued (XStaticMember x m loc)
  | valued_member x m ns loc : valued x -> valued (XMemberAccess x m ns loc)
  | valued_index x y loc : valued x -> valued y -> valued (XArrayAccess x y loc)
  | valued_unary o x loc : valued x -> valued (XUnaryOp o x loc)
  | valued_binary x o y loc : o <> OAssign -> valued x -> valued y -> valued (XBinaryOp x o y loc)
  | valued_ternary x y z loc : valued x -> valued y -> valued z -> valued (XTernary x y z loc)
  | valued_new x l loc : valued x -> Forall valued l -> valued (XNew x l loc)
  | valued_this loc : valued (XThis loc)
  | valued_super loc : valued (XSuper loc)
  | valued_postfix x o loc : is_target_expr x = true -> valued x -> valued (XPostfixOp x o loc)
  | valued_interpolation l loc : Forall valued l -> valued (XStringInterpolation l loc)
  | valued_elvis x y loc : valued x -> valued y -> valued (XElvis x y loc)
  | valued_spread x : valued x -> valued (XSpread x)
  | valued_named n x loc : valued x -> valued (XNamedArgument n x loc)
  | valued_empty : valued XEmpty.
End Valued.
