(* ===== verification/CodegenFacts.v ===== *)
(** * CodegenFacts: rules for compiled code

    [appends m]: the compilation [m] appends instructions and changes nothing
    else.  [does m vs f]: these instructions, started on the values [vs] on top of
    any stack, do what [f] says and leave its values in their place.  Then the code
    with jumps: null-safe access, the ternary operator, [?:], and the chains of
    [and] and [or], whose operands share two landings. *)

From Stdlib Require Import Strings.Ascii.
From stdpp Require Import base list numbers strings relations.
From S2P Require Import Prelude Text Float64 Value QoqLexer CfmlLexer CfmlAst CfmlParser Bytecode Codegen CodegenEval.
Local Open Scope nat_scope.
Local Open Scope st_scope.

Section Rules.
Context {U : Unicode} {V : Vm} {B P : Type} (scope : place).
Abbreviation compiler := (Codegen.compiler (P := P)).
Abbreviation gen := (Codegen.gen (P := P)).
Abbreviation emission := (ST gen Empty_set).
Abbreviation M := (ST world (stop vm_value)).

Definition plain_compiler (c : compiler) : Prop := 
  cc_need_assign_value c = false /\ local_is_scope c = in_function scope /\ on_plain_page c = on_page scope.

Definition appends (m : emission unit) : Prop :=
  forall c l, plain_compiler c -> exists seg, m (Gen c l) = (Gen c (l ++ seg), Ok tt).

(** The handlers of the frame are for the stack below. *)
Definition ok_handlers (hs : list try_handler) (st : list vm_value) : Prop :=
  match hs with [] => True | h :: _ => th_stack_depth h <= length st end.

Definition landing (ip : nat) (st : list vm_value) (hs : list try_handler)
    (r : world * outcome (stop vm_value) (list vm_value)) : machine :=
  proceed r st hs (fun ys w => Running ip (ys ++ st) hs w).

Definition does (m : emission unit) (vs : list vm_value) (f : M (list vm_value)) : Prop :=
  forall c l seg pre rest st hs w, plain_compiler c -> m (Gen c l) = (Gen c (l ++ seg), Ok tt) -> length pre = length l ->
  ok_handlers hs st ->
  steps (pre ++ seg ++ rest) (Running (length l) (vs ++ st) hs w) (landing (length l + length seg) st hs (f w)).

(** The code of an expression: it leaves the value. *)
Definition leaves (m : emission unit) (f : M vm_value) : Prop :=
  appends m /\ forall vs, does m vs (let! v := f in st_ret (v :: vs)).

(** ** The machine *)

Lemma step_here pre op rest stack hs w ip : ip = length pre ->
  step (pre ++ op :: rest) (Running ip stack hs w) = Some (step_op op (S ip) stack hs w).
Proof. intros ->. cbn. by rewrite lookup_app_r, Nat.sub_diag. Qed.

Lemma steps_one code s s' : step code s = Some s' -> steps code s s'.
Proof. intros. by apply rtc_once. Qed.
Lemma steps_l code s s' s'' : step code s = Some s' -> steps code s' s'' -> steps code s s''.
Proof. intros. by eapply rtc_l. Qed.
Lemma steps_trans code s s' s'' : steps code s s' -> steps code s' s'' -> steps code s s''.
Proof. intros H1 H2. unfold steps in *. by etrans. Qed.

Lemma step_op_exec op n (b : bool) ip stack hs w : signature op = Some (n, b) -> n <= length stack ->
  step_op op ip stack hs w
  = proceed (exec op (rev (take n stack)) w) (drop n stack) hs (fun v w =>
      Running ip (if b then v :: drop n stack else drop n stack) hs w).
Proof.
  intros Hs Hn. apply Nat.ltb_ge in Hn. destruct op; try discriminate Hs; cbn [step_op]; rewrite Hs; by rewrite Hn.
Qed.

(** An exception does not see the values above the handlers. *)
Lemma catch_above x vs st hs w : ok_handlers hs st -> catch_op_error x (vs ++ st) hs w = catch_op_error x st hs w.
Proof.
  destruct hs as [|h hs]; [done|]. cbn. intros Hh. rewrite length_app.
  replace (length vs + length st - th_stack_depth h) with (length vs + (length st - th_stack_depth h)) by lia.
  by rewrite drop_app_add.
Qed.

Lemma proceed_above {A} (r : world * outcome (stop vm_value) A) vs st hs k : ok_handlers hs st ->
  proceed r (vs ++ st) hs k = proceed r st hs k.
Proof. intros Hh. destruct r as [w [a|[x|]|]]; try done. cbn. by apply catch_above. Qed.

Lemma ok_above hs vs st : ok_handlers hs st -> ok_handlers hs (vs ++ st).
Proof. destruct hs; [done|]. cbn. rewrite length_app. lia. Qed.

(** ** Emission *)

Lemma appends_ret : appends (st_ret tt).
Proof. intros c l _. exists []. by rewrite app_nil_r. Qed.
Lemma appends_push op : appends (push op).
Proof. intros c l _. by exists [op]. Qed.
Lemma appends_bind m1 m2 : appends m1 -> appends m2 -> appends (let! _ := m1 in m2).
Proof.
  intros H1 H2 c l Hc. destruct (H1 c l Hc) as [s1 E1]. destruct (H2 c (l ++ s1) Hc) as [s2 E2].
  exists (s1 ++ s2). unfold st_bind. by rewrite E1, E2, app_assoc.
Qed.
Lemma appends_each {A} (f : A -> emission unit) l : Forall (fun x => appends (f x)) l -> appends (each f l).
Proof. induction 1; [apply appends_ret|by apply appends_bind]. Qed.
Lemma appends_pushes ops : appends (pushes ops).
Proof. apply appends_each, Forall_forall. intros. apply appends_push. Qed.

(** ** Runs *)

Lemma does_ext m vs f f' : (forall w, f w = f' w) -> does m vs f' -> does m vs f.
Proof. intros E H c l seg pre rest st hs w Hc Hm Hp Hh. rewrite E. by apply (H c). Qed.

Lemma does_ret ys : does (st_ret tt) ys (st_ret ys).
Proof.
  intros c l seg pre rest st hs w _ Hm Hp _. injection Hm as Hm. apply (f_equal length) in Hm. rewrite length_app in Hm.
  destruct seg; [|cbn in Hm; lia]. cbn. rewrite Nat.add_0_r. apply rtc_refl.
Qed.

Lemma landing_bind code ip st hs (f : M (list vm_value)) (g : list vm_value -> M (list vm_value)) ip' s w :
  steps code s (landing ip st hs (f w)) ->
  (forall ys w', f w = (w', Ok ys) -> steps code (Running ip (ys ++ st) hs w') (landing ip' st hs (g ys w'))) ->
  steps code s (landing ip' st hs ((let! ys := f in g ys) w)).
Proof.
  intros H Hg. unfold st_bind. destruct (f w) as [w' [ys|e|]]; [|exact H..].
  eapply steps_trans; [exact H|]. by apply Hg.
Qed.

Lemma does_seq m1 m2 vs f g : appends m1 -> appends m2 -> does m1 vs f ->
  (forall w w' ys, f w = (w', Ok ys) -> does m2 ys (g ys)) -> does (let! _ := m1 in m2) vs (let! ys := f in g ys).
Proof.
  intros E1 E2 H1 H2 c l seg pre rest st hs w Hc Hm Hp Hh.
  destruct (E1 c l Hc) as [s1 F1]. destruct (E2 c (l ++ s1) Hc) as [s2 F2].
  unfold st_bind in Hm. rewrite F1, F2 in Hm. injection Hm as Hm. rewrite <-app_assoc in Hm. apply app_inv_head in Hm. subst seg.
  specialize (H1 c l s1 pre (s2 ++ rest) st hs w Hc F1 Hp Hh). rewrite <-app_assoc.
  eapply landing_bind; [exact H1|]. intros ys w' Ef.
  specialize (H2 w w' ys Ef c (l ++ s1) s2 (pre ++ s1) rest st hs w' Hc F2). rewrite !length_app in *.
  rewrite <-app_assoc in H2. rewrite Nat.add_assoc. apply H2; [lia|done].
Qed.

Lemma does_assoc {A C} m vs (f : M A) (g : A -> M C) (h : C -> M (list vm_value)) :
  does m vs (let! a := f in let! b := g a in h b) -> does m vs (let! b := (let! a := f in g a) in h b).
Proof. apply does_ext. intros w. apply st_bind_assoc. Qed.
Lemma does_ret_l {A} m vs (a : A) (h : A -> M (list vm_value)) : does m vs (h a) -> does m vs (let! a := st_ret a in h a).
Proof. apply does_ext. intros w. apply st_bind_ret_l. Qed.

Lemma does_same m m' vs f : (forall g, m g = m' g) -> does m' vs f -> does m vs f.
Proof. intros E H c l seg pre rest st hs w Hc Hm. rewrite E in Hm. by apply (H c). Qed.
Lemma does_emit_assoc (m1 m2 m3 : emission unit) vs f :
  does (let! _ := m1 in let! _ := m2 in m3) vs f -> does (let! _ := (let! _ := m1 in m2) in m3) vs f.
Proof. apply does_same. intros g. apply st_bind_assoc. Qed.
Lemma does_emit_ret (m : emission unit) vs f : does m vs f -> does (let! _ := st_ret tt in m) vs f.
Proof. apply does_same. intros g. apply st_bind_ret_l. Qed.
Lemma does_emit_end (m : emission unit) vs f : does (let! _ := m in st_ret tt) vs f -> does m vs f.
Proof. apply does_same. intros g. unfold st_bind, st_ret. by destruct (m g) as [g' [[]| |]]. Qed.

(** A part that leaves a value, and the rest. *)
Lemma does_value m1 m2 vs f g : leaves m1 f -> appends m2 -> (forall v, does m2 (v :: vs) (g v)) ->
  does (let! _ := m1 in m2) vs (let! v := f in g v).
Proof.
  intros [E1 H1] E2 H2. eapply does_ext; [|apply (does_seq m1 m2 vs _ (fun ys => match ys with v :: _ => g v | [] => st_panic end) E1 E2 (H1 vs))].
  - intros w. symmetry. rewrite st_bind_assoc. apply st_bind_cong; [done|]. by intros v s.
  - intros w w' ys Ef. unfold st_bind, st_ret in Ef. destruct (f w) as [w1 [v| |]]; try discriminate Ef.
    injection Ef as -> <-. apply H2.
Qed.

(** One instruction. *)
Lemma does_push op vs f :
  (forall ip st hs w, ok_handlers hs st -> step_op op (S ip) (vs ++ st) hs w = landing (S ip) st hs (f w)) ->
  does (push op) vs f.
Proof.
  intros H c l seg pre rest st hs w Hc Hm Hp Hh. injection Hm as Hm. apply app_inv_head in Hm. subst seg.
  apply steps_one. cbn [app length]. rewrite step_here by done. rewrite (H (length l)) by done.
  by replace (length l + 1) with (S (length l)) by lia.
Qed.

Lemma step_op_landing op b args vs ip st hs w (k : vm_value -> list vm_value) :
  signature op = Some (length args, b) -> ok_handlers hs st -> (forall v, k v = if b then v :: vs else vs) ->
  step_op op ip ((rev args ++ vs) ++ st) hs w = landing ip st hs ((let! v := exec op args in st_ret (k v)) w).
Proof.
  intros Hs Hh Hk. rewrite (step_op_exec _ _ _ _ _ _ _ Hs) by (rewrite !length_app, length_rev; lia).
  rewrite <-app_assoc. rewrite take_app_length', drop_app_length' by by rewrite length_rev.
  rewrite rev_involutive, proceed_above by done. unfold landing, st_bind, st_ret.
  destruct (exec op args w) as [w' [v|[x|]|]]; try done. cbn. rewrite Hk. by destruct b.
Qed.

Lemma does_exec op args vs g m : signature op = Some (length args, true) -> appends m ->
  (forall v, does m (v :: vs) (g v)) ->
  does (let! _ := push op in m) (rev args ++ vs) (let! v := exec op args in g v).
Proof.
  intros Hs Em Hm. eapply does_ext; [|apply (does_seq (push op) m (rev args ++ vs)
    (let! v := exec op args in st_ret (v :: vs)) (fun ys => match ys with v :: _ => g v | [] => st_panic end)); [apply appends_push|done| |]].
  - intros w. symmetry. rewrite st_bind_assoc. apply st_bind_cong; [done|]. by intros v s.
  - apply does_push. intros. by apply (step_op_landing op true).
  - intros w w' ys Ef. unfold st_bind, st_ret in Ef. destruct (exec op args w) as [w1 [v| |]]; try discriminate Ef.
    injection Ef as -> <-. apply Hm.
Qed.

Lemma does_effect op args vs g m : signature op = Some (length args, false) -> appends m -> does m vs g ->
  does (let! _ := push op in m) (rev args ++ vs) (let! _ := exec op args in g).
Proof.
  intros Hs Em Hm. eapply does_ext; [|apply (does_seq (push op) m (rev args ++ vs)
    (let! v := exec op args in st_ret vs) (fun _ => g)); [apply appends_push|done| |]].
  - intros w. symmetry. rewrite st_bind_assoc. apply st_bind_cong; [done|]. by intros v s.
  - apply does_push. intros. by apply (step_op_landing op false).
  - intros w w' ys. unfold st_bind, st_ret. destruct (exec op args w) as [w1 [v| |]]; try discriminate. by intros [= -> <-].
Qed.

(** Instructions that only move values. *)
Lemma does_shuffle op vs vs' g m : appends m ->
  (forall ip st hs w, step_op op ip (vs ++ st) hs w = Running ip (vs' ++ st) hs w) ->
  does m vs' g -> does (let! _ := push op in m) vs g.
Proof.
  intros Em Hop Hm. eapply does_ext; [|apply (does_seq (push op) m vs (st_ret vs') (fun ys => g)); [apply appends_push|done| |]].
  - intros w. done.
  - apply does_push. intros. by rewrite Hop.
  - intros w w' ys [= _ <-]. done.
Qed.
Lemma does_dup v vs g m : appends m -> does m (v :: v :: vs) g -> does (let! _ := push BDup in m) (v :: vs) g.
Proof. intros Em. by apply does_shuffle. Qed.
Lemma does_swap a b vs g m : appends m -> does m (b :: a :: vs) g -> does (let! _ := push BSwap in m) (a :: b :: vs) g.
Proof. intros Em. by apply does_shuffle. Qed.
Lemma does_pop v vs g m : appends m -> does m vs g -> does (let! _ := push BPop in m) (v :: vs) g.
Proof. intros Em. by apply does_shuffle. Qed.
End Rules.

(** Lengths of code. *)
Ltac solve_code := first [reflexivity | repeat (rewrite length_app in * || cbn [length app] in *); lia].

Ltac same_code := repeat (rewrite <-?app_assoc; cbn [app]); reflexivity.

Section Jumps.
Context {U : Unicode} {V : Vm} {B P : Type} (scope : place).
Abbreviation compiler := (Codegen.compiler (P := P)).
Abbreviation gen := (Codegen.gen (P := P)).
Abbreviation emission := (ST gen Empty_set).
Abbreviation M := (ST world (stop vm_value)).
Local Notation appends := (appends (P := P) scope).
Local Notation does := (does (P := P) scope).
Local Notation leaves := (leaves (P := P) scope).
Local Notation plain_compiler := (plain_compiler (P := P) scope).

(** Instructions at their place in the code. *)
Lemma does_at m vs f c l seg pre rest code ip ip' st hs w : does m vs f -> plain_compiler c ->
  m (Gen c l) = (Gen c (l ++ seg), Ok tt) -> code = pre ++ seg ++ rest -> length pre = length l -> ip = length l ->
  ip' = length l + length seg -> ok_handlers hs st ->
  steps code (Running ip (vs ++ st) hs w) (landing ip' st hs (f w)).
Proof. intros H Hc Hm -> Hp -> -> Hh. by apply (H c). Qed.

Lemma step_at pre op rest code ip stack hs w s : code = pre ++ op :: rest -> ip = length pre ->
  steps code (step_op op (S ip) stack hs w) s -> steps code (Running ip stack hs w) s.
Proof. intros -> -> H. eapply steps_l; [by apply step_here|done]. Qed.

Lemma landing_here code ip ip' ys st hs w : ip = ip' ->
  steps code (Running ip (ys ++ st) hs w) (landing ip' st hs (w, Ok ys)).
Proof. intros ->. apply rtc_refl. Qed.

Lemma patch_at (c : compiler) l1 x l2 i op : i = length l1 ->
  patch i op (Gen c (l1 ++ x :: l2)) = (Gen c (l1 ++ op :: l2), Ok tt).
Proof.
  intros ->. unfold patch. cbn [gn_instructions gn_compiler]. rewrite length_app. cbn [length].
  destruct (Nat.ltb_spec (length l1) (length l1 + S (length l2))); [|lia].
  by rewrite <-(Nat.add_0_r (length l1)), insert_app_r.
Qed.

(** ** Null-safe access *)

Lemma unless_null_code body c l : plain_compiler c -> appends body -> exists seg,
  body (Gen c (l ++ [BJumpIfNotNull (length l + 2); BJump 0])) = (Gen c ((l ++ [BJumpIfNotNull (length l + 2); BJump 0]) ++ seg), Ok tt)
  /\ unless_null body (Gen c l)
     = (Gen c (l ++ [BJumpIfNotNull (length l + 2); BJump (length l + 2 + length seg)] ++ seg), Ok tt).
Proof.
  intros Hc Hb. destruct (Hb c (l ++ [BJumpIfNotNull (length l + 2); BJump 0]) Hc) as [seg E]. exists seg. split; [done|].
  unfold unless_null, next_index, push, patch_here, next_index, st_bind. cbn [gn_instructions gn_compiler].
  rewrite <-app_assoc. cbn [app]. rewrite (patch_at c l) by done.
  replace (length (l ++ [BJumpIfNotNull 0; BJump 0])) with (length l + 2) by solve_code. rewrite E.
  cbn [gn_instructions]. rewrite <-!app_assoc. cbn [app].
  change (l ++ BJumpIfNotNull (length l + 2) :: BJump 0 :: seg) with (l ++ [BJumpIfNotNull (length l + 2)] ++ BJump 0 :: seg).
  rewrite app_assoc, (patch_at c (l ++ [_])) by solve_code. rewrite <-app_assoc. cbn [app].
  do 6 f_equal. solve_code.
Qed.

Lemma appends_unless_null body : appends body -> appends (unless_null body).
Proof. intros Hb c l Hc. destruct (unless_null_code body c l Hc Hb) as (seg & _ & E). eauto. Qed.

Lemma does_unless_null body (b : vm_value -> M vm_value) v vs : appends body ->
  does body (v :: vs) (let! u := b v in st_ret (u :: vs)) ->
  does (unless_null body) (v :: vs) (let! u := ev_unless_null v b in st_ret (u :: vs)).
Proof.
  intros Eb Hb c l seg pre rest st hs w Hc Hm Hp Hh. destruct (unless_null_code body c l Hc Eb) as (sb & F & E).
  rewrite E in Hm. injection Hm as Hm. apply app_inv_head in Hm. subst seg. cbn [app].
  eapply (step_at pre); [done|lia|]. cbn [step_op]. unfold ev_unless_null. destruct (is_null v).
  - eapply (step_at (pre ++ [_])); [same_code|solve_code|]. apply (landing_here _ _ _ (v :: vs)). solve_code.
  - eapply (does_at body (v :: vs) _ c _ sb (pre ++ [_; _]) rest); [exact Hb|done|exact F|same_code|solve_code..|done].
Qed.

(** ** Ternary *)

Section Ternary.
Context (rec : cf_expr B -> emission unit) (t e : cf_expr B).

(** What follows the condition. *)
Definition branches : emission unit :=
  let! jump_false := next_index in
  let! _ := push (BJumpIfFalse 0) in
  let! _ := rec t in
  let! jump_end := next_index in
  let! _ := push (BJump 0) in
  let! _ := patch_here jump_false BJumpIfFalse in
  let! _ := rec e in
  patch_here jump_end BJump.

Lemma branches_code c l : plain_compiler c -> appends (rec t) -> appends (rec e) -> exists st se,
  let l1 := l ++ [BJumpIfFalse 0] in
  let l2 := l ++ BJumpIfFalse (length l + 2 + length st) :: st ++ [BJump 0] in
  rec t (Gen c l1) = (Gen c (l1 ++ st), Ok tt) /\ rec e (Gen c l2) = (Gen c (l2 ++ se), Ok tt)
  /\ branches (Gen c l)
     = (Gen c (l ++ BJumpIfFalse (length l + 2 + length st) :: st ++ BJump (length l + 2 + length st + length se) :: se), Ok tt).
Proof.
  intros Hc Ht He. destruct (Ht c (l ++ [BJumpIfFalse 0]) Hc) as [st Et].
  destruct (He c (l ++ BJumpIfFalse (length l + 2 + length st) :: st ++ [BJump 0]) Hc) as [se Ee].
  exists st, se. cbn zeta. split_and!; [done..|].
  unfold branches, next_index, push, patch_here, next_index, st_bind. cbn [gn_instructions gn_compiler]. rewrite Et.
  cbn [gn_instructions gn_compiler]. rewrite <-!app_assoc. cbn [app]. rewrite (patch_at c l) by done.
  replace (length (l ++ BJumpIfFalse 0 :: st ++ [BJump 0])) with (length l + 2 + length st) by solve_code. rewrite Ee.
  cbn [gn_instructions].
  replace ((l ++ BJumpIfFalse (length l + 2 + length st) :: st ++ [BJump 0]) ++ se)
    with ((l ++ BJumpIfFalse (length l + 2 + length st) :: st) ++ BJump 0 :: se) by same_code.
  rewrite (patch_at c) by solve_code.
  replace (length ((l ++ BJumpIfFalse (length l + 2 + length st) :: st) ++ BJump 0 :: se))
    with (length l + 2 + length st + length se) by solve_code.
  do 2 f_equal. same_code.
Qed.

Lemma appends_branches : appends (rec t) -> appends (rec e) -> appends branches.
Proof. intros Ht He c l Hc. destruct (branches_code c l Hc Ht He) as (st & se & _ & _ & E). eauto. Qed.

Lemma does_branches v vs ft fe : leaves (rec t) ft -> leaves (rec e) fe ->
  does branches (v :: vs)
    (let! b := to_condition v in let! u := (if b : bool then ft else fe) in st_ret (u :: vs)).
Proof.
  intros [Et Ht] [Ee He] c l seg pre rest st hs w Hc Hm Hp Hh.
  destruct (branches_code c l Hc Et Ee) as (gt & ge & Ft & Fe & E).
  rewrite E in Hm. injection Hm as Hm. apply app_inv_head in Hm. subst seg. cbn [app].
  eapply (step_at pre); [same_code|lia|]. cbn [step_op app]. unfold st_bind at 1.
  destruct (to_condition v w) as [w1 [b|[x|]|]]; cbn [proceed];
    [|cbn [landing proceed]; rewrite catch_above by done; apply rtc_refl|apply rtc_refl..]. destruct b; cbn [eqb].
  - eapply steps_trans; [eapply (does_at (rec t) vs _ c _ gt (pre ++ [_])); [apply Ht|done|exact Ft|same_code|solve_code..|done]|].
    unfold st_bind. destruct (ft w1) as [w2 [u|[x|]|]]; [|apply rtc_refl..]. cbn [landing proceed app st_ret].
    eapply (step_at (pre ++ _ :: gt)); [same_code|solve_code|]. apply (landing_here _ _ _ (u :: vs)). solve_code.
  - eapply (does_at (rec e) vs _ c _ ge (pre ++ _ :: gt ++ [_])); [apply He|done|exact Fe|same_code|solve_code..|done].
Qed.
End Ternary.

(** ** [?:] *)

Section Elvis.
Context (rec : cf_expr B -> emission unit) (ml : emission unit) (r : cf_expr B).

Definition elvis_code (fallible : bool) : emission unit :=
  let! try_start_idx := next_index in
  let! _ := if fallible then push (BTryStart 0) else st_ret tt in
  let! _ := ml in
  let! _ := if fallible then push BTryEnd else st_ret tt in
  let! jump_idx := next_index in
  let! _ := push (BJumpIfNotNull 0) in
  let! _ := push BPop in
  let! _ := if fallible then
              let! idx := next_index in
              let! _ := push (BJump 0) in
              let! _ := patch_here try_start_idx BTryStart in
              let! _ := push BPop in
              patch_here idx BJump
            else st_ret tt in
  let! _ := rec r in
  patch_here jump_idx BJumpIfNotNull.

Lemma elvis_plain_code c l : plain_compiler c -> appends ml -> appends (rec r) -> exists sl sr,
  let l2 := l ++ sl ++ [BJumpIfNotNull 0; BPop] in
  ml (Gen c l) = (Gen c (l ++ sl), Ok tt) /\ rec r (Gen c l2) = (Gen c (l2 ++ sr), Ok tt)
  /\ elvis_code false (Gen c l)
     = (Gen c (l ++ sl ++ BJumpIfNotNull (length l + length sl + 2 + length sr) :: BPop :: sr), Ok tt).
Proof.
  intros Hc El Er. destruct (El c l Hc) as [sl Fl]. destruct (Er c (l ++ sl ++ [BJumpIfNotNull 0; BPop]) Hc) as [sr Fr].
  exists sl, sr. cbn zeta. split_and!; [done..|].
  unfold elvis_code, next_index, push, patch_here, next_index, st_bind, st_ret. cbn [gn_instructions gn_compiler]. rewrite Fl.
  cbn [gn_instructions gn_compiler]. rewrite <-!app_assoc. cbn [app]. rewrite Fr. cbn [gn_instructions gn_compiler].
  replace ((l ++ sl ++ [BJumpIfNotNull 0; BPop]) ++ sr) with ((l ++ sl) ++ BJumpIfNotNull 0 :: BPop :: sr) by same_code.
  rewrite (patch_at c) by done.
  replace (length ((l ++ sl) ++ BJumpIfNotNull 0 :: BPop :: sr)) with (length l + length sl + 2 + length sr) by solve_code.
  do 2 f_equal. same_code.
Qed.

Lemma elvis_guarded_code c l : plain_compiler c -> appends ml -> appends (rec r) -> exists sl sr h,
  let l1 := l ++ [BTryStart 0] in
  let l2 := l ++ BTryStart h :: sl ++ [BTryEnd; BJumpIfNotNull 0; BPop; BJump (h + 1); BPop] in
  h = length l + length sl + 5
  /\ ml (Gen c l1) = (Gen c (l1 ++ sl), Ok tt) /\ rec r (Gen c l2) = (Gen c (l2 ++ sr), Ok tt)
  /\ elvis_code true (Gen c l)
     = (Gen c (l ++ BTryStart h :: sl
               ++ BTryEnd :: BJumpIfNotNull (h + 1 + length sr) :: BPop :: BJump (h + 1) :: BPop :: sr), Ok tt).
Proof.
  intros Hc El Er. destruct (El c (l ++ [BTryStart 0]) Hc) as [sl Fl]. set (h := length l + length sl + 5).
  destruct (Er c (l ++ BTryStart h :: sl ++ [BTryEnd; BJumpIfNotNull 0; BPop; BJump (h + 1); BPop]) Hc) as [sr Fr].
  exists sl, sr, h. cbn zeta. split_and!; [done..|].
  unfold elvis_code, next_index, push, patch_here, next_index, st_bind, st_ret. cbn [gn_instructions gn_compiler]. rewrite Fl.
  cbn [gn_instructions gn_compiler]. rewrite <-!app_assoc. cbn [app]. rewrite (patch_at c l) by done.
  cbn [gn_instructions gn_compiler].
  replace (length (l ++ BTryStart 0 :: sl ++ [BTryEnd; BJumpIfNotNull 0; BPop; BJump 0])) with h by (unfold h; solve_code).
  replace ((l ++ BTryStart h :: sl ++ [BTryEnd; BJumpIfNotNull 0; BPop; BJump 0]) ++ [BPop])
    with ((l ++ BTryStart h :: sl ++ [BTryEnd; BJumpIfNotNull 0; BPop]) ++ BJump 0 :: [BPop]) by same_code.
  rewrite (patch_at c) by solve_code. cbn [gn_instructions gn_compiler].
  replace (length ((l ++ BTryStart h :: sl ++ [BTryEnd; BJumpIfNotNull 0; BPop]) ++ [BJump 0; BPop]))
    with (h + 1) by (unfold h; solve_code).
  replace ((l ++ BTryStart h :: sl ++ [BTryEnd; BJumpIfNotNull 0; BPop]) ++ [BJump (h + 1); BPop])
    with (l ++ BTryStart h :: sl ++ [BTryEnd; BJumpIfNotNull 0; BPop; BJump (h + 1); BPop]) by same_code.
  rewrite Fr. cbn [gn_instructions gn_compiler].
  replace ((l ++ BTryStart h :: sl ++ [BTryEnd; BJumpIfNotNull 0; BPop; BJump (h + 1); BPop]) ++ sr)
    with ((l ++ BTryStart h :: sl ++ [BTryEnd]) ++ BJumpIfNotNull 0 :: BPop :: BJump (h + 1) :: BPop :: sr) by same_code.
  rewrite (patch_at c) by solve_code. do 2 f_equal.
  replace (length ((l ++ BTryStart h :: sl ++ [BTryEnd]) ++ BJumpIfNotNull 0 :: BPop :: BJump (h + 1) :: BPop :: sr))
    with (h + 1 + length sr) by (unfold h; solve_code). same_code.
Qed.

Lemma appends_elvis b : appends ml -> appends (rec r) -> appends (elvis_code b).
Proof.
  intros El Er c l Hc. destruct b.
  - destruct (elvis_guarded_code c l Hc El Er) as (sl & sr & h & _ & _ & _ & E). eauto.
  - destruct (elvis_plain_code c l Hc El Er) as (sl & sr & _ & _ & E). eauto.
Qed.

Lemma does_elvis_plain vs fl fr : leaves ml fl -> leaves (rec r) fr ->
  does (elvis_code false) vs (let! v := fl in let! u := (if is_null v then fr else st_ret v) in st_ret (u :: vs)).
Proof.
  intros [El Hl] [Er Hr] c l seg pre rest st hs w Hc Hm Hp Hh.
  destruct (elvis_plain_code c l Hc El Er) as (sl & sr & Fl & Fr & E).
  rewrite E in Hm. injection Hm as Hm. apply app_inv_head in Hm. subst seg.
  eapply steps_trans; [eapply (does_at ml vs _ c l sl pre); [apply Hl|done|exact Fl|same_code|done..]|].
  unfold st_bind at 1. unfold st_bind at 1. destruct (fl w) as [w1 [v|[x|]|]]; [|apply rtc_refl..]. cbn [landing proceed app st_ret].
  eapply (step_at (pre ++ sl)); [same_code|solve_code|]. cbn [step_op app].
  destruct (is_null v); [|apply (landing_here _ _ _ (v :: vs)); solve_code].
  eapply (step_at (pre ++ sl ++ [_])); [same_code|solve_code|]. cbn [step_op app drop].
  eapply (does_at (rec r) vs _ c _ sr (pre ++ sl ++ [_; _])); [apply Hr|done|exact Fr|same_code|solve_code..|done].
Qed.

Lemma does_elvis_guarded vs fl fr : leaves ml fl -> leaves (rec r) fr ->
  does (elvis_code true) vs
    (let! v := catching fl in
     let! u := match v with Some v => if is_null v then fr else st_ret v | None => fr end in st_ret (u :: vs)).
Proof.
  intros [El Hl] [Er Hr] c l seg pre rest st hs w Hc Hm Hp Hh.
  destruct (elvis_guarded_code c l Hc El Er) as (sl & sr & h & Eh & Fl & Fr & E).
  rewrite E in Hm. injection Hm as Hm. apply app_inv_head in Hm. subst seg. cbn [app].
  assert (Hright : forall w', steps (pre ++ BTryStart h :: (sl ++ BTryEnd :: BJumpIfNotNull (h + 1 + length sr) :: BPop
      :: BJump (h + 1) :: BPop :: sr) ++ rest) (Running (h + 1) (vs ++ st) hs w')
    (landing (h + 1 + length sr) st hs ((let! u := fr in st_ret (u :: vs)) w'))).
  { intros w'. eapply (does_at (rec r) vs _ c _ sr (pre ++ _ :: sl ++ [_; _; _; _; _]));
      [apply Hr|done|exact Fr|same_code|solve_code..|done]. }
  replace (length l + length (BTryStart h :: sl ++ BTryEnd :: BJumpIfNotNull (h + 1 + length sr) :: BPop
      :: BJump (h + 1) :: BPop :: sr)) with (h + 1 + length sr) by solve_code.
  eapply (step_at pre); [done|lia|]. cbn [step_op].
  eapply steps_trans; [eapply (does_at ml [] _ c _ sl (pre ++ [_]) _ _ _ _ (vs ++ st)
    (TryHandler h (length (vs ++ st)) (capture_state w) :: hs)); [apply Hl|done|exact Fl|same_code|solve_code..|cbn; lia]|].
  unfold st_bind at 1. unfold catching. unfold st_bind at 1. destruct (fl w) as [w1 [v|[x|]|]]; cbn [landing proceed app st_ret].
  - eapply (step_at (pre ++ _ :: sl)); [same_code|solve_code|]. cbn [step_op drop].
    eapply (step_at (pre ++ _ :: sl ++ [_])); [same_code|solve_code|]. cbn [step_op app].
    destruct (is_null v); [|apply (landing_here _ _ _ (v :: vs)); lia].
    eapply (step_at (pre ++ _ :: sl ++ [_; _])); [same_code|solve_code|]. cbn [step_op drop].
    eapply (step_at (pre ++ _ :: sl ++ [_; _; _])); [same_code|solve_code|]. cbn [step_op]. apply Hright.
  - cbn [catch_op_error th_catch_ip th_stack_depth th_mark]. rewrite Nat.sub_diag. cbn [drop].
    eapply (step_at (pre ++ _ :: sl ++ [_; _; _; _])); [same_code|solve_code|]. cbn [step_op drop].
    replace (S h) with (h + 1) by lia. apply Hright.
  - apply rtc_refl.
  - apply rtc_refl.
Qed.
End Elvis.
End Jumps.

(** ** Chains of [and] and [or] *)

Section Short.
Context {U : Unicode} {V : Vm} {B P : Type} (scope : place).
Abbreviation compiler := (Codegen.compiler (P := P)).
Abbreviation gen := (Codegen.gen (P := P)).
Abbreviation emission := (ST gen Empty_set).
Abbreviation M := (ST world (stop vm_value)).
Local Notation appends := (appends (P := P) scope).
Local Notation does := (does (P := P) scope).
Local Notation leaves := (leaves (P := P) scope).
Local Notation plain_compiler := (plain_compiler (P := P) scope).
Context (rec : cf_expr B -> emission unit) (on_true : bool).

(** The operands one after the other, until one decides. *)
Fixpoint decide_among (operands : list (M vm_value)) (otherwise : M vm_value) : M vm_value :=
  match operands with
  | [] => otherwise
  | f :: operands =>
      let! v := f in
      let! t := to_condition v in
      if eqb t on_true then st_ret (vm_bool on_true) else decide_among operands otherwise
  end.

(** The code of operands, with the target of their jumps. *)
Definition operand_code (target : nat) (segs : list (list bytecode_op)) : list bytecode_op :=
  concat (map (fun seg => seg ++ [short_jump on_true target]) segs).

Lemma operand_code_length t segs : length (operand_code t segs) = length (operand_code 0 segs).
Proof. unfold operand_code. induction segs as [|s segs IH]; [done|]. cbn. rewrite !length_app, IH. done. Qed.

(** Each of them is where it was compiled. *)
Fixpoint compiled_at (c : compiler) (l : list bytecode_op) (operands : list (cf_expr B)) (segs : list (list bytecode_op)) : Prop :=
  match operands, segs with
  | [], [] => True
  | x :: operands, seg :: segs =>
      rec x (Gen c l) = (Gen c (l ++ seg), Ok tt) /\ compiled_at c (l ++ seg ++ [short_jump on_true 0]) operands segs
  | _, _ => False
  end.

Fixpoint jumps_of (ip : nat) (segs : list (list bytecode_op)) : list nat :=
  match segs with [] => [] | seg :: segs => (ip + length seg) :: jumps_of (ip + length seg + 1) segs end.

Lemma emit_operands_code c operands l : plain_compiler c -> Forall (fun x => appends (rec x)) operands -> exists segs,
  compiled_at c l operands segs
  /\ emit_operands rec on_true operands (Gen c l) = (Gen c (l ++ operand_code 0 segs), Ok (jumps_of (length l) segs)).
Proof.
  intros Hc. revert l. induction operands as [|x operands IH]; intros l Hx.
  { exists []. split; [done|]. cbn. by rewrite app_nil_r. }
  apply Forall_cons in Hx as [Hx Hs]. destruct (Hx c l Hc) as [seg Ex].
  destruct (IH (l ++ seg ++ [short_jump on_true 0]) Hs) as (segs & Hat & E). exists (seg :: segs). split; [done|].
  cbn [emit_operands]. unfold next_index, push, st_bind, st_ret. rewrite Ex. cbn [gn_instructions gn_compiler].
  rewrite <-app_assoc, E. cbn [jumps_of operand_code map concat]. f_equal; [f_equal; same_code|].
  rewrite !length_app. cbn [length]. do 3 f_equal. lia.
Qed.

Lemma patch_operands (c : compiler) target segs l rest :
  each (fun idx => patch idx (short_jump on_true target)) (jumps_of (length l) segs) (Gen c (l ++ operand_code 0 segs ++ rest))
  = (Gen c (l ++ operand_code target segs ++ rest), Ok tt).
Proof.
  revert l. induction segs as [|seg segs IH]; intros l; [done|]. cbn [jumps_of each]. unfold st_bind.
  change (operand_code 0 (seg :: segs)) with ((seg ++ [short_jump on_true 0]) ++ operand_code 0 segs).
  replace (l ++ ((seg ++ [short_jump on_true 0]) ++ operand_code 0 segs) ++ rest)
    with ((l ++ seg) ++ short_jump on_true 0 :: operand_code 0 segs ++ rest) by same_code.
  rewrite patch_at by solve_code. specialize (IH (l ++ seg ++ [short_jump on_true target])).
  replace (length (l ++ seg ++ [short_jump on_true target])) with (length l + length seg + 1) in IH by solve_code.
  replace ((l ++ seg) ++ short_jump on_true target :: operand_code 0 segs ++ rest)
    with ((l ++ seg ++ [short_jump on_true target]) ++ operand_code 0 segs ++ rest) by same_code.
  rewrite IH. do 2 f_equal. cbn [operand_code map concat]. fold (operand_code target segs). same_code.
Qed.

Lemma operands_code c operands l : plain_compiler c -> Forall (fun x => appends (rec x)) operands -> exists segs t,
  compiled_at c l operands segs /\ t = length l + length (operand_code 0 segs) + 2
  /\ compile_operands rec on_true operands (Gen c l)
     = (Gen c (l ++ operand_code t segs ++ [truth_op (negb on_true); BJump (t + 1); truth_op on_true]), Ok tt).
Proof.
  intros Hc Hx. destruct (emit_operands_code c operands l Hc Hx) as (segs & Hat & E).
  set (t := length l + length (operand_code 0 segs) + 2). exists segs, t. split_and!; [done..|].
  unfold compile_operands, next_index, push, st_bind. rewrite E. cbn [gn_instructions gn_compiler]. rewrite <-!app_assoc. cbn [app].
  rewrite !length_app. cbn [length].
  replace (length l + (length (operand_code 0 segs) + 2)) with t by (unfold t; lia). rewrite (patch_operands c t segs l).
  replace (l ++ operand_code t segs ++ [truth_op (negb on_true); BJump 0; truth_op on_true])
    with ((l ++ operand_code t segs ++ [truth_op (negb on_true)]) ++ BJump 0 :: [truth_op on_true]) by same_code.
  rewrite patch_at by (rewrite !length_app, (operand_code_length t); cbn [length]; lia).
  do 2 f_equal. replace (length l + (length (operand_code 0 segs) + 3)) with (t + 1) by (unfold t; lia). same_code.
Qed.

Lemma appends_operands operands : Forall (fun x => appends (rec x)) operands -> appends (compile_operands rec on_true operands).
Proof. intros Hx c l Hc. destruct (operands_code c operands l Hc Hx) as (segs & t & _ & _ & E). eauto. Qed.

(** From any operand on. *)
Lemma steps_operands c operands fs otherwise code ip_end t vs st hs : plain_compiler c -> ok_handlers hs st ->
  Forall2 (fun x f => leaves (rec x) f) operands fs ->
  (forall w, steps code (Running t (vs ++ st) hs w) (Running ip_end (vm_bool on_true :: vs ++ st) hs w)) ->
  forall segs l pre rest w, compiled_at c l operands segs -> length pre = length l ->
  code = pre ++ operand_code t segs ++ rest ->
  (forall w, steps code (Running (length l + length (operand_code t segs)) (vs ++ st) hs w)
     (landing ip_end st hs ((let! v := otherwise in st_ret (v :: vs)) w))) ->
  steps code (Running (length l) (vs ++ st) hs w)
    (landing ip_end st hs ((let! v := decide_among fs otherwise in st_ret (v :: vs)) w)).
Proof.
  intros Hc Hh Hfs Ht. induction Hfs as [|x f operands fs [Ex Hx] _ IH]; intros segs l pre rest w Hat Hp Hcode Ho.
  { destruct segs; [|done]. cbn in Ho. rewrite Nat.add_0_r in Ho. apply Ho. }
  destruct segs as [|seg segs]; [done|]. destruct Hat as [Fx Hat].
  assert (Hcode' : code = pre ++ seg ++ short_jump on_true t :: operand_code t segs ++ rest)
    by (rewrite Hcode; cbn [operand_code map concat]; fold (operand_code t segs); same_code).
  eapply steps_trans; [eapply (does_at scope (rec x) vs _ c l seg pre); [apply Hx|done|exact Fx|exact Hcode'|solve_code..|done]|].
  cbn [decide_among]. unfold st_bind at 1 2 3. destruct (f w) as [w1 [v|[y|]|]]; [|apply rtc_refl..].
  cbn [landing proceed app st_ret]. eapply (step_at (pre ++ seg)); [rewrite Hcode'; same_code|solve_code|].
  assert (Hj : step_op (short_jump on_true t) (S (length l + length seg)) (v :: vs ++ st) hs w1
    = proceed (to_condition v w1) (vs ++ st) hs (fun b w =>
        Running (if eqb b on_true then t else S (length l + length seg)) (vs ++ st) hs w)) by by destruct on_true.
  change ((v :: vs) ++ st) with (v :: vs ++ st). rewrite Hj, proceed_above by done. unfold st_bind at 1. destruct (to_condition v w1) as [w2 [b|[y|]|]]; [|apply rtc_refl..].
  cbn [proceed]. destruct (eqb b on_true); [apply Ht|].
  replace (S (length l + length seg)) with (length (l ++ seg ++ [short_jump on_true 0])) by solve_code.
  apply (IH segs _ (pre ++ seg ++ [short_jump on_true t]) rest); [done|solve_code|rewrite Hcode'; same_code|].
  intros w'. specialize (Ho w'). cbn [operand_code map concat] in Ho. fold (operand_code t segs) in Ho.
  replace (length (l ++ seg ++ [short_jump on_true 0]) + length (operand_code t segs))
    with (length l + length ((seg ++ [short_jump on_true t]) ++ operand_code t segs)) by solve_code. done.
Qed.

Lemma leaves_operands operands fs : Forall2 (fun x f => leaves (rec x) f) operands fs ->
  leaves (compile_operands rec on_true operands) (decide_among fs (st_ret (vm_bool (negb on_true)))).
Proof.
  intros Hfs. assert (Hx : Forall (fun x => appends (rec x)) operands) by (induction Hfs as [|x f ? ? [? ?]]; by constructor).
  split; [by apply appends_operands|]. intros vs c l seg pre rest st hs w Hc Hm Hp Hh.
  destruct (operands_code c operands l Hc Hx) as (segs & t & Hat & Et & E).
  rewrite E in Hm. injection Hm as Hm. apply app_inv_head in Hm. subst seg.
  pose proof (operand_code_length t segs) as Hl.
  assert (Hop : forall b ip stack hs w, step_op (truth_op b) ip stack hs w = Running ip (vm_bool b :: stack) hs w).
  { intros b ip stack hs' w'. transitivity (proceed (exec (if b then BTrue else BFalse) [] w') stack hs'
      (fun v w => Running ip (v :: stack) hs' w)); [by destruct b|]. by rewrite exec_bool. }
  replace (length l + length (operand_code t segs ++ [truth_op (negb on_true); BJump (t + 1); truth_op on_true])) with (t + 1)
    by (rewrite length_app; cbn [length]; lia).
  eapply (steps_operands c operands fs _ _ _ t); [done|done|done| |exact Hat|exact Hp|same_code|].
  - intros w'. eapply (step_at (pre ++ operand_code t segs ++ [_; _])); [same_code|rewrite !length_app; cbn [length]; lia|].
    rewrite Hop. replace (S t) with (t + 1) by lia. apply rtc_refl.
  - intros w'. eapply (step_at (pre ++ operand_code t segs)); [same_code|rewrite !length_app; lia|]. rewrite Hop.
    eapply (step_at (pre ++ operand_code t segs ++ [_])); [same_code|rewrite !length_app; cbn [length]; lia|].
    apply (landing_here _ _ _ (vm_bool (negb on_true) :: vs)). done.
Qed.

(** ** The nested operators *)

Lemma decide_among_cond fs otherwise : meq (decide_among fs otherwise) (decide_among [decide_among fs (st_ret (vm_bool (negb on_true)))] otherwise).
Proof.
  induction fs as [|f fs IH]; cbn [decide_among].
  - intros w. unfold st_bind, st_ret. rewrite condition_bool. by destruct on_true.
  - rewrite st_bind_assoc. apply st_bind_cong; [done|intros v]. rewrite st_bind_assoc. apply st_bind_cong; [done|intros b].
    destruct (eqb b on_true) eqn:Hb; [|exact IH]. intros w. unfold st_bind, st_ret. rewrite condition_bool. by destruct on_true.
Qed.

Lemma decide_among_app fs gs otherwise : decide_among (fs ++ gs) otherwise = decide_among fs (decide_among gs otherwise).
Proof. induction fs as [|f fs IH]; [done|]. cbn [app decide_among]. by rewrite IH. Qed.

Lemma ev_short_circuit_flat (ev : cf_expr B -> M vm_value) l r :
  meq (ev_short_circuit ev on_true l r) (decide_among [ev l; ev r] (st_ret (vm_bool (negb on_true)))).
Proof.
  unfold ev_short_circuit. cbn [decide_among]. apply st_bind_cong; [done|intros a]. apply st_bind_cong; [done|intros t].
  destruct (eqb t on_true); [done|]. apply st_bind_cong; [done|intros b]. apply st_bind_cong; [done|intros t'].
  by destruct t', on_true.
Qed.
End Short.

(** ** Values, lists of values, and values replaced *)

Section Layer.
Context {U : Unicode} {V : Vm} {B P : Type} (scope : place).
Abbreviation expr := (cf_expr B).
Abbreviation compiler := (Codegen.compiler (P := P)).
Abbreviation gen := (Codegen.gen (P := P)).
Abbreviation emission := (ST gen Empty_set).
Abbreviation M := (ST world (stop vm_value)).
Local Notation appends := (appends (P := P) scope).
Local Notation does := (does (P := P) scope).
Local Notation leaves := (leaves (P := P) scope).
Local Notation plain_compiler := (plain_compiler (P := P) scope).

Lemma does_op op args vs vs0 g m : vs0 = rev args ++ vs -> signature op = Some (length args, true) -> appends m ->
  (forall v, does m (v :: vs) (g v)) -> does (let! _ := push op in m) vs0 (let! v := exec op args in g v).
Proof. intros ->. apply does_exec. Qed.
Lemma does_op_end op args vs vs0 : vs0 = rev args ++ vs -> signature op = Some (length args, true) ->
  does (push op) vs0 (let! v := exec op args in st_ret (v :: vs)).
Proof. intros -> Hs. apply does_emit_end, does_exec; [done|apply appends_ret|]. intros v. apply does_ret. Qed.
Lemma does_do op args vs vs0 g m : vs0 = rev args ++ vs -> signature op = Some (length args, false) -> appends m ->
  does m vs g -> does (let! _ := push op in m) vs0 (let! _ := exec op args in g).
Proof. intros ->. apply does_effect. Qed.

Lemma leaves_op op : signature op = Some (0, true) -> leaves (push op) (exec op []).
Proof. intros Hs. split; [apply appends_push|]. intros vs. by apply (does_op_end op []). Qed.

Lemma leaves_ext m f f' : meq f f' -> leaves m f' -> leaves m f.
Proof. intros E [Hm Hr]. split; [done|]. intros vs. eapply does_ext; [|apply Hr]. intros w. by apply st_bind_cong. Qed.

(** What the compiler looks up about the place. *)
Lemma appends_asks {A} (q : compiler -> A) a (m : A -> emission unit) : (forall c, plain_compiler c -> q c = a) -> appends (m a) ->
  appends (let! b := asks q in m b).
Proof. intros Hq H c l Hc. unfold st_bind, asks. cbn [gn_compiler]. rewrite (Hq c Hc). by apply H. Qed.
Lemma does_asks {A} (q : compiler -> A) a (m : A -> emission unit) vs f : (forall c, plain_compiler c -> q c = a) -> does (m a) vs f ->
  does (let! b := asks q in m b) vs f.
Proof.
  intros Hq H c l seg pre rest st hs w Hc Hm. unfold st_bind, asks in Hm. cbn [gn_compiler] in Hm. rewrite (Hq c Hc) in Hm.
  by apply (H c).
Qed.
Lemma asks_function c : plain_compiler c -> local_is_scope c = in_function scope.
Proof. by intros (_ & H & _). Qed.
Lemma asks_page c : plain_compiler c -> on_plain_page c = on_page scope.
Proof. by intros (_ & _ & H). Qed.

Lemma does_each {A} (f : A -> emission unit) (g : A -> M vm_value) l vs k m : Forall (fun x => leaves (f x) (g x)) l -> appends m ->
  (forall ys, length ys = length l -> does m (rev ys ++ vs) (k ys)) ->
  does (let! _ := each f l in m) vs (let! ys := ev_each g l in k ys).
Proof.
  intros Hl Em. revert vs k. induction Hl as [|x l Hx Hl IH]; intros vs k Hk; cbn [each ev_each].
  { apply does_emit_ret, does_ret_l. by apply (Hk []). }
  assert (El : appends (each f l)) by (apply appends_each; eapply Forall_impl; [exact Hl|]; by intros ? []).
  apply does_emit_assoc, does_assoc, does_value; [done|by apply appends_bind|]. intros v. apply does_assoc, IH.
  intros ys Hy. apply does_ret_l. specialize (Hk (v :: ys)). cbn [rev length] in Hk. rewrite <-app_assoc in Hk.
  cbn [app] in Hk. auto.
Qed.

(** Code that leaves [n] values. *)
Definition yields (n : nat) (m : emission unit) (g : M (list vm_value)) : Prop :=
  appends m /\ forall m' vs k, appends m' -> (forall ys, length ys = n -> does m' (rev ys ++ vs) (k ys)) ->
    does (let! _ := m in m') vs (let! ys := g in k ys).

Lemma yields_each {A} n (f : A -> emission unit) (g : A -> M (list vm_value)) l :
  Forall (fun x => yields n (f x) (g x)) l -> yields (length l * n) (each f l) (ev_flat g l).
Proof.
  induction 1 as [|x l [Ex Hx] _ [El Hl]]; cbn [each ev_flat].
  { split; [apply appends_ret|]. intros m' vs k Em Hk. apply does_emit_ret, does_ret_l. by apply (Hk []). }
  split; [by apply appends_bind|]. intros m' vs k Em Hk. apply does_emit_assoc, does_assoc.
  apply Hx; [by apply appends_bind|]. intros ys Hy. apply does_assoc, Hl; [done|]. intros zs Hz. apply does_ret_l.
  specialize (Hk (ys ++ zs)). rewrite rev_app_distr, length_app, <-app_assoc in Hk. apply Hk. cbn. lia.
Qed.

Lemma appends_each_leaves {A} (f : A -> emission unit) (g : A -> M vm_value) l : Forall (fun x => leaves (f x) (g x)) l -> appends (each f l).
Proof. intros Hl. apply appends_each. eapply Forall_impl; [exact Hl|]. by intros ? []. Qed.

(** Code that replaces the value on top of the stack. *)
Definition turns (m : emission unit) (f : vm_value -> M vm_value) : Prop :=
  appends m /\ forall v vs, does m (v :: vs) (let! u := f v in st_ret (u :: vs)).

Lemma does_turn m1 m2 v vs f g : turns m1 f -> appends m2 -> (forall u, does m2 (u :: vs) (g u)) ->
  does (let! _ := m1 in m2) (v :: vs) (let! u := f v in g u).
Proof.
  intros [E1 H1] E2 H2. eapply does_ext; [|apply (does_seq scope m1 m2 (v :: vs) _ (fun ys => match ys with v :: _ => g v | [] => st_panic end) E1 E2 (H1 v vs))].
  - intros w. symmetry. rewrite st_bind_assoc. apply st_bind_cong; [done|]. by intros u s.
  - intros w w' ys Ef. unfold st_bind, st_ret in Ef. destruct (f v w) as [w1 [u| |]]; try discriminate Ef.
    injection Ef as -> <-. apply H2.
Qed.

Lemma turns_each {A} (f : A -> emission unit) (g : vm_value -> A -> M vm_value) l :
  Forall (fun x => turns (f x) (fun acc => g acc x)) l -> turns (each f l) (fun acc => st_foldM g acc l).
Proof.
  induction 1 as [|x l Hx _ [El Hl]]; cbn [each st_foldM].
  { split; [apply appends_ret|]. intros v vs. apply does_ret_l, does_ret. }
  split; [apply appends_bind; [apply Hx|done]|]. intros v vs. apply does_assoc.
  apply (does_turn (f x) (each f l) v vs (fun acc => g acc x)); [done..|]. intros u. apply Hl.
Qed.

Lemma does_leaves m f vs : leaves m f -> does m vs (let! v := f in st_ret (v :: vs)).
Proof. by intros [_ H]. Qed.
Lemma turns_emits m f : turns m f -> appends m.
Proof. by intros [H _]. Qed.
Lemma leaves_emits m f : leaves m f -> appends m.
Proof. by intros [H _]. Qed.
End Layer.

Create HintDb codegen.
#[export] Hint Resolve appends_ret appends_push appends_pushes appends_bind appends_unless_null leaves_emits turns_emits appends_each_leaves leaves_op : codegen.

(** Through code that is executed in sequence. *)
Ltac emitted := eauto 12 with codegen.
Ltac code_step :=
  lazymatch goal with
  | |- context [pushes] => unfold pushes; cbn [each]
  | |- turns _ _ _ => split; [emitted|intros ?v vs]
  | |- leaves _ _ _ => first [solve [emitted]|split; [emitted|intros vs]]
  | |- Forall _ _ => solve [emitted]
  | |- does _ (let! _ := (let! _ := _ in _) in _) _ _ => apply does_emit_assoc
  | |- does _ (let! _ := st_ret _ in _) _ _ => apply does_emit_ret
  | |- does _ _ _ (let! _ := (let! _ := _ in _) in _) => apply does_assoc
  | |- does _ _ _ (let! _ := st_ret _ in _) => apply does_ret_l
  | |- does _ (st_ret _) _ (st_ret _) => apply does_ret
  | |- does _ (let! _ := push BDup in _) _ _ => apply does_dup; [emitted|]
  | |- does _ (let! _ := push BSwap in _) _ _ => apply does_swap; [emitted|]
  | |- does _ (let! _ := push BPop in _) _ _ => apply does_pop; [emitted|]
  | |- does _ (let! _ := push _ in _) _ (let! _ := exec _ _ in _) =>
      first [eapply does_op; [reflexivity|reflexivity|emitted|intros ?v]
            |eapply does_do; [reflexivity|reflexivity|emitted|]]
  | |- does _ (push _) _ (let! v := exec _ _ in st_ret (v :: _)) => eapply does_op_end; reflexivity
  | |- does _ (push _) _ _ => apply does_emit_end
  | |- does _ (let! _ := each _ _ in _) _ (let! _ := ev_each _ _ in _) => eapply does_each; [|emitted|intros ?ys ?Hys]
  | H : turns _ ?m1 ?f |- does _ (let! _ := ?m1 in _) (?v :: _) (let! _ := ?f ?v in _) =>
      apply (does_turn _ _ _ _ _ f); [exact H|emitted|intros ?v]
  | H : turns _ ?m1 ?f |- does _ ?m1 (?v :: _) (let! _ := ?f ?v in _) => apply H
  | |- does _ (unless_null _) _ (let! _ := ev_unless_null _ _ in _) => apply does_unless_null; [emitted|]
  | |- does _ (let! _ := _ in _) _ (let! _ := _ in _) => eapply does_value; [|emitted|intros ?v]
  | |- does _ _ _ _ => apply does_leaves
  end.
