(* ===== verification/CodegenCorrect.v ===== *)
(** * CodegenCorrect: the compiler is correct on expressions

    Reads, stores, calls and literals, then assignments, then all expressions:
    the code of a valued expression does what its evaluation does, from every
    place of every program and with every stack below; the evaluation has the
    fuel it needs; an assignment that is a statement stores and leaves the stack
    empty. *)

From Stdlib Require Import Strings.Ascii.
From stdpp Require Import base list numbers strings relations.
From S2P Require Import Prelude Text Float64 Value QoqLexer CfmlLexer CfmlAst CfmlParser Bytecode Codegen CodegenEval.
From S2P Require Import CodegenFacts.
Local Open Scope nat_scope.
Local Open Scope st_scope.

Section Parts.
Context {U : Unicode} {V : Vm} {B P : Type} (scope : place).
Abbreviation expr := (cf_expr B).
Abbreviation compiler := (Codegen.compiler (P := P)).
Abbreviation gen := (Codegen.gen (P := P)).
Abbreviation emission := (ST gen Empty_set).
Abbreviation M := (ST world (stop vm_value)).
Local Notation appends := (appends (P := P) scope).
Local Notation does := (does (P := P) scope).
Local Notation leaves := (leaves (P := P) scope).
Local Notation plain_compiler := (plain_compiler (P := P) scope).

(** Expressions of the height [h] are compiled to what they mean. *)
Context (rec : expr -> emission unit) (ev : expr -> M vm_value) (h : nat).
Definition within (x : expr) : Prop := valued x /\ height x <= h.
Context (Hrec : forall x, within x -> leaves (rec x) (ev x)).

Lemma appends_rec x : within x -> appends (rec x).
Proof. intros Hx. by destruct (Hrec x Hx). Qed.
#[local] Hint Resolve Hrec appends_rec : codegen.

Lemma within_member x m ns loc : within (XMemberAccess x m ns loc) -> within x.
Proof. intros [Hv Hh]. inv Hv. cbn in Hh. split; [done|lia]. Qed.
Lemma within_index x y loc : within (XArrayAccess x y loc) -> within x /\ within y.
Proof. intros [Hv Hh]. inv Hv. cbn in Hh. split_and!; split; try done; lia. Qed.

(** ** Reads *)

Lemma signature_fused b o m op : fused_read (B := B) b o m = Some op -> signature op = Some (0, true).
Proof.
  unfold fused_read. destruct o; try discriminate. destruct (eq_ignore_ascii_case _ _), b; try (by intros [= <-]);
  destruct (eq_ignore_ascii_case _ _); try (by intros [= <-]); destruct (is_reserved_scope_name _); try discriminate; by intros [= <-].
Qed.

Lemma leaves_tolerant e : within e -> leaves (compile_member_read_tolerant rec e) (ev_tolerant ev e).
Proof.
  induction e; intros Hf; cbn [compile_member_read_tolerant ev_tolerant]; try (by apply Hrec).
  - destruct (self_is_reserved_scope_name name); [by apply Hrec|by apply leaves_op].
  - destruct null_safe; [by apply Hrec|]. destruct (fused_read true _ _) eqn:E.
    + apply leaves_op. by eapply signature_fused.
    + apply within_member in Hf. specialize (IHe Hf). repeat code_step.
  - apply within_index in Hf as [Ha Hi]. specialize (IHe1 Ha). repeat code_step; auto.
Qed.

Lemma leaves_null_tolerant e : within e -> leaves (compile_null_tolerant rec e) (ev_null_tolerant ev e).
Proof. intros Hf. pose proof (leaves_tolerant e Hf). destruct e; auto. by apply leaves_op. Qed.

Lemma leaves_load e : within e -> leaves (emit_load_for_writeback rec e) (ev_load ev e).
Proof.
  induction e; intros Hf; cbn [emit_load_for_writeback ev_load]; try (by apply leaves_op).
  - apply leaves_op. by destruct (self_is_reserved_scope_name name).
  - destruct (is_ident_named _ _); [by apply leaves_op|]. apply within_member in Hf. specialize (IHe Hf). repeat code_step.
  - apply within_index in Hf as [Ha Hi]. specialize (IHe1 Ha). repeat code_step; auto.
Qed.

(** ** Stores *)

Definition stores (m : emission unit) (f : vm_value -> M unit) : Prop :=
  appends m /\ forall v vs, does m (v :: vs) (let! _ := f v in st_ret vs).

Lemma stores_local_key m : stores (store_local_key m) (write_local_key scope m).
Proof.
  unfold store_local_key, write_local_key. split.
  - eapply appends_asks; [apply asks_function|]. destruct (in_function scope); emitted.
  - intros v vs. eapply does_asks; [apply asks_function|]. destruct (in_function scope); repeat code_step.
Qed.

Lemma stores_back o : within o -> stores (emit_nested_writeback rec o) (write_back scope ev o).
Proof.
  induction o; intros Hf; cbn [emit_nested_writeback write_back]; try (split; [emitted|intros v0 vs; repeat code_step]; fail).
  - destruct (is_ident_named _ _); [apply stores_local_key|].
    destruct (is_ident_named _ _ && _); [split; [emitted|intros v vs; repeat code_step]|].
    apply within_member in Hf. destruct (IHo Hf) as [Eo Ho]. pose proof (leaves_load o Hf) as Hl.
    split; [emitted|]. intros v vs. repeat code_step. apply Ho.
  - apply within_index in Hf as [Ha Hi]. destruct (IHo1 Ha) as [Eo Ho]. pose proof (leaves_load o1 Ha) as Hl.
    split; [emitted|]. intros v vs. repeat code_step; auto.
Qed.

(** ** Members and calls *)

Definition all_fit (l : list expr) : Prop := Forall within l.

Lemma within_arg_value x : within x -> within (arg_value x).
Proof. destruct x; try done. intros [Hv Hh]. inv Hv. cbn in *. split; [done|lia]. Qed.

Lemma args_leave l : all_fit l -> Forall (fun x => leaves (rec x) (ev x)) l.
Proof. intros Hl. eapply Forall_impl; [exact Hl|]. intros x Hx. by apply Hrec. Qed.
Lemma arg_values_leave l : all_fit l -> Forall (fun x => leaves (rec (arg_value x)) (ev (arg_value x))) l.
Proof. intros Hl. eapply Forall_impl; [exact Hl|]. intros x Hx. by apply Hrec, within_arg_value. Qed.
Lemma appends_args l : all_fit l -> appends (each rec l).
Proof. intros Hl. by eapply appends_each_leaves, args_leave. Qed.
Lemma appends_arg_values l : all_fit l -> appends (each (fun a => rec (arg_value a)) l).
Proof. intros Hl. by apply (appends_each_leaves _ _ (fun x => ev (arg_value x))), arg_values_leave. Qed.
#[local] Hint Resolve args_leave arg_values_leave appends_args appends_arg_values : codegen.

(** A call with a receiver or function below its arguments. *)
Lemma does_call op x ys vs : signature op = Some (S (length ys), true) ->
  does (push op) (rev ys ++ x :: vs) (let! v := exec op (x :: ys) in st_ret (v :: vs)).
Proof. intros Hs. apply does_op_end; [|done]. cbn [rev]. by rewrite <-app_assoc. Qed.

Lemma few_u32 l : few (B := B) l -> N.to_nat (as_u32 (length l)) = length l.
Proof. intros Hl. unfold few in Hl. unfold as_u32. rewrite N.mod_small by done. lia. Qed.

Lemma signature_method l (m : str) wb (b : bool) : few (B := B) l ->
  signature (if b then BCallMethodNamed m (NamedMethodCall (map arg_name l) wb) (as_u32 (length l))
             else BCallMethod m (as_u32 (length l)) wb) = Some (S (length l), true).
Proof. intros Hl. destruct b; cbn; by rewrite few_u32. Qed.

Lemma leaves_static_holder class : within class -> leaves (compile_static_holder rec class) (ev_static_holder ev class).
Proof. intros Hf. unfold compile_static_holder, ev_static_holder. destruct (static_class_name class); [by apply leaves_op|auto]. Qed.
#[local] Hint Resolve leaves_static_holder : codegen.

Lemma leaves_static_call class m args : few args -> within class -> all_fit args ->
  leaves (compile_static_call rec class m args) (ev_static_call ev class m args).
Proof.
  intros Hn Hc Ha. unfold compile_static_call, ev_static_call. repeat code_step.
  apply does_call. rewrite Hys. by apply signature_method.
Qed.

Lemma leaves_member o m ns : within o -> leaves (compile_member rec o m ns) (ev_member ev o m ns).
Proof.
  intros Hf. unfold compile_member, ev_member. destruct ns.
  - pose proof (leaves_null_tolerant o Hf).
    repeat code_step.
  - destruct (is_ident_named o "variables"); [by apply leaves_op|]. destruct (fused_read false o m) eqn:E.
    + apply leaves_op. by eapply signature_fused.
    + repeat code_step.
Qed.

Lemma leaves_method_call o m args ns : few args -> within o -> all_fit args ->
  leaves (compile_method_call rec o m args ns) (ev_method_call ev o m args ns).
Proof.
  intros Hn Ho Ha. unfold compile_method_call, ev_method_call.
  assert (Hbase : leaves (match o with XIdentifier name _ => push (BTryLoadLocal name) | _ => rec o end)
    (match o with XIdentifier name _ => exec (BTryLoadLocal name) [] | _ => ev o end))
    by (destruct o; auto; by apply leaves_op).
  destruct ns; repeat code_step; (apply does_call; rewrite Hys; by apply signature_method).
Qed.

Lemma leaves_callee name : within name -> leaves (compile_callee rec name) (ev_callee ev name).
Proof. intros Hf. unfold compile_callee, ev_callee. destruct name; auto. by apply leaves_op. Qed.
#[local] Hint Resolve leaves_callee : codegen.

Lemma within_spread x : within (XSpread x) -> within x.
Proof. intros [Hv Hh]. inv Hv. cbn in *. split; [done|lia]. Qed.

Lemma turns_spread_elements l : all_fit l -> turns scope (compile_spread_elements rec l) (ev_spread_elements ev l).
Proof.
  intros Hl. apply turns_each. eapply Forall_impl; [exact Hl|]. intros x Hx. destruct x; try (repeat code_step; fail).
  apply within_spread in Hx. repeat code_step.
Qed.

Lemma trim_start_length s : length (trim_start s) <= length s.
Proof. induction s as [|c s IH]; cbn; [done|]. destruct (uc_whitespace c); cbn; lia. Qed.
Lemma trim_length s : length (trim s) <= length s.
Proof.
  unfold trim, trim_end. rewrite length_rev. pose proof (trim_start_length (rev (trim_start s))) as H.
  rewrite length_rev in H. pose proof (trim_start_length s). lia.
Qed.
Lemma split_dots_length s : length (split_dots s) <= S (length s).
Proof.
  induction s as [|c s IH]; cbn; [done|]. destruct (ch_is "." c); cbn; [lia|]. destruct (split_dots s); cbn in *; lia.
Qed.

(** [evaluate("a.b.c")] is the path itself. *)
Lemma path_fits parts loc (e : expr) : valued e ->
  let p := foldl (fun e part => XMemberAccess e part false loc) e parts in valued p /\ height p = height e + length parts.
Proof.
  revert e. induction parts as [|x parts IH]; intros e He; cbn [foldl length].
  - split; [done|]. lia.
  - destruct (IH (XMemberAccess e x false loc)) as [Hv Hh]; [by constructor|]. split; [done|]. rewrite Hh. cbn. lia.
Qed.

Lemma plain_path_fits text loc p : plain_variable_path_expr (B := B) text loc = Some p -> within (XLiteral (LString text) loc) -> within p.
Proof.
  unfold plain_variable_path_expr. intros Hp [_ Hh]. cbn [height] in Hh. pose proof (split_dots_length (trim text)) as Hs.
  pose proof (trim_length text). destruct (split_dots (trim text)) as [|x parts]; [done|].
  destruct (_ || _); [done|]. destruct (forallb _ _); [|done]. injection Hp as <-.
  destruct (path_fits parts loc (XIdentifier x loc)) as [Hv He]; [constructor|]. split; [done|]. rewrite He. cbn in *. lia.
Qed.

Lemma special_call_leaves name args : all_fit args ->
  option_Forall2 leaves (special_call rec name args) (ev_special_call ev name args).
Proof.
  intros Ha. unfold special_call, ev_special_call. destruct name; try constructor.
  - destruct args as [|arg [|]]; try constructor. apply Forall_cons in Ha as [Harg _].
    match goal with |- option_Forall2 _ (match ?p with _ => _ end) _ => set (path := p) end.
    assert (Hpath : forall p, path = Some p -> within p).
    { subst path. destruct (eq_ignore_ascii_case _ _); [|done]. destruct arg; try done. destruct v; try done. intros p Hp.
      by eapply plain_path_fits. }
    destruct path as [p|]; [constructor; auto|]. clear Hpath.
    destruct (_ && _).
    + destruct arg; try constructor. destruct v; constructor. by apply leaves_op.
    + destruct (bool_decide _); [|constructor]. pose proof (leaves_tolerant _ Harg) as Ht.
      destruct arg; try apply None_Forall2; apply Some_Forall2; repeat code_step.
  - repeat code_step. apply does_op_end; [done|]. by rewrite Hys.
Qed.

Context (is_direct_builtin : str -> bool).

Lemma leaves_plain_call name args : within name -> all_fit args ->
  leaves (compile_plain_call is_direct_builtin rec name args) (ev_plain_call is_direct_builtin ev name args).
Proof.
  intros Hn Ha. unfold compile_plain_call, ev_plain_call. destruct (direct_name is_direct_builtin name (length args)) eqn:E.
  - repeat code_step. apply does_op_end; [done|]. rewrite Hys. cbn [signature]. do 2 f_equal. unfold direct_name in E.
    destruct name; try done. destruct (Nat.leb_spec (length args) 255); [|done]. unfold as_u8. rewrite N.mod_small by lia. lia.
  - repeat code_step. apply does_call. by rewrite Hys.
Qed.

Lemma leaves_call name args : within name -> all_fit args ->
  leaves (compile_call is_direct_builtin rec name args) (ev_call is_direct_builtin ev name args).
Proof.
  intros Hn Ha. unfold compile_call, ev_call. destruct (special_call_leaves name args Ha) as [m f Hmf|]; [done|].
  pose proof (turns_spread_elements args Ha) as Hs. pose proof (leaves_plain_call name args Hn Ha) as Hp.
  destruct (existsb is_spread args); [by repeat code_step|].
  assert (Hnamed : leaves (let! _ := compile_callee rec name in let! _ := each (fun a => rec (arg_value a)) args in
                           push (BCallNamed (map arg_name args) (length args)))
    (let! f := ev_callee ev name in let! vs := ev_each (fun a => ev (arg_value a)) args in
     exec (BCallNamed (map arg_name args) (length args)) (f :: vs)))
    by (repeat code_step; apply does_call; by rewrite Hys).
  destruct name; destruct (existsb is_named args); try done; apply within_index in Hn as [Ho Hm];
    repeat code_step; apply does_op_end; cbn; rewrite <-?app_assoc, ?Hys; done.
Qed.

(** ** Literals *)

Lemma leaves_array l : all_fit l -> leaves (compile_array rec l) (ev_array ev l).
Proof.
  intros Hl. unfold compile_array, ev_array. pose proof (turns_spread_elements l Hl) as Hs.
  destruct (existsb is_spread l); repeat code_step. apply does_op_end; [done|]. by rewrite Hys.
Qed.

Lemma leaves_key k : within k -> leaves (compile_key rec k) (ev_key ev k).
Proof. intros Hf. unfold compile_key, ev_key. destruct k; auto. by apply leaves_op. Qed.
#[local] Hint Resolve leaves_key : codegen.

Definition pair_fits (p : expr * expr) : Prop := within p.1 /\ within p.2.

Lemma turns_merge ps : Forall pair_fits ps ->
  turns scope (each (fun p => if is_spread p.1 then let! _ := rec p.2 in push BMergeStructs
                              else
                                let! _ := compile_key rec p.1 in
                                let! _ := rec p.2 in
                                pushes [BBuildStruct 1; BMergeStructs]) ps) (ev_merge ev ps).
Proof.
  intros Hl. apply turns_each. eapply Forall_impl; [exact Hl|]. intros p [Hk Hv]. destruct (is_spread p.1); repeat code_step.
Qed.

Lemma yields_pairs ps : Forall pair_fits ps ->
  yields scope (length ps * 2) (each (fun p => let! _ := compile_key rec p.1 in rec p.2) ps) (ev_pairs ev ps).
Proof.
  intros Hl. apply yields_each. eapply Forall_impl; [exact Hl|]. intros p [Hk Hv]. split; [emitted|].
  intros m' vs k Em Hm. repeat code_step. by apply (Hm [v; v0]).
Qed.

Inductive node_fits : struct_key_node (B := B) -> Prop :=
  | leaf_fits e : within e -> node_fits (Leaf e)
  | branch_fits cs : Forall (fun p => (forall e, p.1 = ComputedKey e -> within e) /\ node_fits p.2) cs -> node_fits (Branch cs).

Lemma leaves_node node : node_fits node -> leaves (emit_struct_node rec node) (ev_struct_node ev node).
Proof.
  revert node. fix IH 2. intros node [e He|cs Hcs]; cbn [emit_struct_node ev_struct_node]; [by apply Hrec|].
  assert (Hl : Forall (fun p => (forall e, p.1 = ComputedKey e -> within e)
    /\ leaves (emit_struct_node rec p.2) (ev_struct_node ev p.2)) cs).
  { induction Hcs as [|p cs [Hk Hn] _ IHc]; constructor; [|exact IHc]. split; [exact Hk|]. exact (IH _ Hn). }
  clear IH Hcs. set (b := forallb _ cs).
  match goal with |- leaves (let! _ := each ?f cs in _) (let! _ := ev_flat ?g cs in _) =>
    assert (Hy : yields scope (length cs * if b then 1 else 2) (each f cs) (ev_flat g cs)) end.
  { apply yields_each. eapply Forall_impl; [exact Hl|]. intros [key n] [Hk Hn]. cbn [fst snd] in *.
    assert (Hkey : leaves match key with StaticKey s => push (BString s) | ComputedKey e => rec e end
      match key with StaticKey s => exec (BString s) [] | ComputedKey e => ev e end)
      by (destruct key; [by apply leaves_op|by apply Hrec, Hk]).
    destruct b; (split; [emitted|]); intros m' vs k Em Hm; repeat code_step; [by apply (Hm [v])|by apply (Hm [v; v0])]. }
  destruct Hy as [Ey Hy]. split; [emitted|]. intros vs. apply does_assoc, Hy; [emitted|]. intros ys Hys.
  apply does_op_end; [done|]. rewrite Hys. destruct b; cbn [signature]; [rewrite length_map, Nat.mul_1_r|]; done.
Qed.

Definition children_fit (cs : list (node_key * struct_key_node)) : Prop :=
  Forall (fun p => (forall e, p.1 = ComputedKey e -> within e) /\ node_fits p.2) cs.

Lemma set_child_fits head node cs : children_fit cs -> (forall old, (forall n, old = Some n -> node_fits n) -> node_fits (node old)) ->
  children_fit (set_child head node cs).
Proof.
  intros Hcs Hn. unfold set_child. destruct (position _ cs).
  - apply Forall_alter; [done|]. intros p _ [Hk Hp]. split; [done|]. apply Hn. by intros n' [= <-].
  - apply Forall_app_2; [done|]. constructor; [|done]. split; [done|]. by apply Hn.
Qed.

Lemma insert_struct_path_fits segs value cs : children_fit cs -> within value -> children_fit (insert_struct_path segs value cs).
Proof.
  intros Hcs Hv. revert cs Hcs. induction segs as [|head [|next rest] IH]; intros cs Hcs; [done| |].
  - apply set_child_fits; [done|]. intros old _. by constructor.
  - apply set_child_fits; [done|]. intros old Ho. constructor. apply IH. destruct old as [[e|children]|]; try constructor.
    pose proof (Ho _ eq_refl) as Hb. by inv Hb.
Qed.

Lemma struct_tree_fits ps : Forall pair_fits ps -> node_fits (Branch (foldl insert_struct_pair [] ps)).
Proof.
  intros Hps. constructor. change (children_fit (foldl insert_struct_pair [] ps)).
  assert (Hcs : children_fit []) by constructor. revert Hcs. generalize (@nil (node_key (B := B) * struct_key_node (B := B))).
  induction Hps as [|p ps [Hk Hv] _ IH]; intros cs Hcs; [done|]. cbn [foldl]. apply IH. unfold insert_struct_pair.
  destruct (flatten_struct_key_path p.1); [by apply insert_struct_path_fits|].
  apply Forall_app_2; [done|]. constructor; [|done]. split; [by intros e [= <-]|by constructor].
Qed.

Lemma leaves_struct ps : Forall pair_fits ps -> leaves (compile_struct rec ps) (ev_struct ev ps).
Proof.
  intros Hps. unfold compile_struct, ev_struct. destruct (existsb _ ps).
  { pose proof (turns_merge ps Hps) as Hm. repeat code_step. }
  destruct (existsb _ ps); [by apply leaves_node, struct_tree_fits|].
  destruct (mapM (fun p => static_name p.1) ps) as [keys|] eqn:E.
  - assert (Hv : Forall (fun p => leaves (rec p.2) (ev p.2)) ps)
      by (eapply Forall_impl; [exact Hps|]; intros p [_ Hp]; auto).
    pose proof (appends_each_leaves scope _ _ _ Hv) as Em. split; [emitted|]. intros vs. code_step. eapply does_each; [exact Hv|emitted|].
    intros ys Hys. apply does_op_end; [done|]. cbn [signature]. apply length_mapM in E. congruence.
  - destruct (yields_pairs ps Hps) as [Ey Hy]. split; [emitted|]. intros vs. apply does_assoc, Hy; [emitted|]. intros ys Hys.
    apply does_op_end; [done|]. by rewrite Hys.
Qed.

Lemma leaves_new_args class mc args : leaves mc class -> all_fit args ->
  leaves (let! _ := mc in compile_new_args rec args) (let! c := class in ev_new_args ev c args).
Proof.
  intros Hc Ha. unfold compile_new_args, ev_new_args. destruct (existsb is_named args); repeat code_step;
    (apply does_call; by rewrite Hys).
Qed.

Lemma leaves_class name : within name -> leaves (match flatten_member_access name with Some path => push (BString path) | None => rec name end)
  (ev_class ev name).
Proof. intros Hf. unfold ev_class. destruct (flatten_member_access name); [by apply leaves_op|auto]. Qed.

Lemma max_of_le {A} (f : A -> nat) n l : max_of f l <= n -> Forall (fun x => f x <= n) l.
Proof. induction l as [|x l IH]; intros Hm; constructor; change (max_of f (x :: l)) with (Nat.max (f x) (max_of f l)) in Hm; [lia|apply IH; lia]. Qed.
Lemma all_fit_le l : Forall valued l -> max_of height l <= h -> all_fit l.
Proof. intros Hv Hm%max_of_le. apply Forall_and. by split. Qed.

Lemma within_call x l loc : within (XFunctionCall x l loc) -> within x /\ all_fit l.
Proof. intros [Hv Hh]. inv Hv. cbn in Hh. split; [split; [done|lia]|]. apply all_fit_le; [done|lia]. Qed.

Lemma leaves_new class args : within class -> all_fit args -> leaves (compile_new rec class args) (ev_new ev class args).
Proof.
  intros Hc Ha. unfold compile_new, ev_new. pose proof (leaves_class class Hc) as Hn. unfold ev_class in *.
  destruct class; try (by apply leaves_new_args; [exact Hn|]).
  apply within_call in Hc as [Hx Hl]. apply leaves_new_args; [|done]. by apply (leaves_class class).
Qed.

Lemma leaves_interpolation parts : all_fit parts -> leaves (compile_interpolation rec parts) (ev_interpolation ev parts).
Proof.
  intros Hp. unfold compile_interpolation, ev_interpolation. destruct Hp as [|p ps Hp Hps]; [by apply leaves_op|].
  assert (Hc : turns scope (each (fun p => let! _ := rec p in push BConcat) ps) (ev_concat ev ps)).
  { apply turns_each. eapply Forall_impl; [exact Hps|]. intros x Hx. repeat code_step. }
  destruct ps as [|q ps]; [auto|]. revert Hc. generalize (q :: ps) as l. intros l Hc.
  destruct (is_string_literal p); repeat code_step.
Qed.

(** ** Operators *)

Context (Hident : forall name loc, ev (XIdentifier name loc) = exec (BLoadLocal name) []).

Lemma leaves_unary o x : within x -> leaves (compile_unary rec o x) (ev_unary scope ev o x).
Proof.
  intros Hf. unfold compile_unary, ev_unary, ev_plus. destruct (stores_back x Hf) as [Ew Hw].
  destruct o; [repeat code_step..| |]; destruct x; try (repeat code_step; fail); try (rewrite Hident; cbn [write_back]);
    repeat code_step; apply Hw.
Qed.

Lemma leaves_postfix x o : is_target_expr x = true -> within x -> leaves (compile_postfix rec x o) (ev_postfix scope ev x o).
Proof.
  intros Ht Hf. unfold compile_postfix, ev_postfix, ev_plus. destruct (stores_back x Hf) as [Ew Hw].
  destruct x; try discriminate Ht; try (rewrite Hident; cbn [write_back]); destruct o; repeat code_step; apply Hw.
Qed.

(** Operators from left to right. *)
Definition ev_chain (l : list (cf_binary_op * M vm_value)) (acc : vm_value) : M vm_value :=
  st_foldM (fun acc n => let! b := n.2 in
                         match binary_opcode n.1 with Some op => exec op [acc; b] | None => st_panic end) acc l.

Lemma turns_chain l fs : Forall2 (fun n f => is_plain_binary n.1 = true /\ n.1 = f.1 /\ leaves (rec n.2) f.2) l fs ->
  turns scope (each (fun n => let! _ := rec n.2 in match binary_opcode n.1 with Some op => push op | None => st_panic end) l)
    (ev_chain fs).
Proof.
  unfold ev_chain. induction 1 as [|[o x] [o' f] l fs (Hb & Ho & Hx) _ IH]; cbn [each st_foldM fst snd] in *; [repeat code_step|].
  subst o'. destruct (binary_opcode o) as [op|] eqn:E; [|by destruct o].
  assert (Hop : signature op = Some (2, true)) by (destruct o; try discriminate Hb; by injection E as <-).
  split; [emitted|]. intros v vs. do 4 code_step; [done|].
  eapply does_op; [reflexivity|done|emitted|]. intros u. apply IH.
Qed.

(** ** Jumps *)

Lemma leaves_ternary c t e : within c -> within t -> within e -> leaves (compile_ternary rec c t e) (ev_ternary ev c t e).
Proof.
  intros Hc Ht He. change (compile_ternary rec c t e) with (let! _ := rec c in branches rec t e). unfold ev_ternary.
  assert (Eb : appends (branches rec t e)) by (apply appends_branches; emitted).
  repeat code_step. apply does_branches; auto.
Qed.

Lemma leaves_elvis l r : within l -> within r -> leaves (compile_elvis rec l r) (ev_elvis ev l r).
Proof.
  intros Hl Hr. pose proof (leaves_null_tolerant l Hl) as Ht.
  change (compile_elvis rec l r) with (elvis_code rec (compile_null_tolerant rec l) r (negb (elvis_left_is_infallible l))).
  split; [apply appends_elvis; emitted|]. intros vs. unfold ev_elvis. destruct (elvis_left_is_infallible l); cbn [negb].
  - apply does_assoc, does_assoc. eapply does_ext; [|apply (does_elvis_plain scope rec _ r vs _ _ Ht (Hrec _ Hr))].
    intros w. apply st_bind_cong; [done|]. intros v s. done.
  - apply does_assoc, does_elvis_guarded; auto.
Qed.
End Parts.

(** ** Targets of assignments *)

Section Assign.
Context {U : Unicode} {V : Vm} {B P : Type} (scope : place).
Abbreviation expr := (cf_expr B).
Abbreviation compiler := (Codegen.compiler (P := P)).
Abbreviation gen := (Codegen.gen (P := P)).
Abbreviation emission := (ST gen Empty_set).
Abbreviation M := (ST world (stop vm_value)).
Local Notation appends := (appends (P := P) scope).
Local Notation does := (does (P := P) scope).
Local Notation leaves := (leaves (P := P) scope).
Local Notation plain_compiler := (plain_compiler (P := P) scope).
Context (rec : expr -> emission unit) (ev : expr -> M vm_value) (h : nat).
Local Notation within := (within (B := B) h).
Context (Hrec : forall x, within x -> leaves (rec x) (ev x)).
#[local] Hint Resolve Hrec appends_rec : codegen.

Lemma leaves_index_base e : within e -> leaves (compile_index_assign_base rec e) (ev_index_base scope ev e).
Proof.
  induction e; intros Hf; cbn [compile_index_assign_base ev_index_base]; try (by apply Hrec).
  - destruct (self_is_reserved_scope_name name); [by apply Hrec|by apply leaves_op].
  - apply within_member in Hf. specialize (IHe Hf). repeat code_step.
  - apply within_index in Hf as [Ha Hi]. specialize (IHe1 Ha). repeat code_step.
  - assert (Hthis : leaves (if on_page scope then push (BTryLoadLocal (lit "this")) else rec (XThis loc))
      (if on_page scope then exec (BTryLoadLocal (lit "this")) [] else ev (XThis loc)))
      by (destruct (on_page scope); [by apply leaves_op|by apply Hrec]).
    split; [eapply appends_asks; [apply asks_page|emitted]|]. intros vs. eapply does_asks; [apply asks_page|]. by apply Hthis.
Qed.

(** A store to the value on top of the stack. *)
Definition deposits (m : emission unit) (f : vm_value -> M (list vm_value)) : Prop :=
  appends m /\ forall v vs, does m (v :: vs) (let! ys := f v in st_ret (ys ++ vs)).

Lemma deposits_stores m f : stores scope m f -> deposits m (fun v => nothing (f v)).
Proof. intros [Em Hm]. split; [done|]. intros v vs. unfold nothing. apply does_assoc. eapply does_ext; [|apply Hm]. intros w. by apply st_bind_cong. Qed.

Lemma deposits_op op : signature op = Some (1, false) -> deposits (push op) (fun v => nothing (exec op [v])).
Proof.
  intros Hs. split; [emitted|]. intros v vs. unfold nothing. apply does_emit_end, does_assoc.
  eapply does_do; [reflexivity|done|emitted|]. repeat code_step.
Qed.

(** Code in front that leaves the container. *)
Lemma does_write_back o v vs : within o ->
  does (emit_nested_writeback rec o) (v :: vs) (let! ys := nothing (write_back scope ev o v) in st_ret (ys ++ vs)).
Proof. intros Ho. by apply (deposits_stores _ _ (stores_back scope rec ev h Hrec o Ho)). Qed.
Lemma appends_write_back o : within o -> appends (emit_nested_writeback rec o).
Proof. intros Ho. by destruct (stores_back scope rec ev h Hrec o Ho). Qed.
#[local] Hint Resolve leaves_index_base appends_write_back : codegen.

Lemma deposits_skip m f : deposits m f -> deposits (let! _ := st_ret tt in m) f.
Proof. intros [Em Hm]. split; [emitted|]. intros v vs. apply does_emit_ret, Hm. Qed.

(** A container that is loaded, changed, and written back. *)
Lemma deposits_container mc fc m o : leaves mc fc -> within o ->
  deposits (let! _ := mc in let! _ := push BSwap in let! _ := push (BSetProperty m) in emit_nested_writeback rec o)
    (fun v => let! container := fc in let! container := exec (BSetProperty m) [container; v] in
              nothing (write_back scope ev o container)).
Proof. intros Hc Ho. split; [emitted|]. intros v vs. repeat code_step. by apply does_write_back. Qed.

Lemma deposits_ident_member o name m ns : within o ->
  deposits (store_ident_member rec false o name m ns) (ev_store_ident_member scope ev o name m ns).
Proof.
  intros Ho. unfold store_ident_member, ev_store_ident_member. cbn [dup_if].
  destruct (negb _); [by apply deposits_skip, deposits_op|].
  destruct (eq_ignore_ascii_case name _); [by apply deposits_skip, deposits_stores, stores_local_key|].
  match goal with |- deposits (st_bind _ ?m) ?f => assert (Hm : deposits (m (in_function scope)) f) end.
  { destruct (eq_ignore_ascii_case name _ && in_function scope); [by apply deposits_op|].
    destruct (_ && _); [by apply deposits_op|]. apply deposits_container; auto. }
  destruct Hm as [Em Hm]. split; [eapply appends_asks; [apply asks_function|exact Em]|].
  intros v vs. eapply does_asks; [apply asks_function|apply Hm].
Qed.

Lemma deposits_member o m ns : within o -> deposits (store_member rec false o m ns) (ev_store_member scope ev o m ns).
Proof.
  intros Ho. unfold store_member, ev_store_member.
  assert (Hpath : forall path, deposits (let! _ := push BDup in push (BSetScopePath (new_scope_path path)))
    (fun v => let! _ := exec (BSetScopePath (new_scope_path path)) [v] in st_ret [v]))
    by (intros path; split; [emitted|]; intros v vs; repeat code_step).
  destruct (scope_rooted_nested_path o m), (bare_rooted_nested_path o m); try done.
  destruct o; try (apply deposits_skip, deposits_container; emitted). cbn [andb]. by apply deposits_ident_member.
Qed.

Lemma deposits_store l : within l -> deposits (compile_store rec false l) (ev_store scope ev l).
Proof.
  intros Hl. unfold compile_store, ev_store. destruct l; try (split; [emitted|intros v0 vs; repeat code_step]; fail).
  - by apply deposits_skip, deposits_op.
  - apply deposits_member. by eapply within_member.
  - apply within_index in Hl as [Ha Hi]. apply deposits_skip. split; [emitted|]. intros v vs. repeat code_step. by apply does_write_back.
Qed.

(** ** The guard of a store *)

Section Guard.
Context (path : str) (store : emission unit).

Definition guarded : emission unit :=
  let! guard_idx := next_index in
  let! _ := push (BJumpIfNotNull 0) in
  let! _ := push BPop in
  let! _ := push (BUnsetPath path) in
  let! end_idx := next_index in
  let! _ := push (BJump 0) in
  let! _ := patch_here guard_idx BJumpIfNotNull in
  let! _ := store in
  patch_here end_idx BJump.

Lemma guarded_code c l : plain_compiler c -> appends store -> exists seg,
  let l1 := l ++ [BJumpIfNotNull (length l + 4); BPop; BUnsetPath path; BJump 0] in
  store (Gen c l1) = (Gen c (l1 ++ seg), Ok tt)
  /\ guarded (Gen c l)
     = (Gen c (l ++ [BJumpIfNotNull (length l + 4); BPop; BUnsetPath path; BJump (length l + 4 + length seg)] ++ seg), Ok tt).
Proof.
  intros Hc Es. destruct (Es c (l ++ [BJumpIfNotNull (length l + 4); BPop; BUnsetPath path; BJump 0]) Hc) as [seg E].
  exists seg. cbn zeta. split; [done|]. unfold guarded, next_index, push, patch_here, next_index, st_bind. cbn [gn_instructions gn_compiler].
  rewrite <-!app_assoc. cbn [app]. rewrite (patch_at c l) by done.
  replace (length (l ++ [BJumpIfNotNull 0; BPop; BUnsetPath path; BJump 0])) with (length l + 4) by solve_code. rewrite E.
  cbn [gn_instructions].
  replace ((l ++ [BJumpIfNotNull (length l + 4); BPop; BUnsetPath path; BJump 0]) ++ seg)
    with ((l ++ [BJumpIfNotNull (length l + 4); BPop; BUnsetPath path]) ++ BJump 0 :: seg) by same_code.
  rewrite (patch_at c) by solve_code.
  replace (length ((l ++ [BJumpIfNotNull (length l + 4); BPop; BUnsetPath path]) ++ BJump 0 :: seg))
    with (length l + 4 + length seg) by solve_code.
  do 2 f_equal. same_code.
Qed.

Lemma deposits_guarded f : deposits store f ->
  deposits guarded (fun v => if is_null v then nothing (exec (BUnsetPath path) []) else f v).
Proof.
  intros [Es Hs]. split.
  { intros c l Hc. destruct (guarded_code c l Hc Es) as (seg & _ & E). eauto. }
  intros v vs c l seg pre rest st hs w Hc Hm Hp Hh. destruct (guarded_code c l Hc Es) as (sb & F & E).
  rewrite E in Hm. injection Hm as Hm. apply app_inv_head in Hm. subst seg. cbn [app].
  eapply (step_at pre); [done|lia|]. cbn [step_op app]. destruct (is_null v).
  - eapply (step_at (pre ++ [_])); [same_code|solve_code|]. cbn [step_op drop].
    eapply (step_at (pre ++ [_; _])); [same_code|solve_code|]. unfold nothing, st_bind.
    rewrite (step_op_exec _ 0 false) by (done || lia). rewrite !drop_0, take_0. cbn [rev].
    rewrite proceed_above by done.
    destruct (exec (BUnsetPath path) [] w) as [w1 [u|[x|]|]]; [|apply rtc_refl..]. cbn [proceed].
    eapply (step_at (pre ++ [_; _; _])); [same_code|solve_code|]. apply (landing_here _ _ _ vs). solve_code.
  - eapply (does_at scope store (v :: vs) _ c _ sb (pre ++ [_; _; _; _]) rest); [apply Hs|done|exact F|same_code|solve_code..|done].
Qed.
End Guard.

(** ** The assignment *)

(** As a compiler that is not in value position compiles it. *)
Definition plain_assignment (left right : expr) : emission unit :=
  if is_path_literal left then
    let! _ := rec left in
    let! _ := rec right in
    push BSetDynamicVar
  else
    let! _ := rec right in
    match (if expr_may_be_null right then expr_assign_unset_path left else None) with
    | Some path => guarded path (compile_store rec false left)
    | None => compile_store rec false left
    end.

Lemma set_need_good c l : plain_compiler c -> set_need false (Gen c l) = (Gen c l, Ok tt).
Proof. intros [Hn _]. unfold set_need. cbn [gn_compiler gn_instructions]. destruct c; cbn in *; by subst. Qed.

Lemma compile_assignment_plain left right c l : within right -> plain_compiler c ->
  compile_assignment rec left right (Gen c l) = plain_assignment left right (Gen c l).
Proof.
  intros Hr Hc. destruct (appends_rec scope rec ev h Hrec right Hr c l Hc) as [seg E]. unfold compile_assignment, plain_assignment.
  unfold st_bind at 1. unfold asks. cbn [gn_compiler]. unfold st_bind at 1. rewrite set_need_good by done.
  destruct (is_path_literal left); [done|].
  assert (Hna : is_assign right = false) by (destruct Hr as [Hv _]; inv Hv; try done; by destruct o).
  rewrite Hna. unfold st_bind at 1. rewrite set_need_good by done. unfold st_bind at 1. rewrite E.
  unfold st_bind at 1. rewrite set_need_good by done. destruct Hc as [-> _]. unfold st_bind at 3. rewrite E.
  unfold null_guard. destruct (if expr_may_be_null right then _ else _) as [path|].
  - unfold guarded, st_bind, next_index, push, st_ret. cbn [gn_instructions gn_compiler]. by destruct (patch_here _ _ _) as [? [[]| |]].
  - unfold st_bind, st_ret. by destruct (compile_store _ _ _ _) as [? [[]|[]|]].
Qed.

Lemma assignment_runs left right : within left -> within right ->
  appends (compile_assignment rec left right)
  /\ forall vs, does (compile_assignment rec left right) vs (let! ys := ev_assign scope ev left right in st_ret (ys ++ vs)).
Proof.
  intros Hl Hr.
  assert (Hs : deposits (match (if expr_may_be_null right then expr_assign_unset_path left else None) with
                        | Some path => guarded path (compile_store rec false left)
                        | None => compile_store rec false left
                        end)
    (fun v => match (if expr_may_be_null right then expr_assign_unset_path left else None) with
              | Some path => if is_null v then nothing (exec (BUnsetPath path) []) else ev_store scope ev left v
              | None => ev_store scope ev left v
              end)).
  { destruct (if expr_may_be_null right then _ else _); [apply deposits_guarded|]; by apply deposits_store. }
  destruct Hs as [Es Hs]. assert (Hp : appends (plain_assignment left right)) by (unfold plain_assignment; destruct (is_path_literal left); emitted).
  split; [intros c l Hc; rewrite compile_assignment_plain by done; by apply Hp|]. intros vs.
  assert (Hruns : does (plain_assignment left right) vs (let! ys := ev_assign scope ev left right in st_ret (ys ++ vs))).
  { unfold plain_assignment, ev_assign. destruct (is_path_literal left); repeat code_step. apply Hs. }
  intros c l seg pre rest st hs w Hc Hm. rewrite compile_assignment_plain in Hm by done. by apply (Hruns c).
Qed.
End Assign.

Section Sound.
Context {U : Unicode} {V : Vm} {B P : Type} (scope : place) (is_direct_builtin : str -> bool).
Abbreviation expr := (cf_expr B).
Abbreviation compiler := (Codegen.compiler (P := P)).
Abbreviation gen := (Codegen.gen (P := P)).
Abbreviation emission := (ST gen Empty_set).
Abbreviation M := (ST world (stop vm_value)).
Local Notation leaves := (leaves (P := P) scope).
Local Notation meaning := (evaluate (B := B) is_direct_builtin scope).
Local Notation within := (within (B := B)).

(** ** Chains of operators *)

Section Spine.
Context (rec : expr -> emission unit) (h : nat).
Context (Hrec : forall x k, within h x -> height x < k -> leaves (rec x) (meaning k x)).

Lemma within_binary l o r loc : within h (XBinaryOp l o r loc) -> within h l /\ within h r.
Proof. intros [Hv Hh]. inv Hv. cbn in Hh. split_and!; split; try done; lia. Qed.

Lemma st_foldM_app {S E A C} (f : C -> A -> ST S E C) acc l l' :
  meq (st_foldM f acc (l ++ l')) (let! acc := st_foldM f acc l in st_foldM f acc l').
Proof.
  revert acc. induction l as [|x l IH]; intros acc; cbn [app st_foldM]; [by rewrite st_bind_ret_l|].
  rewrite st_bind_assoc. apply st_bind_cong; [done|]. intros a. apply IH.
Qed.

Lemma short_spine o e k : is_short_circuit o = true -> within h e -> height e < k ->
  let sp := left_spine (fun o' => bool_decide (o' = o)) e in
  let on_true := bool_decide (o = OOr) in
  exists f0 fs, leaves (rec sp.1) f0 /\ Forall2 (fun n f => leaves (rec n.2) f) sp.2 fs
  /\ forall otherwise, meq (decide_among on_true [meaning k e] otherwise) (decide_among on_true (f0 :: fs) otherwise).
Proof.
  intros Ho. cbn zeta. set (on_true := bool_decide (o = OOr)).
  assert (Hbase : forall e k, within h e -> height e < k -> exists f0 fs, leaves (rec e) f0
    /\ Forall2 (fun (n : cf_binary_op * expr) f => leaves (rec n.2) f) [] fs
    /\ forall otherwise, meq (decide_among on_true [meaning k e] otherwise) (decide_among on_true (f0 :: fs) otherwise)).
  { intros x k' Hx Hk'. exists (meaning k' x), []. split_and!; [by apply Hrec|constructor|done]. }
  revert k. induction e; intros k Hf Hk; try (by apply Hbase).
  cbn [left_spine]. destruct (bool_decide_reflect (op = o)) as [->|Hne]; [|by apply Hbase].
  apply within_binary in Hf as [H1 H2]. destruct k as [|k]; [lia|]. cbn [height] in Hk.
  destruct (IHe1 k H1 ltac:(lia)) as (f0 & fs & Hf0 & Hfs & Hmeq).
  exists f0, (fs ++ [meaning k e2]). cbn [fst snd]. split_and!; [done| |].
  { apply Forall2_app; [done|]. constructor; [|constructor]. apply Hrec; [done|lia]. }
  intros otherwise.
  assert (Hev : meq (meaning (S k) (XBinaryOp e1 o e2 loc))
    (decide_among on_true [meaning k e1; meaning k e2] (st_ret (vm_bool (negb on_true))))).
  { rewrite <-ev_short_circuit_flat. subst on_true. by destruct o. }
  transitivity (decide_among on_true [meaning k e1; meaning k e2] otherwise).
  - rewrite (decide_among_cond on_true [meaning k e1; _]). cbn [decide_among]. by apply st_bind_cong.
  - change (decide_among on_true [meaning k e1; meaning k e2] otherwise)
      with (decide_among on_true [meaning k e1] (decide_among on_true [meaning k e2] otherwise)).
    rewrite Hmeq. by rewrite app_comm_cons, decide_among_app.
Qed.

Lemma leaves_short_circuit l o r loc k : is_short_circuit o = true -> within h l -> within h r -> height l < k -> height r < k ->
  leaves (compile_short_circuit rec o (XBinaryOp l o r loc)) (ev_binary (meaning k) l o r).
Proof.
  intros Ho Hl Hr Hkl Hkr. unfold compile_short_circuit. cbn [left_spine]. rewrite (bool_decide_eq_true_2 (o = o)) by done. cbn [fst snd].
  destruct (short_spine o l k Ho Hl Hkl) as (f0 & fs & Hf0 & Hfs & Hmeq). set (on_true := bool_decide (o = OOr)) in *.
  assert (Hops : Forall2 (fun x f => leaves (rec x) f)
    ((left_spine (fun o' => bool_decide (o' = o)) l).1 :: map snd ((left_spine (fun o' => bool_decide (o' = o)) l).2 ++ [(o, r)]))
    (f0 :: fs ++ [meaning k r])).
  { constructor; [done|]. apply Forall2_fmap_l, Forall2_app; [done|]. constructor; [by apply Hrec|constructor]. }
  eapply leaves_ext; [|by apply leaves_operands].
  transitivity (ev_short_circuit (meaning k) on_true l r); [subst on_true; by destruct o|]. rewrite ev_short_circuit_flat.
  rewrite app_comm_cons, decide_among_app, <-Hmeq. done.
Qed.

Lemma ev_binary_chain l o r k f0 fs : is_plain_binary o = true -> meq (meaning k l) (let! v := f0 in ev_chain fs v) ->
  meq (ev_binary (meaning k) l o r) (let! v := f0 in ev_chain (fs ++ [(o, meaning k r)]) v).
Proof.
  intros Ho Hl. transitivity (let! a := meaning k l in ev_chain [(o, meaning k r)] a).
  - unfold ev_chain. cbn [st_foldM fst snd]. transitivity (let! a := meaning k l in let! b := meaning k r in
      match binary_opcode o with Some c => exec c [a; b] | None => st_panic end); [by destruct o|].
    apply st_bind_cong; [done|intros a]. by rewrite st_bind_ret_r.
  - rewrite Hl, st_bind_assoc. apply st_bind_cong; [done|intros a]. unfold ev_chain. by rewrite st_foldM_app.
Qed.

Lemma chain_spine e k : within h e -> height e < k -> let sp := left_spine is_plain_binary e in
  exists f0 fs, leaves (rec sp.1) f0
  /\ Forall2 (fun n f => is_plain_binary n.1 = true /\ n.1 = f.1 /\ leaves (rec n.2) f.2) sp.2 fs
  /\ meq (meaning k e) (let! v := f0 in ev_chain fs v).
Proof.
  cbn zeta. assert (Hbase : forall e k, within h e -> height e < k -> exists f0 fs, leaves (rec e) f0
    /\ Forall2 (fun (n : cf_binary_op * expr) f => is_plain_binary n.1 = true /\ n.1 = f.1 /\ leaves (rec n.2) f.2) [] fs
    /\ meq (meaning k e) (let! v := f0 in ev_chain fs v)).
  { intros x k' Hx Hk'. exists (meaning k' x), []. split_and!; [by apply Hrec|constructor|]. unfold ev_chain. cbn [st_foldM].
    by rewrite st_bind_ret_r. }
  revert k. induction e; intros k Hf Hk; try (by apply Hbase).
  cbn [left_spine]. destruct (is_plain_binary op) eqn:Hp; [|by apply Hbase].
  apply within_binary in Hf as [H1 H2]. destruct k as [|k]; [lia|]. cbn [height] in Hk.
  destruct (IHe1 k H1 ltac:(lia)) as (f0 & fs & Hf0 & Hfs & Hmeq).
  exists f0, (fs ++ [(op, meaning k e2)]). cbn [fst snd]. split_and!; [done| |].
  { apply Forall2_app; [done|]. constructor; [|constructor]. split_and!; [done..|]. apply Hrec; [done|lia]. }
  by apply ev_binary_chain.
Qed.

Lemma leaves_chain l o r loc k : is_plain_binary o = true -> within h l -> within h r -> height l < k -> height r < k ->
  leaves (compile_chain rec (XBinaryOp l o r loc)) (ev_binary (meaning k) l o r).
Proof.
  intros Ho Hl Hr Hkl Hkr. unfold compile_chain. cbn [left_spine]. rewrite Ho. cbn [fst snd].
  destruct (chain_spine l k Hl Hkl) as (f0 & fs & Hf0 & Hfs & Hmeq).
  assert (Hall : Forall2 (fun n f => is_plain_binary n.1 = true /\ n.1 = f.1 /\ leaves (rec n.2) f.2)
    ((left_spine is_plain_binary l).2 ++ [(o, r)]) (fs ++ [(o, meaning k r)])).
  { apply Forall2_app; [done|]. constructor; [|constructor]. split_and!; [done..|by apply Hrec]. }
  apply turns_chain in Hall as Ht. eapply leaves_ext; [|split; [emitted|]; intros vs; apply does_assoc; code_step; [done|]; apply Ht].
  by apply ev_binary_chain.
Qed.
End Spine.

(** ** All expressions *)

Context (compile_function : expr -> compiler -> compiler * N).
Local Notation code_of := (compile_expression compile_function is_direct_builtin).

Lemma pairs_fit h (ps : list (expr * expr)) : Forall (fun p => valued p.1 /\ valued p.2) ps ->
  max_of (fun p => Nat.max (height p.1) (height p.2)) ps <= h -> Forall (pair_fits h) ps.
Proof.
  intros Hv Hm%max_of_le. eapply Forall_impl; [apply Forall_and; split; [exact Hv|exact Hm]|].
  intros p [[H1 H2] Hh]. cbn beta in Hh. split; split; try done; lia.
Qed.

Lemma height_succ (e : expr) : exists h, height e = S h.
Proof. destruct e as [[]| | | | | | | | | | | | | | | | | | | | | | |]; cbn [height]; eauto. Qed.

Local Ltac fit := first [done | by split; [|lia] | by apply all_fit_le; [|lia] | by apply pairs_fit; [|lia]].

Lemma compile_leaves n e : valued e -> height e < n -> forall k, height e < k -> leaves (code_of n e) (meaning k e).
Proof.
  revert e. induction n as [|n IH]; intros e He Hn k Hk; [lia|]. destruct k as [|k]; [lia|]. cbn [compile_expression evaluate].
  destruct (height_succ e) as [h Eh].
  assert (Hall : forall x j, within h x -> height x < j -> leaves (code_of n x) (meaning j x))
    by (intros x j [Hv Hh] Hj; apply IH; [done|lia|done]).
  assert (Hrec : forall x, within h x -> leaves (code_of n x) (meaning k x)) by (intros x Hx; apply Hall; [done|destruct Hx; lia]).
  assert (Hident : forall name loc, meaning k (XIdentifier name loc) = exec (BLoadLocal name) []) by (destruct k; [lia|done]).
  inv He; cbn [height] in Eh; cbn [compile_body ev_body].
  - apply leaves_op. by destruct v as [|[]| | |].
  - by apply leaves_op.
  - apply (leaves_array _ _ _ h); fit.
  - apply (leaves_struct _ _ _ h); fit.
  - apply (leaves_call _ _ _ h); fit.
  - apply (leaves_method_call _ _ _ h); fit.
  - apply (leaves_static_call _ _ _ h); fit.
  - assert (Hx : within h x) by fit. pose proof (leaves_static_holder _ _ _ h Hrec x Hx). repeat code_step.
  - apply (leaves_member _ _ _ h); fit.
  - assert (Hx : leaves (code_of n x) (meaning k x)) by (apply Hrec; fit).
    assert (Hy : leaves (code_of n y) (meaning k y)) by (apply Hrec; fit). repeat code_step.
  - apply (leaves_unary _ _ _ h); fit.
  - rewrite bool_decide_eq_false_2 by done. cbn in Hk. destruct (is_short_circuit o) eqn:E.
    + apply (leaves_short_circuit _ h); first [done|lia|fit].
    + apply (leaves_chain _ h); first [done|lia|fit|by destruct o].
  - apply (leaves_ternary _ _ _ h); fit.
  - apply (leaves_new _ _ _ h); fit.
  - by apply leaves_op.
  - by apply leaves_op.
  - apply (leaves_postfix _ _ _ h); fit.
  - apply (leaves_interpolation _ _ _ h); fit.
  - apply (leaves_elvis _ _ _ h); fit.
  - apply Hrec; fit.
  - apply Hrec; fit.
  - by apply leaves_op.
Qed.
End Sound.

Section Correct.
Context {U : Unicode} {V : Vm} {B P : Type} (is_direct_builtin : str -> bool).
Abbreviation expr := (cf_expr B).
Abbreviation compiler := (Codegen.compiler (P := P)).
Context (compile_function : expr -> compiler -> compiler * N).
Local Notation code_of := (compile_expression compile_function is_direct_builtin).
Abbreviation M := (ST world (stop vm_value)).

Definition place_of (c : compiler) : place := Place (local_is_scope c) (on_plain_page c).

(** Where a value leaves the machine, or an exception, or the end of the request. *)
Definition arrives (ip : nat) (st : list vm_value) (hs : list try_handler) (r : world * outcome (stop vm_value) vm_value)
    : machine :=
  proceed r st hs (fun v w => Running ip (v :: st) hs w).

Lemma good_place c : cc_need_assign_value c = false -> plain_compiler (place_of c) c.
Proof. by intros. Qed.

(** C6. The code that [compile_expression] appends for an expression, at its
    place in any program, with any operands below it and any handlers around it,
    does what the evaluation of the expression does: its value is on the stack
    behind the code, its exception goes to the innermost handler with the stack
    cut back, and nothing else of the compiler or of the stack is changed. *)
Theorem compile_expression_correct (c : compiler) l n k e : cc_need_assign_value c = false -> valued e ->
  height e < n -> height e < k ->
  exists seg, code_of n e (Gen c l) = (Gen c (l ++ seg), Ok tt)
  /\ forall pre rest st hs w, length pre = length l -> ok_handlers hs st ->
     steps (pre ++ seg ++ rest) (Running (length l) st hs w)
       (arrives (length l + length seg) st hs (evaluate is_direct_builtin (place_of c) k e w)).
Proof.
  intros Hn Hv H1 H2. destruct (compile_leaves (place_of c) is_direct_builtin compile_function n e Hv H1 k H2) as [Em Hr].
  destruct (Em c l (good_place c Hn)) as [seg E]. exists seg. split; [done|]. intros pre rest st hs w Hp Hh.
  specialize (Hr [] c l seg pre rest st hs w (good_place c Hn) E Hp Hh). unfold landing, arrives, st_bind, st_ret in *.
  by destruct (evaluate _ _ _ _ w) as [w' [v|[x|]|]].
Qed.

(** ** The evaluation *)

Lemma steps_end code s s1 s2 : steps code s s1 -> steps code s s2 -> step code s1 = None -> step code s2 = None -> s1 = s2.
Proof.
  intros H1. revert s2. induction H1 as [s|s s' s1 Hs _ IH]; intros s2 H2 E1 E2; inversion H2 as [|? ? ? Hs2 Hr]; subst;
    [done|congruence|congruence|]. apply IH; [|done..]. by rewrite Hs in Hs2; injection Hs2 as ->.
Qed.

(** The state at the end of the code of an expression, alone on the stack. *)
Lemma arrives_end code ip r : length code = ip -> step code (arrives ip [] [] r) = None.
Proof. intros <-. destruct r as [w [v|[x|]|]]; try done. cbn. by rewrite lookup_ge_None_2. Qed.
Lemma arrives_inj ip r1 r2 : arrives ip [] [] r1 = arrives ip [] [] r2 -> r1 = r2.
Proof. destruct r1 as [w1 [v1|[x1|]|]], r2 as [w2 [v2|[x2|]|]]; cbn; try discriminate; by intros [= -> ->] || by intros [= ->]. Qed.

(** The run of the code from an empty stack. *)
Lemma expression_run (c : compiler) (e : expr) : cc_need_assign_value c = false -> valued e -> exists code,
  forall k w, height e < k -> steps code (Running 0 [] [] w)
    (arrives (length code) [] [] (evaluate is_direct_builtin (place_of c) k e w)).
Proof.
  intros Hn Hv.
  destruct (compile_leaves (place_of c) is_direct_builtin compile_function (S (height e)) e Hv ltac:(lia) (S (height e)) ltac:(lia))
    as [Em _]. destruct (Em c [] (good_place c Hn)) as [code E]. exists code. intros k w Hk.
  destruct (compile_leaves (place_of c) is_direct_builtin compile_function (S (height e)) e Hv ltac:(lia) k Hk) as [_ Hr].
  specialize (Hr [] c [] code [] [] [] [] w (good_place c Hn) E eq_refl I). cbn [app length] in Hr. rewrite app_nil_r in Hr.
  cbn in Hr. unfold landing, arrives, st_bind, st_ret in *. by destruct (evaluate _ _ _ _ w) as [w' [v|[x|]|]].
Qed.

Definition panicked (s : machine) : bool := match s with Panicked _ => true | _ => false end.

Lemma proceed_calm {A} (r : world * outcome (stop vm_value) A) st hs k : r.2 <> Panic ->
  (forall a w, panicked (k a w) = false) -> panicked (proceed r st hs k) = false.
Proof. destruct r as [w [a|[x|]|]]; try done; cbn; auto. intros _ _. by destruct hs. Qed.

Lemma step_op_calm op ip st hs w : (forall op args w, (exec op args w).2 <> Panic) -> (forall v w, (to_condition v w).2 <> Panic) ->
  panicked (step_op op ip st hs w) = false.
Proof.
  intros He Hc. destruct op; try done; cbn [step_op];
    try (destruct st as [|? ?]; [done|]; by apply proceed_calm);
    destruct (signature _) as [[? []]|]; try done; destruct (_ <? _); try done; by apply proceed_calm.
Qed.

Lemma steps_calm code s s' : (forall op args w, (exec op args w).2 <> Panic) -> (forall v w, (to_condition v w).2 <> Panic) ->
  steps code s s' -> panicked s = false -> panicked s' = false.
Proof.
  intros He Hc. induction 1 as [|s s1 s' Hs _ IH]; [done|]. intros _. apply IH. destruct s; try discriminate Hs. cbn in Hs.
  destruct (code !! ip); [|done]. injection Hs as <-. by apply step_op_calm.
Qed.

(** More fuel than the height of an expression does not change its
    evaluation, and the evaluation panics only if an instruction of the machine
    panics: the fuel is never what ends it. *)
Theorem evaluate_returns (c : compiler) (e : expr) : cc_need_assign_value c = false -> valued e ->
  (forall k k' w, height e < k -> height e < k' ->
     evaluate is_direct_builtin (place_of c) k e w = evaluate is_direct_builtin (place_of c) k' e w)
  /\ ((forall op args w, (exec op args w).2 <> Panic) -> (forall v w, (to_condition v w).2 <> Panic) ->
      forall k w, height e < k -> (evaluate is_direct_builtin (place_of c) k e w).2 <> Panic).
Proof.
  intros Hn Hv. destruct (expression_run c e Hn Hv) as [code Hrun]. split.
  - intros k k' w H1 H2. apply (arrives_inj (length code)), (steps_end code (Running 0 [] [] w)); auto using arrives_end.
  - intros He Hc k w Hk. pose proof (steps_calm code _ _ He Hc (Hrun k w Hk) eq_refl) as Hp.
    by destruct (evaluate _ _ _ _ w) as [w' [v|[x|]|]].
Qed.

(** ** Assignments *)

(** A statement that is none of the calls which are compiled in a way of their
    own: its value is discarded. *)
Definition compile_discarded (n : nat) (e : expr) : ST (gen (P := P)) Empty_set unit :=
  let! _ := code_of n e in push BPop.

Definition at_most_one (m : M (list vm_value)) : Prop := forall w w' ys, m w = (w', Ok ys) -> length ys <= 1.

Lemma at_most_one_ret ys : length ys <= 1 -> at_most_one (st_ret ys).
Proof. by intros H w w' zs [= _ <-]. Qed.
Lemma at_most_one_bind {A} (m : M A) k : (forall a, at_most_one (k a)) -> at_most_one (let! a := m in k a).
Proof. intros H w w' ys. unfold st_bind. destruct (m w) as [w1 [a| |]]; try discriminate. apply H. Qed.

Lemma ev_store_few scope (ev : expr -> M vm_value) left v : at_most_one (ev_store scope ev left v).
Proof.
  unfold ev_store, ev_store_member, ev_store_ident_member, nothing.
  repeat (case_match || (apply at_most_one_bind; intros ?) || (apply at_most_one_ret; cbn; lia)).
Qed.
Lemma ev_assign_few scope (ev : expr -> M vm_value) left right : at_most_one (ev_assign scope ev left right).
Proof.
  unfold ev_assign, nothing. repeat (case_match || apply ev_store_few || (apply at_most_one_bind; intros ?) || (apply at_most_one_ret; cbn; lia)).
Qed.

(** C7. The code of an assignment that is a statement, from the empty stack that
    statements have, evaluates the right-hand side once, stores it, or deletes
    the variable for [Null], and leaves the stack empty.  Neither side contains
    another assignment (so not [a = b = c]), defines a function or applies a
    postfix operator to what cannot be stored to ([valued]), and the recursion
    of the compiler and of the evaluation is deeper than both sides. *)
Theorem compile_assignment_correct (c : compiler) ls n k left right loc : cc_need_assign_value c = false ->
  valued left -> valued right -> height left < n -> height right < n -> height left < k -> height right < k ->
  exists seg, compile_discarded (S n) (XBinaryOp left OAssign right loc) (Gen c ls) = (Gen c (ls ++ seg), Ok tt)
  /\ forall pre rest hs w, length pre = length ls -> ok_handlers hs [] ->
     steps (pre ++ seg ++ rest) (Running (length ls) [] hs w)
       (proceed (ev_assign (place_of c) (evaluate is_direct_builtin (place_of c) k) left right w) [] hs
          (fun _ w => Running (length ls + length seg) [] hs w)).
Proof.
  intros Hn Hl Hr H1 H2 H3 H4. set (h := Nat.max (height left) (height right)). set (scope := place_of c).
  assert (Hrec : forall x, within h x -> leaves scope (code_of n x) (evaluate is_direct_builtin scope k x))
    by (intros x [Hx Hh]; apply compile_leaves; [done|lia..]).
  destruct (assignment_runs scope (code_of n) (evaluate is_direct_builtin scope k) h Hrec left right
    ltac:(split; [done|lia]) ltac:(split; [done|lia])) as [Em Hm].
  destruct (Em c ls (good_place c Hn)) as [seg E]. exists (seg ++ [BPop]).
  assert (E' : code_of (S n) (XBinaryOp left OAssign right loc) (Gen c ls) = (Gen c (ls ++ seg), Ok tt)) by exact E.
  unfold compile_discarded, push, st_bind. rewrite E'. cbn [gn_instructions gn_compiler]. rewrite <-app_assoc.
  split; [done|]. intros pre rest hs w Hp Hh. specialize (Hm [] c ls seg pre ([BPop] ++ rest) [] hs w (good_place c Hn) E Hp Hh).
  rewrite <-app_assoc. eapply steps_trans; [exact Hm|].
  pose proof (ev_assign_few scope (evaluate is_direct_builtin scope k) left right w) as Hf. unfold landing, st_bind, st_ret.
  destruct (ev_assign _ _ left right w) as [w' [ys|[x|]|]]; [|apply rtc_refl..]. specialize (Hf w' ys eq_refl).
  cbn [proceed]. rewrite !app_nil_r. eapply (step_at (pre ++ seg)); [same_code|solve_code|]. cbn [step_op].
  rewrite drop_ge by done. replace (length ls + length (seg ++ [BPop])) with (S (length ls + length seg)) by solve_code.
  apply rtc_refl.
Qed.
End Correct.
