(* ===== verification/CodegenWitnesses.v ===== *)
(** * CodegenWitnesses: the theorems on compiled expressions at a small machine *)

From Stdlib Require Import Strings.Ascii.
From stdpp Require Import base list numbers strings relations.
From S2P Require Import Prelude Text Float64 Value QoqLexer CfmlLexer CfmlAst CfmlParser Bytecode Codegen.
From S2P Require Import CodegenEval CodegenFacts CodegenCorrect.
From S2P Require Import Instances.
Local Open Scope nat_scope.

(** ** A machine with numbers, booleans and variables *)

Inductive small_value := SNull | SBool (b : bool) | SInt (z : Z).
Definition small_world := list (str * small_value).

Fixpoint small_get (name : str) (w : small_world) : option small_value :=
  match w with [] => None | (n, v) :: w => if bool_decide (n = name) then Some v else small_get name w end.
Definition small_without (name : str) (w : small_world) : small_world := filter (fun p => p.1 <> name) w.

Definition small_exec (op : bytecode_op) (args : list small_value) : ST small_world (stop small_value) small_value :=
  fun w =>
    match op, args with
    | BNull, [] => (w, Ok SNull)
    | BTrue, [] => (w, Ok (SBool true))
    | BFalse, [] => (w, Ok (SBool false))
    | BInteger z, [] => (w, Ok (SInt z))
    | BLoadLocal n, [] => (w, match small_get n w with Some v => Ok v | None => Err (Raise SNull) end)
    | BTryLoadLocal n, [] => (w, Ok (default SNull (small_get n w)))
    | BLoadLocalProperty _ _, [] => (w, Ok SNull)
    | BStoreLocal n, [v] => ((n, v) :: small_without n w, Ok SNull)
    | BUnsetPath n, [] => (small_without n w, Ok SNull)
    | BAdd, [SInt a; SInt b] => (w, Ok (SInt (a + b)))
    | BNegate, [SInt a] => (w, Ok (SInt (- a)))
    | BGt, [SInt a; SInt b] => (w, Ok (SBool (b <? a)%Z))
    | _, _ => (w, Err (Raise SNull))
    end.

Lemma small_bool (b : bool) w : small_exec (if b then BTrue else BFalse) [] w = (w, Ok (SBool b)).
Proof. by destruct b. Qed.

#[global] Instance small : Vm := {|
  vm_value := small_value;
  world := small_world;
  output_mark := unit;
  exec := small_exec;
  to_condition := fun v w => (w, match v with SBool b => Ok b | _ => Err (Raise SNull) end);
  is_null := fun v => match v with SNull => true | _ => false end;
  capture_state := fun _ => tt;
  restore_capture_state := fun _ w => w;
  set_last_exception := fun x w => (lit "cfcatch", x) :: small_without (lit "cfcatch") w;
  vm_bool := SBool;
  exec_bool := small_bool;
  condition_bool := fun b w => eq_refl;
|}.

Definition page_compiler : compiler (P := unit) := Compiler 0 false false false tt.
Definition no_functions (e : cf_expr unit) (c : compiler (P := unit)) : compiler (P := unit) * N := (c, 0%N).
Definition no_builtins (name : str) : bool := false.
Definition there : source_location := SourceLocation (Position 0 0) (Position 0 0).
Definition variable (name : string) : cf_expr unit := XIdentifier (lit name) there.

(** [(-u ?: 3) + y > 6 or boom], where [u] and [boom] are not variables *)
Definition either_way : cf_expr unit :=
  XBinaryOp
    (XBinaryOp
       (XBinaryOp (XElvis (XUnaryOp UMinus (variable "u") there) (XLiteral (LInt 3) there) there) OAdd (variable "y") there)
       OGreater (XLiteral (LInt 6) there) there)
    OOr (variable "boom") there.
Lemma either_way_valued : valued either_way.
Proof. repeat constructor; done. Qed.
Definition y_is_four : small_world := [(lit "y", SInt 4)].

Lemma compile_expression_correct_witness :
  exists seg, compile_expression no_functions no_builtins 9 either_way (Gen page_compiler []) = (Gen page_compiler seg, Ok tt)
  /\ steps (V := small) seg (Running (V := small) 0 [] [] y_is_four) (Running (V := small) (length seg) [SBool true] [] ((lit "cfcatch", SNull) :: y_is_four)).
Proof.
  destruct (compile_expression_correct no_builtins no_functions page_compiler [] 9 9 either_way eq_refl either_way_valued
    ltac:(apply Nat.ltb_lt; by vm_compute) ltac:(apply Nat.ltb_lt; by vm_compute)) as (seg & E & H).
  exists seg. split; [exact E|]. specialize (H [] [] [] [] y_is_four eq_refl I). rewrite app_nil_r in H. exact H.
Defined.

Lemma evaluate_returns_witness :
  evaluate (V := small) no_builtins (place_of page_compiler) 9 either_way y_is_four
  = evaluate (V := small) no_builtins (place_of page_compiler) 40 either_way y_is_four
  /\ (evaluate (V := small) no_builtins (place_of page_compiler) 9 either_way y_is_four).2 <> Panic.
Proof.
  destruct (evaluate_returns no_builtins no_functions page_compiler either_way eq_refl either_way_valued) as [H1 H2].
  split; [apply H1; apply Nat.ltb_lt; by vm_compute|]. apply H2; [| |apply Nat.ltb_lt; by vm_compute].
  - intros op args w. cbn. unfold small_exec. by repeat case_match.
  - by intros [].
Defined.

(** [x = y.z], which is [Null] *)
Lemma compile_assignment_correct_witness :
  exists seg, compile_discarded no_builtins no_functions 5
      (XBinaryOp (variable "x") OAssign (XMemberAccess (variable "y") (lit "z") false there) there) (Gen page_compiler [])
      = (Gen page_compiler seg, Ok tt)
  /\ steps (V := small) seg (Running (V := small) 0 [] [] ((lit "x", SInt 1) :: y_is_four)) (Running (V := small) (length seg) [] [] y_is_four).
Proof.
  destruct (compile_assignment_correct no_builtins no_functions page_compiler [] 4 4 (variable "x")
    (XMemberAccess (variable "y") (lit "z") false there) there eq_refl ltac:(constructor) ltac:(repeat constructor)
    ltac:(apply Nat.ltb_lt; by vm_compute) ltac:(apply Nat.ltb_lt; by vm_compute)
    ltac:(apply Nat.ltb_lt; by vm_compute) ltac:(apply Nat.ltb_lt; by vm_compute)) as (seg & E & H).
  exists seg. split; [exact E|]. specialize (H [] [] [] ((lit "x", SInt 1) :: y_is_four) eq_refl I).
  rewrite app_nil_r in H. exact H.
Defined.

(** ** Where the code leaves no value *)

Definition run_alone (e : cf_expr unit) (w : small_world) : machine (V := small) :=
  match compile_expression no_functions no_builtins 9 e (Gen page_compiler []) with
  | (Gen _ code, Ok _) => run 40 code (Running (V := small) 0 [] [] w)
  | _ => Panicked w
  end.

(** [1 + (x = 2)]: the sum finds one operand. *)
Lemma assignment_operand_stuck :
  run_alone (XBinaryOp (XLiteral (LInt 1) there) OAdd
    (XBinaryOp (variable "x") OAssign (XLiteral (LInt 2) there) there) there) [] = Stuck.
Proof. by vm_compute. Qed.

(** [a = x = 2] stores in both; [a = x = y.z], where the right-hand side is
    [Null], finds no value for [a]. *)
Lemma chained_null_stuck :
  run_alone (XBinaryOp (variable "a") OAssign
    (XBinaryOp (variable "x") OAssign (XLiteral (LInt 2) there) there) there) []
  = Running (V := small) 4 [] [] [(lit "a", SInt 2); (lit "x", SInt 2)]
  /\ run_alone (XBinaryOp (variable "a") OAssign
    (XBinaryOp (variable "x") OAssign (XMemberAccess (variable "y") (lit "z") false there) there) there) [] = Stuck.
Proof. by vm_compute. Qed.
